(* ===== verification/_CoqProject ===== *)
-Q . S2P
Prelude.v
GoLib.v
GoStrings.v
Rendezvous.v
PlacementStore.v
PlacementDisseminator.v
DisseminatorInv.v
DisseminatorProps.v
PlacementStream.v
PlacementNamespaces.v
HostAuthz.v
ConsistentHash.v
ClaimLock.v
ActorLocal.v
Inflight.v
InflightProps.v
SidecarDisseminator.v
SidecarProps.v
ActorLock.v
RemoteHosts.v
PlacementLoop.v
PlacementLoopProps.v
SchedulerStore.v
SchedulerConnections.v
SchedulerInv.v
SchedulerPhases.v
SchedulerMembers.v
SchedulerStream.v
Transports.v
SchedulerProps.v
PlacementEndToEnd.v
SchedulerNamespaces.v
PoolStore.v
PoolConnections.v
PoolGates.v
PoolStream.v
PoolSystem.v
PoolEffects.v
PoolProps.v
PoolDelivery.v
PoolNamespaces.v
AclTrie.v
Acl.v
AclProps.v
MethodNames.v
WorkflowState.v
WorkflowSync.v
WorkflowChanges.v
WorkflowLoad.v
WorkflowProps.v
WorkflowHosts.v
WorkflowSystem.v
WorkflowInstances.v
WorkflowWitness.v
ResiliencyRetry.v
GoTime.v
ResiliencyRunner.v
ResiliencyRunnerProps.v
Resiliency.v
ResiliencyProps.v
ResiliencyWitness.v
GoDate.v
Timers.v
TimersInv.v
TimersLoops.v
TimersCount.v
TimersProps.v
ActorTable.v
ActorTableProps.v
SchedulerJobs.v
SchedulerJobsProps.v
