(* ===== verification/Prelude.v ===== *)
(** * Dapr actors and jobs: shared prelude and overview of the development

    Dapr places virtual actors on the sidecars (daprd) of a namespace.  A
    placement authority keeps the set of hosts with the actor types they serve
    and disseminates placement tables; each sidecar routes actor calls with the
    installed tables, and runs the calls of an actor one turn at a time.  The
    scheduler is the newer of the two authorities, and also triggers jobs and
    reminders on the connected sidecars.  This library models that core of the
    repository and proves the properties it rests on.

    ** The parts and how they interact

    The placement service (pkg/placement) runs a router per server, a
    dissemination loop per namespace and a stream loop per connected sidecar:

    - [PlacementNamespaces] (loops/namespaces): routes connections, reports and
      closes to the dissemination loop of their namespace and counts the
      connections;
    - [PlacementDisseminator] (loops/disseminator): the three-phase round LOCK,
      UPDATE, UNLOCK over the streams of a namespace, with timeouts, queued
      connections and deletions, and the coalesce window;
    - [PlacementStore] (loops/disseminator/store): the hosts reported by the
      streams and the tables built from them;
    - [PlacementStream] (loops/stream): turns the events of one stream into the
      orders sent to the sidecar;
    - [HostAuthz] (pkg/actors/hostauthz, placement/internal/authorizer): which
      reports are accepted.

    The scheduler (pkg/scheduler/server/internal) serves placement with rounds
    scoped to actor types, and delivers triggers through a pool of streams:

    - [SchedulerNamespaces] (placement/loops/namespaces, placement.go): the
      router and the admission of streams, while this scheduler leads;
    - [SchedulerConnections] (placement/loops/connections): overlapping rounds
      over disjoint sets of types, snapshots for new streams, evictions;
      [SchedulerStore] (placement/loops/store) its hosts, [SchedulerStream]
      (placement/loops/stream) the messages of one stream;
    - [PoolNamespaces] (pool/loops/namespaces): one connections loop per
      namespace with connected sidecars;
    - [PoolConnections] (pool/loops/connections): hands triggers to streams,
      through the gates of the concurrency limits; [PoolStore]
      (pool/loops/connections/store) finds the stream of an app or an actor,
      [PoolStream] (pool/loops/stream) sends the triggers and resolves them;
    - [SchedulerJobs] (server/api.go, internal/serialize, internal/authz): the
      requests that schedule, read, list and delete jobs, their authorization
      and the keys under which the jobs are kept; [SchedulerJobsProps] its
      theorems.

    A sidecar (pkg/actors) runs a placement loop, and per stream a
    dissemination loop, which share the installed tables:

    - [PlacementLoop] (internal/placement/loops/placement/placement.go): chooses
      and changes the authority, opens stream sessions, keeps requests while
      disconnected;
    - [SidecarDisseminator] (loops/disseminator: order.go, order_v2.go): handles
      orders of the v1 protocol (placement service: global versions) and of the
      v2 protocol (scheduler: rounds scoped to actor types);
    - [Inflight] (loops/disseminator/inflight): the tables, blocked types,
      queued requests; [ClaimLock] (inflight/lock): the claims of calls in
      progress, drained when their type moves;
    - [Rendezvous] (pkg/actors/hashing/rendezvous), [ConsistentHash]
      (pkg/placement/hashing): the two hash tables; [ActorLocal]: locality of an
      address;
    - [Transports] (loops/stream): the wire formats of the two protocols behind
      one interface, and the stream loop over it;
    - [RemoteHosts] (loops/placement/remotehosts.go): subscriptions to whether
      another sidecar hosts a type;
    - [ActorLock] (targets/app/lock): the turns of one actor, with reentrancy;
    - [ActorTable] (table/table.go): the types a sidecar hosts and the factories
      of their actors, registered, replaced, drained and halted while calls
      create actors; [ActorTableProps] its theorems;
    - [Timers] (internal/timers/inmemory, timers, api): the timers of the actors,
      from the request to the callback, with the queue and the loops that run
      them, and the path of a fire through router/router.go and
      targets/app/app.go; [TimersInv], [TimersLoops] and [TimersCount] their
      invariants, [TimersProps] the theorems; [GoDate] the parts of Go's time
      package that a period needs.

    Calls between apps pass the access control list of the called sidecar:

    - [MethodNames] (pkg/messaging/method): the names of methods, brought into
      the form that is matched and dispatched;
    - [AclTrie] (pkg/config/acl_trie.go): the rules of an app by operation path;
      [Acl] (pkg/acl): the policies parsed from a configuration and the
      decision on a call, [AclProps] its theorems;
    - [GoStrings]: the functions of Go's strings, path and net/url packages that
      these use, on lists of bytes.

    A workflow is an actor whose state is its history; a sidecar keeps it in
    memory between turns and saves it row by row:

    - [WorkflowState] (pkg/runtime/wfengine/state): the state, its changes, the
      save and purge requests, loading with retries, signature checks;
    - [WorkflowSync]: the rows a state in memory stands for; [WorkflowChanges],
      [WorkflowLoad] and [WorkflowProps] relate changes, loads, saves and purges
      to them;
    - [WorkflowHosts] (actors/targets/workflow/orchestrator: state.go, signing):
      signing, saving and confirming a cached state; [WorkflowSystem] the hosts
      of one workflow against one store; [WorkflowInstances] a concrete store
      and messages, [WorkflowWitness] runs of them.

    Calls, deliveries and component operations run under the resiliency
    policies that name them:

    - [ResiliencyRetry] (pkg/resiliency/retry.go): the patterns of status codes
      and which errors are retried;
    - [ResiliencyRunner] (pkg/resiliency/policy.go, breaker/circuitbreaker.go):
      an operation under a timeout, a circuit breaker and retries, with the
      goroutine of each attempt, and how a pub/sub delivery judges the outcome
      (pkg/runtime/subscription); [ResiliencyRunnerProps] its theorems;
    - [Resiliency] (pkg/resiliency/resiliency.go, types.go): decoding the
      configurations, the policies of a target and the breakers kept for the
      endpoints, actors and components; [ResiliencyProps] its theorems,
      [ResiliencyWitness] concrete parameters and configurations;
    - [GoTime]: time.ParseDuration of the Go library.

    ** How code is represented

    A component's struct is a Record, its messages are Inductive types with the
    source's constructors, and each handler is a definition with the source's
    name (prefixed with its struct's name where several structs share it).
    Handlers are [prog]s: state passing with a list of outputs (messages to
    other loops, timers, responses), in the order the code performs them.
    Errors and run-time panics are values.  Unsigned 64-bit counters are [N]
    with their wrap-around written out ([u64_succ]), int64 values are [Z].
    Go maps are [gmap]s; where the result of a loop could depend on the
    iteration order the order is an argument and the theorem holds for all of
    them, elsewhere the order of [map_to_list] is used.  Loops that are
    concurrent in the program are interleaved: the placement loop with the
    event queue of the dissemination loop ([PlacementLoopProps.reach]), the
    callers of an actor lock ([ActorLock.step]), the users of claims
    ([ClaimLock.step]), the callers, the scheduler and the loops of the timers
    ([Timers.step]), the users of the actor table ([ActorTable.step]), the pool's connections loop with its streams
    ([PoolSystem.sys_step]) and with the router ([PoolNamespaces.ns_step]), the
    hosts of a workflow ([WorkflowSystem.step]), a policy runner with the
    goroutines of its attempts ([ResiliencyRunner.step]);
    [PlacementEndToEnd] runs the scheduler's loop against the sidecar's.

    Parameters (code that is not part of the repository): xxhash
    ([Rendezvous.XXHash], with its streaming law), the 64-bit hash of the ring
    ([hash]), Unicode case mapping outside ASCII ([GoStrings.UnicodeCase]), the
    ring buffer of the actor lock ([ActorLock.RingBuffered]),
    which sends on a gRPC channel fail ([PlacementStream]), which lock object a pool returns,
    which calls end in time during a drain, the outcomes of connection
    attempts, the messages of a workflow with their encodings and signatures
    ([WorkflowState.Protos], [WorkflowState.HistorySigning],
    [WorkflowHosts.EventSigning]), the state store
    ([WorkflowHosts.StateStore]), the circuit breaker and the retry loop of
    their libraries ([ResiliencyRunner.Gobreaker],
    [ResiliencyRunner.Backoff]), the cache and the decoders the resiliency
    provider uses ([Resiliency.Lru], [Resiliency.Decoders]), the cron engine
    and the encoding of metadata ([SchedulerJobs.Cron], [SchedulerJobs.AnyPb]),
    the parsers of times and periods ([Timers.TimeUtils], which has no laws).
    Each class or hypothesis has a concrete instance that the witnesses use.

    Fuel: the binary searches ([GoLib.search_loop],
    [ConsistentHash.delSlice_loop]) recurse on the length of the searched
    range, which every iteration shortens; [ActorLock.skip_cancelled] on the
    length of the ring, of which every iteration removes an element.  The
    theorems are about the results with that fuel, so that it is enough is part
    of what they show.  [PoolConnections.drain_loop] recurses on the length of
    the queue, as the loop of the source does.  [PlacementLoop.connect_loop]
    recurses on the list of connection attempts, and says so when they run out.
    [WorkflowState.load_loop] has fuel for the five attempts of the source, and
    [WorkflowLoad.workflow_load_terminates] shows that it never runs out.
    [GoTime.parseTerms] recurses on the length of the text, of which every term
    takes a part ([GoTime.parseTerms_fuel]).

    ** What the theorems show

    - Protocol of the placement service ([DisseminatorInv],
      [DisseminatorProps], [PlacementStream]): counters and phases agree, no
      phase starts before every stream acknowledged the previous one, rounds
      complete, timeouts close the unresponsive streams, deletions are not
      forgotten, and each sidecar receives orders of non-decreasing versions,
      each behind its LOCK, also when sends fail.
    - Tables: the store and the tables built from it are exact
      ([PlacementStore]); ring and rendezvous lookups implement their
      definitions, agree between hosts and move few keys ([ConsistentHash],
      [Rendezvous]); installing tables changes the routing of the reported
      types only ([InflightProps]).
    - Sidecar sessions ([SidecarProps], [PlacementLoopProps]): types are blocked
      only by rounds in progress, the end of a round answers the requests it
      held back, claims of moved types have ended before the acknowledgement,
      sessions start clean, no request and no authority is lost across
      reconnects, and the loop does not panic ([RemoteHosts] for its
      subscriptions).
    - Scheduler placement ([SchedulerInv], [SchedulerPhases],
      [SchedulerMembers], [SchedulerProps]): rounds in flight are disjoint,
      phases wait for all members, no round is stuck, no change is forgotten;
      the messages decode to the orders that were sent ([Transports]); at rest
      every sidecar routes like the scheduler ([PlacementEndToEnd]).
    - Triggers ([PoolGates], [PoolEffects], [PoolProps], [PoolDelivery]): none
      is lost or answered twice, limits hold, the shares of the schedulers add
      up; lookups find a stream that serves the target ([PoolStore]); a
      namespace is deleted only when unused ([PoolNamespaces]).
    - Jobs ([SchedulerJobsProps]): with mTLS no app reads, changes or is sent
      the jobs of another, what was scheduled is read back (with the default
      failure policy where it gave none), and jobs are counted for the app they
      belong to.
    - Calls: turns are exclusive, in order, bounded in depth and never stuck
      ([ActorLock]); claims end when drained ([ClaimLock]); an actor is live in
      one factory only and the advertised types are current
      ([ActorTableProps]).
    - Timers ([TimersProps]): none is lost or fires twice at once, a deleted one
      stays silent, none fires more often than asked (a fire is one call of the
      router, whose retries are not counted), loops are not used after they were
      closed, and tables and counts agree.
    - Routing by namespace refines a router that keeps one number per namespace
      ([PlacementNamespaces]); authorization is exact ([HostAuthz]).
    - Access control ([AclProps], [MethodNames]): the decision is the one the
      policy specification gives, a decorated name of a method is decided like
      the name that is dispatched, encodings that decode to the same operation are
      decided alike (decoding is once), patterns match what they say, parsing fails
      exactly on the malformed configurations.
    - Workflow state ([WorkflowProps], [WorkflowLoad], [WorkflowSystem]): saving
      writes exactly the changes and loading gives them back, for any sequence
      of changes that clears the terminations it injects
      ([cascade_stall_unloadable] is a save that does not); loads end, are
      bounded and trust only what is signed; hosts that share a store, saving,
      tombstoning and purging, do not overwrite each other (but for tombstones
      written from scratch and a token read back late, see
      [tombstone_replaces_history] and [refresh_race_loses_event]); a purge
      leaves nothing.
    - Resiliency ([ResiliencyRetry], [ResiliencyRunnerProps],
      [ResiliencyProps]): a parsed condition retries exactly the listed codes;
      the runner ends, its outcome is that of an attempt that was made (a
      permanent error of which ends it) or of a policy that says so, and no attempt is left blocked; the order in which
      the maps of a configuration are visited does not matter, the built-in
      policies stay, and breakers of different targets are separate.
    - A few theorems state behaviour that departs from the comments in the code
      ([late_timeout_closes_healthy_streams],
      [close_without_actors_stalls_round], [remove_leaks_load],
      [stale_close_removes_new_stream], [stale_release_exceeds_limit],
      [named_limit_strands_trigger], [acl_exact_rule_missed],
      [cascade_stall_unloadable], [refresh_race_loses_event],
      [tombstone_replaces_history], [unknown_status_reported_exhausted],
      [component_breaker_shared], [undefined_breaker_panics],
      [timer_key_collision], [reminder_key_collision],
      [failed_halt_leaves_actor]).

    ** What is not modelled

    gRPC streams, dialling, DNS and raft (third-party code and I/O, represented
    by events), logging and metrics other than the connection gauges, the
    floating-point bounded-load selection of the ring (GetLeast, MaxLoad,
    loadOK), and wall-clock time: timers are outputs, their firings are events.

    The turns of the orchestrator beyond saving its state (their core is the
    durabletask library), the paths of the actor router other than a fire of a
    timer or reminder, the storage of reminders and of actor state (clients of
    the scheduler and of components), the subscriptions to the actor table, the
    wiring of the runtime, and the HTTP and gRPC APIs, which pass calls to
    component libraries.

    This file holds what the components share: machine integers, the program
    combinators and their lemmas, and lemmas on lists, strings and counting. *)

From stdpp Require Export sorting numbers strings gmap fin_maps relations list base tactics.

Declare Scope dapr_scope.
Delimit Scope dapr_scope with dapr.
Create HintDb dapr.

(** ** Machine integers *)

(** Go [uint64] values are kept as [N] and [int64] values as [Z]; every
    increment of the source is written with its wrap-around. *)
Definition two64 : N := 18446744073709551616%N.

Definition u64_succ (n : N) : N := ((n + 1) mod two64)%N.

Definition i64_wrap (z : Z) : Z :=
  ((z + 9223372036854775808) mod 18446744073709551616 - 9223372036854775808)%Z.

Lemma i64_wrap_add_l a b : i64_wrap (i64_wrap a + b) = i64_wrap (a + b).
Proof.
  unfold i64_wrap. set (H := 9223372036854775808%Z). set (M := 18446744073709551616%Z). f_equal.
  replace ((a + H) mod M - H + b + H)%Z with ((a + H) mod M + b)%Z by lia.
  rewrite Zplus_mod_idemp_l. f_equal. lia.
Qed.

Lemma i64_wrap_add_r a b : i64_wrap (a + i64_wrap b) = i64_wrap (a + b).
Proof. rewrite Z.add_comm, i64_wrap_add_l. f_equal. lia. Qed.

Lemma i64_wrap_idemp a : i64_wrap (i64_wrap a) = i64_wrap a.
Proof. rewrite <-(Z.add_0_r (i64_wrap a)) at 1. rewrite i64_wrap_add_l. f_equal. lia. Qed.

(** ** Strings *)

Lemma string_append_assoc (a b c : string) :
  String.append (String.append a b) c = String.append a (String.append b c).
Proof. induction a as [|x a IH]; [done|]. exact (f_equal (String x) IH). Qed.

Lemma string_append_nil_r (a : string) : String.append a EmptyString = a.
Proof. induction a as [|x a IH]; [done|]. exact (f_equal (String x) IH). Qed.

(** Strings without a vertical bar, of which the separators of keys are made. *)
Definition bar : Ascii.ascii := Ascii.ascii_of_nat 124.

Fixpoint plain (s : string) : bool :=
  match s with
  | EmptyString => true
  | String c s' => negb (Ascii.eqb c bar) && plain s'
  end.

Lemma plain_split a b x y : plain a = true → plain b = true →
  a +:+ String bar x = b +:+ String bar y → a = b ∧ x = y.
Proof.
  revert b. induction a as [|c a IH]; intros [|c' b] Ha Hb E; cbn in *.
  - by injection E as ->.
  - injection E as <- _. by rewrite Ascii.eqb_refl in Hb.
  - injection E as -> _. by rewrite Ascii.eqb_refl in Ha.
  - injection E as -> E. apply andb_true_iff in Ha as [_ Ha], Hb as [_ Hb].
    destruct (IH b Ha Hb E) as [-> ->]. done.
Qed.

(** ** Lists *)

Lemma StronglySorted_lookup {A} (R : A → A → Prop) (l : list A) :
  StronglySorted R l → ∀ i j x y, i < j → l !! i = Some x → l !! j = Some y → R x y.
Proof.
  induction 1 as [|z l Hl IH Hz]; intros i j x y Hij Hi Hj; [done|].
  destruct j as [|j]; [lia|]. destruct i as [|i]; simplify_eq/=.
  - rewrite list.Forall_forall in Hz. apply Hz. by apply list_elem_of_lookup_2 in Hj.
  - apply (IH i j); [lia|done..].
Qed.

Lemma filter_true {A} (P : A → Prop) `{!∀ x, Decision (P x)} (l : list A) :
  (∀ x, x ∈ l → P x) → filter P l = l.
Proof.
  induction l as [|x l IH]; intros Hl; [done|]. rewrite filter_cons, decide_True by (apply Hl; left).
  f_equal. apply IH. intros y Hy. apply Hl. by right.
Qed.

(** ** A state-and-output monad for event handlers *)

(** A handler of an event loop transforms the loop's state [S] and issues
    commands to the outside (messages enqueued on other loops, timers, metrics),
    recorded in order as a list of outputs [O]. *)
Definition prog (S O : Type) : Type := S → S * list O.

Section prog_ops.
Context {S O : Type}.

Definition skip : prog S O := λ s, (s, []).

Definition modify (f : S → S) : prog S O := λ s, (f s, []).

Definition emit (os : list O) : prog S O := λ s, (s, os).

Definition seqp (c1 c2 : prog S O) : prog S O := λ s,
  let '(s1, o1) := c1 s in
  let '(s2, o2) := c2 s1 in
  (s2, o1 ++ o2).

Definition get (k : S → prog S O) : prog S O := λ s, k s s.

Definition when (b : bool) (c : prog S O) : prog S O := if b then c else skip.

Fixpoint for_each {A : Type} (l : list A) (body : A → prog S O) : prog S O :=
  match l with
  | [] => skip
  | x :: l' => seqp (body x) (for_each l' body)
  end.

End prog_ops.

Notation "c1 ;;; c2" := (seqp c1 c2)
  (at level 100, c2 at level 200, right associativity, format "c1  ;;; '//' c2") : dapr_scope.
Notation "'with' s 'do' c" := (get (λ s, c))
  (at level 10, s name, c at level 200) : dapr_scope.

(** Running a loop over a sequence of events. *)
Section run.
Context {S O E : Type} (handle : E → prog S O).

Fixpoint run (es : list E) : prog S O :=
  match es with
  | [] => skip
  | e :: es' => seqp (handle e) (run es')
  end.

Lemma run_app es1 es2 s :
  run (es1 ++ es2) s =
    ((run es2 (run es1 s).1).1, (run es1 s).2 ++ (run es2 (run es1 s).1).2).
Proof.
  revert s; induction es1 as [|e es1 IH]; intros s; simpl.
  - by destruct (run es2 s).
  - unfold seqp. destruct (handle e s) as [s1 o1]; simpl.
    rewrite IH. destruct (run es1 s1) as [s2 o2]; simpl.
    by rewrite (assoc_L (++)).
Qed.

End run.

(** ** Generic lemmas on programs *)

Section prog_lemmas.
Context {S O : Type}.

Lemma seqp_eq (c1 c2 : prog S O) s :
  seqp c1 c2 s = ((c2 (c1 s).1).1, (c1 s).2 ++ (c2 (c1 s).1).2).
Proof. unfold seqp. destruct (c1 s) as [s1 o1]; simpl. by destruct (c2 s1). Qed.

(** A relation between states kept by every iteration is kept by the loop. *)
Lemma for_each_inv {A} (P : S → Prop) (l : list A) (body : A → prog S O) s :
  (∀ x s, x ∈ l → P s → P (body x s).1) → P s → P (for_each l body s).1.
Proof.
  revert s; induction l as [|x l IH]; intros s Hb Hs; simpl; [done|].
  rewrite seqp_eq; simpl. apply IH; [intros; apply Hb; set_solver|apply Hb; set_solver].
Qed.

(** Every output of the loop is an output of an iteration. *)
Lemma for_each_outputs {A} (Q : O → Prop) (l : list A) (body : A → prog S O) s :
  (∀ x s, x ∈ l → Forall Q (body x s).2) → Forall Q (for_each l body s).2.
Proof.
  revert s; induction l as [|x l IH]; intros s Hb; simpl; [constructor|].
  rewrite seqp_eq; simpl. apply Forall_app. split; [apply Hb; set_solver|].
  apply IH. intros; apply Hb; set_solver.
Qed.

End prog_lemmas.

(** ** Counting the values of a map *)

Section mcount.
Context {V : Type}.
Implicit Types (m : gmap N V) (f : V → bool).

Definition mcount (f : V → bool) (m : gmap N V) : nat :=
  map_fold (λ _ x acc, (if f x then 1 else 0) + acc) 0 m.

Lemma mcount_empty f : mcount f ∅ = 0.
Proof. apply map_fold_empty. Qed.

Lemma mcount_insert_None f m i x :
  m !! i = None → mcount f (<[i:=x]> m) = (if f x then 1 else 0) + mcount f m.
Proof. intros Hi. unfold mcount. rewrite map_fold_insert_L; [done| |done]. intros; lia. Qed.

Lemma mcount_delete f m i x :
  m !! i = Some x → mcount f m = (if f x then 1 else 0) + mcount f (delete i m).
Proof.
  intros Hi. rewrite <-(insert_delete_id m i x Hi) at 1.
  by rewrite mcount_insert_None by apply lookup_delete_eq.
Qed.

Lemma mcount_replace f m i x y :
  m !! i = Some x →
  mcount f (<[i:=y]> m) + (if f x then 1 else 0) = mcount f m + (if f y then 1 else 0).
Proof.
  intros Hi. rewrite (mcount_delete f m i x Hi), <-(insert_delete_eq m i y).
  rewrite mcount_insert_None by apply lookup_delete_eq. lia.
Qed.

Lemma mcount_le_size f m : mcount f m ≤ size m.
Proof.
  induction m as [|i x m Hi IH] using map_ind; [by rewrite mcount_empty|].
  rewrite mcount_insert_None, map_size_insert_None by done. destruct (f x); lia.
Qed.

Lemma mcount_full f m : mcount f m = size m ↔ ∀ i x, m !! i = Some x → f x = true.
Proof.
  induction m as [|i x m Hi IH] using map_ind.
  - rewrite mcount_empty, map_size_empty. split; [|done]. intros _ i x Hx.
    by rewrite lookup_empty in Hx.
  - rewrite mcount_insert_None, map_size_insert_None by done.
    pose proof (mcount_le_size f m). split.
    + intros Hs j y. destruct (f x) eqn:Ef; [|lia].
      rewrite lookup_insert. case_decide; [by intros [= <-]|].
      apply IH. lia.
    + intros Hall. rewrite (Hall i x) by apply lookup_insert_eq. simpl. f_equal. apply IH.
      intros j y Hj. apply (Hall j). rewrite lookup_insert_ne; [done|]. intros ->. congruence.
Qed.

Lemma mcount_ext_fmap f g m :
  (∀ x, f (g x) = f x) → mcount f (g <$> m) = mcount f m.
Proof.
  intros Hfg. induction m as [|i x m Hi IH] using map_ind.
  - by rewrite fmap_empty.
  - rewrite fmap_insert, !mcount_insert_None; [by rewrite Hfg, IH|done|].
    by rewrite lookup_fmap, Hi.
Qed.

Lemma mcount_zero_fmap f g m : (∀ x, f (g x) = false) → mcount f (g <$> m) = 0.
Proof.
  intros Hfg. induction m as [|i x m Hi IH] using map_ind.
  - by rewrite fmap_empty, mcount_empty.
  - rewrite fmap_insert, mcount_insert_None; [by rewrite Hfg, IH|].
    by rewrite lookup_fmap, Hi.
Qed.

Lemma mcount_zero f m : (∀ i x, m !! i = Some x → f x = false) → mcount f m = 0.
Proof.
  induction m as [|i x m Hi IH] using map_ind; intros Hall; [apply mcount_empty|].
  rewrite mcount_insert_None by done. rewrite (Hall i x) by apply lookup_insert_eq.
  simpl. apply IH. intros j y Hj. apply (Hall j). rewrite lookup_insert_ne; [done|].
  intros ->. congruence.
Qed.

End mcount.

(** ** Summing over the values of a map *)

Section msum.
Context {K V : Type} `{Countable K}.
Implicit Types (m : gmap K V) (f : V → nat).

Definition msum (f : V → nat) (m : gmap K V) : nat := map_fold (λ _ x acc, f x + acc) 0 m.

Lemma msum_empty f : msum f ∅ = 0.
Proof. apply map_fold_empty. Qed.

Lemma msum_insert_None f m i x : m !! i = None → msum f (<[i:=x]> m) = f x + msum f m.
Proof. intros Hi. unfold msum. rewrite map_fold_insert_L; [done| |done]. intros; lia. Qed.

Lemma msum_delete f m i x : m !! i = Some x → msum f m = f x + msum f (delete i m).
Proof.
  intros Hi. rewrite <-(insert_delete_id m i x Hi) at 1. by rewrite msum_insert_None by apply lookup_delete_eq.
Qed.

Lemma msum_insert f m i x y : m !! i = Some x → msum f (<[i:=y]> m) + f x = msum f m + f y.
Proof.
  intros Hi. rewrite (msum_delete f m i x Hi), <-(insert_delete_eq m i y).
  rewrite msum_insert_None by apply lookup_delete_eq. lia.
Qed.

Lemma msum_lookup f m i x : m !! i = Some x → f x ≤ msum f m.
Proof. intros Hi. rewrite (msum_delete f m i x Hi). lia. Qed.

(** The sum depends on the value of [f] at each key only. *)
Lemma msum_ext f m1 m2 : (∀ i, f <$> m1 !! i = f <$> m2 !! i) → msum f m1 = msum f m2.
Proof.
  revert m2. induction m1 as [|i x m1 Hi IH] using map_ind; intros m2 Hext.
  - assert (m2 = ∅) as ->; [|done]. apply map_empty. intros i. specialize (Hext i). rewrite lookup_empty in Hext.
    by destruct (m2 !! i).
  - pose proof (Hext i) as Hx. rewrite lookup_insert_eq in Hx. destruct (m2 !! i) as [y|] eqn:Hy; [|done].
    injection Hx as Hx. rewrite msum_insert_None, (msum_delete f m2 i y Hy), Hx by done. f_equal. apply IH.
    intros j. specialize (Hext j). destruct (decide (i = j)) as [<-|Hne]; [by rewrite lookup_delete_eq, Hi|].
    by rewrite lookup_delete_ne, <-Hext, lookup_insert_ne.
Qed.

Lemma msum_zero f m : (∀ i x, m !! i = Some x → f x = 0) → msum f m = 0.
Proof.
  induction m as [|i x m Hi IH] using map_ind; intros Hz; [apply msum_empty|].
  rewrite msum_insert_None, (Hz i x), IH; [done| |apply lookup_insert_eq|done].
  intros j y Hj. apply (Hz j). rewrite lookup_insert_ne; [done|]. intros ->. congruence.
Qed.

Lemma msum_positive f m : 0 < msum f m → ∃ i x, m !! i = Some x ∧ 0 < f x.
Proof.
  intros Hp. destruct (decide (Exists (λ kv, 0 < f kv.2) (map_to_list m))) as [He|He].
  - apply list.Exists_exists in He as ([i x] & Hx%elem_of_map_to_list & Hf). eauto.
  - rewrite msum_zero in Hp; [lia|]. intros i x Hx. destruct (decide (0 < f x)); [|lia]. destruct He.
    apply list.Exists_exists. exists (i, x). split; [by apply elem_of_map_to_list|done].
Qed.

Lemma msum_map_to_list f m : msum f m = foldr (λ kv acc, f kv.2 + acc) 0 (map_to_list m).
Proof.
  induction m as [|i x m Hi IH] using map_ind; [by rewrite msum_empty, map_to_list_empty|].
  rewrite msum_insert_None by done. rewrite IH.
  assert (Hp : ∀ l1 l2 : list (K * V), l1 ≡ₚ l2 → foldr (λ kv acc, f kv.2 + acc) 0 l1 = foldr (λ kv acc, f kv.2 + acc) 0 l2).
  { induction 1; simpl; lia. }
  by rewrite (Hp _ _ (map_to_list_insert m i x Hi)).
Qed.

End msum.
