(* ===== verification/GoLib.v ===== *)
(** * Go standard library routines used by the modelled code

    [sort.Strings]/[slices.Sort] on strings (byte-wise lexicographic order),
    [slices.Compact], [sort.Search] and the 64-bit [slices.Sort], with the
    lemmas the components rely on: the sorted result is a permutation, compacting
    a sorted slice removes exactly the duplicates, the binary search finds the
    first index satisfying a monotone predicate. *)

From S2P Require Import Prelude.

(** ** Sorting *)

(** [sort.Strings] / [slices.Sort]: Go compares strings byte-wise; equal
    strings are indistinguishable, so stability does not matter. *)
Definition sort_strings (l : list string) : list string := merge_sort String.le l.

(** [slices.Sort] on []uint64. *)
Definition sort_u64 (l : list N) : list N := merge_sort N.le l.

(** [slices.Compact]: replaces runs of equal elements by one copy. *)
Fixpoint compact (l : list string) : list string :=
  match l with
  | x :: ((y :: _) as l') => if decide (x = y) then compact l' else x :: compact l'
  | _ => l
  end.

(** [sort.Search(n, f)]: the loop of Go's [sort] package, [i] and [j] being its
    two local variables; [fuel] bounds the number of halvings. *)
Fixpoint search_loop (fuel : nat) (i j : nat) (f : nat → bool) : nat :=
  match fuel with
  | O => i
  | S fuel' =>
      if i <? j then
        let h := (i + j) / 2 in
        if f h then search_loop fuel' i h f else search_loop fuel' (S h) j f
      else i
  end.

Definition sort_Search (n : nat) (f : nat → bool) : nat := search_loop n 0 n f.

(** ** Lemmas *)

#[export] Instance N_le_total : Total N.le.
Proof. intros x y. lia. Qed.

Lemma sort_strings_perm l : sort_strings l ≡ₚ l.
Proof. apply merge_sort_Permutation. Qed.

Lemma sort_strings_sorted l : StronglySorted String.le (sort_strings l).
Proof. apply StronglySorted_merge_sort; apply _. Qed.

Lemma elem_of_sort_strings x l : x ∈ sort_strings l ↔ x ∈ l.
Proof. by rewrite sort_strings_perm. Qed.

Lemma sort_strings_idemp_perm l1 l2 : l1 ≡ₚ l2 → sort_strings l1 = sort_strings l2.
Proof.
  intros Hp. apply (StronglySorted_unique String.le); auto using sort_strings_sorted.
  by rewrite !sort_strings_perm.
Qed.

Lemma sort_strings_nil_inv l : sort_strings l = [] → l = [].
Proof.
  intros E. apply Permutation_nil_r. rewrite <-E. by rewrite sort_strings_perm.
Qed.

Lemma length_sort_strings l : length (sort_strings l) = length l.
Proof. by rewrite sort_strings_perm. Qed.

Lemma sort_u64_perm l : sort_u64 l ≡ₚ l.
Proof. apply merge_sort_Permutation. Qed.

Lemma sort_u64_sorted l : StronglySorted N.le (sort_u64 l).
Proof. apply StronglySorted_merge_sort; apply _. Qed.

#[export] Hint Resolve sort_strings_sorted sort_u64_sorted : dapr.

(** *** [compact] *)

Lemma compact_cons2 x y l :
  compact (x :: y :: l) = if decide (x = y) then compact (y :: l) else x :: compact (y :: l).
Proof. reflexivity. Qed.

Lemma compact_cons x l : ∃ l', compact (x :: l) = x :: l'.
Proof.
  revert x; induction l as [|y l IH]; intros x; [by eexists|].
  simpl. case_decide as E; [subst y; exact (IH x)|]. by eexists.
Qed.

Lemma elem_of_compact x l : x ∈ compact l ↔ x ∈ l.
Proof.
  induction l as [|y [|z l] IH]; [done|done|].
  rewrite compact_cons2. case_decide as E.
  - subst z. rewrite IH, !elem_of_cons. tauto.
  - rewrite !(elem_of_cons _ _ y), IH. done.
Qed.

Lemma compact_sorted l : StronglySorted String.le l → StronglySorted String.le (compact l).
Proof.
  induction l as [|y [|z l] IH]; intros Hs; [done|done|].
  inversion Hs as [|? ? Hs' Hall]; subst. rewrite compact_cons2. case_decide as E; [by apply IH|].
  constructor; [by apply IH|]. rewrite list.Forall_forall in Hall |- *. intros w Hw.
  rewrite elem_of_compact in Hw. by apply Hall.
Qed.

Lemma compact_nodup l : StronglySorted String.le l → NoDup (compact l).
Proof.
  induction l as [|y [|z l] IH]; intros Hs; [constructor|by apply NoDup_singleton|].
  inversion Hs as [|? ? Hs' Hall]; subst. rewrite compact_cons2. case_decide as E; [by apply IH|].
  constructor; [|by apply IH]. intros Hy. rewrite elem_of_compact in Hy.
  inversion Hs' as [|? ? Hs'' Hall']; subst.
  apply elem_of_cons in Hy as [->|Hy]; [done|].
  apply E, (anti_symm String.le).
  - by inversion Hall.
  - rewrite list.Forall_forall in Hall'. by apply Hall'.
Qed.

(** Two sorted duplicate-free string slices over the same elements are equal. *)
Lemma sorted_nodup_ext l1 l2 :
  StronglySorted String.le l1 → StronglySorted String.le l2 →
  NoDup l1 → NoDup l2 → (∀ x, x ∈ l1 ↔ x ∈ l2) → l1 = l2.
Proof.
  intros Hs1 Hs2 Hn1 Hn2 Hext. apply (StronglySorted_unique String.le); [done..|].
  by apply NoDup_Permutation.
Qed.

(** *** [sort.Search] *)

(** With enough fuel the loop returns the first index of [[i, j)] on which the
    monotone predicate [f] holds, or [j]. *)
Lemma search_loop_spec fuel i j f :
  j - i ≤ fuel → i ≤ j →
  (∀ a b, a ≤ b → b < j → f a = true → f b = true) →
  let r := search_loop fuel i j f in
  i ≤ r ≤ j ∧ (∀ k, i ≤ k < r → f k = false) ∧ (r < j → f r = true).
Proof.
  revert i j; induction fuel as [|fuel IH]; intros i j Hfuel Hij Hmono; cbn [search_loop].
  - repeat split; intros; lia.
  - destruct (Nat.ltb_spec i j) as [Hlt|Hge]; [|repeat split; intros; lia].
    assert (Hh : i ≤ (i + j) / 2 < j).
    { split; [apply Nat.div_le_lower_bound|apply Nat.Div0.div_lt_upper_bound]; lia. }
    set (h := (i + j) / 2) in *. destruct (f h) eqn:Hf.
    + destruct (IH i h) as (Hr & Hlow & Hhit); [lia..| |].
      { intros a b Hab Hb. apply Hmono; lia. }
      split; [lia|split; [done|]]. intros _.
      destruct (decide (search_loop fuel i h f = h)) as [->|Hne]; [done|apply Hhit; lia].
    + destruct (IH (S h) j) as (Hr & Hlow & Hhit); [lia..|done|].
      split; [lia|split; [|done]]. intros k Hk.
      destruct (decide (S h ≤ k)) as [Hk'|Hk']; [apply Hlow; lia|].
      destruct (f k) eqn:Hfk; [|done]. rewrite (Hmono k h) in Hf; [done|lia..|done].
Qed.

Lemma sort_Search_spec n f :
  (∀ a b, a ≤ b → b < n → f a = true → f b = true) →
  sort_Search n f ≤ n ∧
  (∀ k, k < sort_Search n f → f k = false) ∧
  (sort_Search n f < n → f (sort_Search n f) = true).
Proof.
  intros Hmono. destruct (search_loop_spec n 0 n f) as (Hr & Hlow & Hhit); [lia..|done|].
  unfold sort_Search. split; [lia|]. split; [intros k Hk; apply Hlow; lia|done].
Qed.
