(* ===== verification/GoStrings.v ===== *)
(** * Go strings as lists of bytes

    What the modelled code uses of the packages [strings], [net/url] and [path].
    Indexing, splitting and comparing are on bytes, as in Go.  Changing the case
    of a string with bytes outside ASCII depends on the Unicode tables and is a
    parameter ([UnicodeCase]). *)

From Stdlib Require Import Ascii.
From S2P Require Import Prelude.

Definition bytes (s : string) : list ascii := String.list_ascii_of_string s.
Definition of_bytes (l : list ascii) : string := String.string_of_list_ascii l.

Definition slash : ascii := "/"%char.
Definition percent : ascii := "%"%char.
Definition star : ascii := "*"%char.
Definition semicolon : ascii := ";"%char.
Definition dot : ascii := "."%char.

(** ** Package strings *)

(** [strings.Split] at a byte *)
Fixpoint Split (c : ascii) (s : list ascii) : list (list ascii) :=
  match s with
  | [] => [[]]
  | x :: s' =>
      if decide (x = c) then [] :: Split c s'
      else match Split c s' with p :: ps => (x :: p) :: ps | [] => [[x]] end
  end.

(** [strings.Join] *)
Fixpoint Join (sep : list ascii) (ps : list (list ascii)) : list ascii :=
  match ps with
  | [] => []
  | [p] => p
  | p :: ps' => p ++ sep ++ Join sep ps'
  end.

(** [strings.Split] and [strings.ReplaceAll] for a separator of three bytes:
    occurrences do not overlap and are taken from left to right. *)
Fixpoint Split3 (x y z : ascii) (s : list ascii) : list (list ascii) :=
  match s with
  | [] => [[]]
  | a :: s' =>
      let other := match Split3 x y z s' with p :: ps => (a :: p) :: ps | [] => [[a]] end in
      match s' with
      | b :: c :: s'' => if decide ((a, b, c) = (x, y, z)) then [] :: Split3 x y z s'' else other
      | _ => other
      end
  end.

Fixpoint ReplaceAll3 (x y z : ascii) (new s : list ascii) : list ascii :=
  match s with
  | [] => []
  | a :: s' =>
      match s' with
      | b :: c :: s'' => if decide ((a, b, c) = (x, y, z)) then new ++ ReplaceAll3 x y z new s'' else a :: ReplaceAll3 x y z new s'
      | _ => a :: ReplaceAll3 x y z new s'
      end
  end.

Definition HasPrefix (s p : list ascii) : bool := bool_decide (p `prefix_of` s).
Definition HasSuffix (s p : list ascii) : bool := bool_decide (p `suffix_of` s).

(** [strings.Count] of a byte *)
Definition Count (s : list ascii) (c : ascii) : nat := length (filter (λ x, x = c) s).

(** [strings.Cut] at a byte: what is before it, and whether it was found. *)
Fixpoint Cut (s : list ascii) (c : ascii) : list ascii * bool :=
  match s with
  | [] => ([], false)
  | x :: s' => if decide (x = c) then ([], true) else let '(b, found) := Cut s' c in (x :: b, found)
  end.

Fixpoint Contains (s sub : list ascii) : bool :=
  HasPrefix s sub || match s with [] => false | _ :: s' => Contains s' sub end.

Definition ContainsAny (s cs : list ascii) : bool := existsb (λ x, bool_decide (x ∈ cs)) s.

(** *** Letter case *)

Definition is_ascii (c : ascii) : bool := (nat_of_ascii c <? 128).

Definition lower1 (c : ascii) : ascii :=
  let n := nat_of_ascii c in
  if (65 <=? n) && (n <=? 90) then ascii_of_nat (n + 32) else c.

Definition lower (s : list ascii) : list ascii := lower1 <$> s.

(** [strings.ToLower] of strings with bytes outside ASCII. *)
Class UnicodeCase := { lower_wide : list ascii → list ascii }.

Definition ToLower `{UnicodeCase} (s : list ascii) : list ascii :=
  if forallb is_ascii s then lower s else lower_wide s.

(** [strings.EqualFold] with an ASCII word no letter of which is a case variant
    of a letter outside ASCII (that is, without k and s). *)
Definition EqualFold (s word : list ascii) : bool := bool_decide (lower s = lower word).

(** ** Package url *)

Definition hexval (c : ascii) : option nat :=
  let n := nat_of_ascii c in
  if (48 <=? n) && (n <=? 57) then Some (n - 48)
  else if (97 <=? n) && (n <=? 102) then Some (n - 87)
  else if (65 <=? n) && (n <=? 70) then Some (n - 55)
  else None.

(** [url.PathUnescape]; [None] is its error. *)
Fixpoint PathUnescape (s : list ascii) : option (list ascii) :=
  match s with
  | [] => Some []
  | a :: s' =>
      if decide (a = percent) then
        match s' with
        | h :: l :: s'' =>
            match hexval h, hexval l with
            | Some x, Some y => cons (ascii_of_nat (16 * x + y)) <$> PathUnescape s''
            | _, _ => None
            end
        | _ => None
        end
      else cons a <$> PathUnescape s'
  end.

(** ** Package path *)

Definition empty_seg : list ascii := [].
Definition dot_seg : list ascii := [dot].
Definition dotdot_seg : list ascii := [dot; dot].

(** [path.Clean] on the elements of a path; [out] are the kept ones, last first. *)
Fixpoint clean_segs (rooted : bool) (segs out : list (list ascii)) : list (list ascii) :=
  match segs with
  | [] => reverse out
  | s :: segs' =>
      if decide (s = empty_seg ∨ s = dot_seg) then clean_segs rooted segs' out
      else if decide (s = dotdot_seg) then
        match out with
        | [] => clean_segs rooted segs' (if rooted then [] else [s])
        | t :: out' => clean_segs rooted segs' (if decide (t = dotdot_seg) then s :: out else out')
        end
      else clean_segs rooted segs' (s :: out)
  end.

Definition Clean (p : list ascii) : list ascii :=
  let rooted := HasPrefix p [slash] in
  let r := Join [slash] (clean_segs rooted (Split slash p) []) in
  if rooted then slash :: r else if decide (r = []) then [dot] else r.

(** ** Laws *)

Lemma Split_nonempty c s : Split c s ≠ [].
Proof. destruct s as [|x s]; [done|]. cbn. case_decide; [done|]. by destruct (Split c s). Qed.

Lemma Split_cons c x s : x ≠ c → ∃ p ps, Split c s = p :: ps ∧ Split c (x :: s) = (x :: p) :: ps.
Proof.
  intros Hx. pose proof (Split_nonempty c s). destruct (Split c s) as [|p ps] eqn:E; [done|].
  exists p, ps. cbn. by rewrite decide_False, E.
Qed.

Lemma Split_free c s : Forall (λ p, c ∉ p) (Split c s).
Proof.
  induction s as [|x s IH]; [repeat constructor; apply not_elem_of_nil|].
  destruct (decide (x = c)) as [->|Hx].
  - cbn. rewrite decide_True by done. constructor; [apply not_elem_of_nil|done].
  - destruct (Split_cons c x s Hx) as (p & ps & E & ->). rewrite E in IH. apply list.Forall_cons in IH as [? ?].
    constructor; [|done]. by apply not_elem_of_cons.
Qed.

Lemma Join_cons sep p ps : ps ≠ [] → Join sep (p :: ps) = p ++ sep ++ Join sep ps.
Proof. by destruct ps. Qed.

Lemma Join_Split c s : Join [c] (Split c s) = s.
Proof.
  induction s as [|x s IH]; [done|]. destruct (decide (x = c)) as [->|Hx].
  - cbn [Split]. rewrite decide_True by done. rewrite Join_cons by apply Split_nonempty. cbn. by rewrite IH.
  - destruct (Split_cons c x s Hx) as (p & ps & E & ->). rewrite E in IH. destruct ps as [|p' ps]; cbn in *; by rewrite IH.
Qed.

Lemma Split_none c s : c ∉ s → Split c s = [s].
Proof.
  induction s as [|x s IH]; intros Hc; [done|]. apply not_elem_of_cons in Hc as [Hx Hc].
  cbn. by rewrite decide_False, IH.
Qed.

Lemma Split_app c p s : c ∉ p → Split c (p ++ c :: s) = p :: Split c s.
Proof.
  induction p as [|x p IH]; intros Hc; cbn; [by rewrite decide_True|].
  apply not_elem_of_cons in Hc as [Hx Hc]. by rewrite decide_False, IH.
Qed.

Lemma Split_Join c ps : ps ≠ [] → Forall (λ p, c ∉ p) ps → Split c (Join [c] ps) = ps.
Proof.
  induction ps as [|p ps IH]; intros Hne Hf; [done|]. apply list.Forall_cons in Hf as [Hp Hf].
  destruct ps as [|p' ps]; [by apply Split_none|]. rewrite Join_cons by done. cbn [app]. by rewrite Split_app, IH.
Qed.

Lemma Count_app s1 s2 c : Count (s1 ++ s2) c = Count s1 c + Count s2 c.
Proof. unfold Count. by rewrite list.filter_app, length_app. Qed.

Lemma Cut_spec s c : (Cut s c).1 `prefix_of` s ∧ ((Cut s c).2 = false → (Cut s c).1 = s).
Proof.
  induction s as [|x s [IH1 IH2]]; [done|]. cbn. case_decide; [split; [apply prefix_nil|done]|].
  destruct (Cut s c) as [b found]. cbn in *. split; [by apply prefix_cons|]. intros H'. by rewrite IH2.
Qed.

Lemma Cut_none s c : c ∉ s → Cut s c = (s, false).
Proof.
  induction s as [|x s IH]; intros Hc; [done|]. apply not_elem_of_cons in Hc as [Hx Hc]. cbn. by rewrite decide_False, IH.
Qed.

Lemma Cut_free s c : c ∉ (Cut s c).1.
Proof.
  induction s as [|x s IH]; cbn; [apply not_elem_of_nil|]. case_decide; [apply not_elem_of_nil|].
  destruct (Cut s c). cbn in *. by apply not_elem_of_cons.
Qed.

Lemma elem_of_Join c sep p ps : c ∈ p → p ∈ ps → c ∈ Join sep ps.
Proof.
  intros Hc. induction ps as [|q ps IH]; intros Hp; [by apply elem_of_nil in Hp|].
  apply elem_of_cons in Hp as [->|Hp]; [destruct ps; [done|]; rewrite Join_cons by done; apply elem_of_app; by left|].
  destruct ps; [by apply elem_of_nil in Hp|]. rewrite Join_cons by done. rewrite !elem_of_app. auto.
Qed.

Lemma elem_of_Join_inv c sep ps : c ∈ Join sep ps → c ∈ sep ∨ ∃ p, p ∈ ps ∧ c ∈ p.
Proof.
  induction ps as [|p ps IH]; intros Hc; [by apply elem_of_nil in Hc|]. destruct ps as [|q ps].
  - right. exists p. split; [by left|done].
  - rewrite Join_cons, !elem_of_app in Hc by done. destruct Hc as [Hc|[Hc|Hc]]; [right; exists p; split; [by left|done]|by left|].
    destruct (IH Hc) as [?|(r & ? & ?)]; [by left|]. right. exists r. split; [by right|done].
Qed.

(** Lowering changes neither slashes nor dots. *)
Lemma lower1_separators c x : x = slash ∨ x = dot → lower1 c = x ↔ c = x.
Proof. intros Hx. destruct c as [[] [] [] [] [] [] [] []]; destruct Hx as [-> | ->]; vm_compute; split; done. Qed.

Lemma Split_lower s : Split slash (lower s) = lower <$> Split slash s.
Proof.
  induction s as [|c s IH]; [done|]. cbn [fmap list_fmap Split lower] in *. unfold lower in *. cbn [fmap list_fmap Split]. rewrite IH. destruct (decide (c = slash)) as [->|Hc].
  - by rewrite decide_True.
  - rewrite decide_False by (rewrite lower1_separators by (by left); done). by destruct (Split slash s).
Qed.

Lemma lower_dots s n : lower s = replicate n dot → s = replicate n dot.
Proof.
  revert n. induction s as [|c s IH]; intros [|n]; cbn; try done. intros [= Hc Hs].
  apply lower1_separators in Hc as ->; [|by right]. by rewrite (IH n).
Qed.

Lemma ToLower_ascii `{UnicodeCase} s : Forall (λ c, is_ascii c = true) s → ToLower s = lower s.
Proof. intros Hs. unfold ToLower. by rewrite (proj2 (forallb_forall _ _)) by (intros c Hc; rewrite list.Forall_forall in Hs; apply Hs, list_elem_of_In, Hc). Qed.

(** Containment as a decomposition. *)
Lemma Contains_spec s sub : Contains s sub = true ↔ ∃ a b, s = a ++ sub ++ b.
Proof.
  induction s as [|x s IH]; cbn; rewrite orb_true_iff; unfold HasPrefix; rewrite bool_decide_eq_true.
  - split; [intros [[k E]|?]; [by exists [], k|done]|]. intros (a & b & E). left. destruct a; [by exists b|done].
  - rewrite IH. split.
    + intros [[k E]|(a & b & ->)]; [by exists [], k|by exists (x :: a), b].
    + intros ([|y a] & b & E); [left; by exists b|right]. injection E as -> ->. by exists a, b.
Qed.

(** Text without the separator that occurs in joined parts occurs in a part. *)
Lemma Join_infix c sub : ∀ ps a b,
  sub ≠ [] → c ∉ sub → Join [c] ps = a ++ sub ++ b → ∃ p a' b', p ∈ ps ∧ p = a' ++ sub ++ b'.
Proof.
  induction ps as [|p ps IH]; intros a b Hne Hc E.
  - exfalso. destruct a, sub; done.
  - destruct ps as [|q ps]; [exists p, a, b; split; [by left|done]|]. rewrite Join_cons in E by done. cbn [app] in E.
    destruct (decide (length a + length sub ≤ length p)) as [Hin|Hout].
    + exists p, a, (drop (length a + length sub) p). split; [by left|].
      assert (Et : take (length a + length sub) (p ++ c :: Join [c] (q :: ps)) = take (length a + length sub) (a ++ sub ++ b)) by (by rewrite E).
      rewrite take_app_le in Et by done. rewrite (assoc_L (++)) in Et. rewrite <-(take_drop (length a + length sub) p) at 1. rewrite Et.
      rewrite take_app_length' by (rewrite length_app; lia). by rewrite <-(assoc_L (++)).
    + destruct (decide (length a ≤ length p)) as [Hle|Hgt].
      * exfalso. assert (El : (p ++ c :: Join [c] (q :: ps)) !! length p = Some c) by (by rewrite lookup_app_r, Nat.sub_diag).
        rewrite E, lookup_app_r in El by done. rewrite lookup_app_l in El by lia. apply Hc. by eapply list_elem_of_lookup_2.
      * destruct (IH (drop (S (length p)) a) b Hne Hc) as (r & a' & b' & Hr & ->).
        { assert (Ed : drop (S (length p)) (p ++ c :: Join [c] (q :: ps)) = drop (S (length p)) (a ++ sub ++ b)) by (by rewrite E).
          rewrite (cons_middle c p), (assoc_L (++)) in Ed. rewrite drop_app_length' in Ed by (rewrite length_app; cbn; lia).
          rewrite drop_app_le in Ed by lia. done. }
        exists (a' ++ sub ++ b'), a', b'. split; [by right|done].
Qed.
