(* ===== verification/Rendezvous.v ===== *)
(** * Rendezvous hashing (pkg/actors/hashing/rendezvous/rendezvous.go)

    The actor placement algorithm of the v2 (scheduler placement) protocol: a
    table is the sorted, duplicate-free slice of host addresses with one
    pre-fed hash digest per host; [Lookup] returns the host with the highest
    score for a key.  The hash (github.com/cespare/xxhash) is a third-party
    package: it enters as the interface [XXHash].

    The specification [is_owner] is the mathematical one (the score-maximal
    host, ties to the smaller address).  The theorems show that [Lookup]
    implements it, hence that the owner depends on the host set only, and that
    membership changes move the minimal set of keys. *)

From S2P Require Import Prelude GoLib.

(** The xxhash package: [d_sum64] of a digest is the 64-bit hash of everything
    written to it since [d_reset] (the documented contract of hash.Hash64). *)
Class XXHash := {
  digest : Type;
  d_reset : digest;
  d_write : digest → string → digest;
  d_sum64 : digest → N;
  xxhash64 : string → N;
  d_sum64_writes : ∀ parts : list string,
    d_sum64 (foldl d_write d_reset parts) = xxhash64 (foldr String.append EmptyString parts)
}.

Definition separator : string := "||".

Section rendezvous.
Context {X : XXHash}.

Record Table := mkTable { hosts : list string; prefixes : list digest }.

(** [New]: clone, sort, compact, then one digest per host fed with the host and
    the separator. *)
Definition Table_New (hs : list string) : Table :=
  let sorted := compact (sort_strings hs) in
  {| hosts := sorted;
     prefixes := (λ host, d_write (d_write d_reset host) separator) <$> sorted |}.

(** [(t *Table) score(i, key)]: [None] is the index-out-of-range panic of
    [t.prefixes[i]]. *)
Definition Table_score (t : Table) (i : nat) (key : string) : option N :=
  d ← prefixes t !! i; Some (d_sum64 (d_write d key)).

(** The loop of [Lookup] over the indices [1 .. len(t.hosts)-1]. *)
Fixpoint lookup_loop (t : Table) (key : string) (idxs : list nat)
    (owner : string) (best : N) : option string :=
  match idxs with
  | [] => Some owner
  | i :: idxs' =>
      s ← Table_score t i key;
      if (best <? s)%N then
        h ← hosts t !! i; lookup_loop t key idxs' h s
      else lookup_loop t key idxs' owner best
  end.

(** [Lookup]; a nil table is [None]; the outer option is the panic of an
    out-of-range index. *)
Definition Table_Lookup (t : option Table) (key : string) : option (string * bool) :=
  match t with
  | None => Some (EmptyString, false)
  | Some t =>
      if decide (length (hosts t) = 0) then Some (EmptyString, false)
      else
        owner ← hosts t !! 0;
        best ← Table_score t 0 key;
        o ← lookup_loop t key (seq 1 (length (hosts t) - 1)) owner best;
        Some (o, true)
  end.

Definition Table_Hosts (t : option Table) : list string :=
  match t with None => [] | Some t => hosts t end.

Definition Table_Equal (t other : option Table) : bool :=
  match t, other with
  | Some t, Some o => bool_decide (hosts t = hosts o)
  | None, None => true
  | _, _ => length (Table_Hosts t) =? length (Table_Hosts other)
  end.

(** The package-level [score(host, key)], the wire contract's definition. *)
Definition score (host key : string) : N :=
  d_sum64 (d_write (d_write (d_write d_reset host) separator) key).

(** ** Specification *)

(** [o] beats [h] for [key]: a higher score, or an equal score and a smaller or
    equal address. *)
Definition beats (key o h : string) : Prop :=
  (score h key < score o key)%N ∨ (score h key = score o key ∧ String.le o h).

Definition is_owner (hs : list string) (key o : string) : Prop :=
  o ∈ hs ∧ ∀ h, h ∈ hs → beats key o h.

(** ** Lemmas *)

Lemma score_wire host key :
  score host key = xxhash64 (String.append host (String.append separator key)).
Proof.
  pose proof (d_sum64_writes [host; separator; key]) as Hw. simpl in Hw.
  unfold score. by rewrite Hw, string_append_nil_r.
Qed.

Lemma elem_of_hosts_New h hs : h ∈ hosts (Table_New hs) ↔ h ∈ hs.
Proof. unfold Table_New; simpl. by rewrite elem_of_compact, elem_of_sort_strings. Qed.

Lemma hosts_New_sorted hs : StronglySorted String.le (hosts (Table_New hs)).
Proof. unfold Table_New; simpl. auto using compact_sorted with dapr. Qed.

Lemma hosts_New_nodup hs : NoDup (hosts (Table_New hs)).
Proof. unfold Table_New; simpl. auto using compact_nodup with dapr. Qed.

(** The table is a function of the host set. *)
Lemma Table_New_ext hs1 hs2 : (∀ h, h ∈ hs1 ↔ h ∈ hs2) → Table_New hs1 = Table_New hs2.
Proof.
  intros Hext. assert (hosts (Table_New hs1) = hosts (Table_New hs2)) as Hh.
  { apply sorted_nodup_ext; auto using hosts_New_sorted, hosts_New_nodup.
    intros x. by rewrite !elem_of_hosts_New. }
  unfold Table_New in *. simpl in Hh. by rewrite Hh.
Qed.

Lemma Table_score_New hs i h key :
  hosts (Table_New hs) !! i = Some h → Table_score (Table_New hs) i key = Some (score h key).
Proof.
  intros Hi. unfold Table_score, Table_New in *. simpl in *. by rewrite list_lookup_fmap, Hi.
Qed.

(** The running maximum over a sorted prefix wins against every host seen. *)
Lemma lookup_loop_spec hs key n i owner :
  let l := hosts (Table_New hs) in
  i + n = length l →
  is_owner (take i l) key owner →
  ∃ o, lookup_loop (Table_New hs) key (seq i n) owner (score owner key) = Some o ∧
       is_owner l key o.
Proof.
  intros l. revert i owner; induction n as [|n IH]; intros i owner Hlen Hown.
  - exists owner. split; [done|]. rewrite take_ge in Hown by lia. done.
  - destruct (lookup_lt_is_Some_2 l i) as [h Hh]; [lia|].
    cbn [seq lookup_loop]. rewrite (Table_score_New _ _ h) by done.
    cbn [mbind option_bind]. fold l. rewrite Hh. cbn [mbind option_bind].
    assert (Htake : take (S i) l = take i l ++ [h]) by (by apply take_S_r).
    assert (Hle : ∀ x, x ∈ take i l → String.le x h).
    { intros x Hx. pose proof (hosts_New_sorted hs) as Hs. fold l in Hs.
      rewrite <-(take_drop_middle l i h Hh) in Hs.
      eapply StronglySorted_app_1_elem_of in Hs; [exact Hs|done|set_solver]. }
    destruct Hown as [Hin Hbeat].
    destruct (N.ltb_spec (score owner key) (score h key)) as [Hlt|Hge].
    + apply IH; [lia|]. rewrite Htake. split; [set_solver|].
      intros x [Hx|Hx]%elem_of_app.
      * left. destruct (Hbeat x Hx) as [?|[? _]]; lia.
      * apply list_elem_of_singleton in Hx as ->. right. by split.
    + apply IH; [lia|]. rewrite Htake. split; [set_solver|].
      intros x [Hx|Hx]%elem_of_app; [by apply Hbeat|].
      apply list_elem_of_singleton in Hx as ->. unfold beats.
      destruct (decide (score h key = score owner key)); [right; auto|left; lia].
Qed.

Lemma Lookup_owner hs key :
  hs ≠ [] → ∃ o, Table_Lookup (Some (Table_New hs)) key = Some (o, true) ∧ is_owner hs key o.
Proof.
  intros Hne. destruct hs as [|h0 hs0]; [done|]. set (hs := h0 :: hs0) in *.
  destruct (hosts (Table_New hs)) as [|h l] eqn:El.
  { assert (h0 ∈ hosts (Table_New hs)) by (rewrite elem_of_hosts_New; subst hs; set_solver).
    rewrite El in *. set_solver. }
  destruct (lookup_loop_spec hs key (length l) 1 h) as (o & Hloop & Hown).
  { by rewrite El. }
  { rewrite El. simpl. rewrite firstn_O. split; [set_solver|].
    intros x ->%list_elem_of_singleton. right. split; [done|reflexivity]. }
  exists o. split.
  - unfold Table_Lookup. rewrite (Table_score_New hs 0 h) by (by rewrite El).
    rewrite El. simpl. rewrite Nat.sub_0_r, Hloop. done.
  - destruct Hown as [Hin Hb]. split; [by apply elem_of_hosts_New|].
    intros x Hx. apply Hb. by rewrite elem_of_hosts_New.
Qed.

Lemma is_owner_unique hs key o1 o2 : is_owner hs key o1 → is_owner hs key o2 → o1 = o2.
Proof.
  intros [Hin1 Hb1] [Hin2 Hb2].
  destruct (Hb1 o2 Hin2) as [?|[? ?]], (Hb2 o1 Hin1) as [?|[? ?]]; try lia.
  by apply (anti_symm String.le).
Qed.

(** The owner computed by [Lookup] is exactly the specified one. *)
Lemma Lookup_iff hs key o :
  Table_Lookup (Some (Table_New hs)) key = Some (o, true) ↔ is_owner hs key o.
Proof.
  split.
  - intros Hl. destruct (decide (hs = [])) as [->|Hne]; [done|].
    destruct (Lookup_owner hs key Hne) as (o' & Hl' & Ho'). congruence.
  - intros Ho. assert (hs ≠ []) as Hne by (destruct Ho as [Hin _]; by intros ->; apply elem_of_nil in Hin).
    destruct (Lookup_owner hs key Hne) as (o' & Hl' & Ho').
    by rewrite (is_owner_unique _ _ _ _ Ho Ho').
Qed.

(** ** Properties *)

(** C32: The precomputed rendezvous table implements rendezvous hashing: Lookup on the table
    of a host list returns the host with the highest score xxhash64(host ++ separator ++
    key), ties going to the smallest host name, and reports no host exactly for the empty
    list. *)
Theorem rendezvous_lookup_refines hs key :
  (hs = [] ∧ Table_Lookup (Some (Table_New hs)) key = Some (EmptyString, false)) ∨
  (∃ o, Table_Lookup (Some (Table_New hs)) key = Some (o, true) ∧
        o ∈ hs ∧
        ∀ h, h ∈ hs → h ≠ o →
          (xxhash64 (String.append h (String.append separator key))
             < xxhash64 (String.append o (String.append separator key)))%N ∨
          (xxhash64 (String.append h (String.append separator key))
             = xxhash64 (String.append o (String.append separator key)) ∧ String.le o h)).
Proof.
  destruct (decide (hs = [])) as [->|Hne]; [by left|]. right.
  destruct (Lookup_owner hs key Hne) as (o & Hl & Hin & Hb).
  exists o. split_and!; [done..|]. intros h Hh _. rewrite <-!score_wire. by apply Hb.
Qed.

(** Minimal disruption: removing a host that does not own a key does not move the key, and
    adding a host either leaves the owner in place or moves the key to the new host. *)
Theorem rendezvous_minimal_disruption hs key o hnew :
  Table_Lookup (Some (Table_New hs)) key = Some (o, true) →
  (∀ h, h ≠ o →
     Table_Lookup (Some (Table_New (filter (λ x, x ≠ h) hs))) key = Some (o, true)) ∧
  (Table_Lookup (Some (Table_New (hnew :: hs))) key = Some (o, true) ∨
   Table_Lookup (Some (Table_New (hnew :: hs))) key = Some (hnew, true)).
Proof.
  rewrite Lookup_iff. intros [Hin Hb]. split.
  - intros h Hne. rewrite Lookup_iff. split.
    + apply list_elem_of_filter. auto.
    + intros x [_ Hx]%list_elem_of_filter. by apply Hb.
  - destruct (Lookup_owner (hnew :: hs) key) as (o' & Hl & Hin' & Hb'); [done|].
    rewrite Hl. apply elem_of_cons in Hin' as [->|Hin']; [by right|left].
    f_equal. f_equal. apply (is_owner_unique hs key); split; try done.
    intros h Hh. apply Hb'. set_solver.
Qed.

(** Agreement: two rendezvous tables built from host lists with the same members, in any
    order and with any duplicates, are Equal and route every key alike, and conversely
    tables that are Equal come from the same hosts. *)
Theorem rendezvous_agreement hs1 hs2 :
  (∀ h, h ∈ hs1 ↔ h ∈ hs2) ↔
    Table_Equal (Some (Table_New hs1)) (Some (Table_New hs2)) = true ∧
    ∀ key, Table_Lookup (Some (Table_New hs1)) key = Table_Lookup (Some (Table_New hs2)) key.
Proof.
  split.
  - intros Hext. rewrite (Table_New_ext hs1 hs2 Hext). split; [|done].
    cbn [Table_Equal]. by apply bool_decide_eq_true.
  - intros [Heq _] h. unfold Table_Equal in Heq. apply bool_decide_eq_true in Heq.
    by rewrite <-(elem_of_hosts_New h hs1), <-(elem_of_hosts_New h hs2), Heq.
Qed.

End rendezvous.

(** ** Witnesses *)

(** A concrete digest: the accumulated bytes, hashed by a small polynomial. *)
Fixpoint poly (s : string) (acc : N) : N :=
  match s with
  | EmptyString => acc
  | String a s' => poly s' ((acc * 31 + Ascii.N_of_ascii a) mod 65536)%N
  end.

Lemma foldl_append parts s :
  foldl String.append s parts = String.append s (foldr String.append EmptyString parts).
Proof.
  revert s; induction parts as [|p ps IH]; intros s; simpl.
  - by rewrite string_append_nil_r.
  - by rewrite IH, string_append_assoc.
Qed.

#[refine] Definition poly_hash : XXHash := {|
  digest := string; d_reset := EmptyString; d_write := String.append;
  d_sum64 := λ s, poly s 7%N; xxhash64 := λ s, poly s 7%N |}.
Proof. intros parts. by rewrite foldl_append. Defined.

Definition three_hosts : list string := ["10.0.0.2:50002"; "10.0.0.1:50002"; "10.0.0.3:50002"].

Lemma rendezvous_lookup_refines_witness :
  @Table_Lookup poly_hash (Some (@Table_New poly_hash three_hosts)) "actor-1"
    = Some ("10.0.0.2:50002", true) ∧
  ∃ o, @Table_Lookup poly_hash (Some (@Table_New poly_hash three_hosts)) "actor-1"
    = Some (o, true) ∧ o ∈ three_hosts.
Proof.
  split; [vm_compute; reflexivity|].
  destruct (@rendezvous_lookup_refines poly_hash three_hosts "actor-1")
    as [[Hnil _]|(o & Hl & Hin & _)]; [discriminate Hnil|exists o; auto].
Defined.

Lemma rendezvous_minimal_disruption_witness :
  @Table_Lookup poly_hash (Some (@Table_New poly_hash (filter (λ x, x ≠ "10.0.0.1:50002") three_hosts)))
    "actor-1" = Some ("10.0.0.2:50002", true).
Proof.
  refine (proj1 (@rendezvous_minimal_disruption poly_hash three_hosts "actor-1"
    "10.0.0.2:50002" "10.0.0.4:50002" _) "10.0.0.1:50002" _); [vm_compute; reflexivity|discriminate].
Defined.

Lemma rendezvous_agreement_witness :
  @Table_Equal poly_hash (Some (@Table_New poly_hash ["b"; "a"; "b"]))
    (Some (@Table_New poly_hash ["a"; "b"])) = true.
Proof. refine (proj1 (proj1 (@rendezvous_agreement poly_hash _ _) _)). set_solver. Defined.
