(* ===== verification/PlacementStore.v ===== *)
(** * The placement table store
      (pkg/placement/internal/loops/disseminator/store/store.go)

    Hosts of one namespace indexed by stream, and the tables computed from
    them.  [Host] is the protobuf message of the ReportDaprStatus stream.  Go
    iterates maps in an unspecified order: the table functions take the
    iteration order as an argument, and the theorems hold for every order. *)

From stdpp Require Import pretty.
From S2P Require Import Prelude GoLib.

(** ** Messages (pkg/proto/placement/v1) *)

(** The protobuf enum is open: any other int32 value can arrive. *)
Inductive HostOperation :=
  | UNKNOWN | REPORT | LOCK | UPDATE | UNLOCK | OTHER_OP (n : Z).

#[export] Instance HostOperation_eq_dec : EqDecision HostOperation.
Proof. solve_decision. Defined.

Record Host := mkHost {
  Name : string;
  Port : Z;
  Load : Z;
  Entities : list string;
  Id : string;
  Pod : string;
  ApiLevel : N;
  Namespace : string;
  Operation : HostOperation;
  Version : option N
}.

Record PlacementTables := mkPlacementTables {
  pt_Entries : gmap string (gmap string Host);
  pt_Version : string;
  pt_ReplicationFactor : Z
}.

Record StatePlacementTable := mkStatePlacementTable {
  spt_Version : N;
  spt_Hosts : list Host
}.

(** ** State and operations *)

Record Store := mkStore {
  replicationFactor : Z;
  hosts : gmap N Host
}.

Definition Store_New (rf : Z) : Store := {| replicationFactor := rf; hosts := ∅ |}.

(** The body of the inner loop of [PlacementTables]. *)
Definition add_entity (host : Host) (entries : gmap string (gmap string Host))
    (entity : string) : gmap string (gmap string Host) :=
  let entries :=
    match entries !! entity with None => <[entity := ∅]> entries | Some _ => entries end in
  <[entity := <[Name host := host]> (default ∅ (entries !! entity))]> entries.

Definition add_host (entries : gmap string (gmap string Host)) (host : Host)
    : gmap string (gmap string Host) :=
  foldl (add_entity host) entries (Entities host).

(** [PlacementTables(version)], [order] being the order in which the map
    iteration visits the hosts. *)
Definition Store_PlacementTables_order (s : Store) (order : list Host) (version : N)
    : PlacementTables :=
  {| pt_Entries := foldl add_host ∅ order;
     pt_Version := pretty version;
     pt_ReplicationFactor := replicationFactor s |}.

Definition hosts_order (s : Store) : list Host := (map_to_list (hosts s)).*2.

Definition Store_PlacementTables (s : Store) (version : N) : PlacementTables :=
  Store_PlacementTables_order s (hosts_order s) version.

Definition by_name (h1 h2 : Host) : Prop := String.le (Name h1) (Name h2).

#[export] Instance by_name_dec : RelDecision by_name.
Proof. intros h1 h2. unfold by_name. apply _. Defined.

(** [StatePlacementTable(version)]: a stable sort by name of the cloned hosts. *)
Definition Store_StatePlacementTable (s : Store) (version : N) : StatePlacementTable :=
  {| spt_Version := version; spt_Hosts := merge_sort by_name (hosts_order s) |}.

(** [sort.Strings(host.Entities)] updates the message in place. *)
Definition sort_entities (h : Host) : Host :=
  {| Name := Name h; Port := Port h; Load := Load h; Entities := sort_strings (Entities h);
     Id := Id h; Pod := Pod h; ApiLevel := ApiLevel h; Namespace := Namespace h;
     Operation := Operation h; Version := Version h |}.

(** [HostChanged], applied to the host whose entities it has just sorted. *)
Definition Store_HostChanged (s : Store) (streamIDx : N) (host : Host) : bool :=
  let host := sort_entities host in
  match hosts s !! streamIDx with
  | None => negb (length (Entities host) =? 0)
  | Some existing =>
      negb (bool_decide (Entities existing = Entities host)) ||
      negb (bool_decide (Id host = Id existing)) ||
      negb (bool_decide (Namespace host = Namespace existing))
  end.

Definition Store_Set (s : Store) (streamIDx : N) (host : Host) : Store * bool :=
  if negb (Store_HostChanged s streamIDx host) then (s, false)
  else
    let host := sort_entities host in
    if length (Entities host) =? 0 then
      ({| replicationFactor := replicationFactor s; hosts := delete streamIDx (hosts s) |}, true)
    else
      ({| replicationFactor := replicationFactor s; hosts := <[streamIDx := host]> (hosts s) |}, true).

Definition Store_Has (s : Store) (streamIDx : N) : bool :=
  bool_decide (is_Some (hosts s !! streamIDx)).

Definition Store_Delete (s : Store) (streamIDx : N) : Store :=
  {| replicationFactor := replicationFactor s; hosts := delete streamIDx (hosts s) |}.

(** [CollectOrphans]: the indices appended to [*orphans]. *)
Definition Store_CollectOrphans (s : Store) (isActive : N → bool) (orphans : list N) : list N :=
  orphans ++ filter (λ idx, isActive idx = false) (map_to_list (hosts s)).*1.

Definition Store_DeleteAll (s : Store) : Store :=
  {| replicationFactor := replicationFactor s; hosts := ∅ |}.

(** ** Invariant and abstract view *)

(** Every stored host has at least one entity and its entities are sorted. *)
Definition store_wf (s : Store) : Prop :=
  map_Forall (λ _ h, Entities h ≠ [] ∧ sort_strings (Entities h) = Entities h) (hosts s).

(** What a host contributes to the placement tables, as [HostChanged] compares
    it; a host without entities contributes nothing. *)
Definition contribution (h : Host) : option (list string * string * string) :=
  match sort_strings (Entities h) with
  | [] => None
  | es => Some (es, Id h, Namespace h)
  end.

Definition stored_contribution (s : Store) (idx : N) : option (list string * string * string) :=
  hosts s !! idx ≫= contribution.

(** ** Lemmas *)

Lemma sort_strings_idemp l : sort_strings (sort_strings l) = sort_strings l.
Proof. apply sort_strings_idemp_perm, sort_strings_perm. Qed.

Lemma store_wf_New rf : store_wf (Store_New rf).
Proof. apply map_Forall_empty. Qed.

Lemma store_wf_Delete s idx : store_wf s → store_wf (Store_Delete s idx).
Proof. intros Hwf. by apply map_Forall_delete. Qed.

Lemma store_wf_Set s idx h : store_wf s → store_wf (Store_Set s idx h).1.
Proof.
  intros Hwf. unfold Store_Set. destruct (negb _); [done|].
  destruct (length _ =? 0) eqn:E; simpl; [by apply map_Forall_delete|].
  apply Nat.eqb_neq in E. apply map_Forall_insert_2; [|done]. split; simpl.
  - intros Hnil. simpl in E. rewrite Hnil in E. done.
  - apply sort_strings_idemp.
Qed.

Lemma store_wf_DeleteAll s : store_wf (Store_DeleteAll s).
Proof. apply map_Forall_empty. Qed.

#[export] Hint Resolve store_wf_New store_wf_Delete store_wf_Set store_wf_DeleteAll : dapr.

Lemma stored_contribution_wf s idx h :
  store_wf s → hosts s !! idx = Some h →
  stored_contribution s idx = Some (Entities h, Id h, Namespace h).
Proof.
  intros Hwf Hl. destruct (Hwf idx h Hl) as [Hne Hsort].
  unfold stored_contribution. rewrite Hl. simpl. unfold contribution. rewrite Hsort.
  by destruct (Entities h).
Qed.

(** [HostChanged] compares contributions. *)
Lemma HostChanged_contribution s idx h :
  store_wf s →
  Store_HostChanged s idx h = negb (bool_decide (stored_contribution s idx = contribution h)).
Proof.
  intros Hwf. unfold Store_HostChanged. destruct (hosts s !! idx) as [ex|] eqn:Hl.
  - rewrite (stored_contribution_wf s idx ex Hwf Hl). unfold contribution. simpl.
    destruct (Hwf idx ex Hl) as [Hne _].
    rewrite <-!negb_andb. f_equal. apply Bool.eq_iff_eq_true.
    rewrite !andb_true_iff, !bool_decide_eq_true.
    destruct (sort_strings (Entities h)) as [|e es]; (split; [intros [[? ?] ?]|intros ?]); simplify_eq; repeat split; congruence.
  - unfold stored_contribution. rewrite Hl. simpl. unfold contribution.
    by destruct (sort_strings (Entities h)) as [|e es]; case_bool_decide.
Qed.

(** [Set] as an update of the abstract view. *)
Lemma Set_spec s idx h :
  store_wf s →
  (Store_Set s idx h).2 = negb (bool_decide (stored_contribution s idx = contribution h)) ∧
  stored_contribution (Store_Set s idx h).1 idx = contribution h ∧
  (∀ j, j ≠ idx → hosts (Store_Set s idx h).1 !! j = hosts s !! j).
Proof.
  intros Hwf. pose proof (HostChanged_contribution s idx h Hwf) as Hch.
  unfold Store_Set. rewrite Hch. case_bool_decide as Heq; simpl; [done|].
  unfold stored_contribution, contribution.
  destruct (sort_strings (Entities h)) as [|e es] eqn:Es; simpl; split_and!.
  - done.
  - by rewrite lookup_delete_eq.
  - intros j Hj. by rewrite lookup_delete_ne.
  - done.
  - rewrite lookup_insert_eq. simpl. by rewrite sort_strings_idemp, Es.
  - intros j Hj. by rewrite lookup_insert_ne.
Qed.

Lemma Set_Has s idx h :
  store_wf s → Store_Has (Store_Set s idx h).1 idx = bool_decide (Entities h ≠ []).
Proof.
  intros Hwf. apply bool_decide_ext.
  pose proof (store_wf_Set s idx h Hwf) as Hwf'.
  destruct (Set_spec s idx h Hwf) as (_ & Hc & _).
  destruct (hosts (Store_Set s idx h).1 !! idx) as [h'|] eqn:Hl.
  - rewrite (stored_contribution_wf _ _ _ Hwf' Hl) in Hc. unfold contribution in Hc.
    split; [|eauto]. intros _ Hnil. rewrite Hnil in Hc. done.
  - unfold stored_contribution, contribution in Hc. rewrite Hl in Hc. simpl in Hc.
    split; [by intros []|]. intros Hne. destruct (sort_strings (Entities h)) eqn:E; [|done].
    by apply sort_strings_nil_inv in E.
Qed.

(** *** The tables *)

Lemma add_entity_lookup host entries e e' :
  add_entity host entries e !! e' =
    if decide (e = e') then Some (<[Name host := host]> (default ∅ (entries !! e')))
    else entries !! e'.
Proof.
  unfold add_entity. rewrite lookup_insert. case_decide as E; subst.
  - destruct (entries !! e') eqn:El; [by rewrite El|]. by rewrite lookup_insert_eq.
  - destruct (entries !! e); [done|]. by rewrite lookup_insert_ne.
Qed.

(** Which entries mention which host names. *)
Definition listed (entries : gmap string (gmap string Host)) (e n : string) : Prop :=
  ∃ m, entries !! e = Some m ∧ is_Some (m !! n).

Lemma listed_add_entity host entries e e' n :
  listed (add_entity host entries e) e' n ↔
    (e = e' ∧ n = Name host) ∨ listed entries e' n.
Proof.
  unfold listed. rewrite add_entity_lookup. case_decide as E; [subst e'|naive_solver].
  destruct (decide (Name host = n)) as [<-|Hn].
  - split; [auto|]. intros _. eexists. split; [done|]. rewrite lookup_insert_eq. eauto.
  - split.
    + intros (m & [= <-] & Hm). rewrite lookup_insert_ne in Hm by done.
      destruct (entries !! e) as [m'|] eqn:El; simpl in Hm; [right; eauto|].
      rewrite lookup_empty in Hm. by destruct Hm.
    + intros [[_ ->]|(m & Hm & Hs)]; [done|]. eexists. split; [done|].
      rewrite lookup_insert_ne by done. by rewrite Hm.
Qed.

Lemma listed_add_entities host es entries e n :
  listed (foldl (add_entity host) entries es) e n ↔
    (e ∈ es ∧ n = Name host) ∨ listed entries e n.
Proof.
  revert entries; induction es as [|x es IH]; intros entries; simpl.
  - split; [by right|]. intros [[Hin _]|?]; [by apply elem_of_nil in Hin|done].
  - rewrite IH, listed_add_entity, elem_of_cons. naive_solver.
Qed.

Lemma listed_add_hosts order entries e n :
  listed (foldl add_host entries order) e n ↔
    (∃ h, h ∈ order ∧ e ∈ Entities h ∧ n = Name h) ∨ listed entries e n.
Proof.
  revert entries; induction order as [|h order IH]; intros entries; simpl.
  - split; [by right|]. intros [(h & Hin & _)|?]; [by apply elem_of_nil in Hin|done].
  - rewrite IH. unfold add_host at 1. rewrite listed_add_entities.
    setoid_rewrite elem_of_cons. naive_solver.
Qed.

(** A load map holds a host under its own name, and that host lists the
    entity. *)
Definition entries_sound (order : list Host) (entries : gmap string (gmap string Host)) : Prop :=
  ∀ e m n h, entries !! e = Some m → m !! n = Some h → h ∈ order ∧ n = Name h ∧ e ∈ Entities h.

Lemma entries_sound_add_entity order entries host e :
  host ∈ order → e ∈ Entities host →
  entries_sound order entries → entries_sound order (add_entity host entries e).
Proof.
  intros Hin He Hs e' m n h. rewrite add_entity_lookup. case_decide as E; [subst e'|apply Hs].
  intros [= <-]. rewrite lookup_insert. case_decide as En; [intros [= <-]; auto|].
  destruct (entries !! e) eqn:El; simpl; [by apply Hs|by rewrite lookup_empty].
Qed.

Lemma entries_sound_foldl order es entries :
  (∀ h, h ∈ es → h ∈ order) → entries_sound order entries →
  entries_sound order (foldl add_host entries es).
Proof.
  revert entries; induction es as [|h es IH]; intros entries Hsub Hs; simpl; [done|].
  apply IH; [set_solver|]. unfold add_host.
  assert (Hh : h ∈ order) by set_solver.
  assert (Hent : ∀ e, e ∈ Entities h → e ∈ Entities h) by done.
  revert Hent Hs. generalize (Entities h) at 1 3 as l. intros l. revert entries.
  induction l as [|e l IHl]; intros entries Hent Hs; simpl; [done|].
  apply IHl; [set_solver|]. apply entries_sound_add_entity; set_solver.
Qed.

(** ** Properties *)

(** The disseminated tables are exact: for any iteration order of the store, a host is
    listed under an actor type if and only if a stored stream reported that type under that
    name, and each entry is the record stored for such a stream. *)
Theorem placement_tables_exact s order version :
  order ≡ₚ hosts_order s →
  let t := pt_Entries (Store_PlacementTables_order s order version) in
  (∀ e n, (∃ m, t !! e = Some m ∧ is_Some (m !! n)) ↔
     (∃ idx h, hosts s !! idx = Some h ∧ e ∈ Entities h ∧ Name h = n)) ∧
  (∀ e m n h, t !! e = Some m → m !! n = Some h →
     Name h = n ∧ e ∈ Entities h ∧ ∃ idx, hosts s !! idx = Some h).
Proof.
  intros Hp t.
  assert (Hin : ∀ h, h ∈ order ↔ ∃ idx, hosts s !! idx = Some h).
  { intros h. rewrite Hp. unfold hosts_order. rewrite list_elem_of_fmap. split.
    - intros ([i h'] & -> & Hl%elem_of_map_to_list). eauto.
    - intros [i Hl]. exists (i, h). split; [done|by apply elem_of_map_to_list]. }
  split.
  - intros e n. change (listed t e n ↔ ∃ idx h, hosts s !! idx = Some h ∧ e ∈ Entities h ∧ Name h = n).
    subst t. simpl. rewrite listed_add_hosts. split.
    + intros [(h & Hh & He & ->)|(m & Hm & _)]; [|by rewrite lookup_empty in Hm].
      apply Hin in Hh as [idx Hl]. eauto.
    + intros (idx & h & Hl & He & <-). left. exists h. rewrite Hin. eauto.
  - intros e m n h Hm Hn.
    assert (Hs : entries_sound order t).
    { apply entries_sound_foldl; [done|]. intros ? ? ? ? Hemp. by rewrite lookup_empty in Hemp. }
    destruct (Hs e m n h Hm Hn) as (Hh & -> & He). apply Hin in Hh. auto.
Qed.

(** Set records what a stream reported: the store stays well-formed, the contribution stored
    for the stream is that of the report (none without entities), the result tells exactly
    whether it differs from the previous one, an unchanged report leaves the store as it is,
    and other streams are not affected. *)
Theorem store_set_tracks_report s idx h :
  store_wf s →
  let '(s', changed) := Store_Set s idx h in
  store_wf s' ∧
  stored_contribution s' idx = contribution h ∧
  (changed = true ↔ stored_contribution s idx ≠ contribution h) ∧
  (changed = false → s' = s) ∧
  (∀ j, j ≠ idx → hosts s' !! j = hosts s !! j).
Proof.
  intros Hwf. pose proof (store_wf_Set s idx h Hwf) as Hwf'.
  destruct (Set_spec s idx h Hwf) as (Hch & Hc & Hother).
  assert (Hsame : (Store_Set s idx h).2 = false → (Store_Set s idx h).1 = s).
  { unfold Store_Set. repeat case_match; simpl; done. }
  destruct (Store_Set s idx h) as [s' changed]; simpl in *.
  split_and!; [done..| |done|done]. rewrite Hch. case_bool_decide; naive_solver.
Qed.

(** ** Witnesses *)

Definition demo_host (name : string) (es : list string) : Host :=
  {| Name := name; Port := 50002; Load := 0; Entities := es; Id := "app"; Pod := EmptyString;
     ApiLevel := 20; Namespace := "default"; Operation := REPORT; Version := None |}.

Definition demo_store : Store :=
  (Store_Set (Store_Set (Store_New 100) 0 (demo_host "10.0.0.1:50002" ["t2"; "t1"])).1
    1 (demo_host "10.0.0.2:50002" ["t1"])).1.

Lemma demo_store_wf : store_wf demo_store.
Proof. unfold demo_store. auto with dapr. Qed.

Lemma placement_tables_exact_witness :
  ∃ m, pt_Entries (Store_PlacementTables_order demo_store (hosts_order demo_store) 7) !! "t1" = Some m ∧
       is_Some (m !! "10.0.0.2:50002").
Proof.
  refine (proj2 (proj1 (placement_tables_exact demo_store (hosts_order demo_store) 7 _) _ _) _).
  - reflexivity.
  - exists 1%N. eexists. split; [vm_compute; reflexivity|]. split; [|reflexivity].
    vm_compute. left.
Defined.

Lemma store_set_tracks_report_witness :
  store_wf demo_store ∧ (Store_Set demo_store 1 (demo_host "10.0.0.2:50002" [])).2 = true ∧
  stored_contribution (Store_Set demo_store 1 (demo_host "10.0.0.2:50002" [])).1 1 = None.
Proof.
  pose proof (store_set_tracks_report demo_store 1 (demo_host "10.0.0.2:50002" []) demo_store_wf) as H.
  split; [exact demo_store_wf|]. split; [vm_compute; reflexivity|].
  destruct (Store_Set demo_store 1 (demo_host "10.0.0.2:50002" [])) as [s' ch].
  exact (proj1 (proj2 H)).
Defined.
