(* ===== verification/PlacementDisseminator.v ===== *)
(** * The placement server's namespace disseminator: state and handlers
      (pkg/placement/internal/loops/disseminator: disseminator.go, host.go,
      closeconn.go, state.go; pkg/placement/internal/loops/loops.go)

    One loop per namespace drives the three-phase LOCK / UPDATE / UNLOCK
    dissemination of placement tables to the connected sidecars.  Its state is
    the record [disseminator]; each handler is a [prog disseminator output]
    whose outputs are the commands it issues, in order: events enqueued on the
    per-stream loops, stream creation and closing, the dissemination timeout
    queue, the coalesce timer, the two gauges.

    A stream is identified by its index in [d.streams].  Loops over [d.streams]
    visit [map_to_list]; Go's order is unspecified, and no property depends on
    it.  The recycling of loop objects ([sync.Pool], [CacheLoop]) appears in
    [New] and [handleShutdown] only.  The timers live outside: a timeout or a
    fired coalesce timer is an event of the loop. *)

From S2P Require Import Prelude GoLib PlacementStore.
#[local] Open Scope dapr_scope.

(** ** Events and outputs *)

(** The errors the loops pass around: the disseminator's own, and those of the
    transport. *)
Inductive error :=
  | ErrDisseminationTimeout (timeout : Z) (version : N)
  | ErrOther (msg : string).

(** [ConnAdd]: the connection is identified by [ca_conn] (its channel and
    cancel function). *)
Record ConnAdd := mkConnAdd { ca_conn : N; InitialHost : Host }.

Record ReportedHost := mkReportedHost { rh_Host : Host; rh_StreamIDx : N }.

Record ConnCloseStream := mkConnCloseStream {
  cc_StreamIDx : N; cc_Namespace : string; cc_Error : error }.

Inductive EventDisseminator :=
  | EvConnAdd (e : ConnAdd)
  | EvReportedHost (e : ReportedHost)
  | EvConnCloseStream (e : ConnCloseStream)
  | EvShutdown (err : error)
  | EvDisseminationTimeout (version : N)
  | EvNamespaceTableRequest
  | EvCoalesceFire.

(** Events of the stream loops. *)
Inductive EventStream :=
  | DisseminateLock (version : N)
  | DisseminateUpdate (version : N) (tables : PlacementTables)
  | DisseminateUnlock (version : N)
  | DisseminateTable (version : N) (tables : PlacementTables)
  | StreamShutdown (err : error).

Inductive output :=
  | OStreamNew (idx : N) (add : ConnAdd)
  | OEnqueue (idx : N) (e : EventStream)
  | OClose (idx : N) (e : EventStream)
  | OCancel (conn : N) (err : error)
  | OTimeoutEnqueue (version : N)
  | OTimeoutDequeue (version : N)
  | OTimeoutClose
  | OTimerStart (window : Z)
  | OTimerStop
  | ORuntimes (n : Z)
  | OActorRuntimes (n : Z)
  | OTableReply (t : StatePlacementTable).

(** ** State *)

Record streamConn := mkStreamConn {
  currentState : HostOperation;
  hasActors : bool;
  receivingTable : option N
}.

Definition set_currentState (op : HostOperation) (s : streamConn) : streamConn :=
  {| currentState := op; hasActors := hasActors s; receivingTable := receivingTable s |}.
Definition set_receivingTable (r : option N) (s : streamConn) : streamConn :=
  {| currentState := currentState s; hasActors := hasActors s; receivingTable := r |}.

Record Options := mkOptions {
  o_Namespace : string;
  o_ReplicationFactor : Z;
  o_DisseminationTimeout : Z;
  o_DisseminationCoalesceWindow : Z
}.

Record disseminator := mkDisseminator {
  timeout : Z;
  coalesceWindow : Z;
  namespace : string;
  streams : gmap N streamConn;
  streamsInTargetState : Z;
  store : Store;
  streamIDx : N;
  coalesceTimer : bool;
  currentOperation : HostOperation;
  currentVersion : N;
  connCount : Z;
  actorConnCount : Z;
  waitingToDisseminate : list ConnAdd;
  waitingToDelete : list N
}.

Definition set_streams v d := mkDisseminator (timeout d) (coalesceWindow d) (namespace d) v
  (streamsInTargetState d) (store d) (streamIDx d) (coalesceTimer d) (currentOperation d)
  (currentVersion d) (connCount d) (actorConnCount d) (waitingToDisseminate d) (waitingToDelete d).
Definition set_streamsInTargetState v d := mkDisseminator (timeout d) (coalesceWindow d) (namespace d)
  (streams d) v (store d) (streamIDx d) (coalesceTimer d) (currentOperation d)
  (currentVersion d) (connCount d) (actorConnCount d) (waitingToDisseminate d) (waitingToDelete d).
Definition set_store v d := mkDisseminator (timeout d) (coalesceWindow d) (namespace d)
  (streams d) (streamsInTargetState d) v (streamIDx d) (coalesceTimer d) (currentOperation d)
  (currentVersion d) (connCount d) (actorConnCount d) (waitingToDisseminate d) (waitingToDelete d).
Definition set_streamIDx v d := mkDisseminator (timeout d) (coalesceWindow d) (namespace d)
  (streams d) (streamsInTargetState d) (store d) v (coalesceTimer d) (currentOperation d)
  (currentVersion d) (connCount d) (actorConnCount d) (waitingToDisseminate d) (waitingToDelete d).
Definition set_coalesceTimer v d := mkDisseminator (timeout d) (coalesceWindow d) (namespace d)
  (streams d) (streamsInTargetState d) (store d) (streamIDx d) v (currentOperation d)
  (currentVersion d) (connCount d) (actorConnCount d) (waitingToDisseminate d) (waitingToDelete d).
Definition set_currentOperation v d := mkDisseminator (timeout d) (coalesceWindow d) (namespace d)
  (streams d) (streamsInTargetState d) (store d) (streamIDx d) (coalesceTimer d) v
  (currentVersion d) (connCount d) (actorConnCount d) (waitingToDisseminate d) (waitingToDelete d).
Definition set_currentVersion v d := mkDisseminator (timeout d) (coalesceWindow d) (namespace d)
  (streams d) (streamsInTargetState d) (store d) (streamIDx d) (coalesceTimer d) (currentOperation d)
  v (connCount d) (actorConnCount d) (waitingToDisseminate d) (waitingToDelete d).
Definition set_connCount v d := mkDisseminator (timeout d) (coalesceWindow d) (namespace d)
  (streams d) (streamsInTargetState d) (store d) (streamIDx d) (coalesceTimer d) (currentOperation d)
  (currentVersion d) v (actorConnCount d) (waitingToDisseminate d) (waitingToDelete d).
Definition set_actorConnCount v d := mkDisseminator (timeout d) (coalesceWindow d) (namespace d)
  (streams d) (streamsInTargetState d) (store d) (streamIDx d) (coalesceTimer d) (currentOperation d)
  (currentVersion d) (connCount d) v (waitingToDisseminate d) (waitingToDelete d).
Definition set_waitingToDisseminate v d := mkDisseminator (timeout d) (coalesceWindow d) (namespace d)
  (streams d) (streamsInTargetState d) (store d) (streamIDx d) (coalesceTimer d) (currentOperation d)
  (currentVersion d) (connCount d) (actorConnCount d) v (waitingToDelete d).
Definition set_waitingToDelete v d := mkDisseminator (timeout d) (coalesceWindow d) (namespace d)
  (streams d) (streamsInTargetState d) (store d) (streamIDx d) (coalesceTimer d) (currentOperation d)
  (currentVersion d) (connCount d) (actorConnCount d) (waitingToDisseminate d) v.

(** [New]: an object of the pool ([None] on a pool miss) keeps its (cleared)
    streams and its store; everything else is reset. *)
Definition New (opts : Options) (cached : option disseminator) : disseminator :=
  {| timeout := o_DisseminationTimeout opts;
     coalesceWindow := o_DisseminationCoalesceWindow opts;
     namespace := o_Namespace opts;
     streams := match cached with Some c => streams c | None => ∅ end;
     streamsInTargetState := 0;
     store := match cached with
              | Some c => store c
              | None => Store_New (o_ReplicationFactor opts)
              end;
     streamIDx := 0;
     coalesceTimer := false;
     currentOperation := REPORT;
     currentVersion := 0;
     connCount := 0;
     actorConnCount := 0;
     waitingToDisseminate := [];
     waitingToDelete := [] |}.

(** ** Building blocks *)

Definition handler := prog disseminator output.

Definition op_eqb (a b : HostOperation) : bool := bool_decide (a = b).

Definition stream_idxs (d : disseminator) : list N := (map_to_list (streams d)).*1.

(** [for _, s := range d.streams { s.loop.Enqueue(e) }] *)
Definition enqueue_all (e : EventStream) : handler :=
  with d do emit ((λ idx, OEnqueue idx e) <$> stream_idxs d).

(** [for _, toDelete := range d.waitingToDelete { d.store.Delete(toDelete) };
     d.waitingToDelete = nil] *)
Definition delete_waiting : handler :=
  with d do
  for_each (waitingToDelete d) (λ toDelete,
    modify (λ d, set_store (Store_Delete (store d) toDelete) d)) ;;;
  modify (set_waitingToDelete []).

Definition collect_orphans : handler :=
  with d do
  modify (set_waitingToDelete (Store_CollectOrphans (store d)
    (λ idx, bool_decide (is_Some (streams d !! idx))) (waitingToDelete d))).

(** [for _, s := range d.streams { s.currentState = REPORT;
     s.receivingTable = nil; s.loop.Enqueue(&DisseminateLock{...}) }] *)
Definition lock_streams : handler :=
  with d do
  modify (set_streams (set_receivingTable None ∘ set_currentState REPORT <$> streams d)) ;;;
  enqueue_all (DisseminateLock (currentVersion d)).

(** The statements that open a dissemination round, identical in
    [processWaitingDeletes], [processWaitingDisseminate] and [doReport]:
    [d.currentVersion++; d.timeoutQ.Enqueue(d.currentVersion);
     d.currentOperation = LOCK; d.streamsInTargetState = 0] and the LOCK loop. *)
Definition start_round : handler :=
  modify (λ d, set_currentVersion (u64_succ (currentVersion d)) d) ;;;
  (with d do emit [OTimeoutEnqueue (currentVersion d)]) ;;;
  modify (set_currentOperation LOCK) ;;;
  modify (set_streamsInTargetState 0) ;;;
  lock_streams.

(** The gauges, updated with the counters they report. *)
Definition conn_count_add (n : Z) : handler :=
  with d do
  modify (set_connCount (connCount d + n)%Z) ;;;
  emit [ORuntimes (connCount d + n)%Z].

Definition actor_conn_count_add (n : Z) : handler :=
  with d do
  modify (set_actorConnCount (actorConnCount d + n)%Z) ;;;
  emit [OActorRuntimes (actorConnCount d + n)%Z].

(** ** disseminator.go *)

Definition addStream (add : ConnAdd) : handler :=
  with d do
  let idx := streamIDx d in
  let ha := negb (length (Entities (InitialHost add)) =? 0) in
  modify (set_streamIDx (u64_succ (streamIDx d))) ;;;
  emit [OStreamNew idx add] ;;;
  conn_count_add 1 ;;;
  when ha (actor_conn_count_add 1) ;;;
  modify (λ d, set_streams (<[idx := {| currentState := REPORT; hasActors := ha;
                                        receivingTable := None |}]> (streams d)) d).

Definition startCoalesceTimer : handler :=
  with d do
  if (coalesceWindow d <=? 0)%Z || coalesceTimer d then skip
  else modify (set_coalesceTimer true) ;;; emit [OTimerStart (coalesceWindow d)].

Definition stopCoalesceTimer : handler :=
  with d do
  when (coalesceTimer d) (emit [OTimerStop] ;;; modify (set_coalesceTimer false)).

(** ** closeconn.go *)

Definition processWaitingDeletes : handler :=
  with d do
  if (length (waitingToDelete d) =? 0) || (size (streams d) =? 0) then skip
  else
    delete_waiting ;;;
    start_round.

(** The loop of [processWaitingDisseminate] over the waiting connections; it
    accumulates [storeChanged] and [newStreamIDxs] and passes them on. *)
Fixpoint add_waiting (waiting : list ConnAdd) (storeChanged : bool) (newStreamIDxs : list N)
    (k : bool → list N → handler) : handler :=
  match waiting with
  | [] => k storeChanged newStreamIDxs
  | add :: waiting' =>
      with d do
      let idx := streamIDx d in
      addStream add ;;;
      with d do
      let '(st, changed) := Store_Set (store d) idx (InitialHost add) in
      modify (set_store st) ;;;
      add_waiting waiting' (storeChanged || changed) (newStreamIDxs ++ [idx]) k
  end.

(** The one-shot table push to stream [idx]. *)
Definition push_table (idx : N) : handler :=
  with d do
  match streams d !! idx with
  | Some s =>
      if Store_Has (store d) idx then skip
      else
        modify (set_streams (<[idx := set_receivingTable (Some (currentVersion d)) s]> (streams d))) ;;;
        emit [OEnqueue idx (DisseminateTable (currentVersion d)
                             (Store_PlacementTables (store d) (currentVersion d)))]
  | None => skip
  end.

Definition processWaitingDisseminate (forceRound : bool) : handler :=
  with d do
  if length (waitingToDisseminate d) =? 0 then skip
  else
    let waiting := waitingToDisseminate d in
    modify (set_waitingToDisseminate []) ;;;
    add_waiting waiting forceRound [] (λ storeChanged newStreamIDxs,
      if negb storeChanged then for_each newStreamIDxs push_table
      else start_round).

(** What follows the end of a round in [advancePhase] and
    [handleReportedUnlock]. *)
Definition after_round : handler :=
  with d do
  if (0 <? coalesceWindow d)%Z then startCoalesceTimer
  else if negb (length (waitingToDelete d) =? 0) then processWaitingDeletes
  else processWaitingDisseminate false.

Definition advancePhase : handler :=
  with d do
  if (streamsInTargetState d <? Z.of_nat (size (streams d)))%Z then skip
  else
    match currentOperation d with
    | LOCK =>
        modify (set_currentOperation UPDATE) ;;;
        modify (set_streamsInTargetState 0) ;;;
        enqueue_all (DisseminateUpdate (currentVersion d)
                      (Store_PlacementTables (store d) (currentVersion d)))
    | UPDATE =>
        modify (set_currentOperation UNLOCK) ;;;
        modify (set_streamsInTargetState 0) ;;;
        enqueue_all (DisseminateUnlock (currentVersion d))
    | UNLOCK =>
        modify (set_currentOperation REPORT) ;;;
        modify (set_streamsInTargetState 0) ;;;
        emit [OTimeoutDequeue (currentVersion d)] ;;;
        after_round
    | _ => skip
    end.

Definition handleCloseStream (e : ConnCloseStream) : handler :=
  with d do
  match streams d !! cc_StreamIDx e with
  | None => skip
  | Some s =>
      conn_count_add (-1) ;;;
      when (hasActors s) (actor_conn_count_add (-1)) ;;;
      when (op_eqb (currentState s) (currentOperation d) &&
            negb (op_eqb (currentOperation d) REPORT))
        (modify (λ d, set_streamsInTargetState (streamsInTargetState d - 1) d)) ;;;
      modify (λ d, set_streams (delete (cc_StreamIDx e) (streams d)) d) ;;;
      emit [OClose (cc_StreamIDx e) (StreamShutdown (cc_Error e))] ;;;
      with d do
      if size (streams d) =? 0 then skip
      else if negb (Store_Has (store d) (cc_StreamIDx e)) then skip
      else
        modify (set_waitingToDelete (waitingToDelete d ++ [cc_StreamIDx e])) ;;;
        if negb (op_eqb (currentOperation d) REPORT) then
          when (Z.of_nat (size (streams d)) <=? streamsInTargetState d)%Z advancePhase
        else if coalesceTimer d then skip
        else processWaitingDeletes
  end.

Definition handleCoalesceFire : handler :=
  modify (set_coalesceTimer false) ;;;
  with d do
  if negb (length (waitingToDelete d) =? 0) && (length (waitingToDisseminate d) =? 0) then
    processWaitingDeletes
  else
    let storeChangedByDeletes := negb (length (waitingToDelete d) =? 0) in
    delete_waiting ;;;
    processWaitingDisseminate storeChangedByDeletes.

(** ** host.go *)

Definition doReport (idx : N) (host : Host) : handler :=
  with d do
  let '(st, changed) := Store_Set (store d) idx host in
  modify (set_store st) ;;;
  if negb changed then push_table idx
  else
    emit [OTimeoutDequeue (currentVersion d)] ;;;
    start_round.

(** [if stream.currentState != op { stream.currentState = op;
     d.streamsInTargetState++ }] *)
Definition record_ack (op : HostOperation) (idx : N) (s : streamConn) : handler :=
  when (negb (op_eqb (currentState s) op))
    (modify (λ d, set_streams (<[idx := set_currentState op s]> (streams d)) d) ;;;
     modify (λ d, set_streamsInTargetState (streamsInTargetState d + 1) d)).

(** [d.streamsInTargetState == len(d.streams)] *)
Definition all_reached (d : disseminator) : bool :=
  (streamsInTargetState d =? Z.of_nat (size (streams d)))%Z.

Definition handleReportedLock (idx : N) : handler :=
  with d do
  match streams d !! idx with
  | None => skip
  | Some s =>
      record_ack LOCK idx s ;;;
      with d do
      when (all_reached d)
        (modify (set_currentOperation UPDATE) ;;;
         modify (set_streamsInTargetState 0) ;;;
         enqueue_all (DisseminateUpdate (currentVersion d)
                       (Store_PlacementTables (store d) (currentVersion d))))
  end.

Definition handleReportedUpdate (idx : N) : handler :=
  with d do
  match streams d !! idx with
  | None => skip
  | Some s =>
      record_ack UPDATE idx s ;;;
      with d do
      when (all_reached d)
        (modify (set_currentOperation UNLOCK) ;;;
         modify (set_streamsInTargetState 0) ;;;
         enqueue_all (DisseminateUnlock (currentVersion d)))
  end.

Definition handleReportedUnlock (idx : N) : handler :=
  with d do
  match streams d !! idx with
  | None => skip
  | Some s =>
      record_ack UNLOCK idx s ;;;
      with d do
      when (all_reached d)
        (modify (set_currentOperation REPORT) ;;;
         modify (set_streamsInTargetState 0) ;;;
         emit [OTimeoutDequeue (currentVersion d)] ;;;
         collect_orphans ;;;
         after_round)
  end.

(** The operation a report stands for: old clients send UNKNOWN. *)
Definition report_op (d : disseminator) (host : Host) : HostOperation :=
  match Operation host with UNKNOWN => currentOperation d | op => op end.

(** [report.Host.Version != nil && *report.Host.Version < d.currentVersion] *)
Definition old_version (d : disseminator) (host : Host) : bool :=
  match Version host with Some v => (v <? currentVersion d)%N | None => false end.

(** The answer of a stream to its one-shot table push. *)
Definition table_push_ack (d : disseminator) (report : ReportedHost) : option streamConn :=
  match streams d !! rh_StreamIDx report with
  | Some s =>
      match receivingTable s, Version (rh_Host report) with
      | Some r, Some v =>
          if negb (op_eqb (report_op d (rh_Host report)) REPORT) && (v =? r)%N
          then Some s else None
      | _, _ => None
      end
  | None => None
  end.

Definition handleReportedHost (report : ReportedHost) : handler :=
  with d do
  let op := report_op d (rh_Host report) in
  let idx := rh_StreamIDx report in
  if old_version d (rh_Host report) then skip
  else
    match table_push_ack d report with
    | Some s =>
        when (op_eqb op UNLOCK)
          (modify (set_streams (<[idx := set_receivingTable None s]> (streams d))))
    | None =>
        if negb (op_eqb op REPORT) && negb (op_eqb op (currentOperation d)) then skip
        else
          match op with
          | REPORT => doReport idx (rh_Host report)
          | LOCK => handleReportedLock idx
          | UPDATE => handleReportedUpdate idx
          | UNLOCK => handleReportedUnlock idx
          | _ => skip
          end
    end.

(** ** disseminator.go, continued *)

Definition handleAdd (add : ConnAdd) : handler :=
  with d do
  if negb (op_eqb (currentOperation d) REPORT) || coalesceTimer d then
    modify (set_waitingToDisseminate (waitingToDisseminate d ++ [add]))
  else
    delete_waiting ;;;
    collect_orphans ;;;
    delete_waiting ;;;
    with d do
    let idx := streamIDx d in
    addStream add ;;;
    handleReportedHost {| rh_Host := InitialHost add; rh_StreamIDx := idx |}.

Definition handleShutdown (err : error) : handler :=
  stopCoalesceTimer ;;;
  (with d do emit ((λ idx, OClose idx (StreamShutdown err)) <$> stream_idxs d)) ;;;
  (with d do emit ((λ add, OCancel (ca_conn add) err) <$> waitingToDisseminate d)) ;;;
  modify (set_streams ∅) ;;;
  modify (set_waitingToDisseminate []) ;;;
  modify (set_waitingToDelete []) ;;;
  modify (λ d, set_store (Store_DeleteAll (store d)) d) ;;;
  emit [OTimeoutClose] ;;;
  emit [ORuntimes 0; OActorRuntimes 0].

(** One iteration of the closing loop of [handleTimeout]. *)
Definition close_unresponsive (err : error) (kv : N * streamConn) : handler :=
  with d do
  if op_eqb (currentState kv.2) (currentOperation d) then skip
  else
    modify (set_store (Store_Delete (store d) kv.1)) ;;;
    conn_count_add (-1) ;;;
    when (hasActors kv.2) (actor_conn_count_add (-1)) ;;;
    emit [OClose kv.1 (StreamShutdown err)] ;;;
    modify (λ d, set_streams (delete kv.1 (streams d)) d).

(** One iteration of the loop of [handleTimeout] over the waiting
    connections. *)
Definition add_and_store (add : ConnAdd) : handler :=
  with d do
  let idx := streamIDx d in
  addStream add ;;;
  modify (λ d, set_store (Store_Set (store d) idx (InitialHost add)).1 d).

Definition handleTimeout (version : N) : handler :=
  with d do
  if negb (version =? currentVersion d)%N then skip
  else
    for_each (map_to_list (streams d))
      (close_unresponsive (ErrDisseminationTimeout (timeout d) version)) ;;;
    delete_waiting ;;;
    modify (λ d, set_currentVersion (u64_succ (currentVersion d)) d) ;;;
    modify (set_currentOperation REPORT) ;;;
    modify (set_streamsInTargetState 0) ;;;
    (with d do
     let waiting := waitingToDisseminate d in
     modify (set_waitingToDisseminate []) ;;;
     for_each waiting add_and_store) ;;;
    with d do
    if negb (size (streams d) =? 0) then
      emit [OTimeoutEnqueue (currentVersion d)] ;;;
      modify (set_currentOperation LOCK) ;;;
      lock_streams
    else emit [ORuntimes 0; OActorRuntimes 0].

(** ** state.go *)

Definition handleTableRequest : handler :=
  with d do emit [OTableReply (Store_StatePlacementTable (store d) (currentVersion d))].

(** ** The loop *)

Definition Handle (event : EventDisseminator) : handler :=
  match event with
  | EvConnAdd e => handleAdd e
  | EvReportedHost e => handleReportedHost e
  | EvConnCloseStream e => handleCloseStream e
  | EvShutdown err => handleShutdown err
  | EvDisseminationTimeout v => handleTimeout v
  | EvNamespaceTableRequest => handleTableRequest
  | EvCoalesceFire => handleCoalesceFire
  end.
