(* ===== verification/DisseminatorInv.v ===== *)
(** * Invariant of the placement disseminator

    [dinv n d] relates the counters of the loop to its maps after at most [n]
    events; every handler of [PlacementDisseminator] preserves it.  The key
    part is [phase]: outside the REPORT state, [streamsInTargetState] is the
    number of streams that acknowledged the current operation. *)

From S2P Require Import Prelude GoLib PlacementStore PlacementDisseminator.

(** ** Definitions *)

(** Streams whose last counted acknowledgement is [op]. *)
Definition reached (op : HostOperation) (m : gmap N streamConn) : nat :=
  mcount (λ s, op_eqb (currentState s) op) m.

Definition phase (d : disseminator) : Prop :=
  (currentOperation d = REPORT ∧ streamsInTargetState d = 0%Z) ∨
  (currentOperation d ∈ [LOCK; UPDATE; UNLOCK] ∧
   streamsInTargetState d = Z.of_nat (reached (currentOperation d) (streams d))).

(** The part of the invariant that does not mention the phase; [n] bounds the
    streams created so far together with those waiting. *)
Record base (n : N) (d : disseminator) : Prop := {
  base_keys : ∀ i, is_Some (streams d !! i) → (i < streamIDx d)%N;
  base_conn : connCount d = Z.of_nat (size (streams d));
  base_actor : actorConnCount d = Z.of_nat (mcount hasActors (streams d));
  base_wf : store_wf (store d);
  base_budget : (streamIDx d + N.of_nat (length (waitingToDisseminate d)) ≤ n)%N
}.

Record dinv (n : N) (d : disseminator) : Prop := {
  dinv_base : base n d;
  dinv_phase : phase d;
  dinv_version : (currentVersion d ≤ n)%N
}.

(** Outputs other than the namespace-wide UPDATE and UNLOCK messages. *)
Definition is_phase_msg (o : output) : bool :=
  match o with
  | OEnqueue _ (DisseminateUpdate _ _) | OEnqueue _ (DisseminateUnlock _) => true
  | _ => false
  end.

Definition quiet (os : list output) : Prop := Forall (λ o, is_phase_msg o = false) os.

(** ** Functional equations of the building blocks *)

Lemma quiet_app os1 os2 : quiet (os1 ++ os2) ↔ quiet os1 ∧ quiet os2.
Proof. apply Forall_app. Qed.

Lemma quiet_nil : quiet [].
Proof. constructor. Qed.

Lemma quiet_cons o os : is_phase_msg o = false → quiet os → quiet (o :: os).
Proof. by constructor. Qed.

Lemma quiet_enqueue_lock (l : list N) v : quiet ((λ idx, OEnqueue idx (DisseminateLock v)) <$> l).
Proof. apply Forall_fmap, Forall_true. done. Qed.

#[export] Hint Resolve quiet_nil quiet_cons quiet_enqueue_lock : dapr.

(** Symbolic execution of the straight-line parts of a handler. *)
Ltac run_prog :=
  repeat (rewrite seqp_eq || unfold get, modify, emit, skip, when, enqueue_all); simpl.

Lemma delete_each_eq l d :
  for_each l (λ toDelete, modify (λ d, set_store (Store_Delete (store d) toDelete) d)) d =
    (set_store (foldl Store_Delete (store d) l) d, @nil output).
Proof.
  revert d; induction l as [|i l IH]; intros d; simpl; [by destruct d|].
  rewrite seqp_eq. simpl. rewrite IH. by destruct d.
Qed.

Lemma delete_waiting_eq d :
  delete_waiting d =
    (set_waitingToDelete [] (set_store (foldl Store_Delete (store d) (waitingToDelete d)) d), []).
Proof. unfold delete_waiting, get. rewrite seqp_eq, delete_each_eq. done. Qed.

Definition reset_stream (s : streamConn) : streamConn :=
  set_receivingTable None (set_currentState REPORT s).

Lemma lock_streams_eq d :
  lock_streams d =
    (set_streams (reset_stream <$> streams d) d,
     (λ idx, OEnqueue idx (DisseminateLock (currentVersion d))) <$>
       (map_to_list (reset_stream <$> streams d)).*1).
Proof. unfold lock_streams. run_prog. done. Qed.

Definition round_state (d : disseminator) : disseminator :=
  set_streams (reset_stream <$> streams d)
    (set_streamsInTargetState 0 (set_currentOperation LOCK
      (set_currentVersion (u64_succ (currentVersion d)) d))).

Lemma start_round_eq d :
  start_round d =
    (round_state d,
     OTimeoutEnqueue (u64_succ (currentVersion d)) ::
     ((λ idx, OEnqueue idx (DisseminateLock (u64_succ (currentVersion d)))) <$>
       (map_to_list (reset_stream <$> streams d)).*1)).
Proof. unfold start_round. repeat rewrite seqp_eq. rewrite lock_streams_eq. by destruct d. Qed.

Definition added_stream (add : ConnAdd) : streamConn :=
  {| currentState := REPORT;
     hasActors := negb (length (Entities (InitialHost add)) =? 0);
     receivingTable := None |}.

Definition added_state (add : ConnAdd) (d : disseminator) : disseminator :=
  set_streams (<[streamIDx d := added_stream add]> (streams d))
    (set_actorConnCount (actorConnCount d + (if hasActors (added_stream add) then 1 else 0))%Z
      (set_connCount (connCount d + 1)%Z (set_streamIDx (u64_succ (streamIDx d)) d))).

Lemma addStream_eq add d :
  (addStream add d).1 = added_state add d ∧ quiet (addStream add d).2.
Proof.
  unfold addStream, added_state, added_stream, conn_count_add, actor_conn_count_add. run_prog.
  destruct (negb _) eqn:E; run_prog; (split; [destruct d; simpl|auto 10 with dapr]).
  - done.
  - by rewrite Z.add_0_r.
Qed.

(** ** Arithmetic *)

Lemma u64_succ_small n : (n + 1 < two64)%N → u64_succ n = (n + 1)%N.
Proof. apply N.mod_small. Qed.

Lemma u64_succ_le n : (u64_succ n ≤ n + 1)%N.
Proof. apply N.Div0.mod_le. Qed.

(** ** The base invariant *)

Lemma base_weaken n n' d : (n ≤ n')%N → base n d → base n' d.
Proof. intros Hle []. split; try done. lia. Qed.

(** [base] does not depend on the phase, the version, the timer or the deletion
    queue. *)
Lemma base_ext n d d' :
  streams d' = streams d → store d' = store d → streamIDx d' = streamIDx d →
  connCount d' = connCount d → actorConnCount d' = actorConnCount d →
  waitingToDisseminate d' = waitingToDisseminate d → base n d → base n d'.
Proof. intros E1 E2 E3 E4 E5 E6 []. split; rewrite ?E1, ?E2, ?E3, ?E4, ?E5, ?E6; done. Qed.

Lemma store_wf_Deletes st l : store_wf st → store_wf (foldl Store_Delete st l).
Proof. revert st; induction l; intros; simpl; auto with dapr. Qed.

Lemma base_delete_waiting n d : base n d → base n (delete_waiting d).1.
Proof.
  rewrite delete_waiting_eq. intros []. split; simpl; try done. by apply store_wf_Deletes.
Qed.

Lemma size_fmap_N {A B} (g : A → B) (m : gmap N A) : size (g <$> m) = size m.
Proof. apply map_size_fmap. Qed.

(** Streams may be updated in place as long as [hasActors] stays. *)
Lemma base_fmap_streams n d (g : streamConn → streamConn) :
  (∀ s, hasActors (g s) = hasActors s) → base n d → base n (set_streams (g <$> streams d) d).
Proof.
  intros Hg []. split; simpl; try done.
  - intros i [s Hs]. apply base_keys0. rewrite lookup_fmap in Hs.
    destruct (streams d !! i); [eauto|done].
  - by rewrite map_size_fmap.
  - by rewrite mcount_ext_fmap.
Qed.

Lemma base_update_stream n d i s s' :
  streams d !! i = Some s → hasActors s' = hasActors s →
  base n d → base n (set_streams (<[i := s']> (streams d)) d).
Proof.
  intros Hi Hs []. split; simpl; try done.
  - intros j. rewrite lookup_insert. case_decide; [subst; intros _; eauto|auto].
  - rewrite map_size_insert_Some by eauto. done.
  - pose proof (mcount_replace hasActors _ i s s' Hi). rewrite Hs in *. destruct (hasActors s); lia.
Qed.

Lemma base_round_state n d : base n d → base n (round_state d).
Proof.
  intros Hb. apply (base_ext n (set_streams (reset_stream <$> streams d) d)); try done.
  by apply base_fmap_streams.
Qed.

Lemma base_start_round n d : base n d → base n (start_round d).1.
Proof. rewrite start_round_eq. apply base_round_state. Qed.

Lemma base_added n add d : (n + 1 < two64)%N → base n d → base (n + 1) (added_state add d).
Proof.
  intros Hn []. assert (Hsucc : u64_succ (streamIDx d) = (streamIDx d + 1)%N).
  { apply u64_succ_small. lia. }
  assert (Hfresh : streams d !! streamIDx d = None).
  { destruct (streams d !! streamIDx d) eqn:E; [|done].
    specialize (base_keys0 (streamIDx d)). rewrite E in base_keys0. 
    specialize (base_keys0 ltac:(eauto)). lia. }
  split; simpl; rewrite ?Hsucc; try done.
  - intros i. rewrite lookup_insert. case_decide; [subst; lia|]. intros Hi%base_keys0. lia.
  - rewrite map_size_insert_None by done. lia.
  - rewrite mcount_insert_None by done. simpl. destruct (negb _); lia.
  - lia.
Qed.

Lemma base_addStream n add d : (n + 1 < two64)%N → base n d → base (n + 1) (addStream add d).1.
Proof. destruct (addStream_eq add d) as [-> _]. apply base_added. Qed.

Lemma base_set_store n d i h : base n d → base n (set_store (Store_Set (store d) i h).1 d).
Proof. intros []. split; simpl; auto with dapr. Qed.

Lemma base_added_store n add d h :
  (n + 1 < two64)%N → base n d →
  base (n + 1) (set_store (Store_Set (store d) (streamIDx d) h).1 (added_state add d)).
Proof. intros Hn Hb. apply (base_set_store _ (added_state add d)). by apply base_added. Qed.

(** ** The phase invariant *)

Lemma phase_ext d d' :
  streams d' = streams d → currentOperation d' = currentOperation d →
  streamsInTargetState d' = streamsInTargetState d → phase d → phase d'.
Proof. unfold phase. intros -> -> ->. done. Qed.

Lemma phase_round_state d : phase (round_state d).
Proof.
  right. simpl. split; [set_solver|]. unfold reached. rewrite mcount_zero_fmap; done.
Qed.

Lemma phase_update_stream d i s s' :
  streams d !! i = Some s → currentState s' = currentState s →
  phase d → phase (set_streams (<[i := s']> (streams d)) d).
Proof.
  intros Hi Hs [[? ?]|[? Hc]]; [by left|right; split; [done|]]. simpl. rewrite Hc. unfold reached.
  pose proof (mcount_replace (λ s, op_eqb (currentState s) (currentOperation d)) _ i s s' Hi) as Hr.
  simpl in Hr. rewrite Hs in Hr. destruct (op_eqb _ _); lia.
Qed.

Lemma phase_added n add d : base n d → phase d → phase (added_state add d).
Proof.
  intros Hb [[? ?]|[Hop Hc]]; [by left|right; split; [done|]]. simpl. rewrite Hc. unfold reached.
  rewrite mcount_insert_None; simpl.
  - unfold op_eqb at 2. rewrite bool_decide_eq_false_2; [done|]. intros E. rewrite <-E in Hop. set_solver.
  - destruct (streams d !! streamIDx d) eqn:E; [|done].
    pose proof (base_keys n d Hb (streamIDx d)) as Hk. rewrite E in Hk. specialize (Hk ltac:(eauto)). lia.
Qed.

(** The phase of an idle loop, in any state of its streams. *)
Lemma phase_idle d : phase (set_streamsInTargetState 0 (set_currentOperation REPORT d)).
Proof. by left. Qed.

(** ** Summary of a handler's effect *)

(** The version grows by at most one. *)
Definition version_step (d d' : disseminator) : Prop :=
  currentVersion d' = currentVersion d ∨ currentVersion d' = u64_succ (currentVersion d).

(** Where the acknowledgements recorded in [d'] come from: a stream is unset,
    or it had the same state in [d] under the same version, or [W] accounts for
    it. *)
Definition acks_kept (W : N → HostOperation → Prop) (d d' : disseminator) : Prop :=
  ∀ i s', streams d' !! i = Some s' →
    currentState s' = REPORT ∨
    (currentVersion d' = currentVersion d ∧
     ((∃ s, streams d !! i = Some s ∧ currentState s = currentState s') ∨ W i (currentState s'))).

Definition no_ack : N → HostOperation → Prop := λ _ _, False.

(** [c] run from [d] keeps the invariant (with bound [n]), advances the version
    by at most one, sends no UPDATE or UNLOCK and records no acknowledgement. *)
Definition settles (n : N) (d : disseminator) (c : handler) : Prop :=
  base n (c d).1 ∧ phase (c d).1 ∧ version_step d (c d).1 ∧ quiet (c d).2 ∧
  acks_kept no_ack d (c d).1.

Lemma acks_kept_same W d d' :
  streams d' = streams d → currentVersion d' = currentVersion d → acks_kept W d d'.
Proof. intros E1 E2 i s'. rewrite E1. eauto 10. Qed.

Lemma acks_kept_trans W d d1 d' :
  currentVersion d1 = currentVersion d → acks_kept W d d1 → acks_kept W d1 d' → acks_kept W d d'.
Proof.
  intros Hv H1 H2 i s' Hs. destruct (H2 i s' Hs) as [?|[Hv2 [(s1 & Hs1 & <-)|HW]]]; [by left| |].
  - destruct (H1 i s1 Hs1) as [?|[_ [?|?]]]; [by left|right..]; (split; [congruence|auto]).
  - right. split; [congruence|auto].
Qed.

Lemma acks_kept_weaken W d d' : acks_kept no_ack d d' → acks_kept W d d'.
Proof. intros H i s' Hs. destruct (H i s' Hs) as [?|[? [?|[]]]]; auto. Qed.

Lemma acks_kept_mono (W W' : N → HostOperation → Prop) d d' :
  (∀ i op, W i op → W' i op) → acks_kept W d d' → acks_kept W' d d'.
Proof. intros HW H i s' Hs. destruct (H i s' Hs) as [?|[? [?|?]]]; auto. Qed.

Lemma acks_kept_insert W d i s :
  currentState s = REPORT ∨ (∃ s0, streams d !! i = Some s0 ∧ currentState s0 = currentState s) →
  acks_kept W d (set_streams (<[i := s]> (streams d)) d).
Proof.
  intros Hi j s'. simpl. rewrite lookup_insert. case_decide; [|eauto 10].
  subst j. intros [= <-]. destruct Hi; [by left|]. right. auto.
Qed.

Lemma acks_kept_reset W d d' : (∀ i s, streams d' !! i = Some s → currentState s = REPORT) → acks_kept W d d'.
Proof. intros H i s' Hs. left. eauto. Qed.

Lemma reset_all_report (m : gmap N streamConn) i s :
  (reset_stream <$> m) !! i = Some s → currentState s = REPORT.
Proof. rewrite lookup_fmap. destruct (m !! i); simpl; [by intros [= <-]|done]. Qed.

Lemma acks_kept_added W add d : acks_kept W d (added_state add d).
Proof.
  intros j s'. simpl. rewrite lookup_insert. case_decide; [|eauto 10]. intros [= <-]. by left.
Qed.

Lemma version_step_refl d : version_step d d.
Proof. by left. Qed.

#[export] Hint Resolve version_step_refl : dapr.

Lemma settles_skip n d : base n d → phase d → settles n d skip.
Proof. unfold settles, skip; simpl. intros. split_and!; auto using acks_kept_same with dapr. Qed.

Lemma settles_start_round n d : base n d → settles n d start_round.
Proof.
  intros Hb. unfold settles. rewrite start_round_eq. simpl. split_and!.
  - by apply base_round_state.
  - apply phase_round_state.
  - by right.
  - auto with dapr.
  - apply acks_kept_reset. simpl. apply reset_all_report.
Qed.

(** Prefixing by a quiet step that leaves the version alone. *)
Lemma settles_seq n d (c1 c2 : handler) :
  quiet (c1 d).2 → currentVersion (c1 d).1 = currentVersion d → acks_kept no_ack d (c1 d).1 →
  settles n (c1 d).1 c2 → settles n d (seqp c1 c2).
Proof.
  intros Hq Hv Ha (Hb & Hp & Hs & Hq2 & Ha2). unfold settles. rewrite seqp_eq. simpl.
  split_and!; [done..| |by apply quiet_app|by eapply acks_kept_trans].
  unfold version_step in *. by rewrite <-Hv.
Qed.

Lemma phase_delete_waiting d : phase d → phase (delete_waiting d).1.
Proof. rewrite delete_waiting_eq. by apply phase_ext. Qed.

Lemma settles_processWaitingDeletes n d : base n d → phase d → settles n d processWaitingDeletes.
Proof.
  intros Hb Hp. unfold processWaitingDeletes, settles, get.
  destruct (_ || _); [by apply settles_skip|].
  apply (settles_seq n d delete_waiting start_round).
  - rewrite delete_waiting_eq. auto with dapr.
  - by rewrite delete_waiting_eq.
  - rewrite delete_waiting_eq. by apply acks_kept_same.
  - apply settles_start_round. by apply base_delete_waiting.
Qed.

Lemma settles_push_table n d idx : base n d → phase d → settles n d (push_table idx).
Proof.
  intros Hb Hp. unfold push_table, settles, get. destruct (streams d !! idx) as [s|] eqn:Hs;
    [|by apply settles_skip].
  destruct (Store_Has _ _); [by apply settles_skip|]. run_prog. split_and!.
  - by apply (base_update_stream n d idx s).
  - by apply (phase_update_stream d idx s).
  - by left.
  - auto with dapr.
  - apply acks_kept_insert. eauto.
Qed.

Lemma push_tables_spec n d l :
  base n d → phase d →
  base n (for_each l push_table d).1 ∧ phase (for_each l push_table d).1 ∧
  currentVersion (for_each l push_table d).1 = currentVersion d ∧
  quiet (for_each l push_table d).2 ∧
  acks_kept no_ack d (for_each l push_table d).1.
Proof.
  intros Hb Hp.
  assert (Hv : ∀ idx d, currentVersion (push_table idx d).1 = currentVersion d).
  { intros idx d0. unfold push_table, get. destruct (streams d0 !! idx); [|done].
    by destruct (Store_Has _ _). }
  assert (Hq : ∀ idx d, quiet (push_table idx d).2).
  { intros idx d0. unfold push_table, get. destruct (streams d0 !! idx); [|constructor].
    destruct (Store_Has _ _); [constructor|]. run_prog. auto with dapr. }
  assert (Hinv : let d' := (for_each l push_table d).1 in
    base n d' ∧ phase d' ∧ currentVersion d' = currentVersion d ∧ acks_kept no_ack d d').
  { apply (for_each_inv (λ d', base n d' ∧ phase d' ∧ currentVersion d' = currentVersion d ∧
      acks_kept no_ack d d') l push_table d); [|split_and!; auto using acks_kept_same].
    intros idx d0 _ (H1 & H2 & H3 & H4).
    destruct (settles_push_table n d0 idx H1 H2) as (? & ? & _ & _ & ?).
    split_and!; [done|done|by rewrite Hv|by eapply acks_kept_trans]. }
  destruct Hinv as (? & ? & ? & ?). split_and!; try done.
  apply (for_each_outputs (λ o, is_phase_msg o = false)). intros; apply Hq.
Qed.

(** The loop of [processWaitingDisseminate]. *)
Lemma add_waiting_spec waiting n d sc idxs k :
  (n + N.of_nat (length waiting) < two64)%N → base n d → phase d →
  (∀ sc' idxs' d', base (n + N.of_nat (length waiting)) d' → phase d' →
     currentVersion d' = currentVersion d →
     settles (n + N.of_nat (length waiting)) d' (k sc' idxs')) →
  settles (n + N.of_nat (length waiting)) d (add_waiting waiting sc idxs k).
Proof.
  revert n d sc idxs; induction waiting as [|add waiting IH]; intros n d sc idxs Hn Hb Hp Hk.
  - simpl in *. rewrite N.add_0_r in *. by apply Hk.
  - replace (n + N.of_nat (length (add :: waiting)))%N
      with (n + 1 + N.of_nat (length waiting))%N in * by (simpl; lia).
    cbn [add_waiting]. destruct (addStream_eq add d) as [Ha Hqa].
    apply settles_seq; [done|by rewrite Ha|rewrite Ha; apply acks_kept_added|]. rewrite Ha.
    unfold settles, get. simpl.
    destruct (Store_Set (store d) (streamIDx d) (InitialHost add)) as [st ch] eqn:Est.
    set (d1 := set_store st (added_state add d)).
    assert (Hb1 : base (n + 1) d1).
    { unfold d1. replace st with (Store_Set (store d) (streamIDx d) (InitialHost add)).1 by (by rewrite Est).
      apply base_added_store; [lia|done]. }
    assert (Hp1 : phase d1) by (by apply (phase_ext (added_state add d)); [..|eapply phase_added]).
    apply (settles_seq _ (added_state add d) (modify (set_store st)));
      [apply quiet_nil|done|by apply acks_kept_same|].
    apply IH; [lia|done|done|]. intros. by apply Hk.
Qed.

Lemma settles_processWaitingDisseminate n d b :
  (n < two64)%N → base n d → phase d → settles n d (processWaitingDisseminate b).
Proof.
  intros Hn Hb Hp. unfold processWaitingDisseminate, settles, get.
  destruct (length (waitingToDisseminate d) =? 0); [by apply settles_skip|].
  set (w := waitingToDisseminate d). pose proof (base_budget n d Hb) as Hbud. fold w in Hbud.
  set (m := (n - N.of_nat (length w))%N).
  apply (settles_seq n d (modify (set_waitingToDisseminate [])));
    [apply quiet_nil|done|by apply acks_kept_same|].
  replace n with (m + N.of_nat (length w))%N by lia. simpl.
  apply add_waiting_spec; [lia| |by apply (phase_ext d)|].
  - destruct Hb. split; try done. simpl. lia.
  - intros sc idxs d' Hb' Hp' _. destruct sc; simpl; [by apply settles_start_round|].
    destruct (push_tables_spec _ d' idxs Hb' Hp') as (? & ? & Hv & ? & ?).
    split_and!; [done..|by left|done|done].
Qed.

Lemma settles_after_round n d :
  (n < two64)%N → base n d → phase d → settles n d after_round.
Proof.
  intros Hn Hb Hp. unfold after_round, settles, get. destruct (0 <? _)%Z.
  - unfold startCoalesceTimer, get. destruct (_ || _); [by apply settles_skip|].
    run_prog. split_and!; [by apply (base_ext n d)|by apply (phase_ext d)|by left| |by apply acks_kept_same].
    auto with dapr.
  - destruct (negb _); [by apply settles_processWaitingDeletes|].
    by apply settles_processWaitingDisseminate.
Qed.

(** ** Phase changes *)

Definition all_in (op : HostOperation) (d : disseminator) : Prop :=
  ∀ i s, streams d !! i = Some s → currentState s = op.

(** What a namespace-wide UPDATE or UNLOCK guarantees about the state in which
    it is sent. *)
Definition announces (d : disseminator) (o : output) : Prop :=
  match o with
  | OEnqueue idx (DisseminateUpdate v t) =>
      currentOperation d = UPDATE ∧ v = currentVersion d ∧
      t = Store_PlacementTables (store d) v ∧ is_Some (streams d !! idx) ∧ all_in LOCK d
  | OEnqueue idx (DisseminateUnlock v) =>
      currentOperation d = UNLOCK ∧ v = currentVersion d ∧
      is_Some (streams d !! idx) ∧ all_in UPDATE d
  | _ => True
  end.

(** Like [settles], for the handlers that may send UPDATE or UNLOCK. *)
Definition conforms (W : N → HostOperation → Prop) (n : N) (d : disseminator) (c : handler) : Prop :=
  base n (c d).1 ∧ phase (c d).1 ∧ version_step d (c d).1 ∧ Forall (announces (c d).1) (c d).2 ∧
  acks_kept W d (c d).1.

Lemma conforms_mono (W W' : N → HostOperation → Prop) n d c :
  (∀ i op, W i op → W' i op) → conforms W n d c → conforms W' n d c.
Proof. intros HW (? & ? & ? & ? & ?). split_and!; [done..|by eapply acks_kept_mono]. Qed.

Lemma quiet_announces d os : quiet os → Forall (announces d) os.
Proof.
  apply Forall_impl. intros o Ho. destruct o as [| ? e | | | | | | | | | |]; try done.
  by destruct e.
Qed.

Lemma settles_conforms W n d c : settles n d c → conforms W n d c.
Proof. intros (? & ? & ? & ? & ?). split_and!; auto using quiet_announces, acks_kept_weaken. Qed.

Lemma conforms_seq W n d (c1 c2 : handler) :
  quiet (c1 d).2 → currentVersion (c1 d).1 = currentVersion d → acks_kept W d (c1 d).1 →
  conforms W n (c1 d).1 c2 → conforms W n d (seqp c1 c2).
Proof.
  intros Hq Hv Ha (Hb & Hp & Hs & Hq2 & Ha2). unfold conforms. rewrite seqp_eq. simpl.
  split_and!; [done..| |apply Forall_app; auto using quiet_announces|by eapply acks_kept_trans].
  unfold version_step in *. by rewrite <-Hv.
Qed.

Lemma conforms_get W n d (k : disseminator → handler) : conforms W n d (k d) → conforms W n d (get k).
Proof. done. Qed.

Lemma conforms_eq W n d (c c' : handler) : c d = c' d → conforms W n d c' → conforms W n d c.
Proof. unfold conforms. by intros ->. Qed.

Lemma conforms_skip W n d : base n d → phase d → conforms W n d skip.
Proof. auto using settles_conforms, settles_skip. Qed.

(** When the counter has reached the number of streams, every stream has
    acknowledged the current operation. *)
Lemma all_reached_all_in d :
  phase d → currentOperation d ≠ REPORT →
  streamsInTargetState d = Z.of_nat (size (streams d)) → all_in (currentOperation d) d.
Proof.
  intros [[? ?]|[_ Hc]] Hne Hs; [done|]. rewrite Hc in Hs. apply Nat2Z.inj in Hs.
  unfold reached in Hs. rewrite mcount_full in Hs.
  intros i s Hi. apply Hs in Hi. by apply bool_decide_eq_true in Hi.
Qed.

Lemma elem_of_stream_idxs d i : i ∈ stream_idxs d ↔ is_Some (streams d !! i).
Proof.
  unfold stream_idxs. rewrite list_elem_of_fmap. split.
  - intros ([j s] & -> & Hs%elem_of_map_to_list). eauto.
  - intros [s Hs]. exists (i, s). split; [done|by apply elem_of_map_to_list].
Qed.

Definition phase_state (op : HostOperation) (d : disseminator) : disseminator :=
  set_streamsInTargetState 0 (set_currentOperation op d).

Lemma phase_phase_state op op' d :
  all_in op' d → op ≠ op' → op ∈ [LOCK; UPDATE; UNLOCK] → phase (phase_state op d).
Proof.
  intros Hall Hne Hin. right. split; [done|]. simpl. unfold reached. rewrite mcount_zero; [done|].
  intros i s Hs. rewrite (Hall i s Hs). by apply bool_decide_eq_false_2.
Qed.

Lemma base_phase_state n op d : base n d → base n (phase_state op d).
Proof. by apply base_ext. Qed.

Definition to_update (d : disseminator) : handler :=
  seqp (modify (set_currentOperation UPDATE))
    (seqp (modify (set_streamsInTargetState 0))
      (enqueue_all (DisseminateUpdate (currentVersion d)
                     (Store_PlacementTables (store d) (currentVersion d))))).

Definition to_unlock (d : disseminator) : handler :=
  seqp (modify (set_currentOperation UNLOCK))
    (seqp (modify (set_streamsInTargetState 0))
      (enqueue_all (DisseminateUnlock (currentVersion d)))).

Lemma conforms_to_update W n d : base n d → all_in LOCK d → conforms W n d (to_update d).
Proof.
  intros Hb Hall. unfold to_update, conforms. run_prog. split_and!.
  - by apply base_phase_state.
  - by apply (phase_phase_state UPDATE LOCK); [..|set_solver].
  - by left.
  - apply list.Forall_forall. intros o (idx & -> & Hidx)%list_elem_of_fmap.
    apply elem_of_stream_idxs in Hidx. done.
  - by apply acks_kept_same.
Qed.

Lemma conforms_to_unlock W n d : base n d → all_in UPDATE d → conforms W n d (to_unlock d).
Proof.
  intros Hb Hall. unfold to_unlock, conforms. run_prog. split_and!.
  - by apply base_phase_state.
  - by apply (phase_phase_state UNLOCK UPDATE); [..|set_solver].
  - by left.
  - apply list.Forall_forall. intros o (idx & -> & Hidx)%list_elem_of_fmap.
    apply elem_of_stream_idxs in Hidx. done.
  - by apply acks_kept_same.
Qed.

(** Closing a round. *)
Lemma conforms_end_round W n d v (c : handler) :
  (n < two64)%N → base n d →
  (∀ d0, base n d0 → phase d0 → settles n d0 c) →
  conforms W n d (seqp (modify (set_currentOperation REPORT))
    (seqp (modify (set_streamsInTargetState 0)) (seqp (emit [OTimeoutDequeue v]) c))).
Proof.
  intros Hn Hb Hc. apply conforms_seq; [apply quiet_nil|done|by apply acks_kept_same|].
  apply conforms_seq; [apply quiet_nil|done|by apply acks_kept_same|].
  apply conforms_seq; [apply quiet_cons, quiet_nil; done|done|by apply acks_kept_same|].
  apply settles_conforms, Hc; simpl; [by apply (base_ext n d)|by left].
Qed.

Lemma conforms_advancePhase W n d :
  (n < two64)%N → base n d → phase d → conforms W n d advancePhase.
Proof.
  intros Hn Hb Hp. unfold advancePhase, conforms, get.
  destruct (Z.ltb_spec (streamsInTargetState d) (Z.of_nat (size (streams d)))) as [|Hge];
    [by apply conforms_skip|].
  assert (Hall : currentOperation d ≠ REPORT → all_in (currentOperation d) d).
  { intros Hne. apply all_reached_all_in; [done..|]. destruct Hp as [[? ?]|[_ Hc]]; [done|].
    pose proof (mcount_le_size (λ s, op_eqb (currentState s) (currentOperation d)) (streams d)).
    unfold reached in Hc. lia. }
  destruct (currentOperation d) eqn:Hop; try by apply conforms_skip.
  - apply conforms_to_update; auto.
  - apply conforms_to_unlock; auto.
  - apply conforms_end_round; [done|done|]. intros. by apply settles_after_round.
Qed.

(** ** Acknowledgements *)

Lemma record_ack_spec n d op i s :
  streams d !! i = Some s → op = currentOperation d → op ∈ [LOCK; UPDATE; UNLOCK] →
  base n d → phase d →
  base n (record_ack op i s d).1 ∧ phase (record_ack op i s d).1 ∧
  currentOperation (record_ack op i s d).1 = op ∧
  currentVersion (record_ack op i s d).1 = currentVersion d ∧ (record_ack op i s d).2 = [].
Proof.
  intros Hi -> Hop Hb Hp. unfold record_ack.
  destruct (op_eqb (currentState s) (currentOperation d)) eqn:E; run_prog; [done|].
  split_and!; [| |done..].
  - apply (base_ext n (set_streams (<[i := set_currentState (currentOperation d) s]> (streams d)) d));
      try done. by apply (base_update_stream n d i s).
  - right. split; [done|]. simpl. destruct Hp as [[Hr _]|[_ Hc]]; [rewrite Hr in Hop; set_solver|].
    rewrite Hc. unfold reached.
    pose proof (mcount_replace (λ s, op_eqb (currentState s) (currentOperation d)) _ i s
      (set_currentState (currentOperation d) s) Hi) as Hr.
    simpl in Hr. rewrite E in Hr. unfold op_eqb at 3 in Hr. rewrite bool_decide_eq_true_2 in Hr by done. lia.
Qed.

(** An acknowledgement of [op] by stream [i]. *)
Definition ack_by (i : N) (op : HostOperation) : N → HostOperation → Prop :=
  λ j op', j = i ∧ op' = op.

Lemma acks_kept_record_ack d op i s :
  streams d !! i = Some s → acks_kept (ack_by i op) d (record_ack op i s d).1.
Proof.
  intros Hi. unfold record_ack, when. destruct (op_eqb _ _); simpl; [by apply acks_kept_same|].
  run_prog. intros j s'. simpl. rewrite lookup_insert. case_decide; [|eauto 10]. subst j.
  intros [= <-]. right. split; [done|]. by right.
Qed.

(** The common shape of the three acknowledgement handlers. *)
Lemma conforms_ack n d op i (next : disseminator → handler) :
  op = currentOperation d → op ∈ [LOCK; UPDATE; UNLOCK] → base n d → phase d →
  (∀ W d1, base n d1 → phase d1 → all_in op d1 → conforms W n d1 (next d1)) →
  conforms (ack_by i op) n d
    (get (λ d, match streams d !! i with
               | None => skip
               | Some s => seqp (record_ack op i s) (get (λ d, when (all_reached d) (next d)))
               end)).
Proof.
  intros Hop Hin Hb Hp Hnext. apply conforms_get.
  destruct (streams d !! i) as [s|] eqn:Hs; [|by apply conforms_skip].
  destruct (record_ack_spec n d op i s) as (Hb1 & Hp1 & Hop1 & Hv1 & Hq1); [done..|].
  apply conforms_seq; [rewrite Hq1; apply quiet_nil|done|by apply acks_kept_record_ack|].
  set (d1 := (record_ack op i s d).1) in *. apply conforms_get. unfold when.
  destruct (all_reached d1) eqn:Har; [|by apply conforms_skip].
  apply Hnext; [done..|]. rewrite <-Hop1. apply all_reached_all_in; [done| |by apply Z.eqb_eq].
  rewrite Hop1. intros ->. set_solver.
Qed.

Lemma settles_collect n d :
  (n < two64)%N → base n d → phase d → settles n d (seqp collect_orphans after_round).
Proof.
  intros Hn Hb Hp. apply settles_seq; [apply quiet_nil|done|by apply acks_kept_same|].
  apply settles_after_round; [done|by apply (base_ext n d)|by apply (phase_ext d)].
Qed.

Lemma conforms_acks n d i :
  (n < two64)%N → base n d → phase d →
  (currentOperation d = LOCK → conforms (ack_by i LOCK) n d (handleReportedLock i)) ∧
  (currentOperation d = UPDATE → conforms (ack_by i UPDATE) n d (handleReportedUpdate i)) ∧
  (currentOperation d = UNLOCK → conforms (ack_by i UNLOCK) n d (handleReportedUnlock i)).
Proof.
  intros Hn Hb Hp. split_and!; intros Hop.
  - apply (conforms_ack n d LOCK i to_update); [done|set_solver|done|done|].
    intros. by apply conforms_to_update.
  - apply (conforms_ack n d UPDATE i to_unlock); [done|set_solver|done|done|].
    intros. by apply conforms_to_unlock.
  - apply (conforms_ack n d UNLOCK i (λ d1, seqp (modify (set_currentOperation REPORT))
      (seqp (modify (set_streamsInTargetState 0))
        (seqp (emit [OTimeoutDequeue (currentVersion d1)]) (seqp collect_orphans after_round)))));
      [done|set_solver|done|done|].
    intros. apply conforms_end_round; [done..|]. intros. by apply settles_collect.
Qed.

(** ** Reports *)

Lemma settles_doReport n d i h : base n d → phase d → settles n d (doReport i h).
Proof.
  intros Hb Hp. unfold doReport, settles, get.
  destruct (Store_Set (store d) i h) as [st ch] eqn:Est.
  assert (Hb1 : base n (set_store st d)).
  { replace st with (Store_Set (store d) i h).1 by (by rewrite Est). by apply base_set_store. }
  apply (settles_seq n d (modify (set_store st)));
    [apply quiet_nil|done|by apply acks_kept_same|]. simpl.
  destruct ch; simpl.
  - apply (settles_seq n _ (emit _)); [apply quiet_cons, quiet_nil; done|done|by apply acks_kept_same|].
    by apply settles_start_round.
  - apply settles_push_table; [done|by apply (phase_ext d)].
Qed.

(** The report is not of an older version, and not an answer to a table that was
    pushed to its stream alone. *)
Definition fresh_report (d : disseminator) (r : ReportedHost) : Prop :=
  (∀ w, Version (rh_Host r) = Some w → (currentVersion d ≤ w)%N) ∧
  (∀ s w, streams d !! rh_StreamIDx r = Some s → receivingTable s = Some w → Version (rh_Host r) ≠ Some w).

Lemma fresh_report_spec d r : old_version d (rh_Host r) = false → table_push_ack d r = None →
  report_op d (rh_Host r) ≠ REPORT → fresh_report d r.
Proof.
  unfold old_version, table_push_ack. intros Ho Ht Hop. split.
  - intros w Hw. rewrite Hw in Ho. by apply N.ltb_ge in Ho.
  - intros s w Hs Hr Hw. rewrite Hs, Hr, Hw, N.eqb_refl in Ht. unfold op_eqb in Ht.
    by rewrite bool_decide_eq_false_2 in Ht.
Qed.

(** The acknowledgement a report carries. *)
Definition ack_report (d : disseminator) (r : ReportedHost) : N → HostOperation → Prop :=
  λ i op, ack_by (rh_StreamIDx r) (report_op d (rh_Host r)) i op ∧ fresh_report d r.

Lemma conforms_handleReportedHost W n d r :
  (n < two64)%N → base n d → phase d →
  (currentOperation d = REPORT ∨ W = ack_report d r) →
  conforms W n d (handleReportedHost r).
Proof.
  intros Hn Hb Hp HW. apply conforms_get.
  destruct (old_version _ _) eqn:Ho; [by apply conforms_skip|].
  destruct (table_push_ack d r) as [s|] eqn:Ht.
  - assert (Hs : streams d !! rh_StreamIDx r = Some s).
    { unfold table_push_ack in Ht. destruct (streams d !! rh_StreamIDx r); [|done].
      repeat case_match; simplify_eq; done. }
    unfold when. destruct (op_eqb _ _); [|by apply conforms_skip].
    split_and!; [by apply (base_update_stream n d _ s)|by apply (phase_update_stream d _ s)|by left|constructor|].
    apply acks_kept_insert. eauto.
  - set (op := report_op d (rh_Host r)). unfold op_eqb.
    destruct (decide (op = REPORT)) as [->|Hne].
    + rewrite (bool_decide_eq_true_2 (REPORT = REPORT)) by done.
      apply settles_conforms, settles_doReport; done.
    + rewrite (bool_decide_eq_false_2 (op = REPORT)) by done.
      case_bool_decide as Hop; [|by apply conforms_skip].
      destruct HW as [HW| ->]; [congruence|].
      destruct (conforms_acks n d (rh_StreamIDx r) Hn Hb Hp) as (H1 & H2 & H3).
      apply (conforms_mono (ack_by (rh_StreamIDx r) op)).
      { intros i op' Hi. split; [done|by apply fresh_report_spec]. }
      simpl. clearbody op. destruct op; try done; try by apply conforms_skip.
      * apply H1. by rewrite <-Hop.
      * apply H2. by rewrite <-Hop.
      * apply H3. by rewrite <-Hop.
Qed.

(** ** Connections *)

Lemma conforms_handleAdd W n d a :
  (n + 1 < two64)%N → base n d → phase d → conforms W (n + 1) d (handleAdd a).
Proof.
  intros Hn Hb Hp. apply conforms_get. destruct (_ || _) eqn:Hor.
  - split_and!; [|by apply (phase_ext d)|by left|constructor|by apply acks_kept_same].
    destruct Hb. split; try done. simpl. rewrite length_app. simpl. lia.
  - apply orb_false_iff in Hor as [Hop _].
    apply negb_false_iff, bool_decide_eq_true in Hop.
    apply conforms_seq; rewrite delete_waiting_eq; [apply quiet_nil|done|by apply acks_kept_same|].
    apply conforms_seq; [apply quiet_nil|done|by apply acks_kept_same|].
    apply conforms_seq; rewrite delete_waiting_eq; [apply quiet_nil|done|by apply acks_kept_same|].
    apply conforms_get. set (d1 := (_, _).1). assert (Hop1 : currentOperation d1 = REPORT) by done.
    assert (Hb1 : base n d1).
    { subst d1; simpl. destruct Hb. split; simpl; try done. by do 2 apply store_wf_Deletes. }
    assert (Hp1 : phase d1) by (by apply (phase_ext d)).
    clearbody d1. destruct (addStream_eq a d1) as [Ha Hq].
    apply conforms_seq; [done|by rewrite Ha|rewrite Ha; apply acks_kept_added|]. rewrite Ha.
    apply conforms_handleReportedHost; [lia|by apply base_added|by eapply phase_added|by left].
Qed.

(** The state after the bookkeeping of a stream's removal. *)
Definition removed_state (i : N) (s : streamConn) (d : disseminator) : disseminator :=
  set_streams (delete i (streams d))
    (set_actorConnCount (actorConnCount d - (if hasActors s then 1 else 0))%Z
      (set_connCount (connCount d - 1)%Z d)).

Lemma base_removed n i s d :
  streams d !! i = Some s → base n d → base n (removed_state i s d).
Proof.
  intros Hi []. split; simpl; try done.
  - intros j [x [_ Hx]%lookup_delete_Some]. eauto.
  - rewrite map_size_delete_Some by eauto.
    assert (size (streams d) ≠ 0) by (apply map_size_ne_0_lookup; eauto). lia.
  - rewrite (mcount_delete hasActors _ i s Hi) in base_actor0. destruct (hasActors s); lia.
Qed.

(** Removing a stream lowers the counter exactly when the stream was counted. *)
Lemma phase_removed i s d z :
  streams d !! i = Some s → phase d →
  z = (if op_eqb (currentState s) (currentOperation d) && negb (op_eqb (currentOperation d) REPORT)
       then streamsInTargetState d - 1 else streamsInTargetState d)%Z →
  phase (set_streamsInTargetState z (removed_state i s d)).
Proof.
  intros Hi Hp ->. destruct Hp as [[Hr Hz]|[Hop Hc]].
  - left. simpl. rewrite Hr. simpl. rewrite andb_false_r. auto.
  - right. simpl. split; [done|]. rewrite Hc. unfold reached.
    rewrite (mcount_delete (λ s, op_eqb (currentState s) (currentOperation d)) _ i s Hi).
    assert (op_eqb (currentOperation d) REPORT = false) as ->.
    { apply bool_decide_eq_false_2. intros E. rewrite E in Hop. set_solver. }
    rewrite andb_true_r. destruct (op_eqb _ _); lia.
Qed.

Lemma acks_kept_removed W i s z d :
  acks_kept W d (set_streamsInTargetState z (removed_state i s d)).
Proof. intros j s' Hj. simpl in Hj. apply lookup_delete_Some in Hj as [_ Hj]. eauto 10. Qed.

(** [handleCloseStream] in two halves: the removal of the stream, and what
    follows it. *)
Definition close_pre (e : ConnCloseStream) (s : streamConn) (d : disseminator) : handler :=
  seqp (conn_count_add (-1)) (seqp (when (hasActors s) (actor_conn_count_add (-1)))
    (seqp (when (op_eqb (currentState s) (currentOperation d) &&
                 negb (op_eqb (currentOperation d) REPORT))
             (modify (λ d, set_streamsInTargetState (streamsInTargetState d - 1) d)))
       (seqp (modify (λ d, set_streams (delete (cc_StreamIDx e) (streams d)) d))
         (emit [OClose (cc_StreamIDx e) (StreamShutdown (cc_Error e))])))).

Definition close_rest (e : ConnCloseStream) (d : disseminator) : handler :=
  if size (streams d) =? 0 then skip
  else if negb (Store_Has (store d) (cc_StreamIDx e)) then skip
  else seqp (modify (set_waitingToDelete (waitingToDelete d ++ [cc_StreamIDx e])))
    (if negb (op_eqb (currentOperation d) REPORT) then
       when (Z.of_nat (size (streams d)) <=? streamsInTargetState d)%Z advancePhase
     else if coalesceTimer d then skip
     else processWaitingDeletes).

Definition closed_state (e : ConnCloseStream) (s : streamConn) (d : disseminator) : disseminator :=
  set_streamsInTargetState
    (if op_eqb (currentState s) (currentOperation d) && negb (op_eqb (currentOperation d) REPORT)
     then streamsInTargetState d - 1 else streamsInTargetState d)%Z
    (removed_state (cc_StreamIDx e) s d).

Lemma close_pre_eq e s d :
  (close_pre e s d d).1 = closed_state e s d ∧ quiet (close_pre e s d d).2.
Proof.
  unfold close_pre, closed_state, conn_count_add, actor_conn_count_add. run_prog. unfold removed_state.
  destruct (hasActors s); destruct (_ && _); run_prog; rewrite ?Z.sub_0_r;
    (split; [by destruct d|auto with dapr]).
Qed.

Lemma handleCloseStream_split e s d :
  streams d !! cc_StreamIDx e = Some s →
  handleCloseStream e d = seqp (close_pre e s d) (get (close_rest e)) d.
Proof.
  intros Hs. unfold handleCloseStream, get at 1. rewrite Hs. unfold close_pre.
  rewrite !seqp_eq. cbn [fst snd]. by rewrite <-!(assoc_L (++)).
Qed.

Lemma conforms_handleCloseStream W n d e :
  (n < two64)%N → base n d → phase d → conforms W n d (handleCloseStream e).
Proof.
  intros Hn Hb Hp. destruct (streams d !! cc_StreamIDx e) as [s|] eqn:Hs.
  2: { apply conforms_get. rewrite Hs. by apply conforms_skip. }
  eapply conforms_eq; [by apply (handleCloseStream_split e s)|].
  destruct (close_pre_eq e s d) as [Hst Hq].
  apply conforms_seq; [done|by rewrite Hst|rewrite Hst; apply acks_kept_removed|]. rewrite Hst.
  assert (Hb1 : base n (closed_state e s d)).
  { apply (base_ext n (removed_state (cc_StreamIDx e) s d)); try done. by apply base_removed. }
  assert (Hp1 : phase (closed_state e s d)) by (by apply phase_removed).
  clear Hst Hq. generalize dependent (closed_state e s d). intros d1 Hb1 Hp1.
  apply conforms_get. unfold close_rest. destruct (size (streams d1) =? 0); [by apply conforms_skip|].
  destruct (Store_Has _ _); simpl; [|by apply conforms_skip].
  apply conforms_seq; [apply quiet_nil|done|by apply acks_kept_same|]. simpl.
  set (d2 := set_waitingToDelete _ d1).
  assert (Hb2 : base n d2) by (by apply (base_ext n d1)).
  assert (Hp2 : phase d2) by (by apply (phase_ext d1)).
  destruct (negb _).
  - unfold when. destruct (_ <=? _)%Z; [by apply conforms_advancePhase|by apply conforms_skip].
  - destruct (coalesceTimer d1); [by apply conforms_skip|].
    by apply settles_conforms, settles_processWaitingDeletes.
Qed.

Lemma settles_handleCoalesceFire n d :
  (n < two64)%N → base n d → phase d → settles n d handleCoalesceFire.
Proof.
  intros Hn Hb Hp. unfold handleCoalesceFire.
  apply settles_seq; [apply quiet_nil|done|by apply acks_kept_same|]. simpl.
  assert (Hb1 : base n (set_coalesceTimer false d)) by (by apply (base_ext n d)).
  assert (Hp1 : phase (set_coalesceTimer false d)) by (by apply (phase_ext d)).
  generalize dependent (set_coalesceTimer false d). clear d Hb Hp. intros d Hb Hp.
  unfold settles, get. destruct (_ && _); [by apply settles_processWaitingDeletes|].
  apply (settles_seq n d delete_waiting); [rewrite delete_waiting_eq; apply quiet_nil|
    by rewrite delete_waiting_eq|rewrite delete_waiting_eq; by apply acks_kept_same|].
  apply settles_processWaitingDisseminate; [done|by apply base_delete_waiting|by apply phase_delete_waiting].
Qed.

(** ** Timeouts *)

Lemma close_unresponsive_eq err i s d :
  streams d !! i = Some s →
  (close_unresponsive err (i, s) d).1 =
    (if op_eqb (currentState s) (currentOperation d) then d
     else set_store (Store_Delete (store d) i) (removed_state i s d)) ∧
  quiet (close_unresponsive err (i, s) d).2.
Proof.
  intros Hi. unfold close_unresponsive, conn_count_add, actor_conn_count_add, get. simpl.
  destruct (op_eqb _ _); [split; [done|constructor]|].
  unfold removed_state. run_prog.
  destruct (hasActors s); run_prog; rewrite ?Z.sub_0_r; (split; [by destruct d|auto with dapr]).
Qed.

(** The closing loop keeps the base invariant, the version and the queue, and
    leaves exactly the streams of the snapshot that answered. *)
Lemma close_loop_spec n err l d :
  NoDup l.*1 → (∀ i s, (i, s) ∈ l → streams d !! i = Some s) → base n d →
  let d' := (for_each l (close_unresponsive err) d).1 in
  base n d' ∧ currentVersion d' = currentVersion d ∧
  currentOperation d' = currentOperation d ∧
  waitingToDisseminate d' = waitingToDisseminate d ∧
  quiet (for_each l (close_unresponsive err) d).2 ∧
  (∀ i s, streams d' !! i = Some s ↔
     streams d !! i = Some s ∧ (i ∈ l.*1 → currentState s = currentOperation d)).
Proof.
  revert d; induction l as [|[i s] l IH]; intros d Hnd Hl Hb; simpl.
  - split_and!; [done..|constructor|]. intros. split; [|tauto]. intros ?. split; [done|].
    intros Hin. by apply elem_of_nil in Hin.
  - inversion Hnd as [|? ? Hnin Hnd']; subst.
    assert (Hi : streams d !! i = Some s) by (apply Hl; left).
    destruct (close_unresponsive_eq err i s d Hi) as [Hst Hq].
    rewrite seqp_eq. simpl. set (d1 := (close_unresponsive err (i, s) d).1) in *.
    assert (Hother : ∀ j, j ≠ i → streams d1 !! j = streams d !! j).
    { intros j Hj. rewrite Hst. destruct (op_eqb _ _); [done|]. simpl. by rewrite lookup_delete_ne. }
    assert (Hb1 : base n d1).
    { rewrite Hst. destruct (op_eqb _ _); [done|].
      destruct (base_removed n i s d Hi Hb). split; simpl in *; auto with dapr. }
    destruct (IH d1) as (H1 & H2 & H3 & H4 & H5 & H6); [done| |done|].
    { intros j x Hj. rewrite Hother; [apply Hl; by right|]. intros ->.
      apply Hnin, list_elem_of_fmap. by exists (i, x). }
    assert (Hv : currentVersion d1 = currentVersion d ∧ currentOperation d1 = currentOperation d ∧
                 waitingToDisseminate d1 = waitingToDisseminate d).
    { rewrite Hst. by destruct (op_eqb _ _). }
    destruct Hv as (Hv1 & Hv2 & Hv3).
    split_and!; [done|congruence..|by apply quiet_app|].
    intros j x. rewrite H6, Hv2. destruct (decide (j = i)) as [->|Hj].
    + rewrite Hst. unfold op_eqb. case_bool_decide as Hop; simpl.
      * rewrite Hi. split; [intros [[= <-] _]; auto|]. intros [[= <-] _]. split; [done|].
        intros Hin. by apply Hnin in Hin.
      * rewrite lookup_delete_eq. split; [by intros [? _]|]. intros [Hx Hop'].
        rewrite Hi in Hx. injection Hx as <-. exfalso. apply Hop, Hop'. left.
    + rewrite Hother by done. rewrite elem_of_cons. naive_solver.
Qed.

Lemma add_store_loop n d l :
  (n + N.of_nat (length l) < two64)%N → base n d → phase d →
  let d' := (for_each l add_and_store d).1 in
  base (n + N.of_nat (length l)) d' ∧ phase d' ∧
  currentVersion d' = currentVersion d ∧ currentOperation d' = currentOperation d ∧
  streamsInTargetState d' = streamsInTargetState d ∧
  quiet (for_each l add_and_store d).2.
Proof.
  revert n d; induction l as [|add l IH]; intros n d Hn Hb Hp.
  - simpl in *. rewrite N.add_0_r. split_and!; auto with dapr.
  - replace (n + N.of_nat (length (add :: l)))%N
      with (n + 1 + N.of_nat (length l))%N in * by (simpl; lia).
    cbn [for_each]. rewrite seqp_eq. cbn [fst snd].
    destruct (addStream_eq add d) as [Ha Hqa].
    assert (Hst : (add_and_store add d).1 =
      set_store (Store_Set (store d) (streamIDx d) (InitialHost add)).1 (added_state add d)).
    { unfold add_and_store, get. rewrite seqp_eq. simpl. by rewrite Ha. }
    assert (Hq : quiet (add_and_store add d).2).
    { unfold add_and_store, get. rewrite seqp_eq. simpl. rewrite app_nil_r. done. }
    destruct (IH (n + 1)%N (add_and_store add d).1) as (H1 & H2 & H3 & H4 & H5 & H6).
    + lia.
    + rewrite Hst. apply base_added_store; [lia|done].
    + rewrite Hst. apply (phase_ext (added_state add d)); try done. by eapply phase_added.
    + rewrite Hst in *. split_and!; [done..|by apply quiet_app].
Qed.

(** The middle part of [handleTimeout]: from the closing loop to the state in
    which the next round is opened. *)
Definition timeout_state (version : N) (d : disseminator) : disseminator :=
  let d1 := (for_each (map_to_list (streams d))
      (close_unresponsive (ErrDisseminationTimeout (timeout d) version)) d).1 in
  let d2 := (delete_waiting d1).1 in
  let d3 := phase_state REPORT (set_currentVersion (u64_succ (currentVersion d2)) d2) in
  (for_each (waitingToDisseminate d3) add_and_store (set_waitingToDisseminate [] d3)).1.

Lemma timeout_state_spec n d version :
  (n < two64)%N → base n d →
  base n (timeout_state version d) ∧ phase (timeout_state version d) ∧
  currentVersion (timeout_state version d) = u64_succ (currentVersion d) ∧
  currentOperation (timeout_state version d) = REPORT ∧
  streamsInTargetState (timeout_state version d) = 0%Z.
Proof.
  intros Hn Hb. unfold timeout_state.
  destruct (close_loop_spec n (ErrDisseminationTimeout (timeout d) version)
    (map_to_list (streams d)) d) as (H1 & H2 & H3 & H4 & H5 & _);
    [apply NoDup_fst_map_to_list|by intros ? ? ?%elem_of_map_to_list|done|].
  set (d1 := (for_each _ _ d).1) in *. clearbody d1.
  pose proof (base_delete_waiting n d1 H1) as Hb2. rewrite delete_waiting_eq in *. simpl in Hb2.
  cbv zeta. set (d2 := (_, _).1). set (d3 := phase_state _ _).
  pose proof (base_budget n d1 H1) as Hbud.
  set (w := waitingToDisseminate d3). change (waitingToDisseminate d1) with w in Hbud.
  assert (Hb3 : base (n - N.of_nat (length w)) (set_waitingToDisseminate [] d3)).
  { destruct Hb2. split; try done. simpl in *. lia. }
  destruct (add_store_loop (n - N.of_nat (length w)) (set_waitingToDisseminate [] d3) w)
    as (G1 & G2 & G3 & G4 & G5 & _); [lia|done|by left|].
  replace (n - N.of_nat (length w) + N.of_nat (length w))%N with n in G1 by lia.
  split_and!; [done|done| |done|done]. rewrite G3. simpl. by rewrite H2.
Qed.

Lemma handleTimeout_quiet version d : quiet (handleTimeout version d).2.
Proof.
  unfold handleTimeout, get. destruct (negb _); [constructor|].
  rewrite !seqp_eq. cbn [fst snd]. rewrite !quiet_app. split_and!; try apply quiet_nil.
  - apply (for_each_outputs (λ o, is_phase_msg o = false)). intros [i s] d0 _.
    unfold close_unresponsive, conn_count_add, actor_conn_count_add, get. simpl.
    destruct (op_eqb _ _); [constructor|]. run_prog. destruct (hasActors s); simpl; auto with dapr.
  - rewrite delete_waiting_eq. apply quiet_nil.
  - apply (for_each_outputs (λ o, is_phase_msg o = false)). intros add d0 _.
    unfold add_and_store, get. rewrite seqp_eq. simpl. rewrite app_nil_r.
    by destruct (addStream_eq add d0) as [_ ?].
  - destruct (negb _).
    + rewrite !seqp_eq. cbn [fst snd]. rewrite lock_streams_eq. simpl. auto with dapr.
    + simpl. auto with dapr.
Qed.

Lemma handleTimeout_state version d :
  version = currentVersion d →
  (handleTimeout version d).1 =
    (let d' := timeout_state version d in
     if negb (size (streams d') =? 0)
     then set_streams (reset_stream <$> streams d') (set_currentOperation LOCK d')
     else d').
Proof.
  intros ->. unfold handleTimeout, get. rewrite N.eqb_refl. cbn [negb].
  rewrite !seqp_eq. cbn [fst snd].
  unfold timeout_state, phase_state. cbn zeta. unfold modify. cbn [fst snd].
  match goal with |- ((if negb (size (streams ?x) =? 0) then _ else _) _).1 = _ => set (d' := x) end.
  destruct (negb _); [|done]. rewrite !seqp_eq. cbn [fst snd]. by rewrite lock_streams_eq.
Qed.

Lemma conforms_handleTimeout W n d version :
  (n < two64)%N → base n d → phase d → conforms W n d (handleTimeout version).
Proof.
  intros Hn Hb Hp. destruct (decide (version = currentVersion d)) as [Hv|Hv].
  - destruct (timeout_state_spec n d version Hn Hb) as (H1 & H2 & H3 & H4 & H5).
    pose proof (handleTimeout_quiet version d) as Hq. unfold conforms.
    rewrite (handleTimeout_state version d Hv). set (d' := timeout_state version d) in *.
    split_and!; [| | |by apply quiet_announces|]; cbn zeta; destruct (negb _) eqn:Hsz; try done.
    + apply (base_ext n (set_streams (reset_stream <$> streams d') d')); try done.
      by apply base_fmap_streams.
    + right. split; [set_solver|]. simpl. rewrite H5. unfold reached. by rewrite mcount_zero_fmap.
    + by right.
    + by right.
    + apply acks_kept_reset. simpl. apply reset_all_report.
    + apply negb_false_iff, Nat.eqb_eq, map_size_empty_inv in Hsz.
      apply acks_kept_reset. rewrite Hsz. intros i x Hx. by rewrite lookup_empty in Hx.
  - unfold handleTimeout. apply conforms_get.
    rewrite (proj2 (N.eqb_neq _ _) Hv). by apply conforms_skip.
Qed.

(** ** The loop *)

Definition is_shutdown (e : EventDisseminator) : bool :=
  match e with EvShutdown _ => true | _ => false end.

(** The acknowledgement an event carries. *)
Definition ack_of (d : disseminator) (e : EventDisseminator) : N → HostOperation → Prop :=
  match e with
  | EvReportedHost r => ack_report d r
  | _ => no_ack
  end.

Lemma conforms_Handle n d e :
  (n + 1 < two64)%N → is_shutdown e = false → base n d → phase d →
  conforms (ack_of d e) (n + 1) d (Handle e).
Proof.
  intros Hn He Hb Hp. assert (Hb' : base (n + 1) d) by (apply (base_weaken n); [lia|done]).
  destruct e as [a|r|c|err|v| |]; cbn [Handle ack_of]; try done.
  - by apply conforms_handleAdd.
  - apply conforms_handleReportedHost; auto.
  - by apply conforms_handleCloseStream.
  - by apply conforms_handleTimeout.
  - split_and!; [done|done|by left|by constructor|by apply acks_kept_same].
  - by apply settles_conforms, settles_handleCoalesceFire.
Qed.

Lemma dinv_New opts : dinv 0 (New opts None).
Proof.
  split; [|by left|simpl; lia]. split; simpl; try done.
  intros i [x Hx]. by rewrite lookup_empty in Hx.
Qed.

Lemma dinv_Handle n d e :
  (n + 1 < two64)%N → is_shutdown e = false → dinv n d → dinv (n + 1) (Handle e d).1.
Proof.
  intros Hn He [Hb Hp Hv]. destruct (conforms_Handle n d e Hn He Hb Hp) as (H1 & H2 & H3 & _).
  split; [done..|]. destruct H3 as [->| ->]; [lia|]. pose proof (u64_succ_le (currentVersion d)). lia.
Qed.

Lemma dinv_run n d es :
  (n + N.of_nat (length es) < two64)%N → Forall (λ e, is_shutdown e = false) es →
  dinv n d → dinv (n + N.of_nat (length es)) (run Handle es d).1.
Proof.
  revert n d; induction es as [|e es IH]; intros n d Hn Hes Hd.
  - simpl. by rewrite N.add_0_r.
  - inversion Hes; subst. simpl. rewrite seqp_eq. cbn [fst snd].
    replace (n + N.of_nat (S (length es)))%N with (n + 1 + N.of_nat (length es))%N by lia.
    apply IH; [simpl in Hn; lia|done|]. apply dinv_Handle; [simpl in Hn; lia|done..].
Qed.

(** A loop of [New] after a sequence of events that does not shut it down. *)
Definition reachable (opts : Options) (n : nat) (d : disseminator) : Prop :=
  ∃ es, length es = n ∧ Forall (λ e, is_shutdown e = false) es ∧ d = (run Handle es (New opts None)).1.

Lemma reachable_dinv opts n d :
  (N.of_nat n < two64)%N → reachable opts n d → dinv (N.of_nat n) d.
Proof.
  intros Hn (es & <- & Hes & ->). pose proof (dinv_run 0 _ es ltac:(lia) Hes (dinv_New opts)) as H.
  by rewrite N.add_0_l in H.
Qed.
