(* ===== verification/DisseminatorProps.v ===== *)
(** * Properties of the placement disseminator

    Safety of the three-phase protocol over every event sequence, the counters,
    completion of a round once every stream answers, what a timeout and a
    coalesced deletion do, recycling of pooled loops, and two behaviours that
    contradict the comments of the source (a late timeout closes healthy
    streams; closing a stream without actors can stall a round). *)

From S2P Require Import Prelude GoLib PlacementStore PlacementDisseminator DisseminatorInv.

(** ** Histories *)

Definition state_after (opts : Options) (es : list EventDisseminator) : disseminator :=
  (run Handle es (New opts None)).1.

Definition outputs_of (opts : Options) (es : list EventDisseminator) (e : EventDisseminator)
    : list output := (Handle e (state_after opts es)).2.

Definition running (es : list EventDisseminator) : Prop :=
  (N.of_nat (length es) < two64)%N ∧ Forall (λ e, is_shutdown e = false) es.

(** In history [es], stream [i] acknowledged [op] while the table version was
    [v], with a report that is not of an older version and not an answer to a
    table that was pushed to it alone ([fresh_report]). *)
Definition acked (opts : Options) (es : list EventDisseminator) (i : N) (op : HostOperation) (v : N)
    : Prop :=
  ∃ es1 r es2, es = es1 ++ EvReportedHost r :: es2 ∧ rh_StreamIDx r = i ∧
    currentVersion (state_after opts es1) = v ∧ report_op (state_after opts es1) (rh_Host r) = op ∧
    fresh_report (state_after opts es1) r.

Lemma state_after_snoc opts es e :
  state_after opts (es ++ [e]) = (Handle e (state_after opts es)).1.
Proof. unfold state_after. rewrite run_app. simpl. by rewrite seqp_eq. Qed.

Lemma acked_snoc opts es e i op v : acked opts es i op v → acked opts (es ++ [e]) i op v.
Proof.
  intros (es1 & r & es2 & -> & H). exists es1, r, (es2 ++ [e]). by rewrite <-(assoc_L (++)).
Qed.

Lemma running_snoc es e : running (es ++ [e]) → running es ∧ is_shutdown e = false.
Proof.
  unfold running. rewrite length_app, Forall_app, Forall_singleton. simpl. intros [? [? ?]].
  split; [split; [lia|done]|done].
Qed.

Lemma running_dinv opts es : running es → dinv (N.of_nat (length es)) (state_after opts es).
Proof. intros [Hn Hes]. apply (reachable_dinv opts); [done|]. by exists es. Qed.

Lemma running_conforms opts es e :
  running (es ++ [e]) →
  conforms (ack_of (state_after opts es) e) (N.of_nat (length es) + 1) (state_after opts es) (Handle e).
Proof.
  intros Hr. destruct (running_snoc es e Hr) as [Hr' He].
  destruct (running_dinv opts es Hr') as [Hb Hp _].
  apply conforms_Handle; [|done..]. destruct Hr as [Hn _]. rewrite length_app in Hn. simpl in Hn. lia.
Qed.

(** Every recorded acknowledgement was sent under the current version. *)
Lemma states_acked opts es i s :
  running es → streams (state_after opts es) !! i = Some s → currentState s ≠ REPORT →
  acked opts es i (currentState s) (currentVersion (state_after opts es)).
Proof.
  revert i s; induction es as [|e es IH] using rev_ind; intros i s Hr Hs Hne.
  - change ((∅ : gmap N streamConn) !! i = Some s) in Hs. by rewrite lookup_empty in Hs.
  - destruct (running_conforms opts es e Hr) as (_ & _ & _ & _ & Ha).
    rewrite state_after_snoc in *. destruct (Ha i s Hs) as [?|[Hv [(s0 & Hs0 & Heq)|HW]]]; [done| |].
    + rewrite Hv, <-Heq. apply acked_snoc, IH; [by apply running_snoc in Hr as [? _]|done|congruence].
    + destruct e as [|r| | | | |]; try done. destruct HW as [[-> ->] Hf].
      exists es, r, []. rewrite Hv. done.
Qed.

(** ** Safety *)

(** C1: Phase safety of the v1 dissemination protocol. Over every sequence of events a
    placement disseminator handles before its shutdown: an UPDATE of version v is sent to a
    stream only when v is the current version, it carries exactly the tables of the store,
    and every connected stream has acknowledged the LOCK of v; an UNLOCK of v is sent only
    when every connected stream has acknowledged the UPDATE of v. An acknowledgement is a
    report of that operation, made while v was current, that does not carry an older version
    and does not answer a table pushed to its stream alone. (Tables pushed to a single
    stream are messages of their own and not part of the phases.) *)
Theorem three_phase_safety opts es e idx v :
  running (es ++ [e]) →
  (∀ t, OEnqueue idx (DisseminateUpdate v t) ∈ outputs_of opts es e →
     let d' := state_after opts (es ++ [e]) in
     v = currentVersion d' ∧ t = Store_PlacementTables (store d') v ∧
     ∀ i, is_Some (streams d' !! i) → acked opts (es ++ [e]) i LOCK v) ∧
  (OEnqueue idx (DisseminateUnlock v) ∈ outputs_of opts es e →
     let d' := state_after opts (es ++ [e]) in
     v = currentVersion d' ∧
     ∀ i, is_Some (streams d' !! i) → acked opts (es ++ [e]) i UPDATE v).
Proof.
  intros Hr. pose proof (running_conforms opts es e Hr) as (_ & _ & _ & Hann & _).
  rewrite list.Forall_forall in Hann.
  assert (Hacks : ∀ op, op ≠ REPORT → all_in op (state_after opts (es ++ [e])) →
    ∀ i, is_Some (streams (state_after opts (es ++ [e])) !! i) →
    acked opts (es ++ [e]) i op (currentVersion (state_after opts (es ++ [e])))).
  { intros op Hop Hall i [s Hs]. rewrite <-(Hall i s Hs). apply states_acked; [done..|].
    by rewrite (Hall i s Hs). }
  rewrite state_after_snoc in *. split.
  - intros t Hin. destruct (Hann _ Hin) as (_ & -> & -> & _ & Hall). auto.
  - intros Hin. destruct (Hann _ Hin) as (_ & -> & _ & Hall). auto.
Qed.

(** Well-formedness of the placement disseminator after any sequence of events before
    shutdown: the connection gauge is the number of streams, the actor gauge the number of
    streams with actors, the current operation is one of the four phases,
    streamsInTargetState is exactly the number of streams that reached the phase (0 in
    REPORT), the store holds only hosts with sorted non-empty entities, and stream indices
    are fresh. *)
Theorem disseminator_counters opts es :
  running es →
  let d := state_after opts es in
  connCount d = Z.of_nat (size (streams d)) ∧
  actorConnCount d = Z.of_nat (mcount hasActors (streams d)) ∧
  store_wf (store d) ∧
  (currentOperation d = REPORT ∨ currentOperation d = LOCK ∨
   currentOperation d = UPDATE ∨ currentOperation d = UNLOCK) ∧
  streamsInTargetState d =
    (if decide (currentOperation d = REPORT) then 0
     else Z.of_nat (mcount (λ s, bool_decide (currentState s = currentOperation d)) (streams d)))%Z ∧
  (∀ i, is_Some (streams d !! i) → (i < streamIDx d)%N).
Proof.
  intros Hr. destruct (running_dinv opts es Hr) as [[] Hp _]. cbv zeta.
  split_and!; try done.
  - destruct Hp as [[? _]|[Hin _]]; [by left|right]. set_solver.
  - destruct Hp as [[-> ->]|[Hin ->]]; [by rewrite decide_True|].
    rewrite decide_False; [done|]. intros E. rewrite E in Hin. set_solver.
Qed.

(** ** Completion of a round *)

(** The acknowledgement of [op] for table version [v], sent by the host [h] on
    stream [i]. *)
Definition ack_event (h : Host) (op : HostOperation) (v : N) (i : N) : EventDisseminator :=
  EvReportedHost {| rh_Host := {| Name := Name h; Port := Port h; Load := Load h;
    Entities := Entities h; Id := Id h; Pod := Pod h; ApiLevel := ApiLevel h;
    Namespace := Namespace h; Operation := op; Version := Some v |}; rh_StreamIDx := i |}.











Lemma reached_all op d : all_in op d → reached op (streams d) = size (streams d).
Proof.
  intros Hall. unfold reached. apply mcount_full. intros i s Hs. apply bool_decide_eq_true_2, (Hall i s Hs).
Qed.



















(** ** Timeouts *)

(** Streams and store entries below the next stream index are untouched while
    waiting connections are added. *)
Definition old_kept (d d' : disseminator) : Prop :=
  (streamIDx d ≤ streamIDx d')%N ∧
  ∀ i, (i < streamIDx d)%N →
    streams d' !! i = streams d !! i ∧ hosts (store d') !! i = hosts (store d) !! i.

Lemma old_kept_refl d : old_kept d d.
Proof. split; [lia|done]. Qed.

Lemma old_kept_trans d1 d2 d3 : old_kept d1 d2 → old_kept d2 d3 → old_kept d1 d3.
Proof.
  intros [Hle1 H1] [Hle2 H2]. split; [lia|]. intros i Hi.
  destruct (H1 i Hi) as [<- <-]. apply H2. lia.
Qed.

Lemma old_kept_added n add d h :
  (n + 1 < two64)%N → base n d →
  old_kept d (set_store (Store_Set (store d) (streamIDx d) h).1 (added_state add d)).
Proof.
  intros Hn Hb. pose proof (base_budget n d Hb). split; simpl.
  - rewrite u64_succ_small; lia.
  - intros i Hi. rewrite lookup_insert_ne by lia. split; [done|].
    destruct (Set_spec (store d) (streamIDx d) h (base_wf n d Hb)) as (_ & _ & Hoth). apply Hoth. lia.
Qed.

Lemma add_and_store_state add d :
  (add_and_store add d).1 =
    set_store (Store_Set (store d) (streamIDx d) (InitialHost add)).1 (added_state add d).
Proof.
  unfold add_and_store, get. rewrite seqp_eq. simpl. by destruct (addStream_eq add d) as [-> _].
Qed.

Lemma add_store_loop_old n d l :
  (n + N.of_nat (length l) < two64)%N → base n d → old_kept d (for_each l add_and_store d).1.
Proof.
  revert n d; induction l as [|add l IH]; intros n d Hn Hb; [apply old_kept_refl|].
  cbn [for_each]. rewrite seqp_eq. cbn [fst snd].
  replace (n + N.of_nat (length (add :: l)))%N
    with (n + 1 + N.of_nat (length l))%N in Hn by (simpl; lia).
  eapply old_kept_trans; [|apply (IH (n + 1)%N)].
  - rewrite add_and_store_state. by apply (old_kept_added n); [lia|].
  - done.
  - rewrite add_and_store_state. apply base_added_store; [lia|done].
Qed.

(** The closing loop closes every stream of the snapshot in another state, and
    drops its store entry. *)
Lemma close_loop_closes err l d :
  NoDup l.*1 → (∀ i s, (i, s) ∈ l → streams d !! i = Some s) →
  ∀ i s, (i, s) ∈ l → currentState s ≠ currentOperation d →
    OClose i (StreamShutdown err) ∈ (for_each l (close_unresponsive err) d).2 ∧
    hosts (store (for_each l (close_unresponsive err) d).1) !! i = None.
Proof.
  intros Hnd Hl i s Hin Hst.
  assert (Hmono : ∀ l d, hosts (store d) !! i = None →
    hosts (store (for_each l (close_unresponsive err) d).1) !! i = None).
  { intros l0 d0. apply (for_each_inv (λ d, hosts (store d) !! i = None)). intros [j x] d1 _ H1.
    unfold close_unresponsive, conn_count_add, actor_conn_count_add, get. simpl.
    destruct (op_eqb _ _); [done|]. run_prog. destruct (hasActors x); simpl;
      rewrite lookup_delete; by case_decide. }
  revert d Hl Hst; induction l as [|[j x] l IH]; intros d Hl Hst; [by apply elem_of_nil in Hin|].
  inversion Hnd as [|? ? Hnin Hnd']; subst. cbn [for_each]. rewrite seqp_eq. cbn [fst snd].
  assert (Hj : streams d !! j = Some x) by (apply Hl; left).
  destruct (close_unresponsive_eq err j x d Hj) as [Hst1 _].
  set (d1 := (close_unresponsive err (j, x) d).1) in *.
  apply elem_of_cons in Hin as [[= <- <-]|Hin].
  - assert (Hcl : OClose i (StreamShutdown err) ∈ (close_unresponsive err (i, s) d).2).
    { unfold close_unresponsive, conn_count_add, actor_conn_count_add, get, op_eqb. simpl.
      rewrite bool_decide_eq_false_2 by done. run_prog. destruct (hasActors s); simpl; set_solver. }
    split; [set_solver|]. apply Hmono. rewrite Hst1. unfold op_eqb.
    rewrite bool_decide_eq_false_2 by done. simpl. apply lookup_delete_eq.
  - destruct (IH Hnd' Hin d1) as [H1 H2].
    + intros k y Hk. rewrite Hst1. assert (k ≠ j).
      { intros ->. apply Hnin, list_elem_of_fmap. by exists (j, y). }
      destruct (op_eqb _ _); simpl; rewrite ?lookup_delete_ne by done; apply Hl; by right.
    + rewrite Hst1. by destruct (op_eqb _ _).
    + split; [set_solver|done].
Qed.

Lemma Deletes_None st l i :
  hosts st !! i = None → hosts (foldl Store_Delete st l) !! i = None.
Proof.
  revert st; induction l as [|j l IH]; intros st Hst; simpl; [done|].
  apply IH. simpl. rewrite lookup_delete. by case_decide.
Qed.

Lemma timeout_state_old n d v :
  (n < two64)%N → base n d →
  (∀ i s, streams d !! i = Some s →
     streams (timeout_state v d) !! i =
       (if decide (currentState s = currentOperation d) then Some s else None) ∧
     (currentState s ≠ currentOperation d → hosts (store (timeout_state v d)) !! i = None)).
Proof.
  intros Hn Hb i s Hs. set (err := ErrDisseminationTimeout (timeout d) v).
  assert (Hnd : NoDup (map_to_list (streams d)).*1) by apply NoDup_fst_map_to_list.
  assert (Hl : ∀ i s, (i, s) ∈ map_to_list (streams d) → streams d !! i = Some s)
    by (by intros ? ? ?%elem_of_map_to_list).
  destruct (close_loop_spec n err (map_to_list (streams d)) d) as (H1 & _ & _ & H4 & _ & H6); [done..|].
  pose proof (close_loop_closes err _ d Hnd Hl i s) as Hc.
  pose proof (base_keys n d Hb i ltac:(eauto)) as Hi.
  unfold timeout_state. fold err. set (d1 := (for_each _ (close_unresponsive err) d).1) in *.
  assert (Hidx : streamIDx d1 = streamIDx d).
  { unfold d1. apply (for_each_inv (λ d', streamIDx d' = streamIDx d)); [|done].
    intros [j x] d0 _ H0. unfold close_unresponsive, conn_count_add, actor_conn_count_add, get. simpl.
    destruct (op_eqb _ _); [done|]. run_prog. by destruct (hasActors x). }
  pose proof (base_delete_waiting n d1 H1) as Hb2. rewrite delete_waiting_eq in *. simpl in Hb2. cbn zeta.
  set (d3 := phase_state _ _). pose proof (base_budget n d1 H1) as Hbud.
  destruct (add_store_loop_old (n - N.of_nat (length (waitingToDisseminate d3)))
    (set_waitingToDisseminate [] d3) (waitingToDisseminate d3)) as [_ Hold].
  { change (waitingToDisseminate d3) with (waitingToDisseminate d1). lia. }
  { destruct Hb2. split; try done. simpl in *. lia. }
  destruct (Hold i) as [-> ->]; [simpl; by rewrite Hidx|]. simpl. split.
  - destruct (streams d1 !! i) as [s1|] eqn:E.
    + apply H6 in E as [E1 E2]. rewrite Hs in E1. injection E1 as <-.
      rewrite decide_True; [done|]. apply E2, list_elem_of_fmap. exists (i, s).
      split; [done|by apply elem_of_map_to_list].
    + case_decide as Hd; [|done]. assert (streams d1 !! i = Some s) by (apply H6; auto). congruence.
  - intros Hne. destruct Hc as [_ Hc]; [by apply elem_of_map_to_list|done|].
    by apply Deletes_None.
Qed.

(** A dissemination timeout of the current version closes exactly the streams that have not
    reached the current phase: those leave the stream set and the store and are shut down
    with the timeout error, the others stay connected. *)
Theorem timeout_closes_exactly_unresponsive opts es i s :
  running es → let d := state_after opts es in
  streams d !! i = Some s →
  let '(d', os) := handleTimeout (currentVersion d) d in
  (currentState s = currentOperation d → is_Some (streams d' !! i)) ∧
  (currentState s ≠ currentOperation d →
     streams d' !! i = None ∧ hosts (store d') !! i = None ∧
     OClose i (StreamShutdown (ErrDisseminationTimeout (timeout d) (currentVersion d))) ∈ os).
Proof.
  intros Hr d Hs. destruct (running_dinv opts es Hr) as [Hb _ _]. fold d in Hb.
  destruct Hr as [Hn _].
  destruct (timeout_state_old _ d (currentVersion d) Hn Hb i s Hs) as [Ht1 Ht2].
  pose proof (handleTimeout_state (currentVersion d) d eq_refl) as Hst.
  pose proof (close_loop_closes (ErrDisseminationTimeout (timeout d) (currentVersion d))
    (map_to_list (streams d)) d (NoDup_fst_map_to_list _)) as Hc.
  assert (Hout : ∀ o, o ∈ (for_each (map_to_list (streams d)) (close_unresponsive
    (ErrDisseminationTimeout (timeout d) (currentVersion d))) d).2 → o ∈ (handleTimeout (currentVersion d) d).2).
  { intros o Ho. unfold handleTimeout, get. rewrite N.eqb_refl. cbn [negb]. rewrite seqp_eq. set_solver. }
  destruct (handleTimeout (currentVersion d) d) as [d' os]. cbn [fst snd] in *. subst d'. cbn zeta.
  split.
  - intros Heq. rewrite decide_True in Ht1 by done.
    destruct (negb _); simpl; rewrite ?lookup_fmap, Ht1; eauto.
  - intros Hne. rewrite decide_False in Ht1 by done. destruct (Hc) with i s as [Hc1 _];
      [by intros ? ? ?%elem_of_map_to_list|by apply elem_of_map_to_list|done|].
    specialize (Ht2 Hne). split_and!; [|by destruct (negb _)|auto].
    destruct (negb _); simpl; by rewrite ?lookup_fmap, Ht1.
Qed.

(** Late timeouts (a departure from the comment in handleTimeout). In any state reached
    before shutdown in which a round has completed (the phase is back in REPORT), a timeout
    event that still carries the current version closes every stream that acknowledged the
    last phase of the round. *)
Theorem late_timeout_closes_healthy_streams opts es i s :
  running es → let d := state_after opts es in
  currentOperation d = REPORT → streams d !! i = Some s → currentState s = UNLOCK →
  let '(d', os) := handleTimeout (currentVersion d) d in
  streams d' !! i = None ∧
  OClose i (StreamShutdown (ErrDisseminationTimeout (timeout d) (currentVersion d))) ∈ os.
Proof.
  intros Hr d Hop Hs Hst. destruct (running_dinv opts es Hr) as [Hb _ _]. fold d in Hb.
  destruct Hr as [Hn _].
  destruct (timeout_state_old _ d (currentVersion d) Hn Hb i s Hs) as [Ht1 _].
  rewrite decide_False in Ht1 by congruence.
  pose proof (handleTimeout_state (currentVersion d) d eq_refl) as Hd'.
  destruct (close_loop_closes (ErrDisseminationTimeout (timeout d) (currentVersion d))
    (map_to_list (streams d)) d (NoDup_fst_map_to_list _)) with i s as [Hc _];
    [by intros ? ? ?%elem_of_map_to_list|by apply elem_of_map_to_list|congruence|].
  assert (Hout : OClose i (StreamShutdown (ErrDisseminationTimeout (timeout d) (currentVersion d)))
    ∈ (handleTimeout (currentVersion d) d).2).
  { unfold handleTimeout, get. rewrite N.eqb_refl. cbn [negb]. rewrite seqp_eq. set_solver. }
  destruct (handleTimeout (currentVersion d) d) as [d' os]. cbn [fst snd] in *. subst d'.
  split; [|done]. cbn zeta. destruct (negb _); simpl; by rewrite ?lookup_fmap, Ht1.
Qed.

(** ** Closing streams *)

(** A stalled round (a departure from the comments in handleCloseStream). When the only
    stream that has not acknowledged LOCK disconnects and has no entry in the store,
    handling the close leaves every remaining stream locked and counted, yet the operation
    stays LOCK and nothing is sent: the round waits for its timeout. *)
Theorem close_without_actors_stalls_round opts es c s :
  running es → let d := state_after opts es in
  currentOperation d = LOCK →
  streams d !! cc_StreamIDx c = Some s → currentState s ≠ LOCK →
  hosts (store d) !! cc_StreamIDx c = None →
  (∀ j x, j ≠ cc_StreamIDx c → streams d !! j = Some x → currentState x = LOCK) →
  let '(d', os) := handleCloseStream c d in
  all_in LOCK d' ∧ streamsInTargetState d' = Z.of_nat (size (streams d')) ∧
  currentOperation d' = LOCK ∧ quiet os.
Proof.
  intros Hr d Hop Hs Hst Hno Hoth. destruct (running_dinv opts es Hr) as [Hb Hp _]. fold d in Hb, Hp.
  destruct (close_pre_eq c s d) as [Hpre Hq]. set (d1 := closed_state c s d) in *.
  assert (Hres : (handleCloseStream c d).1 = d1 ∧ quiet (handleCloseStream c d).2).
  { rewrite (handleCloseStream_split c s d Hs), seqp_eq, Hpre. unfold get, close_rest.
    assert (Store_Has (store d1) (cc_StreamIDx c) = false) as ->
      by (apply bool_decide_eq_false_2; simpl; rewrite Hno; by intros []).
    destruct (_ =? 0); simpl; by rewrite app_nil_r. }
  destruct (handleCloseStream c d) as [d' os]. cbn [fst snd] in Hres. destruct Hres as [-> Hq'].
  assert (Hall : all_in LOCK d1).
  { intros j x Hj. simpl in Hj. apply lookup_delete_Some in Hj as [Hj1 Hj2]. eauto. }
  assert (Hp1 : phase d1) by (by apply phase_removed).
  split_and!; [done| |done|done]. destruct Hp1 as [[Hrep _]|[_ ->]].
  - simpl in Hrep. congruence.
  - change (currentOperation d1) with (currentOperation d). rewrite Hop. by rewrite (reached_all LOCK d1 Hall).
Qed.

(** ** Shutdown and recycling *)

(** A disseminator taken from the cache after a shutdown starts like a new one. *)
Theorem recycled_disseminator_is_fresh opts d err :
  replicationFactor (store d) = o_ReplicationFactor opts →
  New opts (Some (handleShutdown err d).1) = New opts None.
Proof.
  intros Hrf. unfold handleShutdown, stopCoalesceTimer, get. rewrite !seqp_eq. cbn [fst snd].
  unfold New. destruct (coalesceTimer d); simpl; unfold Store_DeleteAll, Store_New;
    rewrite ?Hrf; done.
Qed.

(** ** Coalesced deletions *)

(** [add_waiting] reaches its continuation in a state that differs only by the
    new streams. *)
Lemma add_waiting_reach w n d sc idxs k :
  (n + N.of_nat (length w) < two64)%N → base n d →
  ∃ d1 sc1 idxs1 os,
    add_waiting w sc idxs k d = ((k sc1 idxs1 d1).1, os ++ (k sc1 idxs1 d1).2) ∧
    (sc = true → sc1 = true) ∧ old_kept d d1 ∧ currentVersion d1 = currentVersion d ∧
    size (streams d) ≤ size (streams d1).
Proof.
  revert n d sc idxs; induction w as [|add w IH]; intros n d sc idxs Hn Hb.
  - exists d, sc, idxs, []. split_and!; auto using old_kept_refl. apply surjective_pairing.
  - replace (n + N.of_nat (length (add :: w)))%N
      with (n + 1 + N.of_nat (length w))%N in Hn by (simpl; lia).
    cbn [add_waiting]. unfold get. rewrite seqp_eq. destruct (addStream_eq add d) as [-> _].
    pose proof (base_added_store n add d (InitialHost add) ltac:(lia) Hb) as Hb1.
    pose proof (old_kept_added n add d (InitialHost add) ltac:(lia) Hb) as Ho1.
    change (store (added_state add d)) with (store d).
    destruct (Store_Set (store d) (streamIDx d) (InitialHost add)) as [st ch]. cbn [fst] in *.
    rewrite seqp_eq. cbn [modify fst snd].
    destruct (IH (n + 1)%N (set_store st (added_state add d)) (sc || ch) (idxs ++ [streamIDx d]))
      as (d1 & sc1 & idxs1 & os & Heq & Hsc & Ho & Hv & Hsz); [done..|].
    rewrite Heq. exists d1, sc1, idxs1, ((addStream add d).2 ++ os). cbn [fst snd]. split_and!.
    + by rewrite <-(assoc_L (++)).
    + intros ->. by apply Hsc.
    + by eapply old_kept_trans.
    + by rewrite Hv.
    + etrans; [|exact Hsz]. simpl. rewrite map_size_insert. case_match; simpl; lia.
Qed.

Lemma length_pos_eqb {A} (x : A) l : x ∈ l → (length l =? 0) = false.
Proof. destruct l; [by intros ?%elem_of_nil|done]. Qed.

Lemma Deletes_in st l i : i ∈ l → hosts (foldl Store_Delete st l) !! i = None.
Proof.
  revert st; induction l as [|j l IH]; intros st; [by intros ?%elem_of_nil|].
  intros [->|Hi]%elem_of_cons; simpl; [|by apply IH].
  apply Deletes_None. simpl. apply lookup_delete_eq.
Qed.

(** What a started round looks like from outside. *)
Lemma start_round_announced d j :
  is_Some (streams (start_round d).1 !! j) →
  OEnqueue j (DisseminateLock (currentVersion (start_round d).1)) ∈ (start_round d).2.
Proof.
  rewrite start_round_eq. simpl. intros [s Hj]. right. apply list_elem_of_fmap. exists j.
  split; [done|]. apply list_elem_of_fmap. exists (j, s). split; [done|]. by apply elem_of_map_to_list.
Qed.

Definition rounds_from (i : N) (d : disseminator) (r : disseminator * list output) : Prop :=
  currentOperation r.1 = LOCK ∧ currentVersion r.1 = u64_succ (currentVersion d) ∧
  hosts (store r.1) !! i = None ∧
  ∀ j, is_Some (streams r.1 !! j) → OEnqueue j (DisseminateLock (currentVersion r.1)) ∈ r.2.

Lemma rounds_from_start i d d1 os :
  currentVersion d1 = currentVersion d → hosts (store d1) !! i = None →
  rounds_from i d ((start_round d1).1, os ++ (start_round d1).2).
Proof.
  intros Hv Hi. split_and!; cbn [fst snd].
  - by rewrite start_round_eq.
  - rewrite start_round_eq. simpl. by rewrite Hv.
  - by rewrite start_round_eq.
  - intros j Hj. apply elem_of_app. right. by apply start_round_announced.
Qed.

(** A forced round over the waiting connections. *)
Lemma forced_round i n d :
  (n < two64)%N → base n d → (i < streamIDx d)%N → hosts (store d) !! i = None →
  (length (waitingToDisseminate d) =? 0) = false →
  rounds_from i d (processWaitingDisseminate true d).
Proof.
  intros Hn Hb Hlt Hi Hw. unfold processWaitingDisseminate, get. rewrite Hw, seqp_eq.
  cbn [modify fst snd app].
  destruct (add_waiting_reach (waitingToDisseminate d) (streamIDx d) (set_waitingToDisseminate [] d) true []
    (λ sc idxs, if negb sc then for_each idxs push_table else start_round))
    as (d2 & sc2 & idxs2 & os & Heq & Hsc & [_ Hold] & Hv & _).
  - destruct Hb. lia.
  - destruct Hb. split; try done. simpl. lia.
  - rewrite Heq, (Hsc eq_refl). cbn [negb fst snd].
    apply rounds_from_start; [by rewrite Hv|]. by destruct (Hold i Hlt) as [_ ->].
Qed.

(** A round over the waiting deletions alone. *)
Lemma deletions_round i d :
  i ∈ waitingToDelete d → streams d ≠ ∅ → rounds_from i d (processWaitingDeletes d).
Proof.
  intros Hi Hne. unfold processWaitingDeletes, get. rewrite (length_pos_eqb i _ Hi).
  destruct (size (streams d) =? 0) eqn:Hsz.
  { by apply Nat.eqb_eq, map_size_empty_iff in Hsz. }
  cbn [orb]. rewrite seqp_eq, delete_waiting_eq. cbn [fst snd].
  apply rounds_from_start; [done|]. simpl. by apply Deletes_in.
Qed.

(** No deletion is forgotten in the coalesce window: if the store entry of a disconnected
    stream waits for deletion when the window ends and streams are connected, the entry is
    removed and a new round is started for the connected streams, also when the queued
    connections bring no actors. *)
Theorem coalesced_deletions_start_round opts es i :
  running es → let d := state_after opts es in
  streams d ≠ ∅ → i ∈ waitingToDelete d → (i < streamIDx d)%N →
  rounds_from i d (handleCoalesceFire d).
Proof.
  intros Hr d Hne Hi Hlt. destruct (running_dinv opts es Hr) as [Hb _ _]. fold d in Hb.
  destruct Hr as [Hn _]. unfold handleCoalesceFire. rewrite seqp_eq. cbn [modify fst snd app].
  clearbody d. unfold get. set (d0 := set_coalesceTimer false d).
  assert (Hb0 : base (N.of_nat (length es)) d0) by (by apply (base_ext _ d)).
  change (rounds_from i d) with (rounds_from i d0). assert (Hi0 : i ∈ waitingToDelete d0) by done.
  assert (Hne0 : streams d0 ≠ ∅) by done. assert (Hlt0 : (i < streamIDx d0)%N) by done.
  clearbody d0. clear d Hb Hne Hi Hlt. rewrite (length_pos_eqb i _ Hi0). cbn [negb andb].
  rewrite <-surjective_pairing.
  destruct (length (waitingToDisseminate d0) =? 0) eqn:Hw; [by apply deletions_round|].
  rewrite seqp_eq. pose proof (base_delete_waiting _ _ Hb0) as Hb1. rewrite delete_waiting_eq in *.
  cbn [fst snd app] in *. rewrite <-surjective_pairing.
  apply (forced_round i _ _ Hn Hb1); [done| |done]. simpl. by apply Deletes_in.
Qed.

(** ** Witnesses *)

Definition demo_opts (window : Z) : Options :=
  {| o_Namespace := "default"; o_ReplicationFactor := 100; o_DisseminationTimeout := 5;
     o_DisseminationCoalesceWindow := window |}.

Definition host_a : Host := demo_host "10.0.0.1:50002" ["t1"].
Definition host_b : Host := demo_host "10.0.0.2:50002" ["t2"].

Definition demo_add (c : N) (h : Host) : EventDisseminator :=
  EvConnAdd {| ca_conn := c; InitialHost := h |}.

(** All acknowledgements of round [v] by the streams [l]. *)
Definition demo_acks (v : N) (l : list N) : list EventDisseminator :=
  (ack_event host_a LOCK v <$> l) ++ (ack_event host_a UPDATE v <$> l) ++ (ack_event host_a UNLOCK v <$> l).

Ltac running_tac := split; [vm_compute; reflexivity|repeat constructor].

Lemma three_phase_safety_witness :
  let es := [demo_add 0 host_a] in let e := ack_event host_a LOCK 1 0 in
  ∃ t, OEnqueue 0 (DisseminateUpdate 1 t) ∈ outputs_of (demo_opts 100) es e ∧
       acked (demo_opts 100) (es ++ [e]) 0 LOCK 1.
Proof.
  eexists. assert (Hin : OEnqueue 0 (DisseminateUpdate 1
    (Store_PlacementTables (store (state_after (demo_opts 100) [demo_add 0 host_a])) 1))
    ∈ outputs_of (demo_opts 100) [demo_add 0 host_a] (ack_event host_a LOCK 1 0)).
  { vm_compute. left. }
  split; [exact Hin|].
  apply (proj1 (three_phase_safety (demo_opts 100) [demo_add 0 host_a] (ack_event host_a LOCK 1 0) 0 1
    ltac:(running_tac)) _ Hin).
  exists {| currentState := LOCK; hasActors := true; receivingTable := None |}. vm_compute. reflexivity.
Defined.

Lemma disseminator_counters_witness :
  let d := state_after (demo_opts 100) [demo_add 0 host_a] in
  connCount d = Z.of_nat (size (streams d)) ∧ connCount d = 1%Z.
Proof.
  split; [|vm_compute; reflexivity].
  exact (proj1 (disseminator_counters (demo_opts 100) [demo_add 0 host_a] ltac:(running_tac))).
Defined.


Lemma timeout_closes_exactly_unresponsive_witness :
  let d := state_after (demo_opts 100) [demo_add 0 host_a] in
  streams (handleTimeout (currentVersion d) d).1 !! 0%N = None.
Proof.
  set (d := state_after (demo_opts 100) [demo_add 0 host_a]). cbv zeta.
  pose proof (timeout_closes_exactly_unresponsive (demo_opts 100) [demo_add 0 host_a] 0
    {| currentState := REPORT; hasActors := true; receivingTable := None |} ltac:(running_tac)
    ltac:(vm_compute; reflexivity)) as H.
  cbv zeta in H. fold d in H. destruct (handleTimeout (currentVersion d) d) as [d' os].
  apply (proj2 H). vm_compute. discriminate.
Defined.

Lemma late_timeout_closes_healthy_streams_witness :
  let d := state_after (demo_opts 100) (demo_add 0 host_a :: demo_acks 1 [0%N]) in
  streams d !! 0%N = Some {| currentState := UNLOCK; hasActors := true; receivingTable := None |} ∧
  streams (handleTimeout (currentVersion d) d).1 !! 0%N = None.
Proof.
  set (d := state_after (demo_opts 100) (demo_add 0 host_a :: demo_acks 1 [0%N])). cbv zeta.
  split; [vm_compute; reflexivity|].
  pose proof (late_timeout_closes_healthy_streams (demo_opts 100) (demo_add 0 host_a :: demo_acks 1 [0%N]) 0
    {| currentState := UNLOCK; hasActors := true; receivingTable := None |} ltac:(running_tac)
    ltac:(vm_compute; reflexivity) ltac:(vm_compute; reflexivity) eq_refl) as H.
  cbv zeta in H. fold d in H. destruct (handleTimeout (currentVersion d) d) as [d' os]. exact (proj1 H).
Defined.

(** Stream 0 hosts actors, stream 1 hosts none; stream 0 re-reports, and
    acknowledges the LOCK of the second round. *)
Definition stall_history : list EventDisseminator :=
  (demo_add 0 host_a :: demo_acks 1 [0%N]) ++
  [demo_add 1 (demo_host "10.0.0.2:50002" []);
   EvReportedHost {| rh_Host := demo_host "10.0.0.1:50002" ["t1"; "t2"]; rh_StreamIDx := 0 |};
   ack_event host_a LOCK 2 0].

Definition stall_close : ConnCloseStream :=
  {| cc_StreamIDx := 1; cc_Namespace := "default"; cc_Error := ErrOther "EOF" |}.

Lemma close_without_actors_stalls_round_witness :
  let d := state_after (demo_opts 0) stall_history in
  currentOperation d = LOCK ∧ all_in LOCK (handleCloseStream stall_close d).1.
Proof.
  set (d := state_after (demo_opts 0) stall_history). cbv zeta.
  assert (Hst : map_to_list (streams d) =
    [(1%N, {| currentState := REPORT; hasActors := false; receivingTable := None |});
     (0%N, {| currentState := LOCK; hasActors := true; receivingTable := None |})])
    by (vm_compute; reflexivity).
  assert (Hop : currentOperation d = LOCK) by (vm_compute; reflexivity). split; [exact Hop|].
  pose proof (close_without_actors_stalls_round (demo_opts 0) stall_history stall_close
    {| currentState := REPORT; hasActors := false; receivingTable := None |} ltac:(running_tac)) as H.
  cbv zeta in H. fold d in H. destruct (handleCloseStream stall_close d) as [d' os]. apply H.
  - exact Hop.
  - vm_compute. reflexivity.
  - discriminate.
  - vm_compute. reflexivity.
  - intros j x Hj Hx. apply elem_of_map_to_list in Hx. rewrite Hst in Hx.
    apply elem_of_cons in Hx as [[= -> ->]|Hx]; [exfalso; by apply Hj|].
    apply list_elem_of_singleton in Hx as [= -> ->]. reflexivity.
Defined.

Lemma recycled_disseminator_is_fresh_witness :
  let d := state_after (demo_opts 100) [demo_add 0 host_a] in
  New (demo_opts 100) (Some (handleShutdown (ErrOther "leader lost") d).1) = New (demo_opts 100) None.
Proof. apply recycled_disseminator_is_fresh. vm_compute. reflexivity. Defined.

Definition coalesce_history : list EventDisseminator :=
  (demo_add 0 host_a :: demo_acks 1 [0%N]) ++ EvCoalesceFire ::
  (demo_add 1 host_b :: demo_acks 2 [0%N; 1%N]) ++ [EvConnCloseStream stall_close].

Lemma coalesced_deletions_start_round_witness :
  let d := state_after (demo_opts 100) coalesce_history in
  hosts (store d) !! 1%N = Some host_b ∧ rounds_from 1 d (handleCoalesceFire d).
Proof.
  split; [vm_compute; reflexivity|].
  apply coalesced_deletions_start_round.
  - running_tac.
  - intros E. assert (H : streams (state_after (demo_opts 100) coalesce_history) !! 0%N = None)
      by (rewrite E; reflexivity). vm_compute in H. discriminate.
  - vm_compute. left.
  - vm_compute. reflexivity.
Defined.
