(* ===== verification/PlacementStream.v ===== *)
(** * The per-connection stream loop of the placement server
      (pkg/placement/internal/loops/stream: dissemination.go, stream.go)

    A stream loop turns the events of its namespace disseminator into the
    placement orders sent to one sidecar.  The gRPC channel is a parameter:
    [Send h o] is the error of the call of [Send] with order [o] after calls with
    the orders [h]. *)

From S2P Require Import Prelude GoLib PlacementStore PlacementDisseminator DisseminatorInv DisseminatorProps.
#[local] Open Scope dapr_scope.

(** ** Definitions *)

Definition operationLock : string := "lock".
Definition operationUnlock : string := "unlock".
Definition operationUpdate : string := "update".

Record PlacementOrder := mkPlacementOrder {
  po_Operation : string;
  po_Version : N;
  po_Tables : option PlacementTables
}.

(** [st_sent] are the orders of the calls of [channel.Send] so far. *)
Record stream := mkStream {
  st_idx : N;
  st_ns : string;
  st_currentVersion : option N;
  st_sent : list PlacementOrder
}.

Definition set_st_currentVersion (v : option N) (s : stream) : stream :=
  {| st_idx := st_idx s; st_ns := st_ns s; st_currentVersion := v; st_sent := st_sent s |}.

(** A pooled stream keeps nothing that [New] does not overwrite. *)
Definition stream_New (idx : N) (add : ConnAdd) : stream :=
  {| st_idx := idx; st_ns := Namespace (InitialHost add); st_currentVersion := None; st_sent := [] |}.

(** A call of [channel.Send] with its result, or of [cancel]. *)
Inductive stream_output :=
  | SOSend (o : PlacementOrder) (err : option error)
  | SOCancel (err : error).

Section stream_loop.
Variable Send : list PlacementOrder → PlacementOrder → option error.

(** A handler with an error result: its state, outputs and error. *)
Definition stream_handler : Type := stream → stream * list stream_output * option error.

Definition ok : stream_handler := λ s, (s, [], None).

Definition channel_Send (o : PlacementOrder) : stream_handler := λ s,
  ({| st_idx := st_idx s; st_ns := st_ns s; st_currentVersion := st_currentVersion s;
      st_sent := st_sent s ++ [o] |}, [SOSend o (Send (st_sent s) o)], Send (st_sent s) o).

(** [if err := c1; err != nil { return err }; c2] *)
Definition and_then (c1 c2 : stream_handler) : stream_handler := λ s,
  let '(s1, o1, e1) := c1 s in
  match e1 with
  | Some err => (s1, o1, Some err)
  | None => let '(s2, o2, e2) := c2 s1 in (s2, o1 ++ o2, e2)
  end.

Definition handleLock (version : N) : stream_handler := λ s,
  match st_currentVersion s with
  | Some cv =>
      if (version <? cv)%N then ok s
      else channel_Send (mkPlacementOrder operationLock version None)
             (set_st_currentVersion (Some version) s)
  | None =>
      channel_Send (mkPlacementOrder operationLock version None)
        (set_st_currentVersion (Some version) s)
  end.

Definition handleUpdate (version : N) (tables : PlacementTables) : stream_handler := λ s,
  match st_currentVersion s with
  | Some cv =>
      if (cv =? version)%N then channel_Send (mkPlacementOrder operationUpdate version (Some tables)) s
      else ok s
  | None => ok s
  end.

Definition handleTable (version : N) (tables : PlacementTables) : stream_handler :=
  and_then (channel_Send (mkPlacementOrder operationLock version None))
    (and_then (channel_Send (mkPlacementOrder operationUpdate version (Some tables)))
      (channel_Send (mkPlacementOrder operationUnlock version None))).

Definition handleUnlock (version : N) : stream_handler := λ s,
  match st_currentVersion s with
  | Some cv =>
      if (cv =? version)%N then channel_Send (mkPlacementOrder operationUnlock version None) s
      else ok s
  | None => ok s
  end.

Definition stream_handleShutdown (err : error) : stream_handler := λ s, (s, [SOCancel err], None).

Definition stream_Handle (event : EventStream) : prog stream stream_output := λ s,
  let '(s', os, err) :=
    match event with
    | DisseminateLock v => handleLock v s
    | DisseminateUpdate v t => handleUpdate v t s
    | DisseminateUnlock v => handleUnlock v s
    | DisseminateTable v t => handleTable v t s
    | StreamShutdown e => stream_handleShutdown e s
    end in
  match err with
  | Some e => (s', os ++ [SOCancel e])
  | None => (s', os)
  end.

(** ** Orders of one stream *)

(** The calls of [Send] with their results, the orders of all calls, and those of
    the calls without error: what the sidecar receives. *)
Definition sends (os : list stream_output) : list (PlacementOrder * option error) :=
  omap (λ o, match o with SOSend p err => Some (p, err) | SOCancel _ => None end) os.

Definition orders (os : list stream_output) : list PlacementOrder := (sends os).*1.

Definition received (l : list (PlacementOrder * option error)) : list PlacementOrder :=
  (filter (λ c, c.2 = None) l).*1.

Lemma orders_app os1 os2 : orders (os1 ++ os2) = orders os1 ++ orders os2.
Proof. unfold orders, sends. by rewrite omap_app, fmap_app. Qed.

Definition ev_version (e : EventStream) : option N :=
  match e with
  | DisseminateLock v | DisseminateUpdate v _ | DisseminateUnlock v | DisseminateTable v _ => Some v
  | StreamShutdown _ => None
  end.

(** The orders sent for one event carry its version, and an UPDATE or UNLOCK is
    preceded by a LOCK of its version: either in the same batch (a table push)
    or recorded in [st_currentVersion]. *)
Lemma stream_Handle_orders e s :
  let r := stream_Handle e s in
  (∀ o, o ∈ orders r.2 → ev_version e = Some (po_Version o)) ∧
  (∀ cv, st_currentVersion r.1 = Some cv →
     st_currentVersion s = Some cv ∨ mkPlacementOrder operationLock cv None ∈ orders r.2) ∧
  (∀ k o, orders r.2 !! k = Some o → po_Operation o ≠ operationLock →
     st_currentVersion s = Some (po_Version o) ∨
     ∃ j, j < k ∧ orders r.2 !! j = Some (mkPlacementOrder operationLock (po_Version o) None)).
Proof.
  cbv zeta. unfold stream_Handle, orders, sends. destruct e as [v|v t|v|v t|err].
  - unfold handleLock. destruct (st_currentVersion s) as [cv|] eqn:Hcv; [destruct (_ <? _)%N eqn:Hlt|];
      simpl; [|destruct (Send _ _); simpl..];
      (split_and!; [set_solver|intros cv' [= E]; first [left; congruence|right; set_solver]|]);
      intros [|k] o [= <-] Hno; done.
  - unfold handleUpdate. destruct (st_currentVersion s) as [cv|] eqn:Hcv; [destruct (_ =? _)%N eqn:Heq|];
      simpl; [destruct (Send _ _); simpl|..]; (split_and!; [set_solver|intros ? E; left; congruence|]);
      try done; (intros [|k] o [= <-] _; apply N.eqb_eq in Heq as ->; by left).
  - unfold handleUnlock. destruct (st_currentVersion s) as [cv|] eqn:Hcv; [destruct (_ =? _)%N eqn:Heq|];
      simpl; [destruct (Send _ _); simpl|..]; (split_and!; [set_solver|intros ? E; left; congruence|]);
      try done; (intros [|k] o [= <-] _; apply N.eqb_eq in Heq as ->; by left).
  - unfold handleTable, and_then, channel_Send. simpl.
    destruct (Send _ _); simpl; [|destruct (Send _ _); simpl; [|destruct (Send _ _); simpl]];
      (split_and!; [set_solver|by left|]);
      (intros [|[|[|k]]] o; simpl; intros [= <-] Hno; try done; right; exists 0; (split; [lia|done])).
  - simpl. split_and!; [set_solver|by left|done].
Qed.

(** Over a whole history. *)
Lemma stream_run_locked es s k o :
  orders (run stream_Handle es s).2 !! k = Some o → po_Operation o ≠ operationLock →
  st_currentVersion s = Some (po_Version o) ∨
  ∃ j, j < k ∧ orders (run stream_Handle es s).2 !! j = Some (mkPlacementOrder operationLock (po_Version o) None).
Proof.
  revert s k; induction es as [|e es IH]; intros s k; [done|].
  cbn [run]. rewrite seqp_eq. cbn [fst snd]. rewrite orders_app.
  destruct (stream_Handle_orders e s) as (_ & H2 & H3). set (l1 := orders (stream_Handle e s).2) in *.
  intros [Hk|[Hle Hk]]%lookup_app_Some Hno.
  - destruct (H3 k o Hk Hno) as [?|(j & Hj & Hl)]; [by left|right]. exists j. split; [done|].
    by apply lookup_app_l_Some.
  - destruct (IH _ _ Hk Hno) as [Hcv|(j & Hj & Hl)].
    + destruct (H2 _ Hcv) as [?|Hin]; [by left|right]. apply list_elem_of_lookup in Hin as [j Hj].
      exists j. split; [apply lookup_lt_Some in Hj; lia|by apply lookup_app_l_Some].
    + right. exists (length l1 + j). split; [lia|]. rewrite lookup_app_r by lia.
      by replace (length l1 + j - length l1) with j by lia.
Qed.

(** Versions of the orders are among those of the events, in order. *)
Lemma stream_run_sorted es s :
  StronglySorted N.le (omap ev_version es) →
  StronglySorted N.le (po_Version <$> orders (run stream_Handle es s).2) ∧
  ∀ o, o ∈ orders (run stream_Handle es s).2 → po_Version o ∈ omap ev_version es.
Proof.
  revert s; induction es as [|e es IH]; intros s Hes; [split; [constructor|set_solver]|].
  cbn [run]. rewrite seqp_eq. cbn [fst snd]. rewrite orders_app.
  destruct (stream_Handle_orders e s) as (H1 & _ & _). set (l1 := orders (stream_Handle e s).2) in *.
  cbn [omap list_omap] in Hes |- *.
  destruct (ev_version e) as [v|].
  - apply StronglySorted_inv in Hes as [Hes Hall]. destruct (IH (stream_Handle e s).1 Hes) as [Hs Hin].
    rewrite list.Forall_forall in Hall. assert (Hv : ∀ o, o ∈ l1 → po_Version o = v) by (intros o Ho; specialize (H1 o Ho); congruence).
    clearbody l1. split.
    + rewrite fmap_app. induction l1 as [|o l1 IHl]; [done|]. simpl. constructor; [apply IHl; set_solver|].
      apply list.Forall_forall. intros w. rewrite elem_of_app, !list_elem_of_fmap.
      rewrite (Hv o) by left. intros [(o' & -> & Ho')|(o' & -> & Ho')]; [rewrite (Hv o'); [lia|by right]|].
      by apply Hall, Hin.
    + intros o. rewrite elem_of_app. intros [Ho|Ho]; [rewrite (Hv o Ho); left|right; auto].
  - assert (l1 = []) as -> by (destruct l1 as [|o]; [done|]; specialize (H1 o ltac:(left)); done).
    by apply IH.
Qed.

(** *** Failed sends

    A run of the loop makes calls [l] after those with orders [h]. *)
Fixpoint replay (h : list PlacementOrder) (l : list (PlacementOrder * option error)) : Prop :=
  match l with
  | [] => True
  | (o, err) :: l => err = Send h o ∧ replay (h ++ [o]) l
  end.

Lemma replay_app h l1 l2 : replay h (l1 ++ l2) ↔ replay h l1 ∧ replay (h ++ l1.*1) l2.
Proof.
  revert h; induction l1 as [|[o err] l1 IH]; intros h; simpl; [rewrite app_nil_r; naive_solver|].
  rewrite IH, <-(assoc_L (++)). naive_solver.
Qed.

Lemma stream_Handle_replay e s :
  let r := stream_Handle e s in
  replay (st_sent s) (sends r.2) ∧ st_sent r.1 = st_sent s ++ (sends r.2).*1.
Proof.
  cbv zeta. unfold stream_Handle, sends. destruct e as [v|v t|v|v t|err].
  - unfold handleLock, channel_Send, ok. destruct (st_currentVersion s); [destruct (_ <? _)%N|];
      simpl; [|destruct (Send _ _) eqn:E..]; simpl; rewrite ?E, ?app_nil_r; done.
  - unfold handleUpdate, channel_Send, ok. destruct (st_currentVersion s); [destruct (_ =? _)%N|];
      simpl; [destruct (Send _ _) eqn:E|..]; simpl; rewrite ?E, ?app_nil_r; done.
  - unfold handleUnlock, channel_Send, ok. destruct (st_currentVersion s); [destruct (_ =? _)%N|];
      simpl; [destruct (Send _ _) eqn:E|..]; simpl; rewrite ?E, ?app_nil_r; done.
  - unfold handleTable, and_then, channel_Send. simpl.
    destruct (Send (st_sent s) _) eqn:E1; simpl; [by rewrite E1|].
    destruct (Send (st_sent s ++ _) _) eqn:E2; simpl; [by rewrite E1, E2, <-(assoc_L (++))|].
    destruct (Send ((st_sent s ++ _) ++ _) _) eqn:E3; simpl; rewrite E1, E2, E3, <-!(assoc_L (++)); done.
  - simpl. by rewrite app_nil_r.
Qed.

Lemma stream_run_replay es s :
  let r := run stream_Handle es s in
  replay (st_sent s) (sends r.2) ∧ st_sent r.1 = st_sent s ++ (sends r.2).*1.
Proof.
  cbv zeta. revert s; induction es as [|e es IH]; intros s; simpl; [by rewrite app_nil_r|].
  rewrite seqp_eq. cbn [fst snd]. destruct (stream_Handle_replay e s) as [H1 E1].
  destruct (IH (stream_Handle e s).1) as [H2 E2]. rewrite E1 in H2, E2.
  unfold sends in *. rewrite omap_app, replay_app, E2, fmap_app, (assoc_L (++)). done.
Qed.

(** What gRPC documents of [ServerStream.SendMsg]: on error it aborts the stream,
    so that no later message is sent on it. *)
Definition aborts_on_error : Prop := ∀ h o h' o', Send h o ≠ None → Send (h ++ o :: h') o' ≠ None.

Lemma replay_aborted h l :
  aborts_on_error → (∃ h0 o h1, h = h0 ++ o :: h1 ∧ Send h0 o ≠ None) → replay h l → received l = [].
Proof.
  intros Ha. revert h; induction l as [|[o err] l IH]; intros h (h0 & o0 & h1 & -> & Hf) Hl; [done|].
  simpl in Hl. destruct Hl as [-> Hl]. unfold received. rewrite filter_cons_False by (by apply Ha).
  refine (IH _ _ Hl). exists h0, o0, (h1 ++ [o]). by rewrite <-(assoc_L (++)).
Qed.

(** The orders received are the first ones sent. *)
Lemma received_prefix h l : aborts_on_error → replay h l → received l `prefix_of` l.*1.
Proof.
  intros Ha. revert h; induction l as [|[o err] l IH]; intros h; [done|]. intros [-> Hl].
  destruct (Send h o) as [err|] eqn:Hs.
  - unfold received. rewrite filter_cons_False by done. fold (received l).
    rewrite (replay_aborted (h ++ [o]) l Ha) by (done || (exists h, o, []; by rewrite Hs)). apply prefix_nil.
  - unfold received. rewrite filter_cons_True by done. by apply prefix_cons, (IH (h ++ [o])).
Qed.

Lemma received_sublist l : received l `sublist_of` l.*1.
Proof.
  induction l as [|[o err] l IH]; [done|]. unfold received. rewrite filter_cons.
  case_decide; simpl; by constructor.
Qed.

End stream_loop.

(** ** The disseminator stamps its messages with its version *)

Definition stamped (v : N) (o : output) : Prop :=
  match o with OEnqueue _ e => ev_version e = Some v | _ => True end.

Definition is_enqueue (o : output) : bool := match o with OEnqueue _ _ => true | _ => false end.

(** [c] from [d] enqueues nothing on streams. *)
Definition mute (d : disseminator) (c : handler) : Prop := Forall (λ o, is_enqueue o = false) (c d).2.

(** Everything [c] enqueues from [d] carries the version [c] leaves. *)
Definition stamps (d : disseminator) (c : handler) : Prop :=
  Forall (stamped (currentVersion (c d).1)) (c d).2.

Lemma mute_stamps d c : mute d c → stamps d c.
Proof. intros H. eapply list.Forall_impl; [exact H|]. intros o Ho. by destruct o. Qed.

Lemma mute_seq d c1 c2 : mute d c1 → mute (c1 d).1 c2 → mute d (seqp c1 c2).
Proof. intros H1 H2. unfold mute. rewrite seqp_eq. by apply Forall_app. Qed.

Lemma stamps_seq d c1 c2 : mute d c1 → stamps (c1 d).1 c2 → stamps d (seqp c1 c2).
Proof.
  intros H1 H2. unfold stamps. rewrite seqp_eq. apply Forall_app. split; [|done].
  eapply list.Forall_impl; [exact H1|]. intros o Ho. by destruct o.
Qed.

Lemma mute_for_each {A} (l : list A) body d : (∀ x d, mute d (body x)) → mute d (for_each l body).
Proof.
  intros H. revert d; induction l as [|x l IH]; intros d; [constructor|]. by apply mute_seq.
Qed.

Lemma mute_skip d : mute d skip.
Proof. constructor. Qed.

Lemma mute_modify d f : mute d (modify f).
Proof. constructor. Qed.

Lemma mute_delete_waiting d : mute d delete_waiting.
Proof. unfold mute. rewrite delete_waiting_eq. constructor. Qed.

Lemma mute_collect_orphans d : mute d collect_orphans.
Proof. constructor. Qed.

Lemma mute_conn_count d n : mute d (conn_count_add n).
Proof. repeat constructor. Qed.

Lemma mute_actor_conn_count d n : mute d (actor_conn_count_add n).
Proof. repeat constructor. Qed.

Lemma mute_when d b c : mute d c → mute d (when b c).
Proof. destruct b; [done|constructor]. Qed.

Lemma stamps_when d b c : stamps d c → stamps d (when b c).
Proof. destruct b; [done|constructor]. Qed.

Lemma mute_get d k : mute d (k d) → mute d (get k).
Proof. done. Qed.

Lemma stamps_get d k : stamps d (k d) → stamps d (get k).
Proof. done. Qed.

Lemma stamps_get_any d k : (∀ d, stamps d (k d)) → stamps d (get k).
Proof. intros H. apply stamps_get, H. Qed.

Lemma mute_emit d os : forallb (λ o, negb (is_enqueue o)) os = true → mute d (emit os).
Proof.
  intros H. unfold mute, emit. simpl. apply list.Forall_forall. intros o Ho.
  rewrite forallb_forall in H. specialize (H o). destruct (is_enqueue o); [|done].
  discriminate H. by apply list_elem_of_In.
Qed.

#[export] Hint Resolve mute_skip mute_modify mute_delete_waiting mute_collect_orphans mute_conn_count
  mute_actor_conn_count mute_when mute_seq mute_for_each mute_get
  mute_stamps stamps_when stamps_seq stamps_get : dapr.
#[export] Hint Extern 1 (mute _ (emit _)) => apply mute_emit; reflexivity : dapr.

Lemma mute_addStream d add : mute d (addStream add).
Proof. unfold addStream. auto 12 with dapr. Qed.

Lemma mute_startCoalesceTimer d : mute d startCoalesceTimer.
Proof. unfold startCoalesceTimer. apply mute_get. destruct (_ || _); auto with dapr. Qed.

Lemma mute_close_unresponsive err d kv : mute d (close_unresponsive err kv).
Proof. unfold close_unresponsive. apply mute_get. destruct (op_eqb _ _); auto 12 with dapr. Qed.

Lemma mute_add_and_store d add : mute d (add_and_store add).
Proof. unfold add_and_store. apply mute_get, mute_seq; [apply mute_addStream|auto with dapr]. Qed.

#[export] Hint Resolve mute_addStream mute_startCoalesceTimer mute_close_unresponsive
  mute_add_and_store : dapr.

Lemma stamped_fmap {A} v e (l : list A) (g : A → N) :
  ev_version e = Some v → Forall (stamped v) ((λ x, OEnqueue (g x) e) <$> l).
Proof. intros He. apply Forall_fmap, Forall_true. intros x. exact He. Qed.

Lemma stamps_enqueue_all d e : ev_version e = Some (currentVersion d) → stamps d (enqueue_all e).
Proof. intros He. unfold stamps. by apply stamped_fmap. Qed.

Lemma stamps_start_round d : stamps d start_round.
Proof. unfold stamps. rewrite start_round_eq. constructor; [done|]. by apply stamped_fmap. Qed.

Lemma stamps_processWaitingDeletes d : stamps d processWaitingDeletes.
Proof.
  apply stamps_get. destruct (_ || _); [auto with dapr|].
  apply stamps_seq; [auto with dapr|apply stamps_start_round].
Qed.

Lemma push_table_version d i : currentVersion (push_table i d).1 = currentVersion d.
Proof. unfold push_table, get. destruct (_ !! _); [|done]. by destruct (Store_Has _ _). Qed.

Lemma stamps_push_table d i : stamps d (push_table i).
Proof.
  apply stamps_get. destruct (_ !! _); [|auto with dapr]. destruct (Store_Has _ _); [auto with dapr|].
  apply stamps_seq; [auto with dapr|]. by repeat constructor.
Qed.

Lemma stamps_push_tables d l : stamps d (for_each l push_table).
Proof.
  revert d; induction l as [|i l IH]; intros d; [constructor|]. cbn [for_each]. unfold stamps.
  rewrite seqp_eq. cbn [fst snd]. specialize (IH (push_table i d).1). unfold stamps in IH.
  apply Forall_app. split; [|done].
  assert (Hv : ∀ d', currentVersion (for_each l push_table d').1 = currentVersion d').
  { intros d'. apply (for_each_inv (λ x, currentVersion x = currentVersion d')); [|done].
    intros j x _ <-. apply push_table_version. }
  rewrite Hv. apply stamps_push_table.
Qed.

Lemma stamps_add_waiting w sc idxs k d :
  (∀ sc idxs d, stamps d (k sc idxs)) → stamps d (add_waiting w sc idxs k).
Proof.
  intros Hk. revert sc idxs d; induction w as [|add w IH]; intros sc idxs d; [apply Hk|].
  cbn [add_waiting]. apply stamps_get, stamps_seq; [auto with dapr|]. apply stamps_get.
  destruct (Store_Set _ _ _). apply stamps_seq; [auto with dapr|apply IH].
Qed.

Lemma stamps_processWaitingDisseminate d b : stamps d (processWaitingDisseminate b).
Proof.
  apply stamps_get. destruct (_ =? _); [auto with dapr|]. apply stamps_seq; [auto with dapr|].
  apply stamps_add_waiting. intros sc idxs d'.
  destruct (negb sc); [apply stamps_push_tables|apply stamps_start_round].
Qed.

#[export] Hint Resolve stamps_start_round stamps_processWaitingDeletes stamps_push_table
  stamps_processWaitingDisseminate : dapr.

Lemma stamps_after_round d : stamps d after_round.
Proof. apply stamps_get. destruct (_ <? _)%Z; [|destruct (negb _)]; auto with dapr. Qed.

#[export] Hint Resolve stamps_after_round : dapr.

Lemma stamps_advancePhase d : stamps d advancePhase.
Proof.
  apply stamps_get. destruct (_ <? _)%Z; [auto with dapr|].
  destruct (currentOperation d); try (by auto with dapr); repeat (apply stamps_seq; [auto with dapr|]);
    auto using stamps_enqueue_all with dapr.
Qed.

Lemma stamps_ack_LOCK d i : stamps d (handleReportedLock i).
Proof.
  apply stamps_get. destruct (_ !! _) as [s|]; [|auto with dapr].
  apply stamps_seq; [unfold record_ack; auto with dapr|]. apply stamps_get, stamps_when.
  repeat (apply stamps_seq; [auto with dapr|]). by apply stamps_enqueue_all.
Qed.

Lemma stamps_ack_UPDATE d i : stamps d (handleReportedUpdate i).
Proof.
  apply stamps_get. destruct (_ !! _) as [s|]; [|auto with dapr].
  apply stamps_seq; [unfold record_ack; auto with dapr|]. apply stamps_get, stamps_when.
  repeat (apply stamps_seq; [auto with dapr|]). by apply stamps_enqueue_all.
Qed.

Lemma stamps_ack_UNLOCK d i : stamps d (handleReportedUnlock i).
Proof.
  apply stamps_get. destruct (_ !! _) as [s|]; [|auto with dapr].
  apply stamps_seq; [unfold record_ack; auto with dapr|]. apply stamps_get, stamps_when.
  repeat (apply stamps_seq; [auto with dapr|]). auto with dapr.
Qed.

#[export] Hint Resolve stamps_advancePhase stamps_ack_LOCK stamps_ack_UPDATE stamps_ack_UNLOCK : dapr.

Lemma stamps_doReport d i h : stamps d (doReport i h).
Proof.
  apply stamps_get. destruct (Store_Set _ _ _) as [st ch]. apply stamps_seq; [auto with dapr|].
  destruct (negb ch); auto with dapr.
Qed.

Lemma stamps_handleReportedHost d r : stamps d (handleReportedHost r).
Proof.
  apply stamps_get. cbv zeta. destruct (old_version _ _); [auto with dapr|].
  destruct (table_push_ack d r); [auto with dapr|]. destruct (_ && _); [auto with dapr|].
  destruct (report_op _ _); auto using stamps_doReport with dapr.
Qed.

Lemma stamps_handleCloseStream d c : stamps d (handleCloseStream c).
Proof.
  apply stamps_get. destruct (_ !! _) as [s|]; [|auto with dapr].
  repeat (apply stamps_seq; [auto with dapr|]). apply stamps_get_any. clear d. intros d.
  destruct (_ =? 0); [auto with dapr|]. destruct (negb _); [auto with dapr|].
  apply stamps_seq; [auto with dapr|]. destruct (negb _); [auto with dapr|].
  destruct (coalesceTimer _); auto with dapr.
Qed.

Lemma stamps_handleTimeout d v : stamps d (handleTimeout v).
Proof.
  apply stamps_get. destruct (negb _); [auto with dapr|].
  repeat (apply stamps_seq; [by auto with dapr|]). apply stamps_get_any. clear d. intros d.
  destruct (negb _); [|auto with dapr]. repeat (apply stamps_seq; [auto with dapr|]).
  by apply stamps_enqueue_all.
Qed.

Lemma stamps_Handle d e : stamps d (Handle e).
Proof.
  destruct e as [a|r|c|err|v| |]; cbn [Handle].
  - apply stamps_get. destruct (_ || _); [auto with dapr|]. do 4 (apply stamps_seq; [auto with dapr|]).
    apply stamps_handleReportedHost.
  - apply stamps_handleReportedHost.
  - apply stamps_handleCloseStream.
  - apply mute_stamps. unfold handleShutdown, stopCoalesceTimer.
    assert (Hm : ∀ {A} (g : A → output) l d, (∀ x, is_enqueue (g x) = false) → mute d (emit (g <$> l))).
    { intros A g l d0 Hg. by apply Forall_fmap, Forall_true. }
    apply mute_seq; [by auto 6 with dapr|]. do 2 (apply mute_seq; [apply mute_get; by apply Hm|]).
    auto 9 with dapr.
  - apply stamps_handleTimeout.
  - unfold handleTableRequest. auto with dapr.
  - apply stamps_seq; [auto with dapr|]. apply stamps_get. destruct (_ && _); auto with dapr.
Qed.

(** ** Orders received by one sidecar *)

(** The events a disseminator enqueues on stream [i], in order. *)
Definition enqueued_on (i : N) (os : list output) : list EventStream :=
  omap (λ o, match o with OEnqueue j e => if bool_decide (i = j) then Some e else None | _ => None end) os.

(** The orders received on stream [i] in the disseminator's history [es]. *)
Definition received_on (Send : list PlacementOrder → PlacementOrder → option error) (opts : Options)
    (es : list EventDisseminator) (i : N) (add : ConnAdd) : list PlacementOrder :=
  received (sends (run (stream_Handle Send) (enqueued_on i (run Handle es (New opts None)).2) (stream_New i add)).2).

Lemma StronglySorted_sublist {A} (R : A → A → Prop) l1 l2 :
  l1 `sublist_of` l2 → StronglySorted R l2 → StronglySorted R l1.
Proof.
  induction 1 as [|x l1 l2 Hs IH|x l1 l2 Hs IH]; intros Hl; [constructor| |];
    apply StronglySorted_inv in Hl as [Hl Hx]; [|by apply IH].
  constructor; [by apply IH|]. rewrite list.Forall_forall in *. intros y Hy. apply Hx.
  by eapply elem_of_sublist.
Qed.

Lemma enqueued_versions i v os :
  Forall (stamped v) os → Forall (λ w, w = v) (omap ev_version (enqueued_on i os)).
Proof.
  induction 1 as [|o os Ho Hos IH]; [constructor|].
  destruct o as [|j e| | | | | | | | | |]; try exact IH. unfold enqueued_on. cbn [omap list_omap].
  case_bool_decide; [|exact IH]. cbn [omap list_omap]. simpl in Ho. rewrite Ho. by constructor.
Qed.

Lemma StronglySorted_snoc_const (l l' : list N) v :
  StronglySorted N.le l → Forall (λ w, (w ≤ v)%N) l → Forall (λ w, w = v) l' →
  StronglySorted N.le (l ++ l').
Proof.
  intros Hl Hle Hl'. induction Hl as [|x l Hs IH Hx]; simpl.
  - clear Hle. induction Hl' as [|y l' -> Hl' IH]; constructor; [done|].
    eapply list.Forall_impl; [exact Hl'|]. intros ? ->. lia.
  - inversion Hle as [|? ? Hxv Hle']; subst. constructor; [by apply IH|]. apply Forall_app. split; [done|].
    eapply list.Forall_impl; [exact Hl'|]. intros ? ->. done.
Qed.

(** The versions enqueued on a stream never decrease and never exceed the
    disseminator's. *)
Lemma enqueued_sorted opts es i :
  running es →
  let vs := omap ev_version (enqueued_on i (run Handle es (New opts None)).2) in
  StronglySorted N.le vs ∧ Forall (λ w, (w ≤ currentVersion (state_after opts es))%N) vs.
Proof.
  induction es as [|e es IH] using rev_ind; intros Hr; [split; constructor|].
  destruct (running_snoc es e Hr) as [Hr' _]. destruct (IH Hr') as [Hs Hle]. cbv zeta in *.
  destruct (running_conforms opts es e Hr) as (_ & _ & Hv & _).
  destruct (running_dinv opts es Hr') as [_ _ Hver].
  pose proof (stamps_Handle (state_after opts es) e) as Hst. apply (enqueued_versions i) in Hst.
  rewrite run_app. fold (state_after opts es). cbn [snd fst run].
  assert (Hmono : (currentVersion (state_after opts es) ≤ currentVersion (state_after opts (es ++ [e])))%N).
  { rewrite state_after_snoc. destruct Hv as [-> | ->]; [done|].
    rewrite u64_succ_small; [lia|]. destruct Hr as [Hr _]. rewrite length_app in Hr. simpl in Hr. lia. }
  unfold enqueued_on in *. rewrite seqp_eq. cbn [fst snd skip]. rewrite app_nil_r, !omap_app.
  rewrite state_after_snoc in *. split.
  - eapply StronglySorted_snoc_const; [done| |done].
    eapply list.Forall_impl; [exact Hle|]. intros w Hw. simpl in Hw. lia.
  - apply Forall_app. split; [|eapply list.Forall_impl; [exact Hst|intros ? ->; lia]].
    eapply list.Forall_impl; [exact Hle|]. intros w Hw. simpl in Hw. lia.
Qed.

(** C14: Order of delivery on one placement stream, for any channel whose sends may fail:
    the versions of the orders a sidecar receives (those whose send returned no error) never
    decrease; and, as gRPC aborts a stream when a send on it fails, every UPDATE or UNLOCK a
    sidecar receives was preceded by the LOCK of the same version that it received on that
    stream. *)
Theorem delivered_orders_monotone Send opts es i add :
  running es →
  let os := received_on Send opts es i add in
  (∀ j k o1 o2, j ≤ k → os !! j = Some o1 → os !! k = Some o2 → (po_Version o1 ≤ po_Version o2)%N) ∧
  (aborts_on_error Send → ∀ k o, os !! k = Some o → po_Operation o ≠ operationLock →
     ∃ j, j < k ∧ os !! j = Some (mkPlacementOrder operationLock (po_Version o) None)).
Proof.
  intros Hr. cbv zeta. destruct (enqueued_sorted opts es i Hr) as [Hs _]. unfold received_on.
  set (evs := enqueued_on i _) in *. set (s0 := stream_New i add). split.
  - intros j k o1 o2 Hjk H1 H2. destruct (stream_run_sorted Send evs s0 Hs) as [Hord _].
    pose proof (received_sublist (sends (run (stream_Handle Send) evs s0).2)) as Hsub.
    apply (fmap_sublist po_Version) in Hsub. eapply StronglySorted_sublist in Hord; [|exact Hsub].
    destruct (decide (j = k)) as [->|Hne]; [assert (o1 = o2) as -> by congruence; done|].
    apply (StronglySorted_lookup N.le _ Hord j k); [lia|by rewrite list_lookup_fmap, H1|
      by rewrite list_lookup_fmap, H2].
  - intros Ha k o Hk Hno. destruct (stream_run_replay Send evs s0) as [Hrep _].
    destruct (received_prefix Send _ _ Ha Hrep) as [rest Hpre].
    destruct (stream_run_locked Send evs s0 k o) as [?|(j & Hj & Hl)]; [|done|done|].
    + unfold orders. rewrite Hpre. by apply lookup_app_l_Some.
    + exists j. split; [done|]. unfold orders in Hl. rewrite Hpre in Hl.
      rewrite lookup_app_l in Hl; [done|]. apply lookup_lt_Some in Hk. lia.
Qed.

(** The channel fails from its third call on: the UNLOCK is lost. *)
Definition broken_channel (h : list PlacementOrder) (_ : PlacementOrder) : option error :=
  if length h <? 2 then None else Some (ErrOther "transport is closing").

Lemma broken_channel_aborts : aborts_on_error broken_channel.
Proof.
  intros h o h' o'. unfold broken_channel. rewrite length_app. simpl.
  destruct (Nat.ltb_spec (length h) 2), (Nat.ltb_spec (length h + S (length h')) 2); done || lia.
Qed.

Lemma delivered_orders_monotone_witness :
  let es := demo_add 0 host_a :: demo_acks 1 [0%N] in
  let os := received_on broken_channel (demo_opts 100) es 0 {| ca_conn := 0; InitialHost := host_a |} in
  po_Operation <$> os = [operationLock; operationUpdate] ∧
  ∃ j, j < 1 ∧ os !! j = Some (mkPlacementOrder operationLock 1 None).
Proof.
  set (es := demo_add 0 host_a :: demo_acks 1 [0%N]). cbv zeta. split; [vm_compute; reflexivity|].
  set (os := received_on _ _ _ _ _).
  assert (Ho : ∃ o, os !! 1 = Some o ∧ po_Operation o = operationUpdate ∧ po_Version o = 1%N)
    by (eexists; split_and!; vm_compute; reflexivity).
  destruct Ho as (o & Ho & Hop & Hv). rewrite <-Hv.
  apply (proj2 (delivered_orders_monotone broken_channel (demo_opts 100) es 0
    {| ca_conn := 0; InitialHost := host_a |} ltac:(running_tac)) broken_channel_aborts 1 o Ho).
  rewrite Hop. discriminate.
Defined.
