(* ===== verification/PlacementNamespaces.v ===== *)
(** * The namespace router of the placement server
      (pkg/placement/internal/loops/namespaces: namespaces.go, state.go)

    The router keeps one disseminator loop per namespace with a count of its
    connections; the loop is created by the first connection and closed with
    the last.  At any time a namespace has at most one live loop, so outputs
    name the loop by its namespace. *)

From S2P Require Import Prelude GoLib PlacementStore PlacementDisseminator.
#[local] Open Scope dapr_scope.

(** ** Definitions *)

Definition u64_pred (n : N) : N := ((n + (two64 - 1)) mod two64)%N.

Record namespaces := mkNamespaces {
  ns_replicationFactor : Z;
  ns_disseminationTimeout : Z;
  ns_disseminationCoalesceWindow : Z;
  disseminators : gmap string N     (* [disseminatorLoop.connections] *)
}.

Definition set_disseminators (m : gmap string N) (n : namespaces) : namespaces :=
  {| ns_replicationFactor := ns_replicationFactor n;
     ns_disseminationTimeout := ns_disseminationTimeout n;
     ns_disseminationCoalesceWindow := ns_disseminationCoalesceWindow n;
     disseminators := m |}.

Inductive EventNamespace :=
  | NsConnAdd (e : ConnAdd)
  | NsConnCloseStream (e : ConnCloseStream)
  | NsReportedHost (e : ReportedHost)
  | NsShutdown (err : error)
  | NsStateTableRequest.

Inductive ns_output :=
  | NONew (ns : string) (opts : Options)
  | NOEnqueue (ns : string) (e : EventDisseminator)
  | NOClose (ns : string) (err : error)
  | NOState (tables : gmap string StatePlacementTable).

Definition namespaces_New (rf timeout window : Z) : namespaces :=
  {| ns_replicationFactor := rf; ns_disseminationTimeout := timeout;
     ns_disseminationCoalesceWindow := window; disseminators := ∅ |}.

Definition ns_handler := prog namespaces ns_output.

(** [dissLoop.connections++; dissLoop.loop.Enqueue(add)] for the loop of [ns]. *)
Definition attach (ns : string) (connections : N) (add : ConnAdd) : ns_handler :=
  modify (λ n, set_disseminators (<[ns := u64_succ connections]> (disseminators n)) n) ;;;
  emit [NOEnqueue ns (EvConnAdd add)].

Definition ns_handleAdd (add : ConnAdd) : ns_handler :=
  with n do
  let ns := Namespace (InitialHost add) in
  match disseminators n !! ns with
  | None =>
      emit [NONew ns {| o_Namespace := ns; o_ReplicationFactor := ns_replicationFactor n;
                        o_DisseminationTimeout := ns_disseminationTimeout n;
                        o_DisseminationCoalesceWindow := ns_disseminationCoalesceWindow n |}] ;;;
      modify (set_disseminators (<[ns := 0%N]> (disseminators n))) ;;;
      attach ns 0 add
  | Some connections => attach ns connections add
  end.

Definition ns_handleCloseStream (e : ConnCloseStream) : ns_handler :=
  with n do
  let ns := cc_Namespace e in
  match disseminators n !! ns with
  | None => skip
  | Some connections =>
      let connections' := u64_pred connections in
      modify (set_disseminators (<[ns := connections']> (disseminators n))) ;;;
      emit [NOEnqueue ns (EvConnCloseStream e)] ;;;
      when (connections' =? 0)%N
        (modify (λ n, set_disseminators (delete ns (disseminators n)) n) ;;;
         emit [NOClose ns (cc_Error e)])
  end.

Definition ns_handleReportedHost (report : ReportedHost) : ns_handler :=
  with n do
  match disseminators n !! Namespace (rh_Host report) with
  | None => skip
  | Some _ => emit [NOEnqueue (Namespace (rh_Host report)) (EvReportedHost report)]
  end.

Definition ns_handleShutdown (err : error) : ns_handler :=
  (with n do emit ((λ ns, NOClose ns err) <$> (map_to_list (disseminators n)).*1)) ;;;
  modify (set_disseminators ∅).

Section namespaces_loop.

(** [answer ns]: the table the loop of [ns] passes to the callback of its
    [NamespaceTableRequest]. *)
Variable answer : string → StatePlacementTable.

Definition handleStatePlacement : ns_handler :=
  with n do
  let nss := (map_to_list (disseminators n)).*1 in
  emit ((λ ns, NOEnqueue ns EvNamespaceTableRequest) <$> nss) ;;;
  emit [NOState (list_to_map ((λ ns, (ns, answer ns)) <$> nss))].

Definition ns_Handle (event : EventNamespace) : ns_handler :=
  match event with
  | NsConnAdd e => ns_handleAdd e
  | NsConnCloseStream e => ns_handleCloseStream e
  | NsReportedHost e => ns_handleReportedHost e
  | NsShutdown err => ns_handleShutdown err
  | NsStateTableRequest => handleStatePlacement
  end.

(** ** Abstract specification of one namespace *)

(** Connections of [ns] that are open after a history. *)
Definition live_step (ns : string) (k : nat) (e : EventNamespace) : nat :=
  match e with
  | NsConnAdd a => if bool_decide (Namespace (InitialHost a) = ns) then S k else k
  | NsConnCloseStream c => if bool_decide (cc_Namespace c = ns) then pred k else k
  | NsShutdown _ => 0
  | _ => k
  end.

Definition live (ns : string) (es : list EventNamespace) : nat := foldl (live_step ns) 0 es.

(** The events that concern [ns]. *)
Definition concerns (ns : string) (e : EventNamespace) : bool :=
  match e with
  | NsConnAdd a => bool_decide (Namespace (InitialHost a) = ns)
  | NsConnCloseStream c => bool_decide (cc_Namespace c = ns)
  | NsReportedHost r => bool_decide (Namespace (rh_Host r) = ns)
  | NsShutdown _ | NsStateTableRequest => true
  end.

(** The outputs addressed to the loop of [ns]. *)
Definition addressed (ns : string) (o : ns_output) : bool :=
  match o with
  | NONew ns' _ | NOEnqueue ns' _ | NOClose ns' _ => bool_decide (ns' = ns)
  | NOState _ => false
  end.

(** What the router does for [ns] when [k] of its connections are open. *)
Definition ns_spec (opts : Options) (ns : string) (k : nat) (e : EventNamespace) : list ns_output :=
  match e with
  | NsConnAdd a =>
      if bool_decide (Namespace (InitialHost a) = ns)
      then (if decide (k = 0) then [NONew ns opts] else []) ++ [NOEnqueue ns (EvConnAdd a)] else []
  | NsConnCloseStream c =>
      if bool_decide (cc_Namespace c = ns)
      then match k with
           | 0 => []
           | 1 => [NOEnqueue ns (EvConnCloseStream c); NOClose ns (cc_Error c)]
           | _ => [NOEnqueue ns (EvConnCloseStream c)]
           end
      else []
  | NsReportedHost r =>
      if bool_decide (Namespace (rh_Host r) = ns) && bool_decide (k ≠ 0)
      then [NOEnqueue ns (EvReportedHost r)] else []
  | NsShutdown err => if decide (k = 0) then [] else [NOClose ns err]
  | NsStateTableRequest => if decide (k = 0) then [] else [NOEnqueue ns EvNamespaceTableRequest]
  end.

(** The concrete entry of a namespace with [k] open connections. *)
Definition entry (k : nat) : option N := if decide (k = 0) then None else Some (N.of_nat k).

Lemma filter_keys_eq {A} (m : gmap string N) (ns : string) (g : string → A) (P : A → bool) :
  (∀ ns', P (g ns') = bool_decide (ns' = ns)) →
  filter (λ o, P o = true) (g <$> (map_to_list m).*1) = if m !! ns then [g ns] else [].
Proof.
  intros HP. assert (Hl : NoDup (map_to_list m).*1) by apply NoDup_fst_map_to_list.
  assert (Hin : ns ∈ (map_to_list m).*1 ↔ is_Some (m !! ns)).
  { rewrite list_elem_of_fmap. split.
    - intros ([? x] & -> & Hx%elem_of_map_to_list). eauto.
    - intros [x Hx]. exists (ns, x). split; [done|by apply elem_of_map_to_list]. }
  assert (Hg : ∀ l, NoDup l → filter (λ o, P o = true) (g <$> l) = if decide (ns ∈ l) then [g ns] else []).
  { clear -HP. induction l as [|a l IH]; intros Hnd; [done|].
    inversion Hnd as [|? ? Ha Hnd']; subst. rewrite fmap_cons, filter_cons, HP, IH by done.
    destruct (bool_decide_reflect (a = ns)) as [->|Hne].
    - rewrite (decide_True (P := true = true)), (decide_True (P := ns ∈ ns :: l)), decide_False;
        [done|done|left|done].
    - rewrite (decide_False (P := false = true)) by done.
      by rewrite (decide_ext (ns ∈ l) (ns ∈ a :: l)) by set_solver. }
  rewrite Hg by done. destruct (m !! ns) eqn:E; [rewrite decide_True|rewrite decide_False]; try done.
  - apply Hin. eauto.
  - intros Hc%Hin. by destruct Hc.
Qed.

Definition ns_opts (n : namespaces) (ns : string) : Options :=
  {| o_Namespace := ns; o_ReplicationFactor := ns_replicationFactor n;
     o_DisseminationTimeout := ns_disseminationTimeout n;
     o_DisseminationCoalesceWindow := ns_disseminationCoalesceWindow n |}.

Lemma u64_pred_S k : (N.of_nat (S k) < two64)%N → u64_pred (N.of_nat (S k)) = N.of_nat k.
Proof.
  intros Hk. unfold u64_pred. replace (N.of_nat (S k) + (two64 - 1))%N with (N.of_nat k + 1 * two64)%N by lia.
  rewrite N.Div0.mod_add. apply N.mod_small. lia.
Qed.

Lemma entry_S k : entry (S k) = Some (N.of_nat (S k)).
Proof. done. Qed.

(** One event, seen from namespace [ns]. *)
Definition refines_at (n : namespaces) (e : EventNamespace) (ns : string) (k : nat) : Prop :=
  disseminators (ns_Handle e n).1 !! ns = entry (live_step ns k e) ∧
  filter (λ o, addressed ns o = true) (ns_Handle e n).2 = ns_spec (ns_opts n ns) ns k e.

Lemma filter_addressed_other ns os :
  Forall (λ o, addressed ns o = false) os → filter (λ o, addressed ns o = true) os = [].
Proof.
  induction 1 as [|o os Ho Hos IH]; [done|]. rewrite filter_cons, Ho, decide_False by done. done.
Qed.

Lemma refines_add n a ns k :
  disseminators n !! ns = entry k → (N.of_nat k + 1 < two64)%N → refines_at n (NsConnAdd a) ns k.
Proof.
  intros Hk Hb. unfold refines_at. cbn [ns_Handle]. unfold ns_handleAdd, attach, get. simpl.
  case_bool_decide as Hns.
  - rewrite Hns, Hk. unfold entry. destruct (decide (k = 0)) as [->|Hne].
    + rewrite !seqp_eq. simpl. rewrite lookup_insert_eq. split; [done|].
      rewrite !filter_cons, filter_nil, !decide_True by (by apply bool_decide_eq_true_2). done.
    + rewrite seqp_eq. simpl. rewrite lookup_insert_eq. split.
      * unfold u64_succ. rewrite N.mod_small by lia. f_equal. lia.
      * rewrite filter_cons, filter_nil, decide_True by (by apply bool_decide_eq_true_2). done.
  - destruct (disseminators n !! Namespace (InitialHost a)); rewrite !seqp_eq; simpl;
      rewrite ?lookup_insert_ne by done; (split; [done|]); apply filter_addressed_other;
      repeat constructor; by apply bool_decide_eq_false_2.
Qed.

Lemma refines_close n c ns k :
  disseminators n !! ns = entry k → (N.of_nat k + 1 < two64)%N → refines_at n (NsConnCloseStream c) ns k.
Proof.
  intros Hk Hb. unfold refines_at. cbn [ns_Handle]. unfold ns_handleCloseStream, get. simpl.
  case_bool_decide as Hns.
  - rewrite Hns, Hk. destruct k as [|k]; [done|]. rewrite entry_S, u64_pred_S by lia.
    rewrite !seqp_eq. simpl. destruct k as [|k]; simpl; rewrite ?seqp_eq; simpl.
    + rewrite lookup_delete_eq. split; [done|].
      rewrite !filter_cons, filter_nil, !decide_True by (by apply bool_decide_eq_true_2). done.
    + rewrite lookup_insert_eq. split; [done|].
      rewrite filter_cons, filter_nil, decide_True by (by apply bool_decide_eq_true_2). done.
  - destruct (disseminators n !! cc_Namespace c); [|done]. rewrite !seqp_eq. simpl.
    destruct (_ =? _)%N; simpl; rewrite ?seqp_eq; simpl; rewrite ?lookup_delete_ne, ?lookup_insert_ne by done;
      (split; [done|]); apply filter_addressed_other; repeat constructor; by apply bool_decide_eq_false_2.
Qed.

Lemma refines_Handle n e ns k :
  disseminators n !! ns = entry k → (N.of_nat k + 1 < two64)%N → refines_at n e ns k.
Proof.
  intros Hk Hb. destruct e as [a|c|r|err|]; [by apply refines_add|by apply refines_close|..];
    unfold refines_at; cbn [ns_Handle].
  - unfold ns_handleReportedHost, get. simpl. case_bool_decide as Hns.
    + rewrite Hns, Hk. unfold entry. destruct (decide (k = 0)) as [->|Hne]; [done|].
      rewrite bool_decide_eq_true_2 by done. simpl. split; [by rewrite Hk; unfold entry; rewrite decide_False|].
      rewrite filter_cons, filter_nil, decide_True by (by apply bool_decide_eq_true_2). done.
    + destruct (disseminators n !! Namespace (rh_Host r)); [|done]. simpl. split; [done|].
      apply filter_addressed_other. repeat constructor. by apply bool_decide_eq_false_2.
  - unfold ns_handleShutdown, get. rewrite seqp_eq. simpl. rewrite lookup_empty. split; [done|].
    rewrite app_nil_r, (filter_keys_eq _ ns) by done. rewrite Hk. unfold entry. by case_decide.
  - unfold handleStatePlacement, get. rewrite seqp_eq. simpl. split; [done|].
    rewrite list.filter_app, (filter_keys_eq _ ns) by done. rewrite Hk. unfold entry. by case_decide.
Qed.

Lemma ns_Handle_opts n e ns : ns_opts (ns_Handle e n).1 ns = ns_opts n ns.
Proof.
  destruct e as [a|c|r|err|]; cbn [ns_Handle]; unfold ns_handleAdd, ns_handleCloseStream,
    ns_handleReportedHost, attach, get, when; rewrite ?seqp_eq; try done; case_match; try done;
    rewrite !seqp_eq; simpl; try done; by destruct (_ =? _)%N.
Qed.

(** The outputs of the specification over a history. *)
Fixpoint ns_spec_run (opts : Options) (ns : string) (k : nat) (es : list EventNamespace) : list ns_output :=
  match es with
  | [] => []
  | e :: es' => ns_spec opts ns k e ++ ns_spec_run opts ns (live_step ns k e) es'
  end.

Lemma live_step_le ns k e : live_step ns k e ≤ S k.
Proof. destruct e; simpl; repeat case_match; lia. Qed.

Lemma ns_run_refines es n ns k :
  disseminators n !! ns = entry k → (N.of_nat k + N.of_nat (length es) < two64)%N →
  disseminators (run ns_Handle es n).1 !! ns = entry (foldl (live_step ns) k es) ∧
  filter (λ o, addressed ns o = true) (run ns_Handle es n).2 = ns_spec_run (ns_opts n ns) ns k es.
Proof.
  revert n k; induction es as [|e es IH]; intros n k Hk Hb; [done|]. cbn [length] in Hb.
  destruct (refines_Handle n e ns k Hk) as [H1 H2]; [lia|]. cbn [run]. rewrite seqp_eq. cbn [fst snd].
  pose proof (live_step_le ns k e).
  destruct (IH _ _ H1) as [H3 H4]; [lia|]. split; [exact H3|].
  rewrite list.filter_app, H2, H4, ns_Handle_opts. done.
Qed.

Lemma ns_spec_run_concerns opts ns k es :
  ns_spec_run opts ns k es = ns_spec_run opts ns k (filter (λ e, concerns ns e = true) es).
Proof.
  revert k; induction es as [|e es IH]; intros k; [done|]. rewrite filter_cons.
  destruct (concerns ns e) eqn:E; [rewrite decide_True|rewrite decide_False]; try done; simpl; [by rewrite IH|].
  rewrite IH. destruct e; simpl in *; by rewrite ?E.
Qed.

(** The namespace router refines its specification: over fewer than 2^64 events, a
    disseminator exists for a namespace exactly while connections of that namespace are
    open, with their number as its counter, and the events routed to the namespace are those
    of the abstract router, which keeps only that number. *)
Theorem namespaces_router_refines rf timeout window es ns :
  (N.of_nat (length es) < two64)%N →
  let n0 := namespaces_New rf timeout window in
  let '(n, os) := run ns_Handle es n0 in
  disseminators n !! ns = entry (live ns es) ∧
  filter (λ o, addressed ns o = true) os = ns_spec_run (ns_opts n0 ns) ns 0 es.
Proof.
  intros Hb n0. pose proof (ns_run_refines es n0 ns 0) as H. unfold live.
  destruct (run ns_Handle es n0). apply H; [done|]. lia.
Qed.

(** Namespaces are isolated: what the router sends to the disseminator of a namespace is the
    same as if the events of all other namespaces had not happened. *)
Theorem namespaces_isolated rf timeout window es ns :
  (N.of_nat (length es) < two64)%N →
  let n0 := namespaces_New rf timeout window in
  filter (λ o, addressed ns o = true) (run ns_Handle es n0).2 =
  filter (λ o, addressed ns o = true) (run ns_Handle (filter (λ e, concerns ns e = true) es) n0).2.
Proof.
  intros Hb n0. pose proof (length_filter (λ e, concerns ns e = true) es) as Hf.
  destruct (ns_run_refines es n0 ns 0) as [_ ->]; [done|lia|].
  destruct (ns_run_refines (filter (λ e, concerns ns e = true) es) n0 ns 0) as [_ ->]; [done|lia|].
  apply ns_spec_run_concerns.
Qed.

End namespaces_loop.

(** ** Witnesses *)

Definition demo_ns_host (ns : string) : Host :=
  {| Name := "10.0.0.1:50002"; Port := 50002; Load := 0; Entities := ["t1"]; Id := "app";
     Pod := EmptyString; ApiLevel := 20; Namespace := ns; Operation := REPORT; Version := None |}.

Definition demo_ns_events : list EventNamespace :=
  [NsConnAdd {| ca_conn := 0; InitialHost := demo_ns_host "a" |};
   NsConnAdd {| ca_conn := 1; InitialHost := demo_ns_host "b" |};
   NsConnCloseStream {| cc_StreamIDx := 0; cc_Namespace := "a"; cc_Error := ErrOther "EOF" |}].

Definition demo_answer : string → StatePlacementTable := λ _, mkStatePlacementTable 0 [].

Lemma namespaces_router_refines_witness :
  disseminators (run (ns_Handle demo_answer) demo_ns_events (namespaces_New 100 5 0)).1 !! "a" = None ∧
  disseminators (run (ns_Handle demo_answer) demo_ns_events (namespaces_New 100 5 0)).1 !! "b" = Some 1%N.
Proof.
  pose proof (namespaces_router_refines demo_answer 100 5 0 demo_ns_events "a" ltac:(vm_compute; reflexivity)) as Ha.
  pose proof (namespaces_router_refines demo_answer 100 5 0 demo_ns_events "b" ltac:(vm_compute; reflexivity)) as Hb.
  cbv zeta in Ha, Hb. destruct (run _ _ _) as [n os]. exact (conj (proj1 Ha) (proj1 Hb)).
Defined.

Lemma namespaces_isolated_witness :
  length (filter (λ o, addressed "a" o = true)
    (run (ns_Handle demo_answer) demo_ns_events (namespaces_New 100 5 0)).2) = 4.
Proof.
  rewrite (namespaces_isolated demo_answer 100 5 0 demo_ns_events "a") by (vm_compute; reflexivity).
  vm_compute. reflexivity.
Defined.
