(* ===== verification/HostAuthz.v ===== *)
(** * Authorization of actor host reports
      (pkg/actors/hostauthz/hostauthz.go, pkg/placement/internal/authorizer/authorizer.go)

    Every report is checked against the SPIFFE identity of the caller before
    it reaches a placement loop.  The identity comes from the security handler:
    [caller] is [None] when mTLS is disabled, [Some None] when no client ID can
    be read from the context, [Some (Some id)] otherwise. *)

From Stdlib Require Import Ascii.
From S2P Require Import Prelude GoLib PlacementStore.

(** ** Definitions *)

(** [strings.HasPrefix] *)
Definition HasPrefix (s p : string) : bool := String.prefix p s.

Record Report := mkReport { AppID : string; r_Namespace : string; ActorTypes : list string }.

Record SpiffeID := mkSpiffeID { id_AppID : string; id_Namespace : string }.

Inductive authz_error :=
  | Unauthenticated
  | AppIDMismatch (reported actual : string)
  | NamespaceMismatch (reported actual : string)
  | EntityNotAllowed (entity appID ns : string)
  | InvalidArgument (msg : string).

Definition internalActorTypePrefix : string := "dapr.internal.".

(** The pair [(internal, owned)]. *)
Definition InternalActorType (actorType ns appID : string) : bool * bool :=
  if negb (String.eqb actorType "dapr.internal") && negb (HasPrefix actorType internalActorTypePrefix)
  then (false, false)
  else if String.eqb ns EmptyString || String.eqb appID EmptyString then (true, false)
  else
    let owner := String.append internalActorTypePrefix (String.append ns (String.append "." appID)) in
    (true, String.eqb actorType owner || HasPrefix actorType (String.append owner ".")).

(** The loop of [Authorize] over the actor types. *)
Fixpoint check_types (r : Report) (ts : list string) : option authz_error :=
  match ts with
  | [] => None
  | t :: ts' =>
      let '(internal, owned) := InternalActorType t (r_Namespace r) (AppID r) in
      if internal && negb owned then Some (EntityNotAllowed t (AppID r) (r_Namespace r))
      else check_types r ts'
  end.

Definition Authorize (caller : option (option SpiffeID)) (r : Report) : option authz_error :=
  match caller with
  | Some None => Some Unauthenticated
  | Some (Some id) =>
      if negb (String.eqb (AppID r) (id_AppID id)) then Some (AppIDMismatch (AppID r) (id_AppID id))
      else if negb (String.eqb (r_Namespace r) (id_Namespace id))
      then Some (NamespaceMismatch (r_Namespace r) (id_Namespace id))
      else check_types r (ActorTypes r)
  | None => check_types r (ActorTypes r)
  end.

(** [Authorizer.Host]; [msg] is [None] for a nil message. *)
Definition Authorizer_Host (caller : option (option SpiffeID)) (msg : option Host) : option authz_error :=
  match msg with
  | None => Some (InvalidArgument "received nil host report")
  | Some h =>
      if bool_decide (Operation h = UNKNOWN) && bool_decide (Version h ≠ None)
      then Some (InvalidArgument "both operation and version must be set or both must be unset")
      else if (String.length (Id h) =? 0) || (String.length (Namespace h) =? 0)
      then Some (InvalidArgument "host ID and namespace must be provided")
      else Authorize caller {| AppID := Id h; r_Namespace := Namespace h; ActorTypes := Entities h |}
  end.

(** ** Lemmas *)

Lemma prefix_spec p s : String.prefix p s = true ↔ ∃ r, s = String.append p r.
Proof.
  revert s; induction p as [|c p IH]; intros s.
  - split; [intros _; by exists s|by destruct s].
  - destruct s as [|c' s]; simpl; [split; [done|intros [r Hr]; discriminate Hr]|].
    destruct (Ascii.ascii_dec c c') as [->|Hne].
    + rewrite IH. split; intros [r Hr]; exists r; [by rewrite Hr|by injection Hr].
    + split; [done|]. intros [r Hr]. injection Hr as Hc _. done.
Qed.

Lemma append_inj_l p s1 s2 : String.append p s1 = String.append p s2 → s1 = s2.
Proof. induction p as [|c p IH]; [done|]. intros H. apply IH. by injection H. Qed.

Fixpoint no_dot (s : string) : bool :=
  match s with
  | EmptyString => true
  | String c s' => negb (Ascii.eqb c "."%char) && no_dot s'
  end.

(** [s] is [a] alone or [a] followed by a dot. *)
Definition headed (a s : string) : Prop := s = a ∨ ∃ r, s = String.append a (String "." r).

Lemma headed_inj a1 a2 s : no_dot a1 = true → no_dot a2 = true → headed a1 s → headed a2 s → a1 = a2.
Proof.
  revert a2 s; induction a1 as [|c a1 IH]; intros [|c2 a2] s H1 H2 Hh1 Hh2; [done|..].
  - exfalso. simpl in H2. destruct Hh1 as [->|[r1 ->]], Hh2 as [E|[r2 E]]; try discriminate E;
      injection E as Ec _; subst c2; by rewrite Ascii.eqb_refl in H2.
  - exfalso. simpl in H1. destruct Hh2 as [->|[r1 ->]], Hh1 as [E|[r2 E]]; try discriminate E;
      injection E as Ec _; subst c; by rewrite Ascii.eqb_refl in H1.
  - simpl in H1, H2. apply andb_prop in H1 as [_ H1], H2 as [_ H2].
    destruct s as [|c0 s]; [destruct Hh1 as [E|[r E]]; discriminate E|].
    assert (Ht : ∀ c a, headed (String c a) (String c0 s) → c = c0 ∧ headed a s).
    { intros c' a [E|[r E]]; injection E as Ec Es; subst; (split; [done|]); [by left|right; by exists r]. }
    apply Ht in Hh1 as [-> Hh1], Hh2 as [-> Hh2]. f_equal. by apply (IH a2 s).
Qed.

Lemma owned_headed t ns a :
  (InternalActorType t ns a).2 = true ↔
  ns ≠ EmptyString ∧ a ≠ EmptyString ∧
  ∃ s, t = String.append internalActorTypePrefix (String.append ns (String "." s)) ∧ headed a s.
Proof.
  unfold InternalActorType. set (P := internalActorTypePrefix). split.
  - destruct (negb _ && negb _); [done|].
    destruct (String.eqb_spec ns EmptyString); [done|]. destruct (String.eqb_spec a EmptyString); [done|].
    simpl. intros [E%String.eqb_eq|E]%orb_prop; (split_and!; [done..|]).
    + exists a. split; [exact E|by left].
    + unfold HasPrefix in E. apply prefix_spec in E as [r ->]. exists (String.append a (String "." r)).
      split; [|right; by exists r]. by rewrite !string_append_assoc.
  - intros (Hns & Ha & s & -> & Hs).
    assert (HP : HasPrefix (String.append P (String.append ns (String "." s))) P = true).
    { apply prefix_spec. eauto. }
    rewrite HP, andb_false_r. apply String.eqb_neq in Hns as ->, Ha as ->. simpl.
    apply orb_true_intro. destruct Hs as [->|[r ->]].
    + left. apply String.eqb_refl.
    + right. apply prefix_spec. exists r. by rewrite !string_append_assoc.
Qed.

Lemma check_types_None r ts :
  check_types r ts = None ↔
  ∀ t, t ∈ ts → (InternalActorType t (r_Namespace r) (AppID r)).1 = true →
       (InternalActorType t (r_Namespace r) (AppID r)).2 = true.
Proof.
  induction ts as [|t ts IH]; simpl; [split; [set_solver|done]|].
  destruct (InternalActorType t (r_Namespace r) (AppID r)) as [i o] eqn:E.
  destruct (i && negb o) eqn:Eb.
  - apply andb_prop in Eb as [-> ->%negb_true_iff]. split; [done|]. intros H.
    specialize (H t ltac:(left)). rewrite E in H. by specialize (H eq_refl).
  - rewrite IH. split; [|set_solver]. intros H t' [->|Ht']%elem_of_cons; [|auto].
    rewrite E. simpl. intros ->. by destruct o.
Qed.

(** The reserved actor types. *)
Definition reserved (t : string) : Prop :=
  t = "dapr.internal" ∨ ∃ r, t = String.append internalActorTypePrefix r.

(** [t] belongs to app [a] of namespace [ns]. *)
Definition belongs (ns a t : string) : Prop :=
  ∃ s, t = String.append internalActorTypePrefix (String.append ns (String "." s)) ∧ headed a s.

Lemma internal_spec t ns a : (InternalActorType t ns a).1 = true ↔ reserved t.
Proof.
  unfold InternalActorType, HasPrefix, reserved. rewrite <-(prefix_spec internalActorTypePrefix t).
  destruct (String.eqb_spec t "dapr.internal") as [->|Hne]; simpl.
  - split; [by left|by repeat case_match].
  - destruct (String.prefix _ t); simpl; [split; [by right|by repeat case_match]|].
    split; [done|by intros [?|?]].
Qed.

Lemma Authorize_None caller r :
  r_Namespace r ≠ EmptyString → AppID r ≠ EmptyString →
  Authorize caller r = None ↔
  (∀ o, caller = Some o → ∃ id, o = Some id ∧ AppID r = id_AppID id ∧ r_Namespace r = id_Namespace id) ∧
  (∀ t, t ∈ ActorTypes r → reserved t → belongs (r_Namespace r) (AppID r) t).
Proof.
  intros Hns Ha.
  assert (Hct : check_types r (ActorTypes r) = None ↔
    ∀ t, t ∈ ActorTypes r → reserved t → belongs (r_Namespace r) (AppID r) t).
  { rewrite check_types_None. setoid_rewrite internal_spec. setoid_rewrite owned_headed. naive_solver. }
  unfold Authorize. destruct caller as [[id|]|].
  - destruct (String.eqb_spec (AppID r) (id_AppID id)) as [E1|E1]; simpl;
      [|split; [done|]; intros [H _]; destruct (H _ eq_refl) as (? & [= <-] & ? & _); done].
    destruct (String.eqb_spec (r_Namespace r) (id_Namespace id)) as [E2|E2]; simpl;
      [|split; [done|]; intros [H _]; destruct (H _ eq_refl) as (? & [= <-] & _ & ?); done].
    rewrite Hct. split; [|by intros [_ ?]]. intros H. split; [|done]. intros o [= <-]. eauto.
  - split; [done|]. intros [H _]. by destruct (H _ eq_refl) as (? & ? & _).
  - rewrite Hct. naive_solver.
Qed.

(** ** Properties *)

(** Host authorization is exact: a report is accepted if and only if it has an app ID and a
    namespace, an unknown operation carries no version, with mTLS the caller's SPIFFE
    identity has that app ID and namespace, and every reserved (dapr.internal.) actor type
    it lists belongs to that namespace and app. *)
Theorem authorizer_host_exact caller h :
  Authorizer_Host caller (Some h) = None ↔
  (Operation h = UNKNOWN → Version h = None) ∧ Id h ≠ EmptyString ∧ Namespace h ≠ EmptyString ∧
  (∀ o, caller = Some o → ∃ id, o = Some id ∧ Id h = id_AppID id ∧ Namespace h = id_Namespace id) ∧
  (∀ t, t ∈ Entities h → reserved t → belongs (Namespace h) (Id h) t).
Proof.
  unfold Authorizer_Host.
  assert (Hlen : ∀ s, (String.length s =? 0) = false ↔ s ≠ EmptyString) by (by intros []).
  destruct (bool_decide (Operation h = UNKNOWN) && bool_decide (Version h ≠ None)) eqn:Hv.
  { apply andb_prop in Hv as [?%bool_decide_eq_true ?%bool_decide_eq_true]. naive_solver. }
  apply andb_false_iff in Hv as Hv'.
  assert (HV : Operation h = UNKNOWN → Version h = None).
  { intros Hop. destruct Hv' as [?%bool_decide_eq_false|Hn%bool_decide_eq_false]; [done|].
    destruct (Version h); [|done]. by destruct Hn. }
  destruct (_ || _) eqn:Hl.
  - split; [done|]. intros (_ & Hid & Hns & _). apply Hlen in Hid, Hns. by rewrite Hid, Hns in Hl.
  - apply orb_false_elim in Hl as [Hid%Hlen Hns%Hlen]. rewrite Authorize_None by done. simpl. naive_solver.
Qed.

(** An internal actor type has one owner: within a namespace no two app IDs without dots
    both own the same internal actor type. *)
Theorem internal_type_owner_unique t ns a1 a2 :
  no_dot a1 = true → no_dot a2 = true →
  (InternalActorType t ns a1).2 = true → (InternalActorType t ns a2).2 = true → a1 = a2.
Proof.
  intros H1 H2 (_ & _ & s1 & -> & Hs1)%owned_headed (_ & _ & s2 & E & Hs2)%owned_headed.
  apply append_inj_l, append_inj_l in E. injection E as <-. by apply (headed_inj a1 a2 s1).
Qed.

Lemma internal_type_owner_unique_witness :
  (InternalActorType "dapr.internal.default.app.workflow" "default" "app").2 = true ∧
  ∀ a, no_dot a = true → (InternalActorType "dapr.internal.default.app.workflow" "default" a).2 = true → a = "app".
Proof.
  split; [reflexivity|]. intros a H1 H2.
  apply (internal_type_owner_unique "dapr.internal.default.app.workflow" "default" a "app" H1);
    [reflexivity|exact H2|reflexivity].
Defined.
