(* ===== verification/ConsistentHash.v ===== *)
(** * The consistent-hash ring
      (pkg/placement/hashing/consistent_hash.go)

    The ring of virtual nodes sidecars use to place actors, and the cache of
    virtual-node hashes.  The hash (the first eight bytes of BLAKE2b-512) is a
    parameter.  A result of [None] is a run-time panic.  Iterations over
    [loadMap] take the visiting order as an argument. *)

From stdpp Require Import pretty.
From S2P Require Import Prelude GoLib.

(** ** Data *)

Record Host := mkHost { Name : string; Port : Z; Load : Z; AppID : string }.

Record Consistent := mkConsistent {
  hosts : gmap N string;
  sortedSet : list N;
  loadMap : gmap string Host;
  totalLoad : Z;
  replicationFactor : Z
}.

Record VirtualNodesCache := mkVirtualNodesCache { data : gmap Z (gmap string (list N)) }.

Inductive hash_error := ErrNoHosts.

Definition set_Load (v : Z) (h : Host) : Host :=
  {| Name := Name h; Port := Port h; Load := v; AppID := AppID h |}.

Definition set_ring (m : gmap N string) (ss : list N) (c : Consistent) : Consistent :=
  {| hosts := m; sortedSet := ss; loadMap := loadMap c; totalLoad := totalLoad c;
     replicationFactor := replicationFactor c |}.

Definition set_loads (m : gmap string Host) (t : Z) (c : Consistent) : Consistent :=
  {| hosts := hosts c; sortedSet := sortedSet c; loadMap := m; totalLoad := t;
     replicationFactor := replicationFactor c |}.

(** ** Operations that do not hash *)

Definition NewHost (name id : string) (load port : Z) : Host :=
  {| Name := name; Load := load; Port := port; AppID := id |}.

Definition NewConsistentHash (rf : Z) : Consistent :=
  {| hosts := ∅; sortedSet := []; loadMap := ∅; totalLoad := 0; replicationFactor := rf |}.

Definition NewVirtualNodesCache : VirtualNodesCache := {| data := ∅ |}.

(** [Host.Equal], [None] being a nil pointer; two non-nil pointers are compared
    by value. *)
Definition Host_Equal (h o : option Host) : bool :=
  match h, o with
  | Some h, Some o =>
      String.eqb (Name h) (Name o) && (Port h =? Port o)%Z && String.eqb (AppID h) (AppID o)
  | None, None => true
  | _, _ => false
  end.

(** [Consistent.Equal] on non-nil rings. *)
Definition Consistent_Equal (c o : Consistent) : bool :=
  if negb (replicationFactor c =? replicationFactor o)%Z then false
  else if negb (size (loadMap c) =? size (loadMap o)) then false
  else forallb (λ kv, match loadMap o !! kv.1 with
                      | None => false
                      | Some ov => Host_Equal (Some kv.2) (Some ov)
                      end) (map_to_list (loadMap c)).

Definition Add (c : Consistent) (host id : string) (port : Z) : Consistent * bool :=
  match loadMap c !! host with
  | Some _ => (c, true)
  | None =>
      (set_loads (<[host := {| Name := host; AppID := id; Load := 0; Port := port |}]> (loadMap c))
         (totalLoad c) c, false)
  end.

Definition search (c : Consistent) (key : N) : nat :=
  let idx := sort_Search (length (sortedSet c)) (λ i, (key <=? nth i (sortedSet c) 0)%N) in
  if length (sortedSet c) <=? idx then 0 else idx.

Definition UpdateLoad (c : Consistent) (host : string) (load : Z) : Consistent :=
  match loadMap c !! host with
  | None => c
  | Some h =>
      set_loads (<[host := set_Load load h]> (loadMap c))
        (i64_wrap (i64_wrap (totalLoad c - Load h) + load)) c
  end.

(** [Inc] dereferences the host without a check. *)
Definition Inc (c : Consistent) (host : string) : option Consistent :=
  match loadMap c !! host with
  | None => None
  | Some h =>
      Some (set_loads (<[host := set_Load (i64_wrap (Load h + 1)) h]> (loadMap c))
              (i64_wrap (totalLoad c + 1)) c)
  end.

Definition Done (c : Consistent) (host : string) : Consistent :=
  match loadMap c !! host with
  | None => c
  | Some h =>
      set_loads (<[host := set_Load (i64_wrap (Load h - 1)) h]> (loadMap c))
        (i64_wrap (totalLoad c - 1)) c
  end.

(** The binary search of [delSlice]; [fuel] bounds the iterations, the result
    is the index found or -1. *)
Fixpoint delSlice_loop (fuel : nat) (ss : list N) (val : N) (l r : Z) : Z :=
  match fuel with
  | O => -1
  | S fuel' =>
      if (l <=? r)%Z then
        let m := ((l + r) / 2)%Z in
        let x := nth (Z.to_nat m) ss 0%N in
        if (x =? val)%N then m
        else if (x <? val)%N then delSlice_loop fuel' ss val (m + 1) r
        else delSlice_loop fuel' ss val l (m - 1)
      else -1
  end%Z.

Definition delSlice (ss : list N) (val : N) : list N :=
  let idx := delSlice_loop (length ss) ss val 0 (Z.of_nat (length ss) - 1) in
  if (idx =? -1)%Z then ss else take (Z.to_nat idx) ss ++ drop (Z.to_nat idx + 1) ss.

Definition Hosts (c : Consistent) : list string := (map_to_list (loadMap c)).*1.

Definition GetLoads (c : Consistent) : gmap string Z := Load <$> loadMap c.

Definition VirtualNodes (c : Consistent) : gmap N string := hosts c.

Definition SortedSet (c : Consistent) : list N := sortedSet c.

(** ** Operations that hash *)

Section hashing.
Variable hash : string → N.

(** The hashes of the virtual nodes of [host]. *)
Definition vnodes (rf : Z) (host : string) : list N :=
  (λ i, hash (String.append host (pretty i))) <$> seq 0 (Z.to_nat rf).

Definition cached (hc : VirtualNodesCache) (rf : Z) (host : string) : option (list N) :=
  match data hc !! rf with Some hm => hm !! host | None => None end.

(** [make([]uint64, rf)] panics for a negative length. *)
Definition setHashes (hc : VirtualNodesCache) (rf : Z) (host : string)
    : option (VirtualNodesCache * list N) :=
  match cached hc rf host with
  | Some hashes => Some (hc, hashes)
  | None =>
      if (rf <? 0)%Z then None
      else
        let hm := default ∅ (data hc !! rf) in
        Some ({| data := <[rf := <[host := vnodes rf host]> hm]> (data hc) |}, vnodes rf host)
  end.

Definition GetHashes (hc : VirtualNodesCache) (rf : Z) (host : string)
    : option (VirtualNodesCache * list N) :=
  match cached hc rf host with
  | Some hashes => Some (hc, hashes)
  | None => setHashes hc rf host
  end.

(** The loop of [NewFromExisting] over the host names. *)
Fixpoint ring_loop (hc : VirtualNodesCache) (rf : Z) (order : list string)
    (m : gmap N string) (ss : list N) : option (VirtualNodesCache * gmap N string * list N) :=
  match order with
  | [] => Some (hc, m, ss)
  | hostName :: order' =>
      match GetHashes hc rf hostName with
      | None => None
      | Some (hc', hashes) =>
          ring_loop hc' rf order' (foldl (λ m h, <[h := hostName]> m) m hashes) (ss ++ hashes)
      end
  end.

Definition NewFromExisting (lm : gmap string Host) (rf : Z) (hc : VirtualNodesCache)
    (order : list string) : option (VirtualNodesCache * Consistent) :=
  match ring_loop hc rf order ∅ [] with
  | None => None
  | Some (hc', m, ss) =>
      Some (hc', {| hosts := m; sortedSet := sort_u64 ss; loadMap := lm; totalLoad := 0;
                    replicationFactor := rf |})
  end.

Definition Get (c : Consistent) (key : string) : option (hash_error + string) :=
  if size (hosts c) =? 0 then Some (inl ErrNoHosts)
  else
    match sortedSet c !! search c (hash key) with
    | None => None
    | Some v => Some (inr (default EmptyString (hosts c !! v)))
    end.

(** The host pointer is nil when the name is not in [loadMap]. *)
Definition GetHost (c : Consistent) (key : string) : option (hash_error + option Host) :=
  match Get c key with
  | None => None
  | Some (inl err) => Some (inl err)
  | Some (inr h) => Some (inr (loadMap c !! h))
  end.

(** [for i := range int(rf) { h := hash(...); delete(c.hosts, h); c.delSlice(h) }] *)
Definition remove_vnode (c : Consistent) (h : N) : Consistent :=
  set_ring (delete h (hosts c)) (delSlice (sortedSet c) h) c.

Definition Remove (c : Consistent) (host : string) : Consistent * bool :=
  let c' := foldl remove_vnode c (vnodes (replicationFactor c) host) in
  (set_loads (delete host (loadMap c')) (totalLoad c') c', true).

End hashing.

(** ** Lemmas: binary searches *)

(** [v] is the first of [l] at or after [k] going clockwise. *)
Definition successor (k : N) (l : list N) (v : N) : Prop :=
  v ∈ l ∧
  (((k ≤ v)%N ∧ ∀ w, w ∈ l → (k ≤ w)%N → (v ≤ w)%N) ∨
   ((∀ w, w ∈ l → (w < k)%N) ∧ ∀ w, w ∈ l → (v ≤ w)%N)).

Lemma successor_unique k l v1 v2 : successor k l v1 → successor k l v2 → v1 = v2.
Proof.
  intros [Hin1 H1] [Hin2 H2]. destruct H1 as [[Hk1 Hm1]|[Ha1 Hm1]], H2 as [[Hk2 Hm2]|[Ha2 Hm2]].
  - specialize (Hm1 v2 Hin2 Hk2). specialize (Hm2 v1 Hin1 Hk1). lia.
  - specialize (Ha2 v1 Hin1). lia.
  - specialize (Ha1 v2 Hin2). lia.
  - specialize (Hm1 v2 Hin2). specialize (Hm2 v1 Hin1). lia.
Qed.

Lemma successor_perm k l l' v : l ≡ₚ l' → successor k l v → successor k l' v.
Proof. intros Hp. unfold successor. by setoid_rewrite Hp. Qed.

(** Dropping other elements keeps the successor. *)
Lemma successor_mono k l l' v : l' ⊆ l → v ∈ l' → successor k l v → successor k l' v.
Proof. intros Hsub Hin [_ H]. split; [done|]. destruct H as [[? H]|[? H]]; [left|right]; (split; [by auto|]); auto. Qed.

Lemma lookup_nth {A} (l : list A) i d : i < length l → l !! i = Some (nth i l d).
Proof. intros Hi. destruct (nth_lookup_or_length l i d); [done|lia]. Qed.

Lemma sorted_nth_le ss i j d :
  StronglySorted N.le ss → i ≤ j → j < length ss → (nth i ss d ≤ nth j ss d)%N.
Proof.
  intros Hs Hij Hj. destruct (decide (i = j)) as [->|Hne]; [done|].
  apply (StronglySorted_lookup N.le ss Hs i j); [lia|apply lookup_nth; lia..].
Qed.

Lemma search_successor c k :
  StronglySorted N.le (sortedSet c) → sortedSet c ≠ [] →
  ∃ v, sortedSet c !! search c k = Some v ∧ successor k (sortedSet c) v.
Proof.
  intros Hs Hne. set (ss := sortedSet c) in *. unfold search. fold ss.
  destruct (sort_Search_spec (length ss) (λ i, (k <=? nth i ss 0)%N)) as (Hle & Hlow & Hhit).
  { intros a b Hab Hb Ha. apply N.leb_le in Ha. apply N.leb_le.
    pose proof (sorted_nth_le ss a b 0%N Hs Hab Hb). lia. }
  set (r := sort_Search _ _) in *.
  assert (Hlen : 0 < length ss) by (destruct ss; [done|simpl; lia]).
  assert (Hnth : ∀ i, i < length ss → ss !! i = Some (nth i ss 0%N)) by (intros; by apply lookup_nth).
  assert (Hidx : ∀ w, w ∈ ss → ∃ i, i < length ss ∧ w = nth i ss 0%N).
  { intros w [i Hi]%list_elem_of_lookup. exists i. pose proof (lookup_lt_Some _ _ _ Hi) as Hlt.
    split; [done|]. rewrite Hnth in Hi by done. congruence. }
  destruct (Nat.leb_spec (length ss) r) as [Hout|Hin].
  - exists (nth 0 ss 0%N). split; [by apply Hnth|]. split; [by apply list_elem_of_lookup_2 with 0, Hnth|right].
    split; intros w (i & Hi & ->)%Hidx.
    + specialize (Hlow i ltac:(lia)). apply N.leb_gt in Hlow. done.
    + by apply sorted_nth_le; [|lia|].
  - exists (nth r ss 0%N). split; [by apply Hnth|]. split; [by apply list_elem_of_lookup_2 with r, Hnth|left].
    split; [by apply N.leb_le, Hhit|]. intros w (i & Hi & ->)%Hidx Hkw.
    destruct (decide (i < r)) as [Hlt|Hge].
    + specialize (Hlow i Hlt). apply N.leb_gt in Hlow. lia.
    + apply sorted_nth_le; [done|lia|done].
Qed.

Lemma delSlice_loop_spec fuel ss val l r :
  StronglySorted N.le ss → (0 ≤ l)%Z → (r < Z.of_nat (length ss))%Z → (r - l < Z.of_nat fuel)%Z →
  (∀ i, ss !! i = Some val → (l ≤ Z.of_nat i ≤ r)%Z) →
  let idx := delSlice_loop fuel ss val l r in
  (idx = (-1)%Z ∧ val ∉ ss) ∨ ((0 ≤ idx)%Z ∧ ss !! Z.to_nat idx = Some val).
Proof.
  intros Hs. revert l r; induction fuel as [|fuel IH]; intros l r Hl Hr Hf Hin; cbn [delSlice_loop].
  - left. split; [done|]. intros [i Hi]%list_elem_of_lookup. specialize (Hin i Hi). lia.
  - destruct (Z.leb_spec l r) as [Hlr|Hlr].
    2: { left. split; [done|]. intros [i Hi]%list_elem_of_lookup. specialize (Hin i Hi). lia. }
    assert (Hm : (l ≤ (l + r) / 2 ≤ r)%Z).
    { split; [apply Z.div_le_lower_bound|apply Z.div_le_upper_bound]; lia. }
    set (m := ((l + r) / 2)%Z) in *. set (x := nth (Z.to_nat m) ss 0%N).
    assert (Hx : ss !! Z.to_nat m = Some x) by (apply lookup_nth; lia).
    destruct (N.eqb_spec x val) as [Heq|Hne]; [right; split; [lia|by rewrite Hx, Heq]|].
    destruct (N.ltb_spec x val) as [Hlt|Hge]; apply IH; try lia; intros i Hi; specialize (Hin i Hi);
      (split; [|lia]) || (split; [lia|]).
    + destruct (decide (Z.of_nat i ≤ m)%Z) as [Hle|]; [|lia]. exfalso.
      destruct (decide (i = Z.to_nat m)) as [->|]; [rewrite Hx in Hi; by injection Hi|].
      pose proof (StronglySorted_lookup N.le ss Hs i (Z.to_nat m) val x ltac:(lia) Hi Hx) as Hc. lia.
    + destruct (decide (m ≤ Z.of_nat i)%Z) as [Hle|]; [|lia]. exfalso.
      destruct (decide (i = Z.to_nat m)) as [->|]; [rewrite Hx in Hi; by injection Hi|].
      pose proof (StronglySorted_lookup N.le ss Hs (Z.to_nat m) i x val ltac:(lia) Hx Hi) as Hc. lia.
Qed.

(** [delSlice] removes one occurrence. *)
Lemma delSlice_spec ss val :
  StronglySorted N.le ss →
  (val ∉ ss ∧ delSlice ss val = ss) ∨
  (∃ l1 l2, ss = l1 ++ val :: l2 ∧ delSlice ss val = l1 ++ l2).
Proof.
  intros Hs. unfold delSlice.
  destruct (delSlice_loop_spec (length ss) ss val 0 (Z.of_nat (length ss) - 1)) as [[-> Hn]|[Hpos Hi]];
    [done|lia|lia|lia| |by left|].
  - intros i Hi. apply lookup_lt_Some in Hi. lia.
  - right. set (idx := delSlice_loop _ _ _ _ _) in *.
    destruct (Z.eqb_spec idx (-1)); [lia|]. exists (take (Z.to_nat idx) ss), (drop (S (Z.to_nat idx)) ss).
    split; [by apply take_drop_middle, symmetry in Hi|]. by rewrite Nat.add_1_r.
Qed.

Lemma delSlice_sorted ss val : StronglySorted N.le ss → StronglySorted N.le (delSlice ss val).
Proof.
  intros Hs. destruct (delSlice_spec ss val Hs) as [[_ ->]|(l1 & l2 & -> & ->)]; [done|].
  apply StronglySorted_app in Hs as (H1 & H2 & H3). apply StronglySorted_app.
  inversion H3; subst. set_solver.
Qed.

(** ** Lemmas: the ring and the cache *)

Section ring.
Variable hash : string → N.
Notation vnodes := (vnodes hash).

(** The hypothesis under which rings are deterministic: no two virtual nodes of
    the hosts [hs] share a hash. *)
Definition no_collision (rf : Z) (hs : list string) : Prop := NoDup (hs ≫= vnodes rf).

(** Cached hashes are those of the host. *)
Definition cache_valid (hc : VirtualNodesCache) : Prop :=
  ∀ rf host l, cached hc rf host = Some l → l = vnodes rf host.

Lemma GetHashes_spec hc rf host :
  cache_valid hc → (0 ≤ rf)%Z →
  ∃ hc', GetHashes hash hc rf host = Some (hc', vnodes rf host) ∧ cache_valid hc' ∧
         cached hc' rf host = Some (vnodes rf host) ∧
         ∀ rf' host' l, cached hc rf' host' = Some l → cached hc' rf' host' = Some l.
Proof.
  intros Hv Hrf. unfold GetHashes, setHashes. destruct (cached hc rf host) as [l|] eqn:Hc.
  { pose proof (Hv _ _ _ Hc) as ->. exists hc. auto. }
  destruct (Z.ltb_spec rf 0); [lia|]. eexists. split; [done|].
  assert (Hl : ∀ rf' host', cached {| data := <[rf := <[host := vnodes rf host]> (default ∅ (data hc !! rf))]> (data hc) |} rf' host' =
    if decide (rf = rf' ∧ host = host') then Some (vnodes rf host) else cached hc rf' host').
  { intros rf' host'. unfold cached. simpl. rewrite lookup_insert.
    destruct (decide (rf = rf')) as [<-|]; [rewrite lookup_insert; destruct (decide (host = host')) as [<-|]|].
    - by rewrite decide_True.
    - rewrite decide_False by naive_solver. by destruct (data hc !! rf).
    - by rewrite decide_False by naive_solver. }
  split_and!.
  - intros rf' host' l. rewrite Hl. case_decide as E; [destruct E as [<- <-]; by intros [= <-]|apply Hv].
  - by rewrite Hl, decide_True.
  - intros rf' host' l Hx. rewrite Hl. case_decide as E; [destruct E as [<- <-]; congruence|done].
Qed.

Definition ring_map (rf : Z) (order : list string) (m : gmap N string) : gmap N string :=
  foldl (λ m host, foldl (λ m h, <[h := host]> m) m (vnodes rf host)) m order.

Lemma ring_loop_spec hc rf order m ss :
  cache_valid hc → (0 ≤ rf)%Z →
  ∃ hc', ring_loop hash hc rf order m ss = Some (hc', ring_map rf order m, ss ++ (order ≫= vnodes rf)) ∧
         cache_valid hc'.
Proof.
  revert hc m ss; induction order as [|host order IH]; intros hc m ss Hv Hrf; simpl.
  - exists hc. by rewrite app_nil_r.
  - destruct (GetHashes_spec hc rf host Hv Hrf) as (hc1 & -> & Hv1 & _).
    destruct (IH hc1 (foldl (λ m h, <[h := host]> m) m (vnodes rf host)) (ss ++ vnodes rf host) Hv1 Hrf)
      as (hc2 & -> & Hv2).
    exists hc2. by rewrite <-(assoc_L (++)).
Qed.

Lemma foldl_insert_lookup (x : string) l (m : gmap N string) v :
  foldl (λ m h, <[h := x]> m) m l !! v = if decide (v ∈ l) then Some x else m !! v.
Proof.
  revert m; induction l as [|h l IH]; intros m; cbn [foldl].
  - by rewrite decide_False by apply not_elem_of_nil.
  - rewrite IH. case_decide as E1; [by rewrite decide_True by by right|].
    rewrite lookup_insert. case_decide as E2.
    + subst. by rewrite decide_True by left.
    + rewrite decide_False; [done|]. set_solver.
Qed.

Lemma ring_map_lookup rf order m v host :
  no_collision rf order →
  ring_map rf order m !! v = Some host ↔
  (host ∈ order ∧ v ∈ vnodes rf host) ∨ (v ∉ (order ≫= vnodes rf) ∧ m !! v = Some host).
Proof.
  unfold no_collision. revert m; induction order as [|h order IH]; intros m Hnd; simpl.
  - split; [right; split; [apply not_elem_of_nil|done]|]. intros [[?%elem_of_nil _]|[_ ?]]; done.
  - cbn [mbind list_bind] in Hnd. apply list.NoDup_app in Hnd as (Hn1 & Hdis & Hn2).
    fold (order ≫= vnodes rf) in *. unfold ring_map in *. simpl. rewrite (IH _ Hn2), foldl_insert_lookup.
    rewrite elem_of_cons, elem_of_app. split.
    + intros [[Ho Hv]|[Hv Hm]]; [left; auto|]. case_decide as E; [injection Hm as ->; left; auto|].
      right. split; [by intros [?|?]|done].
    + intros [[[->|Ho] Hv]|[Hv Hm]]; [|left; auto|].
      * right. split; [by apply Hdis|]. by rewrite decide_True.
      * right. split; [naive_solver|]. rewrite decide_False by naive_solver. done.
Qed.

(** The ring built for the hosts [hs]. *)
Definition is_ring (rf : Z) (hs : list string) (c : Consistent) : Prop :=
  replicationFactor c = rf ∧ sortedSet c = sort_u64 (hs ≫= vnodes rf) ∧
  ∀ v host, hosts c !! v = Some host ↔ host ∈ hs ∧ v ∈ vnodes rf host.

Lemma NewFromExisting_ring lm rf hc order :
  cache_valid hc → (0 ≤ rf)%Z → no_collision rf order →
  ∃ hc' c, NewFromExisting hash lm rf hc order = Some (hc', c) ∧ cache_valid hc' ∧
           is_ring rf order c ∧ loadMap c = lm ∧ totalLoad c = 0%Z.
Proof.
  intros Hv Hrf Hnc. unfold NewFromExisting.
  destruct (ring_loop_spec hc rf order ∅ [] Hv Hrf) as (hc' & -> & Hv').
  eexists _, _. split; [done|]. split_and!; [done| |done..]. split_and!; [done..|].
  intros v host. simpl. rewrite ring_map_lookup by done. rewrite lookup_empty. naive_solver.
Qed.

Lemma no_collision_perm rf l l' : l ≡ₚ l' → no_collision rf l → no_collision rf l'.
Proof. intros Hp. unfold no_collision. by rewrite Hp. Qed.

(** Rings over the same hosts are the same, whatever the order. *)
Lemma is_ring_unique rf l l' c c' :
  l ≡ₚ l' → is_ring rf l c → is_ring rf l' c' → hosts c = hosts c' ∧ sortedSet c = sortedSet c'.
Proof.
  intros Hp (_ & Hs & Hh) (_ & Hs' & Hh'). split.
  - apply map_eq. intros v. apply option_eq. intros host. rewrite Hh, Hh', Hp. done.
  - rewrite Hs, Hs'. apply (StronglySorted_unique N.le); auto with dapr.
    rewrite !sort_u64_perm. by rewrite Hp.
Qed.

Lemma Get_ext c c' key : hosts c = hosts c' → sortedSet c = sortedSet c' → Get hash c key = Get hash c' key.
Proof. intros E1 E2. unfold Get, search. by rewrite E1, E2. Qed.

Lemma elem_of_vnodes rf host v :
  v ∈ vnodes rf host ↔ ∃ i, i < Z.to_nat rf ∧ v = hash (String.append host (pretty i)).
Proof.
  unfold ConsistentHash.vnodes. rewrite list_elem_of_fmap. setoid_rewrite elem_of_seq. naive_solver lia.
Qed.

(** The owner of a key, declaratively: the host of the first virtual node at
    or after the key's hash. *)
Definition owner (rf : Z) (hs : list string) (key host : string) : Prop :=
  ∃ v, host ∈ hs ∧ v ∈ vnodes rf host ∧ successor (hash key) (hs ≫= vnodes rf) v.

Lemma owner_unique rf hs key h1 h2 :
  no_collision rf hs → owner rf hs key h1 → owner rf hs key h2 → h1 = h2.
Proof.
  intros Hnc (v1 & Hh1 & Hv1 & Hs1) (v2 & Hh2 & Hv2 & Hs2). pose proof (successor_unique _ _ _ _ Hs1 Hs2) as <-.
  assert (Hm : ∀ h, h ∈ hs → v1 ∈ vnodes rf h → ring_map rf hs ∅ !! v1 = Some h).
  { intros h Hh Hv. apply ring_map_lookup; auto. }
  specialize (Hm h1 Hh1 Hv1) as E1. specialize (Hm h2 Hh2 Hv2) as E2. congruence.
Qed.

Lemma Get_ring rf hs c key :
  is_ring rf hs c → (0 < rf)%Z → hs ≠ [] → ∃ host, Get hash c key = Some (inr host) ∧ owner rf hs key host.
Proof.
  intros (_ & Hs & Hh) Hrf Hne. destruct hs as [|h0 hs]; [done|]. set (l := h0 :: hs) in *.
  assert (Hv0 : hash (String.append h0 (pretty 0)) ∈ vnodes rf h0).
  { apply elem_of_vnodes. exists 0. split; [lia|done]. }
  assert (Hm0 : hosts c !! hash (String.append h0 (pretty 0)) = Some h0) by (apply Hh; split; [left|done]).
  unfold Get. destruct (size (hosts c) =? 0) eqn:Hsz.
  { apply Nat.eqb_eq, map_size_empty_iff in Hsz. rewrite Hsz, lookup_empty in Hm0. done. }
  destruct (search_successor c (hash key)) as (v & Hv & Hsucc).
  { rewrite Hs. auto with dapr. }
  { rewrite Hs. intros E. assert (Hin : hash (String.append h0 (pretty 0)) ∈ (l ≫= vnodes rf)).
    { apply list_elem_of_bind. exists h0. split; [done|left]. }
    rewrite <-sort_u64_perm, E in Hin. by apply elem_of_nil in Hin. }
  rewrite Hv. rewrite Hs in Hsucc. apply (successor_perm _ _ _ _ (sort_u64_perm _)) in Hsucc.
  pose proof (proj1 Hsucc) as Hin. apply list_elem_of_bind in Hin as (host & Hvh & Hhl).
  assert (Hlk : hosts c !! v = Some host) by (by apply Hh). rewrite Hlk. simpl.
  exists host. split; [done|]. by exists v.
Qed.

Lemma delSlice_perm ss v : StronglySorted N.le ss → v ∈ ss → ss ≡ₚ v :: delSlice ss v.
Proof.
  intros Hs Hin. destruct (delSlice_spec ss v Hs) as [[? _]|(l1 & l2 & -> & ->)]; [done|].
  by rewrite Permutation_middle.
Qed.

Lemma remove_vnodes_spec l rest c :
  StronglySorted N.le (sortedSet c) → NoDup l → sortedSet c ≡ₚ l ++ rest →
  let c' := foldl remove_vnode c l in
  StronglySorted N.le (sortedSet c') ∧ sortedSet c' ≡ₚ rest ∧
  (∀ v, hosts c' !! v = if decide (v ∈ l) then None else hosts c !! v) ∧
  loadMap c' = loadMap c ∧ totalLoad c' = totalLoad c ∧ replicationFactor c' = replicationFactor c.
Proof.
  revert c; induction l as [|v l IH]; intros c Hs Hnd Hp; cbn [foldl].
  - split_and!; done.
  - inversion Hnd as [|? ? Hv Hnd']; subst.
    destruct (IH (remove_vnode c v)) as (H1 & H2 & H3 & H4); cbn [remove_vnode sortedSet set_ring]; [by apply delSlice_sorted|done| |].
    + apply (inj (cons v)). rewrite <-delSlice_perm; [exact Hp|done|]. rewrite Hp. left.
    + split_and!; [done|done| |naive_solver..]. intros w. rewrite H3. cbn [remove_vnode hosts set_ring].
      destruct (decide (w ∈ l)) as [Hw|Hw]; [by rewrite decide_True by by right|].
      rewrite lookup_delete. case_decide as E; [subst; by rewrite decide_True by left|].
      rewrite decide_False; [done|]. set_solver.
Qed.

Lemma Remove_ring rf hs1 host hs2 c :
  no_collision rf (hs1 ++ host :: hs2) → is_ring rf (hs1 ++ host :: hs2) c →
  is_ring rf (hs1 ++ hs2) (Remove hash c host).1.
Proof.
  intros Hnc (Hrf & Hs & Hh).
  assert (Hp : (hs1 ++ host :: hs2) ≡ₚ host :: (hs1 ++ hs2)) by (by rewrite Permutation_middle).
  assert (Hnc' : NoDup (vnodes rf host ++ ((hs1 ++ hs2) ≫= vnodes rf))).
  { unfold no_collision in Hnc. by rewrite Hp in Hnc. }
  apply list.NoDup_app in Hnc' as (Hn1 & Hdis & Hn2).
  unfold Remove. rewrite Hrf.
  destruct (remove_vnodes_spec (vnodes rf host) ((hs1 ++ hs2) ≫= vnodes rf) c) as (H1 & H2 & H3 & H4 & H5 & H6).
  { rewrite Hs. auto with dapr. }
  { done. }
  { rewrite Hs, sort_u64_perm, Hp. done. }
  split_and!; simpl.
  - congruence.
  - apply (StronglySorted_unique N.le); auto with dapr. by rewrite H2, sort_u64_perm.
  - intros v h. rewrite H3. case_decide as Hv.
    + split; [done|]. intros [Hin Hvh]. exfalso. apply (Hdis v Hv). apply list_elem_of_bind. eauto.
    + rewrite Hh, Hp, elem_of_cons. naive_solver.
Qed.

End ring.

(** ** Loads *)

Definition load_sum (m : gmap string Host) : Z := map_fold (λ _ h acc, (Load h + acc)%Z) 0%Z m.

(** The invariant of [totalLoad], up to the wrap-around of int64. *)
Definition loads_balanced (c : Consistent) : Prop := totalLoad c = i64_wrap (load_sum (loadMap c)).

Lemma load_sum_insert_None m k h : m !! k = None → load_sum (<[k := h]> m) = (Load h + load_sum m)%Z.
Proof. intros Hk. unfold load_sum. rewrite map_fold_insert_L; [done| |done]. intros; lia. Qed.

Lemma load_sum_delete m k h : m !! k = Some h → load_sum m = (Load h + load_sum (delete k m))%Z.
Proof.
  intros Hk. rewrite <-(insert_delete_id m k h Hk) at 1.
  apply load_sum_insert_None, lookup_delete_eq.
Qed.

Lemma load_sum_replace m k h h' :
  m !! k = Some h → load_sum (<[k := h']> m) = (load_sum m - Load h + Load h')%Z.
Proof.
  intros Hk. rewrite (load_sum_delete m k h Hk), <-(insert_delete_eq m k h').
  rewrite load_sum_insert_None by apply lookup_delete_eq. lia.
Qed.

(** The operations that change loads; [None] is the panic of [Inc]. *)
Inductive load_op :=
  | OpAdd (host id : string) (port : Z)
  | OpUpdateLoad (host : string) (load : Z)
  | OpInc (host : string)
  | OpDone (host : string).

Definition apply_op (c : Consistent) (op : load_op) : option Consistent :=
  match op with
  | OpAdd h id p => Some (Add c h id p).1
  | OpUpdateLoad h l => Some (UpdateLoad c h l)
  | OpInc h => Inc c h
  | OpDone h => Some (Done c h)
  end.

(** Loads are stored as int64; sums are compared after wrapping. *)
Lemma loads_balanced_op c op c' : loads_balanced c → apply_op c op = Some c' → loads_balanced c'.
Proof.
  unfold loads_balanced. intros Hb.
  destruct op as [h id p|h l|h|h]; simpl; unfold Add, UpdateLoad, Inc, Done;
    destruct (loadMap c !! h) as [x|] eqn:Hx; intros [= <-]; try done; simpl.
  - by rewrite load_sum_insert_None.
  - rewrite (load_sum_replace _ _ _ _ Hx), Hb, i64_wrap_add_l. simpl.
    replace (i64_wrap (load_sum (loadMap c)) - Load x + l)%Z
      with (i64_wrap (load_sum (loadMap c)) + (l - Load x))%Z by lia.
    rewrite i64_wrap_add_l. f_equal. lia.
  - rewrite (load_sum_replace _ _ _ _ Hx), Hb, i64_wrap_add_l. simpl. rewrite i64_wrap_add_r. f_equal. lia.
  - rewrite (load_sum_replace _ _ _ _ Hx), Hb. simpl. rewrite i64_wrap_add_r.
    change (?a - 1)%Z with (a + -1)%Z. rewrite i64_wrap_add_l. f_equal. lia.
Qed.

Lemma remove_vnodes_loadMap l c : loadMap (foldl remove_vnode c l) = loadMap c.
Proof. revert c; induction l as [|v l IH]; intros c; [done|]. simpl. by rewrite IH. Qed.

Lemma remove_vnodes_totalLoad l c : totalLoad (foldl remove_vnode c l) = totalLoad c.
Proof. revert c; induction l as [|v l IH]; intros c; [done|]. simpl. by rewrite IH. Qed.

(** ** Properties *)

Definition keys_order (lm : gmap string Host) (order : list string) : Prop :=
  order ≡ₚ (map_to_list lm).*1.

Lemma keys_order_elem lm order h : keys_order lm order → h ∈ order ↔ is_Some (lm !! h).
Proof.
  intros ->. rewrite list_elem_of_fmap. split.
  - intros ([? x] & -> & Hx%elem_of_map_to_list). eauto.
  - intros [x Hx]. exists (h, x). split; [done|by apply elem_of_map_to_list].
Qed.

Lemma keys_order_nonempty lm order : keys_order lm order → lm ≠ ∅ → order ≠ [].
Proof.
  intros Hp Hne ->. apply Hne, map_eq. intros h. rewrite lookup_empty.
  destruct (lm !! h) eqn:E; [|done]. exfalso. apply (not_elem_of_nil h).
  apply (keys_order_elem lm [] h Hp). eauto.
Qed.

Lemma keys_order_NoDup lm order : keys_order lm order → NoDup order.
Proof. intros ->. apply NoDup_fst_map_to_list. Qed.

(** C33: The consistent-hash ring: built from a non-empty load map by any iteration order,
    with a valid cache and without collisions of virtual nodes, Get and GetHost return for
    every key the one host that owns the virtual node following the hash of the key
    clockwise, and the cache stays valid. *)
Theorem ring_get_returns_successor hash lm rf hc order key :
  cache_valid hash hc → (0 < rf)%Z → lm ≠ ∅ → keys_order lm order → no_collision hash rf order →
  ∃ hc' c host, NewFromExisting hash lm rf hc order = Some (hc', c) ∧ cache_valid hash hc' ∧
    Get hash c key = Some (inr host) ∧ GetHost hash c key = Some (inr (lm !! host)) ∧
    is_Some (lm !! host) ∧ ∀ host', owner hash rf order key host' ↔ host' = host.
Proof.
  intros Hv Hrf Hne Ho Hnc.
  destruct (NewFromExisting_ring hash lm rf hc order) as (hc' & c & -> & Hv' & Hr & Hl & _); [done|lia|done|].
  destruct (Get_ring hash rf order c key Hr Hrf (keys_order_nonempty lm order Ho Hne)) as (host & Hg & Hown).
  exists hc', c, host. split_and!; [done|done|done| | |].
  - unfold GetHost. by rewrite Hg, Hl.
  - apply (keys_order_elem lm order host Ho). by destruct Hown as (v & ? & _).
  - intros host'. split; [|by intros ->]. intros Ho'. by apply (owner_unique hash rf order key).
Qed.

Lemma Equal_loadMap c o :
  Consistent_Equal c o = true →
  replicationFactor c = replicationFactor o ∧
  ∀ h, Host_Equal (loadMap c !! h) (loadMap o !! h) = true.
Proof.
  unfold Consistent_Equal. destruct (Z.eqb_spec (replicationFactor c) (replicationFactor o)); [|done].
  destruct (Nat.eqb_spec (size (loadMap c)) (size (loadMap o))) as [Hsz|]; [|done]. simpl.
  intros Hall. rewrite forallb_forall in Hall. split; [done|].
  assert (Hc : ∀ h x, loadMap c !! h = Some x → ∃ y, loadMap o !! h = Some y ∧ Host_Equal (Some x) (Some y) = true).
  { intros h x Hx. specialize (Hall (h, x)). destruct (loadMap o !! h) as [y|] eqn:Hy.
    - exists y. split; [done|]. rewrite <-list_elem_of_In, elem_of_map_to_list in Hall. simpl in Hall.
      rewrite Hy in Hall. by apply Hall.
    - rewrite <-list_elem_of_In, elem_of_map_to_list in Hall. simpl in Hall. rewrite Hy in Hall. by specialize (Hall Hx). }
  assert (Hdom : dom (loadMap c) = dom (loadMap o)).
  { apply set_subseteq_size_eq.
    - intros h. rewrite !elem_of_dom. intros [x Hx]. destruct (Hc h x Hx) as (y & ? & _). eauto.
    - rewrite !size_dom. lia. }
  intros h. destruct (loadMap c !! h) as [x|] eqn:Hx.
  - destruct (Hc h x Hx) as (y & -> & ?). done.
  - assert (h ∉ dom (loadMap c)) as Hd by (rewrite elem_of_dom, Hx; by intros []).
    rewrite Hdom, elem_of_dom in Hd. by destruct (loadMap o !! h); [destruct Hd; eauto|].
Qed.

(** Rings that compare equal route alike. *)
Lemma Equal_Get hash order1 order2 c1 c2 key :
  keys_order (loadMap c1) order1 → keys_order (loadMap c2) order2 →
  is_ring hash (replicationFactor c1) order1 c1 → is_ring hash (replicationFactor c2) order2 c2 →
  Consistent_Equal c1 c2 = true → Get hash c1 key = Get hash c2 key.
Proof.
  intros Ho1 Ho2 Hr1 Hr2 Heq. destruct (Equal_loadMap c1 c2 Heq) as [Hrf Hh]. rewrite <-Hrf in Hr2.
  assert (Hp : order1 ≡ₚ order2).
  { apply NoDup_Permutation; [by eapply keys_order_NoDup..|]. intros h.
    rewrite (keys_order_elem _ order1 h Ho1), (keys_order_elem _ order2 h Ho2).
    specialize (Hh h). destruct (loadMap c1 !! h), (loadMap c2 !! h); naive_solver. }
  destruct (is_ring_unique hash _ order1 order2 c1 c2 Hp Hr1 Hr2) as [E1 E2]. by apply Get_ext.
Qed.

(** Rings that Equal holds for route every key to the same host, whatever caches and
    iteration orders they were built with: the check that decides which types a table update
    changed does not miss a routing change. *)
Theorem equal_rings_route_alike hash lm1 lm2 rf1 rf2 hc1 hc2 order1 order2 hc1' hc2' c1 c2 key :
  cache_valid hash hc1 → cache_valid hash hc2 → (0 ≤ rf1)%Z → (0 ≤ rf2)%Z →
  no_collision hash rf1 order1 → no_collision hash rf2 order2 →
  keys_order lm1 order1 → keys_order lm2 order2 →
  NewFromExisting hash lm1 rf1 hc1 order1 = Some (hc1', c1) →
  NewFromExisting hash lm2 rf2 hc2 order2 = Some (hc2', c2) →
  Consistent_Equal c1 c2 = true →
  Get hash c1 key = Get hash c2 key.
Proof.
  intros Hv1 Hv2 Hrf1 Hrf2 Hnc1 Hnc2 Ho1 Ho2 Hn1 Hn2 Heq.
  destruct (NewFromExisting_ring hash lm1 rf1 hc1 order1) as (? & ? & E1 & _ & Hr1 & Hl1 & _); [done..|].
  destruct (NewFromExisting_ring hash lm2 rf2 hc2 order2) as (? & ? & E2 & _ & Hr2 & Hl2 & _); [done..|].
  rewrite Hn1 in E1. rewrite Hn2 in E2. injection E1 as <- <-. injection E2 as <- <-.
  pose proof (proj1 Hr1) as Hrf1'. pose proof (proj1 Hr2) as Hrf2'.
  apply (Equal_Get hash order1 order2); rewrite ?Hl1, ?Hl2, ?Hrf1', ?Hrf2'; done.
Qed.

(** Remove is equivalent to building the ring without the host: virtual nodes, sorted set
    and load map coincide, and every key owned by another host keeps its owner. *)
Theorem ring_remove_rebuilds hash lm rf hc order host hc' c :
  cache_valid hash hc → (0 < rf)%Z → keys_order lm order → no_collision hash rf order →
  host ∈ order → NewFromExisting hash lm rf hc order = Some (hc', c) →
  let order' := filter (λ h, h ≠ host) order in
  let c' := (Remove hash c host).1 in
  ∃ hc'' cr, NewFromExisting hash (delete host lm) rf hc' order' = Some (hc'', cr) ∧
    hosts c' = hosts cr ∧ sortedSet c' = sortedSet cr ∧ loadMap c' = loadMap cr ∧
    ∀ key h, h ≠ host → Get hash c key = Some (inr h) → Get hash c' key = Some (inr h).
Proof.
  intros Hv Hrf Ho Hnc Hin Hn order' c'. pose proof (keys_order_NoDup lm order Ho) as Hnd.
  destruct (NewFromExisting_ring hash lm rf hc order) as (? & ? & E & Hv' & Hr & Hl & _); [done|lia|done|].
  rewrite Hn in E. injection E as <- <-.
  apply list_elem_of_split in Hin as (l1 & l2 & ->).
  assert (Hord : order' = l1 ++ l2).
  { unfold order'. rewrite list.filter_app, filter_cons, decide_False by (intros Hc; by apply Hc).
    apply list.NoDup_app in Hnd as (_ & Hd & Hc). inversion Hc as [|? ? Hni _]; subst.
    rewrite !filter_true; [done|..].
    - intros x Hx ->. done.
    - intros x Hx ->. apply (Hd host Hx). left. }
  pose proof (Remove_ring hash rf l1 host l2 c Hnc Hr) as Hr'. fold c' in Hr'.
  assert (Hsub : l1 ++ l2 ⊆ l1 ++ host :: l2) by (intros x; rewrite !elem_of_app, elem_of_cons; tauto).
  assert (Hnc' : no_collision hash rf (l1 ++ l2)).
  { apply (no_collision_perm _ _ _ (host :: (l1 ++ l2))) in Hnc; [|by rewrite Permutation_middle].
    unfold no_collision in *. cbn [mbind list_bind] in Hnc. by apply list.NoDup_app in Hnc as (_ & _ & ?). }
  rewrite Hord. destruct (NewFromExisting_ring hash (delete host lm) rf hc' (l1 ++ l2)) as (hc'' & cr & En & _ & Hrr & Hlr & _);
    [done|lia|done|].
  exists hc'', cr. destruct (is_ring_unique hash rf _ _ c' cr (reflexivity _) Hr' Hrr) as [E1 E2].
  split_and!; [done..| |].
  - rewrite Hlr, <-Hl. unfold c', Remove. simpl. by rewrite remove_vnodes_loadMap.
  - intros key h Hh Hg.
    destruct (Get_ring hash rf _ c key Hr Hrf) as (h' & Hg' & Hown); [by destruct l1|].
    rewrite Hg in Hg'. injection Hg' as <-. destruct Hown as (v & Hhl & Hvh & Hs).
    assert (Hhl' : h ∈ l1 ++ l2) by set_solver.
    assert (Hown' : owner hash rf (l1 ++ l2) key h).
    { exists v. split_and!; [done..|]. eapply successor_mono; [| |exact Hs].
      - intros w. rewrite !list_elem_of_bind. naive_solver.
      - apply list_elem_of_bind. eauto. }
    destruct (Get_ring hash rf _ c' key Hr' Hrf) as (h' & Hg' & Hown''); [intros E; by rewrite E in Hhl'; apply elem_of_nil in Hhl'|].
    by rewrite Hg', (owner_unique hash rf _ key h' h Hnc' Hown'' Hown').
Qed.

(** The total load is the (wrapped) sum of the loads of the hosts, for every sequence of
    Add, Inc, Done and UpdateLoad. *)
Theorem ring_load_accounting rf ops c :
  foldl (λ oc op, oc ≫= λ c, apply_op c op) (Some (NewConsistentHash rf)) ops = Some c →
  totalLoad c = i64_wrap (load_sum (loadMap c)).
Proof.
  change (totalLoad c = _) with (loads_balanced c).
  assert (H : ∀ ops oc c, (∀ c0, oc = Some c0 → loads_balanced c0) →
    foldl (λ oc op, oc ≫= λ c, apply_op c op) oc ops = Some c → loads_balanced c).
  { clear. induction ops as [|op ops IH]; intros oc c Hoc; simpl; [apply Hoc|].
    apply IH. intros c0. destruct oc as [c1|]; simpl; [|done]. intros Hop.
    eapply loads_balanced_op; [by apply Hoc|exact Hop]. }
  apply H. intros c0 [= <-]. done.
Qed.

(** Remove drops the host but not its load: the total load keeps counting it. *)
Theorem remove_leaks_load hash c host h :
  loads_balanced c → loadMap c !! host = Some h →
  let c' := (Remove hash c host).1 in
  totalLoad c' = totalLoad c ∧ i64_wrap (load_sum (loadMap c') + Load h) = totalLoad c.
Proof.
  intros Hb Hh. cbv zeta. unfold Remove. simpl. rewrite remove_vnodes_loadMap, remove_vnodes_totalLoad.
  split; [done|]. rewrite Hb, (load_sum_delete _ _ _ Hh). f_equal. lia.
Qed.

(** ** Witnesses *)

(** A small concrete hash. *)
Fixpoint demo_hash_from (acc : N) (s : string) : N :=
  match s with
  | EmptyString => acc
  | String c s' => demo_hash_from ((acc * 131 + Ascii.N_of_ascii c) mod 65521)%N s'
  end.

Definition demo_hash (s : string) : N := demo_hash_from 7 s.

Definition demo_load_map : gmap string Host :=
  <["10.0.0.1" := NewHost "10.0.0.1" "app" 0 50002]>
    (<["10.0.0.2" := NewHost "10.0.0.2" "app" 0 50002]> ∅).

Definition demo_order : list string := (map_to_list demo_load_map).*1.

Lemma demo_cache_valid : cache_valid demo_hash NewVirtualNodesCache.
Proof. intros rf host l H. discriminate H. Qed.

Lemma demo_no_collision : no_collision demo_hash 3 demo_order.
Proof. apply (bool_decide_unpack _). vm_compute. exact I. Qed.

Lemma demo_keys_order : keys_order demo_load_map demo_order.
Proof. unfold keys_order, demo_order. reflexivity. Qed.

Lemma ring_get_returns_successor_witness :
  ∃ hc' c host, NewFromExisting demo_hash demo_load_map 3 NewVirtualNodesCache demo_order = Some (hc', c) ∧
    Get demo_hash c "actor-1" = Some (inr host) ∧ is_Some (demo_load_map !! host).
Proof.
  destruct (ring_get_returns_successor demo_hash demo_load_map 3 NewVirtualNodesCache demo_order "actor-1"
    demo_cache_valid) as (hc' & c & host & H1 & _ & H2 & _ & H3 & _).
  - reflexivity.
  - apply insert_non_empty.
  - exact demo_keys_order.
  - exact demo_no_collision.
  - exists hc', c, host. auto.
Defined.

Definition demo_ring (hc : VirtualNodesCache) (order : list string) : VirtualNodesCache * Consistent :=
  default (hc, NewConsistentHash 3) (NewFromExisting demo_hash demo_load_map 3 hc order).

Lemma equal_rings_route_alike_witness :
  let c1 := (demo_ring NewVirtualNodesCache demo_order).2 in
  let c2 := (demo_ring NewVirtualNodesCache (reverse demo_order)).2 in
  Get demo_hash c1 "actor-1" = Get demo_hash c2 "actor-1".
Proof.
  cbv zeta.
  apply (equal_rings_route_alike demo_hash demo_load_map demo_load_map 3 3 NewVirtualNodesCache
    NewVirtualNodesCache demo_order (reverse demo_order)
    (demo_ring NewVirtualNodesCache demo_order).1 (demo_ring NewVirtualNodesCache (reverse demo_order)).1).
  - exact demo_cache_valid.
  - exact demo_cache_valid.
  - discriminate.
  - discriminate.
  - exact demo_no_collision.
  - apply (no_collision_perm _ _ demo_order); [rewrite reverse_Permutation; reflexivity|exact demo_no_collision].
  - exact demo_keys_order.
  - unfold keys_order. rewrite reverse_Permutation. reflexivity.
  - vm_compute. reflexivity.
  - vm_compute. reflexivity.
  - vm_compute. reflexivity.
Defined.

Lemma ring_remove_rebuilds_witness :
  let c := (demo_ring NewVirtualNodesCache demo_order).2 in
  let c' := (Remove demo_hash c "10.0.0.2").1 in
  ∃ hc'' cr, NewFromExisting demo_hash (delete "10.0.0.2" demo_load_map) 3
      (demo_ring NewVirtualNodesCache demo_order).1 ["10.0.0.1"] = Some (hc'', cr) ∧
    hosts c' = hosts cr.
Proof.
  cbv zeta.
  destruct (ring_remove_rebuilds demo_hash demo_load_map 3 NewVirtualNodesCache demo_order "10.0.0.2"
    (demo_ring NewVirtualNodesCache demo_order).1 (demo_ring NewVirtualNodesCache demo_order).2
    demo_cache_valid) as (hc'' & cr & H1 & H2 & _).
  - reflexivity.
  - exact demo_keys_order.
  - exact demo_no_collision.
  - apply (bool_decide_unpack _). vm_compute. exact I.
  - vm_compute. reflexivity.
  - exists hc'', cr. split; [|exact H2]. rewrite <-H1. vm_compute. reflexivity.
Defined.

Definition demo_ops : list load_op := [OpAdd "a" "app" 1; OpInc "a"; OpUpdateLoad "a" 7; OpDone "a"].

Definition demo_loaded : Consistent :=
  default (NewConsistentHash 3)
    (foldl (λ oc op, oc ≫= λ c, apply_op c op) (Some (NewConsistentHash 3)) demo_ops).

Lemma ring_load_accounting_witness : totalLoad demo_loaded = 6%Z.
Proof.
  rewrite (ring_load_accounting 3 demo_ops demo_loaded); [vm_compute; reflexivity|].
  vm_compute. reflexivity.
Defined.

Lemma remove_leaks_load_witness : totalLoad (Remove demo_hash demo_loaded "a").1 = 6%Z.
Proof.
  refine (eq_trans (proj1 (remove_leaks_load demo_hash demo_loaded "a"
    {| Name := "a"; Port := 1; Load := 6; AppID := "app" |} _ _)) _); vm_compute; reflexivity.
Defined.
