(* ===== verification/ClaimLock.v ===== *)
(** * In-flight claims of the sidecar
      (pkg/actors/internal/placement/loops/disseminator/inflight/lock/lock.go)

    The claim-tracking loop issues a [Claim] per accepted request and drains
    the claims of rebalanced actor types.  The model keeps, next to the fields
    of [lock], the part of the world the claims' closures share: which claim
    contexts are done (with their cause), which claims ran the body of [Cancel]
    (the [done] flag, which also stops the AfterFunc) and the [releaseClaim]
    events enqueued on the loop.  A claim's [c_id] is its pointer.

    Durations are nanoseconds.  [ends_by c t] says whether the context of the
    claim [c] ends by itself (its caller releases it, or its request ends)
    before a timer of length [t] started with the drain. *)

From S2P Require Import Prelude.

(** ** Data *)

Record Claim := mkClaim { c_id : N; c_idx : N; c_ActorType : string }.

#[export] Instance Claim_eq_dec : EqDecision Claim.
Proof. solve_decision. Defined.

Inductive cause := CauseRequest | CauseError (msg : string).

Record lock := mkLock {
  idx : N;
  acquires : gmap N Claim;
  ctx_done : gmap N cause;
  cancelled : gset N;
  inbox : list Claim;          (* [releaseClaim{idx, claim}] *)
  next_claim : N
}.

Definition set_idx v l := mkLock v (acquires l) (ctx_done l) (cancelled l) (inbox l) (next_claim l).
Definition set_acquires v l := mkLock (idx l) v (ctx_done l) (cancelled l) (inbox l) (next_claim l).
Definition set_ctx_done v l := mkLock (idx l) (acquires l) v (cancelled l) (inbox l) (next_claim l).
Definition set_cancelled v l := mkLock (idx l) (acquires l) (ctx_done l) v (inbox l) (next_claim l).
Definition set_inbox v l := mkLock (idx l) (acquires l) (ctx_done l) (cancelled l) v (next_claim l).
Definition set_next_claim v l := mkLock (idx l) (acquires l) (ctx_done l) (cancelled l) (inbox l) v.

Record CloseLock := mkCloseLock {
  cl_Error : string; cl_Timeout : option Z; cl_DrainRebalancedActors : option bool }.

Record CancelTypes := mkCancelTypes {
  Types : gset string; ct_Error : string; ct_Timeout : option Z;
  PerTypeTimeouts : gmap string Z; ct_DrainRebalancedActors : option bool }.

(** ** Operations *)

(** A context is done once; the first cause stays. *)
Definition finish_ctx (c : Claim) (why : cause) (l : lock) : lock :=
  match ctx_done l !! c_id c with
  | Some _ => l
  | None => set_ctx_done (<[c_id c := why]> (ctx_done l)) l
  end.

(** [claim.Cancel] *)
Definition Cancel (err : string) (l : lock) (c : Claim) : lock :=
  if decide (c_id c ∈ cancelled l) then l
  else
    let l := set_cancelled ({[ c_id c ]} ∪ cancelled l) l in
    let l := finish_ctx c (CauseError err) l in
    set_inbox (inbox l ++ [c]) l.

(** The request context of [c] ends; the AfterFunc runs unless [Cancel] stopped
    it. *)
Definition request_ends (l : lock) (c : Claim) : lock :=
  match ctx_done l !! c_id c with
  | Some _ => l
  | None =>
      let l := finish_ctx c CauseRequest l in
      if decide (c_id c ∈ cancelled l) then l else set_inbox (inbox l ++ [c]) l
  end.

(** A lock from the pool, in front of a recycled loop: the index is the pooled
    lock's, [acquires] was cleared, events still queued reach it. *)
Definition lock_New (pooled_idx : N) (l : lock) : lock := set_acquires ∅ (set_idx pooled_idx l).

Definition handleAcquire (actorType : string) (l : lock) : lock * Claim :=
  let i := idx l in
  let claim := {| c_id := next_claim l; c_idx := i; c_ActorType := actorType |} in
  let l := set_next_claim (next_claim l + 1)%N (set_idx (u64_succ (idx l)) l) in
  (set_acquires (<[i := claim]> (acquires l)) l, claim).

Definition handleRelease (l : lock) (release : Claim) : lock :=
  match acquires l !! c_idx release with
  | Some claim =>
      if decide (claim = release) then set_acquires (delete (c_idx release) (acquires l)) l else l
  | None => l
  end.

Definition claims (l : lock) : list Claim := (map_to_list (acquires l)).*2.

Definition second : Z := 1000000000.

Section drain.
Variable ends_by : N → Z → bool.

(** Waiting for [cs] against one timer of length [t]: the contexts that end in
    time do; if one does not, all claims are force-cancelled. *)
Definition drain_group (err : string) (t : Z) (cs : list Claim) (l : lock) : lock :=
  let l := foldl request_ends l (filter (λ c, ends_by (c_id c) t = true) cs) in
  if forallb (λ c, match ctx_done l !! c_id c with Some _ => true | None => false end) cs
  then l else foldl (Cancel err) l cs.

Definition handleClose (e : CloseLock) (l : lock) : lock :=
  let l' :=
    match cl_DrainRebalancedActors e with
    | Some false => foldl (Cancel (cl_Error e)) l (claims l)
    | _ => drain_group (cl_Error e) (default (2 * second)%Z (cl_Timeout e)) (claims l) l
    end in
  set_acquires ∅ l'.

(** The claims of type [t]. *)
Definition of_type (t : string) (cs : list Claim) : list Claim := filter (λ c, c_ActorType c = t) cs.

Definition drain_timeout (e : CancelTypes) (t : string) : Z :=
  match PerTypeTimeouts e !! t with
  | Some v => v
  | None => default (2 * second)%Z (ct_Timeout e)
  end.

(** The groups drain in parallel; they concern disjoint claims, so they are run
    one after the other.  Types without claims have no group. *)
Definition handleCancelTypes (e : CancelTypes) (l : lock) : lock :=
  let cs := claims l in
  match ct_DrainRebalancedActors e with
  | Some false => foldl (λ l t, foldl (Cancel (ct_Error e)) l (of_type t cs)) l (elements (Types e))
  | _ => foldl (λ l t, drain_group (ct_Error e) (drain_timeout e t) (of_type t cs) l) l (elements (Types e))
  end.

(** ** Lemmas *)

(** What every step on contexts does: contexts only become done, and releases
    are queued for done claims only. *)
Definition progress (l l' : lock) : Prop :=
  acquires l' = acquires l ∧ idx l' = idx l ∧ next_claim l' = next_claim l ∧
  (∀ i w, ctx_done l !! i = Some w → ctx_done l' !! i = Some w) ∧
  (∀ c, c ∈ inbox l' → c ∈ inbox l ∨ is_Some (ctx_done l' !! c_id c)).

Lemma progress_refl l : progress l l.
Proof. split_and!; auto. Qed.

Lemma progress_trans l1 l2 l3 : progress l1 l2 → progress l2 l3 → progress l1 l3.
Proof.
  intros (A1 & B1 & C1 & D1 & E1) (A2 & B2 & C2 & D2 & E2). split_and!; [congruence..|auto|].
  intros c Hc. destruct (E2 c Hc) as [Hc'|?]; [|auto]. destruct (E1 c Hc') as [?|[w Hw]]; [auto|].
  right. exists w. auto.
Qed.

Lemma finish_ctx_done c why l : is_Some (ctx_done (finish_ctx c why l) !! c_id c).
Proof. unfold finish_ctx. destruct (ctx_done l !! c_id c) eqn:E; [by rewrite E|]. simpl. by rewrite lookup_insert_eq. Qed.

Lemma finish_ctx_mono c why l i w :
  ctx_done l !! i = Some w → ctx_done (finish_ctx c why l) !! i = Some w.
Proof.
  unfold finish_ctx. destruct (ctx_done l !! c_id c) eqn:E; [done|]. simpl. intros Hi.
  rewrite lookup_insert_ne; [done|]. intros Heq. by rewrite Heq, Hi in E.
Qed.

Lemma finish_ctx_same c why l :
  acquires (finish_ctx c why l) = acquires l ∧ idx (finish_ctx c why l) = idx l ∧
  next_claim (finish_ctx c why l) = next_claim l ∧ inbox (finish_ctx c why l) = inbox l ∧
  cancelled (finish_ctx c why l) = cancelled l.
Proof. unfold finish_ctx. by destruct (ctx_done l !! c_id c). Qed.

Lemma finish_ctx_other c why l i :
  i ≠ c_id c → ctx_done (finish_ctx c why l) !! i = ctx_done l !! i.
Proof. intros Hi. unfold finish_ctx. destruct (ctx_done l !! c_id c); [done|]. simpl. by rewrite lookup_insert_ne. Qed.

(** [cancelled] claims have done contexts. *)
Definition cancelled_done (l : lock) : Prop := ∀ i, i ∈ cancelled l → is_Some (ctx_done l !! i).

Lemma Cancel_spec err l c :
  cancelled_done l →
  progress l (Cancel err l c) ∧ cancelled_done (Cancel err l c) ∧
  is_Some (ctx_done (Cancel err l c) !! c_id c) ∧
  ∀ i, i ≠ c_id c → ctx_done (Cancel err l c) !! i = ctx_done l !! i.
Proof.
  intros Hcd. unfold Cancel. case_decide as Hin; [split_and!; auto using progress_refl|].
  set (l1 := set_cancelled _ l). destruct (finish_ctx_same c (CauseError err) l1) as (E1 & E2 & E3 & E4 & E5).
  pose proof (finish_ctx_done c (CauseError err) l1) as Hd.
  pose proof (finish_ctx_mono c (CauseError err) l1) as Hm.
  pose proof (finish_ctx_other c (CauseError err) l1) as Ho.
  set (l2 := finish_ctx c (CauseError err) l1) in *. clearbody l2. split_and!; simpl; [|..|done|done].
  - split_and!; simpl; [done..| |]; [intros i w Hi; by apply Hm|].
    intros d. rewrite E4. simpl. intros [Hd'| ->%list_elem_of_singleton]%elem_of_app; auto.
  - intros i. simpl. rewrite E5. simpl. intros [->%elem_of_singleton|Hi]%elem_of_union; [done|].
    destruct (Hcd i Hi) as [w Hw]. exists w. by apply Hm.
Qed.

Lemma request_ends_spec l c :
  cancelled_done l →
  progress l (request_ends l c) ∧ cancelled_done (request_ends l c) ∧
  is_Some (ctx_done (request_ends l c) !! c_id c) ∧
  ∀ i, i ≠ c_id c → ctx_done (request_ends l c) !! i = ctx_done l !! i.
Proof.
  intros Hcd. unfold request_ends. destruct (ctx_done l !! c_id c) as [w|] eqn:E.
  { split_and!; eauto using progress_refl. }
  destruct (finish_ctx_same c CauseRequest l) as (E1 & E2 & E3 & E4 & E5).
  pose proof (finish_ctx_done c CauseRequest l) as Hd.
  pose proof (finish_ctx_mono c CauseRequest l) as Hm.
  pose proof (finish_ctx_other c CauseRequest l) as Ho.
  set (l2 := finish_ctx c CauseRequest l) in *. clearbody l2.
  assert (Hcd2 : cancelled_done l2).
  { intros i. rewrite E5. intros Hi. destruct (Hcd i Hi) as [w Hw]. exists w. by apply Hm. }
  case_decide; (split_and!; [|done|done|done]); split_and!; simpl; rewrite ?E4; auto.
  intros d [?| ->%list_elem_of_singleton]%elem_of_app; auto.
Qed.

(** Folding one of these steps over a list of claims. *)
Lemma foldl_spec (f : lock → Claim → lock) cs l :
  (∀ l c, cancelled_done l → progress l (f l c) ∧ cancelled_done (f l c) ∧
     is_Some (ctx_done (f l c) !! c_id c) ∧ ∀ i, i ≠ c_id c → ctx_done (f l c) !! i = ctx_done l !! i) →
  cancelled_done l →
  progress l (foldl f l cs) ∧ cancelled_done (foldl f l cs) ∧
  (∀ c, c ∈ cs → is_Some (ctx_done (foldl f l cs) !! c_id c)) ∧
  ∀ i, (∀ c, c ∈ cs → i ≠ c_id c) → ctx_done (foldl f l cs) !! i = ctx_done l !! i.
Proof.
  intros Hf. revert l; induction cs as [|c cs IH]; intros l Hcd; simpl.
  - split_and!; [apply progress_refl|done|by intros ? ?%elem_of_nil|done].
  - destruct (Hf l c Hcd) as (P1 & C1 & D1 & O1). destruct (IH (f l c) C1) as (P2 & C2 & D2 & O2).
    split_and!; [by eapply progress_trans|done| |].
    + intros d [->|Hd]%elem_of_cons; [|by apply D2]. destruct D1 as [w Hw], P2 as (_ & _ & _ & Hm & _).
      exists w. by apply Hm.
    + intros i Hi. rewrite O2 by (intros d Hd; apply Hi; by right). apply O1, Hi. left.
Qed.

Lemma drain_group_spec err t cs l :
  cancelled_done l →
  progress l (drain_group err t cs l) ∧ cancelled_done (drain_group err t cs l) ∧
  (∀ c, c ∈ cs → is_Some (ctx_done (drain_group err t cs l) !! c_id c)) ∧
  ∀ i, (∀ c, c ∈ cs → i ≠ c_id c) → ctx_done (drain_group err t cs l) !! i = ctx_done l !! i.
Proof.
  intros Hcd. unfold drain_group.
  destruct (foldl_spec request_ends (filter (λ c, ends_by (c_id c) t = true) cs) l) as (P1 & C1 & D1 & O1);
    [intros; by apply request_ends_spec|done|].
  set (l1 := foldl request_ends l _) in *. clearbody l1.
  assert (O1' : ∀ i, (∀ c, c ∈ cs → i ≠ c_id c) → ctx_done l1 !! i = ctx_done l !! i).
  { intros i Hi. apply O1. intros c [_ Hc]%list_elem_of_filter. auto. }
  destruct (forallb _ cs) eqn:Hall.
  - split_and!; [done..| |done]. intros c Hc. rewrite forallb_forall in Hall.
    specialize (Hall c (proj1 (list_elem_of_In _ _) Hc)). destruct (ctx_done l1 !! c_id c); [eauto|done].
  - destruct (foldl_spec (Cancel err) cs l1) as (P2 & C2 & D2 & O2); [intros; by apply Cancel_spec|done|].
    split_and!; [by eapply progress_trans|done|done|]. intros i Hi. rewrite O2 by done. auto.
Qed.

End drain.

(** ** The loop as a state machine *)

(** A state of the machine: the lock, and the claims it issued since it came
    from the pool. *)
Inductive step : lock * list Claim → lock * list Claim → Prop :=
  | step_acquire l iss t :
      step (l, iss) ((handleAcquire t l).1, iss ++ [(handleAcquire t l).2])
  | step_cancel l iss c err : step (l, iss) (Cancel err l c, iss)
  | step_request_ends l iss c : step (l, iss) (request_ends l c, iss)
  | step_release l iss c rest :
      inbox l = c :: rest → step (l, iss) (handleRelease (set_inbox rest l) c, iss)
  | step_cancel_types l iss ends e : step (l, iss) (handleCancelTypes ends e l, iss)
  | step_recycle l iss ends e pooled :
      (pooled < two64)%N → step (l, iss) (lock_New pooled (handleClose ends e l), []).

Definition init : lock := mkLock 0 ∅ ∅ ∅ [] 0.

Definition reachable_lock (s : lock * list Claim) : Prop := rtc step (init, []) s.

Record linv (l : lock) : Prop := {
  linv_cancelled : cancelled_done l;
  linv_inbox : ∀ c, c ∈ inbox l → is_Some (ctx_done l !! c_id c)
}.

(** [start] is the index the pooled lock came with. *)
Record tracked (start : N) (l : lock) (iss : list Claim) : Prop := {
  tr_idx : idx l = ((start + N.of_nat (length iss)) mod two64)%N;
  tr_idxs : ∀ k c, iss !! k = Some c → c_idx c = ((start + N.of_nat k) mod two64)%N;
  tr_ids : ∀ c, c ∈ iss → (c_id c < next_claim l)%N;
  tr_inj : ∀ c1 c2, c1 ∈ iss → c2 ∈ iss → c_id c1 = c_id c2 → c1 = c2;
  tr_issued : ∀ i c, acquires l !! i = Some c → c ∈ iss;
  tr_live : ∀ c, c ∈ iss → ctx_done l !! c_id c = None → acquires l !! c_idx c = Some c
}.

Lemma linv_progress l l' : progress l l' → cancelled_done l' → linv l → linv l'.
Proof.
  intros (_ & _ & _ & Hm & Hin) Hcd [_ Hi]. split; [done|]. intros c Hc.
  destruct (Hin c Hc) as [Hc'|?]; [|done]. destruct (Hi c Hc') as [w Hw]. exists w. auto.
Qed.

Lemma tracked_progress start l l' iss : progress l l' → tracked start l iss → tracked start l' iss.
Proof.
  intros (Ha & Hi & Hn & Hm & _) []. split; rewrite ?Ha, ?Hi, ?Hn; try done.
  intros c Hc Hd. apply tr_live0; [done|]. destruct (ctx_done l !! c_id c) eqn:E; [|done].
  apply Hm in E. congruence.
Qed.

Lemma CancelTypes_spec ends e l :
  cancelled_done l →
  progress l (handleCancelTypes ends e l) ∧ cancelled_done (handleCancelTypes ends e l) ∧
  (∀ i c, acquires l !! i = Some c → c_ActorType c ∈ Types e →
     is_Some (ctx_done (handleCancelTypes ends e l) !! c_id c)) ∧
  ∀ i, (∀ j c, acquires l !! j = Some c → c_ActorType c ∈ Types e → i ≠ c_id c) →
     ctx_done (handleCancelTypes ends e l) !! i = ctx_done l !! i.
Proof.
  intros Hcd.
  assert (Hg : ∀ (g : string → lock → lock),
    (∀ t l0, cancelled_done l0 → progress l0 (g t l0) ∧ cancelled_done (g t l0) ∧
       (∀ c, c ∈ of_type t (claims l) → is_Some (ctx_done (g t l0) !! c_id c)) ∧
       ∀ i, (∀ c, c ∈ of_type t (claims l) → i ≠ c_id c) → ctx_done (g t l0) !! i = ctx_done l0 !! i) →
    ∀ ts l0, cancelled_done l0 → let l' := foldl (λ l t, g t l) l0 ts in
      progress l0 l' ∧ cancelled_done l' ∧
      (∀ t c, t ∈ ts → c ∈ of_type t (claims l) → is_Some (ctx_done l' !! c_id c)) ∧
      ∀ i, (∀ t c, t ∈ ts → c ∈ of_type t (claims l) → i ≠ c_id c) → ctx_done l' !! i = ctx_done l0 !! i).
  { intros g Hg. induction ts as [|t ts IH]; intros l0 Hc0; simpl.
    - split_and!; [apply progress_refl|done|by intros ? ? ?%elem_of_nil|done].
    - destruct (Hg t l0 Hc0) as (P1 & C1 & D1 & O1). destruct (IH (g t l0) C1) as (P2 & C2 & D2 & O2).
      split_and!; [by eapply progress_trans|done| |].
      + intros t' c [->|Ht']%elem_of_cons Hc; [|by apply (D2 t')]. destruct (D1 c Hc) as [w Hw].
        destruct P2 as (_ & _ & _ & Hm & _). exists w. by apply Hm.
      + intros i Hi. rewrite O2 by (intros t' c Ht'; apply Hi; by right). apply O1. intros c. apply (Hi t). left. }
  assert (Hof : ∀ t c, c ∈ of_type t (claims l) ↔ c_ActorType c = t ∧ ∃ i, acquires l !! i = Some c).
  { intros t c. unfold of_type, claims. rewrite list_elem_of_filter, list_elem_of_fmap. split.
    - intros [Ht ([i c'] & -> & Hi%elem_of_map_to_list)]. eauto.
    - intros [Ht [i Hi]]. split; [done|]. exists (i, c). split; [done|by apply elem_of_map_to_list]. }
  unfold handleCancelTypes.
  assert (Hend : ∀ l', progress l l' ∧ cancelled_done l' ∧
      (∀ t c, t ∈ elements (Types e) → c ∈ of_type t (claims l) → is_Some (ctx_done l' !! c_id c)) ∧
      (∀ i, (∀ t c, t ∈ elements (Types e) → c ∈ of_type t (claims l) → i ≠ c_id c) → ctx_done l' !! i = ctx_done l !! i) →
    progress l l' ∧ cancelled_done l' ∧
    (∀ i c, acquires l !! i = Some c → c_ActorType c ∈ Types e → is_Some (ctx_done l' !! c_id c)) ∧
    ∀ i, (∀ j c, acquires l !! j = Some c → c_ActorType c ∈ Types e → i ≠ c_id c) → ctx_done l' !! i = ctx_done l !! i).
  { intros l' (P & C & D & O). split_and!; [done..| |].
    - intros i c Hi Ht. apply (D (c_ActorType c)); [by apply elem_of_elements|]. apply Hof. eauto.
    - intros i Hi. apply O. intros t c Ht [Ht' [j Hj]]%Hof. apply (Hi j c Hj). rewrite Ht'. by apply elem_of_elements. }
  destruct (ct_DrainRebalancedActors e) as [[]|]; apply Hend, Hg; try done; intros t l0 Hc0;
    [by apply drain_group_spec|apply foldl_spec; [intros; by apply Cancel_spec|done]|by apply drain_group_spec].
Qed.

Lemma Close_spec ends e l :
  cancelled_done l →
  (∀ i w, ctx_done l !! i = Some w → ctx_done (handleClose ends e l) !! i = Some w) ∧
  cancelled_done (handleClose ends e l) ∧ (linv l → linv (handleClose ends e l)) ∧
  acquires (handleClose ends e l) = ∅ ∧
  ∀ i c, acquires l !! i = Some c → is_Some (ctx_done (handleClose ends e l) !! c_id c).
Proof.
  intros Hcd. unfold handleClose.
  assert (Hin : ∀ i c, acquires l !! i = Some c → c ∈ claims l).
  { intros i c Hi. apply list_elem_of_fmap. exists (i, c). split; [done|by apply elem_of_map_to_list]. }
  assert (Hend : ∀ l', progress l l' ∧ cancelled_done l' ∧ (∀ c, c ∈ claims l → is_Some (ctx_done l' !! c_id c)) ∧
     (∀ i, (∀ c, c ∈ claims l → i ≠ c_id c) → ctx_done l' !! i = ctx_done l !! i) →
    (∀ i w, ctx_done l !! i = Some w → ctx_done (set_acquires ∅ l') !! i = Some w) ∧
    cancelled_done (set_acquires ∅ l') ∧ (linv l → linv (set_acquires ∅ l')) ∧
    acquires (set_acquires ∅ l') = ∅ ∧
    ∀ i c, acquires l !! i = Some c → is_Some (ctx_done (set_acquires ∅ l') !! c_id c)).
  { intros l' (P & C & D & _). split_and!; [apply P|done| |done|intros i c Hi; apply D; eauto].
    intros Hl. destruct (linv_progress l l' P C Hl). by split. }
  destruct (cl_DrainRebalancedActors e) as [[]|]; apply Hend;
    [by apply drain_group_spec|apply foldl_spec; [intros; by apply Cancel_spec|done]|by apply drain_group_spec].
Qed.

Lemma linv_step s s' : step s s' → linv s.1 → linv s'.1.
Proof.
  destruct 1 as [l iss t|l iss c err|l iss c|l iss c rest Hin|l iss ends e|l iss ends e pooled Hpool]; simpl; intros Hl;
    pose proof (linv_cancelled l Hl) as Hcd.
  - destruct Hl. by split.
  - destruct (Cancel_spec err l c Hcd) as (P & C & _). by eapply linv_progress.
  - destruct (request_ends_spec l c Hcd) as (P & C & _). by eapply linv_progress.
  - destruct Hl as [_ Hi]. assert (H : linv (set_inbox rest l)).
    { split; [done|]. intros d Hd. apply Hi. rewrite Hin. by right. }
    unfold handleRelease. destruct (acquires _ !! _); [case_decide|]; destruct H; by split.
  - destruct (CancelTypes_spec ends e l Hcd) as (P & C & _). by eapply linv_progress.
  - destruct (Close_spec ends e l Hcd) as (_ & _ & H & _). destruct (H Hl). by split.
Qed.

Lemma mod_add_inj a k1 k2 :
  (k1 < two64)%N → (k2 < two64)%N → ((a + k1) mod two64 = (a + k2) mod two64)%N → k1 = k2.
Proof.
  intros H1 H2 Heq. pose proof (N.div_mod (a + k1) two64 ltac:(discriminate)) as E1.
  pose proof (N.div_mod (a + k2) two64 ltac:(discriminate)) as E2. rewrite Heq in E1.
  set (q1 := ((a + k1) / two64)%N) in *. set (q2 := ((a + k2) / two64)%N) in *.
  assert (q1 = q2); [|subst; nia]. nia.
Qed.

Lemma tracked_acquire start l iss t :
  (N.of_nat (length iss) + 1 < two64)%N → tracked start l iss →
  tracked start (handleAcquire t l).1 (iss ++ [(handleAcquire t l).2]).
Proof.
  intros Hlen []. split; simpl.
  - rewrite tr_idx0, length_app. simpl. unfold u64_succ. rewrite N.Div0.add_mod_idemp_l. f_equal. lia.
  - intros k c [Hk|[Hle Hk]]%lookup_app_Some; [eauto|].
    apply list_lookup_singleton_Some in Hk as [Hk <-]. simpl. rewrite tr_idx0.
    replace k with (length iss) by lia. done.
  - intros c [Hc| ->%list_elem_of_singleton]%elem_of_app; [specialize (tr_ids0 c Hc)|simpl]; lia.
  - intros c1 c2 [H1|H1]%elem_of_app [H2|H2]%elem_of_app Heq; [eauto|..];
      repeat match goal with H : _ ∈ [_] |- _ => apply list_elem_of_singleton in H as -> end;
      simpl in *; [specialize (tr_ids0 _ H1); lia|specialize (tr_ids0 _ H2); lia|done].
  - intros i c. rewrite lookup_insert. case_decide; [intros [= <-]|intros Hc%tr_issued0]; set_solver.
  - intros c [Hc| ->%list_elem_of_singleton]%elem_of_app Hd; simpl; [|by rewrite lookup_insert_eq].
    rewrite lookup_insert_ne; [by apply tr_live0|]. apply list_elem_of_lookup in Hc as [k Hk].
    rewrite tr_idx0, (tr_idxs0 k c Hk). pose proof (lookup_lt_Some _ _ _ Hk).
    intros Heq%mod_add_inj; lia.
Qed.

Lemma tracked_release start l iss c rest :
  inbox l = c :: rest → linv l → tracked start l iss →
  tracked start (handleRelease (set_inbox rest l) c) iss.
Proof.
  intros Hin [_ Hdone] []. unfold handleRelease. simpl.
  assert (H0 : tracked start (set_inbox rest l) iss) by (by split).
  destruct (acquires l !! c_idx c) as [c'|] eqn:Hc; [|exact H0].
  destruct (decide (c' = c)) as [->|]; [|exact H0].
  split; simpl; try done.
  - intros i d [_ Hd]%lookup_delete_Some. eauto.
  - intros d Hd Hnd. rewrite lookup_delete_ne; [by apply tr_live0|]. intros Heq.
    specialize (tr_live0 d Hd Hnd). rewrite <-Heq, Hc in tr_live0. injection tr_live0 as <-.
    destruct (Hdone c) as [w Hw]; [rewrite Hin; left|]. congruence.
Qed.

Lemma tracked_step s s' :
  step s s' → linv s.1 → (N.of_nat (length s'.2) < two64)%N →
  ((N.of_nat (length s.2) < two64)%N → ∃ start, tracked start s.1 s.2) →
  ∃ start, tracked start s'.1 s'.2.
Proof.
  destruct 1 as [l iss t|l iss c err|l iss c|l iss c rest Hin|l iss ends e|l iss ends e pooled Hpool];
    cbn [fst snd]; intros Hl Hlen Htr; pose proof (linv_cancelled l Hl) as Hcd.
  - rewrite length_app in Hlen. simpl in Hlen. destruct Htr as [start Htr]; [lia|].
    exists start. apply tracked_acquire; [lia|done].
  - destruct (Htr Hlen) as [start H]. exists start. eapply tracked_progress; [|done]. by apply Cancel_spec.
  - destruct (Htr Hlen) as [start H]. exists start. eapply tracked_progress; [|done]. by apply request_ends_spec.
  - destruct (Htr Hlen) as [start H]. exists start. by apply tracked_release.
  - destruct (Htr Hlen) as [start H]. exists start. eapply tracked_progress; [|done]. by apply CancelTypes_spec.
  - exists pooled. split; simpl; try (by intros ? ?%elem_of_nil); try done.
    + rewrite N.add_0_r, N.mod_small; done.
    + by intros ? ? ?%elem_of_nil.
Qed.

Lemma claim_lock_inv s :
  reachable_lock s → linv s.1 ∧ ((N.of_nat (length s.2) < two64)%N → ∃ start, tracked start s.1 s.2).
Proof.
  apply (rtc_ind_r (λ s, linv s.1 ∧ ((N.of_nat (length s.2) < two64)%N → ∃ start, tracked start s.1 s.2))).
  - split; [split; [intros i Hi; set_solver|by intros ? ?%elem_of_nil]|]. intros _. exists 0%N. 
    split; simpl; try (by intros ? ?%elem_of_nil); try done. by intros ? ? ?%elem_of_nil.
  - intros s1 s2 _ Hs [Hl Htr]. split; [by eapply linv_step|]. intros Hlen. by eapply tracked_step.
Qed.

(** ** Properties *)

(** Draining by actor type. In every reachable state of the claim-tracking loop, after
    CancelTypes each claim ever issued by this loop for one of the types has ended, claims
    of other types are untouched, and the loop keeps tracking the same entries. The bound on
    the number of claims keeps the 64-bit claim index from wrapping. *)
Theorem cancel_types_drains_all_claims l iss ends e c :
  reachable_lock (l, iss) → (N.of_nat (length iss) < two64)%N → c ∈ iss →
  let l' := handleCancelTypes ends e l in
  (c_ActorType c ∈ Types e → is_Some (ctx_done l' !! c_id c)) ∧
  (c_ActorType c ∉ Types e → ctx_done l' !! c_id c = ctx_done l !! c_id c) ∧
  acquires l' = acquires l.
Proof.
  intros Hr Hlen Hc. destruct (claim_lock_inv _ Hr) as [Hl Htr]. destruct (Htr Hlen) as [start []].
  cbn [fst snd] in *. destruct (CancelTypes_spec ends e l (linv_cancelled l Hl)) as (P & _ & D & O).
  split_and!.
  - intros Ht. destruct (ctx_done l !! c_id c) as [w|] eqn:E.
    + destruct P as (_ & _ & _ & Hm & _). exists w. by apply Hm.
    + by apply (D (c_idx c)); [apply tr_live0|].
  - intros Ht. apply O. intros j d Hd Htd Heq. assert (d = c) as ->; [|done].
    apply tr_inj0; [by eapply tr_issued0|done|done].
  - by destruct P.
Qed.

(** Closing the claim-tracking loop ends every claim it ever issued, whether or not claims
    are drained first, and leaves no entry. *)
Theorem close_ends_all_claims l iss ends e c :
  reachable_lock (l, iss) → (N.of_nat (length iss) < two64)%N → c ∈ iss →
  let l' := handleClose ends e l in
  is_Some (ctx_done l' !! c_id c) ∧ acquires l' = ∅.
Proof.
  intros Hr Hlen Hc. destruct (claim_lock_inv _ Hr) as [Hl Htr]. destruct (Htr Hlen) as [start []].
  cbn [fst snd] in *. destruct (Close_spec ends e l (linv_cancelled l Hl)) as (Hm & _ & _ & Ha & D).
  split; [|done]. destruct (ctx_done l !! c_id c) as [w|] eqn:E; [exists w; by apply Hm|].
  by apply (D (c_idx c)); apply tr_live0.
Qed.

(** ** Witnesses *)

(** Two claims of different types; the first lock is recycled before a release
    for its claim arrives. *)
Definition demo_lock : lock :=
  let l0 := Cancel "done" (handleAcquire "t1" init).1 (handleAcquire "t1" init).2 in
  let l1 := lock_New 0 (handleClose (λ _ _, true) (mkCloseLock "closed" None None) l0) in
  let l2 := (handleAcquire "t1" l1).1 in
  let l3 := handleRelease (set_inbox [] l2) (handleAcquire "t1" init).2 in
  (handleAcquire "t2" l3).1.

Definition demo_claims : list Claim :=
  [{| c_id := 1; c_idx := 0; c_ActorType := "t1" |}; {| c_id := 2; c_idx := 1; c_ActorType := "t2" |}].

Lemma demo_reachable : reachable_lock (demo_lock, demo_claims).
Proof.
  unfold reachable_lock. eapply rtc_l; [apply (step_acquire init [] "t1")|].
  eapply rtc_l; [apply (step_cancel _ _ (handleAcquire "t1" init).2 "done")|].
  eapply rtc_l; [apply (step_recycle _ _ (λ _ _, true) (mkCloseLock "closed" None None) 0); reflexivity|].
  eapply rtc_l; [apply (step_acquire _ _ "t1")|].
  eapply rtc_l; [apply (step_release _ _ (handleAcquire "t1" init).2 []); vm_compute; reflexivity|].
  eapply rtc_l; [apply (step_acquire _ _ "t2")|]. vm_compute. apply rtc_refl.
Qed.

Definition demo_cancel_types : CancelTypes := mkCancelTypes {[ "t1" ]} "updated" None ∅ None.

Lemma cancel_types_drains_all_claims_witness :
  is_Some (ctx_done (handleCancelTypes (λ _ _, false) demo_cancel_types demo_lock) !! 1%N).
Proof.
  refine (proj1 (cancel_types_drains_all_claims demo_lock demo_claims (λ _ _, false) demo_cancel_types
    {| c_id := 1; c_idx := 0; c_ActorType := "t1" |} demo_reachable _ _) _).
  - reflexivity.
  - left.
  - apply (bool_decide_unpack _). vm_compute. exact I.
Defined.

Lemma close_ends_all_claims_witness :
  acquires (handleClose (λ _ _, false) (mkCloseLock "closed" None None) demo_lock) = ∅.
Proof.
  refine (proj2 (close_ends_all_claims demo_lock demo_claims (λ _ _, false) (mkCloseLock "closed" None None)
    {| c_id := 1; c_idx := 0; c_ActorType := "t1" |} demo_reachable _ _)).
  - reflexivity.
  - left.
Defined.
