(* ===== verification/ActorLocal.v ===== *)
(** * Is an actor hosted by this sidecar?
      (IsActorLocal in pkg/actors/internal/placement/loops/loops.go,
       IsLocalhost in utils/host.go)

    With the two functions of Go's [net] package it uses, on bytes.  The error
    of [SplitHostPort] is [None]. *)

From Stdlib Require Import Ascii.
From S2P Require Import Prelude GoStrings.

(** ** Definitions *)

Definition colon : ascii := ":"%char.
Definition lbracket : ascii := "["%char.
Definition rbracket : ascii := "]"%char.

(** [bytealg.IndexByteString] *)
Fixpoint index_byte (c : ascii) (l : list ascii) : option nat :=
  match l with
  | [] => None
  | x :: l' => if decide (x = c) then Some 0 else S <$> index_byte c l'
  end.

(** [bytealg.LastIndexByteString] *)
Fixpoint last_index_byte (c : ascii) (l : list ascii) : option nat :=
  match l with
  | [] => None
  | x :: l' =>
      match last_index_byte c l' with
      | Some i => Some (S i)
      | None => if decide (x = c) then Some 0 else None
      end
  end.

(** [net.JoinHostPort]: a host with a colon is taken for an IPv6 literal. *)
Definition JoinHostPort (host port : list ascii) : list ascii :=
  match index_byte colon host with
  | Some _ => [lbracket] ++ host ++ [rbracket; colon] ++ port
  | None => host ++ [colon] ++ port
  end.

(** The checks at the end of [net.SplitHostPort]. *)
Definition split_end (hp host : list ascii) (i j k : nat) : option (list ascii * list ascii) :=
  match index_byte lbracket (drop j hp), index_byte rbracket (drop k hp) with
  | None, None => Some (host, drop (S i) hp)
  | _, _ => None
  end.

Definition SplitHostPort (hp : list ascii) : option (list ascii * list ascii) :=
  match last_index_byte colon hp with
  | None => None
  | Some i =>
      if decide (hp !! 0 = Some lbracket) then
        match index_byte rbracket hp with
        | None => None
        | Some e =>
            if decide (e + 1 = length hp) then None
            else if decide (e + 1 = i) then split_end hp (take (e - 1) (drop 1 hp)) i 1 (e + 1)
            else None
        end
      else
        let host := take i hp in
        match index_byte colon host with
        | Some _ => None
        | None => split_end hp host i 0 0
        end
  end.

Definition IsLocalhost (addr : list ascii) : bool :=
  bool_decide (addr = bytes "localhost") || bool_decide (addr = bytes "127.0.0.1") ||
  bool_decide (addr = bytes "[::1]") || bool_decide (addr = bytes "::1").

Definition IsActorLocal (targetActorAddress hostAddress port : string) : bool :=
  if bool_decide (bytes targetActorAddress = JoinHostPort (bytes hostAddress) (bytes port)) then true
  else if IsLocalhost (bytes hostAddress) then
    match SplitHostPort (bytes targetActorAddress) with
    | Some (tHost, tPort) => if bool_decide (tPort = bytes port) then IsLocalhost tHost else false
    | None => false
    end
  else false.

(** ** Lemmas *)

Lemma index_byte_None c l : c ∉ l ↔ index_byte c l = None.
Proof.
  induction l as [|x l IH]; simpl; [split; [done|intros _; apply not_elem_of_nil]|].
  rewrite not_elem_of_cons, IH. case_decide; [naive_solver|].
  destruct (index_byte c l); simpl; naive_solver.
Qed.

Lemma index_byte_first c l1 l2 : c ∉ l1 → index_byte c (l1 ++ c :: l2) = Some (length l1).
Proof.
  induction l1 as [|x l1 IH]; simpl; intros Hc; [by rewrite decide_True|].
  apply not_elem_of_cons in Hc as [Hx Hc]. rewrite decide_False, IH by done. done.
Qed.

Lemma last_index_byte_None c l : c ∉ l → last_index_byte c l = None.
Proof.
  induction l as [|x l IH]; simpl; [done|]. intros [Hx Hl]%not_elem_of_cons.
  rewrite IH by done. by rewrite decide_False.
Qed.

Lemma last_index_byte_last c l1 l2 : c ∉ l2 → last_index_byte c (l1 ++ c :: l2) = Some (length l1).
Proof.
  intros Hc. induction l1 as [|x l1 IH]; simpl.
  - rewrite last_index_byte_None by done. by rewrite decide_True.
  - by rewrite IH.
Qed.

Lemma drop_after {A} (l1 : list A) x l2 : drop (S (length l1)) (l1 ++ x :: l2) = l2.
Proof. induction l1 as [|y l1 IH]; [done|]. exact IH. Qed.

(** [l] has none of the bytes [cs]. *)
Definition free_of (cs l : list ascii) : Prop := ∀ c, c ∈ cs → c ∉ l.

Lemma split_join host port :
  free_of [lbracket; rbracket] host → free_of [lbracket; rbracket; colon] port →
  SplitHostPort (JoinHostPort host port) = Some (host, port).
Proof.
  intros Hh Hp. pose proof (Hh lbracket ltac:(left)) as Hl. pose proof (Hh rbracket ltac:(set_solver)) as Hr.
  pose proof (Hp lbracket ltac:(left)) as Pl. pose proof (Hp rbracket ltac:(set_solver)) as Pr.
  pose proof (Hp colon ltac:(set_solver)) as Pc.
  assert (Hnone : ∀ c l, c ∉ l → index_byte c l = None) by (intros; by apply index_byte_None).
  unfold JoinHostPort. destruct (index_byte colon host) as [n|] eqn:Hc; unfold SplitHostPort.
  - set (pre := [lbracket] ++ host ++ [rbracket]).
    replace ([lbracket] ++ host ++ [rbracket; colon] ++ port) with (pre ++ colon :: port)
      by (unfold pre; by rewrite <-!(assoc_L (++))).
    rewrite last_index_byte_last by done. rewrite decide_True by done.
    assert (Hend : index_byte rbracket (pre ++ colon :: port) = Some (S (length host))).
    { unfold pre. rewrite <-!(assoc_L (++)).
      change (index_byte rbracket (([lbracket] ++ host) ++ rbracket :: (colon :: port)) = Some (S (length host))).
      rewrite index_byte_first; [done|]. rewrite elem_of_app, list_elem_of_singleton. by intros [?|?]. }
    assert (Hpre : length pre = S (S (length host))) by (unfold pre; rewrite !length_app; simpl; lia).
    rewrite Hend, decide_False by (rewrite length_app, Hpre; simpl; lia).
    rewrite decide_True by (rewrite Hpre; lia).
    unfold split_end. rewrite !Hnone.
    + rewrite drop_after. f_equal. f_equal.
      unfold pre. simpl. rewrite drop_0, <-!(assoc_L (++)), Nat.sub_0_r. by rewrite take_app_length.
    + replace (S (length host) + 1) with (length pre) by lia. rewrite drop_app_length. set_solver.
    + unfold pre. simpl. rewrite drop_0, !elem_of_app, !elem_of_cons. intros [[?|[?|?%elem_of_nil]]|[?|?]]; done.
  - rewrite <-index_byte_None in Hc.
    replace (host ++ [colon] ++ port) with (host ++ colon :: port) by done.
    rewrite last_index_byte_last by done. rewrite decide_False.
    2: { destruct host as [|x host]; simpl; [done|]. intros [= ->]. apply Hl. left. }
    rewrite take_app_length, Hnone by done. unfold split_end. rewrite !drop_0, !Hnone.
    + by rewrite drop_after.
    + rewrite elem_of_app, elem_of_cons. naive_solver.
    + rewrite elem_of_app, elem_of_cons. naive_solver.
Qed.

Lemma bytes_inj s1 s2 : bytes s1 = bytes s2 → s1 = s2.
Proof.
  intros H. rewrite <-(String.string_of_list_ascii_of_string s1), <-(String.string_of_list_ascii_of_string s2).
  exact (f_equal String.string_of_list_ascii H).
Qed.

Lemma bytes_of_bytes l : bytes (of_bytes l) = l.
Proof. apply String.list_ascii_of_string_of_list_ascii. Qed.

(** A host and a port as they occur in addresses. *)
Definition plain_host (h : string) : Prop := free_of [lbracket; rbracket] (bytes h).
Definition plain_port (p : string) : Prop := free_of [lbracket; rbracket; colon] (bytes p).

(** The address of a sidecar, as it reports it. *)
Definition address (host port : string) : string := of_bytes (JoinHostPort (bytes host) (bytes port)).

(** ** Properties *)

(** Locality is exact: for hosts and ports that can be joined into an address, an actor is
    local if and only if the ports agree and the hosts are equal or both are loopback names;
    and splitting a joined address gives back the host and the port. *)
Theorem is_actor_local_exact h p h' p' :
  plain_host h → plain_port p → plain_host h' → plain_port p' →
  SplitHostPort (bytes (address h' p')) = Some (bytes h', bytes p') ∧
  (IsActorLocal (address h' p') h p = true ↔
   p' = p ∧ (h' = h ∨ (IsLocalhost (bytes h) = true ∧ IsLocalhost (bytes h') = true))).
Proof.
  intros Hh Hp Hh' Hp'. unfold address, IsActorLocal. rewrite bytes_of_bytes.
  pose proof (split_join (bytes h') (bytes p') Hh' Hp') as Hs'. split; [exact Hs'|].
  pose proof (split_join (bytes h) (bytes p) Hh Hp) as Hs.
  case_bool_decide as Heq.
  - rewrite Heq, Hs in Hs'. injection Hs' as E1%bytes_inj E2%bytes_inj. naive_solver.
  - assert (Hne : ¬ (p' = p ∧ h' = h)) by (intros [-> ->]; done).
    rewrite Hs'. destruct (IsLocalhost (bytes h)); [|naive_solver].
    case_bool_decide as Hpp; [apply bytes_inj in Hpp; naive_solver|].
    split; [done|]. intros [-> _]. done.
Qed.

Ltac free_tac :=
  intros ? Hc; repeat (apply elem_of_cons in Hc as [->|Hc];
    [apply (bool_decide_unpack _); vm_compute; exact I|]); by apply elem_of_nil in Hc.

Lemma is_actor_local_exact_witness :
  IsActorLocal (address "127.0.0.1" "50002") "localhost" "50002" = true ∧
  address "::1" "50002" = "[::1]:50002".
Proof.
  split; [|vm_compute; reflexivity].
  apply (proj2 (is_actor_local_exact "localhost" "50002" "127.0.0.1" "50002"
    ltac:(free_tac) ltac:(free_tac) ltac:(free_tac) ltac:(free_tac))).
  split; [reflexivity|right]. split; vm_compute; reflexivity.
Defined.
