(* ===== verification/Inflight.v ===== *)
(** * Placement tables and request gating of the sidecar
      (pkg/actors/internal/placement/loops/disseminator/inflight/inflight.go,
       pkg/actors/api/placement.go)

    [Inflight] holds the placement tables (v1: one consistent-hash ring per
    actor type; v2: one rendezvous table per actor type), resolves actors,
    queues the requests for blocked types and hands out claims of the
    claim-tracking loop ([ClaimLock]).  A request is identified by its response
    channel; a response sent on it is an output.  [Panic] is a run-time panic.

    Parameters: the two hashes, the index of the lock object [lock.New] takes
    from the pool, and which claim contexts end in time during a drain. *)

From stdpp Require Import pretty.
From S2P Require Import Prelude GoLib ActorLocal ClaimLock ConsistentHash Rendezvous PlacementStore.
#[local] Open Scope dapr_scope.

(** ** Data *)

Record LookupActorRequest := mkLookupActorRequest {
  ActorType : string; ActorID : string; NoCache : bool }.

Definition ActorKey (r : LookupActorRequest) : string :=
  String.append (ActorType r) (String.append "/" (ActorID r)).

Record LookupActorResponse := mkLookupActorResponse {
  Address : string; resp_AppID : string; Local : bool }.

Inductive place_error :=
  | ErrActorNoAddress (key : string)
  | ErrHash (e : hash_error)
  | ErrUnsupportedAlgorithm (alg : Z)
  | ErrVersionRegression (actorType : string) (version current : N).

(** The result of [resolve]; [RPanic] is a nil dereference. *)
Inductive resolved :=
  | ROk (r : LookupActorResponse)
  | RErr (e : place_error)
  | RPanic.

Inductive request :=
  | LockRequest (resp : N) (actorType : string)
  | LookupRequest (resp : N) (req : LookupActorRequest).

Definition request_type (r : request) : string :=
  match r with LockRequest _ t => t | LookupRequest _ req => ActorType req end.

Inductive response :=
  | LockResponse (claim : Claim)
  | LookupResponse (claim : Claim) (r : LookupActorResponse)
  | LookupFailed (e : place_error).

Inductive in_output :=
  | Respond (resp : N) (r : response)
  | Panic.

(** The v2 partial tables: per actor type, the app ID of each host address. *)
Record V2Tables := mkV2Tables {
  HashAlgorithm : Z; v2_Entries : gmap string (gmap string string) }.

Definition HASH_ALGORITHM_RENDEZVOUS : Z := 1.

Section inflight.
Context {X : XXHash}.
Variable hash : string → N.
Variable pool_idx : lock → N.
Variable ends_by : N → Z → bool.

Record rendezvousEntry := mkRendezvousEntry { table : Table; e_hosts : gmap string string }.

Record Inflight := mkInflight {
  hostname : string;
  port : string;
  drainOngoingCallTimeout : option Z;
  drainRebalancedActors : option bool;
  entityDrainTimeouts : option (gmap string Z);
  queued : gmap string (list request);
  blockedTypes : gset string;
  lock_open : bool;             (* [i.lock != nil] *)
  lck : lock;
  t_Version : string;           (* [hashTable.Version] *)
  t_Entries : gmap string Consistent;
  virtualNodesCache : VirtualNodesCache;
  v2Entries : gmap string rendezvousEntry;
  versionByType : gmap string N
}.

Definition set_queued v i := mkInflight (hostname i) (port i) (drainOngoingCallTimeout i)
  (drainRebalancedActors i) (entityDrainTimeouts i) v (blockedTypes i) (lock_open i) (lck i)
  (t_Version i) (t_Entries i) (virtualNodesCache i) (v2Entries i) (versionByType i).
Definition set_blockedTypes v i := mkInflight (hostname i) (port i) (drainOngoingCallTimeout i)
  (drainRebalancedActors i) (entityDrainTimeouts i) (queued i) v (lock_open i) (lck i)
  (t_Version i) (t_Entries i) (virtualNodesCache i) (v2Entries i) (versionByType i).
Definition set_lock o v i := mkInflight (hostname i) (port i) (drainOngoingCallTimeout i)
  (drainRebalancedActors i) (entityDrainTimeouts i) (queued i) (blockedTypes i) o v
  (t_Version i) (t_Entries i) (virtualNodesCache i) (v2Entries i) (versionByType i).
Definition set_hashTable ver es vc i := mkInflight (hostname i) (port i) (drainOngoingCallTimeout i)
  (drainRebalancedActors i) (entityDrainTimeouts i) (queued i) (blockedTypes i) (lock_open i) (lck i)
  ver es vc (v2Entries i) (versionByType i).
Definition set_v2 es vs i := mkInflight (hostname i) (port i) (drainOngoingCallTimeout i)
  (drainRebalancedActors i) (entityDrainTimeouts i) (queued i) (blockedTypes i) (lock_open i) (lck i)
  (t_Version i) (t_Entries i) (virtualNodesCache i) es vs.
Definition set_drain d t i := mkInflight (hostname i) (port i) t d (entityDrainTimeouts i)
  (queued i) (blockedTypes i) (lock_open i) (lck i)
  (t_Version i) (t_Entries i) (virtualNodesCache i) (v2Entries i) (versionByType i).
Definition set_entityDrain v i := mkInflight (hostname i) (port i) (drainOngoingCallTimeout i)
  (drainRebalancedActors i) v (queued i) (blockedTypes i) (lock_open i) (lck i)
  (t_Version i) (t_Entries i) (virtualNodesCache i) (v2Entries i) (versionByType i).

Definition Inflight_New (hostname port : string) : Inflight :=
  {| hostname := hostname; port := port; drainOngoingCallTimeout := None;
     drainRebalancedActors := None; entityDrainTimeouts := None; queued := ∅; blockedTypes := ∅;
     lock_open := false; lck := ClaimLock.init; t_Version := EmptyString; t_Entries := ∅;
     virtualNodesCache := NewVirtualNodesCache; v2Entries := ∅; versionByType := ∅ |}.

Definition in_handler := prog Inflight in_output.

(** ** Resolving actors *)

Definition Inflight_resolve (i : Inflight) (req : LookupActorRequest) : resolved :=
  match v2Entries i !! ActorType req with
  | Some entry =>
      match Table_Lookup (Some (table entry)) (ActorID req) with
      | Some (addr, true) =>
          ROk {| Address := addr; resp_AppID := default EmptyString (e_hosts entry !! addr);
                 Local := IsActorLocal addr (hostname i) (port i) |}
      | Some (_, false) => RErr (ErrActorNoAddress (ActorKey req))
      | None => RPanic
      end
  | None =>
      match t_Entries i !! ActorType req with
      | None => RErr (ErrActorNoAddress (ActorKey req))
      | Some ring =>
          match GetHost hash ring (ActorID req) with
          | Some (inl e) => RErr (ErrHash e)
          | Some (inr (Some host)) =>
              ROk {| Address := ConsistentHash.Name host; resp_AppID := ConsistentHash.AppID host;
                     Local := IsActorLocal (ConsistentHash.Name host) (hostname i) (port i) |}
          | Some (inr None) | None => RPanic
          end
      end
  end.

Definition IsActorHostedNoLock (i : Inflight) (req : LookupActorRequest) : bool :=
  match Inflight_resolve i req with ROk r => Local r | _ => false end.

Definition HasTables (i : Inflight) (types : list string) : bool :=
  forallb (λ t, bool_decide (is_Some (v2Entries i !! t)) || bool_decide (is_Some (t_Entries i !! t))) types.

Definition hasHost (i : Inflight) (actorType : string) (local : bool) : bool :=
  let hs := match v2Entries i !! actorType with
            | Some entry => Table_Hosts (Some (table entry))
            | None => match t_Entries i !! actorType with Some c => Hosts c | None => [] end
            end in
  existsb (λ h, eqb (IsActorLocal h (hostname i) (port i)) local) hs.

Definition HasLocalHost (i : Inflight) (actorType : string) : bool := hasHost i actorType true.

Definition RemoteHostTypes (i : Inflight) : gset string :=
  list_to_set (filter (λ t, hasHost i t false = true) (map_to_list (t_Entries i)).*1) ∪
  list_to_set (filter (λ t, hasHost i t false = true) (map_to_list (v2Entries i)).*1).

(** ** Installing tables *)

(** The first loop of [Set]: the new rings, threading the hash cache. *)
Fixpoint build_rings (rf : Z) (entries : list (string * gmap string Host)) (vc : VirtualNodesCache)
    (acc : gmap string Consistent) : option (VirtualNodesCache * gmap string Consistent) :=
  match entries with
  | [] => Some (vc, acc)
  | (k, v) :: entries' =>
      let loadMap := (λ lv, NewHost (Name lv) (Id lv) (Load lv) (Port lv)) <$> v in
      match NewFromExisting hash loadMap rf vc (map_to_list loadMap).*1 with
      | None => None
      | Some (vc', ring) => build_rings rf entries' vc' (<[k := ring]> acc)
      end
  end.

(** The two loops of [Set] that collect the changed types. *)
Definition changed_types (old new : gmap string Consistent) : list string :=
  (filter (λ kv, match old !! kv.1 with None => true | Some o => negb (Consistent_Equal o kv.2) end = true)
     (map_to_list new)).*1 ++
  (filter (λ kv, new !! kv.1 = None) (map_to_list old)).*1.

Definition Inflight_Set (i : Inflight) (tables : PlacementTables) (version : N)
    : option (Inflight * list string) :=
  match build_rings (pt_ReplicationFactor tables) (map_to_list (pt_Entries tables)) (virtualNodesCache i) ∅ with
  | None => None
  | Some (vc, new) =>
      Some (set_hashTable (pretty version) new vc i, changed_types (t_Entries i) new)
  end.

(** The loop of [Merge]; an error leaves the entries handled before it. *)
Fixpoint merge_loop (entries : list (string * gmap string string)) (versions : gmap string N)
    (i : Inflight) (changed : list string) : Inflight * (place_error + list string) :=
  match entries with
  | [] => (i, inr changed)
  | (t, hs) :: entries' =>
      let regression :=
        match versions !! t, versionByType i !! t with
        | Some v, Some cur => if (v <? cur)%N then Some (v, cur) else None
        | _, _ => None
        end in
      match regression with
      | Some (v, cur) => (i, inl (ErrVersionRegression t v cur))
      | None =>
          let i := match versions !! t with
                   | Some v => set_v2 (v2Entries i) (<[t := v]> (versionByType i)) i
                   | None => i
                   end in
          if size hs =? 0 then
            match v2Entries i !! t with
            | Some _ => merge_loop entries' versions
                          (set_v2 (delete t (v2Entries i)) (versionByType i) i) (changed ++ [t])
            | None => merge_loop entries' versions i changed
            end
          else
            let entry := {| table := Table_New (map_to_list hs).*1; e_hosts := hs |} in
            let same :=
              match v2Entries i !! t with
              | Some existing =>
                  Table_Equal (Some (table existing)) (Some (table entry)) &&
                  bool_decide (e_hosts existing = hs)
              | None => false
              end in
            merge_loop entries' versions (set_v2 (<[t := entry]> (v2Entries i)) (versionByType i) i)
              (if same then changed else changed ++ [t])
      end
  end.

Definition Merge (i : Inflight) (tables : V2Tables) (versions : gmap string N)
    : Inflight * (place_error + list string) :=
  if size (v2_Entries tables) =? 0 then (i, inr [])
  else if negb (HashAlgorithm tables =? HASH_ALGORITHM_RENDEZVOUS)%Z
  then (i, inl (ErrUnsupportedAlgorithm (HashAlgorithm tables)))
  else merge_loop (map_to_list (v2_Entries tables)) versions i [].

Definition ResetSession (i : Inflight) : Inflight :=
  set_blockedTypes ∅ (set_hashTable EmptyString ∅ (virtualNodesCache i) (set_v2 ∅ ∅ i)).

(** ** Blocking and claims *)

Definition LockTypes (types : list string) : in_handler :=
  modify (λ i, set_blockedTypes (list_to_set types ∪ blockedTypes i) i).

Definition isBlocked (i : Inflight) (t : string) : bool := bool_decide (t ∈ blockedTypes i).

(** [i.lock.Enqueue(aq); claim := <-aq.RespCh] *)
Definition take_claim (t : string) (k : Claim → in_handler) : in_handler :=
  with i do
  let '(l, claim) := handleAcquire t (lck i) in
  modify (set_lock (lock_open i) l) ;;; k claim.

(** Answering a request, by [getLockResponse] or [getLookupResponse]. *)
Definition answer (r : request) : in_handler :=
  match r with
  | LockRequest resp t => take_claim t (λ claim, emit [Respond resp (LockResponse claim)])
  | LookupRequest resp req =>
      with i do
      match Inflight_resolve i req with
      | RErr e => emit [Respond resp (LookupFailed e)]
      | RPanic => emit [Panic]
      | ROk a => take_claim (ActorType req) (λ claim, emit [Respond resp (LookupResponse claim a)])
      end
  end.

(** [Acquire] and [AcquireLookup]. *)
Definition Acquire (r : request) : in_handler :=
  with i do
  if negb (lock_open i) || isBlocked i (request_type r) then
    modify (set_queued (<[request_type r := default [] (queued i !! request_type r) ++ [r]]> (queued i)))
  else answer r.

(** [for _, fn := range fns { fn() }; delete(i.queued, t)] *)
Definition flush (t : string) (fns : list request) : in_handler :=
  for_each fns answer ;;;
  modify (λ i, set_queued (delete t (queued i)) i).

Definition UnlockTypes (types : list string) : in_handler :=
  for_each types (λ t,
    modify (λ i, set_blockedTypes (blockedTypes i ∖ {[ t ]}) i) ;;;
    with i do
    match queued i !! t with
    | Some fns => if lock_open i then flush t fns else skip
    | None => skip
    end).

Definition Inflight_Open : in_handler :=
  (with i do when (negb (lock_open i))
     (modify (set_lock true (lock_New (pool_idx (lck i)) (lck i))))) ;;;
  with i do
  for_each (map_to_list (queued i)) (λ kv,
    if isBlocked i kv.1 then skip else flush kv.1 kv.2).

Definition Inflight_Close (err : string) : in_handler :=
  with i do when (lock_open i)
    (modify (set_lock false (handleClose ends_by
       (mkCloseLock err (drainOngoingCallTimeout i) (drainRebalancedActors i)) (lck i)))).

(** The per-type overrides for [types]. *)
Definition per_type (i : Inflight) (types : list string) : gmap string Z :=
  match entityDrainTimeouts i with
  | None => ∅
  | Some m => foldl (λ acc t, match m !! t with Some v => <[t := v]> acc | None => acc end) ∅ types
  end.

Definition CancelClaimsForTypes (types : list string) (err : string) : in_handler :=
  with i do
  when (lock_open i && negb (length types =? 0))
    (modify (set_lock (lock_open i) (handleCancelTypes ends_by
       (mkCancelTypes (list_to_set types) err (drainOngoingCallTimeout i) (per_type i types)
          (drainRebalancedActors i)) (lck i)))).

Definition SetDrainOngoingCallTimeout (drain : option bool) (timeout : option Z) (i : Inflight) : Inflight :=
  set_drain drain timeout i.

Definition SetEntityDrainOngoingCallTimeouts (timeouts : gmap string Z) (i : Inflight) : Inflight :=
  set_entityDrain (if size timeouts =? 0 then None else Some timeouts) i.

End inflight.
