(* ===== verification/InflightProps.v ===== *)
(** * Properties of the sidecar's placement tables

    What a table update changes: the types reported as changed are exactly
    those whose hosts changed, every other type keeps its routing, and v2
    resolution is the rendezvous owner of the announced hosts. *)

From S2P Require Import Prelude GoLib ActorLocal ClaimLock ConsistentHash Rendezvous PlacementStore Inflight.

(** ** v2 tables *)

Section v2.
Context {X : XXHash}.
Variable hash : string → N.
Notation resolve := (Inflight_resolve hash).

Definition keys (hs : gmap string string) : list string := (map_to_list hs).*1.

(** Installed v2 entries are the tables of their hosts. *)
Definition v2_wf (i : Inflight) : Prop :=
  ∀ t e, v2Entries i !! t = Some e → table e = Table_New (keys (e_hosts e)) ∧ e_hosts e ≠ ∅.

(** The hosts installed for [t]. *)
Definition installed (i : Inflight) (t : string) : option (gmap string string) :=
  e_hosts <$> v2Entries i !! t.

(** The fields [Merge] does not touch. *)
Definition same_rest (i i' : Inflight) : Prop :=
  hostname i' = hostname i ∧ port i' = port i ∧ t_Entries i' = t_Entries i ∧
  queued i' = queued i ∧ blockedTypes i' = blockedTypes i ∧ lock_open i' = lock_open i ∧ lck i' = lck i.

Lemma same_rest_refl i : same_rest i i.
Proof. done. Qed.

Lemma same_rest_trans i1 i2 i3 : same_rest i1 i2 → same_rest i2 i3 → same_rest i1 i3.
Proof. unfold same_rest. intuition congruence. Qed.

(** One iteration of [Merge] for type [t] without a version regression. *)
Definition merged_version (versions : gmap string N) (t : string) (i : Inflight) : gmap string N :=
  match versions !! t with Some v => <[t := v]> (versionByType i) | None => versionByType i end.

Definition merged_entry (t : string) (hs : gmap string string) (i : Inflight)
    : gmap string rendezvousEntry :=
  if size hs =? 0 then delete t (v2Entries i)
  else <[t := {| table := Table_New (keys hs); e_hosts := hs |}]> (v2Entries i).

Definition merged_hosts (hs : gmap string string) : option (gmap string string) :=
  if size hs =? 0 then None else Some hs.

Definition regresses (versions : gmap string N) (t : string) (i : Inflight) : option (N * N) :=
  match versions !! t, versionByType i !! t with
  | Some v, Some cur => if (v <? cur)%N then Some (v, cur) else None
  | _, _ => None
  end.

Lemma set_v2_id (i : Inflight) : set_v2 (v2Entries i) (versionByType i) i = i.
Proof. by destruct i. Qed.

Lemma keys_elem hs a : a ∈ keys hs ↔ is_Some (hs !! a).
Proof.
  unfold keys. rewrite list_elem_of_fmap. split.
  - intros ([? x] & -> & Hx%elem_of_map_to_list). eauto.
  - intros [x Hx]. exists (a, x). split; [done|by apply elem_of_map_to_list].
Qed.

Lemma merge_loop_cons t hs entries versions i changed :
  v2_wf i →
  merge_loop ((t, hs) :: entries) versions i changed =
    match regresses versions t i with
    | Some (v, cur) => (i, inl (ErrVersionRegression t v cur))
    | None =>
        merge_loop entries versions (set_v2 (merged_entry t hs i) (merged_version versions t i) i)
          (if bool_decide (installed i t = merged_hosts hs) then changed else changed ++ [t])
    end.
Proof.
  intros Hwf. cbn [merge_loop]. unfold regresses.
  destruct (match versions !! t with Some v => _ | None => _ end) as [[v cur]|]; [done|].
  assert (Hv : (match versions !! t with
      | Some v => set_v2 (v2Entries i) (<[t := v]> (versionByType i)) i | None => i end) =
    set_v2 (v2Entries i) (merged_version versions t i) i).
  { unfold merged_version. destruct (versions !! t); [done|]. by destruct i. }
  rewrite Hv. cbn [v2Entries versionByType set_v2]. unfold installed, merged_hosts, merged_entry.
  destruct (size hs =? 0) eqn:Hs.
  - destruct (v2Entries i !! t) as [e|] eqn:He; [done|]. by rewrite delete_id.
  - fold (keys hs). f_equal. destruct (v2Entries i !! t) as [e|] eqn:He; cbn [fmap option_fmap option_map].
    + destruct (Hwf t e He) as [Ht _].
      destruct (decide (e_hosts e = hs)) as [Heq|Hne].
      * subst hs. rewrite Ht. simpl. rewrite !bool_decide_eq_true_2 by done. done.
      * rewrite (bool_decide_eq_false_2 (e_hosts e = hs)) by done. rewrite andb_false_r.
        rewrite bool_decide_eq_false_2 by congruence. done.
    + done.
Qed.

Lemma merged_wf versions t hs i : v2_wf i → v2_wf (set_v2 (merged_entry t hs i) (merged_version versions t i) i).
Proof.
  intros Hwf t' e. cbn [v2Entries set_v2]. unfold merged_entry. destruct (size hs =? 0) eqn:Hs.
  - intros [_ He]%lookup_delete_Some. by apply (Hwf t').
  - rewrite lookup_insert. case_decide; [intros [= <-]|apply Hwf]. simpl. split; [done|].
    intros ->. by rewrite map_size_empty in Hs.
Qed.

Lemma merged_installed versions t hs i t' :
  installed (set_v2 (merged_entry t hs i) (merged_version versions t i) i) t' =
    if decide (t = t') then merged_hosts hs else installed i t'.
Proof.
  unfold installed, merged_entry, merged_hosts. cbn [v2Entries set_v2]. destruct (size hs =? 0).
  - rewrite lookup_delete. by case_decide.
  - rewrite lookup_insert. by case_decide.
Qed.

(** The effect of a successful loop. *)
Lemma merge_loop_ok entries versions i changed i' ch :
  v2_wf i → NoDup entries.*1 → merge_loop entries versions i changed = (i', inr ch) →
  v2_wf i' ∧ same_rest i i' ∧
  (∀ t, installed i' t = match list_to_map (M := gmap string _) entries !! t with
                         | Some hs => merged_hosts hs | None => installed i t end) ∧
  (∀ t, t ∈ ch ↔ t ∈ changed ∨ installed i' t ≠ installed i t).
Proof.
  revert i changed; induction entries as [|[t hs] entries IH]; intros i changed Hwf Hnd.
  - simpl. intros [= <- <-]. split_and!; auto using same_rest_refl. intros t. split; [by left|]. by intros [?|?].
  - inversion Hnd as [|? ? Hnin Hnd']; subst. rewrite merge_loop_cons by done.
    destruct (regresses versions t i) as [[v cur]|]; [done|].
    set (i1 := set_v2 _ _ i). intros Hl.
    destruct (IH _ _ (merged_wf versions t hs i Hwf) Hnd' Hl) as (W & R & I & C). fold i1 in W, R, I, C.
    assert (Ht : list_to_map (M := gmap string _) entries !! t = None).
    { by apply not_elem_of_list_to_map_1. }
    assert (Hi1 : ∀ t', installed i1 t' = if decide (t = t') then merged_hosts hs else installed i t')
      by apply merged_installed.
    assert (Hit : ∀ t', t ≠ t' → installed i1 t' = installed i t') by (intros t' Hne; by rewrite Hi1, decide_False).
    split_and!; [done|by eapply same_rest_trans| |].
    + intros t'. rewrite I. simpl. rewrite lookup_insert. destruct (decide (t = t')) as [<-|Hne].
      * by rewrite Ht, Hi1, decide_True.
      * destruct (list_to_map entries !! t'); [done|]. by apply Hit.
    + intros t'. rewrite C. destruct (decide (t = t')) as [<-|Hne].
      * rewrite (I t), Ht. rewrite (Hi1 t), decide_True by done.
        destruct (bool_decide_reflect (installed i t = merged_hosts hs)) as [Heq|Hne]; [rewrite Heq; naive_solver|].
        rewrite elem_of_app, list_elem_of_singleton. naive_solver.
      * rewrite (Hit t' Hne). case_bool_decide; [done|]. rewrite elem_of_app, list_elem_of_singleton. naive_solver.
Qed.

(** Versions never decrease, also when [Merge] fails part-way. *)
Lemma merge_loop_versions entries versions i changed t cur :
  v2_wf i → versionByType i !! t = Some cur →
  ∃ v, versionByType (merge_loop entries versions i changed).1 !! t = Some v ∧ (cur ≤ v)%N.
Proof.
  revert i changed cur; induction entries as [|[t' hs] entries IH]; intros i changed cur Hwf Hc; [by eexists|].
  rewrite merge_loop_cons by done. destruct (regresses versions t' i) as [[v c]|] eqn:Hr; [by exists cur|].
  set (i1 := set_v2 _ _ i). assert (Hv : ∃ v, versionByType i1 !! t = Some v ∧ (cur ≤ v)%N).
  { cbn [versionByType set_v2 i1]. unfold merged_version. unfold regresses in Hr.
    destruct (versions !! t') as [v|]; [|by exists cur].
    rewrite lookup_insert. case_decide; [subst t'|by exists cur]. rewrite Hc in Hr.
    destruct (N.ltb_spec v cur); [done|]. by exists v. }
  destruct Hv as (v & Hv & Hle). destruct (IH i1 (if bool_decide (installed i t' = merged_hosts hs) then changed
    else changed ++ [t']) v (merged_wf _ _ _ _ Hwf) Hv) as (v' & Hv' & Hle'). exists v'. split; [exact Hv'|lia].
Qed.

Lemma merge_loop_wf entries versions i changed : v2_wf i → v2_wf (merge_loop entries versions i changed).1.
Proof.
  revert i changed; induction entries as [|[t hs] entries IH]; intros i changed Hwf; [done|].
  rewrite merge_loop_cons by done. destruct (regresses versions t i) as [[v c]|]; [done|].
  by apply IH, merged_wf.
Qed.

(** A regressed version in the input makes the loop fail. *)
Lemma merge_loop_regression entries versions i changed t v cur :
  v2_wf i → NoDup entries.*1 → t ∈ entries.*1 → versions !! t = Some v → versionByType i !! t = Some cur →
  (v < cur)%N → ∃ e, (merge_loop entries versions i changed).2 = inl e.
Proof.
  revert i changed; induction entries as [|[t' hs] entries IH]; intros i changed Hwf Hnd Hin Hv Hc Hlt;
    [by apply elem_of_nil in Hin|].
  inversion Hnd as [|? ? Hnin Hnd']; subst. rewrite merge_loop_cons by done.
  destruct (regresses versions t' i) as [[v' c']|] eqn:Hr; [by eexists|].
  apply elem_of_cons in Hin as [Heq|Hin].
  - simpl in Heq. subst t'. unfold regresses in Hr. rewrite Hv, Hc in Hr. apply N.ltb_lt in Hlt. by rewrite Hlt in Hr.
  - apply IH; [by apply merged_wf|done|done|done| |done]. cbn [versionByType set_v2]. unfold merged_version.
    destruct (versions !! t'); [|done]. rewrite lookup_insert_ne; [done|]. intros ->. done.
Qed.

Lemma Merge_cases i tables versions :
  Merge i tables versions = (i, inr []) ∧ v2_Entries tables = ∅ ∨
  (∃ alg, Merge i tables versions = (i, inl (ErrUnsupportedAlgorithm alg))) ∨
  HashAlgorithm tables = HASH_ALGORITHM_RENDEZVOUS ∧
  Merge i tables versions = merge_loop (map_to_list (v2_Entries tables)) versions i [].
Proof.
  unfold Merge. destruct (size _ =? 0) eqn:Hs.
  { apply Nat.eqb_eq, map_size_empty_iff in Hs. auto. }
  destruct (Z.eqb_spec (HashAlgorithm tables) HASH_ALGORITHM_RENDEZVOUS); simpl; eauto.
Qed.

(** Resolution of a type with an installed v2 table. *)
Lemma resolve_installed i t hs id nc :
  v2_wf i → installed i t = Some hs →
  ∃ a, resolve i {| ActorType := t; ActorID := id; NoCache := nc |} =
         ROk {| Address := a; resp_AppID := default EmptyString (hs !! a);
                Local := IsActorLocal a (hostname i) (port i) |} ∧ is_owner (keys hs) id a.
Proof.
  intros Hwf Hi. unfold installed in Hi. unfold Inflight_resolve. cbn [ActorType ActorID].
  destruct (v2Entries i !! t) as [e|] eqn:He; [|done]. injection Hi as <-.
  destruct (Hwf t e He) as [Ht Hne]. rewrite Ht.
  destruct (Lookup_owner (keys (e_hosts e)) id) as (a & -> & Hown); [|by exists a].
  intros Hk. apply Hne, map_eq. intros a. rewrite lookup_empty.
  destruct (e_hosts e !! a) eqn:Ea; [|done].
  assert (Hin : a ∈ keys (e_hosts e)) by (apply keys_elem; eauto). by rewrite Hk in Hin; apply elem_of_nil in Hin.
Qed.

Lemma resolve_ext i i' t id nc :
  v2_wf i → v2_wf i' → installed i' t = installed i t → t_Entries i' !! t = t_Entries i !! t →
  hostname i' = hostname i → port i' = port i →
  resolve i' {| ActorType := t; ActorID := id; NoCache := nc |} =
  resolve i {| ActorType := t; ActorID := id; NoCache := nc |}.
Proof.
  intros W W' Hi He Hh Hp. destruct (installed i t) as [hs|] eqn:Hit.
  - destruct (resolve_installed i t hs id nc W Hit) as (a & -> & Ha).
    destruct (resolve_installed i' t hs id nc W' Hi) as (a' & -> & Ha').
    by rewrite (is_owner_unique _ _ _ _ Ha Ha'), Hh, Hp.
  - unfold installed in *. unfold Inflight_resolve. simpl.
    destruct (v2Entries i !! t); [done|]. destruct (v2Entries i' !! t); [done|]. by rewrite He, Hh, Hp.
Qed.

(** Merging v2 tables. After a Merge without error every actor of a type in the tables
    resolves to the rendezvous owner among the hosts of its type, with that host's app ID
    and locality; a type without hosts is removed; the reported changed types are exactly
    those whose installed table differs; and actors of all other types resolve as before. *)
Theorem merge_routes_to_owners i tables versions i' ch :
  v2_wf i → Merge i tables versions = (i', inr ch) →
  v2_wf i' ∧
  (∀ t hs id nc, v2_Entries tables !! t = Some hs → hs ≠ ∅ →
     ∃ a, resolve i' {| ActorType := t; ActorID := id; NoCache := nc |} =
            ROk {| Address := a; resp_AppID := default EmptyString (hs !! a);
                   Local := IsActorLocal a (hostname i) (port i) |} ∧ is_owner (keys hs) id a) ∧
  (∀ t, v2_Entries tables !! t = Some ∅ → installed i' t = None) ∧
  (∀ t, t ∈ ch ↔ installed i' t ≠ installed i t) ∧
  (∀ t id nc, t ∉ ch →
     resolve i' {| ActorType := t; ActorID := id; NoCache := nc |} =
     resolve i {| ActorType := t; ActorID := id; NoCache := nc |}).
Proof.
  intros Hwf Hm. assert (Hi : ∀ t, installed i' t = match v2_Entries tables !! t with
    | Some hs => merged_hosts hs | None => installed i t end).
  { destruct (Merge_cases i tables versions) as [[E ->]|[[alg E]|[_ E]]]; rewrite Hm in E; [|done|].
    - injection E as -> ->. intros t. by rewrite lookup_empty.
    - symmetry in E. apply merge_loop_ok in E as (_ & _ & I & _); [|done|apply NoDup_fst_map_to_list].
      intros t. by rewrite I, list_to_map_to_list. }
  assert (Hr : v2_wf i' ∧ same_rest i i' ∧ ∀ t, t ∈ ch ↔ installed i' t ≠ installed i t).
  { destruct (Merge_cases i tables versions) as [[E _]|[[alg E]|[_ E]]]; rewrite Hm in E; [|done|].
    - injection E as -> ->. split_and!; auto using same_rest_refl. intros t. split; [by intros ?%elem_of_nil|done].
    - symmetry in E. apply merge_loop_ok in E as (W & R & _ & C); [|done|apply NoDup_fst_map_to_list].
      split_and!; [done..|]. intros t. rewrite C. split; [by intros [?%elem_of_nil|?]|by right]. }
  destruct Hr as (W' & (Rh & Rp & Rt & _) & C). split_and!; [done| | |done|].
  - intros t hs id nc Ht Hne. rewrite <-Rh, <-Rp. apply resolve_installed; [done|].
    rewrite Hi, Ht. unfold merged_hosts. destruct (size hs =? 0) eqn:E; [|done].
    by apply Nat.eqb_eq, map_size_empty_iff in E.
  - intros t Ht. by rewrite Hi, Ht.
  - intros t id nc Ht. apply resolve_ext; [done|done| |by rewrite Rt|done|done].
    destruct (decide (installed i' t = installed i t)) as [|Hne]; [done|]. destruct Ht. by apply C.
Qed.

(** Table versions do not go back: a Merge never lowers the recorded version of a type, and
    tables with an older version of a type are refused with an error. *)
Theorem merge_versions_monotone i tables versions t cur :
  v2_wf i → versionByType i !! t = Some cur →
  (∃ v, versionByType (Merge i tables versions).1 !! t = Some v ∧ (cur ≤ v)%N) ∧
  (∀ v, is_Some (v2_Entries tables !! t) → versions !! t = Some v → (v < cur)%N →
     ∃ e, (Merge i tables versions).2 = inl e).
Proof.
  intros Hwf Hc. destruct (Merge_cases i tables versions) as [[-> Ht]|[[alg ->]|[_ ->]]]; cbn [fst snd].
  - split; [by exists cur|]. intros v [hs Hhs]. by rewrite Ht, lookup_empty in Hhs.
  - split; [by exists cur|]. intros v _ _ _. by eexists.
  - split; [by apply merge_loop_versions|]. intros v [hs Hhs] Hv Hlt.
    eapply (merge_loop_regression _ versions i [] t v cur); [done|apply NoDup_fst_map_to_list| |done..].
    apply list_elem_of_fmap. exists (t, hs). split; [done|by apply elem_of_map_to_list].
Qed.

End v2.

(** ** v1 tables *)

Section v1.
Context {X : XXHash}.
Variable hash : string → N.
Notation resolve := (Inflight_resolve hash).

Definition rings_wf (m : gmap string Consistent) : Prop :=
  ∀ t c, m !! t = Some c → is_ring hash (ConsistentHash.replicationFactor c) (Hosts c) c.

(** The load map [Set] builds from the hosts of an entry. *)
Definition to_loadMap (v : gmap string Host) : gmap string ConsistentHash.Host :=
  (λ lv, NewHost (Name lv) (Id lv) (Load lv) (Port lv)) <$> v.

Definition host_names (v : gmap string Host) : list string := (map_to_list v).*1.

Lemma host_names_order v : keys_order (to_loadMap v) (host_names v).
Proof.
  unfold keys_order, to_loadMap, host_names. rewrite map_to_list_fmap, <-list_fmap_compose.
  apply reflexive_eq. apply list_fmap_ext. by intros ? [? ?].
Qed.

(** The ring of one entry. *)
Definition ring_for (rf : Z) (v : gmap string Host) (c : Consistent) : Prop :=
  is_ring hash rf (Hosts c) c ∧ loadMap c = to_loadMap v.

Lemma build_rings_spec rf entries vc acc :
  cache_valid hash vc → (0 ≤ rf)%Z → NoDup entries.*1 →
  (∀ k v, (k, v) ∈ entries → no_collision hash rf (host_names v)) →
  ∃ vc' new, build_rings hash rf entries vc acc = Some (vc', new) ∧ cache_valid hash vc' ∧
    ∀ k, match list_to_map (M := gmap string _) entries !! k with
         | Some v => ∃ c, new !! k = Some c ∧ ring_for rf v c
         | None => new !! k = acc !! k
         end.
Proof.
  intros Hv Hrf. revert vc acc Hv; induction entries as [|[k v] entries IH]; intros vc acc Hv Hnd Hnc.
  { exists vc, acc. split_and!; [done..|]. intros k. done. }
  inversion Hnd as [|? ? Hnin Hnd']; subst. cbn [build_rings]. fold (to_loadMap v).
  assert (Hp : (map_to_list (to_loadMap v)).*1 ≡ₚ host_names v) by (symmetry; apply host_names_order).
  destruct (NewFromExisting_ring hash (to_loadMap v) rf vc (map_to_list (to_loadMap v)).*1)
    as (vc1 & c & -> & Hv1 & Hr & Hl & _); [done|done| |].
  { apply (no_collision_perm _ _ (host_names v)); [by rewrite Hp|]. apply (Hnc k). left. }
  destruct (IH vc1 (<[k := c]> acc) Hv1 Hnd') as (vc2 & new & -> & Hv2 & Hnew).
  { intros k' v' Hin. apply (Hnc k'). by right. }
  exists vc2, new. split_and!; [done..|]. intros k'. specialize (Hnew k'). simpl. rewrite lookup_insert.
  destruct (decide (k = k')) as [<-|Hne].
  - rewrite (not_elem_of_list_to_map_1 _ _ Hnin) in Hnew. exists c. split; [by rewrite Hnew, lookup_insert_eq|].
    split; [|done]. unfold Hosts. by rewrite Hl.
  - destruct (list_to_map entries !! k'); [done|]. by rewrite Hnew, lookup_insert_ne.
Qed.

(** What it means for the ring of a type to change. *)
Definition ring_changed (o n : option Consistent) : Prop :=
  match o, n with
  | Some c, Some c' => Consistent_Equal c c' = false
  | None, None => False
  | _, _ => True
  end.

Lemma changed_types_spec old new t : t ∈ changed_types old new ↔ ring_changed (old !! t) (new !! t).
Proof.
  unfold changed_types. rewrite elem_of_app, !list_elem_of_fmap. split.
  - intros [([k c] & -> & [Hf Hc%elem_of_map_to_list]%list_elem_of_filter)|
            ([k c] & -> & [Hf Hc%elem_of_map_to_list]%list_elem_of_filter)]; simpl in *.
    + rewrite Hc. destruct (old !! k) as [o|]; [|done]. simpl. by apply negb_true_iff.
    + by rewrite Hc, Hf.
  - intros Hc. destruct (new !! t) as [n|] eqn:Hn.
    + left. exists (t, n). split; [done|]. apply list_elem_of_filter. split; [|by apply elem_of_map_to_list].
      simpl. destruct (old !! t); [|done]. simpl in Hc. by rewrite Hc.
    + right. destruct (old !! t) as [o|] eqn:Ho; [|done]. exists (t, o). split; [done|].
      apply list_elem_of_filter. split; [done|by apply elem_of_map_to_list].
Qed.

Lemma Hosts_order c : keys_order (loadMap c) (Hosts c).
Proof. unfold keys_order, Hosts. done. Qed.

(** Installing v1 tables. Set succeeds; the returned types are exactly those whose ring
    appeared, disappeared or is not Equal to the old one; actors of the other types resolve
    as before; and every actor of a type in the tables resolves to the host that owns it on
    the consistent-hash ring of its type. *)
Theorem set_changes_only_changed_types i tables version :
  cache_valid hash (virtualNodesCache i) → rings_wf (t_Entries i) →
  (0 ≤ pt_ReplicationFactor tables)%Z →
  (∀ t v, pt_Entries tables !! t = Some v → no_collision hash (pt_ReplicationFactor tables) (host_names v)) →
  ∃ i' ch, Inflight_Set hash i tables version = Some (i', ch) ∧
    cache_valid hash (virtualNodesCache i') ∧ rings_wf (t_Entries i') ∧
    (∀ t, t ∈ ch ↔ ring_changed (t_Entries i !! t) (t_Entries i' !! t)) ∧
    (∀ t id nc, t ∉ ch →
       resolve i' {| ActorType := t; ActorID := id; NoCache := nc |} =
       resolve i {| ActorType := t; ActorID := id; NoCache := nc |}) ∧
    (∀ t v id nc, pt_Entries tables !! t = Some v → v ≠ ∅ → (0 < pt_ReplicationFactor tables)%Z →
       v2Entries i !! t = None →
       ∃ h x, owner hash (pt_ReplicationFactor tables) (host_names v) id h ∧ v !! h = Some x ∧
         resolve i' {| ActorType := t; ActorID := id; NoCache := nc |} =
           ROk {| Address := Name x; resp_AppID := Id x;
                  Local := IsActorLocal (Name x) (hostname i) (port i) |}).
Proof.
  intros Hv Hwf Hrf Hnc. unfold Inflight_Set.
  destruct (build_rings_spec (pt_ReplicationFactor tables) (map_to_list (pt_Entries tables)) (virtualNodesCache i) ∅)
    as (vc & new & -> & Hvc & Hnew); [done|done|apply NoDup_fst_map_to_list| |].
  { intros k v Hin%elem_of_map_to_list. by apply (Hnc k). }
  rewrite list_to_map_to_list in Hnew.
  assert (Hwf' : rings_wf new).
  { intros t c Hc. specialize (Hnew t). destruct (pt_Entries tables !! t).
    - destruct Hnew as (c' & Hc' & Hr & _). rewrite Hc in Hc'. injection Hc' as <-.
      by rewrite (proj1 Hr).
    - by rewrite Hc, lookup_empty in Hnew. }
  eexists _, _. split; [done|]. cbn [virtualNodesCache t_Entries set_hashTable]. split_and!; [done|done| | |].
  - apply changed_types_spec.
  - intros t id nc Ht. rewrite changed_types_spec in Ht. unfold Inflight_resolve.
    cbn [v2Entries t_Entries set_hashTable ActorType ActorID hostname port].
    destruct (v2Entries i !! t); [done|].
    destruct (t_Entries i !! t) as [o|] eqn:Ho, (new !! t) as [n|] eqn:Hn; simpl in Ht; try done.
    apply not_false_is_true in Ht. unfold GetHost.
    rewrite <-(Equal_Get hash (Hosts o) (Hosts n) o n id); [|apply Hosts_order|apply Hosts_order|by eapply Hwf|by eapply Hwf'|done].
    destruct (Get hash o id) as [[e|h]|]; [done| |done].
    destruct (Equal_loadMap o n Ht) as [_ Hh]. specialize (Hh h).
    destruct (loadMap o !! h) as [x|], (loadMap n !! h) as [y|]; try done.
    simpl in Hh. apply andb_prop in Hh as [[E1%String.eqb_eq _]%andb_prop E2%String.eqb_eq]. by rewrite E1, E2.
  - intros t v id nc Ht Hne Hrf' Hv2. specialize (Hnew t). rewrite Ht in Hnew.
    destruct Hnew as (c & Hc & Hr & Hl). unfold Inflight_resolve.
    cbn [v2Entries t_Entries set_hashTable ActorType ActorID hostname port]. rewrite Hv2, Hc. unfold GetHost.
    assert (Hp : Hosts c ≡ₚ host_names v) by (unfold Hosts; rewrite Hl; symmetry; apply host_names_order).
    destruct (Get_ring hash _ (Hosts c) c id Hr Hrf') as (h & -> & Hown).
    { apply (keys_order_nonempty (loadMap c)); [apply Hosts_order|]. rewrite Hl. unfold to_loadMap. by rewrite fmap_empty_iff. }
    assert (Hh : is_Some (v !! h)).
    { destruct Hown as (w & Hin & _). rewrite (keys_order_elem _ _ _ (Hosts_order c)), Hl in Hin.
      unfold to_loadMap in Hin. by rewrite lookup_fmap, fmap_is_Some in Hin. }
    destruct Hh as [x Hx]. exists h, x. split_and!; [|done|].
    + destruct Hown as (w & Hin & Hw & Hs). exists w. rewrite Hp in Hin. split_and!; [done..|].
      eapply successor_perm; [|exact Hs]. by rewrite Hp.
    + rewrite Hl. unfold to_loadMap. by rewrite lookup_fmap, Hx.
Qed.

End v1.

(** ** Witnesses *)

#[local] Existing Instance poly_hash.

Definition demo_inflight : Inflight := Inflight_New "127.0.0.1" "50002".

Lemma demo_v2_wf : v2_wf demo_inflight.
Proof. intros t e He. discriminate He. Qed.

Definition demo_v2_hosts : gmap string string :=
  <["10.0.0.1:50002" := "app-a"]> (<["10.0.0.2:50002" := "app-b"]> ∅).

Definition demo_v2_tables : V2Tables := mkV2Tables 1 {[ "t1" := demo_v2_hosts ]}.

Definition demo_merged (v : N) (i : Inflight) : Inflight := (Merge i demo_v2_tables {[ "t1" := v ]}).1.

Lemma merge_routes_to_owners_witness :
  ∃ a, Inflight_resolve demo_hash (demo_merged 3 demo_inflight)
         {| ActorType := "t1"; ActorID := "a1"; NoCache := false |} =
       ROk {| Address := a; resp_AppID := default EmptyString (demo_v2_hosts !! a);
              Local := IsActorLocal a "127.0.0.1" "50002" |}.
Proof.
  assert (E2 : (Merge demo_inflight demo_v2_tables {[ "t1" := 3%N ]}).2 = inr ["t1"])
    by (vm_compute; reflexivity).
  assert (E : Merge demo_inflight demo_v2_tables {[ "t1" := 3%N ]} = (demo_merged 3 demo_inflight, inr ["t1"]))
    by (rewrite <-E2; apply surjective_pairing).
  destruct (merge_routes_to_owners demo_hash demo_inflight demo_v2_tables {[ "t1" := 3%N ]}
    (demo_merged 3 demo_inflight) ["t1"] demo_v2_wf E) as (_ & H & _).
  destruct (H "t1" demo_v2_hosts "a1" false) as (a & Ha & _);
    [vm_compute; reflexivity|apply insert_non_empty|exists a; exact Ha].
Defined.

Lemma demo_merged_wf : v2_wf (demo_merged 3 demo_inflight).
Proof. apply merge_loop_wf, demo_v2_wf. Qed.

Lemma merge_versions_monotone_witness :
  ∃ e, (Merge (demo_merged 3 demo_inflight) demo_v2_tables {[ "t1" := 2%N ]}).2 = inl e.
Proof.
  apply (proj2 (merge_versions_monotone (demo_merged 3 demo_inflight) demo_v2_tables {[ "t1" := 2%N ]} "t1" 3
    demo_merged_wf ltac:(vm_compute; reflexivity)) 2%N).
  - exists demo_v2_hosts. vm_compute. reflexivity.
  - vm_compute. reflexivity.
  - reflexivity.
Defined.

Definition demo_v1_hosts : gmap string Host :=
  <["10.0.0.1" := demo_host "10.0.0.1" ["t1"]]> (<["10.0.0.2" := demo_host "10.0.0.2" ["t1"]]> ∅).

Definition demo_v1_tables : PlacementTables :=
  {| pt_Entries := {[ "t1" := demo_v1_hosts ]}; pt_Version := "1"; pt_ReplicationFactor := 3 |}.

Lemma set_changes_only_changed_types_witness :
  ∃ i' ch x, Inflight_Set demo_hash demo_inflight demo_v1_tables 1 = Some (i', ch) ∧
    Inflight_resolve demo_hash i' {| ActorType := "t1"; ActorID := "a1"; NoCache := false |} =
      ROk {| Address := Name x; resp_AppID := Id x; Local := IsActorLocal (Name x) "127.0.0.1" "50002" |}.
Proof.
  destruct (set_changes_only_changed_types demo_hash demo_inflight demo_v1_tables 1)
    as (i' & ch & E & _ & _ & _ & _ & Hroute).
  - exact demo_cache_valid.
  - intros t c Hc. discriminate Hc.
  - discriminate.
  - intros t v Hv. change (({[ "t1" := demo_v1_hosts ]} : gmap string _) !! t = Some v) in Hv.
    apply lookup_singleton_Some in Hv as [_ <-].
    apply (bool_decide_unpack _). vm_compute. exact I.
  - destruct (Hroute "t1" demo_v1_hosts "a1" false) as (h & x & _ & _ & Hr).
    + vm_compute. reflexivity.
    + apply insert_non_empty.
    + reflexivity.
    + reflexivity.
    + exists i', ch, x. split; [exact E|exact Hr].
Defined.
