(* ===== verification/SidecarDisseminator.v ===== *)
(** * The sidecar's dissemination loop
      (pkg/actors/internal/placement/loops/disseminator: disseminator.go,
       order.go, order_v2.go; Order and OrderOp of loops/loops.go)

    One loop per placement stream: it installs the tables of UPDATE orders,
    blocks and releases actor types, and acknowledges each phase, under the v1
    protocol (global versions) or the v2 protocol (rounds keyed by a sequence
    number and scoped to actor types).

    The state is the record [disseminator], with the shared [Inflight] in it.
    Outputs are the events for the stream and placement loops, the timeout
    queue, and the calls of the actor table and the scheduler client; the
    predicates passed to the actor table are part of the outputs. *)

From S2P Require Import Prelude GoLib ActorLocal ClaimLock ConsistentHash Rendezvous PlacementStore Inflight.
#[local] Open Scope dapr_scope.

(** ** Events *)

Inductive OrderOp := OrderLock | OrderUpdate | OrderUnlock | OrderUnknown.

#[export] Instance OrderOp_eq_dec : EqDecision OrderOp.
Proof. solve_decision. Defined.

(** A nil payload is [None]; its getters return the empty tables. *)
Record Order := mkOrder {
  Op : OrderOp;
  o_Version : N;
  Scope : list string;
  Versions : gmap string N;
  V1Tables : option PlacementTables;
  o_V2Tables : option V2Tables
}.

Definition v1_tables (o : Order) : PlacementTables :=
  default {| pt_Entries := ∅; pt_Version := EmptyString; pt_ReplicationFactor := 0 |} (V1Tables o).
Definition v2_tables (o : Order) : V2Tables := default (mkV2Tables 0 ∅) (o_V2Tables o).

Record HostReport := mkHostReport {
  hr_Address : string; hr_AppID : string; hr_Namespace : string; hr_ActorTypes : list string }.

Inductive diss_error :=
  | ErrTimeout (version : N)
  | ErrVersionMismatch (expected got : N)
  | ErrUnknownOperation
  | ErrUnknownRound (op : OrderOp) (seq : N)
  | ErrTables (e : place_error)
  | ErrShutdown (msg : string).

Inductive EventDiss :=
  | EvRequest (r : request)                   (* LookupRequest, LockRequest *)
  | EvReportHost (r : HostReport)
  | EvReloadReminderTypes
  | EvStreamOrder (o : Order)
  | EvDisseminationTimeout (version : N)
  | EvShutdown (err : string).

(** ** State *)

Record v2Round := mkV2Round { scope : list string; changed : gset string }.

Section diss.
Context {X : XXHash}.
Variable hash : string → N.
Variable pool_idx : lock → N.
Variable ends_by : N → Z → bool.

(** The types of the actor table when [actorTable.Types()] is called. *)
Variable table_types : list string.

(** An acknowledgement is recorded with the [Inflight] at the time it is sent. *)
Inductive diss_output :=
  | DOIn (o : in_output)
  | DOAck (op : OrderOp) (version : N) (sent_at : Inflight)
  | DOReport (r : HostReport)
  | DOCloseStream (err : diss_error)
  | DOTimeoutEnqueue (v : N)
  | DOTimeoutDequeue (v : N)
  | DOTimeoutClose
  | DOHaltNonHosted (hosted : LookupActorRequest → bool)
  | DOCompleteDrains (keep : string → bool)
  | DORoundCompleted (remote pending : gset string) (pendingAll : bool)
  | DOReloadActorTypes
  | DOReady.

Record disseminator := mkDisseminator {
  inflight : Inflight;
  timeoutVersion : N;
  currentOperation : OrderOp;
  currentVersion : N;
  roundChangedTypes : gset string;
  schedulerPlacement : bool;
  v2Rounds : gmap N v2Round;
  v2Completed : gset N;
  roundCompleted : bool
}.

Definition set_inflight v d := mkDisseminator v (timeoutVersion d) (currentOperation d)
  (currentVersion d) (roundChangedTypes d) (schedulerPlacement d) (v2Rounds d) (v2Completed d) (roundCompleted d).
Definition set_timeoutVersion v d := mkDisseminator (inflight d) v (currentOperation d)
  (currentVersion d) (roundChangedTypes d) (schedulerPlacement d) (v2Rounds d) (v2Completed d) (roundCompleted d).
Definition set_currentOperation v d := mkDisseminator (inflight d) (timeoutVersion d) v
  (currentVersion d) (roundChangedTypes d) (schedulerPlacement d) (v2Rounds d) (v2Completed d) (roundCompleted d).
Definition set_currentVersion v d := mkDisseminator (inflight d) (timeoutVersion d) (currentOperation d)
  v (roundChangedTypes d) (schedulerPlacement d) (v2Rounds d) (v2Completed d) (roundCompleted d).
Definition set_roundChangedTypes v d := mkDisseminator (inflight d) (timeoutVersion d) (currentOperation d)
  (currentVersion d) v (schedulerPlacement d) (v2Rounds d) (v2Completed d) (roundCompleted d).
Definition set_v2Rounds v d := mkDisseminator (inflight d) (timeoutVersion d) (currentOperation d)
  (currentVersion d) (roundChangedTypes d) (schedulerPlacement d) v (v2Completed d) (roundCompleted d).
Definition set_v2Completed v d := mkDisseminator (inflight d) (timeoutVersion d) (currentOperation d)
  (currentVersion d) (roundChangedTypes d) (schedulerPlacement d) (v2Rounds d) v (roundCompleted d).
Definition set_roundCompleted v d := mkDisseminator (inflight d) (timeoutVersion d) (currentOperation d)
  (currentVersion d) (roundChangedTypes d) (schedulerPlacement d) (v2Rounds d) (v2Completed d) v.

Definition Diss_New (schedulerPlacement : bool) (i : Inflight) : disseminator :=
  {| inflight := i; timeoutVersion := 0; currentOperation := OrderLock; currentVersion := 0;
     roundChangedTypes := ∅; schedulerPlacement := schedulerPlacement; v2Rounds := ∅;
     v2Completed := ∅; roundCompleted := false |}.

Definition diss_handler := prog disseminator diss_output.

(** A call of a method of the shared [Inflight]. *)
Definition call (c : in_handler) : diss_handler := λ d,
  let '(i, os) := c (inflight d) in (set_inflight i d, DOIn <$> os).

(** [d.streamLoop.Enqueue(&loops.StreamSend{Ack: &loops.Ack{Op: op, Version: version}})] *)
Definition sendAck (op : OrderOp) (version : N) : diss_handler :=
  with d do emit [DOAck op version (inflight d)].

(** ** order.go *)

Definition handleLookupRequest (resp : N) (req : LookupActorRequest) : diss_handler :=
  call (Acquire hash (LookupRequest resp req)).

Definition handleAcquireRequest (resp : N) (t : string) : diss_handler :=
  call (Acquire hash (LockRequest resp t)).

(** [(pendingAll, pending)] *)
Definition pendingTypes (d : disseminator) : bool * gset string :=
  if existsb (λ kr, length (scope kr.2) =? 0) (map_to_list (v2Rounds d)) then (true, ∅)
  else (false, roundChangedTypes d ∪
               ⋃ ((λ kr, list_to_set (scope kr.2) ∪ changed kr.2) <$> map_to_list (v2Rounds d))).

Definition reloadReminderTypes : diss_handler := emit [DOReloadActorTypes].

Definition completeRound : diss_handler :=
  modify (set_roundCompleted true) ;;;
  with d do
  let '(pendingAll, pending) := pendingTypes d in
  emit [DOCompleteDrains (λ t, bool_decide (t ∈ pending) || pendingAll || HasLocalHost (inflight d) t)] ;;;
  emit [DORoundCompleted (RemoteHostTypes (inflight d)) pending pendingAll] ;;;
  reloadReminderTypes.

Definition handleReportHost (r : HostReport) : diss_handler := emit [DOReport r].

(** What v1 and v2 UPDATE orders share once the tables are installed:
    [LockTypes(changed); Open; CancelClaimsForTypes(changed); HaltNonHosted]. *)
Definition installed_tables (ch : list string) (between : diss_handler) : diss_handler :=
  call (LockTypes ch) ;;;
  call (Inflight_Open hash pool_idx) ;;;
  between ;;;
  call (CancelClaimsForTypes ends_by ch "placement table updated") ;;;
  with d do emit [DOHaltNonHosted (IsActorHostedNoLock hash (inflight d))].

Definition handleOrder (order : Order) : diss_handler :=
  let version := o_Version order in
  match Op order with
  | OrderLock =>
      (with d do emit [DOTimeoutDequeue (timeoutVersion d)]) ;;;
      modify (λ d, set_timeoutVersion (u64_succ (timeoutVersion d)) d) ;;;
      (with d do emit [DOTimeoutEnqueue (timeoutVersion d)]) ;;;
      modify (set_currentOperation OrderLock) ;;;
      modify (set_currentVersion version) ;;;
      sendAck OrderLock version
  | OrderUpdate =>
      with d do
      if (version <? currentVersion d)%N then
        emit [DOCloseStream (ErrVersionMismatch (currentVersion d) version)]
      else
        emit [DOTimeoutDequeue (timeoutVersion d)] ;;;
        with d do
        match Inflight_Set hash (inflight d) (v1_tables order) version with
        | None => emit [DOIn Panic]
        | Some (i, ch) =>
            modify (set_inflight i) ;;;
            modify (λ d, set_roundChangedTypes (list_to_set ch ∪ roundChangedTypes d) d) ;;;
            installed_tables ch (modify (set_currentOperation OrderUpdate)) ;;;
            with d do sendAck OrderUpdate (currentVersion d)
        end
  | OrderUnlock =>
      with d do
      if negb (bool_decide (currentOperation d = OrderUpdate)) then skip
      else if (version <? currentVersion d)%N then skip
      else
        modify (set_currentVersion version) ;;;
        let toUnlock := elements (roundChangedTypes d) in
        modify (set_currentOperation OrderUnlock) ;;;
        modify (set_roundChangedTypes ∅) ;;;
        completeRound ;;;
        call (UnlockTypes hash toUnlock) ;;;
        sendAck OrderUnlock version ;;;
        emit [DOReady]
  | OrderUnknown => emit [DOCloseStream ErrUnknownOperation]
  end.

(** ** order_v2.go *)

Definition closeStreamV2 (err : diss_error) : diss_handler := emit [DOCloseStream err].

(** An order for a round that is not in flight. *)
Definition not_in_flight (op : OrderOp) (seq : N) : diss_handler :=
  with d do
  if bool_decide (seq ∈ v2Completed d) then sendAck op seq
  else closeStreamV2 (ErrUnknownRound op seq).

Definition to_unlock (r : v2Round) : list string :=
  filter (λ t, t ∉ changed r) (scope r) ++ elements (changed r).

Definition handleOrderV2 (order : Order) : diss_handler :=
  let seq := o_Version order in
  match Op order with
  | OrderLock =>
      modify (λ d, set_v2Rounds (<[seq := {| scope := Scope order; changed := ∅ |}]> (v2Rounds d)) d) ;;;
      emit [DOTimeoutEnqueue seq] ;;;
      when (negb (length (Scope order) =? 0)) (call (LockTypes (Scope order))) ;;;
      sendAck OrderLock seq
  | OrderUpdate =>
      with d do
      match v2Rounds d !! seq with
      | None => not_in_flight OrderUpdate seq
      | Some r =>
          let '(i, res) := Merge (inflight d) (v2_tables order) (Versions order) in
          modify (set_inflight i) ;;;
          match res with
          | inl e => closeStreamV2 (ErrTables e)
          | inr ch =>
              modify (λ d, set_v2Rounds
                (<[seq := {| scope := scope r; changed := list_to_set ch ∪ changed r |}]> (v2Rounds d)) d) ;;;
              installed_tables ch skip ;;;
              sendAck OrderUpdate seq
          end
      end
  | OrderUnlock =>
      with d do
      match v2Rounds d !! seq with
      | None => not_in_flight OrderUnlock seq
      | Some r =>
          modify (set_v2Rounds (delete seq (v2Rounds d))) ;;;
          modify (λ d, set_v2Completed ({[ seq ]} ∪ v2Completed d) d) ;;;
          emit [DOTimeoutDequeue seq] ;;;
          completeRound ;;;
          call (UnlockTypes hash (to_unlock r)) ;;;
          sendAck OrderUnlock seq ;;;
          with d do
          when (forallb (λ t, HasTables (inflight d) [t] || negb (isBlocked (inflight d) t)) table_types)
            (emit [DOReady])
      end
  | OrderUnknown => closeStreamV2 ErrUnknownOperation
  end.

(** ** disseminator.go *)

Definition handleShutdown (err : string) : diss_handler :=
  emit [DOCloseStream (ErrShutdown err)] ;;;
  call (Inflight_Close ends_by err) ;;;
  emit [DOTimeoutClose].

Definition handleTimeout (version : N) : diss_handler :=
  with d do
  if (if schedulerPlacement d then negb (bool_decide (is_Some (v2Rounds d !! version)))
      else negb (version =? timeoutVersion d)%N)
  then skip
  else emit [DOCloseStream (ErrTimeout version)].

Definition Handle (event : EventDiss) : diss_handler :=
  match event with
  | EvRequest (LookupRequest resp req) => handleLookupRequest resp req
  | EvRequest (LockRequest resp t) => handleAcquireRequest resp t
  | EvReportHost r => handleReportHost r
  | EvReloadReminderTypes => with d do when (roundCompleted d) reloadReminderTypes
  | EvStreamOrder o => with d do if schedulerPlacement d then handleOrderV2 o else handleOrder o
  | EvDisseminationTimeout v => handleTimeout v
  | EvShutdown err => handleShutdown err
  end.

End diss.
