(* ===== verification/SidecarProps.v ===== *)
(** * Properties of the sidecar's dissemination loop

    Over whole stream sessions: blocked types are those of the rounds in
    progress, requests queue for blocked types only, the end of a round answers
    every request it held back, an UPDATE leaves no live claim of a changed
    type. *)

From S2P Require Import Prelude GoLib ActorLocal ClaimLock ConsistentHash Rendezvous PlacementStore Inflight InflightProps SidecarDisseminator.

Section props.
Context {X : XXHash}.
Variable hash : string → N.
Variable pool_idx : lock → N.
Variable ends_by : N → Z → bool.
Variable table_types : list string.

(** ** Effects of the [Inflight] methods on the gate *)

Definition resp_of (r : request) : N :=
  match r with LockRequest p _ => p | LookupRequest p _ => p end.

(** [r] was answered in [os] (or the process panicked). *)
Definition responded (r : request) (os : list in_output) : Prop :=
  (∃ x, Respond (resp_of r) x ∈ os) ∨ Panic ∈ os.

(** [i'] differs from [i] in its lock only, whose claims stay consistent. *)
Definition lock_only (i i' : Inflight) : Prop :=
  (∃ l, i' = set_lock (lock_open i) l i) ∧ (cancelled_done (lck i) → cancelled_done (lck i')).

Lemma set_lock_id (i : Inflight) : set_lock (lock_open i) (lck i) i = i.
Proof. by destruct i. Qed.

Lemma lock_only_refl i : lock_only i i.
Proof. split; [exists (lck i); by rewrite set_lock_id|done]. Qed.

Lemma lock_only_trans i1 i2 i3 : lock_only i1 i2 → lock_only i2 i3 → lock_only i1 i3.
Proof. intros [[l1 ->] H1] [[l2 ->] H2]. split; [by exists l2|auto]. Qed.

Lemma take_claim_eq t k i :
  take_claim t k i =
    k (handleAcquire t (lck i)).2 (set_lock (lock_open i) (handleAcquire t (lck i)).1 i).
Proof. unfold take_claim, get. rewrite (surjective_pairing (handleAcquire t (lck i))). rewrite seqp_eq. simpl. by destruct (k _ _). Qed.

Lemma answer_spec r i : lock_only i (answer hash r i).1 ∧ responded r (answer hash r i).2.
Proof.
  assert (Hc : ∀ t, lock_only i (set_lock (lock_open i) (handleAcquire t (lck i)).1 i)).
  { intros t. split; [by eexists|]. done. }
  destruct r as [p t|p req]; cbn [answer].
  - rewrite take_claim_eq. simpl. split; [apply Hc|]. left. eexists. left.
  - unfold get. destruct (Inflight_resolve hash i req) as [a|e|].
    + rewrite take_claim_eq. simpl. split; [apply Hc|]. left. eexists. left.
    + simpl. split; [apply lock_only_refl|]. left. eexists. left.
    + simpl. split; [apply lock_only_refl|]. right. left.
Qed.

Lemma responded_app_l r os os' : responded r os → responded r (os ++ os').
Proof. intros [[x Hx]|Hp]; [left; exists x|right]; set_solver. Qed.

Lemma responded_app_r r os os' : responded r os' → responded r (os ++ os').
Proof. intros [[x Hx]|Hp]; [left; exists x|right]; set_solver. Qed.

Lemma answers_spec fns i :
  lock_only i (for_each fns (answer hash) i).1 ∧
  ∀ r, r ∈ fns → responded r (for_each fns (answer hash) i).2.
Proof.
  revert i; induction fns as [|r fns IH]; intros i; cbn [for_each].
  - split; [apply lock_only_refl|by intros ? ?%elem_of_nil].
  - rewrite seqp_eq. cbn [fst snd]. destruct (answer_spec r i) as [L1 R1].
    destruct (IH (answer hash r i).1) as [L2 R2]. split; [by eapply lock_only_trans|].
    intros r' [->|Hr]%elem_of_cons; [by apply responded_app_l|apply responded_app_r; auto].
Qed.

(** Flushing queues: [i'] is [i] without the queues of [ts]. *)
Definition flushed (ts : gset string) (i i' : Inflight) : Prop :=
  blockedTypes i' = blockedTypes i ∧ lock_open i' = lock_open i ∧
  (∀ t, queued i' !! t = if decide (t ∈ ts) then None else queued i !! t) ∧
  (cancelled_done (lck i) → cancelled_done (lck i')).

Lemma flush_spec t fns i :
  flushed {[ t ]} i (flush hash t fns i).1 ∧ ∀ r, r ∈ fns → responded r (flush hash t fns i).2.
Proof.
  unfold flush. rewrite seqp_eq. cbn [fst snd modify]. rewrite app_nil_r.
  destruct (answers_spec fns i) as [[[l ->] Hcd] Hr]. split; [|done]. split_and!; simpl; [done|done| |done].
  intros t'. rewrite lookup_delete. destruct (decide (t = t')) as [<-|Hne].
  - by rewrite decide_True by set_solver.
  - by rewrite decide_False by set_solver.
Qed.

(** One iteration of [UnlockTypes]. *)
Definition unlock_one (t : string) : in_handler :=
  seqp (modify (λ i, set_blockedTypes (blockedTypes i ∖ {[ t ]}) i))
    (get (λ i, match queued i !! t with
               | Some fns => if lock_open i then flush hash t fns else skip
               | None => skip
               end)).

Lemma unlock_one_spec t i :
  let r := unlock_one t i in
  blockedTypes r.1 = blockedTypes i ∖ {[ t ]} ∧ lock_open r.1 = lock_open i ∧
  (cancelled_done (lck i) → cancelled_done (lck r.1)) ∧
  (∀ t', queued r.1 !! t' = if decide (t = t' ∧ lock_open i = true) then None else queued i !! t') ∧
  (lock_open i = true → ∀ fns q, queued i !! t = Some fns → q ∈ fns → responded q r.2).
Proof.
  cbv zeta. unfold unlock_one. rewrite seqp_eq. unfold get. cbn [modify fst snd app].
  set (i1 := set_blockedTypes _ i). change (queued i1) with (queued i). change (lock_open i1) with (lock_open i).
  destruct (queued i !! t) as [fns|] eqn:Hq.
  - destruct (lock_open i) eqn:Ho.
    + destruct (flush_spec t fns i1) as [(B & O & Q & C) R]. split_and!; [done|by rewrite O|done| |].
      * intros t'. rewrite Q. destruct (decide (t = t')) as [<-|Hne].
        -- by rewrite !decide_True by set_solver.
        -- by rewrite !decide_False by set_solver.
      * intros _ fns' q [= <-]. apply R.
    + split_and!; try done. intros t'. rewrite decide_False; [done|]. by intros [_ ?].
  - split_and!; try done. intros t'. case_decide as H; [|done]. destruct H as [<- _]. done.
Qed.

Lemma UnlockTypes_spec ts i :
  let r := UnlockTypes hash ts i in
  blockedTypes r.1 = blockedTypes i ∖ list_to_set ts ∧ lock_open r.1 = lock_open i ∧
  (cancelled_done (lck i) → cancelled_done (lck r.1)) ∧
  (∀ t, queued r.1 !! t = if decide (t ∈ ts ∧ lock_open i = true) then None else queued i !! t) ∧
  (lock_open i = true → ∀ t fns q, t ∈ ts → queued i !! t = Some fns → q ∈ fns → responded q r.2).
Proof.
  cbv zeta. unfold UnlockTypes. revert i; induction ts as [|t ts IH]; intros i.
  - cbn [for_each skip fst snd]. split_and!; [set_solver|done|done| |by intros _ ? ? ? ?%elem_of_nil].
    intros t. rewrite decide_False; [done|]. by intros [?%elem_of_nil _].
  - cbn [for_each]. rewrite seqp_eq. fold (unlock_one t). cbn [fst snd].
    destruct (unlock_one_spec t i) as (B1 & O1 & C1 & Q1 & R1). destruct (IH (unlock_one t i).1) as (B2 & O2 & C2 & Q2 & R2).
    set (i1 := (unlock_one t i).1) in *. split_and!.
    + rewrite B2, B1. set_solver.
    + by rewrite O2, O1.
    + auto.
    + intros t'. rewrite Q2, Q1, O1. destruct (decide (t' ∈ ts ∧ lock_open i = true)) as [Hd|Hd].
      { rewrite decide_True; [done|]. set_solver. }
      destruct (decide (t = t' ∧ lock_open i = true)) as [He|He].
      { rewrite decide_True; [done|]. set_solver. }
      rewrite decide_False; [done|]. intros [[->|?]%elem_of_cons ?]; tauto.
    + intros Ho t' fns q Ht' Hq Hqf. rewrite O1 in R2. destruct (decide (t' = t)) as [->|Hne].
      * apply responded_app_l. by eapply R1.
      * apply responded_app_r. apply (R2 Ho t' fns); [set_solver| |done]. rewrite Q1, decide_False; [done|]. naive_solver.
Qed.

(** The flushing loop of [Open] over a list of queues. *)
Lemma flush_loop_spec i0 qs i :
  let r := for_each qs (λ kv, if isBlocked i0 kv.1 then skip else flush hash kv.1 kv.2) i in
  flushed (list_to_set (filter (λ t, t ∉ blockedTypes i0) qs.*1)) i r.1 ∧
  ∀ t fns q, (t, fns) ∈ qs → t ∉ blockedTypes i0 → q ∈ fns → responded q r.2.
Proof.
  cbv zeta. revert i; induction qs as [|[t fns] qs IH]; intros i; cbn [for_each].
  - split; [|by intros ? ? ? ?%elem_of_nil]. split_and!; try done.
  - rewrite seqp_eq. cbn [fst snd]. destruct (isBlocked i0 t) eqn:Hb; unfold isBlocked in Hb;
      [apply bool_decide_eq_true in Hb|apply bool_decide_eq_false in Hb].
    + cbn [skip fst snd app]. destruct (IH i) as [F R]. split.
      * rewrite fmap_cons, filter_cons, decide_False by (intros Hc; by apply Hc). exact F.
      * intros t' fns' q [Heq|Hin]%elem_of_cons Hnb; [simplify_eq; done|by eapply R].
    + destruct (flush_spec t fns i) as [(B1 & O1 & Q1 & C1) R1].
      destruct (IH (flush hash t fns i).1) as [(B2 & O2 & Q2 & C2) R2].
      set (i1 := (flush hash t fns i).1) in *. split.
      * rewrite fmap_cons, filter_cons, decide_True by done. split_and!; [congruence|congruence| |auto].
        intros t'. rewrite Q2, Q1. cbn [list_to_set].
        destruct (decide (t' ∈ list_to_set (filter (λ t, t ∉ blockedTypes i0) qs.*1))) as [Hd|Hd];
          [by rewrite decide_True by set_solver|].
        destruct (decide (t' ∈ ({[ t ]} : gset string))) as [He|He]; [by rewrite decide_True by set_solver|].
        rewrite decide_False; [done|]. set_solver.
      * intros t' fns' q [Heq|Hin]%elem_of_cons Hnb Hq; [simplify_eq; by apply responded_app_l, R1|].
        apply responded_app_r. by eapply R2.
Qed.

Lemma Open_spec i :
  let r := Inflight_Open hash pool_idx i in
  blockedTypes r.1 = blockedTypes i ∧ lock_open r.1 = true ∧
  (cancelled_done (lck i) → cancelled_done (lck r.1)) ∧
  (∀ t, queued r.1 !! t = if decide (t ∈ blockedTypes i) then queued i !! t else None) ∧
  (∀ t fns q, queued i !! t = Some fns → t ∉ blockedTypes i → q ∈ fns → responded q r.2).
Proof.
  cbv zeta. unfold Inflight_Open, get. rewrite seqp_eq. cbn [fst snd].
  set (i1 := (when (negb (lock_open i)) _ i).1).
  assert (H1 : blockedTypes i1 = blockedTypes i ∧ lock_open i1 = true ∧ queued i1 = queued i ∧
    (cancelled_done (lck i) → cancelled_done (lck i1))).
  { unfold i1. destruct (lock_open i) eqn:Ho; simpl; [done|]. split_and!; done. }
  destruct H1 as (B1 & O1 & Q1 & C1). clearbody i1.
  destruct (flush_loop_spec i1 (map_to_list (queued i1)) i1) as [(B & O & Q & C) R].
  cbn zeta in R. split_and!; [congruence|congruence|auto| |].
  - intros t. rewrite Q, <-B1, <-Q1.
    destruct (decide (t ∈ blockedTypes i1)) as [Hb|Hb].
    + rewrite decide_False; [done|]. rewrite elem_of_list_to_set, list_elem_of_filter. tauto.
    + destruct (queued i1 !! t) as [fns|] eqn:Hq.
      * rewrite decide_True; [done|]. rewrite elem_of_list_to_set, list_elem_of_filter. split; [done|].
        apply list_elem_of_fmap. exists (t, fns). split; [done|by apply elem_of_map_to_list].
      * by case_decide.
  - intros t fns q Hq Hnb Hin. apply responded_app_r. apply (R t fns); [|by rewrite B1|done].
    apply elem_of_map_to_list. by rewrite Q1.
Qed.

Lemma Acquire_gate r i :
  let i' := (Acquire hash r i).1 in
  blockedTypes i' = blockedTypes i ∧ lock_open i' = lock_open i ∧
  (cancelled_done (lck i) → cancelled_done (lck i')) ∧
  (∀ t, is_Some (queued i' !! t) → is_Some (queued i !! t) ∨
     (t = request_type r ∧ (lock_open i = false ∨ t ∈ blockedTypes i))).
Proof.
  cbv zeta. unfold Acquire, get. destruct (negb (lock_open i) || isBlocked i (request_type r)) eqn:Hb.
  - cbn [modify fst]. split_and!; [done..|]. intros t. simpl. rewrite lookup_insert.
    case_decide as Ht; [intros _; right|by left]. split; [done|]. subst t.
    apply orb_prop in Hb as [Hb|Hb]; [left; by apply negb_true_iff|right].
    unfold isBlocked in Hb. by apply bool_decide_eq_true in Hb.
  - destruct (answer_spec r i) as [[[l ->] Hc] _]. split_and!; [done..|]. intros t Ht. by left.
Qed.

(** No claim of the types [ts] held by the lock is live. *)
Definition drained (ts : gset string) (l : lock) : Prop :=
  ∀ j c, acquires l !! j = Some c → c_ActorType c ∈ ts → is_Some (ctx_done l !! c_id c).

Lemma CancelClaims_spec ts err i :
  cancelled_done (lck i) → lock_open i = true →
  let i' := (CancelClaimsForTypes ends_by ts err i).1 in
  blockedTypes i' = blockedTypes i ∧ lock_open i' = true ∧ queued i' = queued i ∧
  cancelled_done (lck i') ∧ drained (list_to_set ts) (lck i').
Proof.
  intros Hc Ho. cbv zeta. unfold CancelClaimsForTypes, get. rewrite Ho. cbn [andb].
  destruct (length ts =? 0) eqn:Hl; cbn [negb when modify skip fst].
  - split_and!; try done. apply Nat.eqb_eq, nil_length_inv in Hl as ->. intros j c _ Ht. set_solver.
  - set (e := mkCancelTypes _ _ _ _ _). destruct (CancelTypes_spec ends_by e (lck i) Hc) as (P & C & D & _).
    split_and!; [done..|]. intros j c Hj Ht. apply (D j); [|done]. simpl in Hj. by destruct P as [<- _].
Qed.

(** The calls an UPDATE makes once the new tables are installed. *)
Definition gated (ch : list string) (i : Inflight) : Inflight :=
  (CancelClaimsForTypes ends_by ch "placement table updated"
     (Inflight_Open hash pool_idx (LockTypes ch i).1).1).1.

Lemma gated_spec ch i :
  cancelled_done (lck i) →
  blockedTypes (gated ch i) = list_to_set ch ∪ blockedTypes i ∧ lock_open (gated ch i) = true ∧
  (∀ t, queued (gated ch i) !! t =
     if decide (t ∈ list_to_set ch ∪ blockedTypes i) then queued i !! t else None) ∧
  cancelled_done (lck (gated ch i)) ∧ drained (list_to_set ch) (lck (gated ch i)).
Proof.
  intros Hc. unfold gated. set (i1 := (LockTypes ch i).1).
  destruct (Open_spec i1) as (B & O & C & Q & _). cbv zeta in *.
  destruct (CancelClaims_spec ch "placement table updated" (Inflight_Open hash pool_idx i1).1) as (B2 & O2 & Q2 & C2 & D);
    [by apply C|done|]. split_and!; [by rewrite B2, B|done| |done|done].
  intros t. by rewrite Q2, Q.
Qed.

Lemma call_eq c d : call c d = (set_inflight (c (inflight d)).1 d, DOIn <$> (c (inflight d)).2).
Proof. unfold call. by destruct (c (inflight d)). Qed.

Lemma installed_tables_state ch (g : diss_handler) d :
  (∀ d, inflight (g d).1 = inflight d ∧ ∀ i, set_inflight i (g d).1 = (g (set_inflight i d)).1) →
  (installed_tables hash pool_idx ends_by ch g d).1 = (g (set_inflight (gated ch (inflight d)) d)).1.
Proof.
  intros Hg. unfold installed_tables, get. rewrite !seqp_eq, !call_eq. cbn [fst snd emit].
  change (inflight (set_inflight (LockTypes ch (inflight d)).1 d)) with (LockTypes ch (inflight d)).1.
  match goal with |- context [g ?x] => destruct (Hg x) as [E1 E2] end. by rewrite E1, E2.
Qed.

(** ** v1 sessions *)

Notation Handle := (SidecarDisseminator.Handle hash pool_idx ends_by table_types).

Definition ends_loop (e : EventDiss) : bool := match e with EvShutdown _ => true | _ => false end.

(** A stream session starts with no type blocked and the claim loop closed, as
    [ResetSession] and [Close] leave them. *)
Definition session_start (i : Inflight) : Prop :=
  blockedTypes i = ∅ ∧ lock_open i = false ∧ cancelled_done (lck i).

(** [i'] is [i] with other drain timeouts: the placement loop sets them on the
    shared [Inflight] while the session runs. *)
Inductive reconfigured (i : Inflight) : Inflight → Prop :=
  | conf_drain drain timeout : reconfigured i (SetDrainOngoingCallTimeout drain timeout i)
  | conf_entity timeouts : reconfigured i (SetEntityDrainOngoingCallTimeouts timeouts i).

Lemma reconfigured_gate i i' :
  reconfigured i i' →
  blockedTypes i' = blockedTypes i ∧ lock_open i' = lock_open i ∧ queued i' = queued i ∧ lck i' = lck i.
Proof. by intros []. Qed.

Inductive v1_session : disseminator → Prop :=
  | v1_start i : session_start i → v1_session (Diss_New false i)
  | v1_step d types e : v1_session d → ends_loop e = false →
      v1_session (SidecarDisseminator.Handle hash pool_idx ends_by types e d).1
  | v1_conf d i : v1_session d → reconfigured (inflight d) i → v1_session (set_inflight i d).

(** Requests queue for blocked types only, once the claim loop runs. *)
Definition queue_blocked (i : Inflight) : Prop :=
  lock_open i = true → ∀ t, is_Some (queued i !! t) → t ∈ blockedTypes i.

Record v1_inv (d : disseminator) : Prop := {
  v1_sp : schedulerPlacement d = false;
  v1_blocked : blockedTypes (inflight d) = roundChangedTypes d;
  v1_queue : queue_blocked (inflight d);
  v1_open : currentOperation d = OrderUpdate → lock_open (inflight d) = true;
  v1_cd : cancelled_done (lck (inflight d))
}.

Lemma queue_blocked_gated ch i : cancelled_done (lck i) → queue_blocked (gated ch i).
Proof.
  intros Hc _ t. destruct (gated_spec ch i Hc) as (B & _ & Q & _). rewrite Q, B.
  case_decide; [done|]. by intros [].
Qed.

Lemma queue_blocked_Acquire r i : queue_blocked i → queue_blocked (Acquire hash r i).1.
Proof.
  intros Hq Ho t Ht. destruct (Acquire_gate r i) as (B & O & _ & Q). cbv zeta in *. rewrite B.
  rewrite O in Ho. destruct (Q t Ht) as [?|[-> [Hf|?]]]; [by apply Hq|congruence|done].
Qed.

Lemma queue_blocked_Unlock ts i : queue_blocked i → queue_blocked (UnlockTypes hash ts i).1.
Proof.
  intros Hq Ho t Ht. destruct (UnlockTypes_spec ts i) as (B & O & _ & Q & _). cbv zeta in *.
  rewrite O in Ho. rewrite Q in Ht. case_decide as Hd; [by destruct Ht|]. rewrite B.
  specialize (Hq Ho t Ht). apply elem_of_difference. split; [done|]. rewrite elem_of_list_to_set. tauto.
Qed.

Lemma Set_gate i tables v i' ch :
  Inflight_Set hash i tables v = Some (i', ch) →
  blockedTypes i' = blockedTypes i ∧ lock_open i' = lock_open i ∧ queued i' = queued i ∧ lck i' = lck i.
Proof.
  unfold Inflight_Set. destruct (build_rings _ _ _ _ _) as [[vc new]|]; [|done]. by intros [= <- _].
Qed.

(** The state after an accepted v1 UPDATE. *)
Definition updated (o : Order) (i : Inflight) (ch : list string) (d : disseminator) : disseminator :=
  set_currentOperation OrderUpdate
    (set_inflight (gated ch i) (set_roundChangedTypes (list_to_set ch ∪ roundChangedTypes d) d)).

Lemma handleOrder_update_state o d i ch :
  Op o = OrderUpdate → (o_Version o <? currentVersion d)%N = false →
  Inflight_Set hash (inflight d) (v1_tables o) (o_Version o) = Some (i, ch) →
  (handleOrder hash pool_idx ends_by o d).1 = updated o i ch d.
Proof.
  intros Hop Hv HS. unfold handleOrder, get. rewrite Hop, Hv, !seqp_eq. cbn [fst snd emit]. rewrite HS.
  rewrite !seqp_eq. cbn [fst snd modify emit]. rewrite installed_tables_state; [done|].
  intros d0. split; done.
Qed.

(** Its outputs: the acknowledgement, sent from the final state, is the only one. *)
Lemma installed_tables_no_ack ch between d op v i :
  (∀ d, (between d).2 = []) → DOAck op v i ∉ (installed_tables hash pool_idx ends_by ch between d).2.
Proof.
  intros Hb. unfold installed_tables, get. rewrite !seqp_eq. cbn [fst snd].
  rewrite Hb, !call_eq. cbn [fst snd emit].
  rewrite !elem_of_app, !list_elem_of_fmap, list_elem_of_singleton, elem_of_nil.
  intros [(x & E & _)|[(x & E & _)|[[]|[(x & E & _)|E]]]]; discriminate E.
Qed.

Lemma handleOrder_update_acks o d i ch op v at_ :
  Op o = OrderUpdate → (o_Version o <? currentVersion d)%N = false →
  Inflight_Set hash (inflight d) (v1_tables o) (o_Version o) = Some (i, ch) →
  DOAck op v at_ ∈ (handleOrder hash pool_idx ends_by o d).2 ↔
    op = OrderUpdate ∧ v = currentVersion d ∧ at_ = inflight (updated o i ch d).
Proof.
  intros Hop Hv HS. unfold handleOrder, get. rewrite Hop, Hv, !seqp_eq. cbn [fst snd emit]. rewrite HS.
  rewrite !seqp_eq. cbn [fst snd modify emit]. rewrite installed_tables_state by (intros d0; split; done).
  unfold sendAck, get. cbn [fst snd emit app]. rewrite elem_of_cons, elem_of_app, list_elem_of_singleton.
  pose proof (installed_tables_no_ack ch (modify (set_currentOperation OrderUpdate))
    (set_roundChangedTypes (list_to_set ch ∪ roundChangedTypes (set_inflight i d)) (set_inflight i d)) op v at_
    (λ _, eq_refl)) as Hno.
  split; [|intros (-> & -> & ->); right; by right]. intros [?|[?|?]]; [done|by destruct Hno|]. by simplify_eq.
Qed.

Lemma completeRound_state (d : disseminator) : (completeRound d).1 = set_roundCompleted true d.
Proof.
  unfold completeRound, get. rewrite seqp_eq. cbn [modify fst]. destruct (pendingTypes _) as [a p].
  by rewrite !seqp_eq.
Qed.

(** The state after an accepted v1 UNLOCK. *)
Definition unlocked (v : N) (d : disseminator) : disseminator :=
  set_inflight (UnlockTypes hash (elements (roundChangedTypes d)) (inflight d)).1
    (set_roundCompleted true (set_roundChangedTypes ∅ (set_currentOperation OrderUnlock (set_currentVersion v d)))).

Lemma handleOrder_unlock_eq o d :
  Op o = OrderUnlock → currentOperation d = OrderUpdate → (o_Version o <? currentVersion d)%N = false →
  ∃ os, handleOrder hash pool_idx ends_by o d =
    (unlocked (o_Version o) d,
     os ++ (DOIn <$> (UnlockTypes hash (elements (roundChangedTypes d)) (inflight d)).2) ++
     [DOAck OrderUnlock (o_Version o) (inflight (unlocked (o_Version o) d)); DOReady]).
Proof.
  intros Hop Hcur Hv. unfold handleOrder, get. rewrite Hop, Hcur, Hv.
  rewrite bool_decide_eq_true_2 by done. cbn [negb]. exists (completeRound (set_roundChangedTypes ∅
    (set_currentOperation OrderUnlock (set_currentVersion (o_Version o) d)))).2.
  rewrite !seqp_eq. cbn [fst snd modify]. rewrite completeRound_state, !call_eq. cbn [fst snd emit]. done.
Qed.

(** The handlers that leave the state alone. *)
Lemma Handle_frame types e d :
  match e with EvReportHost _ | EvReloadReminderTypes | EvDisseminationTimeout _ => True | _ => False end →
  (SidecarDisseminator.Handle hash pool_idx ends_by types e d).1 = d.
Proof.
  destruct e; intros []; cbn [SidecarDisseminator.Handle]; [done|..];
    unfold handleTimeout, get, when; simpl; by case_match.
Qed.

Lemma Handle_request types r d :
  SidecarDisseminator.Handle hash pool_idx ends_by types (EvRequest r) d = call (Acquire hash r) d.
Proof. by destruct r. Qed.

Lemma v1_inv_request r d : v1_inv d → v1_inv (Handle (EvRequest r) d).1.
Proof.
  intros []. rewrite Handle_request, call_eq. cbn [fst].
  destruct (Acquire_gate r (inflight d)) as (B & O & C & _). cbv zeta in *.
  split; simpl; [done|by rewrite B| |by rewrite O|by apply C]. by apply queue_blocked_Acquire.
Qed.

Lemma v1_inv_order o d : v1_inv d → v1_inv (handleOrder hash pool_idx ends_by o d).1.
Proof.
  intros Hinv. destruct (Op o) eqn:Hop.
  - unfold handleOrder, get. rewrite Hop, !seqp_eq. cbn [fst snd modify emit]. destruct Hinv. by split.
  - destruct (o_Version o <? currentVersion d)%N eqn:Hv; [by unfold handleOrder, get; rewrite Hop, Hv|].
    destruct (Inflight_Set hash (inflight d) (v1_tables o) (o_Version o)) as [[i ch]|] eqn:HS.
    + rewrite (handleOrder_update_state o d i ch) by done.
      destruct (Set_gate _ _ _ _ _ HS) as (B & O & Q & L). destruct Hinv.
      assert (Hc : cancelled_done (lck i)) by (by rewrite L).
      destruct (gated_spec ch i Hc) as (B' & O' & _ & C' & _).
      split; simpl; [done|by rewrite B', B, v1_blocked0|by apply queue_blocked_gated|done|done].
    + unfold handleOrder, get. rewrite Hop, Hv, seqp_eq. cbn [fst snd emit]. by rewrite HS.
  - unfold handleOrder, get. rewrite Hop.
    destruct (bool_decide_reflect (currentOperation d = OrderUpdate)) as [Hcur|]; [|done]. cbn [negb].
    destruct (o_Version o <? currentVersion d)%N eqn:Hv; [done|].
    destruct (handleOrder_unlock_eq o d Hop Hcur Hv) as [os E].
    unfold handleOrder, get in E. rewrite Hop, Hv in E. rewrite bool_decide_eq_true_2 in E by done.
    cbn [negb] in E. rewrite E. cbn [fst]. destruct Hinv. specialize (v1_open0 Hcur).
    destruct (UnlockTypes_spec (elements (roundChangedTypes d)) (inflight d)) as (B & O & C & _). cbv zeta in *.
    split; simpl; [done| | |done|by apply C].
    + rewrite B, v1_blocked0, list_to_set_elements_L. set_solver.
    + by apply queue_blocked_Unlock.
  - unfold handleOrder. by rewrite Hop.
Qed.

Lemma v1_session_inv d : v1_session d → v1_inv d.
Proof.
  induction 1 as [i (Hb & Ho & Hc)|d types e Hs IH He|d i Hs IH Hi].
  - split; simpl; [done|done| |done|done]. intros Ho'. simpl in Ho'. congruence.
  - destruct e as [r|r| |o|v|err]; try discriminate He.
    + rewrite (Handle_request types r d), <-(Handle_request table_types r d). by apply v1_inv_request.
    + by rewrite (Handle_frame types).
    + by rewrite (Handle_frame types).
    + cbn [SidecarDisseminator.Handle]. unfold get. rewrite (v1_sp d IH). by apply v1_inv_order.
    + by rewrite (Handle_frame types).
  - destruct (reconfigured_gate _ _ Hi) as (B & O & Q & L). destruct IH.
    split; simpl; [done|by rewrite B| |by rewrite O|by rewrite L].
    intros Ho. simpl in Ho. rewrite O in Ho. rewrite Q, B. by apply v1_queue0.
Qed.

(** End of a v1 round in the sidecar. In any v1 session, an UNLOCK accepted in the UPDATE
    phase leaves no type blocked and no request queued, keeps the claim loop running,
    acknowledges the UNLOCK, reports readiness, and answers every request that was queued on
    its own response channel. *)
Theorem v1_unlock_answers_all_requests d o :
  v1_session d → Op o = OrderUnlock → currentOperation d = OrderUpdate → (currentVersion d ≤ o_Version o)%N →
  let '(d', os) := Handle (EvStreamOrder o) d in
  blockedTypes (inflight d') = ∅ ∧ queued (inflight d') = ∅ ∧ lock_open (inflight d') = true ∧
  DOAck OrderUnlock (o_Version o) (inflight d') ∈ os ∧ DOReady ∈ os ∧
  ∀ t fns r, queued (inflight d) !! t = Some fns → r ∈ fns →
    (∃ x, DOIn (Respond (resp_of r) x) ∈ os) ∨ DOIn Panic ∈ os.
Proof.
  intros Hs Hop Hcur Hv. pose proof (v1_session_inv d Hs) as [Hsp Hb Hq Ho _]. specialize (Ho Hcur).
  apply N.ltb_ge in Hv. destruct (handleOrder_unlock_eq o d Hop Hcur Hv) as [os E].
  cbn [SidecarDisseminator.Handle]. unfold get. rewrite Hsp, E. cbn [inflight unlocked set_inflight].
  destruct (UnlockTypes_spec (elements (roundChangedTypes d)) (inflight d)) as (B & O & _ & Q & R). cbv zeta in *.
  split_and!.
  - rewrite B, Hb, list_to_set_elements_L. set_solver.
  - apply map_eq. intros t. rewrite Q, lookup_empty.
    destruct (decide (t ∈ elements (roundChangedTypes d) ∧ lock_open (inflight d) = true)) as [|Hd]; [done|].
    destruct (queued (inflight d) !! t) eqn:Ht; [|done]. destruct Hd. split; [|done].
    apply elem_of_elements. rewrite <-Hb. apply (Hq Ho t). eauto.
  - by rewrite O.
  - set_solver.
  - set_solver.
  - intros t fns r Ht Hr. assert (Hin : t ∈ elements (roundChangedTypes d)).
    { apply elem_of_elements. rewrite <-Hb. apply (Hq Ho t). eauto. }
    destruct (R Ho t fns r Hin Ht Hr) as [[x Hx]|Hp]; [left; exists x|right];
      rewrite !elem_of_app; right; left; by apply list_elem_of_fmap_2.
Qed.

(** C27: Claims and a v1 UPDATE. In any v1 session, a sidecar that handles an accepted
    UPDATE acknowledges it, and at the time it sends the acknowledgement no claim on an
    actor of a changed type is live any more, exactly the changed types were added to the
    blocked types, and requests wait for blocked types only: calls routed with the old table
    have ended before the phase is acknowledged. *)
Theorem v1_update_drains_changed_claims d o i ch :
  v1_session d → Op o = OrderUpdate → (currentVersion d ≤ o_Version o)%N →
  Inflight_Set hash (inflight d) (v1_tables o) (o_Version o) = Some (i, ch) →
  let '(d', os) := Handle (EvStreamOrder o) d in
  (∀ op v at_ack, DOAck op v at_ack ∈ os →
     op = OrderUpdate ∧ v = currentVersion d ∧ drained (list_to_set ch) (lck at_ack) ∧
     blockedTypes at_ack = list_to_set ch ∪ blockedTypes (inflight d) ∧
     (∀ t, is_Some (queued at_ack !! t) → t ∈ blockedTypes at_ack)) ∧
  DOAck OrderUpdate (currentVersion d) (inflight d') ∈ os.
Proof.
  intros Hs Hop Hv HS. pose proof (v1_session_inv d Hs) as [Hsp Hb Hq Ho Hc].
  apply N.ltb_ge in Hv. cbn [SidecarDisseminator.Handle]. unfold get. rewrite Hsp.
  pose proof (handleOrder_update_state o d i ch Hop Hv HS) as Hst.
  pose proof (λ op v at_, handleOrder_update_acks o d i ch op v at_ Hop Hv HS) as Hack.
  destruct (handleOrder hash pool_idx ends_by o d) as [d' os]. cbn [fst snd] in Hst, Hack. subst d'.
  split; [|by apply Hack]. intros op v at_ack (-> & -> & ->)%Hack. split; [done|]. split; [done|].
  cbn [inflight updated set_inflight set_currentOperation].
  destruct (Set_gate _ _ _ _ _ HS) as (B & O & Q & L). rewrite <-L in Hc.
  destruct (gated_spec ch i Hc) as (B' & O' & Q' & C' & D'). split_and!; [done|by rewrite B', B|].
  by apply queue_blocked_gated.
Qed.

(** ** v2 sessions *)

(** A session in which the scheduler never reuses the number of a round in
    flight. *)
Definition fresh_lock (d : disseminator) (e : EventDiss) : Prop :=
  match e with
  | EvStreamOrder o => Op o = OrderLock → v2Rounds d !! o_Version o = None
  | _ => True
  end.

Inductive v2_session : disseminator → Prop :=
  | v2_start i : session_start i → v2_session (Diss_New true i)
  | v2_step d types e : v2_session d → ends_loop e = false → fresh_lock d e →
      v2_session (SidecarDisseminator.Handle hash pool_idx ends_by types e d).1
  | v2_conf d i : v2_session d → reconfigured (inflight d) i → v2_session (set_inflight i d).

(** The types a round in flight covers. *)
Definition covered (d : disseminator) (t : string) : Prop :=
  ∃ seq r, v2Rounds d !! seq = Some r ∧ (t ∈ scope r ∨ t ∈ changed r).

Record v2_inv (d : disseminator) : Prop := {
  v2_sp : schedulerPlacement d = true;
  v2_blocked : ∀ t, t ∈ blockedTypes (inflight d) → covered d t;
  v2_queue : queue_blocked (inflight d);
  v2_cd : cancelled_done (lck (inflight d))
}.

Lemma merge_loop_gate entries versions (i : Inflight) changed :
  same_rest i (merge_loop entries versions i changed).1.
Proof.
  revert i changed; induction entries as [|[t hs] entries IH]; intros i changed; [apply same_rest_refl|].
  cbn [merge_loop]. destruct (match versions !! t with Some v => _ | None => _ end) as [[v cur]|];
    [apply same_rest_refl|].
  set (i1 := match versions !! t with Some v => _ | None => _ end).
  assert (H1 : same_rest i i1) by (unfold i1; by destruct (versions !! t)).
  clearbody i1. destruct (size hs =? 0); [destruct (v2Entries i1 !! t)|];
    (eapply same_rest_trans; [exact H1|]); [|apply IH|]; (eapply same_rest_trans; [|apply IH]); done.
Qed.

Lemma Merge_gate (i : Inflight) tables versions : same_rest i (Merge i tables versions).1.
Proof.
  unfold Merge. destruct (size _ =? 0); [apply same_rest_refl|]. destruct (negb _); [apply same_rest_refl|].
  apply merge_loop_gate.
Qed.

Lemma elem_of_to_unlock r t : t ∈ to_unlock r ↔ t ∈ scope r ∨ t ∈ changed r.
Proof.
  unfold to_unlock. rewrite elem_of_app, list_elem_of_filter, elem_of_elements.
  destruct (decide (t ∈ changed r)); tauto.
Qed.

(** The states after v2 orders. *)
Definition v2_locked (o : Order) (d : disseminator) : disseminator :=
  set_inflight (if length (Scope o) =? 0 then inflight d else (LockTypes (Scope o) (inflight d)).1)
    (set_v2Rounds (<[o_Version o := {| scope := Scope o; changed := ∅ |}]> (v2Rounds d)) d).

Lemma v2_lock_state types o d :
  Op o = OrderLock → (handleOrderV2 hash pool_idx ends_by types o d).1 = v2_locked o d.
Proof.
  intros Hop. unfold handleOrderV2, v2_locked, when. rewrite Hop, !seqp_eq. cbn [fst snd modify emit].
  destruct (length (Scope o) =? 0); cbn [negb]; [by destruct d|]. by rewrite call_eq.
Qed.

Definition v2_updated (o : Order) (r : v2Round) (i : Inflight) (ch : list string) (d : disseminator)
    : disseminator :=
  set_inflight (gated ch i)
    (set_v2Rounds (<[o_Version o := {| scope := scope r; changed := list_to_set ch ∪ changed r |}]>
       (v2Rounds d)) d).

Lemma v2_update_state types o d :
  Op o = OrderUpdate →
  (handleOrderV2 hash pool_idx ends_by types o d).1 =
    match v2Rounds d !! o_Version o with
    | None => d
    | Some r =>
        match Merge (inflight d) (v2_tables o) (Versions o) with
        | (i, inl _) => set_inflight i d
        | (i, inr ch) => v2_updated o r i ch d
        end
    end.
Proof.
  intros Hop. unfold handleOrderV2, get. rewrite Hop. destruct (v2Rounds d !! o_Version o) as [r|].
  2: { unfold not_in_flight, get. by case_bool_decide. }
  destruct (Merge (inflight d) (v2_tables o) (Versions o)) as [i [e|ch]]; rewrite seqp_eq; cbn [modify fst]; [done|].
  rewrite !seqp_eq. cbn [modify fst emit]. rewrite installed_tables_state; [done|]. intros d0. split; done.
Qed.

Definition v2_unlocked (o : Order) (r : v2Round) (d : disseminator) : disseminator :=
  set_inflight (UnlockTypes hash (to_unlock r) (inflight d)).1
    (set_roundCompleted true (set_v2Completed ({[ o_Version o ]} ∪ v2Completed d)
       (set_v2Rounds (delete (o_Version o) (v2Rounds d)) d))).

Lemma v2_unlock_eq types o d r :
  Op o = OrderUnlock → v2Rounds d !! o_Version o = Some r →
  ∃ os1 os2, handleOrderV2 hash pool_idx ends_by types o d =
    (v2_unlocked o r d,
     os1 ++ (DOIn <$> (UnlockTypes hash (to_unlock r) (inflight d)).2) ++
     DOAck OrderUnlock (o_Version o) (inflight (v2_unlocked o r d)) :: os2).
Proof.
  intros Hop Hr. unfold handleOrderV2, get. rewrite Hop, Hr.
  set (d1 := set_v2Completed ({[ o_Version o ]} ∪ v2Completed d) (set_v2Rounds (delete (o_Version o) (v2Rounds d)) d)).
  exists (DOTimeoutDequeue (o_Version o) :: (completeRound d1).2).
  eexists (when (forallb (λ t, HasTables (inflight (v2_unlocked o r d)) [t] ||
     negb (isBlocked (inflight (v2_unlocked o r d)) t)) types) (emit [DOReady]) (v2_unlocked o r d)).2.
  rewrite !seqp_eq. cbn [modify fst snd emit app]. rewrite !call_eq. cbn [fst snd].
  change (set_v2Completed ({[o_Version o]} ∪ v2Completed (set_v2Rounds (delete (o_Version o) (v2Rounds d)) d))
    (set_v2Rounds (delete (o_Version o) (v2Rounds d)) d)) with d1.
  rewrite completeRound_state. change (inflight (set_roundCompleted true d1)) with (inflight d).
  change (set_inflight (UnlockTypes hash (to_unlock r) (inflight d)).1 (set_roundCompleted true d1))
    with (v2_unlocked o r d).
  f_equal. unfold when. by destruct (forallb _ _).
Qed.

Lemma v2_inv_order types o d :
  v2_inv d → (Op o = OrderLock → v2Rounds d !! o_Version o = None) →
  v2_inv (handleOrderV2 hash pool_idx ends_by types o d).1.
Proof.
  intros Hinv Hfr. destruct (Op o) eqn:Hop.
  - rewrite v2_lock_state by done. specialize (Hfr eq_refl). destruct Hinv.
    assert (Hcov : ∀ t, covered d t → covered (v2_locked o d) t).
    { intros t (seq & r & Hs & Ht). exists seq, r. split; [|done]. simpl.
      rewrite lookup_insert_ne; [done|]. congruence. }
    unfold v2_locked in *. destruct (length (Scope o) =? 0); split; simpl; try done.
    + intros t Ht. by apply Hcov, v2_blocked0.
    + intros t [Ht|Ht]%elem_of_union; [|by apply Hcov, v2_blocked0].
      eexists (o_Version o), _. simpl. rewrite lookup_insert_eq. split; [done|]. left. set_solver.
    + intros Ho t Ht. simpl in *. apply elem_of_union. right. by apply v2_queue0.
  - rewrite v2_update_state by done. destruct (v2Rounds d !! o_Version o) as [r|] eqn:Hr; [|done].
    pose proof (Merge_gate (inflight d) (v2_tables o) (Versions o)) as HG. destruct Hinv.
    destruct (Merge (inflight d) (v2_tables o) (Versions o)) as [i [e|ch]]; cbn [fst] in HG;
      destruct HG as (_ & _ & _ & Q & B & O & L).
    + split; simpl; [done| | |by rewrite L].
      * intros t. rewrite B. intros Ht. by apply v2_blocked0.
      * intros Ho t. rewrite O in Ho. rewrite Q, B. by apply v2_queue0.
    + assert (Hc : cancelled_done (lck i)) by (by rewrite L).
      destruct (gated_spec ch i Hc) as (B' & O' & _ & C' & _).
      split; simpl; [done| |by apply queue_blocked_gated|done].
      intros t. rewrite B', B. intros [Ht|Ht]%elem_of_union.
      * eexists (o_Version o), _. simpl. rewrite lookup_insert_eq. split; [done|]. right. set_solver.
      * destruct (v2_blocked0 t Ht) as (seq & r' & Hs & Hrt).
        destruct (decide (seq = o_Version o)) as [->|Hne].
        -- rewrite Hr in Hs. injection Hs as <-. eexists (o_Version o), _. simpl. rewrite lookup_insert_eq.
           split; [done|]. simpl. set_solver.
        -- exists seq, r'. simpl. by rewrite lookup_insert_ne.
  - destruct (v2Rounds d !! o_Version o) as [r|] eqn:Hr.
    2: { unfold handleOrderV2, get, not_in_flight. rewrite Hop, Hr. unfold get. by case_bool_decide. }
    destruct (v2_unlock_eq types o d r Hop Hr) as (os1 & os2 & ->). cbn [fst]. destruct Hinv.
    destruct (UnlockTypes_spec (to_unlock r) (inflight d)) as (B & O & C & _). cbv zeta in *.
    split; simpl; [done| |by apply queue_blocked_Unlock|by apply C].
    intros t. rewrite B. intros [Ht Hn]%elem_of_difference. rewrite elem_of_list_to_set, elem_of_to_unlock in Hn.
    destruct (v2_blocked0 t Ht) as (seq & r' & Hs & Hrt). exists seq, r'. simpl. split; [|done].
    rewrite lookup_delete_ne; [done|]. intros <-. rewrite Hr in Hs. injection Hs as <-. done.
  - unfold handleOrderV2. by rewrite Hop.
Qed.

Lemma v2_session_inv d : v2_session d → v2_inv d.
Proof.
  induction 1 as [i (Hb & Ho & Hc)|d types e Hs IH He Hf|d i Hs IH Hi].
  - split; simpl; [done| |intros Ho'; simpl in Ho'; congruence|done]. rewrite Hb. set_solver.
  - destruct e as [r|r| |o|v|err]; try discriminate He.
    + rewrite Handle_request, call_eq. cbn [fst]. destruct IH.
      destruct (Acquire_gate r (inflight d)) as (B & O & C & _). cbv zeta in *.
      split; simpl; [done|by rewrite B|by apply queue_blocked_Acquire|by apply C].
    + by rewrite (Handle_frame types).
    + by rewrite (Handle_frame types).
    + cbn [SidecarDisseminator.Handle]. unfold get. rewrite (v2_sp d IH). by apply v2_inv_order.
    + by rewrite (Handle_frame types).
  - destruct (reconfigured_gate _ _ Hi) as (B & O & Q & L). destruct IH.
    split; simpl; [done|by rewrite B| |by rewrite L].
    intros Ho. simpl in Ho. rewrite O in Ho. rewrite Q, B. by apply v2_queue0.
Qed.

(** Blocking in v2 sessions. Every blocked type belongs to a round in flight; once the claim
    loop runs, requests queue for blocked types only; and when no round is in flight nothing
    is blocked and nothing is queued. *)
Theorem v2_blocks_only_rounds_in_flight d :
  v2_session d →
  (∀ t, t ∈ blockedTypes (inflight d) → covered d t) ∧
  (lock_open (inflight d) = true → ∀ t, is_Some (queued (inflight d) !! t) → t ∈ blockedTypes (inflight d)) ∧
  (v2Rounds d = ∅ →
     blockedTypes (inflight d) = ∅ ∧ (lock_open (inflight d) = true → queued (inflight d) = ∅)).
Proof.
  intros Hs. destruct (v2_session_inv d Hs) as [_ Hb Hq _]. split_and!; [done|done|].
  intros Hr. assert (Hbe : blockedTypes (inflight d) = ∅).
  { apply set_eq. intros t. split; [|set_solver]. intros Ht. destruct (Hb t Ht) as (seq & r & Hs' & _).
    by rewrite Hr, lookup_empty in Hs'. }
  split; [done|]. intros Ho. apply map_eq. intros t. rewrite lookup_empty.
  destruct (queued (inflight d) !! t) eqn:Ht; [|done]. specialize (Hq Ho t ltac:(eauto)). set_solver.
Qed.

(** End of a v2 round in the sidecar. In any v2 session, the UNLOCK of a round in flight
    unblocks exactly the types of that round (its scope and the types its UPDATE changed),
    forgets the round, acknowledges it, and answers every request queued for those types;
    types of other rounds stay blocked. *)
Theorem v2_unlock_releases_round d o r :
  v2_session d → Op o = OrderUnlock → v2Rounds d !! o_Version o = Some r → lock_open (inflight d) = true →
  let '(d', os) := Handle (EvStreamOrder o) d in
  (∀ t, t ∈ blockedTypes (inflight d') ↔
        t ∈ blockedTypes (inflight d) ∧ t ∉ scope r ∧ t ∉ changed r) ∧
  v2Rounds d' = delete (o_Version o) (v2Rounds d) ∧
  DOAck OrderUnlock (o_Version o) (inflight d') ∈ os ∧
  ∀ t fns q, t ∈ scope r ∨ t ∈ changed r → queued (inflight d) !! t = Some fns → q ∈ fns →
    queued (inflight d') !! t = None ∧
    ((∃ x, DOIn (Respond (resp_of q) x) ∈ os) ∨ DOIn Panic ∈ os).
Proof.
  intros Hs Hop Hr Ho. pose proof (v2_session_inv d Hs) as [Hsp _ _ _].
  destruct (v2_unlock_eq table_types o d r Hop Hr) as (os1 & os2 & E).
  cbn [SidecarDisseminator.Handle]. unfold get. rewrite Hsp, E. cbn [inflight v2_unlocked set_inflight].
  destruct (UnlockTypes_spec (to_unlock r) (inflight d)) as (B & O & _ & Q & R). cbv zeta in *.
  split_and!; [|done|set_solver|].
  - intros t. rewrite B, elem_of_difference, elem_of_list_to_set, elem_of_to_unlock. tauto.
  - intros t fns q Ht Hq Hin. apply elem_of_to_unlock in Ht. split.
    + rewrite Q. by rewrite decide_True.
    + destruct (R Ho t fns q Ht Hq Hin) as [[x Hx]|Hp]; [left; exists x|right];
        rewrite !elem_of_app; right; left; by apply list_elem_of_fmap_2.
Qed.

End props.

(** ** Witnesses *)

#[local] Existing Instance poly_hash.

Definition demo_pool : lock → N := λ _, 0%N.
Definition demo_ends : N → Z → bool := λ _ _, false.

Definition demo_Handle : EventDiss → diss_handler := SidecarDisseminator.Handle demo_hash demo_pool demo_ends ["t1"].

Definition demo_run (sp : bool) (es : list EventDiss) : disseminator :=
  foldl (λ d e, (demo_Handle e d).1) (Diss_New sp demo_inflight) es.

Definition demo_order_of (op : OrderOp) (v : N) (sc : list string) : Order :=
  {| Op := op; o_Version := v; Scope := sc; Versions := ∅; V1Tables := Some demo_v1_tables;
     o_V2Tables := Some demo_v2_tables |}.

Definition demo_lookup (p : N) : EventDiss :=
  EvRequest (LookupRequest p {| ActorType := "t1"; ActorID := "a1"; NoCache := false |}).

Lemma demo_session_start : session_start demo_inflight.
Proof. split; [done|]. split; [done|]. intros i Hi. vm_compute in Hi. discriminate Hi. Qed.

Lemma v1_run es :
  Forall (λ e, ends_loop e = false) es → v1_session demo_hash demo_pool demo_ends (demo_run false es).
Proof.
  induction es as [|e es IH] using rev_ind; intros Hes; [apply v1_start, demo_session_start|].
  apply Forall_app in Hes as [Hes He]. rewrite Forall_singleton in He. unfold demo_run. rewrite foldl_app.
  cbn [foldl]. fold (demo_run false es). apply (v1_step demo_hash demo_pool demo_ends (demo_run false es) ["t1"] e); [by apply IH|exact He].
Qed.

Definition demo_v1_events : list EventDiss :=
  [EvStreamOrder (demo_order_of OrderLock 1 []); EvStreamOrder (demo_order_of OrderUpdate 1 []); demo_lookup 7].

Lemma v1_unlock_answers_all_requests_witness :
  queued (inflight (demo_run false demo_v1_events)) !! "t1" =
    Some [LookupRequest 7 {| ActorType := "t1"; ActorID := "a1"; NoCache := false |}] ∧
  queued (inflight (demo_Handle (EvStreamOrder (demo_order_of OrderUnlock 1 [])) (demo_run false demo_v1_events)).1) = ∅.
Proof.
  split; [vm_compute; reflexivity|].
  pose proof (v1_unlock_answers_all_requests demo_hash demo_pool demo_ends ["t1"] (demo_run false demo_v1_events)
    (demo_order_of OrderUnlock 1 []) (v1_run demo_v1_events ltac:(repeat constructor)) eq_refl
    ltac:(vm_compute; reflexivity) ltac:(vm_compute; discriminate)) as H.
  unfold demo_Handle. destruct (SidecarDisseminator.Handle _ _ _ _ _ _) as [d' os]. exact (proj1 (proj2 H)).
Defined.

(** A call on an actor of type t1 holds a claim when the next round removes the
    hosts of t1. *)
Definition demo_claim_events : list EventDiss :=
  [EvStreamOrder (demo_order_of OrderLock 1 []); EvStreamOrder (demo_order_of OrderUpdate 1 []);
   EvStreamOrder (demo_order_of OrderUnlock 1 []); demo_lookup 7; EvStreamOrder (demo_order_of OrderLock 2 [])].

Definition demo_removal : Order :=
  {| Op := OrderUpdate; o_Version := 2; Scope := []; Versions := ∅; V1Tables := None; o_V2Tables := None |}.

Lemma v1_update_drains_changed_claims_witness :
  let d := demo_run false demo_claim_events in
  (∃ c, acquires (lck (inflight d)) !! 0%N = Some c ∧ c_ActorType c = "t1" ∧
        ctx_done (lck (inflight d)) !! c_id c = None) ∧
  ∃ at_ack, DOAck OrderUpdate 2 at_ack ∈ (demo_Handle (EvStreamOrder demo_removal) d).2 ∧
    drained {["t1"]} (lck at_ack) ∧ "t1" ∈ blockedTypes at_ack.
Proof.
  set (d := demo_run false demo_claim_events). cbv zeta.
  split; [eexists; split_and!; vm_compute; reflexivity|].
  destruct (Inflight_Set demo_hash (inflight d) (v1_tables demo_removal) 2) as [[i ch]|] eqn:E;
    [|vm_compute in E; discriminate E].
  assert (Hch : ch = ["t1"]).
  { transitivity (default [] (snd <$> Inflight_Set demo_hash (inflight d) (v1_tables demo_removal) 2));
      [by rewrite E|vm_compute; reflexivity]. }
  pose proof (v1_update_drains_changed_claims demo_hash demo_pool demo_ends ["t1"] d demo_removal i ch
    (v1_run demo_claim_events ltac:(repeat constructor)) eq_refl ltac:(vm_compute; discriminate) E) as H.
  unfold demo_Handle. destruct (SidecarDisseminator.Handle _ _ _ _ _ _) as [d' os]. cbn [snd].
  destruct H as [H Hin]. exists (inflight d').
  destruct (H _ _ _ Hin) as (_ & _ & Hd & Hb & _). subst ch. split; [exact Hin|]. split.
  - intros j c Hj Hc. apply (Hd j c Hj). set_solver.
  - rewrite Hb. set_solver.
Defined.

Definition demo_v2_events : list EventDiss :=
  [EvStreamOrder (demo_order_of OrderLock 5 ["t1"]); EvStreamOrder (demo_order_of OrderUpdate 5 []); demo_lookup 7].

Lemma demo_v2_session : v2_session demo_hash demo_pool demo_ends (demo_run true demo_v2_events).
Proof.
  unfold demo_run, demo_v2_events, demo_Handle. cbn [foldl].
  apply v2_step; [|reflexivity|exact I]. apply v2_step; [|reflexivity|discriminate].
  apply v2_step; [apply v2_start, demo_session_start|reflexivity|intros _; reflexivity].
Qed.

Lemma v2_blocks_only_rounds_in_flight_witness :
  covered (demo_run true demo_v2_events) "t1".
Proof.
  apply (proj1 (v2_blocks_only_rounds_in_flight demo_hash demo_pool demo_ends _ demo_v2_session)).
  apply (bool_decide_unpack _). vm_compute. exact I.
Defined.

Lemma v2_unlock_releases_round_witness :
  v2Rounds (demo_Handle (EvStreamOrder (demo_order_of OrderUnlock 5 [])) (demo_run true demo_v2_events)).1 =
  delete 5%N (v2Rounds (demo_run true demo_v2_events)).
Proof.
  assert (Hr : ∃ r, v2Rounds (demo_run true demo_v2_events) !! 5%N = Some r)
    by (eexists; vm_compute; reflexivity).
  assert (Ho : lock_open (inflight (demo_run true demo_v2_events)) = true) by (vm_compute; reflexivity).
  destruct Hr as [r Hr].
  pose proof (v2_unlock_releases_round demo_hash demo_pool demo_ends ["t1"] (demo_run true demo_v2_events)
    (demo_order_of OrderUnlock 5 []) r demo_v2_session eq_refl Hr Ho) as H.
  unfold demo_Handle. destruct (SidecarDisseminator.Handle _ _ _ _ _ _) as [d' os]. exact (proj1 (proj2 H)).
Defined.
