(* ===== verification/ActorLock.v ===== *)
(** * The per-actor turn lock
      (pkg/actors/targets/app/lock/lock.go)

    An actor processes one request at a time, except for re-entrant calls of
    the request in progress.  Requests are flights in a FIFO ring; the front
    flight is the one that runs; [depth] counts the calls that share a flight.

    The channel [l.lock] is a mutex: the code between taking and releasing it
    is one atomic step.  A call of [LockRequest] is a thread: it enters
    ([enter]), waits for the start of its flight, its context or the closing of
    the lock, and ends with one [release].  [step] is the interleaving of such
    threads.  Flights are pointers into [heap]; a closed [startCh] is the flag
    [started].  The ring buffer (github.com/dapr/kit/ring) is the interface
    [RingBuffered]; fresh UUIDs are arguments. *)

From S2P Require Import Prelude.

(** ** The ring buffer *)

(** [Range f]: calls [f] on the values from the front until it returns false;
    the closure's captured variables are the state [S]. *)
Fixpoint range_list {T S : Type} (f : T → S → S * bool) (l : list T) (s : S) : S :=
  match l with
  | [] => s
  | x :: l' => let '(s', continue) := f x s in if continue then range_list f l' s' else s'
  end.

(** ring.Buffered: a FIFO buffer; [RemoveFront] drops the front and returns the
    new front. *)
Class RingBuffered (T : Type) := {
  ring : Type;
  r_list : ring → list T;
  NewBuffered : ring;
  AppendBack : T → ring → ring;
  Front : ring → option T;
  RemoveFront : ring → ring * option T;
  Len : ring → nat;
  Range : ∀ {S}, (T → S → S * bool) → ring → S → S;
  NewBuffered_list : r_list NewBuffered = [];
  AppendBack_list x r : r_list (AppendBack x r) = r_list r ++ [x];
  Front_list r : Front r = head (r_list r);
  RemoveFront_list r : r_list (RemoveFront r).1 = tail (r_list r) ∧
                       (RemoveFront r).2 = head (tail (r_list r));
  Len_list r : Len r = length (r_list r);
  Range_list S (f : T → S → S * bool) r s : Range f r s = range_list f (r_list r) s
}.

(** ** Data *)

Record inflight := mkInflight { id : string; depth : Z; started : bool }.

Inductive lock_error := ErrClosed | ErrContext | ErrActorMaxStackDepthExceeded.

(** A call of [LockRequest] past its first atomic step: waiting for its flight
    to start, or returned with a context and its release function. *)
Inductive call := Queued (f : N) | Running (f : N).

Definition call_flight (c : call) : N := match c with Queued f => f | Running f => f end.

(** What [idFromRequest] reads of a request: [None] for a nil message,
    [Some None] without a reentrancy header, [Some (Some v)] with one. *)
Definition request_header := option (option string).

Section lock.
Context {R : RingBuffered N}.

Record Lock := mkLock {
  reentrancyEnabled : bool;
  maxStackDepth : Z;
  inflights : ring;
  heap : gmap N inflight;
  next_flight : N;
  closed : bool;
  calls : gmap N call;        (* the calls in progress *)
  next_call : N
}.

Definition set_inflights v l := mkLock (reentrancyEnabled l) (maxStackDepth l) v (heap l)
  (next_flight l) (closed l) (calls l) (next_call l).
Definition set_heap v l := mkLock (reentrancyEnabled l) (maxStackDepth l) (inflights l) v
  (next_flight l) (closed l) (calls l) (next_call l).
Definition set_next_flight v l := mkLock (reentrancyEnabled l) (maxStackDepth l) (inflights l) (heap l)
  v (closed l) (calls l) (next_call l).
Definition set_closed v l := mkLock (reentrancyEnabled l) (maxStackDepth l) (inflights l) (heap l)
  (next_flight l) v (calls l) (next_call l).
Definition set_calls v l := mkLock (reentrancyEnabled l) (maxStackDepth l) (inflights l) (heap l)
  (next_flight l) (closed l) v (next_call l).
Definition set_next_call v l := mkLock (reentrancyEnabled l) (maxStackDepth l) (inflights l) (heap l)
  (next_flight l) (closed l) (calls l) v.

(** ** Operations *)

Definition DefaultReentrancyStackLimit : Z := 32.

(** [config]: the reentrancy configuration of the actor type, if any, as
    [(Enabled, MaxStackDepth)]. *)
Definition Lock_New (config : option (bool * option Z)) : Lock :=
  let '(enabled, max) :=
    match config with
    | Some (enabled, Some m) => (enabled, m)
    | Some (enabled, None) => (enabled, DefaultReentrancyStackLimit)
    | None => (false, DefaultReentrancyStackLimit)
    end in
  {| reentrancyEnabled := enabled; maxStackDepth := max; inflights := NewBuffered; heap := ∅;
     next_flight := 0; closed := false; calls := ∅; next_call := 0 |}.

(** The id of a request; an id generated with reentrancy enabled is also written
    to the metadata of the request, as the value returned. *)
Definition idFromRequest (l : Lock) (req : request_header) (uuid : string) : string * bool :=
  match req with
  | None => (uuid, false)
  | Some header =>
      if negb (reentrancyEnabled l) then (uuid, false)
      else match header with Some v => (v, true) | None => (uuid, true) end
  end.

Definition newInflight (id : string) : inflight := {| id := id; depth := 1; started := false |}.

Definition set_depth (v : Z) (f : inflight) : inflight := {| id := id f; depth := v; started := started f |}.
Definition set_started (f : inflight) : inflight := {| id := id f; depth := depth f; started := true |}.

Definition get_flight (l : Lock) (f : N) : inflight := default (newInflight EmptyString) (heap l !! f).

(** Allocates a flight and appends it; [start] closes its [startCh]. *)
Definition append_flight (i : string) (start : bool) (l : Lock) : Lock * N :=
  let f := next_flight l in
  let fl := if start then set_started (newInflight i) else newInflight i in
  (set_inflights (AppendBack f (inflights l))
     (set_next_flight (f + 1)%N (set_heap (<[f := fl]> (heap l)) l)), f).

(** The closure passed to [Range]: its captured variables are the heap, the
    flight found and the error. *)
Definition find_flight (i : string) (max : Z) (v : N) (s : gmap N inflight * option N * option lock_error)
    : (gmap N inflight * option N * option lock_error) * bool :=
  let '(h, flight, err) := s in
  let fl := default (newInflight EmptyString) (h !! v) in
  if negb (String.eqb (id fl) i) then (s, true)
  else if (max <? depth fl + 1)%Z then ((h, Some v, Some ErrActorMaxStackDepthExceeded), false)
  else ((<[v := set_depth (depth fl + 1) fl]> h, Some v, err), false).

Definition handleLock (ctx_err : bool) (req : request_header) (uuid : string) (l : Lock)
    : Lock * (lock_error + N) :=
  if ctx_err then (l, inl ErrContext)
  else
    let '(i, ok) := idFromRequest l req uuid in
    if negb ok || negb (reentrancyEnabled l) || (Len (inflights l) =? 0) then
      let '(l', f) := append_flight i (match Front (inflights l) with None => true | Some _ => false end) l in
      (l', inr f)
    else
      let '(h, flight, err) := Range (find_flight i (maxStackDepth l)) (inflights l) (heap l, None, None) in
      match err with
      | Some e => (l, inl e)
      | None =>
          match flight with
          | Some f => (set_heap h l, inr f)
          | None => let '(l', f) := append_flight i false l in (l', inr f)
          end
      end.

(** The loop of [release] that skips cancelled flights. *)
Fixpoint skip_cancelled (fuel : nat) (v : option N) (l : Lock) : Lock * option N :=
  match fuel with
  | O => (l, v)
  | S fuel' =>
      match v with
      | Some f =>
          if (depth (get_flight l f) =? 0)%Z then
            let '(r, v') := RemoveFront (inflights l) in skip_cancelled fuel' v' (set_inflights r l)
          else (l, v)
      | None => (l, None)
      end
  end.

Definition release (f : N) (l : Lock) : Lock :=
  let fl := get_flight l f in
  let l := set_heap (<[f := set_depth (depth fl - 1) fl]> (heap l)) l in
  if (0 <? depth fl - 1)%Z || negb (bool_decide (Front (inflights l) = Some f)) then l
  else
    let '(r, v) := RemoveFront (inflights l) in
    let '(l, v) := skip_cancelled (Len r) v (set_inflights r l) in
    match v with
    | Some g => set_heap (<[g := set_started (get_flight l g)]> (heap l)) l
    | None => l
    end.

(** The first atomic step of [LockRequest]; [inr c] is the new call. *)
Definition enter (ctx_start ctx_err : bool) (req : request_header) (uuid : string) (l : Lock)
    : Lock * (lock_error + N) :=
  if ctx_start then (l, inl ErrContext)
  else if closed l then (l, inl ErrClosed)
  else
    match handleLock ctx_err req uuid l with
    | (l', inl e) => (l', inl e)
    | (l', inr f) =>
        let c := next_call l' in
        (set_next_call (c + 1)%N (set_calls (<[c := Queued f]> (calls l')) l'), inr c)
    end.

(** The end of call [c], by its context, the closing of the lock or its
    release function. *)
Definition finish (c : N) (l : Lock) : Lock :=
  match calls l !! c with
  | Some x => release (call_flight x) (set_calls (delete c (calls l)) l)
  | None => l
  end.

(** The third case of the last [select] of [LockRequest]. *)
Definition begin (c : N) (l : Lock) : Lock :=
  match calls l !! c with
  | Some (Queued f) =>
      if closed l then finish c l else set_calls (<[c := Running f]> (calls l)) l
  | _ => l
  end.

Definition Close (l : Lock) : Lock := set_closed true l.

(** ** Interleavings *)

Inductive step : Lock → Lock → Prop :=
  | step_enter l ctx_start ctx_err req uuid : step l (enter ctx_start ctx_err req uuid l).1
  | step_cancelled l c f : calls l !! c = Some (Queued f) → step l (finish c l)
  | step_begin l c f :
      calls l !! c = Some (Queued f) → started (get_flight l f) = true → step l (begin c l)
  | step_release l c f : calls l !! c = Some (Running f) → step l (finish c l)
  | step_close l : step l (Close l).

Definition reachable_lock (config : option (bool * option Z)) (l : Lock) : Prop := rtc step (Lock_New config) l.

(** ** Invariant *)

Definition queue (l : Lock) : list N := r_list (inflights l).

(** The number of calls that share flight [f]. *)
Definition attached (f : N) (m : gmap N call) : nat := mcount (λ c, bool_decide (call_flight c = f)) m.

Record inv (l : Lock) : Prop := {
  i_nodup : NoDup (queue l);
  i_fresh : ∀ f, f ∈ queue l → (f < next_flight l)%N;
  i_depth : ∀ f, f ∈ queue l → depth (get_flight l f) = Z.of_nat (attached f (calls l));
  i_calls : ∀ c x, calls l !! c = Some x → call_flight x ∈ queue l ∧ (c < next_call l)%N;
  i_started : ∀ f, f ∈ queue l → started (get_flight l f) = true ↔ head (queue l) = Some f;
  i_running : ∀ c f, calls l !! c = Some (Running f) → head (queue l) = Some f;
  i_front : ∀ f, head (queue l) = Some f → (0 < depth (get_flight l f))%Z;
  i_max : ∀ f, f ∈ queue l → (depth (get_flight l f) ≤ Z.max 1 (maxStackDepth l))%Z;
  i_single : reentrancyEnabled l = false → ∀ f, f ∈ queue l → (depth (get_flight l f) ≤ 1)%Z
}.

Lemma get_flight_insert l f fl g :
  get_flight (set_heap (<[f := fl]> (heap l)) l) g = if decide (f = g) then fl else get_flight l g.
Proof. unfold get_flight. simpl. rewrite lookup_insert. by case_decide. Qed.

Lemma attached_insert_new f c x m :
  m !! c = None → attached f (<[c := x]> m) = (if decide (call_flight x = f) then 1 else 0) + attached f m.
Proof.
  intros Hc. unfold attached. rewrite mcount_insert_None by done.
  by destruct (bool_decide_reflect (call_flight x = f)), (decide (call_flight x = f)).
Qed.

Lemma attached_delete f c x m :
  m !! c = Some x → attached f m = (if decide (call_flight x = f) then 1 else 0) + attached f (delete c m).
Proof.
  intros Hc. unfold attached. rewrite (mcount_delete _ m c x Hc).
  by destruct (bool_decide_reflect (call_flight x = f)), (decide (call_flight x = f)).
Qed.

Lemma attached_start f c g m : m !! c = Some (Queued g) → attached f (<[c := Running g]> m) = attached f m.
Proof.
  intros Hc. pose proof (mcount_replace (λ c, bool_decide (call_flight c = f)) m c _ (Running g) Hc) as H.
  unfold attached. simpl in H. lia.
Qed.

Lemma attached_zero f m c x : attached f m = 0 → m !! c = Some x → call_flight x ≠ f.
Proof. intros H Hc Hf. rewrite (attached_delete f c x m Hc), decide_True in H by done. lia. Qed.

(** The heap of a found flight. *)
Lemma find_spec i max q h :
  let r := range_list (find_flight i max) q (h, None, None) in
  r = (h, None, None) ∨
  ∃ v, v ∈ q ∧ let fl := default (newInflight EmptyString) (h !! v) in
    r = (h, Some v, Some ErrActorMaxStackDepthExceeded) ∨
    ((depth fl + 1 ≤ max)%Z ∧ r = (<[v := set_depth (depth fl + 1) fl]> h, Some v, None)).
Proof.
  cbv zeta. induction q as [|v q IH]; [by left|]. cbn [range_list find_flight].
  set (fl := default (newInflight EmptyString) (h !! v)).
  destruct (negb (String.eqb (id fl) i)).
  - destruct IH as [->|(w & Hw & Hr)]; [by left|right]. exists w. split; [by right|done].
  - right. exists v. split; [left|]. fold fl. destruct (Z.ltb_spec max (depth fl + 1)); [by left|right]. done.
Qed.

(** Adding call [c] to an existing flight whose depth was increased. *)
Lemma inv_reenter l v :
  inv l → v ∈ queue l → reentrancyEnabled l = true → (depth (get_flight l v) + 1 ≤ maxStackDepth l)%Z →
  let l' := set_heap (<[v := set_depth (depth (get_flight l v) + 1) (get_flight l v)]> (heap l)) l in
  inv (set_next_call (next_call l + 1)%N (set_calls (<[next_call l := Queued v]> (calls l)) l')).
Proof.
  intros [] Hv Hre Hmax. cbv zeta.
  assert (Hfr : calls l !! next_call l = None).
  { destruct (calls l !! next_call l) eqn:E; [|done]. apply i_calls0 in E as [_ E]. lia. }
  assert (Hg : ∀ f, get_flight (set_next_call (next_call l + 1)%N (set_calls (<[next_call l := Queued v]> (calls l))
      (set_heap (<[v := set_depth (depth (get_flight l v) + 1) (get_flight l v)]> (heap l)) l))) f =
    if decide (v = f) then set_depth (depth (get_flight l v) + 1) (get_flight l v) else get_flight l f).
  { intros f. apply (get_flight_insert l v). }
  split; try done.
  - intros f Hf. rewrite Hg. simpl. rewrite attached_insert_new by done. simpl.
    destruct (decide (v = f)) as [->|]; simpl; rewrite i_depth0 by done; lia.
  - intros c x. simpl. rewrite lookup_insert. case_decide as Hc; [intros [= <-]; split; [done|lia]|].
    intros Hx. apply i_calls0 in Hx as [? ?]. split; [done|lia].
  - intros f Hf. rewrite Hg. destruct (decide (v = f)) as [->|]; simpl; by apply i_started0.
  - intros c f. simpl. rewrite lookup_insert. case_decide; [done|]. apply i_running0.
  - intros f Hf. rewrite Hg. specialize (i_front0 f Hf). case_decide as Hvf; [|done]. subst f. simpl. lia.
  - intros f Hf. rewrite Hg. simpl. case_decide; [simpl; lia|by apply i_max0].
  - simpl. congruence.
Qed.

(** Appending a new flight with its first call. *)
Lemma inv_append l i :
  inv l →
  let '(l', f) := append_flight i (match queue l with [] => true | _ => false end) l in
  inv (set_next_call (next_call l' + 1)%N (set_calls (<[next_call l' := Queued f]> (calls l')) l')).
Proof.
  intros []. unfold append_flight. set (start := match queue l with [] => true | _ => false end).
  set (fl := if start then set_started (newInflight i) else newInflight i). cbn [next_call set_inflights set_next_flight set_heap calls].
  assert (Hfr : calls l !! next_call l = None).
  { destruct (calls l !! next_call l) eqn:E; [|done]. apply i_calls0 in E as [_ E]. lia. }
  assert (Hnin : next_flight l ∉ queue l) by (intros Hin; apply i_fresh0 in Hin; lia).
  assert (Hdep : depth fl = 1%Z) by (unfold fl; by destruct start).
  assert (Hatt : attached (next_flight l) (calls l) = 0).
  { unfold attached. apply mcount_zero. intros c x Hx. apply bool_decide_eq_false_2. intros Hf.
    apply i_calls0 in Hx as [Hx _]. by rewrite Hf in Hx. }
  set (l' := set_next_call _ _).
  assert (Hq : queue l' = queue l ++ [next_flight l]) by (unfold queue; simpl; apply AppendBack_list).
  assert (Hg : ∀ f, get_flight l' f = if decide (next_flight l = f) then fl else get_flight l f).
  { intros f. unfold get_flight. simpl. rewrite lookup_insert. by case_decide. }
  assert (Hold : ∀ f, f ∈ queue l → get_flight l' f = get_flight l f).
  { intros f Hf. rewrite Hg, decide_False; [done|]. intros <-. done. }
  assert (Hnew : get_flight l' (next_flight l) = fl) by (rewrite Hg; by rewrite decide_True).
  assert (Hhead : ∀ f, head (queue l) = Some f → head (queue l') = Some f).
  { intros f. rewrite Hq. by destruct (queue l). }
  split; rewrite ?Hq.
  - apply list.NoDup_app. split_and!; [done|set_solver|apply NoDup_singleton].
  - intros f. rewrite elem_of_app, list_elem_of_singleton. simpl. intros [Hf| ->]; [apply i_fresh0 in Hf|]; lia.
  - intros f. rewrite elem_of_app, list_elem_of_singleton. simpl. rewrite attached_insert_new by done. simpl.
    intros [Hf| ->].
    + rewrite Hold by done. rewrite decide_False by (intros <-; done). by apply i_depth0.
    + rewrite Hnew, Hdep, decide_True by done. by rewrite Hatt.
  - intros c x. simpl. rewrite lookup_insert. case_decide as Hc.
    + intros [= <-]. simpl. split; [set_solver|lia].
    + intros Hx. apply i_calls0 in Hx as [? ?]. split; [set_solver|lia].
  - intros f. rewrite elem_of_app, list_elem_of_singleton. unfold start in *. intros [Hf| ->].
    + rewrite Hold by done. rewrite i_started0 by done. destruct (queue l); [by apply elem_of_nil in Hf|done].
    + rewrite Hnew. unfold fl. destruct (queue l) as [|g q]; simpl; [done|]. split; [done|].
      intros [= ->]. destruct Hnin. left.
  - intros c f. simpl. rewrite lookup_insert. case_decide; [done|]. intros Hc%i_running0.
    apply Hhead in Hc. by rewrite Hq in Hc.
  - intros f Hf. destruct (queue l) as [|g q] eqn:El; simpl in Hf; injection Hf as <-.
    + rewrite Hnew, Hdep. lia.
    + rewrite Hold by left. by apply i_front0.
  - intros f. rewrite elem_of_app, list_elem_of_singleton. simpl. intros [Hf| ->];
      [rewrite Hold by done; by apply i_max0|rewrite Hnew, Hdep; lia].
  - intros Hre f. rewrite elem_of_app, list_elem_of_singleton. intros [Hf| ->];
      [rewrite Hold by done; by apply i_single0|rewrite Hnew, Hdep; lia].
Qed.

Lemma inv_enter ctx_start ctx_err req uuid l : inv l → inv (enter ctx_start ctx_err req uuid l).1.
Proof.
  intros Hinv. unfold enter. destruct ctx_start; [done|]. destruct (closed l); [done|]. unfold handleLock. destruct ctx_err; [done|].
  destruct (idFromRequest l req uuid) as [i ok].
  pose proof (inv_append l i Hinv) as Ha. unfold queue in Ha.
  destruct (negb ok || negb (reentrancyEnabled l) || (Len (inflights l) =? 0)) eqn:Hc.
  - rewrite Front_list. replace (match head (r_list (inflights l)) with None => true | Some _ => false end)
      with (match r_list (inflights l) with [] => true | _ => false end) by (by destruct (r_list (inflights l))).
    destruct (append_flight _ _ l) as [l' f]. exact Ha.
  - apply orb_false_elim in Hc as [[_ Hre%negb_false_iff]%orb_false_elim Hlen].
    rewrite Range_list.
    destruct (find_spec i (maxStackDepth l) (queue l) (heap l)) as [E|(v & Hv & [E|[Hm E]])];
      cbv zeta in E; unfold queue in E; rewrite E.
    + rewrite Len_list in Hlen. destruct (r_list (inflights l)); [done|].
      destruct (append_flight i false l) as [l' f]. exact Ha.
    + done.
    + cbn [fst snd]. by apply (inv_reenter l v).
Qed.

Lemma inv_begin l c f :
  inv l → calls l !! c = Some (Queued f) → started (get_flight l f) = true →
  inv (set_calls (<[c := Running f]> (calls l)) l).
Proof.
  intros [] Hc Hst. destruct (i_calls0 c _ Hc) as [Hf Hcn]. simpl in Hf.
  split; try done.
  - intros g Hg. simpl. rewrite attached_start by done. by apply i_depth0.
  - intros c' x. simpl. rewrite lookup_insert. case_decide as E; [subst; by intros [= <-]|apply i_calls0].
  - intros c' g. simpl. rewrite lookup_insert. case_decide; [|apply i_running0].
    intros [= <-]. by apply i_started0.
Qed.

(** The queue without its leading flights of depth 0. *)
Fixpoint drop_cancelled (l : Lock) (q : list N) : list N :=
  match q with
  | [] => []
  | f :: q' => if (depth (get_flight l f) =? 0)%Z then drop_cancelled l q' else q
  end.

Lemma skip_cancelled_spec fuel l r :
  length (r_list r) ≤ fuel →
  ∃ r', skip_cancelled fuel (head (r_list r)) (set_inflights r l) =
          (set_inflights r' l, head (r_list r')) ∧ r_list r' = drop_cancelled l (r_list r).
Proof.
  revert r; induction fuel as [|fuel IH]; intros r Hlen; cbn [skip_cancelled].
  - exists r. destruct (r_list r); [done|simpl in Hlen; lia].
  - destruct (r_list r) as [|f q] eqn:Hr; cbn [head]; [exists r; by rewrite Hr|].
    change (get_flight (set_inflights r l) f) with (get_flight l f). cbn [drop_cancelled].
    destruct (depth (get_flight l f) =? 0)%Z; [|exists r; by rewrite Hr].
    cbn [inflights set_inflights]. destruct (RemoveFront_list r) as [H1 H2].
    destruct (RemoveFront r) as [r1 v]. cbn [fst snd] in *. rewrite Hr in H1, H2. simpl in H1, H2. subst v.
    destruct (IH r1) as (r' & E & Hr'); [rewrite H1; simpl in Hlen; lia|].
    exists r'. rewrite <-H1. split; [exact E|done].
Qed.

Lemma drop_cancelled_suffix l q :
  ∃ p, q = p ++ drop_cancelled l q ∧ (∀ f, f ∈ p → depth (get_flight l f) = 0%Z) ∧
       ∀ f, head (drop_cancelled l q) = Some f → depth (get_flight l f) ≠ 0%Z.
Proof.
  induction q as [|f q (p & Hq & Hz & Hh)]; [exists []; split_and!; [done|by intros ? ?%elem_of_nil|done]|].
  simpl. destruct (Z.eqb_spec (depth (get_flight l f)) 0).
  - exists (f :: p). split_and!; [by rewrite <-app_comm_cons, <-Hq|set_solver|done].
  - exists []. split_and!; [done|by intros ? ?%elem_of_nil|by intros g [= <-]].
Qed.

(** What [release] does to the ring and the heap. *)
Lemma release_eq f l :
  let fl := get_flight l f in
  let l1 := set_heap (<[f := set_depth (depth fl - 1) fl]> (heap l)) l in
  (release f l = l1 ∧ ((0 < depth fl - 1)%Z ∨ head (queue l) ≠ Some f)) ∨
  ((depth fl - 1 ≤ 0)%Z ∧ head (queue l) = Some f ∧
   ∃ r, queue (set_inflights r l) = drop_cancelled l1 (tail (queue l)) ∧
     release f l =
       match head (r_list r) with
       | Some g => set_heap (<[g := set_started (get_flight l1 g)]> (heap l1)) (set_inflights r l1)
       | None => set_inflights r l1
       end).
Proof.
  cbv zeta. unfold release. set (fl := get_flight l f). set (l1 := set_heap _ l).
  change (inflights l1) with (inflights l). rewrite Front_list. fold (queue l).
  destruct (Z.ltb_spec 0 (depth fl - 1)); [left; simpl; auto|].
  destruct (bool_decide_reflect (head (queue l) = Some f)) as [Hh|Hh]; [|left; simpl; auto]. right.
  split_and!; [lia|done|]. cbn [orb negb].
  destruct (RemoveFront_list (inflights l)) as [H1 H2]. destruct (RemoveFront (inflights l)) as [r1 v].
  cbn [fst snd] in *. fold (queue l) in H1, H2. rewrite <-H1 in H2. subst v.
  destruct (skip_cancelled_spec (Len r1) l1 r1) as (r & E & Hr); [by rewrite Len_list|].
  exists r. rewrite E. split; [unfold queue; simpl; by rewrite Hr, H1|]. by destruct (head (r_list r)).
Qed.

(** The lock once call [c] of flight [f] is gone and the depth of [f] is decremented. *)
Definition left_flight (f c : N) (l : Lock) : Lock :=
  let l0 := set_calls (delete c (calls l)) l in
  set_heap (<[f := set_depth (depth (get_flight l f) - 1) (get_flight l f)]> (heap l0)) l0.

Lemma left_flight_spec l c x :
  inv l → calls l !! c = Some x →
  let f := call_flight x in
  let l1 := left_flight f c l in
  (∀ g, g ∈ queue l → depth (get_flight l1 g) = Z.of_nat (attached g (delete c (calls l)))) ∧
  (∀ g, (depth (get_flight l1 g) ≤ depth (get_flight l g))%Z) ∧
  (∀ g, started (get_flight l1 g) = started (get_flight l g)) ∧
  depth (get_flight l1 f) = (depth (get_flight l f) - 1)%Z ∧
  (∀ g, g ≠ f → get_flight l1 g = get_flight l g).
Proof.
  intros [] Hc. destruct (i_calls0 c x Hc) as [Hf Hcn]. cbv zeta. set (f := call_flight x) in *.
  set (l1 := left_flight f c l).
  assert (Hatt : ∀ g, attached g (calls l) = (if decide (f = g) then 1 else 0) + attached g (delete c (calls l)))
    by (intros g; by apply attached_delete).
  assert (Hg1 : ∀ g, get_flight l1 g =
    if decide (f = g) then set_depth (depth (get_flight l f) - 1) (get_flight l f) else get_flight l g).
  { intros g. apply (get_flight_insert (set_calls (delete c (calls l)) l) f). }
  split_and!.
  - intros g Hg. rewrite Hg1. specialize (i_depth0 g Hg). rewrite Hatt in i_depth0.
    destruct (decide (f = g)) as [<-|Hne]; simpl; lia.
  - intros g. rewrite Hg1. case_decide; [subst; simpl; lia|lia].
  - intros g. rewrite Hg1. case_decide; [by subst|done].
  - by rewrite Hg1, decide_True.
  - intros g Hne. by rewrite Hg1, decide_False.
Qed.

(** The flight still has calls, or is not at the front: only its depth changes. *)
Lemma inv_leave l c x :
  inv l → calls l !! c = Some x →
  (0 < depth (get_flight l (call_flight x)) - 1)%Z ∨ head (queue l) ≠ Some (call_flight x) →
  inv (left_flight (call_flight x) c l).
Proof.
  intros Hi Hc Hcase. destruct (left_flight_spec l c x Hi Hc) as (Hd1 & Hle & Hst1 & Hdf & Hoth).
  cbv zeta in *. destruct Hi. set (f := call_flight x) in *. set (l1 := left_flight f c l) in *.
  split; try done; change (queue l1) with (queue l).
  - intros c' y. simpl. intros [_ Hy]%lookup_delete_Some. by apply (i_calls0 c').
  - intros g Hg. rewrite Hst1. by apply i_started0.
  - intros c' g. simpl. intros [_ Hy]%lookup_delete_Some. by apply (i_running0 c').
  - intros g Hg. specialize (i_front0 g Hg). destruct (decide (g = f)) as [->|Hne]; [|by rewrite Hoth].
    rewrite Hdf. destruct Hcase as [?|Hne]; [lia|done].
  - intros g Hg. change (maxStackDepth l1) with (maxStackDepth l).
    pose proof (Hle g). specialize (i_max0 g Hg). lia.
  - intros Hre g Hg. pose proof (Hle g). specialize (i_single0 Hre g Hg). lia.
Qed.

(** The ring [r] replaces that of [l1], and its front flight is started. *)
Definition start_front (r : ring) (l1 : Lock) : Lock :=
  match head (r_list r) with
  | Some g => set_heap (<[g := set_started (get_flight l1 g)]> (heap l1)) (set_inflights r l1)
  | None => set_inflights r l1
  end.

Lemma start_front_spec r l1 :
  queue (start_front r l1) = r_list r ∧ calls (start_front r l1) = calls l1 ∧
  next_flight (start_front r l1) = next_flight l1 ∧ next_call (start_front r l1) = next_call l1 ∧
  maxStackDepth (start_front r l1) = maxStackDepth l1 ∧
  reentrancyEnabled (start_front r l1) = reentrancyEnabled l1 ∧
  (∀ g, depth (get_flight (start_front r l1) g) = depth (get_flight l1 g)) ∧
  (∀ g, g ∈ r_list r → started (get_flight l1 g) = false →
     started (get_flight (start_front r l1) g) = true ↔ head (r_list r) = Some g).
Proof.
  unfold start_front. destruct (head (r_list r)) as [h|] eqn:Hh.
  - assert (E : ∀ g, get_flight (set_heap (<[h := set_started (get_flight l1 h)]> (heap l1)) (set_inflights r l1)) g =
      if decide (h = g) then set_started (get_flight l1 h) else get_flight l1 g)
      by (intros g; apply (get_flight_insert (set_inflights r l1) h)).
    split_and!; try done; intros g; rewrite E.
    + case_decide; [by subst|done].
    + intros _ Hold. destruct (decide (h = g)) as [->|Hne]; [done|]. rewrite Hold. split; congruence.
  - split_and!; try done. intros g Hg. destruct (r_list r); [by apply elem_of_nil in Hg|done].
Qed.

(** The calls that are left all wait in the ring that is left. *)
Lemma calls_after_pop l c x f q q' p :
  inv l → calls l !! c = Some x → call_flight x = f → queue l = f :: q → q = p ++ q' →
  (depth (get_flight l f) - 1 ≤ 0)%Z →
  (∀ g, g ∈ p → depth (get_flight (left_flight f c l) g) = 0%Z) →
  ∀ c' y, delete c (calls l) !! c' = Some y → call_flight y ∈ q'.
Proof.
  intros Hi Hc Hx Hql Hsuf Hz Hzero c' y Hy.
  destruct (left_flight_spec l c x Hi Hc) as (Hd1 & _ & _ & Hdf & _). cbv zeta in *. rewrite Hx in *. destruct Hi.
  assert (Hin : call_flight y ∈ f :: q).
  { rewrite <-Hql. apply lookup_delete_Some in Hy as [_ Hy]. by apply i_calls0 in Hy as [? _]. }
  assert (Hpos : (0 < depth (get_flight (left_flight f c l) (call_flight y)))%Z).
  { rewrite Hd1 by (by rewrite Hql). destruct (attached (call_flight y) (delete c (calls l))) eqn:Ha; [|lia].
    by destruct (attached_zero _ _ c' y Ha). }
  apply elem_of_cons in Hin as [Heq|Hin]; [rewrite Heq in Hpos; lia|].
  rewrite Hsuf in Hin. apply elem_of_app in Hin as [Hin|]; [|done]. rewrite Hzero in Hpos by done. lia.
Qed.

(** The front flight has no call left: it is popped with the flights given up behind it. *)
Lemma inv_pop l c x r :
  inv l → calls l !! c = Some x → head (queue l) = Some (call_flight x) →
  (depth (get_flight l (call_flight x)) - 1 ≤ 0)%Z →
  r_list r = drop_cancelled (left_flight (call_flight x) c l) (tail (queue l)) →
  inv (start_front r (left_flight (call_flight x) c l)).
Proof.
  intros Hi Hc Hhd Hz Hqr. pose proof (left_flight_spec l c x Hi Hc) as (Hd1 & Hle & Hst1 & _ & _).
  cbv zeta in *. set (f := call_flight x) in *. set (l1 := left_flight f c l) in *.
  destruct (queue l) as [|f' q] eqn:Hql; [done|]. injection Hhd as ->. simpl in Hqr.
  destruct (drop_cancelled_suffix l1 q) as (p & Hsuf & Hzero & Hhead). rewrite <-Hqr in Hsuf, Hhead.
  pose proof (calls_after_pop l c x f q (r_list r) p Hi Hc eq_refl Hql Hsuf Hz Hzero) as Hcalls.
  destruct Hi. rewrite Hql in *. inversion i_nodup0 as [|? ? Hfq Hq]; subst x0 l0.
  assert (Hsub : ∀ g, g ∈ r_list r → g ∈ q) by (intros g Hg; rewrite Hsuf; set_solver).
  destruct (start_front_spec r l1) as (Hq2 & Rc & Rf & Rn & Rm & Rr & Hdep2 & Hst2).
  split; rewrite ?Hq2, ?Rc, ?Rf, ?Rn, ?Rm, ?Rr; simpl.
  - rewrite Hsuf in Hq. by apply list.NoDup_app in Hq as (_ & _ & ?).
  - intros g Hg. apply i_fresh0. right. auto.
  - intros g Hg. rewrite Hdep2. apply Hd1. right. auto.
  - intros c' y Hy. split; [by eapply Hcalls|]. apply lookup_delete_Some in Hy as [_ Hy].
    by apply i_calls0 in Hy as [_ ?].
  - intros g Hg. apply Hst2; [done|]. rewrite Hst1. apply not_true_is_false.
    rewrite i_started0 by (right; auto). simpl. intros [= ->]. auto.
  - intros c' g Hy. assert (Hg : g ∈ r_list r) by (by apply (Hcalls c' (Running g))).
    apply lookup_delete_Some in Hy as [_ Hy]. apply i_running0 in Hy. simpl in Hy. injection Hy as ->.
    destruct Hfq. auto.
  - intros g Hg. rewrite Hdep2. pose proof (Hhead g Hg) as Hnz.
    assert (Hgq : g ∈ f :: q) by (right; apply Hsub; revert Hg; generalize (r_list r); intros [|? ?] [= ->]; left).
    rewrite Hd1 in * by done. lia.
  - intros g Hg. rewrite Hdep2. pose proof (Hle g). specialize (i_max0 g ltac:(right; auto)). lia.
  - intros Hre g Hg. rewrite Hdep2. pose proof (Hle g). specialize (i_single0 Hre g ltac:(right; auto)). lia.
Qed.

Lemma inv_finish l c x :
  inv l → calls l !! c = Some x → inv (release (call_flight x) (set_calls (delete c (calls l)) l)).
Proof.
  intros Hi Hc.
  destruct (release_eq (call_flight x) (set_calls (delete c (calls l)) l)) as [[-> Hcase]|(Hz & Hhd & r & Hqr & ->)].
  - by apply (inv_leave l c x).
  - by apply (inv_pop l c x r).
Qed.

Lemma inv_finish_call l c x : inv l → calls l !! c = Some x → inv (finish c l).
Proof. intros Hi Hc. unfold finish. rewrite Hc. by apply inv_finish. Qed.

Lemma inv_step l l' : step l l' → inv l → inv l'.
Proof.
  destruct 1 as [l e req u|l c f Hc|l c f Hc Hst|l c f Hc|l]; intros Hi.
  - by apply inv_enter.
  - by eapply inv_finish_call.
  - unfold begin. rewrite Hc. destruct (closed l); [by eapply inv_finish_call|by apply inv_begin].
  - by eapply inv_finish_call.
  - destruct Hi. by split.
Qed.

Lemma queue_New config : queue (Lock_New config) = [].
Proof. unfold queue, Lock_New. destruct config as [[e [m|]]|]; apply NewBuffered_list. Qed.

Lemma calls_New config : calls (Lock_New config) = ∅.
Proof. by destruct config as [[e [m|]]|]. Qed.

Lemma inv_New config : inv (Lock_New config).
Proof.
  split; rewrite ?queue_New, ?calls_New; try (by intros ? ?%elem_of_nil); try done.
  - constructor.
  - by intros _ ? ?%elem_of_nil.
Qed.

Lemma reachable_inv config l : reachable_lock config l → inv l.
Proof.
  intros H. apply (rtc_ind_r inv (Lock_New config)) in H; [done|apply inv_New|].
  intros l1 l2 _ Hs Hi. by eapply inv_step.
Qed.

Lemma attached_two f m c1 c2 x1 x2 :
  c1 ≠ c2 → m !! c1 = Some x1 → m !! c2 = Some x2 → call_flight x1 = f → call_flight x2 = f → 2 ≤ attached f m.
Proof.
  intros Hne H1 H2 E1 E2. rewrite (attached_delete f c1 x1 m H1), decide_True by done.
  rewrite (attached_delete f c2 x2 (delete c1 m)), decide_True by (by rewrite ?lookup_delete_ne). lia.
Qed.

Lemma attached_some f m : 0 < attached f m → ∃ c x, m !! c = Some x ∧ call_flight x = f.
Proof.
  intros H. destruct (decide (map_Forall (λ _ x, call_flight x ≠ f) m)) as [Hall|Hn].
  - assert (attached f m = 0); [|lia]. apply mcount_zero. intros c x Hx. apply bool_decide_eq_false_2. by apply (Hall c).
  - apply map_not_Forall in Hn; [|apply _]. destruct Hn as (c & x & Hc & Hx). exists c, x. split; [done|].
    by apply dec_stable.
Qed.

(** ** Properties *)

(** C38: Turn-based access. In every reachable state of an actor's lock two running calls
    belong to the same turn, which is at the front of the queue; without reentrancy at most
    one call runs. *)
Theorem actor_turns_exclusive config l c1 c2 f1 f2 :
  reachable_lock config l → calls l !! c1 = Some (Running f1) → calls l !! c2 = Some (Running f2) →
  f1 = f2 ∧ head (queue l) = Some f1 ∧ (reentrancyEnabled l = false → c1 = c2).
Proof.
  intros Hr H1 H2. destruct (reachable_inv config l Hr). pose proof (i_running0 c1 f1 H1) as E1.
  pose proof (i_running0 c2 f2 H2) as E2. assert (f1 = f2) as <- by congruence. split_and!; [done|done|].
  intros Hre. destruct (decide (c1 = c2)) as [|Hne]; [done|exfalso].
  destruct (i_calls0 c1 _ H1) as [Hq _]. simpl in Hq. specialize (i_single0 Hre f1 Hq).
  rewrite i_depth0 in i_single0 by done.
  pose proof (attached_two f1 (calls l) c1 c2 _ _ Hne H1 H2 eq_refl eq_refl). lia.
Qed.

(** Reentrancy depth. The depth of a queued turn is the number of calls that belong to it,
    and it never exceeds the configured maximum stack depth (or one). *)
Theorem actor_reentrancy_bounded config l f :
  reachable_lock config l → f ∈ queue l →
  depth (get_flight l f) = Z.of_nat (attached f (calls l)) ∧
  (Z.of_nat (attached f (calls l)) ≤ Z.max 1 (maxStackDepth l))%Z.
Proof.
  intros Hr Hf. destruct (reachable_inv config l Hr). rewrite <-i_depth0 by done. split; [done|]. by apply i_max0.
Qed.

(** C39: No lost wake-up. While any call is pending on an actor, the front turn has a live
    call and has been started, so a call can always make progress. *)
Theorem actor_lock_never_stuck config l :
  reachable_lock config l → calls l ≠ ∅ →
  ∃ f c x, head (queue l) = Some f ∧ calls l !! c = Some x ∧ call_flight x = f ∧
    started (get_flight l f) = true ∧ ∃ l', step l l' ∧ l' ≠ l.
Proof.
  intros Hr Hne. pose proof (reachable_inv config l Hr) as Hi. destruct Hi.
  apply map_choose in Hne as (c0 & x0 & Hc0). destruct (i_calls0 c0 x0 Hc0) as [Hq _].
  destruct (queue l) as [|f q] eqn:Hql; [by apply elem_of_nil in Hq|].
  assert (Hf : f ∈ f :: q) by left.
  destruct (attached_some f (calls l)) as (c & x & Hc & Hx).
  { specialize (i_front0 f eq_refl). rewrite i_depth0 in i_front0 by done. lia. }
  exists f, c, x. split_and!; [done|done|done|by apply i_started0|].
  exists (finish c l). split; [destruct x; [by eapply step_cancelled|by eapply step_release]|].
  intros E. assert (Hcalls : calls (finish c l) = delete c (calls l)).
  { unfold finish. rewrite Hc. destruct (release_eq (call_flight x) (set_calls (delete c (calls l)) l))
      as [[-> _]|(_ & _ & r & _ & ->)]; [done|]. by destruct (head (r_list r)). }
  rewrite E in Hcalls. rewrite Hcalls, lookup_delete_eq in Hc. done.
Qed.

(** Turns are granted in order. When the last call of the front turn ends, the turns removed
    with it are exactly those whose callers had all given up, and the next turn in arrival
    order is started. *)
Theorem actor_turns_fifo config l c x :
  reachable_lock config l → calls l !! c = Some x → head (queue l) = Some (call_flight x) →
  attached (call_flight x) (calls l) = 1 →
  let l' := finish c l in
  ∃ p, tail (queue l) = p ++ queue l' ∧ (∀ g, g ∈ p → attached g (calls l) = 0) ∧
    calls l' = delete c (calls l) ∧
    ∀ g, head (queue l') = Some g → started (get_flight l' g) = true ∧ 0 < attached g (calls l').
Proof.
  intros Hr Hc Hh Hone. cbv zeta. pose proof (reachable_inv config l Hr) as Hi.
  pose proof (inv_finish_call l c x Hi Hc) as Hi'. destruct (i_calls l Hi c x Hc) as [Hf _].
  pose proof (i_depth l Hi _ Hf) as Hd. rewrite Hone in Hd.
  assert (E : finish c l = release (call_flight x) (set_calls (delete c (calls l)) l)) by (unfold finish; by rewrite Hc).
  destruct (release_eq (call_flight x) (set_calls (delete c (calls l)) l)) as [[_ Hcase]|(_ & _ & r & Hqr & Er)].
  { exfalso. change (get_flight (set_calls (delete c (calls l)) l)) with (get_flight l) in Hcase.
    change (queue (set_calls (delete c (calls l)) l)) with (queue l) in Hcase. destruct Hcase as [?|?]; [lia|done]. }
  rewrite <-E in Er. set (l1 := set_heap _ _) in Hqr, Er.
  change (queue (set_calls (delete c (calls l)) l)) with (queue l) in Hqr.
  assert (Hq' : queue (finish c l) = r_list r) by (rewrite Er; by destruct (head (r_list r))).
  assert (Hcalls : calls (finish c l) = delete c (calls l)) by (rewrite Er; by destruct (head (r_list r))).
  destruct (drop_cancelled_suffix l1 (tail (queue l))) as (p & Hsuf & Hz & _). rewrite <-Hqr in Hsuf.
  exists p. split_and!; [by rewrite Hq'| |done|].
  - intros g Hg. specialize (Hz g Hg). destruct (queue l) as [|f q] eqn:Hql; [done|]. simpl in *. injection Hh as ->.
    pose proof (i_nodup l Hi) as Hnd. rewrite Hql, list.NoDup_cons in Hnd. destruct Hnd as [Hni _].
    assert (Hgq : g ∈ q) by (rewrite Hsuf; set_solver).
    assert (Hg1 : get_flight l1 g = get_flight l g).
    { unfold l1. rewrite (get_flight_insert (set_calls (delete c (calls l)) l)), decide_False; [done|]. by intros <-. }
    rewrite Hg1, (i_depth l Hi) in Hz by (rewrite Hql; by right). lia.
  - intros g Hg. assert (Hgq : g ∈ queue (finish c l)).
    { destruct (queue (finish c l)); [done|]. injection Hg as ->. left. }
    split; [by apply (i_started _ Hi')|]. pose proof (i_front _ Hi' g Hg) as Hp. rewrite (i_depth _ Hi') in Hp by done. lia.
Qed.

End lock.

(** ** Witnesses *)

(** A list is such a ring. *)
#[refine] Definition list_ring : RingBuffered N := {|
  ring := list N; r_list := λ l, l; NewBuffered := []; AppendBack := λ x l, l ++ [x];
  Front := head; RemoveFront := λ l, (tail l, head (tail l)); Len := length; Range := @range_list N |}.
Proof. all: done. Defined.

#[local] Existing Instance list_ring.

(** Re-entrancy is enabled with depth 2; "a" runs with a re-entrant call, "b"
    waits. *)
Definition demo_actor_lock : Lock :=
  begin 1 (enter false false (Some (Some "b")) "u2" (enter false false (Some (Some "a")) "u1"
    (begin 0 (enter false false (Some (Some "a")) "u0" (Lock_New (Some (true, Some 2%Z)))).1)).1).1.

Lemma demo_actor_reachable : reachable_lock (Some (true, Some 2%Z)) demo_actor_lock.
Proof.
  unfold reachable_lock, demo_actor_lock.
  eapply rtc_l; [apply (step_enter _ false false (Some (Some "a")) "u0")|].
  eapply rtc_l; [apply (step_begin _ 0 0); vm_compute; reflexivity|].
  eapply rtc_l; [apply (step_enter _ false false (Some (Some "a")) "u1")|].
  eapply rtc_l; [apply (step_enter _ false false (Some (Some "b")) "u2")|].
  eapply rtc_l; [apply (step_begin _ 1 0); vm_compute; reflexivity|]. apply rtc_refl.
Qed.

Lemma actor_turns_exclusive_witness : head (queue demo_actor_lock) = Some 0%N.
Proof.
  exact (proj1 (proj2 (actor_turns_exclusive (Some (true, Some 2%Z)) demo_actor_lock 0 1 0 0 demo_actor_reachable
    ltac:(vm_compute; reflexivity) ltac:(vm_compute; reflexivity)))).
Defined.

Lemma actor_reentrancy_bounded_witness :
  (Z.of_nat (attached 0 (calls demo_actor_lock)) ≤ Z.max 1 (maxStackDepth demo_actor_lock))%Z.
Proof.
  refine (proj2 (actor_reentrancy_bounded (Some (true, Some 2%Z)) demo_actor_lock 0 demo_actor_reachable _)).
  vm_compute. left.
Defined.

Lemma actor_lock_never_stuck_witness : ∃ l', step demo_actor_lock l' ∧ l' ≠ demo_actor_lock.
Proof.
  destruct (actor_lock_never_stuck (Some (true, Some 2%Z)) demo_actor_lock demo_actor_reachable)
    as (_ & _ & _ & _ & _ & _ & _ & H); [|exact H].
  intros E. assert (H : calls demo_actor_lock !! 0%N = None) by (rewrite E; reflexivity). vm_compute in H. discriminate H.
Defined.

(** The first of the two re-entrant calls has ended. *)
Definition demo_actor_lock1 : Lock := finish 1 demo_actor_lock.

Lemma actor_turns_fifo_witness :
  ∃ p, tail (queue demo_actor_lock1) = p ++ queue (finish 0 demo_actor_lock1).
Proof.
  assert (Hr : reachable_lock (Some (true, Some 2%Z)) demo_actor_lock1).
  { eapply rtc_r; [exact demo_actor_reachable|]. apply (step_release _ 1 0). vm_compute. reflexivity. }
  destruct (actor_turns_fifo (Some (true, Some 2%Z)) demo_actor_lock1 0 (Running 0) Hr) as (p & Hp & _);
    [vm_compute; reflexivity..|]. exists p. exact Hp.
Defined.
