(* ===== verification/RemoteHosts.v ===== *)
(** * Watching for remote hosts of an actor type
      (pkg/actors/internal/placement/loops/placement/remotehosts.go)

    The placement loop tells subscribers whether another sidecar hosts an actor
    type.  A subscriber channel has a buffer of one; the record [chan] keeps
    its buffer, whether it is closed, and the last value sent on it.  [None] is
    a run-time panic (send on or close of a closed channel). *)

From S2P Require Import Prelude.

(** ** Definitions *)

Record chan := mkChan { buf : option bool; ch_closed : bool; last_sent : option bool }.

Record remoteHosts := mkRemoteHosts {
  known : bool;
  remote : gmap string bool;
  unsettled : gset string;
  watchers : gmap string (gset N);
  chans : gmap N chan;
  next_chan : N
}.

Definition set_answers k r u s := mkRemoteHosts k r u (watchers s) (chans s) (next_chan s).
Definition set_watchers v s := mkRemoteHosts (known s) (remote s) (unsettled s) v (chans s) (next_chan s).
Definition set_chans v s := mkRemoteHosts (known s) (remote s) (unsettled s) (watchers s) v (next_chan s).
Definition set_next_chan v s := mkRemoteHosts (known s) (remote s) (unsettled s) (watchers s) (chans s) v.

Record RoundCompleted := mkRoundCompleted {
  Remote : gmap string bool; Pending : gset string; PendingAll : bool }.

Definition remoteHosts_zero : remoteHosts := mkRemoteHosts false ∅ ∅ ∅ ∅ 0.

(** The answer for a type; [None] while it is not known. *)
Definition rh_answer (s : remoteHosts) (t : string) : option bool :=
  if negb (known s) then None
  else if bool_decide (t ∈ unsettled s) then None
  else Some (default false (remote s !! t)).

(** [send]: the buffer is emptied, then filled. *)
Definition send (v : bool) (cs : gmap N chan) (ch : N) : option (gmap N chan) :=
  match cs !! ch with
  | Some c => if ch_closed c then None else Some (<[ch := mkChan (Some v) false (Some v)]> cs)
  | None => None
  end.

Definition close_chan (cs : gmap N chan) (ch : N) : option (gmap N chan) :=
  match cs !! ch with
  | Some c => if ch_closed c then None else Some (<[ch := mkChan (buf c) true (last_sent c)]> cs)
  | None => None
  end.

(** A loop whose body may panic. *)
Definition loop {A} (body : gmap N chan → A → option (gmap N chan)) (l : list A) (cs : gmap N chan)
    : option (gmap N chan) := foldl (λ o x, o ≫= λ cs, body cs x) (Some cs) l.

Definition watch (t : string) (s : remoteHosts) : option (remoteHosts * N) :=
  let ch := next_chan s in
  let s := set_next_chan (ch + 1)%N (set_chans (<[ch := mkChan None false None]> (chans s)) s) in
  let s := set_watchers (<[t := {[ ch ]} ∪ default ∅ (watchers s !! t)]> (watchers s)) s in
  match rh_answer s t with
  | Some v => match send v (chans s) ch with Some cs => Some (set_chans cs s, ch) | None => None end
  | None => Some (s, ch)
  end.

Definition unwatch (t : string) (ch : N) (s : remoteHosts) : option remoteHosts :=
  match watchers s !! t with
  | None => Some s
  | Some chs =>
      if bool_decide (ch ∈ chs) then
        let chs' := chs ∖ {[ ch ]} in
        let ws := if size chs' =? 0 then delete t (watchers s) else <[t := chs']> (watchers s) in
        match close_chan (chans s) ch with
        | Some cs => Some (set_chans cs (set_watchers ws s))
        | None => None
        end
      else Some s
  end.

(** The loop of [roundCompleted] over the pending types. *)
Definition pending_step (s : remoteHosts) (acc : gmap string bool * gset string) (t : string)
    : gmap string bool * gset string :=
  let rem := delete t acc.1 in
  match rh_answer s t with
  | None => (rem, {[ t ]} ∪ acc.2)
  | Some true => (<[t := true]> rem, acc.2)
  | Some false => (rem, acc.2)
  end.

(** The loop of [roundCompleted] over the watchers of one type. *)
Definition notify (before after : remoteHosts) (cs : gmap N chan) (kv : string * gset N)
    : option (gmap N chan) :=
  match rh_answer after kv.1 with
  | None => Some cs
  | Some now =>
      if bool_decide (rh_answer before kv.1 = Some now) then Some cs
      else loop (send now) (elements kv.2) cs
  end.

Definition roundCompleted (e : RoundCompleted) (s : remoteHosts) : option remoteHosts :=
  if PendingAll e then Some s
  else
    let '(rem, uns) := foldl (pending_step s) (Remote e, ∅) (elements (Pending e)) in
    let s' := set_answers true rem uns s in
    match loop (notify s s') (map_to_list (watchers s)) (chans s) with
    | Some cs => Some (set_chans cs s')
    | None => None
    end.

Definition rh_close (s : remoteHosts) : option remoteHosts :=
  match loop (λ cs kv, loop close_chan (elements kv.2) cs) (map_to_list (watchers s)) (chans s) with
  | Some cs => Some (set_watchers ∅ (set_chans cs s))
  | None => None
  end.

(** A subscriber takes the buffered value. *)
Definition receive (ch : N) (s : remoteHosts) : remoteHosts :=
  match chans s !! ch with
  | Some c => set_chans (<[ch := mkChan None (ch_closed c) (last_sent c)]> (chans s)) s
  | None => s
  end.

(** ** The subscription state machine; [None] is a panic *)

Inductive rh_step : remoteHosts → option remoteHosts → Prop :=
  | rh_watch s t : rh_step s (fst <$> watch t s)
  | rh_unwatch s t ch : rh_step s (unwatch t ch s)
  | rh_round s e : rh_step s (roundCompleted e s)
  | rh_receive s ch : rh_step s (Some (receive ch s))
  | rh_closed s : rh_step s (rh_close s).

Inductive rh_reachable : option remoteHosts → Prop :=
  | rh_init : rh_reachable (Some remoteHosts_zero)
  | rh_next s o : rh_reachable (Some s) → rh_step s o → rh_reachable o.

Record rh_inv (s : remoteHosts) : Prop := {
  rh_fresh : ∀ ch, is_Some (chans s !! ch) → (ch < next_chan s)%N;
  rh_open : ∀ t chs ch, watchers s !! t = Some chs → ch ∈ chs →
    ∃ c, chans s !! ch = Some c ∧ ch_closed c = false ∧
         ∀ v, rh_answer s t = Some v → last_sent c = Some v;
  rh_one : ∀ t1 t2 chs1 chs2 ch, watchers s !! t1 = Some chs1 → watchers s !! t2 = Some chs2 →
    ch ∈ chs1 → ch ∈ chs2 → t1 = t2;
  rh_tracked : ∀ ch c, chans s !! ch = Some c → ch_closed c = false →
    ∃ t chs, watchers s !! t = Some chs ∧ ch ∈ chs
}.

(** ** Lemmas *)

Lemma loop_cons {A} (body : gmap N chan → A → option (gmap N chan)) x l cs :
  loop body (x :: l) cs = match body cs x with Some cs' => loop body l cs' | None => None end.
Proof.
  unfold loop. simpl. destruct (body cs x); [done|]. induction l as [|y l IH]; [done|exact IH].
Qed.

Definition opened (cs : gmap N chan) (ch : N) : Prop := ∃ c, cs !! ch = Some c ∧ ch_closed c = false.

(** Sending to open channels. *)
Lemma send_loop v l cs :
  (∀ ch, ch ∈ l → opened cs ch) →
  ∃ cs', loop (send v) l cs = Some cs' ∧
    ∀ ch, cs' !! ch = if decide (ch ∈ l) then Some (mkChan (Some v) false (Some v)) else cs !! ch.
Proof.
  revert cs; induction l as [|x l IH]; intros cs Ho.
  { exists cs. split; [done|]. intros ch. by rewrite decide_False by apply not_elem_of_nil. }
  rewrite loop_cons. unfold send at 1. destruct (Ho x ltac:(left)) as (c & -> & ->).
  destruct (IH (<[x := mkChan (Some v) false (Some v)]> cs)) as (cs' & -> & Hcs').
  { intros ch Hch. destruct (Ho ch ltac:(by right)) as (c' & Hc' & Hcl).
    unfold opened. rewrite lookup_insert. case_decide; eauto. }
  exists cs'. split; [done|]. intros ch. rewrite Hcs', lookup_insert.
  destruct (decide (ch ∈ l)) as [Hin|Hin]; [by rewrite decide_True by by right|].
  destruct (decide (x = ch)) as [->|Hne]; [by rewrite decide_True by left|].
  rewrite decide_False; [done|]. set_solver.
Qed.

Definition shut (c : chan) : chan := mkChan (buf c) true (last_sent c).

Lemma close_loop l cs :
  NoDup l → (∀ ch, ch ∈ l → opened cs ch) →
  ∃ cs', loop close_chan l cs = Some cs' ∧
    ∀ ch, cs' !! ch = if decide (ch ∈ l) then shut <$> cs !! ch else cs !! ch.
Proof.
  revert cs; induction l as [|x l IH]; intros cs Hnd Ho.
  { exists cs. split; [done|]. intros ch. by rewrite decide_False by apply not_elem_of_nil. }
  inversion Hnd as [|? ? Hx Hnd']; subst. rewrite loop_cons. unfold close_chan at 1.
  destruct (Ho x ltac:(left)) as (c & Hc & Hcl). rewrite Hc, Hcl. fold (shut c).
  destruct (IH (<[x := shut c]> cs) Hnd') as (cs' & -> & Hcs').
  { intros ch Hch. destruct (Ho ch ltac:(by right)) as (c' & Hc' & Hcl'). exists c'.
    rewrite lookup_insert_ne; [done|]. intros ->. done. }
  exists cs'. split; [done|]. intros ch. rewrite Hcs', lookup_insert.
  destruct (decide (x = ch)) as [->|Hne].
  - rewrite decide_False by done. by rewrite decide_True, Hc by left.
  - destruct (decide (ch ∈ l)); [by rewrite decide_True by by right|].
    rewrite decide_False; [done|set_solver].
Qed.

(** Closing the channels of every watcher. *)
Lemma close_all_loop (ws : list (string * gset N)) cs :
  NoDup ws → (∀ k ch, k ∈ ws → ch ∈ k.2 → opened cs ch) →
  (∀ k1 k2 ch, k1 ∈ ws → k2 ∈ ws → ch ∈ k1.2 → ch ∈ k2.2 → k1 = k2) →
  ∃ cs', loop (λ cs kv, loop close_chan (elements kv.2) cs) ws cs = Some cs' ∧
    (∀ ch, is_Some (cs' !! ch) → is_Some (cs !! ch)) ∧
    (∀ ch c, cs' !! ch = Some c → ch_closed c = false → cs !! ch = Some c ∧ ∀ k, k ∈ ws → ch ∉ k.2).
Proof.
  revert cs; induction ws as [|kv ws IH]; intros cs Hnd Ho Hdis.
  { exists cs. split_and!; [done|done|]. intros ch c Hc _. split; [done|]. by intros ? ?%elem_of_nil. }
  inversion Hnd as [|? ? Hx Hnd']; subst. rewrite loop_cons.
  destruct (close_loop (elements kv.2) cs (NoDup_elements _)) as (cs1 & -> & H1).
  { intros ch Hch%elem_of_elements. apply (Ho kv); [left|done]. }
  destruct (IH cs1 Hnd') as (cs' & -> & Hd & Hop).
  { intros k ch Hk Hch. destruct (Ho k ch ltac:(by right) Hch) as (c & Hc & Hcl). exists c.
    rewrite H1, decide_False; [done|]. intros Hin%elem_of_elements. apply Hx.
    by rewrite (Hdis kv k ch ltac:(left) ltac:(by right) Hin Hch). }
  { intros k1 k2 ch Hk1 Hk2. apply Hdis; by right. }
  exists cs'. split_and!; [done| |].
  - intros ch Hc%Hd. rewrite H1 in Hc. case_decide; [|done]. by apply fmap_is_Some in Hc.
  - intros ch c Hc Hcl. destruct (Hop ch c Hc Hcl) as [E Hws]. rewrite H1 in E. case_decide as Hin.
    + destruct (cs !! ch); [|done]. injection E as <-. done.
    + split; [done|]. intros k [->|Hk]%elem_of_cons; [by rewrite <- elem_of_elements|by apply Hws].
Qed.

Lemma notify_loop s s' ws cs :
  (∀ t chs ch, (t, chs) ∈ ws → ch ∈ chs → opened cs ch) →
  ∃ cs', loop (notify s s') ws cs = Some cs' ∧
    ∀ ch, (∃ t chs now, (t, chs) ∈ ws ∧ ch ∈ chs ∧ rh_answer s' t = Some now ∧
             cs' !! ch = Some (mkChan (Some now) false (Some now))) ∨
          (cs' !! ch = cs !! ch ∧ ∀ t chs now, (t, chs) ∈ ws → ch ∈ chs → rh_answer s' t = Some now →
             rh_answer s t = Some now).
Proof.
  revert cs; induction ws as [|[t chs] ws IH]; intros cs Ho.
  { exists cs. split; [done|]. intros ch. right. split; [done|]. by intros ? ? ? ?%elem_of_nil. }
  assert (Hstep : ∃ cs1, notify s s' cs (t, chs) = Some cs1 ∧
    (∀ ch, (∃ now, ch ∈ chs ∧ rh_answer s' t = Some now ∧ cs1 !! ch = Some (mkChan (Some now) false (Some now))) ∨
           (cs1 !! ch = cs !! ch ∧ ∀ now, ch ∈ chs → rh_answer s' t = Some now → rh_answer s t = Some now))).
  { unfold notify. cbn [fst snd]. destruct (rh_answer s' t) as [now|]; [|exists cs; split; [done|]; intros ch; by right].
    case_bool_decide as Hb; [exists cs; split; [done|]; intros ch; right; split; [done|]; by intros ? _ [= <-]|].
    destruct (send_loop now (elements chs) cs) as (cs1 & -> & Hcs1).
    { intros ch Hch%elem_of_elements. apply (Ho t chs); [left|done]. }
    exists cs1. split; [done|]. intros ch. rewrite Hcs1. destruct (decide (ch ∈ elements chs)) as [Hin|Hin].
    - left. exists now. split; [by apply elem_of_elements|done].
    - right. split; [done|]. intros w Hw. by rewrite elem_of_elements in Hin. }
  destruct Hstep as (cs1 & E1 & H1). rewrite loop_cons, E1.
  destruct (IH cs1) as (cs' & -> & Hcs').
  { intros t' chs' ch Hin Hch. destruct (Ho t' chs' ch ltac:(by right) Hch) as (c & Hc & Hcl).
    destruct (H1 ch) as [(now & _ & _ & E)|[E _]]; [by eexists|exists c; by rewrite E]. }
  exists cs'. split; [done|]. intros ch. destruct (Hcs' ch) as [(t' & chs' & now & Hin & H)|[E H]].
  { left. exists t', chs', now. split; [by right|done]. }
  destruct (H1 ch) as [(now & Hch & Ha & E')|[E' H']].
  - left. exists t, chs, now. split_and!; [left|done|done|congruence].
  - right. split; [congruence|]. intros t' chs' now [[= -> ->]|Hin]%elem_of_cons; [by apply H'|by apply (H t' chs')].
Qed.

Lemma rh_answer_watchers s ws : rh_answer (set_watchers ws s) = rh_answer s.
Proof. done. Qed.

Lemma rh_answer_chans s cs : rh_answer (set_chans cs s) = rh_answer s.
Proof. done. Qed.

Lemma inv_watch t s : rh_inv s → ∃ s' ch, watch t s = Some (s', ch) ∧ rh_inv s'.
Proof.
  intros []. unfold watch. set (ch := next_chan s).
  set (s1 := set_next_chan (ch + 1)%N (set_chans (<[ch := mkChan None false None]> (chans s)) s)).
  set (s2 := set_watchers (<[t := {[ ch ]} ∪ default ∅ (watchers s1 !! t)]> (watchers s1)) s1).
  assert (Hnew : chans s !! ch = None).
  { destruct (chans s !! ch) eqn:E; [|done]. assert (is_Some (chans s !! ch)) by eauto. specialize (rh_fresh0 ch ltac:(done)). lia. }
  assert (Hold : ∀ t' chs' c, watchers s !! t' = Some chs' → c ∈ chs' → c ≠ ch).
  { intros t' chs' c Hw Hc ->. destruct (rh_open0 t' chs' ch Hw Hc) as (? & ? & _). congruence. }
  assert (Hans : rh_answer s2 = rh_answer s) by done.
  assert (Hw2 : ∀ t' chs', watchers s2 !! t' = Some chs' → ∀ c, c ∈ chs' →
    (t' = t ∧ c = ch) ∨ ∃ chs0, watchers s !! t' = Some chs0 ∧ c ∈ chs0).
  { intros t' chs'. simpl. rewrite lookup_insert. case_decide as Ht; [|eauto]. intros [= <-] c.
    subst t'. intros [->%elem_of_singleton|Hc]%elem_of_union; [by left|right].
    destruct (watchers s !! t) as [chs0|]; simpl in Hc; [eauto|set_solver]. }
  assert (Hone : ∀ t1 t2 chs1 chs2 c, watchers s2 !! t1 = Some chs1 → watchers s2 !! t2 = Some chs2 →
    c ∈ chs1 → c ∈ chs2 → t1 = t2).
  { intros t1 t2 chs1 chs2 c H1 H2 Hc1 Hc2.
    destruct (Hw2 t1 chs1 H1 c Hc1) as [[Et1 Ec1]|(a1 & Ha1 & Hca1)],
      (Hw2 t2 chs2 H2 c Hc2) as [[Et2 Ec2]|(a2 & Ha2 & Hca2)].
    - congruence.
    - by destruct (Hold t2 a2 c Ha2 Hca2).
    - by destruct (Hold t1 a1 c Ha1 Hca1).
    - by apply (rh_one0 t1 t2 a1 a2 c). }
  assert (Hinv : ∀ x, ch_closed x = false → (∀ v, rh_answer s t = Some v → last_sent x = Some v) →
    rh_inv (set_chans (<[ch := x]> (chans s)) s2)).
  { intros x Hx Hlast. split.
    - intros c. simpl. rewrite lookup_insert. case_decide as E; [subst c; intros _; lia|].
      intros Hc%rh_fresh0. lia.
    - intros t' chs' c Hw Hc. rewrite rh_answer_chans, Hans. simpl.
      destruct (Hw2 t' chs' Hw c Hc) as [[-> ->]|(a & Ha & Hca)].
      + exists x. by rewrite lookup_insert_eq.
      + rewrite lookup_insert_ne by (intros E; by apply (Hold t' a c Ha Hca)). by apply (rh_open0 t' a).
    - exact Hone.
    - intros c y. simpl. rewrite lookup_insert. case_decide as E.
      + subst c. intros _ _. eexists t, _. rewrite lookup_insert_eq. split; [done|set_solver].
      + intros Hy Hcl. destruct (rh_tracked0 c y Hy Hcl) as (t' & a & Ha & Hca).
        destruct (decide (t = t')) as [<-|Hne].
        * eexists t, _. rewrite lookup_insert_eq, Ha. split; [done|set_solver].
        * exists t', a. by rewrite lookup_insert_ne. }
  rewrite Hans. destruct (rh_answer s t) as [v|] eqn:Ha.
  - unfold send. simpl. rewrite lookup_insert_eq. simpl. eexists _, _. split; [done|].
    rewrite insert_insert_eq. apply (Hinv (mkChan (Some v) false (Some v))); [done|]. by intros ? [= <-].
  - eexists _, _. split; [done|]. apply (Hinv (mkChan None false None)); [done|]. done.
Qed.

Lemma inv_unwatch t ch s : rh_inv s → ∃ s', unwatch t ch s = Some s' ∧ rh_inv s'.
Proof.
  intros Hi. unfold unwatch. destruct (watchers s !! t) as [chs|] eqn:Hw; [|eauto].
  case_bool_decide as Hch; [|eauto]. destruct Hi.
  destruct (rh_open0 t chs ch Hw Hch) as (c & Hc & Hcl & _). unfold close_chan. rewrite Hc, Hcl.
  eexists. split; [done|]. set (ws := if size (chs ∖ {[ ch ]}) =? 0 then _ else _).
  assert (Hsub : ∀ t' a, ws !! t' = Some a → ∃ b, watchers s !! t' = Some b ∧ ∀ x, x ∈ a → x ∈ b ∧ x ≠ ch).
  { intros t' a. unfold ws.
    assert (Hother : t' ≠ t → watchers s !! t' = Some a → ∃ b, watchers s !! t' = Some b ∧ ∀ x, x ∈ a → x ∈ b ∧ x ≠ ch).
    { intros Hne Ha. exists a. split; [done|]. intros x Hx. split; [done|]. intros ->.
      apply Hne. by apply (rh_one0 t' t a chs ch). }
    destruct (size (chs ∖ {[ ch ]}) =? 0).
    - intros [Hne Ha]%lookup_delete_Some. by apply Hother.
    - rewrite lookup_insert. case_decide as E; [|intros Ha; by apply Hother].
      intros [= <-]. subst t'. exists chs. split; [done|]. set_solver. }
  split.
  - intros x. simpl. rewrite lookup_insert. case_decide; [subst; intros _; eauto|apply rh_fresh0].
  - intros t' a x Ha Hx. destruct (Hsub t' a Ha) as (b & Hb & Hab). destruct (Hab x Hx) as [Hxb Hne].
    simpl. rewrite lookup_insert_ne by done. by apply (rh_open0 t' b).
  - intros t1 t2 a1 a2 x H1 H2 Hx1 Hx2. destruct (Hsub t1 a1 H1) as (b1 & Hb1 & Hab1), (Hsub t2 a2 H2) as (b2 & Hb2 & Hab2).
    apply (rh_one0 t1 t2 b1 b2 x); [done|done|apply Hab1, Hx1|apply Hab2, Hx2].
  - intros x y. simpl. rewrite lookup_insert. case_decide as E; [by intros [= <-]|]. intros Hy Hcly.
    destruct (rh_tracked0 x y Hy Hcly) as (t' & a & Ha & Hxa). unfold ws.
    destruct (decide (t = t')) as [<-|Hne].
    + assert (a = chs) as -> by congruence. assert (Hx : x ∈ chs ∖ {[ ch ]}) by set_solver.
      rewrite (proj2 (Nat.eqb_neq _ _)) by (intros Hs%size_empty_inv; set_solver).
      eexists t, _. rewrite lookup_insert_eq. done.
    + exists t', a. split; [|done]. destruct (size _ =? 0); [by rewrite lookup_delete_ne|by rewrite lookup_insert_ne].
Qed.

Lemma inv_round e s : rh_inv s → ∃ s', roundCompleted e s = Some s' ∧ rh_inv s'.
Proof.
  intros Hi. unfold roundCompleted. destruct (PendingAll e); [eauto|].
  destruct (foldl (pending_step s) (Remote e, ∅) (elements (Pending e))) as [rem uns].
  set (s' := set_answers true rem uns s). destruct Hi.
  destruct (notify_loop s s' (map_to_list (watchers s)) (chans s)) as (cs' & -> & Hcs').
  { intros t chs ch Hw%elem_of_map_to_list Hch. destruct (rh_open0 t chs ch Hw Hch) as (c & ? & ? & _). by exists c. }
  eexists. split; [done|]. split; [| |exact rh_one0|].
  - intros ch Hc. apply rh_fresh0. destruct (Hcs' ch) as [(t & chs & now & Hw & Hch & _)|[E _]].
    + apply elem_of_map_to_list in Hw. destruct (rh_open0 t chs ch Hw Hch) as (c & ? & _). eauto.
    + simpl in Hc. by rewrite E in Hc.
  - intros t chs ch Hw Hch. change (watchers s !! t = Some chs) in Hw. simpl.
    destruct (rh_open0 t chs ch Hw Hch) as (c & Hc & Hcl & Hl).
    destruct (Hcs' ch) as [(t' & chs' & now & Hw' & Hch' & Ha & E)|[E Hun]].
    + apply elem_of_map_to_list in Hw'. assert (t' = t) as -> by (by apply (rh_one0 t' t chs' chs ch)).
      eexists. split; [done|]. split; [done|]. intros v. rewrite rh_answer_chans, Ha. by intros [= <-].
    + exists c. split; [by rewrite E|]. split; [done|]. intros v Hv. apply Hl.
      apply (Hun t chs v); [by apply elem_of_map_to_list|done|exact Hv].
  - intros ch c. simpl. destruct (Hcs' ch) as [(t' & chs' & now & Hw & Hch & _)|[-> _]]; [|apply rh_tracked0].
    intros _ _. exists t', chs'. by rewrite elem_of_map_to_list in Hw.
Qed.

Lemma inv_receive ch s : rh_inv s → rh_inv (receive ch s).
Proof.
  intros Hi. unfold receive. destruct (chans s !! ch) as [c|] eqn:Hc; [|done]. destruct Hi. split.
  - intros x. simpl. rewrite lookup_insert. case_decide as E; [subst; intros _; eauto|apply rh_fresh0].
  - intros t chs x Hw Hx. destruct (rh_open0 t chs x Hw Hx) as (y & Hy & Hcl & Hl). simpl.
    destruct (decide (ch = x)) as [<-|Hne].
    + rewrite lookup_insert_eq. assert (y = c) as -> by congruence. eexists. split; [done|]. split; [done|exact Hl].
    + rewrite lookup_insert_ne by done. eauto.
  - exact rh_one0.
  - intros x y. simpl. rewrite lookup_insert. case_decide as E; [|apply rh_tracked0].
    subst x. intros [= <-] Hcl. by apply (rh_tracked0 ch c).
Qed.

Lemma inv_close s : rh_inv s →
  ∃ s', rh_close s = Some s' ∧ rh_inv s' ∧ ∀ ch c, chans s' !! ch = Some c → ch_closed c = true.
Proof.
  intros []. unfold rh_close.
  destruct (close_all_loop (map_to_list (watchers s)) (chans s)) as (cs' & -> & Hd & Hop).
  { apply NoDup_map_to_list. }
  { intros [t chs] ch Hw%elem_of_map_to_list Hch. destruct (rh_open0 t chs ch Hw Hch) as (c & ? & ? & _). by exists c. }
  { intros [t1 a1] [t2 a2] ch H1%elem_of_map_to_list H2%elem_of_map_to_list Hc1 Hc2.
    assert (t1 = t2) as -> by (by apply (rh_one0 t1 t2 a1 a2 ch)). congruence. }
  assert (Hall : ∀ ch c, cs' !! ch = Some c → ch_closed c = true).
  { intros ch c Hc. apply not_false_is_true. intros Hcl. destruct (Hop ch c Hc Hcl) as [E Hno].
    destruct (rh_tracked0 ch c E Hcl) as (t & chs & Hw & Hch).
    apply (Hno (t, chs)); [by apply elem_of_map_to_list|done]. }
  eexists. split; [done|]. split; [|exact Hall]. split; simpl.
  - intros ch Hc%Hd. by apply rh_fresh0.
  - done.
  - done.
  - intros ch c Hc Hcl. specialize (Hall ch c Hc). congruence.
Qed.

(** A reachable state is not a panic, and satisfies the invariant. *)
Lemma rh_reachable_inv o : rh_reachable o → ∃ s, o = Some s ∧ rh_inv s.
Proof.
  induction 1 as [|s o _ (s0 & [= <-] & Hi) Hstep].
  { eexists. split; [done|]. split; [intros ? [? H]; done|done|done|done]. }
  inversion Hstep; subst.
  - destruct (inv_watch t s Hi) as (s' & ch & -> & Hi'). eauto.
  - destruct (inv_unwatch t ch s Hi) as (s' & -> & Hi'). eauto.
  - destruct (inv_round e s Hi) as (s' & -> & Hi'). eauto.
  - eauto using inv_receive.
  - destruct (inv_close s Hi) as (s' & -> & Hi' & _). eauto.
Qed.

(** The pending loop: pending types keep their answer, the others take the round's. *)
Lemma pending_fold s l rem uns :
  let r := foldl (pending_step s) (rem, uns) l in
  ∀ t, (t ∈ r.2 ↔ t ∈ uns ∨ (t ∈ l ∧ rh_answer s t = None)) ∧
       (t ∉ l → r.1 !! t = rem !! t) ∧
       (t ∈ l → ∀ v, rh_answer s t = Some v → default false (r.1 !! t) = v).
Proof.
  revert rem uns; induction l as [|x l IH]; intros rem uns; simpl.
  { intros t. split_and!; [set_solver|done|set_solver]. }
  destruct (pending_step s (rem, uns) x) as [rem' uns'] eqn:Ep. intros t.
  destruct (IH rem' uns' t) as (H1 & H2 & H3).
  assert (Hu : t ∈ uns' ↔ t ∈ uns ∨ (t = x ∧ rh_answer s t = None)).
  { unfold pending_step in Ep. cbn [fst snd] in Ep.
    destruct (rh_answer s x) as [[]|] eqn:Ea; injection Ep as <- <-; [| |set_solver].
    all: split; [tauto|]; intros [?|[-> ?]]; [done|congruence]. }
  assert (Hr : t ≠ x → rem' !! t = rem !! t).
  { intros Hne. unfold pending_step in Ep. cbn [fst snd] in Ep.
    destruct (rh_answer s x) as [[]|]; injection Ep as <- <-;
      rewrite ?lookup_insert_ne, ?lookup_delete_ne by done; done. }
  assert (Hx : ∀ v, t = x → rh_answer s t = Some v → default false (rem' !! t) = v).
  { intros v -> Hv. unfold pending_step in Ep. cbn [fst snd] in Ep.
    rewrite Hv in Ep. destruct v; injection Ep as <- <-; [by rewrite lookup_insert_eq|by rewrite lookup_delete_eq]. }
  split_and!.
  - rewrite H1, Hu, elem_of_cons. tauto.
  - intros [Hne Hl]%not_elem_of_cons. by rewrite H2, Hr.
  - intros Hin v Hv. destruct (decide (t ∈ l)) as [Hl|Hl]; [by apply H3|].
    rewrite H2 by done. apply Hx; [|done]. set_solver.
Qed.

(** ** Properties *)

(** Subscribers of remote hosts: no sequence of watches, unwatches, completed rounds,
    receives and shutdown panics; every open watcher of a type with a known answer was last
    sent that answer; every open channel belongs to a watcher; and a shutdown closes every
    channel. *)
Theorem remote_watchers_up_to_date o :
  rh_reachable o →
  ∃ s, o = Some s ∧
    (∀ t chs ch v, watchers s !! t = Some chs → ch ∈ chs → rh_answer s t = Some v →
       ∃ c, chans s !! ch = Some c ∧ ch_closed c = false ∧ last_sent c = Some v) ∧
    (∀ ch c, chans s !! ch = Some c → ch_closed c = false →
       ∃ t chs, watchers s !! t = Some chs ∧ ch ∈ chs) ∧
    (∃ s', rh_close s = Some s' ∧ ∀ ch c, chans s' !! ch = Some c → ch_closed c = true).
Proof.
  intros (s & -> & Hi)%rh_reachable_inv. exists s. split; [done|].
  destruct (inv_close s Hi) as (s' & Hs' & _ & Hall). destruct Hi. split_and!; [|done|eauto].
  intros t chs ch v Hw Hch Ha. destruct (rh_open0 t chs ch Hw Hch) as (c & ? & ? & Hl). eauto.
Qed.

Definition sample_round : RoundCompleted := mkRoundCompleted {[ "cat" := true ]} {[ "dog" ]} false.

(** A watcher subscribed before the first round. *)
Definition sample_watched : option remoteHosts := fst <$> watch "cat" remoteHosts_zero.

Lemma remote_watchers_up_to_date_witness :
  ∃ s, (sample_watched ≫= roundCompleted sample_round) = Some s ∧
    ∃ c, chans s !! 0%N = Some c ∧ ch_closed c = false ∧ last_sent c = Some true.
Proof.
  assert (Hr : rh_reachable (sample_watched ≫= roundCompleted sample_round)).
  { apply (rh_next (default remoteHosts_zero sample_watched)); [|apply rh_round].
    exact (rh_next remoteHosts_zero _ rh_init (rh_watch remoteHosts_zero "cat")). }
  destruct (remote_watchers_up_to_date _ Hr) as (s & E & Hup & _).
  exists s. split; [exact E|]. vm_compute in E. injection E as <-.
  apply (Hup "cat" {[ 0%N ]} 0%N true); [reflexivity|set_solver|reflexivity].
Defined.

(** A completed round settles the answers of the types it covers: a pending type keeps the
    answer it had (or stays unknown), any other type is answered from the tables of the
    round, and a round pending for all types changes nothing. *)
Theorem round_settles_answers s e t :
  rh_reachable (Some s) →
  ∃ s', roundCompleted e s = Some s' ∧
    rh_answer s' t =
      (if PendingAll e || bool_decide (t ∈ Pending e) then rh_answer s t
       else Some (default false (Remote e !! t))).
Proof.
  intros (s0 & [= <-] & Hi)%rh_reachable_inv. destruct (inv_round e s Hi) as (s' & Hs' & _).
  exists s'. split; [done|]. revert Hs'. unfold roundCompleted.
  destruct (PendingAll e); [by intros [= <-]|]. simpl.
  pose proof (pending_fold s (elements (Pending e)) (Remote e) ∅ t) as Hp.
  destruct (foldl (pending_step s) (Remote e, ∅) (elements (Pending e))) as [rem uns].
  destruct (loop _ _ _) as [cs|]; [|done]. intros [= <-]. rewrite rh_answer_chans.
  destruct Hp as (H1 & H2 & H3). cbn [fst snd] in *. unfold rh_answer at 1. cbn.
  case_bool_decide as Hin.
  - rewrite bool_decide_true by set_solver. destruct (rh_answer s t) as [v|] eqn:Ea; [|done].
    exfalso. apply H1 in Hin. set_solver.
  - case_bool_decide as Hpe.
    + destruct (rh_answer s t) as [v|] eqn:Ea; [f_equal; apply H3; [set_solver|done]|].
      exfalso. apply Hin, H1. set_solver.
    + by rewrite H2 by set_solver.
Qed.

Lemma round_settles_answers_witness :
  ∃ s', roundCompleted sample_round remoteHosts_zero = Some s' ∧ rh_answer s' "cat" = Some true.
Proof.
  destruct (round_settles_answers remoteHosts_zero sample_round "cat" rh_init) as (s' & E & Ha).
  exists s'. split; [exact E|]. rewrite Ha. reflexivity.
Defined.
