(* ===== verification/PlacementLoop.v ===== *)
(** * The sidecar's placement loop
      (pkg/actors/internal/placement/loops/placement/placement.go)

    The loop owns the stream sessions: it connects to a placement authority
    (the v1 placement service or the v2 scheduler), starts a dissemination loop
    per stream, forwards orders and requests to it, keeps requests while there
    is no stream, and reconnects when the stream closes.

    The dissemination loop is concurrent: [dissLoop] holds its state and its
    queue of events, [Enqueue] appends to the queue and [diss_step] handles the
    next event.  [Close] of the loop library enqueues a last event and waits
    until the queue is handled.  The [Inflight] is one object shared by the two
    loops; [set_shared] writes it.

    The environment of a (re)connect is a list of [attempt]s: the outcome of
    each connection attempt and what the loop observes next to it.  Connectors
    and stream factories are opaque values. *)

From S2P Require Import Prelude GoLib ActorLocal ClaimLock ConsistentHash Rendezvous PlacementStore Inflight SidecarDisseminator RemoteHosts.

(** ** State *)

Record Fallback := mkFallback { Connector : N; StreamFactory : N; SchedulerPlacement : bool }.

Section placement.
Context {X : XXHash}.
Variable hash : string → N.
Variable pool_idx : lock → N.
Variable ends_by : N → Z → bool.

Record placement := mkPlacement {
  ready : bool;
  remote : remoteHosts;
  p_inflight : Inflight;
  connector : N;
  streamFactory : N;
  p_schedulerPlacement : bool;
  lookups : list request;
  idx : N;
  dissLoop : option (disseminator * list EventDiss);
  report : HostReport;
  fallback : option Fallback;
  alt : option Fallback;
  leadership : bool              (* [p.leadership != nil] *)
}.

Definition set_ready v p := mkPlacement v (remote p) (p_inflight p) (connector p) (streamFactory p)
  (p_schedulerPlacement p) (lookups p) (idx p) (dissLoop p) (report p) (fallback p) (alt p) (leadership p).
Definition set_remote v p := mkPlacement (ready p) v (p_inflight p) (connector p) (streamFactory p)
  (p_schedulerPlacement p) (lookups p) (idx p) (dissLoop p) (report p) (fallback p) (alt p) (leadership p).
Definition set_diss i l p := mkPlacement (ready p) (remote p) i (connector p) (streamFactory p)
  (p_schedulerPlacement p) (lookups p) (idx p) l (report p) (fallback p) (alt p) (leadership p).
Definition set_lookups v p := mkPlacement (ready p) (remote p) (p_inflight p) (connector p) (streamFactory p)
  (p_schedulerPlacement p) v (idx p) (dissLoop p) (report p) (fallback p) (alt p) (leadership p).
Definition set_idx v p := mkPlacement (ready p) (remote p) (p_inflight p) (connector p) (streamFactory p)
  (p_schedulerPlacement p) (lookups p) v (dissLoop p) (report p) (fallback p) (alt p) (leadership p).
Definition set_report v p := mkPlacement (ready p) (remote p) (p_inflight p) (connector p) (streamFactory p)
  (p_schedulerPlacement p) (lookups p) (idx p) (dissLoop p) v (fallback p) (alt p) (leadership p).
Definition set_authorities (a : Fallback) f al p :=
  mkPlacement (ready p) (remote p) (p_inflight p) (Connector a) (StreamFactory a)
  (SchedulerPlacement a) (lookups p) (idx p) (dissLoop p) (report p) f al (leadership p).

Definition set_ActorTypes ts (r : HostReport) : HostReport :=
  mkHostReport (hr_Address r) (hr_AppID r) (hr_Namespace r) ts.

(** The active connector as a [Fallback]. *)
Definition active (p : placement) : Fallback :=
  mkFallback (connector p) (streamFactory p) (p_schedulerPlacement p).

(** ** Events, environment, outputs *)

Inductive EventPlace :=
  | PStreamOrder (order : Order) (IDx : N)
  | PRequest (r : request)                       (* LookupRequest, LockRequest *)
  | PReconnect (ActorTypes : option (list string))
  | PConnCloseStream (IDx : N) (err : string) (refused : bool)
  | PUpdateTypes (ActorTypes : list string)
  | PReloadReminderTypes
  | PWatchRemoteHosts (t : string)
  | PUnwatchRemoteHosts (t : string) (ch : N)
  | PRoundCompleted (e : RoundCompleted)
  | PSetDrain (drain : option bool) (timeout : option Z)
  | PSetEntityDrain (timeouts : gmap string Z)
  | PShutdown (err : string).

(** [ErrUnsupported]: [errors.Is(err, leader.ErrSchedulerPlacementUnsupported)]. *)
Inductive connect_error := ErrUnsupported | ErrOther.

Record attempt := mkAttempt {
  a_connect : option connect_error;   (* error of [connector.Connect] *)
  a_stream : option connect_error;    (* error of [streamFactory] *)
  a_ctx_err : bool;                   (* [ctx.Err() != nil] after the attempt *)
  a_startup_timeout : bool;           (* the startup timer ended the attempt *)
  a_reachable : bool;                 (* [leadership.Reachable()] *)
  a_leader : string;                  (* address of [leadership.Leader()] *)
  a_wait_done : bool                  (* [ctx] ends during the pause before the retry *)
}.

(** What the handlers observe around the (re)connect of one event. *)
Record environment := mkEnvironment {
  attempts : list attempt;
  table_types : list string;          (* [actorTable.Types()] *)
  ctx_err : bool;                     (* [ctx.Err() != nil] after [HaltAll] *)
  backoff_done : bool                 (* [ctx] ends during the back-off *)
}.

Inductive p_output :=
  | PODiss (o : diss_output)
  | POConnClose
  | POHTargetReady
  | POHaltAll
  | POWatch (ch : N).

(** [PRetrying]: the handler is still trying to connect after the given
    attempts.  [PPanic]: a run-time panic. *)
Inductive outcome := POk | PErr | PRetrying | PPanic.

(** ** The dissemination loop *)

(** A write of the shared [Inflight]. *)
Definition set_shared (i : Inflight) (p : placement) : placement :=
  set_diss i ((λ dq, (set_inflight i dq.1, dq.2)) <$> dissLoop p) p.

(** [dissLoop.Enqueue]; [None] when there is no loop. *)
Definition enqueue (e : EventDiss) (p : placement) : option placement :=
  match dissLoop p with
  | Some (d, q) => Some (set_diss (p_inflight p) (Some (d, q ++ [e])) p)
  | None => None
  end.

Definition is_ready (o : diss_output) : bool := match o with DOReady => true | _ => false end.

(** The dissemination loop handles [e] with [q] left in its queue. *)
Definition diss_handle (types : list string) (e : EventDiss) (q : list EventDiss) (d : disseminator)
    (p : placement) : placement * list p_output :=
  let r := Handle hash pool_idx ends_by types e d in
  (set_ready (ready p || existsb is_ready r.2) (set_diss (inflight r.1) (Some (r.1, q)) p), PODiss <$> r.2).

Definition diss_step (types : list string) (p : placement) : placement * list p_output :=
  match dissLoop p with
  | Some (d, e :: q) => diss_handle types e q d p
  | _ => (p, [])
  end.

(** The loop handles all the events [q] of its queue. *)
Fixpoint diss_drain (types : list string) (q : list EventDiss) (d : disseminator) (p : placement)
    : placement * list p_output :=
  match q with
  | [] => (p, [])
  | e :: q' =>
      let '(p1, os1) := diss_handle types e q' d p in
      let '(p2, os2) := diss_drain types q' (Handle hash pool_idx ends_by types e d).1 p1 in
      (p2, os1 ++ os2)
  end.

(** [p.dissLoop.Close(&loops.Shutdown{...})] *)
Definition diss_close (types : list string) (err : string) (p : placement) : placement * list p_output :=
  match dissLoop p with
  | Some (d, q) => diss_drain types (q ++ [EvShutdown err]) d p
  | None => (p, [])
  end.

(** ** Connecting *)

Definition swapAlt (p : placement) : placement :=
  match alt p with
  | Some a => set_authorities a (fallback p) (Some (active p)) p
  | None => p
  end.

Definition adoptFallback (p : placement) : placement :=
  match fallback p with
  | Some f => set_authorities f None (Some (active p)) p
  | None => p
  end.

(** The error of the attempt; a connection whose stream fails is closed. *)
Definition tryConnect (a : attempt) : option connect_error * list p_output :=
  match a_connect a with
  | Some e => (Some e, [])
  | None => match a_stream a with
            | Some e => (Some e, [POConnClose])
            | None => (None, [])
            end
  end.

Definition emit_first (os : list p_output) (r : placement * list p_output * outcome) :=
  let '(p, os', res) := r in (p, os ++ os', res).

(** The loop of [handleReconnect]; [POk] is its [break]. *)
Fixpoint connect_loop (atts : list attempt) (unavailableLogged : bool) (p : placement)
    : placement * list p_output * outcome :=
  match atts with
  | [] => (p, [], PRetrying)
  | a :: atts' =>
      let '(err, os) := tryConnect a in
      emit_first os
        match err with
        | None => (p, [], POk)
        | Some err =>
            if a_ctx_err a then (p, [], PErr)
            else if bool_decide (is_Some (fallback p)) && p_schedulerPlacement p && a_startup_timeout a then
              if leadership p && a_reachable a then connect_loop atts' unavailableLogged p
              else connect_loop atts' unavailableLogged (adoptFallback p)
            else
              match err with
              | ErrUnsupported =>
                  match fallback p, alt p with
                  | Some _, _ => connect_loop atts' unavailableLogged (adoptFallback p)
                  | None, Some _ =>
                      if a_wait_done a then (swapAlt p, [], PErr)
                      else connect_loop atts' unavailableLogged (swapAlt p)
                  | None, None =>
                      let '(p, os) := if unavailableLogged then (p, [])
                                      else (set_ready false p, [POHTargetReady]) in
                      emit_first os
                        (if a_wait_done a then (p, [], PErr) else connect_loop atts' true p)
                  end
              | ErrOther =>
                  let p := match alt p with
                           | Some f => if SchedulerPlacement f && leadership p &&
                                          negb (bool_decide (a_leader a = EmptyString))
                                       then swapAlt p else p
                           | None => p
                           end in
                  if a_wait_done a then (p, [], PErr) else connect_loop atts' unavailableLogged p
              end
        end
  end.

(** [handleReconnect] after its loop. *)
Definition start_session (ActorTypes : option (list string)) (p : placement) : placement :=
  let p := match fallback p with
           | Some f => set_authorities (active p) None (Some f) p
           | None => p
           end in
  let p := set_idx (u64_succ (idx p)) p in
  let p := match ActorTypes with Some ts => set_report (set_ActorTypes ts (report p)) p | None => p end in
  let q := EvReportHost (report p) :: (EvRequest <$> lookups p) in
  set_lookups [] (set_diss (p_inflight p) (Some (Diss_New (p_schedulerPlacement p) (p_inflight p), q)) p).

Definition handleReconnect (env : environment) (ActorTypes : option (list string)) (p : placement)
    : placement * list p_output * outcome :=
  let '(p, os, res) := connect_loop (attempts env) false p in
  match res with
  | POk => (start_session ActorTypes p, os, POk)
  | _ => (p, os, res)
  end.

(** ** Handlers *)

Definition handleCloseStream (env : environment) (IDx : N) (err : string) (refused : bool) (p : placement)
    : placement * list p_output * outcome :=
  if negb (IDx =? idx p)%N then (p, [], POk)
  else
    let p := set_ready false p in
    match dissLoop p with
    | None => (p, [], PPanic)
    | Some _ =>
        let '(p, os) := diss_close (table_types env) err p in
        let p := set_shared (ResetSession (p_inflight p)) p in
        emit_first (os ++ [POHaltAll])
          (if ctx_err env then (p, [], PErr)
           else if refused && backoff_done env then (p, [], PErr)
           else handleReconnect env None p)
    end.

Definition handleShutdown (env : environment) (err : string) (p : placement)
    : placement * list p_output * outcome :=
  match rh_close (remote p) with
  | None => (p, [], PPanic)
  | Some r => let '(p, os) := diss_close (table_types env) err (set_remote r p) in (p, os, POk)
  end.

Definition or_panic (p : placement) (o : option placement) : placement * list p_output * outcome :=
  match o with Some p' => (p', [], POk) | None => (p, [], PPanic) end.

Definition handleUpdateTypes (ts : list string) (p : placement) : placement :=
  let p := set_report (set_ActorTypes ts (report p)) p in
  default p (enqueue (EvReportHost (report p)) p).

Definition handleOrder (order : Order) (IDx : N) (p : placement) : option placement :=
  if negb (idx p =? IDx)%N then Some p else enqueue (EvStreamOrder order) p.

(** [handleLookupRequest] and [handleLockRequest]. *)
Definition handleRequest (r : request) (p : placement) : placement :=
  match dissLoop p with
  | None => set_lookups (lookups p ++ [r]) p
  | Some _ => default p (enqueue (EvRequest r) p)
  end.

Definition handle (env : environment) (event : EventPlace) (p : placement)
    : placement * list p_output * outcome :=
  match event with
  | PStreamOrder order IDx => or_panic p (handleOrder order IDx p)
  | PRequest r => (handleRequest r p, [], POk)
  | PReconnect ts => handleReconnect env ts p
  | PConnCloseStream IDx err refused => handleCloseStream env IDx err refused p
  | PUpdateTypes ts => (handleUpdateTypes ts p, [], POk)
  | PReloadReminderTypes => (default p (enqueue EvReloadReminderTypes p), [], POk)
  | PWatchRemoteHosts t =>
      match watch t (remote p) with
      | Some (r, ch) => (set_remote r p, [POWatch ch], POk)
      | None => (p, [], PPanic)
      end
  | PUnwatchRemoteHosts t ch => or_panic p ((λ r, set_remote r p) <$> unwatch t ch (remote p))
  | PRoundCompleted e => or_panic p ((λ r, set_remote r p) <$> roundCompleted e (remote p))
  | PSetDrain drain timeout =>
      (set_shared (SetDrainOngoingCallTimeout drain timeout (p_inflight p)) p, [], POk)
  | PSetEntityDrain timeouts =>
      (set_shared (SetEntityDrainOngoingCallTimeouts timeouts (p_inflight p)) p, [], POk)
  | PShutdown err => handleShutdown env err p
  end.

(** An error ends the loop: the channels of the watchers are closed. *)
Definition place_Handle (env : environment) (event : EventPlace) (p : placement)
    : placement * list p_output * outcome :=
  let '(p, os, res) := handle env event p in
  match res with
  | PErr => match rh_close (remote p) with
            | Some r => (set_remote r p, os, PErr)
            | None => (p, os, PPanic)
            end
  | _ => (p, os, res)
  end.

Record Options := mkOptions {
  Hostname : string; Port : string; opt_active : Fallback; opt_fallback : option Fallback;
  InitialReport : HostReport; opt_leadership : bool; opt_ready : bool }.

Definition place_New (o : Options) : placement :=
  {| ready := opt_ready o; remote := remoteHosts_zero; p_inflight := Inflight_New (Hostname o) (Port o);
     connector := Connector (opt_active o); streamFactory := StreamFactory (opt_active o);
     p_schedulerPlacement := SchedulerPlacement (opt_active o); lookups := []; idx := 0;
     dissLoop := None; report := InitialReport o; fallback := opt_fallback o; alt := None;
     leadership := opt_leadership o |}.

End placement.
