(* ===== verification/PlacementLoopProps.v ===== *)
(** * Properties of the sidecar's placement loop

    Over every interleaving of the placement loop with the dissemination loop
    of the current stream: sessions start clean and never see the tables of an
    earlier stream, no request is lost, no authority is lost, and the loop does
    not panic. *)

From S2P Require Import Prelude GoLib ActorLocal ClaimLock ConsistentHash Rendezvous PlacementStore Inflight InflightProps SidecarDisseminator SidecarProps RemoteHosts PlacementLoop.
#[local] Open Scope dapr_scope.

Section props.
Context {X : XXHash}.
Variable hash : string → N.
Variable pool_idx : lock → N.
Variable ends_by : N → Z → bool.

Notation dHandle := (SidecarDisseminator.Handle hash pool_idx ends_by).

(** ** What every handler of the dissemination loop does to requests and claims *)

(** The request waits in the queue of a type. *)
Definition kept (i : Inflight) (r : request) : Prop :=
  ∃ t fns, queued i !! t = Some fns ∧ r ∈ fns.

(** Going from [i] to [i'] with outputs [os], no waiting request is dropped and
    the claim loop stays consistent. *)
Definition flow (i i' : Inflight) (os : list in_output) : Prop :=
  (cancelled_done (lck i) → cancelled_done (lck i')) ∧
  ∀ r, kept i r → kept i' r ∨ responded r os.

Lemma flow_same i i' os :
  queued i' = queued i → (cancelled_done (lck i) → cancelled_done (lck i')) → flow i i' os.
Proof. intros Hq Hl. split; [done|]. intros r (t & fns & Ht & Hr). left. exists t, fns. by rewrite Hq. Qed.

Lemma flow_trans i1 i2 i3 os1 os2 : flow i1 i2 os1 → flow i2 i3 os2 → flow i1 i3 (os1 ++ os2).
Proof.
  intros [C1 K1] [C2 K2]. split; [auto|]. intros r Hr.
  destruct (K1 r Hr) as [[Hk|Hk]%K2|Ho]; [by left|right; by apply responded_app_r|right; by apply responded_app_l].
Qed.

Lemma flow_Acquire r i :
  flow i (Acquire hash r i).1 (Acquire hash r i).2 ∧
  (kept (Acquire hash r i).1 r ∨ responded r (Acquire hash r i).2).
Proof.
  unfold Acquire, get. destruct (negb (lock_open i) || isBlocked i (request_type r)); cbn [modify fst snd].
  - split; [split; [done|]|].
    + intros r' (t & fns & Ht & Hr). left. destruct (decide (t = request_type r)) as [->|Hne].
      * eexists (request_type r), _. simpl. rewrite lookup_insert_eq, Ht. split; [done|set_solver].
      * exists t, fns. simpl. by rewrite lookup_insert_ne.
    + left. eexists (request_type r), _. simpl. rewrite lookup_insert_eq. split; [done|set_solver].
  - destruct (answer_spec hash r i) as [[[l Hl] C] R]. split; [|by right].
    apply flow_same; [by rewrite Hl|done].
Qed.

Lemma flow_Open i : flow i (Inflight_Open hash pool_idx i).1 (Inflight_Open hash pool_idx i).2.
Proof.
  destruct (Open_spec hash pool_idx i) as (B & O & C & Q & R). cbv zeta in *. split; [done|].
  intros r (t & fns & Ht & Hr). destruct (decide (t ∈ blockedTypes i)) as [Hb|Hb].
  - left. exists t, fns. by rewrite Q, decide_True.
  - right. by apply (R t fns).
Qed.

Lemma flow_Unlock ts i : flow i (UnlockTypes hash ts i).1 (UnlockTypes hash ts i).2.
Proof.
  destruct (UnlockTypes_spec hash ends_by ts i) as (B & O & C & Q & R). cbv zeta in *. split; [done|].
  intros r (t & fns & Ht & Hr). destruct (decide (t ∈ ts ∧ lock_open i = true)) as [[Hts Ho]|Hd].
  - right. by apply (R Ho t fns).
  - left. exists t, fns. by rewrite Q, decide_False.
Qed.

Lemma flow_Cancel ts err i :
  flow i (CancelClaimsForTypes ends_by ts err i).1 (CancelClaimsForTypes ends_by ts err i).2.
Proof.
  unfold CancelClaimsForTypes, get. destruct (lock_open i && _); apply flow_same; try done.
  intros Hc. apply (CancelTypes_spec ends_by _ (lck i) Hc).
Qed.

Lemma flow_Close err i : flow i (Inflight_Close ends_by err i).1 (Inflight_Close ends_by err i).2.
Proof.
  unfold Inflight_Close, get. destruct (lock_open i); apply flow_same; try done.
  intros Hc. exact (proj1 (proj2 (Close_spec ends_by _ (lck i) Hc))).
Qed.

(** The outputs of the shared [Inflight]. *)
Definition ins (os : list diss_output) : list in_output :=
  omap (λ o, match o with DOIn x => Some x | _ => None end) os.

Lemma ins_app os1 os2 : ins (os1 ++ os2) = ins os1 ++ ins os2.
Proof. apply omap_app. Qed.

Lemma ins_DOIn os : ins (DOIn <$> os) = os.
Proof. induction os as [|o os IH]; [done|]. by apply (f_equal (cons o)). Qed.

Definition flows_at (h : diss_handler) (d : disseminator) : Prop :=
  flow (inflight d) (inflight (h d).1) (ins (h d).2).

Lemma flows_frame (h : diss_handler) d : inflight (h d).1 = inflight d → flows_at h d.
Proof. intros E. apply flow_same; by rewrite E. Qed.

Lemma flows_seqp (h1 h2 : diss_handler) d :
  flows_at h1 d → flows_at h2 (h1 d).1 → flows_at (h1 ;;; h2) d.
Proof.
  unfold flows_at. intros H1 H2. rewrite seqp_eq. cbn [fst snd]. rewrite ins_app. by eapply flow_trans.
Qed.

Lemma flows_get (k : disseminator → diss_handler) d : flows_at (k d) d → flows_at (get k) d.
Proof. done. Qed.

Lemma flows_call (c : in_handler) d :
  flow (inflight d) (c (inflight d)).1 (c (inflight d)).2 → flows_at (call c) d.
Proof. unfold flows_at. rewrite call_eq. cbn [fst snd]. by rewrite ins_DOIn. Qed.

Lemma flows_completeRound (d : disseminator) : flows_at completeRound d.
Proof. apply flows_frame. by rewrite completeRound_state. Qed.

Lemma flows_installed ch (g : diss_handler) d :
  (∀ d, inflight (g d).1 = inflight d) → flows_at (installed_tables hash pool_idx ends_by ch g) d.
Proof.
  intros Hg. unfold installed_tables.
  apply flows_seqp; [apply flows_call, flow_same; done|].
  apply flows_seqp; [apply flows_call, flow_Open|].
  apply flows_seqp; [by apply flows_frame|].
  apply flows_seqp; [apply flows_call, flow_Cancel|]. by apply flows_frame.
Qed.

Ltac flows_step :=
  match goal with
  | |- flows_at (seqp _ _) _ => apply flows_seqp
  | |- flows_at (get _) _ => apply flows_get
  | |- flows_at (call (UnlockTypes _ _)) _ => apply flows_call, flow_Unlock
  | |- flows_at (call (Inflight_Close _ _)) _ => apply flows_call, flow_Close
  | |- flows_at (call (LockTypes _)) _ => apply flows_call, flow_same; done
  | |- flows_at completeRound _ => apply flows_completeRound
  | |- flows_at (installed_tables _ _ _ _ _) _ => apply flows_installed; done
  | |- flows_at (emit _) _ => apply flows_frame; done
  | |- flows_at (sendAck _ _) _ => apply flows_frame; done
  | |- flows_at skip _ => apply flows_frame; done
  | |- flows_at (closeStreamV2 _) _ => apply flows_frame; done
  | |- flows_at (when ?b _) _ => unfold when; destruct b
  | |- flows_at (if ?b then _ else _) _ => destruct b
  | |- flows_at (modify _) _ => apply flows_frame; done
  end.

Lemma flows_handleOrder o d : flows_at (SidecarDisseminator.handleOrder hash pool_idx ends_by o) d.
Proof.
  unfold SidecarDisseminator.handleOrder. destruct (Op o); repeat flows_step.
  destruct (Inflight_Set hash _ (v1_tables o) (o_Version o)) as [[i ch]|] eqn:HS; [|flows_step].
  apply flows_seqp; [|repeat flows_step].
  destruct (Set_gate hash _ _ _ _ _ HS) as (_ & _ & Q & L). apply flow_same; [exact Q|]. by rewrite <-L.
Qed.

Lemma flows_handleOrderV2 types o d : flows_at (handleOrderV2 hash pool_idx ends_by types o) d.
Proof.
  unfold handleOrderV2. destruct (Op o); repeat flows_step.
  - destruct (v2Rounds d !! o_Version o) as [r|]; [|unfold not_in_flight; repeat flows_step].
    pose proof (Merge_gate (inflight d) (v2_tables o) (Versions o)) as HG.
    destruct (Merge (inflight d) (v2_tables o) (Versions o)) as [i res]. cbn [fst] in HG.
    destruct HG as (_ & _ & _ & Q & _ & _ & L).
    apply flows_seqp; [apply flow_same; [exact Q|by rewrite <-L]|]. destruct res; repeat flows_step.
  - destruct (v2Rounds d !! o_Version o) as [r|]; [|unfold not_in_flight; repeat flows_step].
    repeat flows_step.
Qed.

(** No handler drops a waiting request. *)
Lemma flows_Handle types e d : flows_at (dHandle types e) d.
Proof.
  destruct e as [r|r| |o|v|err]; cbn [SidecarDisseminator.Handle].
  - assert (H : flows_at (call (Acquire hash r)) d) by apply flows_call, flow_Acquire. by destruct r.
  - by apply flows_frame.
  - repeat flows_step. by apply flows_frame.
  - flows_step. destruct (schedulerPlacement d); [apply flows_handleOrderV2|apply flows_handleOrder].
  - unfold handleTimeout. repeat flows_step.
  - unfold SidecarDisseminator.handleShutdown. repeat flows_step.
Qed.

Lemma Handle_accepts types r d :
  kept (inflight (dHandle types (EvRequest r) d).1) r ∨ responded r (ins (dHandle types (EvRequest r) d).2).
Proof.
  rewrite Handle_request, call_eq. cbn [fst snd]. rewrite ins_DOIn. apply (flow_Acquire r (inflight d)).
Qed.

(** ** The dissemination loop's queue *)

(** The outputs of the shared [Inflight] among those of the placement loop. *)
Definition pins (os : list p_output) : list in_output :=
  omap (λ o, match o with PODiss (DOIn x) => Some x | _ => None end) os.

Lemma pins_app os1 os2 : pins (os1 ++ os2) = pins os1 ++ pins os2.
Proof. apply omap_app. Qed.

Lemma pins_PODiss os : pins (PODiss <$> os) = ins os.
Proof. induction os as [|x os IH]; [done|]. destruct x; first [exact (f_equal (cons _) IH)|exact IH]. Qed.

(** The fields the dissemination loop does not touch. *)
Definition outer (p : placement) :=
  (remote p, active p, lookups p, idx p, report p, fallback p, alt p, leadership p).

Lemma diss_drain_spec types q d p :
  inflight d = p_inflight p → dissLoop p = Some (d, q) →
  let r := diss_drain hash pool_idx ends_by types q d p in
  (∃ d', dissLoop r.1 = Some (d', []) ∧ inflight d' = p_inflight r.1) ∧ outer r.1 = outer p ∧
  flow (p_inflight p) (p_inflight r.1) (pins r.2) ∧
  (∀ rq, EvRequest rq ∈ q → kept (p_inflight r.1) rq ∨ responded rq (pins r.2)) ∧
  (∀ q0 err, q = q0 ++ [EvShutdown err] → lock_open (p_inflight r.1) = false).
Proof.
  cbv zeta. revert d p; induction q as [|e q IH]; intros d p Hi Hd; cbn [diss_drain].
  { split_and!; [eauto|done|by apply flow_same|by intros ? ?%elem_of_nil|by intros [] ? ?]. }
  unfold diss_handle. set (r := dHandle types e d). set (p1 := set_ready _ (set_diss _ _ p)).
  destruct (IH r.1 p1 eq_refl eq_refl) as (Hd' & Ho & Hf & Hr & Hs).
  pose proof (flows_Handle types e d) as Hflow. unfold flows_at in Hflow. rewrite Hi in Hflow. fold r in Hflow.
  destruct (diss_drain hash pool_idx ends_by types q r.1 p1) as [p2 os2] eqn:E. cbn [fst snd] in *.
  rewrite pins_app, pins_PODiss. split_and!; [done|by rewrite Ho|by eapply flow_trans| |].
  - intros rq [<-|Hin]%elem_of_cons.
    + destruct (Handle_accepts types rq d) as [Hk|Hk]; fold r in Hk; [|right; by apply responded_app_l].
      destruct (proj2 Hf rq Hk); [by left|right; by apply responded_app_r].
    + destruct (Hr rq Hin); [by left|right; by apply responded_app_r].
  - intros [|e0 q0] err Hq; injection Hq as -> ->; [|by apply (Hs q0 err)].
    cbn in E. injection E as <- <-. unfold p1, r. cbn [SidecarDisseminator.Handle p_inflight set_ready set_diss].
    unfold SidecarDisseminator.handleShutdown. rewrite !seqp_eq. cbn [fst snd emit]. rewrite call_eq. cbn [fst inflight set_inflight].
    unfold Inflight_Close, get, when. by destruct (lock_open (inflight d)) eqn:Hl.
Qed.

(** ** The interleaving machine *)

(** What the environment guarantees of events: orders and closes come from an
    opened stream (stream numbers start at 1), and the loop is told to connect
    once, at the start. *)
Definition event_ok (e : EventPlace) (p : placement) : Prop :=
  match e with
  | PStreamOrder _ IDx | PConnCloseStream IDx _ _ => IDx ≠ 0%N
  | PReconnect _ => dissLoop p = None
  | _ => True
  end.

Definition event_requests (e : EventPlace) : list request :=
  match e with PRequest r => [r] | _ => [] end.

Definition is_shutdown (e : EventPlace) : bool := match e with PShutdown _ => true | _ => false end.

(** The states of the loop, with the requests it was given and its outputs. *)
Inductive reach (o : Options) : placement → list request → list p_output → Prop :=
  | reach_new : reach o (place_New o) [] []
  | reach_place p acc os env e p' os' :
      reach o p acc os → event_ok e p → is_shutdown e = false →
      place_Handle hash pool_idx ends_by env e p = (p', os', POk) →
      reach o p' (acc ++ event_requests e) (os ++ os')
  | reach_diss p acc os types d e q :
      reach o p acc os → dissLoop p = Some (d, e :: q) →
      (schedulerPlacement d = true → fresh_lock d e) →
      reach o (diss_step hash pool_idx ends_by types p).1 acc
        (os ++ (diss_step hash pool_idx ends_by types p).2)
  | reach_timeout p acc os v p' :
      reach o p acc os → enqueue (EvDisseminationTimeout v) p = Some p' → reach o p' acc os.

(** A session of the protocol the flag selects. *)
Definition session (v2 : bool) (d : disseminator) : Prop :=
  if v2 then v2_session hash pool_idx ends_by d else v1_session hash pool_idx ends_by d.

Definition session_ok (p : placement) : Prop :=
  match dissLoop p with
  | None => session_start (p_inflight p) ∧ idx p = 0%N
  | Some (d, q) => inflight d = p_inflight p ∧ session (p_schedulerPlacement p) d ∧
                   Forall (λ e, ends_loop e = false) q
  end.

(** Where an accepted request is. *)
Definition located (p : placement) (os : list p_output) (r : request) : Prop :=
  r ∈ lookups p ∨ (∃ d q, dissLoop p = Some (d, q) ∧ EvRequest r ∈ q) ∨
  kept (p_inflight p) r ∨ responded r (pins os).

Definition authorities (p : placement) : list Fallback :=
  active p :: option_list (fallback p) ++ option_list (alt p).

Definition one_spare (p : placement) : Prop := fallback p = None ∨ alt p = None.

Record pl_inv (o : Options) (p : placement) (acc : list request) (os : list p_output) : Prop := {
  pl_session : session_ok p;
  pl_started : is_Some (dissLoop p) → lookups p = [] ∧ fallback p = None;
  pl_requests : ∀ r, r ∈ acc → located p os r;
  pl_auth : authorities p ≡ₚ opt_active o :: option_list (opt_fallback o) ∧ one_spare p;
  pl_remote : rh_reachable (Some (remote p))
}.

(** ** Preservation *)

Lemma session_step v2 types d e :
  session v2 d → ends_loop e = false → (schedulerPlacement d = true → fresh_lock d e) →
  session v2 (dHandle types e d).1.
Proof.
  destruct v2; intros Hs He Hf; [|by apply v1_step].
  apply v2_step; [done|done|]. apply Hf. by destruct (v2_session_inv _ _ _ _ Hs).
Qed.

Lemma located_app p os os' r : located p os r → located p (os ++ os') r.
Proof.
  intros [?|[?|[?|Hr]]]; [by left|by right; left|by right; right; left|].
  right; right; right. rewrite pins_app. by apply responded_app_l.
Qed.

(** Steps that leave the requests, the session and the authorities alone. *)
Lemma inv_remote o p acc os os' s' :
  rh_step (remote p) (Some s') → pl_inv o p acc os → pl_inv o (set_remote s' p) acc (os ++ os').
Proof.
  intros Hr []. split; [done|done| |done|by eapply rh_next].
  intros r Hin. by apply (located_app _ os os'), pl_requests0.
Qed.

Lemma inv_shared o p acc os i :
  reconfigured (p_inflight p) i → pl_inv o p acc os → pl_inv o (set_shared i p) acc os.
Proof.
  intros Hi []. destruct (reconfigured_gate _ _ Hi) as (B & O & Q & L). unfold set_shared. split; [|..|done|done].
  - revert pl_session0. unfold session_ok. simpl. destruct (dissLoop p) as [[d q]|]; simpl.
    + intros (E & Hs & Hq). split_and!; [done| |done]. rewrite <-E in Hi.
      destruct (p_schedulerPlacement p); simpl in *; [by apply v2_conf|by apply v1_conf].
    + intros [(B0 & O0 & C0) ?]. split; [|done]. split_and!; [by rewrite B|by rewrite O|by rewrite L].
  - simpl. intros Hd. apply pl_started0. by apply fmap_is_Some in Hd.
  - intros r Hin. destruct (pl_requests0 r Hin) as [?|[(d & q & Hd & ?)|[(t & fns & Ht & ?)|?]]].
    + by left.
    + right; left. exists (set_inflight i d), q. simpl. by rewrite Hd.
    + right; right; left. exists t, fns. simpl. by rewrite Q.
    + by right; right; right.
Qed.

Lemma inv_report o p acc os v : pl_inv o p acc os → pl_inv o (set_report v p) acc os.
Proof. by intros []. Qed.

Lemma inv_enqueue o p acc acc' os e p' :
  enqueue e p = Some p' → ends_loop e = false → (∀ r, r ∈ acc' → r ∈ acc ∨ e = EvRequest r) →
  pl_inv o p acc os → pl_inv o p' acc' os.
Proof.
  unfold enqueue. destruct (dissLoop p) as [[d q]|] eqn:Hd; [|done]. intros [= <-] He Hacc [].
  unfold session_ok in pl_session0. rewrite Hd in pl_session0. destruct pl_session0 as (E & Hs & Hq).
  split; [|intros _; apply pl_started0; eauto| |done|done].
  - unfold session_ok. simpl. split_and!; [done|done|]. apply Forall_app. split; [done|by apply Forall_singleton].
  - intros r [Hin|Hr]%Hacc.
    + destruct (pl_requests0 r Hin) as [?|[(d' & q' & Hd' & ?)|[?|?]]]; [by left| |by right; right; left|by right; right; right].
      right; left. exists d, (q ++ [e]). rewrite Hd in Hd'. injection Hd' as <- <-. split; [done|set_solver].
    + right; left. exists d, (q ++ [e]). split; [done|set_solver].
Qed.

Lemma inv_diss_step o p acc os types d e q :
  dissLoop p = Some (d, e :: q) → (schedulerPlacement d = true → fresh_lock d e) → pl_inv o p acc os →
  pl_inv o (diss_step hash pool_idx ends_by types p).1 acc (os ++ (diss_step hash pool_idx ends_by types p).2).
Proof.
  intros Hd Hf []. unfold diss_step. rewrite Hd. cbn [diss_handle fst snd].
  unfold session_ok in pl_session0. rewrite Hd in pl_session0. destruct pl_session0 as (E & Hs & Hq).
  rewrite list.Forall_cons in Hq; destruct Hq as [He Hq]. pose proof (flows_Handle types e d) as [_ Hk]. rewrite E in Hk.
  split; [|intros _; apply pl_started0; eauto| |done|done].
  - unfold session_ok. simpl. split_and!; [done|by apply session_step|done].
  - intros r Hin. unfold located. simpl. rewrite pins_app, pins_PODiss.
    assert (Hafter : kept (inflight (dHandle types e d).1) r ∨ responded r (ins (dHandle types e d).2) →
      kept (inflight (dHandle types e d).1) r ∨ responded r (pins os ++ ins (dHandle types e d).2)).
    { intros [?|?]; [by left|right; by apply responded_app_r]. }
    destruct (pl_requests0 r Hin) as [?|[(d' & q' & Hd' & Hq')|[Hkr|?]]].
    + by left.
    + rewrite Hd in Hd'. injection Hd' as <- <-. apply elem_of_cons in Hq' as [<-|Hq'].
      * do 2 right. apply Hafter, Handle_accepts.
      * right; left. by eexists _, q.
    + do 2 right. apply Hafter, Hk, Hkr.
    + do 3 right. by apply responded_app_l.
Qed.

(** What connecting changes: the readiness and the choice of the authority. *)
Lemma connect_loop_ind (P : placement → Prop) atts ul p :
  (∀ p b, P p → P (set_ready b p)) → (∀ p, P p → P (adoptFallback p)) → (∀ p, P p → P (swapAlt p)) →
  P p → P (connect_loop atts ul p).1.1.
Proof.
  intros Hr Ha Hs. revert ul p; induction atts as [|a atts IH]; intros ul p Hp; [done|]. cbn [connect_loop].
  assert (Hfirst : ∀ os r, P r.1.1 → P (emit_first os r).1.1) by (by intros os [[]]).
  destruct (tryConnect a) as [[err|] os]; [|by apply Hfirst]. apply Hfirst.
  repeat (case_match; simplify_eq/=; try apply Hfirst); auto.
Qed.

Definition unconnected (p : placement) :=
  (remote p, p_inflight p, lookups p, idx p, dissLoop p, report p, leadership p).

Lemma connect_loop_frame atts ul p : unconnected (connect_loop atts ul p).1.1 = unconnected p.
Proof.
  apply (connect_loop_ind (λ p', unconnected p' = unconnected p)); [..|done].
  - by intros p' b <-.
  - intros p' <-. unfold adoptFallback. by destruct (fallback p').
  - intros p' <-. unfold swapAlt. by destruct (alt p').
Qed.

Lemma connect_loop_auth atts ul p l :
  authorities p ≡ₚ l ∧ one_spare p →
  authorities (connect_loop atts ul p).1.1 ≡ₚ l ∧ one_spare (connect_loop atts ul p).1.1.
Proof.
  apply (connect_loop_ind (λ p', authorities p' ≡ₚ l ∧ one_spare p')).
  - done.
  - intros p' [Hp Hs]. unfold adoptFallback. destruct (fallback p') as [f|] eqn:Hf; [|done].
    destruct Hs as [?|Ha]; [congruence|]. split; [|by left]. rewrite <-Hp. unfold authorities. rewrite Hf, Ha.
    destruct f. simpl. apply Permutation_swap.
  - intros p' [Hp Hs]. unfold swapAlt. destruct (alt p') as [f|] eqn:Ha; [|done].
    destruct Hs as [Hf|?]; [|congruence]. split; [|by left]. rewrite <-Hp. unfold authorities. simpl. rewrite Hf, Ha.
    destruct f. simpl. apply Permutation_swap.
Qed.

Lemma connect_loop_no_panic atts ul p : (connect_loop atts ul p).2 ≠ PPanic.
Proof.
  revert ul p; induction atts as [|a atts IH]; intros ul p; [done|]. cbn [connect_loop].
  assert (Hfirst : ∀ os (r : placement * list p_output * outcome), r.2 ≠ PPanic → (emit_first os r).2 ≠ PPanic)
    by (by intros os [[]]).
  destruct (tryConnect a) as [[err|] os]; [|by apply Hfirst]. apply Hfirst.
  repeat (case_match; simplify_eq/=; try apply Hfirst); auto; done.
Qed.

(** No session runs: every request waits outside of a dissemination loop. *)
Record idle (o : Options) (p : placement) (acc : list request) (os : list p_output) : Prop := {
  idle_start : session_start (p_inflight p);
  idle_requests : ∀ r, r ∈ acc → r ∈ lookups p ∨ kept (p_inflight p) r ∨ responded r (pins os);
  idle_auth : authorities p ≡ₚ opt_active o :: option_list (opt_fallback o) ∧ one_spare p;
  idle_remote : rh_reachable (Some (remote p))
}.

Lemma inv_start o p acc os ts : idle o p acc os → pl_inv o (start_session ts p) acc os.
Proof.
  intros []. unfold start_session.
  set (p1 := match fallback p with Some f => _ | None => p end).
  assert (H1 : p_inflight p1 = p_inflight p ∧ lookups p1 = lookups p ∧ remote p1 = remote p) by
    (unfold p1; by destruct (fallback p)).
  assert (Ha : authorities p1 ≡ₚ opt_active o :: option_list (opt_fallback o) ∧ one_spare p1).
  { unfold p1. destruct (fallback p) as [f|] eqn:Hf; [|done]. destruct idle_auth0 as [Hp [?|Hal]]; [congruence|].
    split; [|by left]. rewrite <-Hp. unfold authorities. simpl. by rewrite Hf, Hal. }
  assert (Hnf : fallback p1 = None) by (unfold p1; by destruct (fallback p) eqn:Hf).
  destruct H1 as (Hi & Hl & Hr). clearbody p1.
  set (p2 := match ts with Some _ => _ | None => _ end).
  assert (H2 : p_inflight p2 = p_inflight p ∧ lookups p2 = lookups p ∧ remote p2 = remote p ∧
    authorities p2 = authorities p1 ∧ fallback p2 = fallback p1 ∧ alt p2 = alt p1) by (unfold p2; by destruct ts).
  clearbody p2. destruct H2 as (Hi2 & Hl2 & Hr2 & Ha2 & Hf2 & Hal2). split; simpl.
  - unfold session_ok. simpl. split_and!; [done| |].
    + rewrite Hi2. destruct (p_schedulerPlacement p2); [by apply v2_start|by apply v1_start].
    + apply list.Forall_forall. intros e [->|(r & -> & _)%list_elem_of_fmap]%elem_of_cons; done.
  - intros _. split; [done|]. by rewrite Hf2.
  - intros r Hin. destruct (idle_requests0 r Hin) as [Hlk|[Hk|?]].
    + right; left. eexists _, _. split; [done|]. right. apply list_elem_of_fmap. exists r. split; [done|by rewrite Hl2].
    + right; right; left. simpl. by rewrite Hi2.
    + by right; right; right.
  - destruct Ha as [Ha Hs]. split; [by rewrite <-Ha, <-Ha2|]. unfold one_spare in *. simpl. by rewrite Hf2, Hal2.
  - by rewrite Hr2.
Qed.

Lemma inv_reconnect o p acc os env ts p' os' :
  idle o p acc os → handleReconnect env ts p = (p', os', POk) → pl_inv o p' acc (os ++ os').
Proof.
  intros []. unfold handleReconnect.
  pose proof (connect_loop_frame (attempts env) false p) as Hf.
  pose proof (connect_loop_auth (attempts env) false p _ idle_auth0) as Ha.
  destruct (connect_loop (attempts env) false p) as [[p1 os1] res]. cbn [fst] in *.
  destruct res; intros [= <- <-]. apply inv_start. injection Hf as Hr Hi Hl _ _ _ _. split.
  - by rewrite Hi.
  - intros r Hin. rewrite Hl, Hi, pins_app. destruct (idle_requests0 r Hin) as [?|[?|?]];
      [by left|by right; left|right; right; by apply responded_app_l].
  - done.
  - by rewrite Hr.
Qed.

(** Closing the stream ends the session and leaves the loop idle. *)
Lemma close_idle o p acc os types err :
  pl_inv o p acc os → is_Some (dissLoop p) →
  let r := diss_close hash pool_idx ends_by types err (set_ready false p) in
  idle o (set_shared (ResetSession (p_inflight r.1)) r.1) acc (os ++ r.2).
Proof.
  intros [] [[d q] Hd]. unfold session_ok in pl_session0. rewrite Hd in pl_session0.
  destruct pl_session0 as (E & Hs & Hq). cbv zeta. unfold diss_close. simpl. rewrite Hd.
  set (p0 := set_diss (p_inflight p) (Some (d, q ++ [EvShutdown err])) (set_ready false p)).
  assert (Hsame : ∀ l, diss_drain hash pool_idx ends_by types (q ++ [EvShutdown err]) d
    (set_diss (p_inflight p) l (set_ready false p)) =
    diss_drain hash pool_idx ends_by types (q ++ [EvShutdown err]) d p0) by (intros l; by destruct q).
  specialize (Hsame (dissLoop p)).
  change (set_diss (p_inflight p) (dissLoop p) (set_ready false p)) with (set_ready false p) in Hsame.
  rewrite Hsame. destruct (diss_drain_spec types (q ++ [EvShutdown err]) d p0 E eq_refl)
    as (_ & Ho & [Hcd Hk] & Hr & Hlk). cbv zeta in *.
  destruct (diss_drain hash pool_idx ends_by types (q ++ [EvShutdown err]) d p0) as [p1 os1]. cbn [fst snd] in *.
  injection Ho as Hre Hc1 Hc2 Hc3 Hl _ _ Hfb Hal _.
  assert (Hcd0 : cancelled_done (lck (p_inflight p))).
  { rewrite <-E. destruct (p_schedulerPlacement p); simpl in Hs.
    - by destruct (v2_session_inv _ _ _ _ Hs).
    - by destruct (v1_session_inv _ _ _ [] _ Hs). }
  split.
  - split_and!; [done|by apply (Hlk q err)|by apply Hcd].
  - intros r Hin. unfold kept. simpl. rewrite pins_app.
    assert (Hafter : kept (p_inflight p1) r ∨ responded r (pins os1) →
      r ∈ lookups p1 ∨ kept (p_inflight p1) r ∨ responded r (pins os ++ pins os1)).
    { intros [?|?]; [right; by left|right; right; by apply responded_app_r]. }
    destruct (pl_requests0 r Hin) as [Hlr|[(d' & q' & Hd' & Hq')|[Hkr|?]]].
    + left. by rewrite Hl.
    + rewrite Hd in Hd'. injection Hd' as <- <-. apply Hafter, Hr. set_solver.
    + apply Hafter, Hk, Hkr.
    + right; right. by apply responded_app_l.
  - unfold authorities, one_spare, active. simpl. rewrite Hc1, Hc2, Hc3, Hfb, Hal. exact pl_auth0.
  - simpl. by rewrite Hre.
Qed.

Lemma inv_handle o p acc os env e p' os' :
  pl_inv o p acc os → event_ok e p → is_shutdown e = false →
  handle hash pool_idx ends_by env e p = (p', os', POk) →
  pl_inv o p' (acc ++ event_requests e) (os ++ os').
Proof.
  intros Hinv Hok Hsh. destruct e; try discriminate Hsh; cbn [handle event_requests]; rewrite ?app_nil_r.
  - unfold handleOrder. destruct (negb (idx p =? IDx)%N); [intros [= <- <-]; by rewrite app_nil_r|].
    destruct (enqueue (EvStreamOrder order) p) as [p1|] eqn:He; intros [= <- <-]. rewrite app_nil_r.
    apply (inv_enqueue o p acc acc os _ _ He); [done|by left|done].
  - intros [= <- <-]. rewrite app_nil_r. unfold handleRequest. destruct (dissLoop p) as [[d q]|] eqn:Hd.
    + destruct (enqueue (EvRequest r) p) as [p1|] eqn:He; [|unfold enqueue in He; by rewrite Hd in He].
      eapply inv_enqueue; [exact He|done| |exact Hinv]. set_solver.
    + destruct Hinv. split; [|simpl; rewrite Hd; by intros []| |done|done].
      * revert pl_session0. unfold session_ok. simpl. by rewrite Hd.
      * intros r' [Hin| ->%list_elem_of_singleton]%elem_of_app; [|left; simpl; set_solver].
        destruct (pl_requests0 r' Hin) as [?|?]; [left; simpl; set_solver|by right].
  - simpl in Hok. apply inv_reconnect. destruct Hinv. unfold session_ok in pl_session0. rewrite Hok in pl_session0.
    split; [apply pl_session0| |done|done]. intros r Hin.
    destruct (pl_requests0 r Hin) as [?|[(? & ? & ? & _)|?]]; [by left|congruence|by right].
  - unfold handleCloseStream. destruct (IDx =? idx p)%N eqn:Hidx; simpl; [|intros [= <- <-]; by rewrite app_nil_r].
    apply N.eqb_eq in Hidx. destruct (dissLoop p) as [dq|] eqn:Hd; [|done].
    pose proof (close_idle o p acc os (table_types env) err Hinv ltac:(eauto)) as Hidle. cbv zeta in Hidle.
    destruct (diss_close _ _ _ _ _ _) as [p1 os1]. cbn [fst snd] in Hidle.
    destruct (ctx_err env); [done|]. destruct (refused && backoff_done env); [done|].
    destruct (handleReconnect env None _) as [[p2 os2] res] eqn:Hrec. cbn [emit_first]. intros [= <- <- ->].
    rewrite app_assoc. eapply inv_reconnect; [|exact Hrec].
    destruct Hidle. split; [done| |done|done]. intros r Hin. rewrite app_assoc, pins_app.
    destruct (idle_requests0 r Hin) as [?|[?|?]]; [by left|by right; left|right; right; by apply responded_app_l].
  - intros [= <- <-]. rewrite app_nil_r. unfold handleUpdateTypes. cbv zeta.
    destruct (enqueue _ _) as [p1|] eqn:He; simpl; [|by apply inv_report].
    apply (inv_enqueue o _ acc acc os _ _ He); [done|by left|by apply inv_report].
  - intros [= <- <-]. rewrite app_nil_r. destruct (enqueue _ _) as [p1|] eqn:He; simpl; [|done].
    apply (inv_enqueue o p acc acc os _ _ He); [done|by left|done].
  - destruct (watch t (remote p)) as [[r ch]|] eqn:Hw; intros [= <- <-]. apply inv_remote; [|done].
    pose proof (rh_watch (remote p) t) as H. by rewrite Hw in H.
  - destruct (unwatch t ch (remote p)) as [r|] eqn:Hw; intros [= <- <-]. apply inv_remote; [|done].
    pose proof (rh_unwatch (remote p) t ch) as H. by rewrite Hw in H.
  - destruct (roundCompleted e (remote p)) as [r|] eqn:Hw; intros [= <- <-]. apply inv_remote; [|done].
    pose proof (rh_round (remote p) e) as H. by rewrite Hw in H.
  - intros [= <- <-]. rewrite app_nil_r. apply inv_shared; [constructor|done].
  - intros [= <- <-]. rewrite app_nil_r. apply inv_shared; [constructor|done].
Qed.

Lemma reach_inv o p acc os : reach o p acc os → pl_inv o p acc os.
Proof.
  induction 1 as [|p acc os env e p' os' _ IH Hok Hsh Hh|p acc os types d e q _ IH Hd Hf|p acc os v p' _ IH He].
  - split; [|by intros []|by intros ? ?%elem_of_nil| |apply rh_init].
    + split; [|done]. split_and!; [done|done|]. intros i Hi. vm_compute in Hi. discriminate Hi.
    + split; [|by right]. unfold authorities. destruct o as [h pt [] ? ? ? ?]. simpl. by rewrite app_nil_r.
  - unfold place_Handle in Hh. destruct (handle hash pool_idx ends_by env e p) as [[p1 os1] res] eqn:Hhd.
    destruct res; [injection Hh as <- <-|destruct (rh_close (remote p1)); discriminate Hh|discriminate Hh..].
    by eapply inv_handle.
  - by eapply inv_diss_step.
  - apply (inv_enqueue o p acc acc os _ _ He); [done|by left|done].
Qed.

(** ** Properties *)

(** Session hygiene. In every reachable state of the placement loop: without a stream no
    type is blocked and no claim loop runs; with a stream the dissemination loop works on
    the shared Inflight, speaks the protocol of the active authority, no request is left in
    the pre-connect list, and its state is one of a session of that protocol that started
    with no blocked type and a closed claim loop, whatever the sessions before did. *)
Theorem placement_sessions_clean o p acc os :
  reach o p acc os →
  match dissLoop p with
  | None => blockedTypes (p_inflight p) = ∅ ∧ lock_open (p_inflight p) = false
  | Some (d, q) => inflight d = p_inflight p ∧ schedulerPlacement d = p_schedulerPlacement p ∧
                   lookups p = [] ∧ session (p_schedulerPlacement p) d
  end.
Proof.
  intros Hr%reach_inv. destruct Hr as [Hs Hl _ _ _]. unfold session_ok in Hs.
  destruct (dissLoop p) as [[d q]|]; [|by destruct Hs as [(? & ? & _) _]]. destruct Hs as (E & Hs & _).
  split_and!; [done| |by apply Hl|done]. destruct (p_schedulerPlacement p); simpl in Hs.
  - by destruct (v2_session_inv _ _ _ _ Hs).
  - by destruct (v1_session_inv _ _ _ [] _ Hs).
Qed.

(** C5: No request is lost by the sidecar. Over every interleaving of the placement loop
    with the dissemination loop, across connects, stream losses and reconnects, each lookup
    or lock request the loop accepted is in the list kept while there is no stream, in the
    event queue of the dissemination loop, in the queue of an actor type, or has been
    answered on its response channel (or the process panicked in resolving it). *)
Theorem placement_requests_conserved o p acc os r :
  reach o p acc os → r ∈ acc →
  r ∈ lookups p ∨
  (∃ d q, dissLoop p = Some (d, q) ∧ EvRequest r ∈ q) ∨
  (∃ t fns, queued (p_inflight p) !! t = Some fns ∧ r ∈ fns) ∨
  (∃ x, PODiss (DOIn (Respond (resp_of r) x)) ∈ os) ∨ PODiss (DOIn Panic) ∈ os.
Proof.
  assert (Hin : ∀ x, x ∈ pins os → PODiss (DOIn x) ∈ os).
  { intros x Hx. apply list_elem_of_omap in Hx as (y & Hy & E). by destruct y as [[]| | | |]; simplify_eq. }
  intros Hr%reach_inv Ha. destruct (pl_requests _ _ _ _ Hr r Ha) as [?|[?|[?|[[x Hx]|Hp]]]];
    [by left|by right; left|by right; right; left|do 3 right; left; eauto|do 4 right; auto].
Qed.

(** No placement authority is lost: in every reachable state the active connector with the
    spare ones is a permutation of the configured connectors; once connected the startup
    fallback has been settled and the other configured authority is kept for a handover. *)
Theorem placement_authorities_kept o p acc os :
  reach o p acc os →
  authorities p ≡ₚ opt_active o :: option_list (opt_fallback o) ∧
  (is_Some (dissLoop p) → fallback p = None ∧ (is_Some (alt p) ↔ is_Some (opt_fallback o))).
Proof.
  intros Hr%reach_inv. destruct Hr as [_ Hst _ [Hp _] _]. split; [done|]. intros [_ Hf]%Hst. split; [done|].
  apply Permutation_length in Hp. unfold authorities in Hp. rewrite Hf in Hp.
  destruct (alt p), (opt_fallback o); simplify_eq/=; split; intros H; try done; by destruct H.
Qed.

(** The signals that move a sidecar to another authority. *)
Definition handover_signal (p : placement) (a : attempt) : bool :=
  match (tryConnect a).1 with
  | None => false
  | Some ErrUnsupported => true
  | Some ErrOther =>
      (bool_decide (is_Some (fallback p)) && p_schedulerPlacement p && a_startup_timeout a &&
       negb (leadership p && a_reachable a)) ||
      (match alt p with Some f => SchedulerPlacement f | None => false end && leadership p &&
       negb (bool_decide (a_leader a = EmptyString)))
  end.

(** A sidecar changes its placement authority only on a signal: if no connection attempt
    shows one (an unsupported scheduler, the startup timeout with no reachable scheduler
    before a choice was made, or an advertised scheduler leader while the placement service
    fails), connecting leaves the whole state of the loop unchanged, the chosen authority
    included. *)
Theorem authority_moves_only_on_signal atts ul p :
  existsb (handover_signal p) atts = false → (connect_loop atts ul p).1.1 = p.
Proof.
  intros Hno. revert ul; induction atts as [|a atts IH]; intros ul; [done|]. cbn [existsb] in Hno.
  apply orb_false_iff in Hno as [Hs Hno]. specialize (IH Hno). cbn [connect_loop]. unfold handover_signal in Hs.
  assert (Hfirst : ∀ os r, r.1.1 = p → (emit_first os r).1.1 = p) by (by intros os [[]]).
  destruct (tryConnect a) as [[err|] os]; [|by apply Hfirst]. apply Hfirst. cbn [fst] in Hs.
  destruct (a_ctx_err a); [done|]. destruct err; [done|]. apply orb_false_iff in Hs as [H1 H2].
  destruct (bool_decide (is_Some (fallback p)) && p_schedulerPlacement p && a_startup_timeout a).
  { simpl in H1. apply negb_false_iff in H1. rewrite H1. apply IH. }
  assert (E : match alt p with Some f => if SchedulerPlacement f && leadership p &&
    negb (bool_decide (a_leader a = EmptyString)) then swapAlt p else p | None => p end = p).
  { destruct (alt p); [by rewrite H2|done]. }
  rewrite E. destruct (a_wait_done a); [done|apply IH].
Qed.

Lemma rh_close_ok s : rh_reachable (Some s) → is_Some (rh_close s).
Proof.
  intros Hr. destruct (rh_reachable_inv _ Hr) as (s0 & [= <-] & Hi).
  destruct (inv_close s Hi) as (s' & -> & _). eauto.
Qed.

Lemma diss_close_remote types err p :
  remote (diss_close hash pool_idx ends_by types err p).1 = remote p.
Proof.
  unfold diss_close. destruct (dissLoop p) as [[d q]|]; [|done].
  revert d p; induction (q ++ [EvShutdown err]) as [|e l IH]; intros d p; [done|]. cbn [diss_drain diss_handle].
  match goal with |- context [diss_drain _ _ _ _ l ?d' ?p'] => specialize (IH d' p') end.
  destruct (diss_drain _ _ _ _ l _ _). cbn [fst] in *. by rewrite IH.
Qed.

Lemma handleReconnect_remote env ts p p' os :
  handleReconnect env ts p = (p', os, PErr) → remote p' = remote p.
Proof.
  unfold handleReconnect. pose proof (connect_loop_frame (attempts env) false p) as Hf.
  destruct (connect_loop (attempts env) false p) as [[p1 os1] []]; intros [= <- <-]. by injection Hf.
Qed.

Lemma handleReconnect_no_panic env ts p : (handleReconnect env ts p).2 ≠ PPanic.
Proof.
  unfold handleReconnect. pose proof (connect_loop_no_panic (attempts env) false p) as Hf.
  by destruct (connect_loop (attempts env) false p) as [[p1 os1] []].
Qed.

(** The handlers leave the subscriptions alone on an error, and do not panic. *)
Lemma handle_safe o p acc os env e :
  pl_inv o p acc os → event_ok e p →
  let '(p', _, res) := handle hash pool_idx ends_by env e p in
  res ≠ PPanic ∧ (res = PErr → remote p' = remote p).
Proof.
  intros Hinv Hok. destruct (rh_reachable_inv _ (pl_remote _ _ _ _ Hinv)) as (s & [= <-] & Hi).
  pose proof (pl_session _ _ _ _ Hinv) as Hs. unfold session_ok in Hs.
  assert (Hrec : ∀ ts p1, remote p1 = remote p → let '(p', _, res) := handleReconnect env ts p1 in
    res ≠ PPanic ∧ (res = PErr → remote p' = remote p)).
  { intros ts p1 Hp1. pose proof (handleReconnect_no_panic env ts p1) as Hn.
    destruct (handleReconnect env ts p1) as [[p2 os2] res] eqn:E. split; [done|]. intros ->.
    by rewrite (handleReconnect_remote _ _ _ _ _ E). }
  destruct e; cbn [handle event_ok] in *; try done.
  - unfold handleOrder, enqueue. destruct (N.eqb_spec (idx p) IDx) as [E|]; [|done]. simpl.
    destruct (dissLoop p) as [[d q]|]; [done|]. destruct Hs as [_ H0]. congruence.
  - by apply Hrec.
  - unfold handleCloseStream. destruct (N.eqb_spec IDx (idx p)) as [E|]; [|done]. simpl.
    destruct (dissLoop p) as [[d q]|]; [|destruct Hs as [_ H0]; congruence].
    pose proof (diss_close_remote (table_types env) err (set_ready false p)) as Hd.
    destruct (diss_close _ _ _ _ _ _) as [p1 os1]. cbn [fst] in Hd.
    destruct (ctx_err env); [done|]. destruct (refused && backoff_done env); [done|].
    specialize (Hrec None (set_shared (ResetSession (p_inflight p1)) p1) Hd).
    by destruct (handleReconnect env None _) as [[p2 os2] res].
  - destruct (inv_watch t _ Hi) as (s' & ch & -> & _). done.
  - destruct (inv_unwatch t ch _ Hi) as (s' & -> & _). done.
  - destruct (inv_round e _ Hi) as (s' & -> & _). done.
  - unfold handleShutdown. destruct (inv_close _ Hi) as (s' & -> & _). by destruct (diss_close _ _ _ _ _ _).
Qed.

(** The placement loop does not panic: in every reachable state, handling any event (orders
    and closes carry the number of an opened stream, the loop is told to connect once)
    neither uses a missing dissemination loop nor sends on or closes a closed subscriber
    channel. *)
Theorem placement_loop_never_panics o p acc os env e :
  reach o p acc os → event_ok e p → (place_Handle hash pool_idx ends_by env e p).2 ≠ PPanic.
Proof.
  intros Hr%reach_inv Hok. pose proof (handle_safe o p acc os env e Hr Hok) as H. unfold place_Handle.
  destruct (handle hash pool_idx ends_by env e p) as [[p1 os1] res]. destruct H as [Hn He].
  destruct res; try done. rewrite (He eq_refl).
  by destruct (rh_close_ok _ (pl_remote _ _ _ _ Hr)) as [r ->].
Qed.

End props.

(** ** Witnesses *)

#[local] Existing Instance poly_hash.

Definition demo_options : Options :=
  {| Hostname := "127.0.0.1"; Port := "3500"; opt_active := mkFallback 1 1 true;
     opt_fallback := Some (mkFallback 2 2 false);
     InitialReport := mkHostReport "127.0.0.1:3500" "app" "ns" ["t1"]; opt_leadership := true; opt_ready := false |}.

Definition demo_attempt (e : option connect_error) : attempt :=
  mkAttempt e None false false false EmptyString false.

(** The scheduler does not serve placement: the placement service is used. *)
Definition demo_env : environment :=
  mkEnvironment [demo_attempt (Some ErrUnsupported); demo_attempt None] ["t1"] false false.

Definition demo_request : request :=
  LookupRequest 7 {| ActorType := "t1"; ActorID := "a1"; NoCache := false |}.

Definition demo_place : EventPlace → placement → placement * list p_output * outcome :=
  place_Handle demo_hash demo_pool demo_ends demo_env.

Definition demo_p1 : placement := (demo_place (PRequest demo_request) (place_New demo_options)).1.1.
Definition demo_p2 : placement := (demo_place (PReconnect None) demo_p1).1.1.
Definition demo_p3 : placement := (diss_step demo_hash demo_pool demo_ends ["t1"] demo_p2).1.

Lemma reach_demo1 : reach demo_hash demo_pool demo_ends demo_options demo_p1 [demo_request] [].
Proof.
  apply (reach_place demo_hash demo_pool demo_ends demo_options (place_New demo_options) [] [] demo_env
    (PRequest demo_request) demo_p1 []); [apply reach_new|exact I|reflexivity|reflexivity].
Qed.

Lemma reach_demo2 : reach demo_hash demo_pool demo_ends demo_options demo_p2 [demo_request] [].
Proof.
  apply (reach_place demo_hash demo_pool demo_ends demo_options demo_p1 [demo_request] [] demo_env
    (PReconnect None) demo_p2 []); [apply reach_demo1|reflexivity|reflexivity|reflexivity].
Qed.

Lemma reach_demo3 : ∃ os, reach demo_hash demo_pool demo_ends demo_options demo_p3 [demo_request] os.
Proof.
  destruct (dissLoop demo_p2) as [[d [|e q]]|] eqn:E; [discriminate E| |discriminate E].
  eexists. apply (reach_diss demo_hash demo_pool demo_ends demo_options demo_p2 [demo_request] [] ["t1"] d e q);
    [apply reach_demo2|exact E|]. intros Hs. exfalso. injection E as <- _ _. discriminate Hs.
Qed.

Lemma placement_sessions_clean_witness :
  ∃ d q, dissLoop demo_p3 = Some (d, q) ∧ lookups demo_p3 = [] ∧
    v1_session demo_hash demo_pool demo_ends d.
Proof.
  destruct reach_demo3 as [os Hr]. pose proof (placement_sessions_clean demo_hash demo_pool demo_ends _ _ _ _ Hr) as H.
  destruct (dissLoop demo_p3) as [[d q]|] eqn:E; [|discriminate E]. exists d, q.
  destruct H as (_ & _ & Hl & Hs). split; [reflexivity|]. split; [exact Hl|exact Hs].
Defined.

Lemma placement_requests_conserved_witness :
  demo_request ∈ lookups demo_p1 ∨
  (∃ d q, dissLoop demo_p1 = Some (d, q) ∧ EvRequest demo_request ∈ q) ∨
  (∃ t fns, queued (p_inflight demo_p1) !! t = Some fns ∧ demo_request ∈ fns) ∨
  (∃ x, PODiss (DOIn (Respond (resp_of demo_request) x)) ∈ []) ∨ PODiss (DOIn Panic) ∈ [].
Proof.
  exact (placement_requests_conserved demo_hash demo_pool demo_ends demo_options demo_p1 [demo_request] []
    demo_request reach_demo1 ltac:(set_solver)).
Defined.

Lemma placement_authorities_kept_witness :
  authorities demo_p2 ≡ₚ [mkFallback 1 1 true; mkFallback 2 2 false] ∧ active demo_p2 = mkFallback 2 2 false.
Proof.
  split; [|reflexivity].
  exact (proj1 (placement_authorities_kept demo_hash demo_pool demo_ends _ _ _ _ reach_demo2)).
Defined.

Lemma authority_moves_only_on_signal_witness :
  (connect_loop [demo_attempt (Some ErrOther); demo_attempt None] false demo_p2).1.1 = demo_p2.
Proof. apply (authority_moves_only_on_signal [demo_attempt (Some ErrOther); demo_attempt None]). reflexivity. Defined.

Lemma placement_loop_never_panics_witness :
  (demo_place (PConnCloseStream 1 "closed" false) demo_p2).2 ≠ PPanic.
Proof.
  apply (placement_loop_never_panics demo_hash demo_pool demo_ends demo_options demo_p2 [demo_request] []);
    [apply reach_demo2|discriminate].
Defined.
