(* ===== verification/SchedulerStore.v ===== *)
(** * Host store of the scheduler's placement
      (pkg/scheduler/server/internal/placement/loops/store/store.go)

    Which stream hosts which actor types, the partial tables built from it, and
    the types whose table a report changes.  [Tables] has the iteration order
    of the hosts as an argument. *)

From S2P Require Import Prelude GoLib Inflight.

(** ** Definitions *)

Record ActorHost := mkActorHost {
  ah_Address : string; ah_AppId : string; ah_Namespace : string; ah_ActorTypes : list string }.

Record SchedStore := mkSchedStore { s_hosts : gmap N ActorHost }.

Definition SStore_New : SchedStore := mkSchedStore ∅.

Definition union_types (a b : list string) : list string := compact (sort_strings (a ++ b)).

(** The elements of exactly one of two sorted slices; the two loop variables of
    the source are the two arguments. *)
Fixpoint symmetricDiff (a : list string) : list string → list string :=
  fix go (b : list string) : list string :=
    match a, b with
    | [], _ => b
    | _, [] => a
    | x :: a', y :: b' =>
        if decide (x = y) then symmetricDiff a' b'
        else if decide (String.le x y) then x :: symmetricDiff a' b
        else y :: go b'
    end.

Definition sorted_host (h : ActorHost) : ActorHost :=
  mkActorHost (ah_Address h) (ah_AppId h) (ah_Namespace h) (sort_strings (ah_ActorTypes h)).

Definition SStore_Set (s : SchedStore) (streamIDx : N) (h : ActorHost) : SchedStore * list string :=
  let host := sorted_host h in
  let changed :=
    match s_hosts s !! streamIDx with
    | None => ah_ActorTypes host
    | Some existing =>
        if negb (bool_decide (ah_Address existing = ah_Address host)) ||
           negb (bool_decide (ah_AppId existing = ah_AppId host))
        then union_types (ah_ActorTypes existing) (ah_ActorTypes host)
        else symmetricDiff (ah_ActorTypes existing) (ah_ActorTypes host)
    end in
  (mkSchedStore (if length (ah_ActorTypes host) =? 0 then delete streamIDx (s_hosts s)
                 else <[streamIDx := host]> (s_hosts s)), changed).

Definition SStore_Delete (s : SchedStore) (streamIDx : N) : SchedStore * list string :=
  match s_hosts s !! streamIDx with
  | None => (s, [])
  | Some existing => (mkSchedStore (delete streamIDx (s_hosts s)), ah_ActorTypes existing)
  end.

Definition SStore_Has (s : SchedStore) (streamIDx : N) : bool :=
  bool_decide (is_Some (s_hosts s !! streamIDx)).

Definition s_order (s : SchedStore) : list ActorHost := (map_to_list (s_hosts s)).*2.

Definition SStore_Types (s : SchedStore) : list string :=
  sort_strings (elements (⋃ ((λ h, list_to_set (ah_ActorTypes h)) <$> s_order s) : gset string)).

(** One type of one host in the loop of [Tables]. *)
Definition add_type (h : ActorHost) (entries : gmap string (gmap string string)) (t : string)
    : gmap string (gmap string string) :=
  match entries !! t with
  | None => entries
  | Some entry => <[t := <[ah_Address h := ah_AppId h]> entry]> entries
  end.

Definition add_types (entries : gmap string (gmap string string)) (h : ActorHost)
    : gmap string (gmap string string) := foldl (add_type h) entries (ah_ActorTypes h).

Definition SStore_Tables_order (order : list ActorHost) (types : list string) : V2Tables :=
  mkV2Tables HASH_ALGORITHM_RENDEZVOUS
    (foldl add_types (list_to_map ((λ t, (t, ∅)) <$> types)) order).

Definition SStore_Tables (s : SchedStore) (types : list string) : V2Tables :=
  SStore_Tables_order (s_order s) types.

Definition SStore_CollectOrphans (s : SchedStore) (isActive : N → bool) (orphans : list N) : list N :=
  orphans ++ filter (λ idx, isActive idx = false) (map_to_list (s_hosts s)).*1.

Definition SStore_DeleteAll (s : SchedStore) : SchedStore := mkSchedStore ∅.

(** ** Specification *)

(** The addresses that host type [t]. *)
Definition hosting (s : SchedStore) (t : string) : gset string :=
  ⋃ ((λ h, if decide (t ∈ ah_ActorTypes h) then {[ ah_Address h ]} else ∅) <$> s_order s).

Definition sched_wf (s : SchedStore) : Prop :=
  ∀ i h, s_hosts s !! i = Some h → StronglySorted String.le (ah_ActorTypes h) ∧ ah_ActorTypes h ≠ [].

(** ** Lemmas *)

Lemma elem_of_s_order s h : h ∈ s_order s ↔ ∃ i, s_hosts s !! i = Some h.
Proof.
  unfold s_order. rewrite list_elem_of_fmap. split.
  - intros ([i h'] & -> & Hi%elem_of_map_to_list). eauto.
  - intros [i Hi]. exists (i, h). split; [done|by apply elem_of_map_to_list].
Qed.

Lemma elem_of_hosting s t a :
  a ∈ hosting s t ↔ ∃ i h, s_hosts s !! i = Some h ∧ t ∈ ah_ActorTypes h ∧ ah_Address h = a.
Proof.
  unfold hosting. rewrite elem_of_union_list. split.
  - intros (Y & (h & -> & (i & Hi)%elem_of_s_order)%list_elem_of_fmap & Ha).
    case_decide; [|set_solver]. apply elem_of_singleton in Ha. eauto.
  - intros (i & h & Hi & Ht & <-). exists {[ ah_Address h ]}. split; [|set_solver].
    apply list_elem_of_fmap. exists h. rewrite decide_True by done. split; [done|]. apply elem_of_s_order. eauto.
Qed.

Lemma elem_of_Types s t : t ∈ SStore_Types s ↔ hosting s t ≠ ∅.
Proof.
  unfold SStore_Types. rewrite elem_of_sort_strings, elem_of_elements, elem_of_union_list. split.
  - intros (Y & (h & -> & (i & Hi)%elem_of_s_order)%list_elem_of_fmap & Ht%elem_of_list_to_set).
    intros He. assert (Ha : ah_Address h ∈ hosting s t) by (apply elem_of_hosting; eauto). set_solver.
  - intros [a (i & h & Hi & Ht & <-)%elem_of_hosting]%set_choose_L.
    eexists. split; [apply list_elem_of_fmap; exists h; split; [done|apply elem_of_s_order; eauto]|].
    by apply elem_of_list_to_set.
Qed.

Lemma elem_of_union_types a b t : t ∈ union_types a b ↔ t ∈ a ∨ t ∈ b.
Proof. unfold union_types. by rewrite elem_of_compact, elem_of_sort_strings, elem_of_app. Qed.

(** A type of one of the two slices only is in the difference. *)
Lemma symmetricDiff_complete a b t :
  StronglySorted String.le a → StronglySorted String.le b →
  (t ∈ a ∧ t ∉ b) ∨ (t ∉ a ∧ t ∈ b) → t ∈ symmetricDiff a b.
Proof.
  revert b; induction a as [|x a IHa]; intros b Ha Hb H.
  { destruct b; simpl; set_solver. }
  inversion Ha as [|? ? Ha' Hxa]; subst. rewrite list.Forall_forall in Hxa.
  induction b as [|y b IHb]; [simpl; set_solver|].
  inversion Hb as [|? ? Hb' Hyb]; subst. rewrite list.Forall_forall in Hyb. cbn [symmetricDiff].
  destruct (decide (x = y)) as [->|Hne].
  - apply IHa; [done|done|]. destruct (decide (t = y)) as [->|Hty]; [set_solver|].
    rewrite !elem_of_cons in H. tauto.
  - destruct (decide (String.le x y)) as [Hxy|Hxy].
    + destruct (decide (t = x)) as [->|Htx]; [left|right]. apply IHa; [done|done|].
      rewrite (elem_of_cons a) in H. tauto.
    + destruct (decide (t = y)) as [->|Hty]; [left|right].
      change (t ∈ symmetricDiff (x :: a) b). apply IHb; [done|]. rewrite (elem_of_cons b) in H. tauto.
Qed.

Lemma symmetricDiff_sound a b t : t ∈ symmetricDiff a b → t ∈ a ∨ t ∈ b.
Proof.
  revert b; induction a as [|x a IHa]; intros b; [destruct b; simpl; auto|].
  induction b as [|y b IHb]; [simpl; auto|]. cbn [symmetricDiff].
  destruct (decide (x = y)) as [->|Hne]; [intros [?|?]%IHa; set_solver|].
  destruct (decide (String.le x y)).
  - intros [->|[?|?]%IHa]%elem_of_cons; set_solver.
  - intros [->|Ht]%elem_of_cons; [set_solver|]. change (t ∈ symmetricDiff (x :: a) b) in Ht.
    apply IHb in Ht. set_solver.
Qed.

Lemma sched_wf_Set s i h : sched_wf s → sched_wf (SStore_Set s i h).1.
Proof.
  intros Hwf j x. unfold SStore_Set. simpl. destruct (length _ =? 0) eqn:Hl.
  - intros [_ Hx]%lookup_delete_Some. by apply (Hwf j).
  - rewrite lookup_insert. case_decide; [|apply Hwf]. intros [= <-]. simpl.
    split; [apply sort_strings_sorted|]. intros E. rewrite E in Hl. done.
Qed.

Lemma sched_wf_Delete s i : sched_wf s → sched_wf (SStore_Delete s i).1.
Proof.
  intros Hwf j x. unfold SStore_Delete. destruct (s_hosts s !! i); [|apply Hwf].
  simpl. intros [_ Hx]%lookup_delete_Some. by apply (Hwf j).
Qed.

Lemma SStore_Delete_spec s i t :
  t ∉ (SStore_Delete s i).2 → hosting (SStore_Delete s i).1 t = hosting s t.
Proof.
  unfold SStore_Delete. destruct (s_hosts s !! i) as [h|] eqn:Hi; [|done]. cbn [fst snd]. intros Ht.
  apply set_eq. intros a. rewrite !elem_of_hosting. simpl. split.
  - intros (j & x & [_ Hx]%lookup_delete_Some & H). eauto.
  - intros (j & x & Hx & Htx & Ha). exists j, x. split_and!; [|done|done].
    rewrite lookup_delete_ne; [done|]. congruence.
Qed.

Lemma SStore_Set_spec s i h t :
  sched_wf s → t ∉ (SStore_Set s i h).2 → hosting (SStore_Set s i h).1 t = hosting s t.
Proof.
  intros Hwf Ht. set (host := sorted_host h).
  assert (Hkey : match s_hosts s !! i with
    | None => t ∉ ah_ActorTypes host
    | Some e => (t ∈ ah_ActorTypes e ↔ t ∈ ah_ActorTypes host) ∧
                (t ∈ ah_ActorTypes host → ah_Address e = ah_Address host)
    end).
  { revert Ht. unfold SStore_Set. cbn [snd]. fold host. destruct (s_hosts s !! i) as [e|] eqn:He; [|done].
    destruct (bool_decide_reflect (ah_Address e = ah_Address host)) as [Ea|]; cbn [negb orb];
      [|rewrite elem_of_union_types; tauto].
    destruct (bool_decide_reflect (ah_AppId e = ah_AppId host)); cbn [negb]; [|rewrite elem_of_union_types; tauto].
    intros Hd. split; [|done]. destruct (Hwf i e He) as [Hs _].
    pose proof (symmetricDiff_complete (ah_ActorTypes e) (ah_ActorTypes host) t Hs (sort_strings_sorted _)) as Hc.
    destruct (decide (t ∈ ah_ActorTypes e)), (decide (t ∈ ah_ActorTypes host)); tauto. }
  apply set_eq. intros a. rewrite !elem_of_hosting. unfold SStore_Set. cbn [fst s_hosts]. fold host.
  destruct (length (ah_ActorTypes host) =? 0) eqn:Hl.
  - apply Nat.eqb_eq, nil_length_inv in Hl. rewrite Hl in Hkey. split.
    + intros (j & x & [_ Hx]%lookup_delete_Some & H). eauto.
    + intros (j & x & Hx & Htx & Ha). exists j, x. split_and!; [|done|done]. rewrite lookup_delete_ne; [done|].
      intros ->. rewrite Hx in Hkey. destruct Hkey as [Hk _]. apply Hk in Htx. by apply elem_of_nil in Htx.
  - split.
    + intros (j & x & Hx & Htx & Ha). rewrite lookup_insert in Hx. case_decide as E; [|eauto].
      subst j. injection Hx as <-. destruct (s_hosts s !! i) as [e|] eqn:He; [|done].
      destruct Hkey as [Hk1 Hk2]. exists i, e. split_and!; [done|by apply Hk1|]. by rewrite Hk2.
    + intros (j & x & Hx & Htx & Ha). destruct (decide (i = j)) as [<-|Hne].
      * rewrite Hx in Hkey. destruct Hkey as [Hk1 Hk2]. exists i, host. rewrite lookup_insert_eq.
        apply Hk1 in Htx. split_and!; [done|done|]. by rewrite <-Hk2.
      * exists j, x. by rewrite lookup_insert_ne.
Qed.

(** The loop of [Tables] over the hosts: the entries it touches and what it
    puts into them. *)
Lemma add_type_lookup h entries t u :
  add_type h entries t !! u =
    if decide (t = u) then (λ e, <[ah_Address h := ah_AppId h]> e) <$> entries !! u else entries !! u.
Proof.
  unfold add_type. destruct (entries !! t) as [e|] eqn:He.
  - rewrite lookup_insert. case_decide; [subst; by rewrite He|done].
  - case_decide; [subst; by rewrite He|done].
Qed.

Lemma add_types_lookup h l entries u :
  foldl (add_type h) entries l !! u =
    if decide (u ∈ l) then (λ e, <[ah_Address h := ah_AppId h]> e) <$> entries !! u else entries !! u.
Proof.
  revert entries; induction l as [|t l IH]; intros entries; cbn [foldl].
  { by rewrite decide_False by apply not_elem_of_nil. }
  rewrite IH, add_type_lookup. destruct (decide (t = u)) as [->|Hne].
  - rewrite (decide_True (P := u ∈ u :: l)) by left. destruct (decide (u ∈ l)); [|done].
    destruct (entries !! u) as [x|]; simpl; [|done]. by rewrite insert_insert_eq.
  - destruct (decide (u ∈ l)) as [Hu|Hu]; [by rewrite decide_True by (by right)|].
    rewrite decide_False; [done|]. set_solver.
Qed.

Definition order_hosting (order : list ActorHost) (t : string) : gset string :=
  ⋃ ((λ h, if decide (t ∈ ah_ActorTypes h) then {[ ah_Address h ]} else ∅) <$> order).

Lemma hosting_order s order t : order ≡ₚ s_order s → order_hosting order t = hosting s t.
Proof.
  intros Hp. apply set_eq. intros a. unfold order_hosting, hosting. rewrite !elem_of_union_list.
  split; intros (Y & HY & Ha); exists Y; (split; [|done]); revert HY; rewrite !list_elem_of_fmap;
    intros (h & -> & Hh); exists h; (split; [done|]); [by rewrite <-Hp|by rewrite Hp].
Qed.

Lemma tables_loop order entries u :
  (u ∈ dom (foldl add_types entries order) ↔ u ∈ dom entries) ∧
  ∀ e, entries !! u = Some e →
    ∃ e', foldl add_types entries order !! u = Some e' ∧ dom e' = dom e ∪ order_hosting order u ∧
      ∀ a app, e' !! a = Some app → e !! a = Some app ∨
        ∃ h, h ∈ order ∧ u ∈ ah_ActorTypes h ∧ ah_Address h = a ∧ ah_AppId h = app.
Proof.
  revert entries; induction order as [|h order IH]; intros entries; cbn [foldl].
  { split; [done|]. intros e He. exists e. split_and!; [done| |by left]. unfold order_hosting. cbn [fmap list_fmap union_list foldr]. by rewrite (right_id_L ∅ (∪)). }
  destruct (IH (add_types entries h)) as [IH1 IH2]. unfold add_types at 1 in IH2. split.
  - rewrite IH1, !elem_of_dom. unfold add_types. rewrite add_types_lookup. case_decide; [|done].
    by rewrite fmap_is_Some.
  - intros e He. rewrite add_types_lookup, He in IH2.
    change (order_hosting (h :: order) u) with
      ((if decide (u ∈ ah_ActorTypes h) then {[ ah_Address h ]} else ∅) ∪ order_hosting order u).
    destruct (decide (u ∈ ah_ActorTypes h)) as [Hu|Hu]; simpl in IH2.
    + destruct (IH2 _ eq_refl) as (e' & He' & Hdom & Hval). exists e'. split_and!; [done| |].
      * rewrite Hdom, dom_insert_L. set_solver.
      * intros a app [Ha|(x & ? & ?)]%Hval; [|right; exists x; set_solver].
        rewrite lookup_insert in Ha. case_decide as E; [|by left]. injection Ha as <-.
        right. exists h. split; [left|done].
    + destruct (IH2 _ eq_refl) as (e' & He' & Hdom & Hval). exists e'. split_and!; [done| |].
      * rewrite Hdom. set_solver.
      * intros a app [Ha|(x & ? & ?)]%Hval; [by left|right; exists x; set_solver].
Qed.

Lemma list_to_map_empty_entries (types : list string) t :
  (list_to_map ((λ t, (t, ∅)) <$> types) : gmap string (gmap string string)) !! t =
    if decide (t ∈ types) then Some ∅ else None.
Proof.
  induction types as [|u types IH]; [done|]. rewrite fmap_cons. cbn [list_to_map foldr fst snd].
  rewrite lookup_insert. destruct (decide (u = t)) as [->|Hne]; [by rewrite (decide_True (P := t ∈ t :: types)) by left|].
  rewrite IH. destruct (decide (t ∈ types)) as [Ht|Ht]; [by rewrite decide_True by (by right)|].
  rewrite decide_False; [done|set_solver].
Qed.

Lemma Tables_spec s order types t :
  order ≡ₚ s_order s →
  (t ∉ types → v2_Entries (SStore_Tables_order order types) !! t = None) ∧
  (t ∈ types → ∃ e, v2_Entries (SStore_Tables_order order types) !! t = Some e ∧ dom e = hosting s t ∧
     ∀ a app, e !! a = Some app →
       ∃ i h, s_hosts s !! i = Some h ∧ t ∈ ah_ActorTypes h ∧ ah_Address h = a ∧ ah_AppId h = app).
Proof.
  intros Hp. unfold SStore_Tables_order. cbn [v2_Entries].
  destruct (tables_loop order (list_to_map ((λ t, (t, ∅)) <$> types)) t) as [H1 H2].
  rewrite list_to_map_empty_entries in H2. split; intros Ht.
  - apply not_elem_of_dom. rewrite H1. apply not_elem_of_dom.
    rewrite list_to_map_empty_entries. by rewrite decide_False.
  - rewrite decide_True in H2 by done. destruct (H2 ∅ eq_refl) as (e & He & Hd & Hv). exists e.
    split_and!; [done|by rewrite Hd, (hosting_order s order t Hp), dom_empty_L, (left_id_L ∅ (∪))|].
    intros a app [Ha|(h & Hh & Hrest)]%Hv; [by rewrite lookup_empty in Ha|].
    rewrite Hp in Hh. apply elem_of_s_order in Hh as [i Hi]. eauto.
Qed.

(** ** Properties *)

(** The scheduler's tables are exact: Tables has an entry for exactly the requested types,
    and for any iteration order of the store the hosts of an entry are those whose stream
    reported the type, each with the app ID of such a report. *)
Theorem scheduler_tables_exact s order types t :
  order ≡ₚ s_order s →
  let entries := v2_Entries (SStore_Tables_order order types) in
  (is_Some (entries !! t) ↔ t ∈ types) ∧
  (∀ e, entries !! t = Some e →
     (∀ a, is_Some (e !! a) ↔ ∃ i h, s_hosts s !! i = Some h ∧ t ∈ ah_ActorTypes h ∧ ah_Address h = a) ∧
     (∀ a app, e !! a = Some app →
        ∃ i h, s_hosts s !! i = Some h ∧ t ∈ ah_ActorTypes h ∧ ah_Address h = a ∧ ah_AppId h = app)).
Proof.
  intros Hp. cbv zeta. destruct (Tables_spec s order types t Hp) as [H1 H2]. split.
  - destruct (decide (t ∈ types)) as [Ht|Ht]; [destruct (H2 Ht) as (e & -> & _); split; eauto|].
    rewrite H1 by done. split; [by intros []|done].
  - intros e He. destruct (decide (t ∈ types)) as [Ht|Ht]; [|by rewrite H1 in He].
    destruct (H2 Ht) as (e' & He' & Hd & Hv). assert (e' = e) as -> by congruence. split; [|done].
    intros a. rewrite <-elem_of_dom, Hd, elem_of_hosting. done.
Qed.

(** The scheduler's store reports every change: after Set or Delete of a stream each type
    whose set of hosts changed is among the returned types, Set returns only types of the
    old or the new report, and the store stays well-formed. *)
Theorem scheduler_store_reports_changes s i h t :
  sched_wf s →
  let '(s', changed) := SStore_Set s i h in
  let '(s'', gone) := SStore_Delete s i in
  sched_wf s' ∧ sched_wf s'' ∧
  (hosting s' t ≠ hosting s t → t ∈ changed) ∧ (hosting s'' t ≠ hosting s t → t ∈ gone) ∧
  (t ∈ changed → t ∈ ah_ActorTypes h ∨ ∃ e, s_hosts s !! i = Some e ∧ t ∈ ah_ActorTypes e).
Proof.
  intros Hwf. destruct (SStore_Set s i h) as [s' changed] eqn:E1, (SStore_Delete s i) as [s'' gone] eqn:E2.
  pose proof (sched_wf_Set s i h Hwf) as W1. pose proof (sched_wf_Delete s i Hwf) as W2.
  pose proof (SStore_Set_spec s i h t Hwf) as S1. pose proof (SStore_Delete_spec s i t) as S2.
  rewrite E1 in *. rewrite E2 in *. cbn [fst snd] in *. split_and!; [done|done| | |].
  - intros Hne. destruct (decide (t ∈ changed)); [done|]. by destruct Hne; apply S1.
  - intros Hne. destruct (decide (t ∈ gone)); [done|]. by destruct Hne; apply S2.
  - injection E1 as _ <-. destruct (s_hosts s !! i) as [e|]; simpl.
    + case_match; [rewrite elem_of_union_types|intros Hd%symmetricDiff_sound; revert Hd];
        rewrite elem_of_sort_strings; naive_solver.
    + rewrite elem_of_sort_strings. auto.
Qed.

(** ** Witnesses *)

Definition demo_sched_host (a : string) (ts : list string) : ActorHost := mkActorHost a "app" "ns" ts.

Definition demo_sched_store : SchedStore :=
  (SStore_Set (SStore_Set SStore_New 0 (demo_sched_host "10.0.0.1:1" ["t2"; "t1"])).1 1
     (demo_sched_host "10.0.0.2:1" ["t1"])).1.

Lemma demo_sched_wf : sched_wf demo_sched_store.
Proof. do 2 apply sched_wf_Set. intros i h Hi. simpl in Hi. by rewrite lookup_empty in Hi. Qed.

Lemma scheduler_tables_exact_witness :
  is_Some (v2_Entries (SStore_Tables_order (s_order demo_sched_store) ["t1"; "t3"]) !! "t3") ∧
  ¬ is_Some (v2_Entries (SStore_Tables_order (s_order demo_sched_store) ["t1"; "t3"]) !! "t2").
Proof.
  split; [|intros H; revert H];
    rewrite (proj1 (scheduler_tables_exact demo_sched_store (s_order demo_sched_store) ["t1"; "t3"] _ (Permutation_refl _)));
    apply (bool_decide_unpack _); vm_compute; exact I.
Defined.

Lemma scheduler_store_reports_changes_witness :
  let '(s', changed) := SStore_Set demo_sched_store 1 (demo_sched_host "10.0.0.2:1" ["t2"]) in
  sched_wf s' ∧ (hosting s' "t1" ≠ hosting demo_sched_store "t1" → "t1" ∈ changed).
Proof.
  pose proof (scheduler_store_reports_changes demo_sched_store 1 (demo_sched_host "10.0.0.2:1" ["t2"]) "t1" demo_sched_wf) as H.
  destruct (SStore_Set demo_sched_store 1 _) as [s' changed]. destruct (SStore_Delete demo_sched_store 1) as [s'' gone].
  split; apply H.
Defined.
