(* ===== verification/SchedulerConnections.v ===== *)
(** * The scheduler's dissemination rounds
      (pkg/scheduler/server/internal/placement/loops/connections: connections.go,
       rounds.go; loops/loops.go)

    One loop per namespace serves the v2 placement protocol: a round (LOCK,
    UPDATE, UNLOCK) covers a set of actor types and the streams connected when
    it starts; rounds over disjoint types run concurrently; types whose tables
    changed wait in [pendingTypes]; a new stream gets a snapshot of the settled
    tables.

    A stream is its entry in [streams] (whether it has a cancel function); what
    is enqueued on its loop is an output.  [CPanic] is the use of a stream that
    is not connected. *)

From S2P Require Import Prelude GoLib Inflight SchedulerStore.
#[local] Open Scope dapr_scope.

(** ** Events *)

Inductive Operation := OPERATION_LOCK | OPERATION_UPDATE | OPERATION_UNLOCK | OPERATION_UNSPECIFIED.

#[export] Instance Operation_eq_dec : EqDecision Operation.
Proof. solve_decision. Defined.

Inductive close_error := ErrRoundTimeout (timeout : Z) (seq : N) | ErrClosed (msg : string).

Inductive EventConnections :=
  | ConnAdd (cancel : bool) (Initial : ActorHost)
  | ReportedTypes (StreamIDx : N) (Host : ActorHost)
  | Ack (StreamIDx : N) (op : Operation) (Seq : N)
  | ConnCloseStream (StreamIDx : N) (err : close_error)
  | RoundTimeout (Seq : N)
  | CoalesceFire
  | Shutdown (err : close_error).

Inductive EventStream :=
  | SendLock (Seq : N) (Types : list string)
  | SendUpdate (Seq : N) (Types : list string) (Versions : gmap string N) (Tables : V2Tables)
  | SendUnlock (Seq : N) (Types : list string)
  | SendSnapshot (Seq : N) (Versions : gmap string N) (Tables : V2Tables).

Inductive c_output :=
  | CEnqueue (idx : N) (e : EventStream)
  | CStreamNew (idx : N)
  | CCancel (idx : N) (err : close_error)
  | CClose (idx : N) (err : close_error)
  | CTimeoutEnqueue (seq : N)
  | CTimeoutDequeue (seq : N)
  | CTimeoutClose
  | CTimerStart (window : Z)
  | CTimerStop
  | CCloseNamespace
  | CPanic.

(** ** State *)

Record round := mkRound {
  r_seq : N; r_types : list string; phase : Operation; members : gset N; acked : gset N }.

Record connections := mkConnections {
  disseminateTimeout : Z;
  coalesceWindow : Z;
  streams : gmap N bool;
  streamIDx : N;
  store : SchedStore;
  versions : gmap string N;
  seq : N;
  rounds : gmap N round;
  lockedTypes : gmap string N;
  pendingTypes : gset string;
  oneshots : gmap N N;
  coalesceTimer : bool
}.

Definition set_streams v c := mkConnections (disseminateTimeout c) (coalesceWindow c) v (streamIDx c) (store c)
  (versions c) (seq c) (rounds c) (lockedTypes c) (pendingTypes c) (oneshots c) (coalesceTimer c).
Definition set_streamIDx v c := mkConnections (disseminateTimeout c) (coalesceWindow c) (streams c) v (store c)
  (versions c) (seq c) (rounds c) (lockedTypes c) (pendingTypes c) (oneshots c) (coalesceTimer c).
Definition set_store v c := mkConnections (disseminateTimeout c) (coalesceWindow c) (streams c) (streamIDx c) v
  (versions c) (seq c) (rounds c) (lockedTypes c) (pendingTypes c) (oneshots c) (coalesceTimer c).
Definition set_versions v c := mkConnections (disseminateTimeout c) (coalesceWindow c) (streams c) (streamIDx c)
  (store c) v (seq c) (rounds c) (lockedTypes c) (pendingTypes c) (oneshots c) (coalesceTimer c).
Definition set_seq v c := mkConnections (disseminateTimeout c) (coalesceWindow c) (streams c) (streamIDx c)
  (store c) (versions c) v (rounds c) (lockedTypes c) (pendingTypes c) (oneshots c) (coalesceTimer c).
Definition set_rounds v c := mkConnections (disseminateTimeout c) (coalesceWindow c) (streams c) (streamIDx c)
  (store c) (versions c) (seq c) v (lockedTypes c) (pendingTypes c) (oneshots c) (coalesceTimer c).
Definition set_lockedTypes v c := mkConnections (disseminateTimeout c) (coalesceWindow c) (streams c) (streamIDx c)
  (store c) (versions c) (seq c) (rounds c) v (pendingTypes c) (oneshots c) (coalesceTimer c).
Definition set_pendingTypes v c := mkConnections (disseminateTimeout c) (coalesceWindow c) (streams c) (streamIDx c)
  (store c) (versions c) (seq c) (rounds c) (lockedTypes c) v (oneshots c) (coalesceTimer c).
Definition set_oneshots v c := mkConnections (disseminateTimeout c) (coalesceWindow c) (streams c) (streamIDx c)
  (store c) (versions c) (seq c) (rounds c) (lockedTypes c) (pendingTypes c) v (coalesceTimer c).
Definition set_coalesceTimer v c := mkConnections (disseminateTimeout c) (coalesceWindow c) (streams c) (streamIDx c)
  (store c) (versions c) (seq c) (rounds c) (lockedTypes c) (pendingTypes c) (oneshots c) v.

Definition conns_New (timeout window : Z) : connections :=
  mkConnections timeout window ∅ 0 SStore_New ∅ 0 ∅ ∅ ∅ ∅ false.

Definition c_handler := prog connections c_output.

(** ** rounds.go *)

Definition markPending (types : list string) : c_handler :=
  modify (λ c, set_pendingTypes (list_to_set types ∪ pendingTypes c) c).

(** [c.seq++] *)
Definition nextSeq (c : connections) : N := u64_succ (seq c).

(** [c.versions[t]++; c.lockedTypes[t] = seq; delete(c.pendingTypes, t)] *)
Definition lock_type (sq : N) (c : connections) (t : string) : connections :=
  set_pendingTypes (pendingTypes c ∖ {[ t ]})
    (set_lockedTypes (<[t := sq]> (lockedTypes c))
       (set_versions (<[t := u64_succ (default 0%N (versions c !! t))]> (versions c)) c)).

Definition stream_idxs (c : connections) : list N := (map_to_list (streams c)).*1.

(** The round started over [types]; its members are the connected streams. *)
Definition start_round (types : list string) : c_handler :=
  modify (λ c, set_seq (nextSeq c) c) ;;;
  with c do
  let sq := seq c in
  modify (λ c, foldl (lock_type sq) c types) ;;;
  modify (λ c, set_rounds (<[sq := mkRound sq types OPERATION_LOCK (list_to_set (stream_idxs c)) ∅]> (rounds c)) c) ;;;
  emit [CTimeoutEnqueue sq] ;;;
  emit ((λ idx, CEnqueue idx (SendLock sq types)) <$> stream_idxs c).

(** The pending types no round in flight holds. *)
Definition free_types (c : connections) : list string :=
  sort_strings (filter (λ t, lockedTypes c !! t = None) (elements (pendingTypes c))).

Definition maybeDisseminate : c_handler :=
  with c do
  if (size (pendingTypes c) =? 0) || coalesceTimer c then skip
  else if size (streams c) =? 0 then modify (set_pendingTypes ∅)
  else if length (free_types c) =? 0 then skip
  else start_round (free_types c).

Definition startCoalesceTimer : c_handler :=
  with c do
  if (coalesceWindow c <=? 0)%Z || coalesceTimer c then skip
  else modify (set_coalesceTimer true) ;;; emit [CTimerStart (coalesceWindow c)].

Definition stopCoalesceTimer : c_handler :=
  with c do when (coalesceTimer c) (emit [CTimerStop] ;;; modify (set_coalesceTimer false)).

(** [if c.lockedTypes[t] == seq { delete(c.lockedTypes, t) }] *)
Definition unlock_type (sq : N) (l : gmap string N) (t : string) : gmap string N :=
  if (default 0 (l !! t) =? sq)%N then delete t l else l.

Definition completeRound (r : round) : c_handler :=
  emit [CTimeoutDequeue (r_seq r)] ;;;
  modify (λ c, set_rounds (delete (r_seq r) (rounds c)) c) ;;;
  modify (λ c, set_lockedTypes (foldl (unlock_type (r_seq r)) (lockedTypes c) (r_types r)) c) ;;;
  with c do
  if (0 <? coalesceWindow c)%Z && negb (size (pendingTypes c) =? 0) then startCoalesceTimer
  else maybeDisseminate.

(** [for idx := range r.members { c.streams[idx].loop.Enqueue(e) }] *)
Definition enqueue_members (r : round) (e : EventStream) : c_handler :=
  with c do
  emit ((λ idx, if bool_decide (is_Some (streams c !! idx)) then CEnqueue idx e else CPanic)
          <$> elements (members r)).

Definition next_phase (op : Operation) (r : round) : round :=
  mkRound (r_seq r) (r_types r) op (members r) ∅.

(** [versions[t] = c.versions[t]] for the given types; a missing version reads as 0. *)
Definition versions_of (c : connections) (types : list string) : gmap string N :=
  list_to_map ((λ t, (t, default 0%N (versions c !! t))) <$> types).

Definition advance_round (sq : N) : c_handler :=
  with c do
  match rounds c !! sq with
  | None => skip
  | Some r =>
      if size (members r) =? 0 then completeRound r
      else if size (acked r) <? size (members r) then skip
      else
        match phase r with
        | OPERATION_LOCK =>
            modify (λ c, set_rounds (<[sq := next_phase OPERATION_UPDATE r]> (rounds c)) c) ;;;
            enqueue_members r (SendUpdate (r_seq r) (r_types r) (versions_of c (r_types r))
                                 (SStore_Tables (store c) (r_types r)))
        | OPERATION_UPDATE =>
            modify (λ c, set_rounds (<[sq := next_phase OPERATION_UNLOCK r]> (rounds c)) c) ;;;
            enqueue_members r (SendUnlock (r_seq r) (r_types r))
        | OPERATION_UNLOCK => completeRound r
        | OPERATION_UNSPECIFIED => skip
        end
  end.

Definition advanceRounds (seqs : list N) : c_handler := for_each seqs advance_round.

Definition handleAck (idx : N) (op : Operation) (sq : N) : c_handler :=
  with c do
  if negb (bool_decide (is_Some (streams c !! idx))) then skip
  else
    match oneshots c !! sq with
    | Some i =>
        when ((i =? idx)%N && bool_decide (op = OPERATION_UNLOCK))
          (modify (λ c, set_oneshots (delete sq (oneshots c)) c))
    | None =>
        match rounds c !! sq with
        | None => skip
        | Some r =>
            if negb (bool_decide (idx ∈ members r)) || negb (bool_decide (op = phase r)) then skip
            else
              modify (λ c, set_rounds (<[sq := mkRound (r_seq r) (r_types r) (phase r) (members r)
                                                 ({[ idx ]} ∪ acked r)]> (rounds c)) c) ;;;
              advanceRounds [sq]
        end
    end.

(** ** connections.go *)

(** The rounds [removeStream] takes the stream out of. *)
Definition affected_rounds (idx : N) (c : connections) : list N :=
  if bool_decide (is_Some (streams c !! idx)) then
    (filter (λ kr, idx ∈ members kr.2) (map_to_list (rounds c))).*1
  else [].

Definition leave_round (idx : N) (r : round) : round :=
  mkRound (r_seq r) (r_types r) (phase r) (members r ∖ {[ idx ]}) (acked r ∖ {[ idx ]}).

Definition removeStream (idx : N) (err : close_error) : c_handler :=
  with c do
  match streams c !! idx with
  | None => skip
  | Some cancel =>
      modify (λ c, set_streams (delete idx (streams c)) c) ;;;
      when cancel (emit [CCancel idx err]) ;;;
      emit [CClose idx err] ;;;
      let '(st, gone) := SStore_Delete (store c) idx in
      modify (set_store st) ;;;
      markPending gone ;;;
      modify (λ c, set_oneshots (filter (λ kv, kv.2 ≠ idx) (oneshots c)) c) ;;;
      modify (λ c, set_rounds (leave_round idx <$> rounds c) c) ;;;
      with c do when (size (streams c) =? 0) (modify (set_pendingTypes ∅))
  end.

(** [sendSnapshot], followed by [k] on the types it skipped. *)
Definition sendSnapshot (idx : N) (k : list string → c_handler) : c_handler :=
  with c do
  if negb (bool_decide (is_Some (streams c !! idx))) then k []
  else
    modify (λ c, set_seq (nextSeq c) c) ;;;
    with c do
    let sq := seq c in
    modify (λ c, set_oneshots (<[sq := idx]> (oneshots c)) c) ;;;
    let settled := filter (λ t, t ∉ pendingTypes c) (SStore_Types (store c)) in
    let types := filter (λ t, lockedTypes c !! t = None) settled in
    let locked := filter (λ t, lockedTypes c !! t ≠ None) settled in
    emit [CEnqueue idx (SendSnapshot sq (versions_of c types) (SStore_Tables (store c) types))] ;;;
    k locked.

Definition report (idx : N) (host : ActorHost) : c_handler :=
  with c do
  let '(st, changed) := SStore_Set (store c) idx host in
  modify (set_store st) ;;;
  markPending changed.

Definition handleAdd (cancel : bool) (Initial : ActorHost) : c_handler :=
  with c do
  let idx := streamIDx c in
  modify (set_streamIDx (u64_succ (streamIDx c))) ;;;
  emit [CStreamNew idx] ;;;
  modify (λ c, set_streams (<[idx := cancel]> (streams c)) c) ;;;
  report idx Initial ;;;
  sendSnapshot idx markPending ;;;
  maybeDisseminate.

Definition handleReportedTypes (idx : N) (host : ActorHost) : c_handler :=
  with c do
  if negb (bool_decide (is_Some (streams c !! idx))) then skip
  else report idx host ;;; maybeDisseminate.

Definition handleCloseStream (idx : N) (err : close_error) : c_handler :=
  with c do
  removeStream idx err ;;;
  advanceRounds (affected_rounds idx c) ;;;
  maybeDisseminate ;;;
  with c do when (size (streams c) =? 0) (emit [CCloseNamespace]).

(** The first loop of [handleTimeout]: it closes the members that have not
    acknowledged and passes on the rounds this affects. *)
Fixpoint evict (idxs : list N) (ack : gset N) (err : close_error) (aff : list N)
    (k : list N → c_handler) : c_handler :=
  match idxs with
  | [] => k aff
  | idx :: idxs' =>
      if bool_decide (idx ∈ ack) then evict idxs' ack err aff k
      else with c do removeStream idx err ;;; evict idxs' ack err (aff ++ affected_rounds idx c) k
  end.

(** [handleTimeout] after its first loop; [r] is the round as that loop left it. *)
Definition abort_round (sq : N) (r : round) (aff : list N) : c_handler :=
  modify (λ c, set_rounds (delete sq (rounds c)) c) ;;;
  modify (λ c, set_lockedTypes (foldl (unlock_type sq) (lockedTypes c) (r_types r)) c) ;;;
  with c do
  emit ((λ idx, CEnqueue idx (SendUnlock sq (r_types r))) <$>
          filter (λ idx, is_Some (streams c !! idx)) (elements (members r))) ;;;
  when (negb (size (streams c) =? 0)) (markPending (r_types r)) ;;;
  advanceRounds aff ;;;
  maybeDisseminate.

Definition handleTimeout (sq : N) : c_handler :=
  with c do
  match rounds c !! sq with
  | None => skip
  | Some r =>
      evict (elements (members r)) (acked r) (ErrRoundTimeout (disseminateTimeout c) sq) [] (λ aff,
        with c do abort_round sq (default r (rounds c !! sq)) aff)
  end.

Definition handleCoalesceFire : c_handler :=
  modify (set_coalesceTimer false) ;;; maybeDisseminate.

Definition handleShutdown (err : close_error) : c_handler :=
  stopCoalesceTimer ;;;
  with c do
  for_each (map_to_list (streams c)) (λ kv,
    when kv.2 (emit [CCancel kv.1 err]) ;;; emit [CClose kv.1 err]) ;;;
  modify (set_streams ∅) ;;;
  modify (set_rounds ∅) ;;;
  modify (set_lockedTypes ∅) ;;;
  modify (set_pendingTypes ∅) ;;;
  modify (set_oneshots ∅) ;;;
  modify (λ c, set_store (SStore_DeleteAll (store c)) c) ;;;
  emit [CTimeoutClose].

Definition c_Handle (event : EventConnections) : c_handler :=
  match event with
  | ConnAdd cancel Initial => handleAdd cancel Initial
  | ReportedTypes idx host => handleReportedTypes idx host
  | Ack idx op sq => handleAck idx op sq
  | ConnCloseStream idx err => handleCloseStream idx err
  | RoundTimeout sq => handleTimeout sq
  | CoalesceFire => handleCoalesceFire
  | Shutdown err => handleShutdown err
  end.
