(* ===== verification/SchedulerInv.v ===== *)
(** * Invariant of the scheduler's dissemination rounds

    The invariant [cinv] relates the state of a namespace's loop to the events
    it handled and the outputs it made, and every handler preserves it:

    - rounds in flight cover disjoint sets of types, their members are
      connected, and a type is locked exactly when a round covers it;
    - every connected stream holds the current hosts of every type, as last
      sent to it, unless the type is pending or a round that has not sent its
      UPDATE yet covers it for that stream;
    - UPDATE (UNLOCK) orders are sent after every connected stream that was
      sent the LOCK acknowledged LOCK (UPDATE).

    The number of sequence and stream numbers handed out is bounded by [fits]. *)

From S2P Require Import Prelude GoLib Inflight SchedulerStore SchedulerConnections.
#[local] Open Scope dapr_scope.

(** ** What was sent *)

(** The events enqueued on the loop of stream [i]. *)
Definition log_of (i : N) (os : list c_output) : list EventStream :=
  omap (λ o, match o with CEnqueue j e => if decide (j = i) then Some e else None | _ => None end) os.

(** What a sequence of events tells a sidecar: the rounds open and done, the
    last version and the last addresses of each type, the last new round. *)
Record log_state := mkLog {
  lg_open : gset N; lg_done : gset N; lg_vers : gmap string N; lg_tabs : gmap string (gset string); lg_max : N }.

Definition log0 : log_state := mkLog ∅ ∅ ∅ ∅ 0.

Definition log_next (g : log_state) (e : EventStream) : log_state :=
  match e with
  | SendLock s _ => mkLog ({[ s ]} ∪ lg_open g) (lg_done g) (lg_vers g) (lg_tabs g) s
  | SendUpdate _ _ vs tb => mkLog (lg_open g) (lg_done g) (vs ∪ lg_vers g) ((dom <$> v2_Entries tb) ∪ lg_tabs g) (lg_max g)
  | SendUnlock s _ => mkLog (lg_open g ∖ {[ s ]}) ({[ s ]} ∪ lg_done g) (lg_vers g) (lg_tabs g) (lg_max g)
  | SendSnapshot s vs tb => mkLog (({[ s ]} ∪ lg_open g) ∖ {[ s ]}) ({[ s ]} ∪ lg_done g) (vs ∪ lg_vers g) ((dom <$> v2_Entries tb) ∪ lg_tabs g) s
  end.

(** The event follows the protocol: round numbers are new, an UPDATE is for an
    open round, versions do not go back. *)
Definition no_regression (g : log_state) (vs : gmap string N) : Prop :=
  ∀ t v cur, vs !! t = Some v → lg_vers g !! t = Some cur → (cur ≤ v)%N.

Definition log_ok (g : log_state) (e : EventStream) : Prop :=
  match e with
  | SendLock s _ => (lg_max g < s)%N
  | SendUpdate s _ vs tb => s ∈ lg_open g ∧ no_regression g vs ∧ HashAlgorithm tb = HASH_ALGORITHM_RENDEZVOUS
  | SendUnlock s _ => s ∈ lg_open g ∪ lg_done g
  | SendSnapshot s vs tb => (lg_max g < s)%N ∧ no_regression g vs ∧ HashAlgorithm tb = HASH_ALGORITHM_RENDEZVOUS
  end.

Definition lg (i : N) (os : list c_output) : log_state := foldl log_next log0 (log_of i os).

Definition log_good (l : list EventStream) : Prop :=
  ∀ l1 e l2, l = l1 ++ e :: l2 → log_ok (foldl log_next log0 l1) e.

(** The addresses of [t] as last sent to stream [i]. *)
Definition routes (i : N) (os : list c_output) (t : string) : gset string :=
  default ∅ (lg_tabs (lg i os) !! t).

(** Sequence numbers and stream numbers handed out. *)
Definition takes_seq (o : c_output) : bool :=
  match o with CTimeoutEnqueue _ | CEnqueue _ (SendSnapshot _ _ _) => true | _ => false end.
Definition takes_idx (o : c_output) : bool := match o with CStreamNew _ => true | _ => false end.

Definition nseq (os : list c_output) : nat := length (filter (λ o, takes_seq o = true) os).
Definition nidx (os : list c_output) : nat := length (filter (λ o, takes_idx o = true) os).

Definition fits (os : list c_output) : Prop := (N.of_nat (nseq os + nidx os) < two64)%N.

(** Outputs the invariant does not look at. *)
Definition plain (o : c_output) : bool :=
  match o with
  | CCancel _ _ | CTimeoutDequeue _ | CTimeoutClose | CTimerStart _ | CTimerStop | CCloseNamespace => true
  | _ => false
  end.

(** Orders of a round. *)
Definition round_order (o : c_output) : bool :=
  match o with
  | CEnqueue _ (SendLock _ _) | CEnqueue _ (SendUpdate _ _ _ _) | CEnqueue _ (SendUnlock _ _) => true
  | _ => false
  end.

(** ** The invariant *)

(** The state alone. *)
Record shape (c : connections) : Prop := {
  v_round : ∀ s r, rounds c !! s = Some r →
    r_seq r = s ∧ (0 < s ≤ seq c)%N ∧ acked r ⊆ members r ∧
    (∀ i, i ∈ members r → is_Some (streams c !! i)) ∧ phase r ≠ OPERATION_UNSPECIFIED;
  v_locked : ∀ t s, lockedTypes c !! t = Some s ↔ ∃ r, rounds c !! s = Some r ∧ t ∈ r_types r;
  v_store : sched_wf (store c);
  v_hosts : ∀ i, is_Some (s_hosts (store c) !! i) → is_Some (streams c !! i);
  v_vmax : ∀ t, (default 0 (versions c !! t) ≤ seq c)%N
}.

(** The numbers handed out and the streams connected. *)
Record counted (c : connections) (os : list c_output) : Prop := {
  v_seq : seq c = N.of_nat (nseq os);
  v_idx : streamIDx c = N.of_nat (nidx os);
  v_open : ∀ i, is_Some (streams c !! i) ↔ (i < streamIDx c)%N ∧ ∀ err, CClose i err ∉ os;
  v_fresh : ∀ i, (∃ e, CEnqueue i e ∈ os) ∨ (∃ err, CClose i err ∈ os) → (i < streamIDx c)%N;
  v_panic : CPanic ∉ os
}.

(** What each stream was sent; [X] exempts streams and types from convergence
    within a handler. *)
Record logged (X : N → string → Prop) (c : connections) (os : list c_output) : Prop := {
  v_conv : ∀ i t, is_Some (streams c !! i) →
    X i t ∨ t ∈ pendingTypes c ∨
    (∃ s r, rounds c !! s = Some r ∧ t ∈ r_types r ∧ phase r = OPERATION_LOCK ∧ i ∈ members r) ∨
    routes i os t = hosting (store c) t;
  v_good : ∀ i, log_good (log_of i os) ∧ (lg_max (lg i os) ≤ seq c)%N;
  v_vers : ∀ i t v, lg_vers (lg i os) !! t = Some v → (v ≤ default 0 (versions c !! t))%N;
  v_sent : ∀ i s r, rounds c !! s = Some r → i ∈ members r →
    if decide (phase r = OPERATION_UNLOCK) then s ∈ lg_done (lg i os) else s ∈ lg_open (lg i os)
}.

(** The acknowledgements behind the orders sent. *)
Record agreed (es : list EventConnections) (c : connections) (os : list c_output) : Prop := {
  v_lock : ∀ s j ts, CEnqueue j (SendLock s ts) ∈ os → (s ≤ seq c)%N ∧
    ∀ r, rounds c !! s = Some r → is_Some (streams c !! j) → j ∈ members r;
  v_ack : ∀ s r i, rounds c !! s = Some r →
    (i ∈ acked r → Ack i (phase r) s ∈ es) ∧
    (i ∈ members r → phase r = OPERATION_UPDATE → Ack i OPERATION_LOCK s ∈ es) ∧
    (i ∈ members r → phase r = OPERATION_UNLOCK → Ack i OPERATION_UPDATE s ∈ es);
  v_upd : ∀ os1 i s ts vs tb os2, os = os1 ++ CEnqueue i (SendUpdate s ts vs tb) :: os2 →
    ∀ j ts', CEnqueue j (SendLock s ts') ∈ os1 → (∀ err, CClose j err ∉ os1) → Ack j OPERATION_LOCK s ∈ es;
  v_unl : ∀ os1 i s ts os2, os = os1 ++ CEnqueue i (SendUnlock s ts) :: os2 →
    ∀ j ts', CEnqueue j (SendLock s ts') ∈ os1 → (∀ err, CClose j err ∉ os1) →
      Ack j OPERATION_UPDATE s ∈ es ∨ RoundTimeout s ∈ es
}.

Record cinv_but (X : N → string → Prop) (es : list EventConnections) (c : connections)
    (os : list c_output) : Prop := {
  v_shape : shape c;
  v_counted : counted c os;
  v_logged : logged X c os;
  v_agreed : agreed es c os
}.

Definition nothing : N → string → Prop := λ _ _, False.

Notation cinv := (cinv_but nothing).

(** A handler preserves the invariant. *)
Definition keeps (es : list EventConnections) (h : c_handler) : Prop :=
  ∀ c os, cinv es c os → fits (os ++ (h c).2) → cinv es (h c).1 (os ++ (h c).2).

(** ** Lemmas on outputs *)

Lemma nseq_app os1 os2 : nseq (os1 ++ os2) = nseq os1 + nseq os2.
Proof. unfold nseq. by rewrite list.filter_app, length_app. Qed.

Lemma nseq_cons o os : nseq (o :: os) = (if takes_seq o then 1 else 0) + nseq os.
Proof. unfold nseq. rewrite filter_cons. destruct (takes_seq o); done. Qed.

Lemma nidx_cons o os : nidx (o :: os) = (if takes_idx o then 1 else 0) + nidx os.
Proof. unfold nidx. rewrite filter_cons. destruct (takes_idx o); done. Qed.

Lemma nidx_app os1 os2 : nidx (os1 ++ os2) = nidx os1 + nidx os2.
Proof. unfold nidx. by rewrite list.filter_app, length_app. Qed.

Lemma fits_app os1 os2 : fits (os1 ++ os2) → fits os1.
Proof. unfold fits. rewrite nseq_app, nidx_app. lia. Qed.

Lemma log_of_app i os1 os2 : log_of i (os1 ++ os2) = log_of i os1 ++ log_of i os2.
Proof. apply omap_app. Qed.

Lemma log_of_none i os : (∀ e, CEnqueue i e ∉ os) → log_of i os = [].
Proof.
  intros H. induction os as [|o os IH]; [done|]. unfold log_of. cbn [omap list_omap]. fold (log_of i os).
  rewrite IH by (intros e He; apply (H e); by right). destruct o as [j e| | | | | | | | | |]; try done.
  destruct (decide (j = i)) as [->|Hne]; [by destruct (H e ltac:(left))|done].
Qed.

Lemma lg_app_none i os os' : log_of i os' = [] → lg i (os ++ os') = lg i os.
Proof. intros E. unfold lg. by rewrite log_of_app, E, app_nil_r. Qed.

Lemma lg_app_one i os os' e : log_of i os' = [e] → lg i (os ++ os') = log_next (lg i os) e.
Proof. intros E. unfold lg. by rewrite log_of_app, E, foldl_snoc. Qed.

(** Splitting an extended trace at one of its outputs. *)
Lemma trace_split {A} (l1 l2 k1 k2 : list A) x :
  l1 ++ l2 = k1 ++ x :: k2 →
  (∃ k, l1 = k1 ++ x :: k) ∨ (∃ k, k1 = l1 ++ k ∧ l2 = k ++ x :: k2).
Proof.
  intros [(k & -> & E)|(k & -> & ->)]%app_eq_inv; [|right; eauto].
  destruct k as [|y k]; simpl in E.
  - right. exists []. by rewrite !app_nil_r.
  - left. injection E as <- _. by exists k.
Qed.

Lemma log_good_snoc l e : log_good l → log_ok (foldl log_next log0 l) e → log_good (l ++ [e]).
Proof.
  intros Hl He l1 e' l2 [[k ->]|(k & -> & E)]%trace_split; [by eapply Hl|].
  destruct k as [|x k]; [|by destruct k]. injection E as <- _. by rewrite app_nil_r.
Qed.

Lemma plain_facts o :
  plain o = true →
  takes_seq o = false ∧ takes_idx o = false ∧ (∀ i e, o ≠ CEnqueue i e) ∧
  (∀ i err, o ≠ CClose i err) ∧ o ≠ CPanic.
Proof. destruct o; try done; intros _; split_and!; done. Qed.

Lemma elem_of_mid {A} (l1 l2 : list A) x : x ∈ l1 ++ x :: l2.
Proof. set_solver. Qed.

(** ** Composition *)

Lemma keeps_seqp es h1 h2 : keeps es h1 → keeps es h2 → keeps es (h1 ;;; h2).
Proof.
  intros H1 H2 c os Hc Hf. rewrite seqp_eq in *. cbn [fst snd] in *. rewrite app_assoc in *.
  apply H2; [|done]. apply H1; [done|]. by eapply fits_app.
Qed.

(** The rest of a handler after a first part that is not proved on its own. *)
Lemma cinv_then es c os os' h :
  cinv es c (os ++ os') → keeps es h → fits (os ++ os' ++ (h c).2) → cinv es (h c).1 (os ++ os' ++ (h c).2).
Proof. rewrite !app_assoc. auto. Qed.

Lemma keeps_get es (k : connections → c_handler) : (∀ c, keeps es (k c)) → keeps es (get k).
Proof. intros H c os. unfold get. apply H. Qed.

Lemma keeps_skip es : keeps es skip.
Proof. intros c os Hc _. simpl. by rewrite app_nil_r. Qed.

Lemma keeps_when es b h : keeps es h → keeps es (when b h).
Proof. destruct b; [done|]. intros _. apply keeps_skip. Qed.

Lemma keeps_for_each {A} es (l : list A) body : (∀ x, keeps es (body x)) → keeps es (for_each l body).
Proof. intros H. induction l as [|x l IH]; [apply keeps_skip|]. by apply keeps_seqp. Qed.

(** ** Steps of the sub-invariants *)

(** The rounds of [c'] are rounds of [c] that lost disconnected members or got
    an acknowledgement of [es]. *)
Definition rounds_sub (es : list EventConnections) (c c' : connections) : Prop :=
  ∀ s r', rounds c' !! s = Some r' →
    ∃ r, rounds c !! s = Some r ∧ phase r' = phase r ∧ members r' ⊆ members r ∧
      (∀ j, j ∈ acked r' → j ∈ acked r ∨ Ack j (phase r) s ∈ es) ∧
      ∀ j, j ∈ members r → is_Some (streams c' !! j) → j ∈ members r'.

Lemma rounds_sub_eq es c c' : rounds c' = rounds c → rounds_sub es c c'.
Proof. intros E s r'. rewrite E. intros Hr. exists r'. split_and!; auto. Qed.

Lemma counted_emit c c' os os' :
  counted c os → streams c' = streams c → streamIDx c' = streamIDx c →
  seq c' = (seq c + N.of_nat (nseq os'))%N → nidx os' = 0 →
  (∀ i e, CEnqueue i e ∈ os' → is_Some (streams c !! i)) →
  (∀ i err, CClose i err ∉ os') → CPanic ∉ os' → counted c' (os ++ os').
Proof.
  intros [Hs Hi Ho Hf Hp] Es Ei Eq En He Hc Hp'. split.
  - rewrite Eq, Hs, nseq_app. lia.
  - rewrite Ei, Hi, nidx_app, En. lia.
  - intros i. rewrite Es, Ei, Ho. split; intros [? H]; (split; [done|]); intros err.
    + rewrite elem_of_app. intros [?|?]; [by apply (H err)|by apply (Hc i err)].
    + intros ?. apply (H err). set_solver.
  - intros i. rewrite Ei. intros [[e [He'|He']%elem_of_app]|[err [He'|He']%elem_of_app]].
    + apply Hf. eauto.
    + by apply He, Ho in He' as [? _].
    + apply Hf. eauto.
    + by destruct (Hc i err).
  - set_solver.
Qed.

(** Nothing was sent. *)
Lemma logged_quiet X X' es c c' os os' :
  logged X c os → (∀ i, log_of i os' = []) → (seq c ≤ seq c')%N →
  (∀ t, (default 0 (versions c !! t) ≤ default 0 (versions c' !! t))%N) → rounds_sub es c c' →
  (∀ i t, is_Some (streams c' !! i) →
    X' i t ∨ t ∈ pendingTypes c' ∨
    (∃ s r, rounds c' !! s = Some r ∧ t ∈ r_types r ∧ phase r = OPERATION_LOCK ∧ i ∈ members r) ∨
    routes i os t = hosting (store c') t) →
  logged X' c' (os ++ os').
Proof.
  intros [_ Hg Hv Hs] Hq Hseq Hvs Hr Hc. split.
  - intros i t Hi. unfold routes. rewrite lg_app_none by done. by apply Hc.
  - intros i. rewrite lg_app_none, log_of_app, Hq, app_nil_r by done. destruct (Hg i). split; [done|lia].
  - intros i t v. rewrite lg_app_none by done. intros H%Hv. specialize (Hvs t). lia.
  - intros i s r' Hr' Hi. rewrite lg_app_none by done. destruct (Hr s r' Hr') as (r & Hr0 & -> & Hm & _).
    apply (Hs i s r Hr0). by apply Hm.
Qed.

(** The streams of [M] were sent [e]. *)
Lemma logged_send X X' c c' os os' (M : gset N) e :
  logged X c os → (∀ i, log_of i os' = if decide (i ∈ M) then [e] else []) →
  (∀ i, i ∈ M → log_ok (lg i os) e) → (seq c ≤ seq c')%N →
  (∀ i, i ∈ M → (lg_max (log_next (lg i os) e) ≤ seq c')%N) →
  (∀ t, (default 0 (versions c !! t) ≤ default 0 (versions c' !! t))%N) →
  (∀ i t v, i ∈ M → lg_vers (log_next (lg i os) e) !! t = Some v → (v ≤ default 0 (versions c' !! t))%N) →
  (∀ i s r, rounds c' !! s = Some r → i ∈ members r →
    let g := if decide (i ∈ M) then log_next (lg i os) e else lg i os in
    if decide (phase r = OPERATION_UNLOCK) then s ∈ lg_done g else s ∈ lg_open g) →
  (∀ i t, is_Some (streams c' !! i) →
    X' i t ∨ t ∈ pendingTypes c' ∨
    (∃ s r, rounds c' !! s = Some r ∧ t ∈ r_types r ∧ phase r = OPERATION_LOCK ∧ i ∈ members r) ∨
    default ∅ (lg_tabs (if decide (i ∈ M) then log_next (lg i os) e else lg i os) !! t) = hosting (store c') t) →
  logged X' c' (os ++ os').
Proof.
  intros [_ Hg Hv Hs] Hq Hok Hseq Hmax Hvs Hve Hse Hc.
  assert (Hlg : ∀ i, lg i (os ++ os') = if decide (i ∈ M) then log_next (lg i os) e else lg i os).
  { intros i. specialize (Hq i). case_decide; [by apply lg_app_one|by apply lg_app_none]. }
  split.
  - intros i t Hi. unfold routes. rewrite Hlg. by apply Hc.
  - intros i. rewrite Hlg, log_of_app, Hq. destruct (Hg i). case_decide.
    + split; [by apply log_good_snoc, Hok|by apply Hmax].
    + rewrite app_nil_r. split; [done|lia].
  - intros i t v. rewrite Hlg. case_decide; [by apply Hve|]. intros H'%Hv. specialize (Hvs t). lia.
  - intros i s r Hr Hi. rewrite Hlg. by apply Hse.
Qed.

(** No order of a round was sent. *)
Lemma agreed_quiet es c c' os os' :
  agreed es c os → (∀ o, o ∈ os' → round_order o = false) → (seq c ≤ seq c')%N → rounds_sub es c c' →
  (∀ j s ts, CEnqueue j (SendLock s ts) ∈ os → is_Some (streams c' !! j) → is_Some (streams c !! j)) →
  agreed es c' (os ++ os').
Proof.
  intros [Hl Ha Hu Hn] Hq Hseq Hr Hst. split.
  - intros s j ts [Hin|Hin%Hq]%elem_of_app; [|done]. destruct (Hl s j ts Hin) as [Hle Hm]. split; [lia|].
    intros r' Hr' Hj. destruct (Hr s r' Hr') as (r & Hr0 & _ & _ & _ & Hback). apply Hback; [|done].
    apply (Hm r Hr0). by eapply Hst.
  - intros s r' i Hr'. destruct (Hr s r' Hr') as (r & Hr0 & -> & Hm & Hac & _).
    destruct (Ha s r i Hr0) as (A1 & A2 & A3). split_and!; auto. intros Hi. destruct (Hac i Hi); auto.
  - intros os1 i s ts vs tb os2 [[k ->]|(k & -> & ->)]%trace_split; [by eapply Hu|].
    specialize (Hq _ (elem_of_mid k os2 _)). done.
  - intros os1 i s ts os2 [[k ->]|(k & -> & ->)]%trace_split; [by eapply Hn|].
    specialize (Hq _ (elem_of_mid k os2 _)). done.
Qed.

Lemma agreed_events es es' c os : (∀ e, e ∈ es → e ∈ es') → agreed es c os → agreed es' c os.
Proof.
  intros Hsub [Hl Ha Hu Hn]. split; [done| | |].
  - intros s r i Hr. destruct (Ha s r i Hr) as (A1 & A2 & A3). split_and!; auto.
  - intros os1 i s ts vs tb os2 Hos j ts' Hj Hcl. apply Hsub. by eapply Hu.
  - intros os1 i s ts os2 Hos j ts' Hj Hcl. destruct (Hn os1 i s ts os2 Hos j ts' Hj Hcl); auto.
Qed.

Lemma cinv_events X es es' c os : (∀ e, e ∈ es → e ∈ es') → cinv_but X es c os → cinv_but X es' c os.
Proof. intros Hsub []. split; [done..|]. by eapply agreed_events. Qed.

(** Outputs other than orders. *)
Lemma plain_list os' :
  (∀ o, o ∈ os' → plain o = true) →
  nseq os' = 0 ∧ nidx os' = 0 ∧ (∀ i, log_of i os' = []) ∧ (∀ i e, CEnqueue i e ∉ os') ∧
  (∀ i err, CClose i err ∉ os') ∧ CPanic ∉ os' ∧ (∀ o, o ∈ os' → round_order o = false).
Proof.
  intros H. induction os' as [|o os' IH].
  { split_and!; try done; try set_solver. }
  destruct IH as (? & ? & ? & ? & ? & ? & ?); [set_solver|]. specialize (H o ltac:(left)).
  destruct o; try discriminate H; split_and!; try set_solver; done.
Qed.

(** Fields the invariant does not mention change; types become pending. *)
Lemma cinv_frame X es c c' os os' :
  cinv_but X es c os → (∀ o, o ∈ os' → plain o = true) →
  streams c' = streams c → streamIDx c' = streamIDx c → store c' = store c → versions c' = versions c →
  seq c' = seq c → rounds c' = rounds c → lockedTypes c' = lockedTypes c →
  pendingTypes c ⊆ pendingTypes c' ∨ streams c = ∅ →
  cinv_but X es c' (os ++ os').
Proof.
  intros [[Sr Sl Ss Sh Sv] Hc Hl Ha] (Q1 & Q2 & Q3 & Q4 & Q5 & Q6 & Q7)%plain_list E1 E2 E3 E4 E5 E6 E7 Hp.
  pose proof (rounds_sub_eq es c c' E6) as Hsub. split.
  - split; rewrite ?E1, ?E3, ?E4, ?E5, ?E6, ?E7; done.
  - apply (counted_emit c); [done..|rewrite E5, Q1; lia|done|by intros i e ?%Q4|done|done].
  - apply (logged_quiet X X es c); [done|done|rewrite E5; lia|intros t; rewrite E4; lia|done|].
    intros i t Hi. rewrite E1 in Hi. rewrite E6, E3. destruct (v_conv _ _ _ Hl i t Hi) as [?|[?|?]]; auto.
    destruct Hp as [Hp|Hp]; [right; left; auto|]. rewrite Hp, lookup_empty in Hi. by destruct Hi.
  - apply (agreed_quiet es c); [done|done|rewrite E5; lia|done|]. by rewrite E1.
Qed.

(** ** Starting a round *)

Lemma log_of_broadcast i (l : list N) e :
  NoDup l → log_of i ((λ idx, CEnqueue idx e) <$> l) = if decide (i ∈ l) then [e] else [].
Proof.
  induction 1 as [|j l Hj Hl IH]; [by rewrite decide_False by apply not_elem_of_nil|].
  rewrite fmap_cons. unfold log_of in *. cbn [omap list_omap]. rewrite IH.
  destruct (decide (j = i)) as [->|Hne].
  - rewrite (decide_False (P := i ∈ l)) by done. by rewrite decide_True by left.
  - destruct (decide (i ∈ l)) as [Hi|Hi]; [by rewrite decide_True by (by right)|].
    rewrite decide_False; [done|set_solver].
Qed.

Lemma nseq_broadcast (l : list N) e : takes_seq (CEnqueue 0 e) = false → nseq ((λ idx, CEnqueue idx e) <$> l) = 0.
Proof.
  intros H. unfold nseq. induction l as [|j l IH]; [done|]. rewrite fmap_cons.
  rewrite filter_cons_False; [done|]. destruct e; simpl in *; congruence.
Qed.

Lemma nidx_broadcast (l : list N) e : nidx ((λ idx, CEnqueue idx e) <$> l) = 0.
Proof. unfold nidx. induction l as [|j l IH]; [done|]. by rewrite fmap_cons, filter_cons_False. Qed.

Lemma elem_of_broadcast o (l : list N) e : o ∈ ((λ idx, CEnqueue idx e) <$> l) ↔ ∃ i, o = CEnqueue i e ∧ i ∈ l.
Proof. apply list_elem_of_fmap. Qed.

Lemma elem_of_conn_idxs c i : i ∈ stream_idxs c ↔ is_Some (streams c !! i).
Proof.
  unfold stream_idxs. rewrite list_elem_of_fmap. split.
  - intros ([j b] & -> & Hb%elem_of_map_to_list). eauto.
  - intros [b Hb]. exists (i, b). split; [done|by apply elem_of_map_to_list].
Qed.

Lemma NoDup_stream_idxs c : NoDup (stream_idxs c).
Proof. apply NoDup_fst_map_to_list. Qed.

Lemma free_types_spec c : NoDup (free_types c) ∧ ∀ t, t ∈ free_types c ↔ t ∈ pendingTypes c ∧ lockedTypes c !! t = None.
Proof.
  unfold free_types. split.
  - rewrite sort_strings_perm. apply list.NoDup_filter, NoDup_elements.
  - intros t. rewrite elem_of_sort_strings, list_elem_of_filter, elem_of_elements. tauto.
Qed.

(** The loop that locks the types of a round. *)
Lemma lock_types_spec sq ts c :
  NoDup ts →
  let c' := foldl (lock_type sq) c ts in
  streams c' = streams c ∧ streamIDx c' = streamIDx c ∧ store c' = store c ∧ seq c' = seq c ∧
  rounds c' = rounds c ∧ coalesceWindow c' = coalesceWindow c ∧ coalesceTimer c' = coalesceTimer c ∧
  pendingTypes c' = pendingTypes c ∖ list_to_set ts ∧
  (∀ t, lockedTypes c' !! t = if decide (t ∈ ts) then Some sq else lockedTypes c !! t) ∧
  (∀ t, default 0%N (versions c' !! t) =
        (if decide (t ∈ ts) then u64_succ (default 0 (versions c !! t)) else default 0 (versions c !! t))%N).
Proof.
  intros Hnd. cbv zeta. revert c; induction Hnd as [|t ts Ht Hnd IH]; intros c; cbn [foldl].
  { split_and!; try done; [set_solver|..]; intros t; by rewrite decide_False by apply not_elem_of_nil. }
  destruct (IH (lock_type sq c t)) as (-> & -> & -> & -> & -> & -> & -> & -> & Hl & Hv).
  split_and!; try done; [set_solver|..]; intros u; rewrite ?Hl, ?Hv; simpl; rewrite lookup_insert;
    destruct (decide (t = u)) as [->|Hne].
  1,3: rewrite (decide_False (P := u ∈ ts)) by done; by rewrite decide_True by left.
  all: destruct (decide (u ∈ ts)) as [Hu|Hu]; [by rewrite decide_True by (by right)|];
    (rewrite decide_False; [done|set_solver]).
Qed.

Definition started_round (ts : list string) (c : connections) : connections :=
  let sq := nextSeq c in
  let c1 := foldl (lock_type sq) (set_seq sq c) ts in
  set_rounds (<[sq := mkRound sq ts OPERATION_LOCK (list_to_set (stream_idxs c)) ∅]> (rounds c1)) c1.

Lemma start_conn_round_eq ts c :
  NoDup ts →
  start_round ts c =
    (started_round ts c,
     [CTimeoutEnqueue (nextSeq c)] ++ ((λ idx, CEnqueue idx (SendLock (nextSeq c) ts)) <$> stream_idxs c)).
Proof.
  intros Hnd. unfold start_round. rewrite seqp_eq. unfold get. cbn [modify fst snd app]. rewrite !seqp_eq.
  cbn [modify emit fst snd app]. change (seq (set_seq (nextSeq c) c)) with (nextSeq c).
  change (stream_idxs (set_seq (nextSeq c) c)) with (stream_idxs c).
  destruct (lock_types_spec (nextSeq c) ts (set_seq (nextSeq c) c) Hnd) as (Es & _).
  unfold started_round. f_equal. unfold stream_idxs. by rewrite Es.
Qed.

(** The facts about the state a round starts in. *)
Lemma started_round_spec ts c :
  NoDup ts → (seq c + 1 < two64)%N → (∀ t, (default 0 (versions c !! t) ≤ seq c)%N) →
  let c' := started_round ts c in
  streams c' = streams c ∧ streamIDx c' = streamIDx c ∧ store c' = store c ∧ seq c' = (seq c + 1)%N ∧
  rounds c' = <[(seq c + 1)%N := mkRound (seq c + 1) ts OPERATION_LOCK (list_to_set (stream_idxs c)) ∅]> (rounds c) ∧
  pendingTypes c' = pendingTypes c ∖ list_to_set ts ∧
  (∀ t, lockedTypes c' !! t = if decide (t ∈ ts) then Some (seq c + 1)%N else lockedTypes c !! t) ∧
  (∀ t, default 0%N (versions c' !! t) =
        (if decide (t ∈ ts) then default 0 (versions c !! t) + 1 else default 0 (versions c !! t))%N).
Proof.
  intros Hnd Hlt Hv. cbv zeta. unfold started_round.
  destruct (lock_types_spec (nextSeq c) ts (set_seq (nextSeq c) c) Hnd) as (? & ? & ? & ? & ? & ? & ? & ? & Hl & Hvs).
  assert (Hn : nextSeq c = (seq c + 1)%N) by (unfold nextSeq, u64_succ; by apply N.mod_small).
  cbn [set_rounds streams streamIDx store seq rounds pendingTypes lockedTypes versions]. rewrite Hn in *.
  split_and!; try done; [by f_equal|]. intros t. rewrite Hvs. case_decide; [|done]. unfold u64_succ. simpl.
  specialize (Hv t). rewrite N.mod_small; lia.
Qed.

Section start_round.
Context (es : list EventConnections) (ts : list string) (c : connections) (os : list c_output).
Hypothesis (Hnd : NoDup ts) (Hfree : ∀ t, t ∈ ts → lockedTypes c !! t = None) (Hseq : (seq c + 1 < two64)%N).
Context (S : shape c).

#[local] Definition sq := (seq c + 1)%N.
#[local] Definition c_started := started_round ts c.
#[local] Definition os_started :=
  [CTimeoutEnqueue sq] ++ ((λ idx, CEnqueue idx (SendLock sq ts)) <$> stream_idxs c).

Lemma start_fresh s r : rounds c !! s = Some r → s ≠ sq.
Proof. intros (_ & ? & _)%(v_round c S). unfold sq. lia. Qed.

Lemma start_shape : shape c_started.
Proof.
  destruct (started_round_spec ts c Hnd Hseq (v_vmax c S)) as (E1 & E2 & E3 & E4 & E5 & E6 & El & Ev).
  unfold c_started. destruct S as [Sr Sl Ss Sh Sv]. split; rewrite ?E1, ?E3, ?E4, ?E5; try done.
  - intros s r. rewrite lookup_insert. case_decide as E.
    + intros [= <-]. simpl. split_and!; [done|lia|lia|set_solver| |done].
      intros i. by rewrite elem_of_list_to_set, elem_of_conn_idxs.
    + intros Hr. destruct (Sr s r Hr) as (? & ? & ? & ? & ?). split_and!; try done; lia.
  - intros t s. rewrite El. case_decide as Ht.
    + split; [intros [= <-]; eexists; by rewrite lookup_insert_eq|].
      intros (r & Hr & Htr). rewrite lookup_insert in Hr. case_decide; [congruence|].
      assert (lockedTypes c !! t = Some s) by (apply Sl; eauto). rewrite Hfree in *; done.
    + rewrite Sl. split; intros (r & Hr & Htr).
      * exists r. rewrite lookup_insert_ne; [done|]. apply start_fresh in Hr. unfold sq in Hr. done.
      * exists r. rewrite lookup_insert in Hr. case_decide; [|done]. by injection Hr as <-.
  - intros t. rewrite Ev. specialize (Sv t). case_decide; lia.
Qed.

Lemma start_counted : counted c os → counted c_started (os ++ os_started).
Proof.
  destruct (started_round_spec ts c Hnd Hseq (v_vmax c S)) as (E1 & E2 & E3 & E4 & _).
  intros Hc. apply (counted_emit c); [done|done|done| | | | |].
  - unfold c_started. rewrite E4. unfold os_started. rewrite nseq_app, nseq_broadcast by done. done.
  - unfold os_started. rewrite nidx_app, nidx_broadcast. done.
  - intros i e. unfold os_started. rewrite elem_of_app, list_elem_of_singleton, elem_of_broadcast.
    intros [?|(j & [= -> _] & Hj)]; [done|by apply elem_of_conn_idxs].
  - intros i err. unfold os_started. rewrite elem_of_app, list_elem_of_singleton, elem_of_broadcast. naive_solver.
  - unfold os_started. rewrite elem_of_app, list_elem_of_singleton, elem_of_broadcast. naive_solver.
Qed.

Lemma start_log_of i :
  log_of i os_started = if decide (i ∈ (list_to_set (stream_idxs c) : gset N)) then [SendLock sq ts] else [].
Proof.
  unfold os_started. rewrite log_of_app, log_of_broadcast by apply NoDup_stream_idxs. simpl.
  destruct (decide (i ∈ stream_idxs c)); [rewrite decide_True|rewrite decide_False]; set_solver.
Qed.

Lemma start_logged X : logged X c os → logged X c_started (os ++ os_started).
Proof.
  destruct (started_round_spec ts c Hnd Hseq (v_vmax c S)) as (E1 & E2 & E3 & E4 & E5 & E6 & El & Ev).
  intros Hl. unfold c_started. eapply (logged_send X X c); [done|apply start_log_of|..].
  - intros i _. simpl. destruct (v_good _ _ _ Hl i). unfold sq. lia.
  - rewrite E4. lia.
  - intros i _. rewrite E4. simpl. unfold sq. lia.
  - intros t. rewrite Ev. case_decide; lia.
  - intros i t v _. simpl. intros H%(v_vers _ _ _ Hl). rewrite Ev. case_decide; lia.
  - intros i s r. rewrite E5, lookup_insert. case_decide as E.
    + intros [= <-]. simpl. intros Hi. rewrite decide_True by done. simpl. rewrite <-E. set_solver.
    + intros Hr Hi. pose proof (v_sent _ _ _ Hl i s r Hr Hi) as Hs. destruct (decide (i ∈ _)); [|done].
      cbn [log_next lg_done lg_open]. case_decide; [done|set_solver].
  - intros i t Hi. rewrite E1 in Hi. rewrite E3, E5, E6.
    destruct (v_conv _ _ _ Hl i t Hi) as [?|[Hp|[(s & r & Hr & H)|Hc]]]; [by left| | |].
    + destruct (decide (t ∈ ts)); [|right; left; set_solver]. right. right. left. eexists _, _. rewrite lookup_insert_eq.
      split_and!; [done|done|done|]. simpl. by rewrite elem_of_list_to_set, elem_of_conn_idxs.
    + right. right. left. exists s, r. rewrite lookup_insert_ne; [done|]. apply start_fresh in Hr. unfold sq in Hr. done.
    + right. right. right. destruct (decide (i ∈ _)); done.
Qed.

Lemma start_agreed : agreed es c os → agreed es c_started (os ++ os_started).
Proof.
  destruct (started_round_spec ts c Hnd Hseq (v_vmax c S)) as (E1 & E2 & E3 & E4 & E5 & _).
  intros [Hl Ha Hu Hn]. unfold c_started.
  assert (Hq : ∀ o, o ∈ os_started → match o with CEnqueue j e => e = SendLock sq ts | _ => True end).
  { intros o. unfold os_started. rewrite elem_of_app, list_elem_of_singleton, elem_of_broadcast. naive_solver. }
  split.
  - intros s j ts'. rewrite E1, E4, E5. intros [Hin|Hin]%elem_of_app.
    + destruct (Hl s j ts' Hin) as [Hle Hm]. split; [lia|]. intros r. rewrite lookup_insert_ne by lia. apply Hm.
    + apply Hq in Hin. injection Hin as -> _. split; [unfold sq; lia|]. intros r. unfold sq. rewrite lookup_insert_eq.
      intros [= <-]. simpl. by rewrite elem_of_list_to_set, elem_of_conn_idxs.
  - intros s r i. rewrite E5, lookup_insert. case_decide; [|apply Ha]. intros [= <-]. simpl. split_and!; [set_solver|done|done].
  - intros os1 i s ts' vs tb os2 [[k ->]|(k & -> & Ek)]%trace_split; [by eapply Hu|].
    specialize (Hq (CEnqueue i (SendUpdate s ts' vs tb))). rewrite Ek in Hq. by specialize (Hq (elem_of_mid _ _ _)).
  - intros os1 i s ts' os2 [[k ->]|(k & -> & Ek)]%trace_split; [by eapply Hn|].
    specialize (Hq (CEnqueue i (SendUnlock s ts'))). rewrite Ek in Hq. by specialize (Hq (elem_of_mid _ _ _)).
Qed.

End start_round.

Lemma fits_seq X es c os os' :
  cinv_but X es c os → fits (os ++ os') → 0 < nseq os' → (seq c + 1 < two64)%N.
Proof. intros [_ [Hs _ _ _ _] _ _]. unfold fits. rewrite nseq_app, nidx_app, Hs. lia. Qed.

Lemma keeps_frame es h :
  (∀ c, (∀ o, o ∈ (h c).2 → plain o = true) ∧
    streams (h c).1 = streams c ∧ streamIDx (h c).1 = streamIDx c ∧ store (h c).1 = store c ∧
    versions (h c).1 = versions c ∧ seq (h c).1 = seq c ∧ rounds (h c).1 = rounds c ∧
    lockedTypes (h c).1 = lockedTypes c ∧ (pendingTypes c ⊆ pendingTypes (h c).1 ∨ streams c = ∅)) →
  keeps es h.
Proof.
  intros H c os Hc _. destruct (H c) as (? & ? & ? & ? & ? & ? & ? & ? & ?). by eapply cinv_frame.
Qed.

Ltac frame := apply keeps_frame; intros ?; split_and!;
  try done; try (intros ?; rewrite ?list_elem_of_singleton; set_solver); auto; try (left; set_solver).

Lemma keeps_markPending es ts : keeps es (markPending ts).
Proof. frame. Qed.

Lemma keeps_set_coalesceTimer es b : keeps es (modify (set_coalesceTimer b)).
Proof. frame. Qed.

Lemma keeps_plain es os' : (∀ o, o ∈ os' → plain o = true) → keeps es (emit os').
Proof. intros H. frame. Qed.

Lemma keeps_startCoalesceTimer es : keeps es startCoalesceTimer.
Proof.
  apply keeps_get. intros c. case_match; [apply keeps_skip|]. apply keeps_seqp; [apply keeps_set_coalesceTimer|].
  apply keeps_plain. intros o ->%list_elem_of_singleton. done.
Qed.

Lemma keeps_stopCoalesceTimer es : keeps es stopCoalesceTimer.
Proof.
  apply keeps_get. intros c. apply keeps_when, keeps_seqp; [|apply keeps_set_coalesceTimer].
  apply keeps_plain. intros o ->%list_elem_of_singleton. done.
Qed.

Lemma keeps_start_round es ts c os :
  NoDup ts → (∀ t, t ∈ ts → lockedTypes c !! t = None) →
  cinv es c os → fits (os ++ (start_round ts c).2) → cinv es (start_round ts c).1 (os ++ (start_round ts c).2).
Proof.
  intros Hnd Hfree Hc Hf. rewrite start_conn_round_eq in * by done. cbn [fst snd] in *.
  assert (Hlt : (seq c + 1 < two64)%N) by (eapply fits_seq; [done|done|]; rewrite nseq_app; unfold nseq; simpl; lia).
  assert (Hn : nextSeq c = (seq c + 1)%N) by (unfold nextSeq, u64_succ; by apply N.mod_small).
  rewrite Hn. destruct Hc as [Hs Hc Hl Ha].
  split; [by apply start_shape|by apply start_counted|by apply start_logged|by apply start_agreed].
Qed.

Lemma keeps_maybeDisseminate es : keeps es maybeDisseminate.
Proof.
  intros c os Hc Hf. unfold maybeDisseminate, get in *.
  destruct ((size (pendingTypes c) =? 0) || coalesceTimer c); [by apply keeps_skip|].
  destruct (size (streams c) =? 0) eqn:Hz.
  - apply Nat.eqb_eq, map_size_empty_iff in Hz. eapply cinv_frame; [done|by intros o Ho%elem_of_nil|done..|by right].
  - destruct (length (free_types c) =? 0); [by apply keeps_skip|]. destruct (free_types_spec c) as [Hnd Hfr].
    apply keeps_start_round; [done|by intros t [_ ?]%Hfr|done|done].
Qed.

(** ** Ending a round *)

Lemma unlock_types_lookup sq l ts t :
  (0 < sq)%N →
  foldl (unlock_type sq) l ts !! t = if decide (t ∈ ts ∧ l !! t = Some sq) then None else l !! t.
Proof.
  intros Hsq. revert l; induction ts as [|u ts IH]; intros l; cbn [foldl].
  { rewrite decide_False; [done|]. intros [[]%elem_of_nil _]. }
  assert (Hu : ∀ v, unlock_type sq l u !! v = if decide (u = v ∧ l !! v = Some sq) then None else l !! v).
  { intros v. unfold unlock_type. destruct (N.eqb_spec (default 0%N (l !! u)) sq) as [E|E].
    - assert (l !! u = Some sq) by (destruct (l !! u); simpl in E; [congruence|lia]).
      rewrite lookup_delete. repeat case_decide; naive_solver.
    - rewrite decide_False; [done|]. intros [-> Hv]. rewrite Hv in E. done. }
  rewrite IH, Hu. repeat case_decide; set_solver.
Qed.

(** [delete(c.rounds, seq)] and the release of the types of the round. *)
Definition dropped (sq : N) (ts : list string) (c : connections) : connections :=
  set_lockedTypes (foldl (unlock_type sq) (lockedTypes c) ts) (set_rounds (delete sq (rounds c)) c).

Lemma cinv_weaken X X' es c os :
  cinv_but X es c os →
  (∀ i t, is_Some (streams c !! i) → X i t → X' i t ∨ t ∈ pendingTypes c) → cinv_but X' es c os.
Proof.
  intros [Hs Hc [Hv Hg Hve Hse] Ha] HX. split; [done|done| |done]. split; [|done..].
  intros i t Hi. destruct (Hv i t Hi) as [Hx|?]; [|by right]. destruct (HX i t Hi Hx); auto.
Qed.

Lemma dropped_rounds_sub es sq ts c : rounds_sub es c (dropped sq ts c).
Proof.
  intros s r' Hr. simpl in Hr. apply lookup_delete_Some in Hr as [_ Hr]. exists r'. split_and!; auto.
Qed.

Lemma cinv_dropped X es c os sq r :
  cinv_but X es c os → rounds c !! sq = Some r →
  cinv_but (λ i t, X i t ∨ (t ∈ r_types r ∧ i ∈ members r ∧ phase r = OPERATION_LOCK)) es
    (dropped sq (r_types r) c) os.
Proof.
  intros [[Sr Sl Ss Sh Sv] Hc Hl Ha] Hr. destruct (Sr sq r Hr) as (Hsq & Hpos & _).
  rewrite <-(app_nil_r os). split.
  - split; simpl; try done.
    + intros s r' [_ Hr']%lookup_delete_Some. by apply Sr.
    + intros t s. rewrite unlock_types_lookup by lia. rewrite lookup_delete. case_decide as E.
      * destruct E as [Ht El]. split; [done|]. intros (r' & Hr' & Ht'). case_decide; [done|].
        assert (lockedTypes c !! t = Some s) by (apply Sl; eauto). congruence.
      * rewrite Sl. case_decide as Es; [|done]. split; [|by intros (? & ? & _)]. intros (r' & Hr' & Ht').
        subst s. assert (r' = r) as -> by congruence. destruct E. split; [done|]. apply Sl. eauto.
  - apply (counted_emit c); [done..|symmetry; apply N.add_0_r|done|by intros i e ?%elem_of_nil| |]; intros;
      apply not_elem_of_nil.
  - apply (logged_quiet X _ es c); [done|done|simpl; lia|simpl; lia|apply dropped_rounds_sub|].
    intros i t Hi. simpl. destruct (v_conv _ _ _ Hl i t Hi) as [?|[?|[(s & r' & Hr' & Ht & Hp & Hm)|?]]]; auto.
    destruct (decide (s = sq)) as [->|Hne].
    + left. right. assert (r' = r) as -> by congruence. done.
    + right. right. left. exists s, r'. by rewrite lookup_delete_ne.
  - apply (agreed_quiet es c); [done|by intros o ?%elem_of_nil|simpl; lia|apply dropped_rounds_sub|done].
Qed.

(** A round is complete when its UNLOCK is acknowledged or no member is left. *)
Lemma cinv_completeRound es c os r :
  cinv es c os → rounds c !! r_seq r = Some r → phase r = OPERATION_UNLOCK ∨ members r = ∅ →
  fits (os ++ (completeRound r c).2) → cinv es (completeRound r c).1 (os ++ (completeRound r c).2).
Proof.
  intros Hc Hr Hdone Hf.
  assert (Hd : cinv es (dropped (r_seq r) (r_types r) c) (os ++ [CTimeoutDequeue (r_seq r)])).
  { apply (cinv_frame _ _ (dropped (r_seq r) (r_types r) c)); [|by intros o ->%list_elem_of_singleton|by auto..].
    eapply cinv_weaken; [by apply cinv_dropped|]. intros i t _ [[]|(_ & Hi & Hp)].
    destruct Hdone as [Hd|Hd]; [congruence|set_solver]. }
  unfold completeRound in *. rewrite !seqp_eq in *. cbn [emit modify fst snd app] in *.
  change (set_lockedTypes _ _) with (dropped (r_seq r) (r_types r) c) in *. unfold get in *.
  apply (cinv_then _ _ os [_]); [done| |done].
  case_match; [apply keeps_startCoalesceTimer|apply keeps_maybeDisseminate].
Qed.
