(* ===== verification/SchedulerPhases.v ===== *)
(** * Phases and acknowledgements keep the invariant

    The handlers that move a round through LOCK, UPDATE and UNLOCK preserve
    [cinv]: entering the next phase, completing a round, acknowledgements. *)

From S2P Require Import Prelude GoLib Inflight SchedulerStore SchedulerConnections SchedulerInv.
#[local] Open Scope dapr_scope.

(** ** Moving a round to its next phase *)

Lemma enqueue_members_eq r e c :
  (∀ i, i ∈ members r → is_Some (streams c !! i)) →
  enqueue_members r e c = (c, (λ idx, CEnqueue idx e) <$> elements (members r)).
Proof.
  intros H. unfold enqueue_members, get, emit. f_equal. apply list_fmap_ext. intros _ i Hi%list_elem_of_lookup_2.
  by rewrite bool_decide_true by (by apply H, elem_of_elements).
Qed.

Lemma versions_of_lookup c types t :
  versions_of c types !! t = if decide (t ∈ types) then Some (default 0%N (versions c !! t)) else None.
Proof.
  unfold versions_of. induction types as [|u types IH]; [done|]. rewrite fmap_cons. cbn [list_to_map foldr fst snd].
  rewrite lookup_insert. destruct (decide (u = t)) as [->|Hne]; [by rewrite (decide_True (P := t ∈ t :: types)) by left|].
  rewrite IH. destruct (decide (t ∈ types)) as [Ht|Ht]; [by rewrite decide_True by (by right)|].
  rewrite decide_False; [done|set_solver].
Qed.

Lemma tables_routes s types t :
  (dom <$> v2_Entries (SStore_Tables s types)) !! t = if decide (t ∈ types) then Some (hosting s t) else None.
Proof.
  destruct (Tables_spec s (s_order s) types t (Permutation_refl _)) as [H1 H2]. rewrite lookup_fmap.
  unfold SStore_Tables. case_decide as Ht; [|by rewrite H1]. destruct (H2 Ht) as (e & -> & Hd & _). simpl. by rewrite Hd.
Qed.

(** A connected stream that was sent the LOCK of a round in flight is a member. *)
Lemma locked_member es c os s r j ts :
  counted c os → agreed es c os → rounds c !! s = Some r →
  CEnqueue j (SendLock s ts) ∈ os → (∀ err, CClose j err ∉ os) → j ∈ members r.
Proof.
  intros Hc Ha Hr Hin Hcl. destruct (v_lock _ _ _ Ha s j ts Hin) as [_ Hm]. apply (Hm r Hr).
  apply (v_open _ _ Hc). split; [|done]. apply (v_fresh _ _ Hc). eauto.
Qed.

Definition moved (op : Operation) (sq : N) (r : round) (c : connections) : connections :=
  set_rounds (<[sq := next_phase op r]> (rounds c)) c.

(** The outputs of [enqueue_members]. *)
Definition os_moved (r : round) (e : EventStream) : list c_output := (λ idx, CEnqueue idx e) <$> elements (members r).

Lemma moved_log_of r e i : log_of i (os_moved r e) = if decide (i ∈ members r) then [e] else [].
Proof.
  unfold os_moved. rewrite log_of_broadcast by apply NoDup_elements.
  destruct (decide (i ∈ members r)); [rewrite decide_True|rewrite decide_False]; set_solver.
Qed.

Lemma moved_enqueued r e o : o ∈ os_moved r e → ∃ i, o = CEnqueue i e.
Proof. unfold os_moved. rewrite elem_of_broadcast. naive_solver. Qed.

Section moved.
Context (es : list EventConnections) (c : connections) (os : list c_output) (sq : N) (r : round).
Context (S : shape c) (K : counted c os) (A : agreed es c os).
Hypothesis (Hr : rounds c !! sq = Some r) (Hfull : acked r = members r).
Context (op : Operation) (e : EventStream).

Lemma moved_shape : op ≠ OPERATION_UNSPECIFIED → shape (moved op sq r c).
Proof.
  intros Hop. destruct S as [Sr Sl Ss Sh Sv]. split; simpl; try done.
  - intros s r'. rewrite lookup_insert. case_decide as E; [|apply Sr]. intros [= <-]. subst s.
    destruct (Sr sq r Hr) as (? & [? ?] & ? & ? & ?). by split_and!.
  - intros t s. rewrite Sl, lookup_insert. case_decide as E; [|done]. subst s. rewrite Hr. split.
    + intros (r' & [= <-] & Ht). by exists (next_phase op r).
    + intros (r' & [= <-] & Ht). by exists r.
Qed.

Lemma moved_counted : takes_seq (CEnqueue 0 e) = false → counted (moved op sq r c) (os ++ (os_moved r e)).
Proof.
  intros He. apply (counted_emit c); [done..| | | | |].
  - unfold os_moved. rewrite nseq_broadcast by done. symmetry. apply N.add_0_r.
  - apply nidx_broadcast.
  - intros i e'. unfold os_moved. rewrite elem_of_broadcast. intros (j & [= -> _] & Hj%elem_of_elements).
    by apply (v_round c S sq r Hr).
  - intros i err. unfold os_moved. rewrite elem_of_broadcast. naive_solver.
  - unfold os_moved. rewrite elem_of_broadcast. naive_solver.
Qed.

Lemma moved_acked j ts k : (∀ s' ts', e ≠ SendLock s' ts') → (∀ o, o ∈ k → o ∈ (os_moved r e)) →
  CEnqueue j (SendLock sq ts) ∈ os ++ k → (∀ err, CClose j err ∉ os ++ k) → Ack j (phase r) sq ∈ es.
Proof.
  intros He Hk [Hin|Hin%Hk%moved_enqueued]%elem_of_app Hcl; [|destruct Hin as [i [= _ Hin]]; by destruct (He sq ts)].
  apply (v_ack _ _ _ A sq r j Hr). rewrite Hfull.
  eapply locked_member; [done..|]. intros err ?. apply (Hcl err). set_solver.
Qed.

(** [e] is the order of the phase entered. *)
Hypothesis He :
  (phase r = OPERATION_LOCK ∧ op = OPERATION_UPDATE ∧ ∃ ts vs tb, e = SendUpdate sq ts vs tb) ∨
  (phase r = OPERATION_UPDATE ∧ op = OPERATION_UNLOCK ∧ ∃ ts, e = SendUnlock sq ts).

Lemma moved_agreed : agreed es (moved op sq r c) (os ++ (os_moved r e)).
Proof.
  assert (Hnl : ∀ s' ts', e ≠ SendLock s' ts') by naive_solver. split.
  - intros s j ts [Hin|[i [= _ E]]%moved_enqueued]%elem_of_app; [|by destruct (Hnl s ts)].
    destruct (v_lock _ _ _ A s j ts Hin) as [Hle Hm]. split; [done|]. simpl. intros r' Hr' Hj.
    rewrite lookup_insert in Hr'. case_decide; [|by apply (Hm r')]. injection Hr' as <-. subst. by apply (Hm r).
  - intros s r' i. simpl. rewrite lookup_insert. case_decide as E; [|apply (v_ack _ _ _ A)]. intros [= <-]. subst s.
    simpl. destruct (v_ack _ _ _ A sq r i Hr) as (A1 & _). rewrite Hfull in A1.
    split_and!; [set_solver|..]; intros Hi Ho; destruct He as [(Hp & Hop & _)|(Hp & Hop & _)];
      rewrite Hp in A1; try congruence; by apply A1.
  - intros os1 i s ts vs tb os2 [[k ->]|(k & -> & Ek)]%trace_split; [by eapply (v_upd _ _ _ A)|].
    assert (Hin : CEnqueue i (SendUpdate s ts vs tb) ∈ (os_moved r e)) by (rewrite Ek; apply elem_of_mid).
    apply moved_enqueued in Hin as [i' [= _ E]].
    destruct He as [(Hp & _ & ts' & vs' & tb' & Ee)|(_ & _ & ts' & Ee)]; [|congruence].
    assert (s = sq) as -> by congruence. intros j ts'' Hj Hcl. rewrite <-Hp.
    eapply moved_acked; [done| |exact Hj|done]. intros o Ho. rewrite Ek. set_solver.
  - intros os1 i s ts os2 [[k ->]|(k & -> & Ek)]%trace_split; [by eapply (v_unl _ _ _ A)|].
    assert (Hin : CEnqueue i (SendUnlock s ts) ∈ (os_moved r e)) by (rewrite Ek; apply elem_of_mid).
    apply moved_enqueued in Hin as [i' [= _ E]].
    destruct He as [(_ & _ & ts' & vs' & tb' & Ee)|(Hp & _ & ts' & Ee)]; [congruence|].
    assert (s = sq) as -> by congruence. intros j ts'' Hj Hcl. left. rewrite <-Hp.
    eapply moved_acked; [done| |exact Hj|done]. intros o Ho. rewrite Ek. set_solver.
Qed.

End moved.

(** The UPDATE of a round. *)
Definition update_of (r : round) (c : connections) : EventStream :=
  SendUpdate (r_seq r) (r_types r) (versions_of c (r_types r)) (SStore_Tables (store c) (r_types r)).

Lemma update_routes r c g t :
  default ∅ (lg_tabs (log_next g (update_of r c)) !! t) =
    if decide (t ∈ r_types r) then hosting (store c) t else default ∅ (lg_tabs g !! t).
Proof.
  unfold update_of. cbn [log_next lg_tabs]. rewrite lookup_union, tables_routes.
  case_decide; [by destruct (lg_tabs g !! t)|by destruct (lg_tabs g !! t)].
Qed.

Lemma versions_of_logged X c os i types t v :
  logged X c os → (versions_of c types ∪ lg_vers (lg i os)) !! t = Some v → (v ≤ default 0 (versions c !! t))%N.
Proof.
  intros Hl. rewrite lookup_union, versions_of_lookup. case_decide.
  - destruct (lg_vers (lg i os) !! t); simpl; intros [= <-]; lia.
  - destruct (lg_vers (lg i os) !! t) eqn:E; simpl; intros [= <-]. by apply (v_vers _ _ _ Hl i).
Qed.

Lemma no_regression_versions_of X c os i types : logged X c os → no_regression (lg i os) (versions_of c types).
Proof.
  intros Hl t v cur. rewrite versions_of_lookup. case_decide; [|done]. intros [= <-]. apply (v_vers _ _ _ Hl).
Qed.

Lemma logged_update X c os sq r :
  shape c → logged X c os → rounds c !! sq = Some r → phase r = OPERATION_LOCK →
  logged X (moved OPERATION_UPDATE sq r c) (os ++ os_moved r (update_of r c)).
Proof.
  intros S Hl Hr Hp. pose proof (v_round c S sq r Hr) as (Hsq & _).
  assert (Hopen : ∀ i, i ∈ members r → sq ∈ lg_open (lg i os)).
  { intros i Hi. pose proof (v_sent _ _ _ Hl i sq r Hr Hi) as H. rewrite Hp in H. done. }
  eapply (logged_send X X c); [done|apply moved_log_of|..].
  - intros i Hi. simpl. rewrite Hsq. split_and!; [by apply Hopen|by eapply no_regression_versions_of|done].
  - simpl. lia.
  - intros i _. simpl. apply (v_good _ _ _ Hl).
  - simpl. lia.
  - intros i t v _. simpl. by apply (versions_of_logged X).
  - intros i s r'. simpl. rewrite lookup_insert. case_decide as E.
    + intros [= <-]. simpl. intros Hi. rewrite decide_True by done. simpl. subst s. by apply Hopen.
    + intros Hr' Hi. pose proof (v_sent _ _ _ Hl i s r' Hr' Hi). by destruct (decide (i ∈ members r)).
  - intros i t Hi. cbn [moved set_rounds streams pendingTypes rounds store] in *.
    destruct (v_conv _ _ _ Hl i t Hi) as [?|[?|H]]; [auto..|]. destruct (decide (i ∈ members r)) as [Hm|Hm].
    + rewrite update_routes. destruct (decide (t ∈ r_types r)) as [Ht|Ht]; [auto|].
      destruct H as [(s & r' & Hr' & Ht' & H)|H]; [|auto]. right. right. left. exists s, r'.
      rewrite lookup_insert_ne; [done|]. intros <-. congruence.
    + destruct H as [(s & r' & Hr' & Ht' & Hp' & Hm')|H]; [|auto]. right. right. left. exists s, r'.
      rewrite lookup_insert_ne; [done|]. intros <-. congruence.
Qed.

Lemma logged_unlock X c os sq r :
  shape c → logged X c os → rounds c !! sq = Some r → phase r = OPERATION_UPDATE →
  logged X (moved OPERATION_UNLOCK sq r c) (os ++ os_moved r (SendUnlock (r_seq r) (r_types r))).
Proof.
  intros S Hl Hr Hp. pose proof (v_round c S sq r Hr) as (Hsq & _).
  assert (Hopen : ∀ i, i ∈ members r → sq ∈ lg_open (lg i os)).
  { intros i Hi. pose proof (v_sent _ _ _ Hl i sq r Hr Hi) as H. rewrite Hp in H. done. }
  eapply (logged_send X X c); [done|apply moved_log_of|..].
  - intros i Hi. simpl. rewrite Hsq. set_solver.
  - simpl. lia.
  - intros i _. simpl. apply (v_good _ _ _ Hl).
  - simpl. lia.
  - intros i t v _. simpl. apply (v_vers _ _ _ Hl).
  - intros i s r'. simpl. rewrite lookup_insert, Hsq. case_decide as E.
    + intros [= <-]. simpl. intros Hi. rewrite decide_True by done. subst s. set_solver.
    + intros Hr' Hi. pose proof (v_sent _ _ _ Hl i s r' Hr' Hi). destruct (decide (i ∈ members r)); [|done].
      simpl. case_decide; set_solver.
  - intros i t Hi. simpl. destruct (v_conv _ _ _ Hl i t Hi) as [?|[?|[(s & r' & Hr' & Ht & Hp' & Hm)|H]]]; [auto..| |].
    + right. right. left. exists s, r'. rewrite lookup_insert_ne; [done|]. intros <-. congruence.
    + right. right. right. by destruct (decide (i ∈ members r)).
Qed.

Lemma acked_full c s r :
  shape c → rounds c !! s = Some r → (size (acked r) <? size (members r)) = false → acked r = members r.
Proof.
  intros S Hr Hsz%Nat.ltb_ge. destruct (v_round c S s r Hr) as (_ & _ & Hsub & _).
  apply (anti_symm (⊆)); [done|].
  intros i Hi. destruct (decide (i ∈ acked r)); [done|].
  assert (acked r ⊂ members r) as Hlt%subset_size by set_solver. lia.
Qed.

Lemma keeps_advance_round es sq : keeps es (advance_round sq).
Proof.
  intros c os Hc Hf. unfold advance_round, get in *. destruct (rounds c !! sq) as [r|] eqn:Hr; [|by apply keeps_skip].
  destruct Hc as [S K L A]. pose proof (v_round c S sq r Hr) as (Hsq & _ & _ & Hm & _).
  destruct (size (members r) =? 0) eqn:Hz.
  { apply Nat.eqb_eq, size_empty_inv, leibniz_equiv in Hz. apply cinv_completeRound; [done|by rewrite Hsq|auto|done]. }
  destruct (size (acked r) <? size (members r)) eqn:Hsz; [by apply keeps_skip|].
  pose proof (acked_full c sq r S Hr Hsz) as Hfull. destruct (phase r) eqn:Hp.
  - rewrite seqp_eq in *. cbn [modify fst snd app] in *. change (SendUpdate _ _ _ _) with (update_of r c) in *.
    rewrite enqueue_members_eq in * by done. cbn [fst snd] in *.
    split; [by apply moved_shape|by apply moved_counted|by apply logged_update|].
    apply moved_agreed; try done. left. rewrite <-Hsq. unfold update_of. eauto 6.
  - rewrite seqp_eq in *. cbn [modify fst snd app] in *. rewrite enqueue_members_eq in * by done. cbn [fst snd] in *.
    split; [by apply moved_shape|by apply moved_counted|by apply logged_unlock|].
    apply moved_agreed; try done. right. rewrite <-Hsq. eauto 6.
  - apply cinv_completeRound; [done|by rewrite Hsq|auto|done].
  - by apply keeps_skip.
Qed.

Lemma keeps_advanceRounds es seqs : keeps es (advanceRounds seqs).
Proof. apply keeps_for_each, keeps_advance_round. Qed.

(** ** Acknowledgements *)

Definition with_ack (idx : N) (sq : N) (r : round) (c : connections) : connections :=
  set_rounds (<[sq := mkRound (r_seq r) (r_types r) (phase r) (members r) ({[ idx ]} ∪ acked r)]> (rounds c)) c.

Lemma cinv_with_ack es c os idx sq r :
  cinv es c os → rounds c !! sq = Some r → idx ∈ members r → Ack idx (phase r) sq ∈ es →
  cinv es (with_ack idx sq r c) os.
Proof.
  intros [[Sr Sl Ss Sh Sv] K L A] Hr Hm Hack. rewrite <-(app_nil_r os).
  assert (Hsub : rounds_sub es c (with_ack idx sq r c)).
  { intros s r'. simpl. rewrite lookup_insert. case_decide as E; [|intros; exists r'; split_and!; auto]. intros [= <-]. subst s.
    exists r. simpl. split_and!; [done..| |auto]. intros j [->%elem_of_singleton|?]%elem_of_union; auto. }
  split.
  - split; simpl; try done.
    + intros s r'. rewrite lookup_insert. case_decide as E; [|apply Sr]. intros [= <-]. subst s. simpl.
      destruct (Sr sq r Hr) as (? & [? ?] & ? & ? & ?). split_and!; try done. set_solver.
    + intros t s. rewrite Sl, lookup_insert. case_decide as E; [|done]. subst s. rewrite Hr. split.
      * intros (r' & [= <-] & Ht). by eexists.
      * intros (r' & [= <-] & Ht). by exists r.
  - apply (counted_emit c); [done..|symmetry; apply N.add_0_r|done|by intros i e ?%elem_of_nil| |]; intros;
      apply not_elem_of_nil.
  - apply (logged_quiet nothing _ es c); [done|done|simpl; lia|simpl; lia|done|].
    intros i t Hi. simpl. destruct (v_conv _ _ _ L i t Hi) as [?|[?|[(s & r' & Hr' & Ht & Hp & Hi')|?]]]; auto.
    right. right. left. destruct (decide (sq = s)) as [<-|Hne]; [|exists s, r'; by rewrite lookup_insert_ne].
    exists sq. eexists. rewrite lookup_insert_eq. assert (r' = r) as -> by congruence. done.
  - apply (agreed_quiet es c); [done|by intros o ?%elem_of_nil|simpl; lia|done|done].
Qed.

Lemma keeps_handleAck es idx op sq : Ack idx op sq ∈ es → keeps es (handleAck idx op sq).
Proof.
  intros Hack c os Hc Hf. unfold handleAck, get in *. case_match; [by apply keeps_skip|].
  destruct (oneshots c !! sq) as [i|].
  { revert Hf. apply keeps_when; [frame|done]. }
  destruct (rounds c !! sq) as [r|] eqn:Hr; [|by apply keeps_skip].
  case_bool_decide as Hm; [|by apply keeps_skip]. case_bool_decide as Hop; [|by apply keeps_skip]. subst op.
  cbn [negb orb] in *. rewrite seqp_eq in *. cbn [modify fst snd app] in *.
  apply keeps_advanceRounds; [|done]. by apply cinv_with_ack.
Qed.
