(* ===== verification/SchedulerMembers.v ===== *)
(** * Membership changes keep the invariant

    Streams that connect, report and leave, rounds that time out, and shutdown
    preserve [cinv]; [conns_run_inv] is the invariant for every sequence of
    events. *)

From S2P Require Import Prelude GoLib Inflight SchedulerStore SchedulerConnections SchedulerInv SchedulerPhases.
#[local] Open Scope dapr_scope.

(** ** Removing a stream *)

Definition removed (idx : N) (c : connections) : connections :=
  let d := SStore_Delete (store c) idx in
  mkConnections (disseminateTimeout c) (coalesceWindow c) (delete idx (streams c)) (streamIDx c) d.1
    (versions c) (seq c) (leave_round idx <$> rounds c) (lockedTypes c) (list_to_set d.2 ∪ pendingTypes c)
    (filter (λ kv : N * N, kv.2 ≠ idx) (oneshots c)) (coalesceTimer c).

(** The last step of [removeStream]. *)
Definition clear_pending (c : connections) : connections :=
  if size (streams c) =? 0 then set_pendingTypes ∅ c else c.

Lemma removeStream_eq idx err c (b : bool) :
  streams c !! idx = Some b →
  removeStream idx err c = (clear_pending (removed idx c), (if b then [CCancel idx err] else []) ++ [CClose idx err]).
Proof.
  intros Hi. unfold removeStream, get. rewrite Hi. unfold removed, clear_pending.
  destruct (SStore_Delete (store c) idx) as [st gone]. rewrite !seqp_eq. unfold when.
  destruct b; cbn [emit modify skip fst snd app]; by destruct (_ =? 0).
Qed.

Lemma removed_rounds_sub es idx c : rounds_sub es c (removed idx c).
Proof.
  intros s r'. simpl. rewrite lookup_fmap. intros (r & Hr & ->)%fmap_Some. exists r. simpl.
  split_and!; [done|done|set_solver|set_solver|]. intros j Hj [b [Hne _]%lookup_delete_Some]. set_solver.
Qed.

Section removed.
Context (es : list EventConnections) (c : connections) (os : list c_output) (idx : N).
Hypothesis (Hi : is_Some (streams c !! idx)).

Lemma removed_shape : shape c → shape (removed idx c).
Proof.
  intros [Sr Sl Ss Sh Sv]. split; simpl; try done.
  - intros s r'. rewrite lookup_fmap. intros (r & Hr & ->)%fmap_Some. simpl.
    destruct (Sr s r Hr) as (? & [? ?] & ? & Hm & ?). split_and!; try done; [set_solver|].
    intros i [Him Hne]%elem_of_difference. rewrite lookup_delete_ne by set_solver. by apply Hm.
  - intros t s. rewrite Sl, lookup_fmap. split.
    + intros (r & -> & Ht). by exists (leave_round idx r).
    + intros (r' & (r & Hr & ->)%fmap_Some & Ht). by exists r.
  - by apply sched_wf_Delete.
  - intros i. unfold SStore_Delete. destruct (s_hosts (store c) !! idx) eqn:Hx; simpl.
    + intros [h [Hne Hh]%lookup_delete_Some]. rewrite lookup_delete_ne by done. apply Sh. eauto.
    + intros Hh. rewrite lookup_delete_ne; [by apply Sh|]. intros <-. rewrite Hx in Hh. by destruct Hh.
Qed.

Lemma removed_counted err : counted c os → counted (removed idx c) (os ++ [CClose idx err]).
Proof.
  intros [Ks Ki Ko Kf Kp]. split; simpl.
  - rewrite Ks, nseq_app. unfold nseq. simpl. lia.
  - rewrite Ki, nidx_app. unfold nidx. simpl. lia.
  - intros i. destruct (decide (idx = i)) as [->|Hne].
    + rewrite lookup_delete_eq. split; [by intros []|]. intros [_ H]. destruct (H err). set_solver.
    + rewrite lookup_delete_ne by done. rewrite Ko. split; intros [? H]; (split; [done|]); intros err' Hin;
        apply (H err'); set_solver.
  - intros i [[e [Hin|Hin%list_elem_of_singleton]%elem_of_app]|[err' [Hin|Hin%list_elem_of_singleton]%elem_of_app]].
    + apply Kf. eauto.
    + done.
    + apply Kf. eauto.
    + injection Hin as -> _. by apply Ko in Hi as [? _].
  - set_solver.
Qed.

Lemma removed_logged X err : shape c → logged X c os → logged X (removed idx c) (os ++ [CClose idx err]).
Proof.
  intros S L. apply (logged_quiet X _ es c); [done|done|simpl; lia|simpl; lia|apply removed_rounds_sub|].
  intros i t. simpl. intros [b [Hne Hb]%lookup_delete_Some].
  destruct (v_conv _ _ _ L i t ltac:(eauto)) as [?|[?|[(s & r & Hr & Ht & Hp & Hm)|Hc]]].
  - auto.
  - right. left. set_solver.
  - right. right. left. exists s, (leave_round idx r). rewrite lookup_fmap, Hr. split_and!; try done. simpl. set_solver.
  - destruct (decide (t ∈ (SStore_Delete (store c) idx).2)); [right; left; set_solver|].
    right. right. right. by rewrite SStore_Delete_spec.
Qed.

Lemma removed_agreed err : agreed es c os → agreed es (removed idx c) (os ++ [CClose idx err]).
Proof.
  intros A. apply (agreed_quiet es c); [done|by intros o ->%list_elem_of_singleton|simpl; lia|apply removed_rounds_sub|].
  intros j s ts _. simpl. intros [b [_ Hb]%lookup_delete_Some]. eauto.
Qed.

End removed.

Lemma keeps_removeStream es idx err : keeps es (removeStream idx err).
Proof.
  intros c os Hc Hf. destruct (streams c !! idx) as [b|] eqn:Hi.
  2: { unfold removeStream, get in *. rewrite Hi in *. by apply keeps_skip. }
  rewrite removeStream_eq with (b := b) in * by done. cbn [fst snd] in *.
  assert (Hpl : cinv es c (os ++ (if b then [CCancel idx err] else []))).
  { apply (cinv_frame _ _ c); [done| |by auto..]. intros o. destruct b; [by intros ->%list_elem_of_singleton|by intros ?%elem_of_nil]. }
  rewrite app_assoc. destruct Hpl as [S K L A].
  assert (Hrm : cinv es (removed idx c) ((os ++ (if b then [CCancel idx err] else [])) ++ [CClose idx err])).
  { split; [by apply removed_shape|by apply removed_counted|by apply (removed_logged es)|by apply removed_agreed]. }
  rewrite <-(app_nil_r ((os ++ _) ++ _)). unfold clear_pending. destruct (size _ =? 0) eqn:Hz;
    [|by rewrite app_nil_r].
  apply Nat.eqb_eq, map_size_empty_iff in Hz. eapply cinv_frame; [done|by intros o ?%elem_of_nil|done..|by right].
Qed.

(** ** Reports and new streams *)

Definition reported (idx : N) (host : ActorHost) (c : connections) : connections :=
  let d := SStore_Set (store c) idx host in
  set_pendingTypes (list_to_set d.2 ∪ pendingTypes c) (set_store d.1 c).

Lemma report_eq idx host c : report idx host c = (reported idx host c, []).
Proof. unfold report, get, reported. destruct (SStore_Set (store c) idx host) as [st ch]. by rewrite seqp_eq. Qed.

Lemma SStore_Set_hosts s idx host i :
  is_Some (s_hosts (SStore_Set s idx host).1 !! i) → i = idx ∨ is_Some (s_hosts s !! i).
Proof.
  unfold SStore_Set. simpl. destruct (_ =? 0).
  - intros [h [_ Hh]%lookup_delete_Some]. eauto.
  - rewrite lookup_insert. case_decide; eauto.
Qed.

Lemma cinv_report X es c os idx host :
  cinv_but X es c os → is_Some (streams c !! idx) → cinv_but X es (reported idx host c) os.
Proof.
  intros [[Sr Sl Ss Sh Sv] K L A] Hi. rewrite <-(app_nil_r os).
  pose proof (rounds_sub_eq es c (reported idx host c) eq_refl) as Hsub. split.
  - split; simpl; try done; [by apply sched_wf_Set|]. intros i [->|?]%SStore_Set_hosts; auto.
  - apply (counted_emit c); [done..|symmetry; apply N.add_0_r|done|by intros i e ?%elem_of_nil| |]; intros;
      apply not_elem_of_nil.
  - apply (logged_quiet X _ es c); [done|done|simpl; lia|simpl; lia|done|].
    intros i t Hi'. cbn [reported set_pendingTypes set_store pendingTypes rounds store].
    destruct (v_conv _ _ _ L i t Hi') as [?|[?|[?|Hc]]]; [auto|right; left; set_solver|auto|].
    destruct (decide (t ∈ (SStore_Set (store c) idx host).2)); [right; left; set_solver|].
    right. right. right. by rewrite SStore_Set_spec.
  - apply (agreed_quiet es c); [done|by intros o ?%elem_of_nil|simpl; lia|done|done].
Qed.

Lemma keeps_report es idx host : ∀ c os,
  cinv es c os → is_Some (streams c !! idx) → cinv es (report idx host c).1 (os ++ (report idx host c).2).
Proof. intros c os Hc Hi. rewrite report_eq. simpl. rewrite app_nil_r. by apply cinv_report. Qed.

Definition added (cancel : bool) (c : connections) : connections :=
  set_streams (<[streamIDx c := cancel]> (streams c)) (set_streamIDx (u64_succ (streamIDx c)) c).

Lemma new_stream_unknown c os : counted c os →
  streams c !! streamIDx c = None ∧ (∀ e, CEnqueue (streamIDx c) e ∉ os) ∧ (∀ err, CClose (streamIDx c) err ∉ os).
Proof.
  intros [_ _ Ko Kf _]. split_and!.
  - apply eq_None_not_Some. intros [? _]%Ko. lia.
  - intros e He. specialize (Kf (streamIDx c)). ospecialize (Kf _); [eauto|lia].
  - intros e He. specialize (Kf (streamIDx c)). ospecialize (Kf _); [eauto|lia].
Qed.

Lemma cinv_added es c os cancel :
  cinv es c os → (streamIDx c + 1 < two64)%N →
  cinv_but (λ i _, i = streamIDx c) es (added cancel c) (os ++ [CStreamNew (streamIDx c)]).
Proof.
  intros [[Sr Sl Ss Sh Sv] K L A] Hlt. destruct (new_stream_unknown c os K) as (Hn & Hne & Hnc).
  assert (Hidx : u64_succ (streamIDx c) = (streamIDx c + 1)%N) by (unfold u64_succ; by apply N.mod_small).
  assert (Hst : ∀ i, is_Some (streams c !! i) → is_Some (streams (added cancel c) !! i)).
  { intros i [b Hi]. simpl. rewrite lookup_insert_ne; [eauto|congruence]. }
  assert (Hsub : rounds_sub es c (added cancel c)) by by apply rounds_sub_eq. split.
  - split; try done.
    + intros s r Hr. destruct (Sr s r Hr) as (? & [? ?] & ? & ? & ?). split_and!; auto.
    + intros i Hi. by apply Hst, Sh.
  - destruct K as [Ks Ki Ko Kf Kp]. split; simpl.
    + rewrite Ks, nseq_app. unfold nseq. simpl. lia.
    + rewrite Hidx, Ki, nidx_app. unfold nidx. simpl. lia.
    + intros i. rewrite Hidx, lookup_insert. destruct (decide (streamIDx c = i)) as [<-|Hne'].
      * split; [|eauto]. intros _. split; [lia|]. intros err [Hin|Hin%list_elem_of_singleton]%elem_of_app; [by apply (Hnc err)|done].
      * rewrite Ko. split; intros [? H]; (split; [lia|]); intros err Hin; apply (H err); set_solver.
    + intros i Hin. rewrite Hidx. assert (i < streamIDx c)%N; [|lia]. apply Kf. set_solver.
    + set_solver.
  - apply (logged_quiet nothing _ es c); [done|done|simpl; lia|simpl; lia|done|].
    intros i t. simpl. rewrite lookup_insert. case_decide as E; [auto|]. intros Hi.
    destruct (v_conv _ _ _ L i t Hi) as [[]|?]; auto.
  - apply (agreed_quiet es c); [done|by intros o ->%list_elem_of_singleton|simpl; lia|done|].
    intros j s ts Hin. simpl. rewrite lookup_insert. case_decide as E; [|done]. subst j. by destruct (Hne _ Hin).
Qed.

(** The types a snapshot carries, and those it skips because they are locked. *)
Definition settled_types (c : connections) : list string := filter (λ t, t ∉ pendingTypes c) (SStore_Types (store c)).
Definition snap_types (c : connections) : list string := filter (λ t, lockedTypes c !! t = None) (settled_types c).
Definition snap_locked (c : connections) : list string := filter (λ t, lockedTypes c !! t ≠ None) (settled_types c).

Definition snapshot_of (c : connections) : EventStream :=
  SendSnapshot (nextSeq c) (versions_of c (snap_types c)) (SStore_Tables (store c) (snap_types c)).

Definition snapped (idx : N) (c : connections) : connections :=
  set_pendingTypes (list_to_set (snap_locked c) ∪ pendingTypes c)
    (set_oneshots (<[nextSeq c := idx]> (oneshots c)) (set_seq (nextSeq c) c)).

Lemma sendSnapshot_eq idx c :
  is_Some (streams c !! idx) → sendSnapshot idx markPending c = (snapped idx c, [CEnqueue idx (snapshot_of c)]).
Proof.
  intros Hi. unfold sendSnapshot, get. rewrite bool_decide_true by done. cbn [negb].
  rewrite seqp_eq. cbn [modify fst snd app]. rewrite !seqp_eq. done.
Qed.

Lemma snapshot_routes c g t :
  default ∅ (lg_tabs (log_next g (snapshot_of c)) !! t) =
    if decide (t ∈ snap_types c) then hosting (store c) t else default ∅ (lg_tabs g !! t).
Proof.
  unfold snapshot_of. cbn [log_next lg_tabs]. rewrite lookup_union, tables_routes.
  case_decide; by destruct (lg_tabs g !! t).
Qed.

(** A type is pending, skipped, in the snapshot, or has no hosts. *)
Lemma snapshot_cases c t :
  t ∈ pendingTypes c ∨ t ∈ snap_locked c ∨ t ∈ snap_types c ∨ (t ∉ snap_types c ∧ hosting (store c) t = ∅).
Proof.
  destruct (decide (t ∈ pendingTypes c)) as [?|Hp]; [auto|]. right.
  unfold snap_types, snap_locked, settled_types. rewrite !list_elem_of_filter, elem_of_Types.
  destruct (lockedTypes c !! t) eqn:El, (decide (hosting (store c) t = ∅)); naive_solver.
Qed.

Lemma cinv_snapped es c os idx :
  cinv_but (λ i _, i = idx) es c os → (seq c + 1 < two64)%N → is_Some (streams c !! idx) →
  log_of idx os = [] → cinv es (snapped idx c) (os ++ [CEnqueue idx (snapshot_of c)]).
Proof.
  intros [[Sr Sl Ss Sh Sv] K L A] Hlt Hi Hlog.
  assert (Hn : nextSeq c = (seq c + 1)%N) by (unfold nextSeq, u64_succ; by apply N.mod_small).
  assert (Hsub : rounds_sub es c (snapped idx c)) by by apply rounds_sub_eq. split.
  - split; simpl; rewrite ?Hn; try done; [|intros t; specialize (Sv t); lia].
    intros s r Hr. destruct (Sr s r Hr) as (? & [? ?] & ? & ? & ?). split_and!; try done; lia.
  - apply (counted_emit c); [done..|simpl; rewrite Hn; reflexivity|done| | |set_solver].
    + intros i e ?%list_elem_of_singleton. naive_solver.
    + set_solver.
  - eapply (logged_send _ nothing c _ _ _ {[ idx ]} (snapshot_of c)); [done| | | | | | | |].
    + intros i. unfold log_of. cbn [omap list_omap]. destruct (decide (idx = i)) as [->|Hne];
        [rewrite decide_True|rewrite decide_False]; set_solver.
    + intros i _. simpl. rewrite Hn. destruct (v_good _ _ _ L i). split_and!; [lia|by eapply no_regression_versions_of|done].
    + simpl. rewrite Hn. lia.
    + intros i _. simpl. lia.
    + simpl. lia.
    + intros i t v _. simpl. by eapply versions_of_logged.
    + intros i s r Hr Him. pose proof (v_sent _ _ _ L i s r Hr Him). destruct (decide (i ∈ _)); [|done].
      destruct (Sr s r Hr) as (_ & ? & _). simpl. rewrite Hn. case_decide; [set_solver|].
      apply elem_of_difference. split; [set_solver|]. rewrite elem_of_singleton. lia.
    + intros i t Hi'. cbn [snapped set_pendingTypes set_oneshots set_seq pendingTypes rounds store].
      destruct (decide (i = idx)) as [->|Hne].
      * rewrite (decide_True (P := idx ∈ _)) by set_solver. rewrite snapshot_routes.
        destruct (snapshot_cases c t) as [?|[?|[Ht|[Ht ->]]]]; [right; left; set_solver..| |].
        { right. right. right. by rewrite decide_True. }
        { right. right. right. rewrite decide_False by done. unfold lg. by rewrite Hlog. }
      * rewrite decide_False by set_solver.
        destruct (v_conv _ _ _ L i t Hi') as [?|[?|?]]; [done|right; left; set_solver|auto].
  - apply (agreed_quiet es c); [done|by intros o ->%list_elem_of_singleton|simpl; rewrite Hn; lia|done|done].
Qed.

Lemma keeps_handleAdd es cancel Initial : keeps es (handleAdd cancel Initial).
Proof.
  intros c os Hc Hf. unfold handleAdd, get in *. rewrite !seqp_eq in *. cbn [modify emit fst snd app] in *.
  change (set_streams _ _) with (added cancel c) in *. rewrite report_eq in *. cbn [fst snd app] in *.
  set (c1 := reported (streamIDx c) Initial (added cancel c)) in *.
  assert (Hi : is_Some (streams c1 !! streamIDx c)) by (simpl; rewrite lookup_insert_eq; eauto).
  rewrite (sendSnapshot_eq _ c1 Hi) in *. cbn [fst snd app] in *.
  assert (Hfit : (streamIDx c + 1 < two64 ∧ seq c1 + 1 < two64)%N).
  { destruct Hc as [_ [Ks Ki _ _ _] _ _]. change (seq c1) with (seq c). revert Hf. unfold fits.
    rewrite nseq_app, nidx_app, !nseq_cons, !nidx_cons, Ks, Ki. simpl. lia. }
  destruct Hfit as [Hlt1 Hlt2]. destruct (new_stream_unknown c os (v_counted _ _ _ _ Hc)) as (_ & Hne & _).
  apply (cinv_then _ _ os [_; _]); [|apply keeps_maybeDisseminate|done].
  rewrite (cons_middle _ os). rewrite app_assoc. apply cinv_snapped; [|done|done|].
  - apply cinv_report; [by apply cinv_added|simpl; rewrite lookup_insert_eq; eauto].
  - rewrite log_of_app. rewrite (log_of_none _ os) by done. done.
Qed.

Lemma keeps_handleReportedTypes es idx host : keeps es (handleReportedTypes idx host).
Proof.
  intros c os Hc Hf. unfold handleReportedTypes, get in *. case_bool_decide as Hi; [|by apply keeps_skip].
  cbn [negb] in *. rewrite seqp_eq in *. cbn [fst snd] in *.
  apply cinv_then; [by apply keeps_report|apply keeps_maybeDisseminate|done].
Qed.

Lemma keeps_handleCloseStream es idx err : keeps es (handleCloseStream idx err).
Proof.
  apply keeps_get. intros c. apply keeps_seqp; [apply keeps_removeStream|]. apply keeps_seqp; [apply keeps_advanceRounds|].
  apply keeps_seqp; [apply keeps_maybeDisseminate|]. apply keeps_get. intros c'. apply keeps_when, keeps_plain.
  by intros o ->%list_elem_of_singleton.
Qed.

(** ** Timeouts *)

Lemma removeStream_rounds idx err c sq :
  is_Some (rounds c !! sq) → is_Some (rounds (removeStream idx err c).1 !! sq).
Proof.
  intros Hr. destruct (streams c !! idx) as [b|] eqn:Hi.
  - rewrite removeStream_eq with (b := b) by done. simpl. unfold clear_pending.
    destruct (_ =? 0); simpl; by rewrite lookup_fmap, fmap_is_Some.
  - unfold removeStream, get. by rewrite Hi.
Qed.

Lemma cinv_evict es sq idxs ack err (k : list N → c_handler) :
  (∀ aff c os, cinv es c os → is_Some (rounds c !! sq) → fits (os ++ (k aff c).2) →
     cinv es (k aff c).1 (os ++ (k aff c).2)) →
  ∀ aff c os, cinv es c os → is_Some (rounds c !! sq) → fits (os ++ (evict idxs ack err aff k c).2) →
    cinv es (evict idxs ack err aff k c).1 (os ++ (evict idxs ack err aff k c).2).
Proof.
  intros Hk. induction idxs as [|idx idxs IH]; intros aff c os Hc Hr Hf; cbn [evict] in *; [by apply Hk|].
  case_bool_decide; [by apply IH|]. unfold get in *. rewrite seqp_eq in *. cbn [fst snd] in *. rewrite app_assoc in *.
  apply IH; [|by apply removeStream_rounds|done]. apply keeps_removeStream; [done|]. by eapply fits_app.
Qed.

(** The UNLOCK that ends an aborted round. *)
Lemma cinv_aborted es c os sq r :
  cinv es c os → rounds c !! sq = Some r → RoundTimeout sq ∈ es →
  cinv_but (λ i t, t ∈ r_types r) es (dropped sq (r_types r) c) (os ++ os_moved r (SendUnlock sq (r_types r))).
Proof.
  intros Hc Hr Hto. pose proof (cinv_dropped _ _ _ _ _ _ Hc Hr) as [S K L A]. destruct Hc as [S0 _ L0 _].
  split; [done| | |].
  - apply (counted_emit (dropped sq (r_types r) c)); [done..| | | | |].
    + unfold os_moved. rewrite nseq_broadcast by done. symmetry. apply N.add_0_r.
    + apply nidx_broadcast.
    + intros i e (j & [= -> _] & Hj%elem_of_elements)%elem_of_broadcast. by apply (v_round c S0 sq r Hr).
    + intros i err [j ?]%moved_enqueued. done.
    + intros [j ?]%moved_enqueued. done.
  - eapply logged_send; [exact L|apply moved_log_of|..].
    + intros i Hi. simpl. pose proof (v_sent _ _ _ L0 i sq r Hr Hi). case_decide; set_solver.
    + lia.
    + intros i _. simpl. apply (v_good _ _ _ L0).
    + intros t. lia.
    + intros i t v _. simpl. apply (v_vers _ _ _ L0).
    + intros i s r' Hr' Hi. pose proof (v_sent _ _ _ L i s r' Hr' Hi). simpl in Hr'.
      apply lookup_delete_Some in Hr' as [Hne _]. destruct (decide (i ∈ members r)); [|done].
      simpl. case_decide; set_solver.
    + intros i t Hi. destruct (v_conv _ _ _ L i t Hi) as [[[]|[? _]]|[?|[?|?]]]; [auto..|].
      right. right. right. by destruct (decide (i ∈ members r)).
  - split.
    + intros s j ts [Hin|[i [=]]%moved_enqueued]%elem_of_app. by apply (v_lock _ _ _ A s j ts).
    + apply (v_ack _ _ _ A).
    + intros os1 i s ts vs tb os2 [[k ->]|(k & -> & Ek)]%trace_split; [by eapply (v_upd _ _ _ A)|].
      assert (Hin : CEnqueue i (SendUpdate s ts vs tb) ∈ os_moved r (SendUnlock sq (r_types r))) by (rewrite Ek; apply elem_of_mid).
      by apply moved_enqueued in Hin as [j [=]].
    + intros os1 i s ts os2 [[k ->]|(k & -> & Ek)]%trace_split; [by eapply (v_unl _ _ _ A)|].
      assert (Hin : CEnqueue i (SendUnlock s ts) ∈ os_moved r (SendUnlock sq (r_types r))) by (rewrite Ek; apply elem_of_mid).
      apply moved_enqueued in Hin as [j [= _ -> _]]. auto.
Qed.

Lemma cinv_abort_round es c os sq r aff :
  cinv es c os → rounds c !! sq = Some r → RoundTimeout sq ∈ es → fits (os ++ (abort_round sq r aff c).2) →
  cinv es (abort_round sq r aff c).1 (os ++ (abort_round sq r aff c).2).
Proof.
  intros Hc Hr Hto Hf. pose proof (cinv_aborted es c os sq r Hc Hr Hto) as Ha.
  unfold abort_round in *. rewrite !seqp_eq in *. cbn [modify fst snd app] in *.
  change (set_lockedTypes _ _) with (dropped sq (r_types r) c) in *. unfold get in *. rewrite !seqp_eq in *.
  cbn [emit fst snd app] in *.
  assert (Hfil : filter (λ idx, is_Some (streams (dropped sq (r_types r) c) !! idx)) (elements (members r)) = elements (members r)).
  { apply filter_true. intros i Hi%elem_of_elements. by apply (v_round c (v_shape _ _ _ _ Hc) sq r Hr). }
  rewrite Hfil in *. clear Hfil. fold (os_moved r (SendUnlock sq (r_types r))) in *.
  set (c1 := (when _ _ _).1) in *. set (o1 := (when _ _ _).2) in *.
  assert (Hc1 : cinv es c1 (os ++ os_moved r (SendUnlock sq (r_types r))) ∧ o1 = []).
  { unfold c1, o1, when. destruct (size (streams (dropped sq (r_types r) c)) =? 0) eqn:Hz; simpl; (split; [|done]).
    - apply Nat.eqb_eq, map_size_empty_iff in Hz. eapply cinv_weaken; [done|]. intros i t Hi.
      rewrite Hz, lookup_empty in Hi. by destruct Hi.
    - rewrite <-(app_nil_r (os ++ _)). eapply cinv_weaken.
      + eapply cinv_frame; [done|by intros o ?%elem_of_nil|done..|left; simpl; set_solver].
      + intros i t _ Ht. right. simpl. set_solver. }
  destruct Hc1 as [Hc1 Ho1]. rewrite Ho1 in *. cbn [app] in *.
  pose proof (cinv_then es c1 os _ _ Hc1 (keeps_seqp _ _ _ (keeps_advanceRounds es aff) (keeps_maybeDisseminate es))) as H.
  rewrite seqp_eq in H. by apply H.
Qed.

Lemma keeps_handleTimeout es sq : RoundTimeout sq ∈ es → keeps es (handleTimeout sq).
Proof.
  intros Hto c os Hc Hf. unfold handleTimeout, get in *. destruct (rounds c !! sq) as [r|] eqn:Hr; [|by apply keeps_skip].
  apply (cinv_evict es sq); [|done|by rewrite Hr|done]. intros aff c' os' Hc' [r' Hr'] Hf'. unfold get in *.
  rewrite Hr' in *. by apply cinv_abort_round.
Qed.

(** ** Shutdown *)

Definition plain_or_close (o : c_output) : bool := match o with CClose _ _ => true | _ => plain o end.

Lemma plain_or_close_list os' :
  (∀ o, o ∈ os' → plain_or_close o = true) →
  nseq os' = 0 ∧ nidx os' = 0 ∧ (∀ i, log_of i os' = []) ∧ (∀ i e, CEnqueue i e ∉ os') ∧
  CPanic ∉ os' ∧ (∀ o, o ∈ os' → round_order o = false).
Proof.
  intros H. induction os' as [|o os' IH].
  { split_and!; try done; try set_solver. }
  destruct IH as (? & ? & ? & ? & ? & ?); [set_solver|]. specialize (H o ltac:(left)). rewrite nseq_cons, nidx_cons.
  destruct o; try discriminate H; split_and!; try set_solver; try done; simpl; lia.
Qed.

(** All streams are closed and the state is cleared. *)
Lemma cinv_cleared X es c c' os os' :
  cinv_but X es c os → (∀ o, o ∈ os' → plain_or_close o = true) →
  (∀ i, is_Some (streams c !! i) ↔ ∃ err, CClose i err ∈ os') →
  streams c' = ∅ → streamIDx c' = streamIDx c → s_hosts (store c') = ∅ → versions c' = versions c →
  seq c' = seq c → rounds c' = ∅ → lockedTypes c' = ∅ →
  cinv_but X es c' (os ++ os').
Proof.
  intros [[Sr Sl Ss Sh Sv] K L A] (Q1 & Q2 & Q3 & Q4 & Q5 & Q6)%plain_or_close_list Hcl E1 E2 E3 E4 E5 E6 E7.
  assert (Hsub : rounds_sub es c c') by (intros s r'; by rewrite E6, lookup_empty). split.
  - split; unfold sched_wf; rewrite ?E1, ?E3, ?E4, ?E5, ?E6, ?E7; try done.
    + intros t s. rewrite lookup_empty. split; [done|]. intros (r & Hr & _). by rewrite lookup_empty in Hr.
    + intros i [h Hh]. by rewrite lookup_empty in Hh.
  - destruct K as [Ks Ki Ko Kf Kp]. split; rewrite ?E2, ?E5.
    + rewrite nseq_app. lia.
    + rewrite nidx_app. lia.
    + intros i. rewrite E1, lookup_empty. split; [by intros []|]. intros [Hlt H].
      destruct (Hcl i) as [Hc _]. destruct Hc as [err Herr]; [|destruct (H err); set_solver].
      apply Ko. split; [done|]. intros err Hin. apply (H err). set_solver.
    + intros i [[e [Hin|Hin]%elem_of_app]|[err [Hin|Hin]%elem_of_app]]; [apply Kf; eauto|by destruct (Q4 i e)|apply Kf; eauto|].
      apply Ko, Hcl. eauto.
    + set_solver.
  - apply (logged_quiet X X es c); [done|done|lia|intros t; rewrite E4; lia|done|]. intros i t [b Hi].
    by rewrite E1, lookup_empty in Hi.
  - apply (agreed_quiet es c); [done|done|lia|done|]. intros j s ts _ [b Hj]. by rewrite E1, lookup_empty in Hj.
Qed.

Lemma close_loop_eq err l (c : connections) :
  for_each l (λ kv : N * bool, when kv.2 (emit [CCancel kv.1 err]) ;;; emit [CClose kv.1 err]) c =
    (c, l ≫= λ kv : N * bool, (if kv.2 then [CCancel kv.1 err] else []) ++ [CClose kv.1 err]).
Proof.
  induction l as [|[i b] l IH]; [done|]. cbn [for_each]. rewrite !seqp_eq. cbn [fst snd emit].
  assert (when b (emit [CCancel i err]) c = (c, if b then [CCancel i err] else [])) as -> by by destruct b.
  cbn [fst snd]. rewrite IH. cbn [fst snd]. rewrite bind_cons. done.
Qed.

Lemma elem_of_close_loop o err (m : gmap N bool) :
  o ∈ (map_to_list m ≫= λ kv : N * bool, (if kv.2 then [CCancel kv.1 err] else []) ++ [CClose kv.1 err]) ↔
    ∃ i b, m !! i = Some b ∧ (o = CClose i err ∨ (b = true ∧ o = CCancel i err)).
Proof.
  rewrite list_elem_of_bind. split.
  - intros ([i b] & Ho & Hi%elem_of_map_to_list). exists i, b. split; [done|]. simpl in Ho. destruct b; set_solver.
  - intros (i & b & Hi & Ho). exists (i, b). rewrite elem_of_map_to_list. split; [|done]. simpl. destruct b; set_solver.
Qed.

Lemma keeps_handleShutdown es err : keeps es (handleShutdown err).
Proof.
  apply keeps_seqp; [apply keeps_stopCoalesceTimer|]. intros c os Hc Hf. unfold get. rewrite !seqp_eq.
  cbn [emit modify fst snd app] in *. rewrite close_loop_eq. cbn [fst snd].
  apply (cinv_cleared _ _ c); try done.
  - intros o [(i & b & _ & [->|[_ ->]])%elem_of_close_loop| ->%list_elem_of_singleton]%elem_of_app; done.
  - intros i. split.
    + intros [b Hi]. exists err. apply elem_of_app. left. apply elem_of_close_loop. eauto.
    + intros [err' [(j & b & Hj & [[= -> _]|[_ [=]]])%elem_of_close_loop|[=]%list_elem_of_singleton]%elem_of_app]. eauto.
Qed.

(** ** Every event *)

Lemma keeps_c_Handle es e : e ∈ es → keeps es (c_Handle e).
Proof.
  intros He. destruct e; cbn [c_Handle].
  - apply keeps_handleAdd.
  - apply keeps_handleReportedTypes.
  - by apply keeps_handleAck.
  - apply keeps_handleCloseStream.
  - by apply keeps_handleTimeout.
  - apply keeps_seqp; [apply keeps_set_coalesceTimer|apply keeps_maybeDisseminate].
  - apply keeps_handleShutdown.
Qed.

Lemma cinv_init timeout window : cinv [] (conns_New timeout window) [].
Proof.
  split.
  - split; simpl; try done; [|intros t; by rewrite lookup_empty].
    intros t s. rewrite lookup_empty. split; [done|]. intros (r & Hr & _). by rewrite lookup_empty in Hr.
  - split; simpl; try done; [|set_solver|set_solver]. intros i. rewrite lookup_empty. split; [by intros []|lia].
  - split; simpl; try done; [by intros i t []|]. intros i. split; [|done]. intros l1 e l2 E. by destruct l1.
  - split; simpl; try done; [set_solver|intros [|??]; done..].
Qed.

Lemma cinv_run es0 es c os :
  cinv es0 c os → fits (os ++ (run c_Handle es c).2) →
  cinv (es0 ++ es) (run c_Handle es c).1 (os ++ (run c_Handle es c).2).
Proof.
  revert es0 c os; induction es as [|e es IH]; intros es0 c os Hc Hf; cbn [run] in *.
  { simpl. by rewrite !app_nil_r. }
  rewrite seqp_eq in *. cbn [fst snd] in *. rewrite app_assoc in *. rewrite (cons_middle e es0 es), app_assoc.
  apply IH; [|done]. eapply (keeps_c_Handle (es0 ++ [e]) e); [set_solver| |by eapply fits_app].
  eapply cinv_events; [|done]. set_solver.
Qed.

(** A namespace's loop after the events [es]. *)
Definition conns_run (timeout window : Z) (es : list EventConnections) : connections * list c_output :=
  run c_Handle es (conns_New timeout window).

Lemma conns_run_inv timeout window es :
  fits (conns_run timeout window es).2 →
  cinv es (conns_run timeout window es).1 (conns_run timeout window es).2.
Proof. intros Hf. exact (cinv_run [] es _ [] (cinv_init timeout window) Hf). Qed.
