(* ===== verification/SchedulerStream.v ===== *)
(** * The per-connection stream loop of the scheduler's placement
      (pkg/scheduler/server/internal/placement: loops/stream/stream.go,
       authorizer/authorizer.go)

    A stream loop sends the orders of its namespace's loop to one sidecar and
    turns the messages it receives into events.  The gRPC channel is a
    parameter: [Send k o] is the error of the [k]-th call of [Send], and the
    results of [Recv] are the arguments of [recvLoop]. *)

From S2P Require Import Prelude GoLib Inflight HostAuthz SchedulerStore SchedulerConnections.
#[local] Open Scope dapr_scope.

(** ** Messages (pkg/proto/scheduler/v1) *)

Record PlacementOrder := mkPlacementOrder {
  so_Operation : Operation;
  so_Namespace : string;
  so_Seq : N;
  so_ActorTypes : list string;
  so_Versions : gmap string N;
  so_Tables : option V2Tables
}.

(** [ReportActorTypesRequest]: the cases of its oneof; a nil report is [None]. *)
Inductive ReportActorTypesRequest :=
  | Request_Report (r : option ActorHost)
  | Request_Ack (op : Operation) (seq : N)
  | Request_None.

(** ** Authorizer *)

Definition Host (caller : option (option SpiffeID)) (msg : option ActorHost) : option authz_error :=
  match msg with
  | None => Some (InvalidArgument "received nil host report")
  | Some h =>
      if (String.length (ah_Address h) =? 0) || (String.length (ah_AppId h) =? 0) ||
         (String.length (ah_Namespace h) =? 0)
      then Some (InvalidArgument "host address, app ID and namespace must be provided")
      else Authorize caller {| AppID := ah_AppId h; r_Namespace := ah_Namespace h; ActorTypes := ah_ActorTypes h |}
  end.

(** ** State *)

Inductive stream_error :=
  | ErrSend (e : string)
  | ErrRecv (e : string)
  | ErrAuthz (e : authz_error)
  | ErrNamespace (reported expected : string)
  | ErrUnknownMessage
  | ErrClose (e : close_error).

(** [st_calls] counts the calls of [channel.Send]; [st_closed] is [closeOnce]. *)
Record stream := mkStream { st_idx : N; st_ns : string; st_calls : nat; st_closed : bool }.

Definition stream_New (idx : N) (Initial : ActorHost) : stream :=
  {| st_idx := idx; st_ns := ah_Namespace Initial; st_calls := 0; st_closed := false |}.

(** Events a stream loop is sent. *)
Inductive stream_event := SEv (e : EventStream) | StreamShutdown (err : close_error).

Inductive stream_output :=
  | SSend (o : PlacementOrder)
  | SCancel (err : stream_error)
  | SReported (idx : N) (host : ActorHost)
  | SAck (idx : N) (ns : string) (op : Operation) (seq : N)
  | SClosed (idx : N) (ns : string) (err : stream_error).

Definition stream_handler := prog stream stream_output.

Definition closeStream (err : stream_error) : stream_handler :=
  with s do
  if st_closed s then skip
  else modify (λ s, mkStream (st_idx s) (st_ns s) (st_calls s) true) ;;;
       emit [SClosed (st_idx s) (st_ns s) err].

Section stream_loop.
Variable Send : nat → PlacementOrder → option string.

(** ** Sending *)

(** A handler with an error result: its state, outputs and error. *)
Definition sending : Type := stream → stream * list stream_output * option stream_error.

Definition send (op : Operation) (seq : N) (types : list string) (versions : gmap string N)
    (tables : option V2Tables) : sending := λ s,
  let o := mkPlacementOrder op (st_ns s) seq types versions tables in
  (mkStream (st_idx s) (st_ns s) (S (st_calls s)) (st_closed s), [SSend o], ErrSend <$> Send (st_calls s) o).

(** [if err := c1; err != nil { return err }; c2] *)
Definition and_then (c1 c2 : sending) : sending := λ s,
  let '(s1, o1, e1) := c1 s in
  match e1 with
  | Some err => (s1, o1, Some err)
  | None => let '(s2, o2, e2) := c2 s1 in (s2, o1 ++ o2, e2)
  end.

Definition sendSnapshot (seq : N) (versions : gmap string N) (tables : V2Tables) : sending :=
  and_then (send OPERATION_LOCK seq [] ∅ None)
    (and_then (send OPERATION_UPDATE seq [] versions (Some tables))
      (send OPERATION_UNLOCK seq [] ∅ None)).

Definition handleShutdown (err : close_error) : sending := λ s, (s, [SCancel (ErrClose err)], None).

Definition stream_Handle (event : stream_event) : stream_handler := λ s,
  let '(s', os, err) :=
    match event with
    | SEv (SendLock seq types) => send OPERATION_LOCK seq types ∅ None s
    | SEv (SendUpdate seq types versions tables) => send OPERATION_UPDATE seq types versions (Some tables) s
    | SEv (SendUnlock seq types) => send OPERATION_UNLOCK seq types ∅ None s
    | SEv (SendSnapshot seq versions tables) => sendSnapshot seq versions tables s
    | StreamShutdown err => handleShutdown err s
    end in
  match err with
  | Some e => let '(s'', os') := closeStream e s' in (s'', os ++ os')
  | None => (s', os)
  end.

End stream_loop.

(** ** Receiving *)

Section receiving.
Variable caller : option (option SpiffeID).

(** What one [recv] enqueues, or the error it returns. *)
Definition recv (s : stream) (resp : string + ReportActorTypesRequest) : stream_error + stream_output :=
  match resp with
  | inl e => inl (ErrRecv e)
  | inr (Request_Report r) =>
      match Host caller r with
      | Some e => inl (ErrAuthz e)
      | None =>
          match r with
          | Some h =>
              if bool_decide (ah_Namespace h = st_ns s) then inr (SReported (st_idx s) h)
              else inl (ErrNamespace (ah_Namespace h) (st_ns s))
          | None => inl ErrUnknownMessage
          end
      end
  | inr (Request_Ack op seq) => inr (SAck (st_idx s) (st_ns s) op seq)
  | inr Request_None => inl ErrUnknownMessage
  end.

(** [recvLoop] on the successive results of [channel.Recv], followed by the
    [closeStream] of the goroutine when it returns. *)
Fixpoint recvLoop (resps : list (string + ReportActorTypesRequest)) : stream_handler :=
  match resps with
  | [] => skip
  | resp :: resps' =>
      with s do
      match recv s resp with
      | inl err => closeStream err
      | inr o => emit [o] ;;; recvLoop resps'
      end
  end.

End receiving.
