(* ===== verification/Transports.v ===== *)
(** * The sidecar's transports and stream loop
      (pkg/actors/internal/placement/loops/stream: stream.go, recv.go,
       transport/transport.go, transport/v1/v1.go, transport/v2/v2.go;
       the receiving side of pkg/placement/internal/loops/stream/recv.go)

    A transport translates between the protocol-neutral orders, reports and
    acks of the sidecar's loops and the messages of the placement service (v1)
    or of the scheduler (v2).  [Transport] is the interface; the results of the
    gRPC calls are arguments. *)

From stdpp Require Import pretty.
From Stdlib Require Import Ascii.
From S2P Require Import Prelude GoLib PlacementDisseminator PlacementStream SchedulerStream.
From S2P Require Import Inflight HostAuthz PlacementStore SidecarDisseminator SchedulerStore SchedulerConnections.
#[local] Open Scope dapr_scope.

(** ** strconv.ParseUint *)

Definition digit (c : ascii) : option N :=
  let n := N_of_ascii c in
  if (48 <=? n)%N && (n <=? 57)%N then Some (n - 48)%N else None.

Definition max_u64 : N := (two64 - 1)%N.

(** The loop of [ParseUint(s, 10, 64)], without its error: 0 for a syntax error,
    the largest value when the number does not fit. *)
Fixpoint parse_loop (n : N) (s : string) : N :=
  match s with
  | EmptyString => n
  | String c s' =>
      match digit c with
      | None => 0%N
      | Some d =>
          if (max_u64 / 10 + 1 <=? n)%N then max_u64
          else if (max_u64 <? n * 10 + d)%N then max_u64
          else parse_loop (n * 10 + d) s'
      end
  end.

Definition ParseUint (s : string) : N := parse_loop 0 s.

(** ** The interface *)

Inductive transport_error :=
  | TErr (e : string)
  | TUnknownOperation (op : string)
  | TUnknownAck.

Record Ack := mkAck { ack_Op : OrderOp; ack_Version : N }.

(** [In] are the messages received from the server, [Out] those sent to it. *)
Class Transport (In Out : Type) := {
  Recv : string + In → transport_error + Order;
  SendReport : HostReport → Out;
  SendAck : Ack → transport_error + Out
}.

(** ** v2 *)

Definition v2_Recv (resp : string + SchedulerStream.PlacementOrder) : transport_error + Order :=
  match resp with
  | inl e => inl (TErr e)
  | inr o =>
      let order op := {| Op := op; o_Version := SchedulerStream.so_Seq o; Scope := SchedulerStream.so_ActorTypes o;
                         Versions := SchedulerStream.so_Versions o; V1Tables := None;
                         o_V2Tables := SchedulerStream.so_Tables o |} in
      match SchedulerStream.so_Operation o with
      | OPERATION_LOCK => inr (order OrderLock)
      | OPERATION_UPDATE => inr (order OrderUpdate)
      | OPERATION_UNLOCK => inr (order OrderUnlock)
      | OPERATION_UNSPECIFIED => inl (TUnknownOperation "OPERATION_UNSPECIFIED")
      end
  end.

Definition v2_SendReport (report : HostReport) : SchedulerStream.ReportActorTypesRequest :=
  SchedulerStream.Request_Report (Some {| ah_Address := hr_Address report; ah_AppId := hr_AppID report;
    ah_Namespace := hr_Namespace report; ah_ActorTypes := hr_ActorTypes report |}).

Definition v2_SendAck (ack : Ack) : transport_error + SchedulerStream.ReportActorTypesRequest :=
  match ack_Op ack with
  | OrderLock => inr (SchedulerStream.Request_Ack OPERATION_LOCK (ack_Version ack))
  | OrderUpdate => inr (SchedulerStream.Request_Ack OPERATION_UPDATE (ack_Version ack))
  | OrderUnlock => inr (SchedulerStream.Request_Ack OPERATION_UNLOCK (ack_Version ack))
  | OrderUnknown => inl TUnknownAck
  end.

#[export] Instance v2_transport : Transport SchedulerStream.PlacementOrder SchedulerStream.ReportActorTypesRequest :=
  {| Recv := v2_Recv; SendReport := v2_SendReport; SendAck := v2_SendAck |}.

(** ** v1 *)

Definition operationLock : string := "lock".
Definition operationUpdate : string := "update".
Definition operationUnlock : string := "unlock".

Definition apiLevel : N := 20.

Definition v1_Recv (resp : string + PlacementStream.PlacementOrder) : transport_error + Order :=
  match resp with
  | inl e => inl (TErr e)
  | inr o =>
      let ver := PlacementStream.po_Version o in
      let version :=
        if (0 <? ver)%N then ver
        else ParseUint (from_option pt_Version EmptyString (PlacementStream.po_Tables o)) in
      let order op tables := {| Op := op; o_Version := version; Scope := []; Versions := ∅;
                                V1Tables := tables; o_V2Tables := None |} in
      let op := PlacementStream.po_Operation o in
      if String.eqb op operationLock then inr (order OrderLock None)
      else if String.eqb op operationUpdate then inr (order OrderUpdate (PlacementStream.po_Tables o))
      else if String.eqb op operationUnlock then inr (order OrderUnlock None)
      else inl (TUnknownOperation op)
  end.

Definition v1_SendReport (report : HostReport) : Host :=
  {| Name := hr_Address report; Port := 0; Load := 0; Entities := hr_ActorTypes report; Id := hr_AppID report;
     Pod := EmptyString; ApiLevel := apiLevel; Namespace := hr_Namespace report;
     PlacementStore.Operation := REPORT; Version := None |}.

(** [v.appID] and [v.namespace] are arguments. *)
Definition v1_SendAck (appID ns : string) (ack : Ack) : transport_error + Host :=
  let host op := {| Name := EmptyString; Port := 0; Load := 0; Entities := []; Id := appID; Pod := EmptyString;
                    ApiLevel := 0; Namespace := ns; PlacementStore.Operation := op;
                    Version := Some (ack_Version ack) |} in
  match ack_Op ack with
  | OrderLock => inr (host LOCK)
  | OrderUpdate => inr (host UPDATE)
  | OrderUnlock => inr (host UNLOCK)
  | OrderUnknown => inl TUnknownAck
  end.

Definition v1_transport (appID ns : string) : Transport PlacementStream.PlacementOrder Host :=
  {| Recv := v1_Recv; SendReport := v1_SendReport; SendAck := v1_SendAck appID ns |}.

(** ** The sidecar's stream loop *)

(** [StreamSend] carries a report or an ack. *)
Inductive EventStream :=
  | StreamSend (m : HostReport + Ack)
  | Shutdown (err : string).

Inductive sc_output {Out : Type} :=
  | OSend (m : Out)
  | OCloseSend
  | OCancel
  | OStreamOrder (idx : N) (o : Order)
  | OConnCloseStream (idx : N) (err : transport_error).
Arguments sc_output : clear implicits.

(** [cancel] is whether the stream has a cancel function; [sent] counts the
    calls of the channel's [Send]. *)
Record sc_stream := mkScStream { sc_idx : N; sc_cancel : bool; sent : nat }.

Section sc_stream.
Context {In Out : Type} `{T : Transport In Out}.
Variable Send : nat → Out → option string.

Definition sc_handler := prog sc_stream (sc_output Out).

(** A call of [channel.Send], and what the loop does with its error. *)
Definition channel_Send (m : Out) : sc_handler :=
  with s do
  modify (λ s, mkScStream (sc_idx s) (sc_cancel s) (S (sent s))) ;;;
  emit [OSend m] ;;;
  match Send (sent s) m with
  | Some e => emit [OConnCloseStream (sc_idx s) (TErr e)]
  | None => skip
  end.

Definition handleSend (m : HostReport + Ack) : sc_handler :=
  match m with
  | inl report => channel_Send (SendReport report)
  | inr ack =>
      match SendAck ack with
      | inr out => channel_Send out
      | inl e => with s do emit [OConnCloseStream (sc_idx s) e]
      end
  end.

Definition sc_handleShutdown : sc_handler :=
  with s do emit (OCloseSend :: if sc_cancel s then [OCancel] else []).

Definition sc_Handle (event : EventStream) : sc_handler :=
  match event with
  | StreamSend m => handleSend m
  | Shutdown _ => sc_handleShutdown
  end.

(** [recvLoop] on the successive results of the channel, and the
    [ConnCloseStream] of the goroutine when it returns. *)
Fixpoint sc_recvLoop (resps : list (string + In)) : sc_handler :=
  match resps with
  | [] => skip
  | resp :: resps' =>
      with s do
      match Recv resp with
      | inl err => emit [OConnCloseStream (sc_idx s) err]
      | inr o => emit [OStreamOrder (sc_idx s) o] ;;; sc_recvLoop resps'
      end
  end.

End sc_stream.

(** ** The placement service's receiving side *)

(** One [recv]: the host it enqueues for stream [idx], or its error. *)
Definition placement_recv (caller : option (option SpiffeID)) (idx : N) (resp : string + Host)
    : (string + authz_error) + (N * Host) :=
  match resp with
  | inl e => inl (inl e)
  | inr h =>
      match Authorizer_Host caller (Some h) with
      | Some e => inl (inr e)
      | None => inr (idx, h)
      end
  end.

(** ** Lemmas *)

Lemma digit_pretty x : (x < 10)%N → digit (pretty_N_char x) = Some x.
Proof.
  intros Hx. assert (x = 0 ∨ x = 1 ∨ x = 2 ∨ x = 3 ∨ x = 4 ∨ x = 5 ∨ x = 6 ∨ x = 7 ∨ x = 8 ∨ x = 9)%N as H by lia.
  repeat destruct H as [->|H]; [reflexivity..|]. by subst x.
Qed.

Lemma parse_pretty_go x s : (x < two64)%N → parse_loop 0 (pretty_N_go x s) = parse_loop x s.
Proof.
  revert s. induction (N.lt_wf_0 x) as [x _ IH]; intros s Hx.
  destruct (decide (x = 0)%N) as [->|Hne]; [by rewrite pretty_N_go_0|].
  rewrite pretty_N_go_step by lia.
  assert (Hdiv : (x / 10 < x)%N) by (apply N.div_lt; lia).
  pose proof (N.div_mod x 10 ltac:(lia)) as Hdm. pose proof (N.mod_lt x 10 ltac:(lia)) as Hm.
  rewrite IH by lia. cbn [parse_loop]. rewrite digit_pretty by done.
  change max_u64 with 18446744073709551615%N. unfold two64 in Hx.
  clear IH Hne Hdiv. generalize dependent (x / 10)%N. generalize dependent (x mod 10)%N. intros m Hm q Hdm.
  destruct (N.leb_spec (18446744073709551615 / 10 + 1) q) as [Hb|_].
  { change (18446744073709551615 / 10 + 1)%N with 1844674407370955162%N in Hb. exfalso. lia. }
  destruct (N.ltb_spec 18446744073709551615 (q * 10 + m)) as [Hb|_]; [exfalso; lia|]. f_equal. lia.
Qed.

Lemma ParseUint_pretty n : (n < two64)%N → ParseUint (pretty n) = n.
Proof.
  intros Hn. unfold ParseUint, pretty, pretty_N. case_decide as E; [by subst|].
  by rewrite parse_pretty_go by done.
Qed.

(** ** Round trips *)

(** The orders a scheduler event means to the sidecar. *)
Definition order_lock (s : N) (ts : list string) : Order := mkOrder OrderLock s ts ∅ None None.
Definition order_update (s : N) (ts : list string) (vs : gmap string N) (tb : V2Tables) : Order :=
  mkOrder OrderUpdate s ts vs None (Some tb).
Definition order_unlock (s : N) (ts : list string) : Order := mkOrder OrderUnlock s ts ∅ None None.

Definition orders_of (e : SchedulerConnections.EventStream) : list Order :=
  match e with
  | SendLock s ts => [order_lock s ts]
  | SendUpdate s ts vs tb => [order_update s ts vs tb]
  | SendUnlock s ts => [order_unlock s ts]
  | SendSnapshot s vs tb => [order_lock s []; order_update s [] vs tb; order_unlock s []]
  end.

(** The messages a scheduler stream loop put on the wire. *)
Definition sent_orders (os : list SchedulerStream.stream_output) : list SchedulerStream.PlacementOrder :=
  omap (λ o, match o with SchedulerStream.SSend m => Some m | _ => None end) os.

Definition sends_fine : nat → SchedulerStream.PlacementOrder → option string := λ _ _, None.

Lemma v2_stream_orders evs s :
  (v2_Recv ∘ inr) <$> sent_orders (run (SchedulerStream.stream_Handle sends_fine) (SchedulerStream.SEv <$> evs) s).2 =
    inr <$> (evs ≫= orders_of).
Proof.
  revert s; induction evs as [|e evs IH]; intros s; [done|]. rewrite fmap_cons. cbn [run]. rewrite seqp_eq. cbn [snd].
  unfold sent_orders in *. rewrite omap_app, fmap_app, IH, bind_cons, fmap_app. f_equal. by destruct e.
Qed.

Definition operation_of (op : OrderOp) : SchedulerConnections.Operation :=
  match op with
  | OrderLock => OPERATION_LOCK | OrderUpdate => OPERATION_UPDATE
  | OrderUnlock => OPERATION_UNLOCK | OrderUnknown => OPERATION_UNSPECIFIED
  end.

(** Round trip of the v2 transport: what the scheduler's stream loop sends for its events
    decodes at the sidecar to exactly the orders of those events; an acknowledgement encoded
    by the sidecar decodes at the scheduler to the same operation and sequence number of the
    same stream; and a report accepted by the scheduler is the one the sidecar sent, in the
    namespace of the stream. *)
Theorem v2_transport_roundtrip evs s caller ack report :
  (v2_Recv ∘ inr) <$> sent_orders (run (SchedulerStream.stream_Handle sends_fine) (SchedulerStream.SEv <$> evs) s).2 =
    inr <$> (evs ≫= orders_of) ∧
  (ack_Op ack ≠ OrderUnknown →
     ∃ m, v2_SendAck ack = inr m ∧
       SchedulerStream.recv caller s (inr m) =
         inr (SchedulerStream.SAck (SchedulerStream.st_idx s) (SchedulerStream.st_ns s)
                (operation_of (ack_Op ack)) (ack_Version ack))) ∧
  (∀ idx host, SchedulerStream.recv caller s (inr (v2_SendReport report)) = inr (SchedulerStream.SReported idx host) →
     idx = SchedulerStream.st_idx s ∧ ah_Namespace host = SchedulerStream.st_ns s ∧
     report = mkHostReport (ah_Address host) (ah_AppId host) (ah_Namespace host) (ah_ActorTypes host)).
Proof.
  split_and!; [apply v2_stream_orders| |].
  - intros Hop. destruct ack as [op v]. destruct op; [by eexists..|done].
  - intros idx host. unfold SchedulerStream.recv, v2_SendReport. destruct (SchedulerStream.Host _ _); [done|].
    cbn [ah_Namespace]. case_bool_decide as Hns; [|done]. intros [= <- <-]. simpl. split_and!; [done|done|]. by destruct report.
Qed.

(** [OrderOp.String] *)
Definition OrderOp_String (op : OrderOp) : string :=
  match op with OrderLock => "lock" | OrderUpdate => "update" | OrderUnlock => "unlock" | OrderUnknown => "unknown" end.

(** Events of a placement stream loop whose version is a uint64 and whose tables carry it. *)
Definition stamped_event (e : PlacementDisseminator.EventStream) : Prop :=
  match e with
  | PlacementDisseminator.DisseminateLock v | PlacementDisseminator.DisseminateUnlock v => (v < two64)%N
  | PlacementDisseminator.DisseminateUpdate v t | PlacementDisseminator.DisseminateTable v t =>
      (v < two64)%N ∧ pt_Version t = pretty v
  | PlacementDisseminator.StreamShutdown _ => True
  end.

(** An order as the placement service sends it. *)
Definition wire_order (o : PlacementStream.PlacementOrder) : Prop :=
  ∃ op, op ≠ OrderUnknown ∧ PlacementStream.po_Operation o = OrderOp_String op ∧
    (PlacementStream.po_Version o < two64)%N ∧
    match PlacementStream.po_Tables o with
    | Some t => op = OrderUpdate ∧ pt_Version t = pretty (PlacementStream.po_Version o)
    | None => op ≠ OrderUpdate
    end.

Lemma stream_wire_orders Send e s o :
  stamped_event e → o ∈ PlacementStream.orders (PlacementStream.stream_Handle Send e s).2 → wire_order o.
Proof.
  assert (HL : ∀ v, (v < two64)%N → wire_order (PlacementStream.mkPlacementOrder PlacementStream.operationLock v None)).
  { intros v Hv. by exists OrderLock. }
  assert (HU : ∀ v, (v < two64)%N → wire_order (PlacementStream.mkPlacementOrder PlacementStream.operationUnlock v None)).
  { intros v Hv. by exists OrderUnlock. }
  assert (HT : ∀ v t, (v < two64)%N → pt_Version t = pretty v →
    wire_order (PlacementStream.mkPlacementOrder PlacementStream.operationUpdate v (Some t))).
  { intros v t Hv Ht. by exists OrderUpdate. }
  unfold PlacementStream.stream_Handle, PlacementStream.orders.
  destruct e as [v|v t|v|v t|err]; cbn [stamped_event]; intros Hs;
    unfold PlacementStream.handleLock, PlacementStream.handleUpdate, PlacementStream.handleUnlock,
      PlacementStream.handleTable, PlacementStream.and_then, PlacementStream.channel_Send, PlacementStream.ok,
      PlacementStream.stream_handleShutdown;
    repeat (case_match; simplify_eq); simpl; intros Ho;
    repeat (apply elem_of_cons in Ho as [->|Ho]); try (by apply elem_of_nil in Ho);
    first [by apply HL|by apply HU|destruct Hs; by first [apply HT|apply HL|apply HU]].
Qed.

Lemma v1_Recv_wire o :
  wire_order o → ∃ op, op ≠ OrderUnknown ∧ PlacementStream.po_Operation o = OrderOp_String op ∧
    v1_Recv (inr o) = inr (mkOrder op (PlacementStream.po_Version o) [] ∅ (PlacementStream.po_Tables o) None).
Proof.
  intros (op & Hne & Hop & Hv & Ht). exists op. split_and!; [done|done|]. unfold v1_Recv. rewrite Hop.
  assert (Hver : (if (0 <? PlacementStream.po_Version o)%N then PlacementStream.po_Version o
    else ParseUint (from_option pt_Version EmptyString (PlacementStream.po_Tables o))) = PlacementStream.po_Version o).
  { destruct (N.ltb_spec 0 (PlacementStream.po_Version o)) as [|Hz]; [done|]. apply N.le_0_r in Hz.
    destruct (PlacementStream.po_Tables o) as [t|]; simpl; [|by rewrite Hz].
    destruct Ht as [_ ->]. by apply ParseUint_pretty. }
  rewrite Hver. destruct op; simpl; try done; by destruct (PlacementStream.po_Tables o) as [t|]; naive_solver.
Qed.

Definition hostop_of (op : OrderOp) : HostOperation :=
  match op with OrderLock => LOCK | OrderUpdate => UPDATE | OrderUnlock => UNLOCK | OrderUnknown => UNKNOWN end.

(** Round trip of the v1 transport: every order a placement stream loop sends, printed
    versions included, decodes at the sidecar to the same operation, version and tables; and
    an acknowledgement the sidecar encodes is accepted by an authorized placement stream
    with the same operation and version. *)
Theorem v1_transport_roundtrip Send es s o caller idx appID ns ack :
  (∀ e, e ∈ es → stamped_event e) → appID ≠ EmptyString → ns ≠ EmptyString →
  (o ∈ PlacementStream.orders (run (PlacementStream.stream_Handle Send) es s).2 →
     ∃ op, op ≠ OrderUnknown ∧ PlacementStream.po_Operation o = OrderOp_String op ∧
       v1_Recv (inr o) = inr (mkOrder op (PlacementStream.po_Version o) [] ∅ (PlacementStream.po_Tables o) None)) ∧
  (ack_Op ack ≠ OrderUnknown →
   Authorize caller {| AppID := appID; r_Namespace := ns; ActorTypes := [] |} = None →
   ∃ h, v1_SendAck appID ns ack = inr h ∧ placement_recv caller idx (inr h) = inr (idx, h) ∧
     PlacementStore.Operation h = hostop_of (ack_Op ack) ∧ Version h = Some (ack_Version ack)).
Proof.
  intros Hes Hid Hns. split.
  - intros Ho. apply v1_Recv_wire. revert s Ho. induction es as [|e es IH]; intros s Ho; [by apply elem_of_nil in Ho|].
    cbn [run] in Ho. rewrite seqp_eq in Ho. cbn [snd] in Ho.
    rewrite PlacementStream.orders_app in Ho. apply elem_of_app in Ho as [Ho|Ho].
    + eapply stream_wire_orders; [|exact Ho]. apply Hes. left.
    + eapply IH; [|exact Ho]. intros e' He'. apply Hes. by right.
  - intros Hop Hauth. assert (Hid' : (String.length appID =? 0) = false) by (by destruct appID).
    assert (Hns' : (String.length ns =? 0) = false) by (by destruct ns).
    destruct ack as [[] v]; try done; eexists; (split; [done|]); unfold placement_recv, Authorizer_Host; simpl;
      rewrite Hid', Hns'; simpl; by rewrite Hauth.
Qed.

(** ** Witnesses *)

Definition demo_v1_tables (v : N) : PlacementTables :=
  {| pt_Entries := ∅; pt_Version := pretty v; pt_ReplicationFactor := 100 |}.

Lemma v1_transport_roundtrip_witness :
  ∃ h, v1_SendAck "app" "ns" (mkAck OrderUpdate 7) = inr h ∧
    placement_recv None 3 (inr h) = inr (3%N, h) ∧ Version h = Some 7%N.
Proof.
  destruct (v1_transport_roundtrip (λ _ _, None)
    [PlacementDisseminator.DisseminateLock 7; PlacementDisseminator.DisseminateUpdate 7 (demo_v1_tables 7)]
    (PlacementStream.mkStream 3 "ns" None [])
    (PlacementStream.mkPlacementOrder PlacementStream.operationUpdate 7 (Some (demo_v1_tables 7)))
    None 3 "app" "ns" (mkAck OrderUpdate 7)) as [_ H].
  - intros e [->|[->|[]%elem_of_nil]%elem_of_cons]%elem_of_cons; [reflexivity|split; reflexivity].
  - discriminate.
  - discriminate.
  - destruct (H ltac:(discriminate) eq_refl) as (h & H1 & H2 & _ & H4). exists h. auto.
Defined.
