(* ===== verification/SchedulerProps.v ===== *)
(** * Properties of the scheduler's dissemination rounds

    Safety of the phases, disjoint rounds, and progress: every round in flight
    waits for the acknowledgement of a connected stream and has its timeout
    queued; every pending type waits for a round in flight or for the coalesce
    timer. *)

From S2P Require Import Prelude GoLib Inflight SchedulerStore SchedulerConnections SchedulerInv SchedulerPhases SchedulerMembers.
#[local] Open Scope dapr_scope.

(** ** Rounds wait for acknowledgements *)

(** Every round outside [W] waits for a member, and is in a phase. *)
Definition waiting (W : list N) (c : connections) : Prop :=
  ∀ s r, rounds c !! s = Some r →
    r_seq r = s ∧ phase r ≠ OPERATION_UNSPECIFIED ∧ (s ∈ W ∨ size (acked r) < size (members r)).

(** Pending types are held by a round in flight, unless the timer runs. *)
Definition settled (c : connections) : Prop :=
  coalesceTimer c = true ∨ ∀ t, t ∈ pendingTypes c → is_Some (lockedTypes c !! t).

Lemma waiting_mono W W' c : (∀ s, s ∈ W → s ∈ W') → waiting W c → waiting W' c.
Proof. intros Hs H s r Hr. destruct (H s r Hr) as (? & ? & [?|?]); auto. Qed.

Lemma waiting_eq W c c' : rounds c' = rounds c → waiting W c → waiting W c'.
Proof. intros E H s r. rewrite E. apply H. Qed.

Lemma waiting_drop W sq c c' : rounds c' = delete sq (rounds c) → waiting (sq :: W) c → waiting W c'.
Proof.
  intros E H s r. rewrite E. intros [Hne Hr]%lookup_delete_Some. destruct (H s r Hr) as (? & ? & [?|?]); [|auto].
  split_and!; try done. set_solver.
Qed.

Lemma waiting_start_round W ts c : NoDup ts → streams c ≠ ∅ → waiting W c → waiting W (start_round ts c).1.
Proof.
  intros Hnd Hst H. rewrite start_conn_round_eq by done. cbn [fst]. unfold started_round.
  destruct (lock_types_spec (nextSeq c) ts (set_seq (nextSeq c) c) Hnd) as (_ & _ & _ & _ & Er & _).
  intros s r. simpl. rewrite Er. simpl. rewrite lookup_insert. case_decide as E; [|apply H].
  intros [= <-]. cbn [r_seq phase members acked]. split_and!; [done|done|]. right. rewrite size_empty.
  destruct (map_choose (streams c) Hst) as (i & b & Hi).
  assert (Hin : i ∈ (list_to_set (stream_idxs c) : gset N)) by (apply elem_of_list_to_set, elem_of_conn_idxs; eauto).
  destruct (decide (size (list_to_set (stream_idxs c) : gset N) = 0)) as [Hz|]; [|lia].
  apply size_empty_inv in Hz. set_solver.
Qed.

Lemma waiting_maybeDisseminate W c : waiting W c → waiting W (maybeDisseminate c).1.
Proof.
  intros H. unfold maybeDisseminate, get. destruct (_ || _); [done|]. destruct (size (streams c) =? 0) eqn:Hz; [done|].
  destruct (length (free_types c) =? 0); [done|]. apply waiting_start_round; [apply free_types_spec| |done].
  intros E. by rewrite E, map_size_empty in Hz.
Qed.

Lemma settled_maybeDisseminate c : settled (maybeDisseminate c).1.
Proof.
  unfold maybeDisseminate, get. destruct (size (pendingTypes c) =? 0) eqn:Hp; cbn [orb].
  { right. apply Nat.eqb_eq, size_empty_inv in Hp. set_solver. }
  destruct (coalesceTimer c) eqn:Ht; [by left|]. destruct (size (streams c) =? 0); [right; set_solver|].
  destruct (free_types_spec c) as [Hnd Hfr]. destruct (length (free_types c) =? 0) eqn:Hl.
  - right. simpl. intros t Hin. destruct (lockedTypes c !! t) eqn:El; [eauto|].
    apply Nat.eqb_eq, nil_length_inv in Hl. destruct (Hfr t) as [_ Hft]. rewrite Hl in Hft.
    specialize (Hft (conj Hin El)). by apply elem_of_nil in Hft.
  - right. rewrite start_conn_round_eq by done. cbn [fst]. unfold started_round.
    destruct (lock_types_spec (nextSeq c) (free_types c) (set_seq (nextSeq c) c) Hnd)
      as (_ & _ & _ & _ & _ & _ & _ & Ep & El & _). simpl. rewrite Ep. simpl.
    intros t [Hin Hnf]%elem_of_difference. rewrite elem_of_list_to_set in Hnf. rewrite El, decide_False by done. simpl.
    destruct (lockedTypes c !! t) eqn:E; [eauto|]. destruct Hnf. by apply Hfr.
Qed.

Lemma startCoalesceTimer_eq c :
  rounds (startCoalesceTimer c).1 = rounds c ∧ ((0 <? coalesceWindow c)%Z = true → coalesceTimer (startCoalesceTimer c).1 = true).
Proof.
  unfold startCoalesceTimer, get. destruct (Z.leb_spec (coalesceWindow c) 0); cbn [orb].
  - split; [done|]. intros E%Z.ltb_lt. lia.
  - destruct (coalesceTimer c) eqn:Et; by split.
Qed.

Lemma completeRound_progress W r c :
  waiting (r_seq r :: W) c → waiting W (completeRound r c).1 ∧ settled (completeRound r c).1.
Proof.
  intros H. unfold completeRound. rewrite !seqp_eq. cbn [emit modify fst snd]. unfold get.
  set (c1 := set_lockedTypes _ _). assert (H1 : waiting W c1) by (by apply (waiting_drop W (r_seq r) c)).
  destruct (0 <? coalesceWindow c1)%Z eqn:Hw; cbn [andb].
  - destruct (negb _); [|split; [by apply waiting_maybeDisseminate|apply settled_maybeDisseminate]].
    destruct (startCoalesceTimer_eq c1) as [E1 E2]. split; [by apply (waiting_eq _ c1)|left; by apply E2].
  - split; [by apply waiting_maybeDisseminate|apply settled_maybeDisseminate].
Qed.

Lemma advance_round_progress W sq c :
  waiting (sq :: W) c → waiting W (advance_round sq c).1 ∧ (settled c → settled (advance_round sq c).1).
Proof.
  intros H. unfold advance_round, get. destruct (rounds c !! sq) as [r|] eqn:Hr.
  2: { split; [|done]. intros s r Hs. cbn [skip fst] in Hs. destruct (H s r Hs) as (? & ? & [[->|?]%elem_of_cons|?]); [congruence|auto..]. }
  destruct (H sq r Hr) as (Hsq & Hph & _).
  assert (Hcomp : waiting W (completeRound r c).1 ∧ settled (completeRound r c).1).
  { apply completeRound_progress. by rewrite Hsq. }
  assert (Hmove : ∀ op e, op ≠ OPERATION_UNSPECIFIED → 0 < size (members r) →
    let c' := ((modify (λ c, set_rounds (<[sq := next_phase op r]> (rounds c)) c) ;;; enqueue_members r e) c).1 in
    waiting W c' ∧ (settled c → settled c')).
  { intros op e Hop Hpos. cbv zeta. rewrite seqp_eq. cbn [fst]. split; [|done]. intros s r'.
    unfold enqueue_members, get. simpl. rewrite lookup_insert. case_decide as E.
    - intros [= <-]. cbn [next_phase r_seq phase members acked]. rewrite size_empty. split_and!; [congruence|done|right; lia].
    - intros Hs. destruct (H s r' Hs) as (? & ? & [[->|?]%elem_of_cons|?]); [done|auto..]. }
  destruct (size (members r) =? 0) eqn:Hz; [split; [apply Hcomp|intros _; apply Hcomp]|]. apply Nat.eqb_neq in Hz.
  destruct (size (acked r) <? size (members r)) eqn:Hlt.
  - split; [|done]. intros s r' Hs. cbn [skip fst] in Hs. destruct (H s r' Hs) as (? & ? & [[->|?]%elem_of_cons|?]); [|auto..].
    assert (r' = r) as -> by congruence. apply Nat.ltb_lt in Hlt. auto.
  - destruct (phase r) eqn:Ep; [apply Hmove; [done|lia]..| |done]. split; [apply Hcomp|intros _; apply Hcomp].
Qed.

Lemma advanceRounds_progress W seqs c :
  waiting (seqs ++ W) c → waiting W (advanceRounds seqs c).1 ∧ (settled c → settled (advanceRounds seqs c).1).
Proof.
  revert c; induction seqs as [|sq seqs IH]; intros c H; [done|]. unfold advanceRounds. cbn [for_each].
  rewrite seqp_eq. cbn [fst]. destruct (advance_round_progress (seqs ++ W) sq c H) as [H1 H2].
  destruct (IH _ H1) as [H3 H4]. split; [apply H3|]. intros Hs. by apply H4, H2.
Qed.

(** A stream that leaves only affects the rounds [removeStream] returns. *)
Lemma removeStream_progress W idx err c :
  waiting W c → waiting (affected_rounds idx c ++ W) (removeStream idx err c).1.
Proof.
  intros H. destruct (streams c !! idx) as [b|] eqn:Hi.
  2: { unfold affected_rounds, removeStream, get. rewrite Hi. rewrite bool_decide_false by (by intros []). done. }
  rewrite removeStream_eq with (b := b) by done. cbn [fst].
  apply (waiting_eq _ (removed idx c)); [unfold clear_pending; by destruct (_ =? 0)|].
  intros s r'. simpl. rewrite lookup_fmap. intros (r & Hr & ->)%fmap_Some. destruct (H s r Hr) as (? & ? & HW). simpl.
  split_and!; [done|done|]. unfold affected_rounds. rewrite Hi, bool_decide_true by eauto. rewrite elem_of_app, list_elem_of_fmap.
  destruct (decide (idx ∈ members r)) as [Hm|Hm].
  - left. left. exists (s, r). split; [done|]. apply list_elem_of_filter. split; [done|by apply elem_of_map_to_list].
  - destruct HW as [?|Hlt]; [auto|]. right. replace (members r ∖ {[idx]}) with (members r) by set_solver.
    eapply Nat.le_lt_trans; [|done]. apply subseteq_size. set_solver.
Qed.

Definition progress (c : connections) : Prop := waiting [] c ∧ settled c.

Lemma progress_advance seqs c : waiting seqs c → progress ((advanceRounds seqs ;;; maybeDisseminate) c).1.
Proof.
  intros H. rewrite seqp_eq. cbn [fst]. split; [|apply settled_maybeDisseminate].
  apply waiting_maybeDisseminate, advanceRounds_progress. by rewrite app_nil_r.
Qed.

Lemma evict_progress idxs ack err (k : list N → c_handler) :
  (∀ aff c, waiting aff c → progress (k aff c).1) →
  ∀ aff c, waiting aff c → progress (evict idxs ack err aff k c).1.
Proof.
  intros Hk. induction idxs as [|idx idxs IH]; intros aff c H; cbn [evict]; [by apply Hk|].
  case_bool_decide; [by apply IH|]. unfold get. rewrite seqp_eq. cbn [fst]. apply IH.
  eapply waiting_mono; [|by apply removeStream_progress]. intros s. rewrite !elem_of_app. tauto.
Qed.

Lemma abort_round_progress sq r aff c : waiting aff c → progress (abort_round sq r aff c).1.
Proof.
  intros H. unfold abort_round. rewrite !seqp_eq. cbn [modify fst]. unfold get. rewrite !seqp_eq. cbn [emit fst].
  match goal with |- progress (maybeDisseminate (advanceRounds aff ?x).1).1 => assert (Hx : waiting aff x) end.
  { assert (Hd : waiting aff (dropped sq (r_types r) c)).
    { apply (waiting_drop aff sq c); [done|]. eapply waiting_mono; [|done]. intros s ?. by right. }
    unfold when. destruct (negb _); [|done]. eapply waiting_eq; [|exact Hd]. done. }
  pose proof (progress_advance aff _ Hx) as Hp. rewrite seqp_eq in Hp. exact Hp.
Qed.

Lemma progress_with_ack idx sq r c :
  waiting [] c → rounds c !! sq = Some r → waiting [sq] (with_ack idx sq r c).
Proof.
  intros H Hr s r'. simpl. rewrite lookup_insert. case_decide as E.
  - intros [= <-]. destruct (H sq r Hr) as (? & ? & _). subst s. simpl. split_and!; [done|done|]. left. left.
  - intros Hs. destruct (H s r' Hs) as (? & ? & [[]%elem_of_nil|?]). auto.
Qed.

Lemma progress_c_Handle e c : progress c → progress (c_Handle e c).1.
Proof.
  intros [Hw Hs]. destruct e; cbn [c_Handle].
  - unfold handleAdd, get. rewrite !seqp_eq. cbn [modify emit fst]. rewrite report_eq. cbn [fst].
    set (c1 := reported _ _ _). assert (Hi : is_Some (streams c1 !! streamIDx c)) by (simpl; rewrite lookup_insert_eq; eauto).
    rewrite (sendSnapshot_eq _ c1 Hi). cbn [fst]. split; [|apply settled_maybeDisseminate].
    apply waiting_maybeDisseminate. by apply (waiting_eq _ c).
  - unfold handleReportedTypes, get. case_bool_decide; [|done]. cbn [negb]. rewrite seqp_eq, report_eq. cbn [fst].
    split; [|apply settled_maybeDisseminate]. apply waiting_maybeDisseminate. by apply (waiting_eq _ c).
  - unfold handleAck, get. case_bool_decide; [|done]. cbn [negb]. destruct (oneshots c !! Seq) as [i|].
    { unfold when. by destruct (_ && _). }
    destruct (rounds c !! Seq) as [r|] eqn:Hr; [|done]. destruct (_ || _); [done|].
    rewrite seqp_eq. cbn [modify fst]. destruct (advanceRounds_progress [] [Seq] (with_ack StreamIDx Seq r c)) as [H1 H2];
      [by apply progress_with_ack|]. split; [exact H1|by apply H2].
  - unfold handleCloseStream, get. rewrite !seqp_eq. cbn [fst].
    pose proof (progress_advance (affected_rounds StreamIDx c) (removeStream StreamIDx err c).1) as H. rewrite seqp_eq in H.
    unfold when. destruct (_ =? 0); apply H; by rewrite <-(app_nil_r (affected_rounds _ _)); apply removeStream_progress.
  - unfold handleTimeout, get. destruct (rounds c !! Seq) as [r|]; [|done]. apply evict_progress; [|done].
    intros aff c' H. unfold get. by apply abort_round_progress.
  - unfold handleCoalesceFire. rewrite seqp_eq. cbn [modify fst]. split; [|apply settled_maybeDisseminate].
    apply waiting_maybeDisseminate. by apply (waiting_eq _ c).
  - unfold handleShutdown. rewrite seqp_eq. unfold get. rewrite !seqp_eq. cbn [modify emit fst]. rewrite close_loop_eq. cbn [fst].
    split; [|right; simpl; set_solver]. intros s r. simpl. by rewrite lookup_empty.
Qed.

Lemma progress_run es c : progress c → progress (run c_Handle es c).1.
Proof.
  revert c; induction es as [|e es IH]; intros c H; [done|]. cbn [run]. rewrite seqp_eq. cbn [fst].
  by apply IH, progress_c_Handle.
Qed.

(** ** Timeouts are queued *)

(** Rounds come with their timeout. *)
Definition queues (h : c_handler) : Prop :=
  ∀ c s, is_Some (rounds (h c).1 !! s) → is_Some (rounds c !! s) ∨ CTimeoutEnqueue s ∈ (h c).2.

Lemma queues_seqp h1 h2 : queues h1 → queues h2 → queues (h1 ;;; h2).
Proof.
  intros H1 H2 c s. rewrite seqp_eq. cbn [fst snd]. rewrite elem_of_app. intros [Hr|?]%H2; [|auto].
  destruct (H1 c s Hr); auto.
Qed.

Lemma queues_get k : (∀ c, queues (k c)) → queues (get k).
Proof. intros H c s. unfold get. apply H. Qed.

Lemma queues_fewer h : (∀ c s, is_Some (rounds (h c).1 !! s) → is_Some (rounds c !! s)) → queues h.
Proof. intros H c s Hs. left. by apply H. Qed.

Lemma queues_when b h : queues h → queues (when b h).
Proof. destruct b; [done|]. intros _. by apply queues_fewer. Qed.

Lemma queues_for_each {A} (l : list A) body : (∀ x, queues (body x)) → queues (for_each l body).
Proof. intros H. induction l as [|x l IH]; [by apply queues_fewer|]. by apply queues_seqp. Qed.

Ltac fewer := apply queues_fewer; intros ? ?; try done.

Lemma queues_maybeDisseminate : queues maybeDisseminate.
Proof.
  intros c s. unfold maybeDisseminate, get. destruct (_ || _); [by left|]. destruct (size (streams c) =? 0); [by left|].
  destruct (length (free_types c) =? 0); [by left|]. destruct (free_types_spec c) as [Hnd _].
  rewrite start_conn_round_eq by done. cbn [fst snd]. unfold started_round.
  destruct (lock_types_spec (nextSeq c) (free_types c) (set_seq (nextSeq c) c) Hnd) as (_ & _ & _ & _ & Er & _).
  simpl. rewrite Er, lookup_insert. case_decide as E; [intros _; right; subst; left|by left].
Qed.

Lemma queues_startCoalesceTimer : queues startCoalesceTimer.
Proof. fewer. unfold startCoalesceTimer, get. by destruct (_ || _). Qed.

Lemma queues_completeRound r : queues (completeRound r).
Proof.
  unfold completeRound. apply queues_seqp; [fewer|]. apply queues_seqp.
  { fewer. simpl. intros [x [_ Hx]%lookup_delete_Some]. eauto. }
  apply queues_seqp; [fewer|]. apply queues_get. intros c.
  destruct (_ && _); [apply queues_startCoalesceTimer|apply queues_maybeDisseminate].
Qed.

Lemma queues_advance_round sq : queues (advance_round sq).
Proof.
  intros c s. unfold advance_round, get. destruct (rounds c !! sq) as [r|] eqn:Hr; [|by left].
  destruct (_ =? 0); [apply queues_completeRound|]. destruct (_ <? _); [by left|].
  destruct (phase r); [| |apply queues_completeRound|by left]; rewrite seqp_eq; unfold enqueue_members, get; simpl;
    rewrite lookup_insert; (case_decide as E; [subst s; rewrite Hr; eauto|by left]).
Qed.

Lemma queues_advanceRounds seqs : queues (advanceRounds seqs).
Proof. apply queues_for_each, queues_advance_round. Qed.

Lemma queues_removeStream idx err : queues (removeStream idx err).
Proof.
  fewer. unfold removeStream, get. destruct (streams _ !! idx); [|done].
  destruct (SStore_Delete _ idx) as [st gone]. rewrite !seqp_eq. cbn [modify fst].
  unfold when. destruct b; destruct (_ =? 0); simpl; rewrite lookup_fmap; by intros ?%fmap_is_Some.
Qed.

Lemma queues_evict idxs ack err aff k : (∀ aff, queues (k aff)) → queues (evict idxs ack err aff k).
Proof.
  intros Hk. revert aff; induction idxs as [|idx idxs IH]; intros aff; cbn [evict]; [apply Hk|].
  case_bool_decide; [apply IH|]. apply queues_get. intros c. apply queues_seqp; [apply queues_removeStream|apply IH].
Qed.

Lemma queues_abort_round sq r aff : queues (abort_round sq r aff).
Proof.
  unfold abort_round. apply queues_seqp; [fewer; simpl; intros [x [_ Hx]%lookup_delete_Some]; eauto|].
  apply queues_seqp; [fewer|]. apply queues_get. intros c. apply queues_seqp; [fewer|].
  apply queues_seqp; [apply queues_when; fewer|]. apply queues_seqp; [apply queues_advanceRounds|apply queues_maybeDisseminate].
Qed.

Lemma queues_handleAck idx op sq : queues (handleAck idx op sq).
Proof.
  intros c s. unfold handleAck, get. case_match; [by left|]. destruct (oneshots c !! sq).
  { unfold when. destruct (_ && _); by left. }
  destruct (rounds c !! sq) as [r|] eqn:Hr; [|by left]. destruct (_ || _); [by left|]. rewrite seqp_eq.
  cbn [modify fst snd app]. intros [Hs|Hs]%queues_advanceRounds; [left|by right]. simpl in Hs.
  rewrite lookup_insert in Hs. case_decide; [subst s; rewrite Hr; eauto|done].
Qed.

Lemma queues_handleShutdown err : queues (handleShutdown err).
Proof.
  intros c s. unfold handleShutdown. rewrite seqp_eq. unfold get. rewrite !seqp_eq. cbn [modify emit fst].
  rewrite close_loop_eq. simpl. rewrite lookup_empty. by intros [].
Qed.

Lemma queues_report idx host : queues (report idx host).
Proof. fewer. Qed.

Lemma queues_c_Handle e : queues (c_Handle e).
Proof.
  destruct e; cbn [c_Handle].
  - apply queues_get. intros c. do 3 (apply queues_seqp; [fewer|]). apply queues_seqp; [apply queues_report|].
    apply queues_seqp; [|apply queues_maybeDisseminate]. fewer. unfold sendSnapshot, get. case_match; [done|].
    by rewrite !seqp_eq.
  - apply queues_get. intros c. case_match; [fewer|]. apply queues_seqp; [apply queues_report|apply queues_maybeDisseminate].
  - apply queues_handleAck.
  - apply queues_get. intros c. apply queues_seqp; [apply queues_removeStream|].
    apply queues_seqp; [apply queues_advanceRounds|]. apply queues_seqp; [apply queues_maybeDisseminate|].
    apply queues_get. intros c'. apply queues_when. fewer.
  - apply queues_get. intros c. destruct (rounds c !! Seq); [|fewer]. apply queues_evict. intros aff. apply queues_get.
    intros c'. apply queues_abort_round.
  - apply queues_seqp; [fewer|apply queues_maybeDisseminate].
  - apply queues_handleShutdown.
Qed.

Lemma timeouts_queued es c os :
  (∀ s, is_Some (rounds c !! s) → CTimeoutEnqueue s ∈ os) →
  ∀ s, is_Some (rounds (run c_Handle es c).1 !! s) → CTimeoutEnqueue s ∈ os ++ (run c_Handle es c).2.
Proof.
  revert c os; induction es as [|e es IH]; intros c os H s; cbn [run]; [rewrite app_nil_r; apply H|].
  rewrite seqp_eq. cbn [fst snd]. rewrite app_assoc. apply IH. intros s' [Hs'|?]%queues_c_Handle; set_solver.
Qed.

(** ** Properties *)

(** C4: Phase safety of the scheduler's rounds. In every run, when an UPDATE of a round is
    sent to any stream, each stream that was sent the LOCK of that round and has not been
    closed has acknowledged the LOCK; when an UNLOCK of a round is sent, each such stream
    has acknowledged the UPDATE, or the round timed out. So no sidecar installs new tables
    of a type while another one still routes with the old ones. *)
Theorem scheduler_phase_safety timeout window es c os :
  conns_run timeout window es = (c, os) → fits os →
  (∀ os1 i s ts vs tb os2, os = os1 ++ CEnqueue i (SendUpdate s ts vs tb) :: os2 →
     ∀ j ts', CEnqueue j (SendLock s ts') ∈ os1 → (∀ err, CClose j err ∉ os1) → Ack j OPERATION_LOCK s ∈ es) ∧
  (∀ os1 i s ts os2, os = os1 ++ CEnqueue i (SendUnlock s ts) :: os2 →
     ∀ j ts', CEnqueue j (SendLock s ts') ∈ os1 → (∀ err, CClose j err ∉ os1) →
       Ack j OPERATION_UPDATE s ∈ es ∨ RoundTimeout s ∈ es).
Proof.
  intros Hrun Hfit. pose proof (conns_run_inv timeout window es) as Hinv. rewrite Hrun in Hinv.
  destruct (Hinv Hfit) as [_ _ _ [_ _ Hu Hn]]. split; [exact Hu|exact Hn].
Qed.

(** C26: Invariant of the scheduler loop. In every reachable state no closed stream was
    used, rounds in flight cover disjoint types, a type is locked exactly when a round in
    flight covers it, members of rounds are connected, the connected streams are those
    opened and not closed; and for each connected stream and each type, the stream has been
    sent the current hosts of the type, or the type is pending, or a round over it that
    includes the stream has yet to send its UPDATE. *)
Theorem scheduler_rounds_consistent timeout window es c os :
  conns_run timeout window es = (c, os) → fits os →
  CPanic ∉ os ∧
  (∀ s1 s2 r1 r2 t, rounds c !! s1 = Some r1 → rounds c !! s2 = Some r2 → t ∈ r_types r1 → t ∈ r_types r2 → s1 = s2) ∧
  (∀ t, is_Some (lockedTypes c !! t) ↔ ∃ s r, rounds c !! s = Some r ∧ t ∈ r_types r) ∧
  (∀ s r i, rounds c !! s = Some r → i ∈ members r → is_Some (streams c !! i)) ∧
  (∀ i, is_Some (streams c !! i) ↔ (i < streamIDx c)%N ∧ ∀ err, CClose i err ∉ os) ∧
  (∀ i t, is_Some (streams c !! i) →
    t ∈ pendingTypes c ∨
    (∃ s r, rounds c !! s = Some r ∧ t ∈ r_types r ∧ phase r = OPERATION_LOCK ∧ i ∈ members r) ∨
    routes i os t = hosting (store c) t).
Proof.
  intros Hrun Hfit. pose proof (conns_run_inv timeout window es) as Hinv. rewrite Hrun in Hinv.
  destruct (Hinv Hfit) as [S K L _]. cbn [fst snd] in *. split_and!.
  - apply (v_panic _ _ K).
  - intros s1 s2 r1 r2 t H1 H2 T1 T2. assert (lockedTypes c !! t = Some s1) by (apply (v_locked c S); eauto).
    assert (lockedTypes c !! t = Some s2) by (apply (v_locked c S); eauto). congruence.
  - intros t. split; [intros [s (r & Hr & Ht)%(v_locked c S)]; eauto|].
    intros (s & r & Hr & Ht). exists s. apply (v_locked c S). eauto.
  - intros s r i Hr. apply (v_round c S s r Hr).
  - apply (v_open _ _ K).
  - intros i t Hi. destruct (v_conv _ _ _ L i t Hi) as [[]|?]. done.
Qed.

(** C30: No round is stuck and no change is forgotten: in every reachable state each round
    in flight has been given to the timeout queue and waits for at least one connected
    member, and every pending type waits for the coalesce timer or for a round in flight
    that covers it. *)
Theorem scheduler_rounds_progress timeout window es c os :
  conns_run timeout window es = (c, os) → fits os →
  (∀ s r, rounds c !! s = Some r →
     CTimeoutEnqueue s ∈ os ∧ ∃ i, i ∈ members r ∧ i ∉ acked r ∧ is_Some (streams c !! i)) ∧
  (∀ t, t ∈ pendingTypes c → coalesceTimer c = true ∨ ∃ s r, rounds c !! s = Some r ∧ t ∈ r_types r).
Proof.
  intros Hrun Hfit. pose proof (conns_run_inv timeout window es) as Hinv. rewrite Hrun in Hinv.
  destruct (Hinv Hfit) as [S _ _ _]. cbn [fst snd] in *. unfold conns_run in Hrun.
  assert (Hp : progress c).
  { change c with (c, os).1. rewrite <-Hrun. apply progress_run. split; [|right; simpl; set_solver].
    intros s r Hr. simpl in Hr. by rewrite lookup_empty in Hr. }
  destruct Hp as [Hw Hs]. split.
  - intros s r Hr. split.
    + pose proof (timeouts_queued es (conns_New timeout window) []) as Hq. rewrite Hrun in Hq. apply Hq; [|eauto].
      intros s' [x Hx]. simpl in Hx. by rewrite lookup_empty in Hx.
    + destruct (Hw s r Hr) as (_ & _ & [[]%elem_of_nil|Hlt]). destruct (v_round c S s r Hr) as (_ & _ & _ & Hm & _).
      destruct (decide (members r ∖ acked r = ∅)) as [He|[i Hi]%set_choose_L].
      * assert (members r ⊆ acked r) as Hsz%subseteq_size by set_solver. lia.
      * exists i. split_and!; [set_solver|set_solver|apply Hm; set_solver].
  - intros t Ht. destruct Hs as [?|Hs]; [by left|right]. destruct (Hs t Ht) as [s (r & Hr & Hin)%(v_locked c S)]. eauto.
Qed.

(** ** Witnesses *)

(** Two sidecars connect one after the other; every phase is acknowledged. *)
Definition demo_ack_round (idxs : list N) (s : N) : list EventConnections :=
  ((λ i, Ack i OPERATION_LOCK s) <$> idxs) ++ ((λ i, Ack i OPERATION_UPDATE s) <$> idxs) ++
  ((λ i, Ack i OPERATION_UNLOCK s) <$> idxs).

Definition demo_conn_events : list EventConnections :=
  [ConnAdd true (demo_sched_host "10.0.0.1:1" ["t2"; "t1"])] ++ demo_ack_round [0%N] 2 ++
  [ConnAdd true (demo_sched_host "10.0.0.2:1" ["t1"])] ++ demo_ack_round [0%N; 1%N] 4.

Definition demo_conns (n : nat) : connections * list c_output := conns_run 30 0 (take n demo_conn_events).

Lemma demo_conns_eq n : conns_run 30 0 (take n demo_conn_events) = ((demo_conns n).1, (demo_conns n).2).
Proof. unfold demo_conns. by destruct (conns_run _ _ _). Qed.

Lemma demo_conns_fit : fits (demo_conns 20).2 ∧ fits (demo_conns 6).2.
Proof. split; vm_compute; reflexivity. Qed.

Lemma scheduler_phase_safety_witness : Ack 1 OPERATION_LOCK 4 ∈ demo_conn_events.
Proof.
  destruct (scheduler_phase_safety 30 0 (take 20 demo_conn_events) _ _ (demo_conns_eq 20) (proj1 demo_conns_fit)) as [H _].
  assert (E : ∃ os1 ts vs tb os2, (demo_conns 20).2 = os1 ++ CEnqueue 0 (SendUpdate 4 ts vs tb) :: os2 ∧
    CEnqueue 1 (SendLock 4 ["t1"]) ∈ os1 ∧ Forall (λ o, match o with CClose _ _ => False | _ => True end) os1).
  { exists (take 13 (demo_conns 20).2). eexists _, _, _, (drop 14 (demo_conns 20).2).
    split; [vm_compute; reflexivity|]. split; [|vm_compute; repeat constructor].
    apply list_elem_of_lookup. exists 10. vm_compute. reflexivity. }
  destruct E as (os1 & ts & vs & tb & os2 & E & Hin & Hall).
  apply (H os1 0%N 4%N ts vs tb os2 E 1%N ["t1"] Hin).
  intros err Hc. rewrite list.Forall_forall in Hall. exact (Hall _ Hc).
Defined.

Lemma scheduler_rounds_consistent_witness : CPanic ∉ (demo_conns 20).2.
Proof.
  exact (proj1 (scheduler_rounds_consistent 30 0 (take 20 demo_conn_events) _ _ (demo_conns_eq 20) (proj1 demo_conns_fit))).
Defined.

Lemma scheduler_rounds_progress_witness :
  ∃ r i, rounds (demo_conns 6).1 !! 4%N = Some r ∧ i ∈ members r ∧ i ∉ acked r.
Proof.
  destruct (scheduler_rounds_progress 30 0 (take 6 demo_conn_events) _ _ (demo_conns_eq 6) (proj2 demo_conns_fit)) as [H _].
  assert (Hr : ∃ r, rounds (demo_conns 6).1 !! 4%N = Some r) by (eexists; vm_compute; reflexivity).
  destruct Hr as [r Hr]. destruct (H 4%N r Hr) as (_ & i & Hi & Hn & _). exists r, i. auto.
Defined.
