(* ===== verification/PlacementEndToEnd.v ===== *)
(** * Scheduler and sidecars together

    The scheduler's loop of a namespace ([SchedulerConnections]) sends orders
    through the stream loops and transports ([SchedulerStream], [Transports]) to
    the dissemination loops of the sidecars ([SidecarDisseminator]).  Streams
    deliver in order; sidecars handle the orders interleaved with their own
    requests.

    [tracks] relates a sidecar to what it was sent.  From it and the invariant
    of the scheduler: a sidecar never closes its stream over an order of the
    protocol, and once no round is in flight all sidecars resolve every actor
    to the same host. *)

From S2P Require Import Prelude GoLib ActorLocal ClaimLock ConsistentHash Rendezvous PlacementStore Inflight InflightProps SidecarDisseminator SidecarProps.
From S2P Require Import SchedulerStore SchedulerConnections SchedulerInv SchedulerPhases SchedulerMembers SchedulerProps SchedulerStream Transports.
#[local] Open Scope dapr_scope.

(** ** Orders *)

Definition order_next (g : log_state) (o : Order) : log_state :=
  match Op o with
  | OrderLock => mkLog ({[ o_Version o ]} ∪ lg_open g) (lg_done g) (lg_vers g) (lg_tabs g) (o_Version o)
  | OrderUpdate => mkLog (lg_open g) (lg_done g) (Versions o ∪ lg_vers g)
                     ((dom <$> v2_Entries (v2_tables o)) ∪ lg_tabs g) (lg_max g)
  | OrderUnlock => mkLog (lg_open g ∖ {[ o_Version o ]}) ({[ o_Version o ]} ∪ lg_done g) (lg_vers g) (lg_tabs g) (lg_max g)
  | OrderUnknown => g
  end.

Definition order_ok (g : log_state) (o : Order) : Prop :=
  match Op o with
  | OrderLock => (lg_max g < o_Version o)%N
  | OrderUpdate => o_Version o ∈ lg_open g ∧ no_regression g (Versions o) ∧
      HashAlgorithm (v2_tables o) = HASH_ALGORITHM_RENDEZVOUS
  | OrderUnlock => o_Version o ∈ lg_open g ∪ lg_done g
  | OrderUnknown => False
  end.

(** Every order follows the protocol, from [g]. *)
Fixpoint orders_ok (g : log_state) (l : list Order) : Prop :=
  match l with [] => True | o :: l' => order_ok g o ∧ orders_ok (order_next g o) l' end.

Lemma orders_ok_app g l1 l2 : orders_ok g (l1 ++ l2) ↔ orders_ok g l1 ∧ orders_ok (foldl order_next g l1) l2.
Proof. revert g; induction l1 as [|o l1 IH]; intros g; simpl; [tauto|]. rewrite IH. tauto. Qed.

Lemma orders_of_next g e : foldl order_next g (orders_of e) = log_next g e.
Proof. by destruct e. Qed.

Lemma orders_of_ok g e : log_ok g e → orders_ok g (orders_of e).
Proof.
  destruct e as [s ts|s ts vs tb|s ts|s vs tb]; cbn [log_ok orders_of orders_ok]; unfold order_ok, order_next; simpl; try done.
  intros (H1 & H2 & H3). split_and!; try done; set_solver.
Qed.

Lemma log_orders_next g l : foldl order_next g (l ≫= orders_of) = foldl log_next g l.
Proof.
  revert g; induction l as [|e l IH]; intros g; [done|]. rewrite bind_cons, foldl_app, orders_of_next. apply IH.
Qed.

Lemma log_orders_ok l : log_good l → orders_ok log0 (l ≫= orders_of).
Proof.
  induction l as [|e l IH] using rev_ind; intros Hl; [done|].
  rewrite bind_app, orders_ok_app, log_orders_next. split.
  - apply IH. intros l1 e' l2 E. apply (Hl l1 e' (l2 ++ [e])). by rewrite E, <-app_assoc.
  - rewrite bind_cons, app_nil_r. apply orders_of_ok. by apply (Hl l e []).
Qed.

(** ** The sidecar *)

Section sidecar.
Context {X : XXHash}.
Variable hash : string → N.
Variable pool_idx : lock → N.
Variable ends_by : N → Z → bool.

(** The tables of [i'] are those of [i]. *)
Definition tables_kept (i i' : Inflight) : Prop :=
  v2Entries i' = v2Entries i ∧ versionByType i' = versionByType i ∧ t_Entries i' = t_Entries i ∧
  hostname i' = hostname i ∧ port i' = port i.

Lemma tables_kept_refl i : tables_kept i i.
Proof. done. Qed.

Lemma tables_kept_trans i1 i2 i3 : tables_kept i1 i2 → tables_kept i2 i3 → tables_kept i1 i3.
Proof. unfold tables_kept. intuition congruence. Qed.

Lemma tables_kept_answer r i : tables_kept i (answer hash r i).1.
Proof. destruct (answer_spec hash r i) as [[[l ->] _] _]. done. Qed.

Lemma tables_kept_for_each {A} (l : list A) (body : A → in_handler) i :
  (∀ x i, tables_kept i (body x i).1) → tables_kept i (for_each l body i).1.
Proof.
  intros H. apply (for_each_inv (tables_kept i)); [|done]. intros x i' _ Hi. by eapply tables_kept_trans.
Qed.

Lemma tables_kept_flush t fns i : tables_kept i (flush hash t fns i).1.
Proof.
  unfold flush. rewrite seqp_eq. cbn [fst modify]. apply (tables_kept_trans _ (for_each fns (answer hash) i).1).
  - apply tables_kept_for_each, tables_kept_answer.
  - done.
Qed.

Lemma tables_kept_Acquire r i : tables_kept i (Acquire hash r i).1.
Proof. unfold Acquire, get. case_match; [done|apply tables_kept_answer]. Qed.

Lemma tables_kept_Unlock ts i : tables_kept i (UnlockTypes hash ts i).1.
Proof.
  apply tables_kept_for_each. intros t i'. rewrite seqp_eq. cbn [modify fst]. unfold get.
  destruct (queued _ !! t) as [fns|]; [|done]. destruct (lock_open _); [|done].
  eapply tables_kept_trans; [|apply tables_kept_flush]. done.
Qed.

Lemma tables_kept_Open i : tables_kept i (Inflight_Open hash pool_idx i).1.
Proof.
  unfold Inflight_Open. rewrite seqp_eq. cbn [fst]. unfold get. eapply tables_kept_trans.
  - instantiate (1 := (when (negb (lock_open i)) (modify (set_lock true (lock_New (pool_idx (lck i)) (lck i)))) i).1).
    unfold when. by destruct (negb _).
  - apply tables_kept_for_each. intros [t fns] i'. destruct (isBlocked _ _); [done|apply tables_kept_flush].
Qed.

Lemma tables_kept_gated ch i : tables_kept i (gated hash pool_idx ends_by ch i).
Proof.
  unfold gated. eapply tables_kept_trans; [|instantiate (1 := (Inflight_Open hash pool_idx (LockTypes ch i).1).1)].
  - eapply tables_kept_trans; [|apply tables_kept_Open]. done.
  - unfold CancelClaimsForTypes, get, when. by destruct (_ && _).
Qed.

Lemma merge_loop_success entries versions i changed :
  v2_wf i → (∀ t v cur, versions !! t = Some v → versionByType i !! t = Some cur → (cur ≤ v)%N) →
  ∃ i' ch, merge_loop entries versions i changed = (i', inr ch).
Proof.
  revert i changed; induction entries as [|[t hs] entries IH]; intros i changed Hwf Hv; [by eexists _, _|].
  rewrite merge_loop_cons by done. destruct (regresses versions t i) as [[v cur]|] eqn:Hr.
  - exfalso. unfold regresses in Hr. destruct (versions !! t) as [v'|] eqn:Ev; [|done].
    destruct (versionByType i !! t) as [cur'|] eqn:Ec; [|done].
    destruct (N.ltb_spec v' cur') as [Hlt|]; [|done]. specialize (Hv t v' cur' Ev Ec). lia.
  - apply IH; [by apply merged_wf|]. intros t' v cur Ht'. cbn [versionByType set_v2]. unfold merged_version.
    destruct (versions !! t) as [w|] eqn:Ew; [|by apply Hv]. rewrite lookup_insert. case_decide as E; [|by apply Hv].
    subst t'. intros [= <-]. assert (w = v) as -> by congruence. done.
Qed.

Lemma merge_loop_new_versions entries versions i changed t cur :
  v2_wf i → versionByType (merge_loop entries versions i changed).1 !! t = Some cur →
  versionByType i !! t = Some cur ∨ versions !! t = Some cur.
Proof.
  revert i changed; induction entries as [|[t' hs] entries IH]; intros i changed Hwf; [by left|].
  rewrite merge_loop_cons by done. destruct (regresses versions t' i) as [[v c]|]; [by left|].
  intros [Hv|Hv]%IH; [|by right|by apply merged_wf]. revert Hv. cbn [versionByType set_v2]. unfold merged_version.
  destruct (versions !! t') as [w|] eqn:Ew; [|by left]. rewrite lookup_insert.
  case_decide as E; [|by left]. subst t'. intros [= <-]. by right.
Qed.

(** A Merge that does not go back in versions succeeds; what it installs. *)
Lemma Merge_success i tables versions :
  v2_wf i → HashAlgorithm tables = HASH_ALGORITHM_RENDEZVOUS →
  (∀ t v cur, versions !! t = Some v → versionByType i !! t = Some cur → (cur ≤ v)%N) →
  ∃ i' ch, Merge i tables versions = (i', inr ch) ∧ v2_wf i' ∧ t_Entries i' = t_Entries i ∧
    (∀ t, installed i' t = match v2_Entries tables !! t with Some hs => merged_hosts hs | None => installed i t end) ∧
    (∀ t cur, versionByType i' !! t = Some cur → versionByType i !! t = Some cur ∨ versions !! t = Some cur).
Proof.
  intros Hwf Halg Hv. destruct (Merge_cases i tables versions) as [[E Et]|[[alg E]|[_ E]]].
  - exists i, []. rewrite E, Et. split_and!; [done|done|done| |auto]. intros t. by rewrite lookup_empty.
  - exfalso. revert E. unfold Merge. rewrite Halg. destruct (_ =? 0); [done|]. cbn [Z.eqb negb].
    change ((HASH_ALGORITHM_RENDEZVOUS =? HASH_ALGORITHM_RENDEZVOUS)%Z) with true. cbn [negb]. intros E.
    destruct (merge_loop_success (map_to_list (v2_Entries tables)) versions i [] Hwf Hv) as (i' & ch & E').
    by rewrite E' in E.
  - destruct (merge_loop_success (map_to_list (v2_Entries tables)) versions i [] Hwf Hv) as (i' & ch & E').
    exists i', ch. pose proof (merge_loop_new_versions (map_to_list (v2_Entries tables)) versions i []) as Hn.
    rewrite E' in Hn. 
    destruct (merge_loop_ok hash _ _ _ _ _ _ Hwf (NoDup_fst_map_to_list _) E') as (W & (_ & _ & R & _) & I & _).
    rewrite E, E'. split_and!; [done|done|done| |intros t cur; by apply Hn]. intros t. by rewrite I, list_to_map_to_list.
Qed.

(** ** A sidecar and what it was sent *)

(** The addresses installed for [t]. *)
Definition installed_addrs (i : Inflight) (t : string) : gset string := default ∅ (dom <$> installed i t).

Record tracks (d : disseminator) (g : log_state) : Prop := {
  tk_sp : schedulerPlacement d = true;
  tk_wf : v2_wf (inflight d);
  tk_v1 : t_Entries (inflight d) = ∅;
  tk_open : ∀ s, is_Some (v2Rounds d !! s) ↔ s ∈ lg_open g;
  tk_done : v2Completed d = lg_done g;
  tk_max : ∀ s, s ∈ lg_open g → (s ≤ lg_max g)%N;
  tk_vers : ∀ t cur, versionByType (inflight d) !! t = Some cur →
    ∃ v, lg_vers g !! t = Some v ∧ (cur ≤ v)%N;
  tk_tabs : ∀ t, installed_addrs (inflight d) t = default ∅ (lg_tabs g !! t)
}.

Lemma tracks_kept d i g : tracks d g → tables_kept (inflight d) i → tracks (set_inflight i d) g.
Proof.
  intros [] (E1 & E2 & E3 & _). split; simpl; try done.
  - unfold v2_wf. by rewrite E1.
  - by rewrite E3.
  - by rewrite E2.
  - intros t. unfold installed_addrs, installed. rewrite E1. apply tk_tabs0.
Qed.

Lemma tracks_start i : tracks (Diss_New true (ResetSession i)) log0.
Proof.
  split; simpl; try done. intros s. rewrite lookup_empty. split; [by intros []|set_solver].
Qed.

(** Handlers that never ask for the stream to be closed. *)
Definition keeps_stream (h : diss_handler) : Prop := ∀ d err, DOCloseStream err ∉ (h d).2.

Lemma keeps_stream_seqp h1 h2 : keeps_stream h1 → keeps_stream h2 → keeps_stream (h1 ;;; h2).
Proof. intros H1 H2 d err. rewrite seqp_eq. simpl. rewrite elem_of_app. intros [?|?]; [by eapply H1|by eapply H2]. Qed.

Lemma keeps_stream_call c : keeps_stream (call c).
Proof. intros d err. rewrite call_eq. simpl. intros (o & [=] & _)%list_elem_of_fmap. Qed.

Lemma keeps_stream_get k : (∀ d, keeps_stream (k d)) → keeps_stream (get k).
Proof. intros H d err. unfold get. apply H. Qed.

Lemma keeps_stream_modify f : keeps_stream (modify f).
Proof. intros d err. simpl. apply not_elem_of_nil. Qed.

Lemma keeps_stream_skip : keeps_stream skip.
Proof. intros d err. simpl. apply not_elem_of_nil. Qed.

Lemma keeps_stream_when b h : keeps_stream h → keeps_stream (when b h).
Proof. destruct b; [done|]. intros _. apply keeps_stream_skip. Qed.

Lemma keeps_stream_emit o : (∀ err, o ≠ DOCloseStream err) → keeps_stream (emit [o]).
Proof. intros H d err. simpl. rewrite list_elem_of_singleton. intros E. by apply (H err). Qed.

Ltac stream_kept := repeat match goal with
  | |- keeps_stream (seqp _ _) => apply keeps_stream_seqp
  | |- keeps_stream (call _) => apply keeps_stream_call
  | |- keeps_stream (modify _) => apply keeps_stream_modify
  | |- keeps_stream skip => apply keeps_stream_skip
  | |- keeps_stream (when _ _) => apply keeps_stream_when
  | |- keeps_stream (emit [_]) => apply keeps_stream_emit; done
  | |- keeps_stream (sendAck _ _) => unfold sendAck
  | |- keeps_stream (get _) => apply keeps_stream_get; intros ?
  end.

Lemma keeps_stream_completeRound : keeps_stream SidecarDisseminator.completeRound.
Proof. unfold SidecarDisseminator.completeRound, reloadReminderTypes. stream_kept. destruct (SidecarDisseminator.pendingTypes _) as [? ?]. stream_kept. Qed.

Lemma keeps_stream_installed ch : keeps_stream (installed_tables hash pool_idx ends_by ch skip).
Proof. unfold installed_tables. stream_kept. Qed.

Ltac by_handler := match goal with |- _ ∉ (?h ?d).2 => cut (keeps_stream h); [intros Hk; apply Hk|] end.

Section order.
Context (types : list string) (o : Order) (d : disseminator) (g : log_state).
Hypothesis (Ht : tracks d g) (Hok : order_ok g o).

Notation handle_order := (handleOrderV2 hash pool_idx ends_by types o d).
Notation kept := (tracks handle_order.1 (order_next g o) ∧ ∀ err, DOCloseStream err ∉ handle_order.2).

Lemma tracks_lock : Op o = OrderLock → kept.
Proof.
  intros Hop. unfold order_ok in Hok. rewrite Hop in Hok. destruct Ht as [Hsp Hw Hv1 Ho Hd Hm Hv Htb]. split.
  - rewrite v2_lock_state by done. unfold order_next, v2_locked. rewrite Hop. apply tracks_kept.
    + split; simpl; try done.
      * intros s. rewrite lookup_insert. case_decide as E; [subst; split; [set_solver|eauto]|]. rewrite Ho. set_solver.
      * intros s [->%elem_of_singleton|Hs%Hm]%elem_of_union; lia.
    + destruct (_ =? 0); done.
  - intros err. unfold handleOrderV2. rewrite Hop. by_handler. stream_kept.
Qed.

Lemma tracks_update : Op o = OrderUpdate → kept.
Proof.
  intros Hop. unfold order_ok in Hok. rewrite Hop in Hok. destruct Hok as (Hs & Hreg & Halg).
  destruct Ht as [Hsp Hw Hv1 Ho Hd Hm Hv Htb]. destruct (proj2 (Ho _) Hs) as [r Hr].
  destruct (Merge_success (inflight d) (v2_tables o) (Versions o) Hw Halg) as (i' & ch & HM & W & E1 & I & V).
  { intros t v cur Hvt Hc. destruct (Hv t cur Hc) as (c & Hc' & Hle). specialize (Hreg t v c Hvt Hc'). lia. }
  split.
  - rewrite v2_update_state by done. rewrite Hr, HM. unfold v2_updated.
    replace (set_inflight (gated hash pool_idx ends_by ch i') _) with
      (set_inflight (gated hash pool_idx ends_by ch i') (set_v2Rounds
        (<[o_Version o := {| scope := scope r; changed := list_to_set ch ∪ changed r |}]> (v2Rounds d)) (set_inflight i' d))) by done.
    apply tracks_kept; [|apply tables_kept_gated]. unfold order_next. rewrite Hop. split; simpl; try done.
    + by rewrite E1.
    + intros s. rewrite lookup_insert. case_decide as E; [|apply Ho]. subst s. split; [done|eauto].
    + intros t cur Hc. rewrite lookup_union. destruct (Versions o !! t) as [v|] eqn:Ev; simpl.
      * exists v. split; [by destruct (lg_vers g !! t)|]. destruct (V t cur Hc) as [Hc'|[= <-]%(eq_trans (eq_sym Ev))]; [|done].
        destruct (Hv t cur Hc') as (c & Hc'' & Hle). specialize (Hreg t v c Ev Hc''). lia.
      * destruct (V t cur Hc) as [Hc'|Hc']; [|congruence]. destruct (Hv t cur Hc') as (c & -> & Hle). by exists c.
    + intros t. unfold installed_addrs. rewrite I, lookup_union, lookup_fmap.
      destruct (v2_Entries (v2_tables o) !! t) as [hs|] eqn:Eh; simpl.
      * unfold merged_hosts. destruct (size hs =? 0) eqn:Ez; [|by destruct (lg_tabs g !! t)].
        apply Nat.eqb_eq, map_size_empty_iff in Ez as ->. rewrite dom_empty_L. by destruct (lg_tabs g !! t).
      * fold (installed_addrs (inflight d) t). rewrite Htb. by destruct (lg_tabs g !! t).
  - intros err. unfold handleOrderV2, get. rewrite Hop, Hr, HM. by_handler. stream_kept. apply keeps_stream_installed.
Qed.

Lemma tracks_unlock : Op o = OrderUnlock → kept.
Proof.
  intros Hop. unfold order_ok in Hok. rewrite Hop in Hok. pose proof Ht as [Hsp Hw Hv1 Ho Hd Hm Hv Htb].
  destruct (v2Rounds d !! o_Version o) as [r|] eqn:Hr.
  - split.
    + destruct (v2_unlock_eq hash pool_idx ends_by types o d r Hop Hr) as (os1 & os2 & ->). unfold order_next, v2_unlocked.
      rewrite Hop. cbn [fst]. apply tracks_kept; [|apply tables_kept_Unlock]. split; simpl; try done.
      * intros s. rewrite lookup_delete. case_decide as E; [subst; split; [by intros []|set_solver]|]. rewrite Ho. set_solver.
      * by rewrite Hd.
      * intros s [Hs _]%elem_of_difference. by apply Hm.
    + intros err. unfold handleOrderV2. rewrite Hop. unfold get at 1. rewrite Hr. by_handler. stream_kept. apply keeps_stream_completeRound.
  - assert (Hn : o_Version o ∉ lg_open g). { intros Hs. apply Ho in Hs. rewrite Hr in Hs. by destruct Hs. }
    assert (Hc : o_Version o ∈ v2Completed d) by (rewrite Hd; set_solver).
    unfold handleOrderV2, get. rewrite Hop, Hr. unfold not_in_flight, get. rewrite bool_decide_true by done. simpl. split; [|set_solver].
    unfold order_next. rewrite Hop. split; simpl; try done.
    + intros s. rewrite Ho. set_solver.
    + rewrite Hd. set_solver.
    + intros s [Hs _]%elem_of_difference. by apply Hm.
Qed.

Lemma tracks_order : kept.
Proof.
  destruct (Op o) eqn:Hop; [by apply tracks_lock|by apply tracks_update|by apply tracks_unlock|].
  unfold order_ok in Hok. by rewrite Hop in Hok.
Qed.

End order.

(** ** Sessions *)

(** What a sidecar's loop handles while its stream is up: requests, reports and
    orders; [te.1] are the types of the actor table at that moment. *)
Definition session_event (te : list string * EventDiss) : Prop :=
  match te.2 with
  | EvRequest _ | EvReportHost _ | EvReloadReminderTypes | EvStreamOrder _ => True
  | EvDisseminationTimeout _ | EvShutdown _ => False
  end.

Definition event_order (te : list string * EventDiss) : option Order :=
  match te.2 with EvStreamOrder o => Some o | _ => None end.

Definition sidecar_run (evs : list (list string * EventDiss)) : diss_handler :=
  run (λ te, SidecarDisseminator.Handle hash pool_idx ends_by te.1 te.2) evs.

Lemma tracks_event te d g :
  tracks d g → session_event te → event_order te = None →
  tracks (SidecarDisseminator.Handle hash pool_idx ends_by te.1 te.2 d).1 g ∧
  ∀ err, DOCloseStream err ∉ (SidecarDisseminator.Handle hash pool_idx ends_by te.1 te.2 d).2.
Proof.
  intros Ht Hs Ho. destruct te as [types e]. unfold session_event, event_order in *. cbn [fst snd] in *.
  destruct e as [r|r| |o|v|err]; try done.
  - rewrite Handle_request. split; [|intros err; by_handler; stream_kept].
    rewrite call_eq. cbn [fst]. apply tracks_kept; [done|apply tables_kept_Acquire].
  - rewrite Handle_frame by done. split; [done|]. intros err. cbn [SidecarDisseminator.Handle]. unfold handleReportHost.
    by_handler. stream_kept.
  - rewrite Handle_frame by done. split; [done|]. intros err. cbn [SidecarDisseminator.Handle].
    by_handler. unfold reloadReminderTypes. stream_kept.
Qed.

Lemma tracks_run evs d g :
  tracks d g → Forall session_event evs → orders_ok g (omap event_order evs) →
  tracks (sidecar_run evs d).1 (foldl order_next g (omap event_order evs)) ∧
  ∀ err, DOCloseStream err ∉ (sidecar_run evs d).2.
Proof.
  revert d g; induction evs as [|te evs IH]; intros d g Ht Hs Ho; [split; [done|set_solver]|].
  inversion Hs as [|? ? Hte Hevs]; subst. unfold sidecar_run. cbn [run]. rewrite seqp_eq. cbn [fst snd].
  fold (sidecar_run evs). cbn [omap list_omap] in *.
  assert (Hstep : tracks (SidecarDisseminator.Handle hash pool_idx ends_by te.1 te.2 d).1
      (from_option (order_next g) g (event_order te)) ∧
    (∀ err, DOCloseStream err ∉ (SidecarDisseminator.Handle hash pool_idx ends_by te.1 te.2 d).2) ∧
    orders_ok (from_option (order_next g) g (event_order te)) (omap event_order evs)).
  { destruct (event_order te) as [o|] eqn:He; simpl.
    - destruct Ho as [Ho Hos]. destruct te as [types e]. unfold event_order in He. simpl in *. destruct e; try done.
      injection He as ->. cbn [SidecarDisseminator.Handle]. unfold get. rewrite (tk_sp d g Ht).
      destruct (tracks_order types o d g Ht Ho). done.
    - destruct (tracks_event te d g Ht Hte He). done. }
  destruct Hstep as (Ht' & Hc & Ho'). destruct (IH _ _ Ht' Hevs Ho') as [Ht'' Hc'].
  split; [by destruct (event_order te)|]. intros err [?|?]%elem_of_app; [by apply (Hc err)|by apply (Hc' err)].
Qed.

(** ** End to end *)

(** What the sidecar at stream [i] receives of what the scheduler sent: the
    stream loop, the channel and the v2 transport in a row. *)
Definition received (i : N) (Initial : ActorHost) (os : list c_output) : list (transport_error + Order) :=
  (v2_Recv ∘ inr) <$> sent_orders (run (stream_Handle sends_fine) (SEv <$> log_of i os) (stream_New i Initial)).2.

Lemma received_eq i Initial os : received i Initial os = inr <$> (log_of i os ≫= orders_of).
Proof. apply v2_stream_orders. Qed.

Lemma prefix_inr {A B} (l k : list B) : ((inr : B → A + B) <$> l) `prefix_of` (inr <$> k) → l `prefix_of` k.
Proof.
  revert k; induction l as [|x l IH]; intros k Hp; [apply prefix_nil|].
  destruct k as [|y k]; [by apply prefix_nil_inv in Hp|]. rewrite !fmap_cons in Hp.
  pose proof (prefix_cons_inv_1 _ _ _ _ Hp) as [= ->]. apply prefix_cons, IH. by eapply prefix_cons_inv_2.
Qed.

(** A sidecar never rejects what a scheduler sends: in any session of the v2 protocol that
    has received a prefix of the orders of its stream, the sidecar has not closed the stream
    with an error; no order repeats a round, names an unknown one, skips a phase or goes
    back in version. *)
Theorem scheduler_orders_accepted timeout window es c os i Initial i0 evs err :
  conns_run timeout window es = (c, os) → fits os → Forall session_event evs →
  (inr <$> omap event_order evs) `prefix_of` received i Initial os →
  DOCloseStream err ∉ (sidecar_run evs (Diss_New true (ResetSession i0))).2.
Proof.
  intros Hrun Hfit Hs Hp. pose proof (conns_run_inv timeout window es) as Hinv. rewrite Hrun in Hinv. cbn [fst snd] in Hinv.
  destruct (Hinv Hfit) as [_ _ L _]. rewrite received_eq in Hp. apply prefix_inr in Hp as [k Hk].
  apply (tracks_run evs _ log0 (tracks_start i0) Hs).
  assert (Hok : orders_ok log0 (omap event_order evs ++ k)) by (rewrite <-Hk; apply log_orders_ok, (v_good _ _ _ L i)).
  apply orders_ok_app in Hok. apply Hok.
Qed.

Lemma is_owner_ext hs hs' key a : (∀ h, h ∈ hs ↔ h ∈ hs') → is_owner hs key a → is_owner hs' key a.
Proof. unfold is_owner. intros E [Ha H]. split; [by apply E|]. intros h Hh. apply H. by apply E. Qed.

Lemma resolve_addrs d g t id nc :
  tracks d g → let req := {| ActorType := t; ActorID := id; NoCache := nc |} in
  (default ∅ (lg_tabs g !! t) = ∅ → Inflight_resolve hash (inflight d) req = RErr (ErrActorNoAddress (ActorKey req))) ∧
  (default ∅ (lg_tabs g !! t) ≠ ∅ → ∃ a app, Inflight_resolve hash (inflight d) req =
     ROk {| Address := a; resp_AppID := app; Local := IsActorLocal a (hostname (inflight d)) (port (inflight d)) |} ∧
     is_owner (elements (default ∅ (lg_tabs g !! t))) id a).
Proof.
  intros Ht. cbv zeta. rewrite <-(tk_tabs d g Ht t). unfold installed_addrs.
  destruct (installed (inflight d) t) as [hs|] eqn:Hi; simpl.
  - destruct (resolve_installed hash (inflight d) t hs id nc (tk_wf d g Ht) Hi) as (a & -> & Ha). split.
    + intros He. exfalso. destruct Ha as [Ha _]. apply keys_elem, elem_of_dom in Ha. set_solver.
    + intros _. exists a, (default EmptyString (hs !! a)). split; [done|].
      eapply is_owner_ext; [|exact Ha]. intros h. by rewrite keys_elem, elem_of_elements, elem_of_dom.
  - split; [|done]. intros _. unfold installed in Hi. unfold Inflight_resolve. simpl.
    destruct (v2Entries (inflight d) !! t); [done|]. by rewrite (tk_v1 d g Ht), lookup_empty.
Qed.

(** C2: End-to-end agreement of the v2 protocol. Take any run of a namespace's scheduler
    loop that fits in 64-bit counters and ends with no round in flight and no pending type,
    a connected stream, and any session of the sidecar behind it that handled exactly what
    that stream delivered (interleaved with other events). Then the sidecar resolves each
    actor to the rendezvous owner among the hosts now connected that report its type, and to
    an error if there is none; so all sidecars agree, whatever rounds, snapshots, departures
    and timeouts the run had. *)
Theorem scheduler_sidecars_agree timeout window es c os i Initial i0 evs t id nc :
  conns_run timeout window es = (c, os) → fits os → rounds c = ∅ → pendingTypes c = ∅ → is_Some (streams c !! i) →
  Forall session_event evs → inr <$> omap event_order evs = received i Initial os →
  let d := (sidecar_run evs (Diss_New true (ResetSession i0))).1 in
  let req := {| ActorType := t; ActorID := id; NoCache := nc |} in
  (hosting (store c) t = ∅ → Inflight_resolve hash (inflight d) req = RErr (ErrActorNoAddress (ActorKey req))) ∧
  (hosting (store c) t ≠ ∅ → ∃ a app, Inflight_resolve hash (inflight d) req =
     ROk {| Address := a; resp_AppID := app; Local := IsActorLocal a (hostname (inflight d)) (port (inflight d)) |} ∧
     is_owner (elements (hosting (store c) t)) id a) ∧
  (∀ a, a ∈ hosting (store c) t → ∃ j h, is_Some (streams c !! j) ∧ s_hosts (store c) !! j = Some h ∧
     t ∈ ah_ActorTypes h ∧ ah_Address h = a).
Proof.
  intros Hrun Hfit Hr Hp Hi Hs Hall. pose proof (conns_run_inv timeout window es) as Hinv. rewrite Hrun in Hinv. cbn [fst snd] in Hinv.
  destruct (Hinv Hfit) as [S _ L _]. cbv zeta. rewrite received_eq in Hall. apply (inj (fmap inr)) in Hall.
  destruct (tracks_run evs _ log0 (tracks_start i0) Hs) as [Ht _].
  { rewrite Hall. apply log_orders_ok, (v_good _ _ _ L i). }
  rewrite Hall, log_orders_next in Ht. fold (lg i os) in Ht.
  assert (Hroute : default ∅ (lg_tabs (lg i os) !! t) = hosting (store c) t).
  { destruct (v_conv _ _ _ L i t Hi) as [[]|[Hin|[(s & r & Hsr & _)|?]]]; [set_solver| |done].
    by rewrite Hr, lookup_empty in Hsr. }
  destruct (resolve_addrs _ _ t id nc Ht) as [R1 R2]. rewrite Hroute in R1, R2. split_and!; [exact R1|exact R2|].
  intros a (j & h & Hj & Hth & Ha)%elem_of_hosting. exists j, h. split_and!; try done. apply (v_hosts c S). eauto.
Qed.

End sidecar.

(** ** Witnesses *)

#[local] Existing Instance poly_hash.

Definition demo_stream_host : ActorHost := demo_sched_host "10.0.0.2:1" ["t1"].

(** The sidecar at stream 1 handles everything it is sent, and a lookup. *)
Definition demo_session (os : list c_output) : list (list string * EventDiss) :=
  ((λ o, (["t1"], EvStreamOrder o)) <$> (log_of 1 os ≫= orders_of)) ++ [(["t1"], demo_lookup 7)].

Lemma demo_session_orders os : inr <$> omap event_order (demo_session os) = received 1 demo_stream_host os.
Proof.
  rewrite received_eq. f_equal. unfold demo_session. rewrite omap_app, app_nil_r. generalize (log_of 1 os ≫= orders_of).
  intros l. induction l as [|o l IH]; [done|]. rewrite fmap_cons. cbn [omap list_omap event_order snd]. f_equal. exact IH.
Qed.

Lemma demo_session_events os : Forall session_event (demo_session os).
Proof.
  unfold demo_session. apply Forall_app. split; [|by repeat constructor]. apply list.Forall_forall.
  intros te (o & -> & _)%list_elem_of_fmap. exact I.
Qed.

Lemma scheduler_orders_accepted_witness :
  DOCloseStream ErrUnknownOperation ∉
    (sidecar_run demo_hash demo_pool demo_ends (demo_session (demo_conns 20).2)
       (Diss_New true (ResetSession demo_inflight))).2.
Proof.
  apply (scheduler_orders_accepted demo_hash demo_pool demo_ends 30 0 (take 20 demo_conn_events) _ _ 1 demo_stream_host
    demo_inflight _ _ (demo_conns_eq 20) (proj1 demo_conns_fit)).
  - apply demo_session_events.
  - rewrite demo_session_orders. reflexivity.
Defined.

Lemma scheduler_sidecars_agree_witness :
  ∃ r, Inflight_resolve demo_hash (inflight (sidecar_run demo_hash demo_pool demo_ends
      (demo_session (demo_conns 20).2) (Diss_New true (ResetSession demo_inflight))).1)
      {| ActorType := "t1"; ActorID := "a1"; NoCache := false |} =
    ROk r ∧ is_owner ["10.0.0.1:1"; "10.0.0.2:1"] "a1" (Address r).
Proof.
  destruct (scheduler_sidecars_agree demo_hash demo_pool demo_ends 30 0 (take 20 demo_conn_events) _ _ 1 demo_stream_host
    demo_inflight (demo_session (demo_conns 20).2) "t1" "a1" false (demo_conns_eq 20) (proj1 demo_conns_fit)) as (_ & H & _).
  - vm_compute. reflexivity.
  - vm_compute. reflexivity.
  - vm_compute. eauto.
  - apply demo_session_events.
  - apply demo_session_orders.
  - destruct H as (a & app & H1 & H2); [vm_compute; discriminate|]. eexists. split; [exact H1|].
    vm_compute (elements _) in H2. exact H2.
Defined.
