(* ===== verification/SchedulerNamespaces.v ===== *)
(** * The scheduler's placement: namespace router and admission
      (pkg/scheduler/server/internal/placement: loops/namespaces/namespaces.go,
       placement.go)

    The router keeps one connections loop per namespace while this scheduler is
    the placement leader.  A loop handles the events enqueued on it in order, so
    what a loop does is a function of its inbox: the events since it was
    created. *)

From S2P Require Import Prelude GoLib Inflight HostAuthz SchedulerStore SchedulerConnections SchedulerInv SchedulerPhases SchedulerMembers SchedulerStream.
#[local] Open Scope dapr_scope.

(** ** The router *)

Inductive EventNamespace :=
  | NsConnAdd (cancel : bool) (Initial : ActorHost)
  | NsSetLeader (Leader : bool)
  | NsConnCloseStream (StreamIDx : N) (Namespace : string) (err : close_error)
  | NsConnCloseNamespace (Namespace : string)
  | NsConnLoopFailed (Namespace : string)
  | NsReportedTypes (StreamIDx : N) (Host : ActorHost)
  | NsAck (StreamIDx : N) (Namespace : string) (op : Operation) (Seq : N)
  | NsShutdown (err : option close_error).

Inductive ns_output :=
  | NCancel (err : string)
  | NNew (ns : string)
  | NEnqueue (ns : string) (e : EventConnections)
  | NClose (ns : string) (err : close_error)
  | NFailed (ns : string).

(** [namespaces]: the number of connections of each loop. *)
Record namespaces := mkNamespaces { accepting : bool; nss : gmap string N }.

Definition namespaces_New : namespaces := {| accepting := false; nss := ∅ |}.

Definition set_nss (m : gmap string N) (n : namespaces) : namespaces := mkNamespaces (accepting n) m.
Definition set_accepting (b : bool) (n : namespaces) : namespaces := mkNamespaces b (nss n).

Definition ns_handler := prog namespaces ns_output.

Definition not_leader : string := "scheduler is not the placement leader".
Definition lost_leadership : close_error := ErrClosed "scheduler lost placement leadership".
Definition shutting_down : close_error := ErrClosed "placement is shutting down".

Definition ns_handleAdd (cancel : bool) (Initial : ActorHost) : ns_handler :=
  with n do
  if negb (accepting n) then emit [NCancel not_leader]
  else
    let ns := ah_Namespace Initial in
    match nss n !! ns with
    | None =>
        emit [NNew ns] ;;;
        modify (set_nss (<[ns := u64_succ 0]> (nss n))) ;;;
        emit [NEnqueue ns (ConnAdd cancel Initial)]
    | Some k =>
        modify (set_nss (<[ns := u64_succ k]> (nss n))) ;;;
        emit [NEnqueue ns (ConnAdd cancel Initial)]
    end.

Definition closeAll (err : close_error) : ns_handler :=
  (with n do emit ((λ ns, NClose ns err) <$> (map_to_list (nss n)).*1)) ;;;
  modify (set_nss ∅).

Definition handleSetLeader (Leader : bool) : ns_handler :=
  with n do
  if eqb Leader (accepting n) then skip
  else
    modify (set_accepting Leader) ;;;
    if Leader then skip else closeAll lost_leadership.

Definition ns_handleCloseStream (idx : N) (ns : string) (err : close_error) : ns_handler :=
  with n do
  match nss n !! ns with
  | None => skip
  | Some k =>
      modify (set_nss (<[ns := if (0 <? k)%N then (k - 1)%N else k]> (nss n))) ;;;
      emit [NEnqueue ns (ConnCloseStream idx err)]
  end.

Definition handleCloseNamespace (ns : string) : ns_handler :=
  with n do
  match nss n !! ns with
  | None => skip
  | Some k =>
      if negb (k =? 0)%N then skip
      else modify (set_nss (delete ns (nss n))) ;;; emit [NClose ns (ErrClosed EmptyString)]
  end.

Definition route (ns : string) (e : EventConnections) : ns_handler :=
  with n do
  match nss n !! ns with
  | None => skip
  | Some _ => emit [NEnqueue ns e]
  end.

Definition ns_handleShutdown (err : option close_error) : ns_handler :=
  modify (set_accepting false) ;;; closeAll (default shutting_down err).

Definition ns_Handle (event : EventNamespace) : ns_handler :=
  match event with
  | NsConnAdd cancel Initial => ns_handleAdd cancel Initial
  | NsSetLeader Leader => handleSetLeader Leader
  | NsConnCloseStream idx ns err => ns_handleCloseStream idx ns err
  | NsConnCloseNamespace ns => handleCloseNamespace ns
  | NsConnLoopFailed ns => emit [NFailed ns]
  | NsReportedTypes idx host => route (ah_Namespace host) (ReportedTypes idx host)
  | NsAck idx ns op sq => route ns (Ack idx op sq)
  | NsShutdown err => ns_handleShutdown err
  end.

(** ** Admission of streams (placement.go) *)

Inductive admission :=
  | Unimplemented
  | FailedPrecondition
  | RecvFailed (e : string)
  | NoReport
  | Unauthorized (e : authz_error)
  | Accepted (Initial : ActorHost).

Record placement := mkPlacement {
  enabled : bool; leader : bool; running : bool; p_streams : Z }.

(** [ReportActorTypes] up to the [ConnAdd] it enqueues; [first] is the result of
    the first [Recv]. *)
Definition ReportActorTypes (caller : option (option SpiffeID)) (p : placement)
    (first : string + ReportActorTypesRequest) : placement * admission :=
  if negb (enabled p) then (p, Unimplemented)
  else if negb (leader p) || negb (running p) then (p, FailedPrecondition)
  else
    match first with
    | inl e => (p, RecvFailed e)
    | inr (Request_Report (Some initial)) =>
        match Host caller (Some initial) with
        | Some e => (p, Unauthorized e)
        | None => (mkPlacement (enabled p) (leader p) (running p) (p_streams p + 1), Accepted initial)
        end
    | inr _ => (p, NoReport)
    end.

(** The deferred calls when the stream ends. *)
Definition stream_done (p : placement) : placement :=
  mkPlacement (enabled p) (leader p) (running p) (p_streams p - 1).

Definition SetLeader (Leader : bool) (p : placement) : placement * option EventNamespace :=
  if negb (enabled p) then (p, None)
  else (mkPlacement (enabled p) Leader (running p) (p_streams p), Some (NsSetLeader Leader)).

Definition HasPlacementStreams (p : placement) : bool := (0 <? p_streams p)%Z.

(** ** Specification of one namespace *)

(** The inbox of the live loop of [ns] after the outputs [os]. *)
Definition inbox_step (ns : string) (b : option (list EventConnections)) (o : ns_output) : option (list EventConnections) :=
  match o with
  | NNew ns' => if decide (ns' = ns) then Some [] else b
  | NEnqueue ns' e => if decide (ns' = ns) then (λ l, l ++ [e]) <$> b else b
  | NClose ns' _ => if decide (ns' = ns) then None else b
  | NCancel _ | NFailed _ => b
  end.

Definition inbox (ns : string) (os : list ns_output) : option (list EventConnections) := foldl (inbox_step ns) None os.

(** A namespace alone: whether the scheduler leads, and the loop of the
    namespace with its connection count and inbox. *)
Record ns_spec := mkNsSpec { sp_leader : bool; sp_loop : option (N * list EventConnections) }.

Definition sp_append (e : EventConnections) (l : option (N * list EventConnections)) : option (N * list EventConnections) :=
  (λ kl, (kl.1, kl.2 ++ [e])) <$> l.

Definition spec_step (ns : string) (sp : ns_spec) (ev : EventNamespace) : ns_spec :=
  match ev with
  | NsConnAdd cancel h =>
      if decide (ah_Namespace h = ns ∧ sp_leader sp = true) then
        let '(k, l) := default (0%N, []) (sp_loop sp) in
        mkNsSpec true (Some (u64_succ k, l ++ [ConnAdd cancel h]))
      else sp
  | NsSetLeader b => mkNsSpec b (if b then sp_loop sp else None)
  | NsConnCloseStream idx ns' err =>
      if decide (ns' = ns) then
        mkNsSpec (sp_leader sp) (sp_append (ConnCloseStream idx err) ((λ kl, ((kl.1 - 1)%N, kl.2)) <$> sp_loop sp))
      else sp
  | NsConnCloseNamespace ns' =>
      if decide (ns' = ns ∧ (sp_loop sp ≫= λ kl, Some kl.1) = Some 0%N) then mkNsSpec (sp_leader sp) None else sp
  | NsConnLoopFailed _ => sp
  | NsReportedTypes idx h =>
      if decide (ah_Namespace h = ns) then mkNsSpec (sp_leader sp) (sp_append (ReportedTypes idx h) (sp_loop sp)) else sp
  | NsAck idx ns' op sq =>
      if decide (ns' = ns) then mkNsSpec (sp_leader sp) (sp_append (Ack idx op sq) (sp_loop sp)) else sp
  | NsShutdown _ => mkNsSpec false None
  end.

Definition implements (ns : string) (n : namespaces) (os : list ns_output) (sp : ns_spec) : Prop :=
  accepting n = sp_leader sp ∧ nss n !! ns = fst <$> sp_loop sp ∧ inbox ns os = snd <$> sp_loop sp ∧
  (accepting n = false → nss n = ∅).

Lemma inbox_app ns os os' : inbox ns (os ++ os') = foldl (inbox_step ns) (inbox ns os) os'.
Proof. apply foldl_app. Qed.

Lemma inbox_closed ns (l : list string) err b :
  foldl (inbox_step ns) b ((λ x, NClose x err) <$> l) = if decide (ns ∈ l) then None else b.
Proof.
  revert b; induction l as [|x l IH]; intros b; [by rewrite decide_False by apply not_elem_of_nil|].
  rewrite fmap_cons. cbn [foldl inbox_step]. rewrite IH. destruct (decide (x = ns)) as [->|Hne].
  - rewrite (decide_True (P := ns ∈ ns :: l)) by left. by destruct (decide (ns ∈ l)).
  - destruct (decide (ns ∈ l)); [by rewrite decide_True by (by right)|]. rewrite decide_False; [done|set_solver].
Qed.

Lemma implements_closeAll ns n os sp err b :
  implements ns n os sp →
  implements ns (closeAll err (set_accepting b n)).1 (os ++ (closeAll err (set_accepting b n)).2) (mkNsSpec b None).
Proof.
  intros (Ha & Hn & Hi & He). unfold closeAll. rewrite seqp_eq. unfold get, implements. cbn [emit modify fst snd].
  rewrite app_nil_r, inbox_app, inbox_closed. split_and!; [done|done| |done]. simpl.
  destruct (decide (ns ∈ (map_to_list (nss n)).*1)) as [|Hni]; [done|]. rewrite Hi.
  destruct (sp_loop sp) as [[k l]|]; [|done]. destruct Hni. simpl in Hn. apply list_elem_of_fmap. exists (ns, k).
  split; [done|by apply elem_of_map_to_list].
Qed.

Section step.
Context (ns : string) (n : namespaces) (os : list ns_output) (sp : ns_spec).
Hypothesis (H : implements ns n os sp).

Notation after h := (implements ns (h n).1 (os ++ (h n).2)).

Lemma implements_skip : after (skip : ns_handler) sp.
Proof. unfold implements. simpl. by rewrite app_nil_r. Qed.

(** A loop exists only while the scheduler leads. *)
Lemma implements_live ns' k : nss n !! ns' = Some k → accepting n = true.
Proof.
  destruct H as (_ & _ & _ & He). intros Hk. destruct (accepting n); [done|].
  by rewrite (He eq_refl), lookup_empty in Hk.
Qed.

Lemma implements_add cancel h : after (ns_handleAdd cancel h) (spec_step ns sp (NsConnAdd cancel h)).
Proof.
  pose proof H as (Ha & Hn & Hi & He). unfold ns_handleAdd, get. cbn [spec_step].
  destruct (accepting n) eqn:Eacc; cbn [negb].
  2: { rewrite decide_False by (intros [_ ?]; congruence). unfold implements. rewrite inbox_app. simpl. split_and!; congruence || auto. }
  destruct (decide (ah_Namespace h = ns)) as [->|Hne].
  - rewrite decide_True by done. rewrite Hn. destruct (sp_loop sp) as [[k l]|] eqn:El; unfold implements; simpl;
      rewrite Eacc, inbox_app, lookup_insert_eq; simpl; rewrite ?Hi; simpl; rewrite ?decide_True by done; done.
  - rewrite decide_False by (intros [? _]; done). unfold implements.
    destruct (nss n !! ah_Namespace h); simpl; rewrite Eacc, inbox_app, lookup_insert_ne by done; simpl;
      rewrite ?decide_False by done; done.
Qed.

Lemma implements_leader b : after (handleSetLeader b) (spec_step ns sp (NsSetLeader b)).
Proof.
  pose proof H as (Ha & Hn & Hi & He). unfold handleSetLeader, get. cbn [spec_step]. destruct (eqb b (accepting n)) eqn:Eb.
  - apply eqb_prop in Eb as ->. unfold implements. simpl. rewrite app_nil_r.
    destruct (accepting n) eqn:Eacc; [by rewrite Hn, Hi|]. rewrite (He eq_refl), lookup_empty in Hn.
    rewrite (He eq_refl), lookup_empty, Hi. by destruct (sp_loop sp).
  - destruct b; rewrite seqp_eq; cbn [modify fst snd app]; [|by apply implements_closeAll with (sp := sp)].
    unfold implements. simpl. by rewrite app_nil_r.
Qed.

Lemma implements_route ns' e :
  after (route ns' e) (if decide (ns' = ns) then mkNsSpec (sp_leader sp) (sp_append e (sp_loop sp)) else sp).
Proof.
  pose proof H as (Ha & Hn & Hi & He). unfold route, get. destruct (decide (ns' = ns)) as [->|Hne].
  - rewrite Hn. destruct (sp_loop sp) as [[k l]|] eqn:El; unfold implements; simpl.
    + rewrite inbox_app, Hi, Hn. simpl. by rewrite decide_True.
    + by rewrite app_nil_r, Hn, Hi.
  - destruct (nss n !! ns'); unfold implements; simpl; rewrite ?inbox_app, ?app_nil_r; simpl;
      rewrite ?decide_False by done; done.
Qed.

Lemma implements_close idx ns' err :
  after (ns_handleCloseStream idx ns' err) (spec_step ns sp (NsConnCloseStream idx ns' err)).
Proof.
  pose proof H as (Ha & Hn & Hi & He). unfold ns_handleCloseStream, get. cbn [spec_step].
  destruct (nss n !! ns') as [k|] eqn:Ek.
  - pose proof (implements_live ns' k Ek) as Hlead. unfold implements. simpl. rewrite inbox_app, Hi. simpl.
    destruct (decide (ns' = ns)) as [->|Hne].
    + rewrite lookup_insert_eq. rewrite Ek in Hn. destruct (sp_loop sp) as [[k' l]|]; [|done]. injection Hn as ->. simpl.
      split_and!; [done| |done|congruence]. f_equal. destruct (N.ltb_spec 0 k'); lia.
    + rewrite lookup_insert_ne by done. split_and!; [done..|congruence].
  - destruct (decide (ns' = ns)) as [->|Hne]; [|apply implements_skip]. rewrite Ek in Hn.
    destruct (sp_loop sp) as [[k l]|]; [done|]. unfold implements. simpl. rewrite app_nil_r, Ek, Hi. done.
Qed.

Lemma implements_close_ns ns' : after (handleCloseNamespace ns') (spec_step ns sp (NsConnCloseNamespace ns')).
Proof.
  pose proof H as (Ha & Hn & Hi & He). unfold handleCloseNamespace, get. cbn [spec_step].
  destruct (nss n !! ns') as [k|] eqn:Ek.
  2: { rewrite decide_False; [apply implements_skip|]. intros [-> E]. rewrite Ek in Hn. by destruct (sp_loop sp). }
  pose proof (implements_live ns' k Ek) as Hlead. destruct (N.eqb_spec k 0) as [->|Hk]; cbn [negb].
  - unfold implements. simpl. rewrite inbox_app. simpl. destruct (decide (ns' = ns)) as [->|Hne].
    + rewrite Ek in Hn. rewrite decide_True by (destruct (sp_loop sp) as [[]|]; simpl in *; split; congruence).
      rewrite lookup_delete_eq. split_and!; [done..|congruence].
    + rewrite (decide_False (P := ns' = ns ∧ _)) by (intros [? _]; done). rewrite lookup_delete_ne by done.
      split_and!; [done..|congruence].
  - rewrite decide_False; [apply implements_skip|]. intros [-> E]. rewrite Ek in Hn.
    destruct (sp_loop sp) as [[]|]; simpl in *; congruence.
Qed.

Lemma implements_step e : after (ns_Handle e) (spec_step ns sp e).
Proof.
  destruct e as [cancel h|b|idx ns' err|ns'|ns'|idx h|idx ns' op sq|err]; cbn [ns_Handle].
  - apply implements_add.
  - apply implements_leader.
  - apply implements_close.
  - apply implements_close_ns.
  - destruct H as (Ha & Hn & Hi & He). unfold implements. rewrite inbox_app. done.
  - apply implements_route.
  - apply implements_route.
  - unfold ns_handleShutdown. rewrite seqp_eq. cbn [modify fst snd app]. by apply implements_closeAll with (sp := sp).
Qed.

End step.

Lemma implements_run ns es n os sp :
  implements ns n os sp →
  implements ns (run ns_Handle es n).1 (os ++ (run ns_Handle es n).2) (foldl (spec_step ns) sp es).
Proof.
  revert n os sp; induction es as [|e es IH]; intros n os sp H; cbn [run foldl].
  - by apply implements_skip.
  - rewrite seqp_eq. cbn [fst snd]. rewrite app_assoc. by apply IH, implements_step.
Qed.

(** ** Properties *)

(** The scheduler's namespace router refines its specification over every sequence of
    events: it accepts streams exactly while it leads, a namespace has a loop with exactly
    the number of open streams the specification counts, the loop has been sent exactly the
    events of the specification, and no loop is left without leadership. *)
Theorem scheduler_router_refines ns es :
  let '(n, os) := run ns_Handle es namespaces_New in
  let sp := foldl (spec_step ns) (mkNsSpec false None) es in
  accepting n = sp_leader sp ∧ nss n !! ns = fst <$> sp_loop sp ∧ inbox ns os = snd <$> sp_loop sp ∧
  (accepting n = false → nss n = ∅).
Proof.
  pose proof (implements_run ns es namespaces_New [] (mkNsSpec false None)) as H.
  destruct (run ns_Handle es namespaces_New) as [n os]. apply H. done.
Qed.

(** ** Closes of a former leadership *)

Definition same_streams (h : c_handler) : Prop := ∀ c, streams (h c).1 = streams c.

Lemma same_streams_seqp h1 h2 : same_streams h1 → same_streams h2 → same_streams (h1 ;;; h2).
Proof. intros H1 H2 c. rewrite seqp_eq. cbn [fst]. by rewrite H2, H1. Qed.

Lemma same_streams_maybeDisseminate : same_streams maybeDisseminate.
Proof.
  intros c. unfold maybeDisseminate, get. destruct (_ || _); [done|]. destruct (size (streams c) =? 0); [done|].
  destruct (length (free_types c) =? 0); [done|]. destruct (free_types_spec c) as [Hnd _].
  rewrite start_conn_round_eq by done. cbn [fst]. unfold started_round. cbn [set_rounds streams].
  by destruct (lock_types_spec (nextSeq c) (free_types c) (set_seq (nextSeq c) c) Hnd) as (-> & _).
Qed.

Lemma same_streams_completeRound r : same_streams (completeRound r).
Proof.
  unfold completeRound. do 3 (apply same_streams_seqp; [done|]). intros c. unfold get.
  destruct (_ && _); [|apply same_streams_maybeDisseminate]. unfold startCoalesceTimer, get. by destruct (_ || _).
Qed.

Lemma same_streams_advanceRounds seqs : same_streams (advanceRounds seqs).
Proof.
  induction seqs as [|sq seqs IH]; [done|]. apply same_streams_seqp; [|apply IH]. intros c. unfold advance_round, get.
  destruct (rounds c !! sq) as [r|]; [|done]. destruct (_ =? 0); [apply same_streams_completeRound|].
  destruct (_ <? _); [done|]. destruct (phase r); [by rewrite seqp_eq..|apply same_streams_completeRound|done].
Qed.

Lemma handleAdd_streams cancel h c :
  streams (c_Handle (ConnAdd cancel h) c).1 = <[streamIDx c := cancel]> (streams c).
Proof.
  cbn [c_Handle]. unfold handleAdd, get. rewrite !seqp_eq. cbn [modify emit fst]. rewrite same_streams_maybeDisseminate, report_eq.
  cbn [fst]. set (c2 := reported _ _ _). rewrite (sendSnapshot_eq _ c2) by (simpl; rewrite lookup_insert_eq; eauto). done.
Qed.

Lemma close_last_stream cancel err c :
  streams c = {[ 0%N := cancel ]} →
  CClose 0 err ∈ (c_Handle (ConnCloseStream 0 err) c).2 ∧ streams (c_Handle (ConnCloseStream 0 err) c).1 = ∅.
Proof.
  intros Hs. cbn [c_Handle]. unfold handleCloseStream, get. rewrite !seqp_eq. cbn [fst snd].
  assert (Hi : streams c !! 0%N = Some cancel) by (by rewrite Hs, lookup_singleton_eq).
  rewrite (removeStream_eq 0 err c cancel Hi). cbn [fst snd].
  assert (He : streams (clear_pending (removed 0 c)) = ∅).
  { unfold clear_pending. assert (Hr : streams (removed 0 c) = ∅) by (simpl; rewrite Hs; apply delete_singleton_eq).
    destruct (size (streams (removed 0 c)) =? 0); exact Hr. }
  split; [set_solver|]. unfold when. case_match; cbn [emit skip fst];
    by rewrite same_streams_maybeDisseminate, same_streams_advanceRounds.
Qed.

Lemma run_two {St O E} (handle : E → prog St O) e1 e2 s c1 :
  (handle e1 s).1 = c1 →
  (run handle [e1; e2] s).1 = (handle e2 c1).1 ∧ ∃ os, (run handle [e1; e2] s).2 = os ++ (handle e2 c1).2.
Proof.
  intros <-. cbn [run]. rewrite !seqp_eq. cbn [fst snd skip]. rewrite app_nil_r. split; [done|by eexists].
Qed.

Lemma first_stream timeout window cancel h :
  streams (c_Handle (ConnAdd cancel h) (conns_New timeout window)).1 = {[ 0%N := cancel ]}.
Proof. rewrite handleAdd_streams. done. Qed.

Lemma add_then_close timeout window cancel h err :
  CClose 0 err ∈ (conns_run timeout window [ConnAdd cancel h; ConnCloseStream 0 err]).2 ∧
  streams (conns_run timeout window [ConnAdd cancel h; ConnCloseStream 0 err]).1 = ∅.
Proof.
  remember (c_Handle (ConnAdd cancel h) (conns_New timeout window)).1 as c1 eqn:Hc.
  assert (Hf : streams c1 = {[ 0%N := cancel ]}) by (rewrite Hc; apply first_stream).
  destruct (run_two c_Handle _ (ConnCloseStream 0 err) _ c1 (eq_sym Hc)) as [E1 [os E2]].
  destruct (close_last_stream cancel err c1 Hf) as [H1 H2]. unfold conns_run. rewrite E1, E2.
  split; [|exact H2]. apply elem_of_app. right. exact H1.
Qed.

(** Stale closes (a departure from the intent of the router). Whatever happened before, when
    the scheduler loses and regains leadership, a new stream connects and a ConnCloseStream
    of the first stream of the former loop is handled late, the new loop, whose stream
    numbers start at 0 again, closes the new stream. *)
Theorem stale_close_removes_new_stream timeout window es cancel h err :
  let ns := ah_Namespace h in
  let flap := [NsSetLeader false; NsSetLeader true; NsConnAdd cancel h; NsConnCloseStream 0 ns err] in
  ∃ l, inbox ns (run ns_Handle (es ++ flap) namespaces_New).2 = Some l ∧
    CClose 0 err ∈ (conns_run timeout window l).2 ∧ streams (conns_run timeout window l).1 = ∅.
Proof.
  cbv zeta. exists [ConnAdd cancel h; ConnCloseStream 0 err]. split; [|apply add_then_close].
  pose proof (implements_run (ah_Namespace h) (es ++ [NsSetLeader false; NsSetLeader true; NsConnAdd cancel h;
    NsConnCloseStream 0 (ah_Namespace h) err]) namespaces_New [] (mkNsSpec false None)) as H.
  destruct H as (_ & _ & Hi & _); [done|]. rewrite foldl_app in Hi. cbn [app] in Hi. rewrite Hi.
  cbn [foldl spec_step sp_leader]. rewrite decide_True by done. cbn [sp_loop default]. by rewrite decide_True.
Qed.
