(* ===== verification/PoolStore.v ===== *)
(** * Streams of the scheduler's connection pool
      (pkg/scheduler/server/internal/pool/loops/connections/store: store.go, instance.go)

    A namespace's connections are indexed by app ID and by actor type.  An entry
    hands out its streams round robin; a trigger for an actor goes to a stream of
    the host that owns the actor by rendezvous hashing when every stream of the
    type reported its address.

    A stream is its number (each has its own loop, so comparing numbers compares
    loops).  The closures returned by [add] capture the entry they were added to;
    an entry is deleted from the map only when it has no stream left, so while a
    closure is still to run the captured entry is the one under its name, and the
    model finds it there.  The outer [option] of a lookup is a run-time panic
    (an index out of range, or the remainder by a zero length).

    The specification of an index is the list of its registrations in order
    ([registration], [implements_regs]). *)

From S2P Require Import Prelude GoLib Rendezvous.

Section pool_store.
Context {X : XXHash}.

(** ** instance.go *)

Record hostEntry := mkHostEntry { he_nextConn : N; he_conns : list N }.

Record entry := mkEntry {
  en_nextConn : N;
  en_conns : list N;
  en_hosts : gmap string hostEntry;
  en_addrless : Z;
  en_table : option Table
}.

Record instance := mkInstance { entries : gmap string entry }.

Definition newInstance : instance := mkInstance ∅.

(** [for idx, c := range conns { if c == conn { ...; break } }] *)
Fixpoint remove_first (conn : N) (l : list N) : list N :=
  match l with
  | [] => []
  | c :: l' => if decide (c = conn) then l' else c :: remove_first conn l'
  end.

Definition removeConn (conn : N) (e : entry) : entry :=
  mkEntry (en_nextConn e) (remove_first conn (en_conns e)) (en_hosts e) (en_addrless e) (en_table e).

Definition rebuildTable (e : entry) : entry :=
  mkEntry (en_nextConn e) (en_conns e) (en_hosts e) (en_addrless e)
    (Some (Table_New (map_to_list (en_hosts e)).*1)).

Definition set_hosts (hs : gmap string hostEntry) (e : entry) : entry :=
  mkEntry (en_nextConn e) (en_conns e) hs (en_addrless e) (en_table e).

Definition set_addrless (n : Z) (e : entry) : entry :=
  mkEntry (en_nextConn e) (en_conns e) (en_hosts e) n (en_table e).

(** [address == nil || *address == ""] is no address. *)
Definition known_address (address : option string) : option string :=
  match address with
  | Some a => if decide (a = EmptyString) then None else Some a
  | None => None
  end.

Definition instance_add (name : string) (conn : N) (address : option string) (i : instance) : instance :=
  let en := default (mkEntry 0 [] ∅ 0 None) (entries i !! name) in
  let en := mkEntry (en_nextConn en) (en_conns en ++ [conn]) (en_hosts en) (en_addrless en) (en_table en) in
  let en :=
    match known_address address with
    | None => set_addrless (en_addrless en + 1) en
    | Some addr =>
        let en := match en_hosts en !! addr with
                  | Some _ => en
                  | None => rebuildTable (set_hosts (<[addr := mkHostEntry 0 []]> (en_hosts en)) en)
                  end in
        set_hosts (alter (λ he, mkHostEntry (he_nextConn he) (he_conns he ++ [conn])) addr (en_hosts en)) en
    end in
  mkInstance (<[name := en]> (entries i)).

(** What the function returned by [add] does to the entry it captured. *)
Definition entry_cancel (conn : N) (addr : option string) (e : entry) : entry :=
  let en := removeConn conn e in
  match addr with
  | None => set_addrless (en_addrless en - 1) en
  | Some addr =>
      match en_hosts en !! addr with
      | None => en
      | Some he =>
          let he := mkHostEntry (he_nextConn he) (remove_first conn (he_conns he)) in
          if length (he_conns he) =? 0 then rebuildTable (set_hosts (delete addr (en_hosts en)) en)
          else set_hosts (<[addr := he]> (en_hosts en)) en
      end
  end.

(** The function returned by [add]. *)
Definition instance_cancel (name : string) (conn : N) (address : option string) (i : instance) : instance :=
  match entries i !! name with
  | None => i
  | Some en =>
      let en := entry_cancel conn (known_address address) en in
      if length (en_conns en) =? 0 then mkInstance (delete name (entries i))
      else mkInstance (<[name := en]> (entries i))
  end.

(** [conns[next % len(conns)]] and [next++]; [None] is the panic of an empty slice. *)
Definition pick (next : N) (conns : list N) : option (N * N) :=
  if length conns =? 0 then None
  else l ← conns !! N.to_nat (next mod N.of_nat (length conns)); Some (l, u64_succ next).

Definition roundRobin (e : entry) : option (N * entry) :=
  '(l, next) ← pick (en_nextConn e) (en_conns e);
  Some (l, mkEntry next (en_conns e) (en_hosts e) (en_addrless e) (en_table e)).

Definition round_robin_in (name : string) (en : entry) (i : instance) : option (option N * instance) :=
  '(l, en) ← roundRobin en; Some (Some l, mkInstance (<[name := en]> (entries i))).

Definition instance_get (name : string) (i : instance) : option (option N * instance) :=
  match entries i !! name with
  | None => Some (None, i)
  | Some en => round_robin_in name en i
  end.

Definition getByKey (name key : string) (i : instance) : option (option N * instance) :=
  match entries i !! name with
  | None => Some (None, i)
  | Some en =>
      if (0 <? en_addrless en)%Z || (size (en_hosts en) =? 0) then round_robin_in name en i
      else
        '(owner, ok) ← Table_Lookup (en_table en) key;
        if negb ok then round_robin_in name en i
        else
          match en_hosts en !! owner with
          | None => round_robin_in name en i
          | Some he =>
              if length (he_conns he) =? 0 then round_robin_in name en i
              else
                '(l, next) ← pick (he_nextConn he) (he_conns he);
                Some (Some l,
                  mkInstance (<[name := set_hosts (<[owner := mkHostEntry next (he_conns he)]> (en_hosts en)) en]> (entries i)))
          end
  end.

(** ** store.go *)

Record Store := mkPoolStore { appIDs : instance; actorTypes : instance }.

Definition PStore_New : Store := mkPoolStore newInstance newInstance.

Record Options := mkOptions {
  o_Loop : N; o_AppID : option string; o_ActorTypes : list string; o_ActorAddress : option string }.

Definition PStore_Add (opts : Options) (s : Store) : Store :=
  mkPoolStore
    (match o_AppID opts with None => appIDs s | Some a => instance_add a (o_Loop opts) None (appIDs s) end)
    (foldl (λ i t, instance_add t (o_Loop opts) (o_ActorAddress opts) i) (actorTypes s) (o_ActorTypes opts)).

(** The function returned by [Add], up to the closing of the stream's loop. *)
Definition PStore_cancel (opts : Options) (s : Store) : Store :=
  mkPoolStore
    (match o_AppID opts with None => appIDs s | Some a => instance_cancel a (o_Loop opts) None (appIDs s) end)
    (foldl (λ i t, instance_cancel t (o_Loop opts) (o_ActorAddress opts) i) (actorTypes s) (o_ActorTypes opts)).

Definition PStore_AppID (id : string) (s : Store) : option (option N * Store) :=
  '(l, i) ← instance_get id (appIDs s); Some (l, mkPoolStore i (actorTypes s)).

Definition PStore_ActorType (actorType : string) (s : Store) : option (option N * Store) :=
  '(l, i) ← instance_get actorType (actorTypes s); Some (l, mkPoolStore (appIDs s) i).

Definition PStore_ActorHost (actorType actorID : string) (s : Store) : option (option N * Store) :=
  '(l, i) ← getByKey actorType actorID (actorTypes s); Some (l, mkPoolStore (appIDs s) i).

(** ** Specification: the registrations of an index *)

Record registration := mkReg { g_name : string; g_conn : N; g_addr : option string }.

#[export] Instance registration_eq_dec : EqDecision registration.
Proof. solve_decision. Defined.

Definition named (name : string) (rs : list registration) : list registration :=
  filter (λ r, g_name r = name) rs.

Definition conns_of (rs : list registration) : list N := g_conn <$> rs.

Definition at_addr (addr : option string) (rs : list registration) : list registration :=
  filter (λ r, g_addr r = addr) rs.

(** The entry an index keeps for the registrations [rs] of one name. *)
Record entry_for (rs : list registration) (e : entry) : Prop := {
  ef_conns : en_conns e = conns_of rs;
  ef_addrless : en_addrless e = Z.of_nat (length (at_addr None rs));
  ef_hosts : ∀ a, he_conns <$> en_hosts e !! a =
    match conns_of (at_addr (Some a) rs) with [] => None | cs => Some cs end;
  ef_table : en_hosts e ≠ ∅ → en_table e = Some (Table_New (map_to_list (en_hosts e)).*1)
}.

Definition implements_regs (i : instance) (rs : list registration) : Prop :=
  ∀ name, match entries i !! name with
          | None => named name rs = []
          | Some e => named name rs ≠ [] ∧ entry_for (named name rs) e
          end.

(** A stream has one address. *)
Definition one_address (rs : list registration) : Prop :=
  ∀ r1 r2, r1 ∈ rs → r2 ∈ rs → g_conn r1 = g_conn r2 → g_addr r1 = g_addr r2.

Fixpoint remove_reg (r : registration) (rs : list registration) : list registration :=
  match rs with
  | [] => []
  | r' :: rs' => if decide (r' = r) then rs' else r' :: remove_reg r rs'
  end.

(** ** Lemmas *)

Lemma named_app name rs1 rs2 : named name (rs1 ++ rs2) = named name rs1 ++ named name rs2.
Proof. apply list.filter_app. Qed.

Lemma at_addr_app a rs1 rs2 : at_addr a (rs1 ++ rs2) = at_addr a rs1 ++ at_addr a rs2.
Proof. apply list.filter_app. Qed.

Lemma conns_of_app rs1 rs2 : conns_of (rs1 ++ rs2) = conns_of rs1 ++ conns_of rs2.
Proof. apply fmap_app. Qed.

Lemma named_single n r : named n [r] = if decide (g_name r = n) then [r] else [].
Proof. unfold named. rewrite filter_cons. by case_decide. Qed.

Lemma at_addr_single a r : at_addr a [r] = if decide (g_addr r = a) then [r] else [].
Proof. unfold at_addr. rewrite filter_cons. by case_decide. Qed.

Lemma elem_of_map_fst {A} (m : gmap string A) h : h ∈ (map_to_list m).*1 ↔ is_Some (m !! h).
Proof.
  rewrite list_elem_of_fmap. setoid_rewrite elem_of_map_to_list'. split.
  - intros ([h' x] & -> & Hx). by exists x.
  - intros [x Hx]. by exists (h, x).
Qed.

Lemma Table_New_dom {A} (m1 m2 : gmap string A) :
  dom m1 = dom m2 → Table_New (map_to_list m1).*1 = Table_New (map_to_list m2).*1.
Proof.
  intros Hd. apply Table_New_ext. intros h. rewrite !elem_of_map_fst, <-!elem_of_dom, Hd. done.
Qed.

Lemma entry_for_nil : entry_for [] (mkEntry 0 [] ∅ 0 None).
Proof. split; [done|done| |done]. intros a. simpl. by rewrite lookup_empty. Qed.

(** The [he_conns] part of an entry, as a map. *)
Lemma ef_hosts_add rs e r a :
  entry_for rs e → g_addr r = Some a →
  ∀ b, he_conns <$> alter (λ he, mkHostEntry (he_nextConn he) (he_conns he ++ [g_conn r])) a
          (match en_hosts e !! a with Some _ => en_hosts e | None => <[a := mkHostEntry 0 []]> (en_hosts e) end) !! b =
    match conns_of (at_addr (Some b) (rs ++ [r])) with [] => None | cs => Some cs end.
Proof.
  intros E Hr b. rewrite at_addr_app, at_addr_single, Hr, conns_of_app. pose proof (ef_hosts _ _ E b) as Hb.
  destruct (decide (a = b)) as [<-|Hne].
  - rewrite decide_True by done. rewrite lookup_alter_eq. destruct (en_hosts e !! a) as [he|] eqn:Ea; simpl in *.
    + rewrite Ea. simpl. destruct (conns_of (at_addr (Some a) rs)) as [|c cs]; [done|]. by injection Hb as ->.
    + rewrite lookup_insert_eq. simpl. by destruct (conns_of (at_addr (Some a) rs)) as [|c cs].
  - rewrite decide_False by congruence. simpl. rewrite app_nil_r, lookup_alter_ne by done.
    destruct (en_hosts e !! a); [done|]. by rewrite lookup_insert_ne.
Qed.

Lemma entry_for_add rs e name conn address :
  entry_for rs e →
  ∀ i, entries i !! name = Some e ∨ entries i !! name = None ∧ e = mkEntry 0 [] ∅ 0 None →
  ∃ e', entries (instance_add name conn address i) = <[name := e']> (entries i) ∧
    entry_for (rs ++ [mkReg name conn (known_address address)]) e'.
Proof.
  intros E i Hi. unfold instance_add. eexists. split; [done|].
  assert (default (mkEntry 0 [] ∅ 0 None) (entries i !! name) = e) as -> by (destruct Hi as [->|[-> ->]]; done).
  destruct (known_address address) as [a|] eqn:Ha; cbn [en_hosts en_conns en_nextConn en_addrless en_table].
  - set (r := mkReg name conn (Some a)). pose proof (ef_hosts_add rs e r a E eq_refl) as Hh.
    split; cbn [set_hosts en_conns en_addrless en_hosts en_table].
    + rewrite conns_of_app, <-(ef_conns _ _ E). by destruct (en_hosts e !! a).
    + rewrite at_addr_app, at_addr_single, decide_False by done. rewrite app_nil_r, <-(ef_addrless _ _ E).
      by destruct (en_hosts e !! a).
    + intros b. rewrite <-(Hh b). by destruct (en_hosts e !! a).
    + intros _. destruct (en_hosts e !! a) as [he|] eqn:Ea; cbn [en_table en_hosts rebuildTable set_hosts].
      * rewrite (ef_table _ _ E) by (intros Hz; by rewrite Hz, lookup_empty in Ea). f_equal. apply Table_New_dom.
        by rewrite dom_alter_L.
      * f_equal. apply Table_New_dom. by rewrite dom_alter_L.
  - split; cbn [set_addrless en_conns en_addrless en_hosts en_table].
    + by rewrite conns_of_app, (ef_conns _ _ E).
    + rewrite at_addr_app, at_addr_single, decide_True by done. rewrite length_app, (ef_addrless _ _ E). simpl. lia.
    + intros b. rewrite at_addr_app, at_addr_single, decide_False by done. rewrite app_nil_r. apply (ef_hosts _ _ E).
    + apply (ef_table _ _ E).
Qed.

Lemma instance_add_spec name conn address i rs :
  implements_regs i rs →
  implements_regs (instance_add name conn address i) (rs ++ [mkReg name conn (known_address address)]).
Proof.
  intros Hi n. pose proof (Hi name) as Hn. rewrite named_app, named_single.
  assert (∃ e, entry_for (named name rs) e ∧
    (entries i !! name = Some e ∨ entries i !! name = None ∧ e = mkEntry 0 [] ∅ 0 None)) as (e & E & He).
  { destruct (entries i !! name) as [e|]; [exists e; split; [apply Hn|by left]|].
    eexists. rewrite Hn. split; [apply entry_for_nil|by right]. }
  destruct (entry_for_add _ _ name conn address E i He) as (e' & -> & E').
  cbn [g_name]. destruct (decide (name = n)) as [<-|Hne].
  - rewrite lookup_insert_eq. split; [by destruct (named name rs)|exact E'].
  - rewrite lookup_insert_ne, app_nil_r by done. apply Hi.
Qed.

Lemma remove_reg_filter (P : registration → Prop) `{!∀ r, Decision (P r)} r rs :
  filter P (remove_reg r rs) = if decide (P r) then remove_reg r (filter P rs) else filter P rs.
Proof.
  induction rs as [|r' rs IH]; [by case_decide|]. cbn [remove_reg].
  destruct (decide (r' = r)) as [->|Hne].
  - rewrite filter_cons. case_decide; [|done]. cbn [remove_reg]. by rewrite decide_True.
  - rewrite !filter_cons, IH. repeat case_decide; try done. cbn [remove_reg]. by rewrite decide_False.
Qed.

Lemma remove_reg_conns r rs :
  (∀ r', r' ∈ rs → g_conn r' = g_conn r → r' = r) →
  conns_of (remove_reg r rs) = remove_first (g_conn r) (conns_of rs).
Proof.
  induction rs as [|r' rs IH]; intros Hu; [done|]. cbn [remove_reg conns_of fmap list_fmap remove_first].
  destruct (decide (r' = r)) as [->|Hne]; [by rewrite decide_True|].
  rewrite decide_False by (intros ?; apply Hne, Hu; [left|done]).
  cbn [conns_of fmap list_fmap]. f_equal. apply IH. intros r'' Hr. apply Hu. by right.
Qed.

Lemma length_remove_reg r rs : r ∈ rs → length rs = S (length (remove_reg r rs)).
Proof.
  induction rs as [|r' rs IH]; intros Hr; [by apply elem_of_nil in Hr|]. cbn [remove_reg].
  destruct (decide (r' = r)); [done|]. simpl. f_equal. apply IH. by apply elem_of_cons in Hr as [?|?].
Qed.

(** Within one name, a registration is determined by its stream. *)
Lemma entry_for_cancel rs e r :
  entry_for rs e → r ∈ rs → (∀ r', r' ∈ rs → g_conn r' = g_conn r → r' = r) →
  entry_for (remove_reg r rs) (entry_cancel (g_conn r) (g_addr r) e).
Proof.
  intros E Hr Hu. unfold entry_cancel. cbv zeta.
  assert (Hc : remove_first (g_conn r) (en_conns e) = conns_of (remove_reg r rs)) by (by rewrite remove_reg_conns, (ef_conns _ _ E)).
  assert (Ha : ∀ a, g_addr r ≠ a → at_addr a (remove_reg r rs) = at_addr a rs).
  { intros a Hne. unfold at_addr. rewrite remove_reg_filter. by rewrite decide_False. }
  assert (Hs : at_addr (g_addr r) (remove_reg r rs) = remove_reg r (at_addr (g_addr r) rs)).
  { unfold at_addr. rewrite remove_reg_filter. by rewrite decide_True. }
  assert (Hin : r ∈ at_addr (g_addr r) rs) by (by apply list_elem_of_filter).
  destruct (g_addr r) as [a|] eqn:Hra; cbn [removeConn en_hosts en_conns en_nextConn en_addrless en_table].
  - pose proof (ef_hosts _ _ E a) as Hh. destruct (conns_of (at_addr (Some a) rs)) as [|c cs] eqn:Hcs.
    { exfalso. apply fmap_nil_inv in Hcs. rewrite Hcs in Hin. by apply elem_of_nil in Hin. }
    destruct (en_hosts e !! a) as [he|] eqn:Hea; [|done]. injection Hh as Hhe. cbn [he_conns].
    assert (Hrm : remove_first (g_conn r) (he_conns he) = conns_of (at_addr (Some a) (remove_reg r rs))).
    { rewrite Hs, remove_reg_conns, Hcs, Hhe; [done|]. intros r' [_ Hr']%list_elem_of_filter. by apply Hu. }
    assert (Hother : ∀ b, a ≠ b → he_conns <$> en_hosts e !! b =
      match conns_of (at_addr (Some b) (remove_reg r rs)) with [] => None | cs => Some cs end).
    { intros b Hne. rewrite Ha by congruence. apply (ef_hosts _ _ E). }
    assert (Hless : en_addrless e = Z.of_nat (length (at_addr None (remove_reg r rs)))).
    { rewrite Ha by done. apply (ef_addrless _ _ E). }
    rewrite Hrm. destruct (length _ =? 0) eqn:Hl.
    + apply Nat.eqb_eq, length_zero_iff_nil in Hl. split; cbn [rebuildTable set_hosts removeConn en_hosts en_conns en_addrless en_table]; [done|done| |done].
      intros b. destruct (decide (a = b)) as [<-|Hne]; [by rewrite lookup_delete_eq, Hl|].
      rewrite lookup_delete_ne by done. by apply Hother.
    + apply Nat.eqb_neq in Hl. split; cbn [set_hosts removeConn en_hosts en_conns en_addrless en_table]; [done|done| |].
      * intros b. destruct (decide (a = b)) as [<-|Hne]; [|rewrite lookup_insert_ne by done; by apply Hother].
        rewrite lookup_insert_eq. cbn [fmap option_fmap option_map he_conns].
        destruct (conns_of (at_addr (Some a) (remove_reg r rs))); [done|reflexivity].
      * intros _. rewrite (ef_table _ _ E) by (intros Hz; by rewrite Hz, lookup_empty in Hea). f_equal.
        apply Table_New_dom. rewrite dom_insert_lookup_L; [done|]. by eexists.
  - split; cbn [set_addrless en_hosts en_conns en_addrless en_table]; [done| | |apply (ef_table _ _ E)].
    + rewrite Hs, (ef_addrless _ _ E), (length_remove_reg r (at_addr None rs)) by done. lia.
    + intros b. rewrite Ha by done. apply (ef_hosts _ _ E).
Qed.

Lemma instance_cancel_spec name conn address i rs :
  implements_regs i rs → one_address rs → mkReg name conn (known_address address) ∈ rs →
  implements_regs (instance_cancel name conn address i) (remove_reg (mkReg name conn (known_address address)) rs).
Proof.
  intros Hi Hone Hr. set (r := mkReg name conn (known_address address)) in *. pose proof (Hi name) as Hn.
  assert (Hrn : r ∈ named name rs) by (by apply list_elem_of_filter).
  unfold instance_cancel. destruct (entries i !! name) as [e|] eqn:He; [|rewrite Hn in Hrn; by apply elem_of_nil in Hrn].
  destruct Hn as [Hne E].
  assert (Hu : ∀ r', r' ∈ named name rs → g_conn r' = conn → r' = r).
  { intros [n' c' a'] [Hn' Hr']%list_elem_of_filter ?. simpl in *. subst.
    pose proof (Hone _ _ Hr' Hr eq_refl) as Ha. simpl in Ha. by subst a'. }
  pose proof (entry_for_cancel _ _ r E Hrn Hu) as E'. cbn [g_conn g_addr r] in E'. cbv zeta.
  generalize dependent (entry_cancel conn (known_address address) e). intros en E'.
  assert (Hnn : ∀ n, named n (remove_reg r rs) = if decide (name = n) then remove_reg r (named name rs) else named n rs).
  { intros n. unfold named at 1. rewrite remove_reg_filter. cbn [g_name r]. case_decide; by subst. }
  intros n. rewrite Hnn. pose proof (ef_conns _ _ E') as Hc.
  destruct (length (en_conns en) =? 0) eqn:Hl.
  - apply Nat.eqb_eq, length_zero_iff_nil in Hl. rewrite Hl in Hc. symmetry in Hc. apply fmap_nil_inv in Hc. cbn [entries].
    case_decide as Hd; [subst; by rewrite lookup_delete_eq|]. rewrite lookup_delete_ne by done. apply Hi.
  - apply Nat.eqb_neq in Hl. cbn [entries]. case_decide as Hd; [subst n; rewrite lookup_insert_eq|].
    + split; [|done]. intros Hz. rewrite Hz in Hc. by rewrite Hc in Hl.
    + rewrite lookup_insert_ne by done. apply Hi.
Qed.

(** *** Lookups *)

Lemma pick_spec next conns :
  conns ≠ [] → ∃ l, pick next conns = Some (l, u64_succ next) ∧
    conns !! N.to_nat (next mod N.of_nat (length conns)) = Some l ∧ l ∈ conns.
Proof.
  intros Hne. unfold pick. destruct (length conns =? 0) eqn:Hl.
  { by apply Nat.eqb_eq, length_zero_iff_nil in Hl. }
  apply Nat.eqb_neq in Hl. destruct (lookup_lt_is_Some_2 conns (N.to_nat (next mod N.of_nat (length conns)))) as [l Hi].
  - pose proof (N.mod_lt next (N.of_nat (length conns))). lia.
  - exists l. rewrite Hi. split_and!; [done|done|]. by apply list_elem_of_lookup_2 in Hi.
Qed.

Lemma implements_regs_update i rs name e e' :
  implements_regs i rs → entries i !! name = Some e → (entry_for (named name rs) e → entry_for (named name rs) e') →
  implements_regs (mkInstance (<[name := e']> (entries i))) rs.
Proof.
  intros Hi He HE n. cbn [entries]. pose proof (Hi n) as Hn. destruct (decide (name = n)) as [<-|Hne].
  - rewrite He in Hn. destruct Hn as [Hn E]. rewrite lookup_insert_eq. auto.
  - by rewrite lookup_insert_ne.
Qed.

Lemma round_robin_spec i rs name e :
  implements_regs i rs → entries i !! name = Some e →
  ∃ l i', round_robin_in name e i = Some (Some l, i') ∧ l ∈ conns_of (named name rs) ∧ implements_regs i' rs.
Proof.
  intros Hi He. pose proof (Hi name) as Hn. rewrite He in Hn. destruct Hn as [Hne E].
  assert (en_conns e ≠ []) as Hc by (rewrite (ef_conns _ _ E); by intros ?%fmap_nil_inv).
  unfold round_robin_in, roundRobin. destruct (pick_spec (en_nextConn e) _ Hc) as (l & -> & _ & Hl).
  rewrite (ef_conns _ _ E) in Hl. eexists l, _. split; [reflexivity|]. split; [done|].
  apply (implements_regs_update i rs name e _ Hi He). by intros [].
Qed.

Lemma instance_get_spec i rs name :
  implements_regs i rs →
  ∃ r i', instance_get name i = Some (r, i') ∧ implements_regs i' rs ∧
    match r with None => named name rs = [] | Some l => l ∈ conns_of (named name rs) end.
Proof.
  intros Hi. unfold instance_get. destruct (entries i !! name) as [e|] eqn:He.
  - destruct (round_robin_spec i rs name e Hi He) as (l & i' & -> & ? & ?). by eexists (Some l), i'.
  - exists None, i. pose proof (Hi name) as Hn. rewrite He in Hn. done.
Qed.

(** The addresses registered under a name. *)
Definition addrs_of (rs : list registration) : list string := omap g_addr rs.

Lemma ef_hosts_addrs rs e a : entry_for rs e → is_Some (en_hosts e !! a) ↔ a ∈ addrs_of rs.
Proof.
  intros E. pose proof (ef_hosts _ _ E a) as Ha. unfold addrs_of. rewrite list_elem_of_omap.
  assert (Hx : conns_of (at_addr (Some a) rs) ≠ [] ↔ ∃ r, r ∈ rs ∧ g_addr r = Some a).
  { split.
    - intros Hf. destruct (at_addr (Some a) rs) as [|r rs'] eqn:Hr; [done|]. exists r.
      assert (r ∈ at_addr (Some a) rs) as [? ?]%list_elem_of_filter by (rewrite Hr; left). done.
    - intros (r & Hr & Hra) Hz%fmap_nil_inv. assert (r ∈ at_addr (Some a) rs) by (by apply list_elem_of_filter).
      rewrite Hz in *. by eapply elem_of_nil. }
  rewrite <-Hx. destruct (conns_of (at_addr (Some a) rs)) as [|c cs]; destruct (en_hosts e !! a); try done.
Qed.

Lemma getByKey_spec i rs name key :
  implements_regs i rs →
  ∃ r i', getByKey name key i = Some (r, i') ∧ implements_regs i' rs ∧
    match r with
    | None => named name rs = []
    | Some l => l ∈ conns_of (named name rs) ∧
        (at_addr None (named name rs) = [] →
         ∃ a, is_owner (addrs_of (named name rs)) key a ∧ l ∈ conns_of (at_addr (Some a) (named name rs)))
    end.
Proof.
  intros Hi. unfold getByKey. pose proof (Hi name) as Hn. destruct (entries i !! name) as [e|] eqn:He; [|by exists None, i].
  destruct Hn as [Hne E]. pose proof (ef_addrless _ _ E) as Hless.
  destruct (round_robin_spec i rs name e Hi He) as (l & i' & Hrr & Hl & Hi').
  destruct (decide (en_hosts e = ∅)) as [Hempty|Hhosts].
  { rewrite Hempty, map_size_empty, orb_true_r, Hrr. exists (Some l), i'. split_and!; [done..|].
    intros Hall. exfalso. destruct (named name rs) as [|r rs'] eqn:Hnamed; [done|].
    destruct (g_addr r) as [a|] eqn:Hra.
    - assert (is_Some (en_hosts e !! a)) as [x Hx].
      { apply (ef_hosts_addrs _ e a E), list_elem_of_omap. exists r. split; [left|done]. }
      by rewrite Hempty, lookup_empty in Hx.
    - assert (r ∈ at_addr None (r :: rs')) as Hin by (apply list_elem_of_filter; split; [done|left]).
      rewrite Hall in Hin. by apply elem_of_nil in Hin. }
  assert (Hsz : (size (en_hosts e) =? 0) = false) by (apply Nat.eqb_neq; by rewrite map_size_empty_iff).
  rewrite Hsz, orb_false_r. destruct (0 <? en_addrless e)%Z eqn:Hz.
  { rewrite Hrr. exists (Some l), i'. split_and!; [done..|]. intros Hall. rewrite Hall in Hless. simpl in Hless. lia. }
  rewrite (ef_table _ _ E Hhosts).
  destruct (Lookup_owner (map_to_list (en_hosts e)).*1 key) as (a & -> & Ho).
  { intros Hz0%fmap_nil_inv. by apply map_to_list_empty_iff in Hz0. }
  cbn [mbind option_bind negb]. assert (Hsome : is_Some (en_hosts e !! a)) by (apply elem_of_map_fst, Ho).
  destruct Hsome as [he Hea]. rewrite Hea. pose proof (ef_hosts _ _ E a) as Hha. rewrite Hea in Hha.
  destruct (conns_of (at_addr (Some a) (named name rs))) as [|c cs] eqn:Hcs; [done|]. injection Hha as Hhe.
  rewrite Hhe. cbn [length Nat.eqb]. destruct (pick_spec (he_nextConn he) (c :: cs)) as (k & -> & _ & Hk); [done|].
  cbn [mbind option_bind]. eexists (Some k), _. split; [reflexivity|]. split; [|split].
  - apply (implements_regs_update i rs name e _ Hi He). intros _. split; cbn [set_hosts en_conns en_addrless en_hosts en_table].
    + apply (ef_conns _ _ E).
    + apply (ef_addrless _ _ E).
    + intros b. destruct (decide (a = b)) as [<-|Hneb]; [by rewrite lookup_insert_eq, Hcs|].
      rewrite lookup_insert_ne by done. apply (ef_hosts _ _ E).
    + intros _. rewrite (ef_table _ _ E Hhosts). f_equal. apply Table_New_dom. rewrite dom_insert_lookup_L; [done|by eexists].
  - rewrite <-Hcs in Hk. unfold conns_of in *. apply list_elem_of_fmap in Hk as (r & -> & [_ Hr]%list_elem_of_filter).
    by apply list_elem_of_fmap_2.
  - intros _. exists a. rewrite Hcs. split; [|done]. destruct Ho as [Hin Hb]. split.
    + by apply (ef_hosts_addrs _ e a E), elem_of_map_fst.
    + intros h Hh. apply Hb. by apply elem_of_map_fst, (ef_hosts_addrs _ e h E).
Qed.

(** *** The store of the connected streams *)

Definition app_regs (o : Options) : list registration :=
  match o_AppID o with None => [] | Some a => [mkReg a (o_Loop o) None] end.

Definition type_regs (o : Options) : list registration :=
  (λ t, mkReg t (o_Loop o) (known_address (o_ActorAddress o))) <$> o_ActorTypes o.

(** The store indexes the streams [cs], in the order they were added. *)
Definition pool_tracks (s : Store) (cs : list Options) : Prop :=
  implements_regs (appIDs s) (cs ≫= app_regs) ∧ implements_regs (actorTypes s) (cs ≫= type_regs).

Lemma app_regs_loop o r : r ∈ app_regs o → g_conn r = o_Loop o ∧ g_addr r = None.
Proof. unfold app_regs. destruct (o_AppID o); [|by intros ?%elem_of_nil]. by intros ->%list_elem_of_singleton. Qed.

Lemma type_regs_loop o r : r ∈ type_regs o → g_conn r = o_Loop o ∧ g_addr r = known_address (o_ActorAddress o).
Proof. unfold type_regs. by intros (t & -> & _)%list_elem_of_fmap. Qed.

Lemma remove_reg_skip r rs1 rs2 : r ∉ rs1 → remove_reg r (rs1 ++ rs2) = rs1 ++ remove_reg r rs2.
Proof.
  induction rs1 as [|r' rs1 IH]; intros Hr; [done|]. apply not_elem_of_cons in Hr as [Hne Hr].
  cbn [app remove_reg]. rewrite decide_False by done. f_equal. by apply IH.
Qed.

Lemma remove_reg_sub r r' rs : r' ∈ remove_reg r rs → r' ∈ rs.
Proof.
  induction rs as [|r0 rs IH]; [done|]. cbn [remove_reg]. case_decide; [by right|].
  intros [->|Hr]%elem_of_cons; [left|right; auto].
Qed.

(** Cancelling the registrations [rs'] of one stream takes them out of the middle. *)
Lemma cancel_block conn address names i rs1 rs2 :
  let block := (λ t, mkReg t conn (known_address address)) <$> names in
  implements_regs i (rs1 ++ block ++ rs2) → one_address (rs1 ++ block ++ rs2) →
  (∀ r, r ∈ rs1 → g_conn r ≠ conn) →
  implements_regs (foldl (λ i t, instance_cancel t conn address i) i names) (rs1 ++ rs2).
Proof.
  cbv zeta. revert i. induction names as [|t names IH]; intros i Hi Hone Hfresh; [done|].
  cbn [foldl]. rewrite fmap_cons, <-app_comm_cons in Hi, Hone. set (r := mkReg t conn (known_address address)) in *.
  assert (Hr : r ∉ rs1) by (intros Hr; by apply (Hfresh r Hr)).
  assert (Hrem : remove_reg r (rs1 ++ r :: ((λ t, mkReg t conn (known_address address)) <$> names) ++ rs2) =
    rs1 ++ ((λ t, mkReg t conn (known_address address)) <$> names) ++ rs2).
  { rewrite remove_reg_skip by done. cbn [remove_reg]. by rewrite decide_True. }
  apply IH; [|intros r1 r2 H1 H2; apply Hone; set_solver|done].
  rewrite <-Hrem. apply instance_cancel_spec; [done|done|set_solver].
Qed.

Lemma one_address_bind (f : Options → list registration) (g : Options → option string) cs :
  (∀ o r, r ∈ f o → g_conn r = o_Loop o ∧ g_addr r = g o) → NoDup (o_Loop <$> cs) → one_address (cs ≫= f).
Proof.
  intros Hf Hnd r1 r2 (o1 & H1 & Ho1)%list_elem_of_bind (o2 & H2 & Ho2)%list_elem_of_bind Hc.
  destruct (Hf _ _ H1) as [E1 ->], (Hf _ _ H2) as [E2 ->].
  assert (o1 = o2) as ->; [|done]. apply list_elem_of_lookup in Ho1 as [i Hi], Ho2 as [j Hj].
  assert (i = j); [|congruence]. eapply (NoDup_lookup (o_Loop <$> cs)); [done| |]; rewrite list_lookup_fmap.
  - rewrite Hi. reflexivity.
  - rewrite Hj. simpl. congruence.
Qed.

Lemma pool_tracks_Add s cs o : pool_tracks s cs → pool_tracks (PStore_Add o s) (cs ++ [o]).
Proof.
  intros [Ha Ht]. unfold pool_tracks. rewrite !bind_app. cbn [mbind list_bind]. rewrite !app_nil_r. split.
  - unfold PStore_Add, app_regs at 2. cbn [appIDs]. destruct (o_AppID o) as [a|]; [|by rewrite app_nil_r].
    by apply (instance_add_spec a (o_Loop o) None).
  - unfold PStore_Add, type_regs at 2. cbn [actorTypes]. generalize dependent (cs ≫= type_regs). intros rs. revert rs.
    generalize (actorTypes s). induction (o_ActorTypes o) as [|t ts IH]; intros i rs Hi; [by rewrite app_nil_r|].
    cbn [foldl]. rewrite fmap_cons, cons_middle, (assoc_L (++)). apply IH. by apply instance_add_spec.
Qed.

Lemma pool_tracks_cancel s cs1 o cs2 :
  NoDup (o_Loop <$> cs1 ++ o :: cs2) → pool_tracks s (cs1 ++ o :: cs2) → pool_tracks (PStore_cancel o s) (cs1 ++ cs2).
Proof.
  intros Hnd [Ha Ht]. unfold pool_tracks. rewrite !bind_app, !bind_cons in *.
  assert (Hfresh : ∀ (f : Options → list registration), (∀ o r, r ∈ f o → g_conn r = o_Loop o) →
    ∀ r, r ∈ cs1 ≫= f → g_conn r ≠ o_Loop o).
  { intros f Hf r (o' & Hr & Ho')%list_elem_of_bind Hc. rewrite fmap_app, fmap_cons in Hnd.
    apply list.NoDup_app in Hnd as (_ & Hnd & _). apply (Hnd (o_Loop o)); [|left]. apply list_elem_of_fmap. exists o'.
    split; [|done]. by rewrite <-(Hf _ _ Hr). }
  assert (H1 : one_address ((cs1 ≫= app_regs) ++ app_regs o ++ (cs2 ≫= app_regs))).
  { rewrite <-bind_cons, <-bind_app. apply (one_address_bind _ (λ _, None)); [apply app_regs_loop|done]. }
  assert (H2 : one_address ((cs1 ≫= type_regs) ++ type_regs o ++ (cs2 ≫= type_regs))).
  { rewrite <-bind_cons, <-bind_app. apply (one_address_bind _ (λ o, known_address (o_ActorAddress o))); [apply type_regs_loop|done]. }
  split.
  - unfold PStore_cancel. cbn [appIDs]. pose proof (Hfresh app_regs (λ o r Hr, proj1 (app_regs_loop o r Hr))) as Hf.
    unfold app_regs at 2 in Ha. unfold app_regs at 2 in H1. destruct (o_AppID o) as [a|]; [|done].
    by apply (cancel_block (o_Loop o) None [a]).
  - unfold PStore_cancel. cbn [actorTypes]. apply cancel_block; [done|done|].
    apply (Hfresh type_regs (λ o r Hr, proj1 (type_regs_loop o r Hr))).
Qed.

Lemma named_app_regs id l cs :
  l ∈ conns_of (named id (cs ≫= app_regs)) ↔ ∃ o, o ∈ cs ∧ o_Loop o = l ∧ o_AppID o = Some id.
Proof.
  unfold conns_of, named. rewrite list_elem_of_fmap. setoid_rewrite list_elem_of_filter. setoid_rewrite list_elem_of_bind. split.
  - intros (r & -> & Hn & o & Hr & Ho). exists o. unfold app_regs in Hr. destruct (o_AppID o) as [a|]; [|by apply elem_of_nil in Hr].
    apply list_elem_of_singleton in Hr as ->. simpl in *. by subst.
  - intros (o & Ho & <- & Ha). exists (mkReg id (o_Loop o) None). split_and!; [done|done|]. exists o. split; [|done].
    unfold app_regs. rewrite Ha. left.
Qed.

(** A stream that serves an actor type from the address [a]. *)
Definition serves (t : string) (a : option string) (o : Options) : Prop :=
  t ∈ o_ActorTypes o ∧ known_address (o_ActorAddress o) = a.

Lemma elem_of_type_regs r cs :
  r ∈ cs ≫= type_regs ↔ ∃ o, o ∈ cs ∧ o_Loop o = g_conn r ∧ serves (g_name r) (g_addr r) o.
Proof.
  rewrite list_elem_of_bind. split.
  - intros (o & Hr & Ho). exists o. unfold type_regs in Hr. apply list_elem_of_fmap in Hr as (t & -> & Ht). done.
  - intros (o & Ho & Hl & Ht & Ha). exists o. split; [|done]. unfold type_regs. apply list_elem_of_fmap. exists (g_name r).
    split; [|done]. destruct r. simpl in *. by subst.
Qed.

Lemma named_type_regs t a l cs :
  l ∈ conns_of (at_addr a (named t (cs ≫= type_regs))) ↔ ∃ o, o ∈ cs ∧ o_Loop o = l ∧ serves t a o.
Proof.
  unfold conns_of, at_addr, named. rewrite list_elem_of_fmap. setoid_rewrite list_elem_of_filter.
  setoid_rewrite list_elem_of_filter. setoid_rewrite elem_of_type_regs. split.
  - intros (r & -> & <- & <- & o & Ho). by exists o.
  - intros (o & Ho & <- & Hs). exists (mkReg t (o_Loop o) a). eauto 10.
Qed.

Lemma conns_named_type_regs t l cs :
  l ∈ conns_of (named t (cs ≫= type_regs)) ↔ ∃ o, o ∈ cs ∧ o_Loop o = l ∧ t ∈ o_ActorTypes o.
Proof.
  unfold conns_of, named. rewrite list_elem_of_fmap. setoid_rewrite list_elem_of_filter. setoid_rewrite elem_of_type_regs. split.
  - intros (r & -> & <- & o & Ho & ? & [? _]). by exists o.
  - intros (o & Ho & <- & Hs). exists (mkReg t (o_Loop o) (known_address (o_ActorAddress o))). split_and!; [done|done|].
    exists o. done.
Qed.

(** The addresses from which connected streams serve a type. *)
Definition serving_addrs (t : string) (cs : list Options) : list string :=
  omap (λ o, if decide (t ∈ o_ActorTypes o) then known_address (o_ActorAddress o) else None) cs.

Lemma elem_of_serving_addrs t a cs :
  a ∈ serving_addrs t cs ↔ a ∈ addrs_of (named t (cs ≫= type_regs)).
Proof.
  unfold serving_addrs, addrs_of, named. rewrite !list_elem_of_omap. setoid_rewrite list_elem_of_filter.
  setoid_rewrite elem_of_type_regs. split.
  - intros (o & Ho & Ha). case_decide as Ht; [|done]. exists (mkReg t (o_Loop o) (Some a)). split; [|done].
    split; [done|]. by exists o.
  - intros (r & (<- & o & Ho & ? & Ht & Hka) & Hr). exists o. split; [done|]. rewrite decide_True by done. congruence.
Qed.

Lemma nil_by_elements {A} (l : list A) : (∀ x, x ∉ l) → l = [].
Proof. destruct l as [|x l]; [done|]. intros H. destruct (H x). left. Qed.

Lemma lookup_AppID s cs id :
  pool_tracks s cs →
  ∃ r s', PStore_AppID id s = Some (r, s') ∧ pool_tracks s' cs ∧
    match r with
    | None => ∀ o, o ∈ cs → o_AppID o ≠ Some id
    | Some l => ∃ o, o ∈ cs ∧ o_Loop o = l ∧ o_AppID o = Some id
    end.
Proof.
  intros [Ha Ht]. unfold PStore_AppID. destruct (instance_get_spec _ _ id Ha) as (r & i' & -> & Hi' & Hr).
  exists r, (mkPoolStore i' (actorTypes s)). split_and!; [done|done|]. destruct r as [l|]; [by apply named_app_regs|].
  intros o Ho Hid. assert (Hl : o_Loop o ∈ conns_of (named id (cs ≫= app_regs))) by (apply named_app_regs; eauto).
  rewrite Hr in Hl. by apply elem_of_nil in Hl.
Qed.

Lemma unserved_type t cs : named t (cs ≫= type_regs) = [] → ∀ o, o ∈ cs → t ∉ o_ActorTypes o.
Proof.
  intros Hr o Ho Hid. assert (Hl : o_Loop o ∈ conns_of (named t (cs ≫= type_regs))) by (apply conns_named_type_regs; eauto).
  rewrite Hr in Hl. by apply elem_of_nil in Hl.
Qed.

Lemma lookup_ActorType s cs t :
  pool_tracks s cs →
  ∃ r s', PStore_ActorType t s = Some (r, s') ∧ pool_tracks s' cs ∧
    match r with
    | None => ∀ o, o ∈ cs → t ∉ o_ActorTypes o
    | Some l => ∃ o, o ∈ cs ∧ o_Loop o = l ∧ t ∈ o_ActorTypes o
    end.
Proof.
  intros [Ha Ht]. unfold PStore_ActorType. destruct (instance_get_spec _ _ t Ht) as (r & i' & -> & Hi' & Hr).
  exists r, (mkPoolStore (appIDs s) i'). split_and!; [done|done|].
  destruct r as [l|]; [by apply conns_named_type_regs|by apply unserved_type].
Qed.

Lemma lookup_ActorHost s cs t key :
  pool_tracks s cs →
  ∃ r s', PStore_ActorHost t key s = Some (r, s') ∧ pool_tracks s' cs ∧
    match r with
    | None => ∀ o, o ∈ cs → t ∉ o_ActorTypes o
    | Some l => (∃ o, o ∈ cs ∧ o_Loop o = l ∧ t ∈ o_ActorTypes o) ∧
        ((∀ o, o ∈ cs → ¬ serves t None o) →
         ∃ a o, is_owner (serving_addrs t cs) key a ∧ o ∈ cs ∧ o_Loop o = l ∧ serves t (Some a) o)
    end.
Proof.
  intros [Ha Ht]. unfold PStore_ActorHost. destruct (getByKey_spec _ _ t key Ht) as (r & i' & -> & Hi' & Hr).
  exists r, (mkPoolStore (appIDs s) i'). split_and!; [done|done|]. destruct r as [l|]; [|by apply unserved_type].
  destruct Hr as [Hl Hown]. split; [by apply conns_named_type_regs|]. intros Hall. destruct Hown as (a & Ho & Hla).
  - apply fmap_nil_inv with (f := g_conn). apply nil_by_elements. intros l' (o & Ho & _ & Hs)%named_type_regs.
    by apply (Hall o Ho).
  - apply named_type_regs in Hla as (o & Ho' & ? & ?). exists a, o. split_and!; try done. destruct Ho as [Hin Hb]. split.
    + by apply elem_of_serving_addrs.
    + intros h Hh. apply Hb. by apply elem_of_serving_addrs.
Qed.

(** C9: The pool's store implements the list of connected streams: adding and cancelling a
    stream adds and removes it, and every lookup, by app ID, by actor type or by actor,
    returns a connected stream that serves it whenever there is one; when all streams of the
    type have an address the lookup by actor returns a stream of the host that owns the
    actor by rendezvous hashing. *)
Theorem pool_store_refines_streams s cs :
  NoDup (o_Loop <$> cs) → pool_tracks s cs →
  (∀ o, pool_tracks (PStore_Add o s) (cs ++ [o])) ∧
  (∀ cs1 o cs2, cs = cs1 ++ o :: cs2 → pool_tracks (PStore_cancel o s) (cs1 ++ cs2)) ∧
  (∀ id, ∃ r s', PStore_AppID id s = Some (r, s') ∧ pool_tracks s' cs ∧
     match r with
     | None => ∀ o, o ∈ cs → o_AppID o ≠ Some id
     | Some l => ∃ o, o ∈ cs ∧ o_Loop o = l ∧ o_AppID o = Some id
     end) ∧
  (∀ t, ∃ r s', PStore_ActorType t s = Some (r, s') ∧ pool_tracks s' cs ∧
     match r with
     | None => ∀ o, o ∈ cs → t ∉ o_ActorTypes o
     | Some l => ∃ o, o ∈ cs ∧ o_Loop o = l ∧ t ∈ o_ActorTypes o
     end) ∧
  (∀ t key, ∃ r s', PStore_ActorHost t key s = Some (r, s') ∧ pool_tracks s' cs ∧
     match r with
     | None => ∀ o, o ∈ cs → t ∉ o_ActorTypes o
     | Some l => (∃ o, o ∈ cs ∧ o_Loop o = l ∧ t ∈ o_ActorTypes o) ∧
         ((∀ o, o ∈ cs → ¬ serves t None o) →
          ∃ a o, is_owner (serving_addrs t cs) key a ∧ o ∈ cs ∧ o_Loop o = l ∧ serves t (Some a) o)
     end).
Proof.
  intros Hnd Ht. split_and!.
  - intros o. by apply pool_tracks_Add.
  - intros cs1 o cs2 ->. by apply pool_tracks_cancel.
  - intros id. by apply lookup_AppID.
  - intros t. by apply lookup_ActorType.
  - intros t key. by apply lookup_ActorHost.
Qed.

(** *** Fairness *)

(** [n] lookups of an app ID in a row. *)
Fixpoint lookups (n : nat) (id : string) (s : Store) : option (list N * Store) :=
  match n with
  | O => Some ([], s)
  | S n' => '(r, s) ← PStore_AppID id s; l ← r; '(ls, s) ← lookups n' id s; Some (l :: ls, s)
  end.

Lemma lookups_eq n id s e :
  entries (appIDs s) !! id = Some e → en_conns e ≠ [] → (en_nextConn e + N.of_nat n < two64)%N →
  ∃ ls s', lookups n id s = Some (ls, s') ∧
    ls = (λ k, default 0%N (en_conns e !! N.to_nat ((en_nextConn e + N.of_nat k) mod N.of_nat (length (en_conns e))))) <$> seq 0 n.
Proof.
  revert s e. induction n as [|n IH]; intros s e He Hne Hw; [by eexists _, _|].
  cbn [lookups]. unfold PStore_AppID, instance_get, round_robin_in, roundRobin. rewrite He.
  destruct (pick_spec (en_nextConn e) (en_conns e) Hne) as (l & -> & Hl & _). cbn [mbind option_bind].
  set (e' := mkEntry _ _ _ _ _).
  assert (Hsucc : u64_succ (en_nextConn e) = (en_nextConn e + 1)%N) by (unfold u64_succ; apply N.mod_small; lia).
  destruct (IH (mkPoolStore (mkInstance (<[id := e']> (entries (appIDs s)))) (actorTypes s)) e') as (ls & s' & -> & Hls).
  { cbn [appIDs entries]. by rewrite lookup_insert_eq. }
  { done. }
  { cbn [en_nextConn e']. rewrite Hsucc. lia. }
  cbn [mbind option_bind]. eexists _, _. split; [reflexivity|]. cbn [seq]. rewrite fmap_cons. f_equal.
  - rewrite N.add_0_r, Hl. done.
  - rewrite Hls, <-fmap_S_seq, <-list_fmap_compose. apply list_fmap_ext. intros ? k _. cbn [compose e' en_nextConn en_conns].
    rewrite Hsucc. by replace (en_nextConn e + 1 + N.of_nat k)%N with (en_nextConn e + N.of_nat (S k))%N by lia.
Qed.

Lemma rotate_perm {A} n (l : list A) : rotate n l ≡ₚ l.
Proof. unfold rotate. rewrite (comm (++)). by rewrite take_drop. Qed.

Lemma rotation_eq next (l : list N) :
  l ≠ [] →
  (λ k, default 0%N (l !! N.to_nat ((next + N.of_nat k) mod N.of_nat (length l)))) <$> seq 0 (length l) =
    rotate (N.to_nat next) l.
Proof.
  intros Hne. apply list_eq. intros k. rewrite list_lookup_fmap. destruct (decide (k < length l)) as [Hk|Hk].
  - rewrite lookup_seq_lt by done. cbn [fmap option_fmap option_map]. rewrite Nat.add_0_l, lookup_rotate_r by done.
    assert (Hi : rotate_nat_add (N.to_nat next) k (length l) = N.to_nat ((next + N.of_nat k) mod N.of_nat (length l))).
    { unfold rotate_nat_add. apply Nat2Z.inj. rewrite Z2Nat.id by (apply Z.mod_pos; lia).
      by rewrite !N_nat_Z, N2Z.inj_mod, N2Z.inj_add, !nat_N_Z. }
    rewrite Hi. destruct (lookup_lt_is_Some_2 l (N.to_nat ((next + N.of_nat k) mod N.of_nat (length l)))) as [x Hx]; [|by rewrite Hx].
    pose proof (N.mod_lt (next + N.of_nat k) (N.of_nat (length l))). lia.
  - rewrite lookup_seq_ge by lia. symmetry. apply lookup_ge_None. rewrite length_rotate. lia.
Qed.

(** Round robin is fair: when the counter is at a multiple of the number of connections of
    an app, as many lookups as there are connections return each of them once. *)
Theorem pool_round_robin_fair s cs id e :
  pool_tracks s cs → entries (appIDs s) !! id = Some e →
  let streams := o_Loop <$> filter (λ o, o_AppID o = Some id) cs in
  (en_nextConn e + N.of_nat (length streams) < two64)%N →
  ∃ ls s', lookups (length streams) id s = Some (ls, s') ∧ ls ≡ₚ streams.
Proof.
  intros [Ha _] He streams Hw. pose proof (Ha id) as Hn. rewrite He in Hn. destruct Hn as [Hne E].
  assert (Hs : streams = en_conns e).
  { rewrite (ef_conns _ _ E). subst streams. clear. induction cs as [|o cs IH]; [done|]. rewrite bind_cons, named_app, conns_of_app, <-IH.
    rewrite filter_cons. unfold app_regs, named. destruct (o_AppID o) as [a|]; rewrite ?filter_cons; cbn [g_name].
    - destruct (decide (a = id)) as [->|Hd]; [by rewrite decide_True|]. by rewrite decide_False by congruence.
    - by rewrite decide_False. }
  rewrite Hs in *. assert (en_conns e ≠ []) as Hc by (rewrite (ef_conns _ _ E); by intros ?%fmap_nil_inv).
  destruct (lookups_eq _ id s e He Hc Hw) as (ls & s' & Hl & ->). eexists _, _. split; [exact Hl|].
  rewrite rotation_eq by done. apply rotate_perm.
Qed.

End pool_store.

(** ** Witnesses *)

#[local] Existing Instance poly_hash.

Definition demo_opts (l : N) (a : string) : Options :=
  mkOptions l (Some "app") ["t1"; "t2"] (Some a).

Definition demo_pool_cs : list Options := [demo_opts 0 "10.0.0.1:1"; demo_opts 1 "10.0.0.2:1"].

Definition demo_pool_store : Store :=
  PStore_Add (demo_opts 1 "10.0.0.2:1") (PStore_Add (demo_opts 0 "10.0.0.1:1") PStore_New).

Lemma pool_tracks_New : pool_tracks PStore_New [].
Proof. split; intros n; cbn [PStore_New appIDs actorTypes newInstance entries]; by rewrite lookup_empty. Qed.

Lemma demo_pool_tracks : pool_tracks demo_pool_store demo_pool_cs.
Proof. apply (pool_tracks_Add _ [_]), (pool_tracks_Add _ []), pool_tracks_New. Qed.

Lemma demo_pool_NoDup : NoDup (o_Loop <$> demo_pool_cs).
Proof. apply (bool_decide_unpack _). vm_compute. reflexivity. Qed.

Lemma pool_store_refines_streams_witness :
  ∃ l s', PStore_ActorHost "t1" "actor-1" demo_pool_store = Some (Some l, s') ∧ (l = 0 ∨ l = 1)%N.
Proof.
  destruct (pool_store_refines_streams demo_pool_store demo_pool_cs demo_pool_NoDup demo_pool_tracks)
    as (_ & _ & _ & _ & H). destruct (H "t1" "actor-1") as ([l|] & s' & E & _ & Hr).
  - exists l, s'. split; [exact E|]. destruct Hr as [(o & Ho & <- & _) _].
    apply elem_of_cons in Ho as [->|Ho]; [by left|]. apply list_elem_of_singleton in Ho as ->. by right.
  - exfalso. apply (Hr (demo_opts 0 "10.0.0.1:1")); left.
Defined.

Lemma pool_round_robin_fair_witness :
  ∃ ls s', lookups 2 "app" demo_pool_store = Some (ls, s') ∧ ls ≡ₚ [0; 1]%N.
Proof.
  assert (Hn : en_nextConn <$> entries (appIDs demo_pool_store) !! "app" = Some 0%N) by (vm_compute; reflexivity).
  apply fmap_Some in Hn as (e & He & Hn).
  apply (pool_round_robin_fair demo_pool_store demo_pool_cs "app" e demo_pool_tracks He).
  rewrite <-Hn. reflexivity.
Defined.
