(* ===== verification/PoolConnections.v ===== *)
(** * The scheduler's connections loop
      (pkg/scheduler/server/internal/pool/loops/connections: connections.go,
       concurrency.go; loops/loops.go, stream/add.go)

    One loop per namespace hands triggered jobs to the streams of the connected
    sidecars.  Triggers for actor types with a concurrency limit pass gates; a
    trigger that cannot take all its gates waits in the queue of its first gate.

    A trigger's [ResultFn] is the number of the trigger ([tr_id], the function
    given by the cron engine) and, once the trigger was dispatched through
    gates, the gates its resolution gives back ([tr_release]): calling it is
    [resolve].  Results and releases are outputs, in the order of the calls.
    [PoolSystem] feeds the releases back to the loop. *)

From S2P Require Import Prelude GoLib Rendezvous PoolStore.
#[local] Open Scope dapr_scope.

(** ** Messages *)

Inductive Target := TargetJob | TargetActor (actor_type actor_id : string) | TargetNone.

Record JobMetadata := mkJobMetadata {
  jm_AppId : string; jm_Namespace : string; jm_Target : Target; ConcurrencyKey : option string }.

Record JobEvent := mkJobEvent { je_Key : string; je_Name : string; je_Data : string; je_Metadata : JobMetadata }.

Inductive TriggerResponseResult := SUCCESS | FAILED | UNDELIVERABLE.

Record TriggerRequest := mkTriggerRequest { tr_id : N; tr_Job : JobEvent; tr_release : option (list string) }.

Inductive JobTargetType := JOB_TARGET_TYPE_JOB | JOB_TARGET_TYPE_ACTOR_REMINDER.

#[export] Instance JobTargetType_eq_dec : EqDecision JobTargetType.
Proof. solve_decision. Defined.

(** The target of a limit is an actor type, or missing. *)
Record ConcurrencyLimit := mkConcurrencyLimit {
  MaxConcurrent : Z; lim_Name : option string; lim_Actor : option string }.

Record WatchJobsRequestInitial := mkInitial {
  wi_AppId : string; wi_Namespace : string; wi_ActorTypes : list string;
  AcceptJobTypes : list JobTargetType; ConcurrencyLimits : list ConcurrencyLimit;
  wi_ActorAddress : option string;
  SupportsSchedulerPlacement : bool; PlacementAddresses : list string }.

(** [deliverable] is whether the cron engine accepts the stream's prefixes;
    [order] is the order in which the runtime iterates over the gates. *)
Inductive EventConn :=
  | PConnAdd (Request : WatchJobsRequestInitial) (deliverable : bool)
  | PConnCloseStream (StreamIDx : N) (Namespace : string)
  | PTriggerRequest (req : TriggerRequest)
  | PConcurrencyRelease (GateKeys : list string)
  | PSchedulerInfoUpdate (Count Idx : Z) (order : list string)
  | PShutdown.

Inductive p_output :=
  | PResult (id : N) (r : TriggerResponseResult)
  | PRelease (GateKeys : list string)
  | PEnqueue (idx : N) (req : TriggerRequest)
  | PDeliverablePrefixes (prefixes : list string)
  | PStreamNew (idx : N) (Request : WatchJobsRequestInitial)
  | PStreamClose (idx : N)
  | PCloseNamespace (ns : string)
  | PError
  | PPanic.

(** [req.ResultFn(r)] *)
Definition resolve (r : TriggerResponseResult) (req : TriggerRequest) : list p_output :=
  PResult (tr_id req) r :: match tr_release req with None => [] | Some keys => [PRelease keys] end.

(** ** concurrency.go *)

Definition maxPendingPerGate : nat := N.to_nat 100000.

Record concurrencyGate := mkGate { globalLimit : N; current : N; pending : list TriggerRequest }.

Definition localLimitFromGlobal (globalLimit schedulerCount schedulerIdx : N) : N :=
  if (schedulerCount <=? 1)%N then globalLimit
  else
    let base := (globalLimit / schedulerCount)%N in
    if (base <? 1)%N then 1%N
    else if (schedulerIdx <? globalLimit mod schedulerCount)%N then (base + 1)%N
    else base.

Definition tryAcquire (schedulerCount schedulerIdx : N) (g : concurrencyGate) : option concurrencyGate :=
  if (current g <? localLimitFromGlobal (globalLimit g) schedulerCount schedulerIdx)%N
  then Some (mkGate (globalLimit g) (current g + 1) (pending g))
  else None.

Definition gate_release (g : concurrencyGate) : concurrencyGate :=
  if (0 <? current g)%N then mkGate (globalLimit g) (current g - 1) (pending g) else g.

Definition gate_enqueue (req : TriggerRequest) (g : concurrencyGate) : option concurrencyGate :=
  if maxPendingPerGate <=? length (pending g) then None
  else Some (mkGate (globalLimit g) (current g) (pending g ++ [req])).

Definition dequeue (g : concurrencyGate) : option (TriggerRequest * concurrencyGate) :=
  match pending g with
  | [] => None
  | req :: rest => Some (req, mkGate (globalLimit g) (current g) rest)
  end.

Definition requeueFront (reqs : list TriggerRequest) (g : concurrencyGate) : concurrencyGate :=
  mkGate (globalLimit g) (current g) (reqs ++ pending g).

(** ** stream/add.go *)

Definition joined (parts : list string) : string := foldr String.append EmptyString parts.

Definition accepts (t : JobTargetType) (req : WatchJobsRequestInitial) : bool :=
  (length (AcceptJobTypes req) =? 0) || bool_decide (t ∈ AcceptJobTypes req).

Definition add_prefixes (req : WatchJobsRequestInitial) : list string :=
  (if accepts JOB_TARGET_TYPE_JOB req
   then [joined ["app||"; wi_Namespace req; "||"; wi_AppId req; "||"]] else []) ++
  (if accepts JOB_TARGET_TYPE_ACTOR_REMINDER req
   then (λ t, joined ["actorreminder||"; wi_Namespace req; "||"; t; "||"]) <$> wi_ActorTypes req else []).

(** ** connections.go *)

Section pool_connections.
Context {X : XXHash}.

Record connections := mkConns {
  placementEnabled : bool;
  schedulerCount : N;
  schedulerIdx : N;
  p_streams : gmap N Options;
  p_streamIDx : N;
  streamPool : Store;
  concurrencyGates : gmap string concurrencyGate;
  streamGateKeys : gmap N (list string)
}.

Definition set_view count idx c := mkConns (placementEnabled c) count idx (p_streams c) (p_streamIDx c) (streamPool c)
  (concurrencyGates c) (streamGateKeys c).
Definition set_pstreams v c := mkConns (placementEnabled c) (schedulerCount c) (schedulerIdx c) v (p_streamIDx c)
  (streamPool c) (concurrencyGates c) (streamGateKeys c).
Definition set_pstreamIDx v c := mkConns (placementEnabled c) (schedulerCount c) (schedulerIdx c) (p_streams c) v
  (streamPool c) (concurrencyGates c) (streamGateKeys c).
Definition set_streamPool v c := mkConns (placementEnabled c) (schedulerCount c) (schedulerIdx c) (p_streams c)
  (p_streamIDx c) v (concurrencyGates c) (streamGateKeys c).
Definition set_gates v c := mkConns (placementEnabled c) (schedulerCount c) (schedulerIdx c) (p_streams c)
  (p_streamIDx c) (streamPool c) v (streamGateKeys c).
Definition set_gateKeys v c := mkConns (placementEnabled c) (schedulerCount c) (schedulerIdx c) (p_streams c)
  (p_streamIDx c) (streamPool c) (concurrencyGates c) v.

Definition p_handler := prog connections p_output.

Definition pconns_New (placement : bool) : connections :=
  mkConns placement 1 0 ∅ 0 PStore_New ∅ ∅.

Definition on_gate (key : string) (f : concurrencyGate → concurrencyGate) : p_handler :=
  modify (λ c, set_gates (alter f key (concurrencyGates c)) c).

(** [removeOrphanedGates]: the gates no connected stream refers to. *)
Definition referenced (c : connections) : list string := (map_to_list (streamGateKeys c)).*2 ≫= id.

Definition removeOrphanedGates : p_handler :=
  with c do
  let orphans := filter (λ kg, kg.1 ∉ referenced c) (map_to_list (concurrencyGates c)) in
  for_each orphans (λ kg,
    emit (pending kg.2 ≫= resolve UNDELIVERABLE) ;;;
    modify (λ c, set_gates (delete kg.1 (concurrencyGates c)) c)).

(** The gate key of a limit; [None] for the limits the loop skips. *)
Definition limit_key (l : ConcurrencyLimit) : option string :=
  if (MaxConcurrent l <=? 0)%Z then None
  else
    t ← lim_Actor l;
    Some (match lim_Name l with None => t | Some n => joined [t; ":"; n] end).

Definition set_limit (l : ConcurrencyLimit) (gates : gmap string concurrencyGate) : gmap string concurrencyGate :=
  match limit_key l with
  | None => gates
  | Some key =>
      let limit := Z.to_N (MaxConcurrent l) in
      match gates !! key with
      | Some g => <[key := mkGate limit (current g) (pending g)]> gates
      | None => <[key := mkGate limit 0 []]> gates
      end
  end.

Definition updateConcurrencyLimits (streamIDx : N) (req : WatchJobsRequestInitial) : p_handler :=
  modify (λ c, set_gates (foldl (λ g l, set_limit l g) (concurrencyGates c) (ConcurrencyLimits req)) c) ;;;
  modify (λ c, set_gateKeys (<[streamIDx := omap limit_key (ConcurrencyLimits req)]> (streamGateKeys c)) c) ;;;
  removeOrphanedGates.

Definition p_handleAdd (req : WatchJobsRequestInitial) (deliverable : bool) : p_handler :=
  with c do
  let idx := p_streamIDx c in
  modify (set_pstreamIDx (u64_succ idx)) ;;;
  emit [PDeliverablePrefixes (add_prefixes req)] ;;;
  if negb deliverable then emit [PError]
  else
    emit [PStreamNew idx req] ;;;
    let appID := if accepts JOB_TARGET_TYPE_JOB req then Some (wi_AppId req) else None in
    let opts := mkOptions idx appID (wi_ActorTypes req) (wi_ActorAddress req) in
    modify (λ c, set_streamPool (PStore_Add opts (streamPool c)) c) ;;;
    modify (λ c, set_pstreams (<[idx := opts]> (p_streams c)) c) ;;;
    updateConcurrencyLimits idx req.

Definition releaseGates (keys : list string) : p_handler :=
  for_each keys (λ key, on_gate key gate_release).

(** [acquireGates], followed by [k] on the acquired keys and whether all were;
    a missing gate is a nil dereference. *)
Fixpoint acquireGates (keys acquired : list string) (k : list string → bool → p_handler) : p_handler :=
  match keys with
  | [] => k acquired true
  | key :: keys' =>
      with c do
      match concurrencyGates c !! key with
      | None => emit [PPanic]
      | Some g =>
          match tryAcquire (schedulerCount c) (schedulerIdx c) g with
          | None => k acquired false
          | Some g' =>
              modify (λ c, set_gates (<[key := g']> (concurrencyGates c)) c) ;;;
              acquireGates keys' (acquired ++ [key]) k
          end
      end
  end.

Definition gateKeysForTrigger (req : TriggerRequest) (c : connections) : list string :=
  let meta := je_Metadata (tr_Job req) in
  match jm_Target meta with
  | TargetActor typeKey _ =>
      let has key := bool_decide (is_Some (concurrencyGates c !! key)) in
      (if has typeKey then [typeKey] else []) ++
      match ConcurrencyKey meta with
      | Some ck => let namedKey := joined [typeKey; ":"; ck] in if has namedKey then [namedKey] else []
      | None => []
      end
  | _ => []
  end.

(** [getStreamLoop], followed by [k] on the stream it found. *)
Definition getStreamLoop (meta : JobMetadata) (k : option N → p_handler) : p_handler :=
  with c do
  match jm_Target meta with
  | TargetNone => k None
  | t =>
      match (match t with
             | TargetJob => PStore_AppID (jm_AppId meta) (streamPool c)
             | TargetActor ty id =>
                 if negb (placementEnabled c) then PStore_ActorType ty (streamPool c)
                 else PStore_ActorHost ty id (streamPool c)
             | TargetNone => None
             end) with
      | None => emit [PPanic]
      | Some (r, pool) => modify (set_streamPool pool) ;;; k r
      end
  end.

(** [req.ResultFn] is replaced by one that also gives the gates back. *)
Definition dispatchWithGates (idx : N) (req : TriggerRequest) (gateKeys : list string) : p_handler :=
  emit [PEnqueue idx (mkTriggerRequest (tr_id req) (tr_Job req) (Some gateKeys))].

(** The deferred [releaseGates] runs after the request was queued. *)
Definition handleTriggerRequest (req : TriggerRequest) : p_handler :=
  getStreamLoop (je_Metadata (tr_Job req)) (λ r,
    match r with
    | None => emit (resolve UNDELIVERABLE req)
    | Some idx =>
        with c do
        match gateKeysForTrigger req c with
        | [] => emit [PEnqueue idx req]
        | (key0 :: _) as gateKeys =>
            acquireGates gateKeys [] (λ acquired gotAll,
              if gotAll then dispatchWithGates idx req gateKeys
              else
                (with c do
                 match concurrencyGates c !! key0 with
                 | None => emit [PPanic]
                 | Some primaryGate =>
                     match gate_enqueue req primaryGate with
                     | None => emit (resolve FAILED req)
                     | Some g => modify (λ c, set_gates (<[key0 := g]> (concurrencyGates c)) c)
                     end
                 end) ;;;
                releaseGates acquired)
        end
    end).

(** [tryDispatchPending], followed by [k dispatched consumed]. *)
Definition tryDispatchPending (next : TriggerRequest) (k : bool → bool → p_handler) : p_handler :=
  getStreamLoop (je_Metadata (tr_Job next)) (λ r,
    match r with
    | None => emit (resolve UNDELIVERABLE next) ;;; k false true
    | Some idx =>
        with c do
        let gateKeys := gateKeysForTrigger next c in
        acquireGates gateKeys [] (λ acquired gotAll,
          if gotAll then dispatchWithGates idx next gateKeys ;;; k true true
          else releaseGates acquired ;;; k false false)
    end).

(** The loop of [drainPending], [n] iterations left. *)
Fixpoint drain_loop (n : nat) (key : string) (skipped : list TriggerRequest) : p_handler :=
  match n with
  | O => on_gate key (requeueFront skipped)
  | S n' =>
      with c do
      match concurrencyGates c !! key ≫= dequeue with
      | None => on_gate key (requeueFront skipped)
      | Some (next, g) =>
          modify (λ c, set_gates (<[key := g]> (concurrencyGates c)) c) ;;;
          tryDispatchPending next (λ dispatched consumed,
            let skipped := if consumed then skipped else skipped ++ [next] in
            if dispatched then on_gate key (requeueFront skipped)
            else drain_loop n' key skipped)
      end
  end.

Definition drainPending (key : string) : p_handler :=
  with c do
  match concurrencyGates c !! key with
  | None => skip
  | Some gate => drain_loop (length (pending gate)) key []
  end.

Definition handleConcurrencyRelease (GateKeys : list string) : p_handler :=
  for_each GateKeys (λ key, on_gate key gate_release) ;;;
  for_each GateKeys drainPending.

(** [uint32(v)] of an int32. *)
Definition to_u32 (z : Z) : N := Z.to_N (z mod 4294967296).

Definition handleSchedulerInfoUpdate (Count Idx : Z) (order : list string) : p_handler :=
  modify (set_view (N.max (to_u32 Count) 1) (to_u32 Idx)) ;;;
  for_each order (λ key,
    with c do
    match concurrencyGates c !! key with
    | None => skip
    | Some gate => when (0 <? length (pending gate)) (drainPending key)
    end).

Definition p_handleCloseStream (StreamIDx : N) (Namespace : string) : p_handler :=
  with c do
  match p_streams c !! StreamIDx with
  | None => skip
  | Some opts =>
      modify (λ c, set_pstreams (delete StreamIDx (p_streams c)) c) ;;;
      modify (λ c, set_gateKeys (delete StreamIDx (streamGateKeys c)) c) ;;;
      modify (λ c, set_streamPool (PStore_cancel opts (streamPool c)) c) ;;;
      emit [PStreamClose (o_Loop opts)] ;;;
      removeOrphanedGates ;;;
      with c do when (size (p_streams c) =? 0) (emit [PCloseNamespace Namespace])
  end.

Definition p_handleShutdown : p_handler :=
  with c do
  for_each (map_to_list (p_streams c)) (λ kv,
    modify (λ c, set_streamPool (PStore_cancel kv.2 (streamPool c)) c) ;;;
    emit [PStreamClose (o_Loop kv.2)]) ;;;
  modify (set_pstreams ∅) ;;;
  emit ((map_to_list (concurrencyGates c)).*2 ≫= λ g, pending g ≫= resolve UNDELIVERABLE) ;;;
  modify (set_gates ∅) ;;;
  modify (set_gateKeys ∅).

Definition p_Handle (event : EventConn) : p_handler :=
  match event with
  | PConnAdd req deliverable => p_handleAdd req deliverable
  | PConnCloseStream idx ns => p_handleCloseStream idx ns
  | PTriggerRequest req => handleTriggerRequest req
  | PConcurrencyRelease keys => handleConcurrencyRelease keys
  | PSchedulerInfoUpdate count idx order => handleSchedulerInfoUpdate count idx order
  | PShutdown => p_handleShutdown
  end.

End pool_connections.
