(* ===== verification/PoolGates.v ===== *)
(** * Dispatch through the gates of the connections loop

    The behaviour of the operations of [PoolConnections] that hand out triggers:
    routing finds a connected stream whenever there is one, acquiring gates is
    all or nothing, and draining a queue dispatches its first trigger that can go
    and keeps the order of the others. *)

From S2P Require Import Prelude GoLib Rendezvous PoolStore PoolConnections.
#[local] Open Scope dapr_scope.

Section pool_gates.
Context {X : XXHash}.
Implicit Types (c : connections) (req next : TriggerRequest).

(** ** Routing *)

(** The pool indexes the connected streams. *)
Definition pool_ok c : Prop :=
  ∃ cs, NoDup (o_Loop <$> cs) ∧ pool_tracks (streamPool c) cs ∧
    ∀ i o, p_streams c !! i = Some o ↔ o ∈ cs ∧ o_Loop o = i.

(** A connected stream that takes jobs with this metadata. *)
Definition suited c (meta : JobMetadata) (l : N) : Prop :=
  ∃ o, p_streams c !! l = Some o ∧
    match jm_Target meta with
    | TargetJob => o_AppID o = Some (jm_AppId meta)
    | TargetActor t _ => t ∈ o_ActorTypes o
    | TargetNone => False
    end.

Definition servable c (meta : JobMetadata) : Prop := ∃ l, suited c meta l.

(** Programs that do not look at the streams see the same state under another pool. *)
Definition with_pool (pool : Store) c : connections := set_streamPool pool c.

Lemma with_pool_id c : set_gates (concurrencyGates c) (with_pool (streamPool c) c) = c.
Proof. by destruct c. Qed.

Lemma modify_seq {S O} (f : S → S) (h : prog S O) s : (modify f ;;; h) s = h (f s).
Proof. unfold seqp, modify. by destruct (h (f s)). Qed.

Lemma getStreamLoop_eq c meta :
  pool_ok c →
  ∃ r pool, (∀ k, getStreamLoop meta k c = k r (with_pool pool c)) ∧ pool_ok (with_pool pool c) ∧
    match r with None => ¬ servable c meta | Some l => suited c meta l end.
Proof.
  intros (cs & Hnd & Ht & Hcs). unfold getStreamLoop, servable, suited, get.
  assert (Hok : ∀ pool, pool_tracks pool cs → pool_ok (with_pool pool c)) by (intros pool Hp; by exists cs).
  assert (Hpick : ∀ (P : Options → Prop) (look : option (option N * Store)),
    (∃ r pool, look = Some (r, pool) ∧ pool_tracks pool cs ∧
       match r with None => ∀ o, o ∈ cs → ¬ P o | Some l => ∃ o, o ∈ cs ∧ o_Loop o = l ∧ P o end) →
    ∃ r pool, (∀ k : option N → p_handler,
        match look with None => emit [PPanic] | Some (r, pool) => modify (set_streamPool pool) ;;; k r end c
          = k r (with_pool pool c)) ∧ pool_ok (with_pool pool c) ∧
      match r with None => ¬ ∃ l o, p_streams c !! l = Some o ∧ P o | Some l => ∃ o, p_streams c !! l = Some o ∧ P o end).
  { intros P look (r & pool & -> & Hp & Hr). exists r, pool. split_and!; [intros k; apply modify_seq|by apply Hok|].
    destruct r as [l|].
    - destruct Hr as (o & Ho & Hl & Ha). exists o. split; [by apply Hcs|done].
    - intros (l & o & [Ho _]%Hcs & Ha). by apply (Hr o Ho). }
  destruct (jm_Target meta) as [|t id|] eqn:Etarget.
  - apply Hpick. destruct (lookup_AppID _ cs (jm_AppId meta) Ht) as (r & pool & H). by exists r, pool.
  - destruct (placementEnabled c); cbn [negb]; apply Hpick.
    + destruct (lookup_ActorHost _ cs t id Ht) as ([l|] & pool & E & Hp & Hr); exists (Some l) || exists None; exists pool;
        (split_and!; [done|done|]); [apply Hr|done].
    + destruct (lookup_ActorType _ cs t Ht) as (r & pool & H). by exists r, pool.
  - exists None, (streamPool c). split_and!.
    + intros k. f_equal. by destruct c.
    + by exists cs.
    + by intros (l & o & _ & []).
Qed.

(** ** Gates *)

Definition incr (g : concurrencyGate) : concurrencyGate := mkGate (globalLimit g) (current g + 1) (pending g).

Definition bump (keys : list string) (m : gmap string concurrencyGate) : gmap string concurrencyGate :=
  foldl (λ m key, alter incr key m) m keys.

(** The limit of a gate at this scheduler. *)
Definition limit_of c (g : concurrencyGate) : N := localLimitFromGlobal (globalLimit g) (schedulerCount c) (schedulerIdx c).

Definition room c (keys : list string) : Prop :=
  ∀ key, key ∈ keys → ∃ g, concurrencyGates c !! key = Some g ∧ (current g < limit_of c g)%N.

Definition full c (keys : list string) : Prop :=
  ∃ key g, key ∈ keys ∧ concurrencyGates c !! key = Some g ∧ (limit_of c g ≤ current g)%N.

Lemma bump_cons key keys m : bump (key :: keys) m = bump keys (alter incr key m).
Proof. done. Qed.

Lemma alter_bump f key keys m : key ∉ keys → alter f key (bump keys m) = bump keys (alter f key m).
Proof.
  revert m. induction keys as [|k keys IH]; intros m Hk; [done|]. apply not_elem_of_cons in Hk as [Hne Hk].
  rewrite !bump_cons. rewrite IH by done. f_equal. by apply alter_alter_ne.
Qed.

Lemma lookup_bump_ne keys m key : key ∉ keys → bump keys m !! key = m !! key.
Proof.
  revert m. induction keys as [|k keys IH]; intros m Hk; [done|]. apply not_elem_of_cons in Hk as [Hne Hk].
  rewrite !bump_cons. rewrite IH by done. by rewrite lookup_alter_ne.
Qed.

Lemma lookup_bump keys m key : NoDup keys → key ∈ keys → bump keys m !! key = incr <$> m !! key.
Proof.
  revert m. induction keys as [|k keys IH]; intros m Hnd Hk; [by apply elem_of_nil in Hk|].
  apply list.NoDup_cons in Hnd as [Hnk Hnd]. rewrite !bump_cons.
  apply elem_of_cons in Hk as [->|Hk]; [by rewrite lookup_bump_ne, lookup_alter_eq|].
  rewrite IH by done. rewrite lookup_alter_ne; [done|]. by intros ->.
Qed.

Lemma release_incr g : gate_release (incr g) = g.
Proof.
  unfold gate_release, incr. cbn [current globalLimit pending]. destruct (0 <? current g + 1)%N eqn:E.
  - rewrite N.add_sub. by destruct g.
  - apply N.ltb_ge in E. lia.
Qed.

Definition release_all (keys : list string) (m : gmap string concurrencyGate) : gmap string concurrencyGate :=
  foldl (λ m key, alter gate_release key m) m keys.

Lemma release_all_cons key keys m : release_all (key :: keys) m = release_all keys (alter gate_release key m).
Proof. done. Qed.

Lemma release_bump keys m : NoDup keys → release_all keys (bump keys m) = m.
Proof.
  revert m. induction keys as [|k keys IH]; intros m Hnd; [done|]. apply list.NoDup_cons in Hnd as [Hnk Hnd].
  rewrite bump_cons, release_all_cons.
  rewrite alter_bump, IH by done. apply map_eq. intros j. rewrite !lookup_alter. case_decide; [subst|done].
  rewrite decide_True by done. destruct (m !! j); [|done]. cbn [fmap option_fmap option_map]. by rewrite release_incr.
Qed.

Lemma for_each_modify {A} (f : A → connections → connections) (l : list A) c :
  for_each (O := p_output) l (λ x, modify (f x)) c = (foldl (λ c x, f x c) c l, []).
Proof. revert c. induction l as [|x l IH]; intros c; [done|]. cbn [for_each foldl]. rewrite modify_seq. apply IH. Qed.

Lemma release_for_each keys c :
  for_each keys (λ key, on_gate key gate_release) c = (set_gates (release_all keys (concurrencyGates c)) c, []).
Proof.
  unfold on_gate. rewrite for_each_modify. f_equal. revert c. induction keys as [|k keys IH]; intros c; [by destruct c|].
  cbn [foldl release_all]. rewrite IH. by destruct c.
Qed.

Lemma releaseGates_eq keys c : releaseGates keys c = (set_gates (release_all keys (concurrencyGates c)) c, []).
Proof. apply release_for_each. Qed.

Lemma acquireGates_take key keys acq c g k :
  concurrencyGates c !! key = Some g → (current g < limit_of c g)%N →
  acquireGates (key :: keys) acq k c = acquireGates keys (acq ++ [key]) k (set_gates (<[key := incr g]> (concurrencyGates c)) c).
Proof.
  intros Hg Hlt%N.ltb_lt. cbn [acquireGates]. unfold get, tryAcquire. rewrite Hg. unfold limit_of in Hlt. rewrite Hlt.
  by rewrite modify_seq.
Qed.

Lemma acquireGates_full key keys acq c g k :
  concurrencyGates c !! key = Some g → (limit_of c g ≤ current g)%N → acquireGates (key :: keys) acq k c = k acq false c.
Proof.
  intros Hg Hlt%N.ltb_ge. cbn [acquireGates]. unfold get, tryAcquire. rewrite Hg. unfold limit_of in Hlt. by rewrite Hlt.
Qed.

(** Acquiring is all or nothing, up to the acquired prefix the caller gives back. *)
Lemma acquireGates_eq keys : ∀ acq c,
  NoDup keys → (∀ key, key ∈ keys → is_Some (concurrencyGates c !! key)) →
  (room c keys ∧ ∀ k, acquireGates keys acq k c = k (acq ++ keys) true (set_gates (bump keys (concurrencyGates c)) c)) ∨
  (full c keys ∧ ∃ pre, pre `prefix_of` keys ∧
     ∀ k, acquireGates keys acq k c = k (acq ++ pre) false (set_gates (bump pre (concurrencyGates c)) c)).
Proof.
  induction keys as [|key keys IH]; intros acq c Hnd Hin.
  - left. split; [by intros k ?%elem_of_nil|]. intros k. rewrite app_nil_r. by destruct c.
  - apply list.NoDup_cons in Hnd as [Hnk Hnd]. destruct (Hin key) as [g Hg]; [left|]. 
    destruct (decide (current g < limit_of c g)%N) as [Hlt|Hge].
    + set (c1 := set_gates (<[key := incr g]> (concurrencyGates c)) c).
      assert (Hother : ∀ k, k ∈ keys → concurrencyGates c1 !! k = concurrencyGates c !! k).
      { intros k Hk. cbn [c1 set_gates concurrencyGates]. rewrite lookup_insert_ne; [done|]. by intros ->. }
      assert (Hbump : ∀ ks, set_gates (bump ks (concurrencyGates c1)) c1 = set_gates (bump (key :: ks) (concurrencyGates c)) c).
      { intros ks. unfold c1, set_gates. cbn. f_equal. unfold bump. f_equal. apply map_eq. intros j. rewrite lookup_insert, lookup_alter.
        case_decide; [subst; by rewrite Hg|done]. }
      destruct (IH (acq ++ [key]) c1) as [[Hroom Heq]|(Hfull & pre & Hpre & Heq)].
      { done. }
      { intros k Hk. rewrite Hother by done. apply Hin. by right. }
      * left. split.
        -- intros k [->|Hk]%elem_of_cons; [by exists g|]. destruct (Hroom k Hk) as (g' & Hg' & Hc). rewrite Hother in Hg' by done.
           by exists g'.
        -- intros k. rewrite (acquireGates_take _ _ _ _ g) by done. fold c1. by rewrite Heq, <-(assoc_L (++)), Hbump.
      * right. split.
        -- destruct Hfull as (k & g' & Hk & Hg' & Hc). exists k, g'. rewrite Hother in Hg' by done. split; [by right|done].
        -- exists (key :: pre). split; [by apply prefix_cons|]. intros k. rewrite (acquireGates_take _ _ _ _ g) by done. fold c1.
           by rewrite Heq, <-(assoc_L (++)), Hbump.
    + apply N.nlt_ge in Hge. right. split.
      * exists key, g. split; [left|done].
      * exists []. split; [apply prefix_nil|]. intros k. rewrite (acquireGates_full _ _ _ _ g), app_nil_r by done. by destruct c.
Qed.

(** ** The gates of a trigger *)

Lemma joined_ne t ck : t ≠ joined [t; ":"; ck].
Proof.
  intros E%(f_equal String.length). unfold joined in E. cbn [foldr] in E. rewrite !string_append_nil_r in E.
  assert (Hl : ∀ a b, String.length (String.append a b) = String.length a + String.length b).
  { induction a as [|x a IH]; intros b; [done|]. exact (f_equal S (IH b)). }
  rewrite !Hl in E. cbn in E. lia.
Qed.

Lemma gateKeys_NoDup req c : NoDup (gateKeysForTrigger req c).
Proof.
  unfold gateKeysForTrigger. destruct (jm_Target _) as [|t id|]; [constructor| |constructor].
  destruct (ConcurrencyKey _) as [ck|]; repeat case_bool_decide; cbn [app]; repeat constructor; try set_solver.
  intros E%list_elem_of_singleton. exact (joined_ne _ _ E).
Qed.

Lemma gateKeys_present req c key : key ∈ gateKeysForTrigger req c → is_Some (concurrencyGates c !! key).
Proof.
  unfold gateKeysForTrigger. destruct (jm_Target _) as [|t id|]; [by intros ?%elem_of_nil| |by intros ?%elem_of_nil].
  intros [Hk|Hk]%elem_of_app.
  - case_bool_decide; [|by apply elem_of_nil in Hk]. by apply list_elem_of_singleton in Hk as ->.
  - destruct (ConcurrencyKey _) as [ck|]; [|by apply elem_of_nil in Hk].
    case_bool_decide; [|by apply elem_of_nil in Hk]. by apply list_elem_of_singleton in Hk as ->.
Qed.

(** Only which gates exist matters. *)
Lemma gateKeys_dom req c c' :
  dom (concurrencyGates c) = dom (concurrencyGates c') → gateKeysForTrigger req c = gateKeysForTrigger req c'.
Proof.
  intros Hd. unfold gateKeysForTrigger. destruct (jm_Target _) as [|t id|]; [done| |done].
  assert (Hb : ∀ k, bool_decide (is_Some (concurrencyGates c !! k)) = bool_decide (is_Some (concurrencyGates c' !! k))).
  { intros k. apply bool_decide_ext. by rewrite <-!elem_of_dom, Hd. }
  rewrite !Hb. by destruct (ConcurrencyKey _); rewrite ?Hb.
Qed.

Definition gated req (keys : list string) : TriggerRequest := mkTriggerRequest (tr_id req) (tr_Job req) (Some keys).

Definition meta_of req : JobMetadata := je_Metadata (tr_Job req).

Definition push req (g : concurrencyGate) : concurrencyGate := mkGate (globalLimit g) (current g) (pending g ++ [req]).

Lemma release_all_push req key keys m : release_all keys (alter (push req) key m) = alter (push req) key (release_all keys m).
Proof.
  revert m. induction keys as [|k keys IH]; intros m; [done|]. rewrite !release_all_cons, <-IH. f_equal.
  apply map_eq. intros j. rewrite !lookup_alter. repeat case_decide; subst; try done. destruct (m !! j) as [g|]; [|done].
  cbn [fmap option_fmap option_map]. unfold gate_release, push. cbn [current globalLimit pending].
  by destruct (0 <? current g)%N.
Qed.

Lemma seqp_nil {S O} (h : prog S O) (s : S) : (h s).2 = [] → ∀ k, (h ;;; k) s = k (h s).1.
Proof. intros Hn k. rewrite seqp_eq, Hn. by destruct (k (h s).1). Qed.

Lemma prefix_NoDup {A} (l1 l2 : list A) : l1 `prefix_of` l2 → NoDup l2 → NoDup l1.
Proof. intros [l ->] (? & _)%list.NoDup_app. done. Qed.

Lemma try_cases c next :
  pool_ok c →
  let keys := gateKeysForTrigger next c in
  ∃ pool, pool_ok (with_pool pool c) ∧
   ((¬ servable c (meta_of next) ∧
       ∀ k, tryDispatchPending next k c = (emit (resolve UNDELIVERABLE next) ;;; k false true) (with_pool pool c)) ∨
    (∃ idx, suited c (meta_of next) idx ∧ room c keys ∧
       ∀ k, tryDispatchPending next k c =
         (emit [PEnqueue idx (gated next keys)] ;;; k true true) (set_gates (bump keys (concurrencyGates c)) (with_pool pool c))) ∨
    (servable c (meta_of next) ∧ full c keys ∧
       ∀ k, tryDispatchPending next k c = k false false (with_pool pool c))).
Proof.
  intros Hok keys. destruct (getStreamLoop_eq c (meta_of next) Hok) as (r & pool & Hg & Hok' & Hr). exists pool. split; [done|].
  unfold tryDispatchPending. fold (meta_of next). setoid_rewrite Hg. destruct r as [idx|]; [right|by left].
  set (c1 := with_pool pool c) in *.
  assert (Hkeys : gateKeysForTrigger next c1 = keys) by (by apply gateKeys_dom).
  destruct (acquireGates_eq keys [] c1) as [[Hroom Heq]|(Hfull & pre & Hpre & Heq)].
  - apply gateKeys_NoDup.
  - intros key. rewrite <-Hkeys. apply gateKeys_present.
  - left. exists idx. split_and!; [done|exact Hroom|]. intros k. unfold get. rewrite Hkeys, Heq. done.
  - right. split_and!; [by exists idx|exact Hfull|]. intros k. unfold get. rewrite Hkeys, Heq. cbn [app].
    rewrite seqp_nil by (by rewrite releaseGates_eq). rewrite releaseGates_eq. cbn [fst set_gates concurrencyGates].
    f_equal. rewrite release_bump by (eapply prefix_NoDup; [done|apply gateKeys_NoDup]). done.
Qed.

Lemma trigger_cases c req :
  pool_ok c →
  let keys := gateKeysForTrigger req c in
  ∃ pool, pool_ok (with_pool pool c) ∧
   ((¬ servable c (meta_of req) ∧ handleTriggerRequest req c = (with_pool pool c, resolve UNDELIVERABLE req)) ∨
    (∃ idx, suited c (meta_of req) idx ∧ keys = [] ∧ handleTriggerRequest req c = (with_pool pool c, [PEnqueue idx req])) ∨
    (∃ idx, suited c (meta_of req) idx ∧ keys ≠ [] ∧ room c keys ∧
       handleTriggerRequest req c =
         (set_gates (bump keys (concurrencyGates c)) (with_pool pool c), [PEnqueue idx (gated req keys)])) ∨
    (∃ key g, head keys = Some key ∧ full c keys ∧ concurrencyGates c !! key = Some g ∧
       handleTriggerRequest req c =
         if maxPendingPerGate <=? length (pending g) then (with_pool pool c, resolve FAILED req)
         else (set_gates (alter (push req) key (concurrencyGates c)) (with_pool pool c), []))).
Proof.
  intros Hok keys. destruct (getStreamLoop_eq c (meta_of req) Hok) as (r & pool & Hg & Hok' & Hr). exists pool. split; [done|].
  unfold handleTriggerRequest. fold (meta_of req). rewrite Hg. destruct r as [idx|]; [right|by left].
  set (c1 := with_pool pool c) in *. assert (Hkeys : gateKeysForTrigger req c1 = keys) by (by apply gateKeys_dom).
  unfold get. rewrite Hkeys. pose proof (gateKeys_NoDup req c) as Hnd. fold keys in Hnd.
  pose proof (gateKeys_present req c) as Hpres. fold keys in Hpres.
  destruct keys as [|key keys'] eqn:Ek; [left; by exists idx|right].
  destruct (acquireGates_eq (key :: keys') [] c1) as [[Hroom Heq]|(Hfull & pre & Hpre & Heq)]; [done|exact Hpres| |].
  - left. exists idx. split_and!; [done|done|exact Hroom|]. by rewrite Heq.
  - right. destruct (Hpres key) as [g Hkg]; [left|]. exists key, g. split_and!; [done|exact Hfull|done|]. rewrite Heq. cbn [app].
    rewrite seqp_eq. unfold get. cbn [set_gates concurrencyGates].
    pose proof (prefix_NoDup _ _ Hpre Hnd) as Hndp.
    assert (∃ g', bump pre (concurrencyGates c1) !! key = Some g' ∧ pending g' = pending g) as (g' & Hg' & Hp).
    { destruct (decide (key ∈ pre)) as [Hin|Hin].
      - rewrite lookup_bump by done. cbn [c1 with_pool set_streamPool concurrencyGates]. rewrite Hkg. by eexists.
      - rewrite lookup_bump_ne by done. by exists g. }
    rewrite Hg'. unfold gate_enqueue. rewrite Hp. destruct (maxPendingPerGate <=? length (pending g)).
    + cbn [emit fst snd]. rewrite releaseGates_eq. cbn [fst snd set_gates concurrencyGates app]. rewrite release_bump, app_nil_r by done. done.
    + cbn [modify fst snd set_gates concurrencyGates]. rewrite releaseGates_eq. cbn [fst snd set_gates concurrencyGates app]. f_equal.
      assert (Hins : <[key := mkGate (globalLimit g') (current g') (pending g ++ [req])]> (bump pre (concurrencyGates c1)) =
        alter (push req) key (bump pre (concurrencyGates c1))).
      { apply map_eq. intros j. rewrite lookup_insert, lookup_alter. case_decide; [subst; rewrite Hg'; unfold push; cbn; by rewrite Hp|done]. }
      rewrite Hins, release_all_push, release_bump by done. done.
Qed.

(** ** Draining the queue of a gate *)

(** States that differ in the pool and in the queues only. *)
Definition same_gates c c' : Prop :=
  schedulerCount c = schedulerCount c' ∧ schedulerIdx c = schedulerIdx c' ∧ p_streams c = p_streams c' ∧
  ∀ key, (λ g, (globalLimit g, current g)) <$> concurrencyGates c !! key =
         (λ g, (globalLimit g, current g)) <$> concurrencyGates c' !! key.

Lemma same_gates_sym c c' : same_gates c c' → same_gates c' c.
Proof. intros (? & ? & ? & H). split_and!; auto. Qed.

Lemma same_gates_keys c c' req : same_gates c c' → gateKeysForTrigger req c = gateKeysForTrigger req c'.
Proof.
  intros (_ & _ & _ & H). apply gateKeys_dom, set_eq. intros key. rewrite !elem_of_dom. specialize (H key).
  destruct (concurrencyGates c !! key), (concurrencyGates c' !! key); try done; split; eauto.
Qed.

Lemma same_gates_full c c' keys : same_gates c c' → full c keys → full c' keys.
Proof.
  intros (E1 & E2 & _ & H) (key & g & Hk & Hg & Hc). specialize (H key). rewrite Hg in H.
  destruct (concurrencyGates c' !! key) as [g'|] eqn:Hg'; [|done]. injection H as Hl Hcur. exists key, g'.
  split_and!; [done|done|]. unfold limit_of in *. congruence.
Qed.

Lemma same_gates_room c c' keys : same_gates c c' → room c keys → room c' keys.
Proof.
  intros (E1 & E2 & _ & H) Hr key Hk. destruct (Hr key Hk) as (g & Hg & Hc). specialize (H key). rewrite Hg in H.
  destruct (concurrencyGates c' !! key) as [g'|] eqn:Hg'; [|done]. injection H as Hl Hcur. exists g'.
  split; [done|]. unfold limit_of in *. congruence.
Qed.

Lemma same_gates_suited c c' meta l : same_gates c c' → suited c meta l → suited c' meta l.
Proof. intros (_ & _ & E & _). unfold suited. by rewrite E. Qed.

Lemma same_gates_servable c c' meta : same_gates c c' → servable c meta → servable c' meta.
Proof. intros Hs [l Hl]. exists l. by eapply same_gates_suited. Qed.

Definition set_pending (p : list TriggerRequest) (g : concurrencyGate) : concurrencyGate :=
  mkGate (globalLimit g) (current g) p.

Lemma alter_bump_comm f key keys m :
  (∀ g, f (incr g) = incr (f g)) → alter f key (bump keys m) = bump keys (alter f key m).
Proof.
  intros Hf. revert m. induction keys as [|k keys IH]; intros m; [done|]. rewrite !bump_cons, IH. f_equal.
  apply map_eq. intros j. rewrite !lookup_alter. repeat case_decide; subst; try done. destruct (m !! j); [|done].
  cbn [fmap option_fmap option_map]. by rewrite Hf.
Qed.

(** Triggers passed over: the undeliverable are resolved, the blocked are kept in order. *)
Inductive drained c : list TriggerRequest → list TriggerRequest → list p_output → Prop :=
  | drained_nil : drained c [] [] []
  | drained_unservable next l kept os :
      ¬ servable c (meta_of next) → drained c l kept os → drained c (next :: l) kept (resolve UNDELIVERABLE next ++ os)
  | drained_blocked next l kept os :
      servable c (meta_of next) → full c (gateKeysForTrigger next c) → drained c l kept os →
      drained c (next :: l) (next :: kept) os.

Section drain.
Context (c : connections) (key : string) (g : concurrencyGate).
Hypothesis Hg : concurrencyGates c !! key = Some g.

(** The state with another pool and the queue [p] at [key]. *)
Definition queue_state (pool : Store) (p : list TriggerRequest) : connections :=
  set_gates (<[key := set_pending p g]> (concurrencyGates c)) (with_pool pool c).

Lemma same_gates_queue_state pool p : same_gates c (queue_state pool p).
Proof.
  split_and!; [done..|]. intros k. cbn [queue_state set_gates concurrencyGates]. rewrite lookup_insert.
  case_decide; [subst; by rewrite Hg|done].
Qed.

Lemma pool_ok_queue_state pool p : pool_ok (with_pool pool c) ↔ pool_ok (queue_state pool p).
Proof. done. Qed.

Lemma requeue_state pool skipped p :
  on_gate key (requeueFront skipped) (queue_state pool p) = (queue_state pool (skipped ++ p), []).
Proof.
  unfold on_gate, modify. f_equal. unfold queue_state, set_gates. cbn. f_equal. apply map_eq. intros k.
  rewrite lookup_alter, !lookup_insert. case_decide; [subst|done]. rewrite decide_True by done. done.
Qed.

Lemma drain_loop_spec p : ∀ skipped pool,
  pool_ok (with_pool pool c) →
  ∃ pool', pool_ok (with_pool pool' c) ∧
   ((∃ kept os, drained c p kept os ∧
       drain_loop (length p) key skipped (queue_state pool p) = (queue_state pool' (skipped ++ kept), os)) ∨
    (∃ before next after kept os idx, p = before ++ next :: after ∧ drained c before kept os ∧
       suited c (meta_of next) idx ∧ room c (gateKeysForTrigger next c) ∧
       drain_loop (length p) key skipped (queue_state pool p) =
         (set_gates (bump (gateKeysForTrigger next c) (concurrencyGates (queue_state pool' (skipped ++ kept ++ after))))
            (with_pool pool' c),
          os ++ [PEnqueue idx (gated next (gateKeysForTrigger next c))]))).
Proof.
  induction p as [|next p IH]; intros skipped pool Hok.
  - exists pool. split; [done|]. left. exists [], []. split; [constructor|]. cbn [length drain_loop].
    by rewrite requeue_state.
  - cbn [length drain_loop]. unfold get. cbn [queue_state set_gates concurrencyGates]. rewrite lookup_insert_eq. cbn [mbind option_bind dequeue set_pending pending].
    rewrite modify_seq.
    assert (Hst : set_gates (<[key := mkGate (globalLimit (set_pending (next :: p) g)) (current (set_pending (next :: p) g)) p]>
        (concurrencyGates (queue_state pool (next :: p)))) (queue_state pool (next :: p)) = queue_state pool p).
    { unfold queue_state, set_gates. cbn. f_equal. by rewrite insert_insert_eq. }
    fold (queue_state pool (next :: p)). cbn [set_gates concurrencyGates] in Hst |- *. rewrite Hst.
    pose proof (same_gates_queue_state pool p) as Hsame. pose proof (same_gates_sym _ _ Hsame) as Hsym.
    destruct (try_cases (queue_state pool p) next Hok) as (pool1 & Hok1 & Hcases).
    rewrite <-(same_gates_keys _ _ next Hsame) in Hcases.
    change (with_pool pool1 (queue_state pool p)) with (queue_state pool1 p) in *.
    destruct Hcases as [[Hns Heq]|[(idx & Hs & Hroom & Heq)|(Hs & Hfull & Heq)]]; rewrite Heq.
    + cbn beta iota. destruct (IH skipped pool1 Hok1) as (pool' & Hok' & [(kept & os & Hd & E)|(before & nx & after & kept & os & idx & -> & Hd & Hsu & Hro & E)]);
        exists pool'; (split; [done|]); [left|right].
      * exists kept, (resolve UNDELIVERABLE next ++ os). split; [constructor; [|done]; intros ?; eapply Hns, same_gates_servable; done|].
        rewrite seqp_eq. cbn [emit fst snd]. by rewrite E.
      * exists (next :: before), nx, after, kept, (resolve UNDELIVERABLE next ++ os), idx. split_and!; try done.
        -- constructor; [|done]. intros ?; eapply Hns, same_gates_servable; done.
        -- rewrite seqp_eq. cbn [emit fst snd]. rewrite E. cbn [fst snd]. f_equal. apply (assoc_L (++)).
    + cbn beta iota. exists pool1. split; [done|]. right. exists [], next, p, [], [], idx. split_and!; try done.
      * constructor.
      * by eapply same_gates_room.
      * rewrite seqp_eq. cbn [emit fst snd]. unfold on_gate, modify. cbn [fst snd app]. f_equal. unfold set_gates. cbn. f_equal.
        rewrite alter_bump_comm by done. f_equal. apply map_eq. intros k. rewrite lookup_alter, !lookup_insert.
        case_decide; [subst; by rewrite decide_True|done].
    + cbn beta iota. destruct (IH (skipped ++ [next]) pool1 Hok1) as (pool' & Hok' & [(kept & os & Hd & E)|(before & nx & after & kept & os & idx & -> & Hd & Hsu & Hro & E)]);
        exists pool'; (split; [done|]); rewrite E; [left|right].
      * exists (next :: kept), os. split; [|by rewrite <-(assoc_L (++))].
        constructor; [by eapply same_gates_servable|by eapply same_gates_full|done].
      * exists (next :: before), nx, after, (next :: kept), os, idx. split_and!; try done.
        -- constructor; [by eapply same_gates_servable|by eapply same_gates_full|done].
        -- by rewrite <-!(assoc_L (++)).
Qed.

Lemma drainPending_cases :
  pool_ok c →
  ∃ pool, pool_ok (with_pool pool c) ∧
   ((∃ kept os, drained c (pending g) kept os ∧ drainPending key c = (queue_state pool kept, os)) ∨
    (∃ before next after kept os idx, pending g = before ++ next :: after ∧ drained c before kept os ∧
       suited c (meta_of next) idx ∧ room c (gateKeysForTrigger next c) ∧
       drainPending key c =
         (set_gates (bump (gateKeysForTrigger next c) (concurrencyGates (queue_state pool (kept ++ after)))) (with_pool pool c),
          os ++ [PEnqueue idx (gated next (gateKeysForTrigger next c))]))).
Proof.
  intros Hok. assert (Hst : queue_state (streamPool c) (pending g) = c).
  { unfold queue_state. rewrite insert_id; [apply with_pool_id|]. rewrite Hg. by destruct g. }
  assert (Hok' : pool_ok (with_pool (streamPool c) c)) by exact Hok.
  destruct (drain_loop_spec (pending g) [] (streamPool c) Hok') as (pool & Hp & Hcases). exists pool. split; [done|].
  rewrite Hst in Hcases. unfold drainPending, get. rewrite Hg. exact Hcases.
Qed.

End drain.

End pool_gates.
