(* ===== verification/PoolStream.v ===== *)
(** * A stream of the scheduler's connection pool
      (pkg/scheduler/server/internal/pool/loops/stream: stream.go, recv.go)

    Sends the triggers it is handed to one sidecar and resolves them with the
    results it receives.  The loop and the receiving goroutine share the map of
    triggers in flight: the results the goroutine handles while a [Send] has not
    returned are an argument of the handler ([between]), those it handles until
    it ends during a shutdown another ([rest]). *)

From S2P Require Import Prelude PoolConnections.
#[local] Open Scope dapr_scope.

(** ** Messages *)

Record WatchJobsResponse := mkWatchJobsResponse {
  wr_Name : string; wr_Id : N; wr_Data : string; wr_Metadata : JobMetadata }.

(** What [Recv] returns: an error, a message without a result, or a result with
    its status ([None] for an unknown one). *)
Inductive ResultStatus := Status_SUCCESS | Status_FAILED.

Inductive received :=
  | RecvError
  | RecvNoResult
  | RecvResult (Id : N) (Status : option ResultStatus).

Inductive s_output :=
  | SSend (job : WatchJobsResponse)
  | SResolve (os : list p_output)
  | SCancelStream
  | SConnCloseStream (idx : N) (ns : string).

(** ** State *)

(** [ps_cancelled] and [ps_closed]: the once-only functions have run;
    [receiving]: the receive loop is running. *)
Record stream := mkPStream {
  ps_idx : N; ps_ns : string; triggerIDx : N; inflight : gmap N TriggerRequest;
  ps_cancelled : bool; ps_closed : bool; receiving : bool }.

Definition set_inflight v s := mkPStream (ps_idx s) (ps_ns s) (triggerIDx s) v (ps_cancelled s) (ps_closed s) (receiving s).
Definition set_triggerIDx v s := mkPStream (ps_idx s) (ps_ns s) v (inflight s) (ps_cancelled s) (ps_closed s) (receiving s).
Definition set_cancelled v s := mkPStream (ps_idx s) (ps_ns s) (triggerIDx s) (inflight s) v (ps_closed s) (receiving s).
Definition set_closed v s := mkPStream (ps_idx s) (ps_ns s) (triggerIDx s) (inflight s) (ps_cancelled s) v (receiving s).
Definition set_receiving v s := mkPStream (ps_idx s) (ps_ns s) (triggerIDx s) (inflight s) (ps_cancelled s) (ps_closed s) v.

Definition pstream_New (idx : N) (req : WatchJobsRequestInitial) : stream :=
  mkPStream idx (wi_Namespace req) 0 ∅ false false true.

Definition ps_handler := prog stream s_output.

(** ** stream.go *)

(** [cancel], once *)
Definition ps_cancel : ps_handler :=
  with s do when (negb (ps_cancelled s)) (modify (set_cancelled true) ;;; emit [SCancelStream]).

(** [closeStream], once *)
Definition ps_closeStream : ps_handler :=
  with s do
  when (negb (ps_closed s))
    (modify (set_closed true) ;;; ps_cancel ;;; emit [SConnCloseStream (ps_idx s) (ps_ns s)]).

(** ** recv.go *)

(** [recv]; the error it returns ends the receive loop, which closes the stream. *)
Definition ps_recv (r : received) : ps_handler :=
  with s do
  match r with
  | RecvError | RecvNoResult => modify (set_receiving false) ;;; ps_closeStream
  | RecvResult id status =>
      match inflight s !! id with
      | None => skip
      | Some inf =>
          modify (λ s, set_inflight (delete id (inflight s)) s) ;;;
          match status with
          | Some Status_SUCCESS => emit [SResolve (resolve SUCCESS inf)]
          | Some Status_FAILED => emit [SResolve (resolve FAILED inf)]
          | None => emit [SResolve (resolve FAILED inf)] ;;; modify (set_receiving false) ;;; ps_closeStream
          end
      end
  end.

(** The receive loop over the messages [rs]. *)
Definition ps_recvLoop (rs : list received) : ps_handler :=
  for_each rs (λ r, with s do when (receiving s) (ps_recv r)).

(** [fails] is whether [Send] returns an error. *)
Definition ps_handleTriggerRequest (fails : bool) (between : list received) (req : TriggerRequest) : ps_handler :=
  modify (λ s, set_triggerIDx (u64_succ (triggerIDx s)) s) ;;;
  with s do
  let id := triggerIDx s in
  modify (λ s, set_inflight (<[id := req]> (inflight s)) s) ;;;
  emit [SSend (mkWatchJobsResponse (je_Name (tr_Job req)) id (je_Data (tr_Job req)) (je_Metadata (tr_Job req)))] ;;;
  ps_recvLoop between ;;;
  when fails
    ((with s do
      match inflight s !! id with
      | None => skip
      | Some fn =>
          modify (λ s, set_inflight (delete id (inflight s)) s) ;;;
          emit [SResolve (resolve UNDELIVERABLE fn)]
      end) ;;;
     ps_closeStream).

Definition ps_handleShutdown (rest : list received) : ps_handler :=
  ps_cancel ;;;
  ps_recvLoop rest ;;;
  (with s do when (receiving s) (modify (set_receiving false) ;;; ps_closeStream)) ;;;
  with s do
  emit ((λ kv, SResolve (resolve UNDELIVERABLE kv.2)) <$> map_to_list (inflight s)) ;;;
  modify (set_inflight ∅).

Inductive stream_event :=
  | SEvTrigger (fails : bool) (between : list received) (req : TriggerRequest)
  | SEvShutdown (rest : list received).

Definition ps_Handle (event : stream_event) : ps_handler :=
  match event with
  | SEvTrigger fails between req => ps_handleTriggerRequest fails between req
  | SEvShutdown rest => ps_handleShutdown rest
  end.
