(* ===== verification/PoolSystem.v ===== *)
(** * The connections loop together with its streams

    The loop of a namespace, the loops of its open streams and their receiving
    goroutines, interleaved: the environment enqueues events, the connections
    loop handles the next one, a stream handles its next trigger, or a stream
    receives a message.  What a stream resolves gives gates back through the
    queue of the connections loop.  Closing a stream runs it to its end (the
    closing call of the loop waits for that).

    [fails i n], [between i n] and [rest i] are the environment's choices: whether
    sending trigger [n] on stream [i] fails, the messages received while it is
    sent, and those received while the stream is shut down.  A stream that closes
    itself tells the namespaces loop, which passes the event on to the
    connections loop at some later time: here the environment enqueues close
    events, at any time and any number of them. *)

From S2P Require Import Prelude GoLib Rendezvous PoolStore PoolConnections PoolGates PoolStream.
#[local] Open Scope dapr_scope.

Section pool_system.
Context {X : XXHash}.
Variable fails : N → N → bool.
Variable between : N → N → list received.
Variable rest : N → list received.

(** [sy_failed]: the loop returned an error, and no further event is handled. *)
Record system := mkSystem {
  sy_conns : connections;
  sy_queue : list EventConn;
  sy_loops : gmap N (stream * list TriggerRequest);
  sy_answers : list (N * TriggerResponseResult);
  sy_failed : bool;
  sy_panicked : bool
}.

Definition set_conns v s := mkSystem v (sy_queue s) (sy_loops s) (sy_answers s) (sy_failed s) (sy_panicked s).
Definition set_queue v s := mkSystem (sy_conns s) v (sy_loops s) (sy_answers s) (sy_failed s) (sy_panicked s).
Definition set_loops v s := mkSystem (sy_conns s) (sy_queue s) v (sy_answers s) (sy_failed s) (sy_panicked s).
Definition set_answers v s := mkSystem (sy_conns s) (sy_queue s) (sy_loops s) v (sy_failed s) (sy_panicked s).
Definition set_failed v s := mkSystem (sy_conns s) (sy_queue s) (sy_loops s) (sy_answers s) v (sy_panicked s).
Definition set_panicked v s := mkSystem (sy_conns s) (sy_queue s) (sy_loops s) (sy_answers s) (sy_failed s) v.

Definition sys_New (placement : bool) : system := mkSystem (pconns_New placement) [] ∅ [] false false.

(** The calls a resolution makes. *)
Definition apply_call (s : system) (o : p_output) : system :=
  match o with
  | PResult id r => set_answers (sy_answers s ++ [(id, r)]) s
  | PRelease keys => set_queue (sy_queue s ++ [PConcurrencyRelease keys]) s
  | _ => s
  end.

Definition apply_stream_output (s : system) (o : s_output) : system :=
  match o with SResolve os => foldl apply_call s os | _ => s end.

(** A stream handles one trigger. *)
Definition send_trigger (st : stream) (req : TriggerRequest) : stream * list s_output :=
  let n := u64_succ (triggerIDx st) in
  ps_Handle (SEvTrigger (fails (ps_idx st) n) (between (ps_idx st) n) req) st.

(** A stream handles its queue and the shutdown. *)
Definition run_down (st : stream) (reqs : list TriggerRequest) : stream * list s_output :=
  let '(st1, o1) := for_each reqs (λ req st, send_trigger st req) st in
  let '(st2, o2) := ps_Handle (SEvShutdown (rest (ps_idx st1))) st1 in
  (st2, o1 ++ o2).

Definition apply_out (s : system) (o : p_output) : system :=
  match o with
  | PResult _ _ | PRelease _ => apply_call s o
  | PEnqueue idx req =>
      match sy_loops s !! idx with
      | None => s
      | Some (st, q) => set_loops (<[idx := (st, q ++ [req])]> (sy_loops s)) s
      end
  | PStreamNew idx req => set_loops (<[idx := (pstream_New idx req, [])]> (sy_loops s)) s
  | PStreamClose idx =>
      match sy_loops s !! idx with
      | None => s
      | Some (st, q) => foldl apply_stream_output (set_loops (delete idx (sy_loops s)) s) (run_down st q).2
      end
  | PError => set_failed true s
  | PPanic => set_panicked true s
  | PDeliverablePrefixes _ | PCloseNamespace _ => s
  end.

Inductive action :=
  | AEnqueue (e : EventConn)
  | AHandle
  | AStream (i : N)
  | ARecv (i : N) (r : received).

Definition sys_step (s : system) (a : action) : system :=
  match a with
  | AEnqueue e => set_queue (sy_queue s ++ [e]) s
  | AHandle =>
      if sy_failed s then s
      else
        match sy_queue s with
        | [] => s
        | e :: q =>
            let '(c, os) := p_Handle e (sy_conns s) in
            foldl apply_out (set_conns c (set_queue q s)) os
        end
  | AStream i =>
      match sy_loops s !! i with
      | Some (st, req :: q) =>
          let '(st', os) := send_trigger st req in
          foldl apply_stream_output (set_loops (<[i := (st', q)]> (sy_loops s)) s) os
      | _ => s
      end
  | ARecv i r =>
      match sy_loops s !! i with
      | Some (st, q) =>
          let '(st', os) := ps_recvLoop [r] st in
          foldl apply_stream_output (set_loops (<[i := (st', q)]> (sy_loops s)) s) os
      | None => s
      end
  end.

Definition sys_run (placement : bool) (acts : list action) : system := foldl sys_step (sys_New placement) acts.

(** ** Valuations

    Both what happened to a trigger and which gates are held are counted by
    giving a value to every place a trigger can be in: [va] to its resolution,
    [vb] to the gates it gives back. *)

Record valuation := mkValuation { va : N → nat; vb : list string → nat }.

Section values.
Variable v : valuation.

Definition val (req : TriggerRequest) : nat := va v (tr_id req) + from_option (vb v) 0 (tr_release req).

Definition vals (reqs : list TriggerRequest) : nat := sum_list_with val reqs.

Definition oval (o : p_output) : nat :=
  match o with
  | PResult id _ => va v id
  | PRelease keys => vb v keys
  | PEnqueue _ req => val req
  | _ => 0
  end.

Definition ovals (os : list p_output) : nat := sum_list_with oval os.

(** Of the calls of a resolution. *)
Definition cval (o : p_output) : nat :=
  match o with PResult id _ => va v id | PRelease keys => vb v keys | _ => 0 end.

Definition soval (o : s_output) : nat := match o with SResolve os => sum_list_with cval os | _ => 0 end.

Definition sovals (os : list s_output) : nat := sum_list_with soval os.

(** The value of the triggers in a stream, in the queue, of the answers. *)
Definition stval (x : stream * list TriggerRequest) : nat := msum val (inflight x.1) + vals x.2.

Definition qval (e : EventConn) : nat :=
  match e with PTriggerRequest req => val req | PConcurrencyRelease keys => vb v keys | _ => 0 end.

Definition pend (c : connections) : nat := msum (λ g, vals (pending g)) (concurrencyGates c).

(** Outside the connections loop. *)
Definition outside (s : system) : nat :=
  msum stval (sy_loops s) + sum_list_with qval (sy_queue s) + sum_list_with (λ a, va v a.1) (sy_answers s).

Lemma resolve_val r req : ovals (resolve r req) = val req.
Proof. unfold resolve, ovals, val. cbn. destruct (tr_release req); cbn; lia. Qed.

Lemma resolve_cval r req : sum_list_with cval (resolve r req) = val req.
Proof. unfold resolve, val. cbn. destruct (tr_release req); cbn; lia. Qed.

Lemma ovals_app os1 os2 : ovals (os1 ++ os2) = ovals os1 + ovals os2.
Proof. apply sum_list_with_app. Qed.

Lemma sovals_app os1 os2 : sovals (os1 ++ os2) = sovals os1 + sovals os2.
Proof. apply sum_list_with_app. Qed.

Lemma vals_app l1 l2 : vals (l1 ++ l2) = vals l1 + vals l2.
Proof. apply sum_list_with_app. Qed.

(** *** Streams *)

(** The numbers of the triggers in flight have been given out. *)
Definition numbered (st : stream) : Prop := ∀ n, is_Some (inflight st !! n) → (n ≤ triggerIDx st)%N.

(** The program resolves what it takes out of the triggers in flight. *)
Definition settles (h : ps_handler) : Prop := ∀ st,
  msum val (inflight (h st).1) + sovals (h st).2 = msum val (inflight st) ∧
  triggerIDx (h st).1 = triggerIDx st ∧ ps_idx (h st).1 = ps_idx st ∧ inflight (h st).1 ⊆ inflight st.

Lemma settles_seqp h1 h2 : settles h1 → settles h2 → settles (h1 ;;; h2).
Proof.
  intros H1 H2 st. rewrite seqp_eq. cbn [fst snd]. destruct (H1 st) as (E1 & T1 & I1 & S1).
  destruct (H2 (h1 st).1) as (E2 & T2 & I2 & S2). rewrite sovals_app. split_and!; [lia|congruence|congruence|].
  by etrans.
Qed.

Lemma settles_get f : (∀ s, settles (f s)) → settles (get f).
Proof. intros H st. apply H. Qed.

Lemma settles_when b h : settles h → settles (when b h).
Proof. intros H. destruct b; [done|]. intros st. split_and!; [cbn; lia|done|done|done]. Qed.

Lemma settles_plain f os :
  (∀ st, inflight (f st) = inflight st ∧ triggerIDx (f st) = triggerIDx st ∧ ps_idx (f st) = ps_idx st) →
  sovals os = 0 → settles (modify f) ∧ settles (emit os).
Proof.
  intros Hf Hos. split; intros st; cbn [modify emit fst snd].
  - destruct (Hf st) as (-> & -> & ->). split_and!; [cbn; lia|done|done|done].
  - rewrite Hos. split_and!; [lia|done|done|done].
Qed.

Lemma settles_cancel : settles ps_cancel.
Proof.
  apply settles_get. intros s. apply settles_when. apply settles_seqp; by apply (settles_plain (set_cancelled true) [SCancelStream]).
Qed.

Lemma settles_closeStream : settles ps_closeStream.
Proof.
  apply settles_get. intros s. apply settles_when. apply settles_seqp; [by apply (settles_plain (set_closed true) [])|].
  apply settles_seqp; [apply settles_cancel|]. by apply (settles_plain id [SConnCloseStream (ps_idx s) (ps_ns s)]).
Qed.

Lemma settles_end_recv : settles (modify (set_receiving false) ;;; ps_closeStream).
Proof. apply settles_seqp; [by apply (settles_plain (set_receiving false) [])|apply settles_closeStream]. Qed.

(** Taking out the trigger in flight under a number and resolving it. *)
Lemma settles_take st n inf r h :
  inflight st !! n = Some inf → settles h →
  let p := modify (λ s, set_inflight (delete n (inflight s)) s) ;;; emit [SResolve (resolve r inf)] ;;; h in
  msum val (inflight (p st).1) + sovals (p st).2 = msum val (inflight st) ∧
  triggerIDx (p st).1 = triggerIDx st ∧ ps_idx (p st).1 = ps_idx st ∧ inflight (p st).1 ⊆ inflight st.
Proof.
  intros Hn Hh p. unfold p. rewrite !seqp_eq. cbn [modify emit fst snd app sovals sum_list_with soval].
  set (st1 := set_inflight _ st). destruct (Hh st1) as (E & T & I & S). rewrite resolve_cval. cbn [st1 set_inflight inflight triggerIDx ps_idx] in *.
  rewrite (msum_delete val (inflight st) n inf Hn). unfold sovals in *. split_and!; [lia|done|done|].
  etrans; [done|apply delete_subseteq].
Qed.

Lemma pool_settles_skip : settles skip.
Proof. intros st. split_and!; [cbn; lia|done|done|done]. Qed.

Lemma seqp_skip_r (h : ps_handler) st : (h ;;; skip) st = h st.
Proof. rewrite seqp_eq. cbn [skip fst snd]. rewrite app_nil_r. by destruct (h st). Qed.

Lemma settles_recv r : settles (ps_recv r).
Proof.
  intros st. unfold ps_recv, get. destruct r as [| |n status]; [apply settles_end_recv..|].
  destruct (inflight st !! n) as [inf|] eqn:Hn; [|apply pool_settles_skip].
  destruct status as [[]|].
  - pose proof (settles_take st n inf SUCCESS skip Hn pool_settles_skip) as H. cbv zeta in H.
    rewrite seqp_eq in H |- *. by rewrite seqp_skip_r in H.
  - pose proof (settles_take st n inf FAILED skip Hn pool_settles_skip) as H. cbv zeta in H.
    rewrite seqp_eq in H |- *. by rewrite seqp_skip_r in H.
  - apply (settles_take st n inf FAILED _ Hn settles_end_recv).
Qed.

Lemma settles_recvLoop rs : settles (ps_recvLoop rs).
Proof.
  induction rs as [|r rs IH]; [apply pool_settles_skip|]. apply settles_seqp; [|exact IH].
  apply settles_get. intros s. apply settles_when, settles_recv.
Qed.

(** After a failed send: the trigger is resolved unless a result came first. *)
Lemma settles_failed n :
  settles ((with s do
      match inflight s !! n with
      | None => skip
      | Some fn =>
          modify (λ s, set_inflight (delete n (inflight s)) s) ;;;
          emit [SResolve (resolve UNDELIVERABLE fn)]
      end) ;;; ps_closeStream).
Proof.
  apply settles_seqp; [|apply settles_closeStream]. intros st. unfold get.
  destruct (inflight st !! n) as [fn|] eqn:Hn; [|apply pool_settles_skip].
  pose proof (settles_take st n fn UNDELIVERABLE skip Hn pool_settles_skip) as H. cbv zeta in H.
  rewrite seqp_eq in H |- *. by rewrite seqp_skip_r in H.
Qed.

Lemma send_trigger_eq st req :
  let n := u64_succ (triggerIDx st) in
  let job := mkWatchJobsResponse (je_Name (tr_Job req)) n (je_Data (tr_Job req)) (je_Metadata (tr_Job req)) in
  let p := (ps_recvLoop (between (ps_idx st) n) ;;;
    when (fails (ps_idx st) n)
      ((with s do
        match inflight s !! n with
        | None => skip
        | Some fn =>
            modify (λ s, set_inflight (delete n (inflight s)) s) ;;;
            emit [SResolve (resolve UNDELIVERABLE fn)]
        end) ;;; ps_closeStream)) (set_inflight (<[n := req]> (inflight st)) (set_triggerIDx n st)) in
  send_trigger st req = (p.1, SSend job :: p.2).
Proof.
  cbv zeta. unfold send_trigger, ps_Handle, ps_handleTriggerRequest. generalize (between (ps_idx st) (u64_succ (triggerIDx st))).
  generalize (fails (ps_idx st) (u64_succ (triggerIDx st))). intros b rs. rewrite modify_seq. unfold get at 1.
  rewrite modify_seq. cbn [set_triggerIDx triggerIDx inflight]. rewrite seqp_eq. cbn [emit fst snd app]. done.
Qed.

Lemma send_trigger_val st req :
  numbered st → (triggerIDx st + 1 < two64)%N →
  let '(st', os) := send_trigger st req in
  msum val (inflight st') + sovals os = msum val (inflight st) + val req ∧ numbered st' ∧
  triggerIDx st' = (triggerIDx st + 1)%N ∧ ps_idx st' = ps_idx st.
Proof.
  intros Hnum Hw. rewrite send_trigger_eq. cbv zeta.
  set (n := u64_succ (triggerIDx st)). assert (Hn : n = (triggerIDx st + 1)%N) by (apply N.mod_small; lia).
  generalize (between (ps_idx st) n) (fails (ps_idx st) n). intros rs b.
  set (st1 := set_inflight _ _). set (h := ps_recvLoop rs ;;; _).
  assert (Ht : settles h).
  { apply settles_seqp; [apply settles_recvLoop|]. apply settles_when, settles_failed. }
  destruct (Ht st1) as (E1 & T1 & I1 & S1).
  change (sovals (SSend ?[j] :: (h st1).2)) with (sovals (h st1).2).
  cbn [st1 set_inflight set_triggerIDx inflight triggerIDx ps_idx] in *.
  assert (Hfresh : inflight st !! n = None).
  { destruct (inflight st !! n) eqn:Hx; [|done]. assert (n ≤ triggerIDx st)%N by (apply Hnum; eauto). lia. }
  rewrite msum_insert_None in E1 by done. split_and!; [lia| |congruence|congruence].
  intros k [x Hk]. eapply lookup_weaken in Hk; [|done].
  rewrite T1. apply lookup_insert_Some in Hk as [[<- _]|[_ Hk]]; [lia|].
  assert (k ≤ triggerIDx st)%N by (apply Hnum; eauto). lia.
Qed.

Lemma for_each_send st reqs :
  numbered st → (triggerIDx st + N.of_nat (length reqs) < two64)%N →
  let '(st', os) := for_each reqs (λ req st, send_trigger st req) st in
  msum val (inflight st') + sovals os = stval (st, reqs).
Proof.
  revert st. induction reqs as [|req reqs IH]; intros st Hnum Hw; [by cbn; rewrite !Nat.add_0_r|].
  cbn [for_each length] in *. pose proof (send_trigger_val st req Hnum) as H1.
  destruct (send_trigger st req) as [st1 o1] eqn:Es. destruct H1 as (E1 & Hn1 & T1 & _); [lia|].
  specialize (IH st1 Hn1). rewrite seqp_eq. rewrite Es. cbn [fst snd]. rewrite T1 in IH.
  destruct (for_each reqs _ st1) as [st2 o2]. cbn [fst snd] in *. rewrite sovals_app. unfold stval in *. cbn [fst snd vals sum_list_with] in *.
  fold vals. unfold vals in *. cbn [sum_list_with]. specialize (IH ltac:(lia)). lia.
Qed.

Lemma run_down_val st reqs :
  numbered st → (triggerIDx st + N.of_nat (length reqs) < two64)%N → sovals (run_down st reqs).2 = stval (st, reqs).
Proof.
  intros Hnum Hw. pose proof (for_each_send st reqs Hnum Hw) as H1. unfold run_down.
  destruct (for_each reqs _ st) as [st1 o1]. generalize (rest (ps_idx st1)). intros rs.
  destruct (ps_Handle (SEvShutdown rs) st1) as [st2 o2] eqn:E2. cbn [snd]. rewrite sovals_app.
  enough (sovals o2 = msum val (inflight st1)) by lia.
  unfold ps_Handle, ps_handleShutdown in E2. set (h := (with s do when (receiving s) _)) in E2.
  assert (Hs : settles (ps_cancel ;;; ps_recvLoop rs ;;; h)).
  { apply settles_seqp; [apply settles_cancel|]. apply settles_seqp; [apply settles_recvLoop|].
    apply settles_get. intros s. apply settles_when, settles_end_recv. }
  assert (Hassoc : ∀ (h1 h2 h3 h4 : ps_handler) st, (h1 ;;; h2 ;;; h3 ;;; h4) st = ((h1 ;;; h2 ;;; h3) ;;; h4) st).
  { intros. rewrite !seqp_eq. cbn [fst snd]. rewrite ?seqp_eq. cbn [fst snd]. f_equal. by rewrite !(assoc_L (++)). }
  rewrite Hassoc, seqp_eq in E2. destruct (Hs st1) as (E & _).
  set (p := (ps_cancel ;;; ps_recvLoop rs ;;; h) st1) in *. injection E2 as _ <-. unfold get.
  cbn [emit modify fst snd]. rewrite app_nil_r, sovals_app, <-E, Nat.add_comm. f_equal.
  rewrite msum_map_to_list.
  induction (map_to_list (inflight p.1)) as [|kv l IH]; [done|]. unfold sovals in *. cbn [fmap list_fmap sum_list_with soval foldr].
  by rewrite IH, resolve_cval.
Qed.

(** *** Outputs *)

Lemma outside_calls os s :
  outside (foldl apply_call s os) = outside s + sum_list_with cval os ∧
  sy_loops (foldl apply_call s os) = sy_loops s ∧ sy_conns (foldl apply_call s os) = sy_conns s ∧
  sy_failed (foldl apply_call s os) = sy_failed s ∧ sy_panicked (foldl apply_call s os) = sy_panicked s.
Proof.
  revert s. induction os as [|o os IH]; intros s; [cbn; split_and!; [lia|done..]|]. cbn [foldl sum_list_with].
  destruct (IH (apply_call s o)) as (-> & -> & -> & -> & ->).
  destruct o; cbn [apply_call cval]; (split_and!; [|done..]); try lia; unfold outside; cbn [set_answers set_queue sy_loops sy_queue sy_answers];
    rewrite sum_list_with_app; cbn; lia.
Qed.

Lemma outside_stream_outputs os s :
  outside (foldl apply_stream_output s os) = outside s + sovals os ∧
  sy_loops (foldl apply_stream_output s os) = sy_loops s ∧ sy_conns (foldl apply_stream_output s os) = sy_conns s ∧
  sy_failed (foldl apply_stream_output s os) = sy_failed s ∧ sy_panicked (foldl apply_stream_output s os) = sy_panicked s.
Proof.
  revert s. induction os as [|o os IH]; intros s; [cbn; split_and!; [lia|done..]|]. cbn [foldl].
  destruct (IH (apply_stream_output s o)) as (-> & -> & -> & -> & ->).
  destruct o; cbn [apply_stream_output]; unfold sovals; cbn [sum_list_with soval]; try (split_and!; [lia|done..]).
  destruct (outside_calls os0 s) as (-> & -> & -> & -> & ->). split_and!; [lia|done..].
Qed.

End values.

(** The numbers a stream has given out and still will for its queue. *)
Definition numbers (x : stream * list TriggerRequest) : nat := N.to_nat (triggerIDx x.1) + length x.2.

Definition enq (o : p_output) : nat := match o with PEnqueue _ _ => 1 | _ => 0 end.

Definition streams_numbered (s : system) : Prop := ∀ i x, sy_loops s !! i = Some x → numbered x.1.

(** The streams open after an output, and when an output finds the stream it needs. *)
Definition opened (open : gset N) (o : p_output) : gset N :=
  match o with
  | PStreamNew idx _ => {[ idx ]} ∪ open
  | PStreamClose idx => open ∖ {[ idx ]}
  | _ => open
  end.

Definition finds (open : gset N) (o : p_output) : Prop :=
  match o with
  | PEnqueue idx _ => idx ∈ open
  | PStreamNew idx _ => idx ∉ open
  | PPanic => False
  | _ => True
  end.

Fixpoint outs_ok (open : gset N) (os : list p_output) : Prop :=
  match os with
  | [] => True
  | o :: os' => finds open o ∧ outs_ok (opened open o) os'
  end.

Lemma numbered_New idx req : numbered (pstream_New idx req).
Proof. intros n [x Hx]. cbn in Hx. by rewrite lookup_empty in Hx. Qed.

Lemma apply_out_effect v s o :
  streams_numbered s → finds (dom (sy_loops s)) o →
  (N.of_nat (msum numbers (sy_loops s)) < two64)%N →
  let s' := apply_out s o in
  outside v s' = outside v s + oval v o ∧ streams_numbered s' ∧ dom (sy_loops s') = opened (dom (sy_loops s)) o ∧
  msum numbers (sy_loops s') ≤ msum numbers (sy_loops s) + enq o ∧ sy_conns s' = sy_conns s ∧ sy_panicked s' = sy_panicked s.
Proof.
  intros Hnum Hf Hw. destruct o as [id r|keys|idx req|ps|idx req|idx|ns| |]; cbn [apply_out oval enq opened finds] in *.
  - destruct (outside_calls v [PResult id r] s) as (E & E1 & E2 & _ & E4). cbn [foldl sum_list_with cval] in *.
    cbv zeta. rewrite E, E1, E2, E4. split_and!; [lia| |done|lia|done|done]. unfold streams_numbered. by rewrite E1.
  - destruct (outside_calls v [PRelease keys] s) as (E & E1 & E2 & _ & E4). cbn [foldl sum_list_with cval] in *.
    cbv zeta. rewrite E, E1, E2, E4. split_and!; [lia| |done|lia|done|done]. unfold streams_numbered. by rewrite E1.
  - apply elem_of_dom in Hf as [[st q] Hst]. rewrite Hst. cbv zeta. cbn [set_loops sy_loops sy_conns sy_panicked].
    pose proof (msum_insert (stval v) _ idx _ (st, q ++ [req]) Hst) as M1.
    pose proof (msum_insert numbers _ idx _ (st, q ++ [req]) Hst) as M2.
    unfold stval, numbers in M1, M2. cbn [fst snd] in M1, M2. rewrite vals_app in M1. rewrite length_app in M2. cbn in M1, M2.
    split_and!; [| |by rewrite dom_insert_lookup_L by eauto| |done|done].
    + unfold outside. cbn [set_loops sy_loops sy_queue sy_answers]. unfold stval, vals in *. cbn in *. lia.
    + intros i x. cbn [set_loops sy_loops]. intros [[<- <-]|[_ Hx]]%lookup_insert_Some; [apply (Hnum idx _ Hst)|by eapply Hnum].
    + unfold numbers in *. lia.
  - cbv zeta. split_and!; [lia|done|done|lia|done|done].
  - cbv zeta. cbn [set_loops sy_loops sy_conns sy_panicked]. apply not_elem_of_dom in Hf.
    rewrite !msum_insert_None by done. split_and!; [| |by rewrite dom_insert_L| |done|done].
    + unfold outside. cbn [set_loops sy_loops sy_queue sy_answers]. rewrite msum_insert_None by done. unfold stval. cbn. rewrite msum_empty. lia.
    + intros i x. cbn [set_loops sy_loops]. intros [[<- <-]|[_ Hx]]%lookup_insert_Some; [apply numbered_New|by eapply Hnum].
    + unfold numbers. cbn. lia.
  - destruct (sy_loops s !! idx) as [[st q]|] eqn:Hst; cbv zeta.
    + pose proof (msum_delete (stval v) _ idx _ Hst) as M1. pose proof (msum_delete numbers _ idx _ Hst) as M2.
      destruct (outside_stream_outputs v (run_down st q).2 (set_loops (delete idx (sy_loops s)) s)) as (E & E1 & E2 & _ & E4).
      rewrite E, E1, E2, E4. cbn [set_loops sy_loops sy_conns sy_panicked]. rewrite dom_delete_L. split_and!; [| |done|lia|done|done].
      * rewrite run_down_val; [|apply (Hnum idx _ Hst)|].
        2: { assert (Hle : (N.of_nat (numbers (st, q)) < two64)%N) by lia. unfold numbers in Hle. cbn [fst snd] in Hle. lia. }
        unfold outside. cbn [set_loops sy_loops sy_queue sy_answers]. lia.
      * unfold streams_numbered. rewrite E1. cbn [set_loops sy_loops]. intros i x [_ Hx]%lookup_delete_Some. by eapply Hnum.
    + apply not_elem_of_dom in Hst. split_and!; [lia|done|set_solver|lia|done|done].
  - cbv zeta. split_and!; [lia|done|done|lia|done|done].
  - cbv zeta. split_and!; [change (outside v (set_failed true s)) with (outside v s); lia|done|done|cbn; lia|done|done].
  - done.
Qed.

Lemma apply_outs_effect v os s :
  streams_numbered s → outs_ok (dom (sy_loops s)) os →
  (N.of_nat (msum numbers (sy_loops s) + sum_list_with enq os) < two64)%N →
  let s' := foldl apply_out s os in
  outside v s' = outside v s + ovals v os ∧ streams_numbered s' ∧ dom (sy_loops s') = foldl opened (dom (sy_loops s)) os ∧
  msum numbers (sy_loops s') ≤ msum numbers (sy_loops s) + sum_list_with enq os ∧
  sy_conns s' = sy_conns s ∧ sy_panicked s' = sy_panicked s.
Proof.
  revert s. induction os as [|o os IH]; intros s Hnum Hok Hw; cbv zeta.
  - cbn. split_and!; [lia|done|done|lia|done|done].
  - destruct Hok as [Hf Hok]. cbn [foldl sum_list_with] in *.
    destruct (apply_out_effect v s o Hnum Hf) as (E1 & N1 & D1 & M1 & C1 & P1); [lia|].
    destruct (IH (apply_out s o) N1) as (E2 & N2 & D2 & M2 & C2 & P2); [by rewrite D1|lia|].
    rewrite E2, E1, D2, D1, C2, C1, P2, P1. unfold ovals. cbn [sum_list_with]. split_and!; [lia|done|done|lia|done|done].
Qed.

(** *** The queue of the connections loop *)

Definition is_release (e : EventConn) : Prop := match e with PConcurrencyRelease _ => True | _ => False end.

(** The queue grows by releases only. *)
Definition grows (s s' : system) : Prop := ∃ l, sy_queue s' = sy_queue s ++ l ∧ Forall is_release l.

Lemma grows_refl s : grows s s.
Proof. exists []. by rewrite app_nil_r. Qed.

Lemma grows_trans s1 s2 s3 : grows s1 s2 → grows s2 s3 → grows s1 s3.
Proof. intros (l1 & E1 & F1) (l2 & E2 & F2). exists (l1 ++ l2). rewrite E2, E1, (assoc_L (++)). split; [done|]. by apply Forall_app. Qed.

Lemma grows_foldl {A} (f : system → A → system) l : (∀ s x, grows s (f s x)) → ∀ s, grows s (foldl f s l).
Proof. intros Hf. induction l as [|x l IH]; intros s; [apply grows_refl|]. eapply grows_trans; [apply Hf|apply IH]. Qed.

Lemma grows_call s o : grows s (apply_call s o).
Proof. destruct o as [|keys| | | | | | |]; try (exists []; by rewrite app_nil_r). exists [PConcurrencyRelease keys]. split; [done|]. by repeat constructor. Qed.

Lemma grows_stream_output s o : grows s (apply_stream_output s o).
Proof. destruct o; try apply grows_refl. apply grows_foldl. intros. apply grows_call. Qed.

Lemma grows_out s o : grows s (apply_out s o).
Proof.
  destruct o; cbn [apply_out]; try apply grows_call; try (exists []; by rewrite app_nil_r).
  - destruct (sy_loops s !! idx) as [[st q]|]; exists []; by rewrite app_nil_r.
  - destruct (sy_loops s !! idx) as [[st q]|]; [|apply grows_refl].
    apply (grows_trans _ (set_loops (delete idx (sy_loops s)) s)); [exists []; by rewrite app_nil_r|].
    apply grows_foldl. intros. apply grows_stream_output.
Qed.

End pool_system.
