(* ===== verification/PoolEffects.v ===== *)
(** * What the handlers of the connections loop do to triggers and gates

    Each operation is accounted for by valuations ([PoolSystem]): triggers are
    neither lost nor duplicated, the counter of a gate grows exactly with the
    triggers dispatched through it, and triggers go to connected streams only. *)

From S2P Require Import Prelude GoLib Rendezvous PoolStore PoolConnections PoolGates PoolStream PoolSystem.
#[local] Open Scope dapr_scope.

Section pool_effects.
Context {X : XXHash}.
Implicit Types (c : connections) (v : valuation) (os : list p_output).

(** What is assumed of the jobs of a run. *)
Variable job_ok : JobEvent → Prop.

(** The value of the gates taken by the dispatches of [os]. *)
Definition grant v (o : p_output) : nat :=
  match o with PEnqueue _ req => from_option (vb v) 0 (tr_release req) | _ => 0 end.

Definition grants v os : nat := sum_list_with (grant v) os.

Lemma grants_app v os1 os2 : grants v (os1 ++ os2) = grants v os1 + grants v os2.
Proof. apply sum_list_with_app. Qed.

(** The triggers that hold the gate [k]. *)
Definition hold (k : string) : valuation := mkValuation (λ _, 0) (λ ks, if decide (k ∈ ks) then 1 else 0).

Definition cur (k : string) c : nat := from_option (λ g, N.to_nat (current g)) 0 (concurrencyGates c !! k).

(** A trigger as it arrives, its gates still to be taken. *)
Definition fresh_request (req : TriggerRequest) : Prop := tr_release req = None ∧ job_ok (tr_Job req).

Definition unreleased c : Prop :=
  ∀ key g, concurrencyGates c !! key = Some g → Forall fresh_request (pending g).

(** Outputs of dispatching: calls of result functions, and triggers for connected streams. *)
Definition dispatch_output c (o : p_output) : Prop :=
  match o with
  | PEnqueue idx _ => is_Some (p_streams c !! idx)
  | PResult _ _ => True
  | _ => False
  end.

(** A step that changes queues and counters only; [t] is the value of the
    triggers it takes in. *)
Record dispatches c c' os (t : valuation → nat) : Prop := {
  d_pool : pool_ok c';
  d_unreleased : unreleased c';
  d_val : ∀ v, pend v c' + ovals v os = pend v c + t v + grants v os;
  d_cur : ∀ k, cur k c' = cur k c + grants (hold k) os;
  d_same : p_streams c' = p_streams c ∧ p_streamIDx c' = p_streamIDx c ∧ streamGateKeys c' = streamGateKeys c ∧
    schedulerCount c' = schedulerCount c ∧ schedulerIdx c' = schedulerIdx c ∧ placementEnabled c' = placementEnabled c ∧
    ∀ key, globalLimit <$> concurrencyGates c' !! key = globalLimit <$> concurrencyGates c !! key;
  d_keys : ∀ idx req ks, PEnqueue idx req ∈ os → tr_release req = Some ks →
    ∃ r, fresh_request r ∧ ks = gateKeysForTrigger r c;
  d_limit : ∀ k g, concurrencyGates c' !! k = Some g → cur k c' = cur k c ∨ (current g ≤ limit_of c' g)%N;
  d_outs : Forall (dispatch_output c) os
}.

Definition none (_ : valuation) : nat := 0.

Lemma dispatches_refl c : pool_ok c → unreleased c → dispatches c c [] none.
Proof. intros Hp Hu. split; [done|done| | |split_and!; done|by intros ? ? ? ?%elem_of_nil|by left|constructor]; intros; unfold none; cbn; lia. Qed.

Lemma gates_same_dom c c' :
  (∀ key, globalLimit <$> concurrencyGates c' !! key = globalLimit <$> concurrencyGates c !! key) →
  ∀ k, is_Some (concurrencyGates c' !! k) ↔ is_Some (concurrencyGates c !! k).
Proof. intros H k. specialize (H k). destruct (concurrencyGates c' !! k), (concurrencyGates c !! k); try done; split; eauto. Qed.

Lemma dispatches_trans c1 c2 c3 os1 os2 t1 t2 :
  dispatches c1 c2 os1 t1 → dispatches c2 c3 os2 t2 → dispatches c1 c3 (os1 ++ os2) (λ v, t1 v + t2 v).
Proof.
  intros [P1 U1 V1 C1 S1 K1 L1 O1] [P2 U2 V2 C2 S2 K2 L2 O2]. destruct S1 as (A1 & A2 & A3 & A4 & A5 & A6 & A7), S2 as (B1 & B2 & B3 & B4 & B5 & B6 & B7).
  split; [done|done| | | | | |].
  - intros v. specialize (V1 v). specialize (V2 v). rewrite ovals_app, grants_app. lia.
  - intros k. rewrite C2, C1, grants_app. lia.
  - split_and!; congruence.
  - intros idx req ks [Hin|Hin]%elem_of_app Hks; [by eapply K1|]. destruct (K2 _ _ _ Hin Hks) as (r & Hr & ->). exists r.
    split; [done|]. apply gateKeys_dom, set_eq. intros k. rewrite !elem_of_dom. by apply gates_same_dom.
  - intros k g Hg. destruct (L2 k g Hg) as [E2|]; [|by right]. specialize (B7 k). rewrite Hg in B7.
    destruct (concurrencyGates c2 !! k) as [g2|] eqn:Hg2; [|done]. destruct (L1 k g2 Hg2) as [E1|Hl]; [left; congruence|right].
    unfold cur in E2. rewrite Hg, Hg2 in E2. cbn in E2, B7. injection B7 as B7. unfold limit_of in *. rewrite B4, B5, B7. lia.
  - apply Forall_app. split; [done|]. eapply list.Forall_impl; [exact O2|]. intros o. unfold dispatch_output. by rewrite A1.
Qed.

Lemma pend_ext v c c' :
  (∀ key, pending <$> concurrencyGates c' !! key = pending <$> concurrencyGates c !! key) → pend v c' = pend v c.
Proof.
  intros H. apply msum_ext. intros key. specialize (H key).
  destruct (concurrencyGates c' !! key), (concurrencyGates c !! key); try done. cbn in *. congruence.
Qed.

(** *** Gates *)

Lemma bump_lookup keys m key :
  NoDup keys → bump keys m !! key = (λ g, if decide (key ∈ keys) then incr g else g) <$> m !! key.
Proof.
  intros Hnd. destruct (decide (key ∈ keys)); [by rewrite lookup_bump|]. rewrite lookup_bump_ne by done. by destruct (m !! key).
Qed.

Lemma grant_gated req keys idx v : grant v (PEnqueue idx (gated req keys)) = vb v keys.
Proof. done. Qed.

Lemma cur_bump keys c c' :
  NoDup keys → (∀ key, key ∈ keys → is_Some (concurrencyGates c !! key)) →
  (∀ key, current <$> concurrencyGates c' !! key = current <$> bump keys (concurrencyGates c) !! key) →
  ∀ k, cur k c' = cur k c + vb (hold k) keys.
Proof.
  intros Hnd Hpres Hc k. unfold cur. specialize (Hc k). rewrite bump_lookup in Hc by done. cbn [hold vb].
  destruct (concurrencyGates c' !! k) as [g'|], (concurrencyGates c !! k) as [g|] eqn:Hg; try done; cbn in *.
  - injection Hc as ->. case_decide; cbn; lia.
  - rewrite decide_False; [done|]. intros [x Hx]%Hpres. congruence.
Qed.

Lemma limit_bump keys c c1 :
  NoDup keys → room c keys →
  let c' := set_gates (bump keys (concurrencyGates c)) c1 in
  schedulerCount c1 = schedulerCount c → schedulerIdx c1 = schedulerIdx c →
  ∀ k g, concurrencyGates c' !! k = Some g → cur k c' = cur k c ∨ (current g ≤ limit_of c' g)%N.
Proof.
  intros Hnd Hroom c' E1 E2 k g Hg. unfold cur. rewrite Hg. cbn [c' set_gates concurrencyGates] in Hg. rewrite bump_lookup in Hg by done.
  destruct (concurrencyGates c !! k) as [g0|] eqn:Hg0; [|done]. injection Hg as <-. cbn [from_option].
  destruct (decide (k ∈ keys)) as [Hk|Hk]; [right|by left]. destruct (Hroom k Hk) as (g1 & Hg1 & Hlt).
  assert (g1 = g0) as -> by congruence. unfold limit_of in *. cbn [c' set_gates schedulerCount schedulerIdx incr current globalLimit].
  rewrite E1, E2. lia.
Qed.

Lemma unreleased_gates c c' :
  unreleased c →
  (∀ key g', concurrencyGates c' !! key = Some g' → ∀ r, r ∈ pending g' →
     fresh_request r ∨ ∃ g, concurrencyGates c !! key = Some g ∧ r ∈ pending g) → unreleased c'.
Proof.
  intros Hu H key g' Hg'. apply list.Forall_forall. intros r Hr. destruct (H key g' Hg' r Hr) as [?|(g & Hg & Hin)]; [done|].
  specialize (Hu key g Hg). rewrite list.Forall_forall in Hu. auto.
Qed.

Lemma val_fresh v req : fresh_request req → val v req = va v (tr_id req).
Proof. intros [H _]. unfold val. rewrite H. cbn. lia. Qed.

Lemma val_gated v req keys : fresh_request req → val v (gated req keys) = val v req + vb v keys.
Proof. intros H. rewrite (val_fresh v req) by done. done. Qed.

Lemma resolve_fresh r req : fresh_request req → resolve r req = [PResult (tr_id req) r].
Proof. intros [H _]. unfold resolve. by rewrite H. Qed.

(** *** Triggers *)

Lemma dispatches_trigger c req :
  pool_ok c → unreleased c → fresh_request req →
  dispatches c (handleTriggerRequest req c).1 (handleTriggerRequest req c).2 (λ v, val v req).
Proof.
  intros Hp Hu Hf. destruct (trigger_cases c req Hp) as (pool & Hp' & Hcases). cbv zeta in Hcases.
  pose proof (gateKeys_NoDup req c) as Hnd. pose proof (gateKeys_present req c) as Hpres.
  destruct Hcases as [[_ ->]|[(idx & Hs & _ & ->)|[(idx & Hs & _ & Hroom & ->)|(key & g & _ & _ & Hg & ->)]]]; cbn [fst snd].
  - split; [done|done| | |by split_and!| |by left|].
    + intros v. rewrite resolve_val, resolve_fresh by done. rewrite pend_ext with (c := c) by done. cbn. lia.
    + intros k. rewrite resolve_fresh by done. cbn. change (cur k (with_pool pool c)) with (cur k c). lia.
    + rewrite resolve_fresh by done. by intros ? ? ? ?%list_elem_of_singleton.
    + rewrite resolve_fresh by done. by repeat constructor.
  - pose proof (proj1 Hf) as Hrel. split; [done|done| | |by split_and!| |by left|].
    + intros v. rewrite pend_ext with (c := c) by done. unfold ovals, grants. cbn. rewrite Hrel. cbn. lia.
    + intros k. unfold grants. cbn. rewrite Hrel. cbn. change (cur k (with_pool pool c)) with (cur k c). lia.
    + intros ? ? ? [= -> ->]%list_elem_of_singleton. by rewrite Hrel.
    + destruct Hs as (o & Ho & _). repeat constructor. by exists o.
  - split; [done| | | | | | |].
    + eapply unreleased_gates; [done|]. intros k g'. cbn [set_gates concurrencyGates]. rewrite bump_lookup by done.
      intros (g & Hg & ->)%fmap_Some r Hr. right. exists g. split; [done|]. by case_decide.
    + intros v. rewrite pend_ext with (c := c).
      2: { intros k. cbn [set_gates concurrencyGates]. rewrite bump_lookup by done. rewrite <-option_fmap_compose.
           apply option_fmap_ext. intros g. cbn. by case_decide. }
      unfold ovals, grants. cbn [sum_list_with oval]. rewrite val_gated, grant_gated by done. lia.
    + intros k. unfold grants. cbn [sum_list_with]. rewrite grant_gated, Nat.add_0_r. by apply cur_bump.
    + split_and!; try done. intros k. cbn [set_gates concurrencyGates]. rewrite bump_lookup by done. rewrite <-option_fmap_compose.
      apply option_fmap_ext. intros g. cbn. by case_decide.
    + intros ? ? ? [= -> ->]%list_elem_of_singleton [= <-]. by exists req.
    + by apply limit_bump.
    + destruct Hs as (o & Ho & _). repeat constructor. by exists o.
  - destruct (maxPendingPerGate <=? length (pending g)); cbn [fst snd].
    + split; [done|done| | |by split_and!| |by left|].
      * intros v. rewrite resolve_val, resolve_fresh by done. rewrite pend_ext with (c := c) by done. cbn. lia.
      * intros k. rewrite resolve_fresh by done. cbn. change (cur k (with_pool pool c)) with (cur k c). lia.
      * rewrite resolve_fresh by done. by intros ? ? ? ?%list_elem_of_singleton.
      * rewrite resolve_fresh by done. by repeat constructor.
    + assert (Hal : alter (push req) key (concurrencyGates c) = <[key := push req g]> (concurrencyGates c)).
      { apply map_eq. intros k. rewrite lookup_alter, lookup_insert. case_decide; [subst; by rewrite Hg|done]. }
      assert (Hcur : ∀ k, cur k (set_gates (<[key := push req g]> (concurrencyGates c)) (with_pool pool c)) = cur k c).
      { intros k. unfold cur. cbn [set_gates concurrencyGates]. rewrite lookup_insert. case_decide; [subst; by rewrite Hg|done]. }
      rewrite Hal. split; [done| | | |split_and!; try done|by intros ? ? ? ?%elem_of_nil|by left|constructor].
      * eapply unreleased_gates; [done|]. intros k g'. cbn [set_gates concurrencyGates].
        intros [[<- <-]|[_ Hx]]%lookup_insert_Some r Hr; [|by eauto]. cbn [push pending] in Hr.
        apply elem_of_app in Hr as [Hr| ->%list_elem_of_singleton]; [right; eauto|by left].
      * intros v. unfold pend. cbn [set_gates concurrencyGates]. pose proof (msum_insert (λ g, vals v (pending g)) _ key g (push req g) Hg) as M.
        cbn [push pending] in M. rewrite vals_app in M. cbn in M |- *. unfold vals in *. lia.
      * intros k. rewrite Hcur. cbn. lia.
      * intros k. cbn [set_gates concurrencyGates]. rewrite lookup_insert. case_decide; [subst; by rewrite Hg|done].
Qed.

(** *** Draining *)

Lemma drained_sub c p kept os : drained c p kept os → ∀ r, r ∈ kept → r ∈ p.
Proof. induction 1; intros r Hr; [done|right; auto|]. apply elem_of_cons in Hr as [->|Hr]; [left|right; auto]. Qed.

Lemma drained_val c p kept os v : drained c p kept os → vals v p = vals v kept + ovals v os.
Proof.
  induction 1 as [|next l kept os Hs Hd IH|next l kept os Hs Hfu Hd IH]; [done| |]; unfold vals in *; cbn [sum_list_with].
  - rewrite ovals_app, resolve_val. lia.
  - lia.
Qed.

Lemma drained_outs c p kept os :
  drained c p kept os → Forall fresh_request p →
  Forall (dispatch_output c) os ∧ (∀ v, grants v os = 0) ∧ ∀ idx req, PEnqueue idx req ∉ os.
Proof.
  induction 1 as [|next l kept os Hs Hd IH|next l kept os Hs Hfu Hd IH]; intros Hf; [split_and!; [constructor|done|by intros ? ? ?%elem_of_nil]| |].
  - apply list.Forall_cons in Hf as [Hn Hf]. destruct (IH Hf) as (Ho & Hg & Hno). rewrite resolve_fresh by done. split_and!; [by constructor| |].
    + intros v. unfold grants in *. cbn. apply Hg.
    + intros idx req [?|?]%elem_of_cons; [done|by eapply Hno].
  - apply list.Forall_cons in Hf as [Hn Hf]. by apply IH.
Qed.

Lemma dispatches_drain c key : pool_ok c → unreleased c → dispatches c (drainPending key c).1 (drainPending key c).2 none.
Proof.
  intros Hp Hu. destruct (concurrencyGates c !! key) as [g|] eqn:Hg.
  2: { unfold drainPending, get. rewrite Hg. by apply dispatches_refl. }
  pose proof (Hu key g Hg) as Hfresh.
  destruct (drainPending_cases c key g Hg Hp) as (pool & Hp' & [(kept & os & Hd & ->)|(before & next & after & kept & os & idx & Hpe & Hd & Hs & Hroom & ->)]); cbn [fst snd].
  - destruct (drained_outs _ _ _ _ Hd Hfresh) as (Ho & Hgr & Hno).
    assert (Hcur : ∀ k, cur k (queue_state c key g pool kept) = cur k c).
    { intros k. unfold cur. cbn [queue_state set_gates concurrencyGates]. rewrite lookup_insert. case_decide; [subst; by rewrite Hg|done]. }
    split; [done| | | | |by intros ? ? ? ?%Hno|by left|done].
    + eapply unreleased_gates; [done|]. intros k g'. cbn [queue_state set_gates concurrencyGates].
      intros [[<- <-]|[_ Hx]]%lookup_insert_Some r Hr; [|by eauto]. right. exists g. split; [done|]. by eapply drained_sub.
    + intros v. unfold pend. cbn [queue_state set_gates concurrencyGates].
      pose proof (msum_insert (λ g, vals v (pending g)) _ key g (set_pending kept g) Hg) as M. cbn [set_pending pending] in M.
      rewrite (drained_val _ _ _ _ v Hd) in M. rewrite Hgr. unfold none. lia.
    + intros k. rewrite Hgr, Hcur. lia.
    + split_and!; try done. intros k. cbn [queue_state set_gates concurrencyGates]. rewrite lookup_insert. case_decide; [subst; by rewrite Hg|done].
  - rewrite Hpe in Hfresh. apply Forall_app in Hfresh as [Hfb Hfresh]. apply list.Forall_cons in Hfresh as [Hfn Hfa].
    destruct (drained_outs _ _ _ _ Hd Hfb) as (Ho & Hgr & Hno). set (keys := gateKeysForTrigger next c).
    pose proof (gateKeys_NoDup next c) as Hnd. pose proof (gateKeys_present next c) as Hpres. fold keys in Hnd, Hpres.
    assert (Hlk : ∀ k, concurrencyGates (set_gates (bump keys (concurrencyGates (queue_state c key g pool (kept ++ after)))) (with_pool pool c)) !! k =
      (λ g', if decide (k ∈ keys) then incr g' else g') <$> (if decide (key = k) then Some (set_pending (kept ++ after) g) else concurrencyGates c !! k)).
    { intros k. cbn [set_gates concurrencyGates]. rewrite bump_lookup by done. f_equal. cbn [queue_state set_gates concurrencyGates]. by rewrite lookup_insert. }
    split; [done| | | | | | |].
    + eapply unreleased_gates; [done|]. intros k g'. rewrite Hlk. intros (g0 & Hg0 & ->)%fmap_Some r Hr. right.
      assert (Hr' : r ∈ pending g0) by (by destruct (decide (k ∈ keys))).
      destruct (decide (key = k)) as [<-|]; [|by eauto]. injection Hg0 as <-. exists g. split; [done|].
      cbn [set_pending pending] in Hr'. rewrite Hpe. apply elem_of_app in Hr' as [Hr'|Hr']; [|set_solver].
      apply elem_of_app. left. by eapply drained_sub.
    + intros v. rewrite ovals_app, grants_app, Hgr. unfold ovals at 2, grants. cbn [sum_list_with oval]. rewrite val_gated, grant_gated by done.
      rewrite pend_ext with (c := queue_state c key g pool (kept ++ after)).
      2: { intros k. rewrite Hlk. cbn [queue_state set_gates concurrencyGates]. rewrite lookup_insert, <-option_fmap_compose.
           apply option_fmap_ext. intros g'. cbn. by case_decide. }
      unfold pend. cbn [queue_state set_gates concurrencyGates].
      pose proof (msum_insert (λ g, vals v (pending g)) _ key g (set_pending (kept ++ after) g) Hg) as M. cbn [set_pending pending] in M.
      rewrite Hpe, !vals_app, (drained_val _ _ _ _ v Hd) in M. unfold vals in *. cbn [sum_list_with] in M. unfold none. lia.
    + intros k. rewrite grants_app, Hgr. unfold grants. cbn [sum_list_with]. rewrite grant_gated, Nat.add_0_l, Nat.add_0_r.
      apply cur_bump; [done|done|]. intros j. rewrite Hlk. rewrite bump_lookup by done.
      destruct (decide (key = j)) as [<-|]; [rewrite Hg|done]. cbn. by case_decide.
    + split_and!; try done. intros k. rewrite Hlk.
      destruct (decide (key = k)) as [<-|]; [rewrite Hg|destruct (concurrencyGates c !! k)]; cbn; by try case_decide.
    + intros i req ks [?%Hno|[= -> ->]%list_elem_of_singleton]%elem_of_app Hks; [done|]. exists next. split; [done|]. by injection Hks.
    + set (c1 := queue_state c key g pool (kept ++ after)). intros k g' Hg'.
      assert (Hsame : same_gates c c1) by (by apply same_gates_queue_state).
      assert (Hc1 : cur k c1 = cur k c).
      { destruct Hsame as (_ & _ & _ & Hsg). specialize (Hsg k). unfold cur.
        destruct (concurrencyGates c1 !! k), (concurrencyGates c !! k); try done. cbn in *. congruence. }
      rewrite <-Hc1. exact (limit_bump keys c1 (with_pool pool c) Hnd (same_gates_room _ _ _ Hsame Hroom) eq_refl eq_refl k g' Hg').
    + apply Forall_app. split; [done|]. destruct Hs as (o & Ho' & _). repeat constructor. by exists o.
Qed.

Lemma dispatches_for_each {A} (body : A → p_handler) :
  (∀ x c, pool_ok c → unreleased c → dispatches c (body x c).1 (body x c).2 none) →
  ∀ l c, pool_ok c → unreleased c → dispatches c (for_each l body c).1 (for_each l body c).2 none.
Proof.
  intros Hb l. induction l as [|x l IH]; intros c Hp Hu; [by apply dispatches_refl|].
  cbn [for_each]. rewrite seqp_eq. cbn [fst snd]. pose proof (Hb x c Hp Hu) as D1.
  apply (dispatches_trans _ _ _ _ _ none none D1). apply IH; [apply (d_pool _ _ _ _ D1)|apply (d_unreleased _ _ _ _ D1)].
Qed.

(** ** Orphaned gates *)

Definition drop_gates (l : list (string * concurrencyGate)) (m : gmap string concurrencyGate) : gmap string concurrencyGate :=
  foldl (λ m kg, delete kg.1 m) m l.

Lemma drop_gates_cons kg l m : drop_gates (kg :: l) m = drop_gates l (delete kg.1 m).
Proof. done. Qed.

Lemma lookup_drop_gates l m k : drop_gates l m !! k = if decide (k ∈ l.*1) then None else m !! k.
Proof.
  revert m. induction l as [|kg l IH]; intros m; [done|]. rewrite drop_gates_cons, IH. rewrite fmap_cons.
  destruct (decide (k ∈ l.*1)); [by rewrite decide_True by (by right)|]. destruct (decide (kg.1 = k)) as [->|Hne].
  - rewrite lookup_delete_eq, decide_True by left. done.
  - rewrite lookup_delete_ne by done. rewrite decide_False; [done|]. by intros [->|?]%elem_of_cons.
Qed.

Definition orphans c : list (string * concurrencyGate) :=
  filter (λ kg, kg.1 ∉ referenced c) (map_to_list (concurrencyGates c)).

Definition drop_outs (l : list (string * concurrencyGate)) : list p_output := l ≫= λ kg, pending kg.2 ≫= resolve UNDELIVERABLE.

Lemma removeOrphanedGates_eq c :
  removeOrphanedGates c = (set_gates (drop_gates (orphans c) (concurrencyGates c)) c, drop_outs (orphans c)).
Proof.
  unfold removeOrphanedGates, get. fold (orphans c). generalize (orphans c). intros l. revert c.
  induction l as [|kg l IH]; intros c; [by destruct c|]. cbn [for_each]. rewrite seqp_eq. rewrite (seqp_eq (emit _)). cbn [emit modify fst snd].
  rewrite IH. cbn [fst snd set_gates concurrencyGates]. rewrite app_nil_r. unfold drop_outs. by rewrite bind_cons.
Qed.

Lemma resolves_val v r reqs : ovals v (reqs ≫= resolve r) = vals v reqs.
Proof.
  induction reqs as [|req reqs IH]; [done|]. rewrite bind_cons, ovals_app, resolve_val, IH. done.
Qed.

Lemma resolves_fresh r reqs :
  Forall fresh_request reqs → reqs ≫= resolve r = (λ req, PResult (tr_id req) r) <$> reqs.
Proof.
  induction 1 as [|req reqs Hf _ IH]; [done|]. rewrite bind_cons, resolve_fresh, IH by done. done.
Qed.

Lemma drop_gates_pend v l m :
  NoDup l.*1 → (∀ kg, kg ∈ l → m !! kg.1 = Some kg.2) →
  msum (λ g, vals v (pending g)) (drop_gates l m) + ovals v (drop_outs l) = msum (λ g, vals v (pending g)) m.
Proof.
  revert m. induction l as [|kg l IH]; intros m Hnd Hin; [cbn; lia|]. rewrite drop_gates_cons. unfold drop_outs. rewrite bind_cons, ovals_app, resolves_val.
  rewrite fmap_cons in Hnd. apply list.NoDup_cons in Hnd as [Hk Hnd]. fold (drop_outs l).
  rewrite (msum_delete _ m kg.1 kg.2) by (apply Hin; left). rewrite <-(IH (delete kg.1 m)); [lia|done|].
  intros kg' Hkg'. rewrite lookup_delete_ne; [apply Hin; by right|]. intros E. apply Hk. rewrite E. by apply list_elem_of_fmap_2.
Qed.

Lemma orphans_spec c :
  NoDup (orphans c).*1 ∧ (∀ kg, kg ∈ orphans c → concurrencyGates c !! kg.1 = Some kg.2) ∧
  ∀ k, k ∈ (orphans c).*1 ↔ is_Some (concurrencyGates c !! k) ∧ k ∉ referenced c.
Proof.
  unfold orphans. split_and!.
  - apply (sublist_NoDup _ (map_to_list (concurrencyGates c)).*1); [apply NoDup_fst_map_to_list|apply fmap_sublist, sublist_filter].
  - intros [k g] [_ H%elem_of_map_to_list]%list_elem_of_filter. done.
  - intros k. rewrite list_elem_of_fmap. setoid_rewrite list_elem_of_filter. setoid_rewrite elem_of_map_to_list'. split.
    + intros ([k' g] & -> & Hr & Hg). split; [by exists g|done].
    + intros [[g Hg] Hr]. by exists (k, g).
Qed.

(** Result calls only. *)
Definition only_results os : Prop := Forall (λ o, ∃ id r, o = PResult id r) os.

Lemma only_results_grants os v : only_results os → grants v os = 0.
Proof. induction 1 as [|o os (id & r & ->) _ IH]; [done|]. exact IH. Qed.

Lemma only_results_enqueue os idx req : only_results os → PEnqueue idx req ∉ os.
Proof. intros Hr Hin. unfold only_results in Hr. rewrite list.Forall_forall in Hr. by destruct (Hr _ Hin) as (? & ? & ?). Qed.

Lemma only_results_open os open : only_results os → outs_ok open os ∧ foldl opened open os = open.
Proof. induction 1 as [|o os (id & r & ->) _ IH]; [done|]. cbn. destruct IH. auto. Qed.

Lemma drop_outs_results c l :
  unreleased c → (∀ kg, kg ∈ l → concurrencyGates c !! kg.1 = Some kg.2) → only_results (drop_outs l).
Proof.
  intros Hu Hl. unfold drop_outs. apply list.Forall_forall. intros o (kg & Ho & Hkg)%list_elem_of_bind.
  rewrite resolves_fresh in Ho by (by apply (Hu kg.1), Hl). apply list_elem_of_fmap in Ho as (req & -> & _). eauto.
Qed.

(** ** Handlers *)

(** The triggers an event brings in, and the gates it gives back. *)
Definition taken v (e : EventConn) : nat := match e with PTriggerRequest req => val v req | _ => 0 end.

Definition given (k : string) (e : EventConn) : nat :=
  match e with PConcurrencyRelease keys => vb (hold k) keys | _ => 0 end.

(** An event as the environment and the streams produce them. *)
Definition proper_event (e : EventConn) : Prop :=
  match e with
  | PTriggerRequest req => fresh_request req
  | PConcurrencyRelease keys => NoDup keys
  | _ => True
  end.

Record conns_inv c : Prop := {
  ci_pool : pool_ok c;
  ci_unreleased : unreleased c;
  ci_fresh : ∀ i, is_Some (p_streams c !! i) → (i < p_streamIDx c)%N;
  ci_gates : ∀ k, is_Some (concurrencyGates c !! k) ↔ k ∈ referenced c;
  ci_limits : ∀ k g, concurrencyGates c !! k = Some g → (0 < globalLimit g)%N
}.

Record handled c (e : EventConn) c' os : Prop := {
  h_inv : conns_inv c';
  h_val : ∀ v, pend v c' + ovals v os = pend v c + taken v e + grants v os;
  h_cur : ∀ k, cur k c' ≤ (cur k c - given k e) + grants (hold k) os;
  h_cur_eq : ∀ k, is_Some (concurrencyGates c !! k) → is_Some (concurrencyGates c' !! k) →
    cur k c' = (cur k c - given k e) + grants (hold k) os;
  h_keys : ∀ idx req ks, PEnqueue idx req ∈ os → tr_release req = Some ks →
    ∃ r, fresh_request r ∧ ks = gateKeysForTrigger r c;
  h_limit : ∀ k g, concurrencyGates c' !! k = Some g → cur k c' ≤ cur k c ∨ (current g ≤ limit_of c' g)%N;
  h_outs : outs_ok (dom (p_streams c)) os;
  h_open : dom (p_streams c') = foldl opened (dom (p_streams c)) os;
  h_idx : (p_streamIDx c' ≤ p_streamIDx c + 1)%N
}.

Lemma dispatch_outs c os :
  Forall (dispatch_output c) os → outs_ok (dom (p_streams c)) os ∧ foldl opened (dom (p_streams c)) os = dom (p_streams c).
Proof.
  induction 1 as [|o os Ho _ IH]; [done|]. cbn [outs_ok foldl]. destruct IH as [IH1 IH2].
  destruct o; try done; cbn [finds opened]; (split; [split; [|done]|done]); try done. by apply elem_of_dom.
Qed.

(** Dispatching from a state [c1] that differs from [c] by what the event gave back. *)
Lemma handled_dispatch c e c1 c' os t :
  conns_inv c → dispatches c1 c' os t → (∀ v, t v = taken v e) →
  (∀ v, pend v c1 = pend v c) → (∀ k, cur k c1 = cur k c - given k e) →
  p_streams c1 = p_streams c → p_streamIDx c1 = p_streamIDx c → streamGateKeys c1 = streamGateKeys c →
  (∀ key, globalLimit <$> concurrencyGates c1 !! key = globalLimit <$> concurrencyGates c !! key) →
  handled c e c' os.
Proof.
  intros [Ip Iu If Ig Il] [Dp Du Dv Dc Ds Dk Dl Do] Ht Hp Hc Es Ei Ek Eg. destruct Ds as (S1 & S2 & S3 & S4 & S5 & S6 & S7).
  destruct (dispatch_outs c1 os Do) as [O1 O2]. rewrite Es in O1, O2.
  assert (Hlim : ∀ key, globalLimit <$> concurrencyGates c' !! key = globalLimit <$> concurrencyGates c !! key) by (intros; by rewrite S7).
  split.
  - split; [done|done| | |].
    + rewrite S1, S2, Es, Ei. done.
    + intros k. rewrite (gates_same_dom c c' Hlim). unfold referenced. rewrite S3, Ek. apply Ig.
    + intros k g Hg. specialize (Hlim k). rewrite Hg in Hlim. destruct (concurrencyGates c !! k) as [g0|] eqn:Hg0; [|done].
      injection Hlim as ->. by eapply Il.
  - intros v. rewrite Dv, Hp, Ht. done.
  - intros k. rewrite Dc, Hc. done.
  - intros k _ _. rewrite Dc, Hc. done.
  - intros idx req ks Hin Hks. destruct (Dk _ _ _ Hin Hks) as (r & Hr & ->). exists r. split; [done|].
    apply gateKeys_dom, set_eq. intros k. rewrite !elem_of_dom. by apply gates_same_dom.
  - intros k g Hg. destruct (Dl k g Hg) as [->|?]; [left|by right]. rewrite Hc. lia.
  - done.
  - by rewrite O2, S1, Es.
  - rewrite S2, Ei. lia.
Qed.

Lemma handled_trigger c req : conns_inv c → fresh_request req → handled c (PTriggerRequest req) (handleTriggerRequest req c).1 (handleTriggerRequest req c).2.
Proof.
  intros I Hf. eapply (handled_dispatch c _ c); [done|apply dispatches_trigger; [apply I..|done]|done|done|intros; cbn; lia|done..].
Qed.

Lemma cur_release keys c k :
  NoDup keys → cur k (set_gates (release_all keys (concurrencyGates c)) c) = cur k c - vb (hold k) keys.
Proof.
  intros Hnd. unfold cur. cbn [set_gates concurrencyGates].
  assert (Hl : release_all keys (concurrencyGates c) !! k =
    (λ g, if decide (k ∈ keys) then gate_release g else g) <$> concurrencyGates c !! k).
  { generalize (concurrencyGates c). clear c. intros m. revert m Hnd. induction keys as [|k0 keys IH]; intros m Hnd.
    - destruct (decide (k ∈ [])) as [?%elem_of_nil|]; [done|]. cbn. by destruct (m !! k).
    - apply list.NoDup_cons in Hnd as [Hk0 Hnd]. rewrite release_all_cons, IH by done. rewrite lookup_alter.
      destruct (decide (k0 = k)) as [->|Hne].
      + destruct (decide (k ∈ keys)); [done|]. destruct (decide (k ∈ k :: keys)) as [_|[]]; [|left]. by destruct (m !! k).
      + destruct (m !! k); [|done]. cbn. f_equal. destruct (decide (k ∈ keys)); [by rewrite decide_True by (by right)|].
        rewrite decide_False; [done|]. intros [->|?]%elem_of_cons; done. }
  rewrite Hl. cbn [hold vb]. destruct (concurrencyGates c !! k) as [g|]; [|done]. cbn [fmap option_fmap option_map from_option].
  case_decide; [|lia]. unfold gate_release. destruct (0 <? current g)%N eqn:E; cbn [current].
  - apply N.ltb_lt in E. lia.
  - apply N.ltb_ge in E. lia.
Qed.

Lemma release_all_keeps {B} (f : concurrencyGate → B) keys m :
  (∀ g, f (gate_release g) = f g) → ∀ k, f <$> release_all keys m !! k = f <$> m !! k.
Proof.
  intros Hf. revert m. induction keys as [|k0 keys IH]; intros m k; [done|]. rewrite release_all_cons, IH, lookup_alter.
  case_decide; [subst|done]. destruct (m !! k); [|done]. cbn. by rewrite Hf.
Qed.

Lemma handled_release c keys : conns_inv c → NoDup keys → handled c (PConcurrencyRelease keys) (handleConcurrencyRelease keys c).1 (handleConcurrencyRelease keys c).2.
Proof.
  intros I Hnd. unfold handleConcurrencyRelease. rewrite seqp_eq, release_for_each. cbn [fst snd app].
  set (c1 := set_gates _ c).
  assert (Hg : ∀ g, pending (gate_release g) = pending g ∧ globalLimit (gate_release g) = globalLimit g).
  { intros g. unfold gate_release. by destruct (0 <? current g)%N. }
  assert (Hpend : ∀ k, pending <$> concurrencyGates c1 !! k = pending <$> concurrencyGates c !! k) by (apply release_all_keeps; apply Hg).
  apply (handled_dispatch c _ c1 _ _ none); [done| |done|intros; by apply pend_ext|intros; by apply cur_release|done|done|done|apply release_all_keeps; apply Hg].
  apply dispatches_for_each; [intros; by apply dispatches_drain|apply I|].
  eapply unreleased_gates; [apply I|]. intros k g' Hg' r Hr. right. specialize (Hpend k). rewrite Hg' in Hpend.
  destruct (concurrencyGates c !! k) as [g|]; [|done]. exists g. split; [done|]. injection Hpend as E. by rewrite <-E.
Qed.

Lemma handled_info c count idx order : conns_inv c →
  handled c (PSchedulerInfoUpdate count idx order) (handleSchedulerInfoUpdate count idx order c).1 (handleSchedulerInfoUpdate count idx order c).2.
Proof.
  intros I. unfold handleSchedulerInfoUpdate. rewrite modify_seq. set (c1 := set_view _ _ c).
  apply (handled_dispatch c _ c1 _ _ none); [done| |done|done|intros; cbn; by rewrite Nat.sub_0_r|done..].
  apply dispatches_for_each; [|apply I|apply I]. intros key c0 Hp Hu. unfold get.
  destruct (concurrencyGates c0 !! key) as [g|]; [|by apply dispatches_refl].
  destruct (0 <? length (pending g)); [by apply dispatches_drain|by apply dispatches_refl].
Qed.

Lemma elem_of_referenced c k : k ∈ referenced c ↔ ∃ i ks, streamGateKeys c !! i = Some ks ∧ k ∈ ks.
Proof.
  unfold referenced. rewrite list_elem_of_bind. setoid_rewrite list_elem_of_fmap. setoid_rewrite elem_of_map_to_list'. split.
  - intros (ks & Hk & [i ks'] & -> & Hi). eauto.
  - intros (i & ks & Hi & Hk). exists ks. split; [done|]. by exists (i, ks).
Qed.

Lemma orphan_step c :
  unreleased c →
  let p := removeOrphanedGates c in
  p.1 = set_gates (concurrencyGates p.1) c ∧ only_results p.2 ∧ (∀ v, pend v p.1 + ovals v p.2 = pend v c) ∧
  ∀ k, concurrencyGates p.1 !! k = if decide (k ∈ referenced c) then concurrencyGates c !! k else None.
Proof.
  intros Hu p. unfold p. rewrite removeOrphanedGates_eq. cbn [fst snd set_gates concurrencyGates].
  destruct (orphans_spec c) as (Hnd & Hin & Hk). split_and!.
  - done.
  - by eapply drop_outs_results.
  - intros v. unfold pend. cbn [set_gates concurrencyGates]. by apply drop_gates_pend.
  - intros k. rewrite lookup_drop_gates. destruct (decide (k ∈ referenced c)) as [Hr|Hr].
    + rewrite decide_False; [done|]. rewrite Hk. tauto.
    + case_decide as Hd; [done|]. destruct (concurrencyGates c !! k) as [g|] eqn:Hg; [|done]. destruct Hd. apply Hk. by split; [exists g|].
Qed.

Definition set_limits (ls : list ConcurrencyLimit) (m : gmap string concurrencyGate) : gmap string concurrencyGate :=
  foldl (λ g l, set_limit l g) m ls.

Lemma limit_key_positive l k : limit_key l = Some k → (0 < Z.to_N (MaxConcurrent l))%N.
Proof. unfold limit_key. destruct (MaxConcurrent l <=? 0)%Z eqn:E; [done|]. apply Z.leb_gt in E. lia. Qed.

(** Setting limits creates empty gates and changes limits only. *)
Lemma set_limits_spec ls m :
  (∀ v, msum (λ g, vals v (pending g)) (set_limits ls m) = msum (λ g, vals v (pending g)) m) ∧
  (∀ k, from_option (λ g, N.to_nat (current g)) 0 (set_limits ls m !! k) = from_option (λ g, N.to_nat (current g)) 0 (m !! k)) ∧
  (∀ k g, set_limits ls m !! k = Some g →
     (∃ g0, m !! k = Some g0 ∧ pending g = pending g0 ∧ (globalLimit g = globalLimit g0 ∨ 0 < globalLimit g)%N) ∨
     (m !! k = None ∧ pending g = [] ∧ 0 < globalLimit g)%N) ∧
  (∀ k, is_Some (set_limits ls m !! k) ↔ is_Some (m !! k) ∨ k ∈ omap limit_key ls).
Proof.
  revert m. induction ls as [|l ls IH]; intros m.
  - cbn. split_and!; [done|done|intros k g Hg; left; exists g; eauto|]. intros k. split; [by left|]. by intros [?|?%elem_of_nil].
  - cbn [set_limits foldl]. fold (set_limits ls (set_limit l m)). destruct (IH (set_limit l m)) as (V & C & G & D).
    unfold set_limit in *. destruct (limit_key l) as [key|] eqn:Hk; cbn [omap list_omap]; rewrite Hk; [|done].
    pose proof (limit_key_positive l key Hk) as Hpos.
    destruct (m !! key) as [g0|] eqn:Hg0.
    + split_and!.
      * intros v. rewrite V. pose proof (msum_insert (λ g, vals v (pending g)) m key g0 (mkGate (Z.to_N (MaxConcurrent l)) (current g0) (pending g0)) Hg0) as M.
        cbn [pending] in M. lia.
      * intros k. rewrite C, lookup_insert. case_decide; [subst; by rewrite Hg0|done].
      * intros k g Hg. destruct (G k g Hg) as [(g1 & Hg1 & Hp & Hl)|(Hn & ? & ?)].
        -- rewrite lookup_insert in Hg1. case_decide; [subst; injection Hg1 as <-|left; eauto]. left. exists g0. cbn [pending globalLimit] in *.
           split_and!; [done|done|]. right. by destruct Hl as [->|].
        -- rewrite lookup_insert in Hn. case_decide; [done|]. by right.
      * intros k. rewrite D, lookup_insert, elem_of_cons. case_decide; [subst; rewrite Hg0; split; eauto|].
        split; [intros [?|?]; auto|intros [?|[->|?]]; auto; done].
    + split_and!.
      * intros v. rewrite V, msum_insert_None by done. done.
      * intros k. rewrite C, lookup_insert. case_decide; [subst; by rewrite Hg0|done].
      * intros k g Hg. destruct (G k g Hg) as [(g1 & Hg1 & Hp & Hl)|(Hn & ? & ?)].
        -- rewrite lookup_insert in Hg1. case_decide; [subst; injection Hg1 as <-|left; eauto]. right. cbn [pending globalLimit] in *.
           split_and!; [done|done|]. by destruct Hl as [->|].
        -- rewrite lookup_insert in Hn. case_decide; [done|]. by right.
      * intros k. rewrite D, lookup_insert, elem_of_cons. case_decide; [subst; split; eauto|].
        split; [intros [?|?]; auto|intros [?|[->|?]]; auto; done].
Qed.

Definition stream_opts (idx : N) (req : WatchJobsRequestInitial) : Options :=
  mkOptions idx (if accepts JOB_TARGET_TYPE_JOB req then Some (wi_AppId req) else None) (wi_ActorTypes req) (wi_ActorAddress req).

Lemma pool_ok_add c o c' :
  pool_ok c → p_streams c !! o_Loop o = None → streamPool c' = PStore_Add o (streamPool c) →
  p_streams c' = <[o_Loop o := o]> (p_streams c) → pool_ok c'.
Proof.
  intros (cs & Hnd & Ht & Hcs) Hnew Ep Es. exists (cs ++ [o]). rewrite Ep, Es. split_and!.
  - rewrite fmap_app. apply list.NoDup_app. split_and!; [done| |apply NoDup_singleton].
    intros l (o' & -> & Ho')%list_elem_of_fmap Hl%list_elem_of_singleton.
    assert (p_streams c !! o_Loop o' = Some o') by (by apply Hcs). congruence.
  - by apply pool_tracks_Add.
  - intros i o'. rewrite elem_of_app, list_elem_of_singleton, lookup_insert_Some. split.
    + intros [[<- <-]|[Hne [? ?]%Hcs]]; [by split; [right|]|by split; [left|]].
    + intros [[Ho'| ->] Hl]; [|by left]. right. split; [|by apply Hcs]. intros <-.
      assert (p_streams c !! o_Loop o = Some o') by (by apply Hcs). congruence.
Qed.

Lemma pool_ok_cancel c o i c' :
  pool_ok c → p_streams c !! i = Some o → streamPool c' = PStore_cancel o (streamPool c) →
  p_streams c' = delete i (p_streams c) → pool_ok c' ∧ o_Loop o = i.
Proof.
  intros (cs & Hnd & Ht & Hcs) Hi Ep Es. pose proof (proj1 (Hcs i o) Hi) as [Ho Hl]. split; [|done].
  apply list_elem_of_split in Ho as (cs1 & cs2 & ->). exists (cs1 ++ cs2). rewrite Ep, Es.
  assert (Hout : ∀ o', o' ∈ cs1 ++ cs2 → o_Loop o' ≠ i).
  { intros o' Ho' E. rewrite fmap_app, fmap_cons in Hnd. apply list.NoDup_app in Hnd as (_ & H1 & H2).
    apply list.NoDup_cons in H2 as [H2 _]. apply elem_of_app in Ho' as [Ho'|Ho'].
    - apply (H1 (o_Loop o')); [by apply list_elem_of_fmap_2|]. rewrite E, Hl. left.
    - apply H2. rewrite Hl, <-E. by apply list_elem_of_fmap_2. }
  split_and!.
  - rewrite fmap_app, fmap_cons in Hnd. rewrite fmap_app. apply list.NoDup_app in Hnd as (N1 & N2 & N3).
    apply list.NoDup_cons in N3 as [_ N3]. apply list.NoDup_app. split_and!; [done| |done]. intros x Hx Hx2. apply (N2 x Hx). by right.
  - by apply pool_tracks_cancel.
  - intros j o'. rewrite lookup_delete_Some, Hcs. split.
    + intros (Hne & Ho' & Hj). split; [|done]. apply elem_of_app in Ho' as [?|[->|?]%elem_of_cons]; [set_solver|congruence|set_solver].
    + intros [Ho' Hj]. split_and!; [|set_solver|done]. intros <-. by apply (Hout o').
Qed.

(** Outputs before result calls. *)
Lemma results_after open os rs :
  outs_ok open os → only_results rs → outs_ok open (os ++ rs) ∧ foldl opened open (os ++ rs) = foldl opened open os.
Proof.
  revert open. induction os as [|o os IH]; intros open Hos Hrs; [by apply only_results_open|].
  destruct Hos as [Hf Hos]. cbn [app outs_ok foldl]. destruct (IH _ Hos Hrs). auto.
Qed.

(** Removing orphaned gates at the end of a handler that moved no trigger. *)
Lemma handled_orphans c e c1 pre :
  (∀ v, taken v e = 0) → (∀ k, given k e = 0) → conns_inv c →
  pool_ok c1 → unreleased c1 → (∀ i, is_Some (p_streams c1 !! i) → (i < p_streamIDx c1)%N) →
  (∀ k, k ∈ referenced c1 → is_Some (concurrencyGates c1 !! k)) →
  (∀ k g, concurrencyGates c1 !! k = Some g → (0 < globalLimit g)%N) →
  (∀ v, pend v c1 = pend v c) → (∀ k, cur k c1 = cur k c) →
  outs_ok (dom (p_streams c)) pre → (∀ v, ovals v pre = 0 ∧ grants v pre = 0) → (∀ idx req, PEnqueue idx req ∉ pre) →
  dom (p_streams c1) = foldl opened (dom (p_streams c)) pre → (p_streamIDx c1 ≤ p_streamIDx c + 1)%N →
  handled c e (removeOrphanedGates c1).1 (pre ++ (removeOrphanedGates c1).2).
Proof.
  intros He1 He2 I Hp1 Hu1 Hf1 Href Hl1 Hpend Hcur Hpre Hpre0 Hpre1 Hdom Hidx.
  destruct (orphan_step c1 Hu1) as (E & Hres & Hv & Hlk). destruct (removeOrphanedGates c1) as [c' os]. cbn [fst snd] in *.
  destruct (results_after _ pre os Hpre Hres) as [O1 O2].
  assert (Hgr : ∀ v, grants v (pre ++ os) = 0).
  { intros v. rewrite grants_app, (only_results_grants os) by done. destruct (Hpre0 v). lia. }
  assert (Hc' : ∀ k, cur k c' ≤ cur k c ∧ (is_Some (concurrencyGates c' !! k) → cur k c' = cur k c)).
  { intros k. rewrite <-Hcur. unfold cur. rewrite Hlk. case_decide; [done|]. split; [cbn; lia|by intros []]. }
  split.
  - split.
    + by rewrite E.
    + eapply unreleased_gates; [exact Hu1|]. intros k g Hg r Hr. rewrite Hlk in Hg. case_decide; [eauto|done].
    + by rewrite E.
    + intros k. rewrite Hlk. assert (Er : referenced c' = referenced c1) by (by rewrite E). rewrite Er.
      case_decide as Hd; [split; [done|auto]|]. split; [by intros []|done].
    + intros k g Hg. rewrite Hlk in Hg. case_decide; [|done]. by eapply Hl1.
  - intros v. rewrite Hgr, He1, ovals_app, (proj1 (Hpre0 v)), <-Hpend, <-(Hv v). lia.
  - intros k. rewrite Hgr, He2. destruct (Hc' k). lia.
  - intros k _ Hk. rewrite Hgr, He2. destruct (Hc' k) as [_ ->]; [lia|done].
  - intros idx req ks [?%Hpre1|Hin]%elem_of_app _; [done|]. by destruct (only_results_enqueue _ idx req Hres).
  - intros k g _. left. apply Hc'.
  - done.
  - by rewrite O2, E.
  - by rewrite E.
Qed.

Lemma handled_add c req deliverable :
  conns_inv c → (p_streamIDx c + 1 < two64)%N →
  handled c (PConnAdd req deliverable) (p_handleAdd req deliverable c).1 (p_handleAdd req deliverable c).2.
Proof.
  intros I Hw. pose proof I as [Ip Iu If Ig Il]. set (idx := p_streamIDx c).
  assert (Hsucc : u64_succ idx = (idx + 1)%N) by (apply N.mod_small; lia).
  assert (Hnew : p_streams c !! idx = None).
  { destruct (p_streams c !! idx) eqn:E; [|done]. assert (idx < p_streamIDx c)%N by (apply If; eauto). lia. }
  unfold p_handleAdd, get. fold idx. rewrite modify_seq, seqp_eq. cbn [emit fst snd]. destruct deliverable; cbn [negb].
  - rewrite seqp_eq. cbn [emit fst snd]. rewrite !modify_seq. unfold updateConcurrencyLimits. rewrite !modify_seq.
    fold (stream_opts idx req). set (c1 := set_gateKeys _ _). rewrite (assoc_L (++)).
    destruct (set_limits_spec (ConcurrencyLimits req) (concurrencyGates c)) as (V & C & G & D).
    apply handled_orphans; try done.
    + by apply (pool_ok_add c (stream_opts idx req)).
    + eapply unreleased_gates; [exact Iu|]. intros k g Hg r Hr.
      destruct (G k g Hg) as [(g0 & Hg0 & Hp & _)|(_ & Hp & _)]; rewrite Hp in Hr; [eauto|by apply elem_of_nil in Hr].
    + intros i [o Ho]. cbn in Ho |- *. rewrite Hsucc.
      apply lookup_insert_Some in Ho as [[<- _]|[_ Ho]]; [lia|]. assert (i < p_streamIDx c)%N by (apply If; eauto). lia.
    + intros k (i & ks & Hi & Hk)%elem_of_referenced. apply D. cbn [c1 set_gateKeys streamGateKeys] in Hi.
      apply lookup_insert_Some in Hi as [[_ <-]|[_ Hi]]; [by right|left]. apply Ig, elem_of_referenced. eauto.
    + intros k g Hg. destruct (G k g Hg) as [(g0 & Hg0 & _ & [->|?])|(_ & _ & ?)]; [by eapply Il|done|done].
    + cbn. split_and!; [done|by apply not_elem_of_dom|done].
    + intros i r [?|[?|?%elem_of_nil]%elem_of_cons]%elem_of_cons; done.
    + cbn. by rewrite dom_insert_L.
    + cbn. rewrite Hsucc. lia.
  - cbn [fst snd app]. assert (Hc : ∀ k, cur k (set_pstreamIDx (u64_succ idx) c) = cur k c) by done.
    split; [|intros v; symmetry; rewrite <-Nat.add_assoc; done|intros k; rewrite Hc; cbn; lia|intros k _ _; rewrite Hc; cbn; lia| |by left|done|done|cbn; rewrite Hsucc; lia].
    + split; [done|done| |done|done]. intros i Hi. cbn. rewrite Hsucc. specialize (If i Hi). lia.
    + intros i r ks [?|[?|?%elem_of_nil]%elem_of_cons]%elem_of_cons; done.
Qed.

Lemma handled_post c e c' os ns : handled c e c' os → handled c e c' (os ++ [PCloseNamespace ns]).
Proof.
  intros [I V C CE K L O OP IX]. split; [done| | | | |done| | |done].
  - intros v. rewrite ovals_app, grants_app. specialize (V v). cbn. lia.
  - intros k. rewrite grants_app. specialize (C k). cbn. lia.
  - intros k H1 H2. rewrite grants_app. specialize (CE k H1 H2). cbn. lia.
  - intros idx req ks [Hin|?%list_elem_of_singleton]%elem_of_app; [by apply (K idx)|done].
  - clear -O. revert O. generalize (dom (p_streams c)). induction os as [|x l IH]; intros D; [done|]. intros [? ?]. split; auto.
  - by rewrite foldl_app.
Qed.

Lemma handled_close c idx ns :
  conns_inv c → handled c (PConnCloseStream idx ns) (p_handleCloseStream idx ns c).1 (p_handleCloseStream idx ns c).2.
Proof.
  intros I. pose proof I as [Ip Iu If Ig Il]. unfold p_handleCloseStream, get. destruct (p_streams c !! idx) as [o|] eqn:Ho.
  2: { split; [done|intros v; cbn; lia|intros k; cbn; lia|intros k _ _; cbn; lia|by intros ? ? ? ?%elem_of_nil|by left|done|done|cbn; lia]. }
  rewrite !modify_seq. set (c1 := set_streamPool _ _).
  destruct (pool_ok_cancel c o idx c1 Ip Ho eq_refl eq_refl) as [Hp1 Hl].
  assert (H : handled c (PConnCloseStream idx ns) (removeOrphanedGates c1).1 ([PStreamClose (o_Loop o)] ++ (removeOrphanedGates c1).2)).
  { apply handled_orphans; try done; [| |by intros ? ? ?%list_elem_of_singleton|..].
    - intros i [x Hx]. cbn in Hx |- *. apply lookup_delete_Some in Hx as [_ Hx]. apply If. eauto.
    - intros k (i & ks & Hi & Hk)%elem_of_referenced. cbn [c1 set_streamPool set_gateKeys set_pstreams streamGateKeys] in Hi.
      apply lookup_delete_Some in Hi as [_ Hi]. apply Ig, elem_of_referenced. eauto.
    - cbn. by rewrite dom_delete_L, Hl.
    - cbn. lia. }
  rewrite seqp_eq. cbn [emit fst snd]. rewrite seqp_eq. destruct (removeOrphanedGates c1) as [c' os]. cbn [fst snd] in *.
  destruct (size (p_streams c') =? 0); cbn [when emit skip fst snd]; [|by rewrite app_nil_r].
  rewrite (assoc_L (++)). by apply handled_post.
Qed.

Lemma shutdown_streams (l : list (N * Options)) c :
  for_each l (λ kv, modify (λ c, set_streamPool (PStore_cancel kv.2 (streamPool c)) c) ;;; emit [PStreamClose (o_Loop kv.2)]) c =
    (set_streamPool (foldl (λ p kv, PStore_cancel kv.2 p) (streamPool c) l) c, (λ kv, PStreamClose (o_Loop kv.2)) <$> l).
Proof.
  revert c. induction l as [|kv l IH]; intros c; [by destruct c|]. cbn [for_each]. rewrite seqp_eq, modify_seq. cbn [emit fst snd].
  rewrite IH. done.
Qed.

Lemma cancel_all_tracks (l : list (N * Options)) : ∀ pool cs,
  pool_tracks pool cs → NoDup (o_Loop <$> cs) → cs ≡ₚ l.*2 → pool_tracks (foldl (λ p kv, PStore_cancel kv.2 p) pool l) [].
Proof.
  induction l as [|kv l IH]; intros pool cs Ht Hnd Hp; [by apply Permutation_nil_r in Hp as ->|].
  rewrite fmap_cons in Hp. assert (Hin : kv.2 ∈ cs) by (rewrite Hp; left).
  apply list_elem_of_split in Hin as (cs1 & cs2 & ->). cbn [foldl]. apply (IH _ (cs1 ++ cs2)).
  - by apply pool_tracks_cancel.
  - rewrite <-Permutation_middle in Hnd. cbn in Hnd. apply list.NoDup_cons in Hnd. apply Hnd.
  - rewrite <-Permutation_middle in Hp. by apply (inj (cons kv.2)) in Hp.
Qed.

Lemma closes_open (l : list (N * Options)) D :
  let os := (λ kv, PStreamClose (o_Loop kv.2)) <$> l in
  outs_ok D os ∧ foldl opened D os = D ∖ list_to_set (o_Loop <$> l.*2) ∧ ∀ v, ovals v os = 0 ∧ grants v os = 0.
Proof.
  cbv zeta. revert D. induction l as [|kv l IH]; intros D; [cbn; set_solver|]. destruct (IH (D ∖ {[ o_Loop kv.2 ]})) as (H1 & H2 & H3).
  rewrite !fmap_cons. cbn [outs_ok foldl finds opened list_to_set]. split_and!; [done|done|rewrite H2; set_solver|].
  intros v. exact (H3 v).
Qed.

Lemma handled_shutdown c : conns_inv c → handled c PShutdown (p_handleShutdown c).1 (p_handleShutdown c).2.
Proof.
  intros I. pose proof I as [(cs & Hnd & Ht & Hcs) Iu If Ig Il]. unfold p_handleShutdown, get. rewrite seqp_eq, shutdown_streams. cbn [fst snd].
  rewrite modify_seq, seqp_eq. cbn [emit modify fst snd seqp app]. rewrite app_nil_r.
  set (ms := map_to_list (p_streams c)). set (pool := foldl _ _ ms). set (rs := mbind _ _).
  destruct (closes_open ms (dom (p_streams c))) as (O1 & O2 & O3). set (os := fmap _ ms) in *.
  assert (Hms : cs ≡ₚ ms.*2).
  { apply NoDup_Permutation; [by eapply NoDup_fmap_1| |].
    - apply NoDup_fmap_2_strong; [|apply NoDup_map_to_list]. intros [i o] [j o'] H1%elem_of_map_to_list H2%elem_of_map_to_list E.
      cbn in E. subst o'. apply Hcs in H1 as [_ <-], H2 as [_ <-]. done.
    - intros o. unfold ms. rewrite list_elem_of_fmap. setoid_rewrite elem_of_map_to_list'. split.
      + intros Ho. exists (o_Loop o, o). split; [done|]. by apply Hcs.
      + intros ([i o'] & -> & Ho). by apply Hcs in Ho as [? _]. }
  assert (Hrs : only_results rs).
  { apply list.Forall_forall. intros o (g & Ho & Hg)%list_elem_of_bind. apply list_elem_of_fmap in Hg as ([k g'] & -> & Hg%elem_of_map_to_list).
    cbn in Ho. rewrite resolves_fresh in Ho by (by eapply Iu). apply list_elem_of_fmap in Ho as (req & -> & _). eauto. }
  assert (Hov : ∀ v, ovals v rs = pend v c).
  { intros v. unfold pend, rs. rewrite msum_map_to_list. clear. induction (map_to_list (concurrencyGates c)) as [|kg l IH]; [done|].
    rewrite fmap_cons, bind_cons, ovals_app, resolves_val, IH. done. }
  destruct (results_after _ os rs O1 Hrs) as [P1 P2].
  assert (Hgr : ∀ v, grants v (os ++ rs) = 0).
  { intros v. rewrite grants_app, (only_results_grants rs) by done. destruct (O3 v). lia. }
  assert (Hc0 : ∀ k, cur k (set_gateKeys ∅ (set_gates ∅ (set_pstreams ∅ (set_streamPool pool c)))) = 0).
  { intros k. unfold cur. cbn [set_gateKeys set_gates concurrencyGates]. by rewrite lookup_empty. }
  split.
  - split.
    + exists []. split_and!; [constructor|by apply (cancel_all_tracks ms _ cs)|]. intros i o. cbn. rewrite lookup_empty.
      split; [done|]. by intros [?%elem_of_nil _].
    + intros k g Hg. cbn in Hg. by rewrite lookup_empty in Hg.
    + intros i [o Ho]. cbn in Ho. by rewrite lookup_empty in Ho.
    + intros k. cbn. rewrite lookup_empty, elem_of_referenced. split; [by intros []|]. intros (i & ks & Hi & _). cbn in Hi. by rewrite lookup_empty in Hi.
    + intros k g Hg. cbn in Hg. by rewrite lookup_empty in Hg.
  - intros v. rewrite Hgr, ovals_app, (proj1 (O3 v)), Hov. unfold pend at 1. cbn [set_gateKeys set_gates concurrencyGates taken]. rewrite msum_empty. lia.
  - intros k. rewrite Hc0. lia.
  - intros k _ [g Hg]. cbn in Hg. by rewrite lookup_empty in Hg.
  - intros idx req ks [(kv & ? & _)%list_elem_of_fmap|Hin]%elem_of_app _; [done|]. by destruct (only_results_enqueue _ idx req Hrs).
  - intros k g _. left. rewrite Hc0. lia.
  - done.
  - rewrite P2, O2. cbn. rewrite dom_empty_L. symmetry. apply set_eq. intros i. rewrite elem_of_difference, elem_of_dom, elem_of_list_to_set.
    split; [|by intros ?%elem_of_empty]. intros [[o Ho] Hno]. exfalso. apply Hno. rewrite <-Hms. apply list_elem_of_fmap. exists o.
    apply Hcs in Ho as [? <-]. done.
  - cbn. lia.
Qed.

Lemma handled_event c e :
  conns_inv c → proper_event e → (p_streamIDx c + 1 < two64)%N → handled c e (p_Handle e c).1 (p_Handle e c).2.
Proof.
  intros I Hp Hw. destruct e; cbn [p_Handle].
  - by apply handled_add.
  - by apply handled_close.
  - by apply handled_trigger.
  - by apply handled_release.
  - by apply handled_info.
  - by apply handled_shutdown.
Qed.

End pool_effects.
