(* ===== verification/PoolProps.v ===== *)
(** * Delivery of triggers by the scheduler

    Invariants of the system of [PoolSystem] and their consequences: no trigger
    is lost or answered twice, limits hold, the shares of the schedulers add up. *)

From S2P Require Import Prelude GoLib Rendezvous PoolStore PoolConnections PoolGates PoolStream PoolSystem PoolEffects.
#[local] Open Scope dapr_scope.

Section pool_props.
Context {X : XXHash}.
Variable fails : N → N → bool.
Variable between : N → N → list received.
Variable rest : N → list received.
Variable job_ok : JobEvent → Prop.

Notation sys_step := (sys_step fails between rest).
Notation apply_out := (apply_out fails between rest).

(** What the environment may enqueue: releases come from resolved triggers only,
    and a trigger arrives with the function of the cron engine. *)
Definition env_ok (a : action) : Prop :=
  match a with
  | AEnqueue (PConcurrencyRelease _) => False
  | AEnqueue (PTriggerRequest req) => fresh_request job_ok req
  | _ => True
  end.

(** Each trigger counts one. *)
Definition one : valuation := mkValuation (λ _, 1) (λ _, 0).

(** Lists of gates with a gate twice. *)
Definition twice : valuation := mkValuation (λ _, 0) (λ ks, if decide (NoDup ks) then 0 else 1).

Definition queued (v : valuation) (s : system) : nat := sum_list_with (qval v) (sy_queue s).

Definition fresh_event (e : EventConn) : Prop := match e with PTriggerRequest req => fresh_request job_ok req | _ => True end.

Record sys_inv (n : nat) (s : system) : Prop := {
  si_conns : conns_inv job_ok (sy_conns s);
  si_queue : Forall fresh_event (sy_queue s);
  si_open : dom (sy_loops s) = dom (p_streams (sy_conns s));
  si_num : streams_numbered s;
  si_twice : outside twice s = 0;
  si_idx : (p_streamIDx (sy_conns s) ≤ N.of_nat n)%N;
  si_count : msum numbers (sy_loops s) + pend one (sy_conns s) + queued one s ≤ n;
  si_panic : sy_panicked s = false
}.

(** Without a gate list that counts, dispatching creates no value. *)
Lemma grants_zero v os :
  (∀ idx req ks, PEnqueue idx req ∈ os → tr_release req = Some ks → vb v ks = 0) → grants v os = 0.
Proof.
  induction os as [|o os IH]; intros H; [done|]. unfold grants in *. cbn [sum_list_with]. rewrite IH by (intros ???? ; eapply H; by right).
  destruct o as [| |idx req| | | | | |]; cbn [grant]; try done. destruct (tr_release req) as [ks|] eqn:Hks; [|done]. cbn.
  rewrite (H idx req ks); [done|left|done].
Qed.

Lemma enqs_le_ovals os : sum_list_with enq os ≤ ovals one os.
Proof.
  induction os as [|o os IH]; [done|]. unfold ovals in *. cbn [sum_list_with].
  assert (enq o ≤ oval one o) by (destruct o; cbn; lia). lia.
Qed.

Lemma queued_grows s s' : grows s s' → queued one s' = queued one s.
Proof.
  intros (l & E & F). unfold queued. rewrite E, sum_list_with_app.
  enough (sum_list_with (qval one) l = 0) by lia. clear E. induction F as [|e l He _ IH]; [done|]. cbn. rewrite IH. by destruct e.
Qed.

Lemma fresh_grows s s' : grows s s' → Forall fresh_event (sy_queue s) → Forall fresh_event (sy_queue s').
Proof.
  intros (l & -> & F) H. apply Forall_app. split; [done|]. eapply list.Forall_impl; [exact F|]. by intros [].
Qed.

Lemma outside_release v s ks : PConcurrencyRelease ks ∈ sy_queue s → vb v ks ≤ outside v s.
Proof.
  intros Hin. assert (H : vb v ks ≤ sum_list_with (qval v) (sy_queue s)).
  { induction (sy_queue s) as [|e q IH]; [by apply elem_of_nil in Hin|]. cbn.
    apply elem_of_cons in Hin as [<-|Hin]; [cbn; lia|]. specialize (IH Hin). lia. }
  unfold outside. lia.
Qed.

Lemma sys_inv_New placement : sys_inv 0 (sys_New placement).
Proof.
  split; try done.
  - split.
    + exists []. split_and!; [constructor|split; intros n; cbn; by rewrite lookup_empty|]. intros i o. cbn. rewrite lookup_empty.
      split; [done|]. by intros [?%elem_of_nil _].
    + intros k g Hg. cbn in Hg. by rewrite lookup_empty in Hg.
    + intros i [o Ho]. cbn in Ho. by rewrite lookup_empty in Ho.
    + intros k. cbn. rewrite lookup_empty, elem_of_referenced. split; [by intros []|]. intros (i & ks & Hi & _). cbn in Hi. by rewrite lookup_empty in Hi.
    + intros k g Hg. cbn in Hg. by rewrite lookup_empty in Hg.
Qed.

Lemma pend_zero v c : (∀ id, va v id = 0) → unreleased job_ok c → pend v c = 0.
Proof.
  intros Hv Hu. apply msum_zero. intros k g Hg. specialize (Hu k g Hg). induction Hu as [|r l Hr _ IH]; [done|].
  unfold vals in *. cbn [sum_list_with]. rewrite IH, (val_fresh job_ok v r Hr), Hv. done.
Qed.

(** ** Handling an event *)

Section handle.
Context (n : nat) (s : system) (e : EventConn) (q : list EventConn).
Hypothesis Hn : (N.of_nat n + 1 < two64)%N.
Hypothesis I : sys_inv n s.
Hypothesis Hq : sy_queue s = e :: q.

Let c' := (p_Handle e (sy_conns s)).1.
Let os := (p_Handle e (sy_conns s)).2.
Let s1 := set_conns c' (set_queue q s).

Lemma event_proper : proper_event job_ok e.
Proof.
  pose proof (si_queue _ _ I) as Hf. rewrite Hq in Hf. apply list.Forall_cons in Hf as [He _].
  destruct e; try done. cbn. pose proof (outside_release twice s GateKeys) as H. rewrite Hq, (si_twice _ _ I) in H.
  specialize (H ltac:(left)). cbn in H. case_decide; [done|lia].
Qed.

Lemma event_handled : handled job_ok (sy_conns s) e c' os.
Proof.
  apply handled_event; [apply (si_conns _ _ I)|apply event_proper|]. pose proof (si_idx _ _ I). lia.
Qed.

Lemma outside_popped v : outside v s1 + qval v e = outside v s.
Proof. unfold outside, s1. cbn [set_conns set_queue sy_loops sy_queue sy_answers]. rewrite Hq. cbn [sum_list_with]. lia. Qed.

(** Valuations of gates only: what is dispatched is what is granted. *)
Lemma ovals_grants v : (∀ id, va v id = 0) → ovals v os = grants v os.
Proof.
  intros Hv. pose proof (h_val _ _ _ _ _ event_handled v) as H. pose proof event_proper as Hpr.
  rewrite (pend_zero v (sy_conns s)), (pend_zero v c') in H; [|done|apply (h_inv _ _ _ _ _ event_handled)|done|apply (si_conns _ _ I)].
  enough (taken v e = 0) by lia. clear H. destruct e; try done. cbn [taken]. by rewrite (val_fresh job_ok), Hv.
Qed.

Lemma taken_one : taken one e ≤ qval one e.
Proof. destruct e; cbn; lia. Qed.

Lemma event_room : (N.of_nat (msum numbers (sy_loops s1) + sum_list_with enq os) < two64)%N.
Proof.
  pose proof (si_count _ _ I) as Hc. pose proof (enqs_le_ovals os) as He. pose proof (h_val _ _ _ _ _ event_handled one) as Hv.
  rewrite (grants_zero one os) in Hv by done. unfold queued in Hc. rewrite Hq in Hc. cbn [sum_list_with] in Hc.
  pose proof taken_one. change (sy_loops s1) with (sy_loops s). lia.
Qed.

Lemma event_applied v :
  let s' := foldl apply_out s1 os in
  outside v s' = outside v s1 + ovals v os ∧ streams_numbered s' ∧ dom (sy_loops s') = dom (p_streams c') ∧
  msum numbers (sy_loops s') ≤ msum numbers (sy_loops s) + sum_list_with enq os ∧
  sy_conns s' = c' ∧ sy_panicked s' = false.
Proof.
  cbv zeta. destruct (apply_outs_effect fails between rest v os s1) as (E1 & E2 & E3 & E4 & E5 & E6).
  - apply (si_num _ _ I).
  - change (sy_loops s1) with (sy_loops s). rewrite (si_open _ _ I). apply (h_outs _ _ _ _ _ event_handled).
  - apply event_room.
  - split_and!; [done|done| |done|done|].
    + rewrite E3. change (sy_loops s1) with (sy_loops s). rewrite (si_open _ _ I). symmetry. apply (h_open _ _ _ _ _ event_handled).
    + rewrite E6. apply (si_panic _ _ I).
Qed.

Lemma handle_inv : sys_inv (S n) (foldl apply_out s1 os).
Proof.
  pose proof event_handled as H. destruct (event_applied twice) as (E1 & E2 & E3 & E4 & E5 & E6).
  assert (Hg : grows s1 (foldl apply_out s1 os)) by (apply grows_foldl; intros; apply grows_out).
  pose proof (si_queue _ _ I) as Hf. rewrite Hq in Hf. apply list.Forall_cons in Hf as [_ Hf].
  split; rewrite ?E5; try done.
  - apply (h_inv _ _ _ _ _ H).
  - by eapply fresh_grows.
  - rewrite E1. pose proof (outside_popped twice) as Hp. rewrite (si_twice _ _ I) in Hp.
    rewrite (ovals_grants twice) by done. rewrite grants_zero; [lia|]. intros idx req ks Hin Hks.
    destruct (h_keys _ _ _ _ _ H _ _ _ Hin Hks) as (r & _ & ->). cbn. by rewrite decide_True by apply gateKeys_NoDup.
  - pose proof (h_idx _ _ _ _ _ H). pose proof (si_idx _ _ I). lia.
  - rewrite (queued_grows _ _ Hg). pose proof (enqs_le_ovals os) as He. pose proof (h_val _ _ _ _ _ H one) as Hv.
    rewrite (grants_zero one os) in Hv by done. pose proof (si_count _ _ I) as Hc. unfold queued in Hc |- *. rewrite Hq in Hc. cbn [sum_list_with] in Hc.
    pose proof taken_one. change (sy_queue s1) with q. lia.
Qed.

End handle.

(** ** Streams *)

(** A stream at work: nothing but its own triggers moves. *)
Lemma stream_work n s i st q st' q' os :
  sys_inv n s → sy_loops s !! i = Some (st, q) → numbered st' → numbers (st', q') = numbers (st, q) →
  (∀ v, stval v (st', q') + sovals v os = stval v (st, q)) →
  let s' := foldl apply_stream_output (set_loops (<[i := (st', q')]> (sy_loops s)) s) os in
  sys_inv n s' ∧ sy_conns s' = sy_conns s ∧ ∀ v, outside v s' = outside v s.
Proof.
  intros I Hi Hnum Hn Hv s'. set (s1 := set_loops _ s) in s'.
  assert (Hout : ∀ v, outside v s' = outside v s).
  { intros v. destruct (outside_stream_outputs v os s1) as (E & _). unfold s'. rewrite E. unfold outside. cbn [s1 set_loops sy_loops sy_queue sy_answers].
    pose proof (msum_insert (stval v) (sy_loops s) i _ (st', q') Hi) as M. specialize (Hv v). lia. }
  destruct (outside_stream_outputs one os s1) as (_ & E1 & E2 & _ & E4). fold s' in E1, E2, E4.
  assert (Hg : grows s1 s') by (apply grows_foldl; intros; apply grows_stream_output).
  split_and!; [|done|done]. split; rewrite ?E2; try apply I.
  - eapply fresh_grows; [exact Hg|]. apply (si_queue _ _ I).
  - rewrite E1. cbn [s1 set_loops sy_loops sy_conns]. rewrite dom_insert_lookup_L by eauto. apply (si_open _ _ I).
  - intros j x Hx. rewrite E1 in Hx. cbn [s1 set_loops sy_loops] in Hx. apply lookup_insert_Some in Hx as [[_ <-]|[_ Hx]]; [done|].
    by eapply (si_num _ _ I).
  - rewrite Hout. apply (si_twice _ _ I).
  - rewrite (queued_grows _ _ Hg), E1. change (queued one s1) with (queued one s). cbn [s1 set_loops sy_loops sy_conns].
    pose proof (msum_insert numbers (sy_loops s) i _ (st', q') Hi) as M. pose proof (si_count _ _ I). lia.
  - rewrite E4. apply (si_panic _ _ I).
Qed.

Lemma stream_room n s i st q :
  sys_inv n s → (N.of_nat n + 1 < two64)%N → sy_loops s !! i = Some (st, q) →
  numbered st ∧ (triggerIDx st + N.of_nat (length q) < two64)%N.
Proof.
  intros I Hn Hi. split; [apply (si_num _ _ I _ _ Hi)|]. pose proof (msum_lookup numbers _ _ _ Hi) as Hm.
  pose proof (si_count _ _ I). unfold numbers in Hm at 1. cbn [fst snd] in Hm. lia.
Qed.

Lemma sys_inv_mono n s : sys_inv n s → sys_inv (S n) s.
Proof. intros [? ? ? ? ? Hi Hc ?]. split; try done; lia. Qed.

(** What a step does outside the handling of an event. *)
Lemma step_stream n s a :
  sys_inv n s → (N.of_nat n + 1 < two64)%N →
  match a with AStream _ | ARecv _ _ => True | _ => False end →
  sys_inv n (sys_step s a) ∧ sy_conns (sys_step s a) = sy_conns s ∧ ∀ v, outside v (sys_step s a) = outside v s.
Proof.
  intros I Hn Ha. destruct a as [| |i|i r]; try done; cbn [sys_step].
  - destruct (sy_loops s !! i) as [[st [|req q]]|] eqn:Hi; try done. destruct (stream_room n s i _ _ I Hn Hi) as [Hnum Hw].
    destruct (send_trigger fails between st req) as [st' os] eqn:Es. cbn [length] in Hw.
    apply (stream_work n s i st (req :: q) st' q os I Hi).
    + pose proof (send_trigger_val fails between one st req Hnum ltac:(lia)) as H. rewrite Es in H. apply H.
    + pose proof (send_trigger_val fails between one st req Hnum ltac:(lia)) as H. rewrite Es in H. destruct H as (_ & _ & H & _).
      unfold numbers. cbn [fst snd length]. lia.
    + intros v. pose proof (send_trigger_val fails between v st req Hnum ltac:(lia)) as H. rewrite Es in H. destruct H as (H & _).
      unfold stval, vals in *. cbn [fst snd sum_list_with]. lia.
  - destruct (sy_loops s !! i) as [[st q]|] eqn:Hi; [|done]. destruct (stream_room n s i _ _ I Hn Hi) as [Hnum Hw].
    destruct (ps_recvLoop [r] st) as [st' os] eqn:Es.
    assert (Hs : ∀ v, msum (val v) (inflight st') + sovals v os = msum (val v) (inflight st) ∧ triggerIDx st' = triggerIDx st ∧
      inflight st' ⊆ inflight st).
    { intros v. pose proof (settles_recvLoop v [r] st) as H. rewrite Es in H. destruct H as (? & ? & _ & ?). done. }
    destruct (Hs one) as (_ & Ht & Hsub). apply (stream_work n s i st q st' q os I Hi).
    + intros k [x Hk]. rewrite Ht. apply Hnum. exists x. by eapply lookup_weaken.
    + unfold numbers. cbn [fst snd]. by rewrite Ht.
    + intros v. destruct (Hs v) as (H & _). unfold stval. cbn [fst snd]. lia.
Qed.

Lemma enqueue_inv n s e : sys_inv n s → env_ok (AEnqueue e) → sys_inv (S n) (sys_step s (AEnqueue e)).
Proof.
  intros I He. pose proof I as [Ic Iq Io In It Ii Ico Ip]. split; try done; cbn [sys_step set_queue sy_queue sy_conns sy_loops].
  - apply Forall_app. split; [done|]. repeat constructor. by destruct e.
  - unfold outside in *. cbn [set_queue sy_queue sy_loops sy_answers]. rewrite sum_list_with_app. cbn [sum_list_with].
    enough (qval twice e = 0) by lia. destruct e; try done. cbn. unfold val. cbn. cbn in He. by rewrite (proj1 He).
  - lia.
  - unfold queued in *. cbn [set_queue sy_queue]. rewrite sum_list_with_app. cbn [sum_list_with].
    assert (qval one e ≤ 1); [|lia]. destruct e; cbn; try lia. unfold val. cbn. cbn in He. rewrite (proj1 He). done.
Qed.

Lemma handle_eq s e q :
  sy_failed s = false → sy_queue s = e :: q →
  sys_step s AHandle = foldl apply_out (set_conns (p_Handle e (sy_conns s)).1 (set_queue q s)) (p_Handle e (sy_conns s)).2.
Proof. intros Hf Hq. cbn [sys_step]. rewrite Hf, Hq. by destruct (p_Handle e (sy_conns s)). Qed.

Lemma sys_inv_step n s a :
  sys_inv n s → env_ok a → (N.of_nat n + 1 < two64)%N → sys_inv (S n) (sys_step s a).
Proof.
  intros I Ha Hn. destruct a as [e| |i|i r].
  - by apply enqueue_inv.
  - destruct (sy_failed s) eqn:Hf; [cbn [sys_step]; rewrite Hf; by apply sys_inv_mono|].
    destruct (sy_queue s) as [|e q] eqn:Hq; [cbn [sys_step]; rewrite Hf, Hq; by apply sys_inv_mono|].
    rewrite (handle_eq s e q Hf Hq). by apply handle_inv.
  - apply sys_inv_mono. by apply step_stream.
  - apply sys_inv_mono. by apply step_stream.
Qed.

Lemma run_inv placement acts :
  Forall env_ok acts → (N.of_nat (length acts) < two64)%N → sys_inv (length acts) (sys_run fails between rest placement acts).
Proof.
  induction acts as [|a acts IH] using rev_ind; intros He Hn; [apply sys_inv_New|].
  apply Forall_app in He as [He Ha]. apply list.Forall_cons in Ha as [Ha _]. rewrite length_app in Hn |- *. cbn [length] in *.
  unfold sys_run. rewrite foldl_app. cbn [foldl]. rewrite Nat.add_1_r. apply sys_inv_step; [apply IH; [done|lia]|done|lia].
Qed.

(** ** Triggers *)

Definition entered (v : valuation) (a : action) : nat := match a with AEnqueue e => qval v e | _ => 0 end.

(** A valuation of triggers only is neither created nor lost. *)
Lemma step_total v n s a :
  (∀ ks, vb v ks = 0) → sys_inv n s → env_ok a → (N.of_nat n + 1 < two64)%N →
  pend v (sy_conns (sys_step s a)) + outside v (sys_step s a) = pend v (sy_conns s) + outside v s + entered v a.
Proof.
  intros Hv I Ha Hn. destruct a as [e| |i|i r]; cbn [entered].
  - cbn [sys_step set_queue sy_conns]. unfold outside. cbn [set_queue sy_queue sy_loops sy_answers]. rewrite sum_list_with_app. cbn [sum_list_with]. lia.
  - destruct (sy_failed s) eqn:Hf; [cbn [sys_step]; rewrite Hf; lia|].
    destruct (sy_queue s) as [|e q] eqn:Hq; [cbn [sys_step]; rewrite Hf, Hq; lia|].
    rewrite (handle_eq s e q Hf Hq). destruct (event_applied n s e q Hn I Hq v) as (-> & _ & _ & _ & -> & _).
    pose proof (h_val _ _ _ _ _ (event_handled n s e q Hn I Hq) v) as H. rewrite (grants_zero v) in H by (intros; apply Hv).
    pose proof (outside_popped n s e q Hn Hq v) as Hp. assert (Ht : taken v e = qval v e) by (destruct e; cbn; rewrite ?Hv; done). lia.
  - destruct (step_stream n s (AStream i) I Hn Logic.I) as (_ & -> & ->). lia.
  - destruct (step_stream n s (ARecv i r) I Hn Logic.I) as (_ & -> & ->). lia.
Qed.

Lemma run_total v placement acts :
  (∀ ks, vb v ks = 0) → Forall env_ok acts → (N.of_nat (length acts) < two64)%N →
  let s := sys_run fails between rest placement acts in
  pend v (sy_conns s) + outside v s = sum_list_with (entered v) acts.
Proof.
  intros Hv. induction acts as [|a acts IH] using rev_ind; intros He Hn; cbv zeta.
  - cbn. unfold pend, outside. cbn. by rewrite !msum_empty.
  - apply Forall_app in He as [He Ha]. apply list.Forall_cons in Ha as [Ha _]. rewrite length_app in Hn. cbn [length] in Hn.
    unfold sys_run. rewrite foldl_app. cbn [foldl]. rewrite sum_list_with_app. cbn [sum_list_with].
    fold (sys_run fails between rest placement acts). rewrite (step_total v (length acts)); [|done|apply run_inv; [done|lia]|done|lia].
    rewrite IH by (done || lia). lia.
Qed.

(** ** Gates *)

(** The triggers dispatched through a gate and not yet given back. *)
Definition holding (k : string) (s : system) : nat := outside (hold k) s.

Lemma step_holding n s a k :
  sys_inv n s → env_ok a → (N.of_nat n + 1 < two64)%N → cur k (sy_conns s) ≤ holding k s →
  let s' := sys_step s a in
  cur k (sy_conns s') ≤ holding k s' ∧
  (is_Some (concurrencyGates (sy_conns s) !! k) → is_Some (concurrencyGates (sy_conns s') !! k) →
     cur k (sy_conns s) = holding k s → cur k (sy_conns s') = holding k s') ∧
  (concurrencyGates (sy_conns s) !! k = None → holding k s' ≤ holding k s) ∧
  ∀ g, concurrencyGates (sy_conns s') !! k = Some g → cur k (sy_conns s') ≤ cur k (sy_conns s) ∨ (current g ≤ limit_of (sy_conns s') g)%N.
Proof.
  intros I Ha Hn Hc. destruct a as [e| |i|i r]; cbv zeta.
  - cbn [sys_step set_queue sy_conns]. assert (E : holding k (set_queue (sy_queue s ++ [e]) s) = holding k s).
    { unfold holding, outside. cbn [set_queue sy_queue sy_loops sy_answers]. rewrite sum_list_with_app. cbn [sum_list_with].
      enough (qval (hold k) e = 0) by lia. destruct e; try done. cbn [qval]. by rewrite (val_fresh job_ok). }
    rewrite E. split_and!; [done|done|done|by left].
  - destruct (sy_failed s) eqn:Hf; [cbn [sys_step]; rewrite Hf; split_and!; [done|done|done|by left]|].
    destruct (sy_queue s) as [|e q] eqn:Hq; [cbn [sys_step]; rewrite Hf, Hq; split_and!; [done|done|done|by left]|].
    rewrite (handle_eq s e q Hf Hq). pose proof (event_handled n s e q Hn I Hq) as H.
    destruct (event_applied n s e q Hn I Hq (hold k)) as (E & _ & _ & _ & -> & _).
    rewrite (ovals_grants n s e q Hn I Hq (hold k)) in E by done. pose proof (outside_popped n s e q Hn Hq (hold k)) as Hp.
    set (s1 := set_conns _ _) in *. set (s' := foldl apply_out _ _) in *. fold (holding k s') in E. fold (holding k s) in Hp.
    assert (Hg : given k e = qval (hold k) e).
    { pose proof (event_proper n s e q Hn I Hq) as Hpr. destruct e; try done. cbn [given qval]. by rewrite (val_fresh job_ok). }
    split_and!.
    + pose proof (h_cur _ _ _ _ _ H k). lia.
    + intros H1 H2 Heq. pose proof (h_cur_eq _ _ _ _ _ H k H1 H2). lia.
    + intros Hno. rewrite E, grants_zero; [lia|].
      intros idx req ks Hin Hks. destruct (h_keys _ _ _ _ _ H _ _ _ Hin Hks) as (r & _ & ->). cbn. rewrite decide_False; [done|].
      intros [x Hx]%gateKeys_present. congruence.
    + apply (h_limit _ _ _ _ _ H).
  - destruct (step_stream n s (AStream i) I Hn Logic.I) as (_ & -> & E). unfold holding. rewrite E. split_and!; [done|done|done|by left].
  - destruct (step_stream n s (ARecv i r) I Hn Logic.I) as (_ & -> & E). unfold holding. rewrite E. split_and!; [done|done|done|by left].
Qed.

Lemma run_holding placement acts k :
  Forall env_ok acts → (N.of_nat (length acts) < two64)%N →
  let s := sys_run fails between rest placement acts in cur k (sy_conns s) ≤ holding k s.
Proof.
  induction acts as [|a acts IH] using rev_ind; intros He Hn; cbv zeta; [apply Nat.le_0_l|].
  apply Forall_app in He as [He Ha]. apply list.Forall_cons in Ha as [Ha _]. rewrite length_app in Hn. cbn [length] in Hn.
  unfold sys_run. rewrite foldl_app. cbn [foldl]. apply (step_holding (length acts)); [apply run_inv; [done|lia]|done|lia|].
  apply IH; [done|lia].
Qed.

End pool_props.
