(* ===== verification/PoolDelivery.v ===== *)
(** * Properties of trigger delivery

    The theorems on the scheduler's connections loop with its streams, with the
    executions that witness them. *)

From S2P Require Import Prelude GoLib Rendezvous PoolStore PoolConnections PoolGates PoolStream PoolSystem PoolEffects PoolProps.
#[local] Open Scope dapr_scope.

(** ** Triggers *)

(** How often a trigger occurs among requests. *)
Definition is_id (id : N) (req : TriggerRequest) : nat := if decide (tr_id req = id) then 1 else 0.

Definition occ (id : N) (reqs : list TriggerRequest) : nat := sum_list_with (is_id id) reqs.

(** Where it is: in the queue of the loop, in the queue of a gate, at a stream, or answered. *)
Definition in_queue (id : N) (q : list EventConn) : nat :=
  sum_list_with (λ e, match e with PTriggerRequest req => is_id id req | _ => 0 end) q.

Definition at_gates {X : XXHash} (id : N) (c : connections) : nat := msum (λ g, occ id (pending g)) (concurrencyGates c).

Definition at_streams (id : N) (loops : gmap N (stream * list TriggerRequest)) : nat :=
  msum (λ x, msum (is_id id) (inflight x.1) + occ id x.2) loops.

Definition answered (id : N) (answers : list (N * TriggerResponseResult)) : nat :=
  sum_list_with (λ a, if decide (a.1 = id) then 1 else 0) answers.

Definition submitted (id : N) (acts : list action) : nat :=
  sum_list_with (λ a, match a with AEnqueue (PTriggerRequest req) => is_id id req | _ => 0 end) acts.

Definition any_job (_ : JobEvent) : Prop := True.

Definition of_id (id : N) : valuation := mkValuation (λ i, if decide (i = id) then 1 else 0) (λ _, 0).

Lemma val_of_id id req : val (of_id id) req = is_id id req.
Proof. unfold val, is_id. destruct (tr_release req); cbn; lia. Qed.

Lemma sum_list_with_ext {A} (f g : A → nat) l : (∀ x, f x = g x) → sum_list_with f l = sum_list_with g l.
Proof. intros E. induction l as [|x l IH]; [done|]. cbn. by rewrite E, IH. Qed.

Lemma vals_of_id id reqs : vals (of_id id) reqs = occ id reqs.
Proof. apply sum_list_with_ext, val_of_id. Qed.

Lemma msum_fun_ext {K V} `{Countable K} (f g : V → nat) (m : gmap K V) : (∀ x, f x = g x) → msum f m = msum g m.
Proof. intros E. induction m as [|i x m Hi IH] using map_ind; [by rewrite !msum_empty|]. by rewrite !msum_insert_None, E, IH. Qed.

Section pool_delivery.
Context {X : XXHash}.
Variable fails : N → N → bool.
Variable between : N → N → list received.
Variable rest : N → list received.

Notation sys_run := (sys_run fails between rest).

(** C6: No trigger is lost and none is answered twice by the scheduler's connection pool.
    Over every interleaving of the connections loop of a namespace with its streams (streams
    opened and closed at any time, sends that fail, any messages received), each trigger
    handed to the loop is, as often as it was handed in, in exactly one place: in the loop's
    queue, in the queue of a gate, at a stream, or answered; and the loop does not panic. *)
Theorem pool_triggers_conserved placement acts id :
  Forall (env_ok any_job) acts → (N.of_nat (length acts) < two64)%N →
  let s := sys_run placement acts in
  in_queue id (sy_queue s) + at_gates id (sy_conns s) + at_streams id (sy_loops s) + answered id (sy_answers s) =
    submitted id acts ∧ sy_panicked s = false.
Proof.
  intros He Hn s. split; [|apply (si_panic _ _ _ (run_inv fails between rest any_job placement acts He Hn))].
  pose proof (run_total fails between rest any_job (of_id id) placement acts (λ _, eq_refl) He Hn) as H. cbv zeta in H. fold s in H.
  assert (E1 : pend (of_id id) (sy_conns s) = at_gates id (sy_conns s)) by (apply msum_fun_ext; intros; apply vals_of_id).
  assert (E2 : sum_list_with (qval (of_id id)) (sy_queue s) = in_queue id (sy_queue s)).
  { apply sum_list_with_ext. intros []; try done. apply val_of_id. }
  assert (E3 : msum (stval (of_id id)) (sy_loops s) = at_streams id (sy_loops s)).
  { apply msum_fun_ext. intros x. unfold stval. rewrite vals_of_id. f_equal. apply msum_fun_ext, val_of_id. }
  assert (E4 : sum_list_with (entered (of_id id)) acts = submitted id acts).
  { apply sum_list_with_ext. intros [[]| | |]; try done. apply val_of_id. }
  unfold outside in H. rewrite E1, E2, E3, E4 in H. unfold answered. cbn [of_id va] in H. lia.
Qed.

(** ** Limits *)

(** Along the run, whenever the gate [k] comes into being no trigger holds it. *)
Fixpoint clean_run (k : string) (s : system) (acts : list action) : Prop :=
  match acts with
  | [] => True
  | a :: acts' =>
      let s' := sys_step fails between rest s a in
      (concurrencyGates (sy_conns s) !! k = None → is_Some (concurrencyGates (sy_conns s') !! k) → holding k s = 0) ∧
      clean_run k s' acts'
  end.

Lemma clean_run_app k s acts1 acts2 :
  clean_run k s (acts1 ++ acts2) ↔ clean_run k s acts1 ∧ clean_run k (foldl (sys_step fails between rest) s acts1) acts2.
Proof. revert s. induction acts1 as [|a acts1 IH]; intros s; cbn; [tauto|]. rewrite IH. tauto. Qed.

Lemma clean_run_holding k placement acts :
  Forall (env_ok any_job) acts → (N.of_nat (length acts) < two64)%N → clean_run k (sys_New placement) acts →
  let s := sys_run placement acts in
  is_Some (concurrencyGates (sy_conns s) !! k) → cur k (sy_conns s) = holding k s.
Proof.
  induction acts as [|a acts IH] using rev_ind; intros He Hn Hc; cbv zeta; [intros [g Hg]; cbn in Hg; by rewrite lookup_empty in Hg|].
  apply Forall_app in He as [He Ha]. apply list.Forall_cons in Ha as [Ha _]. rewrite length_app in Hn. cbn [length] in Hn.
  apply clean_run_app in Hc as [Hc [Hnew _]]. unfold PoolSystem.sys_run. rewrite foldl_app. cbn [foldl]. intros Hg'.
  pose proof (run_inv fails between rest any_job placement acts He ltac:(lia)) as I.
  pose proof (run_holding fails between rest any_job placement acts k He ltac:(lia)) as Hle. cbv zeta in Hle.
  destruct (step_holding fails between rest any_job _ _ a k I Ha ltac:(lia) Hle) as (H1 & H2 & H3 & _).
  fold (sys_run placement acts) in *.
  destruct (concurrencyGates (sy_conns (sys_run placement acts)) !! k) as [g|] eqn:Hg.
  - apply H2; [by exists g|done|]. apply IH; [done|lia|done|by exists g].
  - specialize (H3 eq_refl). specialize (Hnew eq_refl Hg'). lia.
Qed.

(** C7: Concurrency limits hold on a scheduler. In every run in which a gate is never
    created while triggers still hold a former gate of that name, the counter of a gate is
    the number of triggers that hold it, and no step raises that number above the gate's
    share of the limit on this scheduler. *)
Theorem pool_limits_respected placement acts a k g :
  Forall (env_ok any_job) (acts ++ [a]) → (N.of_nat (length (acts ++ [a])) < two64)%N →
  clean_run k (sys_New placement) (acts ++ [a]) →
  let s := sys_run placement acts in
  let s' := sys_run placement (acts ++ [a]) in
  concurrencyGates (sy_conns s') !! k = Some g →
  holding k s' = N.to_nat (current g) ∧
  (holding k s' ≤ holding k s ∨ (N.of_nat (holding k s') ≤ limit_of (sy_conns s') g)%N).
Proof.
  intros He Hn Hc s s' Hg. pose proof (clean_run_holding k placement _ He Hn Hc) as E'. cbv zeta in E'. fold s' in E'.
  assert (Hcur : cur k (sy_conns s') = N.to_nat (current g)) by (unfold cur; by rewrite Hg).
  rewrite <-E', Hcur by eauto. split; [done|].
  apply Forall_app in He as [He Ha]. apply list.Forall_cons in Ha as [Ha _]. rewrite length_app in Hn. cbn [length] in Hn.
  apply clean_run_app in Hc as [Hc _]. pose proof (run_inv fails between rest any_job placement acts He ltac:(lia)) as I.
  pose proof (run_holding fails between rest any_job placement acts k He ltac:(lia)) as Hle. cbv zeta in Hle. fold s in I, Hle.
  destruct (step_holding fails between rest any_job _ _ a k I Ha ltac:(lia) Hle) as (_ & _ & _ & H).
  assert (Es : s' = sys_step fails between rest s a) by (unfold s', PoolSystem.sys_run; by rewrite foldl_app).
  rewrite <-Es in H. destruct (H g Hg) as [Hl|Hl]; [left; lia|right]. by rewrite N2Nat.id.
Qed.

End pool_delivery.

(** *** The shares of the schedulers *)

Lemma shares_sum b r m :
  sum_list_with (λ i, if i <? r then b + 1 else b) (seq 0 m) = m * b + m `min` r.
Proof.
  induction m as [|m IH]; [done|]. rewrite seq_S, sum_list_with_app, IH. cbn [sum_list_with].
  destruct (Nat.ltb_spec (0 + m) r); lia.
Qed.

(** The shares of a limit add up: over the schedulers of a cluster the local limits sum to
    the larger of the global limit and the number of schedulers, and every share is at least
    one and at most the limit. *)
Theorem cluster_shares_exact (limit count : N) :
  (0 < limit)%N → (0 < count)%N →
  sum_list_with (λ i, N.to_nat (localLimitFromGlobal limit count (N.of_nat i))) (seq 0 (N.to_nat count)) =
    N.to_nat (N.max limit count) ∧
  ∀ i, (0 < localLimitFromGlobal limit count i ≤ limit)%N.
Proof.
  intros Hl Hc. unfold localLimitFromGlobal. destruct (count <=? 1)%N eqn:E1.
  { apply N.leb_le in E1. assert (count = 1)%N as -> by lia. change (N.to_nat 1) with 1. cbn [seq sum_list_with]. split; [lia|]. intros _. lia. }
  apply N.leb_gt in E1. pose proof (N.div_mod limit count ltac:(lia)) as Hdm. pose proof (N.mod_lt limit count ltac:(lia)) as Hmod.
  generalize dependent (limit / count)%N. generalize dependent (limit mod count)%N. intros r Hr b Hdm.
  destruct (b <? 1)%N eqn:E2.
  - apply N.ltb_lt in E2. assert (b = 0)%N as -> by lia. assert (limit = r)%N as -> by lia. split.
    + rewrite (sum_list_with_ext _ (λ i, if i <? 0 then 1 + 1 else 1)) by done. rewrite shares_sum. lia.
    + intros _. lia.
  - apply N.ltb_ge in E2. split.
    + rewrite (sum_list_with_ext _ (λ i, if i <? N.to_nat r then N.to_nat b + 1 else N.to_nat b)).
      * rewrite shares_sum. nia.
      * intros i. destruct (N.ltb_spec (N.of_nat i) r), (Nat.ltb_spec i (N.to_nat r)); lia.
    + intros i. destruct (N.ltb_spec i r); nia.
Qed.

(** ** Concrete runs *)

#[local] Existing Instance poly_hash.

Definition demo_request (addr : string) (limits : list ConcurrencyLimit) : WatchJobsRequestInitial :=
  mkInitial "app" "ns" ["t"] [] limits (Some addr) false [].

Definition demo_job (ck : option string) : JobEvent :=
  mkJobEvent "key" "reminder" "data" (mkJobMetadata "app" "ns" (TargetActor "t" "a") ck).

Definition demo_trigger (id : N) (ck : option string) : EventConn := PTriggerRequest (mkTriggerRequest id (demo_job ck) None).

Definition type_limit (n : Z) : ConcurrencyLimit := mkConcurrencyLimit n None (Some "t").
Definition named_limit (n : Z) : ConcurrencyLimit := mkConcurrencyLimit n (Some "x") (Some "t").

Definition no_failure (_ _ : N) : bool := false.
Definition no_messages (_ _ : N) : list received := [].
Definition no_rest (_ : N) : list received := [].

Notation demo_sys := (sys_run no_failure no_messages no_rest false).

(** Two triggers for a type with limit one; the first is answered, its gate goes
    to the second. *)
Definition demo_acts : list action :=
  [AEnqueue (PConnAdd (demo_request "10.0.0.1:1" [type_limit 1]) true); AHandle;
   AEnqueue (demo_trigger 1 None); AEnqueue (demo_trigger 2 None); AHandle; AHandle;
   AStream 0; ARecv 0 (RecvResult 1 (Some Status_SUCCESS))].

Definition summary (s : system) :=
  (sy_answers s, (λ g, (current g, tr_id <$> pending g)) <$> concurrencyGates (sy_conns s) !! "t",
   holding "t" s, length (sy_queue s)).

Example demo_summary :
  summary (demo_sys demo_acts) = ([(1%N, SUCCESS)], Some (1%N, [2%N]), 1, 1) ∧
  summary (demo_sys (demo_acts ++ [AHandle])) = ([(1%N, SUCCESS)], Some (1%N, []), 1, 0).
Proof. split; vm_compute; reflexivity. Qed.

Ltac env_cases := repeat (apply list.Forall_cons; split); try done; try (split; done); try apply Forall_nil_2.

Ltac clean_cases := repeat match goal with |- _ ∧ _ => refine (conj _ _) | |- True => exact I end; intros Hnone _;
  solve [vm_compute; reflexivity|exfalso; revert Hnone; vm_compute; discriminate].

Lemma demo_env : Forall (env_ok any_job) (demo_acts ++ [AHandle]).
Proof. unfold demo_acts. cbn [app]. env_cases. Qed.

Lemma demo_clean : clean_run no_failure no_messages no_rest "t" (sys_New false) (demo_acts ++ [AHandle]).
Proof. unfold demo_acts. cbn [app clean_run]. clean_cases. Qed.

Lemma pool_triggers_conserved_witness :
  let s := demo_sys demo_acts in
  in_queue 2 (sy_queue s) + at_gates 2 (sy_conns s) + at_streams 2 (sy_loops s) + answered 2 (sy_answers s) = 1 ∧
  sy_panicked s = false.
Proof.
  apply (pool_triggers_conserved no_failure no_messages no_rest false demo_acts 2).
  - unfold demo_acts. env_cases.
  - vm_compute. reflexivity.
Defined.

Lemma pool_limits_respected_witness :
  ∃ g, concurrencyGates (sy_conns (demo_sys (demo_acts ++ [AHandle]))) !! "t" = Some g ∧
  holding "t" (demo_sys (demo_acts ++ [AHandle])) = N.to_nat (current g) ∧
  (holding "t" (demo_sys (demo_acts ++ [AHandle])) ≤ holding "t" (demo_sys demo_acts) ∨
   (N.of_nat (holding "t" (demo_sys (demo_acts ++ [AHandle]))) ≤ limit_of (sy_conns (demo_sys (demo_acts ++ [AHandle]))) g)%N).
Proof.
  assert (Hg : is_Some (concurrencyGates (sy_conns (demo_sys (demo_acts ++ [AHandle]))) !! "t")) by (vm_compute; eauto).
  destruct Hg as [g Hg]. exists g. split; [exact Hg|].
  apply (pool_limits_respected no_failure no_messages no_rest false demo_acts AHandle "t" g); [exact demo_env|reflexivity|exact demo_clean|exact Hg].
Defined.

Lemma cluster_shares_exact_witness :
  sum_list_with (λ i, N.to_nat (localLimitFromGlobal 7 3 (N.of_nat i))) (seq 0 3) = 7 ∧
  ∀ i, (0 < localLimitFromGlobal 7 3 i ≤ 7)%N.
Proof. apply (cluster_shares_exact 7 3); lia. Defined.

(** *** Limits are exceeded by a release that outlives its gate *)

(** The sidecar reconnects while its trigger is in flight: the gate is removed
    and created anew, and the release of the old trigger is handled only then. *)
Definition reconnect_acts : list action :=
  [AEnqueue (PConnAdd (demo_request "10.0.0.1:1" [type_limit 1]) true); AHandle;
   AEnqueue (demo_trigger 1 None); AHandle; AStream 0;
   AEnqueue (PConnCloseStream 0 "ns"); AEnqueue (PConnAdd (demo_request "10.0.0.1:1" [type_limit 1]) true);
   AEnqueue (demo_trigger 2 None); AEnqueue (demo_trigger 3 None);
   AHandle; AHandle; AHandle; AHandle; AHandle; AStream 1; AStream 1].

(** A limit exceeded (a departure from the comment on concurrencyGate). In a run in which a
    sidecar with a limit of one reconnects while its trigger is in flight, the release of
    that trigger frees the slot of the new gate: two triggers are in flight at the stream
    while the gate with limit one counts one. *)
Theorem stale_release_exceeds_limit :
  Forall (env_ok any_job) reconnect_acts ∧
  let s := demo_sys reconnect_acts in
  (λ g, (limit_of (sy_conns s) g, current g)) <$> concurrencyGates (sy_conns s) !! "t" = Some (1, 1)%N ∧
  sy_queue s = [] ∧ sy_answers s = [(1%N, UNDELIVERABLE)] ∧
  at_streams 2 (sy_loops s) = 1 ∧ at_streams 3 (sy_loops s) = 1 ∧ holding "t" s = 2.
Proof.
  split; [unfold reconnect_acts; env_cases|]. cbv zeta. repeat split; vm_compute; reflexivity.
Qed.

(** *** A trigger waits in a queue nothing drains *)

(** A sidecar reports a limit for [t:x] only, a second one for [t] as well: the
    trigger that waits for [t:x] is in the queue of [t], and the release of [t:x]
    drains the queue of [t:x]. *)
Definition stranded_acts : list action :=
  [AEnqueue (PConnAdd (demo_request "10.0.0.1:1" [named_limit 1]) true); AHandle;
   AEnqueue (demo_trigger 1 (Some "x")); AHandle; AStream 0;
   AEnqueue (PConnAdd (demo_request "10.0.0.2:1" [type_limit 1; named_limit 1]) true); AHandle;
   AEnqueue (demo_trigger 2 (Some "x")); AHandle;
   ARecv 0 (RecvResult 1 (Some Status_SUCCESS)); AHandle].

(** A stranded trigger (a departure from the comment on handleConcurrencyRelease). In a run
    in which the gate of an actor type is created while a trigger holds only the named gate,
    a second trigger ends up in the queue of the type's gate with both of its gates free and
    no release outstanding that would drain the queue. *)
Theorem named_limit_strands_trigger :
  Forall (env_ok any_job) stranded_acts ∧
  let s := demo_sys stranded_acts in
  (λ g, (current g, tr_id <$> pending g)) <$> concurrencyGates (sy_conns s) !! "t" = Some (0, [2])%N ∧
  (λ g, (current g, length (pending g))) <$> concurrencyGates (sy_conns s) !! "t:x" = Some (0%N, 0) ∧
  sy_queue s = [] ∧ sy_answers s = [(1%N, SUCCESS)] ∧ holding "t" s = 0 ∧ holding "t:x" s = 0.
Proof.
  split; [unfold stranded_acts; env_cases|]. cbv zeta. repeat split; vm_compute; reflexivity.
Qed.
