(* ===== verification/PoolNamespaces.v ===== *)
(** * The scheduler's connection pool: the namespaces loop
      (pkg/scheduler/server/internal/pool/loops/namespaces/namespaces.go)

    One connections loop per namespace with connected sidecars.  The loop counts
    the connections of a namespace, but a namespace is deleted only when its
    connections loop confirms that it has no stream left.  The second half of
    the file composes the router with the connections loops and the close
    events of the streams, and proves that the two agree. *)

From S2P Require Import Prelude GoLib Rendezvous PoolStore PoolConnections PoolGates.
#[local] Open Scope dapr_scope.

(** ** The router *)

(** [order ns] is the order in which the connections loop of [ns] will iterate
    over its gates when it applies the update. *)
Inductive EventNS :=
  | NConnAdd (Request : WatchJobsRequestInitial) (deliverable : bool)
  | NConnCloseStream (StreamIDx : N) (Namespace : string)
  | NConnCloseNamespace (Namespace : string)
  | NTriggerRequest (req : TriggerRequest)
  | NSchedulerInfoUpdate (Count Idx : Z) (order : string → list string)
  | NShutdown.

Inductive pn_output :=
  | PnNew (ns : string)
  | PnEnqueue (ns : string) (e : EventConn)
  | PnClose (ns : string)
  | PnResolve (os : list p_output).

(** [pn_conns]: the number of connections of each connections loop. *)
Record pool_namespaces := mkPoolNamespaces { pn_conns : gmap string N; pn_count : Z; pn_idx : Z }.

Definition pn_New : pool_namespaces := mkPoolNamespaces ∅ 1 0.

Definition set_pn_conns (m : gmap string N) (n : pool_namespaces) := mkPoolNamespaces m (pn_count n) (pn_idx n).
Definition set_pn_view (count idx : Z) (n : pool_namespaces) := mkPoolNamespaces (pn_conns n) count idx.

Definition pn_handler := prog pool_namespaces pn_output.

(** A new loop starts with the current view; it has no gates to iterate over. *)
Definition pn_handleAdd (req : WatchJobsRequestInitial) (deliverable : bool) : pn_handler :=
  with n do
  let ns := wi_Namespace req in
  match pn_conns n !! ns with
  | None =>
      emit [PnNew ns] ;;;
      modify (set_pn_conns (<[ns := 0%N]> (pn_conns n))) ;;;
      emit [PnEnqueue ns (PSchedulerInfoUpdate (pn_count n) (pn_idx n) [])]
  | Some _ => skip
  end ;;;
  modify (λ n, set_pn_conns (alter u64_succ ns (pn_conns n)) n) ;;;
  emit [PnEnqueue ns (PConnAdd req deliverable)].

Definition pn_handleSchedulerInfoUpdate (Count Idx : Z) (order : string → list string) : pn_handler :=
  modify (set_pn_view Count Idx) ;;;
  with n do
  emit ((λ ns, PnEnqueue ns (PSchedulerInfoUpdate Count Idx (order ns))) <$> (map_to_list (pn_conns n)).*1).

Definition pn_handleCloseStream (idx : N) (ns : string) : pn_handler :=
  with n do
  match pn_conns n !! ns with
  | None => skip
  | Some k =>
      when (0 <? k)%N (modify (set_pn_conns (<[ns := (k - 1)%N]> (pn_conns n)))) ;;;
      emit [PnEnqueue ns (PConnCloseStream idx ns)]
  end.

Definition pn_handleCloseNamespace (ns : string) : pn_handler :=
  with n do
  match pn_conns n !! ns with
  | None => skip
  | Some k =>
      if negb (k =? 0)%N then skip
      else modify (set_pn_conns (delete ns (pn_conns n))) ;;; emit [PnClose ns]
  end.

Definition pn_handleTriggerRequest (req : TriggerRequest) : pn_handler :=
  with n do
  let ns := jm_Namespace (je_Metadata (tr_Job req)) in
  match pn_conns n !! ns with
  | None => emit [PnResolve (resolve UNDELIVERABLE req)]
  | Some _ => emit [PnEnqueue ns (PTriggerRequest req)]
  end.

Definition pn_handleShutdown : pn_handler :=
  with n do
  emit (PnClose <$> (map_to_list (pn_conns n)).*1) ;;;
  modify (set_pn_conns ∅).

Definition pn_Handle (event : EventNS) : pn_handler :=
  match event with
  | NConnAdd req deliverable => pn_handleAdd req deliverable
  | NConnCloseStream idx ns => pn_handleCloseStream idx ns
  | NConnCloseNamespace ns => pn_handleCloseNamespace ns
  | NTriggerRequest req => pn_handleTriggerRequest req
  | NSchedulerInfoUpdate count idx order => pn_handleSchedulerInfoUpdate count idx order
  | NShutdown => pn_handleShutdown
  end.

(** ** The router with its connections loops *)

Section pool_namespaces.
Context {X : XXHash}.
Variable placement : bool.

(** A connections loop: its state, its queue, and the streams of it that have
    closed themselves ([closeStream] runs once per stream). *)
Record conn_loop := mkConnLoop { cl_conns : connections; cl_queue : list EventConn; cl_closed : gset N }.

(** [ny_failed]: a connections loop returned an error, which cancels the pool. *)
Record nsys := mkNsys {
  ny_ns : pool_namespaces; ny_queue : list EventNS; ny_loops : gmap string conn_loop; ny_failed : bool }.

Definition nsys_New : nsys := mkNsys pn_New [] ∅ false.

Definition ny_send (e : EventNS) (s : nsys) : nsys := mkNsys (ny_ns s) (ny_queue s ++ [e]) (ny_loops s) (ny_failed s).
Definition ny_set_loops (m : gmap string conn_loop) (s : nsys) : nsys := mkNsys (ny_ns s) (ny_queue s) m (ny_failed s).

(** What a connections loop tells the router.  Closing a stream makes it close
    itself, unless it has done so already. *)
Definition conn_output (ns : string) (closed : gset N) (s : nsys) (o : p_output) : nsys :=
  match o with
  | PStreamClose i => if bool_decide (i ∈ closed) then s else ny_send (NConnCloseStream i ns) s
  | PCloseNamespace ns => ny_send (NConnCloseNamespace ns) s
  | PError => mkNsys (ny_ns s) (ny_queue s) (ny_loops s) true
  | _ => s
  end.

(** Closing a loop handles what is queued, then the shutdown. *)
Definition close_loop (l : conn_loop) : list p_output :=
  (run p_Handle (cl_queue l ++ [PShutdown]) (cl_conns l)).2.

Definition ns_output (s : nsys) (o : pn_output) : nsys :=
  match o with
  | PnNew ns => ny_set_loops (<[ns := mkConnLoop (pconns_New placement) [] ∅]> (ny_loops s)) s
  | PnEnqueue ns e =>
      ny_set_loops (alter (λ l, mkConnLoop (cl_conns l) (cl_queue l ++ [e]) (cl_closed l)) ns (ny_loops s)) s
  | PnClose ns =>
      match ny_loops s !! ns with
      | None => s
      | Some l => foldl (conn_output ns (cl_closed l)) (ny_set_loops (delete ns (ny_loops s)) s) (close_loop l)
      end
  | PnResolve _ => s
  end.

(** The pool enqueues an event; the router handles its next event; the
    connections loop of a namespace does; a stream closes itself; a resolved
    trigger gives its gates back. *)
Inductive ns_action :=
  | NEnqueue (e : EventNS)
  | NHandle
  | NConn (ns : string)
  | NCloseStream (ns : string) (i : N)
  | NRelease (ns : string) (keys : list string).

Definition ns_step (s : nsys) (a : ns_action) : nsys :=
  if ny_failed s then s
  else
    match a with
    | NEnqueue e => ny_send e s
    | NHandle =>
        match ny_queue s with
        | [] => s
        | e :: q =>
            let '(n, os) := pn_Handle e (ny_ns s) in
            foldl ns_output (mkNsys n q (ny_loops s) (ny_failed s)) os
        end
    | NConn ns =>
        match ny_loops s !! ns with
        | Some (mkConnLoop c (e :: q) closed) =>
            let '(c', os) := p_Handle e c in
            foldl (conn_output ns closed) (ny_set_loops (<[ns := mkConnLoop c' q closed]> (ny_loops s)) s) os
        | _ => s
        end
    | NCloseStream ns i =>
        match ny_loops s !! ns with
        | Some l =>
            if bool_decide (is_Some (p_streams (cl_conns l) !! i)) && negb (bool_decide (i ∈ cl_closed l)) then
              ny_send (NConnCloseStream i ns)
                (ny_set_loops (<[ns := mkConnLoop (cl_conns l) (cl_queue l) ({[i]} ∪ cl_closed l)]> (ny_loops s)) s)
            else s
        | None => s
        end
    | NRelease ns keys => ns_output s (PnEnqueue ns (PConcurrencyRelease keys))
    end.

Definition ns_run (acts : list ns_action) : nsys := foldl ns_step nsys_New acts.

(** *** What handling an event does to the streams *)

(** Outputs the router does not see. *)
Definition loud (o : p_output) : bool :=
  match o with PStreamClose _ | PCloseNamespace _ | PError => true | _ => false end.

Definition louds (os : list p_output) : list p_output := filter (λ o, loud o = true) os.

Lemma louds_app os1 os2 : louds (os1 ++ os2) = louds os1 ++ louds os2.
Proof. apply list.filter_app. Qed.

Lemma louds_resolves r reqs : louds (reqs ≫= resolve r) = [].
Proof.
  induction reqs as [|req reqs IH]; [done|]. cbn [mbind list_bind]. rewrite louds_app, IH.
  unfold resolve. by destruct (tr_release req).
Qed.

Lemma conn_output_louds ns closed s os : foldl (conn_output ns closed) s os = foldl (conn_output ns closed) s (louds os).
Proof.
  revert s. induction os as [|o os IH]; intros s; [done|]. cbn [foldl]. rewrite IH. unfold louds. rewrite list.filter_cons.
  case_decide as H; [done|]. by destruct o; try (by destruct H).
Qed.

(** Handlers that leave the set of streams alone. *)
Definition plain (h : p_handler) : Prop :=
  ∀ c, p_streams (h c).1 = p_streams c ∧ p_streamIDx (h c).1 = p_streamIDx c ∧ louds (h c).2 = [].

Lemma plain_seqp h1 h2 : plain h1 → plain h2 → plain (h1 ;;; h2).
Proof.
  intros H1 H2 c. rewrite seqp_eq. cbn [fst snd]. destruct (H1 c) as (E1 & E2 & E3), (H2 (h1 c).1) as (-> & -> & E6).
  by rewrite louds_app, E3, E6.
Qed.

Lemma plain_get f : (∀ c, plain (f c)) → plain (get f).
Proof. intros H c. apply H. Qed.

Lemma plain_skip : plain skip.
Proof. done. Qed.

Lemma plain_when b h : plain h → plain (when b h).
Proof. by destruct b. Qed.

Lemma plain_emit os : louds os = [] → plain (emit os).
Proof. done. Qed.

Lemma plain_for_each {A} (l : list A) body : (∀ x, plain (body x)) → plain (for_each l body).
Proof. intros H. induction l as [|x l IH]; [done|]. apply plain_seqp; [apply H|apply IH]. Qed.

Lemma plain_on_gate key f : plain (on_gate key f).
Proof. done. Qed.

Lemma plain_release keys : plain (releaseGates keys).
Proof. by apply plain_for_each. Qed.

Lemma plain_acquire keys : ∀ acq k, (∀ l b, plain (k l b)) → plain (acquireGates keys acq k).
Proof.
  induction keys as [|key keys IH]; intros acq k Hk; [apply Hk|]. cbn [acquireGates]. apply plain_get. intros c.
  destruct (concurrencyGates c !! key) as [g|]; [|by apply plain_emit].
  destruct (tryAcquire _ _ g); [|apply Hk]. apply plain_seqp; [done|by apply IH].
Qed.

Lemma plain_getStreamLoop meta k : (∀ r, plain (k r)) → plain (getStreamLoop meta k).
Proof.
  intros Hk. apply plain_get. intros c. destruct (jm_Target meta); [| |apply Hk];
    (match goal with |- plain (match ?x with _ => _ end) => destruct x as [[r pool]|] end;
     [apply plain_seqp; [done|apply Hk]|by apply plain_emit]).
Qed.

Lemma plain_resolve r req : plain (emit (resolve r req)).
Proof. apply plain_emit. unfold resolve. by destruct (tr_release req). Qed.

Lemma plain_trigger req : plain (handleTriggerRequest req).
Proof.
  apply plain_getStreamLoop. intros [idx|]; [|apply plain_resolve]. apply plain_get. intros c.
  destruct (gateKeysForTrigger req c) as [|key0 keys]; [done|]. apply plain_acquire. intros acq []; [done|].
  apply plain_seqp; [|apply plain_release]. apply plain_get. intros c1.
  destruct (concurrencyGates c1 !! key0) as [g|]; [|done]. destruct (gate_enqueue req g); [done|apply plain_resolve].
Qed.

Lemma plain_tryDispatch next k : (∀ d b, plain (k d b)) → plain (tryDispatchPending next k).
Proof.
  intros Hk. apply plain_getStreamLoop. intros [idx|]; [|apply plain_seqp; [apply plain_resolve|apply Hk]].
  apply plain_get. intros c. apply plain_acquire. intros acq []; (apply plain_seqp; [|apply Hk]); [done|apply plain_release].
Qed.

Lemma plain_drain_loop n : ∀ key skipped, plain (drain_loop n key skipped).
Proof.
  induction n as [|n IH]; intros key skipped; [done|]. apply plain_get. intros c.
  destruct (concurrencyGates c !! key ≫= dequeue) as [[next g]|]; [|done]. apply plain_seqp; [done|].
  apply plain_tryDispatch. intros [] b; [done|apply IH].
Qed.

Lemma plain_drain key : plain (drainPending key).
Proof. apply plain_get. intros c. destruct (concurrencyGates c !! key); [apply plain_drain_loop|done]. Qed.

Lemma plain_orphans : plain removeOrphanedGates.
Proof.
  apply plain_get. intros c. apply plain_for_each. intros [k g]. apply plain_seqp; [|done]. apply plain_emit, louds_resolves.
Qed.

Lemma plain_limits idx req : plain (updateConcurrencyLimits idx req).
Proof. apply plain_seqp; [done|]. apply plain_seqp; [done|apply plain_orphans]. Qed.

(** Events that are neither adds nor closes. *)
Lemma plain_Handle e :
  match e with PConnAdd _ _ | PConnCloseStream _ _ | PShutdown => True | _ => plain (p_Handle e) end.
Proof.
  destruct e; try exact I; cbn [p_Handle].
  - apply plain_trigger.
  - apply plain_seqp; apply plain_for_each; [done|apply plain_drain].
  - apply plain_seqp; [done|]. apply plain_for_each. intros key. apply plain_get. intros c.
    destruct (concurrencyGates c !! key); [apply plain_when, plain_drain|done].
Qed.

Lemma add_streams req c :
  let idx := p_streamIDx c in let r := p_handleAdd req true c in
  (∃ o, o_Loop o = idx ∧ p_streams r.1 = <[idx := o]> (p_streams c)) ∧ p_streamIDx r.1 = u64_succ idx ∧ louds r.2 = [].
Proof.
  cbv zeta. unfold p_handleAdd, get. cbn [negb]. rewrite !seqp_eq. unfold modify, emit. cbn [fst snd app].
  match goal with |- context [updateConcurrencyLimits ?i ?r ?c1] => destruct (plain_limits i r c1) as (E1 & E2 & E3) end.
  split_and!; [|exact E2|exact E3]. eexists. split; [|exact E1]. done.
Qed.

Lemma add_failed req c : louds (p_handleAdd req false c).2 = [PError].
Proof. done. Qed.

Lemma close_unknown i ns c : p_streams c !! i = None → p_handleCloseStream i ns c = (c, []).
Proof. intros E. unfold p_handleCloseStream, get. by rewrite E. Qed.

Definition without_stream i (o : Options) (c : connections) : connections :=
  set_streamPool (PStore_cancel o (streamPool c)) (set_gateKeys (delete i (streamGateKeys c)) (set_pstreams (delete i (p_streams c)) c)).

Lemma close_eq i ns c o :
  p_streams c !! i = Some o →
  let r := removeOrphanedGates (without_stream i o c) in
  p_handleCloseStream i ns c =
    (r.1, PStreamClose (o_Loop o) :: r.2 ++ if size (p_streams r.1) =? 0 then [PCloseNamespace ns] else []).
Proof.
  intros E r. unfold p_handleCloseStream. unfold get at 1. rewrite E. unfold seqp, modify, emit, get, when.
  change (removeOrphanedGates _) with r. destruct r as [c2 os]. cbn [fst snd]. by destruct (size (p_streams c2) =? 0).
Qed.

Lemma close_streams i ns c o :
  p_streams c !! i = Some o →
  let r := p_handleCloseStream i ns c in
  p_streams r.1 = delete i (p_streams c) ∧ p_streamIDx r.1 = p_streamIDx c ∧
  louds r.2 = PStreamClose (o_Loop o) :: if size (delete i (p_streams c)) =? 0 then [PCloseNamespace ns] else [].
Proof.
  intros E. cbv zeta. rewrite (close_eq i ns c o E). destruct (plain_orphans (without_stream i o c)) as (E1 & E2 & E3).
  set (r := removeOrphanedGates _) in *. cbn [fst snd]. split_and!; [done|done|].
  change (p_streams r.1 = delete i (p_streams c)) in E1. rewrite <-E1.
  change (louds ([PStreamClose (o_Loop o)] ++ r.2 ++ if size (p_streams r.1) =? 0 then [PCloseNamespace ns] else []) =
    [PStreamClose (o_Loop o)] ++ if size (p_streams r.1) =? 0 then [PCloseNamespace ns] else []).
  rewrite !louds_app, E3. by destruct (_ =? 0).
Qed.

Lemma louds_pending r (gs : list concurrencyGate) : louds (gs ≫= λ g, pending g ≫= resolve r) = [].
Proof. induction gs as [|g gs IH]; [done|]. cbn [mbind list_bind]. rewrite louds_app, louds_resolves. apply IH. Qed.

Lemma shutdown_louds c o :
  o ∈ louds (p_handleShutdown c).2 → ∃ i opts, p_streams c !! i = Some opts ∧ o = PStreamClose (o_Loop opts).
Proof.
  unfold p_handleShutdown, get. rewrite !seqp_eq. unfold modify, emit. cbn [fst snd]. rewrite !louds_app.
  rewrite !elem_of_app. intros [H|[H|[H|H]]].
  - unfold louds in H. apply list_elem_of_filter in H as [_ H].
    assert (Hf : Forall (λ o, ∃ i opts, p_streams c !! i = Some opts ∧ o = PStreamClose (o_Loop opts))
      (for_each (map_to_list (p_streams c)) (λ kv : N * Options, modify (λ c, set_streamPool (PStore_cancel kv.2 (streamPool c)) c) ;;; emit [PStreamClose (o_Loop kv.2)]) c).2).
    { apply for_each_outputs. intros [i opts] c1 Hin. rewrite seqp_eq. cbn [fst snd emit modify app].
      repeat constructor. exists i, opts. split; [by apply elem_of_map_to_list|done]. }
    rewrite list.Forall_forall in Hf. apply Hf, H.
  - by apply elem_of_nil in H.
  - rewrite louds_pending in H. by apply elem_of_nil in H.
  - by destruct H as [H|H]; apply elem_of_nil in H.
Qed.

(** *** The invariant *)

Definition is_add (e : EventConn) : nat := match e with PConnAdd _ _ => 1 | _ => 0 end.
Definition adds (q : list EventConn) : nat := sum_list_with is_add q.
Definition closes (q : list EventConn) : list N := omap (λ e, match e with PConnCloseStream i _ => Some i | _ => None end) q.

Definition ns_adds (q : list EventNS) : nat := sum_list_with (λ e, match e with NConnAdd _ _ => 1 | _ => 0 end) q.
Definition ns_closes (ns : string) (q : list EventNS) : list N :=
  omap (λ e, match e with NConnCloseStream i ns' => if decide (ns' = ns) then Some i else None | _ => None end) q.

Definition routed_event (ns : string) (e : EventConn) : Prop :=
  match e with PConnCloseStream _ ns' => ns' = ns | PShutdown => False | _ => True end.

(** [k] counts the connections of the loop [l]; [q] is the queue of the router. *)
Record loop_ok (n : nat) (q : list EventNS) (ns : string) (k : N) (l : conn_loop) : Prop := {
  lo_count : N.to_nat k + length (closes (cl_queue l)) = adds (cl_queue l) + size (p_streams (cl_conns l));
  lo_nodup : NoDup (closes (cl_queue l) ++ ns_closes ns q);
  lo_open : ∀ i, i ∈ closes (cl_queue l) ++ ns_closes ns q → is_Some (p_streams (cl_conns l) !! i) ∧ i ∈ cl_closed l;
  lo_streams : ∀ i o, p_streams (cl_conns l) !! i = Some o → o_Loop o = i ∧ (i < p_streamIDx (cl_conns l))%N;
  lo_closed : ∀ i, i ∈ cl_closed l → (i < p_streamIDx (cl_conns l))%N;
  lo_idx : N.to_nat (p_streamIDx (cl_conns l)) + adds (cl_queue l) + ns_adds q ≤ n;
  lo_bound : N.to_nat k ≤ N.to_nat (p_streamIDx (cl_conns l)) + adds (cl_queue l);
  lo_queue : Forall (routed_event ns) (cl_queue l);
  lo_idle : size (p_streams (cl_conns l)) = 0 → adds (cl_queue l) = 0 → NConnCloseNamespace ns ∈ q
}.

Definition entry_ok (n : nat) (q : list EventNS) (ns : string) (k : option N) (l : option conn_loop) : Prop :=
  match k, l with
  | None, None => ns_closes ns q = [] ∧ ns_adds q ≤ n
  | Some k, Some l => loop_ok n q ns k l
  | _, _ => False
  end.

Record nsys_ok (n : nat) (s : nsys) : Prop := {
  no_entries : ∀ ns, entry_ok n (ny_queue s) ns (pn_conns (ny_ns s) !! ns) (ny_loops s !! ns);
  no_shutdown : NShutdown ∉ ny_queue s
}.

Lemma NoDup_size {V} (l : list N) (m : gmap N V) : NoDup l → (∀ i, i ∈ l → is_Some (m !! i)) → length l ≤ size m.
Proof.
  intros Hn Hin. rewrite <-(size_dom (D := gset N)), <-(size_list_to_set (C := gset N)) by done.
  apply subseteq_size. intros i Hi. apply elem_of_list_to_set in Hi. by apply elem_of_dom, Hin.
Qed.

(** All closes under way are of streams that are connected. *)
Lemma closes_size n q ns k l :
  loop_ok n q ns k l → length (closes (cl_queue l)) + length (ns_closes ns q) ≤ size (p_streams (cl_conns l)).
Proof.
  intros H. rewrite <-length_app. apply NoDup_size; [apply (lo_nodup _ _ _ _ _ H)|]. intros i Hi. apply (lo_open _ _ _ _ _ H i Hi).
Qed.

(** A change of the router's queue that does not concern the namespace. *)
Lemma entry_frame n n' q q' ns k l :
  ns_closes ns q' = ns_closes ns q → (NConnCloseNamespace ns ∈ q → NConnCloseNamespace ns ∈ q') →
  ns_adds q' + n ≤ ns_adds q + n' → entry_ok n q ns k l → entry_ok n' q' ns k l.
Proof.
  intros E Hin Hn. destruct k as [k|], l as [l|]; cbn; try done.
  - intros []. split; rewrite ?E; auto; lia.
  - rewrite E. intros []. split; [done|lia].
Qed.

Lemma closes_app q1 q2 : closes (q1 ++ q2) = closes q1 ++ closes q2.
Proof. apply omap_app. Qed.

Lemma ns_closes_app ns q1 q2 : ns_closes ns (q1 ++ q2) = ns_closes ns q1 ++ ns_closes ns q2.
Proof. apply omap_app. Qed.

Lemma adds_app q1 q2 : adds (q1 ++ q2) = adds q1 + adds q2.
Proof. apply sum_list_with_app. Qed.

Lemma ns_adds_app q1 q2 : ns_adds (q1 ++ q2) = ns_adds q1 + ns_adds q2.
Proof. apply sum_list_with_app. Qed.

(** Events that neither connect nor close. *)
Definition neutral (e : EventConn) : Prop := match e with PConnAdd _ _ | PConnCloseStream _ _ | PShutdown => False | _ => True end.

Lemma loop_neutral n q ns k l e :
  neutral e → loop_ok n q ns k l → loop_ok n q ns k (mkConnLoop (cl_conns l) (cl_queue l ++ [e]) (cl_closed l)).
Proof.
  intros He []. assert (Ea : adds (cl_queue l ++ [e]) = adds (cl_queue l)) by (rewrite adds_app; destruct e; cbn; try done; lia).
  assert (Ec : closes (cl_queue l ++ [e]) = closes (cl_queue l)) by (rewrite closes_app; destruct e; cbn; try done; apply app_nil_r).
  split; cbn [cl_conns cl_queue cl_closed]; rewrite ?Ea, ?Ec; auto. apply Forall_app. split; [done|]. repeat constructor. by destruct e.
Qed.

Lemma sys_neutral n s ns e : neutral e → nsys_ok n s → nsys_ok n (ns_output s (PnEnqueue ns e)).
Proof.
  intros He [H1 H2]. split; [|done]. intros ns'. cbn [ns_output ny_set_loops ny_ns ny_queue ny_loops]. specialize (H1 ns').
  destruct (decide (ns' = ns)) as [->|Hne]; [|by rewrite lookup_alter_ne].
  rewrite lookup_alter_eq. destruct (pn_conns (ny_ns s) !! ns), (ny_loops s !! ns); try done. by apply loop_neutral.
Qed.

(** A step that concerns one namespace. *)
Lemma sys_update n n' s s' ns :
  nsys_ok n s →
  (∀ ns', ns' ≠ ns → pn_conns (ny_ns s') !! ns' = pn_conns (ny_ns s) !! ns' ∧ ny_loops s' !! ns' = ny_loops s !! ns' ∧
     ns_closes ns' (ny_queue s') = ns_closes ns' (ny_queue s) ∧
     (NConnCloseNamespace ns' ∈ ny_queue s → NConnCloseNamespace ns' ∈ ny_queue s')) →
  ns_adds (ny_queue s') + n ≤ ns_adds (ny_queue s) + n' → NShutdown ∉ ny_queue s' →
  entry_ok n' (ny_queue s') ns (pn_conns (ny_ns s') !! ns) (ny_loops s' !! ns) → nsys_ok n' s'.
Proof.
  intros [H _] Ho Hn Hs He. split; [|done]. intros ns'. destruct (decide (ns' = ns)) as [->|Hne]; [done|].
  destruct (Ho ns' Hne) as (-> & -> & E & Hin). by eapply entry_frame.
Qed.

Lemma entry_loop n s ns l : nsys_ok n s → ny_loops s !! ns = Some l →
  ∃ k, pn_conns (ny_ns s) !! ns = Some k ∧ loop_ok n (ny_queue s) ns k l.
Proof.
  intros [H _] Hl. specialize (H ns). rewrite Hl in H. destruct (pn_conns (ny_ns s) !! ns) as [k|]; [|done]. by exists k.
Qed.

Lemma entry_conns n s ns k : nsys_ok n s → pn_conns (ny_ns s) !! ns = Some k →
  ∃ l, ny_loops s !! ns = Some l ∧ loop_ok n (ny_queue s) ns k l.
Proof.
  intros [H _] Hk. specialize (H ns). rewrite Hk in H. destruct (ny_loops s !! ns) as [l|]; [|done]. by exists l.
Qed.

(** The connections loop handles an event that leaves its streams alone. *)
Lemma loop_popped n q ns k c c' e es closed :
  neutral e → p_streams c' = p_streams c → p_streamIDx c' = p_streamIDx c →
  loop_ok n q ns k (mkConnLoop c (e :: es) closed) → loop_ok n q ns k (mkConnLoop c' es closed).
Proof.
  intros He E1 E2 []. cbn [cl_conns cl_queue cl_closed] in *.
  assert (Ea : adds (e :: es) = adds es) by (destruct e; done). assert (Ec : closes (e :: es) = closes es) by (destruct e; done).
  apply list.Forall_cons in lo_queue0 as [_ ?]. rewrite Ea, Ec in *. split; cbn [cl_conns cl_queue cl_closed]; rewrite ?E1, ?E2; auto.
Qed.

Lemma loop_added n q ns k c c' req es closed o :
  (N.of_nat n < two64)%N → o_Loop o = p_streamIDx c → p_streams c' = <[p_streamIDx c := o]> (p_streams c) →
  p_streamIDx c' = u64_succ (p_streamIDx c) →
  loop_ok n q ns k (mkConnLoop c (PConnAdd req true :: es) closed) → loop_ok n q ns k (mkConnLoop c' es closed).
Proof.
  intros Hn Ho E1 E2 []. cbn [cl_conns cl_queue cl_closed] in *.
  change (adds (PConnAdd req true :: es)) with (S (adds es)) in *. change (closes (PConnAdd req true :: es)) with (closes es) in *.
  apply list.Forall_cons in lo_queue0 as [_ ?].
  assert (Hidx : p_streamIDx c' = (p_streamIDx c + 1)%N) by (rewrite E2; unfold u64_succ; apply N.mod_small; lia).
  assert (Hfresh : p_streams c !! p_streamIDx c = None).
  { destruct (p_streams c !! p_streamIDx c) as [o'|] eqn:E; [|done]. destruct (lo_streams0 _ _ E). lia. }
  assert (Hsize : size (p_streams c') = S (size (p_streams c))) by (rewrite E1; by apply map_size_insert_None).
  split; cbn [cl_conns cl_queue cl_closed]; rewrite ?Hidx, ?Hsize; auto; try lia.
  - intros i Hi. destruct (lo_open0 i Hi). split; [|done]. rewrite E1. destruct (decide (p_streamIDx c = i)) as [->|?].
    + rewrite lookup_insert_eq. eauto.
    + by rewrite lookup_insert_ne.
  - intros i o'. rewrite E1. intros [[<- <-]|[? E]]%lookup_insert_Some; [split; [done|lia]|]. destruct (lo_streams0 i o' E). split; [done|lia].
  - intros i Hi. specialize (lo_closed0 i Hi). lia.
Qed.

Lemma loop_removed n q q' ns k c c' i es closed :
  p_streams c' = delete i (p_streams c) → p_streamIDx c' = p_streamIDx c →
  ns_closes ns q' = ns_closes ns q → ns_adds q' = ns_adds q →
  (size (delete i (p_streams c)) = 0 → NConnCloseNamespace ns ∈ q') →
  loop_ok n q ns k (mkConnLoop c (PConnCloseStream i ns :: es) closed) → loop_ok n q' ns k (mkConnLoop c' es closed).
Proof.
  intros E1 E2 Eq Ea Hidle []. cbn [cl_conns cl_queue cl_closed] in *.
  change (adds (PConnCloseStream i ns :: es)) with (adds es) in *. change (closes (PConnCloseStream i ns :: es)) with (i :: closes es) in *.
  apply list.Forall_cons in lo_queue0 as [_ ?]. cbn [app] in *. apply list.NoDup_cons in lo_nodup0 as [Hi Hnd].
  destruct (lo_open0 i ltac:(left)) as [[o Ho] _].
  pose proof (map_size_delete_Some i (p_streams c) ltac:(by exists o)) as Hsize.
  assert (Hpos : size (p_streams c) ≠ 0).
  { intros Hz. apply map_size_empty_inv in Hz. by rewrite Hz, lookup_empty in Ho. }
  cbn [length] in *. split; cbn [cl_conns cl_queue cl_closed]; rewrite ?E1, ?E2, ?Eq, ?Ea, ?Hsize; auto; try lia.
  - intros j Hj. destruct (lo_open0 j ltac:(by right)). split; [|done]. rewrite lookup_delete_ne; [done|]. intros ->. done.
  - intros j o' [_ Hj]%lookup_delete_Some. by apply lo_streams0.
  - intros Hz _. apply Hidle. lia.
Qed.

Lemma sys_conn n s ns l l' k :
  nsys_ok n s → ny_loops s !! ns = Some l → pn_conns (ny_ns s) !! ns = Some k → loop_ok n (ny_queue s) ns k l' →
  nsys_ok n (ny_set_loops (<[ns := l']> (ny_loops s)) s).
Proof.
  intros I Hl Hk H. apply (sys_update n n s _ ns); cbn [ny_set_loops ny_ns ny_queue ny_loops]; try done.
  - intros ns' Hne. by rewrite lookup_insert_ne.
  - apply I.
  - by rewrite Hk, lookup_insert_eq.
Qed.

Lemma sys_send_close_ns n s ns : nsys_ok n s → nsys_ok n (ny_send (NConnCloseNamespace ns) s).
Proof.
  intros [H1 H2]. split; cbn [ny_send ny_ns ny_queue ny_loops].
  - intros ns'. eapply entry_frame, H1; [rewrite ns_closes_app; apply app_nil_r|intros; apply elem_of_app; by left|].
    rewrite ns_adds_app. cbn. lia.
  - rewrite elem_of_app, list_elem_of_singleton. intros [?|?]; [by apply H2|done].
Qed.

Lemma step_conn n s ns :
  (N.of_nat n < two64)%N → nsys_ok n s → ny_failed s = false → ny_failed (ns_step s (NConn ns)) = false → nsys_ok n (ns_step s (NConn ns)).
Proof.
  intros Hn I Hf. unfold ns_step. rewrite Hf. destruct (ny_loops s !! ns) as [[c [|e q] closed]|] eqn:Hl; [done| |done].
  destruct (entry_loop n s ns _ I Hl) as (k & Hk & Hok). destruct (p_Handle e c) as [c' os] eqn:He. rewrite conn_output_louds.
  assert (neutral e ∨ ¬ neutral e) as [Hne|Hne] by (destruct e; cbn; tauto).
  - assert (Hp : plain (p_Handle e)) by (pose proof (plain_Handle e); by destruct e). destruct (Hp c) as (E1 & E2 & E3).
    rewrite He in E1, E2, E3. cbn [fst snd] in *. rewrite E3. intros _. eapply sys_conn; eauto. by eapply loop_popped.
  - destruct e as [req []|i ns'| | | |]; try done; cbn [p_Handle] in He.
    + destruct (add_streams req c) as ((o & Ho & E1) & E2 & E3). rewrite He in E1, E2, E3. cbn [fst snd] in *. rewrite E3.
      intros _. eapply sys_conn; eauto. by eapply loop_added.
    + pose proof (add_failed req c) as E. rewrite He in E. cbn [snd] in E. rewrite E. done.
    + pose proof (lo_queue _ _ _ _ _ Hok) as Hq. apply list.Forall_cons in Hq as [Hns _]. cbn in Hns. subst ns'.
      destruct (lo_open _ _ _ _ _ Hok i) as [[o Ho] Hi]; [cbn [cl_queue]; by left|]. cbn [cl_conns cl_closed] in Ho, Hi.
      destruct (lo_streams _ _ _ _ _ Hok i o Ho) as [Hlo _].
      destruct (close_streams i ns c o Ho) as (E1 & E2 & E3). rewrite He in E1, E2, E3. cbn [fst snd] in *. rewrite E3, Hlo. intros _.
      cbn [foldl conn_output]. rewrite (bool_decide_eq_true_2 (i ∈ closed)) by done.
      destruct (size (delete i (p_streams c)) =? 0) eqn:Hz; cbn [foldl conn_output].
      * change (ny_send ?x (ny_set_loops ?m s)) with (ny_set_loops m (ny_send x s)). 
        eapply (sys_conn n (ny_send (NConnCloseNamespace ns) s)); [by apply sys_send_close_ns|done|done|].
        eapply loop_removed; [exact E1|exact E2| | | |exact Hok]; cbn [ny_send ny_queue].
        -- rewrite ns_closes_app. apply app_nil_r.
        -- rewrite ns_adds_app. cbn. lia.
        -- intros _. apply elem_of_app. right. by left.
      * eapply sys_conn; [done|done|done|]. eapply loop_removed; [exact E1|exact E2|done|done| |exact Hok].
        intros H0. by rewrite H0 in Hz.
    + pose proof (lo_queue _ _ _ _ _ Hok) as Hq. by apply list.Forall_cons in Hq as [Hns _].
Qed.

(** A stream closes itself. *)
Lemma step_close_stream n s ns i : nsys_ok n s → ny_failed s = false → nsys_ok n (ns_step s (NCloseStream ns i)).
Proof.
  intros I Hf. unfold ns_step. rewrite Hf. destruct (ny_loops s !! ns) as [l|] eqn:Hl; [|done].
  destruct (bool_decide (is_Some _)) eqn:E1; [|done]. destruct (bool_decide (i ∈ cl_closed l)) eqn:E2; [done|]. cbn [andb negb].
  apply bool_decide_eq_true in E1. apply bool_decide_eq_false in E2. destruct (entry_loop n s ns _ I Hl) as (k & Hk & Hok).
  assert (Ea : ns_adds (ny_queue s ++ [NConnCloseStream i ns]) = ns_adds (ny_queue s)) by (rewrite ns_adds_app; cbn; lia).
  apply (sys_update n n s _ ns); cbn [ny_send ny_set_loops ny_ns ny_queue ny_loops]; [done| |lia| |].
  - intros ns' Hne. rewrite lookup_insert_ne by done. split_and!; [done|done| |intros; apply elem_of_app; by left].
    rewrite ns_closes_app. cbn. rewrite decide_False by done. apply app_nil_r.
  - rewrite elem_of_app, list_elem_of_singleton. intros [?|?]; [by apply (no_shutdown _ _ I)|done].
  - rewrite Hk, lookup_insert_eq. cbn [entry_ok].
    assert (Ec : ns_closes ns (ny_queue s ++ [NConnCloseStream i ns]) = ns_closes ns (ny_queue s) ++ [i]).
    { rewrite ns_closes_app. cbn. by rewrite decide_True. }
    destruct Hok as [?? Hop ??????]. split; cbn [cl_conns cl_queue cl_closed]; rewrite ?Ec, ?Ea; auto.
    + rewrite (assoc_L (++)). apply list.NoDup_app. split_and!; [done| |apply NoDup_singleton].
      intros j Hj ->%list_elem_of_singleton. by destruct (Hop i Hj).
    + intros j. rewrite (assoc_L (++)), elem_of_app, list_elem_of_singleton. intros [Hj| ->]; [|set_solver].
      destruct (Hop j Hj). set_solver.
    + intros j. rewrite elem_of_union, elem_of_singleton. intros [-> |Hj]; [|by auto]. destruct E1 as [o Ho]. by destruct (lo_streams0 i o Ho).
    + intros ??. apply elem_of_app. left. auto.
Qed.

(** *** Deletion of a namespace *)

(** When the counter of a namespace is zero, nothing is waiting to connect, and
    every stream still in its loop has closed itself. *)
Lemma loop_done n q ns l :
  loop_ok n q ns 0 l →
  adds (cl_queue l) = 0 ∧ ns_closes ns q = [] ∧ ∀ i, is_Some (p_streams (cl_conns l) !! i) → i ∈ closes (cl_queue l) ∧ i ∈ cl_closed l.
Proof.
  intros H. pose proof (closes_size _ _ _ _ _ H) as Hs. pose proof (lo_count _ _ _ _ _ H) as Hc. cbn in Hc.
  split_and!; [lia|apply length_zero_iff_nil; lia|].
  pose proof (lo_nodup _ _ _ _ _ H) as Hnd. apply list.NoDup_app in Hnd as [Hnd _].
  assert (E : (list_to_set (closes (cl_queue l)) : gset N) ≡ dom (p_streams (cl_conns l))).
  { apply set_subseteq_size_equiv; [|rewrite size_list_to_set, size_dom by done; lia].
    intros i Hi. apply elem_of_list_to_set in Hi. apply elem_of_dom, (lo_open _ _ _ _ _ H). apply elem_of_app. by left. }
  intros i Hi. apply elem_of_dom in Hi. rewrite <-E, elem_of_list_to_set in Hi. split; [done|].
  apply (lo_open _ _ _ _ _ H). apply elem_of_app. by left.
Qed.

(** What a loop with only such streams tells the router while it is closed. *)
Definition harmless (ns : string) (closed : gset N) (o : p_output) : Prop :=
  o = PCloseNamespace ns ∨ ∃ i, i ∈ closed ∧ o = PStreamClose i.

Lemma run_harmless ns closed q : ∀ c,
  adds q = 0 → Forall (routed_event ns) q → (∀ i o, p_streams c !! i = Some o → o_Loop o = i ∧ i ∈ closed) →
  Forall (harmless ns closed) (louds (run p_Handle (q ++ [PShutdown]) c).2).
Proof.
  induction q as [|e q IH]; intros c Ha Hq Hc.
  - cbn [app run p_Handle]. rewrite seqp_eq. cbn [snd]. rewrite louds_app. apply Forall_app. split; [|constructor].
    apply list.Forall_forall. intros o (i & opts & Ho & ->)%shutdown_louds. destruct (Hc i opts Ho) as [-> ?]. right. eauto.
  - cbn [app run]. rewrite seqp_eq. cbn [snd]. rewrite louds_app. apply list.Forall_cons in Hq as [He Hq]. apply Forall_app.
    assert (neutral e ∨ ¬ neutral e) as [Hne|Hne] by (destruct e; cbn; tauto).
    + assert (Hp : plain (p_Handle e)) by (pose proof (plain_Handle e); by destruct e). destruct (Hp c) as (E1 & _ & E3).
      rewrite E3. split; [constructor|]. apply IH; [by destruct e|done|by rewrite E1].
    + destruct e as [|i ns'| | | |]; try done. cbn in He. subst ns'. cbn [p_Handle].
      destruct (p_streams c !! i) as [o|] eqn:Ho; [|rewrite close_unknown by done; split; [constructor|by apply IH]].
      destruct (close_streams i ns c o Ho) as (E1 & _ & E3). rewrite E3. destruct (Hc i o Ho) as [-> Hi]. split.
      * constructor; [right; eauto|]. destruct (_ =? 0); repeat constructor.
      * apply IH; [done|done|]. rewrite E1. intros j o' [_ Hj]%lookup_delete_Some. by apply Hc.
Qed.

Lemma sys_harmless n ns closed os : ∀ s,
  Forall (harmless ns closed) os → nsys_ok n s →
  nsys_ok n (foldl (conn_output ns closed) s os) ∧ ny_failed (foldl (conn_output ns closed) s os) = ny_failed s ∧
  ny_loops (foldl (conn_output ns closed) s os) = ny_loops s.
Proof.
  induction os as [|o os IH]; intros s Hos Hs; [done|]. apply list.Forall_cons in Hos as [[->|(i & Hi & ->)] Hos]; cbn [foldl conn_output].
  - by apply (IH (ny_send (NConnCloseNamespace ns) s)), sys_send_close_ns.
  - rewrite (bool_decide_eq_true_2 (i ∈ closed)) by done. by apply IH.
Qed.

(** *** The router handles an event *)

Section handle.
Context (n : nat) (s : nsys) (q : list EventNS).
Hypothesis Hn : (N.of_nat n < two64)%N.
Hypothesis I : nsys_ok n s.

Notation popped nss := (mkNsys nss q (ny_loops s) (ny_failed s)).

Lemma popped_shutdown e : ny_queue s = e :: q → NShutdown ∉ q.
Proof. intros Hq. pose proof (no_shutdown _ _ I) as H. rewrite Hq in H. set_solver. Qed.

(** The namespaces an event does not concern. *)
Lemma popped_other e ns' :
  ny_queue s = e :: q → (∀ i, e ≠ NConnCloseStream i ns') → e ≠ NConnCloseNamespace ns' →
  ns_closes ns' q = ns_closes ns' (ny_queue s) ∧ (NConnCloseNamespace ns' ∈ ny_queue s → NConnCloseNamespace ns' ∈ q).
Proof.
  intros -> H1 H2. split; [|set_solver]. destruct e as [|i ns''| | | |]; try done. cbn. rewrite decide_False; [done|].
  intros ->. by apply (H1 i).
Qed.

Lemma handle_add req d nss :
  ny_queue s = NConnAdd req d :: q → nss = (pn_Handle (NConnAdd req d) (ny_ns s)).1 →
  nsys_ok n (foldl ns_output (popped nss) (pn_Handle (NConnAdd req d) (ny_ns s)).2).
Proof.
  intros Hq ->. set (ns := wi_Namespace req). pose proof (no_entries _ _ I ns) as H.
  destruct (popped_other _ ns Hq) as [Ec Hc]; [done|done|].
  assert (Ea : ns_adds (ny_queue s) = S (ns_adds q)) by (by rewrite Hq).
  cbn [pn_Handle]. unfold pn_handleAdd, get. fold ns. destruct (pn_conns (ny_ns s) !! ns) as [k|] eqn:Hk.
  - destruct (ny_loops s !! ns) as [l|] eqn:Hl; [|done]. cbn in H. unfold seqp, skip, modify, emit. cbn.
    apply (sys_update n n s _ ns); cbn [ny_set_loops ny_ns ny_queue ny_loops set_pn_conns pn_conns]; [done| |lia|by eapply popped_shutdown|].
    + intros ns' Hne. rewrite !lookup_alter_ne by done. by destruct (popped_other _ ns' Hq).
    + rewrite !lookup_alter_eq, Hk, Hl. destruct H. assert (Hu : u64_succ k = (k + 1)%N) by (unfold u64_succ; apply N.mod_small; lia).
      cbn. split; cbn [cl_conns cl_queue cl_closed]; rewrite ?closes_app, ?adds_app, ?Hu, ?Ec; cbn; rewrite ?app_nil_r; auto; try lia.
      apply Forall_app. split; [done|]. repeat constructor.
  - destruct (ny_loops s !! ns) as [l|] eqn:Hl; [done|]. cbn in H. unfold seqp, skip, modify, emit. cbn.
    apply (sys_update n n s _ ns); cbn [ny_set_loops ny_ns ny_queue ny_loops set_pn_conns pn_conns]; [done| |lia|by eapply popped_shutdown|].
    + intros ns' Hne. rewrite !lookup_alter_ne, !lookup_insert_ne by done. by destruct (popped_other _ ns' Hq).
    + rewrite !lookup_alter_eq, !lookup_insert_eq. cbn. destruct H as [H1 H2].
      split; cbn [cl_conns cl_queue cl_closed]; rewrite ?Ec, ?H1; cbn; try done; try lia.
      * constructor.
      * by intros i ?%elem_of_nil.
      * repeat constructor.
Qed.

Lemma handle_close_stream i ns nss :
  ny_queue s = NConnCloseStream i ns :: q → nss = (pn_Handle (NConnCloseStream i ns) (ny_ns s)).1 →
  nsys_ok n (foldl ns_output (popped nss) (pn_Handle (NConnCloseStream i ns) (ny_ns s)).2).
Proof.
  intros Hq ->. pose proof (no_entries _ _ I ns) as H. assert (Ea : ns_adds (ny_queue s) = ns_adds q) by (by rewrite Hq).
  assert (Ec : ns_closes ns (ny_queue s) = i :: ns_closes ns q) by (rewrite Hq; cbn; by rewrite decide_True).
  cbn [pn_Handle]. unfold pn_handleCloseStream, get. destruct (pn_conns (ny_ns s) !! ns) as [k|] eqn:Hk, (ny_loops s !! ns) as [l|] eqn:Hl; try done.
  2: { cbn in H. rewrite Ec in H. by destruct H. }
  cbn in H. pose proof (closes_size _ _ _ _ _ H) as Hs. rewrite Ec in Hs. cbn in Hs. destruct H as [Hcount Hnd Hop ??????]. rewrite Ec in Hnd, Hop.
  rewrite (proj2 (N.ltb_lt 0 k)) by lia. unfold seqp, when, modify, emit. cbn.
  apply (sys_update n n s _ ns); cbn [ny_set_loops ny_ns ny_queue ny_loops set_pn_conns pn_conns]; [done| |lia|by eapply popped_shutdown|].
  - intros ns' Hne. rewrite lookup_alter_ne, lookup_insert_ne by done. destruct (popped_other _ ns' Hq); try done. congruence.
  - rewrite lookup_alter_eq, lookup_insert_eq, Hl. cbn.
    split; cbn [cl_conns cl_queue cl_closed]; rewrite ?closes_app, ?adds_app; cbn; rewrite ?length_app, <-?(assoc_L (++)); cbn; auto; try lia.
    apply Forall_app. split; [done|]. repeat constructor.
Qed.

Lemma handle_close_namespace ns nss :
  ny_queue s = NConnCloseNamespace ns :: q → nss = (pn_Handle (NConnCloseNamespace ns) (ny_ns s)).1 →
  nsys_ok n (foldl ns_output (popped nss) (pn_Handle (NConnCloseNamespace ns) (ny_ns s)).2).
Proof.
  intros Hq ->. pose proof (no_entries _ _ I ns) as H. assert (Ea : ns_adds (ny_queue s) = ns_adds q) by (by rewrite Hq).
  assert (Ec : ns_closes ns (ny_queue s) = ns_closes ns q) by (by rewrite Hq).
  assert (Ho : ∀ ns', ns' ≠ ns → ns_closes ns' q = ns_closes ns' (ny_queue s) ∧ (NConnCloseNamespace ns' ∈ ny_queue s → NConnCloseNamespace ns' ∈ q)).
  { intros ns' Hne. apply (popped_other _ ns' Hq); congruence. }
  cbn [pn_Handle]. unfold pn_handleCloseNamespace, get. destruct (pn_conns (ny_ns s) !! ns) as [k|] eqn:Hk, (ny_loops s !! ns) as [l|] eqn:Hl; try done.
  - cbn in H. destruct (N.eqb_spec k 0) as [->|Hk0]; cbn [negb].
    + unfold seqp, modify, emit. cbn. rewrite Hl. destruct (loop_done _ _ _ _ H) as (H1 & H2 & H3). rewrite conn_output_louds.
      apply sys_harmless.
      * apply run_harmless; [done|apply H|]. intros i o Hi. destruct (lo_streams _ _ _ _ _ H i o Hi). split; [done|]. apply H3. by exists o.
      * apply (sys_update n n s _ ns); cbn [ny_set_loops ny_ns ny_queue ny_loops set_pn_conns pn_conns]; [done| |lia|by eapply popped_shutdown|].
        -- intros ns' Hne. rewrite !lookup_delete_ne by done. by destruct (Ho ns' Hne).
        -- rewrite !lookup_delete_eq. cbn. rewrite <-Ec. split; [done|]. pose proof (lo_idx _ _ _ _ _ H). lia.
    + unfold skip. cbn [fst snd foldl]. apply (sys_update n n s _ ns); cbn [ny_ns ny_queue ny_loops]; [done| |lia|by eapply popped_shutdown|].
      * intros ns' Hne. by destruct (Ho ns' Hne).
      * rewrite Hk, Hl. cbn. destruct H. split; rewrite <-?Ec, <-?Ea; auto. intros. lia.
  - cbn in H. unfold skip. cbn [fst snd foldl]. apply (sys_update n n s _ ns); cbn [ny_ns ny_queue ny_loops]; [done| |lia|by eapply popped_shutdown|].
    + intros ns' Hne. by destruct (Ho ns' Hne).
    + rewrite Hk, Hl. cbn. by rewrite <-Ec, <-Ea.
Qed.

Lemma handle_passed e nss :
  ny_queue s = e :: q → pn_conns nss = pn_conns (ny_ns s) →
  match e with NConnCloseStream _ _ | NConnCloseNamespace _ => False | _ => True end → nsys_ok n (popped nss).
Proof.
  intros Hq E He. split; cbn [ny_ns ny_queue ny_loops]; [|by eapply popped_shutdown]. intros ns. rewrite E.
  destruct (popped_other e ns Hq) as [Ec Hc]; [by intros i ->|by intros ->|].
  eapply (entry_frame n n (ny_queue s)); [done|done| |apply (no_entries _ _ I)]. rewrite Hq. unfold ns_adds. cbn [sum_list_with]. lia.
Qed.

End handle.

Lemma sys_neutrals n os : ∀ s,
  Forall (λ o, ∃ ns e, o = PnEnqueue ns e ∧ neutral e) os → nsys_ok n s → nsys_ok n (foldl ns_output s os).
Proof.
  induction os as [|o os IH]; intros s Hos Hs; [done|]. apply list.Forall_cons in Hos as [(ns & e & -> & He) Hos].
  cbn [foldl]. by apply IH, sys_neutral.
Qed.

Lemma step_handle n s :
  (N.of_nat n < two64)%N → nsys_ok n s → ny_failed s = false → nsys_ok n (ns_step s NHandle).
Proof.
  intros Hn I Hf. unfold ns_step. rewrite Hf. destruct (ny_queue s) as [|e q] eqn:Hq; [done|].
  destruct (pn_Handle e (ny_ns s)) as [nss os] eqn:He.
  assert (Hnss : nss = (pn_Handle e (ny_ns s)).1) by (by rewrite He). assert (Hos : os = (pn_Handle e (ny_ns s)).2) by (by rewrite He).
  rewrite <-Hf, Hos. destruct e as [req d|i ns|ns|req|count idx order|].
  - by apply handle_add.
  - by apply handle_close_stream.
  - by apply handle_close_namespace.
  - subst. cbn [pn_Handle]. unfold pn_handleTriggerRequest, get.
    destruct (pn_conns (ny_ns s) !! _); unfold emit; cbn [fst snd foldl]; [apply sys_neutral; [done|]|]; by eapply handle_passed.
  - subst. cbn [pn_Handle]. unfold pn_handleSchedulerInfoUpdate, get. rewrite seqp_eq. cbn [fst snd modify app].
    apply sys_neutrals; [|by eapply handle_passed]. apply Forall_fmap, list.Forall_forall. intros ns _. by exists ns, (PSchedulerInfoUpdate count idx (order ns)).
  - pose proof (no_shutdown _ _ I) as H. rewrite Hq in H. exfalso. apply H. by left.
Qed.

(** What the pool enqueues: connections, triggers and cluster views. *)
Definition ns_env_ok (a : ns_action) : Prop :=
  match a with
  | NEnqueue (NConnCloseStream _ _ | NConnCloseNamespace _ | NShutdown) => False
  | _ => True
  end.

Lemma failed_step s a : ny_failed s = true → ns_step s a = s.
Proof. intros H. unfold ns_step. by rewrite H. Qed.

Lemma step_failed s a : ny_failed (ns_step s a) = false → ny_failed s = false.
Proof. intros H. destruct (ny_failed s) eqn:E; [|done]. rewrite failed_step in H by done. congruence. Qed.

Lemma step_ok n s a :
  (N.of_nat (S n) < two64)%N → nsys_ok n s → ns_env_ok a → ny_failed (ns_step s a) = false → nsys_ok (S n) (ns_step s a).
Proof.
  intros Hn I Ha Hf. pose proof (step_failed s a Hf) as Hs.
  assert (Hmono : ∀ s', nsys_ok n s' → nsys_ok (S n) s').
  { intros s' [H1 H2]. split; [|done]. intros ns. eapply entry_frame, H1; [done|done|lia]. }
  destruct a as [e| |ns|ns i|ns keys].
  - unfold ns_step. rewrite Hs. split; cbn [ny_send ny_ns ny_queue ny_loops].
    + intros ns. eapply (entry_frame n (S n) (ny_queue s)), (no_entries _ _ I); [rewrite ns_closes_app|intros; apply elem_of_app; by left|rewrite ns_adds_app].
      * by destruct e; try apply app_nil_r.
      * destruct e; cbn; lia.
    + rewrite elem_of_app, list_elem_of_singleton. intros [H|<-]; [by apply (no_shutdown _ _ I)|done].
  - apply Hmono, step_handle; [lia|done|done].
  - apply Hmono, step_conn; [lia|done|done|done].
  - by apply Hmono, step_close_stream.
  - unfold ns_step. rewrite Hs. by apply Hmono, sys_neutral.
Qed.

Lemma run_ok acts :
  Forall ns_env_ok acts → (N.of_nat (length acts) < two64)%N → ny_failed (ns_run acts) = false → nsys_ok (length acts) (ns_run acts).
Proof.
  induction acts as [|a acts IH] using rev_ind; intros He Hn Hf.
  - split; [|by intros ?%elem_of_nil]. intros ns. cbn. by rewrite !lookup_empty.
  - apply Forall_app in He as [He Ha]. apply list.Forall_cons in Ha as [Ha _]. rewrite length_app in *. cbn [length] in *.
    unfold ns_run in *. rewrite foldl_app in *. cbn [foldl] in *. rewrite Nat.add_1_r in *. apply step_ok; [done| |done|done].
    apply IH; [done|lia|]. by eapply step_failed.
Qed.

(** *** Only a confirmed and uncounted namespace is deleted *)

Lemma conn_outputs_loops ns closed os : ∀ s, ny_loops (foldl (conn_output ns closed) s os) = ny_loops s.
Proof.
  induction os as [|o os IH]; intros s; [done|]. cbn [foldl]. rewrite IH. destruct o; try done. cbn. by case_bool_decide.
Qed.

Lemma ns_outputs_loops ns os : ∀ s,
  is_Some (ny_loops s !! ns) → is_Some (ny_loops (foldl ns_output s os) !! ns) ∨ PnClose ns ∈ os.
Proof.
  induction os as [|o os IH]; intros s Hs; [by left|]. cbn [foldl].
  assert (is_Some (ny_loops (ns_output s o) !! ns) ∨ o = PnClose ns) as [H| ->]; [|destruct (IH _ H); set_solver|set_solver].
  destruct o as [ns'|ns' e|ns'|]; cbn; [left|left| |by left]; (destruct (decide (ns' = ns)) as [->|?]).
  - rewrite lookup_insert_eq. eauto.
  - by rewrite lookup_insert_ne.
  - rewrite lookup_alter_eq. by apply fmap_is_Some.
  - by rewrite lookup_alter_ne.
  - by right.
  - left. destruct (ny_loops s !! ns'); [|done]. rewrite conn_outputs_loops. cbn. by rewrite lookup_delete_ne.
Qed.

Lemma close_output e nss ns :
  e ≠ NShutdown → PnClose ns ∈ (pn_Handle e nss).2 → e = NConnCloseNamespace ns ∧ pn_conns nss !! ns = Some 0%N.
Proof.
  intros He. destruct e as [req d|i ns'|ns'|req|count idx order|]; cbn [pn_Handle]; try done.
  - unfold pn_handleAdd, get. rewrite !seqp_eq. destruct (pn_conns nss !! _); cbn; set_solver.
  - unfold pn_handleCloseStream, get. destruct (pn_conns nss !! ns'); [rewrite seqp_eq; unfold when; destruct (0 <? n)%N|]; cbn; set_solver.
  - unfold pn_handleCloseNamespace, get. destruct (pn_conns nss !! ns') as [k|] eqn:Hk; [|set_solver].
    destruct (N.eqb_spec k 0) as [->|?]; cbn; [|set_solver]. intros H. assert (ns = ns') as -> by set_solver. done.
  - unfold pn_handleTriggerRequest, get. destruct (pn_conns nss !! _); cbn; set_solver.
  - unfold pn_handleSchedulerInfoUpdate, get. rewrite seqp_eq. cbn. intros (x & Hx & _)%list_elem_of_fmap. done.
Qed.

Lemma deleted_when n s a ns l :
  nsys_ok n s → ny_loops s !! ns = Some l → ny_loops (ns_step s a) !! ns = None → pn_conns (ny_ns s) !! ns = Some 0%N.
Proof.
  intros I Hl Hnone. unfold ns_step in Hnone. destruct (ny_failed s); [congruence|].
  assert (Hkeep : ∀ l' ns', <[ns' := l']> (ny_loops s) !! ns ≠ None).
  { intros l' ns'. destruct (decide (ns' = ns)) as [->|?]; [by rewrite lookup_insert_eq|by rewrite lookup_insert_ne; [rewrite Hl|]]. }
  destruct a as [e| |ns'|ns' i|ns' keys].
  - cbn in Hnone. congruence.
  - destruct (ny_queue s) as [|e q] eqn:Hq; [congruence|]. destruct (pn_Handle e (ny_ns s)) as [nss os] eqn:He.
    destruct (ns_outputs_loops ns os (mkNsys nss q (ny_loops s) false)) as [[x Hx]|Hin]; [cbn; rewrite Hl; eauto|congruence|].
    apply (close_output e); [|by rewrite He]. intros ->. apply (no_shutdown _ _ I). rewrite Hq. by left.
  - destruct (ny_loops s !! ns') as [[c [|e q] closed]|]; try congruence. destruct (p_Handle e c). rewrite conn_outputs_loops in Hnone. by apply Hkeep in Hnone.
  - destruct (ny_loops s !! ns'); [|congruence]. destruct (_ && _); [|congruence]. cbn in Hnone. by apply Hkeep in Hnone.
  - destruct (ns_outputs_loops ns [PnEnqueue ns' (PConcurrencyRelease keys)] s) as [[x Hx]|Hin]; [by rewrite Hl| |set_solver].
    cbn [foldl] in Hx. congruence.
Qed.

(** The router deletes a namespace only when it is unused. In every interleaving of the
    router, the connections loops and streams that each close once: when the loop of a
    namespace is deleted, no connection waits in its queue and every stream still registered
    there has closed itself; and when all queues are empty, a namespace that is kept has a
    connected stream. *)
Theorem pool_namespace_deletion_safe acts a ns l :
  Forall ns_env_ok acts → (N.of_nat (length acts) < two64)%N → ny_failed (ns_run acts) = false →
  ny_loops (ns_run acts) !! ns = Some l →
  (ny_loops (ns_step (ns_run acts) a) !! ns = None →
     adds (cl_queue l) = 0 ∧ ∀ i, is_Some (p_streams (cl_conns l) !! i) → i ∈ cl_closed l) ∧
  (ny_queue (ns_run acts) = [] → cl_queue l = [] → p_streams (cl_conns l) ≠ ∅).
Proof.
  intros He Hn Hf Hl. pose proof (run_ok acts He Hn Hf) as I. destruct (entry_loop _ _ _ _ I Hl) as (k & Hk & H). split.
  - intros Hnone. pose proof (deleted_when _ _ _ _ _ I Hl Hnone) as Hz. rewrite Hk in Hz. injection Hz as ->.
    destruct (loop_done _ _ _ _ H) as (H1 & _ & H3). split; [done|]. intros i Hi. by apply H3.
  - intros Hq Hcq Hs. pose proof (lo_idle _ _ _ _ _ H) as Hidle. rewrite Hq, Hcq, Hs in Hidle.
    specialize (Hidle eq_refl eq_refl). by apply elem_of_nil in Hidle.
Qed.

End pool_namespaces.

(** ** A concrete run *)

Section pool_namespaces_demo.
#[local] Existing Instance poly_hash.

Definition ns_demo_request : WatchJobsRequestInitial := mkInitial "app" "ns" ["t"] [] [] (Some "10.0.0.1:1") false [].

(** A sidecar connects and leaves. *)
Definition ns_demo_acts : list ns_action :=
  [NEnqueue (NConnAdd ns_demo_request true); NHandle; NConn "ns"; NConn "ns";
   NCloseStream "ns" 0; NHandle; NConn "ns"].

Lemma ns_demo_env : Forall ns_env_ok ns_demo_acts.
Proof. repeat (apply list.Forall_cons; split; [exact I|]). exact (Forall_nil_2 _). Qed.

Lemma ns_demo_loop : is_Some (ny_loops (ns_run false ns_demo_acts) !! "ns").
Proof. apply (bool_decide_eq_true_1 _). vm_compute. reflexivity. Qed.

Lemma ns_demo_deleted : ny_loops (ns_step false (ns_run false ns_demo_acts) NHandle) !! "ns" = None.
Proof. vm_compute. reflexivity. Qed.

Lemma ns_demo_running : ny_failed (ns_run false ns_demo_acts) = false.
Proof. vm_compute. reflexivity. Qed.

Lemma pool_namespace_deletion_safe_witness :
  ∃ l, ny_loops (ns_run false ns_demo_acts) !! "ns" = Some l ∧
  ny_loops (ns_step false (ns_run false ns_demo_acts) NHandle) !! "ns" = None ∧
  adds (cl_queue l) = 0 ∧ ∀ i, is_Some (p_streams (cl_conns l) !! i) → i ∈ cl_closed l.
Proof.
  destruct ns_demo_loop as [l Hl]. exists l. split; [exact Hl|]. split; [exact ns_demo_deleted|].
  assert (Hn : (N.of_nat (length ns_demo_acts) < two64)%N) by (vm_compute; reflexivity).
  exact (proj1 (pool_namespace_deletion_safe false ns_demo_acts NHandle "ns" l ns_demo_env Hn ns_demo_running Hl) ns_demo_deleted).
Defined.

End pool_namespaces_demo.
