(* ===== verification/AclTrie.v ===== *)
(** * The operations of an access control policy
      (pkg/config/acl_trie.go)

    A trie over the segments of operation names, with wildcards.  Nodes are
    values; the data of a node is whatever the rules of an operation are known
    by. *)

From Stdlib Require Import Ascii.
From S2P Require Import Prelude GoStrings.

(** ** Matching a segment *)

(** The first row of the table: true as far as the pattern has only stars. *)
Fixpoint stars (pattern : list ascii) : list bool :=
  match pattern with
  | [] => []
  | p :: pattern' =>
      if decide (p = star) then true :: stars pattern' else false :: ((λ _, false) <$> pattern')
  end.

(** The entries [1 .. pl] of the row of the byte [t]: [left] is the entry before,
    [prev] the previous row from the entry above it. *)
Fixpoint row_entries (t : ascii) (pattern : list ascii) (prev : list bool) (left : bool) : list bool :=
  match pattern, prev with
  | p :: pattern', diag :: ((up :: _) as prev') =>
      let entry := if decide (p = star) then left || up else if decide (t = p) then diag else false in
      entry :: row_entries t pattern' prev' entry
  | _, _ => []
  end.

Definition next_row (pattern : list ascii) (prev : list bool) (t : ascii) : list bool :=
  false :: row_entries t pattern prev false.

Definition isMatch (target pattern : list ascii) : bool :=
  default false (foldl (next_row pattern) (true :: stars pattern) target !! length pattern).

(** ** The trie *)

Definition SingleStageWildcard : list ascii := [slash; star].
Definition MultiStageWildcard : list ascii := [slash; star; star].

Section trie.
Context {D : Type}.

Inductive trieNode := mkNode (Char : list ascii) (Data : option D) (SubNodes : list trieNode).

Definition Char (n : trieNode) := match n with mkNode c _ _ => c end.
Definition Data (n : trieNode) := match n with mkNode _ d _ => d end.
Definition SubNodes (n : trieNode) := match n with mkNode _ _ ns => ns end.

Definition NewTrie : trieNode := mkNode [slash] None [].

Fixpoint findNode (char : list ascii) (nodes : list trieNode) : option trieNode :=
  match nodes with
  | [] => None
  | n :: nodes' => if decide (Char n = char) then Some n else findNode char nodes'
  end.

Fixpoint findNodeWithWildcard (char : list ascii) (nodes : list trieNode) (isEnd : bool) : option trieNode :=
  match nodes with
  | [] => None
  | n :: nodes' =>
      if decide (Char n = char) then Some n
      else if decide (Char n = SingleStageWildcard) then
        if isEnd then Some n else findNodeWithWildcard char nodes' isEnd
      else if decide (Char n = MultiStageWildcard) then Some n
      else if isMatch char (Char n) then Some n
      else findNodeWithWildcard char nodes' isEnd
  end.

Definition findSubNode (n : trieNode) (target : list ascii) (isEnd : bool) : option trieNode :=
  findNodeWithWildcard target (SubNodes n) isEnd.

(** The segments the loops of the trie visit: all but the first, with the slash. *)
Definition operation_parts (operation : list ascii) : list (list ascii) :=
  cons slash <$> tail (Split slash operation).

(** [Search] from a node. *)
Fixpoint search (parts : list (list ascii)) (node : trieNode) : option D :=
  match parts with
  | [] => None
  | char :: parts' =>
      let isEnd := length parts' =? 0 in
      match findSubNode node char isEnd with
      | None => None
      | Some n =>
          match Data n with
          | Some d =>
              if negb isEnd && HasSuffix (Char n) SingleStageWildcard && negb (HasSuffix (Char n) MultiStageWildcard)
              then search parts' n
              else Some d
          | None =>
              if isEnd then m ← findSubNode n SingleStageWildcard isEnd; Data m
              else search parts' n
          end
      end
  end.

Definition Search (trie : trieNode) (operation : list ascii) : option D := search (operation_parts operation) trie.

(** Replaces the first node with that char. *)
Fixpoint update_node (char : list ascii) (f : trieNode → trieNode) (nodes : list trieNode) : list trieNode :=
  match nodes with
  | [] => []
  | n :: nodes' => if decide (Char n = char) then f n :: nodes' else n :: update_node char f nodes'
  end.

(** [PutOperationAction] below the nodes [nodes]. *)
Fixpoint put (parts : list (list ascii)) (data : D) (nodes : list trieNode) : list trieNode :=
  match parts with
  | [] => nodes
  | char :: parts' =>
      match findNode char nodes with
      | None => nodes ++ [mkNode char (if length parts' =? 0 then Some data else None) (put parts' data [])]
      | Some _ =>
          update_node char (λ n,
            if length parts' =? 0 then mkNode (Char n) (match Data n with None => Some data | d => d end) (SubNodes n)
            else mkNode (Char n) (Data n) (put parts' data (SubNodes n))) nodes
      end
  end.

Definition PutOperationAction (operation : list ascii) (data : D) (trie : trieNode) : trieNode :=
  mkNode (Char trie) (Data trie) (put (operation_parts operation) data (SubNodes trie)).

End trie.

Arguments trieNode : clear implicits.
Arguments trieNode _ : assert.

(** ** Patterns *)

(** What a pattern means: a star stands for any bytes. *)
Fixpoint glob (pattern s : list ascii) : Prop :=
  match pattern with
  | [] => s = []
  | p :: pattern' =>
      if decide (p = star) then ∃ s1 s2, s = s1 ++ s2 ∧ glob pattern' s2
      else ∃ s', s = p :: s' ∧ glob pattern' s'
  end.

Lemma glob_app p1 p2 : ∀ s, glob (p1 ++ p2) s ↔ ∃ s1 s2, s = s1 ++ s2 ∧ glob p1 s1 ∧ glob p2 s2.
Proof.
  induction p1 as [|p p1 IH]; intros s; cbn.
  - split; [intros H; by exists [], s|]. by intros (? & ? & -> & -> & ?).
  - case_decide.
    + setoid_rewrite IH. split.
      * intros (s1 & s2 & -> & s3 & s4 & -> & H1 & H2). exists (s1 ++ s3), s4. rewrite (assoc_L (++)). naive_solver.
      * intros (s1 & s2 & -> & (s3 & s4 & -> & H1) & H2). exists s3, (s4 ++ s2). rewrite (assoc_L (++)). naive_solver.
    + setoid_rewrite IH. split.
      * intros (s' & -> & s1 & s2 & -> & H1 & H2). exists (p :: s1), s2. naive_solver.
      * intros (s1 & s2 & -> & (s' & -> & H1) & H2). exists (s' ++ s2). naive_solver.
Qed.

(** The recurrences of the table, on the ends of pattern and string. *)
Lemma glob_star_nil p : glob (p ++ [star]) [] ↔ glob p [].
Proof.
  rewrite glob_app. split.
  - intros (s1 & s2 & E & H & _). symmetry in E. apply app_nil in E as [-> ->]. done.
  - intros H. exists [], []. split_and!; [done|done|]. by exists [], [].
Qed.

Lemma glob_star_snoc p s t : glob (p ++ [star]) (s ++ [t]) ↔ glob p (s ++ [t]) ∨ glob (p ++ [star]) s.
Proof.
  assert (Hstar : ∀ u, glob (p ++ [star]) u ↔ ∃ s1 s2, u = s1 ++ s2 ∧ glob p s1).
  { intros u. rewrite glob_app. split; [naive_solver|]. intros (s1 & s2 & -> & H). exists s1, s2. split_and!; [done|done|].
    exists s2, []. by rewrite app_nil_r. }
  rewrite !Hstar. split.
  - intros (s1 & s2 & E & H). destruct (decide (s2 = [])) as [->|Hne].
    + rewrite app_nil_r in E. subst. by left.
    + right. destruct (exists_last Hne) as (s3 & x & ->). rewrite (assoc_L (++)) in E. apply app_inj_tail in E as [-> ->]. by exists s1, s3.
  - intros [H|(s1 & s2 & -> & H)]; [exists (s ++ [t]), []; by rewrite app_nil_r|]. exists s1, (s2 ++ [t]). by rewrite (assoc_L (++)).
Qed.

Lemma glob_lit c s : c ≠ star → glob [c] s ↔ s = [c].
Proof. intros Hc. cbn. rewrite decide_False by done. split; [by intros (? & -> & ->)|]. intros ->. by exists []. Qed.

Lemma glob_lit_nil p c : c ≠ star → ¬ glob (p ++ [c]) [].
Proof. intros Hc (s1 & s2 & E & _ & ->%glob_lit)%glob_app; [|done]. by destruct s1. Qed.

Lemma glob_lit_snoc p c s t : c ≠ star → glob (p ++ [c]) (s ++ [t]) ↔ t = c ∧ glob p s.
Proof.
  intros Hc. rewrite glob_app. split.
  - intros (s1 & s2 & E & H & ->%glob_lit); [|done]. apply app_inj_tail in E as [-> ->]. done.
  - intros [-> H]. exists s, [c]. by rewrite glob_lit.
Qed.

(** A row of the table for the part [s] of the target, from the part [pre] of the
    pattern on. *)
Fixpoint row_ok (pre suf s : list ascii) (row : list bool) : Prop :=
  match row with
  | [] => False
  | b :: row' =>
      (b = true ↔ glob pre s) ∧
      match suf with
      | [] => row' = []
      | p :: suf' => row_ok (pre ++ [p]) suf' s row'
      end
  end.

Lemma row_ok_lookup suf : ∀ pre s row, row_ok pre suf s row → default false (row !! length suf) = true ↔ glob (pre ++ suf) s.
Proof.
  induction suf as [|p suf IH]; intros pre s [|b row]; cbn; try done.
  - intros [H ->]. by rewrite app_nil_r.
  - intros [_ H]. rewrite (IH _ _ _ H). by rewrite <-(assoc_L (++)).
Qed.

Lemma no_match_row suf : ∀ pre, ¬ glob pre [] → row_ok pre suf [] (false :: ((λ _, false) <$> suf)).
Proof.
  induction suf as [|p suf IH]; intros pre Hpre; cbn; (split; [done|]); [done|]. apply IH.
  destruct (decide (p = star)) as [->|Hp]; [by rewrite glob_star_nil|by apply glob_lit_nil].
Qed.

Lemma first_row suf : ∀ pre, glob pre [] → row_ok pre suf [] (true :: stars suf).
Proof.
  induction suf as [|p suf IH]; intros pre Hpre; cbn; (split; [done|]); [done|]. case_decide as Hp.
  - subst. by apply IH, glob_star_nil.
  - by apply no_match_row, glob_lit_nil.
Qed.

Lemma row_entries_ok t suf : ∀ pre s prev left,
  row_ok pre suf s prev → (left = true ↔ glob pre (s ++ [t])) → row_ok pre suf (s ++ [t]) (left :: row_entries t suf prev left).
Proof.
  induction suf as [|p suf IH]; intros pre s [|diag prev] left; cbn; try done. intros [Hd Hr] Hl. split; [done|].
  destruct prev as [|up prev]; [by destruct suf|]. apply IH; [done|].
  destruct suf; cbn in Hr; destruct Hr as [Hu _]; (case_decide as Hp;
    [subst; rewrite glob_star_snoc, orb_true_iff; tauto|rewrite glob_lit_snoc by done; case_decide; naive_solver]).
Qed.

Lemma next_row_ok pattern s t row : row_ok [] pattern s row → row_ok [] pattern (s ++ [t]) (next_row pattern row t).
Proof. intros H. apply row_entries_ok; [done|]. split; [done|]. intros E. by destruct s. Qed.

Lemma acl_match target pattern : isMatch target pattern = true ↔ glob pattern target.
Proof.
  unfold isMatch. apply (row_ok_lookup pattern []).
  assert (H : ∀ s, row_ok [] pattern s (foldl (next_row pattern) (true :: stars pattern) s)).
  { induction s as [|t s IH] using rev_ind; [by apply first_row|]. rewrite foldl_app. by apply next_row_ok. }
  apply H.
Qed.

Example pattern_examples :
  isMatch (bytes "/ABC.a") (bytes "/AB*.a") = true ∧ isMatch (bytes "/abc") (bytes "/a*d") = false ∧
  isMatch (bytes "/") (bytes "/**") = true.
Proof. repeat split; vm_compute; reflexivity. Qed.

(** ** Rules *)

Section rules.
Context {D : Type}.
Implicit Types (nodes : list (trieNode D)) (parts ps : list (list ascii)).

Definition build (rules : list (list ascii * D)) : trieNode D :=
  foldl (λ t r, PutOperationAction r.1 r.2 t) NewTrie rules.

(** What the node at a path holds. *)
Fixpoint get parts nodes : option D :=
  match parts with
  | [] => None
  | c :: parts' => n ← findNode c nodes; if decide (parts' = []) then Data n else get parts' (SubNodes n)
  end.

(** Siblings are distinct. *)
Inductive wf : list (trieNode D) → Prop :=
  | wf_intro nodes : NoDup (Char <$> nodes) → (∀ n, n ∈ nodes → wf (SubNodes n)) → wf nodes.

Lemma findNode_Some c nodes n : findNode c nodes = Some n → n ∈ nodes ∧ Char n = c.
Proof.
  induction nodes as [|m nodes IH]; [done|]. cbn. case_decide; [intros [= ->]; split; [by left|done]|].
  intros H'. destruct (IH H'). split; [by right|done].
Qed.

Lemma findNode_None c nodes : findNode c nodes = None ↔ c ∉ (Char <$> nodes).
Proof.
  induction nodes as [|m nodes IH]; cbn; [split; [intros _; apply not_elem_of_nil|done]|].
  rewrite not_elem_of_cons, <-IH. case_decide; naive_solver.
Qed.

Lemma findNode_unique c nodes n : NoDup (Char <$> nodes) → n ∈ nodes → Char n = c → findNode c nodes = Some n.
Proof.
  induction nodes as [|m nodes IH]; intros Hnd Hn Hc; [by apply elem_of_nil in Hn|].
  cbn in *. apply list.NoDup_cons in Hnd as [Hm Hnd]. apply elem_of_cons in Hn as [->|Hn]; [by rewrite decide_True|].
  rewrite decide_False; [by apply IH|]. intros E. apply Hm. rewrite E, <-Hc. by apply list_elem_of_fmap_2.
Qed.

Lemma findNode_app c nodes m :
  findNode c (nodes ++ [m]) = match findNode c nodes with Some n => Some n | None => if decide (Char m = c) then Some m else None end.
Proof. induction nodes as [|n nodes IH]; [done|]. cbn. by destruct (decide (Char n = c)). Qed.

Lemma findNode_update c c' f nodes :
  (∀ n, Char (f n) = Char n) → findNode c (update_node c' f nodes) = if decide (c = c') then f <$> findNode c nodes else findNode c nodes.
Proof.
  intros Hf. induction nodes as [|n nodes IH]; [by case_decide|]. cbn. destruct (decide (Char n = c')) as [E|E]; cbn.
  - rewrite Hf, E. destruct (decide (c' = c)) as [->|?]; [by rewrite decide_True|]. by rewrite (decide_False (P := c = c')) by done.
  - rewrite IH. destruct (decide (Char n = c)); [by rewrite decide_False by congruence|done].
Qed.

Lemma update_chars c f nodes : (∀ n, Char (f n) = Char n) → Char <$> update_node c f nodes = Char <$> nodes.
Proof. intros Hf. induction nodes as [|n nodes IH]; [done|]. cbn. case_decide; cbn; by rewrite ?Hf, ?IH. Qed.

Lemma elem_of_update c f nodes n : n ∈ update_node c f nodes → n ∈ nodes ∨ ∃ m, m ∈ nodes ∧ n = f m.
Proof.
  induction nodes as [|m nodes IH]; cbn; [intros H; by apply elem_of_nil in H|].
  case_decide; rewrite !elem_of_cons; [intros [->|Hn]; [right; exists m; split; [by left|done]|by left; right]|].
  intros [->|Hn]; [by left; left|]. destruct (IH Hn) as [?|(m' & ? & ->)]; [by left; right|]. right. exists m'. split; [by right|done].
Qed.

(** Adding at a path and looking up. *)
Lemma get_put parts : ∀ data nodes ps,
  get ps (put parts data nodes) =
    if decide (ps = parts ∧ parts ≠ []) then Some (default data (get parts nodes)) else get ps nodes.
Proof.
  induction parts as [|c parts IH]; intros data nodes ps; [rewrite decide_False by naive_solver; done|].
  destruct ps as [|c' ps]; [rewrite decide_False by naive_solver; done|]. cbn [put].
  destruct (findNode c nodes) as [n|] eqn:Hf.
  - cbn [get]. rewrite findNode_update by (intros []; by destruct (_ =? 0)).
    destruct (decide (c' = c)) as [->|Hc]; [|rewrite decide_False by naive_solver; done]. rewrite Hf. cbn [fmap option_fmap option_map mbind option_bind].
    destruct parts as [|p parts].
    + cbn [length Nat.eqb Data SubNodes]. destruct (decide (ps = [])) as [->|Hps].
      * rewrite decide_True by done. by destruct (Data n).
      * rewrite decide_False by naive_solver. done.
    + cbn [length Nat.eqb Data SubNodes]. rewrite IH. destruct (decide (ps = [])) as [->|Hps]; [rewrite decide_False by naive_solver; done|].
      destruct (decide (ps = p :: parts)) as [->|Hne]; [|rewrite !decide_False by naive_solver; done].
      rewrite !decide_True by naive_solver. by rewrite decide_False by naive_solver.
  - cbn [get]. rewrite findNode_app. cbn [Char]. destruct (decide (c' = c)) as [->|Hc].
    + rewrite Hf, decide_True by done. cbn [mbind option_bind Data SubNodes]. destruct parts as [|p parts].
      * cbn [length Nat.eqb]. destruct (decide (ps = [])) as [->|Hps]; [by rewrite decide_True|]. rewrite decide_False by naive_solver. by destruct ps.
      * cbn [length Nat.eqb]. rewrite IH. destruct (decide (ps = [])) as [->|Hps]; [rewrite decide_False by naive_solver; done|].
        destruct (decide (ps = p :: parts)) as [->|Hne]; [rewrite !decide_True by naive_solver; done|].
        rewrite !decide_False by naive_solver. by destruct ps.
    + rewrite (decide_False (P := c = c')) by done. rewrite (decide_False (P := _ ∧ _)) by naive_solver. by destruct (findNode c' nodes).
Qed.

Lemma wf_put parts : ∀ data nodes, wf nodes → wf (put parts data nodes).
Proof.
  induction parts as [|c parts IH]; intros data nodes Hwf; [done|]. inversion_clear Hwf as [? Hnd Hsub]. cbn [put].
  destruct (findNode c nodes) as [n|] eqn:Hf.
  - constructor; [by rewrite update_chars by (intros []; by destruct (_ =? 0))|].
    intros m [Hm|(m' & Hm' & ->)]%elem_of_update; [by apply Hsub|]. destruct (_ =? 0); cbn [SubNodes]; [by apply Hsub|by apply IH, Hsub].
  - constructor.
    + rewrite fmap_app. apply list.NoDup_app. split_and!; [done| |apply NoDup_singleton].
      intros x Hx ->%list_elem_of_singleton. by apply findNode_None in Hf.
    + intros m. rewrite elem_of_app, list_elem_of_singleton. intros [Hm| ->]; [by apply Hsub|]. cbn [SubNodes]. apply IH. constructor; [constructor|].
      by intros ? ?%elem_of_nil.
Qed.

(** The data of the first rule at a path. *)
Definition first_rule parts (rules : list (list ascii * D)) : option D :=
  r ← head (filter (λ r, operation_parts r.1 = parts) rules); Some r.2.

Lemma build_snoc rules r : SubNodes (build (rules ++ [r])) = put (operation_parts r.1) r.2 (SubNodes (build rules)).
Proof. unfold build. by rewrite foldl_app. Qed.

Lemma build_wf rules : wf (SubNodes (build rules)).
Proof.
  induction rules as [|r rules IH] using rev_ind; [constructor; [constructor|by intros ? ?%elem_of_nil]|]. rewrite build_snoc. by apply wf_put.
Qed.

Lemma first_rule_snoc parts rules r :
  first_rule parts (rules ++ [r]) =
    match first_rule parts rules with Some d => Some d | None => if decide (operation_parts r.1 = parts) then Some r.2 else None end.
Proof.
  unfold first_rule. rewrite list.filter_app, list.filter_cons, list.filter_nil. destruct (filter _ rules); [|done]. by case_decide.
Qed.

Lemma get_build rules parts : parts ≠ [] → get parts (SubNodes (build rules)) = first_rule parts rules.
Proof.
  intros Hne. induction rules as [|r rules IH] using rev_ind; [by destruct parts|].
  rewrite build_snoc, get_put, first_rule_snoc. destruct (decide (operation_parts r.1 = parts)) as [<-|Hr].
  - rewrite decide_True, IH by done. by destruct (first_rule _ rules).
  - rewrite decide_False, IH by naive_solver. by destruct (first_rule _ rules).
Qed.

Lemma first_rule_elem parts rules d : first_rule parts rules = Some d → ∃ r, r ∈ rules ∧ operation_parts r.1 = parts ∧ r.2 = d.
Proof.
  unfold first_rule. destruct (filter _ rules) as [|r l] eqn:E; [done|]. intros [= <-]. exists r.
  assert (Hr : r ∈ filter (λ r, operation_parts r.1 = parts) rules) by (rewrite E; left).
  apply list_elem_of_filter in Hr as [? ?]. done.
Qed.

(** ** Search *)

(** A rule covers an operation if its segments match a beginning of the
    operation's, or all of them and it has a wildcard more. *)
Inductive covers : list (list ascii) → list (list ascii) → Prop :=
  | covers_end p s rest : glob p s → covers [p] (s :: rest)
  | covers_cons p s ps parts : glob p s → covers ps parts → covers (p :: ps) (s :: parts)
  | covers_wild p s w : glob p s → glob w SingleStageWildcard → covers [p; w] [s].

Lemma glob_refl s : glob s s.
Proof.
  induction s as [|c s IH]; cbn; [done|]. case_decide as H; [exists [c], s|exists s]; done.
Qed.

Lemma glob_any_segment x : glob SingleStageWildcard (slash :: x) ∧ glob MultiStageWildcard (slash :: x).
Proof.
  split; cbn; (exists x; split; [done|]).
  - exists x, []. by rewrite app_nil_r.
  - exists [], x. split; [done|]. exists x, []. by rewrite app_nil_r.
Qed.

Definition segment (s : list ascii) : Prop := ∃ x, s = slash :: x.

Lemma wildcard_found char nodes isEnd n :
  segment char → findNodeWithWildcard char nodes isEnd = Some n → n ∈ nodes ∧ glob (Char n) char.
Proof.
  intros [x ->]. induction nodes as [|m nodes IH]; [done|]. cbn. destruct (glob_any_segment x) as [H1 H2].
  case_decide as E1; [intros [= ->]; split; [by left|rewrite E1; apply glob_refl]|].
  case_decide as E2; [destruct isEnd; [intros [= ->]; split; [by left|by rewrite E2]|intros H; destruct (IH H); split; [by right|done]]|].
  case_decide as E3; [intros [= ->]; split; [by left|by rewrite E3]|].
  destruct (isMatch (slash :: x) (Char m)) eqn:E4; [intros [= ->]; split; [by left|by apply acl_match]|].
  intros H. destruct (IH H). split; [by right|done].
Qed.

Lemma parts_segments op : Forall segment (operation_parts op).
Proof. apply Forall_fmap, list.Forall_forall. intros x _. by exists x. Qed.

Lemma get_at c nodes n ps :
  wf nodes → n ∈ nodes → Char n = c → get (c :: ps) nodes = if decide (ps = []) then Data n else get ps (SubNodes n).
Proof. intros Hwf Hn Hc. inversion_clear Hwf as [? Hnd _]. cbn [get]. by rewrite (findNode_unique c nodes n). Qed.

Lemma search_covers parts : ∀ node d,
  Forall segment parts → wf (SubNodes node) → search parts node = Some d →
  ∃ ps, ps ≠ [] ∧ get ps (SubNodes node) = Some d ∧ covers ps parts.
Proof.
  induction parts as [|char parts IH]; intros node d Hseg Hwf; [done|]. apply list.Forall_cons in Hseg as [Hc Hseg]. cbn [search].
  destruct (findSubNode node char (length parts =? 0)) as [n|] eqn:Hf; [|done].
  destruct (wildcard_found _ _ _ _ Hc Hf) as [Hn Hg]. assert (Hsub : wf (SubNodes n)) by (inversion_clear Hwf; auto).
  assert (Hdeep : search parts n = Some d → ∃ ps, ps ≠ [] ∧ get ps (SubNodes node) = Some d ∧ covers ps (char :: parts)).
  { intros Hs. destruct (IH n d Hseg Hsub Hs) as (ps & Hne & Hget & Hcov). exists (Char n :: ps). split; [done|]. split; [|by constructor].
    rewrite (get_at (Char n) _ n) by done. by rewrite decide_False. }
  destruct (Data n) as [d'|] eqn:Hd.
  - destruct (_ && _); [done|]. intros [= ->]. exists [Char n]. split; [done|]. split; [|by constructor].
    rewrite (get_at (Char n) _ n) by done. by rewrite decide_True.
  - destruct (length parts =? 0) eqn:Hlen; [|done]. apply Nat.eqb_eq, length_zero_iff_nil in Hlen as ->.
    destruct (findSubNode n SingleStageWildcard true) as [m|] eqn:Hm; [|done]. cbn [mbind option_bind]. intros Hdm.
    apply wildcard_found in Hm as [Hm Hw]; [|by eexists]. exists [Char n; Char m]. split; [done|]. split; [|by constructor].
    rewrite (get_at (Char n) _ n) by done. rewrite decide_False by done. rewrite (get_at (Char m) _ m) by done. by rewrite decide_True.
Qed.

(** No unrelated rule decides: with any wildcards, the data a search returns is that of a
    rule whose segments match, as patterns, the first segments of the operation one by one,
    or all of them with one wildcard segment more. *)
Theorem acl_search_sound (rules : list (list ascii * D)) op d :
  Search (build rules) op = Some d → ∃ r, r ∈ rules ∧ r.2 = d ∧ covers (operation_parts r.1) (operation_parts op).
Proof.
  intros H. apply search_covers in H as (ps & Hne & Hg & Hc); [|apply parts_segments|apply build_wf].
  rewrite get_build in Hg by done. apply first_rule_elem in Hg as (r & Hr & <- & Hd). by exists r.
Qed.

(** *** Rules without wildcards *)

(** The first answer along the beginnings of the operation, [pre] being behind. *)
Fixpoint shortest (f : list (list ascii) → option D) pre parts : option D :=
  match parts with
  | [] => None
  | c :: parts' =>
      match f (pre ++ [c]) with
      | Some d => Some d
      | None => shortest f (pre ++ [c]) parts'
      end
  end.

Lemma shortest_ext f g parts : ∀ pre, (∀ ps, ps ≠ [] → f ps = g ps) → shortest f pre parts = shortest g pre parts.
Proof.
  induction parts as [|c parts IH]; intros pre H; [done|]. cbn. rewrite H, IH; [done|done|]. by destruct pre.
Qed.

Lemma shortest_cons f c pre parts : shortest f (c :: pre) parts = shortest (λ ps, f (c :: ps)) pre parts.
Proof. revert pre. induction parts as [|c' parts IH]; intros pre; [done|]. cbn. by rewrite IH. Qed.

Lemma shortest_none f parts : ∀ pre, (∀ ps, f ps = None) → shortest f pre parts = None.
Proof. induction parts as [|c parts IH]; intros pre H; [done|]. cbn. rewrite H. by apply IH. Qed.

Inductive literal : list (trieNode D) → Prop :=
  | literal_intro nodes : (∀ n, n ∈ nodes → star ∉ Char n) → (∀ n, n ∈ nodes → literal (SubNodes n)) → literal nodes.

Lemma glob_literal p s : star ∉ p → glob p s ↔ s = p.
Proof.
  revert s. induction p as [|c p IH]; intros s Hp; [done|]. apply not_elem_of_cons in Hp as [Hc Hp]. cbn.
  rewrite decide_False by done. setoid_rewrite IH; [|done]. naive_solver.
Qed.

Lemma literal_found char nodes isEnd : literal nodes → findNodeWithWildcard char nodes isEnd = findNode char nodes.
Proof.
  intros Hl. inversion_clear Hl as [? Hn _]. induction nodes as [|m nodes IH]; [done|]. cbn.
  assert (Hm : star ∉ Char m) by (apply Hn; by left). case_decide as E; [done|].
  rewrite decide_False by (intros Ew; rewrite Ew in Hm; set_solver). rewrite decide_False by (intros Ew; rewrite Ew in Hm; set_solver).
  destruct (isMatch char (Char m)) eqn:Em; [apply acl_match, glob_literal in Em; congruence|].
  apply IH. intros n Hin. apply Hn. by right.
Qed.

Lemma literal_put parts : ∀ data nodes, Forall (λ c, star ∉ c) parts → literal nodes → literal (put parts data nodes).
Proof.
  induction parts as [|c parts IH]; intros data nodes Hp Hl; [done|]. apply list.Forall_cons in Hp as [Hc Hp].
  inversion_clear Hl as [? Hn Hsub]. cbn [put]. destruct (findNode c nodes) as [n|].
  - constructor; intros m [Hm|(m' & Hm' & ->)]%elem_of_update; auto; destruct (_ =? 0); cbn [SubNodes Char]; auto.
  - constructor; intros m; rewrite elem_of_app, list_elem_of_singleton; (intros [Hm| ->]; [by auto|]); [done|].
    cbn [SubNodes]. apply IH; [done|]. constructor; by intros ? ?%elem_of_nil.
Qed.

Lemma not_suffix (c w : list ascii) : star ∉ c → star ∈ w → HasSuffix c w = false.
Proof.
  intros Hc Hw. apply bool_decide_eq_false. intros [x ->]. apply Hc, elem_of_app. by right.
Qed.

Lemma search_literal parts : ∀ node,
  literal (SubNodes node) → search parts node = shortest (λ ps, get ps (SubNodes node)) [] parts.
Proof.
  induction parts as [|char parts IH]; intros node Hl; [done|]. cbn [search shortest app]. unfold findSubNode. rewrite literal_found by done.
  rewrite shortest_cons. cbn [get]. destruct (findNode char (SubNodes node)) as [n|] eqn:Hf; cbn [mbind option_bind].
  - destruct (findNode_Some _ _ _ Hf) as [Hn Hc]. inversion_clear Hl as [? Hs Hsub]. specialize (Hs n Hn). specialize (Hsub n Hn).
    rewrite decide_True by done. destruct (Data n) as [d|] eqn:Hd.
    + rewrite (not_suffix _ SingleStageWildcard) by (done || set_solver). by rewrite andb_false_r.
    + destruct parts as [|p parts].
      * cbn [length Nat.eqb shortest]. rewrite literal_found by done.
        destruct (findNode SingleStageWildcard (SubNodes n)) as [m|] eqn:Hm; [|done]. exfalso.
        apply findNode_Some in Hm as [Hm Ec]. inversion_clear Hsub as [? Hs' _]. apply (Hs' m Hm). rewrite Ec. set_solver.
      * cbn [length Nat.eqb]. rewrite IH by done. apply shortest_ext. intros ps Hps. by rewrite decide_False.
  - by rewrite shortest_none.
Qed.

Lemma star_free_parts op : star ∉ op → Forall (λ c, star ∉ c) (operation_parts op).
Proof.
  intros Hop. apply Forall_fmap, list.Forall_forall. intros x Hx. cbn. apply not_elem_of_cons. split; [done|].
  intros Hin. apply Hop. rewrite <-(Join_Split slash op). eapply elem_of_Join; [done|]. destruct (Split slash op); [done|by right].
Qed.

Lemma build_literal rules : Forall (λ r, star ∉ r.1) rules → literal (SubNodes (build rules)).
Proof.
  induction rules as [|r rules IH] using rev_ind; intros Hr; [constructor; by intros ? ?%elem_of_nil|].
  apply Forall_app in Hr as [Hrs Hr]. apply list.Forall_cons in Hr as [Hr _]. rewrite build_snoc.
  apply literal_put; [by apply star_free_parts|by apply IH].
Qed.

(** Without wildcards a search returns the data of the shortest rule that is a segment-wise
    beginning of the operation. *)
Theorem acl_literal_search_exact (rules : list (list ascii * D)) op :
  Forall (λ r, star ∉ r.1) rules →
  Search (build rules) op = shortest (λ ps, first_rule ps rules) [] (operation_parts op).
Proof.
  intros Hr. unfold Search. rewrite search_literal by (by apply build_literal). apply shortest_ext. intros ps Hps. by apply get_build.
Qed.

End rules.

(** C29: The table of isMatch computes pattern matching: a segment matches a pattern if and
    only if it can be cut into pieces that equal the literal bytes of the pattern and
    arbitrary strings for its stars; a pattern without stars matches itself only. *)
Theorem acl_pattern_match_exact target pattern :
  (isMatch target pattern = true ↔ glob pattern target) ∧ (star ∉ pattern → isMatch target pattern = true ↔ target = pattern).
Proof. split; [apply acl_match|]. intros Hp. by rewrite acl_match, glob_literal. Qed.

(** ** Examples *)

Definition demo_rules : list (list ascii * nat) :=
  [(bytes "/a", 1); (bytes "/b/c", 2); (bytes "/b/c/d", 3)].

Lemma acl_literal_search_exact_witness :
  Search (build demo_rules) (bytes "/b/c/d") = Some 2 ∧ Search (build demo_rules) (bytes "/b") = None.
Proof.
  assert (H : Forall (λ r : list ascii * nat, star ∉ r.1) demo_rules) by (repeat constructor; cbn; set_solver).
  split; rewrite (acl_literal_search_exact demo_rules _ H); vm_compute; reflexivity.
Defined.

Lemma acl_search_sound_witness : ∃ r, r ∈ demo_rules ∧ r.2 = 1 ∧ covers (operation_parts r.1) (operation_parts (bytes "/a/x")).
Proof. apply (acl_search_sound demo_rules (bytes "/a/x") 1). vm_compute. reflexivity. Defined.
