(* ===== verification/Acl.v ===== *)
(** * Access control of service invocation
      (pkg/acl/acl.go, with the types of pkg/config/configuration.go)

    With the parsing of caller identities (pkg/security/spiffe/spiffe.go).

    Strings are lists of bytes.  The operations of a policy share one object per
    operation name ([operations] in the source); the trie refers to it by that
    name.  The identity of the caller is what [spiffe.FromGRPCContext] returned:
    an error, no identity, or an identity.  The metrics are left out. *)

From Stdlib Require Import Ascii.
From S2P Require Import Prelude GoStrings AclTrie.

(** ** Data *)

Notation str := (list ascii).

Definition AllowAccess : str := bytes "allow".
Definition DenyAccess : str := bytes "deny".
Definition DefaultTrustDomain : str := bytes "public".

Inductive ActionPolicy := ActionPolicyNone | ActionPolicyApp | ActionPolicyGlobal.

Record AppOperation := mkAppOperation { Operation : str; HTTPVerb : list str; Action : str }.

Record AppPolicySpec := mkAppPolicySpec {
  aps_AppName : str; aps_DefaultAction : str; aps_TrustDomain : str; aps_Namespace : str;
  aps_AppOperationActions : list AppOperation }.

(** [AppPolicies] can be nil, which differs from empty. *)
Record AccessControlSpec := mkAccessControlSpec {
  acs_DefaultAction : str; acs_TrustDomain : str; acs_AppPolicies : option (list AppPolicySpec) }.

Record AccessControlListOperationAction := mkOperationAction { VerbAction : gmap str str; OperationAction : str }.

Record AccessControlListPolicySpec := mkPolicySpec {
  ps_AppName : str; ps_DefaultAction : str; ps_TrustDomain : str; ps_Namespace : str;
  ps_Trie : trieNode str; ps_operations : gmap str AccessControlListOperationAction }.

Record AccessControlList := mkAccessControlList {
  acl_DefaultAction : str; acl_TrustDomain : str; PolicySpec : gmap str AccessControlListPolicySpec }.

Record Parsed := mkParsed { sp_TrustDomain : str; sp_Namespace : str; sp_AppID : str }.

(** [spiffe.FromID] of an ID with this trust domain and path; the path
    [FromStrings] asks for. *)
Definition FromID (td path : str) : option Parsed :=
  match Split slash path with
  | s0 :: s1 :: ns :: app :: _ =>
      if bool_decide (s0 = []) && bool_decide (s1 = bytes "ns") && negb (length ns =? 0) && negb (length app =? 0)
      then Some (mkParsed td ns app) else None
  | _ => None
  end.

Definition FromStrings_path (namespace appID : str) : str :=
  [slash] ++ bytes "ns" ++ [slash] ++ namespace ++ [slash] ++ appID.

(** A verb other than NONE, by its name. *)
Definition Verb := option str.

Definition isActionAllowed (action : str) : bool := EqualFold action AllowAccess.

Definition getKeyForAppID (appID namespace : str) : str := appID ++ bytes "||" ++ namespace.

Definition mergeAction (current next : str) : str :=
  if negb (bool_decide (current = [])) && negb (isActionAllowed current) then current else next.

(** ** Operations *)

Section acl.
Context `{UnicodeCase}.

Definition escaped_star : str := bytes "%2a".

Definition bad_segment (seg : str) : bool :=
  let '(before, cut) := Cut seg semicolon in
  bool_decide (before = dot_seg) || bool_decide (before = dotdot_seg) || (cut && bool_decide (before = empty_seg)).

(** decoded, stripped, ok *)
Definition canonicalHTTPOperation (op : str) : str * str * bool :=
  let parts := Split3 percent "2"%char "a"%char (ReplaceAll3 percent "2"%char "A"%char escaped_star op) in
  let decoded_ok :=
    unescaped ← mapM PathUnescape parts;
    let decoded := Join escaped_star unescaped in
    if Count decoded slash =? Count op slash then Some decoded else None in
  let decoded := default op decoded_ok in
  let segs := Split slash decoded in
  let stripped := Join [slash] ((λ seg, (Cut seg semicolon).1) <$> segs) in
  (ToLower decoded, ToLower stripped,
   bool_decide (is_Some decoded_ok) && forallb (λ seg, negb (bad_segment seg)) segs).

Definition with_slash (op : str) : str := if HasPrefix op [slash] then op else slash :: op.

(** The name under which a rule is stored. *)
Definition rule_name (isHTTP : bool) (op : str) : str :=
  let op := with_slash op in
  if isHTTP then (canonicalHTTPOperation op).1.2 else op.

Definition new_action : AccessControlListOperationAction := mkOperationAction ∅ [].

(** The actions of one rule, merged into those of its operation. *)
Definition merge_verb (action : str) (m : gmap str str) (verb : str) : gmap str str :=
  <[verb := mergeAction (default [] (m !! verb)) action]> m.

Definition merge_rule (rule : AppOperation) (a : AccessControlListOperationAction) : AccessControlListOperationAction :=
  mkOperationAction (foldl (merge_verb (Action rule)) (VerbAction a) (HTTPVerb rule))
    (mergeAction (OperationAction a) (Action rule)).

Definition add_rule (isHTTP : bool) (st : trieNode str * gmap str AccessControlListOperationAction) (rule : AppOperation) :
    trieNode str * gmap str AccessControlListOperationAction :=
  let '(trie, operations) := st in
  let name := rule_name isHTTP (Operation rule) in
  let trie := match operations !! name with Some _ => trie | None => PutOperationAction name name trie end in
  (trie, <[name := merge_rule rule (default new_action (operations !! name))]> operations).

Definition parse_policy (isHTTP : bool) (p : AppPolicySpec) : AccessControlListPolicySpec :=
  let '(trie, operations) := foldl (add_rule isHTTP) (NewTrie, ∅) (aps_AppOperationActions p) in
  mkPolicySpec (aps_AppName p) (aps_DefaultAction p) (aps_TrustDomain p) (aps_Namespace p) trie operations.

(** ** ParseAccessControlSpec *)

Record parse_error := mkParseError {
  invalidTrustDomain : list str; invalidNamespace : list str; invalidAppName : bool }.

Record parse_state := mkParseState { pt_errors : parse_error; pt_policies : gmap str AccessControlListPolicySpec }.

(** One iteration of the loop over the app policies. *)
Definition parse_step (isHTTP : bool) (st : parse_state) (p : AppPolicySpec) : parse_state :=
  let e := pt_errors st in
  let noName := invalidAppName e || bool_decide (aps_AppName p = []) in
  let noTrustDomain := bool_decide (aps_TrustDomain p = []) in
  let noNamespace := bool_decide (aps_Namespace p = []) in
  let e' := mkParseError
    (if noTrustDomain then invalidTrustDomain e ++ [aps_AppName p] else invalidTrustDomain e)
    (if noNamespace then invalidNamespace e ++ [aps_AppName p] else invalidNamespace e) noName in
  if noTrustDomain || noNamespace || noName then mkParseState e' (pt_policies st)
  else mkParseState e' (<[getKeyForAppID (aps_AppName p) (aps_Namespace p) := parse_policy isHTTP p]> (pt_policies st)).

Definition policies_of (spec : AccessControlSpec) : list AppPolicySpec := default [] (acs_AppPolicies spec).

Definition default_action (spec : AccessControlSpec) : str :=
  if bool_decide (acs_DefaultAction spec = []) then
    match acs_AppPolicies spec with Some [] => AllowAccess | _ => DenyAccess end
  else ToLower (acs_DefaultAction spec).

Definition no_errors (e : parse_error) : bool :=
  (length (invalidTrustDomain e) =? 0) && (length (invalidNamespace e) =? 0) && negb (invalidAppName e).

(** [inr None]: no list is configured. *)
Definition ParseAccessControlSpec (spec : option AccessControlSpec) (isHTTP : bool) : parse_error + option AccessControlList :=
  match spec with
  | None => inr None
  | Some spec =>
      if bool_decide (acs_TrustDomain spec = []) && bool_decide (acs_DefaultAction spec = []) && (length (policies_of spec) =? 0)
      then inr None
      else
        let st := foldl (parse_step isHTTP) (mkParseState (mkParseError [] [] false) ∅) (policies_of spec) in
        if no_errors (pt_errors st) then
          inr (Some (mkAccessControlList (default_action spec)
            (if bool_decide (acs_TrustDomain spec = []) then DefaultTrustDomain else acs_TrustDomain spec) (pt_policies st)))
        else inl (pt_errors st)
  end.

(** ** Decisions *)

Definition operationAction (p : AccessControlListPolicySpec) (operation : str) (verb : Verb) (isHTTP : bool) (action : str) : str :=
  match Search (ps_Trie p) operation ≫= λ name, ps_operations p !! name with
  | None => action
  | Some op =>
      if isHTTP then
        match verb with
        | Some v =>
            match VerbAction op !! v with
            | Some a => a
            | None => default action (VerbAction op !! [star])
            end
        | None => ps_DefaultAction p
        end
      else OperationAction op
  end.

Definition isOperationAllowedByAccessControlPolicy (spiffeID : option Parsed) (inputOperation : str) (verb : Verb) (isHTTP : bool)
    (acl : option AccessControlList) : bool * ActionPolicy :=
  match acl with
  | None => (isActionAllowed AllowAccess, ActionPolicyNone)
  | Some acl =>
      let global := (isActionAllowed (acl_DefaultAction acl), ActionPolicyGlobal) in
      match spiffeID with
      | None => global
      | Some id =>
          match PolicySpec acl !! getKeyForAppID (sp_AppID id) (sp_Namespace id) with
          | None => global
          | Some p =>
              if negb (bool_decide (ps_TrustDomain p = sp_TrustDomain id)) then global
              else if negb (bool_decide (ps_Namespace p = sp_Namespace id)) then global
              else
                let '(action, policy) :=
                  if bool_decide (ps_DefaultAction p = []) then (acl_DefaultAction acl, ActionPolicyGlobal)
                  else (ps_DefaultAction p, ActionPolicyApp) in
                let op := with_slash inputOperation in
                let check ops := (forallb (λ op, isActionAllowed (operationAction p op verb isHTTP action)) ops, policy) in
                if isHTTP then
                  let '(decoded, stripped, ok) := canonicalHTTPOperation op in
                  if ok then check [stripped; decoded] else (false, policy)
                else check [op]
          end
      end
  end.

(** [caller] is the identity, missing, or an error. *)
Definition ApplyAccessControlPolicies (caller : string + option Parsed) (operation : str) (verb : Verb) (isHTTP : bool)
    (acl : option AccessControlList) : bool :=
  match caller with
  | inl _ => false
  | inr id => (isOperationAllowedByAccessControlPolicy id operation verb isHTTP acl).1
  end.

End acl.
