(* ===== verification/AclProps.v ===== *)
(** * Properties of access control

    What a policy means, and that requests cannot evade it by the way they are
    written. *)

From Stdlib Require Import Ascii.
From S2P Require Import Prelude GoStrings AclTrie Acl.

(** ** Identities *)

(** The path of an identity made from a namespace and an app ID parses back to them. *)
Theorem spiffe_id_roundtrip td ns app :
  ns ≠ [] → app ≠ [] → slash ∉ ns → slash ∉ app → FromID td (FromStrings_path ns app) = Some (mkParsed td ns app).
Proof.
  intros Hn Ha Hns Happ. unfold FromID.
  assert (E : Split slash (FromStrings_path ns app) = [[]; bytes "ns"; ns; app]).
  { change (FromStrings_path ns app) with (Join [slash] [[]; bytes "ns"; ns; app]). apply Split_Join; [done|].
    repeat constructor; [apply not_elem_of_nil|vm_compute; set_solver|done|done]. }
  rewrite E. by destruct ns, app.
Qed.

Lemma spiffe_id_roundtrip_witness :
  FromID (bytes "public") (FromStrings_path (bytes "ns1") (bytes "app1")) = Some (mkParsed (bytes "public") (bytes "ns1") (bytes "app1")).
Proof. apply (spiffe_id_roundtrip (bytes "public") (bytes "ns1") (bytes "app1")); vm_compute; try discriminate; set_solver. Defined.

(** ** Merging actions *)

Lemma foldl_merge_denied as_ : ∀ a, a ≠ [] → isActionAllowed a = false → foldl mergeAction a as_ = a.
Proof.
  induction as_ as [|b as_ IH]; intros a Ha Hd; [done|]. cbn. unfold mergeAction at 2. rewrite bool_decide_eq_false_2, Hd by done. by apply IH.
Qed.

Lemma foldl_merge_soft as_ b : ∀ a, (a = [] ∨ isActionAllowed a = true) → foldl mergeAction a (b :: as_) = foldl mergeAction b as_.
Proof.
  intros a Ha. cbn. f_equal. unfold mergeAction. destruct Ha as [->|Ha]; [done|]. by rewrite Ha, andb_false_r.
Qed.

Lemma merge_allowed as_ : ∀ a, (a = [] ∨ isActionAllowed a = true) →
  isActionAllowed (foldl mergeAction a as_) = true ↔
    (∀ b, b ∈ as_ → b = [] ∨ isActionAllowed b = true) ∧ ∃ b, list.last (a :: as_) = Some b ∧ isActionAllowed b = true.
Proof.
  induction as_ as [|b as_ IH]; intros a Ha.
  - cbn. split; [intros H; split; [by intros ? ?%elem_of_nil|eauto]|]. by intros (_ & ? & [= <-] & ?).
  - rewrite foldl_merge_soft by done. destruct (decide (b = [] ∨ isActionAllowed b = true)) as [Hb|Hb].
    + rewrite IH by done. change (list.last (a :: b :: as_)) with (list.last (b :: as_)). setoid_rewrite elem_of_cons. naive_solver.
    + assert (b ≠ []) by tauto. assert (Hd : isActionAllowed b = false) by (destruct (isActionAllowed b); tauto).
      rewrite foldl_merge_denied, Hd by done. split; [done|]. intros [Hall _]. destruct (Hb (Hall b ltac:(left))).
Qed.

(** ** The rules of a policy *)

(** The rules stored under a name; the actions they give for a verb, one per mention. *)
Definition verb_actions (verb : str) (rules : list AppOperation) : list str :=
  rules ≫= λ r, (λ _, Action r) <$> filter (λ v, v = verb) (HTTPVerb r).

Definition merged (as_ : list str) : option str := match as_ with [] => None | _ => Some (foldl mergeAction [] as_) end.

Lemma merged_snoc as_ a : merged (as_ ++ [a]) = Some (mergeAction (default [] (merged as_)) a).
Proof. destruct as_ as [|b as_]; [done|]. cbn. by rewrite foldl_app. Qed.

Lemma merge_verbs action verbs v : ∀ m as_,
  m !! v = merged as_ →
  foldl (merge_verb action) m verbs !! v = merged (as_ ++ ((λ _, action) <$> filter (λ w, w = v) verbs)).
Proof.
  induction verbs as [|w verbs IH]; intros m as_ Hm; [by rewrite app_nil_r|]. cbn [foldl]. rewrite list.filter_cons.
  destruct (decide (w = v)) as [->|Hw].
  - rewrite (IH _ (as_ ++ [action])); [|unfold merge_verb; by rewrite lookup_insert_eq, Hm, merged_snoc].
    by rewrite <-(assoc_L (++)).
  - apply IH. unfold merge_verb. by rewrite lookup_insert_ne.
Qed.

Lemma merge_rules rules : ∀ v,
  VerbAction (foldl (λ a r, merge_rule r a) new_action rules) !! v = merged (verb_actions v rules) ∧
  OperationAction (foldl (λ a r, merge_rule r a) new_action rules) = foldl mergeAction [] (Action <$> rules).
Proof.
  induction rules as [|r rules IH] using rev_ind; intros v; [split; [apply lookup_empty|done]|].
  destruct (IH v) as [IH1 IH2]. rewrite !foldl_app. cbn [foldl merge_rule VerbAction OperationAction]. split.
  - rewrite (merge_verbs _ _ _ _ (verb_actions v rules)) by done. unfold verb_actions. rewrite bind_app. cbn. by rewrite app_nil_r.
  - rewrite fmap_app, foldl_app. cbn. by rewrite IH2.
Qed.

Section acl_props.
Context `{UnicodeCase}.

Section policy.
Variable isHTTP : bool.

Notation name r := (rule_name isHTTP (Operation r)).

Definition rules_for (n : str) (rules : list AppOperation) : list AppOperation := filter (λ r, name r = n) rules.

Definition named_rules (rules : list AppOperation) : list (str * str) := (λ r, (name r, name r)) <$> rules.

Lemma rules_for_snoc n rules r : rules_for n (rules ++ [r]) = rules_for n rules ++ if decide (name r = n) then [r] else [].
Proof. unfold rules_for. rewrite list.filter_app, list.filter_cons, list.filter_nil. by case_decide. Qed.

Lemma named_rules_snoc parts rules r :
  first_rule parts (named_rules (rules ++ [r])) =
    match first_rule parts (named_rules rules) with
    | Some d => Some d
    | None => if decide (operation_parts (name r) = parts) then Some (name r) else None
    end.
Proof. unfold named_rules. rewrite fmap_app. apply first_rule_snoc. Qed.

Lemma stored_rule_named rules r : r ∈ rules → is_Some (first_rule (operation_parts (name r)) (named_rules rules)).
Proof.
  intros Hr. unfold first_rule. destruct (filter _ (named_rules rules)) as [|x l] eqn:E; [|cbn; eauto].
  assert (Hin : (name r, name r) ∈ filter (λ x, operation_parts x.1 = operation_parts (name r)) (named_rules rules)).
  { apply list_elem_of_filter. split; [done|]. apply list_elem_of_fmap. by exists r. }
  rewrite E in Hin. by apply elem_of_nil in Hin.
Qed.

Lemma first_rule_nodup rules r parts :
  rules_for (name r) rules ≠ [] → first_rule parts (named_rules (rules ++ [r])) = first_rule parts (named_rules rules).
Proof.
  intros Hin. rewrite named_rules_snoc. destruct (first_rule parts _) eqn:E; [done|]. case_decide as Hp; [|done]. exfalso.
  destruct (rules_for (name r) rules) as [|r' l] eqn:El; [done|].
  assert (Hr : r' ∈ rules_for (name r) rules) by (rewrite El; left). apply list_elem_of_filter in Hr as [En Hr].
  destruct (stored_rule_named rules r' Hr) as [d Hd]. rewrite En, Hp in Hd. congruence.
Qed.

Definition stored (rs : list AppOperation) : option AccessControlListOperationAction :=
  match rs with [] => None | _ => Some (foldl (λ a r, merge_rule r a) new_action rs) end.

Lemma stored_snoc rs r : stored (rs ++ [r]) = Some (merge_rule r (default new_action (stored rs))).
Proof. destruct rs as [|x rs]; [done|]. cbn. by rewrite foldl_app. Qed.

(** What the fold over the rules of a policy leaves. *)
Record policy_for (rules : list AppOperation) (st : trieNode str * gmap str AccessControlListOperationAction) : Prop := {
  pf_ops : ∀ n, st.2 !! n = stored (rules_for n rules);
  pf_get : ∀ parts, parts ≠ [] → get parts (SubNodes st.1) = first_rule parts (named_rules rules);
  pf_literal : Forall (λ r, star ∉ name r) rules → literal (SubNodes st.1)
}.

Lemma add_rule_ok rules st r : policy_for rules st → policy_for (rules ++ [r]) (add_rule isHTTP st r).
Proof.
  destruct st as [trie ops]. intros [Hops Hget Hlit]. cbn [fst snd] in *. unfold add_rule. split; cbn [fst snd].
  - intros n. rewrite rules_for_snoc. destruct (decide (name r = n)) as [<-|Hn].
    + by rewrite lookup_insert_eq, Hops, stored_snoc.
    + rewrite lookup_insert_ne, Hops, app_nil_r by done. done.
  - intros parts Hne. rewrite Hops. destruct (rules_for (name r) rules) as [|r' l] eqn:E; cbn [stored].
    + cbn [SubNodes PutOperationAction]. rewrite get_put, named_rules_snoc. destruct (decide (operation_parts (name r) = parts)) as [<-|Hp].
      * rewrite decide_True, Hget by done. by destruct (first_rule _ _).
      * rewrite decide_False, Hget by naive_solver. by destruct (first_rule _ _).
    + rewrite Hget by done. symmetry. apply first_rule_nodup. by rewrite E.
  - intros [Hs Hr]%Forall_app. apply list.Forall_cons in Hr as [Hr _]. destruct (ops !! name r); [by apply Hlit|].
    cbn [SubNodes PutOperationAction]. apply literal_put; [by apply star_free_parts|by apply Hlit].
Qed.

Lemma parse_policy_ok rules : policy_for rules (foldl (add_rule isHTTP) (NewTrie, ∅) rules).
Proof.
  induction rules as [|r rules IH] using rev_ind.
  - split; cbn; [intros n; apply lookup_empty|by intros []|]. intros _. constructor; by intros ? ?%elem_of_nil.
  - rewrite foldl_app. by apply add_rule_ok.
Qed.

(** What the rules of a policy without wildcards mean for an operation: the
    shortest rule that is a beginning of it decides, with the merged actions. *)
Definition rules_action (rules : list AppOperation) (default_ : str) (op : str) (verb : Verb) (action : str) : str :=
  match shortest (λ ps, first_rule ps (named_rules rules)) [] (operation_parts op) with
  | None => action
  | Some n =>
      let rs := rules_for n rules in
      if isHTTP then
        match verb with
        | None => default_
        | Some v => default (default action (merged (verb_actions [star] rs))) (merged (verb_actions v rs))
        end
      else foldl mergeAction [] (Action <$> rs)
  end.

Lemma shortest_found {D} (f : list (list ascii) → option D) parts : ∀ pre d, shortest f pre parts = Some d → ∃ ps, f ps = Some d.
Proof.
  induction parts as [|c parts IH]; intros pre d; [done|]. cbn. destruct (f (pre ++ [c])) eqn:E; [intros [= <-]; eauto|apply IH].
Qed.

Lemma named_rule_stored ps rules n : first_rule ps (named_rules rules) = Some n → rules_for n rules ≠ [].
Proof.
  intros (x & Hx & _ & <-)%first_rule_elem. unfold named_rules in Hx. apply list_elem_of_fmap in Hx as (r & -> & Hr). cbn.
  intros E. assert (Hin : r ∈ rules_for (name r) rules) by (by apply list_elem_of_filter). rewrite E in Hin. by apply elem_of_nil in Hin.
Qed.

(** C28: What a parsed policy does. If no operation of a policy has a wildcard, the action
    of the parsed policy for an operation, by trie search and shared rule objects, is that
    of its rules: the shortest rule that is a segment-wise beginning of the operation
    decides, with the merged actions of all rules of that name, for HTTP those of the verb
    or else of the verb *; without such a rule the default applies. *)
Theorem acl_policy_exact (p : AppPolicySpec) op verb action :
  Forall (λ r, star ∉ name r) (aps_AppOperationActions p) →
  operationAction (parse_policy isHTTP p) op verb isHTTP action =
    rules_action (aps_AppOperationActions p) (aps_DefaultAction p) op verb action.
Proof.
  intros Hs. unfold parse_policy. pose proof (parse_policy_ok (aps_AppOperationActions p)) as Hp.
  destruct (foldl (add_rule isHTTP) (NewTrie, ∅) (aps_AppOperationActions p)) as [trie ops]. destruct Hp as [Hops Hget Hlit]. cbn [fst snd] in *.
  unfold operationAction, rules_action. cbn [ps_Trie ps_operations ps_DefaultAction]. unfold Search. rewrite search_literal by auto.
  rewrite (shortest_ext _ (λ ps, first_rule ps (named_rules (aps_AppOperationActions p)))) by auto.
  destruct (shortest _ [] (operation_parts op)) as [n|] eqn:En; [|done]. cbn [mbind option_bind]. rewrite Hops.
  apply shortest_found in En as (ps & En). apply named_rule_stored in En.
  destruct (rules_for n _) as [|r rs]; [done|]. cbn [stored]. destruct (merge_rules (r :: rs) [star]) as [E1 E2].
  destruct isHTTP; [|done]. destruct verb as [v|]; [|done]. destruct (merge_rules (r :: rs) v) as [E3 _]. rewrite E3, E1.
  by destruct (merged _).
Qed.

End policy.

(** ** Ways to write an operation *)

Definition escape (h l : ascii) : option ascii := x ← hexval h; y ← hexval l; Some (ascii_of_nat (16 * x + y)).

(** [encodes s p]: percent-decoding [s] once gives [p], with an escaped star kept
    as the three bytes %2a, apart from a star.  An escaped slash and an escape
    that is not one are left out. *)
Inductive encodes : str → str → Prop :=
  | encodes_nil : encodes [] []
  | encodes_lit c s p : c ≠ percent → encodes s p → encodes (c :: s) (c :: p)
  | encodes_esc h l c s p :
      escape h l = Some c → c ≠ slash → c ≠ star → encodes s p → encodes (percent :: h :: l :: s) (c :: p)
  | encodes_star h l s p :
      escape h l = Some star → encodes s p → encodes (percent :: h :: l :: s) (escaped_star ++ p).

Lemma encodes_self p : percent ∉ p → encodes p p.
Proof. induction p as [|c p IH]; intros Hp; [constructor|]. apply not_elem_of_cons in Hp as [? ?]. constructor; auto. Qed.

Lemma escape_digits h l c : escape h l = Some c → h ≠ percent ∧ l ≠ percent ∧ h ≠ slash ∧ l ≠ slash.
Proof.
  unfold escape. destruct (hexval h) as [x|] eqn:Hh; [|done]. destruct (hexval l) as [y|] eqn:Hl; [|done]. intros _.
  split_and!; intros ->; vm_compute in Hh, Hl; done.
Qed.

Lemma escape_star h l : escape h l = Some star → h = "2"%char ∧ (l = "a"%char ∨ l = "A"%char).
Proof.
  destruct h as [[] [] [] [] [] [] [] []]; try (intros E; vm_compute in E; discriminate E);
    destruct l as [[] [] [] [] [] [] [] []]; intros E; vm_compute in E; try discriminate E; auto.
Qed.

Notation unstar := (ReplaceAll3 percent "2"%char "A"%char escaped_star).
Notation at_stars := (Split3 percent "2"%char "a"%char).

(** What [canonicalHTTPOperation] decodes before it compares the slashes. *)
Definition decode (s : str) : option str := us ← mapM PathUnescape (at_stars (unstar s)); Some (Join escaped_star us).

Lemma Replace3_other x y z new a s : a ≠ x → ReplaceAll3 x y z new (a :: s) = a :: ReplaceAll3 x y z new s.
Proof. intros Ha. cbn. destruct s as [|b [|c s]]; [done|done|]. by rewrite decide_False by congruence. Qed.

Lemma Split3_step x y z a s :
  (∀ t, (a, s) ≠ (x, y :: z :: t)) →
  ∃ p ps, Split3 x y z s = p :: ps ∧ Split3 x y z (a :: s) = (a :: p) :: ps.
Proof.
  intros Ha. assert (Hne : ∀ t, Split3 x y z t ≠ []).
  { intros [|a' t]; [done|]. cbn. by repeat case_match. }
  destruct (Split3 x y z s) as [|p ps] eqn:E; [by apply Hne in E|]. exists p, ps. split; [done|].
  cbn. rewrite E. destruct s as [|b [|c s]]; [done|done|]. rewrite decide_False; [done|].
  intros [= -> -> ->]. by apply (Ha s).
Qed.

(** Decoding, one unit at a time. *)
Lemma decode_step (c : ascii) (pre s t : str) :
  (∃ p ps, at_stars (unstar t) = p :: ps ∧ at_stars (unstar s) = (pre ++ p) :: ps) →
  (∀ p, PathUnescape (pre ++ p) = cons c <$> PathUnescape p) → decode s = cons c <$> decode t.
Proof.
  intros (p & ps & Et & Es) Hp. unfold decode. rewrite Et, Es. cbn [mapM]. rewrite Hp.
  destruct (PathUnescape p) as [u|]; [|done]. cbn. destruct (mapM PathUnescape ps) as [[|u' us]|]; done.
Qed.

Lemma decode_lit c s : c ≠ percent → decode (c :: s) = cons c <$> decode s.
Proof.
  intros Hc. apply (decode_step c [c]).
  - rewrite Replace3_other by done. apply Split3_step. congruence.
  - intros p. cbn. by rewrite decide_False.
Qed.

Lemma unstar_esc h l s : h ≠ percent → l ≠ percent → (h, l) ≠ ("2"%char, "A"%char) →
  unstar (percent :: h :: l :: s) = percent :: h :: l :: unstar s.
Proof.
  intros Hh Hl Hne. cbn [ReplaceAll3]. rewrite decide_False by congruence.
  change (percent :: unstar (h :: l :: s) = percent :: h :: l :: unstar s). by rewrite !Replace3_other.
Qed.

Lemma decode_esc h l c s : escape h l = Some c → c ≠ star → decode (percent :: h :: l :: s) = cons c <$> decode s.
Proof.
  intros He Hs. destruct (escape_digits _ _ _ He) as (Hh & Hl & _).
  assert (Hne : ∀ z, z = "a"%char ∨ z = "A"%char → (h, l) ≠ ("2"%char, z)).
  { intros z Hz [= -> ->]. apply Hs. destruct Hz as [-> | ->]; vm_compute in He; by injection He. }
  apply (decode_step c [percent; h; l]).
  - rewrite unstar_esc by auto. destruct (Split3_step percent "2"%char "a"%char l (unstar s)) as (p & ps & E & El); [congruence|].
    exists p, ps. split; [done|]. destruct (Split3_step percent "2"%char "a"%char h (l :: unstar s)) as (p1 & ps1 & E1 & Eh); [congruence|].
    rewrite El in E1. injection E1 as <- <-.
    destruct (Split3_step percent "2"%char "a"%char percent (h :: l :: unstar s)) as (p2 & ps2 & E2 & Ep).
    { intros t [= -> -> _]. by apply (Hne "a"%char); [left|]. }
    rewrite Eh in E2. by injection E2 as <- <-.
  - intros p. unfold escape in He. cbn. destruct (hexval h), (hexval l); try done. cbn in He. by injection He as <-.
Qed.

Lemma decode_star h l s : escape h l = Some star → decode (percent :: h :: l :: s) = app escaped_star <$> decode s.
Proof.
  intros [-> Hl]%escape_star. assert (E : unstar (percent :: "2"%char :: l :: s) = percent :: "2"%char :: "a"%char :: unstar s).
  { destruct Hl as [-> | ->]; [by apply unstar_esc|done]. }
  unfold decode. rewrite E.
  change (at_stars (percent :: "2"%char :: "a"%char :: unstar s)) with ([] :: at_stars (unstar s)). cbn [mapM].
  destruct (Split3_step percent "2"%char "a"%char "x"%char (unstar s)) as (p & ps & -> & _).
  { intros t Ht. apply (f_equal fst) in Ht. vm_compute in Ht. discriminate Ht. }
  cbn [mapM].
  destruct (PathUnescape p) as [u|]; [|done]. cbn. by destruct (mapM PathUnescape ps) as [us|].
Qed.

(** A head that is not a percent sign is one of the string. *)
Lemma unstar_head s c t : unstar s = c :: t → c ≠ percent → ∃ s', s = c :: s' ∧ t = unstar s'.
Proof.
  intros E Hc. destruct s as [|a s]; [done|]. destruct (decide (a = percent)) as [->|Ha].
  - cbn in E. destruct s as [|b [|d s]]; [by injection E as <- _..|]. case_decide; by injection E as <- _.
  - rewrite Replace3_other in E by done. injection E as <- <-. eauto.
Qed.

Lemma decode_bad s : (∀ h l s', s = h :: l :: s' → escape h l = None) → decode (percent :: s) = None.
Proof.
  intros Hbad. assert (Hhead : ∀ h l t, unstar s = h :: l :: t → h ≠ percent → l ≠ percent → escape h l = None).
  { intros h l t E Hh Hl. apply unstar_head in E as (s1 & -> & E); [|done]. symmetry in E.
    apply unstar_head in E as (s2 & -> & _); [|done]. by apply (Hbad h l s2). }
  assert (E : unstar (percent :: s) = percent :: unstar s).
  { cbn. destruct s as [|b [|d s]]; [done|done|]. rewrite decide_False; [done|]. intros [= -> ->].
    by specialize (Hbad _ _ _ eq_refl). }
  destruct (Split3_step percent "2"%char "a"%char percent (unstar s)) as (p & ps & Es & Ep).
  { intros t [= Et]. by specialize (Hhead _ _ _ Et ltac:(done) ltac:(done)). }
  unfold decode. rewrite E, Ep. cbn [mapM]. enough (PathUnescape (percent :: p) = None) as -> by done.
  assert (Hp : p `prefix_of` unstar s).
  { clear -Es. revert p ps Es. induction (unstar s) as [|a t IH]; intros p ps Es; [by injection Es as <- _|].
    destruct (decide ((a, take 2 t) = (percent, ["2"%char; "a"%char]))) as [Heq|Hno].
    - destruct t as [|b [|c t]]; [done|done|]. injection Heq as -> -> ->. injection Es as <- _. apply prefix_nil.
    - destruct (Split3_step percent "2"%char "a"%char a t) as (p1 & ps1 & E1 & E2); [intros u [= -> ->]; by apply Hno|].
      rewrite E2 in Es. injection Es as <- _. by eapply prefix_cons, IH. }
  destruct Hp as [k Hk]. destruct p as [|h [|l p]]; [done|done|]. cbn.
  destruct (hexval h) as [x|] eqn:Hx; [|done]. destruct (hexval l) as [y|] eqn:Hy; [|done]. exfalso.
  assert (Hesc : escape h l = None).
  { eapply Hhead; [exact Hk| |]; intros ->; vm_compute in Hx, Hy; done. }
  unfold escape in Hesc. by rewrite Hx, Hy in Hesc.
Qed.

Lemma encodes_decode s p : encodes s p → decode s = Some p ∧ Count s slash = Count p slash.
Proof.
  unfold Count. induction 1 as [|c s p Hc _ [IH1 IH2]|h l c s p He Hs Hst _ [IH1 IH2]|h l s p He _ [IH1 IH2]]; [done|..].
  - rewrite decode_lit, IH1 by done. split; [done|]. rewrite !list.filter_cons. by case_decide; cbn; rewrite IH2.
  - rewrite (decode_esc _ _ c), IH1 by done. split; [done|].
    destruct (escape_digits _ _ _ He) as (_ & _ & Hh & Hl). rewrite !list.filter_cons.
    rewrite (decide_False (P := percent = slash)) by done. by rewrite !decide_False, IH2.
  - rewrite decode_star, IH1 by done. split; [done|].
    destruct (escape_digits _ _ _ He) as (_ & _ & Hh & Hl). rewrite !list.filter_cons.
    rewrite (decide_False (P := percent = slash)) by done. by rewrite !decide_False.
Qed.

(** Whatever decodes without gaining a slash is such a writing. *)
Lemma decode_encodes s p :
  decode s = Some p → Count s slash ≤ Count p slash ∧ (Count p slash = Count s slash → encodes s p).
Proof.
  unfold Count. remember (length s) as n eqn:Hn. revert s p Hn. induction n as [n IH] using lt_wf_ind. intros s p -> Hd.
  destruct s as [|c s]; [injection Hd as <-; split; [done|]; constructor|].
  destruct (decide (c = percent)) as [->|Hc].
  - destruct s as [|h [|l s']]; [by rewrite decode_bad in Hd by done..|].
    destruct (escape h l) as [d|] eqn:Hesc; [|by rewrite decode_bad in Hd by (by intros ? ? ? [= <- <- _])].
    destruct (escape_digits _ _ _ Hesc) as (_ & _ & Hh & Hl).
    assert (Hcnt : filter (λ x, x = slash) (percent :: h :: l :: s') = filter (λ x, x = slash) s').
    { rewrite !list.filter_cons. rewrite (decide_False (P := percent = slash)) by done. by rewrite !decide_False. }
    rewrite Hcnt. destruct (decide (d = star)) as [->|Hst].
    + rewrite decode_star in Hd by done. apply fmap_Some in Hd as (p' & Hd & ->).
      destruct (IH (length s') ltac:(cbn; lia) s' p' eq_refl Hd) as [H1 H2].
      split; [done|]. intros E. constructor; [done|by apply H2].
    + rewrite (decode_esc _ _ d) in Hd by done. apply fmap_Some in Hd as (p' & Hd & ->).
      destruct (IH (length s') ltac:(cbn; lia) s' p' eq_refl Hd) as [H1 H2]. rewrite list.filter_cons.
      case_decide as Hsl; cbn; [split; intros; lia|]. split; [done|]. intros E. constructor; auto.
  - rewrite decode_lit in Hd by done. apply fmap_Some in Hd as (p' & Hd & ->).
    destruct (IH (length s) ltac:(cbn; lia) s p' eq_refl Hd) as [H1 H2]. rewrite !list.filter_cons.
    case_decide; cbn; (split; [lia|]); intros E; constructor; auto; apply H2; lia.
Qed.

Lemma encodes_with_slash s p : encodes s p → encodes (with_slash s) (with_slash p).
Proof.
  intros He. unfold with_slash, HasPrefix. destruct He as [|c s p Hc He|h l c s p E Hs ? He|h l s p E He].
  - by repeat constructor.
  - case_bool_decide as H1; case_bool_decide as H2; try by repeat constructor.
    + exfalso. apply H2. destruct H1 as [k [= ->]]. by exists p.
    + exfalso. apply H1. destruct H2 as [k [= ->]]. by exists s.
  - rewrite bool_decide_eq_false_2 by (intros [k [=]]). rewrite bool_decide_eq_false_2 by (intros [k [=]]; congruence).
    constructor; [done|]. by constructor.
  - rewrite bool_decide_eq_false_2 by (intros [k [=]]). rewrite bool_decide_eq_false_2 by (intros [k [=]]).
    constructor; [done|]. by constructor.
Qed.

Lemma encodes_without_slash s p : encodes (with_slash s) p → ∃ p', encodes s p'.
Proof.
  unfold with_slash. destruct (HasPrefix s [slash]); [by eauto|]. intros He. inversion He; subst; eauto.
Qed.

(** The path without parameters. *)
Definition strip (p : str) : str := Join [slash] ((λ seg, (Cut seg semicolon).1) <$> Split slash p).

Lemma canonical_encoded s p :
  encodes s p → canonicalHTTPOperation s = (ToLower p, ToLower (strip p), forallb (λ seg, negb (bad_segment seg)) (Split slash p)).
Proof.
  intros [Hd Hc]%encodes_decode. unfold decode in Hd. apply bind_Some in Hd as (us & Hus & Hd). injection Hd as <-.
  unfold canonicalHTTPOperation. rewrite Hus. cbn [mbind option_bind]. rewrite Hc, Nat.eqb_refl. done.
Qed.

Lemma canonical_unreadable s : (∀ p, ¬ encodes s p) → (canonicalHTTPOperation s).2 = false.
Proof.
  intros Hno. unfold canonicalHTTPOperation. cbn [snd]. apply andb_false_iff. left. apply bool_decide_eq_false.
  intros [d Hd]. apply bind_Some in Hd as (us & Hus & Hd). case_match eqn:E; [|done]. injection Hd as <-.
  apply Nat.eqb_eq in E. apply (Hno (Join escaped_star us)). apply decode_encodes; [|done].
  unfold decode. by rewrite Hus.
Qed.

Lemma strip_elem c p : c ∈ strip p → c ∈ p ∨ c = slash.
Proof.
  intros [Hc%list_elem_of_singleton|(seg & Hs & Hc)]%elem_of_Join_inv; [by right|].
  apply list_elem_of_fmap in Hs as (seg' & -> & Hs). left. rewrite <-(Join_Split slash p). apply elem_of_Join with seg'; [|done].
  destruct (Cut_spec seg' semicolon) as [[k Ek] _]. rewrite Ek. apply elem_of_app. by left.
Qed.

Lemma strip_segments p : Split slash (strip p) = (λ seg, (Cut seg semicolon).1) <$> Split slash p.
Proof.
  apply Split_Join; [intros E; apply fmap_nil_inv in E; by apply Split_nonempty in E|].
  apply Forall_fmap. eapply list.Forall_impl; [apply Split_free|]. intros seg Hs Hin. apply Hs.
  destruct (Cut_spec seg semicolon) as [[k Ek] _]. rewrite Ek. apply elem_of_app. by left.
Qed.

Lemma plain_segment q seg : semicolon ∉ q → seg ∈ Split slash q → Cut seg semicolon = (seg, false).
Proof. intros Hq Hs. apply Cut_none. intros Hin. apply Hq. rewrite <-(Join_Split slash q). by eapply elem_of_Join. Qed.

Lemma strip_plain q : semicolon ∉ q → strip q = q.
Proof.
  intros Hq. unfold strip. transitivity (Join [slash] (Split slash q)); [|apply Join_Split]. f_equal. rewrite <-(list_fmap_id (Split slash q)) at 2.
  apply list_fmap_ext. intros i seg Hi. cbn. by rewrite (plain_segment q) by (done || by eapply list_elem_of_lookup_2).
Qed.

(** A path whose lowered segments are those of an acceptable path without its
    parameters is acceptable. *)
Lemma segments_ok p q :
  semicolon ∉ q → lower (strip p) = lower q →
  forallb (λ seg, negb (bad_segment seg)) (Split slash p) = true → forallb (λ seg, negb (bad_segment seg)) (Split slash q) = true.
Proof.
  intros Hq E Hp. apply forallb_forall. intros seg Hs%list_elem_of_In. apply negb_true_iff.
  assert (Hsegs : lower <$> ((λ seg, (Cut seg semicolon).1) <$> Split slash p) = lower <$> Split slash q).
  { rewrite <-strip_segments, <-!Split_lower. by rewrite E. }
  assert (Hin : lower seg ∈ (lower <$> Split slash q)) by (by apply list_elem_of_fmap_2).
  rewrite <-Hsegs in Hin. apply list_elem_of_fmap in Hin as (b & Hb & Hin). apply list_elem_of_fmap in Hin as (seg' & -> & Hin).
  apply list_elem_of_In, (proj1 (forallb_forall _ _) Hp) in Hin. apply negb_true_iff in Hin. unfold bad_segment in *.
  rewrite (plain_segment q) by done. destruct (Cut seg' semicolon) as [b cut]. cbn [fst] in *. apply orb_false_iff in Hin as [Hin _].
  rewrite andb_false_l, orb_false_r. apply orb_false_iff in Hin as [H1%bool_decide_eq_false H2%bool_decide_eq_false].
  apply orb_false_iff. split; apply bool_decide_eq_false; intros ->; [apply H1|apply H2]; symmetry in Hb.
  - by apply (lower_dots b 1).
  - by apply (lower_dots b 2).
Qed.

Definition allowed (caller : option Parsed) (verb : Verb) (acl : option AccessControlList) (op : str) : Prop :=
  (isOperationAllowedByAccessControlPolicy caller op verb true acl).1 = true.

(** C13: A denied operation stays denied however it is written. For an allowed HTTP request
    of a caller: if the request, percent-decoded once, is an ASCII path that, without its
    path parameters and up to letter case, is q, then every other request that percent-
    decodes once to q is allowed for that caller and verb, so percent-encoding, letter case
    and path parameters do not get around a policy; and a request that does not decode (a
    malformed escape or an escaped slash) is allowed only if every request of the caller is.
    Decoding is once, as in the code: an escaped star stays %2a and is not a star, and an
    operation encoded twice is an operation of its own. *)
Theorem acl_no_bypass caller verb acl op :
  allowed caller verb acl op →
  (∀ p op' q, encodes op p → encodes op' q →
     Forall (λ c, is_ascii c = true) p → Forall (λ c, is_ascii c = true) q → semicolon ∉ q →
     lower (strip (with_slash p)) = lower (with_slash q) → allowed caller verb acl op') ∧
  ((∀ p, ¬ encodes op p) → ∀ op', allowed caller verb acl op').
Proof.
  unfold allowed, isOperationAllowedByAccessControlPolicy.
  destruct acl as [acl|]; [|done]. destruct caller as [id|]; [|done]. destruct (PolicySpec acl !! _) as [pol|]; [|done].
  destruct (negb _); [done|]. destruct (negb _); [done|]. destruct (if bool_decide (ps_DefaultAction pol = []) then _ else _) as [action policy].
  intros Hal. split.
  - intros p op' q He He' Hp Hq Hq2 E.
    assert (Hs : ∀ s, Forall (λ c, is_ascii c = true) s → Forall (λ c, is_ascii c = true) (with_slash s)).
    { intros s Hs. unfold with_slash. destruct (HasPrefix s [slash]); [done|by constructor]. }
    assert (Hsemi : semicolon ∉ with_slash q) by (unfold with_slash; destruct (HasPrefix q [slash]); [done|by apply not_elem_of_cons]).
    rewrite (canonical_encoded _ _ (encodes_with_slash _ _ He)) in Hal. rewrite (canonical_encoded _ _ (encodes_with_slash _ _ He')).
    rewrite (strip_plain (with_slash q)), (ToLower_ascii (with_slash q)), <-E by auto.
    rewrite (ToLower_ascii (strip (with_slash p))) in Hal.
    2: { apply list.Forall_forall. intros c [Hc| ->]%strip_elem; [|done]. specialize (Hs p Hp). rewrite list.Forall_forall in Hs. auto. }
    destruct (forallb _ (Split slash (with_slash p))) eqn:Hok; [|done]. rewrite (segments_ok (with_slash p) (with_slash q)) by done.
    cbn in *. rewrite !andb_true_iff in *. tauto.
  - intros Hno op'. exfalso. destruct (canonicalHTTPOperation (with_slash op)) as [[decoded stripped] ok] eqn:Ec.
    assert (Hok : ok = false).
    { change ok with (decoded, stripped, ok).2. rewrite <-Ec. apply canonical_unreadable.
      intros p Hp. by destruct (encodes_without_slash _ _ Hp) as [p' ?%Hno]. }
    by rewrite Hok in Hal.
Qed.

(** ** Configuration *)

Definition complete (p : AppPolicySpec) : Prop := aps_AppName p ≠ [] ∧ aps_TrustDomain p ≠ [] ∧ aps_Namespace p ≠ [].

#[local] Instance complete_dec p : Decision (complete p).
Proof. unfold complete. apply _. Defined.

Definition policy_key (p : AppPolicySpec) : str := getKeyForAppID (aps_AppName p) (aps_Namespace p).

Notation parsed isHTTP ps := (foldl (parse_step isHTTP) (mkParseState (mkParseError [] [] false) ∅) ps).

Lemma parse_step_errors isHTTP st p :
  no_errors (pt_errors (parse_step isHTTP st p)) = no_errors (pt_errors st) && bool_decide (complete p).
Proof.
  unfold parse_step, no_errors, complete. destruct st as [[td ns an] pols]. cbn [pt_errors invalidTrustDomain invalidNamespace invalidAppName].
  assert (Hlen : ∀ (b : bool) (l : list str) x, (length (if b then l ++ [x] else l) =? 0) = (length l =? 0) && negb b).
  { intros [] l x; cbn; [|by rewrite andb_true_r]. rewrite length_app, andb_false_r. cbn. by rewrite Nat.add_1_r. }
  destruct (if _ || _ || _ then _ else _) as [e pols'] eqn:E.
  assert (e = mkParseError (if bool_decide (aps_TrustDomain p = []) then td ++ [aps_AppName p] else td)
    (if bool_decide (aps_Namespace p = []) then ns ++ [aps_AppName p] else ns) (an || bool_decide (aps_AppName p = []))) as ->.
  { destruct (_ || _ || _); by injection E. }
  cbn [pt_errors invalidTrustDomain invalidNamespace invalidAppName]. rewrite !Hlen.
  repeat case_bool_decide; destruct an, (length td =? 0), (length ns =? 0); cbn; try done; exfalso; naive_solver.
Qed.

Lemma parsed_errors isHTTP ps : no_errors (pt_errors (parsed isHTTP ps)) = true ↔ Forall complete ps.
Proof.
  induction ps as [|p ps IH] using rev_ind; [split; [constructor|done]|]. rewrite foldl_app. cbn [foldl].
  rewrite parse_step_errors, andb_true_iff, IH, bool_decide_eq_true, Forall_app, Forall_singleton. done.
Qed.

Lemma parsed_policies isHTTP ps key :
  Forall complete ps →
  pt_policies (parsed isHTTP ps) !! key = parse_policy isHTTP <$> list.last (filter (λ p, policy_key p = key) ps).
Proof.
  induction ps as [|p ps IH] using rev_ind; intros Hc; [apply lookup_empty|]. apply Forall_app in Hc as [Hc Hp].
  pose proof (proj2 (parsed_errors isHTTP ps) Hc) as He. specialize (IH Hc). apply list.Forall_cons in Hp as [(H1 & H2 & H3) _].
  rewrite foldl_app. cbn [foldl]. set (st := parsed isHTTP ps) in *. unfold parse_step. unfold no_errors in He.
  rewrite !bool_decide_eq_false_2 by done. rewrite !andb_true_iff, negb_true_iff in He. destruct He as [_ ->]. cbn [orb pt_policies].
  rewrite list.filter_app, list.filter_cons, list.filter_nil. fold (policy_key p). destruct (decide (policy_key p = key)) as [<-|Hk].
  - by rewrite lookup_insert_eq, last_snoc.
  - by rewrite lookup_insert_ne, app_nil_r.
Qed.

(** Parsing a specification with content fails exactly when one of its policies lacks an app
    name, a trust domain or a namespace; otherwise the list holds the default action and,
    under each app and namespace, the last policy given for it. *)
Theorem acl_parse_exact spec isHTTP :
  acs_TrustDomain spec ≠ [] ∨ acs_DefaultAction spec ≠ [] ∨ policies_of spec ≠ [] →
  match ParseAccessControlSpec (Some spec) isHTTP with
  | inl _ => ∃ p, p ∈ policies_of spec ∧ ¬ complete p
  | inr None => False
  | inr (Some acl) =>
      Forall complete (policies_of spec) ∧ acl_DefaultAction acl = default_action spec ∧
      ∀ key, PolicySpec acl !! key = parse_policy isHTTP <$> list.last (filter (λ p, policy_key p = key) (policies_of spec))
  end.
Proof.
  intros Hspec. unfold ParseAccessControlSpec.
  assert (Hnone : bool_decide (acs_TrustDomain spec = []) && bool_decide (acs_DefaultAction spec = []) && (length (policies_of spec) =? 0) = false).
  { destruct Hspec as [?|[?|Hne]]; [by rewrite bool_decide_eq_false_2|by rewrite (bool_decide_eq_false_2 (acs_DefaultAction spec = [])), andb_false_r|].
    destruct (policies_of spec); [done|]. by rewrite andb_false_r. }
  rewrite Hnone. cbv zeta. set (st := foldl _ _ (policies_of spec)). destruct (no_errors (pt_errors st)) eqn:He.
  - apply parsed_errors in He. split_and!; [done|done|]. intros key. exact (parsed_policies isHTTP (policies_of spec) key He).
  - assert (Hn : ¬ Forall complete (policies_of spec)) by (intros Hc%(parsed_errors isHTTP); fold st in Hc; congruence).
    apply not_Forall_Exists in Hn; [|apply _]. apply list.Exists_exists in Hn as (p & ? & ?). by exists p.
Qed.

(** Deny wins: the merged action of rules on the same operation allows exactly when the last
    of them does and none that has an action denies. *)
Theorem acl_deny_wins (as_ : list str) :
  as_ ≠ [] →
  isActionAllowed (foldl mergeAction [] as_) = true ↔
    (∀ a, a ∈ as_ → a = [] ∨ isActionAllowed a = true) ∧ ∃ a, list.last as_ = Some a ∧ isActionAllowed a = true.
Proof. intros Hne. rewrite merge_allowed by (by left). by destruct as_. Qed.

End acl_props.

(** ** Concrete lists *)

Section acl_examples.
#[local] Instance keep_wide : UnicodeCase := {| lower_wide s := s |}.

Definition demo_rule (action op : string) (verbs : list string) : AppOperation :=
  mkAppOperation (bytes op) (bytes <$> verbs) (bytes action).

Definition demo_policy (def : string) (rules : list AppOperation) : AppPolicySpec :=
  mkAppPolicySpec (bytes "app1") (bytes def) (bytes "public") (bytes "ns1") rules.

Definition demo_spec (def : string) (rules : list AppOperation) : AccessControlSpec :=
  mkAccessControlSpec (bytes def) (bytes "public") (Some [demo_policy def rules]).

Definition demo_acl (isHTTP : bool) (def : string) (rules : list AppOperation) : option AccessControlList :=
  match ParseAccessControlSpec (Some (demo_spec def rules)) isHTTP with inr acl => acl | inl _ => None end.

Definition demo_caller : Parsed := mkParsed (bytes "public") (bytes "ns1") (bytes "app1").

Definition demo_allows (isHTTP : bool) (acl : option AccessControlList) (verb : Verb) (op : string) : bool :=
  ApplyAccessControlPolicies (inr (Some demo_caller)) (bytes op) verb isHTTP acl.

Definition demo_GET : Verb := Some (bytes "GET").

Definition deny_list : list AppOperation :=
  [demo_rule "deny" "/admin" ["*"]; demo_rule "deny" "/admin/**" ["*"]; demo_rule "deny" "/foo%20bar" ["*"]].

(** The cases of the repository's own tests. *)
Example deny_list_http :
  demo_allows true (demo_acl true "allow" deny_list) demo_GET <$>
    ["/public"; "/public;x"; "/files/%2A"; "/admin%zz"; "/public%zz"; "/%61dmin"; "/%41dmin"; "/admin;x"; "/admin%3Bx";
     "/%61dmin/secret"; "/admin;x/secret"; "foo%20bar"; "foo bar"; "/public/..;x/admin"; "/public/.;x/admin"; "/;x/admin"] =
  [true; true; true; false; false; false; false; false; false; false; false; false; false; false; false; false].
Proof. vm_compute. reflexivity. Qed.

Example allow_list_http :
  demo_allows true (demo_acl true "deny"
      [demo_rule "allow" "/public" ["*"]; demo_rule "allow" "/docs/**" ["*"]; demo_rule "allow" "/files/%2A" ["*"]]) demo_GET <$>
    ["/public"; "/%70ublic"; "/public;admin"; "/docs/a;v=1"; "/files/%2A"; "/files/%2a"; "/files/*"; "/files/secret"] =
  [true; true; false; true; true; true; false; false].
Proof. vm_compute. reflexivity. Qed.

Example deny_list_grpc :
  demo_allows false (demo_acl false "allow" deny_list) None <$> ["/admin"; "/%61dmin"; "/admin;x"; "foo%20bar"; "foo bar"] =
  [false; true; true; false; true].
Proof. vm_compute. reflexivity. Qed.

(** An exact rule that is not applied (a defect). With a default of allow, a rule that
    denies exactly the requested operation is not found when an earlier rule with a wildcard
    matches a segment of it and leads nowhere; with the two rules in the other order the
    request is denied. *)
Theorem acl_exact_rule_missed :
  let rules1 := [demo_rule "allow" "/ad*/info" ["*"]; demo_rule "deny" "/admin/secret" ["*"]] in
  let rules2 := [demo_rule "allow" "/*/info" ["*"]; demo_rule "deny" "/admin" ["*"]] in
  demo_allows true (demo_acl true "allow" rules1) demo_GET "/admin/secret" = true ∧
  demo_allows true (demo_acl true "allow" (reverse rules1)) demo_GET "/admin/secret" = false ∧
  demo_allows true (demo_acl true "allow" rules2) demo_GET "/admin" = true ∧
  demo_allows true (demo_acl true "allow" (reverse rules2)) demo_GET "/admin" = false.
Proof. cbv zeta. split_and!; vm_compute; reflexivity. Qed.

(** An operation is decoded once: one that is encoded twice, and an escaped star,
    are operations of their own, which the rule for the plain one does not cover. *)
Example acl_decodes_once :
  demo_allows true (demo_acl true "allow" [demo_rule "deny" "/admin" ["*"]]) demo_GET <$> ["/%61dmin"; "/%2561dmin"] = [false; true] ∧
  demo_allows true (demo_acl true "allow" [demo_rule "deny" "/*/b" ["*"]]) demo_GET <$> ["/*/b"; "/%2A/b"] = [false; true].
Proof. split; vm_compute; reflexivity. Qed.

Lemma acl_no_bypass_witness :
  ¬ allowed (Some demo_caller) demo_GET (demo_acl true "allow" deny_list) (bytes "/%41dmin;x=1") ∧
  ¬ allowed (Some demo_caller) demo_GET (demo_acl true "allow" deny_list) (bytes "/foo%2").
Proof.
  split; intros Ha.
  - assert (Hd : allowed (Some demo_caller) demo_GET (demo_acl true "allow" deny_list) (bytes "/admin")).
    { apply (proj1 (acl_no_bypass _ _ _ _ Ha) (bytes "/Admin;x=1") (bytes "/admin") (bytes "/admin"));
        [| | | | |vm_compute; reflexivity].
      - change (encodes (bytes "/%41dmin;x=1") (slash :: bytes "Admin;x=1")). constructor; [done|].
        apply (encodes_esc "4"%char "1"%char "A"%char (bytes "dmin;x=1")); [vm_compute; reflexivity|done|done|]. apply encodes_self. vm_compute. set_solver.
      - apply encodes_self. vm_compute. set_solver.
      - vm_compute. repeat constructor.
      - vm_compute. repeat constructor.
      - vm_compute. set_solver. }
    vm_compute in Hd. discriminate Hd.
  - assert (Hd : allowed (Some demo_caller) demo_GET (demo_acl true "allow" deny_list) (bytes "/admin")).
    { apply (proj2 (acl_no_bypass _ _ _ _ Ha)). intros p Hp.
      repeat match goal with He : encodes _ _ |- _ => inversion He; clear He; subst end; discriminate || congruence. }
    vm_compute in Hd. discriminate Hd.
Defined.

Lemma acl_policy_exact_witness :
  operationAction (parse_policy true (demo_policy "allow" [demo_rule "deny" "/admin" ["GET"]; demo_rule "allow" "/%41DMIN" ["GET"; "PUT"]]))
    (bytes "/admin/users") demo_GET true (bytes "allow") = bytes "deny".
Proof.
  rewrite (acl_policy_exact true (demo_policy "allow" [demo_rule "deny" "/admin" ["GET"]; demo_rule "allow" "/%41DMIN" ["GET"; "PUT"]])
    (bytes "/admin/users") demo_GET (bytes "allow")).
  - vm_compute. reflexivity.
  - repeat constructor; vm_compute; set_solver.
Defined.

Lemma acl_parse_exact_witness :
  match ParseAccessControlSpec (Some (demo_spec "allow" deny_list)) true with
  | inl _ => ∃ p, p ∈ policies_of (demo_spec "allow" deny_list) ∧ ¬ complete p
  | inr None => False
  | inr (Some acl) =>
      Forall complete (policies_of (demo_spec "allow" deny_list)) ∧ acl_DefaultAction acl = default_action (demo_spec "allow" deny_list) ∧
      ∀ key, PolicySpec acl !! key =
        parse_policy true <$> list.last (filter (λ p, policy_key p = key) (policies_of (demo_spec "allow" deny_list)))
  end.
Proof. apply (acl_parse_exact (demo_spec "allow" deny_list) true). left. done. Defined.

Lemma acl_deny_wins_witness : isActionAllowed (foldl mergeAction [] [bytes "deny"; bytes "allow"]) = false.
Proof.
  destruct (isActionAllowed _) eqn:E; [|reflexivity]. exfalso.
  apply (proj1 (acl_deny_wins [bytes "deny"; bytes "allow"] ltac:(discriminate))) in E as [Hall _].
  destruct (Hall (bytes "deny") ltac:(left)) as [Hd|Hd]; vm_compute in Hd; discriminate Hd.
Defined.

End acl_examples.
