(* ===== verification/MethodNames.v ===== *)
(** * Method names
      (pkg/messaging/method/normalize.go)

    The checks on names that become part of a URL path.  An error is its reason.
    The control characters are looked for at the start of every rune: a byte of
    a longer rune is never one, so every byte is checked here. *)

From Stdlib Require Import Ascii.
From S2P Require Import Prelude GoStrings.

Notation str := (list ascii).

Inductive name_error := ForbiddenCharacter | EncodedSeparator | ControlCharacter | PathTraversal.

Definition backslash : ascii := ascii_of_nat 92.
Definition hash : ascii := "#"%char.
Definition question : ascii := "?"%char.
Definition nul : ascii := ascii_of_nat 0.

Section method_names.
Context `{UnicodeCase}.

Definition hasEncodedSeparator (s : str) : bool :=
  let lower := ToLower s in
  Contains lower (bytes "%2f") || Contains lower (bytes "%5c") || Contains lower (bytes "%2e").

Definition is_control (b : ascii) : bool := (nat_of_ascii b <? 32) || (nat_of_ascii b =? 127).

Definition ValidateName (name : str) : option name_error :=
  if ContainsAny name [hash; question; nul; slash; backslash] then Some ForbiddenCharacter
  else if hasEncodedSeparator name then Some EncodedSeparator
  else if existsb is_control name then Some ControlCharacter
  else if bool_decide (name = dot_seg) || bool_decide (name = dotdot_seg) then Some PathTraversal
  else None.

(** [for strings.HasPrefix(cleaned, "../") { cleaned = cleaned[3:] }] *)
Fixpoint strip_parents (s : str) : str :=
  match s with
  | a :: b :: c :: s' => if decide ((a, b, c) = (dot, dot, slash)) then strip_parents s' else s
  | _ => s
  end.

Definition NormalizeMethod (method : str) : name_error + str :=
  if ContainsAny method [hash; question; nul; backslash] then inl ForbiddenCharacter
  else if hasEncodedSeparator method then inl EncodedSeparator
  else if existsb is_control method then inl ControlCharacter
  else
    let cleaned := strip_parents (Clean method) in
    inr (if decide (cleaned = dotdot_seg ∨ cleaned = dot_seg) then [] else cleaned).

(** ** What is left after cleaning *)

Definition proper (seg : str) : Prop := seg ≠ empty_seg ∧ seg ≠ dot_seg ∧ seg ≠ dotdot_seg.

#[local] Instance proper_dec seg : Decision (proper seg).
Proof. unfold proper. apply _. Defined.

(** The elements kept so far (last first): proper ones, behind parents when the
    path is not rooted. *)
Definition stack_ok (rooted : bool) (out : list str) : Prop :=
  ∃ ps k, out = ps ++ replicate k dotdot_seg ∧ Forall proper ps ∧ (rooted = true → k = 0).

Lemma clean_segs_ok rooted segs : ∀ out,
  stack_ok rooted out → ∃ k ps, clean_segs rooted segs out = replicate k dotdot_seg ++ ps ∧ Forall proper ps ∧ (rooted = true → k = 0).
Proof.
  induction segs as [|s segs IH]; intros out (ps & k & -> & Hps & Hk).
  - exists k, (reverse ps). cbn. split_and!; [by rewrite reverse_app, reverse_replicate|by apply Forall_reverse|done].
  - cbn [clean_segs]. case_decide as H1; [apply IH; by exists ps, k|]. case_decide as H2.
    + destruct ps as [|p ps].
      * destruct k as [|k]; cbn [app replicate].
        -- apply IH. destruct rooted; [by exists [], 0|]. subst. by exists [], 1.
        -- rewrite decide_True by done. subst. apply IH. exists [], (S (S k)). split_and!; [done|done|]. intros Hr. specialize (Hk Hr). lia.
      * cbn [app]. apply list.Forall_cons in Hps as [(_ & _ & Hp) Hps]. rewrite decide_False by done. apply IH. by exists ps, k.
    + apply IH. exists (s :: ps), k. split_and!; [done| |done]. constructor; [|done]. unfold proper. tauto.
Qed.

(** Cleaning proper elements keeps them. *)
Lemma clean_segs_proper rooted ps : ∀ out, Forall proper ps → clean_segs rooted ps out = reverse out ++ ps.
Proof.
  induction ps as [|p ps IH]; intros out Hps; [by rewrite app_nil_r|]. apply list.Forall_cons in Hps as [(H1 & H2 & H3) Hps].
  cbn [clean_segs]. rewrite decide_False by tauto. rewrite decide_False by done. rewrite IH by done. by rewrite reverse_cons, <-(assoc_L (++)).
Qed.

Lemma clean_segs_sub rooted segs x : ∀ out, x ∈ clean_segs rooted segs out → x ∈ segs ∨ x ∈ out.
Proof.
  induction segs as [|s segs IH]; intros out Hx; cbn in Hx; [right; by apply elem_of_reverse|].
  rewrite elem_of_cons. case_decide; [destruct (IH _ Hx); tauto|]. case_decide as Hd.
  - destruct out as [|t out]; [destruct (IH _ Hx) as [?|Hin]; [tauto|destruct rooted; set_solver]|].
    destruct (IH _ Hx) as [?|Hin]; [tauto|]. case_decide; set_solver.
  - destruct (IH _ Hx) as [?|Hin]; [tauto|set_solver].
Qed.

(** What stays of the elements of a path. *)
Lemma kept_segments p :
  ∃ k ps, clean_segs (HasPrefix p [slash]) (Split slash p) [] = replicate k dotdot_seg ++ ps ∧
    Forall (λ seg, proper seg ∧ slash ∉ seg ∧ seg ∈ Split slash p) ps ∧ (HasPrefix p [slash] = true → k = 0).
Proof.
  destruct (clean_segs_ok (HasPrefix p [slash]) (Split slash p) []) as (k & ps & E & Hps & Hk); [by exists [], 0|].
  exists k, ps. split_and!; [done| |done]. apply list.Forall_forall. intros seg Hs. rewrite list.Forall_forall in Hps.
  assert (Hin : seg ∈ Split slash p).
  { destruct (clean_segs_sub (HasPrefix p [slash]) (Split slash p) seg []) as [?|?%elem_of_nil]; [|done|done]. rewrite E. apply elem_of_app. by right. }
  split_and!; [by apply Hps| |done]. pose proof (Split_free slash p) as Hf. rewrite list.Forall_forall in Hf. by apply Hf.
Qed.

(** A name that does not begin with a parent is left alone. *)
Lemma strip_parents_proper p s : p ≠ dotdot_seg → slash ∉ p → (s = p ∨ ∃ t, s = p ++ slash :: t) → strip_parents s = s.
Proof.
  intros Hp Hs Ht. destruct s as [|a [|b [|c s]]]; try done. cbn. rewrite decide_False; [done|]. intros [= -> -> ->].
  assert (Hsl : ∀ q, [dot; dot; slash] ++ s ≠ p ++ q ∨ length p ≤ 2).
  { intros q. destruct (decide (length p ≤ 2)); [by right|left]. intros E. apply Hs. destruct p as [|x [|y [|z p]]]; cbn in *; try lia.
    injection E as _ _ <- _. set_solver. }
  destruct Ht as [E|[t E]].
  - destruct (Hsl []) as [H1|H1]; [apply H1; by rewrite app_nil_r|]. rewrite <-E in H1. cbn in H1. lia.
  - destruct (Hsl (slash :: t)) as [H1|H1]; [by apply H1|]. destruct p as [|x [|y [|z p]]]; cbn in *; try done; try lia.
    injection E as <- <- _. done.
Qed.

Lemma strip_parents_Join k ps :
  Forall (λ seg, proper seg ∧ slash ∉ seg) ps → ps ≠ [] → strip_parents (Join [slash] (replicate k dotdot_seg ++ ps)) = Join [slash] ps.
Proof.
  intros Hps Hne. induction k as [|k IH].
  - cbn [replicate app]. destruct ps as [|p ps]; [done|]. apply list.Forall_cons in Hps as [[(_ & _ & Hp) Hs] _].
    apply (strip_parents_proper p); [done|done|]. destruct ps as [|q ps]; [by left|right]. rewrite Join_cons by done. cbn [app]. by eexists.
  - cbn [replicate app]. rewrite Join_cons by (by destruct k, ps). cbn. exact IH.
Qed.

Lemma strip_parents_only k : strip_parents (Join [slash] (replicate (S k) dotdot_seg)) = dotdot_seg.
Proof. induction k as [|k IH]; [done|]. cbn [replicate]. rewrite Join_cons by done. cbn. exact IH. Qed.

(** ** The shape of a normalized method *)

Definition shape (rooted : bool) (ps : list str) : str := if rooted then slash :: Join [slash] ps else Join [slash] ps.

Definition path_segments (ps : list str) : Prop := Forall (λ seg, proper seg ∧ slash ∉ seg) ps.

Lemma Join_proper ps : path_segments ps → Join [slash] ps ≠ dot_seg ∧ Join [slash] ps ≠ dotdot_seg ∧ (ps ≠ [] → Join [slash] ps ≠ []).
Proof.
  intros Hps. destruct ps as [|p [|q ps]]; [done| |].
  - apply list.Forall_cons in Hps as [[(? & ? & ?) _] _]. done.
  - rewrite Join_cons by done. cbn [app]. split_and!; [| |by destruct p].
    + intros E. assert (slash ∈ dot_seg) by (rewrite <-E; set_solver). set_solver.
    + intros E. assert (slash ∈ dotdot_seg) by (rewrite <-E; set_solver). set_solver.
Qed.

Definition tidy (s : str) : str := let c := strip_parents (Clean s) in if decide (c = dotdot_seg ∨ c = dot_seg) then [] else c.

Lemma tidy_shape s :
  ∃ rooted ps, tidy s = shape rooted ps ∧ path_segments ps ∧ ∀ seg, seg ∈ ps → seg ∈ Split slash s.
Proof.
  unfold tidy, Clean. destruct (kept_segments s) as (k & ps & -> & Hps & Hk).
  assert (Hseg : path_segments ps) by (eapply list.Forall_impl; [exact Hps|]; intros ? ?; cbn in *; tauto).
  assert (Hin : ∀ seg, seg ∈ ps → seg ∈ Split slash s) by (intros seg Hs; rewrite list.Forall_forall in Hps; by apply Hps).
  destruct (Join_proper ps Hseg) as (Hd1 & Hd2 & Hd3). destruct (HasPrefix s [slash]).
  - rewrite Hk by done. cbn [replicate app]. exists true, ps. split; [|done]. cbn [shape].
    rewrite (strip_parents_proper []); [|done|apply not_elem_of_nil|right; by eexists]. rewrite decide_False; [done|]. intros [[=]|[=]].
  - exists false. cbn [shape]. destruct (decide (ps = [])) as [->|Hne].
    + exists []. split; [|done]. rewrite app_nil_r. destruct k as [|k]; [done|]. 
      rewrite (decide_False (P := Join [slash] (replicate (S k) dotdot_seg) = [])) by (cbn [replicate]; by destruct (replicate k dotdot_seg)).
      rewrite strip_parents_only. by rewrite decide_True by (by left).
    + exists ps. split; [|done]. rewrite (decide_False (P := Join [slash] (replicate k dotdot_seg ++ ps) = [])).
      2: { destruct k as [|k]; [by apply Hd3|]. cbn [replicate app]. rewrite Join_cons by (by destruct k, ps). done. }
      rewrite strip_parents_Join by done. rewrite decide_False; [done|]. tauto.
Qed.

Lemma Clean_shape rooted ps :
  path_segments ps → Clean (shape rooted ps) = if decide (rooted = false ∧ ps = []) then [dot] else shape rooted ps.
Proof.
  intros Hps. assert (Hp : Forall proper ps) by (eapply list.Forall_impl; [exact Hps|]; intros ? ?; cbn in *; tauto).
  assert (Hf : Forall (λ seg, slash ∉ seg) ps) by (eapply list.Forall_impl; [exact Hps|]; intros ? ?; cbn in *; tauto).
  destruct rooted; cbn [shape].
  - rewrite decide_False by naive_solver. unfold Clean, HasPrefix. rewrite bool_decide_eq_true_2 by (by eexists). f_equal. f_equal.
    cbn [Split]. rewrite decide_True by done. cbn [clean_segs]. rewrite decide_True by (by left).
    destruct (decide (ps = [])) as [->|Hne]; [done|]. rewrite Split_Join by done. by rewrite clean_segs_proper.
  - destruct (decide (ps = [])) as [->|Hne]; [done|]. rewrite decide_False by naive_solver. unfold Clean.
    assert (Hroot : HasPrefix (Join [slash] ps) [slash] = false).
    { apply bool_decide_eq_false. intros [t E]. destruct ps as [|p ps]; [done|].
      apply list.Forall_cons in Hps as [[(Hp1 & _) Hp2] _]. destruct p as [|x p]; [done|].
      destruct ps; cbn in E; injection E as -> _; set_solver. }
    rewrite Hroot, Split_Join, clean_segs_proper by done. cbn. rewrite decide_False; [done|]. by apply (Join_proper ps Hps).
Qed.

Lemma tidy_idempotent rooted ps : path_segments ps → tidy (shape rooted ps) = shape rooted ps.
Proof.
  intros Hps. unfold tidy. rewrite Clean_shape by done. destruct (Join_proper ps Hps) as (Hd1 & Hd2 & Hd3).
  destruct (decide (rooted = false ∧ ps = [])) as [[-> ->]|Hd]; [done|]. destruct rooted; cbn [shape].
  - rewrite (strip_parents_proper []); [|done|apply not_elem_of_nil|right; by eexists]. rewrite decide_False; [done|]. intros [[=]|[=]].
  - assert (Hne : ps ≠ []) by naive_solver. pose proof (strip_parents_Join 0 ps Hps Hne) as E. cbn [replicate app] in E. rewrite E. rewrite decide_False; [done|]. tauto.
Qed.

(** ** The checks *)

Lemma normalize_eq m :
  NormalizeMethod m =
    if ContainsAny m [hash; question; nul; backslash] then inl ForbiddenCharacter
    else if hasEncodedSeparator m then inl EncodedSeparator
    else if existsb is_control m then inl ControlCharacter
    else inr (tidy m).
Proof. done. Qed.

Lemma shape_elem c rooted ps : c ∈ shape rooted ps → c = slash ∨ ∃ seg, seg ∈ ps ∧ c ∈ seg.
Proof.
  intros Hc. assert (Hj : c = slash ∨ c ∈ Join [slash] ps) by (destruct rooted; set_solver).
  destruct Hj as [->|Hj]; [by left|]. apply elem_of_Join_inv in Hj as [?%list_elem_of_singleton|?]; [by left|by right].
Qed.

Lemma existsb_sub {A} (f : A → bool) l l' : (∀ x, x ∈ l' → x ∈ l ∨ f x = false) → existsb f l = false → existsb f l' = false.
Proof.
  intros Hsub Hf. destruct (existsb f l') eqn:E; [|done]. apply existsb_exists in E as (x & Hx%list_elem_of_In & Hfx).
  destruct (Hsub x Hx) as [Hin|?]; [|congruence]. rewrite <-Hf. symmetry. apply existsb_exists. exists x. split; [by apply list_elem_of_In|done].
Qed.

Lemma lower_app s1 s2 : lower (s1 ++ s2) = lower s1 ++ lower s2.
Proof. apply fmap_app. Qed.

Lemma lower_slash s : slash ∈ lower s → slash ∈ s.
Proof. intros (c & Hc & Hin)%list_elem_of_fmap. symmetry in Hc. apply lower1_separators in Hc as ->; [done|by left]. Qed.

(** Text without a slash in a tidied method is in the method. *)
Lemma tidy_contains m sub rooted ps :
  sub ≠ [] → slash ∉ sub → path_segments ps → (∀ seg, seg ∈ ps → seg ∈ Split slash m) →
  Contains (lower (shape rooted ps)) sub = true → Contains (lower m) sub = true.
Proof.
  intros Hne Hs Hps Hin (a & b & E)%Contains_spec. apply Contains_spec.
  assert (Ej : Join [slash] (Split slash (lower (shape rooted ps))) = a ++ sub ++ b) by (by rewrite Join_Split).
  apply Join_infix in Ej as (seg & a' & b' & Hseg & ->); [|done|done]. rewrite Split_lower in Hseg.
  apply list_elem_of_fmap in Hseg as (seg & Eseg & Hseg).
  assert (Hm : seg ∈ Split slash m).
  { assert (Hsplit : seg = [] ∨ seg ∈ ps).
    { destruct (decide (ps = [])) as [->|Hpne]; [destruct rooted; cbn in Hseg; set_solver|].
      assert (Ef : Forall (λ p, slash ∉ p) ps) by (eapply list.Forall_impl; [exact Hps|]; intros ? ?; cbn in *; tauto).
      destruct rooted; cbn [shape] in Hseg; [cbn in Hseg; apply elem_of_cons in Hseg as [?|Hseg]; [by left|]|]; right; by rewrite Split_Join in Hseg. }
    destruct Hsplit as [->|?]; [|by apply Hin]. exfalso. destruct a', sub; done. }
  apply list_elem_of_split in Hm as (l1 & l2 & El). rewrite <-(Join_Split slash m), El.
  exists (lower (Join [slash] (l1 ++ [[]])) ++ a'), (b' ++ lower (match l2 with [] => [] | _ => slash :: Join [slash] l2 end)).
  transitivity (lower (Join [slash] (l1 ++ [[]])) ++ lower seg ++ lower (match l2 with [] => [] | _ => slash :: Join [slash] l2 end)).
  - rewrite <-!lower_app. f_equal. clear. induction l1 as [|p l1 IH]; [by destruct l2; cbn; rewrite ?app_nil_r|].
    cbn [app]. rewrite !Join_cons by (by destruct l1). rewrite IH. by rewrite <-!(assoc_L (++)).
  - rewrite <-Eseg. by rewrite <-!(assoc_L (++)).
Qed.

(** A normalized method is a clean path: it is rooted or not, its segments are neither empty
    nor . nor .., it has none of the forbidden and control characters, and (for ASCII)
    normalizing it again changes nothing. *)
Theorem normalize_method_safe m c :
  NormalizeMethod m = inr c →
  (∃ rooted ps, c = shape rooted ps ∧ path_segments ps) ∧
  (∀ x, x ∈ c → x ∉ [hash; question; nul; backslash] ∧ is_control x = false) ∧
  (Forall (λ x, is_ascii x = true) m → NormalizeMethod c = inr c).
Proof.
  rewrite !normalize_eq. destruct (ContainsAny m _) eqn:H1; [done|]. destruct (hasEncodedSeparator m) eqn:H2; [done|].
  destruct (existsb is_control m) eqn:H3; [done|]. intros [= <-].
  destruct (tidy_shape m) as (rooted & ps & -> & Hps & Hin).
  assert (Hsub : ∀ x, x ∈ shape rooted ps → x ∈ m ∨ x = slash).
  { intros x [->|(seg & Hseg & Hx)]%shape_elem; [by right|left]. rewrite <-(Join_Split slash m). by eapply elem_of_Join, Hin. }
  assert (E1 : ContainsAny (shape rooted ps) [hash; question; nul; backslash] = false).
  { apply (existsb_sub _ m); [|done]. intros x Hx. destruct (Hsub x Hx) as [?| ->]; [by left|by right]. }
  assert (E3 : existsb is_control (shape rooted ps) = false).
  { apply (existsb_sub _ m); [|done]. intros x Hx. destruct (Hsub x Hx) as [?| ->]; [by left|by right]. }
  split_and!; [by exists rooted, ps| |].
  - intros x Hx%list_elem_of_In. split.
    + intros Hbad. apply not_true_iff_false in E1. apply E1, existsb_exists. exists x. split; [done|by apply bool_decide_eq_true].
    + apply not_true_iff_false. intros Hbad. apply not_true_iff_false in E3. apply E3, existsb_exists. by exists x.
  - intros Ha. rewrite E1, E3, tidy_idempotent by done. destruct (hasEncodedSeparator (shape rooted ps)) eqn:E2; [|done]. exfalso.
    unfold hasEncodedSeparator in H2, E2. rewrite (ToLower_ascii m) in H2 by done. rewrite ToLower_ascii in E2.
    2: { apply list.Forall_forall. intros x [Hx| ->]%Hsub; [|done]. rewrite list.Forall_forall in Ha. auto. }
    apply orb_false_iff in H2 as [[H2 H2']%orb_false_iff H2'']. apply not_false_iff_true in E2. apply E2.
    assert (Hno : ∀ sub, sub ≠ [] → slash ∉ sub → Contains (lower m) sub = false → Contains (lower (shape rooted ps)) sub = false).
    { intros sub ? ? Hm. apply not_true_iff_false. intros Hc. apply tidy_contains with (m := m) in Hc; [congruence|done..]. }
    rewrite !Hno; first [done|vm_compute; set_solver].
Qed.

End method_names.

Section method_examples.
#[local] Instance keep_wide_names : UnicodeCase := {| lower_wide s := s |}.

Example normalize_examples :
  (λ m, match NormalizeMethod (bytes m) with inr c => Some (of_bytes c) | inl _ => None end) <$>
    ["a/../b"; "../../admin"; "/x//y/./z"; "a%2Fb"; "a?b"; "/.."; ".."] =
  [Some "b"; Some "admin"; Some "/x/y/z"; None; None; Some "/"; Some EmptyString].
Proof. vm_compute. reflexivity. Qed.

Lemma normalize_method_safe_witness :
  ∃ c, NormalizeMethod (bytes "/a/../../admin") = inr c ∧ NormalizeMethod c = inr c.
Proof.
  exists (bytes "/admin"). assert (E : NormalizeMethod (bytes "/a/../../admin") = inr (bytes "/admin")) by (vm_compute; reflexivity).
  split; [exact E|]. apply (normalize_method_safe _ _ E). vm_compute. repeat constructor.
Defined.

End method_examples.
