(* ===== verification/WorkflowState.v ===== *)
(** * Workflow state (pkg/runtime/wfengine/state: state.go, load.go, version.go)

    The state of one workflow instance: its inbox, its history, the signatures
    and certificates over it and a few optional values.  It is kept in memory
    between turns and saved incrementally, one row per entry: counters of what
    was added and removed since the last save select the rows that are written
    and deleted.

    A slice with its two counters is a [tracked] list, an optional row with its
    two flags is a [row].  The messages are third-party ([Protos]), as is the
    verification of signatures ([HistorySigning]); the two reads of a load are
    arguments, since a save of another host can land between them.  A Go panic
    is the result [Panic]. *)

From Stdlib Require Import Ascii.
From stdpp Require Import pretty.
From S2P Require Import Prelude GoStrings.

(** ** Messages and signatures *)

(** [proto.Marshal] and [proto.Unmarshal] for a message type *)
Class Codec (A : Type) := { Marshal : A → option string; Unmarshal : string → option A }.

Record ParentInstanceInfo := mkParentInstanceInfo { pi_InstanceId : string; pi_ExecutionId : string }.

Record ExecutionStartedEvent := mkExecutionStarted {
  es_Input : option string; es_ParentInstance : option ParentInstanceInfo }.

Record TaskFailureDetails := mkFailureDetails { fd_ErrorType : string; fd_ErrorMessage : string }.

Inductive OrchestrationStatus := STATUS_FAILED | STATUS_OTHER (n : N).
#[export] Instance OrchestrationStatus_eq_dec : EqDecision OrchestrationStatus.
Proof. solve_decision. Defined.

Record ExecutionCompletedEvent := mkExecutionCompleted {
  ec_WorkflowStatus : OrchestrationStatus; ec_FailureDetails : option TaskFailureDetails }.

Record ExternalSigningCertificate := mkExternalCert { ext_Digest : string; ext_Certificate : string }.

Record BackendWorkflowStateMetadata := mkMetadata {
  InboxLength : N; HistoryLength : N; md_Generation : N; SignatureLength : N;
  SigningCertificateLength : N; ExternalSigningCertificateLength : N }.

Record legacyWorkflowStateMetadata := mkLegacyMetadata {
  l_InboxLength : N; l_HistoryLength : N; l_Generation : N }.

Record creationParent := mkCreationParent { InstanceID : string; ExecutionID : string }.
#[export] Instance creationParent_eq_dec : EqDecision creationParent.
Proof. solve_decision. Defined.

Record creationInputRow := mkCreationInputRow { ci_parent : creationParent; ci_Input : string }.

(** The message types of durabletask-go with the getters the state reads, and
    the encodings of the rows. *)
Class Protos := {
  HistoryEvent : Type;
  SigningCertificate : Type;
  HistorySignature : Type;
  PropagatedHistory : Type;
  IsTimerFired : HistoryEvent → bool;
  IsExecutionTerminated : HistoryEvent → bool;
  GetEventId : HistoryEvent → Z;
  GetExecutionStarted : HistoryEvent → option ExecutionStartedEvent;
  GetExecutionCompleted : HistoryEvent → option ExecutionCompletedEvent;
  GetWorkflowStarted : HistoryEvent → option string;
  NewExecutionCompleted : Z → ExecutionCompletedEvent → HistoryEvent;
  GetCertificate : SigningCertificate → string;
  GetStartEventIndex : HistorySignature → N;
  GetEventCount : HistorySignature → N;
  HistoryEvent_codec :: Codec HistoryEvent;
  SigningCertificate_codec :: Codec SigningCertificate;
  ExternalSigningCertificate_codec :: Codec ExternalSigningCertificate;
  HistorySignature_codec :: Codec HistorySignature;
  PropagatedHistory_codec :: Codec PropagatedHistory;
  Metadata_codec :: Codec BackendWorkflowStateMetadata;
  StringValue_codec :: Codec string;
  json_creationInputRow : creationInputRow → option string;
  unjson_creationInputRow : string → option creationInputRow;
  unjson_metadata : string → option legacyWorkflowStateMetadata;
  unjson_string : string → option string }.

(** [historysigning.VerifyChain] on raw signatures, certificates and raw
    events, the SHA-256 digest of a certificate, and the path of the SPIFFE ID
    in the leaf of a certificate chain. *)
Class HistorySigning `{Protos} := {
  Signer : Type;
  VerifyChain : Signer → list string → list SigningCertificate → list string → bool;
  CertDigest : string → string;
  LeafSPIFFEPath : string → option string }.

(** ** Requests to the actor state store (pkg/actors/api) *)

Inductive TransactionalOperation :=
  | Upsert (key value : string) (etag : option string)
  | Delete (key : string).

Record TransactionalRequest := mkRequest {
  rq_ActorType : string; rq_ActorID : string; rq_Operations : list TransactionalOperation }.

Record StateResponse := mkStateResponse { sr_Data : option string; sr_ETag : option string }.

(** ** Results *)

Inductive wf_error :=
  | ErrMarshal
  | ErrMetadataETagLost
  | ErrDigestSize (n : nat)
  | ErrLoadMetadata
  | ErrLoadState
  | ErrUnmarshal (key : string)
  | ErrTransient (key : string) (etag : option string)
  | ErrMissing (key : string)
  | ErrVerification (key : string)
  | ErrConfiguration
  | ErrCancelled.

Inductive res (A : Type) := Ok (a : A) | Err (e : wf_error) | Panic.
Arguments Ok {A} a.
Arguments Err {A} e.
Arguments Panic {A}.

Definition res_bind {A B} (m : res A) (f : A → res B) : res B :=
  match m with Ok a => f a | Err e => Err e | Panic => Panic end.
Notation "x ←! m ; k" := (res_bind m (λ x, k))
  (at level 20, m at level 100, k at level 200, right associativity) : dapr_scope.

Definition marshal {A} `{Codec A} (x : A) : res string :=
  match Marshal x with Some d => Ok d | None => Err ErrMarshal end.

(** ** Keys *)

Definition inboxKeyPrefix := "inbox".
Definition historyKeyPrefix := "history".
Definition sigcertKeyPrefix := "sigcert".
Definition extSigCertKeyPrefix := "ext-sigcert".
Definition signatureKeyPrefix := "signature".
Definition customStatusKey := "customStatus".
Definition MetadataKey := "metadata".
Definition ParentNotifyKey := "parent-notify".
Definition propagatedHistoryKey := "propagated-history".
Definition creationInputKey := "creation-input".

Definition maxStateEntries : N := 1000000.

(** The decimal number, padded with zeros to six digits. *)
Definition getMultiEntryKeyName (prefix : string) (i : N) : string :=
  let s := pretty i in
  prefix +:+ "-" +:+ of_bytes (replicate (6 - String.length s) "0"%char) +:+ s.

Definition HistoryKey (i : N) : string := getMultiEntryKeyName historyKeyPrefix i.

(** ** The state *)

(** A slice with its added and removed counts since the last save. *)
Record tracked (A : Type) := mkTracked { items : list A; addedCount : nat; removedCount : nat }.
Arguments mkTracked {A} items addedCount removedCount.
Arguments items {A} t.
Arguments addedCount {A} t.
Arguments removedCount {A} t.

Definition track_new {A} : tracked A := mkTracked [] 0 0.

(** [append] to the slice, counting the addition *)
Definition track_append {A} (t : tracked A) (xs : list A) : tracked A :=
  mkTracked (items t ++ xs) (addedCount t + length xs) (removedCount t).

(** the slice is dropped *)
Definition track_drop {A} (t : tracked A) : tracked A :=
  mkTracked [] 0 (removedCount t + length (items t)).

Definition track_saved {A} (t : tracked A) : tracked A := mkTracked (items t) 0 0.

(** An optional value with its [persisted] and [changed] flags. *)
Record row (A : Type) := mkRow { value : A; persisted : bool; changed : bool }.
Arguments mkRow {A} value persisted changed.
Arguments value {A} r.
Arguments persisted {A} r.
Arguments changed {A} r.

Definition row_set {A} (r : row A) (v : A) : row A := mkRow v (persisted r) true.

Definition GetValue (v : option string) : string := default EmptyString v.

(** The entries of a prefix from index [i] on, each with its bytes: all of
    them, those before the first missing key, or the first key that does not
    decode. *)
Inductive entries (A : Type) :=
  | AllEntries (xs : list (A * string))
  | MissingEntry (key : string) (xs : list (A * string))
  | BadEntry (key : string).
Arguments AllEntries {A} xs.
Arguments MissingEntry {A} key xs.
Arguments BadEntry {A} key.

Definition entries_cons {A} (x : A * string) (r : entries A) : entries A :=
  match r with
  | AllEntries xs => AllEntries (x :: xs)
  | MissingEntry k xs => MissingEntry k (x :: xs)
  | BadEntry k => BadEntry k
  end.

Section state.
Context `{HistorySigning}.

Record Options := mkOptions {
  o_AppID : string; o_Namespace : string; o_WorkflowActorType : string;
  o_ActivityActorType : string; o_Signer : option Signer }.

Record State := mkState {
  appID : string;
  namespace : string;
  workflowActorType : string;
  activityActorType : string;
  Inbox : tracked HistoryEvent;
  History : tracked HistoryEvent;
  SigningCertificates : tracked SigningCertificate;
  ExternalSigningCertificates : tracked ExternalSigningCertificate;
  Signatures : tracked HistorySignature;
  CustomStatus : row (option string);
  Generation : N;
  RawHistory : list string;
  RawSignatures : list string;
  marshaledNewHistory : list string;
  IncomingHistory : row (option PropagatedHistory);
  ParentNotify : row bool;
  CreationInput : row (option string);
  creationInputParent : creationParent;
  keepCreationInput : bool;
  externalCertDigestIndex : option (gmap string N);
  metadataETag : option string;
  metadataETagSeen : bool }.

Definition set_Inbox v s := mkState (appID s) (namespace s) (workflowActorType s)
  (activityActorType s) v (History s) (SigningCertificates s) (ExternalSigningCertificates s)
  (Signatures s) (CustomStatus s) (Generation s) (RawHistory s) (RawSignatures s)
  (marshaledNewHistory s) (IncomingHistory s) (ParentNotify s) (CreationInput s)
  (creationInputParent s) (keepCreationInput s) (externalCertDigestIndex s) (metadataETag s)
  (metadataETagSeen s).
Definition set_History v s := mkState (appID s) (namespace s) (workflowActorType s)
  (activityActorType s) (Inbox s) v (SigningCertificates s) (ExternalSigningCertificates s)
  (Signatures s) (CustomStatus s) (Generation s) (RawHistory s) (RawSignatures s)
  (marshaledNewHistory s) (IncomingHistory s) (ParentNotify s) (CreationInput s)
  (creationInputParent s) (keepCreationInput s) (externalCertDigestIndex s) (metadataETag s)
  (metadataETagSeen s).
Definition set_SigningCertificates v s := mkState (appID s) (namespace s) (workflowActorType s)
  (activityActorType s) (Inbox s) (History s) v (ExternalSigningCertificates s) (Signatures s)
  (CustomStatus s) (Generation s) (RawHistory s) (RawSignatures s) (marshaledNewHistory s)
  (IncomingHistory s) (ParentNotify s) (CreationInput s) (creationInputParent s)
  (keepCreationInput s) (externalCertDigestIndex s) (metadataETag s) (metadataETagSeen s).
Definition set_ExternalSigningCertificates v s := mkState (appID s) (namespace s)
  (workflowActorType s) (activityActorType s) (Inbox s) (History s) (SigningCertificates s) v
  (Signatures s) (CustomStatus s) (Generation s) (RawHistory s) (RawSignatures s)
  (marshaledNewHistory s) (IncomingHistory s) (ParentNotify s) (CreationInput s)
  (creationInputParent s) (keepCreationInput s) (externalCertDigestIndex s) (metadataETag s)
  (metadataETagSeen s).
Definition set_Signatures v s := mkState (appID s) (namespace s) (workflowActorType s)
  (activityActorType s) (Inbox s) (History s) (SigningCertificates s)
  (ExternalSigningCertificates s) v (CustomStatus s) (Generation s) (RawHistory s)
  (RawSignatures s) (marshaledNewHistory s) (IncomingHistory s) (ParentNotify s)
  (CreationInput s) (creationInputParent s) (keepCreationInput s) (externalCertDigestIndex s)
  (metadataETag s) (metadataETagSeen s).
Definition set_CustomStatus v s := mkState (appID s) (namespace s) (workflowActorType s)
  (activityActorType s) (Inbox s) (History s) (SigningCertificates s)
  (ExternalSigningCertificates s) (Signatures s) v (Generation s) (RawHistory s)
  (RawSignatures s) (marshaledNewHistory s) (IncomingHistory s) (ParentNotify s)
  (CreationInput s) (creationInputParent s) (keepCreationInput s) (externalCertDigestIndex s)
  (metadataETag s) (metadataETagSeen s).
Definition set_Generation v s := mkState (appID s) (namespace s) (workflowActorType s)
  (activityActorType s) (Inbox s) (History s) (SigningCertificates s)
  (ExternalSigningCertificates s) (Signatures s) (CustomStatus s) v (RawHistory s)
  (RawSignatures s) (marshaledNewHistory s) (IncomingHistory s) (ParentNotify s)
  (CreationInput s) (creationInputParent s) (keepCreationInput s) (externalCertDigestIndex s)
  (metadataETag s) (metadataETagSeen s).
Definition set_RawHistory v s := mkState (appID s) (namespace s) (workflowActorType s)
  (activityActorType s) (Inbox s) (History s) (SigningCertificates s)
  (ExternalSigningCertificates s) (Signatures s) (CustomStatus s) (Generation s) v
  (RawSignatures s) (marshaledNewHistory s) (IncomingHistory s) (ParentNotify s)
  (CreationInput s) (creationInputParent s) (keepCreationInput s) (externalCertDigestIndex s)
  (metadataETag s) (metadataETagSeen s).
Definition set_RawSignatures v s := mkState (appID s) (namespace s) (workflowActorType s)
  (activityActorType s) (Inbox s) (History s) (SigningCertificates s)
  (ExternalSigningCertificates s) (Signatures s) (CustomStatus s) (Generation s) (RawHistory s)
  v (marshaledNewHistory s) (IncomingHistory s) (ParentNotify s) (CreationInput s)
  (creationInputParent s) (keepCreationInput s) (externalCertDigestIndex s) (metadataETag s)
  (metadataETagSeen s).
Definition set_marshaledNewHistory v s := mkState (appID s) (namespace s) (workflowActorType s)
  (activityActorType s) (Inbox s) (History s) (SigningCertificates s)
  (ExternalSigningCertificates s) (Signatures s) (CustomStatus s) (Generation s) (RawHistory s)
  (RawSignatures s) v (IncomingHistory s) (ParentNotify s) (CreationInput s)
  (creationInputParent s) (keepCreationInput s) (externalCertDigestIndex s) (metadataETag s)
  (metadataETagSeen s).
Definition set_IncomingHistory v s := mkState (appID s) (namespace s) (workflowActorType s)
  (activityActorType s) (Inbox s) (History s) (SigningCertificates s)
  (ExternalSigningCertificates s) (Signatures s) (CustomStatus s) (Generation s) (RawHistory s)
  (RawSignatures s) (marshaledNewHistory s) v (ParentNotify s) (CreationInput s)
  (creationInputParent s) (keepCreationInput s) (externalCertDigestIndex s) (metadataETag s)
  (metadataETagSeen s).
Definition set_ParentNotify v s := mkState (appID s) (namespace s) (workflowActorType s)
  (activityActorType s) (Inbox s) (History s) (SigningCertificates s)
  (ExternalSigningCertificates s) (Signatures s) (CustomStatus s) (Generation s) (RawHistory s)
  (RawSignatures s) (marshaledNewHistory s) (IncomingHistory s) v (CreationInput s)
  (creationInputParent s) (keepCreationInput s) (externalCertDigestIndex s) (metadataETag s)
  (metadataETagSeen s).
Definition set_CreationInput v s := mkState (appID s) (namespace s) (workflowActorType s)
  (activityActorType s) (Inbox s) (History s) (SigningCertificates s)
  (ExternalSigningCertificates s) (Signatures s) (CustomStatus s) (Generation s) (RawHistory s)
  (RawSignatures s) (marshaledNewHistory s) (IncomingHistory s) (ParentNotify s) v
  (creationInputParent s) (keepCreationInput s) (externalCertDigestIndex s) (metadataETag s)
  (metadataETagSeen s).
Definition set_creationInputParent v s := mkState (appID s) (namespace s) (workflowActorType s)
  (activityActorType s) (Inbox s) (History s) (SigningCertificates s)
  (ExternalSigningCertificates s) (Signatures s) (CustomStatus s) (Generation s) (RawHistory s)
  (RawSignatures s) (marshaledNewHistory s) (IncomingHistory s) (ParentNotify s)
  (CreationInput s) v (keepCreationInput s) (externalCertDigestIndex s) (metadataETag s)
  (metadataETagSeen s).
Definition set_externalCertDigestIndex v s := mkState (appID s) (namespace s)
  (workflowActorType s) (activityActorType s) (Inbox s) (History s) (SigningCertificates s)
  (ExternalSigningCertificates s) (Signatures s) (CustomStatus s) (Generation s) (RawHistory s)
  (RawSignatures s) (marshaledNewHistory s) (IncomingHistory s) (ParentNotify s)
  (CreationInput s) (creationInputParent s) (keepCreationInput s) v (metadataETag s)
  (metadataETagSeen s).
Definition set_metadataETag v s := mkState (appID s) (namespace s) (workflowActorType s)
  (activityActorType s) (Inbox s) (History s) (SigningCertificates s)
  (ExternalSigningCertificates s) (Signatures s) (CustomStatus s) (Generation s) (RawHistory s)
  (RawSignatures s) (marshaledNewHistory s) (IncomingHistory s) (ParentNotify s)
  (CreationInput s) (creationInputParent s) (keepCreationInput s) (externalCertDigestIndex s) v
  (metadataETagSeen s).
Definition set_metadataETagSeen v s := mkState (appID s) (namespace s) (workflowActorType s)
  (activityActorType s) (Inbox s) (History s) (SigningCertificates s)
  (ExternalSigningCertificates s) (Signatures s) (CustomStatus s) (Generation s) (RawHistory s)
  (RawSignatures s) (marshaledNewHistory s) (IncomingHistory s) (ParentNotify s)
  (CreationInput s) (creationInputParent s) (keepCreationInput s) (externalCertDigestIndex s)
  (metadataETag s) v.

Definition NewState (opts : Options) : State :=
  mkState (o_AppID opts) (o_Namespace opts) (o_WorkflowActorType opts) (o_ActivityActorType opts)
    track_new track_new track_new track_new track_new (mkRow None false false) 1 [] [] []
    (mkRow None false false) (mkRow false false false) (mkRow None false false)
    (mkCreationParent EmptyString EmptyString) (bool_decide (is_Some (o_Signer opts)))
    None None false.

(** *** Changes *)

Definition drop_signing (s : State) : State :=
  set_SigningCertificates (track_drop (SigningCertificates s))
    (set_ExternalSigningCertificates (track_drop (ExternalSigningCertificates s))
      (set_externalCertDigestIndex None
        (set_Signatures (track_drop (Signatures s))
          (set_RawSignatures [] s)))).

Definition drop_events (s : State) : State :=
  set_RawHistory [] (set_History (track_drop (History s)) (set_Inbox (track_drop (Inbox s)) s)).

Definition reset_status (s : State) : State :=
  set_CustomStatus (mkRow None (persisted (CustomStatus s))
    (negb (bool_decide (GetValue (value (CustomStatus s)) = EmptyString)) || changed (CustomStatus s))) s.

Definition reset_incoming (s : State) : State :=
  match value (IncomingHistory s) with
  | Some _ => set_IncomingHistory (row_set (IncomingHistory s) None) s
  | None => s
  end.

Definition reset_notify (s : State) : State :=
  if value (ParentNotify s) || persisted (ParentNotify s)
  then set_ParentNotify (row_set (ParentNotify s) false) s else s.

Definition reset_creation (s : State) : State :=
  if bool_decide (is_Some (value (CreationInput s))) || persisted (CreationInput s)
  then set_CreationInput (row_set (CreationInput s) None) s else s.

Definition Reset (s : State) : State :=
  let s := reset_creation (reset_notify (reset_incoming (reset_status (drop_signing (drop_events s))))) in
  set_Generation (u64_succ (Generation s)) s.

Definition history_touched (s : State) : bool :=
  (0 <? addedCount (History s)) || (0 <? removedCount (History s)).

(** whether a save writes the custom status *)
Definition customStatus_due (s : State) : bool :=
  history_touched s && (changed (CustomStatus s) || negb (persisted (CustomStatus s))).

Definition row_saved {A} (stored : A → bool) (r : row A) : row A :=
  if changed r then mkRow (value r) (stored (value r)) false else r.

Definition ResetChangeTracking (s : State) : State :=
  let s := if customStatus_due s
           then set_CustomStatus (mkRow (value (CustomStatus s)) true false) s else s in
  let s := set_IncomingHistory (row_saved (λ v, bool_decide (is_Some v)) (IncomingHistory s)) s in
  let s := set_ParentNotify (row_saved (λ v, v) (ParentNotify s)) s in
  let s := set_CreationInput (row_saved (λ v, bool_decide (is_Some v)) (CreationInput s)) s in
  let s := set_Inbox (track_saved (Inbox s)) s in
  let s := set_History (track_saved (History s)) s in
  let s := set_SigningCertificates (track_saved (SigningCertificates s)) s in
  let s := set_ExternalSigningCertificates (track_saved (ExternalSigningCertificates s)) s in
  let s := set_Signatures (track_saved (Signatures s)) s in
  set_marshaledNewHistory [] (set_RawHistory [] s).

Definition SetIncomingHistory (ph : option PropagatedHistory) (s : State) : State :=
  set_IncomingHistory (row_set (IncomingHistory s) ph) s.

Definition creationParentOf (p : option ParentInstanceInfo) : creationParent :=
  match p with
  | Some p => mkCreationParent (pi_InstanceId p) (pi_ExecutionId p)
  | None => mkCreationParent EmptyString EmptyString
  end.

Definition setCreationInput (input : option string) (parent : option ParentInstanceInfo) (s : State) : State :=
  set_creationInputParent (creationParentOf parent)
    (set_CreationInput (row_set (CreationInput s) (Some (GetValue input))) s).

Definition KeepCreationInput (start : ExecutionStartedEvent) (s : State) : State :=
  match es_ParentInstance start with
  | Some parent => if keepCreationInput s then setCreationInput (es_Input start) (Some parent) s else s
  | None => s
  end.

Definition CreationInputFor (parent : option ParentInstanceInfo) (s : State) : bool :=
  bool_decide (is_Some (value (CreationInput s))) &&
  bool_decide (creationInputParent s = creationParentOf parent).

Definition ClearCreationInput (s : State) : State :=
  if bool_decide (is_Some (value (CreationInput s))) || persisted (CreationInput s)
  then set_creationInputParent (mkCreationParent EmptyString EmptyString)
         (set_CreationInput (row_set (CreationInput s) None) s)
  else s.

Definition executionStartedOf (history inbox : list HistoryEvent) : option ExecutionStartedEvent :=
  head (omap GetExecutionStarted (history ++ inbox)).

Definition SetParentNotifyPending (pending : bool) (s : State) : State :=
  let r := ParentNotify s in
  set_ParentNotify
    (mkRow pending (persisted r)
       (negb (Bool.eqb (value r) pending) || (pending && negb (persisted r)) || changed r)) s.

Definition SetMetadataETag (etag : option string) (s : State) : State :=
  let s := set_metadataETag etag s in
  match etag with Some _ => set_metadataETagSeen true s | None => s end.

(** The fields of the engine's runtime state that are read here. *)
Record RuntimeState := mkRuntimeState {
  rs_ContinuedAsNew : bool; rs_NewEvents : list HistoryEvent; rs_CustomStatus : option string }.

Definition ApplyRuntimeStateChanges (rs : RuntimeState) (s : State) : State :=
  let s := if rs_ContinuedAsNew rs
           then drop_signing (set_History (track_drop (History s)) s) else s in
  let s := set_History (track_append (History s) (rs_NewEvents rs)) s in
  set_CustomStatus (mkRow (rs_CustomStatus rs) (persisted (CustomStatus s))
    (negb (bool_decide (GetValue (value (CustomStatus s)) = GetValue (rs_CustomStatus rs))) ||
     changed (CustomStatus s))) s.

Definition AddToInbox (e : HistoryEvent) (s : State) : State :=
  set_Inbox (track_append (Inbox s) [e]) s.

Definition AddToHistory (e : HistoryEvent) (s : State) : State :=
  set_History (track_append (History s) [e]) s.

Definition FindHistoryEventByID (id : Z) (s : State) : option HistoryEvent :=
  head (filter (λ e, GetEventId e = id) (items (History s))).

Definition AddSigningCertificate (cert : SigningCertificate) (s : State) : State :=
  set_SigningCertificates (track_append (SigningCertificates s) [cert]) s.

Definition AddExternalCert (digest certDER : string) (s : State) : State * res N :=
  if negb (String.length digest =? 32) then (s, Err (ErrDigestSize (String.length digest)))
  else
    let index := default ∅ (externalCertDigestIndex s) in
    match index !! digest with
    | Some idx => (set_externalCertDigestIndex (Some index) s, Ok idx)
    | None =>
        let idx := N.of_nat (length (items (ExternalSigningCertificates s))) in
        (set_externalCertDigestIndex (Some (<[digest := idx]> index))
           (set_ExternalSigningCertificates
              (track_append (ExternalSigningCertificates s) [mkExternalCert digest certDER]) s),
         Ok idx)
    end.

(** An index outside the slice panics. *)
Definition LookupExternalCert (digest : string) (s : State) : res (option (ExternalSigningCertificate * N)) :=
  match externalCertDigestIndex s with
  | None => Ok None
  | Some index =>
      match index !! digest with
      | None => Ok None
      | Some idx =>
          match items (ExternalSigningCertificates s) !! N.to_nat idx with
          | Some c => Ok (Some (c, idx))
          | None => Panic
          end
      end
  end.

Definition index_certs (certs : list ExternalSigningCertificate) : gmap string N :=
  foldl (λ m '(i, c), <[ext_Digest c := N.of_nat i]> m) ∅ (imap pair certs).

Definition setLoadedExternalCerts (certs : list ExternalSigningCertificate) (s : State) : State * bool :=
  if forallb (λ c, bool_decide (CertDigest (ext_Certificate c) = ext_Digest c)) certs
  then (set_externalCertDigestIndex
          (match certs with [] => None | _ => Some (index_certs certs) end)
          (set_ExternalSigningCertificates
             (mkTracked certs (addedCount (ExternalSigningCertificates s))
                (removedCount (ExternalSigningCertificates s))) s), true)
  else (s, false).

Definition AddSignature (sig : HistorySignature) (raw : string) (s : State) : State :=
  set_Signatures (track_append (Signatures s) [sig]) (set_RawSignatures (RawSignatures s ++ [raw]) s).

Definition SetMarshaledNewHistory (raw : list string) (s : State) : State :=
  set_marshaledNewHistory raw s.

Definition persistable (inbox : list HistoryEvent) : list HistoryEvent :=
  filter (λ e, IsTimerFired e = false) inbox.

Definition ClearInbox (s : State) : State :=
  set_Inbox (mkTracked [] 0 (removedCount (Inbox s) + length (persistable (items (Inbox s))))) s.

Definition persistableInbox (s : State) : list HistoryEvent := persistable (items (Inbox s)).

(** *** Save and purge requests *)

(** [uint64(i)] of an index; the index of an element fits an [int]. *)
Definition uint64_of (i : Z) : N := Z.to_N (if (i <? 0)%Z then i + 18446744073709551616 else i).

(** The upserts for the [n] indices from [i] on; [data] is the encoding of the
    element at an index. *)
Fixpoint upserts (prefix : string) (data : Z → res string) (i : Z) (n : nat) : res (list TransactionalOperation) :=
  match n with
  | O => Ok []
  | S n' =>
      (d ←! data i;
       ops ←! upserts prefix data (i + 1) n';
       Ok (Upsert (getMultiEntryKeyName prefix (uint64_of i)) d None :: ops))%dapr
  end.

(** The deletes for the indices from [len] to below [removed]. *)
Definition deletes (prefix : string) (len removed : nat) : list TransactionalOperation :=
  (λ i, Delete (getMultiEntryKeyName prefix (N.of_nat i))) <$> seq len (removed - len).

(** [xs[i]] *)
Definition index {A} (xs : list A) (i : Z) : res A :=
  if (i <? 0)%Z then Panic else match xs !! Z.to_nat i with Some x => Ok x | None => Panic end.

Definition entry_operations (prefix : string) (data : Z → res string) (len added removed : nat) :
    res (list TransactionalOperation) :=
  (ops ←! upserts prefix data (Z.of_nat len - Z.of_nat added) added;
   Ok (ops ++ deletes prefix len removed))%dapr.

Definition marshal_at {A} `{Codec A} (xs : list A) (i : Z) : res string :=
  (x ←! index xs i; marshal x)%dapr.

Definition addStateOperations (prefix : string) (events : list HistoryEvent) (added removed : nat) :=
  entry_operations prefix (marshal_at events) (length events) added removed.

Definition addProtoStateOperations {A} `{Codec A} (prefix : string) (xs : list A) (added removed : nat) :=
  entry_operations prefix (marshal_at xs) (length xs) added removed.

Definition addRawBytesStateOperations (prefix : string) (raws : list string) (added removed : nat) :=
  entry_operations prefix (index raws) (length raws) added removed.

Definition history_data (s : State) (i : Z) : res string :=
  let start := (Z.of_nat (length (items (History s))) - Z.of_nat (addedCount (History s)))%Z in
  match marshaledNewHistory s !! Z.to_nat (i - start) with
  | Some d => Ok d
  | None => marshal_at (items (History s)) i
  end.

Definition addHistoryOperations (s : State) : res (list TransactionalOperation) :=
  entry_operations historyKeyPrefix (history_data s) (length (items (History s)))
    (addedCount (History s)) (removedCount (History s)).

Definition customStatus_operations (s : State) : res (list TransactionalOperation) :=
  if customStatus_due s
  then (d ←! marshal (GetValue (value (CustomStatus s))); Ok [Upsert customStatusKey d None])%dapr
  else Ok [].

Definition incomingHistory_operations (s : State) : res (list TransactionalOperation) :=
  if changed (IncomingHistory s) then
    match value (IncomingHistory s) with
    | Some ph => (d ←! marshal ph; Ok [Upsert propagatedHistoryKey d None])%dapr
    | None => Ok [Delete propagatedHistoryKey]
    end
  else Ok [].

(** the byte 1 *)
Definition notify_data : string := String (Ascii.ascii_of_nat 1) EmptyString.

Definition parentNotify_operations (s : State) : list TransactionalOperation :=
  if changed (ParentNotify s) then
    if value (ParentNotify s) then [Upsert ParentNotifyKey notify_data None]
    else if persisted (ParentNotify s) then [Delete ParentNotifyKey] else []
  else [].

Definition creationInput_operations (s : State) : res (list TransactionalOperation) :=
  if changed (CreationInput s) then
    match value (CreationInput s) with
    | Some input =>
        match json_creationInputRow (mkCreationInputRow (creationInputParent s) input) with
        | Some d => Ok [Upsert creationInputKey d None]
        | None => Err ErrMarshal
        end
    | None => Ok (if persisted (CreationInput s) then [Delete creationInputKey] else [])
    end
  else Ok [].

Definition state_metadata (s : State) : BackendWorkflowStateMetadata :=
  mkMetadata (N.of_nat (length (persistableInbox s))) (N.of_nat (length (items (History s))))
    (Generation s) (N.of_nat (length (items (Signatures s))))
    (N.of_nat (length (items (SigningCertificates s))))
    (N.of_nat (length (items (ExternalSigningCertificates s)))).

Definition etag_lost (s : State) : bool :=
  bool_decide (metadataETag s = None) && metadataETagSeen s.

Definition GetSaveRequest (actorID : string) (s : State) : res TransactionalRequest :=
  (inbox ←! addStateOperations inboxKeyPrefix (persistableInbox s) (addedCount (Inbox s)) (removedCount (Inbox s));
   history ←! addHistoryOperations s;
   certs ←! addProtoStateOperations sigcertKeyPrefix (items (SigningCertificates s))
              (addedCount (SigningCertificates s)) (removedCount (SigningCertificates s));
   exts ←! addProtoStateOperations extSigCertKeyPrefix (items (ExternalSigningCertificates s))
             (addedCount (ExternalSigningCertificates s)) (removedCount (ExternalSigningCertificates s));
   sigs ←! addRawBytesStateOperations signatureKeyPrefix (RawSignatures s)
             (addedCount (Signatures s)) (removedCount (Signatures s));
   status ←! customStatus_operations s;
   incoming ←! incomingHistory_operations s;
   creation ←! creationInput_operations s;
   metadata ←! marshal (state_metadata s);
   if etag_lost s then Err ErrMetadataETagLost
   else Ok (mkRequest (workflowActorType s) actorID
          (inbox ++ history ++ certs ++ exts ++ sigs ++ status ++ incoming ++
           parentNotify_operations s ++ creation ++ [Upsert MetadataKey metadata (metadataETag s)])))%dapr.

Definition addPurgeStateOperations (prefix : string) (count : nat) : list TransactionalOperation :=
  (λ i, Delete (getMultiEntryKeyName prefix (N.of_nat i))) <$> seq 0 count.

Definition GetPurgeRequest (actorID : string) (s : State) : TransactionalRequest :=
  mkRequest (workflowActorType s) actorID
    (addPurgeStateOperations inboxKeyPrefix (length (items (Inbox s))) ++
     addPurgeStateOperations historyKeyPrefix (length (items (History s))) ++
     addPurgeStateOperations sigcertKeyPrefix (length (items (SigningCertificates s))) ++
     addPurgeStateOperations extSigCertKeyPrefix (length (items (ExternalSigningCertificates s))) ++
     addPurgeStateOperations signatureKeyPrefix (length (items (Signatures s))) ++
     (if persisted (CustomStatus s) then [Delete customStatusKey] else []) ++
     (if persisted (IncomingHistory s) then [Delete propagatedHistoryKey] else []) ++
     (if persisted (ParentNotify s) then [Delete ParentNotifyKey] else []) ++
     (if persisted (CreationInput s) then [Delete creationInputKey] else []) ++
     [Delete MetadataKey]).

(** *** Terminal markers *)

Definition ErrorTypeHistoryTampered := "DAPR_WORKFLOW_HISTORY_TAMPERED".

Definition IsTamperMarker (e : HistoryEvent) : bool :=
  match GetExecutionCompleted e with
  | None => false
  | Some ec =>
      bool_decide (ec_WorkflowStatus ec = STATUS_FAILED) &&
      match ec_FailureDetails ec with
      | Some fd => bool_decide (fd_ErrorType fd = ErrorTypeHistoryTampered)
      | None => false
      end
  end.

Definition hasTamperMarker (s : State) : bool :=
  match list.last (items (History s)) with Some e => IsTamperMarker e | None => false end.

Definition IsCompleted (s : State) : bool :=
  match list.last (items (History s)) with
  | Some e => bool_decide (is_Some (GetExecutionCompleted e))
  | None => false
  end.

Definition WorkflowVersion (events : list HistoryEvent) : option string :=
  match head (omap GetWorkflowStarted events) with
  | Some name => if decide (name = EmptyString) then None else Some name
  | None => None
  end.

(** The whole state taken from, and given to, a caller. *)
Record BackendWorkflowState := mkBackendState {
  b_Inbox : list HistoryEvent; b_History : list HistoryEvent;
  b_CustomStatus : option string; b_Generation : N }.

Definition ToWorkflowState (s : State) : BackendWorkflowState :=
  mkBackendState (items (Inbox s)) (items (History s)) (value (CustomStatus s)) (Generation s).

Definition FromWorkflowState (b : BackendWorkflowState) (s : State) : State :=
  let s := Reset s in
  let s := foldl (λ s e, AddToInbox e s) s (b_Inbox b) in
  let s := foldl (λ s e, AddToHistory e s) s (b_History b) in
  set_Generation (b_Generation b)
    (set_CustomStatus (mkRow (b_CustomStatus b) (persisted (CustomStatus s)) true) s).

(** *** Signature verification *)

Definition verifyCertAppIdentity (chain expectedAppID expectedNamespace : string) : bool :=
  negb (bool_decide (expectedAppID = EmptyString)) &&
  negb (bool_decide (expectedNamespace = EmptyString)) &&
  negb (bool_decide (chain = EmptyString)) &&
  match LeafSPIFFEPath chain with
  | None => false
  | Some path =>
      match Split slash (bytes path) with
      | [s0; s1; s2; s3] =>
          bool_decide (s0 = []) && bool_decide (s1 = bytes "ns") &&
          negb (bool_decide (s2 = [])) && negb (bool_decide (s3 = [])) &&
          bool_decide (s2 = bytes expectedNamespace) && bool_decide (s3 = bytes expectedAppID)
      | _ => false
      end
  end.

(** [coveredEvents] is a [uint64] sum. *)
Definition covers (s : State) : bool :=
  match list.last (items (Signatures s)) with
  | None => true
  | Some sig =>
      bool_decide (((GetStartEventIndex sig + GetEventCount sig) mod two64)%N =
                   N.of_nat (length (RawHistory s)))
  end.

Definition verifySignatureChain (s : State) (sgn : Signer) : bool :=
  covers s &&
  VerifyChain sgn (RawSignatures s) (items (SigningCertificates s)) (RawHistory s) &&
  forallb (λ c, verifyCertAppIdentity (GetCertificate c) (appID s) (namespace s))
    (items (SigningCertificates s)).

(** *** Loading *)

(** The result of a load: the state and the error, either may be nil. *)
Definition loaded : Type := option State * option wf_error.

Definition data_length (d : option string) : nat := String.length (default EmptyString d).

Definition no_entry : StateResponse := mkStateResponse None None.
Definition entry (bulk : gmap string StateResponse) (key : string) : StateResponse :=
  default no_entry (bulk !! key).

Fixpoint load_entries {A} `{Codec A} (bulk : gmap string StateResponse) (prefix : string) (i : N) (n : nat) : entries A :=
  match n with
  | O => AllEntries []
  | S n' =>
      let key := getMultiEntryKeyName prefix i in
      match sr_Data (entry bulk key) with
      | None => MissingEntry key []
      | Some d =>
          match Unmarshal d with
          | None => BadEntry key
          | Some x => entries_cons (x, d) (load_entries bulk prefix (i + 1) n')
          end
      end
  end.

Definition multi_keys (prefix : string) (n : N) : list string :=
  (λ i, getMultiEntryKeyName prefix (N.of_nat i)) <$> seq 0 (N.to_nat n).

Definition bulk_keys (md : BackendWorkflowStateMetadata) : list string :=
  [customStatusKey; propagatedHistoryKey; ParentNotifyKey; creationInputKey] ++
  multi_keys inboxKeyPrefix (InboxLength md) ++ multi_keys historyKeyPrefix (HistoryLength md) ++
  multi_keys sigcertKeyPrefix (SigningCertificateLength md) ++
  multi_keys extSigCertKeyPrefix (ExternalSigningCertificateLength md) ++
  multi_keys signatureKeyPrefix (SignatureLength md).

Definition decode_metadata (d : string) : option BackendWorkflowStateMetadata :=
  match Unmarshal d with
  | Some md => Some md
  | None =>
      match unjson_metadata d with
      | Some l => Some (mkMetadata (l_InboxLength l) (l_HistoryLength l) (l_Generation l) 0 0 0)
      | None => None
      end
  end.

Definition within_bounds (md : BackendWorkflowStateMetadata) : bool :=
  forallb (λ n, (n <=? maxStateEntries)%N)
    [InboxLength md; HistoryLength md; SignatureLength md; SigningCertificateLength md;
     ExternalSigningCertificateLength md].

(** A state with missing or invalid signing data is not trusted, except one
    that tamper detection failed before. *)
Definition tampered (s : State) (e : wf_error) : loaded :=
  (Some s, if hasTamperMarker s then None else Some e).

Definition load_custom_status (bulk : gmap string StateResponse) (s : State) : State + wf_error :=
  let r := entry bulk customStatusKey in
  let p := bool_decide (is_Some (sr_ETag r)) in
  match sr_Data r with
  | Some (String _ _ as d) =>
      match Unmarshal d with
      | Some v => inl (set_CustomStatus (mkRow (Some v) p false) s)
      | None =>
          match unjson_string d with
          | Some v => inl (set_CustomStatus (mkRow (Some v) p false) s)
          | None => inr (ErrUnmarshal customStatusKey)
          end
      end
  | _ => inl (set_CustomStatus (mkRow None p false) s)
  end.

Definition load_incoming (bulk : gmap string StateResponse) (s : State) : State + wf_error :=
  let r := entry bulk propagatedHistoryKey in
  let p := bool_decide (is_Some (sr_ETag r)) in
  match sr_Data r with
  | Some (String _ _ as d) =>
      match Unmarshal d with
      | Some ph => inl (set_IncomingHistory (mkRow (Some ph) p false) s)
      | None => inr (ErrUnmarshal propagatedHistoryKey)
      end
  | _ => inl (set_IncomingHistory (mkRow None p false) s)
  end.

Definition row_present (r : StateResponse) : bool :=
  bool_decide (is_Some (sr_ETag r)) || (0 <? data_length (sr_Data r)).

Definition load_parent_notify (bulk : gmap string StateResponse) (s : State) : State :=
  if row_present (entry bulk ParentNotifyKey)
  then set_ParentNotify (mkRow true true (changed (ParentNotify s))) s else s.

Definition load_creation_input (bulk : gmap string StateResponse) (s : State) : State + wf_error :=
  let r := entry bulk creationInputKey in
  let d := default EmptyString (sr_Data r) in
  if negb (row_present r) then inl s
  else
    let s := set_CreationInput (mkRow (value (CreationInput s)) true (changed (CreationInput s))) s in
    match unjson_creationInputRow d with
    | Some row => inl (set_creationInputParent (ci_parent row)
                         (set_CreationInput (mkRow (Some (ci_Input row)) true (changed (CreationInput s))) s))
    | None =>
        match Unmarshal d with
        | None => inr (ErrUnmarshal creationInputKey)
        | Some legacy =>
            match executionStartedOf (items (History s)) (items (Inbox s)) ≫= es_ParentInstance with
            | None => inl (ClearCreationInput s)
            | Some parent => inl (setCreationInput (Some legacy) (Some parent) s)
            end
        end
    end.

(** Signing enforcement on a state whose history does not end in the tamper marker. *)
Definition enforce_signing (opts : Options) (s : State) : option wf_error :=
  match items (Signatures s) with
  | _ :: _ =>
      match o_Signer opts with
      | None => Some ErrConfiguration
      | Some sgn =>
          if bool_decide (o_AppID opts = EmptyString) then Some ErrConfiguration
          else if bool_decide (o_Namespace opts = EmptyString) then Some ErrConfiguration
          else if verifySignatureChain s sgn then None
          else Some (ErrVerification signatureKeyPrefix)
      end
  | [] =>
      if bool_decide (is_Some (o_Signer opts)) && (0 <? length (items (History s)))
      then Some ErrConfiguration else None
  end.

Definition load_rows (bulk : gmap string StateResponse) (opts : Options) (s : State) : loaded :=
  match load_custom_status bulk s with
  | inr e => (None, Some e)
  | inl s =>
      match load_incoming bulk s with
      | inr e => (None, Some e)
      | inl s =>
          match load_creation_input bulk (load_parent_notify bulk s) with
          | inr e => (None, Some e)
          | inl s => if hasTamperMarker s then (Some s, None) else (Some s, enforce_signing opts s)
          end
      end
  end.

(** The signing certificates, external certificates and signatures, in this order. *)
Definition load_signing (bulk : gmap string StateResponse) (md : BackendWorkflowStateMetadata) (opts : Options) (s : State) : loaded :=
  match load_entries bulk sigcertKeyPrefix 0 (N.to_nat (SigningCertificateLength md)) with
  | BadEntry k => (None, Some (ErrUnmarshal k))
  | MissingEntry k xs => tampered (set_SigningCertificates (mkTracked xs.*1 0 0) s) (ErrMissing k)
  | AllEntries certs =>
      let s := set_SigningCertificates (mkTracked certs.*1 0 0) s in
      match load_entries bulk extSigCertKeyPrefix 0 (N.to_nat (ExternalSigningCertificateLength md)) with
      | BadEntry k => (None, Some (ErrUnmarshal k))
      | MissingEntry k _ => tampered s (ErrMissing k)
      | AllEntries exts =>
          let '(s, ok) := setLoadedExternalCerts exts.*1 s in
          if negb ok then tampered s (ErrVerification extSigCertKeyPrefix)
          else match load_entries bulk signatureKeyPrefix 0 (N.to_nat (SignatureLength md)) with
               | BadEntry k => (None, Some (ErrUnmarshal k))
               | MissingEntry k xs =>
                   tampered (set_RawSignatures xs.*2 (set_Signatures (mkTracked xs.*1 0 0) s)) (ErrMissing k)
               | AllEntries sigs =>
                   load_rows bulk opts (set_RawSignatures sigs.*2 (set_Signatures (mkTracked sigs.*1 0 0) s))
               end
      end
  end.

Definition loadWorkflowStateOnce (getMeta : option StateResponse)
    (getBulk : list string → option (gmap string StateResponse)) (opts : Options) : loaded :=
  match getMeta with
  | None => (None, Some ErrLoadMetadata)
  | Some res =>
      match sr_Data res with
      | None | Some EmptyString => (None, None)
      | Some d =>
          match decode_metadata d with
          | None => (None, Some (ErrUnmarshal MetadataKey))
          | Some md =>
              if negb (within_bounds md) then (None, Some (ErrVerification MetadataKey))
              else match getBulk (bulk_keys md) with
                   | None => (None, Some ErrLoadState)
                   | Some bulk =>
                       let s := set_metadataETagSeen (bool_decide (is_Some (sr_ETag res)))
                                  (set_metadataETag (sr_ETag res)
                                     (set_Generation (md_Generation md) (NewState opts))) in
                       match load_entries bulk inboxKeyPrefix 0 (N.to_nat (InboxLength md)) with
                       | BadEntry k => (None, Some (ErrUnmarshal k))
                       | MissingEntry k _ => (None, Some (ErrTransient k (sr_ETag res)))
                       | AllEntries inbox =>
                           match load_entries bulk historyKeyPrefix 0 (N.to_nat (HistoryLength md)) with
                           | BadEntry k => (None, Some (ErrUnmarshal k))
                           | MissingEntry k _ => (None, Some (ErrTransient k (sr_ETag res)))
                           | AllEntries history =>
                               load_signing bulk md opts
                                 (set_RawHistory history.*2
                                    (set_History (mkTracked history.*1 0 0)
                                       (set_Inbox (mkTracked inbox.*1 0 0) s)))
                           end
                       end
                   end
          end
      end
  end.

Definition loadStateMaxAttempts : nat := 5.

(** The retry loop: [once n] is the load of the n-th attempt, [cancelled n]
    whether the context ends during the delay after it; [None] when the fuel
    runs out. *)
Fixpoint load_loop (once : nat → loaded) (cancelled : nat → bool) (fuel attempt : nat) (prev : option (option string)) : option loaded :=
  match fuel with
  | O => None
  | S fuel' =>
      match once attempt with
      | (_, Some (ErrTransient key etag)) =>
          let same := match prev, etag with Some (Some p), Some e => bool_decide (p = e) | _, _ => false end in
          if same || (loadStateMaxAttempts <=? attempt) then Some (None, Some (ErrMissing key))
          else if cancelled attempt then Some (None, Some ErrCancelled)
          else load_loop once cancelled fuel' (S attempt) (Some etag)
      | r => Some r
      end
  end.

Definition LoadWorkflowState (once : nat → loaded) (cancelled : nat → bool) : option loaded :=
  load_loop once cancelled loadStateMaxAttempts 1 None.

(** *** Tombstones *)

(** The store operations as arguments: whether the transaction commits, and
    the read of the metadata row after it ([None] for an error). *)
Definition MarkAsTamperFailed (now : Z) (actorID : string) (opts : Options) (prior : option State) (cause : string)
    (commit : TransactionalRequest → bool) (refresh : option StateResponse) : option State :=
  let s := default (NewState opts) prior in
  if hasTamperMarker s then Some s
  else
    let s := AddToHistory (NewExecutionCompleted now
               (mkExecutionCompleted STATUS_FAILED (Some (mkFailureDetails ErrorTypeHistoryTampered cause)))) s in
    match GetSaveRequest actorID s with
    | Ok req =>
        if commit req then
          let s := ResetChangeTracking s in
          Some match refresh with
               | None => set_metadataETagSeen false (set_metadataETag None s)
               | Some r => SetMetadataETag (sr_ETag r) s
               end
        else None
    | _ => None
    end.

End state.
