(* ===== verification/WorkflowSync.v ===== *)
(** * Workflow state: the rows in the store and the state in memory

    [tracks] relates a state in memory, with its counters and flags, to the
    rows of the instance in the store; [represents] says that the rows are
    exactly those of a workflow's content.  Every change of the state keeps
    [tracks]; a save request turns rows that are tracked into rows that
    represent the state, loading them gives the content back, and a purge
    leaves nothing. *)

From Stdlib Require Import Ascii.
From stdpp Require Import pretty.
From S2P Require Import Prelude GoStrings WorkflowState.

(** ** Keys *)

Fixpoint digits_value (acc : N) (s : string) : N :=
  match s with
  | EmptyString => acc
  | String c s' => digits_value (acc * 10 + (N_of_ascii c - 48)) s'
  end.

Lemma digit_value x : (x < 10)%N → (N_of_ascii (pretty_N_char x) - 48 = x)%N.
Proof.
  intros Hx. assert (x = 0 ∨ x = 1 ∨ x = 2 ∨ x = 3 ∨ x = 4 ∨ x = 5 ∨ x = 6 ∨ x = 7 ∨ x = 8 ∨ x = 9)%N as Hc
    by lia. by destruct_or! Hc; subst.
Qed.

Lemma digits_value_go x s : digits_value 0 (pretty_N_go x s) = digits_value x s.
Proof.
  revert s. induction (N.lt_wf_0 x) as [x _ IH]; intros s.
  destruct (decide (x = 0)%N) as [->|Hx]; [by rewrite pretty_N_go_0|].
  rewrite pretty_N_go_step by lia. rewrite IH by (apply N.div_lt; lia). simpl.
  rewrite digit_value by (apply N.mod_lt; lia). f_equal.
  pose proof (N.div_mod x 10). lia.
Qed.

Lemma digits_value_pretty x : digits_value 0 (pretty x) = x.
Proof.
  unfold pretty, pretty_N. case_decide; [by subst|]. by rewrite digits_value_go.
Qed.

Lemma digits_value_zeros n s : digits_value 0 (of_bytes (replicate n "0"%char) +:+ s) = digits_value 0 s.
Proof. induction n as [|n IH]; [done|]. exact IH. Qed.

Lemma string_app_inj (p a b : string) : p +:+ a = p +:+ b → a = b.
Proof. induction p as [|c p IH]; simpl; intros Hp; [done|]. injection Hp as Hp. by apply IH. Qed.

Lemma getMultiEntryKeyName_inj p i j :
  getMultiEntryKeyName p i = getMultiEntryKeyName p j → i = j.
Proof.
  unfold getMultiEntryKeyName. intros Hk. apply string_app_inj, string_app_inj in Hk.
  apply (f_equal (digits_value 0)) in Hk. by rewrite !digits_value_zeros, !digits_value_pretty in Hk.
Qed.

(** *** The families of keys *)

Inductive family :=
  | FInbox | FHistory | FCerts | FExts | FSignatures
  | FStatus | FIncoming | FNotify | FCreation | FMetadata | FOther.
#[export] Instance family_eq_dec : EqDecision family.
Proof. solve_decision. Defined.

Fixpoint starts (p k : string) : bool :=
  match p, k with
  | EmptyString, _ => true
  | String a p', String b k' => bool_decide (a = b) && starts p' k'
  | _, EmptyString => false
  end.

Definition key_family (k : string) : family :=
  if starts "inbox-" k then FInbox
  else if starts "history-" k then FHistory
  else if starts "sigcert-" k then FCerts
  else if starts "ext-sigcert-" k then FExts
  else if starts "signature-" k then FSignatures
  else if decide (k = customStatusKey) then FStatus
  else if decide (k = propagatedHistoryKey) then FIncoming
  else if decide (k = ParentNotifyKey) then FNotify
  else if decide (k = creationInputKey) then FCreation
  else if decide (k = MetadataKey) then FMetadata
  else FOther.

(** The five prefixes with their families. *)
Definition prefix_of (f : family) : option string :=
  match f with
  | FInbox => Some inboxKeyPrefix
  | FHistory => Some historyKeyPrefix
  | FCerts => Some sigcertKeyPrefix
  | FExts => Some extSigCertKeyPrefix
  | FSignatures => Some signatureKeyPrefix
  | _ => None
  end.

(** The keys of a workflow's rows. *)
Definition entry_key (p : string) (i : nat) : string := getMultiEntryKeyName p (N.of_nat i).

Definition single_keys : list string :=
  [customStatusKey; propagatedHistoryKey; ParentNotifyKey; creationInputKey; MetadataKey].

Definition known_key (k : string) : Prop :=
  (∃ f p i, prefix_of f = Some p ∧ k = entry_key p i) ∨ k ∈ single_keys.

Lemma key_family_entry f p i : prefix_of f = Some p → key_family (getMultiEntryKeyName p i) = f.
Proof. destruct f; simpl; intros [= <-]; reflexivity. Qed.

(** ** Applying the operations of a transaction *)

Definition op_key (o : TransactionalOperation) : string :=
  match o with Upsert k _ _ => k | Delete k => k end.

Definition op_value (o : TransactionalOperation) : option string :=
  match o with Upsert _ v _ => Some v | Delete _ => None end.

Definition apply_op (m : gmap string string) (o : TransactionalOperation) : gmap string string :=
  match o with Upsert k v _ => <[k := v]> m | Delete k => delete k m end.

Definition apply_ops (ops : list TransactionalOperation) (m : gmap string string) : gmap string string :=
  foldl apply_op m ops.

Lemma apply_op_lookup m o k :
  apply_op m o !! k = if decide (k = op_key o) then op_value o else m !! k.
Proof. destruct o; simpl; case_decide; simplify_map_eq; done. Qed.

Lemma apply_ops_notin ops m k : k ∉ (op_key <$> ops) → apply_ops ops m !! k = m !! k.
Proof.
  revert m; induction ops as [|o ops IH]; intros m Hk; [done|]. unfold apply_ops; simpl.
  fold (apply_ops ops (apply_op m o)). rewrite IH by set_solver.
  rewrite apply_op_lookup, decide_False; [done|]. set_solver.
Qed.

Lemma apply_ops_in ops m o :
  NoDup (op_key <$> ops) → o ∈ ops → apply_ops ops m !! op_key o = op_value o.
Proof.
  revert m; induction ops as [|o' ops IH]; intros m Hn Ho; [by apply elem_of_nil in Ho|].
  rewrite fmap_cons in Hn. apply list.NoDup_cons in Hn as [Hn1 Hn2].
  unfold apply_ops; simpl. fold (apply_ops ops (apply_op m o')).
  apply elem_of_cons in Ho as [->|Ho]; [|by apply IH].
  rewrite apply_ops_notin by done. by rewrite apply_op_lookup, decide_True.
Qed.

(** Only the operations on the keys of a family matter for its rows. *)
Lemma apply_ops_family f ops m k :
  key_family k = f →
  apply_ops ops m !! k = apply_ops (filter (λ o, key_family (op_key o) = f) ops) m !! k.
Proof.
  intros Hk. revert m; induction ops as [|o ops IH]; intros m; [done|].
  rewrite filter_cons. unfold apply_ops; simpl. fold (apply_ops ops (apply_op m o)).
  destruct (decide (key_family (op_key o) = f)) as [Ho|Ho].
  - simpl. fold (apply_ops (filter (λ o, key_family (op_key o) = f) ops) (apply_op m o)). apply IH.
  - fold (apply_ops (filter (λ o, key_family (op_key o) = f) ops) m). rewrite IH.
    clear IH. revert m. induction (filter _ ops) as [|o' l IHl] using rev_ind; intros m; simpl.
    + rewrite apply_op_lookup, decide_False; [done|]. by intros ->.
    + unfold apply_ops. rewrite !foldl_app; simpl. rewrite !apply_op_lookup.
      case_decide; [done|]. apply IHl.
Qed.

Definition in_family (f : family) (ops : list TransactionalOperation) : Prop :=
  Forall (λ o, key_family (op_key o) = f ∧ known_key (op_key o)) ops.

Lemma filter_family_same f ops :
  in_family f ops → filter (λ o, key_family (op_key o) = f) ops = ops.
Proof. intros Hf. apply filter_true. intros o Ho. unfold in_family in Hf.
  rewrite list.Forall_forall in Hf. by apply Hf. Qed.

Lemma filter_family_other f g ops :
  in_family g ops → f ≠ g → filter (λ o, key_family (op_key o) = f) ops = [].
Proof.
  intros Hg Hne. induction Hg as [|o ops [Ho _] _ IH]; [done|].
  rewrite filter_cons, decide_False by congruence. done.
Qed.

(** A transaction made of one segment per family. *)
Definition segments_ok (segs : list (family * list TransactionalOperation)) : Prop :=
  Forall (λ p, in_family p.1 p.2) segs ∧ NoDup segs.*1.

Lemma filter_segments_other f segs :
  Forall (λ p, in_family p.1 p.2) segs → f ∉ segs.*1 →
  filter (λ o, key_family (op_key o) = f) (concat segs.*2) = [].
Proof.
  intros Hs. induction Hs as [|[g ops] segs Hg _ IH]; [done|]. rewrite fmap_cons, list.elem_of_cons. simpl.
  intros Hf. rewrite list.filter_app, (filter_family_other f g) by (done || tauto). apply IH. tauto.
Qed.

Lemma filter_segments f ops segs :
  segments_ok segs → (f, ops) ∈ segs → filter (λ o, key_family (op_key o) = f) (concat segs.*2) = ops.
Proof.
  intros [Hs Hn] Hin. induction Hs as [|[g l] segs Hg Hs IH]; [by apply elem_of_nil in Hin|].
  rewrite fmap_cons in Hn. apply list.NoDup_cons in Hn as [Hn1 Hn2]. simpl. rewrite list.filter_app.
  apply elem_of_cons in Hin as [[= <- <-]|Hin].
  - rewrite filter_family_same by done. rewrite filter_segments_other by done. apply app_nil_r.
  - rewrite (filter_family_other f g); [by apply IH|done|]. intros ->. apply Hn1.
    apply list_elem_of_fmap. by exists (g, ops).
Qed.

(** The rows of a family after the transaction. *)
Lemma segment_lookup f ops segs m k :
  segments_ok segs → (f, ops) ∈ segs → key_family k = f →
  apply_ops (concat segs.*2) m !! k = apply_ops ops m !! k.
Proof. intros Hs Hin Hk. by rewrite (apply_ops_family f), (filter_segments f ops) by done. Qed.

(** No transaction adds rows of other keys. *)
Lemma segment_known segs m k :
  segments_ok segs → is_Some (apply_ops (concat segs.*2) m !! k) → known_key k ∨ is_Some (m !! k).
Proof.
  intros [Hs _] Hk. destruct (decide (k ∈ op_key <$> concat segs.*2)) as [Hin|Hin].
  2:{ right. by rewrite apply_ops_notin in Hk by done. }
  left. clear Hk. apply list_elem_of_fmap in Hin as (o & -> & Ho).
  induction Hs as [|[f ops] segs Hf _ IH]; [by apply elem_of_nil in Ho|]. simpl in Ho.
  apply elem_of_app in Ho as [Ho|Ho]; [|by apply IH]. unfold in_family in Hf.
  rewrite list.Forall_forall in Hf. by destruct (Hf o Ho).
Qed.

(** ** The rows of one slice *)

Section table.
Context {A : Type} (dec : string → option A) (f : family) (p : string).
Context (Hp : prefix_of f = Some p).
Implicit Types (xs : list A) (m : gmap string string).

Notation entry_key := (entry_key p).

(** The rows are those of the slice and no others. *)
Definition table_exact xs m : Prop :=
  ∀ i, match xs !! i with
       | Some x => ∃ d, m !! entry_key i = Some d ∧ dec d = Some x
       | None => m !! entry_key i = None
       end.

(** The elements before the added ones have their rows; other rows are among
    those that the next save deletes or overwrites. *)
Record table_tracks xs (added removed : nat) m : Prop := {
  tt_added : added ≤ length xs;
  tt_rows : ∀ i x, i < length xs - added → xs !! i = Some x →
    ∃ d, m !! entry_key i = Some d ∧ dec d = Some x;
  tt_stale : ∀ i, is_Some (m !! entry_key i) → i < (length xs - added) `max` removed }.

(** The encoder yields rows of the elements. *)
Definition data_decodes xs (added : nat) (data : Z → res string) : Prop :=
  ∀ i x d, length xs - added ≤ i → xs !! i = Some x → data (Z.of_nat i) = Ok d → dec d = Some x.

Lemma entry_key_inj i j : entry_key i = entry_key j → i = j.
Proof. unfold entry_key. intros Hk. apply getMultiEntryKeyName_inj in Hk. lia. Qed.

Lemma uint64_of_nat i : uint64_of (Z.of_nat i) = N.of_nat i.
Proof. unfold uint64_of. rewrite (proj2 (Z.ltb_ge _ _)) by lia. lia. Qed.

Lemma upserts_spec data n : ∀ i ops, upserts p data (Z.of_nat i) n = Ok ops →
  ∃ ds, length ds = n ∧ ops = imap (λ j d, Upsert (entry_key (i + j)) d None) ds ∧
        (∀ j d, ds !! j = Some d → data (Z.of_nat (i + j)) = Ok d).
Proof.
  induction n as [|n IH]; intros i ops Hu; simpl in Hu.
  { injection Hu as <-. by exists []. }
  destruct (data (Z.of_nat i)) as [d| |] eqn:Hd; simpl in Hu; try done.
  replace (Z.of_nat i + 1)%Z with (Z.of_nat (S i)) in Hu by lia.
  destruct (upserts p data (Z.of_nat (S i)) n) as [ops'| |] eqn:Hops; simpl in Hu; try done.
  injection Hu as <-. destruct (IH _ _ Hops) as (ds & Hl & -> & Hds).
  exists (d :: ds). split_and!; [by simpl; rewrite Hl| |].
  - rewrite imap_cons, Nat.add_0_r. unfold entry_key at 1. rewrite uint64_of_nat. f_equal.
    apply imap_ext. intros j x _. simpl. by rewrite Nat.add_succ_r.
  - intros [|j] x Hx; simplify_eq/=; [by rewrite Nat.add_0_r|].
    rewrite Nat.add_succ_r. by apply (Hds j).
Qed.

Lemma deletes_spec len removed o :
  o ∈ deletes p len removed ↔ ∃ i, len ≤ i < removed ∧ o = Delete (entry_key i).
Proof.
  unfold deletes. rewrite list_elem_of_fmap. split.
  - intros (i & -> & Hi). apply elem_of_seq in Hi. exists i. split; [lia|done].
  - intros (i & Hi & ->). exists i. split; [done|]. apply elem_of_seq. lia.
Qed.

Lemma entry_keys_NoDup (js : list nat) : NoDup js → NoDup (entry_key <$> js).
Proof. intros Hn. apply NoDup_fmap_2; [|done]. intros i j. apply entry_key_inj. Qed.

(** The operations of a save on this slice. *)
Lemma entry_operations_spec data len added removed ops :
  added ≤ len → entry_operations p data len added removed = Ok ops →
  ∃ ds, length ds = added ∧
    ops = imap (λ j d, Upsert (entry_key (len - added + j)) d None) ds ++ deletes p len removed ∧
    (∀ j d, ds !! j = Some d → data (Z.of_nat (len - added + j)) = Ok d).
Proof.
  intros Hl. unfold entry_operations.
  replace (Z.of_nat len - Z.of_nat added)%Z with (Z.of_nat (len - added)) by lia.
  destruct (upserts _ _ _ _) as [ups| |] eqn:Hu; simpl; try done. intros [= <-].
  destruct (upserts_spec _ _ _ _ Hu) as (ds & Hlen & -> & Hds). by exists ds.
Qed.

Lemma imap_keys k (ds : list string) :
  op_key <$> imap (λ j d, Upsert (entry_key (k + j)) d None) ds = entry_key <$> seq k (length ds).
Proof.
  revert k; induction ds as [|d ds IH]; intros k; [done|]. rewrite imap_cons, !fmap_cons. simpl.
  rewrite Nat.add_0_r. f_equal. rewrite <-IH. f_equal. apply imap_ext. intros j x _. simpl.
  by rewrite Nat.add_succ_r.
Qed.

Lemma delete_keys len removed : op_key <$> deletes p len removed = entry_key <$> seq len (removed - len).
Proof. unfold deletes. rewrite <-list_fmap_compose. done. Qed.

Lemma entry_operations_family data len added removed ops :
  added ≤ len → entry_operations p data len added removed = Ok ops → in_family f ops.
Proof.
  intros Hl Ho. destruct (entry_operations_spec _ _ _ _ _ Hl Ho) as (ds & _ & -> & _).
  apply (list.Forall_fmap op_key (λ k, key_family k = f ∧ known_key k)).
  rewrite fmap_app, imap_keys, delete_keys, <-fmap_app. apply list.Forall_fmap, list.Forall_true.
  intros i. split; [by apply key_family_entry|]. left. by exists f, p, i.
Qed.

(** A save makes the rows of a tracked slice exact. *)
Lemma table_save data xs added removed m ops :
  table_tracks xs added removed m → data_decodes xs added data →
  entry_operations p data (length xs) added removed = Ok ops →
  table_exact xs (apply_ops ops m).
Proof.
  intros [Ha Hr Hs] Hd Ho i.
  destruct (entry_operations_spec _ _ _ _ _ Ha Ho) as (ds & Hlen & -> & Hds).
  set (n := length xs - added) in *.
  set (ops := imap (λ j d, Upsert (entry_key (n + j)) d None) ds ++ deletes p (length xs) removed).
  assert (op_key <$> ops = entry_key <$> seq n (added + (removed - length xs))) as Hkeys.
  { unfold ops. rewrite fmap_app, imap_keys, delete_keys, Hlen, seq_app, fmap_app.
    do 2 f_equal. unfold n. f_equal; lia. }
  assert (NoDup (op_key <$> ops)) as Hnd by (rewrite Hkeys; apply entry_keys_NoDup, NoDup_seq).
  assert (i < n ∨ length xs `max` removed ≤ i → apply_ops ops m !! entry_key i = m !! entry_key i) as Hout.
  { intros Hi. apply apply_ops_notin. rewrite Hkeys. intros Hin.
    apply list_elem_of_fmap in Hin as (j & Hj & Hin). apply entry_key_inj in Hj as <-.
    apply elem_of_seq in Hin. unfold n in *. lia. }
  destruct (xs !! i) as [x|] eqn:Hx.
  - destruct (decide (i < n)) as [Hi|Hi].
    { rewrite Hout by lia. by apply (Hr i x). }
    assert (i < length xs) as Hil by by apply lookup_lt_Some in Hx.
    destruct (ds !! (i - n)) as [d|] eqn:Hdi.
    2:{ apply lookup_ge_None in Hdi. unfold n in *. lia. }
    exists d. split; [|apply (Hd i x d); [unfold n in *; lia|done|]].
    + replace i with (n + (i - n)) by (unfold n in *; lia).
      apply (apply_ops_in ops m (Upsert (entry_key (n + (i - n))) d None) Hnd).
      unfold ops. apply elem_of_app. left. apply list_elem_of_lookup. exists (i - n).
      by rewrite list_lookup_imap, Hdi.
    + specialize (Hds _ _ Hdi). by replace (n + (i - n)) with i in Hds by (unfold n in *; lia).
  - apply lookup_ge_None in Hx. destruct (decide (i < removed)) as [Hi|Hi].
    + apply (apply_ops_in ops m (Delete (entry_key i)) Hnd). unfold ops. apply elem_of_app. right.
      apply deletes_spec. exists i. split; [lia|done].
    + rewrite Hout by lia. destruct (m !! entry_key i) eqn:Hm; [|done].
      assert (i < n `max` removed) by (apply Hs; by rewrite Hm). unfold n in *. lia.
Qed.

Lemma table_exact_ext xs m m' :
  (∀ i, m' !! entry_key i = m !! entry_key i) → table_exact xs m → table_exact xs m'.
Proof. intros Hm He i. rewrite Hm. apply He. Qed.

(** *** Changes *)

Lemma table_exact_tracks xs m : table_exact xs m → table_tracks xs 0 0 m.
Proof.
  intros He. split; [lia| |].
  - intros i x _ Hx. specialize (He i). by rewrite Hx in He.
  - intros i [d Hd]. specialize (He i). destruct (xs !! i) eqn:Hx; [|congruence].
    apply lookup_lt_Some in Hx. lia.
Qed.

Lemma table_append xs ys added removed m :
  table_tracks xs added removed m → table_tracks (xs ++ ys) (added + length ys) removed m.
Proof.
  intros [Ha Hr Hs]. rewrite Nat.add_comm. split; rewrite length_app; [lia| |].
  - intros i x Hi Hx. apply Hr; [lia|]. rewrite lookup_app_l in Hx by lia. done.
  - intros i Hi. specialize (Hs i Hi). lia.
Qed.

(** Dropping a slice: every row that is left is counted as removed. *)
Lemma table_drop xs added removed n m :
  table_tracks xs added removed m → length xs - added ≤ n → table_tracks [] 0 (removed + n) m.
Proof.
  intros [Ha Hr Hs] Hn. split; [done|done|]. intros i Hi. specialize (Hs i Hi). simpl. lia.
Qed.

(** Rows that are exact for one slice and tracked for another that removed
    nothing: the first is a prefix of the second. *)
Lemma table_prefix xs ys added m :
  table_tracks xs added 0 m → table_exact ys m → ys `prefix_of` xs.
Proof.
  intros [Ha Hr Hs] He.
  assert (length ys ≤ length xs - added) as Hl.
  { destruct (decide (length ys = 0)) as [|Hne]; [lia|].
    destruct (lookup_lt_is_Some_2 ys (length ys - 1)) as [y Hy]; [lia|].
    pose proof (He (length ys - 1)) as Hy'. rewrite Hy in Hy'. destruct Hy' as (d & Hd & _).
    assert (length ys - 1 < (length xs - added) `max` 0) by (apply Hs; by exists d). lia. }
  assert (ys = take (length ys) xs) as ->; [|exists (drop (length ys) xs); by rewrite take_drop].
  apply list_eq_same_length with (length ys); [|done|].
  { rewrite length_take. lia. }
  intros i y x Hi Hy Hx. rewrite lookup_take_lt in Hx by done.
  destruct (Hr i x) as (d & Hd & Hdx); [lia|done|]. specialize (He i). rewrite Hy in He.
  destruct He as (d' & Hd' & Hdy). congruence.
Qed.

End table.

(** ** The rows of a workflow *)

(** Decoding an encoding gives the message back; the empty encoding is that of
    the empty message; an event has one type. *)
Class CodecLaws (A : Type) `{Codec A} := unmarshal_marshal : ∀ (x : A) d, Marshal x = Some d → Unmarshal d = Some x.

Class ProtosLaws `{Protos} := {
  HistoryEvent_laws :: CodecLaws HistoryEvent;
  SigningCertificate_laws :: CodecLaws SigningCertificate;
  ExternalSigningCertificate_laws :: CodecLaws ExternalSigningCertificate;
  HistorySignature_laws :: CodecLaws HistorySignature;
  PropagatedHistory_laws :: CodecLaws PropagatedHistory;
  Metadata_laws :: CodecLaws BackendWorkflowStateMetadata;
  StringValue_laws :: CodecLaws string;
  unmarshal_empty_metadata : Unmarshal EmptyString = Some (mkMetadata 0 0 0 0 0 0);
  unmarshal_empty_string : Unmarshal EmptyString = Some EmptyString;
  terminated_not_timer e : IsExecutionTerminated e = true → IsTimerFired e = false;
  GetExecutionCompleted_new t ec : GetExecutionCompleted (NewExecutionCompleted t ec) = Some ec;
  unjson_json r d : json_creationInputRow r = Some d → unjson_creationInputRow d = Some r }.

Section rows.
Context `{HistorySigning} `{!ProtosLaws}.
Implicit Types (s : State) (m : gmap string string).

(** What a workflow's rows stand for. *)
Record content := mkContent {
  c_Inbox : list HistoryEvent; c_History : list HistoryEvent;
  c_Certs : list SigningCertificate; c_Exts : list ExternalSigningCertificate;
  c_Signatures : list HistorySignature; c_RawSignatures : list string;
  c_Status : string; c_Incoming : option PropagatedHistory; c_Notify : bool;
  c_Creation : option creationInputRow; c_Generation : N }.

Definition creation_of s : option creationInputRow :=
  mkCreationInputRow (creationInputParent s) <$> value (CreationInput s).

Definition content_of s : content :=
  mkContent (persistableInbox s) (items (History s)) (items (SigningCertificates s))
    (items (ExternalSigningCertificates s)) (items (Signatures s)) (RawSignatures s)
    (GetValue (value (CustomStatus s))) (value (IncomingHistory s)) (value (ParentNotify s))
    (creation_of s) (Generation s).

Definition content_metadata (c : content) : BackendWorkflowStateMetadata :=
  mkMetadata (N.of_nat (length (c_Inbox c))) (N.of_nat (length (c_History c))) (c_Generation c)
    (N.of_nat (length (c_Signatures c))) (N.of_nat (length (c_Certs c))) (N.of_nat (length (c_Exts c))).

(** *** The optional rows *)

Definition status_row m (v : string) : Prop :=
  match m !! customStatusKey with Some d => Unmarshal d = Some v | None => v = EmptyString end.

Definition incoming_row m (v : option PropagatedHistory) : Prop :=
  match m !! propagatedHistoryKey with
  | Some d => if decide (d = EmptyString) then v = None else v = Unmarshal d ∧ is_Some v
  | None => v = None
  end.

Definition notify_row m (v : bool) : Prop := v = bool_decide (is_Some (m !! ParentNotifyKey)).

Definition creation_row m (v : option creationInputRow) : Prop :=
  match m !! creationInputKey with
  | Some d => v = unjson_creationInputRow d ∧ is_Some v
  | None => v = None
  end.

Definition row_flag {A} (m : gmap string string) (k : string) (r : row A) : Prop :=
  persisted r = bool_decide (is_Some (m !! k)).

(** *** The slices *)

Definition inbox_table := table_exact (A := HistoryEvent) Unmarshal inboxKeyPrefix.
Definition history_table := table_exact (A := HistoryEvent) Unmarshal historyKeyPrefix.
Definition certs_table := table_exact (A := SigningCertificate) Unmarshal sigcertKeyPrefix.
Definition exts_table := table_exact (A := ExternalSigningCertificate) Unmarshal extSigCertKeyPrefix.
Definition raw_table := table_exact (A := string) Some signatureKeyPrefix.

Definition raw_of (sig : HistorySignature) (raw : string) : Prop := Unmarshal raw = Some sig.

(** *** Rows of exactly one content *)

Record represents m (c : content) : Prop := {
  rp_inbox : inbox_table (c_Inbox c) m;
  rp_history : history_table (c_History c) m;
  rp_certs : certs_table (c_Certs c) m;
  rp_exts : exts_table (c_Exts c) m;
  rp_raws : raw_table (c_RawSignatures c) m;
  rp_sigs : Forall2 raw_of (c_Signatures c) (c_RawSignatures c);
  rp_status : status_row m (c_Status c);
  rp_incoming : incoming_row m (c_Incoming c);
  rp_notify : notify_row m (c_Notify c);
  rp_creation : creation_row m (c_Creation c);
  rp_metadata : (m !! MetadataKey) ≫= Unmarshal = Some (content_metadata c);
  rp_timers : Forall (λ e, IsTimerFired e = false) (c_Inbox c);
  rp_known : ∀ k, is_Some (m !! k) → known_key k }.

(** *** Rows of a state in memory *)

Definition tracked_table {A} (dec : string → option A) (p : string) (xs : list A) {B} (t : tracked B) m : Prop :=
  table_tracks dec p xs (addedCount t) (removedCount t) m.

Record tracks s m : Prop := {
  tr_inbox : tracked_table Unmarshal inboxKeyPrefix (persistableInbox s) (Inbox s) m;
  tr_history : tracked_table Unmarshal historyKeyPrefix (items (History s)) (History s) m;
  tr_certs : tracked_table Unmarshal sigcertKeyPrefix (items (SigningCertificates s)) (SigningCertificates s) m;
  tr_exts : tracked_table Unmarshal extSigCertKeyPrefix (items (ExternalSigningCertificates s)) (ExternalSigningCertificates s) m;
  tr_raws : tracked_table Some signatureKeyPrefix (RawSignatures s) (Signatures s) m;
  tr_sigs : Forall2 raw_of (items (Signatures s)) (RawSignatures s);
  tr_status_flag : row_flag m customStatusKey (CustomStatus s);
  tr_status : changed (CustomStatus s) = false → status_row m (GetValue (value (CustomStatus s)));
  tr_incoming_flag : row_flag m propagatedHistoryKey (IncomingHistory s);
  tr_incoming : changed (IncomingHistory s) = false → incoming_row m (value (IncomingHistory s));
  tr_incoming_new : changed (IncomingHistory s) = true →
    ∀ ph, value (IncomingHistory s) = Some ph → Marshal ph ≠ Some EmptyString;
  tr_notify_flag : row_flag m ParentNotifyKey (ParentNotify s);
  tr_notify : changed (ParentNotify s) = false → notify_row m (value (ParentNotify s));
  tr_creation_flag : row_flag m creationInputKey (CreationInput s);
  tr_creation : changed (CreationInput s) = false → creation_row m (creation_of s);
  tr_known : ∀ k, is_Some (m !! k) → known_key k }.

(** The bytes prepared by the signing of the new events are theirs. *)
Definition marshaled_ok s : Prop :=
  ∀ j d, marshaledNewHistory s !! j = Some d →
    ∃ e, items (History s) !! (length (items (History s)) - addedCount (History s) + j) = Some e ∧ Unmarshal d = Some e.

(** A changed custom status is written with a change of the history. *)
Definition status_settled s : Prop :=
  changed (CustomStatus s) = true → history_touched s = true.

(** A state whose rows are tracked, between two saves. *)
Definition synced s m : Prop := tracks s m ∧ marshaledNewHistory s = [].

(** *** Encoders *)

Lemma marshal_at_decodes {A} `{CodecLaws A} (xs : list A) added :
  data_decodes Unmarshal xs added (marshal_at xs).
Proof.
  intros i x d _ Hx. unfold marshal_at, index, marshal.
  rewrite (proj2 (Z.ltb_ge _ _)) by lia. rewrite Nat2Z.id, Hx. simpl.
  destruct (Marshal x) as [d'|] eqn:Hm; simpl; [|done]. intros [= ->]. by apply unmarshal_marshal.
Qed.

Lemma index_decodes (xs : list string) added : data_decodes Some xs added (index xs).
Proof.
  intros i x d _ Hx. unfold index. rewrite (proj2 (Z.ltb_ge _ _)) by lia. rewrite Nat2Z.id, Hx. by intros [= ->].
Qed.

Lemma history_data_decodes s :
  marshaled_ok s → addedCount (History s) ≤ length (items (History s)) →
  data_decodes Unmarshal (items (History s)) (addedCount (History s)) (history_data s).
Proof.
  intros Hm Ha i x d Hi Hx. unfold history_data.
  replace (Z.to_nat _) with (i - (length (items (History s)) - addedCount (History s))) by lia.
  destruct (marshaledNewHistory s !! _) as [d'|] eqn:Hd.
  - intros [= ->]. destruct (Hm _ _ Hd) as (e & He & Hu).
    replace (_ + _) with i in He by lia. congruence.
  - apply (marshal_at_decodes _ (addedCount (History s)) i x d Hi Hx).
Qed.

(** *** The segments of a save *)

Ltac solve_family :=
  repeat constructor; (reflexivity || (right; unfold single_keys; simpl; set_solver)).

Definition metadata_operations (d : string) (etag : option string) : list TransactionalOperation :=
  [Upsert MetadataKey d etag].

Lemma GetSaveRequest_inv actorID s req :
  GetSaveRequest actorID s = Ok req →
  ∃ inbox history certs exts sigs status incoming creation d,
    addStateOperations inboxKeyPrefix (persistableInbox s) (addedCount (Inbox s)) (removedCount (Inbox s)) = Ok inbox ∧
    addHistoryOperations s = Ok history ∧
    addProtoStateOperations sigcertKeyPrefix (items (SigningCertificates s))
      (addedCount (SigningCertificates s)) (removedCount (SigningCertificates s)) = Ok certs ∧
    addProtoStateOperations extSigCertKeyPrefix (items (ExternalSigningCertificates s))
      (addedCount (ExternalSigningCertificates s)) (removedCount (ExternalSigningCertificates s)) = Ok exts ∧
    addRawBytesStateOperations signatureKeyPrefix (RawSignatures s)
      (addedCount (Signatures s)) (removedCount (Signatures s)) = Ok sigs ∧
    customStatus_operations s = Ok status ∧ incomingHistory_operations s = Ok incoming ∧
    creationInput_operations s = Ok creation ∧ Marshal (state_metadata s) = Some d ∧
    etag_lost s = false ∧
    req = mkRequest (workflowActorType s) actorID
      (concat [inbox; history; certs; exts; sigs; status; incoming; parentNotify_operations s; creation;
               metadata_operations d (metadataETag s)]).
Proof.
  unfold GetSaveRequest. intros Hr.
  repeat match type of Hr with
         | context [res_bind ?x _] => destruct x eqn:?; simpl in Hr; try done
         end.
  destruct (etag_lost s) eqn:?; [done|]. injection Hr as <-.
  unfold marshal in *. destruct (Marshal (state_metadata s)) eqn:?; simplify_eq/=.
  do 9 eexists. split_and!; try done.
Qed.

Lemma customStatus_family s ops : customStatus_operations s = Ok ops → in_family FStatus ops.
Proof.
  unfold customStatus_operations, marshal. destruct (customStatus_due s); [|intros [= <-]; constructor].
  destruct (Marshal _); simpl; [|done]. intros [= <-]. by solve_family.
Qed.

Lemma incomingHistory_family s ops : incomingHistory_operations s = Ok ops → in_family FIncoming ops.
Proof.
  unfold incomingHistory_operations, marshal.
  destruct (changed _); [|intros [= <-]; constructor]. destruct (value _); [|intros [= <-]; by solve_family].
  destruct (Marshal _); simpl; [|done]. intros [= <-]. by solve_family.
Qed.

Lemma parentNotify_family s : in_family FNotify (parentNotify_operations s).
Proof. unfold parentNotify_operations. repeat case_match; by solve_family. Qed.

Lemma creationInput_family s ops : creationInput_operations s = Ok ops → in_family FCreation ops.
Proof.
  unfold creationInput_operations. intros Ho. repeat case_match; simplify_eq; by solve_family.
Qed.

(** *** A save makes the rows exact *)

(** The optional rows after a save. *)
Lemma status_saved s m ops :
  tracks s m → status_settled s → customStatus_operations s = Ok ops →
  status_row (apply_ops ops m) (GetValue (value (CustomStatus s))).
Proof.
  intros Ht Hs. unfold customStatus_operations, customStatus_due, marshal, status_row.
  pose proof (tr_status _ _ Ht) as Hst. pose proof (tr_status_flag _ _ Ht) as Hf.
  destruct (history_touched s && _) eqn:Hd.
  - destruct (Marshal _) as [d|] eqn:Hm; simpl; [|done]. intros [= <-]. simpl.
    rewrite lookup_insert_eq. by apply unmarshal_marshal.
  - intros [= <-]. apply Hst. unfold status_settled in Hs.
    destruct (changed (CustomStatus s)); [|done]. rewrite Hs in Hd; done.
Qed.

Lemma incoming_saved s m ops :
  tracks s m → incomingHistory_operations s = Ok ops →
  incoming_row (apply_ops ops m) (value (IncomingHistory s)).
Proof.
  intros Ht. unfold incomingHistory_operations, marshal, incoming_row.
  pose proof (tr_incoming _ _ Ht) as Hi. pose proof (tr_incoming_new _ _ Ht) as Hn.
  destruct (changed _); [|intros [= <-]; by apply Hi].
  destruct (value _) as [ph|]; [|intros [= <-]; simpl; by rewrite lookup_delete_eq].
  destruct (Marshal ph) as [d|] eqn:Hm; simpl; [|done]. intros [= <-]. simpl. rewrite lookup_insert_eq.
  rewrite decide_False by (intros ->; by apply (Hn eq_refl ph)).
  rewrite (unmarshal_marshal ph d Hm). by split.
Qed.

Lemma notify_saved s m :
  tracks s m → notify_row (apply_ops (parentNotify_operations s) m) (value (ParentNotify s)).
Proof.
  intros Ht. unfold parentNotify_operations, notify_row.
  pose proof (tr_notify _ _ Ht) as Hi. pose proof (tr_notify_flag _ _ Ht) as Hf. unfold row_flag in Hf.
  destruct (changed _); [|by apply Hi]. destruct (value _).
  - simpl. rewrite lookup_insert_eq. done.
  - destruct (persisted _); simpl; [by rewrite lookup_delete_eq|]. done.
Qed.

Lemma creation_saved s m ops :
  tracks s m → creationInput_operations s = Ok ops → creation_row (apply_ops ops m) (creation_of s).
Proof.
  intros Ht. unfold creationInput_operations, creation_row, creation_of.
  pose proof (tr_creation _ _ Ht) as Hi. pose proof (tr_creation_flag _ _ Ht) as Hf. unfold row_flag in Hf.
  destruct (changed _); [|intros [= <-]; by apply Hi]. destruct (value _) as [v|]; simpl.
  - destruct (json_creationInputRow _) as [d|] eqn:Hd; [|done]. intros [= <-]. simpl.
    rewrite lookup_insert_eq. rewrite (unjson_json _ _ Hd). by split.
  - intros [= <-]. destruct (persisted _); simpl; [by rewrite lookup_delete_eq|].
    symmetry in Hf. apply bool_decide_eq_false in Hf. by destruct (m !! creationInputKey) eqn:E; [destruct Hf|].
Qed.

(** A save is one segment of operations per family. *)
Definition save_segments s inbox history certs exts sigs status incoming creation d : list (family * list TransactionalOperation) :=
  [(FInbox, inbox); (FHistory, history); (FCerts, certs); (FExts, exts); (FSignatures, sigs);
   (FStatus, status); (FIncoming, incoming); (FNotify, parentNotify_operations s);
   (FCreation, creation); (FMetadata, metadata_operations d (metadataETag s))].

Lemma save_segments_ok s inbox history certs exts sigs status incoming creation d :
  in_family FInbox inbox → in_family FHistory history → in_family FCerts certs → in_family FExts exts →
  in_family FSignatures sigs → in_family FStatus status → in_family FIncoming incoming →
  in_family FCreation creation →
  segments_ok (save_segments s inbox history certs exts sigs status incoming creation d).
Proof.
  intros. split; [|by apply (bool_decide_unpack _); vm_compute].
  unfold save_segments. repeat (apply list.Forall_cons; split; [simpl; first [assumption | apply parentNotify_family | by solve_family]|]).
  constructor.
Qed.

(** The added counts do not exceed the slices. *)
Record added_ok s : Prop := {
  ao_inbox : addedCount (Inbox s) ≤ length (persistableInbox s);
  ao_history : addedCount (History s) ≤ length (items (History s));
  ao_certs : addedCount (SigningCertificates s) ≤ length (items (SigningCertificates s));
  ao_exts : addedCount (ExternalSigningCertificates s) ≤ length (items (ExternalSigningCertificates s));
  ao_raws : addedCount (Signatures s) ≤ length (RawSignatures s) }.

Lemma tracks_added_ok s m : tracks s m → added_ok s.
Proof. intros []. split; by eapply tt_added. Qed.

Lemma save_segments_inv actorID s req :
  added_ok s → GetSaveRequest actorID s = Ok req →
  ∃ inbox history certs exts sigs status incoming creation d,
    addStateOperations inboxKeyPrefix (persistableInbox s) (addedCount (Inbox s)) (removedCount (Inbox s)) = Ok inbox ∧
    addHistoryOperations s = Ok history ∧
    addProtoStateOperations sigcertKeyPrefix (items (SigningCertificates s))
      (addedCount (SigningCertificates s)) (removedCount (SigningCertificates s)) = Ok certs ∧
    addProtoStateOperations extSigCertKeyPrefix (items (ExternalSigningCertificates s))
      (addedCount (ExternalSigningCertificates s)) (removedCount (ExternalSigningCertificates s)) = Ok exts ∧
    addRawBytesStateOperations signatureKeyPrefix (RawSignatures s)
      (addedCount (Signatures s)) (removedCount (Signatures s)) = Ok sigs ∧
    customStatus_operations s = Ok status ∧ incomingHistory_operations s = Ok incoming ∧
    creationInput_operations s = Ok creation ∧ Marshal (state_metadata s) = Some d ∧
    segments_ok (save_segments s inbox history certs exts sigs status incoming creation d) ∧
    rq_Operations req = concat (save_segments s inbox history certs exts sigs status incoming creation d).*2.
Proof.
  intros Ht Hr.
  destruct (GetSaveRequest_inv _ _ _ Hr) as (inbox & history & certs & exts & sigs & status & incoming &
    creation & d & Hi & Hh & Hc & He & Hg & Hst & Hin & Hcr & Hmd & _ & ->). clear Hr.
  exists inbox, history, certs, exts, sigs, status, incoming, creation, d. split_and!; try done.
  destruct Ht as [A1 A2 A3 A4 A5]. apply save_segments_ok.
  - by apply (entry_operations_family FInbox inboxKeyPrefix eq_refl _ _ _ _ _ A1 Hi).
  - by apply (entry_operations_family FHistory historyKeyPrefix eq_refl _ _ _ _ _ A2 Hh).
  - by apply (entry_operations_family FCerts sigcertKeyPrefix eq_refl _ _ _ _ _ A3 Hc).
  - by apply (entry_operations_family FExts extSigCertKeyPrefix eq_refl _ _ _ _ _ A4 He).
  - by apply (entry_operations_family FSignatures signatureKeyPrefix eq_refl _ _ _ _ _ A5 Hg).
  - by apply (customStatus_family s).
  - by apply (incomingHistory_family s).
  - by apply (creationInput_family s).
Qed.

Ltac in_segments :=
  lazymatch goal with |- _ ∈ ?l => unfold l end; unfold save_segments; rewrite !elem_of_cons; tauto.

Lemma save_represents actorID s req m :
  tracks s m → marshaled_ok s → status_settled s → GetSaveRequest actorID s = Ok req →
  represents (apply_ops (rq_Operations req) m) (content_of s).
Proof.
  intros Ht Hm Hs Hr.
  destruct (save_segments_inv _ _ _ (tracks_added_ok _ _ Ht) Hr) as (inbox & history & certs & exts & sigs & status & incoming &
    creation & d & Hi & Hh & Hc & He & Hg & Hst & Hin & Hcr & Hmd & Hseg & ->).
  set (segs := save_segments _ _ _ _ _ _ _ _ _ _) in *.
  assert (∀ f p ops i, prefix_of f = Some p → (f, ops) ∈ segs →
    apply_ops (concat segs.*2) m !! entry_key p i = apply_ops ops m !! entry_key p i) as Htab.
  { intros f p ops i Hp Hin'. apply (segment_lookup f); [done..|]. by apply key_family_entry. }
  assert (∀ k ops, (key_family k, ops) ∈ segs →
    apply_ops (concat segs.*2) m !! k = apply_ops ops m !! k) as Hrow.
  { intros k ops Hin'. by apply (segment_lookup (key_family k)). }
  split; cbn [content_of c_Inbox c_History c_Certs c_Exts c_Signatures c_RawSignatures
    c_Status c_Incoming c_Notify c_Creation].
  - eapply table_exact_ext; [intros i; apply (Htab FInbox _ inbox); [done|in_segments]|].
    eapply table_save; [apply (tr_inbox _ _ Ht)|apply marshal_at_decodes|exact Hi].
  - eapply table_exact_ext; [intros i; apply (Htab FHistory _ history); [done|in_segments]|].
    eapply table_save; [apply (tr_history _ _ Ht)| |exact Hh].
    apply history_data_decodes; [done|]. apply (tt_added _ _ _ _ _ _ (tr_history _ _ Ht)).
  - eapply table_exact_ext; [intros i; apply (Htab FCerts _ certs); [done|in_segments]|].
    eapply table_save; [apply (tr_certs _ _ Ht)|apply marshal_at_decodes|exact Hc].
  - eapply table_exact_ext; [intros i; apply (Htab FExts _ exts); [done|in_segments]|].
    eapply table_save; [apply (tr_exts _ _ Ht)|apply marshal_at_decodes|exact He].
  - eapply table_exact_ext; [intros i; apply (Htab FSignatures _ sigs); [done|in_segments]|].
    eapply table_save; [apply (tr_raws _ _ Ht)|apply index_decodes|exact Hg].
  - apply (tr_sigs _ _ Ht).
  - unfold status_row. rewrite (Hrow customStatusKey status) by in_segments. by apply (status_saved s m).
  - unfold incoming_row. rewrite (Hrow propagatedHistoryKey incoming) by in_segments. by apply (incoming_saved s m).
  - unfold notify_row. rewrite (Hrow ParentNotifyKey (parentNotify_operations s)) by in_segments. by apply (notify_saved s m).
  - unfold creation_row. rewrite (Hrow creationInputKey creation) by in_segments. by apply (creation_saved s m).
  - rewrite (Hrow MetadataKey (metadata_operations d (metadataETag s))) by in_segments. simpl.
    rewrite lookup_insert_eq. simpl. by apply unmarshal_marshal.
  - apply list.Forall_forall. intros e Hel. by apply list_elem_of_filter in Hel as [? _].
  - intros k Hk. destruct (segment_known _ _ _ Hseg Hk); [done|]. by apply (tr_known _ _ Ht).
Qed.

(** *** The state after a save *)

Lemma status_flag_saved s m ops :
  tracks s m → customStatus_operations s = Ok ops →
  row_flag (apply_ops ops m) customStatusKey (CustomStatus (ResetChangeTracking s)).
Proof.
  intros Ht. unfold customStatus_operations, marshal, row_flag, ResetChangeTracking.
  pose proof (tr_status_flag _ _ Ht) as Hf.
  destruct (customStatus_due s); simpl.
  - destruct (Marshal _); simpl; [|done]. intros [= <-]. simpl. by rewrite lookup_insert_eq.
  - by intros [= <-].
Qed.

Lemma incoming_flag_saved s m ops :
  tracks s m → incomingHistory_operations s = Ok ops →
  row_flag (apply_ops ops m) propagatedHistoryKey (row_saved (λ v, bool_decide (is_Some v)) (IncomingHistory s)).
Proof.
  intros Ht. unfold incomingHistory_operations, marshal, row_flag, row_saved.
  pose proof (tr_incoming_flag _ _ Ht) as Hf. destruct (changed _); simpl; [|by intros [= <-]].
  destruct (value _) as [ph|]; [|intros [= <-]; simpl; by rewrite lookup_delete_eq].
  destruct (Marshal ph); simpl; [|done]. intros [= <-]. simpl. by rewrite lookup_insert_eq.
Qed.

Lemma notify_flag_saved s m :
  tracks s m →
  row_flag (apply_ops (parentNotify_operations s) m) ParentNotifyKey (row_saved (λ v, v) (ParentNotify s)).
Proof.
  intros Ht. pose proof (notify_saved s m Ht) as Hn. pose proof (tr_notify_flag _ _ Ht) as Hf.
  unfold row_flag, row_saved, notify_row in *. destruct (changed _) eqn:Hc; simpl; [done|].
  unfold parentNotify_operations. by rewrite Hc.
Qed.

Lemma creation_flag_saved s m ops :
  tracks s m → creationInput_operations s = Ok ops →
  row_flag (apply_ops ops m) creationInputKey (row_saved (λ v, bool_decide (is_Some v)) (CreationInput s)).
Proof.
  intros Ht Ho. pose proof (creation_saved s m ops Ht Ho) as Hn. pose proof (tr_creation_flag _ _ Ht) as Hf.
  unfold row_flag, row_saved, creation_row, creation_of in *. destruct (changed _) eqn:Hc; simpl.
  - destruct (_ !! creationInputKey); [destruct Hn as [_ Hn]|]; destruct (value _); simpl in *; by (done || destruct Hn).
  - unfold creationInput_operations in Ho. rewrite Hc in Ho. by injection Ho as <-.
Qed.

Lemma ResetChangeTracking_fields s (s' := ResetChangeTracking s) :
  Inbox s' = track_saved (Inbox s) ∧ History s' = track_saved (History s) ∧
  SigningCertificates s' = track_saved (SigningCertificates s) ∧
  ExternalSigningCertificates s' = track_saved (ExternalSigningCertificates s) ∧
  Signatures s' = track_saved (Signatures s) ∧ RawSignatures s' = RawSignatures s ∧
  IncomingHistory s' = row_saved (λ v, bool_decide (is_Some v)) (IncomingHistory s) ∧
  ParentNotify s' = row_saved (λ v, v) (ParentNotify s) ∧
  CreationInput s' = row_saved (λ v, bool_decide (is_Some v)) (CreationInput s) ∧
  marshaledNewHistory s' = [] ∧ externalCertDigestIndex s' = externalCertDigestIndex s.
Proof. subst s'. unfold ResetChangeTracking. by destruct (customStatus_due s). Qed.

Lemma row_saved_clean {A} (stored : A → bool) r : changed (row_saved stored r) = false.
Proof. unfold row_saved. by destruct (changed r) eqn:?. Qed.

Lemma row_saved_value {A} (stored : A → bool) r : value (row_saved stored r) = value r.
Proof. unfold row_saved. by destruct (changed r). Qed.

Lemma ResetChangeTracking_content s : content_of (ResetChangeTracking s) = content_of s.
Proof.
  destruct (ResetChangeTracking_fields s) as (E1 & E2 & E3 & E4 & E5 & E6 & E7 & E8 & E9 & _).
  unfold content_of, persistableInbox, creation_of. rewrite E1, E2, E3, E4, E5, E6, E7, E8, E9, !row_saved_value.
  unfold ResetChangeTracking. by destruct (customStatus_due s).
Qed.

(** Rows that represent a state with clean counters are tracked. *)
Lemma represents_tracks s m :
  represents m (content_of s) →
  (addedCount (Inbox s), removedCount (Inbox s)) = (0, 0) →
  (addedCount (History s), removedCount (History s)) = (0, 0) →
  (addedCount (SigningCertificates s), removedCount (SigningCertificates s)) = (0, 0) →
  (addedCount (ExternalSigningCertificates s), removedCount (ExternalSigningCertificates s)) = (0, 0) →
  (addedCount (Signatures s), removedCount (Signatures s)) = (0, 0) →
  row_flag m customStatusKey (CustomStatus s) → row_flag m propagatedHistoryKey (IncomingHistory s) →
  row_flag m ParentNotifyKey (ParentNotify s) → row_flag m creationInputKey (CreationInput s) →
  changed (IncomingHistory s) = false →
  tracks s m.
Proof.
  intros [R1 R2 R3 R4 R5 R6 R7 R8 R9 R10 _ _ R12]; cbn in *. intros [= E1 E2] [= E3 E4] [= E5 E6] [= E7 E8] [= E9 E10] **.
  split; unfold tracked_table; rewrite ?E1, ?E2, ?E3, ?E4, ?E5, ?E6, ?E7, ?E8, ?E9, ?E10;
    first [by apply table_exact_tracks|assumption|by intros _|congruence].
Qed.

(** Saving leads from a tracked state to a tracked state. *)
Lemma saved_synced actorID s req m :
  tracks s m → marshaled_ok s → status_settled s → GetSaveRequest actorID s = Ok req →
  synced (ResetChangeTracking s) (apply_ops (rq_Operations req) m).
Proof.
  intros Ht Hm Hs Hr. pose proof (save_represents _ _ _ _ Ht Hm Hs Hr) as Hrep.
  rewrite <-ResetChangeTracking_content in Hrep.
  destruct (save_segments_inv _ _ _ (tracks_added_ok _ _ Ht) Hr) as (inbox & history & certs & exts & sigs & status & incoming &
    creation & d & _ & _ & _ & _ & _ & Hst & Hin & Hcr & _ & Hseg & Hops). rewrite Hops in *. clear Hops.
  set (segs := save_segments _ _ _ _ _ _ _ _ _ _) in *.
  assert (∀ {A} (r : row A) k ops, (key_family k, ops) ∈ segs → row_flag (apply_ops ops m) k r →
    row_flag (apply_ops (concat segs.*2) m) k r) as Hflag.
  { intros A r k ops Hk. unfold row_flag. by rewrite (segment_lookup (key_family k) ops). }
  pose proof (status_flag_saved s m status Ht Hst) as F1.
  destruct (ResetChangeTracking_fields s) as (E1 & E2 & E3 & E4 & E5 & E6 & E7 & E8 & E9 & E10 & _).
  split; [|done]. apply represents_tracks; rewrite ?E1, ?E2, ?E3, ?E4, ?E5; try reflexivity; try done.
  - apply (Hflag _ _ _ status); [in_segments|done].
  - rewrite E7. apply (Hflag _ _ _ incoming); [in_segments|by apply incoming_flag_saved].
  - rewrite E8. apply (Hflag _ _ _ (parentNotify_operations s)); [in_segments|by apply notify_flag_saved].
  - rewrite E9. apply (Hflag _ _ _ creation); [in_segments|by apply creation_flag_saved].
  - rewrite E7. apply row_saved_clean.
Qed.

End rows.
