(* ===== verification/WorkflowChanges.v ===== *)
(** * Workflow state: every change is tracked

    The operations that change a workflow's state between two saves
    (state.go, and the events that run.go of pkg/actors/targets/workflow/orchestrator
    injects into the inbox), as [change]s, and that they keep [tracks].  A
    termination that run.go injects into the inbox is not counted and has no
    row: until the inbox is cleared only [loose] holds. *)

From Stdlib Require Import Ascii.
From S2P Require Import Prelude GoStrings WorkflowState WorkflowSync.

Section changes.
Context `{HistorySigning} `{!ProtosLaws}.
Implicit Types (s : State) (m : gmap string string) (e : HistoryEvent).

(** [state.Inbox = append(state.Inbox, e)], without counting the event *)
Definition inject e s : State :=
  set_Inbox (mkTracked (items (Inbox s) ++ [e]) (addedCount (Inbox s)) (removedCount (Inbox s))) s.

(** Events that reminders deliver into the inbox; [data] is what the reminder
    carries, [None] when it does not decode, stamped with the current time.  The
    caller goes on with the state, or returns (completed, failed). *)
Inductive inject_result := InjectContinue (s : State) | InjectDone (completed failed : bool).

Definition injectTimerReminderEvent (name : string) (completed : bool) (data : option (N * HistoryEvent)) s : inject_result :=
  if negb (HasPrefix (bytes name) (bytes "timer-")) || completed then InjectContinue s
  else match data with
       | None => InjectDone true true
       | Some (generation, e) =>
           if (generation <? Generation s)%N then InjectDone false false
           else if negb (IsTimerFired e) then InjectDone true true
           else InjectContinue (inject e s)
       end.

Definition reminderCascadeTerminate := "cascade-terminate".

Definition injectCascadeTerminateEvent (name : string) (completed : bool) (data : option HistoryEvent) s : inject_result :=
  if negb (bool_decide (name = reminderCascadeTerminate)) || completed then InjectContinue s
  else match data with
       | None => InjectDone true true
       | Some e => if IsExecutionTerminated e then InjectContinue (inject e s) else InjectDone true true
       end.

(** A turn that stalls discards its new events, records why in the history
    (unless the last event says so) and saves; [AddEvent] is the engine's, on
    the new events.  The result is the state to save, if there is anything. *)
Definition stallWorkflow (AddEvent : list HistoryEvent → HistoryEvent → list HistoryEvent)
    (lastStalled : option string) (stalled : HistoryEvent) (description : string) (rs : RuntimeState) s : option State :=
  let hasFilteredNewEvents := 0 <? length (rs_NewEvents rs) in
  let hasStalledEvent := negb (bool_decide (lastStalled = Some description)) in
  let events := if hasStalledEvent then AddEvent [] stalled else [] in
  if hasFilteredNewEvents || hasStalledEvent
  then Some (ApplyRuntimeStateChanges (mkRuntimeState (rs_ContinuedAsNew rs) events (rs_CustomStatus rs)) s)
  else None.

Inductive change :=
  | CReset
  | CApply (rs : RuntimeState)
  | CAddToInbox (e : HistoryEvent)
  | CInjectTimer (e : HistoryEvent)
  | CInjectTerminate (e : HistoryEvent)
  | CClearInbox
  | CAddToHistory (e : HistoryEvent)
  | CAddCert (c : SigningCertificate)
  | CAddExternal (digest certDER : string)
  | CAddSignature (sig : HistorySignature) (raw : string)
  | CSetIncoming (ph : option PropagatedHistory)
  | CKeepCreation (start : ExecutionStartedEvent)
  | CClearCreation
  | CSetNotify (pending : bool)
  | CSetGeneration (n : N)
  | CFrom (b : BackendWorkflowState).

Definition apply_change (c : change) s : State :=
  match c with
  | CReset => Reset s
  | CApply rs => ApplyRuntimeStateChanges rs s
  | CAddToInbox e => AddToInbox e s
  | CInjectTimer e | CInjectTerminate e => inject e s
  | CClearInbox => ClearInbox s
  | CAddToHistory e => AddToHistory e s
  | CAddCert c => AddSigningCertificate c s
  | CAddExternal d c => (AddExternalCert d c s).1
  | CAddSignature sig raw => AddSignature sig raw s
  | CSetIncoming ph => SetIncomingHistory ph s
  | CKeepCreation start => KeepCreationInput start s
  | CClearCreation => ClearCreationInput s
  | CSetNotify b => SetParentNotifyPending b s
  | CSetGeneration n => set_Generation n s
  | CFrom b => FromWorkflowState b s
  end.

(** Fired timers and the terminations of a cascade are injected, every other
    event is added (a termination that a client asks for is added too); the
    bytes of a signature are those of the signature; a propagated history is
    not the empty message. *)
Definition change_ok (c : change) : Prop :=
  match c with
  | CAddToInbox e => IsTimerFired e = false
  | CInjectTimer e => IsTimerFired e = true
  | CInjectTerminate e => IsExecutionTerminated e = true
  | CAddSignature sig raw => raw_of sig raw
  | CSetIncoming (Some ph) => Marshal ph ≠ Some EmptyString
  | CFrom b => Forall (λ e, IsTimerFired e = false) (b_Inbox b)
  | _ => True
  end.

(** Whether the inbox holds an injected termination after a change: [uncounted]
    is whether it did before. *)
Definition leaves_uncounted (uncounted : bool) (c : change) : bool :=
  match c with
  | CInjectTerminate _ => true
  | CClearInbox | CReset | CFrom _ => false
  | _ => uncounted
  end.

(** The rows of a state whose inbox holds injected terminations are those of
    the state with some shorter inbox. *)
Definition loose s m : Prop :=
  ∃ xs, length (persistable xs) ≤ length (persistableInbox s) ∧
    tracks (set_Inbox (mkTracked xs (addedCount (Inbox s)) (removedCount (Inbox s))) s) m.

Definition tracks_unless (uncounted : bool) s m : Prop := if uncounted then loose s m else tracks s m.
Definition synced_unless (uncounted : bool) s m : Prop := tracks_unless uncounted s m ∧ marshaledNewHistory s = [].

Ltac tracks_step :=
  match goal with Ht : tracks _ _ |- _ => destruct Ht end;
  split; unfold persistableInbox, creation_of, tracked_table in *; simpl; try assumption.

Lemma persistable_app (xs ys : list HistoryEvent) : persistable (xs ++ ys) = persistable xs ++ persistable ys.
Proof. apply list.filter_app. Qed.

Lemma persistable_length (xs : list HistoryEvent) : length (persistable xs) ≤ length xs.
Proof. apply length_filter. Qed.

Lemma AddToInbox_tracks e s m : IsTimerFired e = false → tracks s m → tracks (AddToInbox e s) m.
Proof.
  intros He Ht. tracks_step. rewrite persistable_app.
  replace (persistable [e]) with [e] by (unfold persistable; rewrite filter_cons, decide_True; done).
  by apply table_append.
Qed.

Lemma inject_timer_tracks e s m : IsTimerFired e = true → tracks s m → tracks (inject e s) m.
Proof.
  intros He Ht. tracks_step. rewrite persistable_app.
  replace (persistable [e]) with (@nil HistoryEvent)
    by (unfold persistable; rewrite filter_cons, decide_False; [done|congruence]).
  by rewrite app_nil_r.
Qed.

Lemma tracks_loose s m : tracks s m → loose s m.
Proof. intros Ht. exists (items (Inbox s)). split; [done|]. tracks_step. Qed.

Lemma inject_loose e s m : loose s m → loose (inject e s) m.
Proof.
  intros (xs & Hl & Ht). exists xs. split; [|exact Ht].
  unfold persistableInbox in *. simpl. rewrite persistable_app, length_app. lia.
Qed.

Lemma AddToInbox_loose e s m : IsTimerFired e = false → loose s m → loose (AddToInbox e s) m.
Proof.
  intros He (xs & Hl & Ht). exists (xs ++ [e]). split; [|exact (AddToInbox_tracks e _ m He Ht)].
  unfold persistableInbox in *. simpl. rewrite !persistable_app, !length_app. lia.
Qed.

Lemma ClearInbox_tracks s m : loose s m → tracks (ClearInbox s) m.
Proof.
  intros (xs & Hl & Ht). tracks_step. eapply table_drop; [done|]. simpl in *. lia.
Qed.

Lemma AddToHistory_tracks e s m : tracks s m → tracks (AddToHistory e s) m.
Proof. intros Ht. tracks_step. by apply table_append. Qed.

Lemma AddSigningCertificate_tracks c s m : tracks s m → tracks (AddSigningCertificate c s) m.
Proof. intros Ht. tracks_step. by apply table_append. Qed.

Lemma AddExternalCert_tracks d c s m : tracks s m → tracks (AddExternalCert d c s).1 m.
Proof.
  intros Ht. unfold AddExternalCert. destruct (negb _); [done|].
  destruct (_ !! d); tracks_step. by apply table_append.
Qed.

Lemma AddSignature_tracks sig raw s m : raw_of sig raw → tracks s m → tracks (AddSignature sig raw s) m.
Proof.
  intros Hraw Ht. tracks_step.
  - by apply (table_append _ _ _ [raw]).
  - apply Forall2_app; [done|]. by constructor.
Qed.

Lemma SetIncomingHistory_tracks ph s m :
  change_ok (CSetIncoming ph) → tracks s m → tracks (SetIncomingHistory ph s) m.
Proof. intros Hc Ht. tracks_step; [done|]. intros _ ph' ->. done. Qed.

Lemma row_changed_tracks s m r parent :
  tracks s m → persisted r = persisted (CreationInput s) → changed r = true →
  tracks (set_creationInputParent parent (set_CreationInput r s)) m.
Proof.
  intros Ht Hp Hc. tracks_step; [|congruence]. unfold row_flag in *. congruence.
Qed.

Lemma setCreationInput_tracks input parent s m : tracks s m → tracks (setCreationInput input parent s) m.
Proof. intros Ht. by apply row_changed_tracks. Qed.

Lemma KeepCreationInput_tracks start s m : tracks s m → tracks (KeepCreationInput start s) m.
Proof.
  intros Ht. unfold KeepCreationInput. destruct (es_ParentInstance start); [|done].
  destruct (keepCreationInput s); [|done]. by apply setCreationInput_tracks.
Qed.

Lemma ClearCreationInput_tracks s m : tracks s m → tracks (ClearCreationInput s) m.
Proof. intros Ht. unfold ClearCreationInput. destruct (_ || _); [|done]. by apply row_changed_tracks. Qed.

Lemma SetParentNotifyPending_tracks b s m : tracks s m → tracks (SetParentNotifyPending b s) m.
Proof.
  intros Ht. tracks_step. rewrite !orb_false_iff, negb_false_iff. intros [[Hb _] Hc].
  apply Bool.eqb_prop in Hb as <-. auto.
Qed.

(** Dropping the signing data, and replacing the custom status. *)
Lemma drop_signing_tracks s m : tracks s m → tracks (drop_signing s) m.
Proof.
  intros Ht. tracks_step; [eapply table_drop; [done|lia]..| |by constructor].
  eapply table_drop; [done|]. erewrite <-Forall2_length by done. lia.
Qed.

Lemma drop_history_tracks s m : tracks s m → tracks (set_History (track_drop (History s)) s) m.
Proof. intros Ht. tracks_step. eapply table_drop; [done|lia]. Qed.

Lemma append_history_tracks es s m : tracks s m → tracks (set_History (track_append (History s) es) s) m.
Proof. intros Ht. tracks_step. by apply table_append. Qed.

Lemma status_tracks v c s m :
  tracks s m → (c = false → changed (CustomStatus s) = false ∧ GetValue (value (CustomStatus s)) = GetValue v) →
  tracks (set_CustomStatus (mkRow v (persisted (CustomStatus s)) c) s) m.
Proof. intros Ht Hc. tracks_step. intros ->. destruct Hc as [Hc <-]; auto. Qed.

Lemma ApplyRuntimeStateChanges_tracks rs s m : tracks s m → tracks (ApplyRuntimeStateChanges rs s) m.
Proof.
  intros Ht. unfold ApplyRuntimeStateChanges. apply status_tracks.
  - apply append_history_tracks. destruct (rs_ContinuedAsNew rs); [|done].
    by apply drop_signing_tracks, drop_history_tracks.
  - rewrite orb_false_iff, negb_false_iff, bool_decide_eq_true. tauto.
Qed.

Lemma drop_events_tracks s m : loose s m → tracks (drop_events s) m.
Proof.
  intros (xs & Hl & Ht). tracks_step; (eapply table_drop; [done|]).
  - pose proof (persistable_length (items (Inbox s))). simpl in *. lia.
  - simpl. lia.
Qed.

Lemma reset_rows_tracks s m : tracks s m → tracks (reset_creation (reset_notify (reset_incoming (reset_status s)))) m.
Proof.
  intros Ht. assert (tracks (reset_status s) m) as Ht1.
  { apply status_tracks; [done|]. rewrite orb_false_iff, negb_false_iff, bool_decide_eq_true. tauto. }
  assert (tracks (reset_incoming (reset_status s)) m) as Ht2.
  { unfold reset_incoming. destruct (value _); [|done]. by apply (SetIncomingHistory_tracks None). }
  assert (tracks (reset_notify (reset_incoming (reset_status s))) m) as Ht3.
  { unfold reset_notify. destruct (_ || _); [|done]. clear Ht Ht1. tracks_step. done. }
  unfold reset_creation. destruct (_ || _); [|done]. clear Ht Ht1 Ht2. tracks_step. done.
Qed.

Lemma set_Generation_tracks n s m : tracks s m → tracks (set_Generation n s) m.
Proof. intros Ht. tracks_step. Qed.

Lemma SetMetadataETag_synced etag s m : synced s m → synced (SetMetadataETag etag s) m.
Proof. intros [Ht Hm]. split; [|by destruct etag]. destruct etag; tracks_step. Qed.

Lemma Reset_tracks s m : loose s m → tracks (Reset s) m.
Proof. intros Ht. by apply set_Generation_tracks, reset_rows_tracks, drop_signing_tracks, drop_events_tracks. Qed.

Lemma FromWorkflowState_tracks b s m : change_ok (CFrom b) → loose s m → tracks (FromWorkflowState b s) m.
Proof.
  intros Hb Ht. apply Reset_tracks in Ht. unfold FromWorkflowState. apply set_Generation_tracks, status_tracks; [|done].
  revert Ht. generalize (Reset s). clear s. intros s Ht.
  assert (tracks (foldl (λ s e, AddToInbox e s) s (b_Inbox b)) m) as Ht'.
  { revert s Ht. induction Hb as [|e es He _ IH]; intros s Ht; [done|]. by apply IH, AddToInbox_tracks. }
  revert Ht'. generalize (foldl (λ s e, AddToInbox e s) s (b_Inbox b)). clear s Ht.
  induction (b_History b) as [|e es IH]; intros s Ht; [done|]. by apply IH, AddToHistory_tracks.
Qed.

(** *** Changes that leave the inbox alone *)

Definition changes_inbox (c : change) : bool :=
  match c with
  | CReset | CFrom _ | CAddToInbox _ | CInjectTimer _ | CInjectTerminate _ | CClearInbox => true
  | _ => false
  end.

Lemma change_frame c s t : changes_inbox c = false →
  apply_change c (set_Inbox t s) = set_Inbox t (apply_change c s) ∧ Inbox (apply_change c s) = Inbox s.
Proof.
  intros Hc. destruct s. destruct c as [|rs| | | | | | |d cert| | |start| | | |]; try discriminate Hc; unfold apply_change.
  all: try (split; vm_compute; reflexivity).
  all: unfold ApplyRuntimeStateChanges, AddExternalCert, KeepCreationInput, ClearCreationInput; cbn -[lookup];
    repeat case_match; split; vm_compute; reflexivity.
Qed.

Lemma frame_tracks c s m : changes_inbox c = false → change_ok c → tracks s m → tracks (apply_change c s) m.
Proof.
  intros Hi Hc Ht. destruct c; try discriminate Hi; unfold apply_change.
  - by apply ApplyRuntimeStateChanges_tracks.
  - by apply AddToHistory_tracks.
  - by apply AddSigningCertificate_tracks.
  - by apply AddExternalCert_tracks.
  - by apply AddSignature_tracks.
  - by apply SetIncomingHistory_tracks.
  - by apply KeepCreationInput_tracks.
  - by apply ClearCreationInput_tracks.
  - by apply SetParentNotifyPending_tracks.
  - by apply set_Generation_tracks.
Qed.

Lemma frame_loose c s m : changes_inbox c = false → change_ok c → loose s m → loose (apply_change c s) m.
Proof.
  intros Hi Hc (xs & Hl & Ht). exists xs. apply (frame_tracks c) in Ht; [|done..].
  rewrite (proj1 (change_frame c _ _ Hi)) in Ht. unfold persistableInbox.
  by rewrite (proj2 (change_frame c s (Inbox s) Hi)).
Qed.

(** Every change of a state keeps its rows tracked, but for an injected
    termination that was not cleared. *)
Lemma change_tracks u c s m :
  change_ok c → tracks_unless u s m → tracks_unless (leaves_uncounted u c) (apply_change c s) m.
Proof.
  intros Hc Ht. assert (loose s m) as Hl by (destruct u; [done|by apply tracks_loose]).
  destruct (changes_inbox c) eqn:Hi.
  - destruct c; try discriminate Hi; unfold leaves_uncounted, apply_change.
    + by apply Reset_tracks.
    + destruct u; [by apply AddToInbox_loose|by apply AddToInbox_tracks].
    + destruct u; [by apply inject_loose|by apply inject_timer_tracks].
    + by apply inject_loose.
    + by apply ClearInbox_tracks.
    + by apply FromWorkflowState_tracks.
  - replace (leaves_uncounted u c) with u by by destruct c.
    destruct u; [by apply frame_loose|by apply frame_tracks].
Qed.

(** None of them touches the bytes prepared for a save. *)
Lemma change_marshaled c s : marshaledNewHistory (apply_change c s) = marshaledNewHistory s.
Proof.
  assert (∀ es s, marshaledNewHistory (foldl (λ s e, AddToInbox e s) s es) = marshaledNewHistory s) as Hi.
  { induction es as [|e es IH]; intros s'; [done|]. simpl. by rewrite IH. }
  assert (∀ es s, marshaledNewHistory (foldl (λ s e, AddToHistory e s) s es) = marshaledNewHistory s) as Hh.
  { induction es as [|e es IH]; intros s'; [done|]. simpl. by rewrite IH. }
  assert (∀ s, marshaledNewHistory (Reset s) = marshaledNewHistory s) as Hr.
  { intros s'. unfold Reset, reset_creation, reset_notify, reset_incoming.
    destruct (value (IncomingHistory _)); simpl; repeat (destruct (_ || _); simpl); done. }
  destruct c as [|rs| | | | | | | | | |start| | | |]; simpl; try reflexivity.
  - apply Hr.
  - unfold ApplyRuntimeStateChanges. by destruct (rs_ContinuedAsNew rs).
  - unfold AddExternalCert. destruct (negb _); [done|]. by destruct (_ !! _).
  - unfold KeepCreationInput. destruct (es_ParentInstance start); [|done]. by destruct (keepCreationInput s).
  - unfold ClearCreationInput. by destruct (_ || _).
  - unfold FromWorkflowState. simpl. by rewrite Hh, Hi, Hr.
Qed.

Lemma change_synced u c s m :
  change_ok c → synced_unless u s m → synced_unless (leaves_uncounted u c) (apply_change c s) m.
Proof. intros Hc [Ht Hm]. split; [by apply change_tracks|by rewrite change_marshaled]. Qed.

End changes.
