(* ===== verification/WorkflowLoad.v ===== *)
(** * Workflow state: loading what was saved

    A load of rows that represent a workflow gives its content back, in a state
    that tracks the rows; the retry loop ends. *)

From Stdlib Require Import Ascii.
From S2P Require Import Prelude GoStrings WorkflowState WorkflowSync.

Section load.
Context `{HistorySigning} `{!ProtosLaws}.
Implicit Types (s : State) (m : gmap string string) (bulk : gmap string StateResponse).

(** A read of a key returns its row: the data with a version token, or nothing. *)
Definition reads_row m (k : string) (r : StateResponse) : Prop :=
  match m !! k with
  | Some d => sr_Data r = Some d ∧ is_Some (sr_ETag r)
  | None => r = no_entry
  end.

Definition reads_bulk m (keys : list string) bulk : Prop :=
  ∀ k, k ∈ keys → reads_row m k (entry bulk k).

Lemma reads_row_data m k r : reads_row m k r → sr_Data r = m !! k.
Proof. unfold reads_row. destruct (m !! k); [by intros [? _]|by intros ->]. Qed.

Lemma reads_row_etag m k r : reads_row m k r → bool_decide (is_Some (sr_ETag r)) = bool_decide (is_Some (m !! k)).
Proof.
  unfold reads_row. destruct (m !! k).
  - intros [_ He]. by rewrite !bool_decide_eq_true_2.
  - by intros ->.
Qed.

(** ** The slices *)

Lemma load_entries_suffix {A} `{Codec A} p m bulk (xs : list A) :
  table_exact Unmarshal p xs m → (∀ i, i < length xs → sr_Data (entry bulk (entry_key p i)) = m !! entry_key p i) →
  ∀ ys k, drop k xs = ys → k ≤ length xs →
  ∃ l, load_entries bulk p (N.of_nat k) (length ys) = AllEntries l ∧ l.*1 = ys ∧
       ∀ j d, l.*2 !! j = Some d → m !! entry_key p (k + j) = Some d.
Proof.
  intros He Hb. induction ys as [|y ys IH]; intros k Hk Hl; simpl; [by exists []|].
  assert (xs !! k = Some y) as Hy by by rewrite <-(Nat.add_0_r k), <-lookup_drop, Hk.
  assert (k < length xs) as Hlt by by apply lookup_lt_Some in Hy.
  specialize (He k). rewrite Hy in He. destruct He as (d & Hd & Hu).
  fold (entry_key p k). rewrite Hb, Hd, Hu by done.
  destruct (IH (S k)) as (l & Hll & Hl1 & Hl2).
  { rewrite <-Nat.add_1_r, <-drop_drop, Hk. done. } { lia. }
  replace (N.of_nat k + 1)%N with (N.of_nat (S k)) by lia. rewrite Hll. simpl.
  exists ((y, d) :: l). split_and!; [done|by rewrite fmap_cons, Hl1|].
  intros [|j] d' Hj; simplify_eq/=; [by rewrite Nat.add_0_r|].
  rewrite Nat.add_succ_r. by apply (Hl2 j).
Qed.

Lemma load_entries_exact {A} `{Codec A} p m bulk (xs : list A) :
  table_exact Unmarshal p xs m → reads_bulk m (multi_keys p (N.of_nat (length xs))) bulk →
  ∃ l, load_entries bulk p 0 (length xs) = AllEntries l ∧ l.*1 = xs ∧
       ∀ j d, l.*2 !! j = Some d → m !! entry_key p j = Some d.
Proof.
  intros He Hb. apply (load_entries_suffix p m bulk xs He) with (k := 0); [|done|lia].
  intros i Hi. apply reads_row_data, Hb. unfold multi_keys. apply list_elem_of_fmap. exists i.
  rewrite Nat2N.id. split; [done|]. apply elem_of_seq. lia.
Qed.

(** The signatures are loaded with their exact bytes. *)
Lemma signatures_table (sigs : list HistorySignature) raws m :
  raw_table raws m → Forall2 raw_of sigs raws → table_exact Unmarshal signatureKeyPrefix sigs m.
Proof.
  intros Ht Hf i. specialize (Ht i). destruct (sigs !! i) as [sig|] eqn:Hs.
  - destruct (Forall2_lookup_l _ _ _ _ _ Hf Hs) as (raw & Hr & Hraw). rewrite Hr in Ht.
    destruct Ht as (d & Hd & [= ->]). by exists raw.
  - apply lookup_ge_None in Hs. rewrite (Forall2_length Hf) in Hs.
    by rewrite (lookup_ge_None_2 _ _ Hs) in Ht.
Qed.

Lemma load_signatures_exact m bulk sigs raws :
  raw_table raws m → Forall2 raw_of sigs raws →
  reads_bulk m (multi_keys signatureKeyPrefix (N.of_nat (length sigs))) bulk →
  ∃ l, load_entries bulk signatureKeyPrefix 0 (length sigs) = AllEntries l ∧ l.*1 = sigs ∧ l.*2 = raws.
Proof.
  intros Ht Hf Hb. destruct (load_entries_exact _ m bulk sigs (signatures_table _ _ _ Ht Hf) Hb) as (l & Hl & H1l & H2l).
  exists l. split_and!; [done..|].
  assert (length l = length raws) as Hlen by (rewrite <-(Forall2_length Hf), <-H1l; by rewrite length_fmap).
  apply list_eq_same_length with (length raws); [done|by rewrite length_fmap|].
  intros i x y Hi Hx Hy. apply H2l in Hx. specialize (Ht i). rewrite Hy in Ht.
  destruct Ht as (d & Hd & [= ->]). unfold entry_key in *. congruence.
Qed.

(** ** The optional rows *)

Lemma load_custom_status_row m c bulk s :
  represents m c → reads_row m customStatusKey (entry bulk customStatusKey) →
  ∃ v, load_custom_status bulk s =
         inl (set_CustomStatus (mkRow v (bool_decide (is_Some (m !! customStatusKey))) false) s) ∧
       GetValue v = c_Status c.
Proof.
  intros Hr Hb. pose proof (rp_status _ _ Hr) as Hs. unfold load_custom_status, status_row in *.
  rewrite (reads_row_data _ _ _ Hb), (reads_row_etag _ _ _ Hb).
  destruct (m !! customStatusKey) as [[|a d]|]; simpl in *.
  - exists None. split; [done|]. rewrite unmarshal_empty_string in Hs. simpl. congruence.
  - rewrite Hs. by eexists.
  - by exists None.
Qed.

Lemma load_incoming_row m c bulk s :
  represents m c → reads_row m propagatedHistoryKey (entry bulk propagatedHistoryKey) →
  load_incoming bulk s =
    inl (set_IncomingHistory (mkRow (c_Incoming c) (bool_decide (is_Some (m !! propagatedHistoryKey))) false) s).
Proof.
  intros Hr Hb. pose proof (rp_incoming _ _ Hr) as Hs. unfold load_incoming, incoming_row in *.
  rewrite (reads_row_data _ _ _ Hb), (reads_row_etag _ _ _ Hb).
  destruct (m !! propagatedHistoryKey) as [[|a d]|]; simpl in *; [by rewrite Hs| |by rewrite Hs].
  destruct Hs as [Hs [ph Hph]]. rewrite Hph in *. by rewrite <-Hs.
Qed.

Lemma row_present_iff m k r : reads_row m k r → row_present r = bool_decide (is_Some (m !! k)).
Proof.
  intros Hr. unfold row_present. rewrite (reads_row_etag _ _ _ Hr), (reads_row_data _ _ _ Hr).
  destruct (m !! k); [done|]. done.
Qed.

Lemma load_parent_notify_row m c bulk s :
  represents m c → reads_row m ParentNotifyKey (entry bulk ParentNotifyKey) →
  ParentNotify s = mkRow false false false →
  load_parent_notify bulk s =
    set_ParentNotify (mkRow (c_Notify c) (bool_decide (is_Some (m !! ParentNotifyKey))) false) s.
Proof.
  intros Hr Hb Hs. pose proof (rp_notify _ _ Hr) as Hn. unfold notify_row in Hn. rewrite Hn.
  unfold load_parent_notify. rewrite (row_present_iff _ _ _ Hb), Hs. case_bool_decide; [done|].
  destruct s; simpl in *; by subst.
Qed.

Lemma load_creation_input_row m c bulk s :
  represents m c → reads_row m creationInputKey (entry bulk creationInputKey) →
  CreationInput s = mkRow None false false →
  ∃ parent v, load_creation_input bulk s =
      inl (set_creationInputParent parent
             (set_CreationInput (mkRow v (bool_decide (is_Some (m !! creationInputKey))) false) s)) ∧
    mkCreationInputRow parent <$> v = c_Creation c.
Proof.
  intros Hr Hb Hs. pose proof (rp_creation _ _ Hr) as Hn. unfold creation_row, load_creation_input in *.
  rewrite (row_present_iff _ _ _ Hb), (reads_row_data _ _ _ Hb).
  destruct (m !! creationInputKey) as [d|]; simpl.
  - destruct Hn as [Hn [r Hc]]. rewrite Hc in *. rewrite <-Hn. rewrite Hs. simpl.
    exists (ci_parent r), (Some (ci_Input r)). split; [by destruct s|]. by destruct r.
  - exists (creationInputParent s), None. split; [|by rewrite Hn]. f_equal. destruct s; simpl in *; by subst.
Qed.

(** ** The whole load *)

Definition with_rows m (status : option string) (incoming : option PropagatedHistory) (notify : bool)
    (parent : creationParent) (creation : option string) s : State :=
  set_creationInputParent parent
    (set_CreationInput (mkRow creation (bool_decide (is_Some (m !! creationInputKey))) false)
      (set_ParentNotify (mkRow notify (bool_decide (is_Some (m !! ParentNotifyKey))) false)
        (set_IncomingHistory (mkRow incoming (bool_decide (is_Some (m !! propagatedHistoryKey))) false)
          (set_CustomStatus (mkRow status (bool_decide (is_Some (m !! customStatusKey))) false) s)))).

Definition verdict (opts : Options) s : loaded :=
  (Some s, if hasTamperMarker s then None else enforce_signing opts s).

Definition optional_keys : list string := [customStatusKey; propagatedHistoryKey; ParentNotifyKey; creationInputKey].

Lemma load_rows_represents m c bulk opts s :
  represents m c → reads_bulk m optional_keys bulk →
  ParentNotify s = mkRow false false false → CreationInput s = mkRow None false false →
  ∃ status parent creation,
    load_rows bulk opts s = verdict opts (with_rows m status (c_Incoming c) (c_Notify c) parent creation s) ∧
    GetValue status = c_Status c ∧ mkCreationInputRow parent <$> creation = c_Creation c.
Proof.
  intros Hr Hb Hn Hc.
  assert (reads_row m customStatusKey (entry bulk customStatusKey)) as K1 by (apply Hb; unfold optional_keys; set_solver).
  assert (reads_row m propagatedHistoryKey (entry bulk propagatedHistoryKey)) as K2 by (apply Hb; unfold optional_keys; set_solver).
  assert (reads_row m ParentNotifyKey (entry bulk ParentNotifyKey)) as K3 by (apply Hb; unfold optional_keys; set_solver).
  assert (reads_row m creationInputKey (entry bulk creationInputKey)) as K4 by (apply Hb; unfold optional_keys; set_solver).
  unfold load_rows. destruct (load_custom_status_row m c bulk s Hr K1) as (status & -> & Hst).
  rewrite (load_incoming_row m c), (load_parent_notify_row m c) by done.
  edestruct (load_creation_input_row m c bulk) as (parent & creation & -> & Hcr); [done|done|done|].
  exists status, parent, creation. split_and!; [|done|done]. unfold verdict. simpl.
  by destruct (hasTamperMarker _).
Qed.

(** The certificates of a content are keyed by their digests. *)
Definition exts_ok (exts : list ExternalSigningCertificate) : Prop :=
  Forall (λ c, CertDigest (ext_Certificate c) = ext_Digest c) exts.

Lemma setLoadedExternalCerts_ok exts s :
  exts_ok exts →
  setLoadedExternalCerts exts s =
    (set_externalCertDigestIndex (match exts with [] => None | _ => Some (index_certs exts) end)
       (set_ExternalSigningCertificates
          (mkTracked exts (addedCount (ExternalSigningCertificates s))
             (removedCount (ExternalSigningCertificates s))) s), true).
Proof.
  intros He. unfold setLoadedExternalCerts.
  replace (forallb _ exts) with true; [done|]. symmetry. apply forallb_forall. intros c Hc.
  apply bool_decide_eq_true. unfold exts_ok in He. rewrite list.Forall_forall in He. apply He.
  by apply list_elem_of_In.
Qed.

Definition with_signing (c : content) s : State :=
  set_RawSignatures (c_RawSignatures c)
    (set_Signatures (mkTracked (c_Signatures c) 0 0)
      (set_externalCertDigestIndex (match c_Exts c with [] => None | _ => Some (index_certs (c_Exts c)) end)
        (set_ExternalSigningCertificates (mkTracked (c_Exts c) 0 0)
          (set_SigningCertificates (mkTracked (c_Certs c) 0 0) s)))).

Lemma load_signing_represents m c bulk opts s :
  represents m c → exts_ok (c_Exts c) → reads_bulk m (bulk_keys (content_metadata c)) bulk →
  ExternalSigningCertificates s = track_new →
  load_signing bulk (content_metadata c) opts s = load_rows bulk opts (with_signing c s).
Proof.
  intros Hr He Hb Hs. unfold load_signing. simpl. rewrite !Nat2N.id.
  unfold bulk_keys in Hb. simpl in Hb.
  destruct (load_entries_exact sigcertKeyPrefix m bulk (c_Certs c) (rp_certs _ _ Hr)) as (lc & -> & Hc1 & _).
  { intros k Hk. apply Hb. set_solver. }
  destruct (load_entries_exact extSigCertKeyPrefix m bulk (c_Exts c) (rp_exts _ _ Hr)) as (le & -> & He1 & _).
  { intros k Hk. apply Hb. set_solver. }
  rewrite He1, setLoadedExternalCerts_ok by done.
  destruct (load_signatures_exact m bulk (c_Signatures c) (c_RawSignatures c) (rp_raws _ _ Hr) (rp_sigs _ _ Hr))
    as (lg & -> & Hg1 & Hg2).
  { intros k Hk. apply Hb. set_solver. }
  cbn [negb]. rewrite Hc1, Hg1, Hg2. unfold with_signing. simpl. rewrite Hs. done.
Qed.

(** The rows of a content are within the bounds of a load. *)
Definition content_small (c : content) : Prop := within_bounds (content_metadata c) = true.

Lemma metadata_row m c :
  represents m c → m !! MetadataKey ≠ Some EmptyString →
  ∃ a d, m !! MetadataKey = Some (String a d) ∧ decode_metadata (String a d) = Some (content_metadata c).
Proof.
  intros Hr Hg. pose proof (rp_metadata _ _ Hr) as Hm.
  destruct (m !! MetadataKey) as [[|a d]|]; simpl in Hm; [done|exists a, d; split; [done|]|done].
  unfold decode_metadata. by rewrite Hm.
Qed.

Lemma metadata_nonempty m c : represents m c → c_Generation c ≠ 0%N → m !! MetadataKey ≠ Some EmptyString.
Proof.
  intros Hr Hg Hm. pose proof (rp_metadata _ _ Hr) as Hd. rewrite Hm in Hd. simpl in Hd.
  rewrite unmarshal_empty_metadata in Hd. injection Hd. intros. by apply Hg.
Qed.

Lemma persistable_all (es : list HistoryEvent) : Forall (λ e, IsTimerFired e = false) es → persistable es = es.
Proof.
  intros Hes. apply filter_true. intros e He. rewrite list.Forall_forall in Hes. by apply Hes.
Qed.

Lemma load_represents m c meta getBulk bulk opts :
  represents m c → m !! MetadataKey ≠ Some EmptyString → content_small c → exts_ok (c_Exts c) →
  reads_row m MetadataKey meta →
  getBulk (bulk_keys (content_metadata c)) = Some bulk →
  reads_bulk m (bulk_keys (content_metadata c)) bulk →
  ∃ s, loadWorkflowStateOnce (Some meta) getBulk opts = verdict opts s ∧
       content_of s = c ∧ synced s m ∧ metadataETag s = sr_ETag meta ∧ metadataETagSeen s = true ∧
       externalCertDigestIndex s = match c_Exts c with [] => None | _ => Some (index_certs (c_Exts c)) end.
Proof.
  intros Hr Hg Hsm He Hmeta Hget Hb.
  destruct (metadata_row m c Hr Hg) as (a & d & Hd & Hdec).
  unfold loadWorkflowStateOnce. rewrite (reads_row_data _ _ _ Hmeta), Hd, Hdec, Hsm, Hget. cbn [negb].
  cbn [content_metadata InboxLength HistoryLength md_Generation]. rewrite !Nat2N.id.
  destruct (load_entries_exact inboxKeyPrefix m bulk (c_Inbox c) (rp_inbox _ _ Hr)) as (li & -> & Hi1 & _).
  { intros k Hk. apply Hb. unfold bulk_keys. simpl. set_solver. }
  destruct (load_entries_exact historyKeyPrefix m bulk (c_History c) (rp_history _ _ Hr)) as (lh & -> & Hh1 & _).
  { intros k Hk. apply Hb. unfold bulk_keys. simpl. set_solver. }
  rewrite Hi1, Hh1. rewrite load_signing_represents with (m := m) by done.
  edestruct (load_rows_represents m c bulk opts) as (status & parent & creation & -> & Hst & Hcr);
    [done| |reflexivity|reflexivity|].
  { intros k Hk. apply Hb. unfold bulk_keys. set_solver. }
  eexists. split; [reflexivity|].
  match goal with |- content_of ?s' = _ ∧ _ => set (s := s') end.
  assert (content_of s = c) as Hcont.
  { unfold content_of, persistableInbox, creation_of. subst s. simpl. rewrite Hst, Hcr.
    rewrite persistable_all by apply (rp_timers _ _ Hr). by destruct c. }
  split_and!; [done| |done| |done].
  - split; [|done]. apply represents_tracks; try reflexivity; by rewrite Hcont.
  - subst s. simpl. rewrite (reads_row_etag _ _ _ Hmeta), Hd. done.
Qed.

(** ** The retry loop *)

(** A load that read a key of the metadata it could not find. *)
Definition transient (r : loaded) : option (string * option string) :=
  match r with (_, Some (ErrTransient k e)) => Some (k, e) | _ => None end.

Definition same_etag (prev : option (option string)) (etag : option string) : bool :=
  match prev, etag with Some (Some p), Some e => bool_decide (p = e) | _, _ => false end.

Lemma load_loop_step once cancelled fuel attempt prev :
  load_loop once cancelled (S fuel) attempt prev =
    match transient (once attempt) with
    | None => Some (once attempt)
    | Some (key, etag) =>
        if same_etag prev etag || (loadStateMaxAttempts <=? attempt) then Some (None, Some (ErrMissing key))
        else if cancelled attempt then Some (None, Some ErrCancelled)
        else load_loop once cancelled fuel (S attempt) (Some etag)
    end.
Proof. simpl. destruct (once attempt) as [st [[]|]]; reflexivity. Qed.

(** How the loop ends, at attempt [n]. *)
Definition load_ends (once : nat → loaded) (cancelled : nat → bool) (prev : option (option string)) (n : nat) (r : loaded) : Prop :=
  match transient (once n) with
  | None => r = once n
  | Some (key, etag) =>
      (r = (None, Some (ErrMissing key)) ∧ (same_etag prev etag = true ∨ loadStateMaxAttempts ≤ n)) ∨
      (r = (None, Some ErrCancelled) ∧ cancelled n = true)
  end.

Definition etag_at (once : nat → loaded) (n : nat) : option (option string) := snd <$> transient (once n).

Lemma load_loop_ends once cancelled fuel : ∀ attempt prev,
  1 ≤ attempt ≤ loadStateMaxAttempts → loadStateMaxAttempts - attempt < fuel →
  ∃ n r, attempt ≤ n ≤ loadStateMaxAttempts ∧ load_loop once cancelled fuel attempt prev = Some r ∧
    (∀ j, attempt ≤ j < n → is_Some (transient (once j)) ∧ cancelled j = false) ∧
    load_ends once cancelled (if n =? attempt then prev else etag_at once (n - 1)) n r.
Proof.
  induction fuel as [|fuel IH]; intros attempt prev Ha Hf; [lia|]. rewrite load_loop_step.
  destruct (transient (once attempt)) as [[key etag]|] eqn:Ht.
  2:{ exists attempt, (once attempt). rewrite Nat.eqb_refl. unfold load_ends. rewrite Ht. split_and!; try lia; auto. }
  destruct (same_etag prev etag || _) eqn:Hs.
  { exists attempt, (None, Some (ErrMissing key)). rewrite Nat.eqb_refl. unfold load_ends. rewrite Ht.
    apply orb_true_iff in Hs. rewrite Nat.leb_le in Hs. split_and!; try lia; auto. }
  destruct (cancelled attempt) eqn:Hc.
  { exists attempt, (None, Some ErrCancelled). rewrite Nat.eqb_refl. unfold load_ends. rewrite Ht.
    split_and!; try lia; auto. }
  apply orb_false_iff in Hs as [_ Hs]. apply Nat.leb_gt in Hs.
  destruct (IH (S attempt) (Some etag)) as (n & r & Hn & Hr & Hj & Hend); [lia|lia|].
  exists n, r. split_and!; [lia|lia|done| |].
  - intros j Hj'. destruct (decide (j = attempt)) as [->|]; [by rewrite Ht|apply Hj; lia].
  - rewrite (proj2 (Nat.eqb_neq n attempt)) by lia. destruct (decide (n = S attempt)) as [->|].
    + rewrite Nat.eqb_refl in Hend. simpl. rewrite Nat.sub_0_r. unfold etag_at. by rewrite Ht.
    + by rewrite (proj2 (Nat.eqb_neq n (S attempt))) in Hend by done.
Qed.

(** Loading ends: whatever the attempts return, the retry loop makes at most five and
    returns; it goes on only after a read that missed a declared key, and reports a missing
    key only after two attempts in a row with the same token or after the fifth. *)
Theorem workflow_load_terminates once cancelled :
  ∃ n r, 1 ≤ n ≤ loadStateMaxAttempts ∧ LoadWorkflowState once cancelled = Some r ∧
    (∀ j, 1 ≤ j < n → is_Some (transient (once j)) ∧ cancelled j = false) ∧
    load_ends once cancelled (if n =? 1 then None else etag_at once (n - 1)) n r.
Proof. apply load_loop_ends; unfold loadStateMaxAttempts; lia. Qed.

(** ** Bounds *)

Lemma multi_keys_length p n : length (multi_keys p n) = N.to_nat n.
Proof. unfold multi_keys. by rewrite length_fmap, length_seq. Qed.

Lemma bulk_keys_bounded md :
  within_bounds md = true → (N.of_nat (length (bulk_keys md)) ≤ 5 * maxStateEntries + 4)%N.
Proof.
  unfold within_bounds. simpl. rewrite !andb_true_iff, !N.leb_le. intros (H1' & H2' & H3' & H4' & H5' & _).
  unfold bulk_keys. rewrite !length_app, !multi_keys_length. simpl length. lia.
Qed.

(** A load never asks the store for more than 5,000,004 keys, whatever the metadata row
    says: its result does not change when larger bulk reads fail. *)
Theorem workflow_load_bounded meta getBulk opts :
  loadWorkflowStateOnce meta getBulk opts =
    loadWorkflowStateOnce meta
      (λ keys, if (N.of_nat (length keys) <=? 5 * maxStateEntries + 4)%N then getBulk keys else None) opts.
Proof.
  unfold loadWorkflowStateOnce. destruct meta as [res|]; [|done].
  destruct (sr_Data res) as [[|a d]|]; [done| |done].
  destruct (decode_metadata (String a d)) as [md|]; [|done].
  destruct (within_bounds md) eqn:Hw; [|done]. cbn [negb].
  by rewrite (proj2 (N.leb_le _ _) (bulk_keys_bounded md Hw)).
Qed.

(** ** Signed states *)

(** What loading the optional rows does not change. *)
Definition keeps_signing s s' : Prop :=
  (appID s', namespace s', items (ExternalSigningCertificates s'), metadataETag s', items (History s'), RawHistory s',
   items (Signatures s'), RawSignatures s', items (SigningCertificates s')) =
  (appID s, namespace s, items (ExternalSigningCertificates s), metadataETag s, items (History s), RawHistory s,
   items (Signatures s), RawSignatures s, items (SigningCertificates s)).

Lemma load_rows_inv bulk opts s s' e :
  load_rows bulk opts s = (Some s', e) →
  keeps_signing s s' ∧ e = if hasTamperMarker s' then None else enforce_signing opts s'.
Proof.
  unfold load_rows. destruct (load_custom_status bulk s) as [s1|] eqn:E1; [|done].
  destruct (load_incoming bulk s1) as [s2|] eqn:E2; [|done].
  destruct (load_creation_input bulk _) as [s3|] eqn:E3; [|done]. intros Hl.
  assert (keeps_signing s s3) as Hk.
  { assert (keeps_signing s s1) as K1.
    { unfold load_custom_status in E1. repeat case_match; by simplify_eq. }
    assert (keeps_signing s1 s2) as K2.
    { unfold load_incoming in E2. repeat case_match; by simplify_eq. }
    assert (keeps_signing s2 (load_parent_notify bulk s2)) as K3.
    { unfold load_parent_notify. by destruct (row_present _). }
    assert (keeps_signing (load_parent_notify bulk s2) s3) as K4.
    { unfold load_creation_input, ClearCreationInput in E3. repeat case_match; by simplify_eq. }
    unfold keeps_signing in *. congruence. }
  destruct (hasTamperMarker s3) eqn:Hm; injection Hl as <- <-; by rewrite Hm.
Qed.

Lemma setLoadedExternalCerts_inv certs s s' :
  setLoadedExternalCerts certs s = (s', true) →
  exts_ok certs ∧ items (ExternalSigningCertificates s') = certs ∧ appID s' = appID s ∧ namespace s' = namespace s.
Proof.
  unfold setLoadedExternalCerts. destruct (forallb _ certs) eqn:Hf; [|done]. intros [= <-]. split_and!; try done.
  rewrite forallb_forall in Hf. apply list.Forall_forall. intros c Hc.
  by apply list_elem_of_In, Hf, bool_decide_eq_true in Hc.
Qed.

Lemma load_signing_inv bulk md opts s s' :
  load_signing bulk md opts s = (Some s', None) → hasTamperMarker s' = false →
  exts_ok (items (ExternalSigningCertificates s')) ∧ appID s' = appID s ∧ namespace s' = namespace s ∧
  enforce_signing opts s' = None.
Proof.
  unfold load_signing, tampered. intros Hl Hm. repeat case_match; simplify_eq; try congruence.
  match goal with He : setLoadedExternalCerts _ _ = (_, ?b), Hn : negb ?b = false |- _ =>
    apply negb_false_iff in Hn; subst b; apply setLoadedExternalCerts_inv in He as (Hx & Hi & Ha & Hn') end.
  apply load_rows_inv in Hl as [Hk He]. unfold keeps_signing in Hk. simpl in Hk. injection Hk as Ha' Hn'' Hx' _ _ _ _ _ _.
  rewrite Hm in He. simpl in Ha, Hn'. split_and!; congruence.
Qed.

(** The token of a loaded state is that of the metadata row. *)
Lemma setLoadedExternalCerts_etag certs s : metadataETag (setLoadedExternalCerts certs s).1 = metadataETag s.
Proof. unfold setLoadedExternalCerts. by destruct (forallb _ certs). Qed.

Lemma load_signing_etag bulk md opts s s' e :
  load_signing bulk md opts s = (Some s', e) → metadataETag s' = metadataETag s.
Proof.
  unfold load_signing, tampered. intros Hl. repeat case_match; simplify_eq; try done;
    match goal with He : setLoadedExternalCerts ?x ?y = _ |- _ =>
      pose proof (setLoadedExternalCerts_etag x y) as Hm; rewrite He in Hm; simpl in Hm end; try done.
  apply load_rows_inv in Hl as [Hk _]. unfold keeps_signing in Hk. simpl in Hk. congruence.
Qed.

Lemma load_once_etag meta getBulk opts s e :
  loadWorkflowStateOnce (Some meta) getBulk opts = (Some s, e) → metadataETag s = sr_ETag meta.
Proof.
  unfold loadWorkflowStateOnce. intros Hl. repeat case_match; simplify_eq; try done.
  by apply load_signing_etag in Hl.
Qed.

Lemma load_once_row meta getBulk opts s e :
  loadWorkflowStateOnce (Some meta) getBulk opts = (Some s, e) → is_Some (sr_Data meta).
Proof. unfold loadWorkflowStateOnce. destruct (sr_Data meta); done. Qed.

Lemma load_once_inv meta getBulk opts s :
  loadWorkflowStateOnce meta getBulk opts = (Some s, None) → hasTamperMarker s = false →
  exts_ok (items (ExternalSigningCertificates s)) ∧ appID s = o_AppID opts ∧ namespace s = o_Namespace opts ∧
  enforce_signing opts s = None.
Proof.
  unfold loadWorkflowStateOnce. intros Hl Hm. repeat case_match; simplify_eq; try congruence.
  by apply load_signing_inv in Hl.
Qed.

(** *** The rows behind a loaded state *)

(** The stored bytes of the rows 0, ..., n-1 of a prefix. *)
Definition row_bytes (bulk : gmap string StateResponse) (prefix : string) (i : nat) : string :=
  default EmptyString (sr_Data (entry bulk (getMultiEntryKeyName prefix (N.of_nat i)))).

Definition stored_rows (bulk : gmap string StateResponse) (prefix : string) (n : N) : list string :=
  row_bytes bulk prefix <$> seq 0 (N.to_nat n).

Lemma load_entries_rows {A} `{Codec A} bulk p k n (l : list (A * string)) :
  load_entries bulk p (N.of_nat k) n = AllEntries l →
  l.*2 = (row_bytes bulk p <$> seq k n) ∧ mapM Unmarshal l.*2 = Some l.*1.
Proof.
  revert k l. induction n as [|n IH]; intros k l; cbn [load_entries]; [by intros [= <-]|].
  destruct (sr_Data (entry bulk (getMultiEntryKeyName p (N.of_nat k)))) as [d|] eqn:Hd; [|done].
  destruct (Unmarshal d) as [x|] eqn:Hu; [|done]. replace (N.of_nat k + 1)%N with (N.of_nat (S k)) by lia.
  destruct (load_entries bulk p (N.of_nat (S k)) n) as [xs| |] eqn:Hl; [|done|done]. intros [= <-].
  destruct (IH (S k) xs Hl) as [H1' H2']. rewrite !fmap_cons. cbn [seq fst snd]. rewrite fmap_cons, H1'.
  split; [f_equal; unfold row_bytes; by rewrite Hd|]. cbn [mapM]. rewrite Hu, <-H1', H2'. done.
Qed.

Lemma load_entries_all {A} `{Codec A} bulk p n (l : list (A * string)) :
  load_entries bulk p 0 (N.to_nat n) = AllEntries l →
  l.*2 = stored_rows bulk p n ∧ mapM Unmarshal (stored_rows bulk p n) = Some l.*1.
Proof. intros [H1' H2']%(load_entries_rows bulk p 0). fold (stored_rows bulk p n) in H1'. by rewrite <-H1'. Qed.

Lemma setLoadedExternalCerts_same certs s s' ok : setLoadedExternalCerts certs s = (s', ok) →
  items (SigningCertificates s') = items (SigningCertificates s) ∧ items (History s') = items (History s) ∧
  RawHistory s' = RawHistory s.
Proof. unfold setLoadedExternalCerts. destruct (forallb _ certs); by intros [= <- <-]. Qed.

Lemma load_signing_rows bulk md opts s s' :
  load_signing bulk md opts s = (Some s', None) → hasTamperMarker s' = false →
  items (History s') = items (History s) ∧ RawHistory s' = RawHistory s ∧
  RawSignatures s' = stored_rows bulk signatureKeyPrefix (SignatureLength md) ∧
  mapM Unmarshal (stored_rows bulk signatureKeyPrefix (SignatureLength md)) = Some (items (Signatures s')) ∧
  mapM Unmarshal (stored_rows bulk sigcertKeyPrefix (SigningCertificateLength md)) = Some (items (SigningCertificates s')).
Proof.
  unfold load_signing, tampered. intros Hl Hm. repeat case_match; simplify_eq; try congruence.
  repeat match goal with He : load_entries _ _ 0 _ = AllEntries _ |- _ => apply load_entries_all in He as [? ?] end.
  match goal with He : setLoadedExternalCerts _ _ = _ |- _ => apply setLoadedExternalCerts_same in He as (E1 & E2 & E3) end.
  apply load_rows_inv in Hl as [Hk _]. unfold keeps_signing in Hk. simpl in Hk, E1, E2, E3.
  injection Hk as _ _ _ _ -> -> -> -> ->. split_and!; congruence.
Qed.

Lemma load_once_rows meta getBulk opts s :
  loadWorkflowStateOnce meta getBulk opts = (Some s, None) → hasTamperMarker s = false →
  ∃ res d md bulk, meta = Some res ∧ sr_Data res = Some d ∧ decode_metadata d = Some md ∧
    getBulk (bulk_keys md) = Some bulk ∧
    RawHistory s = stored_rows bulk historyKeyPrefix (HistoryLength md) ∧
    mapM Unmarshal (stored_rows bulk historyKeyPrefix (HistoryLength md)) = Some (items (History s)) ∧
    RawSignatures s = stored_rows bulk signatureKeyPrefix (SignatureLength md) ∧
    mapM Unmarshal (stored_rows bulk signatureKeyPrefix (SignatureLength md)) = Some (items (Signatures s)) ∧
    mapM Unmarshal (stored_rows bulk sigcertKeyPrefix (SigningCertificateLength md)) = Some (items (SigningCertificates s)).
Proof.
  unfold loadWorkflowStateOnce. intros Hl Hm. repeat case_match; simplify_eq; try congruence.
  apply load_signing_rows in Hl as (E1 & E2 & E3 & E4 & E5); [|done]. simpl in E1, E2.
  match goal with He : load_entries _ historyKeyPrefix 0 _ = AllEntries _ |- _ => apply load_entries_all in He as [E6 E7] end.
  do 4 eexists. split_and!; try done; congruence.
Qed.

(** The SPIFFE path of an app in a namespace. *)
Definition app_path (ns app : string) : list ascii :=
  slash :: bytes "ns" ++ slash :: bytes ns ++ slash :: bytes app.

Lemma verifyCertAppIdentity_path chain app ns :
  verifyCertAppIdentity chain app ns = true →
  ∃ path, LeafSPIFFEPath chain = Some path ∧ bytes path = app_path ns app.
Proof.
  unfold verifyCertAppIdentity. rewrite !andb_true_iff. intros [_ Hp].
  destruct (LeafSPIFFEPath chain) as [path|]; [|done]. exists path. split; [done|].
  rewrite <-(Join_Split slash (bytes path)).
  destruct (Split slash (bytes path)) as [|s0 [|s1 [|s2 [|s3 [|]]]]]; try done.
  rewrite !andb_true_iff, !bool_decide_eq_true in Hp.
  destruct Hp as [[[[[-> ->] _] _] ->] ->]. reflexivity.
Qed.

(** C15: What a load without error guarantees when the history does not end in the tamper
    marker, in terms of the rows it read: the history, signatures and certificates of the
    state are the decoded rows, all that the metadata row declares; external certificates
    match their digests; a state without signatures is unsigned by configuration or has no
    history; with signatures a signer is configured, the last signature ends at the last
    stored event, the signing library verifies the stored signature rows over the bytes of
    all stored history rows, and every signing certificate is for exactly the path
    /ns/<namespace>/<app id> of the host's app. *)
Theorem workflow_load_verified meta getBulk opts s :
  loadWorkflowStateOnce meta getBulk opts = (Some s, None) → hasTamperMarker s = false →
  exts_ok (items (ExternalSigningCertificates s)) ∧
  ∃ res d md bulk, meta = Some res ∧ sr_Data res = Some d ∧ decode_metadata d = Some md ∧
    getBulk (bulk_keys md) = Some bulk ∧
    let history := stored_rows bulk historyKeyPrefix (HistoryLength md) in
    let signatures := stored_rows bulk signatureKeyPrefix (SignatureLength md) in
    let certs := stored_rows bulk sigcertKeyPrefix (SigningCertificateLength md) in
    mapM Unmarshal history = Some (items (History s)) ∧ mapM Unmarshal signatures = Some (items (Signatures s)) ∧
    mapM Unmarshal certs = Some (items (SigningCertificates s)) ∧
    match list.last (items (Signatures s)) with
    | None => o_Signer opts = None ∨ items (History s) = []
    | Some sig =>
        ∃ sgn, o_Signer opts = Some sgn ∧
          ((GetStartEventIndex sig + GetEventCount sig) mod two64)%N = HistoryLength md ∧
          VerifyChain sgn signatures (items (SigningCertificates s)) history = true ∧
          ∀ c, c ∈ items (SigningCertificates s) →
            ∃ path, LeafSPIFFEPath (GetCertificate c) = Some path ∧ bytes path = app_path (o_Namespace opts) (o_AppID opts)
    end.
Proof.
  intros Hl Hm. destruct (load_once_inv _ _ _ _ Hl Hm) as (Hx & Ha & Hn & He). split; [done|].
  destruct (load_once_rows _ _ _ _ Hl Hm) as (res & d & md & bulk & E1 & E2 & E3 & E4 & Hrh & Hh & Hrs & Hs & Hc).
  exists res, d, md, bulk. cbv zeta. split_and!; try done. unfold enforce_signing in He.
  destruct (list.last (items (Signatures s))) as [sig|] eqn:Hlast.
  - destruct (items (Signatures s)) eqn:Hsig; [done|]. rewrite <-Hsig in *.
    destruct (o_Signer opts) as [sgn|]; [|done]. exists sgn. do 2 (case_bool_decide; [done|]).
    destruct (verifySignatureChain s sgn) eqn:Hv; [|done]. unfold verifySignatureChain, covers in Hv.
    rewrite Hlast, Hrh, Hrs, !andb_true_iff, forallb_forall, bool_decide_eq_true in Hv. destruct Hv as [[Hcov Hvc] Hid].
    split_and!; try done.
    + rewrite Hcov. unfold stored_rows. rewrite length_fmap, length_seq. lia.
    + intros c Hc'. rewrite <-Ha, <-Hn. by apply verifyCertAppIdentity_path, Hid, list_elem_of_In.
  - apply last_None in Hlast. rewrite Hlast in He. destruct (o_Signer opts); [|by left]. right.
    destruct (items (History s)); [done|]. done.
Qed.

End load.
