(* ===== verification/WorkflowProps.v ===== *)
(** * Workflow state: save, load and purge

    What the incremental saves of a workflow amount to, for any sequence of
    changes between them, and the table of external certificates. *)

From Stdlib Require Import Ascii.
From S2P Require Import Prelude GoStrings WorkflowState WorkflowSync WorkflowChanges WorkflowLoad.

Section props.
Context `{HistorySigning} `{!ProtosLaws}.
Implicit Types (s : State) (m : gmap string string).

(** ** The table of external certificates *)

Definition index_exact (exts : list ExternalSigningCertificate) (idx : gmap string N) : Prop :=
  ∀ d i, idx !! d = Some i ↔ ∃ c, exts !! N.to_nat i = Some c ∧ ext_Digest c = d.

Definition index_ok s : Prop :=
  match externalCertDigestIndex s with
  | None => items (ExternalSigningCertificates s) = []
  | Some idx => index_exact (items (ExternalSigningCertificates s)) idx
  end.

(** Certificates are stored under their digests, once each. *)
Definition certs_ok s : Prop := exts_ok (items (ExternalSigningCertificates s)) ∧ index_ok s.

Lemma index_default s : index_ok s → index_exact (items (ExternalSigningCertificates s)) (default ∅ (externalCertDigestIndex s)).
Proof.
  unfold index_ok. destruct (externalCertDigestIndex s); [done|]. intros -> d i. simpl.
  rewrite lookup_empty. split; [done|]. intros (c & Hc & _). done.
Qed.

Lemma index_insert exts idx d c :
  index_exact exts idx → idx !! d = None → ext_Digest c = d →
  index_exact (exts ++ [c]) (<[d := N.of_nat (length exts)]> idx).
Proof.
  intros Hi Hd Hc d' i. destruct (decide (d' = d)) as [->|Hne].
  - rewrite lookup_insert_eq. split.
    + intros [= <-]. exists c. rewrite Nat2N.id, lookup_app_r, Nat.sub_diag by done. done.
    + intros (c' & Hc' & Hdc'). f_equal. apply lookup_app_Some in Hc' as [Hc'|[Hl Hc']].
      * assert (idx !! d = Some i) by (apply Hi; by exists c'). congruence.
      * apply list_lookup_singleton_Some in Hc' as [Hc' _]. lia.
  - rewrite lookup_insert_ne, (Hi d' i) by done. split; intros (c' & Hc' & Hdc'); exists c'; split; try done.
    + by apply lookup_app_l_Some.
    + apply lookup_app_Some in Hc' as [Hc'|[_ Hc']]; [done|].
      apply list_lookup_singleton_Some in Hc' as [_ ->]. congruence.
Qed.

Lemma AddExternalCert_certs_ok d c s : CertDigest c = d → certs_ok s → certs_ok (AddExternalCert d c s).1.
Proof.
  intros Hd [Hx Hi]. unfold AddExternalCert. destruct (negb _); [done|]. pose proof (index_default s Hi) as Hdef.
  destruct (_ !! d) as [idx|] eqn:Hl; simpl; [by split|]. split; simpl.
  - apply list.Forall_app. split; [done|]. by constructor.
  - by apply index_insert.
Qed.

Lemma certs_ok_same s s' :
  items (ExternalSigningCertificates s') = items (ExternalSigningCertificates s) →
  externalCertDigestIndex s' = externalCertDigestIndex s → certs_ok s → certs_ok s'.
Proof. unfold certs_ok, index_ok. by intros -> ->. Qed.

Lemma ResetChangeTracking_certs_ok s : certs_ok s → certs_ok (ResetChangeTracking s).
Proof.
  destruct (ResetChangeTracking_fields s) as (_ & _ & _ & Hx & _ & _ & _ & _ & _ & _ & Hi).
  apply certs_ok_same; [by rewrite Hx|done].
Qed.

Lemma SetMetadataETag_certs_ok etag s : certs_ok s → certs_ok (SetMetadataETag etag s).
Proof. by destruct etag. Qed.

Lemma certs_ok_dropped s :
  items (ExternalSigningCertificates s) = [] → externalCertDigestIndex s = None → certs_ok s.
Proof. unfold certs_ok, index_ok. intros -> ->. split; [constructor|done]. Qed.

(** *** The index of loaded certificates *)

Definition distinct_digests (exts : list ExternalSigningCertificate) : Prop := NoDup (ext_Digest <$> exts).

Lemma index_exact_distinct exts idx : index_exact exts idx → distinct_digests exts.
Proof.
  intros Hi. apply NoDup_alt. intros i j d Hdi Hdj.
  rewrite list_lookup_fmap in Hdi, Hdj.
  destruct (exts !! i) as [ci|] eqn:Hci; [|done]. destruct (exts !! j) as [cj|] eqn:Hcj; [|done].
  assert (idx !! d = Some (N.of_nat i)) as H1' by (apply Hi; exists ci; rewrite Nat2N.id; by simplify_eq/=).
  assert (idx !! d = Some (N.of_nat j)) as H2' by (apply Hi; exists cj; rewrite Nat2N.id; by simplify_eq/=).
  rewrite H1' in H2'. injection H2'. lia.
Qed.

Lemma index_certs_exact exts : distinct_digests exts → index_exact exts (index_certs exts).
Proof.
  unfold distinct_digests. induction exts as [|c exts IH] using rev_ind; intros Hn.
  { intros d i. unfold index_certs. simpl. rewrite lookup_empty. split; [done|]. by intros (c & Hc & _). }
  rewrite fmap_app in Hn. apply list.NoDup_app in Hn as (Hn & Hd & _).
  unfold index_certs. rewrite imap_app, foldl_app. simpl. rewrite Nat.add_0_r.
  fold (index_certs exts). specialize (IH Hn).
  apply index_insert; [done| |done]. destruct (index_certs exts !! ext_Digest c) as [i|] eqn:Hi; [|done].
  apply IH in Hi as (c' & Hc' & Hdc). destruct (Hd (ext_Digest c)); [|set_solver].
  apply list_elem_of_fmap. exists c'. split; [done|]. by apply list_elem_of_lookup_2 in Hc'.
Qed.

Lemma certs_ok_distinct s : certs_ok s → distinct_digests (items (ExternalSigningCertificates s)).
Proof. intros [_ Hi]. by apply index_default, index_exact_distinct in Hi. Qed.

(** ** Sequences of changes *)

(** A certificate is added under its digest. *)
Definition change_valid (c : change) : Prop :=
  change_ok c ∧ match c with CAddExternal d cert => CertDigest cert = d | _ => True end.

Definition run_changes (cs : list change) s : State := foldl (λ s c, apply_change c s) s cs.

(** The inbox holds no injected termination that was not cleared. *)
Definition run_uncounted (cs : list change) (uncounted : bool) : bool := foldl leaves_uncounted uncounted cs.
Definition all_counted (cs : list change) : Prop := run_uncounted cs false = false.

Lemma Reset_dropped s :
  items (ExternalSigningCertificates (Reset s)) = [] ∧ externalCertDigestIndex (Reset s) = None.
Proof.
  unfold Reset, reset_creation, reset_notify, reset_incoming.
  destruct (value (IncomingHistory _)); simpl; repeat (destruct (_ || _); simpl); done.
Qed.

Lemma FromWorkflowState_dropped b s :
  items (ExternalSigningCertificates (FromWorkflowState b s)) = [] ∧ externalCertDigestIndex (FromWorkflowState b s) = None.
Proof.
  unfold FromWorkflowState. simpl. destruct (Reset_dropped s) as [Hx Hi]. revert Hx Hi. generalize (Reset s). clear s.
  intros s. revert s. induction (b_Inbox b) as [|e es IH]; intros s; simpl.
  - revert s. induction (b_History b) as [|e es IH]; intros s; simpl; [done|]. intros. by apply IH.
  - intros. by apply IH.
Qed.

Lemma change_certs_ok c s : change_valid c → certs_ok s → certs_ok (apply_change c s).
Proof.
  intros [_ Hv] Hs. destruct c as [|rs| | | | | | |d cert| | |start| | | |b]; simpl; try exact Hs.
  - apply certs_ok_dropped; apply Reset_dropped.
  - unfold ApplyRuntimeStateChanges. destruct (rs_ContinuedAsNew rs); [by apply certs_ok_dropped|exact Hs].
  - by apply AddExternalCert_certs_ok.
  - unfold KeepCreationInput. destruct (es_ParentInstance start); [|done]. by destruct (keepCreationInput s).
  - unfold ClearCreationInput. by destruct (_ || _).
  - apply certs_ok_dropped; apply FromWorkflowState_dropped.
Qed.

Lemma run_changes_unless cs : ∀ u s m, Forall change_valid cs → synced_unless u s m → certs_ok s →
  synced_unless (run_uncounted cs u) (run_changes cs s) m ∧ certs_ok (run_changes cs s).
Proof.
  induction cs as [|c cs IH]; intros u s m Hc Hs Hk; [done|]. apply list.Forall_cons in Hc as [Hc Hcs].
  apply (IH (leaves_uncounted u c)); [done| |by apply change_certs_ok]. destruct Hc. by apply change_synced.
Qed.

Lemma run_changes_ok cs s m : Forall change_valid cs → all_counted cs → synced s m → certs_ok s →
  synced (run_changes cs s) m ∧ certs_ok (run_changes cs s).
Proof.
  intros Hc Ha Hs Hk. destruct (run_changes_unless cs false s m Hc Hs Hk) as [Hs' Hk'].
  split; [|done]. unfold all_counted in Ha. by rewrite Ha in Hs'.
Qed.

(** The new instance, with no rows. *)
Lemma NewState_synced opts : synced (NewState opts) ∅.
Proof.
  split; [|done]. split; unfold tracked_table, status_row, incoming_row, notify_row, creation_row; simpl; try done.
  all: first [by apply table_exact_tracks; intros i; simpl; rewrite lookup_empty | intros k [v Hv]; by rewrite lookup_empty in Hv | constructor].
Qed.

Lemma NewState_certs_ok opts : certs_ok (NewState opts).
Proof. by apply certs_ok_dropped. Qed.

Lemma synced_marshaled_ok s m : synced s m → marshaled_ok s.
Proof. intros [_ Hm] j d. rewrite Hm. done. Qed.

(** ** Purging *)

Lemma apply_deletes_lookup ops m k :
  Forall (λ o, op_value o = None) ops →
  apply_ops ops m !! k = if decide (k ∈ op_key <$> ops) then None else m !! k.
Proof.
  intros Hd. case_decide as Hin; [|by apply apply_ops_notin].
  revert m. induction Hd as [|o ops Ho _ IH]; intros m; [by apply elem_of_nil in Hin|].
  rewrite fmap_cons in Hin. unfold apply_ops. simpl. fold (apply_ops ops (apply_op m o)).
  destruct (decide (k ∈ op_key <$> ops)) as [Hk|Hk]; [by apply IH|].
  rewrite apply_ops_notin by done. rewrite apply_op_lookup, decide_True; [done|].
  by apply elem_of_cons in Hin as [|].
Qed.

(** The rows of every slice are among those a purge deletes. *)
Definition purgeable s : Prop :=
  removedCount (Inbox s) ≤ length (items (Inbox s)) ∧ removedCount (History s) ≤ length (items (History s)) ∧
  removedCount (SigningCertificates s) ≤ length (items (SigningCertificates s)) ∧
  removedCount (ExternalSigningCertificates s) ≤ length (items (ExternalSigningCertificates s)) ∧
  removedCount (Signatures s) ≤ length (items (Signatures s)).

Lemma purge_keys actorID s k :
  k ∈ op_key <$> rq_Operations (GetPurgeRequest actorID s) ↔
    (∃ i, i < length (items (Inbox s)) ∧ k = entry_key inboxKeyPrefix i) ∨
    (∃ i, i < length (items (History s)) ∧ k = entry_key historyKeyPrefix i) ∨
    (∃ i, i < length (items (SigningCertificates s)) ∧ k = entry_key sigcertKeyPrefix i) ∨
    (∃ i, i < length (items (ExternalSigningCertificates s)) ∧ k = entry_key extSigCertKeyPrefix i) ∨
    (∃ i, i < length (items (Signatures s)) ∧ k = entry_key signatureKeyPrefix i) ∨
    (persisted (CustomStatus s) = true ∧ k = customStatusKey) ∨
    (persisted (IncomingHistory s) = true ∧ k = propagatedHistoryKey) ∨
    (persisted (ParentNotify s) = true ∧ k = ParentNotifyKey) ∨
    (persisted (CreationInput s) = true ∧ k = creationInputKey) ∨ k = MetadataKey.
Proof.
  assert (∀ p n, k ∈ op_key <$> addPurgeStateOperations p n ↔ ∃ i, i < n ∧ k = entry_key p i) as Ht.
  { intros p n. unfold addPurgeStateOperations. rewrite <-list_fmap_compose, list_elem_of_fmap. simpl.
    split.
    - intros (i & -> & Hi). apply elem_of_seq in Hi. exists i. split; [lia|done].
    - intros (i & Hi & ->). exists i. split; [done|]. apply elem_of_seq. lia. }
  assert (∀ (b : bool) k', k ∈ op_key <$> (if b then [Delete k'] else []) ↔ b = true ∧ k = k') as Hs.
  { intros [] k'; simpl; set_solver. }
  simpl. rewrite !fmap_app, !elem_of_app, !Ht, !Hs. simpl.
  rewrite elem_of_cons, elem_of_nil. tauto.
Qed.

Lemma purge_deletes actorID s : Forall (λ o, op_value o = None) (rq_Operations (GetPurgeRequest actorID s)).
Proof.
  assert (∀ p n, Forall (λ o, op_value o = None) (addPurgeStateOperations p n)) as Ht.
  { intros p n. apply list.Forall_fmap, list.Forall_true. done. }
  simpl. rewrite !list.Forall_app. split_and!; try done; try (by destruct (persisted _); repeat constructor).
  by repeat constructor.
Qed.

Lemma purge_all actorID s m k : loose s m → purgeable s → is_Some (m !! k) →
  k ∈ op_key <$> rq_Operations (GetPurgeRequest actorID s).
Proof.
  intros (xs & Hl & Ht) (P1 & P2 & P3 & P4 & P5) Hk. apply purge_keys.
  destruct (tr_known _ _ Ht k Hk) as [(f & p & i & Hp & ->)|Hs].
  - destruct f; simpl in Hp; simplify_eq.
    + left. exists i. split; [|done]. pose proof (tt_stale _ _ _ _ _ _ (tr_inbox _ _ Ht) i Hk).
      pose proof (persistable_length (items (Inbox s))). unfold persistableInbox in *. simpl in *. lia.
    + do 1 right. left. exists i. split; [|done]. pose proof (tt_stale _ _ _ _ _ _ (tr_history _ _ Ht) i Hk). simpl in *. lia.
    + do 2 right. left. exists i. split; [|done]. pose proof (tt_stale _ _ _ _ _ _ (tr_certs _ _ Ht) i Hk). simpl in *. lia.
    + do 3 right. left. exists i. split; [|done]. pose proof (tt_stale _ _ _ _ _ _ (tr_exts _ _ Ht) i Hk). simpl in *. lia.
    + do 4 right. left. exists i. split; [|done]. pose proof (tt_stale _ _ _ _ _ _ (tr_raws _ _ Ht) i Hk).
      rewrite <-(Forall2_length (tr_sigs _ _ Ht)) in *. simpl in *. lia.
  - assert (∀ {A} (r : row A) k', row_flag m k' r → is_Some (m !! k') → persisted r = true) as Hf.
    { intros A r k' -> ?. by apply bool_decide_eq_true. }
    unfold single_keys in Hs. rewrite !elem_of_cons in Hs. destruct Hs as [->|[->|[->|[->|[->|Hs]]]]].
    + do 5 right. left. split; [|done]. by apply (Hf _ _ _ (tr_status_flag _ _ Ht)).
    + do 6 right. left. split; [|done]. by apply (Hf _ _ _ (tr_incoming_flag _ _ Ht)).
    + do 7 right. left. split; [|done]. by apply (Hf _ _ _ (tr_notify_flag _ _ Ht)).
    + do 8 right. left. split; [|done]. by apply (Hf _ _ _ (tr_creation_flag _ _ Ht)).
    + by do 9 right.
    + by apply elem_of_nil in Hs.
Qed.

Lemma workflow_purge_empty actorID s m :
  loose s m → purgeable s → apply_ops (rq_Operations (GetPurgeRequest actorID s)) m = ∅.
Proof.
  intros Ht Hp. apply map_empty. intros k. rewrite apply_deletes_lookup by apply purge_deletes.
  case_decide as Hin; [done|]. destruct (m !! k) eqn:Hk; [|done]. destruct Hin.
  by apply (purge_all _ _ m); [| |rewrite Hk].
Qed.

(** ** Saving and loading *)

(** What a save writes: from rows that a state tracks, after any sequence of changes that
    clears the terminations it injects, the save request leaves rows that represent exactly
    the changed state, and the state after it tracks them. *)
Theorem workflow_save_exact cs s m actorID req :
  synced s m → certs_ok s → Forall change_valid cs → all_counted cs →
  status_settled (run_changes cs s) → GetSaveRequest actorID (run_changes cs s) = Ok req →
  let m' := apply_ops (rq_Operations req) m in
  represents m' (content_of (run_changes cs s)) ∧ synced (ResetChangeTracking (run_changes cs s)) m'.
Proof.
  intros Hs Hk Hc Ha Hst Hr. destruct (run_changes_ok cs s m Hc Ha Hs Hk) as [Hs' _].
  pose proof (synced_marshaled_ok _ _ Hs') as Hm. destruct Hs' as [Ht _]. split.
  - by apply (save_represents actorID).
  - by apply (saved_synced actorID).
Qed.

(** C8: Incremental saves lose nothing. From rows that a state tracks, after any sequence of
    the operations that change a state, in which every injected cascaded termination is
    cleared from the inbox later (C40 is a save where it is not), loading what the save
    request makes of the rows gives the same inbox without fired timers, history,
    certificates, signatures, custom status, propagated history, notification flag, creation
    input and generation, in a state that tracks the new rows under the token read. (Fired
    timers are injected and other events added, certificates are added under their digests
    and signatures with their bytes, a propagated history is not the empty message, a
    changed custom status comes with a change of the history, the generation is not 0, and
    the counts are within the bounds of a load.) *)
Theorem workflow_save_load_roundtrip cs s m actorID req opts meta getBulk bulk
    (s' := run_changes cs s) (m' := apply_ops (rq_Operations req) m) (keys := bulk_keys (state_metadata s')) :
  synced s m → certs_ok s → Forall change_valid cs → all_counted cs → status_settled s' →
  GetSaveRequest actorID s' = Ok req →
  Generation s' ≠ 0%N → within_bounds (state_metadata s') = true →
  reads_row m' MetadataKey meta → getBulk keys = Some bulk → reads_bulk m' keys bulk →
  ∃ s'', loadWorkflowStateOnce (Some meta) getBulk opts = verdict opts s'' ∧
         content_of s'' = content_of s' ∧ synced s'' m' ∧ metadataETag s'' = sr_ETag meta.
Proof.
  intros Hs Hk Hc Ha Hst Hr Hg Hb Hmeta Hget Hbulk. destruct (run_changes_ok cs s m Hc Ha Hs Hk) as [Hs' Hk'].
  pose proof (synced_marshaled_ok _ _ Hs') as Hm.
  assert (represents m' (content_of s')) as Hrep by (destruct Hs'; by apply (save_represents actorID)).
  destruct (load_represents m' (content_of s') meta getBulk bulk opts) as (s'' & ? & ? & ? & ? & _); try done.
  - by apply (metadata_nonempty m' (content_of s')).
  - apply Hk'.
  - by exists s''.
Qed.

(** ** Tombstones *)

Definition tamper_marker (now : Z) (cause : string) : HistoryEvent :=
  NewExecutionCompleted now (mkExecutionCompleted STATUS_FAILED (Some (mkFailureDetails ErrorTypeHistoryTampered cause))).

Lemma IsTamperMarker_marker now cause : IsTamperMarker (tamper_marker now cause) = true.
Proof. unfold IsTamperMarker, tamper_marker. by rewrite GetExecutionCompleted_new. Qed.

Lemma hasTamperMarker_last s xs e : items (History s) = xs ++ [e] → hasTamperMarker s = IsTamperMarker e.
Proof. unfold hasTamperMarker. intros ->. by rewrite last_snoc. Qed.

(** A tombstoned instance stays loadable: after the marker was added to a state in step with
    the rows and saved, a load returns the state without an error, whatever the signatures,
    and its history is the old one followed by the marker. *)
Theorem tombstone_stays_loadable now actorID opts s m cause req opts' meta getBulk bulk
    (s' := AddToHistory (tamper_marker now cause) s) (m' := apply_ops (rq_Operations req) m)
    (keys := bulk_keys (state_metadata s')) :
  synced s m → certs_ok s → hasTamperMarker s = false → GetSaveRequest actorID s' = Ok req →
  Generation s ≠ 0%N → within_bounds (state_metadata s') = true →
  reads_row m' MetadataKey meta → getBulk keys = Some bulk → reads_bulk m' keys bulk →
  (∃ s'', MarkAsTamperFailed now actorID opts (Some s) cause (λ _, true) (Some meta) = Some s'' ∧ synced s'' m') ∧
  (∃ s'', loadWorkflowStateOnce (Some meta) getBulk opts' = (Some s'', None) ∧ hasTamperMarker s'' = true ∧
          items (History s'') = items (History s) ++ [tamper_marker now cause]).
Proof.
  intros Hs Hk Ht Hr Hg Hb Hmeta Hget Hbulk.
  assert (synced s' m) as Hs' by (apply (change_synced false (CAddToHistory _)); done).
  pose proof (synced_marshaled_ok _ _ Hs') as Hm.
  assert (status_settled s') as Hst.
  { intros _. unfold history_touched. simpl. rewrite (proj2 (Nat.ltb_lt _ _)) by lia. done. }
  destruct Hs' as [Ht' _]. split.
  - unfold MarkAsTamperFailed. cbn [default from_option]. unfold id. rewrite Ht.
    change (NewExecutionCompleted now _) with (tamper_marker now cause). fold s'. rewrite Hr. eexists. split; [done|].
    apply SetMetadataETag_synced. by apply (saved_synced actorID).
  - assert (represents m' (content_of s')) as Hrep by by apply (save_represents actorID).
    destruct (load_represents m' (content_of s') meta getBulk bulk opts') as (s'' & Hl & Hc & _); try done.
    + by apply (metadata_nonempty m' (content_of s')).
    + apply Hk.
    + assert (items (History s'') = items (History s) ++ [tamper_marker now cause]) as Hh
        by exact (f_equal c_History Hc).
      assert (hasTamperMarker s'' = true) as Hmk
        by (rewrite (hasTamperMarker_last _ _ _ Hh); apply IsTamperMarker_marker).
      exists s''. split_and!; try done. rewrite Hl. unfold verdict. by rewrite Hmk.
Qed.

(** An instance with inflated metadata is tombstoned from scratch: the marker
    replaces the first event of the history in the store. *)
Lemma fresh_tombstone_request now actorID opts cause d1 d2 :
  Marshal (tamper_marker now cause) = Some d1 → Marshal (mkMetadata 0 1 1 0 0 0) = Some d2 → Marshal EmptyString = Some EmptyString →
  GetSaveRequest actorID (AddToHistory (tamper_marker now cause) (NewState opts)) =
    Ok (mkRequest (o_WorkflowActorType opts) actorID
          [Upsert (HistoryKey 0) d1 None; Upsert customStatusKey EmptyString None; Upsert MetadataKey d2 None]).
Proof.
  intros H1' H2' H3'.
  assert (state_metadata (AddToHistory (tamper_marker now cause) (NewState opts)) = mkMetadata 0 1 1 0 0 0) as Hmd by done.
  unfold GetSaveRequest. rewrite Hmd. unfold addHistoryOperations, entry_operations, history_data, marshal_at,
    customStatus_operations, marshal. rewrite H2'. simpl. rewrite H1'. simpl. rewrite H3'. done.
Qed.

(** A tombstone that is not added to the history (a departure from the comment on
    MarkAsTamperFailed). When the metadata row exceeds the bounds the load returns no state,
    and the tombstone is saved as the first history event of a new state: it replaces the
    stored first event and the metadata declares a history of one. *)
Theorem tombstone_replaces_history now actorID opts cause m meta getBulk md d0 d1 d2 :
  sr_Data meta = Some d0 → d0 ≠ EmptyString → decode_metadata d0 = Some md → within_bounds md = false →
  Marshal (tamper_marker now cause) = Some d1 → Marshal (mkMetadata 0 1 1 0 0 0) = Some d2 →
  Marshal EmptyString = Some EmptyString →
  loadWorkflowStateOnce (Some meta) getBulk opts = (None, Some (ErrVerification MetadataKey)) ∧
  ∃ req, GetSaveRequest actorID (AddToHistory (tamper_marker now cause) (NewState opts)) = Ok req ∧
    apply_ops (rq_Operations req) m !! HistoryKey 0 = Some d1 ∧
    apply_ops (rq_Operations req) m !! MetadataKey = Some d2.
Proof.
  intros Hd0 Hne Hdec Hb H1' H2' H3'. split.
  - unfold loadWorkflowStateOnce. rewrite Hd0. destruct d0; [done|]. by rewrite Hdec, Hb.
  - eexists. split; [by apply fresh_tombstone_request|]. simpl. split.
    + rewrite !lookup_insert_ne by done. by rewrite lookup_insert_eq.
    + by rewrite lookup_insert_eq.
Qed.

(** ** Events injected without being counted *)

Lemma load_entries_missing {A} `{Codec A} p m bulk (xs : list A) :
  (∀ i x, xs !! i = Some x → ∃ d, m !! entry_key p i = Some d ∧ Unmarshal d = Some x) →
  m !! entry_key p (length xs) = None →
  (∀ i, i ≤ length xs → sr_Data (entry bulk (entry_key p i)) = m !! entry_key p i) →
  ∀ ys k, drop k xs = ys → k + length ys = length xs →
  ∃ l, load_entries bulk p (N.of_nat k) (S (length ys)) = @MissingEntry A (entry_key p (length xs)) l.
Proof.
  intros Hx Hn Hb. induction ys as [|y ys IH]; intros k Hk Hl; simpl in *.
  - fold (entry_key p k). rewrite Hb by lia. replace k with (length xs) by lia. rewrite Hn. by eexists.
  - assert (xs !! k = Some y) as Hy by by rewrite <-(Nat.add_0_r k), <-lookup_drop, Hk.
    destruct (Hx k y Hy) as (d & Hd & Hu). fold (entry_key p k). rewrite Hb by lia. rewrite Hd, Hu.
    destruct (IH (S k)) as (l & Hll).
    { rewrite <-Nat.add_1_r, <-drop_drop, Hk. done. } { lia. }
    replace (N.of_nat k + 1)%N with (N.of_nat (S k)) by lia. rewrite Hll. by eexists.
Qed.

(** A state saved with an event that [inject] put into the inbox and that is
    not a fired timer. *)
Section uncounted.
Context (s : State) (m : gmap string string) (e : HistoryEvent) (rs : RuntimeState) (actorID : string) (req : TransactionalRequest).
Context (Hsync : synced s m) (Hadded : addedCount (Inbox s) = 0).
Context (Hremoved : removedCount (Inbox s) ≤ length (persistableInbox s)) (He : IsTimerFired e = false).
Let s' := ApplyRuntimeStateChanges rs (inject e s).
Let m' := apply_ops (rq_Operations req) m.
Context (Hreq : GetSaveRequest actorID s' = Ok req).

Lemma uncounted_inbox : Inbox s' = Inbox (inject e s) ∧ Generation s' = Generation s.
Proof. unfold s', ApplyRuntimeStateChanges. by destruct (rs_ContinuedAsNew rs). Qed.

Lemma uncounted_persistable : persistableInbox s' = persistableInbox s ++ [e].
Proof.
  unfold persistableInbox. rewrite (proj1 uncounted_inbox). simpl. rewrite persistable_app. f_equal.
  unfold persistable. by rewrite filter_cons, decide_True.
Qed.

Lemma uncounted_added : added_ok s'.
Proof.
  pose proof (tracks_added_ok _ _ (ApplyRuntimeStateChanges_tracks rs s m (proj1 Hsync))) as [_ A2 A3 A4 A5].
  split; [|by unfold s', ApplyRuntimeStateChanges in *; destruct (rs_ContinuedAsNew rs)..].
  rewrite (proj1 uncounted_inbox). simpl. rewrite Hadded. lia.
Qed.

Lemma uncounted_rows i : m' !! entry_key inboxKeyPrefix i = m !! entry_key inboxKeyPrefix i.
Proof.
  destruct (save_segments_inv _ _ _ uncounted_added Hreq) as (inbox & history & certs & exts & sigs & status & incoming &
    creation & d & Hi & _ & _ & _ & _ & _ & _ & _ & _ & Hseg & Hops).
  unfold m'. rewrite Hops. rewrite (segment_lookup FInbox inbox); [|done|unfold save_segments; set_solver|by apply key_family_entry].
  rewrite (proj1 uncounted_inbox), uncounted_persistable in Hi. simpl in Hi. rewrite Hadded in Hi.
  unfold addStateOperations, entry_operations in Hi. simpl in Hi. injection Hi as <-.
  unfold deletes. rewrite (proj2 (Nat.sub_0_le _ _)) by (rewrite length_app; simpl; lia). done.
Qed.

Lemma uncounted_metadata : (m' !! MetadataKey) ≫= Unmarshal = Some (state_metadata s').
Proof.
  destruct (save_segments_inv _ _ _ uncounted_added Hreq) as (inbox & history & certs & exts & sigs & status & incoming &
    creation & d & _ & _ & _ & _ & _ & _ & _ & _ & Hm & Hseg & Hops).
  unfold m'. rewrite Hops. rewrite (segment_lookup FMetadata (metadata_operations d (metadataETag s')));
    [|done|unfold save_segments; set_solver|done].
  simpl. rewrite lookup_insert_eq. simpl. by apply unmarshal_marshal.
Qed.

Lemma uncounted_load meta getBulk bulk opts (keys := bulk_keys (state_metadata s')) :
  Generation s ≠ 0%N → within_bounds (state_metadata s') = true →
  reads_row m' MetadataKey meta → getBulk keys = Some bulk → reads_bulk m' keys bulk →
  loadWorkflowStateOnce (Some meta) getBulk opts =
    (None, Some (ErrTransient (entry_key inboxKeyPrefix (length (persistableInbox s))) (sr_ETag meta))).
Proof.
  intros Hg Hb Hmeta Hget Hbulk. unfold loadWorkflowStateOnce. rewrite (reads_row_data _ _ _ Hmeta).
  pose proof uncounted_metadata as Hm. destruct (m' !! MetadataKey) as [[|a d]|]; simpl in Hm; [|clear Hmeta|done].
  { rewrite unmarshal_empty_metadata in Hm. destruct Hg. rewrite <-(proj2 uncounted_inbox).
    exact (eq_sym (f_equal (from_option md_Generation 0%N) Hm)). }
  unfold decode_metadata. rewrite Hm, Hb. fold keys. rewrite Hget. cbn [negb].
  assert (N.to_nat (InboxLength (state_metadata s')) = S (length (persistableInbox s))) as Hlen.
  { unfold state_metadata. simpl. rewrite uncounted_persistable, length_app. simpl. lia. }
  rewrite Hlen.
  destruct (load_entries_missing inboxKeyPrefix m' bulk (persistableInbox s)) with (ys := persistableInbox s) (k := 0)
    as (l & Hl); try done.
  - intros i x Hx. rewrite uncounted_rows. apply (tt_rows _ _ _ _ _ _ (tr_inbox _ _ (proj1 Hsync)) i x); [|done].
    rewrite Hadded. apply lookup_lt_Some in Hx. lia.
  - rewrite uncounted_rows. destruct (m !! _) eqn:Hrow; [|done].
    pose proof (tt_stale _ _ _ _ _ _ (tr_inbox _ _ (proj1 Hsync)) _ (ex_intro _ _ Hrow)). lia.
  - intros i Hi. apply reads_row_data, Hbulk. unfold keys, bulk_keys, multi_keys.
    apply elem_of_app. right. apply elem_of_app. left. apply list_elem_of_fmap. exists i. split; [done|].
    apply elem_of_seq. lia.
  - change (N.of_nat 0) with 0%N in Hl. by rewrite Hl.
Qed.

End uncounted.

(** C40: An instance that can no longer be loaded (a defect). If a recursive terminate
    reaches a workflow whose turn stalls, the event that injectCascadeTerminateEvent puts
    into the inbox is counted by the metadata row of the save but has no row, and every
    later load fails with a missing inbox key. *)
Theorem cascade_stall_unloadable s s1 s' m e AddEvent lastStalled stalled description rs actorID req meta getBulk bulk opts
    (m' := apply_ops (rq_Operations req) m) (keys := bulk_keys (state_metadata s')) :
  synced s m → addedCount (Inbox s) = 0 → removedCount (Inbox s) ≤ length (persistableInbox s) →
  IsExecutionTerminated e = true →
  injectCascadeTerminateEvent reminderCascadeTerminate false (Some e) s = InjectContinue s1 →
  stallWorkflow AddEvent lastStalled stalled description rs s1 = Some s' →
  GetSaveRequest actorID s' = Ok req → Generation s ≠ 0%N → within_bounds (state_metadata s') = true →
  reads_row m' MetadataKey meta → getBulk keys = Some bulk → reads_bulk m' keys bulk →
  LoadWorkflowState (λ _, loadWorkflowStateOnce (Some meta) getBulk opts) (λ _, false) =
    Some (None, Some (ErrMissing (entry_key inboxKeyPrefix (length (persistableInbox s))))).
Proof.
  intros Hs Ha Hrm He Hi Hst Hr Hg Hb Hmeta Hget Hbulk.
  unfold injectCascadeTerminateEvent in Hi. rewrite bool_decide_eq_true_2, He in Hi by done. injection Hi as <-.
  apply terminated_not_timer in He. unfold stallWorkflow in Hst. destruct (_ || _); [|done]. injection Hst as <-.
  set (rs' := mkRuntimeState _ _ _) in *.
  assert (∃ etag, sr_ETag meta = Some etag) as [etag Het].
  { pose proof (uncounted_metadata s m e rs' actorID req Hs Ha Hrm He Hr) as Hm.
    unfold reads_row in Hmeta. fold m' in Hm. destruct (m' !! MetadataKey); [by destruct Hmeta|done]. }
  unfold LoadWorkflowState, loadStateMaxAttempts.
  rewrite !load_loop_step, (uncounted_load s m e rs' actorID req Hs Ha Hrm He Hr meta getBulk bulk opts Hg Hb Hmeta Hget Hbulk).
  simpl. rewrite Het. simpl. by rewrite bool_decide_eq_true_2.
Qed.

End props.
