(* ===== verification/WorkflowHosts.v ===== *)
(** * Workflow state: hosts that share a store
      (pkg/actors/targets/workflow/orchestrator: state.go, signing/sign.go)

    How the orchestrator signs, saves, confirms and drops its cached state, and
    the hosts of one workflow against one store.  Each host keeps the version
    token of the metadata row; a save is refused when the row has another one.
    The store is third-party: [StateStore] with the laws of a transactional
    store with version tokens. *)

From Stdlib Require Import Ascii.
From S2P Require Import Prelude GoStrings WorkflowState WorkflowSync WorkflowChanges WorkflowLoad WorkflowProps.

(** ** The store *)

Class StateStore := {
  store : Type;
  rows : store → gmap string (string * string);
  tokens : store → gset string;
  Multi : store → list TransactionalOperation → option store }.

Definition data_of `{StateStore} (st : store) : gmap string string := fst <$> rows st.
Definition etag_of `{StateStore} (st : store) (k : string) : option string := snd <$> rows st !! k.

(** A transaction applies its operations in order, gives each row it writes a
    token that was never used, and fails when it names another token than the
    row has. *)
Class StateStoreLaws `{StateStore} := {
  Multi_data st ops st' : Multi st ops = Some st' → data_of st' = apply_ops ops (data_of st);
  Multi_fresh st ops st' k d etag : Multi st ops = Some st' → Upsert k d etag ∈ ops →
    ∀ e, etag_of st' k = Some e → e ∉ tokens st;
  Multi_match st ops st' k d e : Multi st ops = Some st' → Upsert k d (Some e) ∈ ops → etag_of st k = Some e;
  Multi_tokens st ops st' : Multi st ops = Some st' → tokens st ⊆ tokens st';
  tokens_current st k e : etag_of st k = Some e → e ∈ tokens st }.

Section store_reads.
Context `{StateStore}.

Definition Get (st : store) (k : string) : StateResponse :=
  match rows st !! k with Some (d, e) => mkStateResponse (Some d) (Some e) | None => no_entry end.

Definition GetBulk (st : store) (keys : list string) : option (gmap string StateResponse) :=
  Some (list_to_map ((λ k, (k, Get st k)) <$> keys)).

End store_reads.

(** ** Signing the new events (signing/sign.go) *)

Class EventSigning `{HistorySigning} := {
  MarshalEvent : HistoryEvent → option string;
  Sign : Signer → list string → N → option string → list SigningCertificate →
         option (option SigningCertificate * HistorySignature * string) }.

(** The deterministic encoding decodes to the event, and the raw signature is
    the encoding of the signature. *)
Class EventSigningLaws `{EventSigning} := {
  MarshalEvent_decodes e d : MarshalEvent e = Some d → Unmarshal d = Some e;
  Sign_raw sgn evs i prev certs cert sig raw : Sign sgn evs i prev certs = Some (cert, sig, raw) → raw_of sig raw }.

Section orchestrator.
Context `{EventSigning}.
Implicit Types (s : State).

Inductive sign_result := Signed (s : State) | SignError.

Definition SignNewEvents (signer : option Signer) s : sign_result :=
  match signer with
  | None => Signed s
  | Some sgn =>
      let n := addedCount (History s) in
      let len := length (items (History s)) in
      if n =? 0 then Signed s
      else if len <? n then SignError
      else
        let startIndex := len - n in
        if (length (RawSignatures s) =? 0) && negb (startIndex =? 0) then SignError
        else
          match mapM MarshalEvent (drop startIndex (items (History s))) with
          | None => SignError
          | Some raws =>
              let s := SetMarshaledNewHistory raws s in
              match Sign sgn raws (N.of_nat startIndex) (list.last (RawSignatures s)) (items (SigningCertificates s)) with
              | None => SignError
              | Some (cert, sig, raw) =>
                  let s := match cert with Some c => AddSigningCertificate c s | None => s end in
                  Signed (AddSignature sig raw s)
              end
          end
  end.

(** ** Saving (orchestrator/state.go) *)

(** A read of the metadata row: an error, no response or a response. *)
Inductive read := ReadError | ReadNil | ReadRow (r : StateResponse).

Inductive save_error := SaveRequestError | SaveCommitError | SaveUnconfirmed | SaveInstanceNotFound | SaveSignError | SavePanic.

(** The cached state after a save, its error, and whether the actor is deactivated. *)
Record saved := mkSaved { sv_cached : option State; sv_error : option save_error; sv_deactivated : bool }.

(** [commit] is the outcome of the transaction, [refresh] and [again] the reads
    of the metadata row after it. *)
Definition saveInternalState (actorID : string) (commit : TransactionalRequest → bool) (refresh again : read) s : saved :=
  match GetSaveRequest actorID s with
  | Err _ => mkSaved None (Some SaveRequestError) false
  | Panic => mkSaved None (Some SavePanic) false
  | Ok req =>
      if negb (commit req) then mkSaved None (Some SaveCommitError) false
      else
        let s := ResetChangeTracking s in
        match refresh with
        | ReadError => mkSaved None None false
        | ReadNil => mkSaved (Some (SetMetadataETag None s)) None false
        | ReadRow r =>
            if (data_length (sr_Data r) =? 0) && negb (metadataETagSeen s)
            then mkSaved (Some (SetMetadataETag None s)) None false
            else if data_length (sr_Data r) =? 0 then
              match again with
              | ReadError => mkSaved None (Some SaveUnconfirmed) false
              | ReadNil => mkSaved None (Some SavePanic) false
              | ReadRow a =>
                  if 0 <? data_length (sr_Data a) then mkSaved None None false
                  else mkSaved None (Some SaveInstanceNotFound) true
              end
            else mkSaved (Some (SetMetadataETag (sr_ETag r) s)) None false
        end
  end.

Definition signAndSaveState (signer : option Signer) (actorID : string) (commit : TransactionalRequest → bool) (refresh again : read) s : saved :=
  match SignNewEvents signer s with
  | SignError => mkSaved None (Some SaveSignError) false
  | Signed s => saveInternalState actorID commit refresh again s
  end.

(** *** Confirming a cached state *)

(** The metadata row has the generation and history length, and the same token
    where both have one. *)
Definition rowMatches (res : StateResponse) (etag : option string) (generation historyLength : N) : option BackendWorkflowStateMetadata :=
  let differ := match sr_ETag res, etag with Some c, Some e => negb (bool_decide (c = e)) | _, _ => false end in
  if differ then None
  else match Unmarshal (default EmptyString (sr_Data res)) with
       | None => None
       | Some meta =>
           if (md_Generation meta =? generation)%N && (HistoryLength meta =? historyLength)%N then Some meta else None
       end.

Definition rowShowsEmptyInbox (res : StateResponse) (etag : option string) (generation historyLength : N) : bool :=
  if (data_length (sr_Data res) =? 0) || bool_decide (sr_ETag res = None) then false
  else match rowMatches res etag generation historyLength with
       | Some meta => (InboxLength meta =? 0)%N
       | None => false
       end.

Inductive confirmation := Confirmed | NotFound | Stale | ConfirmError.

Definition confirmCachedState (r : read) s : confirmation :=
  match r with
  | ReadError => ConfirmError
  | ReadNil => NotFound
  | ReadRow res =>
      if data_length (sr_Data res) =? 0 then NotFound
      else match rowMatches res (metadataETag s) (Generation s) (N.of_nat (length (items (History s)))) with
           | Some _ => Confirmed
           | None => Stale
           end
  end.

Definition cachedInboxCurrent (r : read) s : option bool :=
  match metadataETag s with
  | None => Some false
  | Some _ =>
      match r with
      | ReadError => None
      | ReadNil => Some false
      | ReadRow res => Some (rowShowsEmptyInbox res (metadataETag s) (Generation s) (N.of_nat (length (items (History s)))))
      end
  end.

(** A completed instance whose history was released, as last seen whole. *)
Record settledTerminal := mkSettled { st_etag : string; st_generation : N; st_historyLength : N; st_firstRow : string }.

Definition settledUnchanged (settled : settledTerminal) (res : option (gmap string StateResponse)) : option bool :=
  match res with
  | None => None
  | Some res =>
      if row_present (entry res ParentNotifyKey) then Some false
      else if negb (bool_decide (default EmptyString (sr_Data (entry res (HistoryKey 0))) = st_firstRow settled)) then Some false
      else Some (rowShowsEmptyInbox (entry res MetadataKey) (Some (st_etag settled)) (st_generation settled) (st_historyLength settled))
  end.

(** *** Signing keeps the rows tracked *)

Context `{!EventSigningLaws} `{!ProtosLaws}.

Lemma mapM_decodes (es : list HistoryEvent) raws :
  mapM MarshalEvent es = Some raws → Forall2 (λ e d, Unmarshal d = Some e) es raws.
Proof.
  intros Hm. apply mapM_Some in Hm. eapply list.Forall2_impl; [exact Hm|]. intros e d. apply MarshalEvent_decodes.
Qed.

Lemma SignNewEvents_ok signer s s' m :
  synced s m → SignNewEvents signer s = Signed s' → tracks s' m ∧ marshaled_ok s'.
Proof.
  intros Hs. pose proof (synced_marshaled_ok _ _ Hs) as Hm0. destruct Hs as [Ht Hmn]. unfold SignNewEvents.
  destruct signer as [sgn|]; [|by intros [= <-]]. destruct (_ =? 0); [by intros [= <-]|].
  destruct (_ <? _) eqn:Hlt; [done|]. apply Nat.ltb_ge in Hlt. destruct (_ && _); [done|].
  destruct (mapM _ _) as [raws|] eqn:Hm; [|done]. apply mapM_decodes in Hm.
  destruct (Sign _ _ _ _ _) as [[[cert sig] raw]|] eqn:Hsg; [|done]. apply Sign_raw in Hsg. intros [= <-].
  assert (tracks (SetMarshaledNewHistory raws s) m) as Ht' by (destruct Ht; split; assumption).
  assert (marshaled_ok (SetMarshaledNewHistory raws s)) as Hok.
  { intros j d Hd. simpl in *. destruct (Forall2_lookup_r _ _ _ _ _ Hm Hd) as (e & He & Hu).
    exists e. split; [|done]. by rewrite lookup_drop in He. }
  destruct cert as [c|]; split; try (by apply AddSignature_tracks; [|apply AddSigningCertificate_tracks]);
    try (by apply AddSignature_tracks); exact Hok.
Qed.

End orchestrator.
