(* ===== verification/WorkflowSystem.v ===== *)
(** * Workflow state: no host overwrites what another host saved

    Several hosts hold a workflow's state in memory at the same time while its
    actor moves between them.  A host reads the metadata row and the entry rows
    separately, changes its state, and saves it with the token it read, or marks
    it as tampered with.  In every reachable state of the system the rows
    represent the last saved content, and a host whose token is current tracks
    them.

    Left out of the steps, because the rows are then no longer those of a state:
    the save of a turn that keeps an injected termination in its inbox
    ([cascade_stall_unloadable]), the tombstone of an instance of which nothing
    could be loaded, which is written from scratch and replaces the history
    ([tombstone_replaces_history]), and a token that is read back after another
    host's save ([refresh_race_loses_event]). *)

From Stdlib Require Import Ascii.
From S2P Require Import Prelude GoStrings WorkflowState WorkflowSync WorkflowChanges WorkflowLoad WorkflowProps WorkflowHosts.

Section system.
Context `{EventSigning} `{!EventSigningLaws} `{!ProtosLaws} `{StateStore} `{!StateStoreLaws}.
Context (actorID : string) (opts : Options).
Implicit Types (st : store) (s : State) (h : nat).

(** ** Hosts and steps *)

(** Between two operations with its cached state, or between the two reads of
    a load.  [uncounted] says that the inbox of the cached state holds an
    injected termination. *)
Inductive host := Idle (cached : option State) (uncounted : bool) | Reading (meta : StateResponse).

Record system := mkSystem { sy_store : store; sy_hosts : gmap nat host }.

Definition host_of (sys : system) h : host := default (Idle None false) (sy_hosts sys !! h).
Definition set_host h x (sys : system) : system := mkSystem (sy_store sys) (<[h := x]> (sy_hosts sys)).
Definition set_store st (sys : system) : system := mkSystem st (sy_hosts sys).

(** The transaction that saves [s1] commits as [st'].  A changed custom status
    comes with a change of the history; an instance without a token is being
    created: its host is the only one. *)
Record commits st s1 (st' : store) : Prop := {
  cm_settled : status_settled s1;
  cm_generation : Generation s1 ≠ 0%N;
  cm_create : metadataETag s1 = None → data_of st = ∅;
  cm_request : ∃ req, GetSaveRequest actorID s1 = Ok req ∧ Multi st (rq_Operations req) = Some st' }.

(** The state cached by a save whose token is read back before another write. *)
Definition cached_after s1 (st' : store) : option State :=
  sv_cached (saveInternalState actorID (λ _, true) (ReadRow (Get st' MetadataKey)) ReadError s1).

(** A host has a state: in memory, or from a load that it just made and that may
    have returned an error with it. *)
Definition holds (sys : system) h s : Prop :=
  host_of sys h = Idle (Some s) false ∨
  ∃ meta err, host_of sys h = Reading meta ∧
    loadWorkflowStateOnce (Some meta) (GetBulk (sy_store sys)) opts = (Some s, err).

(** Host [h] saves [s1], the store is then [st'] and the host caches [cached]:
    a save signs the new events, a tombstone adds its marker unsigned. *)
Inductive saves (sys : system) h : State → store → option State → Prop :=
  | saves_signed s s1 st' : host_of sys h = Idle (Some s) false → SignNewEvents (o_Signer opts) s = Signed s1 →
      commits (sy_store sys) s1 st' → saves sys h s1 st' (cached_after s1 st')
  | saves_tombstone s now cause st' : holds sys h s → hasTamperMarker s = false →
      commits (sy_store sys) (AddToHistory (tamper_marker now cause) s) st' →
      saves sys h (AddToHistory (tamper_marker now cause) s) st'
        (MarkAsTamperFailed now actorID opts (Some s) cause (λ _, true) (Some (Get st' MetadataKey))).

Inductive step (sys : system) : system → Prop :=
  | step_change h s u c : host_of sys h = Idle (Some s) u → change_valid c →
      step sys (set_host h (Idle (Some (apply_change c s)) (leaves_uncounted u c)) sys)
  | step_read h : host_of sys h = Idle None false →
      step sys (set_host h (Reading (Get (sy_store sys) MetadataKey)) sys)
  | step_load h meta s : host_of sys h = Reading meta →
      loadWorkflowStateOnce (Some meta) (GetBulk (sy_store sys)) opts = (Some s, None) →
      step sys (set_host h (Idle (Some s) false) sys)
  | step_create h meta : host_of sys h = Reading meta →
      loadWorkflowStateOnce (Some meta) (GetBulk (sy_store sys)) opts = (None, None) →
      step sys (set_host h (Idle (Some (NewState opts)) false) sys)
  | step_drop h : step sys (set_host h (Idle None false) sys)
  | step_save h s1 st' cached : saves sys h s1 st' cached →
      step sys (set_store st' (set_host h (Idle cached false) sys))
  | step_purge h s u st' : host_of sys h = Idle (Some s) u → purgeable s →
      metadataETag s = etag_of (sy_store sys) MetadataKey → is_Some (metadataETag s) →
      Multi (sy_store sys) (rq_Operations (GetPurgeRequest actorID s)) = Some st' →
      step sys (set_store st' (set_host h (Idle None false) sys)).

Definition initial (sys : system) : Prop := data_of (sy_store sys) = ∅ ∧ sy_hosts sys = ∅.

Inductive reachable : system → Prop :=
  | reach_init sys : initial sys → reachable sys
  | reach_step sys sys' : reachable sys → step sys sys' → reachable sys'.

(** ** The invariant *)

Definition content_ok (c : content) : Prop :=
  exts_ok (c_Exts c) ∧ distinct_digests (c_Exts c) ∧ c_Generation c ≠ 0%N.

Definition store_inv st : Prop := data_of st = ∅ ∨ ∃ c, represents (data_of st) c ∧ content_ok c.

Definition in_step (u : bool) st s : Prop := synced_unless u s (data_of st) ∧ certs_ok s.

Definition host_inv st (x : host) : Prop :=
  match x with
  | Idle None _ => True
  | Idle (Some s) u =>
      match metadataETag s with
      | Some e => e ∈ tokens st ∧ (etag_of st MetadataKey = Some e → in_step u st s)
      | None => synced_unless u s ∅ ∧ certs_ok s
      end
  | Reading meta =>
      match sr_ETag meta with
      | Some e => e ∈ tokens st ∧ (etag_of st MetadataKey = Some e → sr_Data meta = data_of st !! MetadataKey)
      | None => meta = no_entry
      end
  end.

Definition sys_inv (sys : system) : Prop :=
  store_inv (sy_store sys) ∧ ∀ h, host_inv (sy_store sys) (host_of sys h).

(** *** Reads *)

Lemma Get_reads st k : reads_row (data_of st) k (Get st k).
Proof.
  unfold reads_row, Get, data_of. rewrite lookup_fmap. destruct (rows st !! k) as [[d e]|]; simpl; [by split|done].
Qed.

Lemma Get_etag st k : sr_ETag (Get st k) = etag_of st k.
Proof. unfold Get, etag_of. by destruct (rows st !! k) as [[d e]|]. Qed.

Lemma Get_data st k : sr_Data (Get st k) = data_of st !! k.
Proof. apply reads_row_data, Get_reads. Qed.

Lemma GetBulk_reads st keys bulk : GetBulk st keys = Some bulk → reads_bulk (data_of st) keys bulk.
Proof.
  intros [= <-] k Hk. unfold entry.
  assert ((list_to_map ((λ k, (k, Get st k)) <$> keys) : gmap string StateResponse) !! k = Some (Get st k)) as ->.
  { induction keys as [|k' keys IH]; [by apply elem_of_nil in Hk|]. simpl.
    destruct (decide (k = k')) as [->|Hne]; [by rewrite lookup_insert_eq|].
    rewrite lookup_insert_ne by done. apply IH. set_solver. }
  apply Get_reads.
Qed.

Lemma etag_data st k : is_Some (etag_of st k) ↔ is_Some (data_of st !! k).
Proof. unfold etag_of, data_of. rewrite lookup_fmap. by destruct (rows st !! k). Qed.

(** A load whose metadata row is current gives a state in step with the store. *)
Lemma load_in_step st meta c s err :
  represents (data_of st) c → content_ok c → reads_row (data_of st) MetadataKey meta →
  loadWorkflowStateOnce (Some meta) (GetBulk st) opts = (Some s, err) →
  in_step false st s ∧ metadataETag s = sr_ETag meta.
Proof.
  intros Hr (Hx & Hd & Hg) Hm Hl. pose proof (metadata_nonempty _ _ Hr Hg) as Hne.
  assert (content_small c) as Hsm.
  { destruct (metadata_row _ _ Hr Hne) as (a & d & Hmd & Hdec).
    unfold loadWorkflowStateOnce in Hl. rewrite (reads_row_data _ _ _ Hm), Hmd, Hdec in Hl.
    unfold content_small. destruct (within_bounds _); [done|]. done. }
  destruct (load_represents (data_of st) c meta (GetBulk st) _ opts Hr Hne Hsm Hx Hm eq_refl (GetBulk_reads st _ _ eq_refl))
    as (s' & Hs' & Hc & Hsy & He & _ & Hidx).
  rewrite Hs' in Hl. unfold verdict in Hl. injection Hl as -> _. split; [|done]. split; [done|].
  assert (items (ExternalSigningCertificates s) = c_Exts c) as Hexts by (rewrite <-Hc; done).
  split; [by rewrite Hexts|]. unfold index_ok. rewrite Hidx, Hexts. destruct (c_Exts c) eqn:Hce; [done|].
  rewrite <-Hce. apply index_certs_exact. by rewrite Hce.
Qed.

(** *** Commits *)

Lemma signed_etag s s1 : SignNewEvents (o_Signer opts) s = Signed s1 → metadataETag s1 = metadataETag s.
Proof.
  unfold SignNewEvents. intros Hs. repeat case_match; by simplify_eq.
Qed.

Lemma signed_certs_ok s s1 : SignNewEvents (o_Signer opts) s = Signed s1 → certs_ok s → certs_ok s1.
Proof.
  unfold SignNewEvents. intros Hs. repeat case_match; simplify_eq; try done; by apply certs_ok_same.
Qed.

Lemma save_metadata_op s1 req : GetSaveRequest actorID s1 = Ok req →
  ∃ d, Upsert MetadataKey d (metadataETag s1) ∈ rq_Operations req.
Proof.
  intros Hr. destruct (GetSaveRequest_inv _ _ _ Hr) as (l1 & l2 & l3 & l4 & l5 & l6 & l7 & l8 & d & _ & _ & _ & _ & _ & _ & _ & _ & _ & _ & ->).
  exists d. simpl. rewrite !elem_of_app. unfold metadata_operations. set_solver.
Qed.

(** A host whose save commits was in step with the store. *)
Lemma commit_in_step st s s1 st' :
  host_inv st (Idle (Some s) false) → metadataETag s1 = metadataETag s → commits st s1 st' → in_step false st s.
Proof.
  intros Hi He [_ _ Hcr (req & Hr & Hm)]. destruct (save_metadata_op _ _ Hr) as (d & Hd).
  simpl in Hi. rewrite <-He in Hi. destruct (metadataETag s1) as [e|].
  - destruct Hi as [_ Hi]. apply Hi. by apply (Multi_match _ _ _ _ _ _ Hm Hd).
  - unfold in_step. by rewrite Hcr.
Qed.

(** What a save writes tracks the rows it replaces. *)
Definition savable st s1 : Prop := tracks s1 (data_of st) ∧ marshaled_ok s1 ∧ certs_ok s1.

Lemma commit_represents st s1 st' :
  savable st s1 → commits st s1 st' → represents (data_of st') (content_of s1).
Proof.
  intros (Ht & Hm & _) [Hst _ _ (req & Hr & Hmu)]. rewrite (Multi_data _ _ _ Hmu). by apply (save_represents actorID).
Qed.

Lemma commit_token st s1 st' :
  savable st s1 → commits st s1 st' →
  ∃ e d, etag_of st' MetadataKey = Some e ∧ data_of st' !! MetadataKey = Some d ∧ d ≠ EmptyString ∧ e ∉ tokens st.
Proof.
  intros Hs Hc. pose proof (commit_represents _ _ _ Hs Hc) as Hrep. destruct Hc as [_ Hg _ (req & Hr & Hmu)].
  destruct (metadata_row _ _ Hrep (metadata_nonempty _ _ Hrep Hg)) as (a & d & Hd & _).
  destruct (proj2 (etag_data st' MetadataKey) (ex_intro _ _ Hd)) as [e He].
  exists e, (String a d). split_and!; try done.
  destruct (save_metadata_op _ _ Hr) as (d' & Hd'). by apply (Multi_fresh _ _ _ _ _ _ Hmu Hd').
Qed.

(** The saved state is in step with the store, under the new token. *)
Lemma commit_synced st s1 st' e :
  savable st s1 → commits st s1 st' → in_step false st' (SetMetadataETag (Some e) (ResetChangeTracking s1)).
Proof.
  intros (Ht & Hm & Hk) [Hst _ _ (req & Hr & Hmu)].
  pose proof (saved_synced actorID s1 req (data_of st) Ht Hm Hst Hr) as Hsy. rewrite <-(Multi_data _ _ _ Hmu) in Hsy.
  split; [exact (SetMetadataETag_synced (Some e) _ _ Hsy)|].
  exact (SetMetadataETag_certs_ok (Some e) _ (ResetChangeTracking_certs_ok _ Hk)).
Qed.

Lemma cached_after_eq st s1 st' :
  savable st s1 → commits st s1 st' →
  cached_after s1 st' = Some (SetMetadataETag (etag_of st' MetadataKey) (ResetChangeTracking s1)).
Proof.
  intros Hs Hc. destruct (commit_token _ _ _ Hs Hc) as (e & d & He & Hd & Hne & _).
  destruct Hc as [_ _ _ (req & Hr & _)]. unfold cached_after, saveInternalState.
  rewrite Hr, Get_data, Hd, Get_etag, He. by destruct d.
Qed.

Lemma tombstone_cached_eq st s now cause st' :
  hasTamperMarker s = false → commits st (AddToHistory (tamper_marker now cause) s) st' →
  MarkAsTamperFailed now actorID opts (Some s) cause (λ _, true) (Some (Get st' MetadataKey)) =
    Some (SetMetadataETag (etag_of st' MetadataKey) (ResetChangeTracking (AddToHistory (tamper_marker now cause) s))).
Proof.
  intros Ht [_ _ _ (req & Hr & _)]. unfold MarkAsTamperFailed. cbn [default from_option]. unfold id. rewrite Ht.
  change (NewExecutionCompleted now _) with (tamper_marker now cause). by rewrite Hr, Get_etag.
Qed.

(** *** Every step keeps the invariant *)

Lemma host_of_set h x sys h' : host_of (set_host h x sys) h' = if decide (h' = h) then x else host_of sys h'.
Proof. unfold host_of; simpl. case_decide; subst; [by rewrite lookup_insert_eq|by rewrite lookup_insert_ne]. Qed.

(** Tokens of other hosts are outdated by a write of the metadata row. *)
Lemma host_inv_written st st' x :
  tokens st ⊆ tokens st' → (∀ e, e ∈ tokens st → etag_of st' MetadataKey ≠ Some e) →
  host_inv st x → host_inv st' x.
Proof.
  intros Hsub Hne. destruct x as [[s|] u|meta]; simpl; [|done|].
  - destruct (metadataETag s) as [e|]; [|done]. intros [He _]. split; [set_solver|].
    intros Hcur. by destruct (Hne e).
  - destruct (sr_ETag meta) as [e|]; [|done]. intros [He _]. split; [set_solver|]. intros Hcur. by destruct (Hne e).
Qed.

Lemma sys_inv_host sys h x : sys_inv sys → host_inv (sy_store sys) x → sys_inv (set_host h x sys).
Proof.
  intros [Hs Hh] Hx. split; [done|]. intros h'. rewrite host_of_set. by case_decide.
Qed.

Lemma sys_inv_write sys h x st' :
  sys_inv sys → store_inv st' → tokens (sy_store sys) ⊆ tokens st' →
  (∀ e, e ∈ tokens (sy_store sys) → etag_of st' MetadataKey ≠ Some e) → host_inv st' x →
  sys_inv (set_store st' (set_host h x sys)).
Proof.
  intros [Hs Hh] Hst Hsub Hne Hx. split; [done|]. intros h'. simpl.
  change (host_of (set_store st' (set_host h x sys)) h') with (host_of (set_host h x sys) h').
  rewrite host_of_set. case_decide; [done|]. by apply (host_inv_written (sy_store sys)).
Qed.

Lemma change_etag c s : metadataETag (apply_change c s) = metadataETag s.
Proof.
  assert (∀ es s, metadataETag (foldl (λ s e, AddToInbox e s) s es) = metadataETag s) as Hi.
  { induction es as [|e es IH]; intros s'; [done|]. simpl. by rewrite IH. }
  assert (∀ es s, metadataETag (foldl (λ s e, AddToHistory e s) s es) = metadataETag s) as Hh.
  { induction es as [|e es IH]; intros s'; [done|]. simpl. by rewrite IH. }
  assert (∀ s, metadataETag (Reset s) = metadataETag s) as Hr.
  { intros s'. unfold Reset, reset_creation, reset_notify, reset_incoming.
    destruct (value (IncomingHistory _)); simpl; repeat (destruct (_ || _); simpl); done. }
  destruct c as [|rs| | | | | | | | | |start| | | |]; simpl; try reflexivity.
  - apply Hr.
  - unfold ApplyRuntimeStateChanges. by destruct (rs_ContinuedAsNew rs).
  - unfold AddExternalCert. destruct (negb _); [done|]. by destruct (_ !! _).
  - unfold KeepCreationInput. destruct (es_ParentInstance start); [|done]. by destruct (keepCreationInput s).
  - unfold ClearCreationInput. by destruct (_ || _).
  - unfold FromWorkflowState. simpl. by rewrite Hh, Hi, Hr.
Qed.

Lemma host_inv_change st s u c :
  change_valid c → host_inv st (Idle (Some s) u) → host_inv st (Idle (Some (apply_change c s)) (leaves_uncounted u c)).
Proof.
  intros Hc. simpl. rewrite change_etag. destruct (metadataETag s) as [e|].
  - intros [He Hi]. split; [done|]. intros Hcur. destruct (Hi Hcur) as [Hs Hk].
    split; [apply change_synced; [apply Hc|done]|by apply change_certs_ok].
  - intros [Hs Hk]. split; [apply change_synced; [apply Hc|done]|by apply change_certs_ok].
Qed.

Lemma host_inv_load st meta s err :
  store_inv st → host_inv st (Reading meta) →
  loadWorkflowStateOnce (Some meta) (GetBulk st) opts = (Some s, err) → host_inv st (Idle (Some s) false).
Proof.
  intros Hs Hi Hl. simpl in Hi. pose proof (load_once_etag _ _ _ _ _ Hl) as He.
  pose proof (load_once_row _ _ _ _ _ Hl) as Hrow. simpl. rewrite He.
  destruct (sr_ETag meta) as [e|] eqn:Hme; [|subst; simpl in Hrow; by destruct Hrow].
  destruct Hi as [Ht Hi]. split; [done|]. intros Hcur. specialize (Hi Hcur).
  assert (is_Some (data_of st !! MetadataKey)) as Hd by (apply etag_data; by rewrite Hcur).
  destruct Hs as [Hemp|(c & Hr & Hok)]; [rewrite Hemp in Hd; by destruct Hd|].
  apply (load_in_step st meta c s err Hr Hok); [|done]. unfold reads_row. rewrite <-Hi.
  destruct Hrow as [d Hd']. rewrite Hd'. split; [done|]. by rewrite Hme.
Qed.

(** A save that commits leaves the host with the saved state under its token. *)
Lemma saves_savable sys h s1 st' cached :
  sys_inv sys → saves sys h s1 st' cached →
  savable (sy_store sys) s1 ∧ commits (sy_store sys) s1 st' ∧
  cached = Some (SetMetadataETag (etag_of st' MetadataKey) (ResetChangeTracking s1)).
Proof.
  intros [Hst Hh] [s s2 st2 Hx Hsig Hc|s now cause st2 Hx Hmk Hc]; specialize (Hh h).
  - rewrite Hx in Hh. destruct (commit_in_step _ _ _ _ Hh (signed_etag _ _ Hsig) Hc) as [Hsy Hk].
    assert (savable (sy_store sys) s2) as Hsv.
    { destruct (SignNewEvents_ok _ _ _ _ Hsy Hsig). split_and!; try done. by apply (signed_certs_ok s). }
    split_and!; [done|done|by apply (cached_after_eq (sy_store sys))].
  - assert (host_inv (sy_store sys) (Idle (Some s) false)) as Hi.
    { destruct Hx as [Hx|(meta & err & Hx & Hl)]; rewrite Hx in Hh; [done|]. by apply (host_inv_load _ meta s err). }
    destruct (commit_in_step (sy_store sys) s (AddToHistory (tamper_marker now cause) s) st2 Hi eq_refl Hc) as [Hsy Hk].
    assert (synced (AddToHistory (tamper_marker now cause) s) (data_of (sy_store sys))) as Hs1
      by exact (change_synced false (CAddToHistory _) _ _ I Hsy).
    split_and!; [|done|by apply (tombstone_cached_eq (sy_store sys))].
    split_and!; [apply Hs1|by apply (synced_marshaled_ok _ (data_of (sy_store sys)))|exact Hk].
Qed.

Lemma save_inv sys h s1 st' cached :
  sys_inv sys → saves sys h s1 st' cached → sys_inv (set_store st' (set_host h (Idle cached false) sys)).
Proof.
  intros Hinv Hsv. destruct (saves_savable _ _ _ _ _ Hinv Hsv) as (Hs & Hc & ->).
  destruct (commit_token _ _ _ Hs Hc) as (e & d & He & _ & _ & Hfresh). rewrite He.
  apply sys_inv_write; [done| | | |].
  - right. exists (content_of s1). split; [by apply (commit_represents (sy_store sys))|].
    destruct Hs as (_ & _ & Hk). split_and!; [apply Hk|by apply certs_ok_distinct|apply Hc].
  - destruct Hc as [_ _ _ (req & _ & Hm)]. by apply (Multi_tokens _ _ _ Hm).
  - intros e' He' Heq. congruence.
  - simpl. split; [by apply tokens_current in He|]. intros _. by apply (commit_synced (sy_store sys)).
Qed.

(** A host in step with the store deletes every row with its purge. *)
Lemma purge_in_step u st s st' :
  in_step u st s → purgeable s → Multi st (rq_Operations (GetPurgeRequest actorID s)) = Some st' → data_of st' = ∅.
Proof.
  intros [[Ht _] _] Hp Hm. rewrite (Multi_data _ _ _ Hm). apply workflow_purge_empty; [|done].
  destruct u; [done|by apply tracks_loose].
Qed.

Lemma step_inv sys sys' : sys_inv sys → step sys sys' → sys_inv sys'.
Proof.
  intros Hinv Hst. pose proof Hinv as [Hs Hh].
  destruct Hst as [h s u c Hx Hc|h Hx|h meta s Hx Hl|h meta Hx Hl|h|h s1 st' cached Hsv|h s u st' Hx Hp He Hse Hm].
  - apply sys_inv_host; [done|]. apply host_inv_change; [done|]. specialize (Hh h). by rewrite Hx in Hh.
  - apply sys_inv_host; [done|]. simpl. rewrite Get_etag, Get_data. destruct (etag_of _ _) as [e|] eqn:He.
    + split; [by apply tokens_current in He|done].
    + unfold Get. unfold etag_of in He. by destruct (rows _ !! _).
  - apply sys_inv_host; [done|]. specialize (Hh h). rewrite Hx in Hh. by apply (host_inv_load _ meta s None).
  - apply sys_inv_host; [done|]. simpl. split; [apply NewState_synced|apply NewState_certs_ok].
  - by apply sys_inv_host.
  - by apply (save_inv sys h s1).
  - specialize (Hh h). rewrite Hx in Hh. simpl in Hh. destruct Hse as [e Hse]. rewrite Hse in *.
    destruct Hh as [_ Hh]. pose proof (purge_in_step _ _ _ _ (Hh (eq_sym He)) Hp Hm) as Hemp.
    apply sys_inv_write; try done; [by left|by apply (Multi_tokens _ _ _ Hm)|].
    intros e' _ Heq. assert (is_Some (data_of st' !! MetadataKey)) as [? Hd] by (apply etag_data; by rewrite Heq).
    by rewrite Hemp, lookup_empty in Hd.
Qed.

Lemma hosts_reachable_inv sys : reachable sys → sys_inv sys.
Proof.
  induction 1 as [sys [Hd Hh]|sys sys' _ IH Hs]; [|by apply (step_inv sys)].
  split; [by left|]. intros h. unfold host_of. by rewrite Hh, lookup_empty.
Qed.

(** ** Theorems *)



(** A purge leaves nothing: in every reachable state, a host whose token is current and that
    has no pending removals beyond its slices deletes every row of the instance. *)
Theorem workflow_purge_complete sys h s u st' :
  reachable sys → host_of sys h = Idle (Some s) u → purgeable s →
  metadataETag s = etag_of (sy_store sys) MetadataKey → is_Some (metadataETag s) →
  Multi (sy_store sys) (rq_Operations (GetPurgeRequest actorID s)) = Some st' →
  data_of st' = ∅.
Proof.
  intros Hr Hx Hp He Hse Hm. apply hosts_reachable_inv in Hr as [_ Hh]. specialize (Hh h). rewrite Hx in Hh. simpl in Hh.
  destruct Hse as [e Hse]. rewrite Hse in *. destruct Hh as [_ Hh]. by apply (purge_in_step u (sy_store sys) s); [apply Hh| |].
Qed.

(** A cached state without an injected termination that confirmCachedState confirms tracks
    the rows of the store. *)
Theorem confirmed_state_current sys h s :
  reachable sys → host_of sys h = Idle (Some s) false → is_Some (metadataETag s) →
  confirmCachedState (ReadRow (Get (sy_store sys) MetadataKey)) s = Confirmed →
  synced s (data_of (sy_store sys)).
Proof.
  intros Hr Hx [e He] Hc. apply hosts_reachable_inv in Hr as [_ Hh]. specialize (Hh h). rewrite Hx in Hh. simpl in Hh.
  rewrite He in Hh. destruct Hh as [_ Hh]. apply Hh. clear Hh. unfold confirmCachedState, rowMatches in Hc.
  rewrite Get_etag, Get_data, He in Hc. destruct (_ =? 0) eqn:Hd; [done|].
  destruct (etag_of (sy_store sys) MetadataKey) as [e'|] eqn:He'.
  - destruct (decide (e' = e)) as [->|Hne]; [done|]. by rewrite bool_decide_eq_false_2 in Hc.
  - assert (data_of (sy_store sys) !! MetadataKey = None) as Hn.
    { apply eq_None_not_Some. rewrite <-etag_data, He'. by intros [? ?]. }
    by rewrite Hn in Hd.
Qed.

End system.
