(* ===== verification/WorkflowInstances.v ===== *)
(** * Workflow state: a concrete store and concrete messages

    Instances of the third-party parameters of the workflow files: message
    types with an encoding that meets [ProtosLaws], signatures, and a store
    with version tokens that meets [StateStoreLaws].  The witnesses of the
    theorems are computed with them. *)

From Stdlib Require Import Ascii.
From stdpp Require Import countable infinite.
From S2P Require Import Prelude GoStrings WorkflowState WorkflowSync WorkflowChanges WorkflowLoad WorkflowProps WorkflowHosts WorkflowSystem.

(** ** An encoding of countable types *)

Fixpoint pos_string (p : positive) : string :=
  match p with
  | xH => String "h" EmptyString
  | xO q => String "o" (pos_string q)
  | xI q => String "i" (pos_string q)
  end.

Fixpoint string_pos (s : string) : option positive :=
  match s with
  | String "h" EmptyString => Some xH
  | String "o" s' => xO <$> string_pos s'
  | String "i" s' => xI <$> string_pos s'
  | _ => None
  end.

Lemma string_pos_string p : string_pos (pos_string p) = Some p.
Proof. induction p as [q IH|q IH|]; simpl; [by rewrite IH..|done]. Qed.

Definition countable_codec (A : Type) `{Countable A} : Codec A :=
  {| Marshal x := Some (pos_string (encode x)); Unmarshal s := string_pos s ≫= decode |}.

Lemma countable_codec_law `{Countable A} (x : A) d :
  Marshal (Codec := countable_codec A) x = Some d → Unmarshal (Codec := countable_codec A) d = Some x.
Proof. simpl. intros [= <-]. rewrite string_pos_string. simpl. by rewrite decode_encode. Qed.

(** ** Messages *)

#[export] Instance ParentInstanceInfo_eq_dec : EqDecision ParentInstanceInfo.
Proof. solve_decision. Defined.
#[export] Instance ParentInstanceInfo_countable : Countable ParentInstanceInfo.
Proof.
  apply (inj_countable' (λ p, (pi_InstanceId p, pi_ExecutionId p)) (λ '(a, b), mkParentInstanceInfo a b)). by intros [].
Defined.

#[export] Instance ExecutionStartedEvent_eq_dec : EqDecision ExecutionStartedEvent.
Proof. solve_decision. Defined.
#[export] Instance ExecutionStartedEvent_countable : Countable ExecutionStartedEvent.
Proof.
  apply (inj_countable' (λ e, (es_Input e, es_ParentInstance e)) (λ '(a, b), mkExecutionStarted a b)). by intros [].
Defined.

#[export] Instance TaskFailureDetails_eq_dec : EqDecision TaskFailureDetails.
Proof. solve_decision. Defined.
#[export] Instance TaskFailureDetails_countable : Countable TaskFailureDetails.
Proof.
  apply (inj_countable' (λ e, (fd_ErrorType e, fd_ErrorMessage e)) (λ '(a, b), mkFailureDetails a b)). by intros [].
Defined.

#[export] Instance OrchestrationStatus_countable : Countable OrchestrationStatus.
Proof.
  apply (inj_countable' (λ e, match e with STATUS_FAILED => None | STATUS_OTHER n => Some n end)
    (λ o, match o with None => STATUS_FAILED | Some n => STATUS_OTHER n end)). by intros [].
Defined.

#[export] Instance ExecutionCompletedEvent_eq_dec : EqDecision ExecutionCompletedEvent.
Proof. solve_decision. Defined.
#[export] Instance ExecutionCompletedEvent_countable : Countable ExecutionCompletedEvent.
Proof.
  apply (inj_countable' (λ e, (ec_WorkflowStatus e, ec_FailureDetails e)) (λ '(a, b), mkExecutionCompleted a b)). by intros [].
Defined.

#[export] Instance ExternalSigningCertificate_eq_dec : EqDecision ExternalSigningCertificate.
Proof. solve_decision. Defined.
#[export] Instance ExternalSigningCertificate_countable : Countable ExternalSigningCertificate.
Proof.
  apply (inj_countable' (λ e, (ext_Digest e, ext_Certificate e)) (λ '(a, b), mkExternalCert a b)). by intros [].
Defined.

#[export] Instance Metadata_eq_dec : EqDecision BackendWorkflowStateMetadata.
Proof. solve_decision. Defined.
#[export] Instance Metadata_countable : Countable BackendWorkflowStateMetadata.
Proof.
  apply (inj_countable' (λ m, (InboxLength m, HistoryLength m, md_Generation m, SignatureLength m,
      SigningCertificateLength m, ExternalSigningCertificateLength m))
    (λ '(a, b, c, d, e, f), mkMetadata a b c d e f)). by intros [].
Defined.

#[export] Instance creationInputRow_eq_dec : EqDecision creationInputRow.
Proof. solve_decision. Defined.
#[export] Instance creationInputRow_countable : Countable creationInputRow.
Proof.
  apply (inj_countable' (λ r, (InstanceID (ci_parent r), ExecutionID (ci_parent r), ci_Input r))
    (λ '(a, b, c), mkCreationInputRow (mkCreationParent a b) c)). by intros [[]].
Defined.

(** Timers, starts, completions and other events. *)
Inductive demo_event :=
  | DTimer (n : N) | DStarted (e : ExecutionStartedEvent) | DCompleted (e : ExecutionCompletedEvent) | DOther (n : N).
#[export] Instance demo_event_eq_dec : EqDecision demo_event.
Proof. solve_decision. Defined.
#[export] Instance demo_event_countable : Countable demo_event.
Proof.
  apply (inj_countable'
    (λ e, match e with DTimer n => inl (inl n) | DStarted e => inl (inr e) | DCompleted e => inr (inl e) | DOther n => inr (inr n) end)
    (λ e, match e with inl (inl n) => DTimer n | inl (inr e) => DStarted e | inr (inl e) => DCompleted e | inr (inr n) => DOther n end)).
  by intros [].
Defined.

Definition zero_metadata : BackendWorkflowStateMetadata := mkMetadata 0 0 0 0 0 0.

Definition metadata_codec : Codec BackendWorkflowStateMetadata :=
  {| Marshal m := Some (if decide (m = zero_metadata) then EmptyString else pos_string (encode m));
     Unmarshal s := match s with EmptyString => Some zero_metadata | _ => string_pos s ≫= decode end |}.

Definition string_codec : Codec string := {| Marshal s := Some s; Unmarshal s := Some s |}.

#[export] Instance demo_protos : Protos := {|
  HistoryEvent := demo_event;
  SigningCertificate := N;
  HistorySignature := N * N;
  PropagatedHistory := N;
  IsTimerFired e := match e with DTimer _ => true | _ => false end;
  IsExecutionTerminated e := bool_decide (e = DOther 77);
  GetEventId e := match e with DOther n => Z.of_N n | _ => (-1)%Z end;
  GetExecutionStarted e := match e with DStarted es => Some es | _ => None end;
  GetExecutionCompleted e := match e with DCompleted ec => Some ec | _ => None end;
  GetWorkflowStarted _ := None;
  NewExecutionCompleted _ ec := DCompleted ec;
  GetCertificate c := pos_string (encode c);
  GetStartEventIndex sig := sig.1;
  GetEventCount sig := sig.2;
  HistoryEvent_codec := countable_codec demo_event;
  SigningCertificate_codec := countable_codec N;
  ExternalSigningCertificate_codec := countable_codec ExternalSigningCertificate;
  HistorySignature_codec := countable_codec (N * N);
  PropagatedHistory_codec := countable_codec N;
  Metadata_codec := metadata_codec;
  StringValue_codec := string_codec;
  json_creationInputRow r := Some (pos_string (encode r));
  unjson_creationInputRow s := string_pos s ≫= decode;
  unjson_metadata _ := None;
  unjson_string _ := None |}.

Lemma metadata_codec_law (x : BackendWorkflowStateMetadata) d :
  Marshal (Codec := metadata_codec) x = Some d → Unmarshal (Codec := metadata_codec) d = Some x.
Proof.
  simpl. case_decide as Hz; intros [= <-]; [by subst|].
  destruct (pos_string (encode x)) as [|a d] eqn:He.
  - by destruct (encode x).
  - rewrite <-He, string_pos_string. simpl. by rewrite decode_encode.
Qed.

#[export] Instance demo_laws : ProtosLaws.
Proof.
  split; try done; try (intros e He; by apply bool_decide_eq_true in He as ->);
    intros x d; first [apply countable_codec_law | apply metadata_codec_law | by intros [= <-]].
Qed.

#[export] Instance demo_signing : HistorySigning := {|
  Signer := unit;
  VerifyChain _ raws certs events := negb (bool_decide (raws = []));
  CertDigest c := c;
  LeafSPIFFEPath c := Some "/ns/default/app" |}.

#[export] Instance demo_event_signing : EventSigning := {|
  MarshalEvent e := Marshal e;
  Sign _ raws i _ certs :=
    let sig : HistorySignature := (i, N.of_nat (length raws)) in
    (λ raw, (match certs with [] => Some 7%N | _ => None end, sig, raw)) <$> Marshal sig |}.

#[export] Instance demo_event_signing_laws : EventSigningLaws.
Proof.
  split.
  - intros e d. apply unmarshal_marshal.
  - intros sgn evs i prev certs cert sig raw. unfold Sign, demo_event_signing, raw_of.
    destruct (Marshal _) as [d|] eqn:Hd; simpl; [|done]. intros [= _ <- <-].
    exact (countable_codec_law _ _ Hd).
Qed.

(** ** A store *)

Record demo_store := mkDemoStore { ds_rows : gmap string (string * string); ds_used : gset string }.

Definition demo_tokens (st : demo_store) : gset string := ds_used st ∪ map_img (snd <$> ds_rows st).

Definition demo_put (tok : string) (m : gmap string (string * string)) (o : TransactionalOperation) : gmap string (string * string) :=
  match o with Upsert k v _ => <[k := (v, tok)]> m | Delete k => delete k m end.

Definition demo_matches (st : demo_store) (o : TransactionalOperation) : bool :=
  match o with
  | Upsert k _ (Some e) => bool_decide (snd <$> ds_rows st !! k = Some e)
  | _ => true
  end.

Definition demo_Multi (st : demo_store) (ops : list TransactionalOperation) : option demo_store :=
  if forallb (demo_matches st) ops
  then let tok := fresh (demo_tokens st) in
       Some (mkDemoStore (foldl (demo_put tok) (ds_rows st) ops) ({[ tok ]} ∪ demo_tokens st))
  else None.

#[export] Instance demo_state_store : StateStore :=
  {| store := demo_store; rows := ds_rows; tokens := demo_tokens; Multi := demo_Multi |}.

Lemma demo_put_data tok ops : ∀ m, fst <$> foldl (demo_put tok) m ops = apply_ops ops (fst <$> m).
Proof.
  induction ops as [|o ops IH]; intros m; [done|]. simpl. rewrite IH. unfold apply_ops. simpl. f_equal.
  destruct o; simpl; [by rewrite fmap_insert|by rewrite fmap_delete].
Qed.

Lemma demo_put_token tok ops k : ∀ m,
  k ∈ (op_key <$> ops) ∨ (∀ e, snd <$> m !! k = Some e → e = tok) →
  ∀ e, snd <$> foldl (demo_put tok) m ops !! k = Some e → e = tok.
Proof.
  induction ops as [|o ops IH]; intros m Hk e; simpl.
  { destruct Hk as [Hk|Hk]; [by apply elem_of_nil in Hk|]. apply Hk. }
  apply IH. destruct (decide (k ∈ op_key <$> ops)) as [|Hn]; [by left|]. right. intros e'.
  destruct (decide (k = op_key o)) as [->|Hne].
  - destruct o; simpl; [rewrite lookup_insert_eq|by rewrite lookup_delete_eq]. simpl. congruence.
  - destruct Hk as [Hk|Hk]; [rewrite fmap_cons in Hk; set_solver|].
    destruct o; simpl in *; [rewrite lookup_insert_ne|rewrite lookup_delete_ne]; auto.
Qed.

#[export] Instance demo_store_laws : StateStoreLaws.
Proof.
  split.
  - intros st ops st'. simpl. unfold demo_Multi. destruct (forallb _ _); [|done]. intros [= <-]. apply demo_put_data.
  - intros st ops st' k d etag. simpl. unfold demo_Multi. destruct (forallb _ _); [|done]. intros [= <-] Hin e He.
    assert (e = fresh (demo_tokens st)) as ->; [|apply is_fresh].
    apply (demo_put_token _ ops k (ds_rows st)); [|done]. left. apply list_elem_of_fmap. by exists (Upsert k d etag).
  - intros st ops st' k d e. simpl. unfold demo_Multi. destruct (forallb _ _) eqn:Hf; [|done]. intros _ Hin.
    rewrite forallb_forall in Hf. apply list_elem_of_In, Hf in Hin. simpl in Hin. by apply bool_decide_eq_true in Hin.
  - intros st ops st'. simpl. unfold demo_Multi. destruct (forallb _ _); [|done]. intros [= <-].
    unfold demo_tokens at 2. simpl. set_solver.
  - intros st k e He. simpl in *. unfold demo_tokens. apply elem_of_union. right. apply elem_of_map_img.
    exists k. by rewrite lookup_fmap.
Qed.
