(* ===== verification/WorkflowWitness.v ===== *)
(** * Workflow state: runs of the concrete store

    Witnesses for the theorems on workflow state, and the run in which two
    hosts lose an event because the token is read back after the save. *)

From Stdlib Require Import Ascii.
From stdpp Require Import countable infinite.
From S2P Require Import Prelude GoStrings WorkflowState WorkflowSync WorkflowChanges WorkflowLoad WorkflowProps WorkflowHosts WorkflowSystem WorkflowInstances.

Definition d_opts : Options := mkOptions "app" "default" "wf" "act" None.
Definition d_start : HistoryEvent := DStarted (mkExecutionStarted (Some "in") None).
Definition d_five : HistoryEvent := DOther 5.
Definition d_nine : HistoryEvent := DOther 9.
Definition d_id : string := "order-1".

Definition d_commit (st : store) (s : State) : option store :=
  match GetSaveRequest d_id s with Ok req => Multi st (rq_Operations req) | _ => None end.
Definition d_meta (st : store) : StateResponse := Get st MetadataKey.
Definition d_load (st : store) : loaded :=
  loadWorkflowStateOnce (Some (Get st MetadataKey)) (GetBulk st) d_opts.

(** Host 0 creates the instance; host 1 loads it and adds an event. *)
Definition st0 : store := mkDemoStore ∅ ∅.
Definition sA1 : State := AddToInbox d_start (NewState d_opts).
Definition st1 : store := default st0 (d_commit st0 sA1).
Definition sA2 : State := default sA1 (cached_after d_id sA1 st1).
Definition sB1 : State := default sA1 (d_load st1).1.
Definition sB2 : State := AddToInbox d_five sB1.
Definition st2 : store := default st0 (d_commit st1 sB2).

(** ** A reachable system *)

Definition sys0 : system := mkSystem st0 ∅.
Definition sys1 : system := set_host 0 (Reading (Get st0 MetadataKey)) sys0.
Definition sys2 : system := set_host 0 (Idle (Some (NewState d_opts)) false) sys1.
Definition sys3 : system := set_host 0 (Idle (Some sA1) false) sys2.
Definition sys4 : system := set_store st1 (set_host 0 (Idle (cached_after d_id sA1 st1) false) sys3).
Definition sys5 : system := set_host 1 (Reading (Get st1 MetadataKey)) sys4.
Definition sys6 : system := set_host 1 (Idle (Some sB1) false) sys5.

Lemma commits_demo st s st' :
  d_commit st s = Some st' → changed (CustomStatus s) = false → Generation s ≠ 0%N →
  bool_decide (metadataETag s = None → data_of st = ∅) = true → commits d_id st s st'.
Proof.
  intros Hc Hs Hg Hn. split; [by unfold status_settled; rewrite Hs|done|by apply bool_decide_eq_true in Hn|].
  unfold d_commit in Hc. destruct (GetSaveRequest d_id s) as [req| |]; try done. by exists req.
Qed.

Lemma commit_1 : commits d_id st0 sA1 st1.
Proof. apply commits_demo; by vm_compute. Qed.

Lemma load_1 : loadWorkflowStateOnce (Some (Get st1 MetadataKey)) (GetBulk st1) d_opts = (Some sB1, None).
Proof. by vm_compute. Qed.


Lemma sys4_reachable : reachable d_id d_opts sys4.
Proof.
  apply reach_step with sys3; [|apply (step_save d_id d_opts sys3 0 sA1 st1 (cached_after d_id sA1 st1)), saves_signed with sA1; [done|done|apply commit_1]].
  apply reach_step with sys2; [|by apply step_change with (c := CAddToInbox d_start)].
  apply reach_step with sys1; [|by apply step_create with (d_meta st0)].
  apply reach_step with sys0; [|by apply step_read].
  by apply reach_init.
Qed.








(** Host 0 purges the instance. *)
Definition st_purged : store := default st0 (Multi st1 (rq_Operations (GetPurgeRequest d_id sA2))).

Lemma purge_commits :
  Multi (sy_store sys4) (rq_Operations (GetPurgeRequest d_id sA2)) = Some st_purged ∧
  host_of sys4 0 = Idle (Some sA2) false ∧ metadataETag sA2 = etag_of (sy_store sys4) MetadataKey ∧
  is_Some (metadataETag sA2).
Proof. split_and!; [by vm_compute..|]. eexists. by vm_compute. Qed.

Lemma sA2_purgeable : purgeable sA2.
Proof. vm_compute. split_and!; repeat constructor. Qed.

(** Witness for [workflow_purge_complete]. *)
Lemma workflow_purge_complete_witness : is_Some (data_of st1 !! HistoryKey 0) ∨ data_of st_purged = ∅.
Proof.
  right. destruct purge_commits as (Hm & Hh & He & Hs).
  apply (workflow_purge_complete d_id d_opts sys4 0 sA2 false st_purged sys4_reachable Hh sA2_purgeable He Hs Hm).
Defined.

(** ** A signed workflow *)

Definition d_signed : Options := mkOptions "app" "default" "wf" "act" (Some tt).
Definition sS1 : State :=
  match SignNewEvents (Some tt) (AddToHistory d_start (NewState d_signed)) with Signed s => s | SignError => NewState d_signed end.
Definition st_signed : store := default st0 (d_commit st0 sS1).
Definition sS2 : State :=
  default sS1 (loadWorkflowStateOnce (Some (Get st_signed MetadataKey)) (GetBulk st_signed) d_signed).1.

Lemma load_signed :
  loadWorkflowStateOnce (Some (Get st_signed MetadataKey)) (GetBulk st_signed) d_signed = (Some sS2, None) ∧
  hasTamperMarker sS2 = false ∧ length (items (Signatures sS2)) = 1 ∧ length (items (SigningCertificates sS2)) = 1.
Proof. split_and!; by vm_compute. Qed.

(** Witness for [workflow_load_verified]. *)
Lemma workflow_load_verified_witness :
  ∃ res d md bulk, Some (Get st_signed MetadataKey) = Some res ∧ sr_Data res = Some d ∧ decode_metadata d = Some md ∧
    GetBulk st_signed (bulk_keys md) = Some bulk ∧ ∃ sig, list.last (items (Signatures sS2)) = Some sig ∧
    ((GetStartEventIndex sig + GetEventCount sig) mod two64)%N = HistoryLength md.
Proof.
  destruct (workflow_load_verified (Some (Get st_signed MetadataKey)) (GetBulk st_signed) d_signed sS2
    (proj1 load_signed) (proj1 (proj2 load_signed))) as (_ & res & d & md & bulk & E1 & E2 & E3 & E4 & _ & _ & _ & H).
  exists res, d, md, bulk. split_and!; [exact E1|exact E2|exact E3|exact E4|].
  destruct (list.last (items (Signatures sS2))) as [sig|] eqn:Hs; [|vm_compute in Hs; discriminate Hs].
  exists sig. split; [reflexivity|]. destruct H as (sgn & _ & Hc & _). exact Hc.
Defined.

(** ** Round trip *)

Definition d_runtime : RuntimeState := mkRuntimeState false [d_start; d_five] (Some "half").
Definition d_changes : list change :=
  [CAddToInbox d_start; CInjectTimer (DTimer 3); CInjectTerminate (DOther 77); CApply d_runtime; CClearInbox; CAddToInbox d_nine;
   CSetNotify true; CSetIncoming (Some 4%N); CAddExternal d_id d_id].
Definition sR : State := run_changes d_changes (NewState d_opts).
Definition rqR : TransactionalRequest :=
  match GetSaveRequest d_id sR with Ok req => req | _ => mkRequest d_id d_id [] end.
Definition st_R : store := default st0 (Multi st0 (rq_Operations rqR)).

Lemma round_trip_run :
  GetSaveRequest d_id sR = Ok rqR ∧ Multi st0 (rq_Operations rqR) = Some st_R ∧ Generation sR ≠ 0%N ∧
  within_bounds (state_metadata sR) = true ∧ history_touched sR = true.
Proof. split_and!; by vm_compute. Qed.

Lemma d_changes_valid : Forall change_valid d_changes.
Proof. repeat (apply list.Forall_cons; split; [split; by vm_compute|]). constructor. Qed.

Lemma d_changes_counted : all_counted d_changes.
Proof. done. Qed.

Definition keysR : list string := bulk_keys (state_metadata sR).
Definition bulkR : gmap string StateResponse := list_to_map ((λ k, (k, Get st_R k)) <$> keysR).

Lemma round_trip_reads :
  reads_row (apply_ops (rq_Operations rqR) ∅) MetadataKey (d_meta st_R) ∧
  GetBulk st_R keysR = Some bulkR ∧
  reads_bulk (apply_ops (rq_Operations rqR) ∅) keysR bulkR.
Proof.
  assert (apply_ops (rq_Operations rqR) ∅ = data_of st_R) as ->.
  { by rewrite (Multi_data _ _ _ (proj1 (proj2 round_trip_run))). }
  split_and!; [apply Get_reads|done|by apply GetBulk_reads].
Qed.

Lemma sR_settled : status_settled sR.
Proof. intros _. apply round_trip_run. Qed.

(** Witness for [workflow_save_load_roundtrip]. *)
Lemma workflow_save_load_roundtrip_witness :
  ∃ s, loadWorkflowStateOnce (Some (d_meta st_R)) (GetBulk st_R) d_opts = verdict d_opts s ∧
       content_of s = content_of sR ∧ synced s (apply_ops (rq_Operations rqR) ∅) ∧ metadataETag s = sr_ETag (d_meta st_R).
Proof.
  destruct round_trip_run as (H1 & H2 & H3 & H4 & H5). destruct round_trip_reads as (R1 & R2 & R3).
  pose proof (workflow_save_load_roundtrip d_changes (NewState d_opts) ∅ d_id rqR d_opts (d_meta st_R) (GetBulk st_R) bulkR) as Ht.
  fold sR in Ht. fold keysR in Ht.
  exact (Ht (NewState_synced d_opts) (NewState_certs_ok d_opts) d_changes_valid d_changes_counted sR_settled H1 H3 H4 R1 R2 R3).
Defined.

(** Witness for [workflow_save_exact]. *)
Lemma workflow_save_exact_witness :
  represents (apply_ops (rq_Operations rqR) ∅) (content_of sR).
Proof.
  exact (proj1 (workflow_save_exact d_changes (NewState d_opts) ∅ d_id rqR (NewState_synced d_opts) (NewState_certs_ok d_opts)
    d_changes_valid d_changes_counted sR_settled (proj1 round_trip_run))).
Defined.

(** ** Findings *)

(** The metadata rows and the synced state of host 1. *)
Lemma sB1_in_step : synced sB1 (data_of st1) ∧ certs_ok sB1.
Proof.
  assert (reachable d_id d_opts sys6) as Hr.
  { apply reach_step with sys5; [|apply step_load with (d_meta st1); [done|apply load_1]].
    apply reach_step with sys4; [apply sys4_reachable|]. by apply step_read. }
  apply hosts_reachable_inv in Hr as [_ Hh]. specialize (Hh 1).
  change (host_of sys6 1) with (Idle (Some sB1) false) in Hh. unfold host_inv in Hh.
  pose proof (load_once_etag _ _ _ _ _ load_1) as He.
  destruct (metadataETag sB1) as [e|] eqn:Hme; [|by vm_compute in Hme].
  apply Hh. rewrite Get_etag in He. symmetry. exact He.
Qed.

(** The event of a terminated parent, and the turn that stalls. *)
Definition d_terminated : HistoryEvent := DOther 77.
Definition d_stalled : HistoryEvent := DOther 78.
Definition d_add (es : list HistoryEvent) (e : HistoryEvent) : list HistoryEvent := es ++ [e].
Definition d_turn : RuntimeState := mkRuntimeState false [] None.
Definition sC : State := default sB1 (stallWorkflow d_add None d_stalled "patch mismatch" d_turn (inject d_terminated sB1)).
Definition rqC : TransactionalRequest :=
  match GetSaveRequest d_id sC with Ok req => req | _ => mkRequest d_id d_id [] end.
Definition st_C : store := default st0 (Multi st1 (rq_Operations rqC)).
Definition keysC : list string := bulk_keys (state_metadata sC).
Definition bulkC : gmap string StateResponse := list_to_map ((λ k, (k, Get st_C k)) <$> keysC).

Lemma stall_run :
  GetSaveRequest d_id sC = Ok rqC ∧ Multi st1 (rq_Operations rqC) = Some st_C ∧ Generation sB1 ≠ 0%N ∧
  within_bounds (state_metadata sC) = true ∧ addedCount (Inbox sB1) = 0 ∧ removedCount (Inbox sB1) = 0 ∧
  stallWorkflow d_add None d_stalled "patch mismatch" d_turn (inject d_terminated sB1) = Some sC.
Proof. split_and!; by vm_compute. Qed.

Lemma stall_reads :
  reads_row (apply_ops (rq_Operations rqC) (data_of st1)) MetadataKey (d_meta st_C) ∧
  GetBulk st_C keysC = Some bulkC ∧
  reads_bulk (apply_ops (rq_Operations rqC) (data_of st1)) keysC bulkC.
Proof.
  rewrite <-(Multi_data _ _ _ (proj1 (proj2 stall_run))).
  split_and!; [apply Get_reads|done|by apply GetBulk_reads].
Qed.

(** Witness for [cascade_stall_unloadable]. *)
Lemma cascade_stall_unloadable_witness :
  LoadWorkflowState (λ _, loadWorkflowStateOnce (Some (d_meta st_C)) (GetBulk st_C) d_opts) (λ _, false) =
    Some (None, Some (ErrMissing (entry_key inboxKeyPrefix (length (persistableInbox sB1))))).
Proof.
  destruct stall_run as (H1 & _ & H2 & H3 & H4 & H5 & H6). destruct stall_reads as (R1 & R2 & R3).
  pose proof (cascade_stall_unloadable sB1 (inject d_terminated sB1) sC (data_of st1) d_terminated d_add None d_stalled
    "patch mismatch" d_turn d_id rqC (d_meta st_C) (GetBulk st_C) bulkC d_opts) as Ht.
  fold keysC in Ht. rewrite H5 in Ht.
  exact (Ht (proj1 sB1_in_step) H4 (Nat.le_0_l _) eq_refl eq_refl H6 H1 H2 H3 R1 R2 R3).
Defined.

(** An instance whose metadata was inflated. *)
Definition d_inflated : BackendWorkflowStateMetadata := mkMetadata 0 2000000 1 0 0 0.
Definition d_inflated_row : StateResponse := mkStateResponse (Marshal d_inflated) None.

(** Witness for [tombstone_replaces_history]. *)
Lemma tombstone_replaces_history_witness :
  ∃ req, GetSaveRequest d_id (AddToHistory (tamper_marker 0 "tampered") (NewState d_opts)) = Ok req ∧
    apply_ops (rq_Operations req) {[ HistoryKey 0 := "first event" ]} !! HistoryKey 0 = Marshal (tamper_marker 0 "tampered").
Proof.
  destruct (tombstone_replaces_history 0 d_id d_opts "tampered" {[ HistoryKey 0 := "first event" ]} d_inflated_row
    (λ _, None) d_inflated (default EmptyString (Marshal d_inflated)) (default EmptyString (Marshal (tamper_marker 0 "tampered")))
    (default EmptyString (Marshal (mkMetadata 0 1 1 0 0 0)))) as (_ & req & Hr & Hh & _); try reflexivity.
  - vm_compute. discriminate.
  - by exists req.
Defined.

(** ** The token read back after a save

    Host 0 saves a new instance as [stA].  Before it reads the new token, host
    1 loads the instance, adds an event and saves it as [stB].  Host 0 then
    reads the token of [stB] for its own state, and its next save is accepted. *)

(** A lost event (a defect). When another host loads and saves the instance between a save
    and the read of its new token, the first host records the token of the other's save with
    its own older state; its next save is accepted and overwrites the event the other host
    added. *)
Theorem refresh_race_loses_event :
  ∃ (sA sB sA' s' : State) (stA stB stC : store) reqA reqB reqC,
    GetSaveRequest d_id sA = Ok reqA ∧ Multi st0 (rq_Operations reqA) = Some stA ∧
    loadWorkflowStateOnce (Some (Get stA MetadataKey)) (GetBulk stA) d_opts = (Some sB, None) ∧
    GetSaveRequest d_id (AddToInbox d_five sB) = Ok reqB ∧ Multi stA (rq_Operations reqB) = Some stB ∧
    sv_cached (saveInternalState d_id (λ _, true) (ReadRow (Get stB MetadataKey)) ReadError sA) = Some sA' ∧
    GetSaveRequest d_id (AddToInbox d_nine sA') = Ok reqC ∧ Multi stB (rq_Operations reqC) = Some stC ∧
    loadWorkflowStateOnce (Some (Get stC MetadataKey)) (GetBulk stC) d_opts = (Some s', None) ∧
    items (Inbox sB) = [d_start] ∧ items (Inbox s') = [d_start; d_nine].
Proof.
  pose (request s := match GetSaveRequest d_id s with Ok req => req | _ => mkRequest d_id d_id [] end).
  pose (sA3 := default sA1 (sv_cached (saveInternalState d_id (λ _, true) (ReadRow (Get st2 MetadataKey)) ReadError sA1))).
  pose (st3 := default st0 (d_commit st2 (AddToInbox d_nine sA3))).
  exists sA1, sB1, sA3, (default sA1 (d_load st3).1), st1, st2, st3, (request sA1), (request sB2), (request (AddToInbox d_nine sA3)).
  split_and!; vm_compute; reflexivity.
Qed.
