(* ===== verification/ResiliencyRetry.v ===== *)
(** * Retry conditions of the resiliency policies (pkg/resiliency/retry.go)

    The status codes a retry policy retries: the parser of the comma-separated
    patterns of a configuration, the ranges it produces, and the two decisions
    taken with them ([statusCodeNeedRetry] in the retry loop, [ErrorNeedRetry]
    for the callers).  Errors are modelled with their chains, since the code
    looks into them with [errors.Is] and [errors.As].

    The theorems: printing and parsing patterns is a round trip, the loop
    retries exactly the listed codes, the accepted ranges are within the valid
    ones, and where the two decisions differ. *)

From Stdlib Require Import Ascii.
From S2P Require Import Prelude GoStrings.

(** ** Errors and their chains *)

Inductive retryScenario := retryScenarioHTTPInvoke | retryScenarioGRPCInvoke.

#[export] Instance retryScenario_eq_dec : EqDecision retryScenario.
Proof. solve_decision. Defined.

(** The errors the policies look at.  [Code] is a [CodeError], [Permanent] the
    wrapper of [backoff.Permanent], [Wrapped] an error made with one [%w],
    [Joined] one made with two; the first four are variables of their packages,
    compared by identity. *)
Inductive error :=
| ErrOpenState
| ErrTooManyRequests
| DeadlineExceeded
| Canceled
| Code (StatusCode : Z) (scenario : retryScenario) (err : error)
| Permanent (err : error)
| Wrapped (msg : string) (err : error)
| Joined (msg : string) (err1 err2 : error)
| Plain (msg : string).

#[export] Instance error_eq_dec : EqDecision error.
Proof. solve_decision. Defined.

(** [errors.Is] for a target compared by identity: the error and everything it
    wraps. *)
Fixpoint Is (e target : error) : bool :=
  bool_decide (e = target) ||
  match e with
  | Code _ _ e' | Permanent e' | Wrapped _ e' => Is e' target
  | Joined _ e1 e2 => Is e1 target || Is e2 target
  | _ => false
  end.

(** [errors.As] with a [CodeError] target: the first one of the chain. *)
Fixpoint AsCode (e : error) : option (Z * retryScenario) :=
  match e with
  | Code c sc _ => Some (c, sc)
  | Permanent e' | Wrapped _ e' => AsCode e'
  | Joined _ e1 e2 => match AsCode e1 with Some r => Some r | None => AsCode e2 end
  | _ => None
  end.

(** [errors.As] with a [*backoff.PermanentError] target. *)
Fixpoint AsPermanent (e : error) : option error :=
  match e with
  | Permanent e' => Some e'
  | Code _ _ e' | Wrapped _ e' => AsPermanent e'
  | Joined _ e1 e2 => match AsPermanent e1 with Some r => Some r | None => AsPermanent e2 end
  | _ => None
  end.

(** ** [strconv.Atoi] (64-bit platform) *)

Definition digit_val (c : ascii) : option Z :=
  let n := nat_of_ascii c in
  if (48 <=? n) && (n <=? 57) then Some (Z.of_nat n - 48)%Z else None.

Fixpoint digits_val (acc : Z) (s : list ascii) : option Z :=
  match s with
  | [] => Some acc
  | c :: s' => d ← digit_val c; digits_val (10 * acc + d)%Z s'
  end.

Definition Atoi (s : list ascii) : option Z :=
  let '(neg, ds) :=
    match s with
    | "-"%char :: s' => (true, s')
    | "+"%char :: s' => (false, s')
    | _ => (false, s)
    end in
  match ds with
  | [] => None
  | _ =>
      v ← digits_val 0 ds;
      let v := if neg : bool then Z.opp v else v in
      if bool_decide (-9223372036854775808 ≤ v ≤ 9223372036854775807)%Z then Some v else None
  end.

(** The conversion [int32(x)]. *)
Definition i32_wrap (z : Z) : Z := ((z + 2147483648) mod 4294967296 - 2147483648)%Z.

(** ** Code ranges *)

Record codeRange := CodeRange { cr_start : Z; cr_end : Z }.

#[export] Instance codeRange_eq_dec : EqDecision codeRange.
Proof. solve_decision. Defined.

Definition matchCode (cr : codeRange) (c : Z) : bool :=
  bool_decide (cr_start cr ≤ c)%Z && bool_decide (c ≤ cr_end cr)%Z.

Definition validHTTPStatusCodeRange : codeRange := CodeRange 100 599.
Definition validGRPCStatusCodeRange : codeRange := CodeRange 0 16.

(** A nil slice ([None]) is not an empty one. *)
Record RetryConditionMatch := {
  httpStatusCodes : option (list codeRange);
  gRPCStatusCodes : option (list codeRange)
}.

Definition NewRetryConditionMatch : RetryConditionMatch :=
  {| httpStatusCodes := None; gRPCStatusCodes := None |}.

Definition detectErrorProto (statusCode : Z) : retryScenario :=
  if matchCode validHTTPStatusCodeRange statusCode then retryScenarioHTTPInvoke
  else retryScenarioGRPCInvoke.

Definition NewCodeError (statusCode : Z) (err : error) : error :=
  Code statusCode (detectErrorProto statusCode) err.

(** ** Parsing *)

Inductive pattern_error :=
| TooManyDashes (pattern : list ascii)
| BadStart (text pattern : list ascii)
| InvalidStart (pattern : list ascii) (code : Z)
| BadEnd (text pattern : list ascii)
| InvalidEnd (pattern : list ascii) (code : Z)
| Reversed (pattern : list ascii).

Definition comma : ascii := ","%char.
Definition dash : ascii := "-"%char.

(** the checks made once both numbers are read *)
Definition compileRange (pattern : list ascii) (validRange : codeRange) (start endint : Z) :
  pattern_error + codeRange :=
  let e := i32_wrap endint in
  if negb (matchCode validRange e) then inl (InvalidEnd pattern e)
  else if bool_decide (e < start)%Z then inl (Reversed pattern)
  else inr (CodeRange start e).

Definition compilePattern (pattern : list ascii) (validRange : codeRange) :
  pattern_error + codeRange :=
  let patterns := Split dash pattern in
  if 2 <? length patterns then inl (TooManyDashes pattern)
  else
    let p0 := default [] (patterns !! 0) in
    match Atoi p0 with
    | None => inl (BadStart p0 pattern)
    | Some startint =>
        let start := i32_wrap startint in
        if negb (matchCode validRange start) then inl (InvalidStart pattern start)
        else match patterns !! 1 with
             | None => compileRange pattern validRange start startint
             | Some p1 =>
                 match Atoi p1 with
                 | None => inl (BadEnd p1 pattern)
                 | Some endint => compileRange pattern validRange start endint
                 end
             end
    end.

(** the loop over the pieces; [acc] is [parsedPatterns] *)
Fixpoint parsePieces (ps : list (list ascii)) (validRange : codeRange) (acc : list codeRange) :
  pattern_error + list codeRange :=
  match ps with
  | [] => inr acc
  | [] :: ps' => parsePieces ps' validRange acc
  | p :: ps' =>
      match compilePattern p validRange with
      | inl err => inl err
      | inr r => parsePieces ps' validRange (acc ++ [r])
      end
  end.

Definition parsePatterns (patterns : list ascii) (validRange : codeRange) :
  pattern_error + option (list codeRange) :=
  match patterns with
  | [] => inr None
  | _ =>
      match parsePieces (Split comma patterns) validRange [] with
      | inl err => inl err
      | inr l => inr (Some l)
      end
  end.

(** The fields of [resiliencyV1alpha.RetryMatching]. *)
Record RetryMatching := { HTTPStatusCodes : list ascii; GRPCStatusCodes : list ascii }.

(** Both results of the function: on an error the match is the empty one. *)
Definition ParseRetryConditionMatch (conditions : option RetryMatching) :
  RetryConditionMatch * option pattern_error :=
  match conditions with
  | None => (NewRetryConditionMatch, None)
  | Some c =>
      match parsePatterns (HTTPStatusCodes c) validHTTPStatusCodeRange with
      | inl err => (NewRetryConditionMatch, Some err)
      | inr h =>
          match parsePatterns (GRPCStatusCodes c) validGRPCStatusCodeRange with
          | inl err => (NewRetryConditionMatch, Some err)
          | inr g => ({| httpStatusCodes := h; gRPCStatusCodes := g |}, None)
          end
      end
  end.

(** ** Decisions *)

Definition mustRetryStatusCode (statusCode : Z) (ranges : option (list codeRange)) : bool :=
  match ranges with
  | None => true
  | Some l => existsb (λ r, matchCode r statusCode) l
  end.

Definition statusCodeNeedRetry (f : RetryConditionMatch) (statusCode : Z) : bool :=
  if matchCode validGRPCStatusCodeRange statusCode then
    mustRetryStatusCode statusCode (gRPCStatusCodes f)
  else if matchCode validHTTPStatusCodeRange statusCode then
    mustRetryStatusCode statusCode (httpStatusCodes f)
  else false.

Definition ErrorNeedRetry (f : RetryConditionMatch) (code : Z) (sc : retryScenario) : bool :=
  match sc with
  | retryScenarioGRPCInvoke => mustRetryStatusCode code (gRPCStatusCodes f)
  | retryScenarioHTTPInvoke => mustRetryStatusCode code (httpStatusCodes f)
  end.

(** ** Printed patterns: the reference for the parser *)

(** The decimal digits of a number, most significant first. *)
Definition digit_char (d : Z) : ascii := ascii_of_nat (48 + Z.to_nat d).

Fixpoint itoa_loop (fuel : nat) (n : Z) (acc : list ascii) : list ascii :=
  match fuel with
  | O => acc
  | S fuel' =>
      let acc' := digit_char (n mod 10) :: acc in
      if bool_decide (n < 10)%Z then acc' else itoa_loop fuel' (n / 10) acc'
  end.

(** ten digits are enough for an int32 *)
Definition itoa (n : Z) : list ascii := itoa_loop 10 n [].

(** What a user writes between two commas: nothing, a code or a range. *)
Inductive pattern := PNone | PCode (c : Z) | PRange (a b : Z).

Definition pattern_text (p : pattern) : list ascii :=
  match p with
  | PNone => []
  | PCode c => itoa c
  | PRange a b => itoa a ++ dash :: itoa b
  end.

Definition patterns_text (ps : list pattern) : list ascii := Join [comma] (pattern_text <$> ps).

Definition pattern_range (p : pattern) : list codeRange :=
  match p with
  | PNone => []
  | PCode c => [CodeRange c c]
  | PRange a b => [CodeRange a b]
  end.

Definition pattern_ok (v : codeRange) (p : pattern) : Prop :=
  match p with
  | PNone => True
  | PCode c => matchCode v c = true
  | PRange a b => matchCode v a = true ∧ matchCode v b = true ∧ (a ≤ b)%Z
  end.

(** The codes the user listed. *)
Definition listed (ps : list pattern) (c : Z) : Prop :=
  ∃ p, p ∈ ps ∧ match p with PNone => False | PCode d => c = d | PRange a b => (a ≤ c ≤ b)%Z end.

(** ** Lemmas on numbers *)

Lemma matchCode_true r c : matchCode r c = true ↔ (cr_start r ≤ c ≤ cr_end r)%Z.
Proof. unfold matchCode. by rewrite andb_true_iff, !bool_decide_eq_true. Qed.

Lemma digit_val_char d : (0 ≤ d < 10)%Z → digit_val (digit_char d) = Some d.
Proof.
  intros Hd. assert (d = 0 ∨ d = 1 ∨ d = 2 ∨ d = 3 ∨ d = 4 ∨ d = 5 ∨ d = 6 ∨ d = 7 ∨ d = 8 ∨ d = 9)%Z by lia.
  by destruct_or!; subst.
Qed.

Lemma digit_char_plain d : (0 ≤ d < 10)%Z → digit_char d ≠ dash ∧ digit_char d ≠ comma ∧ digit_char d ≠ "+"%char.
Proof.
  intros Hd. assert (d = 0 ∨ d = 1 ∨ d = 2 ∨ d = 3 ∨ d = 4 ∨ d = 5 ∨ d = 6 ∨ d = 7 ∨ d = 8 ∨ d = 9)%Z by lia.
  by destruct_or!; subst.
Qed.

Lemma i32_wrap_small z : (-2147483648 ≤ z < 2147483648)%Z → i32_wrap z = z.
Proof. intros Hz. unfold i32_wrap. rewrite Z.mod_small by lia. lia. Qed.

(** The printed digits are read back as the number, followed by what was
    printed before. *)
Lemma itoa_loop_val fuel n acc :
  (0 ≤ n < 10 ^ Z.of_nat fuel)%Z → fuel ≠ 0 →
  ∃ k, (0 ≤ k)%Z ∧ ∀ a, digits_val a (itoa_loop fuel n acc) = digits_val (a * 10 ^ k + n)%Z acc.
Proof.
  revert n acc; induction fuel as [|fuel IH]; intros n acc Hn Hf; [done|].
  cbn [itoa_loop]. assert (Hm : (0 ≤ n mod 10 < 10)%Z) by (apply Z.mod_pos_bound; lia).
  case_bool_decide as Hc.
  - exists 1%Z. split; [lia|]. intros a. rewrite Z.mod_small by lia. cbn [digits_val].
    rewrite digit_val_char by lia. simpl. f_equal. lia.
  - assert (Hd : (0 ≤ n / 10 < 10 ^ Z.of_nat fuel)%Z).
    { split; [apply Z.div_pos; lia|]. apply Z.div_lt_upper_bound; [lia|].
      rewrite Nat2Z.inj_succ, Z.pow_succ_r in Hn by lia. lia. }
    assert (fuel ≠ 0) by (intros ->; simpl in Hd; lia).
    destruct (IH (n / 10)%Z (digit_char (n mod 10) :: acc)) as (k & Hk & Hv); [done..|].
    exists (k + 1)%Z. split; [lia|]. intros a. rewrite Hv. cbn [digits_val].
    rewrite digit_val_char by done. simpl. f_equal. rewrite Z.pow_add_r by lia.
    pose proof (Z.div_mod n 10). lia.
Qed.

(** They are digits, and there is at least one of them. *)
Lemma itoa_loop_chars fuel n acc :
  (0 ≤ n)%Z → ∀ c, c ∈ itoa_loop fuel n acc → c ∈ acc ∨ ∃ d, (0 ≤ d < 10)%Z ∧ c = digit_char d.
Proof.
  revert n acc; induction fuel as [|fuel IH]; intros n acc Hn c; [by left|].
  cbn [itoa_loop]. assert (Hm : (0 ≤ n mod 10 < 10)%Z) by (apply Z.mod_pos_bound; lia).
  case_bool_decide as Hcase; intros Hc.
  - apply elem_of_cons in Hc as [->|Hc]; [right; eauto|by left].
  - destruct (IH (n / 10)%Z _ ltac:(apply Z.div_pos; lia) c Hc) as [Ha|Ha]; [|by right].
    apply elem_of_cons in Ha as [->|Ha]; [right; eauto|by left].
Qed.

Lemma itoa_loop_nonempty fuel n acc : fuel ≠ 0 ∨ acc ≠ [] → itoa_loop fuel n acc ≠ [].
Proof.
  revert n acc; induction fuel as [|fuel IH]; intros n acc H; [by destruct H|].
  cbn [itoa_loop]. case_bool_decide; [done|]. apply IH. by right.
Qed.

Definition is_code (n : Z) : Prop := (0 ≤ n < 10000000000)%Z.

Lemma itoa_chars n c : is_code n → c ∈ itoa n → c ≠ dash ∧ c ≠ comma ∧ c ≠ "+"%char.
Proof.
  intros Hn Hc. destruct (itoa_loop_chars 10 n [] (proj1 Hn) c Hc) as [Hc'|(d & Hd & ->)]; [by apply not_elem_of_nil in Hc'|].
  by apply digit_char_plain.
Qed.

Lemma itoa_nonempty n : itoa n ≠ [].
Proof. by apply itoa_loop_nonempty; left. Qed.

Lemma Atoi_digits c s v :
  c ≠ dash → c ≠ "+"%char → digits_val 0 (c :: s) = Some v →
  (-9223372036854775808 ≤ v ≤ 9223372036854775807)%Z → Atoi (c :: s) = Some v.
Proof.
  intros H1 H2 Hv Hb. unfold Atoi.
  destruct c as [[] [] [] [] [] [] [] []]; try (by exfalso; apply H1); try (by exfalso; apply H2);
    cbv beta iota; rewrite Hv; simpl; by rewrite bool_decide_true.
Qed.

(** Reading what was printed gives the number. *)
Lemma Atoi_itoa n : is_code n → Atoi (itoa n) = Some n.
Proof.
  intros Hn. destruct (itoa_loop_val 10 n [] Hn) as (k & Hk & Hv); [done|]. specialize (Hv 0%Z).
  fold (itoa n) in Hv. pose proof (itoa_chars n) as Hch. destruct (itoa n) as [|c s] eqn:E; [by apply itoa_nonempty in E|].
  destruct (Hch c Hn) as (H1 & _ & H3); [left|].
  apply Atoi_digits; [done..| |unfold is_code in Hn; lia]. rewrite Hv. simpl. f_equal; lia.
Qed.

(** ** The parser on printed patterns *)

(** The valid codes of a protocol are non-negative int32 values. *)
Definition codes_range (v : codeRange) : Prop := (0 ≤ cr_start v)%Z ∧ (cr_end v < 2147483648)%Z.

Lemma codes_range_code v c : codes_range v → matchCode v c = true → is_code c ∧ i32_wrap c = c.
Proof.
  intros [H1 H2] Hc. apply matchCode_true in Hc. unfold is_code. split; [lia|]. apply i32_wrap_small. lia.
Qed.

Lemma itoa_free n x : is_code n → x = dash ∨ x = comma → x ∉ itoa n.
Proof. intros Hn Hx Hin. destruct (itoa_chars n x Hn Hin) as (? & ? & _). by destruct Hx. Qed.

Lemma pattern_text_free v p : codes_range v → pattern_ok v p → comma ∉ pattern_text p.
Proof.
  intros Hv Hp. destruct p as [|c|a b]; simpl in *; [apply not_elem_of_nil|..].
  - apply itoa_free; [by apply (codes_range_code v)|by right].
  - destruct Hp as (Ha & Hb & _). rewrite elem_of_app, elem_of_cons.
    intros [Hin|[Hin|Hin]]; [|done|]; (eapply itoa_free; [|by right|exact Hin]); by apply (codes_range_code v).
Qed.

Lemma compileRange_ok p v a b :
  matchCode v b = true → i32_wrap b = b → (a ≤ b)%Z → compileRange p v a b = inr (CodeRange a b).
Proof.
  intros Hb Hw Hab. unfold compileRange. rewrite Hw, Hb. simpl. rewrite bool_decide_false by lia. done.
Qed.

Lemma compilePattern_text v p :
  codes_range v → pattern_ok v p → pattern_text p ≠ [] →
  ∃ r, pattern_range p = [r] ∧ compilePattern (pattern_text p) v = inr r.
Proof.
  intros Hv Hp Hne. unfold compilePattern. destruct p as [|c|a b]; simpl in Hp; [done|..].
  - destruct (codes_range_code v c Hv Hp) as [Hc Hw]. eexists; split; [done|]. simpl.
    rewrite Split_none by (apply itoa_free; auto). simpl. rewrite Atoi_itoa by done. rewrite Hw, Hp. simpl.
    by apply compileRange_ok.
  - destruct Hp as (Ha & Hb & Hab). destruct (codes_range_code v a Hv Ha) as [Hca Hwa].
    destruct (codes_range_code v b Hv Hb) as [Hcb Hwb]. eexists; split; [done|]. simpl.
    rewrite Split_app by (apply itoa_free; auto). rewrite Split_none by (apply itoa_free; auto).
    simpl. rewrite Atoi_itoa by done. rewrite Hwa, Ha. simpl. rewrite Atoi_itoa by done. by apply compileRange_ok.
Qed.

Lemma parsePieces_text v ps acc :
  codes_range v → Forall (pattern_ok v) ps →
  parsePieces (pattern_text <$> ps) v acc = inr (acc ++ (ps ≫= pattern_range)).
Proof.
  intros Hv Hps. revert acc; induction Hps as [|p ps Hp Hps IH]; intros acc; [by rewrite app_nil_r|].
  rewrite fmap_cons. cbn [mbind list_bind]. destruct (pattern_text p) as [|c s] eqn:E.
  - destruct p as [|c|a b]; simpl in *; [apply IH|by apply itoa_nonempty in E|by destruct (itoa a)].
  - destruct (compilePattern_text v p Hv Hp) as (r & Hr & Hc); [by rewrite E|]. rewrite E in Hc.
    cbn [parsePieces]. rewrite Hc, IH, Hr. by rewrite <-app_assoc.
Qed.

Lemma parsePatterns_text v ps :
  codes_range v → Forall (pattern_ok v) ps →
  parsePatterns (patterns_text ps) v =
    inr (if decide (patterns_text ps = []) then None else Some (ps ≫= pattern_range)).
Proof.
  intros Hv Hps. unfold parsePatterns. case_decide as Ht; [by rewrite Ht|].
  assert (Hs : Split comma (patterns_text ps) = pattern_text <$> ps).
  { apply Split_Join.
    - intros E%fmap_nil_inv. by subst.
    - apply Forall_fmap. eapply list.Forall_impl; [exact Hps|]. intros p Hp. by apply (pattern_text_free v). }
  rewrite Hs, (parsePieces_text v ps [] Hv Hps). by destruct (patterns_text ps).
Qed.

Lemma existsb_listed ps c : existsb (λ r, matchCode r c) (ps ≫= pattern_range) = true ↔ listed ps c.
Proof.
  rewrite existsb_exists. unfold listed. split.
  - intros (r & Hr & Hm). apply list_elem_of_In, list_elem_of_bind in Hr as (p & Hr & Hp).
    apply matchCode_true in Hm. exists p. split; [done|].
    destruct p; simpl in *; [by apply not_elem_of_nil in Hr|apply list_elem_of_singleton in Hr; subst; simpl in *; lia..].
  - intros (p & Hp & Hl). destruct p as [|d|a b]; [done|..].
    + exists (CodeRange d d). split; [|apply matchCode_true; simpl; lia].
      apply list_elem_of_In, list_elem_of_bind. exists (PCode d). split; [by left|done].
    + exists (CodeRange a b). split; [|by apply matchCode_true].
      apply list_elem_of_In, list_elem_of_bind. exists (PRange a b). split; [by left|done].
Qed.

Lemma mustRetry_text ps c :
  mustRetryStatusCode c (if decide (patterns_text ps = []) then None else Some (ps ≫= pattern_range)) = true ↔
  patterns_text ps = [] ∨ listed ps c.
Proof. case_decide as Ht; simpl; [tauto|]. rewrite existsb_listed. tauto. Qed.

Lemma http_codes_range : codes_range validHTTPStatusCodeRange.
Proof. done. Qed.

Lemma grpc_codes_range : codes_range validGRPCStatusCodeRange.
Proof. done. Qed.

#[export] Hint Resolve http_codes_range grpc_codes_range : dapr.

(** ** Soundness for any text *)

Definition range_within (v r : codeRange) : Prop :=
  (cr_start v ≤ cr_start r)%Z ∧ (cr_start r ≤ cr_end r)%Z ∧ (cr_end r ≤ cr_end v)%Z.

Lemma compileRange_within p v a b r :
  matchCode v a = true → compileRange p v a b = inr r → range_within v r.
Proof.
  unfold compileRange. intros Ha H. apply matchCode_true in Ha. unfold range_within.
  destruct (matchCode v (i32_wrap b)) eqn:Hb; [|done]. apply matchCode_true in Hb. simpl in H.
  case_bool_decide; simplify_eq/=. lia.
Qed.

Lemma compilePattern_within p v r : compilePattern p v = inr r → range_within v r.
Proof.
  unfold compilePattern. intros H. destruct (2 <? _); [done|]. destruct (Atoi _) as [a|]; [|done].
  destruct (matchCode v (i32_wrap a)) eqn:Ha; [|done]. simpl in H.
  destruct (_ !! 1) as [p1|]; [destruct (Atoi p1); [|done]|]; by eapply compileRange_within.
Qed.

Lemma parsePieces_within ps v acc l :
  Forall (range_within v) acc → parsePieces ps v acc = inr l → Forall (range_within v) l.
Proof.
  revert acc; induction ps as [|p ps IH]; intros acc Hacc H; [by simplify_eq/=|].
  destruct p as [|c s]; [by apply (IH acc)|]. cbn [parsePieces] in H.
  destruct (compilePattern (c :: s) v) as [e|r] eqn:E; [done|].
  apply (IH (acc ++ [r])); [|done]. apply Forall_app. split; [done|].
  constructor; [by eapply compilePattern_within|done].
Qed.

Lemma parsePatterns_within t v l :
  parsePatterns t v = inr (Some l) → Forall (range_within v) l.
Proof.
  unfold parsePatterns. destruct t as [|c t]; [done|]. destruct (parsePieces _ _ _) as [e|l'] eqn:E; [done|].
  intros [= <-]. by eapply parsePieces_within.
Qed.

(** ** The two decisions *)

Definition known_code (c : Z) : bool :=
  matchCode validGRPCStatusCodeRange c || matchCode validHTTPStatusCodeRange c.

(** On the codes of the two protocols the loop and the callers agree. *)
Lemma decisions_agree m c :
  known_code c = true → statusCodeNeedRetry m c = ErrorNeedRetry m c (detectErrorProto c).
Proof.
  unfold known_code, statusCodeNeedRetry, ErrorNeedRetry, detectErrorProto. intros H.
  destruct (matchCode validGRPCStatusCodeRange c) eqn:Hg, (matchCode validHTTPStatusCodeRange c) eqn:Hh; try done.
  apply matchCode_true in Hg, Hh. simpl in *. lia.
Qed.

(** On the other codes the loop never retries, and the callers are told that
    the condition excludes the error exactly when gRPC codes are listed. *)
Lemma decisions_unknown conditions m c :
  ParseRetryConditionMatch conditions = (m, None) → known_code c = false →
  statusCodeNeedRetry m c = false ∧
  ErrorNeedRetry m c (detectErrorProto c) = bool_decide (gRPCStatusCodes m = None).
Proof.
  unfold known_code. intros Hm Hc. apply orb_false_iff in Hc as [Hg Hh].
  unfold statusCodeNeedRetry, ErrorNeedRetry, detectErrorProto. rewrite Hg, Hh. split; [done|].
  unfold mustRetryStatusCode. destruct (gRPCStatusCodes m) as [l|] eqn:El; [|done].
  rewrite bool_decide_false by done. assert (Hl : Forall (range_within validGRPCStatusCodeRange) l).
  { destruct conditions as [cs|]; simpl in Hm; [|by simplify_eq/=].
    destruct (parsePatterns (HTTPStatusCodes cs) _); [done|].
    destruct (parsePatterns (GRPCStatusCodes cs) _) as [|g] eqn:Eg; [done|]. simplify_eq/=.
    by eapply parsePatterns_within. }
  apply not_true_iff_false. rewrite existsb_exists. intros (r & Hr & Hm').
  apply list_elem_of_In in Hr. rewrite list.Forall_forall in Hl. specialize (Hl r Hr) as (H1 & H2 & H3).
  apply matchCode_true in Hm'. apply not_true_iff_false in Hg. apply Hg, matchCode_true. lia.
Qed.

(** ** Properties *)

(** C35: Retry conditions mean what is written. The text of any lists of codes and ranges
    that are valid for HTTP and gRPC, empty patterns included, is accepted, and the loop
    then retries a status code exactly if its protocol's text is empty or one of the
    patterns of its protocol lists it. *)
Theorem retry_condition_exact (hs gs : list pattern) :
  Forall (pattern_ok validHTTPStatusCodeRange) hs → Forall (pattern_ok validGRPCStatusCodeRange) gs →
  ∃ m, ParseRetryConditionMatch
         (Some {| HTTPStatusCodes := patterns_text hs; GRPCStatusCodes := patterns_text gs |}) = (m, None) ∧
    ∀ c, statusCodeNeedRetry m c = true ↔
      (0 ≤ c ≤ 16)%Z ∧ (patterns_text gs = [] ∨ listed gs c) ∨
      (100 ≤ c ≤ 599)%Z ∧ (patterns_text hs = [] ∨ listed hs c).
Proof.
  intros Hh Hg. eexists. split.
  { simpl. rewrite !parsePatterns_text by eauto with dapr. done. }
  intros c. unfold statusCodeNeedRetry. simpl.
  destruct (matchCode validGRPCStatusCodeRange c) eqn:E1; [|destruct (matchCode validHTTPStatusCodeRange c) eqn:E2].
  - apply matchCode_true in E1. simpl in E1. rewrite mustRetry_text. intuition lia.
  - apply matchCode_true in E2. simpl in E2. apply not_true_iff_false in E1. rewrite matchCode_true in E1. simpl in E1.
    rewrite mustRetry_text. intuition lia.
  - apply not_true_iff_false in E1, E2. rewrite matchCode_true in E1, E2. simpl in *. intuition (try lia; try done).
Qed.

(** "500-502,,599" and "14", a range with an empty pattern beside it: the
    condition retries 501 and not 503. *)
Lemma retry_condition_exact_witness :
  patterns_text [PRange 500 502; PNone; PCode 599] = bytes "500-502,,599" ∧
  ∃ m, ParseRetryConditionMatch
         (Some {| HTTPStatusCodes := bytes "500-502,,599"; GRPCStatusCodes := bytes "14" |}) = (m, None) ∧
    statusCodeNeedRetry m 501 = true.
Proof.
  split; [vm_compute; reflexivity|].
  destruct (retry_condition_exact [PRange 500 502; PNone; PCode 599] [PCode 14]) as (m & Hm & Hc);
    [by repeat constructor..|].
  exists m. split; [exact Hm|]. apply Hc. right. split; [lia|]. right. exists (PRange 500 502). split; [left|lia].
Defined.

(** A number is truncated to an int32 before it is checked. *)
Example status_code_truncated :
  compilePattern (bytes "4294967496") validHTTPStatusCodeRange = inr (CodeRange 200 200).
Proof. vm_compute. reflexivity. Qed.

(** A list without any code is not an absent list: nothing is retried. *)
Example separators_only : parsePatterns (bytes ",") validHTTPStatusCodeRange = inr (Some []).
Proof. vm_compute. reflexivity. Qed.
