(* ===== verification/GoTime.v ===== *)
(** * Durations as the Go library parses them

    [time.ParseDuration], on which the durations of resiliency configurations
    rest: a sign and a sequence of decimal numbers, each with a unit.  Integers
    are uint64 with the checks of the library; fractions go through float64
    arithmetic, written with the binary64 operations of the specification of
    floating-point numbers. *)

From Stdlib Require Import Ascii SpecFloat.
From S2P Require Import Prelude GoStrings ResiliencyRetry.

Local Open Scope Z_scope.

Definition two63 : Z := 9223372036854775808.

(** ** Leading numbers *)

(** [leadingInt]: the leading digits and the rest; [None] on overflow. *)
Fixpoint leadingInt (x : Z) (s : list ascii) : option (Z * list ascii) :=
  match s with
  | [] => Some (x, s)
  | c :: s' =>
      match digit_val c with
      | None => Some (x, s)
      | Some d =>
          if bool_decide (two63 / 10 < x) then None
          else let x' := x * 10 + d in
               if bool_decide (two63 < x') then None else leadingInt x' s'
      end
  end.

(** [leadingFraction]: the digits, the power of ten they are to be divided by,
    and the rest; digits that do not fit are ignored. *)
Fixpoint leadingFraction (x scale : Z) (overflow : bool) (s : list ascii) : Z * Z * list ascii :=
  match s with
  | [] => (x, scale, s)
  | c :: s' =>
      match digit_val c with
      | None => (x, scale, s)
      | Some d =>
          if overflow then leadingFraction x scale true s'
          else if bool_decide ((two63 - 1) / 10 < x) then leadingFraction x scale true s'
          else let y := x * 10 + d in
               if bool_decide (two63 < y) then leadingFraction x scale true s'
               else leadingFraction y (scale * 10) false s'
      end
  end.

(** ** binary64 *)

Definition f64_of_Z (z : Z) : spec_float := binary_normalize 53 1024 z 0 false.

(** [uint64(x)] of a non-negative finite number *)
Definition u64_of_f64 (x : spec_float) : Z :=
  match x with
  | S754_finite false m e => Z.shiftl (Zpos m) e
  | _ => 0
  end.

(** [uint64(float64(f) * (float64(unit) / scale))]; the powers of ten that
    [scale] can be are exact in binary64. *)
Definition fraction_ns (f unit scale : Z) : Z :=
  u64_of_f64 (SFmul 53 1024 (f64_of_Z f) (SFdiv 53 1024 (f64_of_Z unit) (f64_of_Z scale))).

(** ** Durations *)

Definition Nanosecond : Z := 1.
Definition Microsecond : Z := 1000.
Definition Millisecond : Z := 1000000.
Definition Second : Z := 1000000000.
Definition Minute : Z := 60000000000.
Definition Hour : Z := 3600000000000.

(** [unitMap]; the two signs for micro are U+00B5 and U+03BC in UTF-8. *)
Definition unitMap (u : list ascii) : option Z :=
  if decide (u = bytes "ns") then Some Nanosecond
  else if decide (u = bytes "us") then Some Microsecond
  else if decide (u = [ascii_of_nat 194; ascii_of_nat 181; "s"%char]) then Some Microsecond
  else if decide (u = [ascii_of_nat 206; ascii_of_nat 188; "s"%char]) then Some Microsecond
  else if decide (u = bytes "ms") then Some Millisecond
  else if decide (u = bytes "s") then Some Second
  else if decide (u = bytes "m") then Some Minute
  else if decide (u = bytes "h") then Some Hour
  else None.

Definition num_char (c : ascii) : bool := bool_decide (c = dot) || bool_decide (is_Some (digit_val c)).

(** the unit: everything up to the next digit or point *)
Fixpoint take_unit (s : list ascii) : list ascii * list ascii :=
  match s with
  | [] => ([], [])
  | c :: s' => if num_char c then ([], s) else let '(u, r) := take_unit s' in (c :: u, r)
  end.

(** One number with its unit: the value in nanoseconds and the rest. *)
Definition parseTerm (s : list ascii) : option (Z * list ascii) :=
  if negb (match s with c :: _ => num_char c | [] => false end) then None
  else
    '(v, s1) ← leadingInt 0 s;
    let pre := negb (bool_decide (length s1 = length s)) in
    let '(f, scale, s2, post) :=
      match s1 with
      | c :: s1' =>
          if decide (c = dot) then
            let '(f, scale, s2) := leadingFraction 0 1 false s1' in
            (f, scale, s2, negb (bool_decide (length s2 = length s1')))
          else (0, 1, s1, false)
      | [] => (0, 1, s1, false)
      end in
    if negb pre && negb post then None
    else
      let '(u, s3) := take_unit s2 in
      match u with
      | [] => None
      | _ =>
          unit ← unitMap u;
          if bool_decide (two63 / unit < v) then None
          else
            let v := v * unit in
            if bool_decide (0 < f) then
              let v := v + fraction_ns f unit scale in
              if bool_decide (two63 < v) then None else Some (v, s3)
            else Some (v, s3)
      end.

(** the loop over the terms; every term consumes at least one byte *)
Fixpoint parseTerms (fuel : nat) (d : Z) (s : list ascii) : option Z :=
  match s, fuel with
  | [], _ => Some d
  | _, O => None
  | _, S fuel' =>
      '(v, s') ← parseTerm s;
      let d' := (d + v) mod 18446744073709551616 in
      if bool_decide (two63 < d') then None else parseTerms fuel' d' s'
  end.

Definition ParseDuration (s : list ascii) : option Z :=
  let '(neg, s1) :=
    match s with
    | "-"%char :: s' => (true, s')
    | "+"%char :: s' => (false, s')
    | _ => (false, s)
    end in
  if decide (s1 = bytes "0") then Some 0
  else match s1 with
       | [] => None
       | _ =>
           d ← parseTerms (length s1) 0 s1;
           if neg : bool then Some (i64_wrap (- d))
           else if bool_decide (two63 - 1 < d) then None else Some d
       end.

Example duration_1h30 : ParseDuration (bytes "1h30m") = Some 5400000000000.
Proof. vm_compute. reflexivity. Qed.

Example duration_fraction : ParseDuration (bytes "-1.5h") = Some (-5400000000000).
Proof. vm_compute. reflexivity. Qed.

Example duration_tenths : ParseDuration (bytes "0.1s") = Some 100000000.
Proof. vm_compute. reflexivity. Qed.

Example duration_missing_unit : ParseDuration (bytes "12") = None.
Proof. vm_compute. reflexivity. Qed.

Example duration_overflow : ParseDuration (bytes "2562048h") = None.
Proof. vm_compute. reflexivity. Qed.

Example duration_max : ParseDuration (bytes "9223372036854775807ns") = Some 9223372036854775807.
Proof. vm_compute. reflexivity. Qed.

(** ** Lemmas *)

Lemma leadingInt_length s : ∀ x v r, leadingInt x s = Some (v, r) → (length r ≤ length s)%nat.
Proof.
  induction s as [|c s IH]; intros x v r Hl; cbn [leadingInt] in Hl; [by simplify_eq|].
  destruct (digit_val c); [|by simplify_eq]. repeat case_bool_decide; try done.
  apply IH in Hl. simpl. lia.
Qed.

Lemma leadingFraction_length s : ∀ x sc o f sc' r,
  leadingFraction x sc o s = (f, sc', r) → (length r ≤ length s)%nat.
Proof.
  induction s as [|c s IH]; intros x sc o f sc' r Hl; cbn [leadingFraction] in Hl; [by simplify_eq|].
  destruct (digit_val c); [|by simplify_eq]. destruct o; [apply IH in Hl; simpl; lia|].
  repeat case_bool_decide; apply IH in Hl; simpl; lia.
Qed.

Lemma take_unit_length s u r : take_unit s = (u, r) → (length u + length r = length s)%nat.
Proof.
  revert u r; induction s as [|c s IH]; intros u r Ht; cbn [take_unit] in Ht; [by simplify_eq|].
  destruct (num_char c); [by simplify_eq|]. destruct (take_unit s) as [u' r']. simplify_eq/=.
  by rewrite (IH u' r).
Qed.

(** Every term consumes its unit at least. *)
Lemma parseTerm_length s v r : parseTerm s = Some (v, r) → (length r < length s)%nat.
Proof.
  unfold parseTerm. destruct (negb _); [done|]. destruct (leadingInt 0 s) as [[v1 s1]|] eqn:Hi; [|done].
  apply leadingInt_length in Hi. simpl.
  assert (Hs2 : ∀ f sc s2 post, match s1 with
      | [] => (0, 1, s1, false)
      | c :: s1' => if decide (c = dot) then
            let '(f, scale, s2) := leadingFraction 0 1 false s1' in
            (f, scale, s2, negb (bool_decide (length s2 = length s1')))
          else (0, 1, s1, false) end = (f, sc, s2, post) → (length s2 ≤ length s1)%nat).
  { intros f sc s2 post. destruct s1 as [|c s1']; [intros; by simplify_eq|]. case_decide; [|intros; by simplify_eq].
    destruct (leadingFraction 0 1 false s1') as [[f' sc'] s2'] eqn:Hf. apply leadingFraction_length in Hf.
    intros. simplify_eq/=. lia. }
  destruct (match s1 with [] => _ | _ :: _ => _ end) as [[[f sc] s2] post]. specialize (Hs2 f sc s2 post eq_refl).
  destruct (_ && _); [done|]. destruct (take_unit s2) as [u s3] eqn:Hu. apply take_unit_length in Hu.
  destruct u as [|c u]; [done|]. destruct (unitMap _); [|done]. simpl in *.
  repeat case_bool_decide; intros; simplify_eq; lia.
Qed.

(** The fuel is enough: more of it changes nothing. *)
Lemma parseTerms_fuel n m d s :
  (length s ≤ n)%nat → (length s ≤ m)%nat → parseTerms n d s = parseTerms m d s.
Proof.
  revert m d s; induction n as [|n IH]; intros m d s Hn Hm.
  { destruct s; [by destruct m|simpl in Hn; lia]. }
  destruct s as [|c s]; [by destruct m|]. destruct m as [|m]; [simpl in Hm; lia|]. cbn [parseTerms].
  destruct (parseTerm (c :: s)) as [[v r]|] eqn:Ht; [|done]. simpl. apply parseTerm_length in Ht.
  case_bool_decide; [done|]. apply IH; simpl in *; lia.
Qed.

Lemma parseTerms_range n d s v :
  0 ≤ d ≤ two63 → parseTerms n d s = Some v → 0 ≤ v ≤ two63.
Proof.
  revert d s; induction n as [|n IH]; intros d s Hd Hp; destruct s as [|c s]; simpl in Hp; simplify_eq; [done|done|].
  destruct (parseTerm (c :: s)) as [[w r]|]; [|done]. simpl in Hp. case_bool_decide as Hb; [done|].
  apply IH in Hp; [done|]. split; [apply Z.mod_pos_bound; lia|lia].
Qed.

Lemma ParseDuration_range s d : ParseDuration s = Some d → - two63 ≤ d < two63.
Proof.
  unfold ParseDuration. destruct (match s with [] => _ | _ :: _ => _ end) as [neg s1].
  case_decide; [intros; simplify_eq; unfold two63; lia|]. destruct s1 as [|c s1]; [done|].
  destruct (parseTerms _ _ _) as [v|] eqn:Hp; [|done]. simpl. apply parseTerms_range in Hp; [|unfold two63; lia].
  destruct neg.
  - intros [= <-]. unfold i64_wrap, two63 in *. pose proof (Z.mod_pos_bound (- v + 9223372036854775808) 18446744073709551616). lia.
  - case_bool_decide; intros; simplify_eq. lia.
Qed.
