(* ===== verification/ResiliencyRunner.v ===== *)
(** * Running an operation under a policy (pkg/resiliency/policy.go, pkg/resiliency/breaker)

    A [Runner] calls an operation through four layers: the timeout, which runs
    the operation in a goroutine of its own and hands its result over through a
    channel of capacity one, the accumulator, the circuit breaker and the retry
    loop.  One call of a runner is modelled as a machine whose events are the
    choices of the scheduler, of the clock and of the two libraries: the
    goroutine of an attempt returns, the runner's select takes the result or the
    end of the context, the breaker admits or rejects, the retry loop goes on or
    stops.  Late goroutines of earlier attempts keep running.

    The libraries are parameters: [Gobreaker] (github.com/sony/gobreaker) and
    [Backoff] (the loop of github.com/dapr/kit/retry over
    github.com/cenkalti/backoff), with the documented behaviour as laws. *)

From S2P Require Import Prelude ResiliencyRetry.

(** ** Retry configurations (github.com/dapr/kit/retry) *)

Inductive PolicyType := PolicyConstant | PolicyExponential.

#[export] Instance PolicyType_eq_dec : EqDecision PolicyType.
Proof. solve_decision. Defined.

(** [retry.Config]; durations in nanoseconds, the factors as fractions. *)
Record Config := {
  Policy : PolicyType;
  Duration : Z;
  InitialInterval : Z;
  RandomizationFactor : Z * positive;
  Multiplier : Z * positive;
  MaxInterval : Z;
  MaxElapsedTime : Z;
  MaxRetries : Z
}.

Record Retry := { Retry_Config : Config; Retry_Match : RetryConditionMatch }.

Definition NewRetry (retryConfig : Config) (statusCodeMatch : RetryConditionMatch) : Retry :=
  {| Retry_Config := retryConfig; Retry_Match := statusCodeMatch |}.

(** ** The libraries *)

Inductive gbState := gbClosed | gbHalfOpen | gbOpen.

#[export] Instance gbState_eq_dec : EqDecision gbState.
Proof. solve_decision. Defined.

(** The two errors with which gobreaker rejects a request. *)
Inductive gbReject := gbErrOpenState | gbErrTooManyRequests.

(** [gobreaker.CircuitBreaker]: [Execute] decides before the request
    ([gb_before]), and records afterwards whether it failed ([gb_after]); both,
    and [State], depend on the time. *)
Class Gobreaker := {
  gb : Type;
  gb_time : Type;
  gb_State : gb → gb_time → gbState;
  gb_before : gb → gb_time → option gbReject * gb;
  gb_after : gb → gb_time → bool → gb
}.

(** What the retry loop does after an attempt; [notify] says whether it calls
    the notification callback before it goes on. *)
Inductive verdict := Again (notify : bool) | Stop (err : option error).

Definition context_error (e : error) : Prop := e = DeadlineExceeded ∨ e = Canceled.

(** [retry.NotifyRecoverWithData] over a back-off made by
    [Config.NewBackOffWithContext]: [loop_next c n err env] is its decision when
    attempt [n + 1] ended with [err]; [env] is the clock and the state of the
    context, [interrupted] says that the context is done or the elapsed time of
    an exponential policy used up. *)
Class Backoff := {
  loop_env : Type;
  interrupted : loop_env → bool;
  loop_next : Config → nat → option error → loop_env → verdict;
  (** a success ends the loop *)
  loop_success c n env : loop_next c n None env = Stop None;
  (** a [PermanentError] ends the loop with the error it wraps *)
  loop_permanent c n e e' env : AsPermanent e = Some e' → loop_next c n (Some e) env = Stop (Some e');
  (** any other error is retried while retries are left and nothing interrupts *)
  loop_retry c n e env :
    AsPermanent e = None → interrupted env = false → (MaxRetries c < 0 ∨ Z.of_nat n < MaxRetries c)%Z →
    ∃ notify, loop_next c n (Some e) env = Again notify;
  (** not more often than the configuration says *)
  loop_budget c n e env notify :
    (0 ≤ MaxRetries c ≤ Z.of_nat n)%Z → loop_next c n (Some e) env ≠ Again notify;
  (** and when it stops it reports the error of the attempt or of the context *)
  loop_stop c n e env err :
    AsPermanent e = None → loop_next c n (Some e) env = Stop err →
    err = Some e ∨ ∃ ce, context_error ce ∧ err = Some ce
}.

(** ** The circuit breaker wrapper (breaker/circuitbreaker.go) *)

Inductive CircuitBreakerState := StateClosed | StateOpen | StateHalfOpen | StateUnknown.

#[export] Instance CircuitBreakerState_eq_dec : EqDecision CircuitBreakerState.
Proof. solve_decision. Defined.

Definition IsErrorPermanent (err : option error) : bool :=
  match err with
  | None => false
  | Some e => Is e ErrOpenState || Is e ErrTooManyRequests
  end.

Section breaker.
Context `{Gobreaker}.

(** A breaker that was not initialized has no gobreaker. *)
Definition State (breaker : option gb) (now : gb_time) : CircuitBreakerState :=
  match breaker with
  | None => StateUnknown
  | Some g =>
      match gb_State g now with
      | gbClosed => StateClosed
      | gbOpen => StateOpen
      | gbHalfOpen => StateHalfOpen
      end
  end.

(** The part of [Execute] after the call of the library: its errors are
    replaced by the ones of the package, which are the same variables. *)
Definition Execute_error (err : option error) : option error :=
  match err with
  | None => None
  | Some e =>
      if Is e ErrOpenState then Some ErrOpenState
      else if Is e ErrTooManyRequests then Some ErrTooManyRequests
      else Some e
  end.

Definition reject_error (r : gbReject) : error :=
  match r with gbErrOpenState => ErrOpenState | gbErrTooManyRequests => ErrTooManyRequests end.

End breaker.

(** The counts the library passes to [ReadyToTrip], all uint32. *)
Record Counts := {
  Requests : Z; TotalSuccesses : Z; TotalFailures : Z;
  ConsecutiveSuccesses : Z; ConsecutiveFailures : Z
}.

(** The result of a CEL expression: an error, a boolean or another value. *)
Inductive evalResult := EvalError | EvalBool (b : bool) | EvalOther.

(** [tripFn] of [Initialize]: the variables the expression sees, and what a
    result that is not a boolean means.  Without an expression the library uses
    its default. *)
Definition tripFn (Trip : option (list (string * Z) → evalResult)) : option (Counts → bool) :=
  match Trip with
  | None => None
  | Some ev => Some (λ counts,
      match ev [("requests"%string, Requests counts);
                ("totalSuccesses"%string, TotalSuccesses counts);
                ("totalFailures"%string, TotalFailures counts);
                ("consecutiveSuccesses"%string, ConsecutiveSuccesses counts);
                ("consecutiveFailures"%string, ConsecutiveFailures counts)] with
      | EvalError => false
      | EvalBool b => b
      | EvalOther => false
      end)
  end.

(** ** Policy definitions *)

(** A policy without its logger and its decorator of contexts; [pd_cb] says
    whether a breaker is set (its state is in the machine below), the metric
    callbacks are set by [addMetricsToPolicy] or nil. *)
Record PolicyDefinition := {
  pd_name : string;
  pd_t : Z;
  pd_r : option Retry;
  pd_cb : bool;
  addTimeoutActivatedMetric : bool;
  addRetryActivatedMetric : bool;
  addCBStateChangedMetric : bool
}.

Definition HasRetries (p : PolicyDefinition) : bool :=
  match pd_r p with None => false | Some r => bool_decide (MaxRetries (Retry_Config r) ≠ 0%Z) end.

Definition HasBoundedRetries (p : PolicyDefinition) : bool :=
  match pd_r p with
  | None => false
  | Some r =>
      if bool_decide (0 ≤ MaxRetries (Retry_Config r))%Z then true
      else bool_decide (Policy (Retry_Config r) = PolicyExponential) &&
           bool_decide (0 < MaxElapsedTime (Retry_Config r))%Z
  end.

Definition RetryExcluded (p : PolicyDefinition) (err : error) : bool :=
  match pd_r p with
  | None => false
  | Some r =>
      match AsCode err with
      | None => false
      | Some (c, sc) => negb (ErrorNeedRetry (Retry_Match r) c sc)
      end
  end.

(** What [timeoutError] reads of the context and of the clock: the error of the
    context, its deadline, and the two readings of the time. *)
Record ctxView := {
  ctx_Err : option error;
  ctx_Deadline : option Z;
  now1 : Z;
  now2 : Z
}.

Definition deadlineClockTolerance : Z := 16000000.

Definition timeoutError (ctx : ctxView) (err : option error) : option error :=
  match err with
  | None => None
  | Some e =>
      match ctx_Err ctx with
      | Some cerr => Some cerr
      | None =>
          match ctx_Deadline ctx with
          | None => None
          | Some deadline =>
              if bool_decide (deadline ≤ now1 ctx)%Z then Some DeadlineExceeded
              else if bool_decide (deadline - now2 ctx ≤ deadlineClockTolerance)%Z then
                match AsCode e with
                | Some (c, _) => if bool_decide (c = 4%Z ∨ c = 1%Z) then Some DeadlineExceeded else None
                | None => None
                end
              else None
          end
      end
  end.

(** ** The runner *)

Definition is_context_error (e : error) : bool := bool_decide (e = DeadlineExceeded ∨ e = Canceled).

Inductive effect (T : Type) :=
| Dispose (v : T)
| Accumulate (v : T)
| TimeoutMetric
| CBStateMetric
| RetryMetric.
Arguments Dispose {_} _.
Arguments Accumulate {_} _.
Arguments TimeoutMetric {_}.
Arguments CBStateMetric {_}.
Arguments RetryMetric {_}.

(** [RunnerOpts]: which of the two callbacks are set. *)
Record RunnerOpts := { Disposer : bool; Accumulator : bool }.

(** The operation of an attempt: its number in the context, what it returned,
    and the channel [done] of the timeout layer (capacity 1). *)
Record attempt (T : Type) := {
  a_number : option Z;
  a_result : option (T * option error);
  a_done : option (T * option error)
}.
Arguments a_number {_} _.
Arguments a_result {_} _.
Arguments a_done {_} _.
Arguments Build_attempt {_} _ _ _.

(** Where the call is: before an attempt, in the operation of one, in the retry
    loop with the result of one, or back in the caller. *)
Inductive phase (T : Type) :=
| Starting
| InOperation (i : nat)
| InLoop (res : T) (err : option error)
| Returned (res : T) (err : option error).
Arguments Starting {_}.
Arguments InOperation {_} _.
Arguments InLoop {_} _ _.
Arguments Returned {_} _ _.

#[export] Instance phase_eq_dec {T} `{EqDecision T} : EqDecision (phase T).
Proof. solve_decision. Defined.

Definition GetAttempt {T} (a : attempt T) : Z := default 0%Z (a_number a).

Section runner.
Context `{Gobreaker} `{Backoff} {T : Type} `{EqDecision T} (zero : T).
Context (def : PolicyDefinition) (opts : RunnerOpts).

Record state := {
  attempts : list (attempt T);
  tries : nat;
  ph : phase T;
  cb : gb;
  prevState : CircuitBreakerState;
  timeoutMetricsActivated : bool;
  effects : list (effect T)
}.

Definition initial (g : gb) (activated : bool) : state :=
  {| attempts := []; tries := 0; ph := Starting; cb := g; prevState := StateUnknown;
     timeoutMetricsActivated := activated; effects := [] |}.

Definition isZero (v : T) : bool := bool_decide (v = zero).

Definition set_ph (p : phase T) (s : state) : state :=
  {| attempts := attempts s; tries := tries s; ph := p; cb := cb s; prevState := prevState s;
     timeoutMetricsActivated := timeoutMetricsActivated s; effects := effects s |}.

Definition set_cb (g : gb) (s : state) : state :=
  {| attempts := attempts s; tries := tries s; ph := ph s; cb := g; prevState := prevState s;
     timeoutMetricsActivated := timeoutMetricsActivated s; effects := effects s |}.

Definition set_attempt (i : nat) (a : attempt T) (s : state) : state :=
  {| attempts := <[i := a]> (attempts s); tries := tries s; ph := ph s; cb := cb s; prevState := prevState s;
     timeoutMetricsActivated := timeoutMetricsActivated s; effects := effects s |}.

Definition add_effects (es : list (effect T)) (s : state) : state :=
  {| attempts := attempts s; tries := tries s; ph := ph s; cb := cb s; prevState := prevState s;
     timeoutMetricsActivated := timeoutMetricsActivated s; effects := effects s ++ es |}.

Definition dispose (v : T) : list (effect T) :=
  if Disposer opts && negb (isZero v) then [Dispose v] else [].

Definition accumulate (v : T) : list (effect T) :=
  if Accumulator opts && negb (isZero v) then [Accumulate v] else [].

(** The metric is counted once in the life of a runner. *)
Definition timeout_metric (s : state) : state :=
  if addTimeoutActivatedMetric def && negb (timeoutMetricsActivated s) then
    {| attempts := attempts s; tries := tries s; ph := ph s; cb := cb s; prevState := prevState s;
       timeoutMetricsActivated := true; effects := effects s ++ [TimeoutMetric] |}
  else s.

(** The function given to the retry loop, after the operation returned: a
    failed result is disposed of, and a status code that must not be retried
    makes the error permanent. *)
Definition retry_filter (r : Retry) (res : T) (err : option error) (s : state) : state :=
  let drop := bool_decide (err ≠ None) && Disposer opts && negb (isZero res) in
  let err' := match err with
              | None => None
              | Some e =>
                  match AsCode e with
                  | None => Some e
                  | Some (c, _) =>
                      if statusCodeNeedRetry (Retry_Match r) c then Some e else Some (Permanent e)
                  end
              end in
  set_ph (InLoop (if drop then zero else res) err') (add_effects (if drop then [Dispose res] else []) s).

(** what follows the layers: the caller, or the retry loop *)
Definition after_layers (res : T) (err : option error) (s : state) : state :=
  match pd_r def with
  | None => set_ph (Returned res err) s
  | Some r => retry_filter r res err s
  end.

(** The rest of the breaker layer, after [Execute]; [resAny] is nil when the
    request was rejected, otherwise a [T]. *)
Definition after_breaker (resAny : option T) (err : option error) (now : gb_time) (s : state) : state :=
  let metric := addCBStateChangedMetric def && negb (bool_decide (prevState s = State (Some (cb s)) now)) in
  let err' := if bool_decide (pd_r def ≠ None) && IsErrorPermanent err then Permanent <$> err else err in
  after_layers (default zero resAny) err' (add_effects (if metric then [CBStateMetric] else []) s).

(** the accumulator and the breaker, on the result of the timeout layer *)
Definition layers (res : T) (err : option error) (now1 now2 : gb_time) (s : state) : state :=
  let s := add_effects (accumulate res) s in
  if pd_cb def then
    after_breaker (Some res) (Execute_error err) now2
      (set_cb (gb_after (cb s) now1 (bool_decide (err = None))) s)
  else after_layers res err s.

(** The operation is started: in a goroutine when there is a timeout. *)
Definition start_operation (s : state) : state :=
  let number := match pd_r def with None => None | Some _ => Some (i32_wrap (Z.of_nat (tries s))) end in
  {| attempts := attempts s ++ [Build_attempt number None None]; tries := tries s;
     ph := InOperation (length (attempts s)); cb := cb s; prevState := prevState s;
     timeoutMetricsActivated := timeoutMetricsActivated s; effects := effects s |}.

Inductive event :=
| EvStart (t1 t2 t3 : gb_time)
| EvOperation (i : nat) (res : T) (err : option error) (t1 t2 : gb_time)
| EvReceive (ctx : ctxView) (t1 t2 : gb_time)
| EvContext (e : error) (t1 t2 : gb_time)
| EvLoop (env : loop_env)
| EvBreaker (g : gb).

Definition start_attempt (t1 t2 t3 : gb_time) (s : state) : state :=
  let s := {| attempts := attempts s; tries := S (tries s); ph := ph s; cb := cb s;
              prevState := if pd_cb def then State (Some (cb s)) t1 else prevState s;
              timeoutMetricsActivated := timeoutMetricsActivated s; effects := effects s |} in
  if pd_cb def then
    match gb_before (cb s) t2 with
    | (Some rej, g) => after_breaker None (Execute_error (Some (reject_error rej))) t3 (set_cb g s)
    | (None, g) => start_operation (set_cb g s)
    end
  else start_operation s.

(** The operation of attempt [i] returns.  Without a timeout it was called by
    the runner; with one its goroutine sends the result if the channel is
    empty, and disposes of it otherwise. *)
Definition operation_returns (i : nat) (a : attempt T) (res : T) (err : option error) (t1 t2 : gb_time) (s : state) : state :=
  if bool_decide (0 < pd_t def)%Z then
    match a_done a with
    | None => set_attempt i (Build_attempt (a_number a) (Some (res, err)) (Some (res, err))) s
    | Some _ => add_effects (dispose res) (set_attempt i (Build_attempt (a_number a) (Some (res, err)) (a_done a)) s)
    end
  else layers res err t1 t2 (set_attempt i (Build_attempt (a_number a) (Some (res, err)) None) s).

(** The select of the timeout layer takes the result. *)
Definition receive (i : nat) (a : attempt T) (res : T) (err : option error) (ctx : ctxView) (t1 t2 : gb_time) (s : state) : state :=
  let s := set_attempt i (Build_attempt (a_number a) (a_result a) None) s in
  match timeoutError ctx err with
  | Some terr => layers zero (Some terr) t1 t2 (timeout_metric (add_effects (dispose res) s))
  | None => layers res err t1 t2 s
  end.

(** The select of the timeout layer takes the end of the context: the runner
    fills the channel, or, when a result arrived meanwhile, disposes of it. *)
Definition context_done (i : nat) (a : attempt T) (e : error) (t1 t2 : gb_time) (s : state) : state :=
  let s := match a_done a with
           | None => set_attempt i (Build_attempt (a_number a) (a_result a) (Some (zero, None))) s
           | Some (res, _) => add_effects (dispose res) (set_attempt i (Build_attempt (a_number a) (a_result a) None) s)
           end in
  layers zero (Some e) t1 t2 (timeout_metric s).

(** What the context can say to [timeoutError]. *)
Definition view_ok (ctx : ctxView) : bool :=
  match ctx_Err ctx with None => true | Some e => is_context_error e end.

Definition step (ev : event) (s : state) : option state :=
  match ev with
  | EvStart t1 t2 t3 =>
      match ph s with Starting => Some (start_attempt t1 t2 t3 s) | _ => None end
  | EvOperation i res err t1 t2 =>
      match attempts s !! i with
      | Some a =>
          if bool_decide (a_result a = None) &&
             (bool_decide (0 < pd_t def)%Z ||
              match ph s with InOperation j => bool_decide (i = j) | _ => false end)
          then Some (operation_returns i a res err t1 t2 s) else None
      | None => None
      end
  | EvReceive ctx t1 t2 =>
      match ph s with
      | InOperation i =>
          match attempts s !! i with
          | Some a =>
              match a_done a with
              | Some (res, err) =>
                  if bool_decide (0 < pd_t def)%Z && view_ok ctx then Some (receive i a res err ctx t1 t2 s) else None
              | None => None
              end
          | None => None
          end
      | _ => None
      end
  | EvContext e t1 t2 =>
      match ph s with
      | InOperation i =>
          match attempts s !! i with
          | Some a =>
              if bool_decide (0 < pd_t def)%Z && is_context_error e then Some (context_done i a e t1 t2 s) else None
          | None => None
          end
      | _ => None
      end
  | EvLoop env =>
      match ph s, pd_r def with
      | InLoop res err, Some r =>
          match loop_next (Retry_Config r) (tries s - 1) err env with
          | Again notify =>
              Some (set_ph Starting (add_effects (if notify && addRetryActivatedMetric def then [RetryMetric] else []) s))
          | Stop err' => Some (set_ph (Returned res err') s)
          end
      | _, _ => None
      end
  | EvBreaker g => Some (set_cb g s)
  end.

Fixpoint runs (es : list event) (s : state) : option state :=
  match es with
  | [] => Some s
  | e :: es' => match step e s with Some s' => runs es' s' | None => None end
  end.

End runner.

(** Without a policy the operation is called once, and its result reported to
    the accumulator. *)
Definition run_without_policy {T} `{EqDecision T} (zero : T) (opts : RunnerOpts) (res : T) (err : option error) :
  list (effect T) * (T * option error) :=
  (accumulate zero opts res, (res, err)).

(** ** A client: the end of a pub/sub delivery (pkg/runtime/subscription/subscription.go) *)

(** [contribpubsub.ErrRetriesExhausted] *)
Definition ErrRetriesExhausted : error := Plain "retries exhausted".

(** What the handler of a message tells the component, from the result of the
    runner: [dlqErr] is the error of sending to the dead letter topic. *)
Definition delivery_error (DeadLetterTopic : string) (dlqErr : option error)
    (policyDef : option PolicyDefinition) (ctxErr : option error) (err : option error) : option error :=
  match err with
  | None => None
  | Some e =>
      if bool_decide (e = Canceled) then Some e
      else if bool_decide (DeadLetterTopic ≠ EmptyString) && bool_decide (dlqErr = None) then None
      else match policyDef with
           | None => Some e
           | Some p =>
               if bool_decide (DeadLetterTopic = EmptyString) && HasBoundedRetries p &&
                  bool_decide (ctxErr = None) && negb (RetryExcluded p e) &&
                  negb (IsErrorPermanent (Some e))
               then Some (Joined "%w: %w" ErrRetriesExhausted e) else Some e
           end
  end.
