(* ===== verification/ResiliencyRunnerProps.v ===== *)
(** * What running an operation under a policy guarantees

    Over the machine of [ResiliencyRunner]: no result of an operation leaks
    ([runner_no_leak]), the attempts stay within the budget of the policy and
    the runner gives up only for a reason ([runner_gives_up]), a hung operation
    does not hang its caller ([runner_finishes]), and when the end of a pub/sub
    delivery reports that the retries are exhausted ([exhausted_is_exhausted],
    [unknown_status_reported_exhausted]). *)

From S2P Require Import Prelude ResiliencyRetry ResiliencyRunner.

(** ** Lists *)

(** Replacing an element of a list exchanges its contribution. *)
Lemma bind_insert {A B} (f : A → list B) (l : list A) i a b :
  l !! i = Some a → f a ++ (<[i := b]> l ≫= f) ≡ₚ f b ++ (l ≫= f).
Proof.
  revert i; induction l as [|x l IH]; intros [|i] Hl; simplify_eq/=.
  - rewrite !(assoc_L (++)). apply Permutation_app_tail. apply Permutation_app_comm.
  - specialize (IH i Hl). rewrite (Permutation_app_swap_app (f a)), IH. by rewrite Permutation_app_swap_app.
Qed.

Section props.
Context `{Gobreaker} `{Backoff} {T : Type} `{EqDecision T} (zero : T).
Context (def : PolicyDefinition) (opts : RunnerOpts).

Implicit Types (s : state (T := T)) (v res : T) (err : option error).

Local Notation layers := (layers zero def opts).
Local Notation after_layers := (after_layers zero def opts).
Local Notation after_breaker := (after_breaker zero def opts).
Local Notation retry_filter := (retry_filter zero opts).
Local Notation step := (step zero def opts).
Local Notation runs := (runs zero def opts).

(** ** Accounting for results *)

(** a result that is not the zero value *)
Definition nz (v : T) : list T := if bool_decide (v = zero) then [] else [v].

Definition nz_of (o : option (T * option error)) : list T :=
  match o with Some (v, _) => nz v | None => [] end.

(** What the operations returned, what is in a channel, what was disposed of,
    what the runner holds. *)
Definition produced s : list T := attempts s ≫= (λ a, nz_of (a_result a)).
Definition channels s : list T := attempts s ≫= (λ a, nz_of (a_done a)).
Definition disposals (es : list (effect T)) : list T :=
  es ≫= (λ e, match e with Dispose v => [v] | _ => [] end).
Definition held s : list T :=
  match ph s with InLoop v _ | Returned v _ => nz v | _ => [] end.

(** The attempt in progress, if any. *)
Definition current s : option nat := match ph s with InOperation i => Some i | _ => None end.

Lemma nz_zero : nz zero = [].
Proof. unfold nz. by rewrite bool_decide_true. Qed.

Lemma disposals_app es1 es2 : disposals (es1 ++ es2) = disposals es1 ++ disposals es2.
Proof. unfold disposals. by rewrite bind_app. Qed.

Lemma disposals_dispose v : Disposer opts = true → disposals (dispose zero opts v) = nz v.
Proof. intros Hd. unfold dispose, nz, isZero. rewrite Hd. by destruct (bool_decide (v = zero)). Qed.

Lemma disposals_accumulate v : disposals (accumulate zero opts v) = [].
Proof. unfold accumulate. by destruct (_ && _). Qed.

(** ** The layers *)

(** Whatever the layers make of a result, nothing else of the state changes,
    and the result is held or disposed of; with a retry policy a failure holds
    nothing. *)
Definition handed_on s s' v err : Prop :=
  attempts s' = attempts s ∧ tries s' = tries s ∧
  ∃ v' err' es, effects s' = effects s ++ es ∧
    (ph s' = Returned v' err' ∧ pd_r def = None ∨ ph s' = InLoop v' err' ∧ pd_r def ≠ None) ∧
    (err' = None ↔ err = None) ∧
    (err = None → v' = v) ∧
    (Disposer opts = true → nz v ≡ₚ disposals es ++ nz v' ∧ (pd_r def ≠ None → err' ≠ None → v' = zero)).

Lemma handed_on_app s s0 s' v err es0 :
  attempts s0 = attempts s → tries s0 = tries s → effects s0 = effects s ++ es0 → disposals es0 = [] →
  handed_on s0 s' v err → handed_on s s' v err.
Proof.
  intros Ha Ht He Hes (Ha' & Ht' & v' & err' & es & He' & Hp & Hn & Hv & Hd).
  split; [congruence|split; [congruence|]]. exists v', err', (es0 ++ es).
  split; [by rewrite He', He, (assoc_L (++))|]. split; [done|]. split; [done|]. split; [done|].
  intros HD. rewrite disposals_app, Hes. by apply Hd.
Qed.

Lemma retry_filter_handed r v err s : pd_r def = Some r → handed_on s (retry_filter r v err s) v err.
Proof.
  intros Hr. split; [done|split; [done|]]. unfold retry_filter, isZero. do 3 eexists. split; [done|]. split; [right; by rewrite Hr|].
  split; [|split].
  - destruct err as [e|]; [|done]. destruct (AsCode e) as [[c sc]|]; [|done]. by destruct (statusCodeNeedRetry _ _).
  - intros ->. done.
  - intros Hd. rewrite Hd. unfold nz. destruct err as [e|]; simpl.
    + destruct (decide (v = zero)) as [->|Hz].
      * rewrite !bool_decide_true by done. simpl. by rewrite ?bool_decide_true.
      * rewrite !(bool_decide_false (v = zero)) by done. simpl. by rewrite ?bool_decide_true.
    + split; [done|]. by intros _.
Qed.

Lemma after_layers_handed v err s : handed_on s (after_layers v err s) v err.
Proof.
  unfold after_layers. destruct (pd_r def) as [r|] eqn:Hr; [by apply retry_filter_handed|].
  split; [done|split; [done|]]. exists v, err, []. rewrite app_nil_r. split; [done|]. split; [by left|].
  split; [done|]. split; [done|]. intros _. by rewrite Hr.
Qed.

Lemma handed_on_err s s' v err1 err2 :
  (err1 = None ↔ err2 = None) → handed_on s s' v err1 → handed_on s s' v err2.
Proof.
  intros He (Ha & Ht & v' & err' & es & H1 & H2 & H3 & H4 & H5). split; [done|split; [done|]].
  exists v', err', es. split; [done|]. split; [done|]. split; [by rewrite H3|]. split; [by rewrite <-He|done].
Qed.

Lemma after_breaker_handed resAny err t s : handed_on s (after_breaker resAny err t s) (default zero resAny) err.
Proof.
  unfold after_breaker. eapply handed_on_app; [..|eapply handed_on_err; [|apply after_layers_handed]]; [done|done|done| |].
  - by destruct (_ && _).
  - destruct (_ && _); [|done]. by destruct err.
Qed.

Lemma Execute_error_None err : Execute_error err = None ↔ err = None.
Proof. destruct err as [e|]; [|done]. simpl. by repeat case_match. Qed.

Lemma layers_handed v err t1 t2 s : handed_on s (layers v err t1 t2 s) v err.
Proof.
  unfold layers. eapply (handed_on_app s (add_effects (accumulate zero opts v) s)); [done|done|done|apply disposals_accumulate|].
  destruct (pd_cb def); [|apply after_layers_handed].
  eapply handed_on_err; [apply Execute_error_None|].
  match goal with |- handed_on ?s0 (after_breaker _ _ _ ?s1) _ _ =>
    apply (handed_on_app s0 s1 _ _ _ []); [done|done|by rewrite app_nil_r|done|] end.
  apply (after_breaker_handed (Some v)).
Qed.

(** ** No result leaks *)

(** Every result is in a channel, held or disposed of; the channel of an
    attempt that is over carries nothing, and is full while its operation still
    runs. *)
Definition attempt_over (a : attempt T) : Prop :=
  a_done a = Some (zero, None) ∨ a_result a ≠ None ∧ nz_of (a_done a) = [].

Record leak_inv s : Prop := {
  li_account : Disposer opts = true → produced s ≡ₚ disposals (effects s) ++ channels s ++ held s;
  li_failed : Disposer opts = true → ∀ v e, pd_r def ≠ None → ph s = InLoop v (Some e) → v = zero;
  li_over : ∀ i a, attempts s !! i = Some a → current s ≠ Some i → attempt_over a;
  li_pending : ∀ i a, attempts s !! i = Some a → current s = Some i → a_done a = a_result a;
  li_current : ∀ i, current s = Some i → is_Some (attempts s !! i)
}.

(** The layers keep the accounts when the result they are given is accounted
    for, and no attempt is left unfinished. *)
Lemma handed_on_inv s s' v err :
  handed_on s s' v err →
  (Disposer opts = true → produced s ≡ₚ disposals (effects s) ++ channels s ++ nz v) →
  (∀ i a, attempts s !! i = Some a → attempt_over a) →
  leak_inv s'.
Proof.
  intros (Ha & Ht & v' & err' & es & He & Hp & Hn & Hv & Hd) Hacc Hover.
  assert (Hc : current s' = None) by (unfold current; destruct Hp as [[-> _]|[-> _]]; done).
  assert (Hh : held s' = nz v') by (unfold held; destruct Hp as [[-> _]|[-> _]]; done).
  split.
  - intros HD. specialize (Hacc HD). destruct (Hd HD) as [Hnz _]. unfold produced, channels in *.
    rewrite Ha, Hh, He, Hacc, Hnz, disposals_app. rewrite <-!(assoc_L (++)).
    apply Permutation_app_head. rewrite (Permutation_app_swap_app (disposals es)). done.
  - intros HD u e Hr Hu. destruct (Hd HD) as [_ Hz]. destruct Hp as [[Hp _]|[Hp _]]; [congruence|].
    rewrite Hp in Hu. simplify_eq. by apply Hz.
  - intros i a. rewrite Ha. intros Hi _. by eapply Hover.
  - intros i a _. by rewrite Hc.
  - intros i. by rewrite Hc.
Qed.

Lemma set_attempt_produced i a b s :
  attempts s !! i = Some a →
  nz_of (a_result a) ++ produced (set_attempt i b s) ≡ₚ nz_of (a_result b) ++ produced s.
Proof. apply (bind_insert (λ a, nz_of (a_result a))). Qed.

Lemma set_attempt_channels i a b s :
  attempts s !! i = Some a →
  nz_of (a_done a) ++ channels (set_attempt i b s) ≡ₚ nz_of (a_done b) ++ channels s.
Proof. apply (bind_insert (λ a, nz_of (a_done a))). Qed.

Lemma attempt_over_done a : attempt_over a → nz_of (a_done a) = [].
Proof. intros [->|[_ ?]]; [apply nz_zero|done]. Qed.

Lemma channels_over s : (∀ i a, attempts s !! i = Some a → attempt_over a) → channels s = [].
Proof.
  unfold channels. generalize (attempts s). intros l Hl. induction l as [|a l IH]; [done|].
  cbn [mbind list_bind]. rewrite (attempt_over_done a) by by apply (Hl 0). simpl. apply IH. intros i b Hb. by apply (Hl (S i)).
Qed.

Lemma inv_all_over s : leak_inv s → current s = None → ∀ i a, attempts s !! i = Some a → attempt_over a.
Proof. intros Hs Hc i a Hi. apply (li_over _ Hs i a Hi). by rewrite Hc. Qed.

(** When the attempt in progress is settled, all attempts are over. *)
Lemma settle_over s i b :
  leak_inv s → current s = Some i → attempt_over b →
  ∀ j a, attempts (set_attempt i b s) !! j = Some a → attempt_over a.
Proof.
  intros Hs Hc Hb j a Hj. simpl in Hj. destruct (decide (i = j)) as [->|Hne].
  - apply list_lookup_insert_Some in Hj as [(_ & <- & _)|[? _]]; done.
  - rewrite list_lookup_insert_ne in Hj by done. apply (li_over _ Hs j a Hj). by rewrite Hc; intros [= ?].
Qed.

Lemma timeout_metric_same s :
  attempts (timeout_metric def s) = attempts s ∧ tries (timeout_metric def s) = tries s ∧
  ph (timeout_metric def s) = ph s ∧ disposals (effects (timeout_metric def s)) = disposals (effects s).
Proof.
  unfold timeout_metric. destruct (_ && _); [|done]. simpl. by rewrite disposals_app, app_nil_r.
Qed.

(** The runner settles the attempt in progress: of its result, [d] is disposed
    of and [v] goes on. *)
Lemma settle_account s s1 i a b d v :
  leak_inv s → ph s = InOperation i → attempts s !! i = Some a →
  attempts s1 = <[i := b]> (attempts s) → disposals (effects s1) = disposals (effects s) ++ d →
  attempt_over b → nz_of (a_result b) ≡ₚ d ++ nz v →
  Disposer opts = true → produced s1 ≡ₚ disposals (effects s1) ++ channels s1 ++ nz v.
Proof.
  intros Hs Hp Hi Ha1 He1 Hb Hr HD.
  assert (Hc : current s = Some i) by (unfold current; by rewrite Hp).
  pose proof (li_account _ Hs HD) as Hacc. unfold held in Hacc. rewrite Hp, app_nil_r in Hacc.
  pose proof (set_attempt_produced i a b s Hi) as Hpr. pose proof (set_attempt_channels i a b s Hi) as Hch.
  rewrite (li_pending _ Hs i a Hi Hc), (attempt_over_done b Hb) in Hch. simpl in Hch.
  change (produced (set_attempt i b s)) with ((<[i := b]> (attempts s)) ≫= (λ a, nz_of (a_result a))) in Hpr.
  change (channels (set_attempt i b s)) with ((<[i := b]> (attempts s)) ≫= (λ a, nz_of (a_done a))) in Hch.
  unfold produced at 1, channels. rewrite Ha1, He1. set (P1 := (<[i := b]> (attempts s)) ≫= _) in *.
  set (C1 := (<[i := b]> (attempts s)) ≫= (λ a, nz_of (a_done a))) in *.
  apply (Permutation_app_inv_l (nz_of (a_result a))). rewrite Hpr, Hacc, <-Hch, Hr.
  rewrite <-!(assoc_L (++)). rewrite (Permutation_app_swap_app (nz_of (a_result a)) (disposals (effects s))).
  rewrite (Permutation_app_swap_app (nz v)), (Permutation_app_swap_app d). apply Permutation_app_head.
  rewrite (Permutation_app_swap_app (nz_of (a_result a)) d). apply Permutation_app_head.
  rewrite (Permutation_app_comm (nz v)). by rewrite <-!(assoc_L (++)).
Qed.

Lemma settle_layers s s1 i a b d v err t1 t2 :
  leak_inv s → ph s = InOperation i → attempts s !! i = Some a →
  attempts s1 = <[i := b]> (attempts s) → disposals (effects s1) = disposals (effects s) ++ d →
  attempt_over b → (Disposer opts = true → nz_of (a_result b) ≡ₚ d ++ nz v) →
  leak_inv (layers v err t1 t2 s1).
Proof.
  intros Hs Hp Hi Ha1 He1 Hb Hr. eapply handed_on_inv; [apply layers_handed|..].
  - intros HD. by eapply settle_account; eauto.
  - rewrite Ha1. apply (settle_over s i b Hs); [unfold current; by rewrite Hp|done].
Qed.

Lemma start_operation_inv s :
  leak_inv s → ph s = Starting → ∀ s1, attempts s1 = attempts s → effects s1 = effects s →
  leak_inv (start_operation def s1).
Proof.
  intros Hs Hp s1 Ha He. assert (Hc : current s = None) by (unfold current; by rewrite Hp).
  pose proof (inv_all_over s Hs Hc) as Hover. unfold start_operation.
  split; unfold produced, channels, held, current; simpl; rewrite ?Ha, ?He.
  - intros HD. pose proof (li_account _ Hs HD) as Hacc. unfold held, produced, channels in Hacc.
    rewrite Hp in Hacc. by rewrite !bind_app; simpl; rewrite !app_nil_r, Hacc, app_nil_r.
  - done.
  - intros i a Hi Hne. apply lookup_snoc_Some in Hi as [[_ Hi]|[-> _]]; [by eapply Hover|done].
  - intros i a Hi [= <-]. apply lookup_snoc_Some in Hi as [[Hlt _]|[_ <-]]; [lia|done].
  - intros i [= <-]. rewrite lookup_app_r, Nat.sub_diag by lia. by eexists.
Qed.

Lemma start_attempt_inv s t1 t2 t3 :
  leak_inv s → ph s = Starting → leak_inv (start_attempt zero def opts t1 t2 t3 s).
Proof.
  intros Hs Hp. assert (Hc : current s = None) by (unfold current; by rewrite Hp).
  unfold start_attempt. destruct (pd_cb def); [|by apply (start_operation_inv s Hs Hp)].
  destruct (gb_before _ _) as [[rej|] g]; [|by apply (start_operation_inv s Hs Hp)].
  eapply handed_on_inv; [apply (after_breaker_handed None)|..]; simpl.
  - intros HD. pose proof (li_account _ Hs HD) as Hacc. unfold held in Hacc. rewrite Hp in Hacc.
    by rewrite nz_zero.
  - by apply inv_all_over.
Qed.

(** A change that keeps the attempts, the phase and the disposals. *)
Lemma leak_inv_same s s' :
  leak_inv s → attempts s' = attempts s → ph s' = ph s → disposals (effects s') = disposals (effects s) →
  leak_inv s'.
Proof.
  intros [H1 H2 H3 H4 H5] Ha Hp He. split; unfold produced, channels, held, current in *; rewrite ?Ha, ?Hp, ?He; auto.
Qed.

(** The goroutine of an attempt sends its result: the attempt is in progress. *)
Lemma send_inv s i a res err :
  leak_inv s → attempts s !! i = Some a → a_result a = None → a_done a = None →
  leak_inv (set_attempt i (Build_attempt (a_number a) (Some (res, err)) (Some (res, err))) s).
Proof.
  intros Hs Hi Hr Hd. assert (Hc : current s = Some i).
  { destruct (decide (current s = Some i)) as [|Hne]; [done|].
    destruct (li_over _ Hs i a Hi Hne) as [?|[? _]]; congruence. }
  set (b := Build_attempt _ _ _). pose proof (set_attempt_produced i a b s Hi) as Hpr.
  pose proof (set_attempt_channels i a b s Hi) as Hch. rewrite Hr in Hpr. rewrite Hd in Hch. simpl in Hpr, Hch.
  split.
  - intros HD. rewrite Hpr, (li_account _ Hs HD), Hch. rewrite Permutation_app_swap_app. by rewrite <-(assoc_L (++)).
  - exact (li_failed _ Hs).
  - intros j c Hj Hne. simpl in Hj. rewrite list_lookup_insert_ne in Hj; [by apply (li_over _ Hs j c Hj)|].
    intros <-. by apply Hne.
  - intros j c Hj Hcj. assert (i = j) as <- by (unfold current in *; simpl in Hcj; congruence). simpl in Hj.
    by apply list_lookup_insert_Some in Hj as [(_ & <- & _)|[? _]].
  - intros j Hj. destruct (li_current _ Hs j Hj) as [c Hjc]. simpl.
    apply lookup_lt_Some in Hjc. apply lookup_lt_is_Some. by rewrite length_insert.
Qed.

(** The goroutine of an attempt that timed out disposes of its result. *)
Lemma late_inv s i a res err d :
  leak_inv s → attempts s !! i = Some a → a_result a = None → a_done a = Some d →
  leak_inv (add_effects (dispose zero opts res)
    (set_attempt i (Build_attempt (a_number a) (Some (res, err)) (a_done a)) s)).
Proof.
  intros Hs Hi Hr Hd. assert (Hc : current s ≠ Some i).
  { intros Hc. rewrite (li_pending _ Hs i a Hi Hc) in Hd. congruence. }
  pose proof (li_over _ Hs i a Hi Hc) as Hov.
  set (b := Build_attempt _ _ _). pose proof (set_attempt_produced i a b s Hi) as Hpr.
  pose proof (set_attempt_channels i a b s Hi) as Hch. rewrite Hr in Hpr. apply Permutation_app_inv_l in Hch. simpl in Hpr.
  split.
  - intros HD. change (produced _) with (produced (set_attempt i b s)). change (channels _) with (channels (set_attempt i b s)).
    simpl. rewrite disposals_app, (disposals_dispose _ HD), Hpr, (li_account _ Hs HD), Hch.
    rewrite Permutation_app_swap_app. by rewrite <-!(assoc_L (++)).
  - exact (li_failed _ Hs).
  - intros j c Hj Hne. simpl in Hj. destruct (decide (i = j)) as [<-|Hij].
    + apply list_lookup_insert_Some in Hj as [(_ & <- & _)|[? _]]; [|done]. destruct Hov as [?|[? ?]]; [by left|].
      by right.
    + rewrite list_lookup_insert_ne in Hj by done. by apply (li_over _ Hs j c Hj).
  - intros j c Hj Hcj. simpl in Hj. rewrite list_lookup_insert_ne in Hj; [by apply (li_pending _ Hs j c Hj)|].
    intros <-. by apply Hc.
  - intros j Hj. destruct (li_current _ Hs j Hj) as [c Hjc]. simpl.
    apply lookup_lt_Some in Hjc. apply lookup_lt_is_Some. by rewrite length_insert.
Qed.

Lemma operation_returns_inv s i a res err t1 t2 :
  leak_inv s → attempts s !! i = Some a → a_result a = None →
  ((0 < pd_t def)%Z ∨ ph s = InOperation i) →
  leak_inv (operation_returns zero def opts i a res err t1 t2 s).
Proof.
  intros Hs Hi Hr Hph. unfold operation_returns. case_bool_decide as Ht.
  - destruct (a_done a) as [d|] eqn:Hd; [|by apply send_inv].
    rewrite <-Hd. by eapply late_inv.
  - destruct Hph as [?|Hp]; [done|].
    eapply (settle_layers s _ i a _ []); [done|done|done|reflexivity|by rewrite app_nil_r| |done]. by right.
Qed.

Lemma receive_inv s i a res err ctx t1 t2 :
  leak_inv s → ph s = InOperation i → attempts s !! i = Some a → a_done a = Some (res, err) →
  leak_inv (receive zero def opts i a res err ctx t1 t2 s).
Proof.
  intros Hs Hp Hi Hd. assert (Hc : current s = Some i) by (unfold current; by rewrite Hp).
  pose proof (li_pending _ Hs i a Hi Hc) as Hr. rewrite Hd in Hr. unfold receive.
  assert (Hov : attempt_over (Build_attempt (a_number a) (a_result a) None)) by (right; by rewrite <-Hr).
  destruct (timeoutError ctx err) as [terr|].
  - match goal with |- leak_inv (layers _ _ _ _ (timeout_metric _ ?s0)) =>
      destruct (timeout_metric_same s0) as (Ha & _ & _ & He) end.
    eapply (settle_layers s _ i a _ (disposals (dispose zero opts res)));
      [done|done|done|by rewrite Ha|by rewrite He; simpl; rewrite disposals_app|done|].
    intros HD. rewrite (disposals_dispose _ HD), nz_zero, app_nil_r. simpl. by rewrite <-Hr.
  - eapply (settle_layers s _ i a _ []); [done|done|done|reflexivity|by rewrite app_nil_r|done|].
    intros HD. simpl. by rewrite <-Hr, ?nz_zero.
Qed.

Lemma context_done_inv s i a e t1 t2 :
  leak_inv s → ph s = InOperation i → attempts s !! i = Some a →
  leak_inv (context_done zero def opts i a e t1 t2 s).
Proof.
  intros Hs Hp Hi. assert (Hc : current s = Some i) by (unfold current; by rewrite Hp).
  pose proof (li_pending _ Hs i a Hi Hc) as Hr. unfold context_done.
  match goal with |- leak_inv (layers _ _ _ _ (timeout_metric _ ?s0)) =>
    destruct (timeout_metric_same s0) as (Ha & _ & _ & He) end.
  destruct (a_done a) as [[res err]|] eqn:Hd.
  - eapply (settle_layers s _ i a _ (disposals (dispose zero opts res)));
      [done|done|done|by rewrite Ha|by rewrite He; simpl; rewrite disposals_app|right; by rewrite <-Hr|].
    intros HD. rewrite (disposals_dispose _ HD), nz_zero, app_nil_r. simpl. by rewrite <-Hr.
  - eapply (settle_layers s _ i a _ []);
      [done|done|done|by rewrite Ha|by rewrite He, app_nil_r|by left|].
    intros HD. simpl. by rewrite <-Hr, ?nz_zero.
Qed.

Lemma loop_inv s s' res err :
  leak_inv s → ph s = InLoop res err → attempts s' = attempts s → disposals (effects s') = disposals (effects s) →
  (ph s' = Starting ∧ err ≠ None ∨ ∃ err', ph s' = Returned res err') → pd_r def ≠ None → leak_inv s'.
Proof.
  intros Hs Hp Ha He Hp' Hr. assert (Hc : current s = None) by (unfold current; by rewrite Hp).
  assert (Hc' : current s' = None) by (unfold current; destruct Hp' as [[-> _]|[? ->]]; done).
  split.
  - intros HD. unfold produced, channels. rewrite Ha, He. pose proof (li_account _ Hs HD) as Hacc.
    unfold produced, channels, held in *. rewrite Hp in Hacc. destruct Hp' as [[-> Hne]|[err' ->]]; [|done].
    destruct err as [e|]; [|done]. by rewrite (li_failed _ Hs HD res e Hr Hp), nz_zero in Hacc.
  - intros _ v e _ Hv. destruct Hp' as [[? _]|[? ?]]; congruence.
  - intros i a. rewrite Ha. intros Hi _. by eapply inv_all_over.
  - intros i a _. by rewrite Hc'.
  - intros i. by rewrite Hc'.
Qed.

Lemma step_leak_inv ev s s' : leak_inv s → step ev s = Some s' → leak_inv s'.
Proof.
  intros Hs Hst. destruct ev as [t1 t2 t3|i res err t1 t2|ctx t1 t2|e t1 t2|env|g]; simpl in Hst.
  - destruct (ph s) eqn:Hp; simplify_eq. by apply start_attempt_inv.
  - destruct (attempts s !! i) as [a|] eqn:Hi; [|done]. destruct (_ && _) eqn:Hg; [|done]. simplify_eq.
    apply andb_true_iff in Hg as [Hr Hg]. apply bool_decide_eq_true in Hr. apply operation_returns_inv; [done..|].
    apply orb_true_iff in Hg as [Hg|Hg]; [left; by apply bool_decide_eq_true in Hg|right].
    destruct (ph s) as [|j| |]; try done. apply bool_decide_eq_true in Hg. by subst.
  - destruct (ph s) as [|i| |] eqn:Hp; try done. destruct (attempts s !! i) as [a|] eqn:Hi; [|done].
    destruct (a_done a) as [[res err]|] eqn:Hd; [|done]. destruct (_ && _); [|done]. simplify_eq. by apply receive_inv.
  - destruct (ph s) as [|i| |] eqn:Hp; try done. destruct (attempts s !! i) as [a|] eqn:Hi; [|done].
    destruct (_ && _); [|done]. simplify_eq. by apply context_done_inv.
  - destruct (ph s) as [| |res err|] eqn:Hp; try done. destruct (pd_r def) as [r|] eqn:Hr; [|done].
    destruct (loop_next _ _ _ _) as [notify|err'] eqn:Hl; simplify_eq.
    + eapply loop_inv; [done|done|done| | |by rewrite Hr].
      * simpl. rewrite disposals_app. destruct (_ && _); by rewrite app_nil_r.
      * left. split; [done|]. intros ->. by rewrite loop_success in Hl.
    + eapply loop_inv; [done|done|done|done|right; by eexists|by rewrite Hr].
  - simplify_eq. by apply (leak_inv_same s).
Qed.

Lemma initial_inv g b : leak_inv (initial g b).
Proof. by split. Qed.

Lemma runs_leak_inv es s s' : leak_inv s → runs es s = Some s' → leak_inv s'.
Proof.
  revert s; induction es as [|ev es IH]; intros s Hs Hr; simpl in Hr; [by simplify_eq|].
  destruct (step ev s) as [s1|] eqn:Hst; [|done]. by eapply IH, Hr; eapply step_leak_inv.
Qed.

(** ** The budget *)

(** The number of attempts, counting the rejected ones: never more than one and
    the retries of the policy. *)
Record budget_inv s : Prop := {
  bi_started : ph s ≠ Starting → 1 ≤ tries s;
  bi_single : pd_r def = None → ph s = Starting → tries s = 0;
  bi_retries : ∀ r, pd_r def = Some r → (0 ≤ MaxRetries (Retry_Config r))%Z →
    (Z.of_nat (tries s) ≤ MaxRetries (Retry_Config r) + (if decide (ph s = Starting) then 0 else 1))%Z;
  bi_loop : ∀ v err, ph s = InLoop v err → pd_r def ≠ None
}.

Lemma budget_same s s' : budget_inv s → tries s' = tries s → ph s' = ph s → budget_inv s'.
Proof. intros [H1 H2 H3 H4] Ht Hp. split; rewrite ?Ht, ?Hp; done. Qed.

Lemma handed_on_budget s s' v err :
  handed_on s s' v err → 1 ≤ tries s →
  (∀ r, pd_r def = Some r → (0 ≤ MaxRetries (Retry_Config r))%Z → (Z.of_nat (tries s) ≤ MaxRetries (Retry_Config r) + 1)%Z) →
  budget_inv s'.
Proof.
  intros (_ & Ht & v' & err' & es & _ & Hp & _) H1 H2.
  assert (ph s' ≠ Starting) by (destruct Hp as [[-> _]|[-> _]]; done).
  split; rewrite ?Ht; [done|done| |].
  - intros r Hr Hm. rewrite decide_False by done. by apply H2.
  - intros u e Hu. destruct Hp as [[Hp _]|[_ ?]]; [congruence|done].
Qed.

Lemma start_budget s t1 t2 t3 :
  budget_inv s → ph s = Starting → budget_inv (start_attempt zero def opts t1 t2 t3 s).
Proof.
  intros Hb Hp.
  assert (Hm : ∀ r, pd_r def = Some r → (0 ≤ MaxRetries (Retry_Config r))%Z →
    (Z.of_nat (S (tries s)) ≤ MaxRetries (Retry_Config r) + 1)%Z).
  { intros r Hr Hm. pose proof (bi_retries _ Hb r Hr Hm) as Hb'. rewrite decide_True in Hb' by done. lia. }
  assert (Hso : ∀ s1, tries s1 = S (tries s) → budget_inv (start_operation def s1)).
  { intros s1 H1. split; simpl; rewrite ?H1; [lia|done| |done]. intros r Hr Hm'. by apply Hm. }
  unfold start_attempt. destruct (pd_cb def); [|by apply Hso].
  destruct (gb_before _ _) as [[rej|] g]; [|by apply Hso].
  eapply handed_on_budget; [apply (after_breaker_handed None)|simpl; lia|done].
Qed.

Lemma layers_budget s s1 i v err t1 t2 :
  budget_inv s → ph s = InOperation i → tries s1 = tries s → budget_inv (layers v err t1 t2 s1).
Proof.
  intros [H1 H2 H3 _] Hp Ht. eapply handed_on_budget; [apply layers_handed|rewrite Ht; apply H1; by rewrite Hp|].
  intros r Hr Hm. specialize (H3 r Hr Hm). rewrite decide_False in H3 by (by rewrite Hp). by rewrite Ht.
Qed.

Lemma step_budget ev s s' : budget_inv s → step ev s = Some s' → budget_inv s'.
Proof.
  intros Hb Hst. destruct ev as [t1 t2 t3|i res err t1 t2|ctx t1 t2|e t1 t2|env|g]; simpl in Hst.
  - destruct (ph s) eqn:Hp; simplify_eq. by apply start_budget.
  - destruct (attempts s !! i) as [a|]; [|done]. destruct (_ && _) eqn:Hg; [|done]. simplify_eq.
    apply andb_true_iff in Hg as [_ Hg]. unfold operation_returns. case_bool_decide as Ht.
    { by destruct (a_done a); apply (budget_same s). }
    simpl in Hg. destruct (ph s) as [|j| |] eqn:Hp; try done. by eapply layers_budget.
  - destruct (ph s) as [|i| |] eqn:Hp; try done. destruct (attempts s !! i) as [a|]; [|done].
    destruct (a_done a) as [[res err]|]; [|done]. destruct (_ && _); [|done]. simplify_eq. unfold receive.
    destruct (timeoutError ctx err); [|by eapply layers_budget].
    eapply layers_budget; [done|done|]. by rewrite (proj1 (proj2 (timeout_metric_same _))).
  - destruct (ph s) as [|i| |] eqn:Hp; try done. destruct (attempts s !! i) as [a|]; [|done].
    destruct (_ && _); [|done]. simplify_eq. unfold context_done. eapply layers_budget; [done|done|].
    rewrite (proj1 (proj2 (timeout_metric_same _))). by destruct (a_done a) as [[]|].
  - destruct (ph s) as [| |res err|] eqn:Hp; try done. destruct (pd_r def) as [r|] eqn:Hr; [|done].
    pose proof (bi_started _ Hb) as H1. rewrite Hp in H1. specialize (H1 ltac:(done)).
    destruct (loop_next _ _ _ _) as [notify|err'] eqn:Hl; simplify_eq; split; simpl; try done.
    + by rewrite Hr.
    + intros r' Hr' Hm. rewrite Hr in Hr'. simplify_eq.
      destruct (decide (Z.of_nat (tries s - 1) < MaxRetries (Retry_Config r'))%Z); [lia|]. exfalso.
      destruct err as [e|]; [|by rewrite loop_success in Hl]. eapply loop_budget, Hl. lia.
    + intros r' Hr' Hm. pose proof (bi_retries _ Hb r' Hr' Hm) as Hb'.
      by rewrite decide_False in Hb' by (by rewrite Hp).
  - simplify_eq. by apply (budget_same s).
Qed.

Lemma runs_budget es s s' : budget_inv s → runs es s = Some s' → budget_inv s'.
Proof.
  revert s; induction es as [|ev es IH]; intros s Hs Hr; simpl in Hr; [by simplify_eq|].
  destruct (step ev s) as [s1|] eqn:Hst; [|done]. by eapply IH, Hr; eapply step_budget.
Qed.

Lemma initial_budget g b : budget_inv (initial g b).
Proof. split; simpl; [done|done| |done]. intros r _ ?. lia. Qed.

(** ** Why the runner gives up *)

(** An error of an operation: not a permanent error of the retry library, and
    its status code, if any, was attached with [NewCodeError]. *)
Definition good_error (e : error) : Prop :=
  AsPermanent e = None ∧ ∀ c sc, AsCode e = Some (c, sc) → sc = detectErrorProto c.

Definition good_result (o : option (T * option error)) : Prop :=
  match o with Some (_, Some e) => good_error e | _ => True end.

(** The retry condition leaves the error's status code out. *)
Definition code_excluded (r : Retry) (e : error) : Prop :=
  ∃ c sc, AsCode e = Some (c, sc) ∧ statusCodeNeedRetry (Retry_Match r) c = false.

(** What reaches the retry loop: a good error, made permanent when it comes
    from the breaker or its code is excluded. *)
Definition loop_error (r : Retry) (e0 : error) : Prop :=
  good_error e0 ∨
  ∃ e, e0 = Permanent e ∧ good_error e ∧ (IsErrorPermanent (Some e) = true ∨ code_excluded r e).

Definition gave_up (r : Retry) s (e : error) : Prop :=
  good_error e ∧
  ((0 ≤ MaxRetries (Retry_Config r))%Z ∧ Z.of_nat (tries s) = (MaxRetries (Retry_Config r) + 1)%Z ∨
   IsErrorPermanent (Some e) = true ∨ code_excluded r e).

Record reason_inv (r : Retry) s : Prop := {
  ri_channel : ∀ i a, attempts s !! i = Some a → good_result (a_done a);
  ri_loop : ∀ v e, ph s = InLoop v (Some e) → loop_error r e;
  ri_returned : ∀ v e, ph s = Returned v (Some e) → gave_up r s e
}.

Lemma context_good e : is_context_error e = true → good_error e.
Proof. intros He%bool_decide_eq_true. split; by destruct He as [->| ->]. Qed.

Lemma Execute_error_cases err e :
  Execute_error err = Some e → ∃ e', err = Some e' ∧
    (e = e' ∧ IsErrorPermanent (Some e) = false ∨ e = ErrOpenState ∨ e = ErrTooManyRequests).
Proof.
  destruct err as [e'|]; [|done]. simpl. intros Hx. exists e'. split; [done|].
  destruct (Is e' ErrOpenState) eqn:H1; simplify_eq; [by right; left|].
  destruct (Is e' ErrTooManyRequests) eqn:H2; simplify_eq; [by right; right|]. left. split; [done|]. by rewrite H1, H2.
Qed.

(** What the layers hand to the function of the retry loop. *)
Definition layer_error (e : error) : Prop :=
  good_error e ∨ e = Permanent ErrOpenState ∨ e = Permanent ErrTooManyRequests.

Lemma breaker_good e : e = ErrOpenState ∨ e = ErrTooManyRequests → good_error e ∧ IsErrorPermanent (Some e) = true.
Proof. by intros [->| ->]. Qed.

Lemma retry_filter_reason r v err s :
  (∀ e, err = Some e → layer_error e) →
  ∀ v' e', ph (retry_filter r v err s) = InLoop v' (Some e') → loop_error r e'.
Proof.
  intros He v' e' Hp. simpl in Hp. destruct err as [e|]; [|by simplify_eq]. specialize (He e eq_refl).
  destruct He as [He|He]; [|right; by destruct He as [->| ->]; simplify_eq/=; eexists; (split; [done|]); (split; [|left])].
  destruct (AsCode e) as [[c sc]|] eqn:Hc; [|left; congruence].
  destruct (statusCodeNeedRetry (Retry_Match r) c) eqn:Hn; [left; congruence|].
  right. exists e. split; [congruence|]. split; [done|]. right. by exists c, sc.
Qed.

Lemma after_layers_reason r v err s :
  pd_r def = Some r → (∀ e, err = Some e → layer_error e) →
  (∀ i a, attempts s !! i = Some a → good_result (a_done a)) →
  reason_inv r (after_layers v err s).
Proof.
  intros Hr He Hch. pose proof (retry_filter_reason r v err s He) as Hf.
  unfold after_layers. rewrite Hr. split; [exact Hch|exact Hf|]. intros u e Hu. done.
Qed.

Lemma after_breaker_reason r resAny err t s :
  pd_r def = Some r →
  (∀ e, err = Some e → good_error e ∧ IsErrorPermanent (Some e) = false ∨ e = ErrOpenState ∨ e = ErrTooManyRequests) →
  (∀ i a, attempts s !! i = Some a → good_result (a_done a)) →
  reason_inv r (after_breaker resAny err t s).
Proof.
  intros Hr He Hch. unfold after_breaker. apply after_layers_reason; [done| |exact Hch].
  intros e Hx. rewrite (bool_decide_true (pd_r def ≠ None)) in Hx by (by rewrite Hr). cbn [andb] in Hx.
  destruct err as [e0|]; [|done]. destruct (He e0 eq_refl) as [[Hg Hf]|He0].
  - rewrite Hf in Hx. simplify_eq. by left.
  - rewrite (proj2 (breaker_good e0 He0)) in Hx. simplify_eq/=. right. destruct He0 as [->| ->]; auto.
Qed.

Lemma layers_reason r v err t1 t2 s :
  pd_r def = Some r → good_result (Some (v, err)) →
  (∀ i a, attempts s !! i = Some a → good_result (a_done a)) →
  reason_inv r (layers v err t1 t2 s).
Proof.
  intros Hr He Hch. unfold layers. destruct (pd_cb def).
  - apply after_breaker_reason; [done| |exact Hch]. intros e (e' & -> & [[-> Hp]|Ho])%Execute_error_cases; [by left|by right].
  - apply after_layers_reason; [done| |exact Hch]. intros e ->. by left.
Qed.

Lemma start_reason r t1 t2 t3 s :
  pd_r def = Some r → reason_inv r s → reason_inv r (start_attempt zero def opts t1 t2 t3 s).
Proof.
  intros Hr Hi. assert (Hso : ∀ s1, attempts s1 = attempts s → reason_inv r (start_operation def s1)).
  { intros s1 Ha. split; simpl; [|done|done]. intros i a Hl. rewrite Ha in Hl.
    apply lookup_snoc_Some in Hl as [[_ Hl]|[_ <-]]; [by eapply ri_channel|done]. }
  unfold start_attempt. destruct (pd_cb def); [|by apply Hso].
  destruct (gb_before _ _) as [[rej|] g]; [|by apply Hso].
  apply after_breaker_reason; [done| |exact (ri_channel _ _ Hi)].
  intros e Hx. right. destruct rej; vm_compute in Hx; simplify_eq; auto.
Qed.

Definition plain_event (ev : event (T := T)) : Prop :=
  match ev with
  | EvOperation _ _ (Some e) _ _ => good_error e
  | EvLoop env => interrupted env = false
  | _ => True
  end.

Lemma set_attempt_channel_good i a b s :
  attempts s !! i = Some a → good_result (a_done b) →
  (∀ j c, attempts s !! j = Some c → good_result (a_done c)) →
  ∀ j c, attempts (set_attempt i b s) !! j = Some c → good_result (a_done c).
Proof.
  intros Hi Hb Hall j c Hj. simpl in Hj. apply list_lookup_insert_Some in Hj as [(_ & <- & _)|[_ Hj]]; [done|by eapply Hall].
Qed.

Lemma reason_same r s s' :
  reason_inv r s → ph s' = ph s → tries s' = tries s →
  (∀ i a, attempts s' !! i = Some a → good_result (a_done a)) → reason_inv r s'.
Proof.
  intros [H1 H2 H3] Hp Ht Hch. split; [done|by rewrite Hp|]. rewrite Hp. unfold gave_up. rewrite Ht. exact H3.
Qed.

Lemma loop_reason r s v e env err' :
  pd_r def = Some r → budget_inv s → reason_inv r s → ph s = InLoop v (Some e) → interrupted env = false →
  loop_next (Retry_Config r) (tries s - 1) (Some e) env = Stop err' →
  ∀ e', err' = Some e' → gave_up r s e'.
Proof.
  intros Hr Hb Hi Hp Hn Hl e' ->. destruct (ri_loop _ _ Hi v e Hp) as [Hg|(e1 & -> & Hg & Hor)].
  - assert (Hx : good_error e').
    { destruct (loop_stop _ _ _ _ _ (proj1 Hg) Hl) as [[= ->]|(ce & Hce & [= ->])]; [done|].
      apply context_good. by apply bool_decide_eq_true. }
    split; [done|]. left. pose proof (bi_started _ Hb) as H1. rewrite Hp in H1. specialize (H1 ltac:(done)).
    destruct (decide (MaxRetries (Retry_Config r) < 0 ∨ Z.of_nat (tries s - 1) < MaxRetries (Retry_Config r))%Z) as [Hd|Hd].
    { destruct (loop_retry _ _ _ _ (proj1 Hg) Hn Hd) as [? Ha]. by rewrite Ha in Hl. }
    pose proof (bi_retries _ Hb r Hr ltac:(lia)) as Hb'. rewrite decide_False in Hb' by (by rewrite Hp). lia.
  - rewrite (loop_permanent _ _ (Permanent e1) e1) in Hl by done. simplify_eq. split; [done|]. tauto.
Qed.

Lemma step_reason r ev s s' :
  pd_r def = Some r → budget_inv s → reason_inv r s → plain_event ev → step ev s = Some s' → reason_inv r s'.
Proof.
  intros Hr Hb Hi Hpl Hst. pose proof (ri_channel _ _ Hi) as Hch.
  destruct ev as [t1 t2 t3|i res err t1 t2|ctx t1 t2|e t1 t2|env|g]; simpl in Hst, Hpl.
  - destruct (ph s) eqn:Hp; simplify_eq. by apply start_reason.
  - destruct (attempts s !! i) as [a|] eqn:Ha; [|done]. destruct (_ && _); [|done]. simplify_eq.
    assert (Hg : good_result (Some (res, err))) by by destruct err.
    unfold operation_returns. case_bool_decide.
    { destruct (a_done a) as [d|] eqn:Hd; (apply (reason_same r s); [done|done|done|]);
        (eapply set_attempt_channel_good; [exact Ha| |done]); [specialize (Hch i a Ha); by rewrite Hd in Hch|done]. }
    apply layers_reason; [done|done|]. by eapply set_attempt_channel_good.
  - destruct (ph s) as [|i| |] eqn:Hp; try done. destruct (attempts s !! i) as [a|] eqn:Ha; [|done].
    destruct (a_done a) as [[res err]|] eqn:Hd; [|done]. destruct (_ && _) eqn:Hv; [|done]. simplify_eq.
    apply andb_true_iff in Hv as [_ Hv]. unfold receive. destruct (timeoutError ctx err) as [terr|] eqn:Ht.
    + apply layers_reason; [done| |].
      * apply context_good. unfold timeoutError, view_ok in Ht, Hv. repeat case_match; by simplify_eq.
      * rewrite (proj1 (timeout_metric_same _)). by eapply set_attempt_channel_good.
    + apply layers_reason; [done| |by eapply set_attempt_channel_good]. rewrite <-Hd. by eapply Hch.
  - destruct (ph s) as [|i| |] eqn:Hp; try done. destruct (attempts s !! i) as [a|] eqn:Ha; [|done].
    destruct (_ && _) eqn:Hv; [|done]. simplify_eq. apply andb_true_iff in Hv as [_ Hv]. unfold context_done.
    apply layers_reason; [done|by apply context_good|]. rewrite (proj1 (timeout_metric_same _)).
    destruct (a_done a) as [[]|]; by eapply set_attempt_channel_good.
  - destruct (ph s) as [| |res err|] eqn:Hp; try done. rewrite Hr in Hst.
    destruct (loop_next _ _ _ _) as [notify|err'] eqn:Hl; simplify_eq; split; simpl; try done.
    intros v e [= -> ->]. destruct err as [e0|]; [|by rewrite loop_success in Hl].
    exact (loop_reason r s v e0 env _ Hr Hb Hi Hp Hpl Hl e eq_refl).
  - simplify_eq. destruct Hi. by split.
Qed.

Lemma runs_reason r es s s' :
  pd_r def = Some r → budget_inv s → reason_inv r s → Forall plain_event es → runs es s = Some s' → reason_inv r s'.
Proof.
  intros Hr. revert s; induction es as [|ev es IH]; intros s Hb Hs Hpl Hrs; simpl in Hrs; [by simplify_eq|].
  destruct (step ev s) as [s1|] eqn:Hst; [|done]. apply list.Forall_cons in Hpl as [Hev Hpl].
  eapply IH, Hrs; [by eapply step_budget|by eapply step_reason|done].
Qed.

Lemma initial_reason r g b : reason_inv r (initial g b).
Proof. by split. Qed.

(** ** A reported success is one *)

Definition succeeded s v : Prop := ∃ i a, attempts s !! i = Some a ∧ a_result a = Some (v, None).

Definition success_inv s : Prop := ∀ v, ph s = InLoop v None ∨ ph s = Returned v None → succeeded s v.

Lemma handed_on_success s s' v err :
  handed_on s s' v err → (err = None → succeeded s v) → success_inv s'.
Proof.
  intros (Ha & _ & v' & err' & es & _ & Hp & Hn & Hv & _) Hs u Hu. unfold succeeded. rewrite Ha.
  assert (v' = u ∧ err' = None) as [<- He'] by (destruct Hp as [[Hp _]|[Hp _]], Hu as [Hu|Hu]; rewrite Hp in Hu; by simplify_eq).
  apply Hn in He'. rewrite (Hv He'). by apply Hs.
Qed.

Lemma set_attempt_result i a b s :
  attempts s !! i = Some a → attempts (set_attempt i b s) !! i = Some b.
Proof. intros Hi. simpl. apply list_lookup_insert_eq. by eapply lookup_lt_Some. Qed.

(** Storing the result of an operation keeps the successes. *)
Lemma set_attempt_success i a b s v :
  attempts s !! i = Some a → (a_result a = None ∨ a_result b = a_result a) →
  succeeded s v → succeeded (set_attempt i b s) v.
Proof.
  intros Hi Hab (j & c & Hj & Hc). destruct (decide (i = j)) as [<-|Hne].
  - exists i, b. split; [by eapply set_attempt_result|]. destruct Hab as [?|?]; congruence.
  - exists j, c. split; [simpl; by rewrite list_lookup_insert_ne|done].
Qed.

Lemma step_success ev s s' : leak_inv s → success_inv s → step ev s = Some s' → success_inv s'.
Proof.
  intros Hl Hs Hst. destruct ev as [t1 t2 t3|i res err t1 t2|ctx t1 t2|e t1 t2|env|g]; simpl in Hst.
  - destruct (ph s) eqn:Hp; simplify_eq. unfold start_attempt. destruct (pd_cb def); [|by intros v [?|?]].
    destruct (gb_before _ _) as [[rej|] g]; [|by intros v [?|?]].
    eapply handed_on_success; [apply (after_breaker_handed None)|]. intros Hx. by apply (proj1 (Execute_error_None _)) in Hx.
  - destruct (attempts s !! i) as [a|] eqn:Ha; [|done]. destruct (_ && _) eqn:Hg; [|done]. simplify_eq.
    apply andb_true_iff in Hg as [Hr _]. apply bool_decide_eq_true in Hr. unfold operation_returns. case_bool_decide.
    { destruct (a_done a); intros v Hv; (eapply set_attempt_success; [exact Ha|by left|by apply Hs]). }
    eapply handed_on_success; [apply layers_handed|]. intros ->. eexists i, _. split; [by eapply set_attempt_result|done].
  - destruct (ph s) as [|i| |] eqn:Hp; try done. destruct (attempts s !! i) as [a|] eqn:Ha; [|done].
    destruct (a_done a) as [[res err]|] eqn:Hd; [|done]. destruct (_ && _); [|done]. simplify_eq. unfold receive.
    destruct (timeoutError ctx err); eapply handed_on_success; [apply layers_handed|done|apply layers_handed|].
    intros ->. eexists i, _. split; [by eapply set_attempt_result|]. simpl.
    rewrite <-Hd. symmetry. apply (li_pending _ Hl i a Ha). unfold current. by rewrite Hp.
  - destruct (ph s) as [|i| |] eqn:Hp; try done. destruct (attempts s !! i) as [a|]; [|done].
    destruct (_ && _); [|done]. simplify_eq. unfold context_done. by eapply handed_on_success; [apply layers_handed|].
  - destruct (ph s) as [| |res err|] eqn:Hp; try done. destruct (pd_r def) as [r|]; [|done].
    destruct (loop_next _ _ _ _) as [notify|err'] eqn:Hn; simplify_eq; intros v [Hv|Hv]; simplify_eq/=.
    destruct err as [e|]; [|by apply Hs; left].
    exfalso. destruct (AsPermanent e) as [e'|] eqn:Hperm; [by rewrite (loop_permanent _ _ _ _ _ Hperm) in Hn|].
    by destruct (loop_stop _ _ _ _ _ Hperm Hn) as [?|(? & _ & ?)].
  - simplify_eq. exact Hs.
Qed.

Lemma runs_success es s s' : leak_inv s → success_inv s → runs es s = Some s' → success_inv s'.
Proof.
  revert s; induction es as [|ev es IH]; intros s Hl Hs Hr; simpl in Hr; [by simplify_eq|].
  destruct (step ev s) as [s1|] eqn:Hst; [|done]. eapply IH, Hr; [by eapply step_leak_inv|by eapply step_success].
Qed.

Lemma initial_success g b : success_inv (initial g b).
Proof. by intros v [?|?]. Qed.

(** ** Why the runner fails, whatever the operations return *)

(** An operation returned a permanent error of the retry library, wrapping [e]. *)
Definition op_permanent s (e : error) : Prop :=
  ∃ i a v e0, attempts s !! i = Some a ∧ a_result a = Some (v, Some e0) ∧ AsPermanent e0 = Some e.

Definition breaker_error (e : error) : Prop :=
  pd_cb def = true ∧ (e = ErrOpenState ∨ e = ErrTooManyRequests).

Definition stops_retries (r : Retry) s (e : error) : Prop :=
  breaker_error e ∨ code_excluded r e ∨ op_permanent s e.

Definition fails_because (r : Retry) s (e : error) : Prop :=
  ((0 ≤ MaxRetries (Retry_Config r))%Z ∧ Z.of_nat (tries s) = (MaxRetries (Retry_Config r) + 1)%Z) ∨
  stops_retries r s e.

Record outcome_inv (r : Retry) s : Prop := {
  oi_loop : ∀ v e e', ph s = InLoop v (Some e) → AsPermanent e = Some e' → stops_retries r s e';
  oi_returned : ∀ v e, ph s = Returned v (Some e) → fails_because r s e
}.

(** What the layers are given: an error is the context's or of an operation. *)
Definition from_operation s (err : option error) : Prop :=
  ∀ e e', err = Some e → AsPermanent e = Some e' → op_permanent s e'.

Lemma after_layers_outcome r v err s :
  pd_r def = Some r → (∀ e e', err = Some e → AsPermanent e = Some e' → breaker_error e' ∨ op_permanent s e') →
  outcome_inv r (after_layers v err s).
Proof.
  intros Hr He. unfold after_layers. rewrite Hr. split; [|done]. intros u e e' Hp Hperm. simpl in Hp.
  injection Hp as _ Hp. destruct err as [e0|]; [|done].
  assert (Hkeep : Some e0 = Some e → stops_retries r (retry_filter r v (Some e0) s) e').
  { intros [= ->]. destruct (He e e' eq_refl Hperm); [by left|by right; right]. }
  destruct (AsCode e0) as [[c sc]|] eqn:Hc; [|by apply Hkeep].
  destruct (statusCodeNeedRetry (Retry_Match r) c) eqn:Hn; [by apply Hkeep|].
  simplify_eq/=. right. left. by exists c, sc.
Qed.

Lemma after_breaker_outcome r resAny err t s :
  pd_r def = Some r → pd_cb def = true →
  (∀ e, Execute_error err = Some e →
     IsErrorPermanent (Some e) = false ∧ from_operation s (Some e) ∨ e = ErrOpenState ∨ e = ErrTooManyRequests) →
  outcome_inv r (after_breaker resAny (Execute_error err) t s).
Proof.
  intros Hr Hcb He. unfold after_breaker. apply after_layers_outcome; [done|]. intros e e' Hx Hperm.
  rewrite (bool_decide_true (pd_r def ≠ None)) in Hx by (by rewrite Hr). cbn [andb] in Hx.
  destruct (Execute_error err) as [e0|]; [|done]. destruct (He e0 eq_refl) as [[Hf Hop]|He0].
  - rewrite Hf in Hx. simplify_eq. right. by eapply Hop.
  - rewrite (proj2 (breaker_good e0 He0)) in Hx. simplify_eq/=. by left.
Qed.

Lemma layers_outcome r v err t1 t2 s :
  pd_r def = Some r → from_operation s err → outcome_inv r (layers v err t1 t2 s).
Proof.
  intros Hr He. unfold layers. destruct (pd_cb def) eqn:Hcb.
  - apply after_breaker_outcome; [done|done|].
    intros e (e' & -> & [[-> Hp]|Ho])%Execute_error_cases; [left|by right]. split; [done|exact He].
  - apply after_layers_outcome; [done|]. intros e e' H1 H2. right. by eapply He.
Qed.

Lemma start_outcome r t1 t2 t3 s :
  pd_r def = Some r → outcome_inv r (start_attempt zero def opts t1 t2 t3 s).
Proof.
  intros Hr. unfold start_attempt. destruct (pd_cb def) eqn:Hcb; [|by split].
  destruct (gb_before _ _) as [[rej|] g]; [|by split].
  apply after_breaker_outcome; [done|done|]. intros e Hx. right. destruct rej; vm_compute in Hx; simplify_eq; auto.
Qed.

Lemma context_from_operation s e : is_context_error e = true → from_operation s (Some e).
Proof. intros He e0 e' [= <-]. by rewrite (proj1 (context_good e He)). Qed.

Lemma set_attempt_permanent i a b s e :
  attempts s !! i = Some a → (a_result a = None ∨ a_result b = a_result a) →
  op_permanent s e → op_permanent (set_attempt i b s) e.
Proof.
  intros Hi Hab (j & c & v & e0 & Hj & Hc & He). destruct (decide (i = j)) as [<-|Hne].
  - exists i, b, v, e0. split; [by eapply set_attempt_result|]. destruct Hab as [?|?]; (split; [congruence|done]).
  - exists j, c, v, e0. split; [simpl; by rewrite list_lookup_insert_ne|done].
Qed.

Lemma outcome_same r s s' :
  outcome_inv r s → ph s' = ph s → tries s' = tries s → (∀ e, op_permanent s e → op_permanent s' e) → outcome_inv r s'.
Proof.
  intros [H1 H2] Hp Ht Hop.
  assert (Hst : ∀ e, stops_retries r s e → stops_retries r s' e) by (intros e [?|[?|?]]; [by left|by right; left|right; right; auto]).
  split; rewrite Hp; [eauto|]. intros v e Hv. unfold fails_because. rewrite Ht.
  destruct (H2 v e Hv) as [?|?]; [by left|right; auto].
Qed.

Lemma loop_outcome r s v e env e' :
  pd_r def = Some r → budget_inv s → outcome_inv r s → ph s = InLoop v (Some e) → interrupted env = false →
  loop_next (Retry_Config r) (tries s - 1) (Some e) env = Stop (Some e') → fails_because r s e'.
Proof.
  intros Hr Hb Hi Hp Hn Hl. destruct (AsPermanent e) as [e1|] eqn:Hperm.
  - rewrite (loop_permanent _ _ e e1) in Hl by done. simplify_eq. right. by eapply oi_loop.
  - left. pose proof (bi_started _ Hb) as H1. rewrite Hp in H1. specialize (H1 ltac:(done)).
    destruct (decide (MaxRetries (Retry_Config r) < 0 ∨ Z.of_nat (tries s - 1) < MaxRetries (Retry_Config r))%Z) as [Hd|Hd].
    { destruct (loop_retry _ _ _ _ Hperm Hn Hd) as [? Ha]. by rewrite Ha in Hl. }
    pose proof (bi_retries _ Hb r Hr ltac:(lia)) as Hb'. rewrite decide_False in Hb' by (by rewrite Hp). lia.
Qed.

(** Neither the context nor the elapsed time stops the retry loop. *)
Definition uninterrupted (ev : event (T := T)) : Prop :=
  match ev with EvLoop env => interrupted env = false | _ => True end.

Lemma step_outcome r ev s s' :
  pd_r def = Some r → leak_inv s → budget_inv s → outcome_inv r s → uninterrupted ev → step ev s = Some s' →
  outcome_inv r s'.
Proof.
  intros Hr Hl Hb Hi Hpl Hst. destruct ev as [t1 t2 t3|i res err t1 t2|ctx t1 t2|e t1 t2|env|g]; simpl in Hst, Hpl.
  - destruct (ph s) eqn:Hp; simplify_eq. by apply start_outcome.
  - destruct (attempts s !! i) as [a|] eqn:Ha; [|done]. destruct (_ && _) eqn:Hg; [|done]. simplify_eq.
    apply andb_true_iff in Hg as [Hres _]. apply bool_decide_eq_true in Hres.
    unfold operation_returns. case_bool_decide.
    { destruct (a_done a); (apply (outcome_same r s); [done..|]); intros e He;
        (eapply set_attempt_permanent; [exact Ha|by left|exact He]). }
    apply layers_outcome; [done|]. intros e e' -> He. eexists i, _, res, e. split; [by eapply set_attempt_result|done].
  - destruct (ph s) as [|i| |] eqn:Hp; try done. destruct (attempts s !! i) as [a|] eqn:Ha; [|done].
    destruct (a_done a) as [[res err]|] eqn:Hd; [|done]. destruct (_ && _) eqn:Hv; [|done]. simplify_eq.
    apply andb_true_iff in Hv as [_ Hv]. unfold receive. destruct (timeoutError ctx err) as [terr|] eqn:Ht.
    + apply layers_outcome; [done|]. apply context_from_operation.
      unfold timeoutError, view_ok in Ht, Hv. repeat case_match; by simplify_eq.
    + apply layers_outcome; [done|]. intros e e' -> He. eexists i, _, res, e.
      split; [by eapply set_attempt_result|]. split; [|done]. simpl. rewrite <-Hd. symmetry.
      apply (li_pending _ Hl i a Ha). unfold current. by rewrite Hp.
  - destruct (ph s) as [|i| |] eqn:Hp; try done. destruct (attempts s !! i) as [a|] eqn:Ha; [|done].
    destruct (_ && _) eqn:Hv; [|done]. simplify_eq. apply andb_true_iff in Hv as [_ Hv]. unfold context_done.
    apply layers_outcome; [done|by apply context_from_operation].
  - destruct (ph s) as [| |res err|] eqn:Hp; try done. rewrite Hr in Hst.
    destruct (loop_next _ _ _ _) as [notify|err'] eqn:Hn; simplify_eq; split; simpl; try done.
    intros v e [= -> ->]. destruct err as [e0|]; [|by rewrite loop_success in Hn].
    exact (loop_outcome r s v e0 env e Hr Hb Hi Hp Hpl Hn).
  - simplify_eq. by apply (outcome_same r s).
Qed.

Lemma runs_outcome r es s s' :
  pd_r def = Some r → leak_inv s → budget_inv s → outcome_inv r s → Forall uninterrupted es → runs es s = Some s' →
  outcome_inv r s'.
Proof.
  intros Hr. revert s; induction es as [|ev es IH]; intros s Hl Hb Hs Hpl Hrs; simpl in Hrs; [by simplify_eq|].
  destruct (step ev s) as [s1|] eqn:Hst; [|done]. apply list.Forall_cons in Hpl as [Hev Hpl].
  eapply IH, Hrs; [by eapply step_leak_inv|by eapply step_budget|by eapply step_outcome|done].
Qed.

(** ** Progress without the operation *)

Definition environment_event (ev : event (T := T)) : Prop :=
  match ev with EvOperation _ _ _ _ _ => False | _ => True end.

Lemma runs_app es1 es2 s s1 : runs es1 s = Some s1 → runs (es1 ++ es2) s = runs es2 s1.
Proof.
  revert s; induction es1 as [|ev es1 IH]; intros s Hr; simpl in *; [by simplify_eq|].
  destruct (step ev s); [by apply IH|done].
Qed.

Definition finishes s : Prop :=
  ∃ es s' v err, Forall environment_event es ∧ runs es s = Some s' ∧ ph s' = Returned v err.

Lemma finishes_step ev s s' : environment_event ev → step ev s = Some s' → finishes s' → finishes s.
Proof.
  intros Hev Hst (es & s2 & v & err & Hes & Hr & Hp). exists (ev :: es), s2, v, err.
  split; [by constructor|]. simpl. by rewrite Hst.
Qed.

Lemma handed_on_phase s s' v err : handed_on s s' v err →
  (∃ v' err', ph s' = Returned v' err') ∨ (∃ v' err', ph s' = InLoop v' err' ∧ pd_r def ≠ None).
Proof. intros (_ & _ & v' & err' & es & _ & [[Hp _]|[Hp Hr]] & _); eauto 10. Qed.

(** The calls about to start attempt [k + 1] finish. *)
Definition start_finishes (k : nat) : Prop :=
  ∀ s, leak_inv s → budget_inv s → ph s = Starting → tries s = k → finishes s.

Lemma returned_finishes s v err : ph s = Returned v err → finishes s.
Proof. intros Hp. exists [], s, v, err. by repeat split. Qed.

Lemma loop_finishes (env : loop_env) s v err :
  start_finishes (tries s) → leak_inv s → budget_inv s → ph s = InLoop v err → pd_r def ≠ None → finishes s.
Proof.
  intros Hk Hl Hb Hp Hr. destruct (step (EvLoop env) s) as [s1|] eqn:Hst.
  - apply (finishes_step (EvLoop env) s s1 I Hst). pose proof (step_leak_inv _ _ _ Hl Hst) as Hl1.
    pose proof (step_budget _ _ _ Hb Hst) as Hb1. simpl in Hst. rewrite Hp in Hst.
    destruct (pd_r def) as [r|]; [|done]. destruct (loop_next _ _ _ _) as [notify|err']; simplify_eq.
    + by apply Hk.
    + by eapply returned_finishes.
  - exfalso. simpl in Hst. rewrite Hp in Hst. destruct (pd_r def) as [r|]; [|done]. by destruct (loop_next _ _ _ _).
Qed.

Lemma operation_finishes (t : gb_time) (env : loop_env) s i :
  (0 < pd_t def)%Z → start_finishes (tries s) → leak_inv s → budget_inv s → ph s = InOperation i → finishes s.
Proof.
  intros Ht Hk Hl Hb Hp. destruct (li_current _ Hl i) as [a Ha]; [unfold current; by rewrite Hp|].
  assert (Hst : step (EvContext DeadlineExceeded t t) s = Some (context_done zero def opts i a DeadlineExceeded t t s)).
  { simpl. by rewrite Hp, Ha, bool_decide_true by done. }
  apply (finishes_step (EvContext DeadlineExceeded t t) s _ I Hst).
  pose proof (step_leak_inv _ _ _ Hl Hst) as Hl1. pose proof (step_budget _ _ _ Hb Hst) as Hb1.
  unfold context_done in *. set (s0 := timeout_metric def _) in *.
  pose proof (layers_handed zero (Some DeadlineExceeded) t t s0) as Hh.
  assert (Htr : tries (layers zero (Some DeadlineExceeded) t t s0) = tries s).
  { destruct Hh as (_ & -> & _). unfold s0. rewrite (proj1 (proj2 (timeout_metric_same _))). by destruct (a_done a) as [[]|]. }
  destruct (handed_on_phase _ _ _ _ Hh) as [(v & err & Hp1)|(v & err & Hp1 & Hr)]; [by eapply returned_finishes|].
  eapply (loop_finishes env); [by rewrite Htr|done..].
Qed.

Lemma start_finishes_pred (t : gb_time) (env : loop_env) k :
  (0 < pd_t def)%Z → start_finishes (S k) → start_finishes k.
Proof.
  intros Ht Hk s Hl Hb Hp Htr. assert (Hst : step (EvStart t t t) s = Some (start_attempt zero def opts t t t s)).
  { simpl. by rewrite Hp. }
  apply (finishes_step (EvStart t t t) s _ I Hst).
  pose proof (step_leak_inv _ _ _ Hl Hst) as Hl1. pose proof (step_budget _ _ _ Hb Hst) as Hb1.
  assert (Hop : ∀ s1 i, tries s1 = S k → ph s1 = InOperation i → leak_inv s1 → budget_inv s1 → finishes s1).
  { intros s1 i H1 H2 H3 H4. eapply (operation_finishes t env); [done|by rewrite H1|done..]. }
  unfold start_attempt in *. destruct (pd_cb def); [|by eapply Hop; [simpl; by rewrite Htr|..]].
  destruct (gb_before _ _) as [[rej|] g]; [|by eapply Hop; [simpl; by rewrite Htr|..]].
  match goal with Hl1 : leak_inv (after_breaker ?o ?e _ ?s0) |- _ => pose proof (after_breaker_handed o e t s0) as Hh end.
  destruct (handed_on_phase _ _ _ _ Hh) as [(v & err & Hp1)|(v & err & Hp1 & Hr)]; [by eapply returned_finishes|].
  eapply (loop_finishes env); [|done..]. destruct Hh as (_ & -> & _). simpl. by rewrite Htr.
Qed.

(** With a timeout and a bounded number of retries every attempt can be
    started, so every call finishes. *)
Lemma all_start_finishes (t : gb_time) (env : loop_env) :
  (0 < pd_t def)%Z → (∀ r, pd_r def = Some r → 0 ≤ MaxRetries (Retry_Config r))%Z → ∀ k, start_finishes k.
Proof.
  intros Ht Hm. set (top := match pd_r def with None => 1 | Some r => S (Z.to_nat (MaxRetries (Retry_Config r))) end).
  assert (Htop : ∀ k, top ≤ k → start_finishes k).
  { intros k Hk s Hl Hb Hp <-. exfalso. unfold top in Hk. destruct (pd_r def) as [r|] eqn:Hr.
    - pose proof (bi_retries _ Hb r Hr (Hm r eq_refl)) as Hx. rewrite decide_True in Hx by done.
      specialize (Hm r eq_refl). lia.
    - rewrite (bi_single _ Hb Hr Hp) in Hk. lia. }
  intros k. destruct (decide (top ≤ k)) as [Hle|Hgt]; [by apply Htop|].
  replace k with (top - (top - k)) by lia. generalize (top - k) as d. intros d.
  induction d as [|d IH]; [apply Htop; lia|]. destruct (decide (top ≤ d)) as [Hd|Hd].
  - by replace (top - S d) with (top - d) by lia.
  - apply (start_finishes_pred t env); [done|]. by replace (S (top - S d)) with (top - d) by lia.
Qed.

Lemma Joined_neq msg e1 e : e ≠ Joined msg e1 e.
Proof. revert msg e1; induction e; intros m e0 He; try done. injection He as -> -> Hx. by eapply IHe2. Qed.

(** ** Properties *)

(** C16: No result of an operation leaks and none is disposed of twice. Over every
    interleaving of a runner with the goroutines of its attempts (attempts that time out,
    results that arrive at the deadline or during a later attempt, a breaker that rejects,
    retries), at every moment the runner is not waiting for an attempt, the non-zero results
    the operations returned are, as a multiset, those the disposer was called with and the
    one the runner holds or returned. *)
Theorem runner_no_leak es g b s :
  Disposer opts = true → runs es (initial g b) = Some s → current s = None →
  produced s ≡ₚ disposals (effects s) ++ held s.
Proof.
  intros HD Hr Hc. pose proof (runs_leak_inv _ _ _ (initial_inv g b) Hr) as Hi.
  rewrite (li_account _ Hi HD). by rewrite (channels_over s (inv_all_over s Hi Hc)).
Qed.

(** C17: What a runner with a retry policy reports. It never makes more attempts than one
    and the retries of its policy; a success it returns is the result of an operation that
    succeeded; and, when neither the context nor the elapsed time interrupts its retry loop,
    it fails only after using all attempts, or with an error of the breaker, or with an
    error whose status code the retry condition excludes, or with the error that an
    operation returned as permanent (wrapped in backoff.Permanent). *)
Theorem runner_outcome r es g b s :
  pd_r def = Some r → runs es (initial g b) = Some s →
  ((0 ≤ MaxRetries (Retry_Config r))%Z → (Z.of_nat (tries s) ≤ MaxRetries (Retry_Config r) + 1)%Z) ∧
  (∀ v, ph s = Returned v None → succeeded s v) ∧
  (Forall uninterrupted es → ∀ v e, ph s = Returned v (Some e) → fails_because r s e).
Proof.
  intros Hr Hrs. split; [|split].
  - intros Hm. pose proof (bi_retries _ (runs_budget _ _ _ (initial_budget g b) Hrs) r Hr Hm) as Hx.
    case_decide; lia.
  - intros v Hv. apply (runs_success _ _ _ (initial_inv g b) (initial_success g b) Hrs). by right.
  - intros Hpl. apply oi_returned. eapply runs_outcome, Hrs; [done|apply initial_inv|apply initial_budget|by split|done].
Qed.

(** C34: A hung operation does not hang its caller. With a timeout and a bounded number of
    retries, from every reachable state of a runner there is a run to its return in which no
    operation returns. *)
Theorem runner_finishes (t : gb_time) (env : loop_env) es g b s :
  (0 < pd_t def)%Z → (∀ r, pd_r def = Some r → 0 ≤ MaxRetries (Retry_Config r))%Z →
  runs es (initial g b) = Some s → finishes s.
Proof.
  intros Ht Hm Hr. pose proof (runs_leak_inv _ _ _ (initial_inv g b) Hr) as Hl.
  pose proof (runs_budget _ _ _ (initial_budget g b) Hr) as Hb. pose proof (all_start_finishes t env Ht Hm) as Hk.
  destruct (ph s) as [|i|v err|v err] eqn:Hp.
  - by eapply Hk.
  - by eapply (operation_finishes t env).
  - eapply (loop_finishes env); [done..|]. by eapply bi_loop.
  - by eapply returned_finishes.
Qed.

(** A subscription reports ErrRetriesExhausted to its component, which then stops
    redelivering the message, only after all retries: when every status code is one of HTTP
    or gRPC and nothing interrupted the runner, a delivery that ends with it made exactly
    one attempt more than the configured retries. *)
Theorem exhausted_is_exhausted r es g b s v e ctxErr msg :
  pd_r def = Some r → Forall plain_event es → (∀ c sc, AsCode e = Some (c, sc) → known_code c = true) →
  runs es (initial g b) = Some s → ph s = Returned v (Some e) →
  delivery_error EmptyString None (Some def) ctxErr (Some e) = Some (Joined msg ErrRetriesExhausted e) →
  (0 ≤ MaxRetries (Retry_Config r))%Z ∧ Z.of_nat (tries s) = (MaxRetries (Retry_Config r) + 1)%Z.
Proof.
  intros Hr Hpl Hk Hrs Hp Hd.
  assert (Hg : gave_up r s e).
  { eapply ri_returned; [|exact Hp]. eapply runs_reason, Hrs; [done|apply initial_budget|apply initial_reason|done]. }
  destruct Hg as [[_ Hsc] [?|[Hperm|(c & sc & Hc & Hn)]]]; [done| |]; exfalso.
  - cbn [delivery_error] in Hd. rewrite Hperm in Hd. rewrite andb_false_r in Hd.
    repeat case_match; simplify_eq; by eapply Joined_neq.
  - assert (Hx : RetryExcluded def e = true).
    { unfold RetryExcluded. rewrite Hr, Hc, (Hsc c sc Hc), <-decisions_agree by by eapply Hk. by rewrite Hn. }
    cbn [delivery_error] in Hd. rewrite Hx in Hd. rewrite andb_false_r in Hd. simpl in Hd.
    repeat case_match; simplify_eq; by eapply Joined_neq.
Qed.

(** A status code outside both protocols is reported as exhausted retries after one attempt.
    With a retry policy that lists no codes and allows retries, and no timeout or breaker,
    an operation that fails with such a code is not retried, and the end of a pub/sub
    delivery wraps the error with ErrRetriesExhausted all the same. *)
Theorem unknown_status_reported_exhausted r c msg g b (t : gb_time) (env : loop_env) :
  pd_r def = Some r → pd_t def = 0%Z → pd_cb def = false →
  (0 < MaxRetries (Retry_Config r))%Z → Retry_Match r = NewRetryConditionMatch → known_code c = false →
  let e := NewCodeError c (Plain msg) in
  ∃ s, runs [EvStart t t t; EvOperation 0 zero (Some e) t t; EvLoop env] (initial g b) = Some s ∧
    tries s = 1 ∧ ph s = Returned zero (Some e) ∧
    delivery_error EmptyString None (Some def) None (Some e) = Some (Joined "%w: %w" ErrRetriesExhausted e).
Proof.
  intros Hr Ht Hcb Hm Hmatch Hc e. unfold known_code in Hc. apply orb_false_iff in Hc as [Hg Hh].
  eexists. split; [|split; [|split]].
  - simpl. unfold start_attempt. rewrite Hcb, Ht. simpl. unfold operation_returns. rewrite Ht. simpl.
    unfold ResiliencyRunner.layers. rewrite Hcb. unfold ResiliencyRunner.after_layers. rewrite Hr. simpl.
    unfold statusCodeNeedRetry. rewrite Hg, Hh. by rewrite (loop_permanent _ _ (Permanent e) e).
  - done.
  - simpl. by destruct (_ && _).
  - cbn [delivery_error]. unfold HasBoundedRetries, RetryExcluded. rewrite Hr, (bool_decide_true (0 ≤ _)%Z) by lia.
    unfold e, NewCodeError, detectErrorProto. rewrite Hh. cbn [AsCode ErrorNeedRetry]. by rewrite Hmatch.
Qed.

End props.
