(* ===== verification/Resiliency.v ===== *)
(** * The resiliency provider (pkg/resiliency/resiliency.go)

    The policies of a sidecar: decoding of the configurations into maps of
    timeouts, retries and circuit breakers and of the targets that name them,
    the built-in policies, and the lookup of the policy of an endpoint, an
    actor or a component, with the circuit breakers kept per endpoint, actor or
    component.

    A Go map in a configuration is a list in the order in which the loop visits
    it.  Breakers are shared, mutable objects: a pointer is an index into the
    list of the breakers created so far.  A lookup that would dereference a nil
    template, or call a cache whose creation failed, has no result ([None]).
    The LRU cache (github.com/hashicorp/golang-lru) and the decoders of
    github.com/dapr/kit are parameters. *)

From Stdlib Require Import Ascii.
From S2P Require Import Prelude GoStrings ResiliencyRetry GoTime ResiliencyRunner.

(** ** Configurations (pkg/apis/resiliency/v1alpha1/types.go) *)

Record RetrySpec := {
  rs_Policy : string;
  rs_Duration : string;
  rs_MaxInterval : string;
  rs_MaxRetries : option Z;
  rs_Matching : option RetryMatching
}.

Record CircuitBreakerSpec := {
  cs_MaxRequests : Z;
  cs_Interval : string;
  cs_Timeout : string;
  cs_Trip : string
}.

Record EndpointPolicyNames := {
  ep_Timeout : string;
  ep_Retry : string;
  ep_CircuitBreaker : string;
  ep_CacheSize : Z
}.

Record ActorPolicyNames := {
  ap_Timeout : string;
  ap_Retry : string;
  ap_CircuitBreaker : string;
  ap_Scope : string;
  ap_CacheSize : Z
}.

Record PolicyNames := { Timeout : string; RetryName : string; CircuitBreakerName : string }.

Record ComponentPolicyNames := { Inbound : PolicyNames; Outbound : PolicyNames }.

Record Configuration := {
  c_Name : string;
  c_Namespace : string;
  c_Scopes : list string;
  c_Timeouts : list (string * list ascii);
  c_Retries : list (string * RetrySpec);
  c_CircuitBreakers : list (string * CircuitBreakerSpec);
  c_Apps : list (string * EndpointPolicyNames);
  c_Actors : list (string * ActorPolicyNames);
  c_Components : list (string * ComponentPolicyNames)
}.

(** ** State *)

(** The configuration of a [breaker.CircuitBreaker]; [Trip] is the source of
    its expression. *)
Record CircuitBreaker := {
  cb_Name : string;
  cb_MaxRequests : Z;
  cb_Interval : Z;
  cb_Timeout : Z;
  cb_Trip : option string
}.

Inductive ActorCircuitBreakerScope :=
| ActorCircuitBreakerScopeType
| ActorCircuitBreakerScopeID
| ActorCircuitBreakerScopeBoth.

#[export] Instance ActorCircuitBreakerScope_eq_dec : EqDecision ActorCircuitBreakerScope.
Proof. solve_decision. Defined.

Record ActorPolicies := {
  pre_Retry : string;
  pre_CircuitBreaker : string;
  pre_Scope : ActorCircuitBreakerScope;
  post_Timeout : string
}.

(** An LRU cache from names to breaker pointers: what it holds, and that it
    evicts only when it is full. *)
Class Lru := {
  lru : Type;
  lru_New : Z → option lru;
  lru_Get : lru → string → option nat * lru;
  lru_Add : lru → string → nat → lru;
  lru_contents : lru → gmap string nat;
  lru_size : lru → Z;
  lru_New_ok n : (0 < n)%Z → ∃ c, lru_New n = Some c ∧ lru_contents c = ∅ ∧ lru_size c = n;
  lru_New_fails n : (n ≤ 0)%Z → lru_New n = None;
  lru_Get_found c k : (lru_Get c k).1 = lru_contents c !! k;
  lru_Get_keeps c k : lru_contents (lru_Get c k).2 = lru_contents c ∧ lru_size (lru_Get c k).2 = lru_size c;
  lru_Add_found c k v : lru_contents (lru_Add c k v) !! k = Some v;
  lru_Add_sub c k v : lru_contents (lru_Add c k v) ⊆ <[k := v]> (lru_contents c);
  lru_Add_keeps c k v : (Z.of_nat (size (lru_contents c)) < lru_size c)%Z →
    lru_contents (lru_Add c k v) = <[k := v]> (lru_contents c);
  lru_Add_size c k v : lru_size (lru_Add c k v) = lru_size c
}.

(** The decoders: [retry.DecodeConfig] over [retry.DefaultConfig], and
    [config.Decode] of a circuit breaker, both of the JSON form of the
    configuration. *)
Class Decoders := {
  DecodeRetry : RetrySpec → option Config;
  DecodeBreaker : CircuitBreakerSpec → option CircuitBreaker
}.

Section provider.
Context `{Lru} `{Decoders}.

Record Resiliency := {
  name : string;
  namespace : string;
  timeouts : gmap string Z;
  retries : gmap string Retry;
  circuitBreakers : gmap string CircuitBreaker;
  actorCBCaches : gmap string (option lru);
  serviceCBs : gmap string (option lru);
  componentCBs : gmap string nat;
  apps : gmap string PolicyNames;
  actors : gmap string ActorPolicies;
  components : gmap string ComponentPolicyNames;
  componentCtxFn : bool;
  breakers : list CircuitBreaker
}.

(** [New] *)
Definition New : Resiliency :=
  {| name := EmptyString; namespace := EmptyString; timeouts := ∅; retries := ∅; circuitBreakers := ∅;
     actorCBCaches := ∅; serviceCBs := ∅; componentCBs := ∅; apps := ∅; actors := ∅; components := ∅;
     componentCtxFn := false; breakers := [] |}.

Definition set_names (n ns : string) (r : Resiliency) : Resiliency :=
  {| name := n; namespace := ns; timeouts := timeouts r; retries := retries r; circuitBreakers := circuitBreakers r;
     actorCBCaches := actorCBCaches r; serviceCBs := serviceCBs r; componentCBs := componentCBs r;
     apps := apps r; actors := actors r; components := components r; componentCtxFn := componentCtxFn r;
     breakers := breakers r |}.

Definition set_policies (t : gmap string Z) (rt : gmap string Retry) (cb : gmap string CircuitBreaker) (r : Resiliency) : Resiliency :=
  {| name := name r; namespace := namespace r; timeouts := t; retries := rt; circuitBreakers := cb;
     actorCBCaches := actorCBCaches r; serviceCBs := serviceCBs r; componentCBs := componentCBs r;
     apps := apps r; actors := actors r; components := components r; componentCtxFn := componentCtxFn r;
     breakers := breakers r |}.

Definition set_targets (a : gmap string PolicyNames) (ac : gmap string ActorPolicies) (c : gmap string ComponentPolicyNames) (r : Resiliency) : Resiliency :=
  {| name := name r; namespace := namespace r; timeouts := timeouts r; retries := retries r; circuitBreakers := circuitBreakers r;
     actorCBCaches := actorCBCaches r; serviceCBs := serviceCBs r; componentCBs := componentCBs r;
     apps := a; actors := ac; components := c; componentCtxFn := componentCtxFn r; breakers := breakers r |}.

Definition set_caches (ac sv : gmap string (option lru)) (r : Resiliency) : Resiliency :=
  {| name := name r; namespace := namespace r; timeouts := timeouts r; retries := retries r; circuitBreakers := circuitBreakers r;
     actorCBCaches := ac; serviceCBs := sv; componentCBs := componentCBs r;
     apps := apps r; actors := actors r; components := components r; componentCtxFn := componentCtxFn r;
     breakers := breakers r |}.

Definition set_breakers (c : gmap string nat) (bs : list CircuitBreaker) (r : Resiliency) : Resiliency :=
  {| name := name r; namespace := namespace r; timeouts := timeouts r; retries := retries r; circuitBreakers := circuitBreakers r;
     actorCBCaches := actorCBCaches r; serviceCBs := serviceCBs r; componentCBs := c;
     apps := apps r; actors := actors r; components := components r; componentCtxFn := componentCtxFn r;
     breakers := bs |}.

Definition SetComponentContextDecorator (fn : bool) (r : Resiliency) : Resiliency :=
  {| name := name r; namespace := namespace r; timeouts := timeouts r; retries := retries r; circuitBreakers := circuitBreakers r;
     actorCBCaches := actorCBCaches r; serviceCBs := serviceCBs r; componentCBs := componentCBs r;
     apps := apps r; actors := actors r; components := components r; componentCtxFn := fn;
     breakers := breakers r |}.

(** ** Names *)

Definition BuiltInServiceRetries : string := "DaprBuiltInServiceRetries".
Definition BuiltInActorRetries : string := "DaprBuiltInActorRetries".
Definition BuiltInActorReminderRetries : string := "DaprBuiltInActorReminderRetries".
Definition BuiltInActorNotFoundRetries : string := "DaprBuiltInActorNotFoundRetries".
Definition BuiltInInitializationRetries : string := "DaprBuiltInInitializationRetries".

Definition builtIns : list string :=
  [BuiltInServiceRetries; BuiltInActorRetries; BuiltInActorReminderRetries; BuiltInInitializationRetries;
   BuiltInActorNotFoundRetries].

Definition isBuiltInPolicy (n : string) : bool := bool_decide (n ∈ builtIns).
Definition isProtectedPolicy (n : string) : bool := bool_decide (n = BuiltInActorNotFoundRetries).

(** ** Built-in policies *)

Definition constantConfig (maxRetries duration : Z) : Config :=
  {| Policy := PolicyConstant; Duration := duration; InitialInterval := 0; RandomizationFactor := (0%Z, 1%positive);
     Multiplier := (0%Z, 1%positive); MaxInterval := 0; MaxElapsedTime := 0; MaxRetries := maxRetries |}.

Definition reminderConfig : Config :=
  {| Policy := PolicyExponential; Duration := 0; InitialInterval := 500 * Millisecond;
     RandomizationFactor := (1%Z, 2%positive); Multiplier := (3%Z, 2%positive);
     MaxInterval := 60 * Second; MaxElapsedTime := 15 * Minute; MaxRetries := 0 |}.

Definition initializationConfig : Config :=
  {| Policy := PolicyExponential; Duration := 2 * Second; InitialInterval := 500 * Millisecond;
     RandomizationFactor := (1%Z, 2%positive); Multiplier := (3%Z, 2%positive);
     MaxInterval := Second; MaxElapsedTime := 10 * Second; MaxRetries := 3 |}.

(** a policy that is not there yet *)
Definition add_missing (n : string) (c : Config) (r : Resiliency) : Resiliency :=
  match retries r !! n with
  | Some _ => r
  | None => set_policies (timeouts r) (<[n := NewRetry c NewRetryConditionMatch]> (retries r)) (circuitBreakers r) r
  end.

Definition addBuiltInPolicies (r : Resiliency) : Resiliency :=
  add_missing BuiltInActorNotFoundRetries (constantConfig 5 Second)
    (add_missing BuiltInInitializationRetries initializationConfig
      (add_missing BuiltInActorReminderRetries reminderConfig
        (add_missing BuiltInActorRetries (constantConfig 3 Second)
          (add_missing BuiltInServiceRetries (constantConfig 3 Second) r)))).

(** ** Decoding *)

Inductive config_error :=
| InvalidDuration (n : string)
| InvalidRetry (n : string)
| InvalidMatch (e : pattern_error)
| InvalidBreaker (n : string)
| MissingScope
| UnknownScope (s : string)
| InvalidCacheSize (n : Z).

(** A loop that stops at the first error, keeping what it did so far. *)
Fixpoint each {A E S : Type} (f : A → S → S * option E) (l : list A) (s : S) : S * option E :=
  match l with
  | [] => (s, None)
  | x :: l' =>
      match f x s with
      | (s', None) => each f l' s'
      | (s', Some e) => (s', Some e)
      end
  end.

Definition parseDuration (val : list ascii) : option Z :=
  match Atoi val with
  | Some i => Some (i64_wrap (i * Millisecond))
  | None => ParseDuration val
  end.

(** The entry is assigned before the error is looked at: zero if there is one. *)
Definition decodeTimeout (x : string * list ascii) (r : Resiliency) : Resiliency * option config_error :=
  let d := parseDuration x.2 in
  (set_policies (<[x.1 := default 0%Z d]> (timeouts r)) (retries r) (circuitBreakers r) r,
   match d with Some _ => None | None => Some (InvalidDuration x.1) end).

Definition raise_retries (n : string) (rc : Config) : Config :=
  if isBuiltInPolicy n && bool_decide (MaxRetries rc < 3)%Z then
    {| Policy := Policy rc; Duration := Duration rc; InitialInterval := InitialInterval rc;
       RandomizationFactor := RandomizationFactor rc; Multiplier := Multiplier rc;
       MaxInterval := MaxInterval rc; MaxElapsedTime := MaxElapsedTime rc; MaxRetries := 3 |}
  else rc.

Definition decodeRetry (x : string * RetrySpec) (r : Resiliency) : Resiliency * option config_error :=
  match DecodeRetry x.2 with
  | None => (r, Some (InvalidRetry x.1))
  | Some rc =>
      if isProtectedPolicy x.1 then (r, None)
      else match ParseRetryConditionMatch (rs_Matching x.2) with
           | (_, Some e) => (r, Some (InvalidMatch e))
           | (m, None) =>
               (set_policies (timeouts r) (<[x.1 := NewRetry (raise_retries x.1 rc) m]> (retries r)) (circuitBreakers r) r, None)
           end
  end.

Definition named_breaker (n : string) (cb : CircuitBreaker) : CircuitBreaker :=
  {| cb_Name := n; cb_MaxRequests := cb_MaxRequests cb; cb_Interval := cb_Interval cb;
     cb_Timeout := cb_Timeout cb; cb_Trip := cb_Trip cb |}.

Definition decodeBreaker (x : string * CircuitBreakerSpec) (r : Resiliency) : Resiliency * option config_error :=
  match DecodeBreaker x.2 with
  | None => (r, Some (InvalidBreaker x.1))
  | Some cb => (set_policies (timeouts r) (retries r) (<[x.1 := named_breaker x.1 cb]> (circuitBreakers r)) r, None)
  end.

(** Two decoders in sequence, the second only after a success. *)
Definition andThen {E S : Type} (f g : S → S * option E) (s : S) : S * option E :=
  match f s with (s', None) => g s' | (s', Some e) => (s', Some e) end.

Definition decodePolicies (c : Configuration) : Resiliency → Resiliency * option config_error :=
  andThen (each decodeTimeout (c_Timeouts c))
    (andThen (each decodeRetry (c_Retries c)) (each decodeBreaker (c_CircuitBreakers c))).

Definition defaultEndpointCacheSize : Z := 100.
Definition defaultActorCacheSize : Z := 5000.

Definition cache_size (n dflt : Z) : Z := if bool_decide (n = 0%Z) then dflt else n.

Definition new_cache (n : Z) : option lru * option config_error :=
  match lru_New n with Some c => (Some c, None) | None => (None, Some (InvalidCacheSize n)) end.

Definition decodeApp (x : string * EndpointPolicyNames) (r : Resiliency) : Resiliency * option config_error :=
  let t := x.2 in
  let r := set_targets (<[x.1 := {| Timeout := ep_Timeout t; RetryName := ep_Retry t; CircuitBreakerName := ep_CircuitBreaker t |}]> (apps r))
             (actors r) (components r) r in
  let '(c, err) := new_cache (cache_size (ep_CacheSize t) defaultEndpointCacheSize) in
  (set_caches (actorCBCaches r) (<[x.1 := c]> (serviceCBs r)) r, err).

Definition ParseActorCircuitBreakerScope (val : string) : option ActorCircuitBreakerScope :=
  if decide (val = "type"%string) then Some ActorCircuitBreakerScopeType
  else if decide (val = "id"%string) then Some ActorCircuitBreakerScopeID
  else if decide (val = "both"%string) then Some ActorCircuitBreakerScopeBoth
  else None.

Definition decodeActor (x : string * ActorPolicyNames) (r : Resiliency) : Resiliency * option config_error :=
  let t := x.2 in
  if bool_decide (ap_Scope t = EmptyString) && bool_decide (ap_CircuitBreaker t ≠ EmptyString) then (r, Some MissingScope)
  else
    let finish (p : ActorPolicies) :=
      let r := set_targets (apps r) (<[x.1 := p]> (actors r)) (components r) r in
      let '(c, err) := new_cache (cache_size (ap_CacheSize t) defaultActorCacheSize) in
      (set_caches (<[x.1 := c]> (actorCBCaches r)) (serviceCBs r) r, err) in
    if bool_decide (ap_CircuitBreaker t ≠ EmptyString) then
      match ParseActorCircuitBreakerScope (ap_Scope t) with
      | None => (r, Some (UnknownScope (ap_Scope t)))
      | Some scope =>
          finish {| pre_Retry := ap_Retry t; pre_CircuitBreaker := ap_CircuitBreaker t; pre_Scope := scope;
                    post_Timeout := ap_Timeout t |}
      end
    else finish {| pre_Retry := ap_Retry t; pre_CircuitBreaker := EmptyString;
                   pre_Scope := ActorCircuitBreakerScopeType; post_Timeout := ap_Timeout t |}.

Definition decodeComponent (x : string * ComponentPolicyNames) (r : Resiliency) : Resiliency * option config_error :=
  (set_targets (apps r) (actors r) (<[x.1 := x.2]> (components r)) r, None).

Definition decodeTargets (c : Configuration) : Resiliency → Resiliency * option config_error :=
  andThen (each decodeApp (c_Apps c))
    (andThen (each decodeActor (c_Actors c)) (each decodeComponent (c_Components c))).

Definition DecodeConfiguration (c : Configuration) (r : Resiliency) : Resiliency * option config_error :=
  andThen (decodePolicies c) (decodeTargets c) (set_names (c_Name c) (c_Namespace c) r).

(** A configuration that cannot be read is logged and the next one decoded. *)
Definition FromConfigurations (cs : list Configuration) : Resiliency :=
  foldl (λ r c, (DecodeConfiguration c r).1) (addBuiltInPolicies New) cs.

Definition filterResiliencyConfigs (cs : list Configuration) (runtimeID : string) : list Configuration :=
  filter (λ c, c_Scopes c = [] ∨ runtimeID ∈ c_Scopes c) cs.

(** ** Default policies *)

(** The policy types; the types of components and the directions are strings. *)
Inductive PolicyKind :=
| EndpointPolicyKind
| ActorPolicyKind
| ComponentPolicyKind (componentType componentDirection : string).

Definition getPolicyLevels (p : PolicyKind) : list string :=
  match p with
  | EndpointPolicyKind => ["App"%string]
  | ActorPolicyKind => ["Actor"%string]
  | ComponentPolicyKind ty dir =>
      [String.append ty (String.append "Component" dir); String.append "Component" dir; "Component"%string]
  end.

(** The templates "Default%sRetryPolicy" and so on. *)
Inductive DefaultPolicyTemplate := DefaultRetryTemplate | DefaultTimeoutTemplate | DefaultCircuitBreakerTemplate.

Definition template_suffix (t : DefaultPolicyTemplate) : string :=
  match t with
  | DefaultRetryTemplate => "RetryPolicy"
  | DefaultTimeoutTemplate => "TimeoutPolicy"
  | DefaultCircuitBreakerTemplate => "CircuitBreakerPolicy"
  end.

Definition sprintf_template (t : DefaultPolicyTemplate) (level : string) : string :=
  String.append "Default" (String.append level (template_suffix t)).

(** The names to try, the most specific first, and the one of the top level.
    The cache of the expansions is keyed by all its arguments. *)
Definition expandPolicyTemplate (p : PolicyKind) (t : DefaultPolicyTemplate) : list string * string :=
  (sprintf_template t <$> getPolicyLevels p, sprintf_template t EmptyString).

(** The first name that is defined, or the empty string. *)
Definition first_defined {V} (m : gmap string V) (typeTemplates : list string) (topLevel : string) : string :=
  match list_find (λ n, is_Some (m !! n)) typeTemplates with
  | Some (_, n) => n
  | None => if decide (is_Some (m !! topLevel)) then topLevel else EmptyString
  end.

Definition getDefaultRetryPolicy (p : PolicyKind) (r : Resiliency) : string :=
  let '(ts, top) := expandPolicyTemplate p DefaultRetryTemplate in first_defined (retries r) ts top.

Definition getDefaultTimeoutPolicy (p : PolicyKind) (r : Resiliency) : string :=
  let '(ts, top) := expandPolicyTemplate p DefaultTimeoutTemplate in first_defined (timeouts r) ts top.

Definition getDefaultCircuitBreakerPolicy (p : PolicyKind) (r : Resiliency) : string :=
  let '(ts, top) := expandPolicyTemplate p DefaultCircuitBreakerTemplate in first_defined (circuitBreakers r) ts top.

Definition getDefaultPolicy (p : PolicyKind) (r : Resiliency) : PolicyNames * bool :=
  let n := {| Timeout := getDefaultTimeoutPolicy p r; RetryName := getDefaultRetryPolicy p r;
              CircuitBreakerName := getDefaultCircuitBreakerPolicy p r |} in
  (n, negb (bool_decide (RetryName n = EmptyString)) || negb (bool_decide (Timeout n = EmptyString)) ||
      negb (bool_decide (CircuitBreakerName n = EmptyString))).

(** ** Policies *)

(** A policy as the callers get it: [policy_cb] points to its breaker. *)
Record policy := {
  policy_def : PolicyDefinition;
  policy_cb : option nat;
  policy_ctx : bool
}.

(** [addMetricsToPolicy]: a callback for every part that is set. *)
Definition addMetricsToPolicy (n : string) (t : Z) (rt : option Retry) (cb : option nat) (ctx : bool) : policy :=
  {| policy_def :=
       {| pd_name := n; pd_t := t; pd_r := rt; pd_cb := bool_decide (is_Some cb);
          addTimeoutActivatedMetric := bool_decide (t ≠ 0%Z);
          addRetryActivatedMetric := bool_decide (is_Some rt);
          addCBStateChangedMetric := bool_decide (is_Some cb) |};
     policy_cb := cb; policy_ctx := ctx |}.

Definition named_timeout (n : string) (r : Resiliency) : Z :=
  if decide (n = EmptyString) then 0%Z else default 0%Z (timeouts r !! n).

Definition named_retry (n : string) (r : Resiliency) : option Retry :=
  if decide (n = EmptyString) then None else retries r !! n.

(** [newCB]: a new breaker with the settings of the template. *)
Definition newCB (cbName : string) (template : CircuitBreaker) (r : Resiliency) : nat * Resiliency :=
  (length (breakers r), set_breakers (componentCBs r) (breakers r ++ [named_breaker cbName template]) r).

(** The lookup in an LRU cache that creates the breaker when it is not there;
    [save] stores the cache back. *)
Definition get_or_create (c : lru) (key : string) (template : CircuitBreaker)
    (save : lru → Resiliency → Resiliency) (r : Resiliency) : nat * Resiliency :=
  match lru_Get c key with
  | (Some cb, c') => (cb, save c' r)
  | (None, c') => let '(cb, r') := newCB key template r in (cb, save (lru_Add c' key cb) r')
  end.

Definition save_service (app : string) (c : lru) (r : Resiliency) : Resiliency :=
  set_caches (actorCBCaches r) (<[app := Some c]> (serviceCBs r)) r.

Definition save_actor (actorType : string) (c : lru) (r : Resiliency) : Resiliency :=
  set_caches (<[actorType := Some c]> (actorCBCaches r)) (serviceCBs r) r.

(** [getServiceCBCache] and [getActorCBCache]: the cache of the name, created
    when there is none; [None] on the error of the creation. *)
Definition getServiceCBCache (app : string) (r : Resiliency) : option lru * Resiliency :=
  match serviceCBs r !! app with
  | Some c => (c, r)
  | None =>
      match lru_New defaultEndpointCacheSize with
      | None => (None, r)
      | Some c => (Some c, save_service app c r)
      end
  end.

Definition getActorCBCache (app : string) (r : Resiliency) : option lru * Resiliency :=
  match actorCBCaches r !! app with
  | Some c => (c, r)
  | None =>
      match lru_New defaultEndpointCacheSize with
      | None => (None, r)
      | Some c => (Some c, save_actor app c r)
      end
  end.

Definition getCBFromCache (cache : option lru) (key : string) (template : CircuitBreaker)
    (save : lru → Resiliency → Resiliency) (r : Resiliency) : nat * Resiliency :=
  match cache with
  | None => newCB key template r
  | Some c => get_or_create c key template save r
  end.

(** The breaker of a target of the configuration: [cache] is the entry of its
    map of caches, and has a result only if the cache could be created. *)
Definition target_breaker (cbName : string) (cache : option (option lru)) (key : string)
    (save : lru → Resiliency → Resiliency) (r : Resiliency) : option (option nat * Resiliency) :=
  if decide (cbName = EmptyString) then Some (None, r)
  else match circuitBreakers r !! cbName with
       | None => Some (None, r)
       | Some template =>
           match cache with
           | None => Some (None, r)
           | Some None => None
           | Some (Some c) => let '(cb, r') := get_or_create c key template save r in Some (Some cb, r')
           end
       end.

Definition policy_name (kind a b : string) : string :=
  String.append kind (String.append "[" (String.append a (String.append ", " (String.append b "]")))).

Definition EndpointPolicy (app endpoint : string) (r : Resiliency) : option (policy * Resiliency) :=
  let n := policy_name "endpoint" app endpoint in
  match apps r !! app with
  | Some names =>
      '(cb, r') ← target_breaker (CircuitBreakerName names) (serviceCBs r !! app) endpoint (save_service app) r;
      Some (addMetricsToPolicy n (named_timeout (Timeout names) r) (named_retry (RetryName names) r) cb false, r')
  | None =>
      let '(names, ok) := getDefaultPolicy EndpointPolicyKind r in
      if ok then
        let t := named_timeout (Timeout names) r in
        let rt := named_retry (RetryName names) r in
        match (if decide (CircuitBreakerName names = EmptyString) then None else circuitBreakers r !! CircuitBreakerName names) with
        | None => Some (addMetricsToPolicy n t rt None false, r)
        | Some template =>
            let '(cache, r1) := getServiceCBCache app r in
            let '(cb, r2) := getCBFromCache cache endpoint template (save_service app) r1 in
            Some (addMetricsToPolicy n t rt (Some cb) false, r2)
        end
      else Some (addMetricsToPolicy n 0 None None false, r)
  end.

(** the key of an actor's breaker *)
Definition actor_key (scope : ActorCircuitBreakerScope) (actorType id : string) : string :=
  if decide (scope = ActorCircuitBreakerScopeType) then actorType
  else String.append actorType (String.append "-" id).

Definition ActorPreLockPolicy (actorType id : string) (r : Resiliency) : option (policy * Resiliency) :=
  let n := policy_name "actor" actorType id in
  match actors r !! actorType with
  | Some names =>
      '(cb, r') ← target_breaker (pre_CircuitBreaker names) (actorCBCaches r !! actorType)
                    (actor_key (pre_Scope names) actorType id) (save_actor actorType) r;
      Some (addMetricsToPolicy n 0 (named_retry (pre_Retry names) r) cb false, r')
  | None =>
      let '(names, ok) := getDefaultPolicy ActorPolicyKind r in
      if ok then
        let rt := named_retry (RetryName names) r in
        match (if decide (CircuitBreakerName names = EmptyString) then None else circuitBreakers r !! CircuitBreakerName names) with
        | None => Some (addMetricsToPolicy n 0 rt None false, r)
        | Some template =>
            let '(cache, r1) := getActorCBCache actorType r in
            let '(cb, r2) := getCBFromCache cache actorType template (save_actor actorType) r1 in
            Some (addMetricsToPolicy n 0 rt (Some cb) false, r2)
        end
      else Some (addMetricsToPolicy n 0 None None false, r)
  end.

Definition ActorPostLockPolicy (actorType id : string) (r : Resiliency) : policy :=
  let t := match actors r !! actorType with
           | Some names => named_timeout (post_Timeout names) r
           | None =>
               let '(names, ok) := getDefaultPolicy ActorPolicyKind r in
               if ok then named_timeout (Timeout names) r else 0%Z
           end in
  addMetricsToPolicy (policy_name "actor" actorType id) t None None false.

(** [circuitBreakerInstances.Get]: a nil template is dereferenced when the
    breaker has to be created. *)
Definition instances_Get (instanceName : string) (template : option CircuitBreaker) (r : Resiliency) : option (nat * Resiliency) :=
  match componentCBs r !! instanceName with
  | Some cb => Some (cb, r)
  | None =>
      match template with
      | None => None
      | Some t =>
          let '(cb, r') := newCB (String.append (cb_Name t) (String.append "-" instanceName)) t r in
          Some (cb, set_breakers (<[instanceName := cb]> (componentCBs r')) (breakers r') r')
      end
  end.

Definition instances_Remove (n : string) (r : Resiliency) : Resiliency :=
  set_breakers (delete n (componentCBs r)) (breakers r) r.

(** The part the two policies of a component share; [names] are those of the
    direction. *)
Definition component_policy (policyName cname : string) (names : PolicyNames) (r : Resiliency) : option (policy * Resiliency) :=
  let t := named_timeout (Timeout names) r in
  let rt := named_retry (RetryName names) r in
  if decide (CircuitBreakerName names = EmptyString) then
    Some (addMetricsToPolicy policyName t rt None (componentCtxFn r), r)
  else
    '(cb, r') ← instances_Get cname (circuitBreakers r !! CircuitBreakerName names) r;
    Some (addMetricsToPolicy policyName t rt (Some cb) (componentCtxFn r), r').

(** The names that apply to a component: those of its target, or the defaults;
    without either there are none. *)
Definition component_names (dir : string) (side : ComponentPolicyNames → PolicyNames) (cname componentType : string) (r : Resiliency) : PolicyNames :=
  match components r !! cname with
  | Some names => side names
  | None =>
      let '(names, ok) := getDefaultPolicy (ComponentPolicyKind componentType dir) r in
      if ok then names else {| Timeout := EmptyString; RetryName := EmptyString; CircuitBreakerName := EmptyString |}
  end.

Definition ComponentOutboundPolicy (cname componentType : string) (r : Resiliency) : option (policy * Resiliency) :=
  component_policy (String.append "component[" (String.append cname "] output")) cname
    (component_names "Outbound" Outbound cname componentType r) r.

Definition ComponentInboundPolicy (cname componentType : string) (r : Resiliency) : option (policy * Resiliency) :=
  component_policy (String.append "component[" (String.append cname "] input")) cname
    (component_names "Inbound" Inbound cname componentType r) r.

(** No metrics are added to a built-in policy. *)
Definition BuiltInPolicy (n : string) (r : Resiliency) : policy :=
  {| policy_def :=
       {| pd_name := n; pd_t := 0; pd_r := retries r !! n; pd_cb := false;
          addTimeoutActivatedMetric := false; addRetryActivatedMetric := false; addCBStateChangedMetric := false |};
     policy_cb := None; policy_ctx := false |}.

Definition PolicyDefined (target : string) (p : PolicyKind) (r : Resiliency) : bool :=
  match p with
  | EndpointPolicyKind => bool_decide (is_Some (apps r !! target))
  | ComponentPolicyKind _ _ => bool_decide (is_Some (components r !! target))
  | ActorPolicyKind => bool_decide (is_Some (actors r !! target))
  end.

End provider.
