(* ===== verification/ResiliencyProps.v ===== *)
(** * What the resiliency provider guarantees

    Over the definitions of [Resiliency]: the built-in policies survive every
    configuration ([builtin_policies_kept]), decoding a configuration does not
    depend on the order in which its maps are visited
    ([decode_order_irrelevant]), no two targets share a circuit breaker
    ([breakers_isolated]) except the two directions of a component
    ([component_breaker_shared]), and when a lookup fails
    ([undefined_breaker_panics]). *)

From Stdlib Require Import Ascii.
From S2P Require Import Prelude GoStrings ResiliencyRetry GoTime ResiliencyRunner Resiliency.

(** ** Loops that stop at an error *)

Section each.
Context {A E S : Type}.
Implicit Types (f : A → S → S * option E).

(** What every iteration keeps, with or without an error, the loop keeps. *)
Lemma each_keeps (P : S → Prop) f l s :
  (∀ x s, x ∈ l → P s → P (f x s).1) → P s → P (each f l s).1.
Proof.
  revert s; induction l as [|x l IH]; intros s Hf Hs; simpl; [done|].
  pose proof (Hf x s ltac:(by left) Hs) as Hx. destruct (f x s) as [s' [e|]]; [done|].
  apply IH; [|done]. intros y s0 Hy. apply Hf. by right.
Qed.

Lemma andThen_keeps (P : S → Prop) (f g : S → S * option E) s :
  (∀ s, P s → P (f s).1) → (∀ s, P s → P (g s).1) → P s → P (andThen f g s).1.
Proof.
  intros Hf Hg Hs. unfold andThen. pose proof (Hf s Hs) as H1. destruct (f s) as [s' [e|]]; [done|]. by apply Hg.
Qed.

(** A successful loop succeeds with the same result in any order. *)
Lemma each_perm (R : A → A → Prop) f l l' :
  Symmetric R →
  (∀ x y s s1 s2, R x y → f x s = (s1, None) → f y s1 = (s2, None) → ∃ s1', f y s = (s1', None) ∧ f x s1' = (s2, None)) →
  l ≡ₚ l' → ForallOrdPairs R l → ∀ s s', each f l s = (s', None) → each f l' s = (s', None).
Proof.
  intros HR Hf Hp. induction Hp as [|x l l' Hp IH|x y l|l1 l2 l3 Hp1 IH1 Hp2 IH2]; intros Hd s s' Hs.
  - done.
  - simpl in *. inversion Hd; subst. destruct (f x s) as [s1 [e|]]; [done|]. by apply IH.
  - simpl in *. inversion Hd as [|? ? Hyx Hd']; subst. apply list.Forall_cons in Hyx as [Hyx _].
    destruct (f y s) as [s1 [e|]] eqn:E1; [done|]. destruct (f x s1) as [s2 [e|]] eqn:E2; [done|].
    destruct (Hf y x s s1 s2 Hyx E1 E2) as (s1' & -> & ->). done.
  - apply IH2; [|by apply IH1]. clear -Hp1 Hd HR. induction Hp1 as [|x l l' Hp IH|x y l|l1 l2 l3 Hp1 IH1 Hp2 IH2].
    + done.
    + inversion Hd; subst. constructor; [by rewrite <-Hp|by apply IH].
    + inversion Hd as [|? ? Hy Hd']; subst. inversion Hd' as [|? ? Hx Hd'']; subst.
      apply list.Forall_cons in Hy as [Hyx Hy]. constructor; [constructor; [by symmetry|done]|by constructor].
    + by apply IH2, IH1.
Qed.

End each.

(** Entries of a Go map have different keys. *)
Lemma map_keys_pairs {V} (l : list (string * V)) :
  NoDup l.*1 → ForallOrdPairs (λ x y : string * V, x.1 ≠ y.1) l.
Proof.
  induction l as [|x l IH]; intros Hn; [constructor|]. rewrite fmap_cons in Hn. apply list.NoDup_cons in Hn as [Hx Hn].
  constructor; [|by apply IH]. apply list.Forall_forall. intros y Hy Heq. apply Hx. rewrite Heq.
  by apply list_elem_of_fmap_2.
Qed.

(** A loop over a Go map whose iterations change different parts of the state
    and fail whatever the state is gives the same result in any order. *)
Lemma each_order {V S E} (f : string * V → S → S * option E) l l' s s' :
  (∀ x s1 s2, (f x s1).2 = (f x s2).2) →
  (∀ x y s, x.1 ≠ y.1 → (f y (f x s).1).1 = (f x (f y s).1).1) →
  NoDup l.*1 → l ≡ₚ l' → each f l s = (s', None) → each f l' s = (s', None).
Proof.
  intros Herr Hcomm Hn Hp. apply (each_perm (λ x y, x.1 ≠ y.1)); [intros ?? Hne Heq; by apply Hne| |done|by apply map_keys_pairs].
  intros x y s0 s1 s2 Hxy Hx Hy. exists (f y s0).1. split.
  - specialize (Herr y s0 s1). rewrite Hy in Herr. destruct (f y s0); simplify_eq/=. congruence.
  - specialize (Herr x (f y s0).1 s0). rewrite Hx in Herr. specialize (Hcomm x y s0 Hxy). rewrite Hx in Hcomm. simpl in Hcomm.
    rewrite Hy in Hcomm. simpl in Hcomm. destruct (f x (f y s0).1); simplify_eq/=. congruence.
Qed.

Section props.
Context `{Lru} `{Decoders}.

Implicit Types (r : Resiliency) (c : Configuration).

(** ** Decoding touches the policies only where it should *)

Definition default_notFound : Retry := NewRetry (constantConfig 5 Second) NewRetryConditionMatch.

Definition builtin_ok (n : string) (rt : Retry) : Prop :=
  (3 ≤ MaxRetries (Retry_Config rt))%Z ∨
  n = BuiltInActorReminderRetries ∧ rt = NewRetry reminderConfig NewRetryConditionMatch.

Definition builtin_inv r : Prop :=
  retries r !! BuiltInActorNotFoundRetries = Some default_notFound ∧
  ∀ n, n ∈ builtIns → ∃ rt, retries r !! n = Some rt ∧ builtin_ok n rt.

Lemma builtin_same r r' : retries r' = retries r → builtin_inv r → builtin_inv r'.
Proof. unfold builtin_inv. by intros ->. Qed.

Lemma raise_retries_ok n rc : n ∈ builtIns → (3 ≤ MaxRetries (raise_retries n rc))%Z.
Proof.
  intros Hn. unfold raise_retries, isBuiltInPolicy. rewrite bool_decide_true by done. simpl.
  by case_bool_decide; [|lia].
Qed.

Lemma decodeRetry_builtin x r : builtin_inv r → builtin_inv (decodeRetry x r).1.
Proof.
  intros [H1 H2]. unfold decodeRetry, isProtectedPolicy. destruct (DecodeRetry x.2) as [rc|]; [|by split].
  case_bool_decide as Hp; [by split|]. destruct (ParseRetryConditionMatch _) as [m [e|]]; [by split|].
  simpl. split; simpl.
  - by rewrite lookup_insert_ne.
  - intros n Hn. destruct (decide (n = x.1)) as [->|Hne].
    + rewrite lookup_insert_eq. eexists. split; [done|]. left. by apply raise_retries_ok.
    + rewrite lookup_insert_ne by done. by apply H2.
Qed.

Lemma decodeActor_retries x r : retries (decodeActor x r).1 = retries r.
Proof.
  unfold decodeActor. destruct (_ && _); [done|]. destruct (new_cache _) as [ch err].
  destruct (bool_decide _); [|done]. by destruct (ParseActorCircuitBreakerScope _).
Qed.

Lemma DecodeConfiguration_builtin c r : builtin_inv r → builtin_inv (DecodeConfiguration c r).1.
Proof.
  intros Hr. unfold DecodeConfiguration, decodePolicies, decodeTargets.
  apply (andThen_keeps builtin_inv); [..|by eapply builtin_same, Hr].
  - intros s Hs. apply (andThen_keeps builtin_inv); [..|done]; intros s1 H1.
    + apply (each_keeps builtin_inv); [|done]. intros x s2 _ H2. by eapply builtin_same, H2.
    + apply (andThen_keeps builtin_inv); [..|done]; intros s2 H2; (apply (each_keeps builtin_inv); [|done]); intros x s3 _ H3.
      * by apply decodeRetry_builtin.
      * unfold decodeBreaker. destruct (DecodeBreaker _); by eapply builtin_same, H3.
  - intros s Hs. apply (andThen_keeps builtin_inv); [..|done]; intros s1 H1.
    + apply (each_keeps builtin_inv); [|done]. intros x s2 _ H2. unfold decodeApp. destruct (new_cache _). by eapply builtin_same, H2.
    + apply (andThen_keeps builtin_inv); [..|done]; intros s2 H2; (apply (each_keeps builtin_inv); [|done]); intros x s3 _ H3.
      * eapply builtin_same, H3. apply decodeActor_retries.
      * by eapply builtin_same, H3.
Qed.

Lemma addBuiltInPolicies_builtin : builtin_inv (addBuiltInPolicies New).
Proof.
  split; [vm_compute; reflexivity|]. intros n Hn. unfold builtin_ok.
  repeat (apply elem_of_cons in Hn as [->|Hn]); [..|by apply not_elem_of_nil in Hn];
    (eexists; split; [vm_compute; reflexivity|]); vm_compute; (by left) || (by right).
Qed.

Lemma FromConfigurations_builtin cs : builtin_inv (FromConfigurations cs).
Proof.
  unfold FromConfigurations. generalize addBuiltInPolicies_builtin. generalize (addBuiltInPolicies New).
  induction cs as [|c cs IH]; intros r Hr; [done|]. simpl. by apply IH, DecodeConfiguration_builtin.
Qed.

(** ** The order of the maps *)

Ltac solve_decoder := intros; simpl in *; repeat case_match; simplify_eq/=; try done;
  unfold set_policies, set_targets, set_caches; simpl; try (f_equal; by apply insert_insert_ne);
  try (f_equal; first [by apply insert_insert_ne|done]).

Lemma decodeTimeout_order (x y : string * list ascii) r : x.1 ≠ y.1 →
  (decodeTimeout y (decodeTimeout x r).1).1 = (decodeTimeout x (decodeTimeout y r).1).1.
Proof. unfold decodeTimeout. solve_decoder. Qed.

Lemma decodeRetry_err (x : string * RetrySpec) r1 r2 : (decodeRetry x r1).2 = (decodeRetry x r2).2.
Proof. unfold decodeRetry. solve_decoder. Qed.

Lemma decodeRetry_order (x y : string * RetrySpec) r : x.1 ≠ y.1 →
  (decodeRetry y (decodeRetry x r).1).1 = (decodeRetry x (decodeRetry y r).1).1.
Proof. unfold decodeRetry. solve_decoder. Qed.

Lemma decodeBreaker_err (x : string * CircuitBreakerSpec) r1 r2 : (decodeBreaker x r1).2 = (decodeBreaker x r2).2.
Proof. unfold decodeBreaker. solve_decoder. Qed.

Lemma decodeBreaker_order (x y : string * CircuitBreakerSpec) r : x.1 ≠ y.1 →
  (decodeBreaker y (decodeBreaker x r).1).1 = (decodeBreaker x (decodeBreaker y r).1).1.
Proof. unfold decodeBreaker. solve_decoder. Qed.

(** Decoding the target of an app or an actor adds its entries, or nothing. *)
Definition app_entry (n : string) (p : PolicyNames) (ch : option lru) r : Resiliency :=
  set_caches (actorCBCaches r) (<[n := ch]> (serviceCBs r)) (set_targets (<[n := p]> (apps r)) (actors r) (components r) r).

Definition actor_entry (n : string) (p : ActorPolicies) (ch : option lru) r : Resiliency :=
  set_caches (<[n := ch]> (actorCBCaches r)) (serviceCBs r) (set_targets (apps r) (<[n := p]> (actors r)) (components r) r).

Lemma decodeApp_entry (x : string * EndpointPolicyNames) : ∃ p ch err, ∀ r, decodeApp x r = (app_entry x.1 p ch r, err).
Proof. unfold decodeApp. destruct (new_cache _) as [ch err]. eexists _, ch, err. intros r. reflexivity. Qed.

Lemma decodeActor_entry (x : string * ActorPolicyNames) :
  (∃ err, ∀ r, decodeActor x r = (r, Some err)) ∨ (∃ p ch err, ∀ r, decodeActor x r = (actor_entry x.1 p ch r, err)).
Proof.
  unfold decodeActor. destruct (_ && _); [left; eauto|]. destruct (new_cache _) as [ch err].
  destruct (bool_decide _); [destruct (ParseActorCircuitBreakerScope _); [|left; eauto]|];
    right; eexists _, ch, err; intros r; reflexivity.
Qed.

Lemma app_entry_order n1 p1 ch1 n2 p2 ch2 r : n1 ≠ n2 →
  app_entry n2 p2 ch2 (app_entry n1 p1 ch1 r) = app_entry n1 p1 ch1 (app_entry n2 p2 ch2 r).
Proof. intros Hn. unfold app_entry, set_caches, set_targets. simpl. by f_equal; apply insert_insert_ne. Qed.

Lemma actor_entry_order n1 p1 ch1 n2 p2 ch2 r : n1 ≠ n2 →
  actor_entry n2 p2 ch2 (actor_entry n1 p1 ch1 r) = actor_entry n1 p1 ch1 (actor_entry n2 p2 ch2 r).
Proof. intros Hn. unfold actor_entry, set_caches, set_targets. simpl. by f_equal; apply insert_insert_ne. Qed.

Lemma decodeApp_err (x : string * EndpointPolicyNames) r1 r2 : (decodeApp x r1).2 = (decodeApp x r2).2.
Proof. destruct (decodeApp_entry x) as (p & ch & err & Hx). by rewrite !Hx. Qed.

Lemma decodeApp_order (x y : string * EndpointPolicyNames) r : x.1 ≠ y.1 →
  (decodeApp y (decodeApp x r).1).1 = (decodeApp x (decodeApp y r).1).1.
Proof.
  intros Hxy. destruct (decodeApp_entry x) as (p1 & ch1 & e1 & Hx), (decodeApp_entry y) as (p2 & ch2 & e2 & Hy).
  rewrite Hx, Hy. cbn [fst]. rewrite Hy, Hx. by apply app_entry_order.
Qed.

Lemma decodeActor_err (x : string * ActorPolicyNames) r1 r2 : (decodeActor x r1).2 = (decodeActor x r2).2.
Proof. destruct (decodeActor_entry x) as [(e & Hx)|(p & ch & err & Hx)]; by rewrite !Hx. Qed.

Lemma decodeActor_order (x y : string * ActorPolicyNames) r : x.1 ≠ y.1 →
  (decodeActor y (decodeActor x r).1).1 = (decodeActor x (decodeActor y r).1).1.
Proof.
  intros Hxy. destruct (decodeActor_entry x) as [(e1 & Hx)|(p1 & ch1 & e1 & Hx)],
    (decodeActor_entry y) as [(e2 & Hy)|(p2 & ch2 & e2 & Hy)]; rewrite Hx, Hy; cbn [fst]; rewrite ?Hy, ?Hx; try done.
  by apply actor_entry_order.
Qed.

Lemma decodeComponent_order (x y : string * ComponentPolicyNames) r : x.1 ≠ y.1 →
  (decodeComponent y (decodeComponent x r).1).1 = (decodeComponent x (decodeComponent y r).1).1.
Proof. unfold decodeComponent. solve_decoder. Qed.

(** The same configuration, its maps visited in another order. *)
Record same_configuration c c' : Prop := {
  sc_name : c_Name c = c_Name c' ∧ c_Namespace c = c_Namespace c';
  sc_timeouts : c_Timeouts c ≡ₚ c_Timeouts c' ∧ NoDup (c_Timeouts c).*1;
  sc_retries : c_Retries c ≡ₚ c_Retries c' ∧ NoDup (c_Retries c).*1;
  sc_breakers : c_CircuitBreakers c ≡ₚ c_CircuitBreakers c' ∧ NoDup (c_CircuitBreakers c).*1;
  sc_apps : c_Apps c ≡ₚ c_Apps c' ∧ NoDup (c_Apps c).*1;
  sc_actors : c_Actors c ≡ₚ c_Actors c' ∧ NoDup (c_Actors c).*1;
  sc_components : c_Components c ≡ₚ c_Components c' ∧ NoDup (c_Components c).*1
}.

Lemma andThen_None {E S} (f g f' g' : S → S * option E) s s' :
  (∀ s s', f s = (s', None) → f' s = (s', None)) → (∀ s s', g s = (s', None) → g' s = (s', None)) →
  andThen f g s = (s', None) → andThen f' g' s = (s', None).
Proof.
  intros Hf Hg Hs. unfold andThen in *. destruct (f s) as [s1 [e|]] eqn:E1; [done|].
  rewrite (Hf s s1 E1). by apply Hg.
Qed.

Lemma decodePolicies_order c c' r r' :
  same_configuration c c' → decodePolicies c r = (r', None) → decodePolicies c' r = (r', None).
Proof.
  intros [_ [P1 N1] [P2 N2] [P3 N3] _ _ _]. unfold decodePolicies. apply andThen_None.
  - intros s s'. apply each_order; [done|apply decodeTimeout_order|done|done].
  - intros s s'. apply andThen_None; intros s0 s0'.
    + apply each_order; [apply decodeRetry_err|apply decodeRetry_order|done|done].
    + apply each_order; [apply decodeBreaker_err|apply decodeBreaker_order|done|done].
Qed.

Lemma decodeTargets_order c c' r r' :
  same_configuration c c' → decodeTargets c r = (r', None) → decodeTargets c' r = (r', None).
Proof.
  intros [_ _ _ _ [P1 N1] [P2 N2] [P3 N3]]. unfold decodeTargets. apply andThen_None.
  - intros s s'. apply each_order; [apply decodeApp_err|apply decodeApp_order|done|done].
  - intros s s'. apply andThen_None; intros s0 s0'.
    + apply each_order; [apply decodeActor_err|apply decodeActor_order|done|done].
    + apply each_order; [done|apply decodeComponent_order|done|done].
Qed.

(** ** Who owns a breaker *)

(** The target a breaker was made for.  The two directions of a component are
    one target. *)
Inductive owner :=
| OEndpoint (app endpoint : string)
| OActor (actorType key : string)
| OComponent (cname : string).

(** The breakers a target can get: those of its caches. *)
Definition cached_breaker r (o : owner) (p : nat) : Prop :=
  match o with
  | OEndpoint app e => ∃ ch : lru, serviceCBs r !! app = Some (Some ch) ∧ lru_contents ch !! e = Some p
  | OActor ty k => ∃ ch : lru, actorCBCaches r !! ty = Some (Some ch) ∧ lru_contents ch !! k = Some p
  | OComponent n => componentCBs r !! n = Some p
  end.

(** [own] names the target every breaker was made for. *)
Definition owned (own : list owner) r : Prop :=
  length own = length (breakers r) ∧ ∀ o p, cached_breaker r o p → own !! p = Some o.

(** The provider's lookups. *)
Inductive lookup_call :=
| CallEndpoint (app endpoint : string)
| CallActor (actorType id : string)
| CallOutbound (cname componentType : string)
| CallInbound (cname componentType : string).

Definition call (l : lookup_call) r : option (policy * Resiliency) :=
  match l with
  | CallEndpoint a e => EndpointPolicy a e r
  | CallActor t i => ActorPreLockPolicy t i r
  | CallOutbound n t => ComponentOutboundPolicy n t r
  | CallInbound n t => ComponentInboundPolicy n t r
  end.

(** The target of a lookup: the key of an actor depends on the scope of its
    policy. *)
Definition target r (l : lookup_call) : owner :=
  match l with
  | CallEndpoint a e => OEndpoint a e
  | CallActor t i =>
      OActor t (match actors r !! t with Some names => actor_key (pre_Scope names) t i | None => t end)
  | CallOutbound n _ | CallInbound n _ => OComponent n
  end.

(** What a lookup leaves as it was. *)
Definition same_settings r r' : Prop :=
  timeouts r' = timeouts r ∧ retries r' = retries r ∧ circuitBreakers r' = circuitBreakers r ∧
  apps r' = apps r ∧ actors r' = actors r ∧ components r' = components r.

(** A lookup with the result [cb]: the owners are extended by the new breaker,
    if there is one, and [cb] belongs to [o]. *)
Definition looked_up own r r' (o : owner) (cb : option nat) : Prop :=
  same_settings r r' ∧
  ∃ own', owned (own ++ own') r' ∧ ∀ p, cb = Some p → (own ++ own') !! p = Some o.

Lemma looked_up_none own r o : owned own r → looked_up own r r o None.
Proof. intros Ho. split; [done|]. exists []. by rewrite app_nil_r. Qed.

Lemma owned_old own o' r p o : owned own r → cached_breaker r o p → (own ++ o') !! p = Some o.
Proof. intros [_ Ho] Hc. by apply lookup_app_l_Some, Ho. Qed.

(** Storing the cache [ch] of the targets [mk e]. *)
Definition saves (mk : string → owner) (save : lru → Resiliency → Resiliency) : Prop :=
  ∀ ch r, same_settings r (save ch r) ∧ breakers (save ch r) = breakers r ∧
    (∀ o p, cached_breaker (save ch r) o p → (∃ e, o = mk e ∧ lru_contents ch !! e = Some p) ∨ cached_breaker r o p) ∧
    (∀ e p, lru_contents ch !! e = Some p → cached_breaker (save ch r) (mk e) p).

Lemma save_service_saves app : saves (OEndpoint app) (save_service app).
Proof.
  intros ch r. split; [done|split; [done|split]]; [|intros e p He; exists ch; split; [apply lookup_insert_eq|done]].
  intros [a e|t k|n] p; simpl; [|by right..]. intros (ch' & Hl & Hp). apply lookup_insert_Some in Hl as [[<- [= <-]]|[_ Hl]]; [left; eauto|right; eauto].
Qed.

Lemma save_actor_saves ty : saves (OActor ty) (save_actor ty).
Proof.
  intros ch r. split; [done|split; [done|split]]; [|intros e p He; exists ch; split; [apply lookup_insert_eq|done]].
  intros [a e|t k|n] p; simpl; [by right| |by right]. intros (ch' & Hl & Hp). apply lookup_insert_Some in Hl as [[<- [= <-]]|[_ Hl]]; [left; eauto|right; eauto].
Qed.

(** A lookup in a cache, all of whose entries have their owners. *)
Lemma get_or_create_owned mk save own r ch key template :
  saves mk save → owned own r →
  (∀ e p, lru_contents ch !! e = Some p → own !! p = Some (mk e)) →
  looked_up own r (get_or_create ch key template save r).2 (mk key) (Some (get_or_create ch key template save r).1).
Proof.
  intros Hs [Hlen Ho] Hin. unfold get_or_create. pose proof (lru_Get_found ch key) as Hf.
  pose proof (proj1 (lru_Get_keeps ch key)) as Hk. destruct (lru_Get ch key) as [[cb|] ch']; simpl in *.
  - destruct (Hs ch' r) as (Hset & Hb & Hc & _). split; [done|]. exists []. rewrite app_nil_r. split; [split|].
    + by rewrite Hb.
    + intros o p Hop. destruct (Hc o p Hop) as [(e & -> & He)|?]; [|by apply Ho]. rewrite Hk in He. by apply Hin.
    + intros p [= <-]. by apply Hin.
  - set (cb := length (breakers r)). set (r1 := set_breakers _ _ r).
    destruct (Hs (lru_Add ch' key cb) r1) as (Hset & Hb & Hc & _). split; [exact Hset|]. exists [mk key]. split; [split|].
    + rewrite Hb. simpl. rewrite !length_app. simpl. lia.
    + intros o p Hop. destruct (Hc o p Hop) as [(e & -> & He)|Hold].
      * pose proof (lookup_weaken _ _ _ _ He (lru_Add_sub ch' key cb)) as Hsub.
        rewrite Hk in Hsub. apply lookup_insert_Some in Hsub as [[<- <-]|[_ Hsub]].
        -- rewrite lookup_app_r, Hlen by lia. unfold cb. by rewrite Nat.sub_diag.
        -- by apply lookup_app_l_Some, Hin.
      * apply lookup_app_l_Some, Ho. destruct o; exact Hold.
    + intros p [= <-]. rewrite lookup_app_r by lia. unfold cb. by rewrite Hlen, Nat.sub_diag.
Qed.

(** A breaker that is not cached belongs to the target it is made for. *)
Lemma newCB_owned own r n template o :
  owned own r → looked_up own r (newCB n template r).2 o (Some (newCB n template r).1).
Proof.
  intros [Hlen Ho]. split; [done|]. exists [o]. split; [split|].
  - simpl. rewrite !length_app. simpl. lia.
  - intros o' p Hc. apply lookup_app_l_Some, Ho. destruct o'; exact Hc.
  - intros p [= <-]. rewrite lookup_app_r by lia. by rewrite Hlen, Nat.sub_diag.
Qed.

Lemma target_breaker_owned mk save own r n cache key cb r' :
  saves mk save → owned own r →
  (∀ ch e p, cache = Some (Some ch) → lru_contents ch !! e = Some p → cached_breaker r (mk e) p) →
  target_breaker n cache key save r = Some (cb, r') → looked_up own r r' (mk key) cb.
Proof.
  intros Hs Ho Hin. unfold target_breaker. case_decide; [intros [= <- <-]; by apply looked_up_none|].
  destruct (circuitBreakers r !! n) as [template|]; [|intros [= <- <-]; by apply looked_up_none].
  destruct cache as [[ch|]|]; [|done|intros [= <- <-]; by apply looked_up_none].
  pose proof (get_or_create_owned mk save own r ch key template Hs Ho) as Hg.
  destruct (get_or_create ch key template save r) as [p r1]. intros [= <- <-]. apply Hg.
  intros e q He. by apply Ho, (Hin ch).
Qed.

(** Looking for the cache of a name: its entries were cached before. *)
Definition cache_found own r (mk : string → owner) (cache : option lru) r1 : Prop :=
  same_settings r r1 ∧ owned own r1 ∧
  ∀ ch e p, cache = Some ch → lru_contents ch !! e = Some p → own !! p = Some (mk e).

Lemma getServiceCBCache_found own r app :
  owned own r → cache_found own r (OEndpoint app) (getServiceCBCache app r).1 (getServiceCBCache app r).2.
Proof.
  intros [Hlen Ho]. unfold getServiceCBCache. destruct (serviceCBs r !! app) as [cache|] eqn:E.
  { simpl. split; [done|]. split; [done|]. intros ch e p -> He. apply Ho. by exists ch. }
  destruct (lru_New_ok defaultEndpointCacheSize) as (ch & Hn & Hc & _); [done|]. rewrite Hn. simpl.
  destruct (save_service_saves app ch r) as (Hset & Hb & Hsv & _). split; [done|]. split.
  - split; [by rewrite Hb|]. intros o p Hop. destruct (Hsv o p Hop) as [(e & _ & He)|?]; [|by apply Ho].
    by rewrite Hc, lookup_empty in He.
  - intros ch' e p [= <-] He. by rewrite Hc, lookup_empty in He.
Qed.

Lemma getActorCBCache_found own r ty :
  owned own r → cache_found own r (OActor ty) (getActorCBCache ty r).1 (getActorCBCache ty r).2.
Proof.
  intros [Hlen Ho]. unfold getActorCBCache. destruct (actorCBCaches r !! ty) as [cache|] eqn:E.
  { simpl. split; [done|]. split; [done|]. intros ch e p -> He. apply Ho. by exists ch. }
  destruct (lru_New_ok defaultEndpointCacheSize) as (ch & Hn & Hc & _); [done|]. rewrite Hn. simpl.
  destruct (save_actor_saves ty ch r) as (Hset & Hb & Hsv & _). split; [done|]. split.
  - split; [by rewrite Hb|]. intros o p Hop. destruct (Hsv o p Hop) as [(e & _ & He)|?]; [|by apply Ho].
    by rewrite Hc, lookup_empty in He.
  - intros ch' e p [= <-] He. by rewrite Hc, lookup_empty in He.
Qed.

Lemma same_settings_trans r1 r2 r3 : same_settings r1 r2 → same_settings r2 r3 → same_settings r1 r3.
Proof. unfold same_settings. intuition congruence. Qed.

Lemma getCBFromCache_owned mk save own r cache r1 key template :
  saves mk save → cache_found own r mk cache r1 →
  looked_up own r (getCBFromCache cache key template save r1).2 (mk key) (Some (getCBFromCache cache key template save r1).1).
Proof.
  intros Hs (Hset & Ho & Hin).
  assert (Hl : looked_up own r1 (getCBFromCache cache key template save r1).2 (mk key) (Some (getCBFromCache cache key template save r1).1)).
  { unfold getCBFromCache. destruct cache as [ch|]; [|by apply newCB_owned].
    apply get_or_create_owned; [done|done|]. intros e p. by apply Hin. }
  destruct Hl as [Hset' Hl]. split; [by eapply same_settings_trans|done].
Qed.

Lemma component_policy_owned own r pn n names p r' :
  owned own r → component_policy pn n names r = Some (p, r') → looked_up own r r' (OComponent n) (policy_cb p).
Proof.
  intros Ho. unfold component_policy. case_decide; [intros [= <- <-]; by apply looked_up_none|].
  unfold instances_Get. destruct (componentCBs r !! n) as [cb|] eqn:E.
  - intros [= <- <-]. split; [done|]. exists []. rewrite app_nil_r. split; [done|]. intros q [= <-]. by apply (proj2 Ho (OComponent n)).
  - destruct (circuitBreakers r !! _) as [t|]; [|done]. simpl. intros [= <- <-].
    destruct Ho as [Hlen Ho]. split; [done|]. exists [OComponent n].
    assert (Hnew : (own ++ [OComponent n]) !! length (breakers r) = Some (OComponent n)).
    { rewrite lookup_app_r by lia. by rewrite Hlen, Nat.sub_diag. }
    split; [split|].
    + simpl. rewrite !length_app. simpl. lia.
    + intros [a e|ty k|m] q Hq; [by apply lookup_app_l_Some, Ho..|]. simpl in Hq.
      apply lookup_insert_Some in Hq as [[<- <-]|[_ Hq]]; [done|by apply lookup_app_l_Some, (Ho (OComponent m))].
    + intros q [= <-]. done.
Qed.

(** Every lookup hands out a breaker of its target. *)
Lemma call_owned own r l p r' :
  owned own r → call l r = Some (p, r') → looked_up own r r' (target r l) (policy_cb p).
Proof.
  intros Ho. destruct l as [app e|ty id|n ct|n ct]; simpl; [| |by apply component_policy_owned..].
  - unfold EndpointPolicy. destruct (apps r !! app) as [names|].
    + destruct (target_breaker _ _ _ _ _) as [[cb r1]|] eqn:Et; [|done]. simpl. intros [= <- <-]. simpl.
      eapply (target_breaker_owned (OEndpoint app)), Et; [apply save_service_saves|done|]. intros ch e' q Hch He. by exists ch.
    + destruct (getDefaultPolicy _ r) as [names ok]. destruct ok; [|intros [= <- <-]; by apply looked_up_none].
      destruct (if decide _ then _ else _) as [template|]; [|intros [= <- <-]; by apply looked_up_none].
      pose proof (getServiceCBCache_found own r app Ho) as Hf. destruct (getServiceCBCache app r) as [cache r1].
      pose proof (getCBFromCache_owned _ _ own r cache r1 e template (save_service_saves app) Hf) as Hg.
      destruct (getCBFromCache cache e template (save_service app) r1). by intros [= <- <-].
  - unfold ActorPreLockPolicy. destruct (actors r !! ty) as [names|].
    + destruct (target_breaker _ _ _ _ _) as [[cb r1]|] eqn:Et; [|done]. simpl. intros [= <- <-]. simpl.
      eapply (target_breaker_owned (OActor ty)), Et; [apply save_actor_saves|done|]. intros ch e' q Hch He. by exists ch.
    + destruct (getDefaultPolicy _ r) as [names ok]. destruct ok; [|intros [= <- <-]; by apply looked_up_none].
      destruct (if decide _ then _ else _) as [template|]; [|intros [= <- <-]; by apply looked_up_none].
      pose proof (getActorCBCache_found own r ty Ho) as Hf. destruct (getActorCBCache ty r) as [cache r1].
      pose proof (getCBFromCache_owned _ _ own r cache r1 ty template (save_actor_saves ty) Hf) as Hg.
      destruct (getCBFromCache cache ty template (save_actor ty) r1). by intros [= <- <-].
Qed.

(** ** Lookups find the breaker they left *)

Lemma get_or_create_cached mk save r ch key template :
  saves mk save → cached_breaker (get_or_create ch key template save r).2 (mk key) (get_or_create ch key template save r).1.
Proof.
  intros Hs. unfold get_or_create. pose proof (lru_Get_found ch key) as Hf. pose proof (proj1 (lru_Get_keeps ch key)) as Hk.
  destruct (lru_Get ch key) as [[cb|] ch']; simpl in *; apply Hs; [by rewrite Hk|apply lru_Add_found].
Qed.

Lemma get_or_create_hit save r ch key template b :
  lru_contents ch !! key = Some b → (get_or_create ch key template save r).1 = b.
Proof.
  intros Hb. unfold get_or_create. pose proof (lru_Get_found ch key) as Hf. rewrite Hb in Hf.
  destruct (lru_Get ch key) as [cb ch']; simpl in Hf. by subst.
Qed.

(** No cache could not be created. *)
Definition caches_ok r : Prop :=
  (∀ app, serviceCBs r !! app ≠ Some None) ∧ (∀ ty, actorCBCaches r !! ty ≠ Some None).

Lemma target_breaker_cached mk save r n cache key b r' :
  saves mk save → target_breaker n cache key save r = Some (Some b, r') → cached_breaker r' (mk key) b.
Proof.
  intros Hs. unfold target_breaker. case_decide; [done|]. destruct (circuitBreakers r !! n) as [template|]; [|done].
  destruct cache as [[ch|]|]; [|done|done]. pose proof (get_or_create_cached mk save r ch key template Hs) as Hg.
  destruct (get_or_create ch key template save r). by intros [= <- <-].
Qed.

Lemma target_breaker_hit save r n ch key b b' r' :
  lru_contents ch !! key = Some b → target_breaker n (Some (Some ch)) key save r = Some (Some b', r') → b' = b.
Proof.
  intros Hb. unfold target_breaker. case_decide; [done|]. destruct (circuitBreakers r !! n) as [template|]; [|done].
  pose proof (get_or_create_hit save r ch key template b Hb) as Hg.
  destruct (get_or_create ch key template save r). by intros [= <- <-].
Qed.

Lemma getServiceCBCache_ok app r : caches_ok r → is_Some (getServiceCBCache app r).1.
Proof.
  intros [Hc _]. unfold getServiceCBCache. destruct (serviceCBs r !! app) as [[ch|]|] eqn:E; [by eexists|by destruct (Hc app)|].
  destruct (lru_New_ok defaultEndpointCacheSize) as (ch & -> & _); [done|]. by eexists.
Qed.

Lemma getActorCBCache_ok ty r : caches_ok r → is_Some (getActorCBCache ty r).1.
Proof.
  intros [_ Hc]. unfold getActorCBCache. destruct (actorCBCaches r !! ty) as [[ch|]|] eqn:E; [by eexists|by destruct (Hc ty)|].
  destruct (lru_New_ok defaultEndpointCacheSize) as (ch & -> & _); [done|]. by eexists.
Qed.

Lemma component_policy_cached r pn n names p r' b :
  component_policy pn n names r = Some (p, r') → policy_cb p = Some b → componentCBs r' !! n = Some b.
Proof.
  unfold component_policy, instances_Get. case_decide; [by intros [= <- <-]|].
  destruct (componentCBs r !! n) as [cb|] eqn:E; [by intros [= <- <-] [= <-]|].
  destruct (circuitBreakers r !! _) as [t|]; [|done]. simpl. intros [= <- <-] [= <-]. simpl. apply lookup_insert_eq.
Qed.

Lemma component_policy_hit r pn n names p r' b b' :
  componentCBs r !! n = Some b → component_policy pn n names r = Some (p, r') → policy_cb p = Some b' → b' = b.
Proof.
  intros Hb. unfold component_policy, instances_Get. case_decide; [by intros [= <- <-]|].
  rewrite Hb. by intros [= <- <-] [= <-].
Qed.

(** The breaker a lookup hands out is cached for its target afterwards. *)
Lemma call_cached r l p r' b :
  caches_ok r → call l r = Some (p, r') → policy_cb p = Some b → cached_breaker r' (target r l) b.
Proof.
  intros Hok. destruct l as [app e|ty id|n ct|n ct]; simpl; [| |by apply component_policy_cached..].
  - unfold EndpointPolicy. destruct (apps r !! app) as [names|].
    + destruct (target_breaker _ _ _ _ _) as [[cb r1]|] eqn:Et; [|done]. simpl. intros [= <- <-] [= ->].
      eapply (target_breaker_cached (OEndpoint app)), Et. apply save_service_saves.
    + destruct (getDefaultPolicy _ r) as [names ok]. destruct ok; [|by intros [= <- <-]].
      destruct (if decide _ then _ else _) as [template|]; [|by intros [= <- <-]].
      destruct (getServiceCBCache_ok app r Hok) as [ch Hch]. destruct (getServiceCBCache app r) as [cache r1]. simpl in Hch. subst.
      pose proof (get_or_create_cached _ _ r1 ch e template (save_service_saves app)) as Hg. simpl.
      destruct (get_or_create ch e template (save_service app) r1). by intros [= <- <-] [= <-].
  - unfold ActorPreLockPolicy. destruct (actors r !! ty) as [names|].
    + destruct (target_breaker _ _ _ _ _) as [[cb r1]|] eqn:Et; [|done]. simpl. intros [= <- <-] [= ->].
      eapply (target_breaker_cached (OActor ty)), Et. apply save_actor_saves.
    + destruct (getDefaultPolicy _ r) as [names ok]. destruct ok; [|by intros [= <- <-]].
      destruct (if decide _ then _ else _) as [template|]; [|by intros [= <- <-]].
      destruct (getActorCBCache_ok ty r Hok) as [ch Hch]. destruct (getActorCBCache ty r) as [cache r1]. simpl in Hch. subst.
      pose proof (get_or_create_cached _ _ r1 ch ty template (save_actor_saves ty)) as Hg. simpl.
      destruct (get_or_create ch ty template (save_actor ty) r1). by intros [= <- <-] [= <-].
Qed.

(** And a lookup takes the breaker that is cached. *)
Lemma call_hit r l p r' b b' :
  cached_breaker r (target r l) b → call l r = Some (p, r') → policy_cb p = Some b' → b' = b.
Proof.
  destruct l as [app e|ty id|n ct|n ct]; simpl; [| |by apply component_policy_hit..].
  - intros (ch & Hch & Hb). unfold EndpointPolicy. destruct (apps r !! app) as [names|].
    + rewrite Hch. destruct (target_breaker _ _ _ _ _) as [[cb r1]|] eqn:Et; [|done]. simpl. intros [= <- <-] [= ->].
      by eapply target_breaker_hit, Et.
    + destruct (getDefaultPolicy _ r) as [names ok]. destruct ok; [|by intros [= <- <-]].
      destruct (if decide _ then _ else _) as [template|]; [|by intros [= <- <-]].
      unfold getServiceCBCache. rewrite Hch. simpl. pose proof (get_or_create_hit (save_service app) r ch e template b Hb) as Hg.
      destruct (get_or_create ch e template (save_service app) r). intros [= <- <-] [= <-]. done.
  - unfold ActorPreLockPolicy. destruct (actors r !! ty) as [names|]; intros (ch & Hch & Hb).
    + rewrite Hch. destruct (target_breaker _ _ _ _ _) as [[cb r1]|] eqn:Et; [|done]. simpl. intros [= <- <-] [= ->].
      by eapply target_breaker_hit, Et.
    + destruct (getDefaultPolicy _ r) as [names ok]. destruct ok; [|by intros [= <- <-]].
      destruct (if decide _ then _ else _) as [template|]; [|by intros [= <- <-]].
      unfold getActorCBCache. rewrite Hch. simpl. pose proof (get_or_create_hit (save_actor ty) r ch ty template b Hb) as Hg.
      destruct (get_or_create ch ty template (save_actor ty) r). intros [= <- <-] [= <-]. done.
Qed.

(** ** After decoding no breaker exists, and every cache could be created *)

Definition empty_caches (m : gmap string (option lru)) : Prop :=
  ∀ n ch, m !! n = Some (Some ch) → lru_contents ch = ∅.

Definition no_failed (m : gmap string (option lru)) : Prop := ∀ n, m !! n ≠ Some None.

Definition unused r : Prop :=
  breakers r = [] ∧ componentCBs r = ∅ ∧ empty_caches (serviceCBs r) ∧ empty_caches (actorCBCaches r).

Lemma unused_same r r' :
  breakers r' = breakers r → componentCBs r' = componentCBs r → serviceCBs r' = serviceCBs r →
  actorCBCaches r' = actorCBCaches r → unused r → unused r'.
Proof. unfold unused. by intros -> -> -> ->. Qed.

Lemma new_cache_cases n :
  (∃ ch, new_cache n = (Some ch, None) ∧ lru_contents ch = ∅) ∨ (∃ e, new_cache n = (None, Some e)).
Proof.
  unfold new_cache. destruct (decide (0 < n)%Z) as [Hn|Hn].
  - destruct (lru_New_ok n Hn) as (ch & -> & Hc & _). left. by exists ch.
  - rewrite lru_New_fails by lia. right. by eexists.
Qed.

Lemma empty_caches_insert m n ch :
  (∀ ch', ch = Some ch' → lru_contents ch' = ∅) → empty_caches m → empty_caches (<[n := ch]> m).
Proof.
  intros Hch Hm k ch' Hk. apply lookup_insert_Some in Hk as [[_ ->]|[_ Hk]]; [by apply Hch|by eapply Hm].
Qed.

Lemma no_failed_insert m n (ch : lru) : no_failed m → no_failed (<[n := Some ch]> m).
Proof. intros Hm k Hk. apply lookup_insert_Some in Hk as [[_ ?]|[_ Hk]]; [done|by eapply Hm]. Qed.

(** What does not depend on the policies, the built-in ones keep. *)
Lemma addBuiltInPolicies_keeps (P : Resiliency → Prop) r :
  (∀ r t rt cb, P r → P (set_policies t rt cb r)) → P r → P (addBuiltInPolicies r).
Proof.
  intros HP Hr. assert (Hadd : ∀ n cfg r, P r → P (add_missing n cfg r)).
  { intros n cfg r0 H1. unfold add_missing. destruct (retries r0 !! n); [done|by apply HP]. }
  unfold addBuiltInPolicies. by repeat apply Hadd.
Qed.

(** The entries of a target hold an empty cache, or none after an error. *)
Definition fresh_cache (ch : option lru) (err : option config_error) : Prop :=
  match ch with Some ch' => lru_contents ch' = ∅ | None => err ≠ None end.

Lemma new_cache_fresh n : fresh_cache (new_cache n).1 (new_cache n).2.
Proof. by destruct (new_cache_cases n) as [(ch & -> & Hc)|(e & ->)]. Qed.

Lemma decodeApp_fresh (x : string * EndpointPolicyNames) : ∃ p ch err,
  fresh_cache ch err ∧ ∀ r, decodeApp x r = (app_entry x.1 p ch r, err).
Proof.
  unfold decodeApp. set (n := cache_size _ _). pose proof (new_cache_fresh n) as Hf. destruct (new_cache n) as [ch err].
  eexists _, ch, err. split; [done|]. intros r. reflexivity.
Qed.

Lemma decodeActor_fresh (x : string * ActorPolicyNames) :
  (∃ err, ∀ r, decodeActor x r = (r, Some err)) ∨
  (∃ p ch err, fresh_cache ch err ∧ ∀ r, decodeActor x r = (actor_entry x.1 p ch r, err)).
Proof.
  unfold decodeActor. destruct (_ && _); [left; eauto|]. set (n := cache_size _ _).
  pose proof (new_cache_fresh n) as Hf. destruct (new_cache n) as [ch err].
  destruct (bool_decide _); [destruct (ParseActorCircuitBreakerScope _); [|left; eauto]|];
    right; eexists _, ch, err; (split; [done|]); intros r; reflexivity.
Qed.

Lemma DecodeConfiguration_unused c r : unused r → unused (DecodeConfiguration c r).1.
Proof.
  intros Hr. unfold DecodeConfiguration, decodePolicies, decodeTargets.
  apply (andThen_keeps unused); [..|by eapply unused_same, Hr].
  - intros s Hs. apply (andThen_keeps unused); [..|done]; intros s1 H1.
    + apply (each_keeps unused); [|done]. intros x s2 _ H2. by eapply unused_same, H2.
    + apply (andThen_keeps unused); [..|done]; intros s2 H2; (apply (each_keeps unused); [|done]); intros x s3 _ H3.
      * unfold decodeRetry. repeat case_match; by eapply unused_same, H3.
      * unfold decodeBreaker. case_match; by eapply unused_same, H3.
  - intros s Hs. apply (andThen_keeps unused); [..|done]; intros s1 H1.
    + apply (each_keeps unused); [|done]. intros x s2 _ (B & C & E1 & E2).
      destruct (decodeApp_fresh x) as (p & ch & err & Hf & ->). split; [done|]. split; [done|]. split; [|done].
      apply empty_caches_insert; [|done]. by intros ch' ->.
    + apply (andThen_keeps unused); [..|done]; intros s2 H2; (apply (each_keeps unused); [|done]); intros x s3 _ H3.
      * destruct (decodeActor_fresh x) as [(err & ->)|(p & ch & err & Hf & ->)]; [done|]. destruct H3 as (B & C & E1 & E2).
        split; [done|]. split; [done|]. split; [done|]. apply empty_caches_insert; [|done]. by intros ch' ->.
      * by eapply unused_same, H3.
Qed.

Lemma FromConfigurations_unused cs : unused (FromConfigurations cs).
Proof.
  assert (Hstart : unused (addBuiltInPolicies New)).
  { by apply addBuiltInPolicies_keeps. }
  unfold FromConfigurations. revert Hstart. generalize (addBuiltInPolicies New).
  induction cs as [|c cs IH]; intros r Hr; [done|]. simpl. by apply IH, DecodeConfiguration_unused.
Qed.

Lemma unused_owned r : unused r → owned [] r.
Proof.
  intros (B & C & E1 & E2). split; [by rewrite B|]. intros [a e|t k|n] p Hc; exfalso.
  - destruct Hc as (ch & Hl & Hp). by rewrite (E1 _ _ Hl), lookup_empty in Hp.
  - destruct Hc as (ch & Hl & Hp). by rewrite (E2 _ _ Hl), lookup_empty in Hp.
  - simpl in Hc. by rewrite C, lookup_empty in Hc.
Qed.

(** A configuration that is read without an error. *)
Fixpoint all_decoded (cs : list Configuration) r : Prop :=
  match cs with
  | [] => True
  | c :: cs' => (DecodeConfiguration c r).2 = None ∧ all_decoded cs' (DecodeConfiguration c r).1
  end.

Section success.
Context {A E S : Type}.

Lemma each_success (P : S → Prop) (f : A → S → S * option E) l s s' :
  (∀ x s s', f x s = (s', None) → P s → P s') → each f l s = (s', None) → P s → P s'.
Proof.
  intros Hf. revert s; induction l as [|x l IH]; intros s He Hs; simpl in He; [by simplify_eq|].
  destruct (f x s) as [s1 [e|]] eqn:E1; [done|]. eapply IH; [done|by eapply Hf].
Qed.

Lemma andThen_success (P : S → Prop) (f g : S → S * option E) s s' :
  (∀ s s', f s = (s', None) → P s → P s') → (∀ s s', g s = (s', None) → P s → P s') →
  andThen f g s = (s', None) → P s → P s'.
Proof.
  intros Hf Hg Hs Hp. unfold andThen in Hs. destruct (f s) as [s1 [e|]] eqn:E1; [done|]. eapply Hg; [done|by eapply Hf].
Qed.

End success.

Lemma DecodeConfiguration_caches c r r' : DecodeConfiguration c r = (r', None) → caches_ok r → caches_ok r'.
Proof.
  unfold DecodeConfiguration, decodePolicies, decodeTargets. intros Hd Hr.
  refine (andThen_success caches_ok _ _ _ _ _ _ Hd Hr); intros s s' Hs Hok;
    refine (andThen_success caches_ok _ _ _ _ _ _ Hs Hok); clear; intros s s' Hs Hok.
  - refine (each_success caches_ok _ _ _ _ _ Hs Hok). intros x s1 s2 [= <- _] Hx. exact Hx.
  - refine (andThen_success caches_ok _ _ _ _ _ _ Hs Hok); clear; intros s s' Hs Hok;
      refine (each_success caches_ok _ _ _ _ _ Hs Hok); clear; intros x s s' Hs Hok.
    + unfold decodeRetry in Hs. repeat case_match; simplify_eq; exact Hok.
    + unfold decodeBreaker in Hs. case_match; simplify_eq. exact Hok.
  - refine (each_success caches_ok _ _ _ _ _ Hs Hok). clear. intros x s s' Hs [H1 H2].
    destruct (decodeApp_fresh x) as (p & ch & err & Hf & Hx). rewrite Hx in Hs. simplify_eq.
    destruct ch as [ch|]; [|done]. split; [by apply no_failed_insert|done].
  - refine (andThen_success caches_ok _ _ _ _ _ _ Hs Hok); clear; intros s s' Hs Hok;
      refine (each_success caches_ok _ _ _ _ _ Hs Hok); clear; intros x s s' Hs Hok.
    + destruct Hok as [H1 H2].
      destruct (decodeActor_fresh x) as [(err & Hx)|(p & ch & err & Hf & Hx)]; rewrite Hx in Hs; simplify_eq.
      destruct ch as [ch|]; [|done]. split; [done|by apply no_failed_insert].
    + unfold decodeComponent in Hs. simplify_eq. exact Hok.
Qed.

Lemma FromConfigurations_caches cs : all_decoded cs (addBuiltInPolicies New) → caches_ok (FromConfigurations cs).
Proof.
  assert (Hstart : caches_ok (addBuiltInPolicies New)).
  { by apply addBuiltInPolicies_keeps. }
  unfold FromConfigurations. revert Hstart. generalize (addBuiltInPolicies New).
  induction cs as [|c cs IH]; intros r Hr Hd; [done|]. destruct Hd as [Hc Hd]. simpl. apply IH; [|done].
  destruct (DecodeConfiguration c r) as [r1 e] eqn:E1. simpl in Hc. subst. by eapply DecodeConfiguration_caches.
Qed.

(** ** Sequences of lookups *)

Fixpoint calls (ls : list lookup_call) r : option (list policy * Resiliency) :=
  match ls with
  | [] => Some ([], r)
  | l :: ls' => '(p, r1) ← call l r; '(ps, r2) ← calls ls' r1; Some (p :: ps, r2)
  end.

Lemma same_settings_target r r' l : same_settings r r' → target r' l = target r l.
Proof. intros (_ & _ & _ & _ & Ha & _). destruct l; simpl; by rewrite ?Ha. Qed.

(** The breakers of a sequence of lookups belong to their targets. *)
Lemma calls_owned own r ls ps r' :
  owned own r → calls ls r = Some (ps, r') →
  ∃ own', owned (own ++ own') r' ∧ same_settings r r' ∧
    ∀ i l p b, ls !! i = Some l → ps !! i = Some p → policy_cb p = Some b → (own ++ own') !! b = Some (target r l).
Proof.
  revert own r ps; induction ls as [|l ls IH]; intros own r ps Ho Hc; simpl in Hc.
  { simplify_eq. exists []. rewrite app_nil_r. by split. }
  destruct (call l r) as [[p r1]|] eqn:E1; [|done]. simpl in Hc.
  destruct (calls ls r1) as [[ps1 r2]|] eqn:E2; [|done]. simplify_eq/=.
  destruct (call_owned own r l p r1 Ho E1) as (Hset & own1 & Ho1 & Hb1).
  destruct (IH _ _ _ Ho1 E2) as (own2 & Ho2 & Hset2 & Hb2).
  exists (own1 ++ own2). rewrite (assoc_L (++)). split; [done|]. split; [by eapply same_settings_trans|].
  intros [|i] l' p' b Hl Hp Hb; simplify_eq/=.
  - by apply lookup_app_l_Some, Hb1.
  - rewrite <-(same_settings_target r r1) by done. by eapply Hb2.
Qed.

Lemma get_or_create_caches save r ch key template :
  (∀ ch r, caches_ok r → caches_ok (save ch r)) → caches_ok r → caches_ok (get_or_create ch key template save r).2.
Proof. intros Hs Hr. unfold get_or_create. destruct (lru_Get ch key) as [[cb|] ch']; simpl; by apply Hs. Qed.

Lemma save_service_caches app ch r : caches_ok r → caches_ok (save_service app ch r).
Proof. intros [H1 H2]. split; [by apply no_failed_insert|done]. Qed.

Lemma save_actor_caches ty ch r : caches_ok r → caches_ok (save_actor ty ch r).
Proof. intros [H1 H2]. split; [done|by apply no_failed_insert]. Qed.

Lemma target_breaker_caches save r n cache key cb r' :
  (∀ ch r, caches_ok r → caches_ok (save ch r)) → caches_ok r →
  target_breaker n cache key save r = Some (cb, r') → caches_ok r'.
Proof.
  intros Hs Hr. unfold target_breaker. case_decide; [by intros [= <- <-]|].
  destruct (circuitBreakers r !! n) as [t|]; [|by intros [= <- <-]]. destruct cache as [[ch|]|]; [|done|by intros [= <- <-]].
  pose proof (get_or_create_caches save r ch key t Hs Hr) as Hg. destruct (get_or_create _ _ _ _ _). by intros [= <- <-].
Qed.

Lemma getServiceCBCache_caches app r : caches_ok r → caches_ok (getServiceCBCache app r).2.
Proof. intros Hr. unfold getServiceCBCache. repeat case_match; try done. by apply save_service_caches. Qed.

Lemma getActorCBCache_caches ty r : caches_ok r → caches_ok (getActorCBCache ty r).2.
Proof. intros Hr. unfold getActorCBCache. repeat case_match; try done. by apply save_actor_caches. Qed.

Lemma getCBFromCache_caches save cache key template r :
  (∀ ch r, caches_ok r → caches_ok (save ch r)) → caches_ok r → caches_ok (getCBFromCache cache key template save r).2.
Proof. intros Hs Hr. destruct cache; [by apply get_or_create_caches|exact Hr]. Qed.

Lemma component_policy_caches r pn n names p r' :
  caches_ok r → component_policy pn n names r = Some (p, r') → caches_ok r'.
Proof.
  intros Hr. unfold component_policy, instances_Get. case_decide; [by intros [= <- <-]|].
  destruct (componentCBs r !! n); [by intros [= <- <-]|].
  destruct (circuitBreakers r !! _); [|done]. simpl. intros [= <- <-]. exact Hr.
Qed.

Lemma call_caches r l p r' : caches_ok r → call l r = Some (p, r') → caches_ok r'.
Proof.
  intros Hr. destruct l as [app e|ty id|n ct|n ct]; simpl; [| |by apply component_policy_caches..].
  - unfold EndpointPolicy. destruct (apps r !! app) as [names|].
    + destruct (target_breaker _ _ _ _ _) as [[cb r1]|] eqn:Et; [|done]. simpl. intros [= <- <-].
      eapply target_breaker_caches, Et; [apply save_service_caches|done].
    + destruct (getDefaultPolicy _ r) as [names ok]. destruct ok; [|by intros [= <- <-]].
      destruct (if decide _ then _ else _) as [t|]; [|by intros [= <- <-]].
      pose proof (getServiceCBCache_caches app r Hr) as H1. destruct (getServiceCBCache app r) as [cache r1].
      pose proof (getCBFromCache_caches _ cache e t r1 (save_service_caches app) H1) as H2.
      destruct (getCBFromCache _ _ _ _ _). by intros [= <- <-].
  - unfold ActorPreLockPolicy. destruct (actors r !! ty) as [names|].
    + destruct (target_breaker _ _ _ _ _) as [[cb r1]|] eqn:Et; [|done]. simpl. intros [= <- <-].
      eapply target_breaker_caches, Et; [apply save_actor_caches|done].
    + destruct (getDefaultPolicy _ r) as [names ok]. destruct ok; [|by intros [= <- <-]].
      destruct (if decide _ then _ else _) as [t|]; [|by intros [= <- <-]].
      pose proof (getActorCBCache_caches ty r Hr) as H1. destruct (getActorCBCache ty r) as [cache r1].
      pose proof (getCBFromCache_caches _ cache ty t r1 (save_actor_caches ty) H1) as H2.
      destruct (getCBFromCache _ _ _ _ _). by intros [= <- <-].
Qed.

Lemma calls_caches r ls ps r' : caches_ok r → calls ls r = Some (ps, r') → caches_ok r'.
Proof.
  revert r ps; induction ls as [|l ls IH]; intros r ps Hr Hc; simpl in Hc; [by simplify_eq|].
  destruct (call l r) as [[p r1]|] eqn:E1; [|done]. simpl in Hc.
  destruct (calls ls r1) as [[ps1 r2]|] eqn:E2; [|done]. simplify_eq/=. eapply IH, E2. by eapply call_caches.
Qed.

(** Two lookups for the same target in a row give the same breaker. *)
Lemma calls_repeat own r ls ps r' i l1 l2 p1 p2 b1 b2 :
  owned own r → caches_ok r → calls ls r = Some (ps, r') →
  ls !! i = Some l1 → ls !! S i = Some l2 → ps !! i = Some p1 → ps !! S i = Some p2 →
  target r l1 = target r l2 → policy_cb p1 = Some b1 → policy_cb p2 = Some b2 → b1 = b2.
Proof.
  revert own r ps i; induction ls as [|l ls IH]; intros own r ps i Ho Hr Hc Hl1 Hl2 Hp1 Hp2 Ht Hb1 Hb2; [done|]. simpl in Hc.
  destruct (call l r) as [[p r1]|] eqn:E1; [|done]. simpl in Hc.
  destruct (calls ls r1) as [[ps1 r2]|] eqn:E2; [|done]. simplify_eq/=.
  destruct (call_owned own r l p r1 Ho E1) as (Hset & own1 & Ho1 & _).
  destruct i as [|i]; simplify_eq/=.
  - pose proof (call_cached r l1 p1 r1 b1 Hr E1 Hb1) as Hca. destruct ls as [|l' ls]; simplify_eq/=.
    destruct (call l2 r1) as [[p' r3]|] eqn:E3; [|done]. simpl in E2.
    destruct (calls ls r3) as [[ps3 r4]|]; [|done]. simplify_eq/=.
    symmetry. eapply call_hit, Hb2; [|exact E3]. rewrite (same_settings_target r r1) by done. by rewrite <-Ht.
  - eapply (IH _ r1 ps1 i Ho1); [by eapply call_caches|done..|by rewrite !(same_settings_target r r1)|done|done].
Qed.

(** ** When a lookup has no result *)

(** A component whose policy names a breaker that no configuration defines and
    of which no instance exists. *)
Definition undefined_breaker r (n : string) (names : PolicyNames) : Prop :=
  CircuitBreakerName names ≠ EmptyString ∧ circuitBreakers r !! CircuitBreakerName names = None ∧
  componentCBs r !! n = None.

Definition fails r (l : lookup_call) : Prop :=
  match l with
  | CallOutbound n ct => undefined_breaker r n (component_names "Outbound" Outbound n ct r)
  | CallInbound n ct => undefined_breaker r n (component_names "Inbound" Inbound n ct r)
  | _ => False
  end.

Lemma component_policy_fails pn n names r : component_policy pn n names r = None ↔ undefined_breaker r n names.
Proof.
  unfold component_policy, undefined_breaker, instances_Get. case_decide; [naive_solver|].
  destruct (componentCBs r !! n); [naive_solver|]. destruct (circuitBreakers r !! _); simpl; naive_solver.
Qed.

Lemma target_breaker_total save r n m key k : no_failed m → target_breaker n (m !! key) k save r ≠ None.
Proof.
  intros Hm. unfold target_breaker. case_decide; [done|]. destruct (circuitBreakers r !! n); [|done].
  specialize (Hm key). destruct (m !! key) as [[ch|]|]; [|done|done]. by destruct (get_or_create _ _ _ _ _).
Qed.

Lemma call_fails r l : caches_ok r → call l r = None ↔ fails r l.
Proof.
  intros [H1 H2]. destruct l as [app e|ty id|n ct|n ct]; simpl; [| |apply component_policy_fails..].
  - split; [|done]. unfold EndpointPolicy. destruct (apps r !! app) as [names|].
    + pose proof (target_breaker_total (save_service app) r (CircuitBreakerName names) _ app e H1) as Ht.
      by destruct (target_breaker _ _ _ _ _) as [[cb r1]|].
    + destruct (getDefaultPolicy _ r) as [names []]; [|done]. destruct (if decide _ then _ else _); [|done].
      destruct (getServiceCBCache app r). by destruct (getCBFromCache _ _ _ _ _).
  - split; [|done]. unfold ActorPreLockPolicy. destruct (actors r !! ty) as [names|].
    + pose proof (target_breaker_total (save_actor ty) r (pre_CircuitBreaker names) _ ty (actor_key (pre_Scope names) ty id) H2) as Ht.
      by destruct (target_breaker _ _ _ _ _) as [[cb r1]|].
    + destruct (getDefaultPolicy _ r) as [names []]; [|done]. destruct (if decide _ then _ else _); [|done].
      destruct (getActorCBCache ty r). by destruct (getCBFromCache _ _ _ _ _).
Qed.

(** ** Properties *)

(** Built-in retry policies survive every configuration. Whatever configurations are loaded,
    with or without errors, the protected policy keeps its default, and each built-in policy
    exists and allows at least three retries, except the default of the reminder policy,
    which allows none. *)
Theorem builtin_policies_kept cs :
  retries (FromConfigurations cs) !! BuiltInActorNotFoundRetries = Some default_notFound ∧
  ∀ n, n ∈ builtIns → ∃ rt, retries (FromConfigurations cs) !! n = Some rt ∧
    ((3 ≤ MaxRetries (Retry_Config rt))%Z ∨
     n = BuiltInActorReminderRetries ∧ rt = NewRetry reminderConfig NewRetryConditionMatch ∧
     MaxRetries (Retry_Config rt) = 0%Z).
Proof.
  destruct (FromConfigurations_builtin cs) as [Hp Hb]. split; [done|]. intros n Hn.
  destruct (Hb n Hn) as (rt & Hrt & [Hm|[-> ->]]); exists rt || eexists; (split; [exact Hrt|]); [by left|by right].
Qed.

(** C37: Decoding does not depend on the order in which Go visits the maps of a
    configuration: if it succeeds in one order, it succeeds with the same result in every
    other. *)
Theorem decode_order_irrelevant c c' r r' :
  same_configuration c c' → DecodeConfiguration c r = (r', None) → DecodeConfiguration c' r = (r', None).
Proof.
  intros Hs. destruct (sc_name _ _ Hs) as [Hn Hns]. unfold DecodeConfiguration. rewrite Hn, Hns.
  apply andThen_None; intros s s'; [by apply decodePolicies_order|by apply decodeTargets_order].
Qed.

(** C25: Circuit breakers are kept apart and kept. After any configurations that decode
    without error, over any sequence of lookups of endpoint, actor and component policies,
    two policies share a breaker only if they are for the same endpoint of the same app, the
    same actor type and key, or the same component; and two lookups in a row for the same
    one get the same breaker. *)
Theorem breakers_isolated cs ls ps r' i j l1 l2 p1 p2 b1 b2 :
  let r := FromConfigurations cs in
  all_decoded cs (addBuiltInPolicies New) → calls ls r = Some (ps, r') →
  ls !! i = Some l1 → ls !! j = Some l2 → ps !! i = Some p1 → ps !! j = Some p2 →
  policy_cb p1 = Some b1 → policy_cb p2 = Some b2 →
  (b1 = b2 → target r l1 = target r l2) ∧ (j = S i → target r l1 = target r l2 → b1 = b2).
Proof.
  intros r Hd Hc Hl1 Hl2 Hp1 Hp2 Hb1 Hb2. pose proof (unused_owned _ (FromConfigurations_unused cs)) as Ho. split.
  - intros <-. destruct (calls_owned [] r ls ps r' Ho Hc) as (own & _ & _ & Hown).
    pose proof (Hown i l1 p1 b1 Hl1 Hp1 Hb1) as H1. pose proof (Hown j l2 p2 b1 Hl2 Hp2 Hb2) as H2. congruence.
  - intros -> Ht. by eapply (calls_repeat [] r); [..|exact Hl1|exact Hl2|exact Hp1|exact Hp2| | |]; try apply FromConfigurations_caches.
Qed.

(** When a policy lookup fails. After configurations that decode without error and any
    lookups, a lookup has a result for every endpoint and every actor, and for a component
    unless its policy names a circuit breaker that no configuration defines while the
    component has no breaker yet; then, and only then, it dereferences nil. *)
Theorem undefined_breaker_panics cs ls ps r l :
  all_decoded cs (addBuiltInPolicies New) → calls ls (FromConfigurations cs) = Some (ps, r) →
  call l r = None ↔ fails r l.
Proof. intros Hd Hc. apply call_fails. eapply calls_caches, Hc. by apply FromConfigurations_caches. Qed.

(** The two directions of a component share one breaker: if both name a circuit breaker, and
    the outbound policy is looked up first, the inbound policy has the same breaker, with
    the settings of the outbound one. *)
Theorem component_breaker_shared r n ct names t1 t2 :
  components r !! n = Some names → componentCBs r !! n = None →
  CircuitBreakerName (Outbound names) ≠ EmptyString → CircuitBreakerName (Inbound names) ≠ EmptyString →
  circuitBreakers r !! CircuitBreakerName (Outbound names) = Some t1 →
  circuitBreakers r !! CircuitBreakerName (Inbound names) = Some t2 →
  ∃ p1 p2 r' b, calls [CallOutbound n ct; CallInbound n ct] r = Some ([p1; p2], r') ∧
    policy_cb p1 = Some b ∧ policy_cb p2 = Some b ∧
    breakers r' !! b = Some (named_breaker (String.append (cb_Name t1) (String.append "-" n)) t1).
Proof.
  intros Hn Hc Ho Hi Ht1 Ht2. simpl. unfold ComponentOutboundPolicy, ComponentInboundPolicy, component_names, component_policy.
  rewrite Hn, decide_False by done. unfold instances_Get. rewrite Hc, Ht1. cbn [mbind option_bind newCB fst snd].
  cbn [components set_breakers]. rewrite Hn. rewrite decide_False by done. cbn [componentCBs set_breakers].
  rewrite lookup_insert_eq. cbn [mbind option_bind]. do 4 eexists. split; [reflexivity|]. split; [reflexivity|].
  split; [reflexivity|]. simpl. by rewrite lookup_app_r, Nat.sub_diag by lia.
Qed.

End props.
