(* ===== verification/ResiliencyWitness.v ===== *)
(** * Concrete libraries and runs for the resiliency components

    A breaker, a retry loop, a cache and decoders that satisfy the interfaces
    of [ResiliencyRunner] and [Resiliency], and runs of the theorems on them. *)

From Stdlib Require Import Ascii.
From S2P Require Import Prelude GoStrings ResiliencyRetry GoTime ResiliencyRunner ResiliencyRunnerProps Resiliency ResiliencyProps.

(** ** Libraries *)

#[local] Obligation Tactic := idtac.

(** A breaker that opens after more than five failures in a row. *)
Record simple_breaker := { sb_failures : nat; sb_open : bool }.

#[export] Instance simple_gobreaker : Gobreaker := {|
  gb := simple_breaker;
  gb_time := unit;
  gb_State g _ := if sb_open g then gbOpen else gbClosed;
  gb_before g _ := (if sb_open g then Some gbErrOpenState else None, g);
  gb_after g _ ok :=
    if ok : bool then {| sb_failures := 0; sb_open := false |}
    else {| sb_failures := S (sb_failures g); sb_open := 5 <? S (sb_failures g) |}
|}.

(** A loop without waiting; its environment says whether it is interrupted. *)
Definition simple_next (c : Config) (n : nat) (err : option error) (env : bool) : verdict :=
  match err with
  | None => Stop None
  | Some e =>
      match AsPermanent e with
      | Some e' => Stop (Some e')
      | None =>
          if env then Stop (Some Canceled)
          else if bool_decide (MaxRetries c < 0 ∨ Z.of_nat n < MaxRetries c)%Z then Again true
          else Stop (Some e)
      end
  end.

#[export] Program Instance simple_backoff : Backoff := {|
  loop_env := bool;
  interrupted := id;
  loop_next := simple_next
|}.
Next Obligation. done. Qed.
Next Obligation. intros c n e e' env He. unfold simple_next. by rewrite He. Qed.
Next Obligation.
  intros c n e env He Hi Hn. unfold simple_next. simpl in Hi. rewrite He, Hi, bool_decide_true by done. by eexists.
Qed.
Next Obligation.
  intros c n e env notify Hn. unfold simple_next. destruct (AsPermanent e); [done|]. destruct env; [done|].
  rewrite bool_decide_false by lia. done.
Qed.
Next Obligation.
  intros c n e env err He. unfold simple_next. rewrite He. destruct env.
  - intros [= <-]. right. exists Canceled. split; [by right|done].
  - case_bool_decide; [done|]. intros [= <-]. by left.
Qed.

(** A bounded cache that evicts some entry when it is full. *)
Record simple_cache := { sc_size : Z; sc_map : gmap string nat }.

Definition simple_victim (m : gmap string nat) : gmap string nat :=
  match map_to_list m with (k, _) :: _ => delete k m | [] => m end.

#[export] Program Instance simple_lru : Lru := {|
  lru := simple_cache;
  lru_New n := if bool_decide (0 < n)%Z then Some {| sc_size := n; sc_map := ∅ |} else None;
  lru_Get c k := (sc_map c !! k, c);
  lru_Add c k v :=
    {| sc_size := sc_size c;
       sc_map := <[k := v]> (if bool_decide (Z.of_nat (size (sc_map c)) < sc_size c)%Z then sc_map c else simple_victim (sc_map c)) |};
  lru_contents := sc_map;
  lru_size := sc_size
|}.
Next Obligation. intros n Hn. simpl. rewrite bool_decide_true by done. by eexists. Qed.
Next Obligation. intros n Hn. simpl. by rewrite bool_decide_false by lia. Qed.
Next Obligation. done. Qed.
Next Obligation. done. Qed.
Next Obligation. intros c k v. apply lookup_insert_eq. Qed.
Next Obligation.
  intros c k v. simpl. apply insert_mono. case_bool_decide; [done|]. unfold simple_victim.
  destruct (map_to_list (sc_map c)) as [|[k' v'] l]; [done|]. apply delete_subseteq.
Qed.
Next Obligation. intros c k v Hs. simpl in *. by rewrite bool_decide_true. Qed.
Next Obligation. done. Qed.

(** Decoders for the durations the examples need. *)
#[export] Instance simple_decoders : Decoders := {|
  DecodeRetry s :=
    d ← parseDuration (bytes (rs_Duration s));
    Some (constantConfig (default (-1)%Z (rs_MaxRetries s)) d);
  DecodeBreaker s :=
    t ← parseDuration (bytes (cs_Timeout s));
    Some {| cb_Name := EmptyString; cb_MaxRequests := cs_MaxRequests s; cb_Interval := 0; cb_Timeout := t;
            cb_Trip := Some (cs_Trip s) |}
|}.

(** ** Runs *)

Definition closed : gb := {| sb_failures := 0; sb_open := false |}.

Definition now_unit : gb_time := ().
Definition going_on : loop_env := false.

Definition demo_retry (n : Z) : Retry := NewRetry (constantConfig n Second) NewRetryConditionMatch.

Definition demo_policy (t : Z) (n : Z) : PolicyDefinition :=
  {| pd_name := "demo"; pd_t := t; pd_r := Some (demo_retry n); pd_cb := false;
     addTimeoutActivatedMetric := false; addRetryActivatedMetric := false; addCBStateChangedMetric := false |}.

Definition demo_opts : RunnerOpts := {| Disposer := true; Accumulator := false |}.

(** The first attempt times out and its result arrives during the second,
    which succeeds. *)
Definition demo_run : list (event (T := nat)) :=
  [EvStart () () (); EvContext DeadlineExceeded () (); EvLoop false; EvStart () () ();
   EvOperation 0 7 None () (); EvOperation 1 8 None () ();
   EvReceive {| ctx_Err := None; ctx_Deadline := Some 100%Z; now1 := 1; now2 := 1 |} () (); EvLoop false].

Lemma runner_no_leak_witness : ∃ s,
  runs 0 (demo_policy Second 3) demo_opts demo_run (initial closed false) = Some s ∧
  disposals (effects s) = [7] ∧ held 0 s = [8] ∧ produced 0 s ≡ₚ disposals (effects s) ++ held 0 s.
Proof.
  eexists. split; [vm_compute; reflexivity|]. split; [reflexivity|]. split; [reflexivity|].
  apply (runner_no_leak 0 (demo_policy Second 3) demo_opts demo_run closed false); [reflexivity|vm_compute; reflexivity|reflexivity].
Defined.

(** An operation says that its error is permanent. *)
Definition permanent_run : list (event (T := nat)) :=
  [EvStart () () (); EvOperation 0 0 (Some (Permanent (Plain "gone"))) () (); EvLoop false].

Lemma runner_outcome_witness :
  (∃ s, runs 0 (demo_policy Second 3) demo_opts demo_run (initial closed false) = Some s ∧
     ph s = Returned 8 None ∧ succeeded s 8 ∧ (Z.of_nat (tries s) ≤ 4)%Z) ∧
  (∃ s, runs 0 (demo_policy 0 3) demo_opts permanent_run (initial closed false) = Some s ∧
     ph s = Returned 0 (Some (Plain "gone")) ∧ fails_because (demo_policy 0 3) (demo_retry 3) s (Plain "gone")).
Proof.
  split; eexists; (split; [vm_compute; reflexivity|]); (split; [reflexivity|]).
  - match goal with |- succeeded ?s _ ∧ _ =>
      destruct (runner_outcome 0 (demo_policy Second 3) demo_opts (demo_retry 3) demo_run closed false s)
        as (Hb & Hs & _); [reflexivity|vm_compute; reflexivity|] end.
    split; [apply Hs; reflexivity|]. apply Hb. vm_compute. discriminate.
  - match goal with |- fails_because _ _ ?s _ =>
      destruct (runner_outcome 0 (demo_policy 0 3) demo_opts (demo_retry 3) permanent_run closed false s)
        as (_ & _ & Hf); [reflexivity|vm_compute; reflexivity|] end.
    apply (Hf ltac:(repeat constructor) 0). reflexivity.
Defined.

(** The operation of the only attempt hangs. *)
Definition hanging_run : list (event (T := nat)) := [EvStart () () ()].

Lemma runner_finishes_witness : ∃ s,
  runs 0 (demo_policy Second 3) demo_opts hanging_run (initial closed false) = Some s ∧
  finishes 0 (demo_policy Second 3) demo_opts s.
Proof.
  eexists. split; [vm_compute; reflexivity|].
  apply (runner_finishes 0 (demo_policy Second 3) demo_opts now_unit going_on hanging_run closed false);
    [reflexivity| |vm_compute; reflexivity].
  intros r Hr. injection Hr as <-. vm_compute. discriminate.
Defined.

Definition status (c : Z) : error := NewCodeError c (Plain "application").

(** Two attempts, both answered with status 500. *)
Definition failing_run : list (event (T := nat)) :=
  [EvStart () () (); EvOperation 0 0 (Some (status 500)) () (); EvLoop false;
   EvStart () () (); EvOperation 1 0 (Some (status 500)) () (); EvLoop false].

Lemma exhausted_is_exhausted_witness : ∃ s,
  runs 0 (demo_policy 0 1) demo_opts failing_run (initial closed false) = Some s ∧
  ph s = Returned 0 (Some (status 500)) ∧ Z.of_nat (tries s) = 2%Z.
Proof.
  eexists. split; [vm_compute; reflexivity|]. split; [reflexivity|].
  match goal with |- Z.of_nat (tries ?s) = _ =>
    apply (exhausted_is_exhausted 0 (demo_policy 0 1) demo_opts (demo_retry 1) failing_run closed false s
      0 (status 500) None "%w: %w") end;
    [reflexivity| | |vm_compute; reflexivity|reflexivity|vm_compute; reflexivity].
  - repeat constructor; try (intros c sc Hc; vm_compute in Hc; injection Hc as <- <-; vm_compute; reflexivity).
  - intros c sc Hc. vm_compute in Hc. injection Hc as <- <-. vm_compute. reflexivity.
Defined.

Definition unknown_run : list (event (T := nat)) :=
  [EvStart () () (); EvOperation 0 0 (Some (status 600)) () (); EvLoop false].

Lemma unknown_status_reported_exhausted_witness : ∃ s,
  runs 0 (demo_policy 0 3) demo_opts unknown_run (initial closed false) = Some s ∧
  tries s = 1.
Proof.
  destruct (unknown_status_reported_exhausted 0 (demo_policy 0 3) demo_opts (demo_retry 3) 600 "application" closed false now_unit going_on)
    as (s & Hr & Ht & _); [reflexivity..|].
  exists s. split; [exact Hr|exact Ht].
Defined.

(** ** Configurations *)

Definition no_names : PolicyNames := {| Timeout := EmptyString; RetryName := EmptyString; CircuitBreakerName := EmptyString |}.

Definition breaker_spec (timeout : string) : CircuitBreakerSpec :=
  {| cs_MaxRequests := 1; cs_Interval := EmptyString; cs_Timeout := timeout; cs_Trip := "consecutiveFailures > 3" |}.

Definition with_breaker (n : string) : PolicyNames :=
  {| Timeout := EmptyString; RetryName := EmptyString; CircuitBreakerName := n |}.

(** Two timeouts, two breakers, an app, and a component with different
    breakers for the two directions and one with a breaker nobody defines. *)
Definition demo_configuration (timeouts : list (string * list ascii)) : Configuration :=
  {| c_Name := "demo"; c_Namespace := "default"; c_Scopes := [];
     c_Timeouts := timeouts;
     c_Retries := [];
     c_CircuitBreakers := [("fast"%string, breaker_spec "1s"); ("slow"%string, breaker_spec "60s")];
     c_Apps := [("app"%string, {| ep_Timeout := "short"; ep_Retry := EmptyString; ep_CircuitBreaker := "fast"; ep_CacheSize := 0 |})];
     c_Actors := [];
     c_Components := [("pubsub"%string, {| Inbound := with_breaker "slow"; Outbound := with_breaker "fast" |});
                      ("broken"%string, {| Inbound := no_names; Outbound := with_breaker "missing" |})] |}.

Definition short_long : list (string * list ascii) := [("short"%string, bytes "500ms"); ("long"%string, bytes "1h30m")].
Definition long_short : list (string * list ascii) := [("long"%string, bytes "1h30m"); ("short"%string, bytes "500ms")].

Lemma decode_order_irrelevant_witness : ∃ r',
  DecodeConfiguration (demo_configuration short_long) (addBuiltInPolicies New) = (r', None) ∧
  DecodeConfiguration (demo_configuration long_short) (addBuiltInPolicies New) = (r', None).
Proof.
  assert (Hd : (DecodeConfiguration (demo_configuration short_long) (addBuiltInPolicies New)).2 = None) by (vm_compute; reflexivity).
  exists (DecodeConfiguration (demo_configuration short_long) (addBuiltInPolicies New)).1.
  assert (Hs : DecodeConfiguration (demo_configuration short_long) (addBuiltInPolicies New) =
    ((DecodeConfiguration (demo_configuration short_long) (addBuiltInPolicies New)).1, None))
    by (rewrite <-Hd; apply surjective_pairing).
  split; [exact Hs|]. apply (decode_order_irrelevant (demo_configuration short_long)); [|exact Hs].
  split; [split; reflexivity|split; [apply perm_swap|]|split; [reflexivity|]|split; [reflexivity|]|split; [reflexivity|]
    |split; [reflexivity|]|split; [reflexivity|]]; apply (bool_decide_unpack _); vm_compute; exact I.
Defined.

Local Notation demo_provider := (FromConfigurations [demo_configuration short_long]).

Definition demo_calls : list lookup_call :=
  [CallEndpoint "app" "app:80"; CallEndpoint "app" "app:80"; CallEndpoint "app" "app:81"; CallOutbound "pubsub" "Pubsub"].

Lemma demo_decoded : all_decoded [demo_configuration short_long] (addBuiltInPolicies New).
Proof. split; [vm_compute; reflexivity|exact I]. Qed.

(** The lookups of one endpoint share a breaker, the other endpoint and the
    component have their own. *)
Lemma breakers_isolated_witness : ∃ ps r',
  calls demo_calls demo_provider = Some (ps, r') ∧ policy_cb <$> ps = [Some 0; Some 0; Some 1; Some 2] ∧
  ∀ p1 p2, ps !! 0 = Some p1 → ps !! 1 = Some p2 → policy_cb p1 = Some 0 → policy_cb p2 = Some 0 →
  target demo_provider (CallEndpoint "app" "app:80") = target demo_provider (CallEndpoint "app" "app:80").
Proof.
  assert (Hp : (match calls demo_calls demo_provider with Some (ps, _) => policy_cb <$> ps | None => [] end)
    = [Some 0; Some 0; Some 1; Some 2]) by (vm_compute; reflexivity).
  destruct (calls demo_calls demo_provider) as [[ps r']|] eqn:Hc; [|discriminate Hp].
  exists ps, r'. split; [reflexivity|]. split; [exact Hp|].
  intros p1 p2 Hp1 Hp2 Hb1 Hb2.
  refine (proj1 (breakers_isolated [demo_configuration short_long] demo_calls ps r' 0 1
    (CallEndpoint "app" "app:80") (CallEndpoint "app" "app:80") p1 p2 0 0 demo_decoded Hc _ _ Hp1 Hp2 Hb1 Hb2) _); reflexivity.
Defined.

Lemma undefined_breaker_panics_witness :
  call (CallOutbound "broken" "Binding") demo_provider = None ∧ fails demo_provider (CallOutbound "broken" "Binding").
Proof.
  assert (Hn : call (CallOutbound "broken" "Binding") demo_provider = None) by (vm_compute; reflexivity).
  split; [exact Hn|].
  apply (undefined_breaker_panics [demo_configuration short_long] [] [] demo_provider); [exact demo_decoded|reflexivity|exact Hn].
Defined.

(** The breaker of the inbound direction, configured with 60 seconds, is the
    one of the outbound direction, with one second. *)
Lemma component_breaker_shared_witness : ∃ p1 p2 r' b,
  calls [CallOutbound "pubsub" "Pubsub"; CallInbound "pubsub" "Pubsub"] demo_provider = Some ([p1; p2], r') ∧
  policy_cb p2 = Some b ∧ cb_Timeout <$> breakers r' !! b = Some Second.
Proof.
  destruct (component_breaker_shared demo_provider "pubsub" "Pubsub"
    {| Inbound := with_breaker "slow"; Outbound := with_breaker "fast" |}
    {| cb_Name := "fast"; cb_MaxRequests := 1; cb_Interval := 0; cb_Timeout := Second; cb_Trip := Some "consecutiveFailures > 3"%string |}
    {| cb_Name := "slow"; cb_MaxRequests := 1; cb_Interval := 0; cb_Timeout := 60 * Second; cb_Trip := Some "consecutiveFailures > 3"%string |})
    as (p1 & p2 & r' & b & Hc & _ & Hb & Hbr); [vm_compute; reflexivity|vm_compute; reflexivity|done|done|vm_compute; reflexivity|vm_compute; reflexivity|].
  exists p1, p2, r', b. split; [exact Hc|]. split; [exact Hb|]. rewrite Hbr. reflexivity.
Defined.

(** A timeout in milliseconds that does not fit wraps around; a policy with it
    has no timeout. *)
Example large_timeout_wraps : parseDuration (bytes "9223372036855") = Some (-9223372036854551616)%Z.
Proof. vm_compute. reflexivity. Qed.

(** A configuration with an invalid duration overwrites the one it replaces. *)
Example invalid_timeout_resets :
  timeouts (FromConfigurations [demo_configuration short_long; demo_configuration [("short"%string, bytes "5 s")]]) !! "short"%string = Some 0%Z.
Proof. vm_compute. reflexivity. Qed.
