(* ===== verification/GoDate.v ===== *)
(** * Instants and calendar dates (package time of the Go library)

    A [Time] is an instant with the location it is shown in.  Instants are
    counted in nanoseconds from January 1 of year 1 UTC, the zero of Go; a
    location gives the offset from UTC, in seconds, that is in force at a Unix
    time (the time zone data itself is not code).  [AddDate] goes through the
    date and the clock of the location, and normalizes as [time.Date] does:
    months over into years, days over into months.  Years stay within the range
    in which Go computes without wrap-around (292 billion years). *)

From S2P Require Import Prelude.

Record Time := { t_ns : Z; t_loc : Z → Z }.

Definition UTC : Z → Z := λ _, 0%Z.

Definition zeroTime : Time := {| t_ns := 0; t_loc := UTC |}.

Definition IsZero (t : Time) : bool := (t_ns t =? 0)%Z.
Definition Before (t u : Time) : bool := (t_ns t <? t_ns u)%Z.
Definition After (t u : Time) : bool := (t_ns u <? t_ns t)%Z.

Definition Time_Add (t : Time) (d : Z) : Time := {| t_ns := t_ns t + d; t_loc := t_loc t |}.

Definition secondsPerDay : Z := 86400.

(** Seconds from year 1 to 1970. *)
Definition unixToInternal : Z := 62135596800.

(** The date of a day, counted from January 1 of year 1.  Years are counted
    from March, so that the leap day comes last; 146097 days are 400 years. *)
Definition days_to_date (day : Z) : Z * Z * Z :=
  let z := (day + 306)%Z in
  let era := (z / 146097)%Z in
  let doe := (z mod 146097)%Z in
  let yoe := ((doe - doe / 1460 + doe / 36524 - doe / 146096) / 365)%Z in
  let doy := (doe - (365 * yoe + yoe / 4 - yoe / 100))%Z in
  let mp := ((5 * doy + 2) / 153)%Z in
  let m := (if mp <? 10 then mp + 3 else mp - 9)%Z in
  ((yoe + era * 400 + (if m <=? 2 then 1 else 0))%Z, m, (doy - (153 * mp + 2) / 5 + 1)%Z).

(** The day of a date whose month is 1 to 12 and whose day is any number. *)
Definition date_to_days (year month day : Z) : Z :=
  let y := (if month <=? 2 then year - 1 else year)%Z in
  let mp := (if 2 <? month then month - 3 else month + 9)%Z in
  let yoe := (y mod 400)%Z in
  (y / 400 * 146097 + (yoe * 365 + yoe / 4 - yoe / 100 + (153 * mp + 2) / 5 + (day - 1)) - 306)%Z.

(** [time.Date], with the clock given as nanoseconds of the day.  The offset is
    first looked up as if the date were in UTC, and once more where it led. *)
Definition Date (year month day clock : Z) (loc : Z → Z) : Time :=
  let m := (month - 1)%Z in
  let days := date_to_days (year + m / 12) (m mod 12 + 1) day in
  let sec := (days * secondsPerDay - unixToInternal + clock / 1000000000)%Z in
  let offset := loc sec in
  let sec' := (if offset =? 0 then sec else sec - loc (sec - offset))%Z in
  {| t_ns := (sec' + unixToInternal) * 1000000000 + clock mod 1000000000; t_loc := loc |}.

(** What the clock on the wall shows, in nanoseconds. *)
Definition wall (t : Time) : Z :=
  (t_ns t + t_loc t (t_ns t / 1000000000 - unixToInternal) * 1000000000)%Z.

Definition nsPerDay : Z := 86400000000000.

Definition AddDate (t : Time) (years months days : Z) : Time :=
  let '(y, m, d) := days_to_date (wall t / nsPerDay) in
  Date (y + years) (m + months) (d + days) (wall t mod nsPerDay) (t_loc t).

(** January 31 and a month are March 3, or March 2 in a leap year; February 29
    and a year are March 1. *)
Definition at_midnight (y m d : Z) : Time := Date y m d 0 UTC.

Example month_overflow : t_ns (AddDate (at_midnight 2023 1 31) 0 1 0) = t_ns (at_midnight 2023 3 3).
Proof. vm_compute. reflexivity. Qed.

Example month_overflow_leap : t_ns (AddDate (at_midnight 2024 1 31) 0 1 0) = t_ns (at_midnight 2024 3 2).
Proof. vm_compute. reflexivity. Qed.

Example leap_day : t_ns (AddDate (at_midnight 2024 2 29) 1 0 0) = t_ns (at_midnight 2025 3 1).
Proof. vm_compute. reflexivity. Qed.

Example unix_epoch : t_ns (at_midnight 1970 1 1) = (unixToInternal * 1000000000)%Z.
Proof. vm_compute. reflexivity. Qed.

(** A day more over the change to summer time (an offset of one hour from
    1711846800 on, March 31, 2024) is a day on the clock and 23 hours. *)
Definition summer : Z → Z := λ u, if (u <? 1711846800)%Z then 3600%Z else 7200%Z.

Example summer_day :
  (t_ns (AddDate (Date 2024 3 30 43200000000000 summer) 0 0 1) - t_ns (Date 2024 3 30 43200000000000 summer)
   = 23 * 3600 * 1000000000)%Z.
Proof. vm_compute. reflexivity. Qed.
