(* ===== verification/Timers.v ===== *)
(** * Actor timers (pkg/actors/internal/timers/inmemory, pkg/actors/timers, pkg/actors/api)

    The timers of the actors of a sidecar live in memory.  [inmemory] registers
    them by key and schedules them with a queue of dapr/kit; a timer that is due
    is routed to the loop of its actor, which runs the callbacks of the actor
    one at a time, and is put back into the queue for its next tick when its
    callback has returned.  Loops are created for the first fire of an actor and
    torn down when the actor has neither timers nor fires.

    Each section under a lock is a definition on the state; the machine [step]
    interleaves the sections of the callers, of the scheduler and of the loops.
    A reminder in the store is a pointer that is compared with others, so a
    [timer] is a reminder with an identity.  The contexts that tell a running
    callback about the removal of its timer are identities too; the set of the
    cancelled ones is kept.  [updateActorTimers] takes a second lock at the end
    of a section of queueLock: it is a step of its own, before which the holder
    keeps queueLock. *)

From S2P Require Import Prelude GoDate.

(** ** Reminders (pkg/actors/api) *)

Record ReminderPeriod := {
  value : string;
  years : Z;
  months : Z;
  days : Z;
  period : Z;
  repeats : Z
}.

Definition NewEmptyReminderPeriod : ReminderPeriod :=
  {| value := EmptyString; years := 0; months := 0; days := 0; period := 0; repeats := -1 |}.

Definition Period_HasRepeats (p : ReminderPeriod) : bool :=
  negb (repeats p =? 0)%Z &&
  (negb (years p =? 0)%Z || negb (months p =? 0)%Z || negb (days p =? 0)%Z || negb (period p =? 0)%Z).

Definition GetFollowing (p : ReminderPeriod) (t : Time) : Time :=
  Time_Add (AddDate t (years p) (months p) (days p)) (period p).

Definition set_repeats (n : Z) (p : ReminderPeriod) : ReminderPeriod :=
  {| value := value p; years := years p; months := months p; days := days p;
     period := period p; repeats := n |}.

(** The data of a reminder is kept as it is encoded.  The context [Removed] is
    given to a fire when it is called (see [phase] below); SourceAppID, which is
    empty for timers, is left out. *)
Record Reminder := {
  ActorID : string;
  ActorType : string;
  Name : string;
  Data : option string;
  Period : ReminderPeriod;
  RegisteredTime : Time;
  DueTime : string;
  ExpirationTime : Time;
  Callback : string;
  IsTimer : bool;
  IsRemote : bool;
  SkipLock : bool;
  SkipRetries : bool
}.

Definition DaprSeparator : string := "||".

Definition Reminder_ActorKey (r : Reminder) : string := ActorType r +:+ DaprSeparator +:+ ActorID r.

Definition Key (r : Reminder) : string :=
  ActorType r +:+ DaprSeparator +:+ ActorID r +:+ DaprSeparator +:+ Name r.

Definition NextTick (r : Reminder) : Time * bool :=
  (RegisteredTime r, IsZero (ExpirationTime r) || Before (RegisteredTime r) (ExpirationTime r)).

Definition HasRepeats (r : Reminder) : bool := Period_HasRepeats (Period r).

Definition set_tick (p : ReminderPeriod) (t : Time) (r : Reminder) : Reminder :=
  {| ActorID := ActorID r; ActorType := ActorType r; Name := Name r; Data := Data r; Period := p;
     RegisteredTime := t; DueTime := DueTime r; ExpirationTime := ExpirationTime r;
     Callback := Callback r; IsTimer := IsTimer r; IsRemote := IsRemote r;
     SkipLock := SkipLock r; SkipRetries := SkipRetries r |}.

(** The reminder after the tick, and whether it is done. *)
Definition TickExecuted (r : Reminder) : Reminder * bool :=
  let p := if (0 <? repeats (Period r))%Z then set_repeats (repeats (Period r) - 1) (Period r) else Period r in
  if negb (Period_HasRepeats p) then (set_tick p (RegisteredTime r) r, true)
  else (set_tick p (GetFollowing p (RegisteredTime r)) r, false).

(** ** Requests *)

(** The parsers of github.com/dapr/kit/time: a time, absolute or relative to
    another, and a period with its repetitions. *)
Class TimeUtils := {
  ParseTime : string → Time → option Time;
  ParseDuration : string → option (Z * Z * Z * Z * Z)
}.

Record CreateTimerRequest := {
  req_Name : string;
  req_ActorType : string;
  req_ActorID : string;
  req_DueTime : string;
  req_Period : string;
  req_TTL : string;
  req_Callback : string;
  req_Data : option string
}.

Inductive timerError :=
| errNotRegistered
| errDueTime
| errPeriod
| errZeroRepetitions
| errTTL
| errExpired
| errLookup
| ErrTimerActorNotOwned
| ErrTimerActorTypeNotHosted
| errContext.

Section requests.
Context {TU : TimeUtils}.

Definition parseReminderPeriod (val : string) : ReminderPeriod + timerError :=
  match ParseDuration val with
  | None => inr errPeriod
  | Some (y, m, d, p, n) =>
    if (n =? 0)%Z then inr errZeroRepetitions
    else inl {| value := val; years := y; months := m; days := d; period := p; repeats := n |}
  end.

Definition NewReminderPeriod (val : string) : ReminderPeriod + timerError :=
  match val with EmptyString => inl NewEmptyReminderPeriod | _ => parseReminderPeriod val end.

(** [parseReminderTime] where a value is given, the default where not. *)
Definition time_or (val : string) (dflt : Time) (base : Time) (e : timerError) : Time + timerError :=
  match val with
  | EmptyString => inl dflt
  | _ => match ParseTime val base with Some t => inl t | None => inr e end
  end.

Definition setReminderTimes (dueTime prd ttl : string) (now : Time) :
    (Time * ReminderPeriod * Time) + timerError :=
  match time_or dueTime now now errDueTime with
  | inr e => inr e
  | inl registered =>
    match NewReminderPeriod prd with
    | inr e => inr e
    | inl p =>
      match ttl with
      | EmptyString => inl (registered, p, zeroTime)
      | _ =>
        match ParseTime ttl registered with
        | None => inr errTTL
        | Some expiration =>
          if After now expiration || After registered expiration then inr errExpired
          else inl (registered, p, expiration)
        end
      end
    end
  end.

Definition NewReminder (req : CreateTimerRequest) (now : Time) : Reminder + timerError :=
  match setReminderTimes (req_DueTime req) (req_Period req) (req_TTL req) now with
  | inr e => inr e
  | inl (registered, p, expiration) =>
    inl {| ActorID := req_ActorID req; ActorType := req_ActorType req; Name := req_Name req;
           Data := req_Data req; Period := p; RegisteredTime := registered;
           DueTime := req_DueTime req; ExpirationTime := expiration; Callback := req_Callback req;
           IsTimer := false; IsRemote := false; SkipLock := false; SkipRetries := false |}
  end.

Definition set_IsTimer (r : Reminder) : Reminder :=
  {| ActorID := ActorID r; ActorType := ActorType r; Name := Name r; Data := Data r; Period := Period r;
     RegisteredTime := RegisteredTime r; DueTime := DueTime r; ExpirationTime := ExpirationTime r;
     Callback := Callback r; IsTimer := true; IsRemote := IsRemote r;
     SkipLock := SkipLock r; SkipRetries := SkipRetries r |}.

(** [claimLocal]: the answer of placement, if any, says whether the actor is
    hosted here. *)
Definition claimLocal (lookup : option bool) : option timerError :=
  match lookup with
  | None => Some errLookup
  | Some local => if local then None else Some ErrTimerActorNotOwned
  end.

(** What [timers.Create] hands to the storage. *)
Definition timers_Create (hosted : bool) (lookup : option bool) (req : CreateTimerRequest) (now : Time) :
    Reminder + timerError :=
  if negb hosted then inr errNotRegistered
  else match NewReminder req now with
       | inr e => inr e
       | inl reminder =>
         match claimLocal lookup with
         | Some e => inr e
         | None => inl (set_IsTimer reminder)
         end
       end.

(** [timers.Delete] passes the key on when the actor is local; [Get] and [List]
    also need the type to be hosted. *)
Definition timers_Delete (lookup : option bool) : option timerError := claimLocal lookup.

Definition timers_read (hosted : bool) (lookup : option bool) : option timerError :=
  if negb hosted then Some ErrTimerActorTypeNotHosted else claimLocal lookup.

End requests.

(** ** The storage (internal/timers/inmemory) *)

Record timer := { tm_id : N; tm_body : Reminder }.

Definition tkey (t : timer) : string := Key (tm_body t).
Definition takey (t : timer) : string := Reminder_ActorKey (tm_body t).
Definition ttype (t : timer) : string := ActorType (tm_body t).

(** Whether a pointer read from the map is the given one. *)
Definition same (cur : option timer) (t : timer) : bool :=
  match cur with Some c => (tm_id c =? tm_id t)%N | None => false end.

Record actorState := { as_loop : option N; as_pending : Z; as_timers : Z }.

Definition newActorState : actorState := {| as_loop := None; as_pending := 0; as_timers := 0 |}.

(** The queue of the processor holds at most one reminder for each key; after
    the processor is closed it runs nothing and ignores what is enqueued. *)
Record inmemory := {
  activeTimers : gmap string timer;
  activeTimersCount : gmap string Z;
  processor : gmap string timer;
  processorClosed : bool;
  removals : gmap string N;
  cancelled : gset N;
  nextRemoval : N;
  actorStates : option (gmap string actorState);
  nextLoop : N;
  closed : bool;
  ctxCancelled : bool
}.

Definition New : inmemory := {|
  activeTimers := ∅; activeTimersCount := ∅; processor := ∅; processorClosed := false;
  removals := ∅; cancelled := ∅; nextRemoval := 0; actorStates := Some ∅; nextLoop := 0;
  closed := false; ctxCancelled := false |}.

Definition set_active (m : gmap string timer) (i : inmemory) : inmemory := {|
  activeTimers := m; activeTimersCount := activeTimersCount i; processor := processor i;
  processorClosed := processorClosed i; removals := removals i; cancelled := cancelled i;
  nextRemoval := nextRemoval i; actorStates := actorStates i; nextLoop := nextLoop i;
  closed := closed i; ctxCancelled := ctxCancelled i |}.

Definition set_count (m : gmap string Z) (i : inmemory) : inmemory := {|
  activeTimers := activeTimers i; activeTimersCount := m; processor := processor i;
  processorClosed := processorClosed i; removals := removals i; cancelled := cancelled i;
  nextRemoval := nextRemoval i; actorStates := actorStates i; nextLoop := nextLoop i;
  closed := closed i; ctxCancelled := ctxCancelled i |}.

Definition set_processor (m : gmap string timer) (c : bool) (i : inmemory) : inmemory := {|
  activeTimers := activeTimers i; activeTimersCount := activeTimersCount i; processor := m;
  processorClosed := c; removals := removals i; cancelled := cancelled i;
  nextRemoval := nextRemoval i; actorStates := actorStates i; nextLoop := nextLoop i;
  closed := closed i; ctxCancelled := ctxCancelled i |}.

Definition set_removals (m : gmap string N) (c : gset N) (n : N) (i : inmemory) : inmemory := {|
  activeTimers := activeTimers i; activeTimersCount := activeTimersCount i; processor := processor i;
  processorClosed := processorClosed i; removals := m; cancelled := c;
  nextRemoval := n; actorStates := actorStates i; nextLoop := nextLoop i;
  closed := closed i; ctxCancelled := ctxCancelled i |}.

Definition set_states (m : option (gmap string actorState)) (n : N) (c : bool) (i : inmemory) : inmemory := {|
  activeTimers := activeTimers i; activeTimersCount := activeTimersCount i; processor := processor i;
  processorClosed := processorClosed i; removals := removals i; cancelled := cancelled i;
  nextRemoval := nextRemoval i; actorStates := m; nextLoop := n;
  closed := c; ctxCancelled := ctxCancelled i |}.

Definition set_ctxCancelled (i : inmemory) : inmemory := {|
  activeTimers := activeTimers i; activeTimersCount := activeTimersCount i; processor := processor i;
  processorClosed := processorClosed i; removals := removals i; cancelled := cancelled i;
  nextRemoval := nextRemoval i; actorStates := actorStates i; nextLoop := nextLoop i;
  closed := closed i; ctxCancelled := true |}.

(** What a section leaves to be done: a call of [updateActorTimers] before
    queueLock is released, a loop that was started, a loop that is to be closed. *)
Inductive store_effect :=
| UpdateActorTimers (actorKey : string) (delta : Z)
| NewLoop (l : N)
| CloseLoop (l : N).

Local Open Scope dapr_scope.

Definition Enqueue (t : timer) : prog inmemory store_effect :=
  modify (λ i, if processorClosed i then i else set_processor (<[tkey t := t]> (processor i)) false i).

Definition Dequeue (key : string) : prog inmemory store_effect :=
  modify (λ i, set_processor (delete key (processor i)) (processorClosed i) i).

Definition cancelRemovalLocked (timerKey : string) : prog inmemory store_effect :=
  modify (λ i, match removals i !! timerKey with
               | Some rm => set_removals (delete timerKey (removals i)) ({[rm]} ∪ cancelled i) (nextRemoval i) i
               | None => i
               end).

Definition newRemoval (timerKey : string) : prog inmemory store_effect :=
  modify (λ i, set_removals (<[timerKey := nextRemoval i]> (removals i)) (cancelled i) (nextRemoval i + 1)%N i).

Definition updateActiveTimersCount (actorType : string) (inc : Z) : prog inmemory store_effect :=
  modify (λ i, set_count (<[actorType := i64_wrap (default 0%Z (activeTimersCount i !! actorType) + inc)]>
                            (activeTimersCount i)) i).

Definition GetActiveTimersCount (actorType : string) (i : inmemory) : Z :=
  default 0%Z (activeTimersCount i !! actorType).

Definition Create (ctxErr : bool) (reminder : timer) : prog inmemory store_effect :=
  let timerKey := tkey reminder in
  let active := (NextTick (tm_body reminder)).2 in
  if ctxErr then skip
  else
    with i do
      let replaced := match activeTimers i !! timerKey with Some _ => true | None => false end in
      (match activeTimers i !! timerKey with
       | Some prev =>
         modify (λ i, set_active (delete timerKey (activeTimers i)) i) ;;;
         Dequeue (tkey prev) ;;;
         cancelRemovalLocked timerKey ;;;
         updateActiveTimersCount (ttype reminder) (-1)
       | None => skip
       end ;;;
       if negb active then when replaced (emit [UpdateActorTimers (takey reminder) (-1)])
       else
         newRemoval timerKey ;;;
         modify (λ i, set_active (<[timerKey := reminder]> (activeTimers i)) i) ;;;
         Enqueue reminder ;;;
         updateActiveTimersCount (ttype reminder) 1 ;;;
         when (negb replaced) (emit [UpdateActorTimers (takey reminder) 1])).

(** What is done with a timer that was taken out of the map. *)
Definition forget (reminder : timer) : prog inmemory store_effect :=
  cancelRemovalLocked (tkey reminder) ;;;
  updateActiveTimersCount (ttype reminder) (-1) ;;;
  emit [UpdateActorTimers (takey reminder) (-1)].

Definition Delete (timerKey : string) : prog inmemory store_effect :=
  with i do
    match activeTimers i !! timerKey with
    | None => skip
    | Some reminder =>
      modify (λ i, set_active (delete timerKey (activeTimers i)) i) ;;;
      Dequeue (tkey reminder) ;;;
      cancelRemovalLocked timerKey ;;;
      updateActiveTimersCount (ttype reminder) (-1) ;;;
      emit [UpdateActorTimers (takey reminder) (-1)]
    end.

Definition DeleteFunc (fn : string → string → bool) : prog inmemory store_effect :=
  with i do
    for_each (map_to_list (activeTimers i)) (λ '(key, reminder),
      if negb (fn (ActorType (tm_body reminder)) (ActorID (tm_body reminder))) then skip
      else
        modify (λ i, set_active (delete key (activeTimers i)) i) ;;;
        Dequeue (tkey reminder) ;;;
        forget reminder).

Definition Get (timerKey : string) (i : inmemory) : option Reminder := tm_body <$> activeTimers i !! timerKey.

Definition name_le (a b : Reminder) : Prop := String.leb (Name a) (Name b) = true.

#[export] Instance name_le_dec : RelDecision name_le.
Proof. intros a b. unfold name_le. apply _. Defined.

Definition List (actorType actorID : string) (i : inmemory) : list Reminder :=
  merge_sort name_le
    (filter (λ r, ActorType r = actorType ∧ ActorID r = actorID)
       ((λ kt : string * timer, tm_body kt.2) <$> map_to_list (activeTimers i))).

(** [CompareAndDelete] and what follows it. *)
Definition dropTimer (reminder : timer) : prog inmemory store_effect :=
  with i do
    when (same (activeTimers i !! tkey reminder) reminder)
      (modify (λ i, set_active (delete (tkey reminder) (activeTimers i)) i) ;;; forget reminder).

(** Tearing down the state of an actor; the actor states are not nil here. *)
Definition maybeReapLocked (actorKey : string) (st : actorState) : prog inmemory store_effect :=
  if (0 <? as_timers st)%Z || (0 <? as_pending st)%Z then skip
  else
    modify (λ i, set_states (delete actorKey <$> actorStates i) (nextLoop i) (closed i) i) ;;;
    match as_loop st with None => skip | Some l => emit [CloseLoop l] end.

Definition putState (actorKey : string) (st : actorState) : prog inmemory store_effect :=
  modify (λ i, set_states (<[actorKey := st]> <$> actorStates i) (nextLoop i) (closed i) i).

Definition updateActorTimers (actorKey : string) (delta : Z) : prog inmemory store_effect :=
  with i do
    match actorStates i with
    | None => skip
    | Some m =>
      let upd st := {| as_loop := as_loop st; as_pending := as_pending st;
                       as_timers := as_timers st + delta |} in
      match m !! actorKey with
      | None =>
        if (delta <=? 0)%Z then skip
        else putState actorKey (upd newActorState) ;;; maybeReapLocked actorKey (upd newActorState)
      | Some st => putState actorKey (upd st) ;;; maybeReapLocked actorKey (upd st)
      end
    end.

Definition fireDone (actorKey : string) : prog inmemory store_effect :=
  with i do
    match actorStates i ≫= (.!! actorKey) with
    | None => skip
    | Some st =>
      let st' := {| as_loop := as_loop st; as_pending := as_pending st - 1; as_timers := as_timers st |} in
      putState actorKey st' ;;; maybeReapLocked actorKey st'
    end.

(** The section of [processorExecuteFn]; the result is the loop to which the
    fire is then enqueued.  The actor states are nil only when closed. *)
Definition processorExecuteFn (actorKey : string) (i : inmemory) : inmemory * option N * list store_effect :=
  if closed i then (i, None, [])
  else
    match actorStates i with
    | None => (i, None, [])
    | Some m =>
      let st := default newActorState (m !! actorKey) in
      let '(l, n, es) := match as_loop st with
                         | Some l => (l, nextLoop i, [])
                         | None => (nextLoop i, (nextLoop i + 1)%N, [NewLoop (nextLoop i)])
                         end in
      let st' := {| as_loop := Some l; as_pending := as_pending st + 1; as_timers := as_timers st |} in
      (set_states (Some (<[actorKey := st']> m)) n (closed i) i, Some l, es)
    end.

(** ** The call of a fire (pkg/actors/router, pkg/actors/targets/app) *)

Inductive callErr := ErrTimerFireStale | ErrTimerFireNotLocal | ErrClosed | ErrOther.

#[export] Instance callErr_eq_dec : EqDecision callErr.
Proof. solve_decision. Defined.

(** What one attempt meets: the answer of placement (an error, or whether the
    actor is local), whether the removal was seen after it and after the actor's
    lock was asked for, and how the other calls end. *)
Record attempt := {
  at_lookup : option bool;
  at_removed : bool;
  at_remote : option bool;
  at_target : bool;
  at_lockRemoved : bool;
  at_lock : option callErr;
  at_app : option callErr;
  at_ctxDone : bool
}.

Definition InvokeTimer (a : attempt) : option callErr :=
  if at_lockRemoved a then Some ErrTimerFireStale
  else match at_lock a with Some e => Some e | None => at_app a end.

Definition InvokeReminder (a : attempt) : option callErr :=
  match at_lock a with Some e => Some e | None => at_app a end.

(** The error of an attempt, with whether it is permanent. *)
Definition callReminder (req : Reminder) (a : attempt) : option (bool * callErr) :=
  if at_removed a then Some (true, ErrTimerFireStale)
  else match at_lookup a with
       | None => Some (false, ErrOther)
       | Some false =>
         if IsTimer req then Some (true, ErrTimerFireNotLocal)
         else if IsRemote req then Some (true, ErrOther)
         else match at_remote a with None => None | Some unavailable => Some (unavailable, ErrOther) end
       | Some true =>
         if negb (at_target a) then Some (negb (at_ctxDone a), ErrOther)
         else match (if IsTimer req then InvokeTimer a else InvokeReminder a) with
              | None => None
              | Some err => Some (negb (at_ctxDone a || bool_decide (err = ErrClosed)), err)
              end
       end.

(** [CallReminder] returns what its last attempt does, or an error of its own
    when the context ends before an attempt.  Only that attempt is kept: the
    built-in retry policy may have called the app before it with errors that
    are retried, so one fire can reach the app more than once. *)
Definition CallReminder (req : Reminder) (a : option attempt) : option callErr :=
  match a with None => Some ErrOther | Some a => snd <$> callReminder req a end.

(** ** The machine *)

(** A loop handles a fire in phases: it has seen that the store is not closed;
    the callback runs, with the removal context it was given; the callback has
    returned; the fire is to be counted as done. *)
Inductive phase :=
| PStarted
| PCall (rm : option N)
| PReturned (err : option callErr)
| PDone.

Record loop := { lp_queue : list timer; lp_run : option (timer * phase); lp_closing : bool }.

(** [popped]: fires taken from the queue that have not entered
    [processorExecuteFn]'s section; [routed]: fires that left it and are not yet
    enqueued on their loop.  [queueLock]: its holder, a loop or a caller, with
    the updates it still has to make. *)
Record sys := {
  store : inmemory;
  nextTimer : N;
  queueLock : option (option N * list (string * Z));
  popped : list timer;
  routed : list (timer * N);
  loops : gmap N loop
}.

Definition init : sys := {|
  store := New; nextTimer := 0; queueLock := None; popped := []; routed := []; loops := ∅ |}.

Inductive event :=
| ECreate (ctxErr : bool) (reminder : Reminder)
| EDelete (timerKey : string)
| EDeleteFunc (fn : string → string → bool)
| EUpdate
| EDue (timerKey : string)
| ERoute (n : nat)
| EEnqueue (n : nat)
| EHandle (l : N)
| ECheck (l : N)
| EReturn (l : N) (a : option attempt)
| ESettle (l : N)
| EFireDone (l : N)
| EStop (l : N)
| ECancel
| ECloseProcessor
| ECloseStates.

(** What is seen of a step: a callback is called, or a fire is enqueued on a
    loop that is being closed. *)
Inductive obs :=
| Called (t : timer) (rm : option N)
| EnqueueOnClosed (l : N).

Definition newLoop : loop := {| lp_queue := []; lp_run := None; lp_closing := false |}.

Definition close_loop (lp : loop) : loop :=
  {| lp_queue := lp_queue lp; lp_run := lp_run lp; lp_closing := true |}.

Definition apply_effect (ls : gmap N loop) (e : store_effect) : gmap N loop :=
  match e with
  | UpdateActorTimers _ _ => ls
  | NewLoop l => <[l := newLoop]> ls
  | CloseLoop l => alter close_loop l ls
  end.

Definition updates (es : list store_effect) : list (string * Z) :=
  omap (λ e, match e with UpdateActorTimers k d => Some (k, d) | _ => None end) es.

(** The lock after a section: kept while updates are left. *)
Definition held (who : option N) (us : list (string * Z)) : option (option N * list (string * Z)) :=
  match us with [] => None | _ => Some (who, us) end.

(** A section under queueLock, by a caller or a loop.  Each has an identity of
    its own for the reminder it may allocate. *)
Definition section (who : option N) (p : prog inmemory store_effect) (s : sys) : sys :=
  let '(i, es) := p (store s) in
  {| store := i; nextTimer := nextTimer s + 1; queueLock := held who (updates es);
     popped := popped s; routed := routed s; loops := loops s |}.

(** A section under actorStatesLock. *)
Definition states_section (p : prog inmemory store_effect) (s : sys) : sys :=
  let '(i, es) := p (store s) in
  {| store := i; nextTimer := nextTimer s; queueLock := queueLock s;
     popped := popped s; routed := routed s; loops := fold_left apply_effect es (loops s) |}.

Definition set_loop (l : N) (lp : loop) (s : sys) : sys :=
  {| store := store s; nextTimer := nextTimer s; queueLock := queueLock s;
     popped := popped s; routed := routed s; loops := <[l := lp]> (loops s) |}.

Definition set_queueLock (q : option (option N * list (string * Z))) (s : sys) : sys :=
  {| store := store s; nextTimer := nextTimer s; queueLock := q;
     popped := popped s; routed := routed s; loops := loops s |}.

Definition set_fires (p : list timer) (r : list (timer * N)) (s : sys) : sys :=
  {| store := store s; nextTimer := nextTimer s; queueLock := queueLock s;
     popped := p; routed := r; loops := loops s |}.

Definition set_store (i : inmemory) (s : sys) : sys :=
  {| store := i; nextTimer := nextTimer s; queueLock := queueLock s;
     popped := popped s; routed := routed s; loops := loops s |}.

(** The first section of [executeAndReschedule]: what the callback is called
    with, if the timer is still the registered one. *)
Definition fire_check (reminder : timer) (i : inmemory) : option (option N) :=
  if same (activeTimers i !! tkey reminder) reminder then Some (removals i !! tkey reminder) else None.

(** The rest of [executeAndReschedule], once the callback has returned: the
    section it enters, if any.  [next] is the copy that is published. *)
Definition reschedule (reminder : timer) (next_id : N) (err : option callErr) : option (prog inmemory store_effect) :=
  match err with
  | Some ErrTimerFireStale => None
  | Some ErrTimerFireNotLocal => Some (dropTimer reminder)
  | _ =>
    let '(body, done) := TickExecuted (tm_body reminder) in
    let next := {| tm_id := next_id; tm_body := body |} in
    Some (if done || negb (NextTick body).2 then dropTimer reminder
          else with i do
            when (same (activeTimers i !! tkey reminder) reminder)
              (modify (λ i, set_active (<[tkey reminder := next]> (activeTimers i)) i) ;;; Enqueue next))
  end.

(** A removal an attempt saw has happened. *)
Definition sees (i : inmemory) (rm : option N) (a : option attempt) : bool :=
  match a with
  | None => true
  | Some a => negb (at_removed a || at_lockRemoved a) ||
              match rm with Some rm => bool_decide (rm ∈ cancelled i) | None => false end
  end.

Definition not_stale (e : option callErr) : bool := bool_decide (e ≠ Some ErrTimerFireStale).

(** The errors of the lock and of the app are errors of their own. *)
Definition attempt_ok (a : option attempt) : bool :=
  match a with None => true | Some a => not_stale (at_lock a) && not_stale (at_app a) end.

Definition is_free (q : option (option N * list (string * Z))) : bool :=
  match q with None => true | Some _ => false end.

Definition holds (l : N) (q : option (option N * list (string * Z))) : bool :=
  match q with Some (Some l', _) => (l =? l')%N | _ => false end.

Definition run_phase (l : N) (s : sys) : option (loop * timer * phase) :=
  lp ← loops s !! l; '(t, ph) ← lp_run lp; Some (lp, t, ph).

Definition in_phase (t : timer) (ph : phase) (lp : loop) : loop :=
  {| lp_queue := lp_queue lp; lp_run := Some (t, ph); lp_closing := lp_closing lp |}.

Definition idle (lp : loop) : loop :=
  {| lp_queue := lp_queue lp; lp_run := None; lp_closing := lp_closing lp |}.

(** One step; no result where the event is not possible. *)
Definition step (e : event) (s : sys) : option (sys * list obs) :=
  match e with
  | ECreate ctxErr r =>
    if is_free (queueLock s)
    then Some (section None (Create ctxErr {| tm_id := nextTimer s; tm_body := r |}) s, [])
    else None
  | EDelete k => if is_free (queueLock s) then Some (section None (Delete k) s, []) else None
  | EDeleteFunc fn => if is_free (queueLock s) then Some (section None (DeleteFunc fn) s, []) else None
  | EUpdate =>
    match queueLock s with
    | Some (who, (k, d) :: us) => Some (set_queueLock (held who us) (states_section (updateActorTimers k d) s), [])
    | _ => None
    end
  | EDue k =>
    t ← processor (store s) !! k;
    Some (set_fires (popped s ++ [t]) (routed s)
            (set_store (set_processor (delete k (processor (store s))) (processorClosed (store s)) (store s)) s), [])
  | ERoute n =>
    t ← popped s !! n;
    let '(i, l, es) := processorExecuteFn (takey t) (store s) in
    Some ({| store := i; nextTimer := nextTimer s; queueLock := queueLock s;
             popped := delete n (popped s);
             routed := routed s ++ match l with Some l => [(t, l)] | None => [] end;
             loops := fold_left apply_effect es (loops s) |}, [])
  | EEnqueue n =>
    '(t, l) ← routed s !! n;
    let s' := set_fires (popped s) (delete n (routed s)) s in
    match loops s !! l with
    | Some lp =>
      if lp_closing lp then Some (s', [EnqueueOnClosed l])
      else Some (set_loop l {| lp_queue := lp_queue lp ++ [t]; lp_run := lp_run lp; lp_closing := false |} s', [])
    | None => Some (s', [EnqueueOnClosed l])
    end
  | EHandle l =>
    lp ← loops s !! l;
    match lp_run lp, lp_queue lp with
    | None, t :: q =>
      let ph := if ctxCancelled (store s) then PDone else PStarted in
      Some (set_loop l {| lp_queue := q; lp_run := Some (t, ph); lp_closing := lp_closing lp |} s, [])
    | _, _ => None
    end
  | ECheck l =>
    '(lp, t, ph) ← run_phase l s;
    match ph with
    | PStarted =>
      if negb (is_free (queueLock s)) then None
      else match fire_check t (store s) with
           | None => Some (set_loop l (in_phase t PDone lp) s, [])
           | Some rm => Some (set_loop l (in_phase t (PCall rm) lp) s, [Called t rm])
           end
    | _ => None
    end
  | EReturn l a =>
    '(lp, t, ph) ← run_phase l s;
    match ph with
    | PCall rm =>
      if sees (store s) rm a && attempt_ok a
      then Some (set_loop l (in_phase t (PReturned (CallReminder (tm_body t) a)) lp) s, [])
      else None
    | _ => None
    end
  | ESettle l =>
    '(lp, t, ph) ← run_phase l s;
    match ph with
    | PReturned err =>
      match reschedule t (nextTimer s) err with
      | None => Some (set_loop l (in_phase t PDone lp) s, [])
      | Some p =>
        if is_free (queueLock s)
        then Some (set_loop l (in_phase t PDone lp) (section (Some l) p s), [])
        else None
      end
    | _ => None
    end
  | EFireDone l =>
    '(lp, t, ph) ← run_phase l s;
    match ph with
    | PDone =>
      if holds l (queueLock s) then None
      else Some (states_section (fireDone (takey t)) (set_loop l (idle lp) s), [])
    | _ => None
    end
  | EStop l =>
    lp ← loops s !! l;
    match lp_closing lp, lp_run lp, lp_queue lp with
    | true, None, [] =>
      Some ({| store := store s; nextTimer := nextTimer s; queueLock := queueLock s;
               popped := popped s; routed := routed s; loops := delete l (loops s) |}, [])
    | _, _, _ => None
    end
  | ECancel => Some (set_store (set_ctxCancelled (store s)) s, [])
  | ECloseProcessor =>
    if ctxCancelled (store s) then Some (set_store (set_processor ∅ true (store s)) s, []) else None
  | ECloseStates =>
    match processorClosed (store s), popped s, routed s, actorStates (store s) with
    | true, [], [], Some m =>
      Some ({| store := set_states None (nextLoop (store s)) true (store s); nextTimer := nextTimer s;
               queueLock := queueLock s; popped := []; routed := [];
               loops := fold_left apply_effect
                          (omap (λ kst : string * actorState, CloseLoop <$> as_loop kst.2) (map_to_list m))
                          (loops s) |}, [])
    | _, _, _, _ => None
    end
  end.

Fixpoint run_events (es : list event) (s : sys) : option (sys * list obs) :=
  match es with
  | [] => Some (s, [])
  | e :: es' =>
    '(s1, o1) ← step e s;
    '(s2, o2) ← run_events es' s1;
    Some (s2, o1 ++ o2)
  end.
