(* ===== verification/TimersInv.v ===== *)
(** * Actor timers: what every state of the storage satisfies

    The sections of the storage are compositions of three edits: a timer is
    registered ([reg]), unregistered ([unreg]) or replaced by its next tick
    ([advance]).  [core] relates the tables to the fires that have left the queue
    and are not settled; [settled] says what a running callback has been told;
    together they hold in every state of the machine ([reachable_inv]). *)

From S2P Require Import Prelude GoDate Timers.

Local Open Scope dapr_scope.

(** ** The edits *)

Definition unreg (k actorType : string) (i : inmemory) : inmemory :=
  ((modify (λ i, set_active (delete k (activeTimers i)) i) ;;; Dequeue k ;;; cancelRemovalLocked k ;;;
    updateActiveTimersCount actorType (-1)) i).1.

Definition reg (t : timer) (i : inmemory) : inmemory :=
  ((newRemoval (tkey t) ;;; modify (λ i, set_active (<[tkey t := t]> (activeTimers i)) i) ;;; Enqueue t ;;;
    updateActiveTimersCount (ttype t) 1) i).1.

Definition advance (k : string) (next : timer) (i : inmemory) : inmemory :=
  ((modify (λ i, set_active (<[k := next]> (activeTimers i)) i) ;;; Enqueue next) i).1.

(** The fields of an edited store. *)
Section fields.
Implicit Types (i : inmemory).

Lemma unreg_active k ty i : activeTimers (unreg k ty i) = delete k (activeTimers i).
Proof. unfold unreg; cbn. by case_match. Qed.
Lemma unreg_processor k ty i : processor (unreg k ty i) = delete k (processor i).
Proof. unfold unreg; cbn. by case_match. Qed.
Lemma unreg_removals k ty i : removals (unreg k ty i) = delete k (removals i).
Proof. unfold unreg; cbn. case_match; cbn in *; [done|]. by rewrite delete_id. Qed.
Lemma unreg_cancelled k ty i r : r ∈ cancelled (unreg k ty i) ↔ removals i !! k = Some r ∨ r ∈ cancelled i.
Proof. unfold unreg; cbn. destruct (removals i !! k) eqn:E; cbn; set_solver. Qed.
Lemma unreg_count k ty i : activeTimersCount (unreg k ty i) =
  <[ty := i64_wrap (default 0%Z (activeTimersCount i !! ty) + -1)]> (activeTimersCount i).
Proof. unfold unreg; cbn. by case_match. Qed.
Lemma unreg_same k ty i :
  processorClosed (unreg k ty i) = processorClosed i ∧ nextRemoval (unreg k ty i) = nextRemoval i ∧
  actorStates (unreg k ty i) = actorStates i ∧ nextLoop (unreg k ty i) = nextLoop i ∧
  closed (unreg k ty i) = closed i ∧ ctxCancelled (unreg k ty i) = ctxCancelled i.
Proof. unfold unreg; cbn. by case_match. Qed.

Lemma reg_active t i : activeTimers (reg t i) = <[tkey t := t]> (activeTimers i).
Proof. unfold reg; cbn. by case_match. Qed.
Lemma reg_processor t i :
  processor (reg t i) = if processorClosed i then processor i else <[tkey t := t]> (processor i).
Proof. unfold reg; cbn. by case_match. Qed.
Lemma reg_removals t i : removals (reg t i) = <[tkey t := nextRemoval i]> (removals i).
Proof. unfold reg; cbn. by case_match. Qed.
Lemma reg_count t i : activeTimersCount (reg t i) =
  <[ttype t := i64_wrap (default 0%Z (activeTimersCount i !! ttype t) + 1)]> (activeTimersCount i).
Proof. unfold reg; cbn. by case_match. Qed.
Lemma reg_same t i :
  processorClosed (reg t i) = processorClosed i ∧ nextRemoval (reg t i) = (nextRemoval i + 1)%N ∧
  cancelled (reg t i) = cancelled i ∧ actorStates (reg t i) = actorStates i ∧ nextLoop (reg t i) = nextLoop i ∧
  closed (reg t i) = closed i ∧ ctxCancelled (reg t i) = ctxCancelled i.
Proof. unfold reg; cbn. case_match; cbn; repeat split; done. Qed.

Lemma advance_active k t i : activeTimers (advance k t i) = <[k := t]> (activeTimers i).
Proof. unfold advance; cbn. by case_match. Qed.
Lemma advance_processor k t i :
  processor (advance k t i) = if processorClosed i then processor i else <[tkey t := t]> (processor i).
Proof. unfold advance; cbn. by case_match. Qed.
Lemma advance_same k t i :
  processorClosed (advance k t i) = processorClosed i ∧ nextRemoval (advance k t i) = nextRemoval i ∧
  cancelled (advance k t i) = cancelled i ∧ removals (advance k t i) = removals i ∧
  activeTimersCount (advance k t i) = activeTimersCount i ∧
  actorStates (advance k t i) = actorStates i ∧ nextLoop (advance k t i) = nextLoop i ∧
  closed (advance k t i) = closed i ∧ ctxCancelled (advance k t i) = ctxCancelled i.
Proof. unfold advance; cbn. case_match; cbn; repeat split; done. Qed.

End fields.

(** ** The sections as edits *)

Definition keyed (i : inmemory) : Prop := ∀ k t, activeTimers i !! k = Some t → tkey t = k.

Lemma Create_edits ctxErr t i : keyed i →
  Create ctxErr t i =
    if ctxErr then (i, [])
    else match activeTimers i !! tkey t with
         | Some _ =>
           if (NextTick (tm_body t)).2 then (reg t (unreg (tkey t) (ttype t) i), [])
           else (unreg (tkey t) (ttype t) i, [UpdateActorTimers (takey t) (-1)])
         | None => if (NextTick (tm_body t)).2 then (reg t i, [UpdateActorTimers (takey t) 1]) else (i, [])
         end.
Proof.
  intros Hk. unfold Create. destruct ctxErr; [done|]. unfold get.
  destruct (activeTimers i !! tkey t) as [prev|] eqn:E.
  - rewrite (Hk _ _ E). destruct (NextTick _).2; unfold reg, unreg, seqp, when; cbn; done.
  - destruct (NextTick _).2; unfold reg, seqp, when; cbn; done.
Qed.

Lemma Delete_edits k i : keyed i →
  Delete k i =
    match activeTimers i !! k with
    | None => (i, [])
    | Some t => (unreg k (ttype t) i, [UpdateActorTimers (takey t) (-1)])
    end.
Proof.
  intros Hk. unfold Delete, get. destruct (activeTimers i !! k) as [t|] eqn:E; [|done].
  rewrite (Hk _ _ E). unfold unreg, seqp; cbn; done.
Qed.

(** Deleting by a predicate unregisters timers one after the other. *)
Lemma DeleteFunc_ind (P : inmemory → list store_effect → Prop) fn i :
  keyed i →
  (∀ i es k t, keyed i → P i es → activeTimers i !! k = Some t →
     P (unreg k (ttype t) i) (es ++ [UpdateActorTimers (takey t) (-1)])) →
  P i [] → P (DeleteFunc fn i).1 (DeleteFunc fn i).2.
Proof.
  intros Hk HP H0. unfold DeleteFunc, get.
  assert (∀ (l : list (string * timer)) i es, keyed i → NoDup l.*1 →
    (∀ k t, (k, t) ∈ l → activeTimers i !! k = Some t) → P i es →
    let r := for_each l (λ '(key, reminder),
      if negb (fn (ActorType (tm_body reminder)) (ActorID (tm_body reminder))) then skip
      else modify (λ i, set_active (delete key (activeTimers i)) i) ;;; Dequeue (tkey reminder) ;;;
           forget reminder) i in P r.1 (es ++ r.2)) as Hl.
  { clear i Hk H0. induction l as [|[k t] l IH]; intros i es Hk Hnd Hin Hi; simpl.
    - by rewrite app_nil_r.
    - apply list.NoDup_cons in Hnd as [Hnk Hnd]. rewrite seqp_eq. cbn [fst snd].
      assert (activeTimers i !! k = Some t) as Ht by (apply Hin; left).
      destruct (negb _).
      + cbn. apply (IH i es); try done. intros k' t' Hkt. apply Hin. by right.
      + assert ((modify (λ i, set_active (delete k (activeTimers i)) i) ;;; Dequeue (tkey t) ;;; forget t) i =
          (unreg k (ttype t) i, [UpdateActorTimers (takey t) (-1)])) as ->.
        { rewrite (Hk _ _ Ht). unfold unreg, forget, seqp; cbn. rewrite (Hk _ _ Ht). done. }
        cbn [fst snd]. rewrite (assoc_L (++)). apply IH; [|done| |by apply HP].
        * intros k' t'. rewrite unreg_active. intros [_ ?]%lookup_delete_Some. by apply Hk.
        * intros k' t' Hkt. rewrite unreg_active, lookup_delete_ne.
          -- apply Hin. by right.
          -- intros <-. apply Hnk. apply list_elem_of_fmap. by exists (k, t'). }
  apply (Hl (map_to_list (activeTimers i)) i []); [done|apply NoDup_fst_map_to_list| |done].
  intros k t. apply elem_of_map_to_list.
Qed.

Lemma dropTimer_edits t i :
  (same (activeTimers i !! tkey t) t = true → processor i !! tkey t = None) →
  dropTimer t i =
    if same (activeTimers i !! tkey t) t
    then (unreg (tkey t) (ttype t) i, [UpdateActorTimers (takey t) (-1)]) else (i, []).
Proof.
  intros Hq. unfold dropTimer, get, when. destruct (same _ _); [|done].
  specialize (Hq eq_refl). destruct i. unfold unreg, forget, seqp, set_processor; cbn in *.
  rewrite (delete_id _ _ Hq). by destruct (_ !! tkey t).
Qed.

Lemma advance_edits t next i :
  (with i do when (same (activeTimers i !! tkey t) t)
     (modify (λ i, set_active (<[tkey t := next]> (activeTimers i)) i) ;;; Enqueue next)) i =
    if same (activeTimers i !! tkey t) t then (advance (tkey t) next i, []) else (i, []).
Proof. unfold get, when. by destruct (same _ _). Qed.

(** ** Tables and fires *)

(** [n] bounds the identities in use, [F] are the fires that have left the queue
    and are not settled. *)
Record core (i : inmemory) (n : N) (F : list timer) : Prop := {
  c_key : keyed i;
  c_queue k t : processor i !! k = Some t → activeTimers i !! k = Some t;
  c_closed : processorClosed i = true → processor i = ∅ ∧ ctxCancelled i = true;
  c_removals k : is_Some (removals i !! k) ↔ is_Some (activeTimers i !! k);
  c_removal_live k r : removals i !! k = Some r → (r < nextRemoval i)%N ∧ r ∉ cancelled i;
  c_removal_inj k k' r : removals i !! k = Some r → removals i !! k' = Some r → k = k';
  c_cancelled r : r ∈ cancelled i → (r < nextRemoval i)%N;
  c_id_active k t : activeTimers i !! k = Some t → (tm_id t < n)%N;
  c_id_fire t : t ∈ F → (tm_id t < n)%N;
  c_inj k k' t t' : activeTimers i !! k = Some t → activeTimers i !! k' = Some t' → tm_id t = tm_id t' → k = k';
  c_same k c t : t ∈ F → activeTimers i !! k = Some c → tm_id c = tm_id t → c = t;
  c_nodup : NoDup (tm_id <$> F);
  c_disjoint k t u : processor i !! k = Some t → u ∈ F → tm_id t ≠ tm_id u;
  c_kept k t : ctxCancelled i = false → activeTimers i !! k = Some t → processor i !! k = Some t ∨ t ∈ F
}.

Lemma core_New : core New 0 [].
Proof. split; cbn; unfold keyed; intros; cbn in *; try done; try set_solver; try constructor; by intros [? ?]. Qed.

Lemma core_perm i n F F' : F ≡ₚ F' → core i n F → core i n F'.
Proof.
  intros Hp [ ]. split; try done.
  - intros t. rewrite <- Hp. auto.
  - intros k c t. rewrite <- Hp. eauto.
  - by rewrite <- Hp.
  - intros k t u. rewrite <- Hp. eauto.
  - intros k t. rewrite <- Hp. eauto.
Qed.

Lemma same_spec i n F t : core i n F → t ∈ F →
  if same (activeTimers i !! tkey t) t then activeTimers i !! tkey t = Some t
  else activeTimers i !! tkey t ≠ Some t.
Proof.
  intros Hc Ht. unfold same. destruct (activeTimers i !! tkey t) as [c|] eqn:E; [|done].
  destruct (tm_id c =? tm_id t)%N eqn:Hid.
  - apply N.eqb_eq in Hid. f_equal. by eapply c_same.
  - intros [= ->]. by rewrite N.eqb_refl in Hid.
Qed.

(** Edits keep the relation. *)

Lemma core_mono i n n' F : (n ≤ n')%N → core i n F → core i n' F.
Proof.
  intros Hn [ ]. split; try done; intros.
  - eapply N.lt_le_trans; eauto.
  - eapply N.lt_le_trans; eauto.
Qed.

Lemma core_states i n F m l c : core i n F → core (set_states m l c i) n F.
Proof. by intros [ ]; split. Qed.

Lemma core_unreg k ty i n F : core i n F → core (unreg k ty i) n F.
Proof.
  intros [Hk Hq Hcl Hr Hrl Hri Hca Hia Hif Hinj Hs Hnd Hd Hke].
  pose proof (unreg_same k ty i) as (E1 & E2 & _ & _ & _ & E3).
  split; unfold keyed; rewrite ?unreg_active, ?unreg_processor, ?unreg_removals, ?E1, ?E2, ?E3; try done.
  - intros k' t [_ H]%lookup_delete_Some. by apply Hk.
  - intros k' t [Hne H]%lookup_delete_Some. rewrite lookup_delete_ne by done. by apply Hq.
  - intros H. destruct (Hcl H) as [-> ?]. by rewrite delete_empty.
  - intros k'. destruct (decide (k = k')) as [<-|Hne]; [by rewrite !lookup_delete_eq|].
    rewrite !lookup_delete_ne by done. apply Hr.
  - intros k' r [Hne H]%lookup_delete_Some. destruct (Hrl _ _ H) as [H1 H2]. split; [done|].
    rewrite unreg_cancelled. intros [H'|H']; [|done]. by apply Hne, (Hri _ _ r).
  - intros k1 k2 r [_ H1]%lookup_delete_Some [_ H2]%lookup_delete_Some. eauto.
  - intros r. rewrite unreg_cancelled. intros [H|H]; [by eapply Hrl|by apply Hca].
  - intros k' t [_ H]%lookup_delete_Some. eauto.
  - intros k1 k2 t t' [_ H1]%lookup_delete_Some [_ H2]%lookup_delete_Some. eauto.
  - intros k' c t Ht [_ H]%lookup_delete_Some. eauto.
  - intros k' t u [_ H]%lookup_delete_Some. eauto.
  - intros k' t Hc [Hne H]%lookup_delete_Some. rewrite lookup_delete_ne by done. eauto.
Qed.

Lemma core_reg t i n F :
  core i n F → activeTimers i !! tkey t = None → tm_id t = n → core (reg t i) (n + 1)%N F.
Proof.
  intros Hc Hn Hid. pose proof (c_closed _ _ _ Hc) as Hcl. apply (core_mono _ _ (n + 1)) in Hc as Hc'; [|lia].
  destruct Hc' as [Hk Hq _ Hr Hrl Hri Hca Hia Hif Hinj Hs Hnd Hd Hke].
  pose proof (reg_same t i) as (E1 & E2 & E3 & _ & _ & _ & E4).
  assert (∀ k u, activeTimers i !! k = Some u → tm_id u ≠ tm_id t) as Hne
    by (intros k u Hu ?; pose proof (c_id_active _ _ _ Hc _ _ Hu); lia).
  assert (∀ u, u ∈ F → tm_id u ≠ tm_id t) as Hnf
    by (intros u Hu ?; pose proof (c_id_fire _ _ _ Hc _ Hu); lia).
  split; unfold keyed; rewrite ?reg_active, ?reg_processor, ?reg_removals, ?E1, ?E2, ?E3, ?E4; try done.
  - intros k u [[<- <-]|[_ H]]%lookup_insert_Some; [done|by apply Hk].
  - intros k u. destruct (processorClosed i) eqn:Epc.
    + destruct (Hcl eq_refl) as [-> _]. done.
    + intros [[<- <-]|[Hk' H]]%lookup_insert_Some; [by rewrite lookup_insert_eq|].
      rewrite lookup_insert_ne by done. by apply Hq.
  - intros H. rewrite H. by apply Hcl.
  - intros k. destruct (decide (tkey t = k)) as [<-|Hk']; [rewrite !lookup_insert_eq; by split|].
    rewrite !lookup_insert_ne by done. apply Hr.
  - intros k r [[<- <-]|[_ H]]%lookup_insert_Some.
    + split; [lia|]. intros H%Hca. lia.
    + destruct (Hrl _ _ H). split; [lia|done].
  - intros k k' r [[<- <-]|[H1 H]]%lookup_insert_Some [[<- H2]|[H2 H']]%lookup_insert_Some; try done; eauto.
    + apply Hrl in H' as [? _]. lia.
    + subst r. apply Hrl in H as [? _]. lia.
  - intros r H%Hca. lia.
  - intros k u [[<- <-]|[_ H]]%lookup_insert_Some; [lia|eauto].
  - intros k k' u u' [[<- <-]|[H1 H]]%lookup_insert_Some [[<- <-]|[H2 H']]%lookup_insert_Some He; try done; eauto.
    + by destruct (Hne _ _ H').
    + by destruct (Hne _ _ H).
  - intros k c u Hu [[<- <-]|[H1 H]]%lookup_insert_Some He; [by destruct (Hnf _ Hu)|eauto].
  - intros k u v. destruct (processorClosed i) eqn:Epc; [eauto|].
    intros [[<- <-]|[Hk' H]]%lookup_insert_Some Hv; [by apply not_eq_sym, Hnf|eauto].
  - intros k u Hx. destruct (processorClosed i) eqn:Epc; [destruct (Hcl eq_refl); congruence|].
    intros [[<- <-]|[Hk' H]]%lookup_insert_Some; [left; by rewrite lookup_insert_eq|].
    rewrite lookup_insert_ne by done. eauto.
Qed.

Lemma core_advance t next i n F :
  core i n (t :: F) → activeTimers i !! tkey t = Some t → tm_id next = n → tkey next = tkey t →
  core (advance (tkey t) next i) (n + 1)%N F.
Proof.
  intros Hc Ha Hid Hk0. pose proof (c_closed _ _ _ Hc) as Hcl. pose proof Hc as Hc'.
  destruct Hc' as [Hk Hq _ Hr Hrl Hri Hca Hia Hif Hinj Hs Hnd Hd Hke].
  pose proof (advance_same (tkey t) next i) as (E1 & E2 & E3 & E4 & _ & _ & _ & _ & E5).
  apply list.NoDup_cons in Hnd as [Hnt Hnd].
  split; unfold keyed; rewrite ?advance_active, ?advance_processor, ?Hk0, ?E1, ?E2, ?E3, ?E4, ?E5; try done.
  - intros k u [[<- <-]|[_ H]]%lookup_insert_Some; [done|by apply Hk].
  - intros k u. destruct (processorClosed i) eqn:Epc.
    + destruct (Hcl eq_refl) as [-> _]. done.
    + intros [[<- <-]|[Hk' H]]%lookup_insert_Some; [by rewrite lookup_insert_eq|].
      rewrite lookup_insert_ne by done. by apply Hq.
  - intros H. rewrite H. by apply Hcl.
  - intros k. rewrite Hr. destruct (decide (tkey t = k)) as [<-|Hk']; [|by rewrite lookup_insert_ne].
    rewrite Ha, lookup_insert_eq. by split.
  - intros k u [[<- <-]|[_ H]]%lookup_insert_Some; [lia|]. specialize (Hia _ _ H). lia.
  - intros u Hu. specialize (Hif u (list_elem_of_further _ _ _ Hu)). lia.
  - intros k k' u u' [[<- <-]|[H1 H]]%lookup_insert_Some [[<- <-]|[H2 H']]%lookup_insert_Some He; try done; eauto.
    + specialize (Hia _ _ H'). lia.
    + specialize (Hia _ _ H). lia.
  - intros k c u Hu [[<- <-]|[H1 H]]%lookup_insert_Some He.
    + specialize (Hif u (list_elem_of_further _ _ _ Hu)). lia.
    + eapply Hs; [by apply list_elem_of_further| |]; eauto.
  - intros k u v. destruct (processorClosed i) eqn:Epc; [intros ? ?; eapply Hd; eauto; by apply list_elem_of_further|].
    intros [[<- <-]|[Hk' H]]%lookup_insert_Some Hv.
    + specialize (Hif v (list_elem_of_further _ _ _ Hv)). lia.
    + eapply Hd; eauto; by apply list_elem_of_further.
  - intros k u Hx. destruct (processorClosed i) eqn:Epc; [destruct (Hcl eq_refl); congruence|].
    intros [[<- <-]|[Hk' H]]%lookup_insert_Some; [left; by rewrite lookup_insert_eq|].
    rewrite lookup_insert_ne by done. destruct (Hke k u Hx H) as [?|Hin]; [by left|right].
    apply elem_of_cons in Hin as [->|]; [|done]. by rewrite (Hk _ _ H) in Hk'.
Qed.

Lemma core_pop k t i n F :
  core i n F → processor i !! k = Some t →
  core (set_processor (delete k (processor i)) (processorClosed i) i) n (t :: F).
Proof.
  intros [Hk Hq Hcl Hr Hrl Hri Hca Hia Hif Hinj Hs Hnd Hd Hke] Ht. pose proof (Hq _ _ Ht) as Ha.
  split; cbn; try done.
  - intros k' u [_ H]%lookup_delete_Some. by apply Hq.
  - intros H. destruct (Hcl H) as [-> ?]. by rewrite delete_empty.
  - intros u [->|Hu]%elem_of_cons; eauto.
  - intros k' c u [->|Hu]%elem_of_cons Hc He; [|eauto].
    pose proof (Hinj _ _ _ _ Hc Ha He) as ->. congruence.
  - apply list.NoDup_cons. split; [|done]. intros (u & Hid & Hu)%list_elem_of_fmap. by apply (Hd _ _ u Ht).
  - intros k' u v [Hne H]%lookup_delete_Some [->|Hv]%elem_of_cons; [|eauto].
    intros He. by apply Hne, (Hinj _ _ _ _ Ha (Hq _ _ H)).
  - intros k' u Hx H. destruct (Hke _ _ Hx H) as [H'|H']; [|right; by right].
    destruct (decide (k = k')) as [<-|Hne]; [|left; by rewrite lookup_delete_ne].
    right. assert (u = t) as -> by congruence. left.
Qed.

Lemma core_drop t i n F :
  core i n (t :: F) → (ctxCancelled i = true ∨ activeTimers i !! tkey t ≠ Some t) → core i n F.
Proof.
  intros [Hk Hq Hcl Hr Hrl Hri Hca Hia Hif Hinj Hs Hnd Hd Hke] Ht.
  apply list.NoDup_cons in Hnd as [Hnt Hnd]. split; try done; intros; eauto using list_elem_of_further.
  destruct (Hke k t0) as [?|Hin]; [done..|by left|right]. apply elem_of_cons in Hin as [->|]; [|done].
  destruct Ht as [Ht|Ht]; [congruence|]. match goal with H : activeTimers i !! k = _ |- _ => by rewrite (Hk _ _ H) in Ht end.
Qed.

Lemma core_cancel i n F : core i n F → core (set_ctxCancelled i) n F.
Proof. intros [ ]. split; cbn; try done. intros H. split; [by apply c_closed0|done]. Qed.

Lemma core_close i n F : ctxCancelled i = true → core i n F → core (set_processor ∅ true i) n F.
Proof. intros Hx [ ]. split; cbn; try done. intros k t. congruence. Qed.

(** ** The fires of the machine *)

Definition is_live (ph : phase) : bool := match ph with PDone => false | _ => true end.

Definition loop_fires (lp : loop) : list timer :=
  lp_queue lp ++ match lp_run lp with Some (t, ph) => if is_live ph then [t] else [] | None => [] end.

(** All fires on a loop, also the one that is only to be counted as done. *)
Definition loop_all (lp : loop) : list timer :=
  lp_queue lp ++ match lp_run lp with Some (t, _) => [t] | None => [] end.

Definition gather (g : loop → list timer) (ls : gmap N loop) : list timer :=
  (map_to_list ls).*2 ≫= g.

Definition fires (s : sys) : list timer :=
  popped s ++ (routed s).*1 ++ gather loop_fires (loops s).

Section gather.
Context (g : loop → list timer).

Lemma gather_delete ls l lp : ls !! l = Some lp → gather g ls ≡ₚ g lp ++ gather g (delete l ls).
Proof. intros Hl. unfold gather. by rewrite <- (map_to_list_delete ls l lp Hl). Qed.

Lemma gather_insert ls l lp : gather g (<[l := lp]> ls) ≡ₚ g lp ++ gather g (delete l ls).
Proof.
  rewrite (gather_delete _ l lp) by apply lookup_insert_eq. by rewrite delete_insert_eq.
Qed.

Lemma gather_new ls l lp : ls !! l = None → gather g (<[l := lp]> ls) ≡ₚ g lp ++ gather g ls.
Proof. intros Hl. rewrite gather_insert. by rewrite delete_id. Qed.

Lemma gather_elem ls t : t ∈ gather g ls ↔ ∃ l lp, ls !! l = Some lp ∧ t ∈ g lp.
Proof.
  unfold gather. rewrite list_elem_of_bind. split.
  - intros (lp & Ht & Hlp). apply list_elem_of_fmap in Hlp as ([l lp'] & -> & Hl).
    apply elem_of_map_to_list in Hl. eauto.
  - intros (l & lp & Hl & Ht). exists lp. split; [done|].
    apply list_elem_of_fmap. exists (l, lp). split; [done|]. by apply elem_of_map_to_list.
Qed.

(** Closing loops leaves their fires. *)
Lemma gather_close ls l : (∀ lp, g (close_loop lp) = g lp) → gather g (alter close_loop l ls) ≡ₚ gather g ls.
Proof.
  intros Hg. destruct (ls !! l) as [lp|] eqn:E.
  - replace (alter close_loop l ls) with (<[l := close_loop lp]> ls).
    + rewrite gather_insert, Hg. by rewrite <- gather_delete.
    + apply map_eq. intros l'. destruct (decide (l = l')) as [<-|Hne].
      * by rewrite lookup_insert_eq, lookup_alter_eq, E.
      * by rewrite lookup_insert_ne, lookup_alter_ne.
  - rewrite alter_id; [done|]. intros lp. by rewrite E.
Qed.

Definition is_close (e : store_effect) : Prop := match e with CloseLoop _ => True | _ => False end.

Lemma gather_closes es ls : (∀ lp, g (close_loop lp) = g lp) → Forall is_close es →
  gather g (fold_left apply_effect es ls) ≡ₚ gather g ls.
Proof.
  intros Hg Hes. revert ls. induction Hes as [|e es He Hes IH]; intros ls; [done|]. simpl. rewrite IH.
  destruct e; try done. by apply gather_close.
Qed.

End gather.

(** The sections under actorStatesLock touch the actor states and close loops. *)
Definition states_only (p : prog inmemory store_effect) : Prop :=
  ∀ i, Forall is_close (p i).2 ∧ ∃ m, (p i).1 = set_states m (nextLoop i) (closed i) i.

Lemma set_states_id i : i = set_states (actorStates i) (nextLoop i) (closed i) i.
Proof. by destruct i. Qed.

Lemma put_reap_states k st : states_only (putState k st ;;; maybeReapLocked k st).
Proof.
  intros i. rewrite seqp_eq. unfold maybeReapLocked. destruct (_ || _).
  - cbn. split; [constructor|]. by eexists.
  - rewrite seqp_eq. destruct (as_loop st); cbn; (split; [repeat constructor|by eexists]).
Qed.

Lemma updateActorTimers_states k d : states_only (updateActorTimers k d).
Proof.
  intros i. unfold updateActorTimers, get. destruct (actorStates i) as [m|] eqn:E.
  - destruct (m !! k) as [st|]; [apply put_reap_states|]. destruct (d <=? 0)%Z; [|apply put_reap_states].
    cbn. split; [constructor|]. eexists. apply set_states_id.
  - cbn. split; [constructor|]. eexists. apply set_states_id.
Qed.

Lemma fireDone_states k : states_only (fireDone k).
Proof.
  intros i. unfold fireDone, get. destruct (_ ≫= _); [apply put_reap_states|].
  cbn. split; [constructor|]. eexists. apply set_states_id.
Qed.

(** ** What a running callback has been told *)

Definition told (i : inmemory) (t : timer) (rm : option N) : Prop :=
  (activeTimers i !! tkey t = Some t ∧ removals i !! tkey t = rm ∧ is_Some rm) ∨
  (activeTimers i !! tkey t ≠ Some t ∧ ∃ r, rm = Some r ∧ r ∈ cancelled i).

Definition run_ok (i : inmemory) (t : timer) (ph : phase) : Prop :=
  match ph with
  | PCall rm => told i t rm
  | PReturned (Some ErrTimerFireStale) => activeTimers i !! tkey t ≠ Some t
  | _ => True
  end.

Lemma run_ok_unreg k ty i t ph : run_ok i t ph → run_ok (unreg k ty i) t ph.
Proof.
  assert (activeTimers i !! tkey t ≠ Some t → activeTimers (unreg k ty i) !! tkey t ≠ Some t) as Hm.
  { rewrite unreg_active. intros Hn [_ ?]%lookup_delete_Some. done. }
  destruct ph as [|rm|[[]|]|]; unfold run_ok; try done. intros [(Ha & Hr & [r ->])|(Hn & r & -> & Hr)].
  - unfold told. rewrite unreg_active, unreg_removals. destruct (decide (k = tkey t)) as [->|Hne].
    + right. rewrite lookup_delete_eq. split; [done|]. exists r. rewrite unreg_cancelled. auto.
    + left. by rewrite !lookup_delete_ne.
  - right. split; [by apply Hm|]. exists r. rewrite unreg_cancelled. auto.
Qed.

Lemma run_ok_reg u i t ph :
  activeTimers i !! tkey u = None → tm_id t ≠ tm_id u → run_ok i t ph → run_ok (reg u i) t ph.
Proof.
  intros Hu Hid. pose proof (reg_same u i) as (_ & _ & E & _).
  assert (activeTimers i !! tkey t ≠ Some t → activeTimers (reg u i) !! tkey t ≠ Some t) as Hm.
  { rewrite reg_active. intros Hn [[_ Hx]|[_ ?]]%lookup_insert_Some; [by subst|done]. }
  destruct ph as [|rm|[[]|]|]; unfold run_ok; try done. intros [(Ha & Hr & [r ->])|(Hn & r & -> & Hr)].
  - left. rewrite reg_active, reg_removals. assert (tkey u ≠ tkey t) by congruence. by rewrite !lookup_insert_ne.
  - right. split; [by apply Hm|]. exists r. by rewrite E.
Qed.

Lemma run_ok_advance v next i t ph :
  activeTimers i !! tkey v = Some v → tm_id t ≠ tm_id v → tm_id t ≠ tm_id next →
  run_ok i t ph → run_ok (advance (tkey v) next i) t ph.
Proof.
  intros Hv Hid Hid'. pose proof (advance_same (tkey v) next i) as (_ & _ & E & E' & _).
  assert (activeTimers i !! tkey t ≠ Some t → activeTimers (advance (tkey v) next i) !! tkey t ≠ Some t) as Hm.
  { rewrite advance_active. intros Hn [[_ Hx]|[_ ?]]%lookup_insert_Some; [by subst|done]. }
  destruct ph as [|rm|[[]|]|]; unfold run_ok; try done. intros [(Ha & Hr & [r ->])|(Hn & r & -> & Hr)].
  - left. rewrite advance_active, E'. assert (tkey v ≠ tkey t) by (intros He; rewrite He in Hv; congruence).
    by rewrite !lookup_insert_ne.
  - right. split; [by apply Hm|]. exists r. by rewrite E.
Qed.

Lemma run_ok_same i i' t ph :
  activeTimers i' = activeTimers i → removals i' = removals i → cancelled i' = cancelled i →
  run_ok i t ph → run_ok i' t ph.
Proof. intros E1 E2 E3. destruct ph as [|rm|[[]|]|]; unfold run_ok, told; by rewrite ?E1, ?E2, ?E3. Qed.

(** ** The invariant of the machine *)

Record inv (s : sys) : Prop := {
  v_core : core (store s) (nextTimer s) (fires s);
  v_run l lp t ph : loops s !! l = Some lp → lp_run lp = Some (t, ph) → run_ok (store s) t ph;
  v_fresh l lp : loops s !! l = Some lp → (l < nextLoop (store s))%N
}.

Lemma inv_init : inv init.
Proof. split; [exact core_New|done..]. Qed.

Lemma run_fire s l lp t ph :
  loops s !! l = Some lp → lp_run lp = Some (t, ph) → is_live ph = true → t ∈ fires s.
Proof.
  intros Hl Hr Hp. unfold fires. apply elem_of_app. right. apply elem_of_app. right.
  apply gather_elem. exists l, lp. split; [done|]. unfold loop_fires. rewrite Hr, Hp. set_solver.
Qed.

(** A loop is changed. *)
Lemma fires_set_loop s l lp lp' : loops s !! l = Some lp →
  ∃ R, fires s ≡ₚ loop_fires lp ++ R ∧ fires (set_loop l lp' s) ≡ₚ loop_fires lp' ++ R.
Proof.
  intros Hl. exists (popped s ++ (routed s).*1 ++ gather loop_fires (delete l (loops s))). unfold fires. cbn.
  rewrite gather_insert, (gather_delete _ _ _ _ Hl). split; solve_Permutation.
Qed.

Lemma inv_set_loop s l lp lp' : inv s → loops s !! l = Some lp →
  core (store s) (nextTimer s) (fires (set_loop l lp' s)) →
  (∀ t ph, lp_run lp' = Some (t, ph) → run_ok (store s) t ph) → inv (set_loop l lp' s).
Proof.
  intros [Hc Hr Hf] Hl Hc' Hr'. split; [done|..]; cbn.
  - intros l1 lp1 t ph [[<- <-]|[_ ?]]%lookup_insert_Some; [apply Hr'|by eapply Hr].
  - intros l1 lp1 [[<- <-]|[_ ?]]%lookup_insert_Some; by eapply Hf.
Qed.

(** The fires of the loop stay. *)
Lemma inv_move s l lp lp' : inv s → loops s !! l = Some lp → loop_fires lp ≡ₚ loop_fires lp' →
  (∀ t ph, lp_run lp' = Some (t, ph) → run_ok (store s) t ph) → inv (set_loop l lp' s).
Proof.
  intros Hi Hl Hp. apply inv_set_loop with (lp := lp); [done..|].
  destruct (fires_set_loop s l lp lp' Hl) as (R & H1 & H2).
  eapply core_perm; [|apply (v_core _ Hi)]. by rewrite H1, H2, Hp.
Qed.

(** A fire of the loop ends without its section: the store is closing, or the
    timer is not registered. *)
Lemma inv_end s l lp lp' t : inv s → loops s !! l = Some lp → loop_fires lp ≡ₚ t :: loop_fires lp' →
  (ctxCancelled (store s) = true ∨ activeTimers (store s) !! tkey t ≠ Some t) →
  (∀ u ph, lp_run lp' = Some (u, ph) → run_ok (store s) u ph) → inv (set_loop l lp' s).
Proof.
  intros Hi Hl Hp Ht. apply inv_set_loop with (lp := lp); [done..|].
  destruct (fires_set_loop s l lp lp' Hl) as (R & H1 & H2).
  apply (core_perm _ _ (loop_fires lp' ++ R)); [by symmetry|]. apply (core_drop t); [|done].
  eapply core_perm; [|apply (v_core _ Hi)]. by rewrite H1, Hp.
Qed.

(** A section under queueLock. *)
Lemma inv_section who p s : inv s →
  core (p (store s)).1 (nextTimer s + 1) (fires s) →
  (∀ t ph, t ∈ fires s → run_ok (store s) t ph → run_ok (p (store s)).1 t ph) →
  nextLoop (p (store s)).1 = nextLoop (store s) →
  inv (section who p s).
Proof.
  intros [Hc Hr Hf] Hp Hro Hn. unfold section. cbn. destruct (p (store s)) as [i es]; cbn in *.
  split; cbn; [done| |intros; rewrite Hn; eauto].
  intros l lp t ph Hl Hrun. destruct (is_live ph) eqn:Eph; [|by destruct ph].
  apply Hro; [|by eapply Hr]. by eapply run_fire.
Qed.

(** Closing loops. *)
Lemma closes_lookup es ls l lp : Forall is_close es → fold_left apply_effect es ls !! l = Some lp →
  ∃ lp0, ls !! l = Some lp0 ∧ lp_queue lp = lp_queue lp0 ∧ lp_run lp = lp_run lp0 ∧
    (lp_closing lp = false → lp_closing lp0 = false).
Proof.
  intros Hes. revert ls. induction Hes as [|e es He Hes IH]; intros ls; simpl; [by eauto|].
  intros (lp0 & Hl & Hq & Hr & Hc)%IH. destruct e as [| |l']; try done. cbn in Hl.
  rewrite lookup_alter in Hl. case_decide; [subst l'|by eauto].
  destruct (ls !! l) as [lp1|]; [|done]. injection Hl as <-. cbn in *. exists lp1. split_and!; try done.
  intros H1. by specialize (Hc H1).
Qed.

Lemma inv_states_section p s : states_only p → inv s → inv (states_section p s).
Proof.
  intros Hp [Hc Hr Hf]. unfold states_section. destruct (Hp (store s)) as [He (m & Hm)].
  destruct (p (store s)) as [i es]; cbn in *. subst i. split; cbn.
  - apply core_states. eapply core_perm; [|exact Hc]. unfold fires. cbn. by rewrite (gather_closes loop_fires).
  - intros l lp t ph (lp0 & Hl & _ & Hr0 & _)%closes_lookup Hrun; [|done]. rewrite Hr0 in Hrun.
    eapply run_ok_same; [..|by eapply Hr]; done.
  - intros l lp (lp0 & Hl & _)%closes_lookup; [|done]. by eapply Hf.
Qed.

(** ** Every step keeps it *)

(** What sections under queueLock leave alone. *)
Definition frame (i i' : inmemory) : Prop :=
  nextLoop i' = nextLoop i ∧ actorStates i' = actorStates i ∧ closed i' = closed i ∧
  ctxCancelled i' = ctxCancelled i.

Lemma frame_trans i1 i2 i3 : frame i1 i2 → frame i2 i3 → frame i1 i3.
Proof. intros (? & ? & ? & ?) (? & ? & ? & ?). split_and!; congruence. Qed.

Lemma frame_unreg k ty i : frame i (unreg k ty i).
Proof. pose proof (unreg_same k ty i) as (_ & _ & ? & ? & ? & ?). by split_and!. Qed.

Lemma frame_reg t i : frame i (reg t i).
Proof. pose proof (reg_same t i) as (_ & _ & _ & ? & ? & ? & ?). by split_and!. Qed.

Lemma frame_advance k t i : frame i (advance k t i).
Proof. pose proof (advance_same k t i) as (_ & _ & _ & _ & _ & ? & ? & ? & ?). by split_and!. Qed.

(** What a section does to the store of a state that satisfies the invariant. *)
Definition section_ok (p : prog inmemory store_effect) (i : inmemory) (n : N) (F : list timer) : Prop :=
  core (p i).1 (n + 1) F ∧ (∀ u ph, u ∈ F → run_ok i u ph → run_ok (p i).1 u ph) ∧
  frame i (p i).1.

Lemma section_ok_skip p i n F : core i n F → (p i).1 = i → section_ok p i n F.
Proof. intros Hc E. unfold section_ok. rewrite E. split; [|done]. eapply core_mono; [|exact Hc]. lia. Qed.

Lemma section_ok_unreg p i n F k ty : core i n F → (p i).1 = unreg k ty i → section_ok p i n F.
Proof.
  intros Hc E. unfold section_ok. rewrite E. split; [|split].
  - eapply core_mono, core_unreg, Hc. lia.
  - intros u ph _. apply run_ok_unreg.
  - apply frame_unreg.
Qed.

Lemma section_ok_reg p i n F t j : core i n F → (p i).1 = reg t j → tm_id t = n →
  (i = j ∧ activeTimers i !! tkey t = None ∨ ∃ ty, j = unreg (tkey t) ty i) → section_ok p i n F.
Proof.
  intros Hc E Hid Hj.
  assert (core j n F ∧ activeTimers j !! tkey t = None ∧ frame i j ∧
    ∀ u ph, run_ok i u ph → run_ok j u ph) as (Hcj & Hn & Hl & Hro).
  { destruct Hj as [[<- Hn]|[ty ->]]; [done|]. split_and!.
    - by apply core_unreg.
    - rewrite unreg_active. by rewrite lookup_delete_eq.
    - apply frame_unreg.
    - intros u ph. apply run_ok_unreg. }
  unfold section_ok. rewrite E. split; [by apply core_reg|split].
  - intros u ph Hu Hr. apply run_ok_reg; [done| |by apply Hro].
    pose proof (c_id_fire _ _ _ Hc _ Hu). lia.
  - eapply frame_trans; [exact Hl|apply frame_reg].
Qed.

Lemma Create_ok ctxErr t i n F : core i n F → tm_id t = n → section_ok (Create ctxErr t) i n F.
Proof.
  intros Hc Hid. pose proof (Create_edits ctxErr t i (c_key _ _ _ Hc)) as E.
  destruct ctxErr; [apply section_ok_skip; by rewrite ?E|].
  destruct (activeTimers i !! tkey t) as [prev|] eqn:Ea; destruct (NextTick (tm_body t)).2.
  - eapply section_ok_reg; [done|by rewrite E|done|right; by eexists].
  - eapply section_ok_unreg; [done|by rewrite E].
  - eapply section_ok_reg; [done|by rewrite E|done|by left].
  - apply section_ok_skip; by rewrite ?E.
Qed.

Lemma Delete_ok k i n F : core i n F → section_ok (Delete k) i n F.
Proof.
  intros Hc. pose proof (Delete_edits k i (c_key _ _ _ Hc)) as E. destruct (activeTimers i !! k).
  - eapply section_ok_unreg; [done|by rewrite E].
  - apply section_ok_skip; by rewrite ?E.
Qed.

Lemma DeleteFunc_ok fn i n F : core i n F → section_ok (DeleteFunc fn) i n F.
Proof.
  intros Hc. apply (core_mono _ _ (n + 1)) in Hc as Hc1; [|lia]. unfold section_ok.
  apply (DeleteFunc_ind (λ j _, core j (n + 1) F ∧ (∀ u ph, u ∈ F → run_ok i u ph → run_ok j u ph) ∧
    frame i j)); [by apply (c_key _ _ _ Hc)| |done].
  intros j es k t _ (H1 & H2 & H3) _. split_and!.
  - by apply core_unreg.
  - intros u ph Hu Hr. apply run_ok_unreg. auto.
  - eapply frame_trans; [exact H3|apply frame_unreg].
Qed.

(** The fire being settled, its timer is not in the queue. *)
Lemma dropTimer_eq t i n F : core i n (t :: F) →
  dropTimer t i =
    if same (activeTimers i !! tkey t) t
    then (unreg (tkey t) (ttype t) i, [UpdateActorTimers (takey t) (-1)]) else (i, []).
Proof.
  intros Hc. apply dropTimer_edits. intros Hs.
  pose proof (same_spec _ _ _ t Hc (list_elem_of_here _ _)) as Ht. rewrite Hs in Ht.
  destruct (processor i !! tkey t) as [u|] eqn:Eq; [|done]. pose proof (c_queue _ _ _ Hc _ _ Eq).
  destruct (c_disjoint _ _ _ Hc _ _ t Eq (list_elem_of_here _ _)). congruence.
Qed.

Lemma dropTimer_ok t i n F : core i n (t :: F) →
  section_ok (dropTimer t) i n (t :: F) ∧ activeTimers (dropTimer t i).1 !! tkey t ≠ Some t.
Proof.
  intros Hc. pose proof (same_spec _ _ _ t Hc (list_elem_of_here _ _)) as Hs.
  pose proof (dropTimer_eq _ _ _ _ Hc) as E. destruct (same _ _); rewrite E; split; try done.
  - eapply section_ok_unreg; [done|]. by rewrite E.
  - cbn [fst]. by rewrite unreg_active, lookup_delete_eq.
  - apply section_ok_skip; [done|]. by rewrite E.
Qed.

Lemma TickExecuted_key r : Key (TickExecuted r).1 = Key r ∧ Reminder_ActorKey (TickExecuted r).1 = Reminder_ActorKey r ∧
  ActorType (TickExecuted r).1 = ActorType r ∧ ActorID (TickExecuted r).1 = ActorID r.
Proof. unfold TickExecuted. by destruct (negb _). Qed.

Lemma reschedule_None t next_id err : reschedule t next_id err = None → err = Some ErrTimerFireStale.
Proof. unfold reschedule. destruct err as [[]|]; try done; by destruct (TickExecuted (tm_body t)). Qed.

(** The section after a callback: the fire is settled. *)
Lemma reschedule_ok t next_id err p i n R :
  reschedule t next_id err = Some p → next_id = n → core i n (t :: R) →
  core (p i).1 (n + 1) R ∧ (∀ u ph, u ∈ R → run_ok i u ph → run_ok (p i).1 u ph) ∧
  frame i (p i).1.
Proof.
  intros Hp Hn Hc.
  assert (p = dropTimer t → core (p i).1 (n + 1) R ∧ (∀ u ph, u ∈ R → run_ok i u ph → run_ok (p i).1 u ph) ∧
    frame i (p i).1) as Hdrop.
  { intros ->. destruct (dropTimer_ok t i n R Hc) as [(H1 & H2 & H3) H4]. split_and!; [|set_solver|done].
    apply (core_drop t); [done|by right]. }
  unfold reschedule in Hp. pose proof (TickExecuted_key (tm_body t)) as (Hk & _).
  destruct err as [[]|]; try done; try (apply Hdrop; congruence).
  all: destruct (TickExecuted (tm_body t)) as [body done] eqn:Et; injection Hp as <-; cbn in Hk.
  all: destruct (done || _); [by apply Hdrop|].
  all: rewrite (advance_edits t _ i); pose proof (same_spec _ _ _ t Hc (list_elem_of_here _ _)) as Hs.
  all: destruct (same _ _); cbn [fst].
  all: try (split_and!; [|done..]; apply (core_drop t); [|by right]; eapply core_mono; [|exact Hc]; lia).
  all: split_and!; [by apply core_advance| |apply frame_advance].
  all: intros u ph Hu Hr; pose proof (c_nodup _ _ _ Hc) as Hnd; apply list.NoDup_cons in Hnd as [Hnt _].
  all: apply run_ok_advance; [done|intros He; apply Hnt; rewrite <- He; by apply list_elem_of_fmap_2| |done].
  all: pose proof (c_id_fire _ _ _ Hc u ltac:(by right)); cbn; lia.
Qed.

Lemma inv_section_ok who p s : inv s → section_ok p (store s) (nextTimer s) (fires s) →
  inv (section who p s).
Proof. intros Hi (H1 & H2 & H3 & _). by apply inv_section. Qed.

Lemma run_phase_Some l s lp t ph : run_phase l s = Some (lp, t, ph) →
  loops s !! l = Some lp ∧ lp_run lp = Some (t, ph).
Proof.
  unfold run_phase. intros H. apply bind_Some in H as (lp' & Hl & H). apply bind_Some in H as ([t' ph'] & Hr & H).
  by simplify_eq.
Qed.

Lemma live_split lp t ph : lp_run lp = Some (t, ph) → is_live ph = true →
  loop_fires lp ≡ₚ t :: loop_fires (in_phase t PDone lp).
Proof. intros Hr Hp. unfold loop_fires, in_phase. cbn. rewrite Hr, Hp, app_nil_r. solve_Permutation. Qed.

Lemma live_keep lp t ph ph' : lp_run lp = Some (t, ph) → is_live ph = true → is_live ph' = true →
  loop_fires lp ≡ₚ loop_fires (in_phase t ph' lp).
Proof. intros Hr Hp Hp'. unfold loop_fires, in_phase. cbn. by rewrite Hr, Hp, Hp'. Qed.

Lemma inv_settle l lp t err p s : inv s → loops s !! l = Some lp → lp_run lp = Some (t, PReturned err) →
  reschedule t (nextTimer s) err = Some p → inv (set_loop l (in_phase t PDone lp) (section (Some l) p s)).
Proof.
  intros Hi Hl Hr Hp. destruct (fires_set_loop s l lp (in_phase t PDone lp) Hl) as (R & H1 & H2).
  pose proof (live_split _ _ _ Hr eq_refl) as H3.
  assert (core (store s) (nextTimer s) (t :: loop_fires (in_phase t PDone lp) ++ R)) as Hc.
  { eapply core_perm; [|apply (v_core _ Hi)]. by rewrite H1, H3. }
  destruct (reschedule_ok _ _ _ _ _ _ _ Hp eq_refl Hc) as (Hc' & Hro & Hn & _).
  unfold section. destruct (p (store s)) as [i es]; cbn in *. destruct Hi as [_ Hrun Hf]. split; cbn.
  - eapply core_perm; [|exact Hc']. symmetry. etrans; [|exact H2]. done.
  - intros l1 lp1 u ph [[<- <-]|[Hne Hl1]]%lookup_insert_Some Hu; [by injection Hu as <- <-|].
    destruct (is_live ph) eqn:Eph; [|by destruct ph]. apply Hro; [|by eapply Hrun].
    rewrite <- H2. unfold fires. cbn. apply elem_of_app; right. apply elem_of_app; right.
    apply gather_elem. exists l1, lp1. rewrite lookup_insert_ne by done. split; [done|].
    unfold loop_fires. rewrite Hu, Eph. set_solver.
  - intros l1 lp1 [[<- <-]|[_ ?]]%lookup_insert_Some; rewrite Hn; by eapply Hf.
Qed.

Lemma delete_fires {A} (l : list A) n x : l !! n = Some x → l ≡ₚ x :: delete n l.
Proof. apply delete_Permutation. Qed.

Lemma inv_due k t s : inv s → processor (store s) !! k = Some t →
  inv (set_fires (popped s ++ [t]) (routed s)
         (set_store (set_processor (delete k (processor (store s))) (processorClosed (store s)) (store s)) s)).
Proof.
  intros [Hc Hr Hf] Ht. split; cbn; [|intros; eapply run_ok_same; [..|by eapply Hr]; done|done].
  eapply core_perm; [|by apply (core_pop k t), Ht]. unfold fires. cbn. solve_Permutation.
Qed.

Lemma timers_inv_enqueue n t l lp s : inv s → routed s !! n = Some (t, l) → loops s !! l = Some lp →
  inv (set_loop l {| lp_queue := lp_queue lp ++ [t]; lp_run := lp_run lp; lp_closing := false |}
         (set_fires (popped s) (delete n (routed s)) s)).
Proof.
  intros [Hc Hr Hf] Hn Hl. split; cbn.
  - eapply core_perm; [|exact Hc]. unfold fires. cbn. rewrite gather_insert, (gather_delete _ _ _ _ Hl).
    rewrite (delete_fires _ _ _ Hn) at 1. unfold loop_fires. cbn. solve_Permutation.
  - intros l1 lp1 u ph [[<- <-]|[_ ?]]%lookup_insert_Some; [cbn|]; by eapply Hr.
  - intros l1 lp1 [[<- <-]|[_ ?]]%lookup_insert_Some; by eapply Hf.
Qed.

(** A fire that is lost on the way; only where the store is closed. *)
Lemma inv_lose_popped n t s : inv s → popped s !! n = Some t → ctxCancelled (store s) = true →
  inv (set_fires (delete n (popped s)) (routed s) s).
Proof.
  intros [Hc Hr Hf] Hn Hx. split; cbn; [|done..]. apply (core_drop t); [|by left].
  eapply core_perm; [|exact Hc]. unfold fires. cbn. by rewrite (delete_fires _ _ _ Hn) at 1.
Qed.

Lemma inv_lose_routed n t l s : inv s → routed s !! n = Some (t, l) → ctxCancelled (store s) = true →
  inv (set_fires (popped s) (delete n (routed s)) s).
Proof.
  intros [Hc Hr Hf] Hn Hx. split; cbn; [|done..]. apply (core_drop t); [|by left].
  eapply core_perm; [|exact Hc]. unfold fires. cbn. rewrite (delete_fires _ _ _ Hn) at 1. cbn. solve_Permutation.
Qed.

(** Routing a fire: to the loop of its actor, or a new one. *)
Lemma inv_route n t s m l nl es : inv s → popped s !! n = Some t →
  (es = [] ∧ nl = nextLoop (store s) ∨ es = [NewLoop (nextLoop (store s))] ∧ nl = (nextLoop (store s) + 1)%N) →
  inv {| store := set_states m nl (closed (store s)) (store s); nextTimer := nextTimer s;
         queueLock := queueLock s; popped := delete n (popped s); routed := routed s ++ [(t, l)];
         loops := fold_left apply_effect es (loops s) |}.
Proof.
  intros [Hc Hr Hf] Hn Hes.
  assert (core (set_states m nl (closed (store s)) (store s)) (nextTimer s)
    (delete n (popped s) ++ (routed s ++ [(t, l)]).*1 ++ gather loop_fires (loops s))) as Hc'.
  { apply core_states. eapply core_perm; [|exact Hc]. unfold fires. rewrite (delete_fires _ _ _ Hn) at 1.
    rewrite fmap_app. cbn. solve_Permutation. }
  destruct Hes as [[-> ->]|[-> ->]]; split; cbn; try done.
  - eapply core_perm; [|exact Hc']. unfold fires. cbn. rewrite gather_new; [done|].
    destruct (loops s !! nextLoop (store s)) as [lp|] eqn:E; [|done]. apply Hf in E. lia.
  - intros l1 lp1 u ph [[<- <-]|[_ ?]]%lookup_insert_Some; [done|].
    intros. eapply run_ok_same; [..|by eapply Hr]; done.
  - intros l1 lp1 [[<- <-]|[_ H]]%lookup_insert_Some; [lia|]. apply Hf in H. lia.
Qed.

Lemma inv_stop l s lp : inv s → loops s !! l = Some lp → lp_run lp = None → lp_queue lp = [] →
  inv {| store := store s; nextTimer := nextTimer s; queueLock := queueLock s;
         popped := popped s; routed := routed s; loops := delete l (loops s) |}.
Proof.
  intros [Hc Hr Hf] Hl Hrun Hq. split; cbn.
  - eapply core_perm; [|exact Hc]. unfold fires. cbn. rewrite (gather_delete _ _ _ _ Hl). unfold loop_fires.
    by rewrite Hrun, Hq.
  - intros l1 lp1 u ph [_ ?]%lookup_delete_Some. by eapply Hr.
  - intros l1 lp1 [_ ?]%lookup_delete_Some. by eapply Hf.
Qed.
