(* ===== verification/TimersLoops.v ===== *)
(** * Actor timers: the loops of the actors

    How the states of the actors, the loops and the fires on their way to them
    belong together ([linked]), and that they do in every state of the machine
    ([reachable_links]): the loop of an actor is open, holds the fires of that actor
    only, and the pending count of the actor is the number of its fires. *)

From S2P Require Import Prelude GoDate Timers TimersInv.

Local Open Scope dapr_scope.

(** A fire is on its way to, or on, a loop. *)
Definition on (rt : list (timer * N)) (ls : gmap N loop) (l : N) (t : timer) : Prop :=
  (t, l) ∈ rt ∨ ∃ lp, ls !! l = Some lp ∧ t ∈ loop_all lp.

Definition pending_fires (rt : list (timer * N)) (ls : gmap N loop) : list timer :=
  rt.*1 ++ gather loop_all ls.

Definition fires_of (a : string) (F : list timer) : Z := Z.of_nat (length (filter (λ t, takey t = a) F)).

Definition pending_of (m : gmap string actorState) (a : string) : Z := default 0%Z (as_pending <$> m !! a).

Record linked (m : gmap string actorState) (ls : gmap N loop) (rt : list (timer * N)) : Prop := {
  k_loop a st l : m !! a = Some st → as_loop st = Some l → ∃ lp, ls !! l = Some lp ∧ lp_closing lp = false;
  k_inj a a' st st' l : m !! a = Some st → m !! a' = Some st' → as_loop st = Some l → as_loop st' = Some l → a = a';
  k_fire l t : on rt ls l t → ∃ st, m !! takey t = Some st ∧ as_loop st = Some l;
  k_open l lp : ls !! l = Some lp → lp_closing lp = false → ∃ a st, m !! a = Some st ∧ as_loop st = Some l;
  k_pending a : pending_of m a = fires_of a (pending_fires rt ls)
}.

Definition busy (st : actorState) : bool := (0 <? as_timers st)%Z || (0 <? as_pending st)%Z.

Lemma fires_of_perm a F F' : F ≡ₚ F' → fires_of a F = fires_of a F'.
Proof. intros Hp. unfold fires_of. by rewrite Hp. Qed.

Lemma fires_of_cons a t F : fires_of a (t :: F) = ((if decide (takey t = a) then 1 else 0) + fires_of a F)%Z.
Proof. unfold fires_of. rewrite filter_cons. case_decide; cbn [length]; lia. Qed.

Lemma fires_of_zero a F : (fires_of a F ≤ 0)%Z → ∀ t, t ∈ F → takey t ≠ a.
Proof.
  unfold fires_of. intros Hz t Ht Ha. destruct (filter (λ t, takey t = a) F) as [|u L] eqn:E; [|cbn in Hz; lia].
  assert (t ∈ filter (λ t, takey t = a) F) as Hin by (by apply list_elem_of_filter). rewrite E in Hin. set_solver.
Qed.

Lemma on_pending rt ls l t : on rt ls l t → t ∈ pending_fires rt ls.
Proof.
  unfold pending_fires. intros [H|(lp & Hl & Ht)]; apply elem_of_app.
  - left. by apply (list_elem_of_fmap_2 fst) in H.
  - right. apply gather_elem. eauto.
Qed.

(** Changing the number of timers of an actor, before reaping. *)
Lemma linked_timers m ls rt a d : linked m ls rt →
  let st := default newActorState (m !! a) in
  linked (<[a := {| as_loop := as_loop st; as_pending := as_pending st; as_timers := as_timers st + d |}]> m) ls rt.
Proof.
  intros [Hl Hi Hf Ho Hp] st.
  assert (∀ a' st', (<[a := {| as_loop := as_loop st; as_pending := as_pending st; as_timers := as_timers st + d |}]> m)
      !! a' = Some st' → ∀ l, as_loop st' = Some l → ∃ st0, m !! a' = Some st0 ∧ as_loop st0 = Some l) as Hold.
  { intros a' st' [[<- <-]|[_ H]]%lookup_insert_Some l Hl'; [|by eauto]. cbn in Hl'. unfold st in Hl'.
    destruct (m !! a) as [st0|]; [by eauto|done]. }
  assert (∀ a' st0 l, m !! a' = Some st0 → as_loop st0 = Some l → ∃ st',
      (<[a := {| as_loop := as_loop st; as_pending := as_pending st; as_timers := as_timers st + d |}]> m)
        !! a' = Some st' ∧ as_loop st' = Some l) as Hnew.
  { intros a' st0 l H0 Hl0. destruct (decide (a = a')) as [<-|Hne].
    - rewrite lookup_insert_eq. eexists. split; [done|]. cbn. unfold st. by rewrite H0.
    - rewrite lookup_insert_ne by done. eauto. }
  split.
  - intros a' st' l H1 H2. destruct (Hold _ _ H1 _ H2) as (st0 & H3 & H4). eauto.
  - intros a1 a2 st1 st2 l H1 H2 H3 H4. destruct (Hold _ _ H1 _ H3) as (? & ? & ?).
    destruct (Hold _ _ H2 _ H4) as (? & ? & ?). eauto.
  - intros l t (st0 & H1 & H2)%Hf. eauto.
  - intros l lp H1 H2. destruct (Ho _ _ H1 H2) as (a' & st0 & H3 & H4).
    destruct (Hnew _ _ _ H3 H4) as (st' & ? & ?). eauto.
  - intros a'. rewrite <- Hp. unfold pending_of. destruct (decide (a = a')) as [<-|Hne].
    + rewrite lookup_insert_eq. cbn. unfold st. by destruct (m !! a).
    + by rewrite lookup_insert_ne.
Qed.

(** An actor without pending fires is taken out, and its loop closed. *)
Lemma linked_reap m ls rt a st : linked m ls rt → m !! a = Some st → (as_pending st ≤ 0)%Z →
  linked (delete a m) (match as_loop st with Some l => alter close_loop l ls | None => ls end) rt.
Proof.
  intros [Hl Hi Hf Ho Hp] Ha Hz.
  assert (∀ l t, on rt ls l t → takey t ≠ a) as Hna.
  { intros l t Ht%on_pending. revert t Ht. apply fires_of_zero. rewrite <- Hp. unfold pending_of. by rewrite Ha. }
  set (ls' := match as_loop st with Some l => alter close_loop l ls | None => ls end).
  assert (∀ l lp', ls' !! l = Some lp' → ∃ lp, ls !! l = Some lp ∧ loop_all lp' = loop_all lp ∧
    (as_loop st ≠ Some l → lp' = lp) ∧ (as_loop st = Some l → lp_closing lp' = true)) as Hls.
  { intros l lp'. unfold ls'. destruct (as_loop st) as [l0|]; [|intros; by exists lp'].
    rewrite lookup_alter. case_decide; [subst l0|intros; eexists; split_and!; [done..|congruence]].
    intros (lp & Hlp & ->)%fmap_Some. exists lp. split_and!; try done. }
  assert (∀ l t, on rt ls' l t → on rt ls l t) as Hon.
  { intros l t [H|(lp' & Hlp & Ht)]; [by left|right]. destruct (Hls _ _ Hlp) as (lp & ? & E & _).
    exists lp. by rewrite <- E. }
  split.
  - intros a' st' l [Hne H]%lookup_delete_Some Hl'. destruct (Hl _ _ _ H Hl') as (lp & Hlp & Hc).
    exists lp. split; [|done]. unfold ls'. destruct (as_loop st) as [l0|] eqn:E; [|done].
    rewrite lookup_alter_ne; [done|]. intros ->. by apply Hne, (Hi _ _ _ _ l Ha H).
  - intros a1 a2 st1 st2 l [_ H1]%lookup_delete_Some [_ H2]%lookup_delete_Some. eauto.
  - intros l t Ht%Hon. destruct (Hf _ _ Ht) as (st' & H1 & H2). exists st'. split; [|done].
    rewrite lookup_delete_ne; [done|]. by apply not_eq_sym, (Hna l).
  - intros l lp' Hlp Hc. destruct (Hls _ _ Hlp) as (lp & Hlp0 & _ & H1 & H2).
    destruct (decide (as_loop st = Some l)) as [E|E]; [by rewrite (H2 E) in Hc|]. rewrite (H1 E) in Hc.
    destruct (Ho _ _ Hlp0 Hc) as (a' & st' & H3 & H4). exists a', st'. split; [|done].
    rewrite lookup_delete_ne; [done|]. intros <-. congruence.
  - intros a'. assert (pending_fires rt ls' ≡ₚ pending_fires rt ls) as ->%(fires_of_perm a').
    { unfold pending_fires, ls'. destruct (as_loop st); [|done]. by rewrite (gather_close loop_all). }
    rewrite <- Hp. unfold pending_of. destruct (decide (a = a')) as [<-|Hne].
    + rewrite lookup_delete_eq. cbn. specialize (Hp a). unfold pending_of in Hp. rewrite Ha in *. cbn in *.
      unfold fires_of in Hp. lia.
    + by rewrite lookup_delete_ne.
Qed.

(** ** Moves of fires *)

Lemma on_insert rt ls l lp' l' t :
  on rt (<[l := lp']> ls) l' t → on rt (delete l ls) l' t ∨ (l' = l ∧ t ∈ loop_all lp').
Proof.
  intros [H|(lp1 & [[<- <-]|[Hne H]]%lookup_insert_Some & Ht)]; [left; by left|by right|left; right].
  exists lp1. by rewrite lookup_delete_ne.
Qed.

Lemma on_delete rt ls l l' t : on rt (delete l ls) l' t → on rt ls l' t.
Proof. intros [H|(lp1 & [Hne H]%lookup_delete_Some & Ht)]; [by left|right; eauto]. Qed.

Lemma linked_set m ls rt l lp lp' : linked m ls rt → ls !! l = Some lp →
  loop_all lp' ≡ₚ loop_all lp → lp_closing lp' = lp_closing lp → linked m (<[l := lp']> ls) rt.
Proof.
  intros [Hl Hi Hf Ho Hp] Hlp Hall Hcl. split; [|done|..].
  - intros a st l' H1 H2. destruct (Hl _ _ _ H1 H2) as (lp1 & H3 & H4).
    destruct (decide (l = l')) as [<-|]; [|rewrite lookup_insert_ne; by eauto].
    exists lp'. rewrite lookup_insert_eq. split; [done|]. rewrite Hcl. congruence.
  - intros l' t [H%on_delete|[-> Ht]]%on_insert; [by apply Hf|]. apply Hf. right. exists lp.
    split; [done|]. by rewrite <- Hall.
  - intros l' lp1 [[<- <-]|[_ H]]%lookup_insert_Some Hc; [|by eapply Ho]. apply (Ho _ lp); congruence.
  - intros a. rewrite Hp. apply fires_of_perm. unfold pending_fires.
    by rewrite gather_insert, (gather_delete _ _ _ _ Hlp), Hall.
Qed.

(** The state of an actor after a fire is counted up or down. *)
Definition count_fire (d : Z) (l : N) (st : actorState) : actorState :=
  {| as_loop := Some l; as_pending := as_pending st + d; as_timers := as_timers st |}.

Lemma linked_done m ls rt l lp lp' t : linked m ls rt → ls !! l = Some lp →
  loop_all lp ≡ₚ t :: loop_all lp' → lp_closing lp' = lp_closing lp →
  ∃ st, m !! takey t = Some st ∧ as_loop st = Some l ∧
    linked (<[takey t := count_fire (-1) l st]> m) (<[l := lp']> ls) rt.
Proof.
  intros [Hl Hi Hf Ho Hp] Hlp Hall Hcl.
  assert (on rt ls l t) as (st & Hst & Hsl)%Hf by (right; exists lp; rewrite Hall; set_solver).
  exists st. split_and!; [done..|].
  assert (∀ a' st', (<[takey t := count_fire (-1) l st]> m) !! a' = Some st' →
    ∃ st0, m !! a' = Some st0 ∧ as_loop st0 = as_loop st') as Hold.
  { intros a' st' [[<- <-]|[_ H]]%lookup_insert_Some; by eauto. }
  assert (∀ a' st0, m !! a' = Some st0 → ∃ st', (<[takey t := count_fire (-1) l st]> m) !! a' = Some st' ∧
    as_loop st' = as_loop st0) as Hnew.
  { intros a' st0 H0. destruct (decide (takey t = a')) as [<-|Hne].
    - rewrite lookup_insert_eq. eexists. split; [done|]. cbn. congruence.
    - rewrite lookup_insert_ne by done. eauto. }
  split.
  - intros a st1 l1 (st0 & H0 & <-)%Hold H2. destruct (Hl _ _ _ H0 H2) as (lp1 & H3 & H4).
    destruct (decide (l = l1)) as [<-|]; [|rewrite lookup_insert_ne; by eauto].
    exists lp'. rewrite lookup_insert_eq. split; [done|]. rewrite Hcl. congruence.
  - intros a1 a2 st1 st2 l1 (s1 & H1 & <-)%Hold (s2 & H2 & <-)%Hold. eauto.
  - intros l1 u Hu. assert (on rt ls l1 u) as (st0 & H0 & Hl0)%Hf.
    { apply on_insert in Hu as [Hu%on_delete|[-> Hu]]; [done|]. right. exists lp. split; [done|]. rewrite Hall. by right. }
    destruct (Hnew _ _ H0) as (st' & ? & E). exists st'. by rewrite E.
  - intros l1 lp1 H1 Hc. assert (∃ lp0, ls !! l1 = Some lp0 ∧ lp_closing lp0 = false) as (lp0 & H0 & Hc0).
    { apply lookup_insert_Some in H1 as [[<- <-]|[_ H]]; [|by eauto]. exists lp. split; congruence. }
    destruct (Ho _ _ H0 Hc0) as (a & st0 & H2 & H3). destruct (Hnew _ _ H2) as (st' & ? & E).
    exists a, st'. by rewrite E.
  - intros a. specialize (Hp a).
    assert (pending_fires rt ls ≡ₚ t :: pending_fires rt (<[l := lp']> ls)) as Hpf.
    { unfold pending_fires. rewrite gather_insert, (gather_delete _ _ _ _ Hlp), Hall. solve_Permutation. }
    rewrite (fires_of_perm _ _ _ Hpf), fires_of_cons in Hp. unfold pending_of in *. case_decide as Hd.
    + subst a. rewrite lookup_insert_eq. rewrite Hst in Hp. cbn in *. lia.
    + rewrite lookup_insert_ne by done. lia.
Qed.

Lemma linked_enqueue m ls rt n t l lp lp' : linked m ls rt → rt !! n = Some (t, l) → ls !! l = Some lp →
  loop_all lp' ≡ₚ t :: loop_all lp → lp_closing lp' = lp_closing lp →
  linked m (<[l := lp']> ls) (delete n rt).
Proof.
  intros [Hl Hi Hf Ho Hp] Hn Hlp Hall Hcl. pose proof (delete_fires _ _ _ Hn) as Hrt. split; [|done|..].
  - intros a st l' H1 H2. destruct (Hl _ _ _ H1 H2) as (lp1 & H3 & H4).
    destruct (decide (l = l')) as [<-|]; [|rewrite lookup_insert_ne; by eauto].
    exists lp'. rewrite lookup_insert_eq. split; [done|]. rewrite Hcl. congruence.
  - intros l' u Hu. apply Hf. apply on_insert in Hu as [Hu%on_delete|[-> Hu]].
    + destruct Hu as [Hu|Hu]; [left|by right]. rewrite Hrt. by right.
    + rewrite Hall in Hu. apply elem_of_cons in Hu as [->|Hu]; [left; rewrite Hrt; left|right; eauto].
  - intros l' lp1 [[<- <-]|[_ H]]%lookup_insert_Some Hc; [|by eapply Ho]. apply (Ho _ lp); congruence.
  - intros a. rewrite Hp. apply fires_of_perm. unfold pending_fires.
    rewrite gather_insert, (gather_delete _ _ _ _ Hlp), Hall. rewrite Hrt at 1. cbn. solve_Permutation.
Qed.

(** The loop to which a fire is routed: the actor's, or a new one. *)
Lemma linked_route m ls rt t l : linked m ls rt →
  let st := default newActorState (m !! takey t) in
  (as_loop st = Some l ∨ as_loop st = None ∧ ls !! l = None ∧ (∀ a st l', m !! a = Some st → as_loop st = Some l' → l' ≠ l)) →
  linked (<[takey t := count_fire 1 l st]> m)
    (match as_loop st with Some _ => ls | None => <[l := newLoop]> ls end) (rt ++ [(t, l)]).
Proof.
  intros [Hl Hi Hf Ho Hp] st Hst.
  set (m' := <[takey t := count_fire 1 l st]> m).
  set (ls' := match as_loop st with Some _ => ls | None => <[l := newLoop]> ls end).
  assert (∀ l1 lp, ls !! l1 = Some lp → ls' !! l1 = Some lp) as Hls.
  { intros l1 lp H. unfold ls'. destruct Hst as [->|(-> & Hn & _)]; [done|]. rewrite lookup_insert_ne; congruence. }
  assert (∀ l1 u, on (rt ++ [(t, l)]) ls' l1 u → on rt ls l1 u ∨ (u = t ∧ l1 = l)) as Hon.
  { intros l1 u [[H|H]%elem_of_app|(lp & Hlp & Hu)].
    - left. by left.
    - right. set_solver.
    - left. right. unfold ls' in Hlp. destruct (as_loop st); [eauto|].
      apply lookup_insert_Some in Hlp as [[_ <-]|[_ ?]]; [|by eauto]. by apply not_elem_of_nil in Hu. }
  assert (∀ a st1 l1, m !! a = Some st1 → as_loop st1 = Some l1 → ∃ st2, m' !! a = Some st2 ∧ as_loop st2 = Some l1) as Hnew.
  { intros a st1 l1 H1 H2. unfold m'. destruct (decide (takey t = a)) as [<-|Hne].
    - rewrite lookup_insert_eq. eexists. split; [done|]. cbn. unfold st in Hst. rewrite H1 in Hst. cbn in Hst.
      destruct Hst as [?|[? _]]; congruence.
    - rewrite lookup_insert_ne by done. eauto. }
  assert (∀ a st1 l1, m' !! a = Some st1 → as_loop st1 = Some l1 →
    (∃ st0, m !! a = Some st0 ∧ as_loop st0 = Some l1) ∨ (a = takey t ∧ l1 = l ∧ as_loop st = None)) as Hold.
  { intros a st1 l1 [[<- <-]|[_ H]]%lookup_insert_Some H2; [|by eauto]. injection H2 as <-.
    destruct Hst as [E|(E & _)]; [left|by right]. unfold st in E. destruct (m !! takey t) as [st0|]; [eauto|done]. }
  split.
  - intros a st1 l1 H1 H2. destruct (Hold _ _ _ H1 H2) as [(st0 & H3 & H4)|(-> & -> & E)].
    + destruct (Hl _ _ _ H3 H4) as (lp & ? & ?). eauto.
    + exists newLoop. unfold ls'. by rewrite E, lookup_insert_eq.
  - intros a1 a2 st1 st2 l1 H1 H2 H3 H4. destruct (Hold _ _ _ H1 H3) as [(s1 & ? & ?)|(-> & -> & E)];
      destruct (Hold _ _ _ H2 H4) as [(s2 & ? & ?)|(-> & El & E')]; try done; [by eapply Hi|..].
    + subst l1. destruct Hst as [?|(_ & _ & Hd)]; [congruence|]. by edestruct Hd.
    + destruct Hst as [?|(_ & _ & Hd)]; [congruence|]. by edestruct Hd.
  - intros l1 u [H|[-> ->]]%Hon.
    + destruct (Hf _ _ H) as (st0 & H1 & H2). eauto.
    + eexists. unfold m'. by rewrite lookup_insert_eq.
  - intros l1 lp H1 Hc. assert (ls !! l1 = Some lp ∨ l1 = l) as [H| ->].
    { unfold ls' in H1. destruct (as_loop st); [by left|]. apply lookup_insert_Some in H1 as [[<- _]|[_ ?]]; auto. }
    + destruct (Ho _ _ H Hc) as (a & st0 & H2 & H3). destruct (Hnew _ _ _ H2 H3) as (st2 & ? & ?). eauto.
    + exists (takey t). eexists. unfold m'. by rewrite lookup_insert_eq.
  - intros a. specialize (Hp a).
    assert (pending_fires (rt ++ [(t, l)]) ls' ≡ₚ t :: pending_fires rt ls) as ->%(fires_of_perm a).
    { unfold pending_fires, ls'. rewrite fmap_app. destruct Hst as [->|(-> & Hn & _)]; cbn.
      - solve_Permutation.
      - rewrite gather_new by done. cbn. solve_Permutation. }
    rewrite fires_of_cons, <- Hp. unfold pending_of, m'. case_decide as Hd.
    + subst a. rewrite lookup_insert_eq. cbn. unfold st. destruct (m !! takey t); cbn; lia.
    + rewrite lookup_insert_ne by done. lia.
Qed.

Lemma linked_stop m ls rt l lp : linked m ls rt → ls !! l = Some lp → lp_closing lp = true →
  loop_all lp = [] → linked m (delete l ls) rt.
Proof.
  intros [Hl Hi Hf Ho Hp] Hlp Hc Hall. split; [|done|..].
  - intros a st l' H1 H2. destruct (Hl _ _ _ H1 H2) as (lp1 & H3 & H4). exists lp1. split; [|done].
    rewrite lookup_delete_ne; [done|]. intros ->. congruence.
  - intros l' t H%on_delete. by apply Hf.
  - intros l' lp1 [_ H]%lookup_delete_Some. by eapply Ho.
  - intros a. rewrite Hp. apply fires_of_perm. unfold pending_fires. by rewrite (gather_delete _ _ _ _ Hlp), Hall.
Qed.

(** ** Every step keeps them together *)

Definition serial (rt : list (timer * N)) (ls : gmap N loop) : Prop :=
  ∀ l l' t t', on rt ls l t → on rt ls l' t' → takey t = takey t' → l = l'.

Definition links (s : sys) : Prop :=
  match actorStates (store s) with
  | Some m =>
    closed (store s) = false ∧ linked m (loops s) (routed s) ∧ (∀ a st, m !! a = Some st → busy st = true)
  | None =>
    closed (store s) = true ∧ ctxCancelled (store s) = true ∧ routed s = [] ∧
    (∀ l lp, loops s !! l = Some lp → lp_closing lp = true) ∧ serial (routed s) (loops s)
  end.

Lemma linked_serial m ls rt : linked m ls rt → serial rt ls.
Proof.
  intros Hk l l' t t' (st & H1 & H2)%(k_fire _ _ _ Hk) (st' & H3 & H4)%(k_fire _ _ _ Hk) E. congruence.
Qed.

Lemma links_serial s : links s → serial (routed s) (loops s).
Proof. unfold links. case_match; [intros (_ & Hk & _); by eapply linked_serial|by intros (_ & _ & _ & _ & ?)]. Qed.

(** Nothing that matters has changed. *)
Lemma links_ext s s' : links s → frame (store s) (store s') → routed s' = routed s → loops s' = loops s → links s'.
Proof.
  unfold links. intros Hl (_ & E1 & E2 & E3) E4 E5. rewrite E1, E2, E3, E4, E5. done.
Qed.

Lemma serial_sub rt ls rt' ls' : serial rt ls → (∀ l t, on rt' ls' l t → on rt ls l t) → serial rt' ls'.
Proof. intros Hs Hon l l' t t' H1 H2. eauto. Qed.

Lemma links_set_loop s l lp lp' : links s → loops s !! l = Some lp →
  loop_all lp' ≡ₚ loop_all lp → lp_closing lp' = lp_closing lp → links (set_loop l lp' s).
Proof.
  unfold links. cbn. intros Hl Hlp Hall Hcl. destruct (actorStates (store s)).
  - destruct Hl as (? & ? & ?). split_and!; try done. by eapply linked_set.
  - destruct Hl as (? & ? & ? & Hc & Hs). split_and!; try done.
    + intros l1 lp1 [[<- <-]|[_ ?]]%lookup_insert_Some; [rewrite Hcl|]; by eapply Hc.
    + eapply serial_sub; [exact Hs|]. intros l1 t [Ht%on_delete|[-> Ht]]%on_insert; [done|right].
      exists lp. by rewrite <- Hall.
Qed.

Lemma busy_pending st : busy st = false → (as_pending st ≤ 0)%Z.
Proof. unfold busy. intros [_ H]%orb_false_iff. lia. Qed.

(** Storing the state of an actor and reaping it where it is idle. *)
Lemma put_reap_eq a st i m : actorStates i = Some m →
  (putState a st ;;; maybeReapLocked a st) i =
    (set_states (Some (if busy st then <[a := st]> m else delete a m)) (nextLoop i) (closed i) i,
     if busy st then [] else match as_loop st with Some l => [CloseLoop l] | None => [] end).
Proof.
  intros Hm. unfold maybeReapLocked, putState, seqp. fold (busy st). destruct (busy st); cbn; rewrite Hm; cbn.
  - done.
  - rewrite delete_insert_eq. by destruct (as_loop st).
Qed.

Lemma linked_put_reap m ls rt a st : linked (<[a := st]> m) ls rt →
  (∀ a' st', m !! a' = Some st' → a' ≠ a → busy st' = true) →
  let m' := if busy st then <[a := st]> m else delete a m in
  linked m' (fold_left apply_effect
    (if busy st then [] else match as_loop st with Some l => [CloseLoop l] | None => [] end) ls) rt ∧
  ∀ a' st', m' !! a' = Some st' → busy st' = true.
Proof.
  intros Hk Hb m'. unfold m'. destruct (busy st) eqn:E; cbn.
  - split; [done|]. intros a' st' [[<- <-]|[Hne H]]%lookup_insert_Some; [done|]. by eapply Hb.
  - split.
    + pose proof (linked_reap _ _ _ a st Hk (lookup_insert_eq _ _ _) (busy_pending _ E)) as H.
      rewrite delete_insert_eq in H. by destruct (as_loop st).
    + intros a' st' [Hne H]%lookup_delete_Some. by eapply Hb.
Qed.

Lemma links_update k d s : links s → links (states_section (updateActorTimers k d) s).
Proof.
  unfold links at 1, states_section, updateActorTimers, get. intros Hl.
  destruct (actorStates (store s)) as [m|] eqn:Em; [|cbn; unfold links; cbn; by rewrite Em].
  destruct Hl as (Hc & Hk & Hb).
  assert (∀ st, st = default newActorState (m !! k) →
    let st' := {| as_loop := as_loop st; as_pending := as_pending st; as_timers := as_timers st + d |} in
    links (let '(i, es) := (putState k st' ;;; maybeReapLocked k st') (store s) in
      {| store := i; nextTimer := nextTimer s; queueLock := queueLock s; popped := popped s; routed := routed s;
         loops := fold_left apply_effect es (loops s) |})) as Hput.
  { intros st -> st'. rewrite (put_reap_eq _ _ _ _ Em). unfold links. cbn. split; [done|].
    apply (linked_put_reap m (loops s) (routed s) k st'); [exact (linked_timers _ _ _ k d Hk)|eauto]. }
  destruct (m !! k) as [st|] eqn:Ek; [by apply Hput|].
  destruct (d <=? 0)%Z; [cbn; unfold links; cbn; by rewrite Em|]. by apply (Hput newActorState).
Qed.

Lemma links_fireDone l lp t s : links s → loops s !! l = Some lp → lp_run lp = Some (t, PDone) →
  links (states_section (fireDone (takey t)) (set_loop l (idle lp) s)).
Proof.
  intros Hl Hlp Hr.
  assert (loop_all lp ≡ₚ t :: loop_all (idle lp)) as Hall.
  { unfold loop_all, idle. rewrite Hr. cbn. rewrite app_nil_r. solve_Permutation. }
  unfold links, states_section, fireDone, get in *. cbn.
  destruct (actorStates (store s)) as [m|] eqn:Em; cbn.
  - destruct Hl as (Hc & Hk & Hb). destruct (linked_done _ _ _ _ _ (idle lp) t Hk Hlp Hall eq_refl) as (st & Hst & Hsl & Hk').
    rewrite Hst. rewrite (put_reap_eq _ _ _ _ Em). cbn. split; [done|].
    set (st' := {| as_loop := as_loop st; as_pending := as_pending st - 1; as_timers := as_timers st |}).
    apply (linked_put_reap m _ _ _ st'); [|eauto]. unfold count_fire in Hk'. unfold st'. by rewrite Hsl.
  - rewrite Em. destruct Hl as (? & ? & ? & Hc & Hs). split_and!; try done.
    + intros l1 lp1 [[<- <-]|[_ ?]]%lookup_insert_Some; [cbn|]; by eapply Hc.
    + eapply serial_sub; [exact Hs|]. intros l1 u [H'%on_delete|[-> H']]%on_insert; [done|right].
      exists lp. split; [done|]. rewrite Hall. by right.
Qed.

(** Routing: where the fire goes and what the state then is. *)
Lemma route_good n t s i l es : inv s → links s → popped s !! n = Some t →
  processorExecuteFn (takey t) (store s) = (i, l, es) →
  let s' := {| store := i; nextTimer := nextTimer s; queueLock := queueLock s;
               popped := delete n (popped s);
               routed := routed s ++ match l with Some l => [(t, l)] | None => [] end;
               loops := fold_left apply_effect es (loops s) |} in
  inv s' ∧ links s'.
Proof.
  intros Hi Hl Hn Hp s'. unfold links, processorExecuteFn in Hl, Hp.
  destruct (actorStates (store s)) as [m|] eqn:Em.
  - destruct Hl as (Hc & Hk & Hb). rewrite Hc in Hp. set (st := default newActorState (m !! takey t)) in *.
    assert (∃ l0 n0, l = Some l0 ∧ i = set_states (Some (<[takey t := count_fire 1 l0 st]> m)) n0 false (store s) ∧
      (as_loop st = Some l0 ∧ n0 = nextLoop (store s) ∧ es = [] ∨
       as_loop st = None ∧ l0 = nextLoop (store s) ∧ n0 = (nextLoop (store s) + 1)%N ∧ es = [NewLoop l0])) as
      (l0 & n0 & -> & -> & Hcase).
    { unfold count_fire. destruct (as_loop st); injection Hp as <- <- <-; repeat eexists; eauto 10. }
    assert (loops s !! nextLoop (store s) = None) as Hfr.
    { destruct (loops s !! nextLoop (store s)) as [lp|] eqn:E; [|done]. apply (v_fresh _ Hi) in E. lia. }
    split.
    + unfold s'. rewrite <- Hc. apply inv_route; [done..|]. destruct Hcase as [(_ & -> & ->)|(_ & -> & -> & ->)]; auto.
    + unfold links. cbn. split; [done|]. split.
      * pose proof (linked_route m (loops s) (routed s) t l0 Hk) as Hr. cbv zeta in Hr. fold st in Hr.
        destruct Hcase as [(E & _ & ->)|(E & -> & _ & ->)]; rewrite E in Hr; apply Hr; [by left|].
        right. split_and!; [done..|]. intros a st1 l1 H1 H2 ->. destruct (k_loop _ _ _ Hk _ _ _ H1 H2) as (lp & ? & _).
        congruence.
      * intros a st1 [[<- <-]|[_ H]]%lookup_insert_Some; [|by eapply Hb]. unfold busy. cbn.
        assert (0 ≤ as_pending st)%Z; [|lia]. pose proof (k_pending _ _ _ Hk (takey t)) as H. unfold pending_of in H.
        unfold st. destruct (m !! takey t); cbn in *; [|lia]. rewrite H. unfold fires_of. lia.
  - destruct Hl as (Hc & Hx & Hr & Hcl & Hs). rewrite Hc in Hp. injection Hp as <- <- <-. cbn in s'. unfold s'.
    rewrite app_nil_r. split; [by eapply (inv_lose_popped n t)|]. unfold links. cbn. by rewrite Em.
Qed.

(** A routed fire finds its loop open. *)
Lemma routed_open n t l s : links s → routed s !! n = Some (t, l) →
  ∃ lp, loops s !! l = Some lp ∧ lp_closing lp = false.
Proof.
  unfold links. intros Hl Hn. destruct (actorStates (store s)) as [m|].
  - destruct Hl as (_ & Hk & _). destruct (k_fire _ _ _ Hk l t) as (st & H1 & H2).
    { left. by eapply list_elem_of_lookup_2. }
    by eapply k_loop.
  - destruct Hl as (_ & _ & Hr & _). by rewrite Hr in Hn.
Qed.

Lemma enqueue_good n t l lp s : inv s → links s → routed s !! n = Some (t, l) → loops s !! l = Some lp →
  lp_closing lp = false →
  let s' := set_loop l {| lp_queue := lp_queue lp ++ [t]; lp_run := lp_run lp; lp_closing := false |}
         (set_fires (popped s) (delete n (routed s)) s) in
  inv s' ∧ links s'.
Proof.
  intros Hi Hl Hn Hlp Hc s'. split; [by apply timers_inv_enqueue|]. unfold links in *. cbn.
  destruct (actorStates (store s)) as [m|].
  - destruct Hl as (? & Hk & ?). split_and!; try done. eapply linked_enqueue; [done..| |done].
    unfold loop_all. cbn. solve_Permutation.
  - destruct Hl as (_ & _ & Hr & _). by rewrite Hr in Hn.
Qed.

Lemma stop_good l lp s : inv s → links s → loops s !! l = Some lp → lp_closing lp = true →
  lp_run lp = None → lp_queue lp = [] →
  let s' := {| store := store s; nextTimer := nextTimer s; queueLock := queueLock s;
               popped := popped s; routed := routed s; loops := delete l (loops s) |} in
  inv s' ∧ links s'.
Proof.
  intros Hi Hl Hlp Hc Hr Hq s'. split; [by eapply inv_stop|]. unfold links in *. cbn.
  assert (loop_all lp = []) as Hall by (unfold loop_all; by rewrite Hr, Hq).
  destruct (actorStates (store s)) as [m|].
  - destruct Hl as (? & Hk & ?). split_and!; try done. by eapply linked_stop.
  - destruct Hl as (? & ? & ? & H & Hs). split_and!; try done.
    + intros l1 lp1 [_ ?]%lookup_delete_Some. by eapply H.
    + eapply serial_sub; [exact Hs|]. intros l1 t. apply on_delete.
Qed.

(** Closing the loops of all actors. *)
Definition close_all (m : gmap string actorState) : list store_effect :=
  omap (λ kst : string * actorState, CloseLoop <$> as_loop kst.2) (map_to_list m).

Lemma close_all_closes m : Forall is_close (close_all m).
Proof.
  unfold close_all. induction (map_to_list m) as [|[a st] L IH]; [constructor|]. cbn.
  destruct (as_loop st); [by constructor|done].
Qed.

Lemma closed_by_effect es ls l lp : Forall is_close es → CloseLoop l ∈ es →
  fold_left apply_effect es ls !! l = Some lp → lp_closing lp = true.
Proof.
  intros Hes. revert ls. induction Hes as [|e es He Hes IH]; intros ls Hin; [set_solver|]. cbn.
  destruct e as [| |l']; try done. apply elem_of_cons in Hin as [[= <-]|H]; [|by apply IH].
  intros (lp0 & Hl & _ & _ & Hc)%closes_lookup; [|done]. cbn in Hl.
  rewrite lookup_alter_eq in Hl. apply fmap_Some in Hl as (lp1 & _ & ->). cbn in Hc.
  destruct (lp_closing lp); [done|]. by specialize (Hc eq_refl).
Qed.

Lemma close_states_good m s : inv s → links s → actorStates (store s) = Some m →
  processorClosed (store s) = true → routed s = [] →
  let s' := {| store := set_states None (nextLoop (store s)) true (store s); nextTimer := nextTimer s;
               queueLock := queueLock s; popped := popped s; routed := routed s;
               loops := fold_left apply_effect (close_all m) (loops s) |} in
  inv s' ∧ links s'.
Proof.
  intros Hi Hl Em Hpc Hr s'. pose proof (close_all_closes m) as Hes. split.
  - destruct Hi as [Hc Hrun Hf]. split; cbn.
    + apply core_states. eapply core_perm; [|exact Hc]. unfold fires. cbn. by rewrite (gather_closes loop_fires).
    + intros l lp t ph (lp0 & Hlp & _ & Hr0 & _)%closes_lookup Ht; [|done]. rewrite Hr0 in Ht.
      eapply run_ok_same; [..|by eapply Hrun]; done.
    + intros l lp (lp0 & Hlp & _)%closes_lookup; [|done]. by eapply Hf.
  - pose proof (links_serial _ Hl) as Hs. unfold links in *. rewrite Em in Hl. destruct Hl as (_ & Hk & _). cbn. split_and!.
    + done.
    + apply (c_closed _ _ _ (v_core _ Hi) Hpc).
    + done.
    + intros l lp Hlp. pose proof Hlp as (lp0 & Hlp0 & _ & _ & Hc)%closes_lookup; [|done].
      destruct (lp_closing lp) eqn:E; [done|]. specialize (Hc eq_refl).
      destruct (k_open _ _ _ Hk _ _ Hlp0 Hc) as (a & st & H1 & H2).
      rewrite <- E. eapply closed_by_effect; [exact Hes| |exact Hlp]. unfold close_all. apply list_elem_of_omap.
      exists (a, st). rewrite elem_of_map_to_list. cbn. by rewrite H2.
    + eapply serial_sub; [exact Hs|]. intros l t [H|(lp & (lp0 & Hlp0 & Hq0 & Hr0 & _)%closes_lookup & Ht)]; [by left|right|done].
      exists lp0. split; [done|]. unfold loop_all in *. by rewrite <- Hq0, <- Hr0.
Qed.

(** ** Steps and runs *)

Definition good (s : sys) : Prop := inv s ∧ links s.

Lemma good_init : good init.
Proof.
  split; [exact inv_init|]. unfold links. cbn. split; [done|]. split; [|done].
  split; try done. intros l t [H|(lp & ? & _)]; [set_solver|done].
Qed.

Lemma section_loops who p s : loops (section who p s) = loops s ∧ routed (section who p s) = routed s ∧
  popped (section who p s) = popped s ∧ store (section who p s) = (p (store s)).1.
Proof. unfold section. by destruct (p (store s)). Qed.

(** A section of a caller. *)
Lemma section_good who p s : good s → section_ok p (store s) (nextTimer s) (fires s) → good (section who p s).
Proof.
  intros [Hi Hl] Hp. split; [by apply inv_section_ok|]. destruct Hp as (_ & _ & Hf).
  destruct (section_loops who p s) as (El & Er & _ & Es). eapply links_ext; [exact Hl|by rewrite Es|done..].
Qed.

Lemma states_good p s : states_only p → good s → links (states_section p s) → good (states_section p s).
Proof. intros Hp [Hi _] Hl. split; [by apply inv_states_section|done]. Qed.

(** The loop goes to another phase with the same fire, or takes the next one. *)
Lemma phase_good l lp lp' s : good s → loops s !! l = Some lp → inv (set_loop l lp' s) →
  loop_all lp' ≡ₚ loop_all lp → lp_closing lp' = lp_closing lp → good (set_loop l lp' s).
Proof. intros [Hi Hl] Hlp Hi' Hall Hcl. split; [done|by eapply links_set_loop]. Qed.

Lemma in_phase_all lp t ph ph' : lp_run lp = Some (t, ph) → loop_all (in_phase t ph' lp) = loop_all lp.
Proof. intros Hr. unfold loop_all. cbn. by rewrite Hr. Qed.

Lemma handle_good l lp t q s : good s → loops s !! l = Some lp → lp_run lp = None → lp_queue lp = t :: q →
  good (set_loop l {| lp_queue := q;
                      lp_run := Some (t, if ctxCancelled (store s) then PDone else PStarted);
                      lp_closing := lp_closing lp |} s).
Proof.
  intros Hg Hlp Hr Hq. eapply phase_good; [done..| | |done].
  - destruct (ctxCancelled (store s)) eqn:E.
    + eapply (inv_end s l lp _ t); [apply Hg|done| |by left|by intros u ph [= <- <-]].
      unfold loop_fires. cbn. rewrite Hr, Hq. done.
    + eapply inv_move; [apply Hg|done| |by intros u ph [= <- <-]].
      unfold loop_fires. cbn. rewrite Hr, Hq. solve_Permutation.
  - unfold loop_all. cbn. rewrite Hr, Hq. solve_Permutation.
Qed.

(** The check before the callback. *)
Lemma check_good l lp t s : good s → loops s !! l = Some lp → lp_run lp = Some (t, PStarted) →
  good (set_loop l (in_phase t match fire_check t (store s) with Some rm => PCall rm | None => PDone end lp) s).
Proof.
  intros Hg Hlp Hr. pose proof (v_core _ (proj1 Hg)) as Hc.
  pose proof (same_spec _ _ _ t Hc (run_fire _ _ _ _ _ Hlp Hr eq_refl)) as Hs.
  eapply phase_good; [done..| |by rewrite (in_phase_all _ _ PStarted)|done].
  unfold fire_check. destruct (same _ _).
  - eapply inv_move; [apply Hg|done|by apply (live_keep _ _ PStarted)|]. intros u ph [= <- <-]. left.
    split_and!; [done..|]. apply (c_removals _ _ _ Hc). by rewrite Hs.
  - eapply inv_end; [apply Hg|done|by apply (live_split _ _ PStarted)|by right|by intros u ph [= <- <-]].
Qed.

(** A callback that has seen its removal was told so. *)
Lemma CallReminder_stale req a : attempt_ok a = true → CallReminder req a = Some ErrTimerFireStale →
  ∃ a', a = Some a' ∧ at_removed a' || at_lockRemoved a' = true.
Proof.
  destruct a as [a|]; [|done]. cbn. unfold callReminder, InvokeTimer, InvokeReminder, not_stale.
  intros [H1 H2]%andb_true_iff H. apply bool_decide_eq_true in H1, H2. exists a. split; [done|].
  destruct (at_removed a); [done|]. destruct (at_lockRemoved a) eqn:E; [by rewrite orb_true_r|]. exfalso.
  destruct (at_lookup a) as [[]|]; [| |done].
  - destruct (at_target a); [|done]. cbn in H. destruct (IsTimer req), (at_lock a), (at_app a); cbn in H; congruence.
  - destruct (IsTimer req), (IsRemote req), (at_remote a); done.
Qed.

Lemma return_good l lp t rm a s : good s → loops s !! l = Some lp → lp_run lp = Some (t, PCall rm) →
  sees (store s) rm a = true → attempt_ok a = true →
  good (set_loop l (in_phase t (PReturned (CallReminder (tm_body t) a)) lp) s).
Proof.
  intros Hg Hlp Hr Hs Ha. eapply phase_good; [done..| |by rewrite (in_phase_all _ _ (PCall rm))|done].
  eapply inv_move; [apply Hg|done|by apply (live_keep _ _ (PCall rm))|]. intros u ph [= <- <-].
  destruct (CallReminder (tm_body t) a) as [[]|] eqn:E; try done.
  destruct (CallReminder_stale _ _ Ha E) as (a' & -> & Hr'). cbn in Hs. rewrite Hr' in Hs. cbn in Hs.
  pose proof (v_run _ (proj1 Hg) _ _ _ _ Hlp Hr) as [(H1 & H2 & [r ->])|(H1 & _)]; [|done]. exfalso.
  apply bool_decide_eq_true in Hs. by apply (c_removal_live _ _ _ (v_core _ (proj1 Hg)) _ _ H2).
Qed.

Lemma settle_good l lp t err s : good s → loops s !! l = Some lp → lp_run lp = Some (t, PReturned err) →
  match reschedule t (nextTimer s) err with
  | None => good (set_loop l (in_phase t PDone lp) s)
  | Some p => good (set_loop l (in_phase t PDone lp) (section (Some l) p s))
  end.
Proof.
  intros Hg Hlp Hr. destruct (reschedule t (nextTimer s) err) as [p|] eqn:E.
  - split; [apply (inv_settle l lp t err); [apply Hg|done..]|].
    destruct (section_loops (Some l) p s) as (El & Er & _ & Es).
    eapply links_set_loop; [|by rewrite El|by rewrite (in_phase_all _ _ (PReturned err))|done].
    assert (∃ F, core (store s) (nextTimer s) (t :: F)) as (F & Hc).
    { pose proof (run_fire _ _ _ _ _ Hlp Hr eq_refl) as Hin. apply elem_of_Permutation in Hin as (F & HF).
      exists F. eapply core_perm; [exact HF|apply Hg]. }
    destruct (reschedule_ok _ _ _ _ _ _ _ E eq_refl Hc) as (_ & _ & Hf).
    eapply links_ext; [apply Hg|by rewrite Es|done..].
  - eapply phase_good; [done..| |by rewrite (in_phase_all _ _ (PReturned err))|done].
    eapply inv_end; [apply Hg|done|by apply (live_split _ _ (PReturned err))|right|by intros u ph [= <- <-]].
    apply reschedule_None in E as ->. by pose proof (v_run _ (proj1 Hg) _ _ _ _ Hlp Hr).
Qed.

(** The result of a step that shows nothing. *)
Lemma quiet_good s1 s' o : Some (s1, @nil obs) = Some (s', o) → good s1 → good s' ∧ ∀ l, EnqueueOnClosed l ∉ o.
Proof. intros [= <- <-] Hg. split; [done|]. intros l. apply not_elem_of_nil. Qed.

Lemma fireDone_good l lp t s : good s → loops s !! l = Some lp → lp_run lp = Some (t, PDone) →
  good (states_section (fireDone (takey t)) (set_loop l (idle lp) s)).
Proof.
  intros [Hi Hl] Hlp Hr. split; [|by apply links_fireDone].
  apply inv_states_section; [apply fireDone_states|]. eapply inv_move; [done..| |done].
  unfold loop_fires. cbn. by rewrite Hr.
Qed.

(** The steps of a loop. *)
Lemma loop_step_good l e s s' o : good s → step e s = Some (s', o) →
  e = EHandle l ∨ e = ECheck l ∨ (∃ a, e = EReturn l a) ∨ e = ESettle l ∨ e = EFireDone l ∨ e = EStop l →
  good s' ∧ ∀ l, EnqueueOnClosed l ∉ o.
Proof.
  intros Hg Hs He. destruct He as [->|[->|[[a ->]|[->|[->| ->]]]]]; cbn [step] in Hs;
    apply bind_Some in Hs as (x & Hx & Hs);
    try (destruct x as [[lp t] ph]; apply run_phase_Some in Hx as [Hlp Hr]).
  - destruct (lp_run x) eqn:Hr; [done|]. destruct (lp_queue x) as [|t q] eqn:Hq; [done|].
    eapply quiet_good; [exact Hs|by apply handle_good].
  - destruct ph; try done. case_match; [done|]. pose proof (check_good l lp t s Hg Hlp Hr) as Hk.
    destruct (fire_check t (store s)) as [rm|]; [|by apply (quiet_good _ _ _ Hs)].
    injection Hs as <- <-. split; [done|]. set_solver.
  - destruct ph as [|rm| |]; try done. destruct (sees _ _ _ && _) eqn:E; [|done].
    apply andb_true_iff in E as [E1 E2]. apply (quiet_good _ _ _ Hs). by eapply return_good.
  - destruct ph as [| |err|]; try done. pose proof (settle_good l lp t err s Hg Hlp Hr) as Hk.
    destruct (reschedule _ _ _); [case_match; [|done]|]; by apply (quiet_good _ _ _ Hs).
  - destruct ph as [| |err|]; try done. destruct (holds _ _); [done|]. apply (quiet_good _ _ _ Hs).
    by apply fireDone_good.
  - destruct (lp_closing x) eqn:Hcl; [|done]. destruct (lp_run x) eqn:Hr; [done|].
    destruct (lp_queue x) eqn:Hq; [|done]. apply (quiet_good _ _ _ Hs).
    eapply stop_good; [apply Hg..|done|done|done|done].
Qed.

(** The steps of closing the store. *)
Lemma close_step_good e s s' o : good s → step e s = Some (s', o) →
  e = ECancel ∨ e = ECloseProcessor ∨ e = ECloseStates → good s' ∧ ∀ l, EnqueueOnClosed l ∉ o.
Proof.
  intros Hg Hs He. pose proof Hg as [[H1 H2 H3] Hl]. destruct He as [->|[->| ->]]; cbn [step] in Hs.
  - apply (quiet_good _ _ _ Hs). split; [split; cbn; [by apply core_cancel|..|done]|].
    + intros. eapply run_ok_same; [..|by eapply H2]; done.
    + unfold links in *. cbn. case_match; [done|]. by destruct Hl as (? & _ & ?).
  - destruct (ctxCancelled (store s)) eqn:E; [|done]. apply (quiet_good _ _ _ Hs).
    split; [split; cbn; [by apply core_close|..|done]|].
    + intros. eapply run_ok_same; [..|by eapply H2]; done.
    + by eapply links_ext.
  - destruct (processorClosed (store s)) eqn:Epc; [|done]. destruct (popped s) eqn:Epo; [|done].
    destruct (routed s) eqn:Ert; [|done]. destruct (actorStates (store s)) as [m|] eqn:Em; [|done].
    apply (quiet_good _ _ _ Hs). pose proof (close_states_good m s (proj1 Hg) (proj2 Hg) Em Epc Ert) as Hk.
    rewrite Epo, Ert in Hk. exact Hk.
Qed.

Lemma timers_step_good e s s' o : good s → step e s = Some (s', o) → good s' ∧ ∀ l, EnqueueOnClosed l ∉ o.
Proof.
  intros Hg Hs. pose proof (v_core _ (proj1 Hg)) as Hc.
  destruct e as [ctxErr r|k|fn| |k|n|n|l|l|l a|l|l|l| | |];
    try (by eapply (loop_step_good l); eauto 10); try (by eapply close_step_good; eauto); cbn [step] in Hs.
  - case_match; [|done]. apply (quiet_good _ _ _ Hs). apply section_good; [done|]. by apply Create_ok.
  - case_match; [|done]. apply (quiet_good _ _ _ Hs). apply section_good; [done|]. by apply Delete_ok.
  - case_match; [|done]. apply (quiet_good _ _ _ Hs). apply section_good; [done|]. by apply DeleteFunc_ok.
  - destruct (queueLock s) as [[who [|[k d] us]]|]; try done. apply (quiet_good _ _ _ Hs).
    assert (good (states_section (updateActorTimers k d) s)) as [[? ? ?] H2].
    { apply states_good; [apply updateActorTimers_states|done|]. apply links_update, Hg. }
    split; [by split|done].
  - apply bind_Some in Hs as (t & Ht & Hs). apply (quiet_good _ _ _ Hs). split; [apply inv_due; [apply Hg|done]|].
    eapply links_ext; [apply Hg|done..].
  - apply bind_Some in Hs as (t & Ht & Hs). destruct (processorExecuteFn _ _) as [[i l] es] eqn:Ep.
    apply (quiet_good _ _ _ Hs). eapply route_good; [apply Hg..|done|done].
  - apply bind_Some in Hs as ([t l] & Ht & Hs). destruct (routed_open _ _ _ _ (proj2 Hg) Ht) as (lp & Hlp & Hcl).
    rewrite Hlp, Hcl in Hs. apply (quiet_good _ _ _ Hs). apply enqueue_good; [apply Hg..|done|done|done].
Qed.

Lemma run_events_cons e es s s' o : run_events (e :: es) s = Some (s', o) ↔
  ∃ s1 o1 o2, step e s = Some (s1, o1) ∧ run_events es s1 = Some (s', o2) ∧ o = o1 ++ o2.
Proof.
  cbn. rewrite bind_Some. split.
  - intros ([s1 o1] & H1 & H2). apply bind_Some in H2 as ([s2 o2] & H2 & H3). injection H3 as <- <-. eauto 10.
  - intros (s1 & o1 & o2 & H1 & H2 & ->). exists (s1, o1). by rewrite H2.
Qed.

Lemma run_events_app es1 es2 s s' o : run_events (es1 ++ es2) s = Some (s', o) ↔
  ∃ s1 o1 o2, run_events es1 s = Some (s1, o1) ∧ run_events es2 s1 = Some (s', o2) ∧ o = o1 ++ o2.
Proof.
  revert s o. induction es1 as [|e es1 IH]; intros s o; cbn [app].
  - cbn. naive_solver.
  - rewrite run_events_cons. setoid_rewrite run_events_cons. setoid_rewrite IH. split.
    + intros (s1 & o1 & o2 & H1 & (s2 & o3 & o4 & H2 & H3 & ->) & ->). rewrite (assoc_L (++)). eauto 15.
    + intros (s1 & o1 & o2 & (s2 & o3 & o4 & H1 & H2 & ->) & H3 & ->). rewrite <- (assoc_L (++)). eauto 15.
Qed.

Lemma reachable_good es s o : run_events es init = Some (s, o) → good s ∧ ∀ l, EnqueueOnClosed l ∉ o.
Proof.
  revert s o. induction es as [|e es IH] using rev_ind; intros s o.
  - intros [= <- <-]. split; [exact good_init|]. intros l. apply not_elem_of_nil.
  - intros (s1 & o1 & o2 & H1 & H2 & ->)%run_events_app. destruct (IH _ _ H1) as [Hg Ho].
    apply run_events_cons in H2 as (s2 & o3 & o4 & H2 & [= <- <-] & ->).
    destruct (timers_step_good _ _ _ _ Hg H2) as [Hg' Ho']. split; [done|].
    intros l. rewrite app_nil_r, elem_of_app. naive_solver.
Qed.
