(* ===== verification/TimersCount.v ===== *)
(** * Actor timers: the counts

    The numbers kept beside the tables: the active timers of each type, and the
    timers of each actor, which decide whether its loop is kept.  They are right
    where keys are unambiguous, that is where types and identifiers of actors
    have no vertical bar ([plain]); the key joins type, identifier and name with
    two of them. *)

From S2P Require Import Prelude GoDate Timers TimersInv TimersLoops.

Local Open Scope dapr_scope.

(** ** Keys *)

Definition plain_reminder (r : Reminder) : bool := plain (ActorType r) && plain (ActorID r).

Lemma Key_inj r r' : plain_reminder r = true → plain_reminder r' = true → Key r = Key r' →
  ActorType r = ActorType r' ∧ ActorID r = ActorID r' ∧ Name r = Name r'.
Proof.
  intros [H1 H2]%andb_true_iff [H3 H4]%andb_true_iff E. unfold Key, DaprSeparator in E.
  apply plain_split in E as [E1 E]; [|done..]. injection E as E.
  apply plain_split in E as [E2 E]; [|done..]. injection E as E3. done.
Qed.

(** ** Counting *)

Definition n_type (ty : string) (m : gmap string timer) : nat :=
  msum (λ t, if decide (ttype t = ty) then 1 else 0) m.

Definition n_actor (a : string) (m : gmap string timer) : nat :=
  msum (λ t, if decide (takey t = a) then 1 else 0) m.

Definition timers_of (m : gmap string actorState) (a : string) : Z := default 0%Z (as_timers <$> m !! a).

Fixpoint due_of (us : list (string * Z)) (a : string) : Z :=
  match us with
  | [] => 0
  | (k, d) :: us' => ((if decide (k = a) then d else 0) + due_of us' a)%Z
  end.

(** The updates a section leaves: one timer more, or some less. *)
Definition updates_ok (us : list (string * Z)) : Prop :=
  (∃ k, us = [(k, 1%Z)]) ∨ Forall (λ kd, kd.2 = (-1)%Z) us.

Definition lock_updates (s : sys) : list (string * Z) :=
  match queueLock s with Some (_, us) => us | None => [] end.

Record counted (i : inmemory) (us : list (string * Z)) : Prop := {
  n_plain k t : activeTimers i !! k = Some t → plain_reminder (tm_body t) = true;
  n_types ty : GetActiveTimersCount ty i = i64_wrap (Z.of_nat (n_type ty (activeTimers i)));
  n_updates : updates_ok us;
  n_actors m a : actorStates i = Some m → (timers_of m a + due_of us a = Z.of_nat (n_actor a (activeTimers i)))%Z;
  n_nonneg m a : actorStates i = Some m → (0 ≤ timers_of m a)%Z
}.

Lemma counted_New : counted New [].
Proof.
  split.
  - done.
  - done.
  - right. constructor.
  - intros m a [= <-]. done.
  - intros m a [= <-]. done.
Qed.

(** The count of a type after it was changed. *)
Lemma count_insert ty ty' z i c :
  activeTimersCount i = <[ty := i64_wrap (default 0%Z (c !! ty) + z)]> c →
  GetActiveTimersCount ty' i =
    if decide (ty = ty') then i64_wrap (default 0%Z (c !! ty) + z) else default 0%Z (c !! ty').
Proof.
  intros E. unfold GetActiveTimersCount. rewrite E. case_decide as Hd.
  - subst ty'. by rewrite lookup_insert_eq.
  - by rewrite lookup_insert_ne.
Qed.

(** The edits change the counts by one. *)
Lemma counted_unreg k t ty i us : keyed i → activeTimers i !! k = Some t → ty = ttype t →
  counted i us →
  (∀ k' t', activeTimers (unreg k ty i) !! k' = Some t' → plain_reminder (tm_body t') = true) ∧
  (∀ ty', GetActiveTimersCount ty' (unreg k ty i) = i64_wrap (Z.of_nat (n_type ty' (activeTimers (unreg k ty i))))) ∧
  (∀ a, Z.of_nat (n_actor a (activeTimers i)) =
     ((if decide (takey t = a) then 1 else 0) + Z.of_nat (n_actor a (activeTimers (unreg k ty i))))%Z).
Proof.
  intros Hk Ht -> [Hp Hn _ _ _]. rewrite unreg_active. split_and!.
  - intros k' t' [_ H]%lookup_delete_Some. by eapply Hp.
  - intros ty'. rewrite (count_insert _ ty' _ _ _ (unreg_count k (ttype t) i)).
    pose proof (Hn ty') as Hty. unfold GetActiveTimersCount in Hty. unfold n_type in *.
    rewrite (msum_delete _ _ _ _ Ht) in Hty. case_decide as Hd.
    + subst ty'. rewrite Hty, i64_wrap_add_l. f_equal. lia.
    + done.
  - intros a. unfold n_actor. rewrite (msum_delete _ _ _ _ Ht). case_decide; lia.
Qed.

Lemma counted_reg t i us : activeTimers i !! tkey t = None → plain_reminder (tm_body t) = true →
  counted i us →
  (∀ k' t', activeTimers (reg t i) !! k' = Some t' → plain_reminder (tm_body t') = true) ∧
  (∀ ty', GetActiveTimersCount ty' (reg t i) = i64_wrap (Z.of_nat (n_type ty' (activeTimers (reg t i))))) ∧
  (∀ a, Z.of_nat (n_actor a (activeTimers (reg t i))) =
     ((if decide (takey t = a) then 1 else 0) + Z.of_nat (n_actor a (activeTimers i)))%Z).
Proof.
  intros Ht Hpt [Hp Hn _ _ _]. rewrite reg_active. split_and!.
  - intros k' t' [[_ <-]|[_ H]]%lookup_insert_Some; [done|]. by eapply Hp.
  - intros ty'. rewrite (count_insert _ ty' _ _ _ (reg_count t i)).
    pose proof (Hn ty') as Hty. unfold GetActiveTimersCount in Hty. unfold n_type in *.
    rewrite msum_insert_None by done. case_decide as Hd.
    + subst ty'. rewrite Hty, i64_wrap_add_l. f_equal. lia.
    + done.
  - intros a. unfold n_actor. rewrite msum_insert_None by done. case_decide; lia.
Qed.

(** ** Sections *)

Lemma counted_make i us i' us' : counted i us → frame i i' →
  (∀ k t, activeTimers i' !! k = Some t → plain_reminder (tm_body t) = true) →
  (∀ ty, GetActiveTimersCount ty i' = i64_wrap (Z.of_nat (n_type ty (activeTimers i')))) →
  updates_ok us' →
  (∀ a, Z.of_nat (n_actor a (activeTimers i')) - due_of us' a = Z.of_nat (n_actor a (activeTimers i)) - due_of us a)%Z →
  counted i' us'.
Proof.
  intros [Hp Hn _ Ha Hz] (_ & Em & _ & _) Hp' Hn' Hu Hd. split; try done.
  - intros m a Hm. rewrite Em in Hm. specialize (Ha m a Hm). specialize (Hd a). lia.
  - rewrite Em. exact Hz.
Qed.

Lemma due_of_app us us' a : due_of (us ++ us') a = (due_of us a + due_of us' a)%Z.
Proof. induction us as [|[k d] us IH]; cbn; [done|]. rewrite IH. lia. Qed.

(** Unregistering with the update that follows from it. *)
Lemma counted_unreg_update k t i us : keyed i → activeTimers i !! k = Some t →
  Forall (λ kd, kd.2 = (-1)%Z) us → counted i us →
  counted (unreg k (ttype t) i) (us ++ [(takey t, (-1)%Z)]).
Proof.
  intros Hk Ht Hus Hc. destruct (counted_unreg k t (ttype t) i us Hk Ht eq_refl Hc) as (H1 & H2 & H3).
  eapply counted_make; [exact Hc|apply frame_unreg|done..| |].
  - right. apply list.Forall_app. split; [done|]. by repeat constructor.
  - intros a. rewrite due_of_app, H3. cbn. case_decide; lia.
Qed.

Lemma same_actor k t t' : plain_reminder (tm_body t) = true → plain_reminder (tm_body t') = true →
  tkey t = k → tkey t' = k → ttype t = ttype t' ∧ takey t = takey t'.
Proof.
  intros H1 H2 E1 E2. destruct (Key_inj (tm_body t) (tm_body t')) as (E3 & E4 & _); [done..|unfold tkey in *; congruence|].
  unfold ttype, takey, Reminder_ActorKey. by rewrite E3, E4.
Qed.

Lemma Create_counted ctxErr t i : keyed i → plain_reminder (tm_body t) = true → counted i [] →
  counted (Create ctxErr t i).1 (updates (Create ctxErr t i).2).
Proof.
  intros Hk Hp Hc. rewrite (Create_edits _ _ _ Hk). destruct ctxErr; [done|].
  destruct (activeTimers i !! tkey t) as [prev|] eqn:E.
  - destruct (same_actor (tkey t) prev t) as [Ety Eak]; [by eapply n_plain|done|by apply Hk|done|].
    pose proof (counted_unreg_update _ _ _ [] Hk E ltac:(constructor) Hc) as Hu. rewrite Ety, Eak in Hu.
    destruct (NextTick (tm_body t)).2; [|exact Hu]. cbn [fst snd updates omap list_omap].
    destruct (counted_reg t (unreg (tkey t) (ttype t) i) _ ltac:(by rewrite unreg_active, lookup_delete_eq) Hp Hu)
      as (H1 & H2 & H3).
    eapply counted_make; [exact Hu|apply frame_reg|done..|by right|].
    intros a. rewrite H3. cbn. case_decide; lia.
  - destruct (NextTick (tm_body t)).2; [|done]. cbn [fst snd updates omap list_omap].
    destruct (counted_reg t i [] E Hp Hc) as (H1 & H2 & H3).
    eapply counted_make; [exact Hc|apply frame_reg|done..|left; by eexists|].
    intros a. rewrite H3. cbn. case_decide; lia.
Qed.

Lemma Delete_counted k i : keyed i → counted i [] → counted (Delete k i).1 (updates (Delete k i).2).
Proof.
  intros Hk Hc. rewrite (Delete_edits _ _ Hk). destruct (activeTimers i !! k) as [t|] eqn:E; [|done].
  by apply (counted_unreg_update k t i []).
Qed.

Lemma updates_app es es' : updates (es ++ es') = updates es ++ updates es'.
Proof. apply omap_app. Qed.

Lemma DeleteFunc_counted fn i : keyed i → counted i [] →
  counted (DeleteFunc fn i).1 (updates (DeleteFunc fn i).2).
Proof.
  intros Hk Hc.
  apply (DeleteFunc_ind (λ j es, counted j (updates es) ∧ Forall (λ kd, kd.2 = (-1)%Z) (updates es))); [done| |done].
  intros j es k t Hkj [Hj Hes] Ht. rewrite updates_app. cbn. split; [by apply counted_unreg_update|].
  apply list.Forall_app. split; [done|]. by repeat constructor.
Qed.

Lemma dropTimer_counted t i n F : core i n (t :: F) → counted i [] →
  counted (dropTimer t i).1 (updates (dropTimer t i).2).
Proof.
  intros Hc Hn. pose proof (same_spec _ _ _ t Hc (list_elem_of_here _ _)) as Hs.
  rewrite (dropTimer_eq _ _ _ _ Hc). destruct (same _ _); [|done].
  apply (counted_unreg_update (tkey t) t i []); [apply Hc|done|constructor|done].
Qed.

Lemma advance_counted t next i n F : core i n (t :: F) → counted i [] → activeTimers i !! tkey t = Some t →
  ActorType (tm_body next) = ActorType (tm_body t) → ActorID (tm_body next) = ActorID (tm_body t) →
  counted (advance (tkey t) next i) [].
Proof.
  intros Hc Hn Ht Ety Eid. pose proof (advance_same (tkey t) next i) as (_ & _ & _ & _ & Ec & _).
  assert (∀ f : timer → nat, f next = f t → msum f (activeTimers (advance (tkey t) next i)) = msum f (activeTimers i)) as Hm.
  { intros f Hf. rewrite advance_active. pose proof (msum_insert f _ _ _ next Ht). lia. }
  eapply counted_make; [exact Hn|apply frame_advance|..].
  - intros k u. rewrite advance_active. intros [[_ <-]|[_ H]]%lookup_insert_Some; [|by eapply n_plain].
    unfold plain_reminder. rewrite Ety, Eid. by eapply (n_plain _ _ Hn).
  - intros ty. unfold GetActiveTimersCount. rewrite Ec. unfold n_type. rewrite Hm; [apply (n_types _ _ Hn)|].
    unfold ttype. by rewrite Ety.
  - by right.
  - intros a. unfold n_actor. rewrite Hm; [done|]. unfold takey, Reminder_ActorKey. by rewrite Ety, Eid.
Qed.

Lemma reschedule_counted t next_id err p i n R : reschedule t next_id err = Some p →
  core i n (t :: R) → counted i [] → counted (p i).1 (updates (p i).2).
Proof.
  intros Hp Hc Hn. pose proof (TickExecuted_key (tm_body t)) as (_ & _ & Hty & Hid). unfold reschedule in Hp.
  destruct err as [[]|]; try done; try (injection Hp as <-; by eapply dropTimer_counted).
  all: destruct (TickExecuted (tm_body t)) as [body done]; injection Hp as <-; cbn in Hty, Hid.
  all: destruct (done || _); [by eapply dropTimer_counted|].
  all: rewrite (advance_edits t _ i); pose proof (same_spec _ _ _ t Hc (list_elem_of_here _ _)) as Hs.
  all: destruct (same _ _); [|done]; by eapply advance_counted.
Qed.

(** ** The states of the actors *)

Lemma due_rest k d us a : updates_ok ((k, d) :: us) → (due_of us a ≤ 0)%Z ∧ (d = 1 ∨ d = -1)%Z.
Proof.
  intros [[k' [= -> -> ->]]|Hu]; [cbn; lia|]. apply list.Forall_cons in Hu as [Hd Hu]. cbn in Hd. split; [|lia].
  clear Hd. induction Hu as [|[k1 d1] us1 Hd Hu IH]; cbn in *; [lia|]. case_decide; lia.
Qed.

Lemma updates_ok_rest x us : updates_ok (x :: us) → updates_ok us.
Proof.
  intros [[k [= -> ->]]|Hu]; [right; constructor|right]. by apply list.Forall_cons in Hu as [_ ?].
Qed.

(** Only the actor states change. *)
Lemma counted_states i us us' m c : counted i us → updates_ok us' →
  (∀ a, timers_of m a + due_of us' a = Z.of_nat (n_actor a (activeTimers i)))%Z →
  (∀ a, 0 ≤ timers_of m a)%Z → counted (set_states (Some m) (nextLoop i) c i) us'.
Proof.
  intros [Hp Hn _ _ _] Hu Ha Hz. split; try done.
  - intros m' a [= <-]. apply Ha.
  - intros m' a [= <-]. apply Hz.
Qed.

Lemma timers_of_insert m k st a : timers_of (<[k := st]> m) a = if decide (k = a) then as_timers st else timers_of m a.
Proof. unfold timers_of. case_decide as Hd; [subst a; by rewrite lookup_insert_eq|by rewrite lookup_insert_ne]. Qed.

Lemma timers_of_delete m k a : timers_of (delete k m) a = if decide (k = a) then 0%Z else timers_of m a.
Proof. unfold timers_of. case_decide as Hd; [subst a; by rewrite lookup_delete_eq|by rewrite lookup_delete_ne]. Qed.

(** Storing and reaping gives the actor the timers of the state, if they are not
    negative. *)
Lemma timers_of_put_reap m k st a : (0 ≤ as_timers st)%Z →
  timers_of (if busy st then <[k := st]> m else delete k m) a = if decide (k = a) then as_timers st else timers_of m a.
Proof.
  intros Hz. destruct (busy st) eqn:E; [apply timers_of_insert|]. rewrite timers_of_delete.
  case_decide; [|done]. unfold busy in E. apply orb_false_iff in E as [E _]. lia.
Qed.

Lemma update_counted k d us i : counted i ((k, d) :: us) → counted (updateActorTimers k d i).1 us.
Proof.
  intros Hc. destruct (due_rest k d us k (n_updates _ _ Hc)) as [Hr Hd].
  pose proof (updates_ok_rest _ _ (n_updates _ _ Hc)) as Hu. unfold updateActorTimers, get.
  destruct (actorStates i) as [m|] eqn:Em.
  - assert (∀ a, timers_of m a + ((if decide (k = a) then d else 0) + due_of us a) = Z.of_nat (n_actor a (activeTimers i)))%Z
      as Ha by (intros a; exact (n_actors _ _ Hc m a Em)).
    pose proof (Ha k) as Hak. rewrite decide_True in Hak by done.
    assert (∀ st, as_timers st = timers_of m k →
      let st' := {| as_loop := as_loop st; as_pending := as_pending st; as_timers := as_timers st + d |} in
      counted ((putState k st' ;;; maybeReapLocked k st') i).1 us) as Hput.
    { intros st Hst st'. rewrite (put_reap_eq _ _ _ _ Em). cbn [fst].
      assert (0 ≤ as_timers st')%Z as Hz by (cbn; lia).
      eapply counted_states; [exact Hc|done|..]; intros a; rewrite timers_of_put_reap by done.
      - specialize (Ha a). case_decide; [subst a; cbn; lia|lia].
      - case_decide; [done|by apply (n_nonneg _ _ Hc)]. }
    assert (timers_of m k = default 0%Z (as_timers <$> m !! k)) as Ht by done.
    destruct (m !! k) as [st|]; [by apply Hput|]. cbn in Ht.
    destruct (d <=? 0)%Z eqn:E; [lia|]. apply (Hput newActorState). cbn. lia.
  - split; cbn; rewrite ?Em; try done; apply Hc.
Qed.

Lemma fireDone_counted k us i : counted i us → counted (fireDone k i).1 us.
Proof.
  intros Hc. unfold fireDone, get. destruct (actorStates i) as [m|] eqn:Em; [|done]. cbn.
  destruct (m !! k) as [st|] eqn:Ek; [|done]. rewrite (put_reap_eq _ _ _ _ Em). cbn [fst].
  set (st' := {| as_loop := as_loop st; as_pending := as_pending st - 1; as_timers := as_timers st |}).
  assert (as_timers st' = timers_of m k) as Hst by (unfold timers_of; by rewrite Ek).
  assert (∀ a, timers_of (if busy st' then <[k := st']> m else delete k m) a = timers_of m a) as Ht.
  { intros a. rewrite timers_of_put_reap by (rewrite Hst; by apply (n_nonneg _ _ Hc)). case_decide; [|done]. by subst a. }
  eapply counted_states; [exact Hc|apply Hc|..]; intros a; rewrite Ht.
  - by apply (n_actors _ _ Hc).
  - by apply (n_nonneg _ _ Hc).
Qed.

(** ** Runs *)

Definition plain_event (e : event) : bool :=
  match e with ECreate _ r => plain_reminder r | _ => true end.

Definition counted_sys (s : sys) : Prop := counted (store s) (lock_updates s).

Lemma counted_ext i i' us : counted i us → activeTimers i' = activeTimers i →
  activeTimersCount i' = activeTimersCount i → actorStates i' = actorStates i → counted i' us.
Proof.
  intros [Hp Hn Hu Ha Hz] E1 E2 E3. unfold GetActiveTimersCount in *.
  split; unfold GetActiveTimersCount; rewrite ?E1, ?E2, ?E3; done.
Qed.

Lemma is_free_updates s : is_free (queueLock s) = true → lock_updates s = [].
Proof. unfold lock_updates. by destruct (queueLock s). Qed.

Lemma section_updates who p s : lock_updates (section who p s) = updates (p (store s)).2.
Proof. unfold section, lock_updates. destruct (p (store s)) as [i es]. cbn [snd queueLock]. by destruct (updates es). Qed.

Lemma section_counted who p s : counted (p (store s)).1 (updates (p (store s)).2) → counted_sys (section who p s).
Proof. intros H. unfold counted_sys. rewrite section_updates. by destruct (section_loops who p s) as (_ & _ & _ & ->). Qed.

Lemma route_counted k i i' l es us : counted i us → processorExecuteFn k i = (i', l, es) → counted i' us.
Proof.
  intros Hc. unfold processorExecuteFn. destruct (closed i); [by intros [= <- _ _]|].
  destruct (actorStates i) as [m|] eqn:Em; [|by intros [= <- _ _]].
  destruct (match as_loop _ with Some _ => _ | None => _ end) as [[l0 n0] es0]. intros [= <- _ _].
  assert (∀ a, timers_of (<[k := {| as_loop := Some l0;
      as_pending := as_pending (default newActorState (m !! k)) + 1;
      as_timers := as_timers (default newActorState (m !! k)) |}]> m) a = timers_of m a) as Ht.
  { intros a. rewrite timers_of_insert. case_decide; [subst a|done]. unfold timers_of. by destruct (m !! k). }
  destruct Hc as [Hp Hn Hu Ha Hz]. split; try done; intros m' a [= <-]; rewrite Ht; eauto.
Qed.

Lemma loop_counted l e s s' o : good s → counted_sys s → step e s = Some (s', o) →
  e = EHandle l ∨ e = ECheck l ∨ (∃ a, e = EReturn l a) ∨ e = ESettle l ∨ e = EFireDone l ∨ e = EStop l →
  counted_sys s'.
Proof.
  intros Hg Hc Hs He. destruct He as [->|[->|[[a ->]|[->|[->| ->]]]]]; cbn [step] in Hs;
    apply bind_Some in Hs as (x & Hx & Hs);
    try (destruct x as [[lp t] ph]; apply run_phase_Some in Hx as [Hlp Hr]; destruct ph as [|rm|err|]; try done).
  - destruct (lp_run x); [done|]. destruct (lp_queue x); [done|]. by injection Hs as <- _.
  - case_match; [done|]. case_match; by injection Hs as <- _.
  - case_match; [|done]. by injection Hs as <- _.
  - destruct (reschedule _ _ _) as [p|] eqn:E; [|by injection Hs as <- _].
    destruct (is_free _) eqn:Ef; [|done]. injection Hs as <- _.
    assert (counted_sys (section (Some l) p s)) as H; [|exact H].
    pose proof (run_fire _ _ _ _ _ Hlp Hr eq_refl) as Hin. apply elem_of_Permutation in Hin as (F & HF).
    apply section_counted. eapply reschedule_counted; [exact E|eapply core_perm; [exact HF|apply Hg]|].
    unfold counted_sys in Hc. by rewrite (is_free_updates _ Ef) in Hc.
  - case_match; [done|]. injection Hs as <- _. unfold counted_sys, states_section, lock_updates. cbn.
    destruct (fireDone (takey t) (store s)) as [i es] eqn:E. cbn.
    pose proof (fireDone_counted (takey t) _ _ Hc) as Hfd. by rewrite E in Hfd.
  - destruct (lp_closing x); [|done]. destruct (lp_run x); [done|]. destruct (lp_queue x); [|done]. by injection Hs as <- _.
Qed.

Lemma step_counted e s s' o : good s → plain_event e = true → counted_sys s → step e s = Some (s', o) → counted_sys s'.
Proof.
  intros Hg Hp Hc Hs. pose proof (v_core _ (proj1 Hg)) as Hcore. pose proof Hc as Hc0. unfold counted_sys in Hc0.
  destruct e as [ctxErr r|k|fn| |k|n|n|l|l|l a|l|l|l| | |]; try (by eapply (loop_counted l); eauto 10); cbn [step] in Hs.
  - destruct (is_free _) eqn:Ef; [|done]. rewrite (is_free_updates _ Ef) in Hc0. injection Hs as <- _.
    apply section_counted, Create_counted; [apply Hcore|done|done].
  - destruct (is_free _) eqn:Ef; [|done]. rewrite (is_free_updates _ Ef) in Hc0. injection Hs as <- _.
    apply section_counted, Delete_counted; [apply Hcore|done].
  - destruct (is_free _) eqn:Ef; [|done]. rewrite (is_free_updates _ Ef) in Hc0. injection Hs as <- _.
    apply section_counted, DeleteFunc_counted; [apply Hcore|done].
  - destruct (queueLock s) as [[who [|[k d] us]]|] eqn:Eq; try done. injection Hs as <- _.
    assert (counted (store s) ((k, d) :: us)) as H by (unfold lock_updates in Hc0; by rewrite Eq in Hc0).
    apply update_counted in H. unfold counted_sys, states_section, lock_updates.
    destruct (updateActorTimers k d (store s)) as [i es]. cbn. by destruct us.
  - apply bind_Some in Hs as (t & Ht & Hs). injection Hs as <- _. by apply (counted_ext (store s)).
  - apply bind_Some in Hs as (t & Ht & Hs). destruct (processorExecuteFn _ _) as [[i l] es] eqn:E.
    injection Hs as <- _. by eapply route_counted.
  - apply bind_Some in Hs as ([t l] & Ht & Hs). case_match; [case_match|]; by injection Hs as <- _.
  - injection Hs as <- _. by apply (counted_ext (store s)).
  - case_match; [|done]. injection Hs as <- _. by apply (counted_ext (store s)).
  - repeat (case_match; try done). injection Hs as <- _. destruct Hc0 as [Hp0 Hn Hu Ha Hz]. by split.
Qed.

Lemma reachable_counted es s o : forallb plain_event es = true → run_events es init = Some (s, o) → counted_sys s.
Proof.
  revert s o. induction es as [|e es IH] using rev_ind; intros s o Hp.
  - intros [= <- <-]. exact counted_New.
  - rewrite forallb_app in Hp. apply andb_true_iff in Hp as [Hp He]. cbn in He. rewrite andb_true_r in He.
    intros (s1 & o1 & o2 & H1 & H2 & ->)%run_events_app.
    apply run_events_cons in H2 as (s2 & o3 & o4 & H2 & [= <- <-] & ->).
    eapply step_counted; [by eapply reachable_good|exact He| |exact H2]. by eapply IH.
Qed.
