(* ===== verification/TimersProps.v ===== *)
(** * Actor timers: properties

    Over every interleaving of the callers, the scheduler and the loops: the
    tables agree, no timer is lost or fires twice at once, a removed timer stays
    silent, loops are never used after they were closed, and a timer fires as
    often as it was asked to.  The witnesses run two actors with three timers. *)

From S2P Require Import Prelude GoDate Timers TimersInv TimersLoops TimersCount.

Local Open Scope dapr_scope.

(** ** What is registered *)

(** The number of chances a timer has to fire: its place in the queue, and its
    fires. *)
Definition chances (t : timer) (s : sys) : nat :=
  (if same (processor (store s) !! tkey t) t then 1 else 0) +
  length (filter (λ u, tm_id u = tm_id t) (fires s)).

Lemma filter_id_length t F : NoDup (tm_id <$> F) →
  length (filter (λ u, tm_id u = tm_id t) F) = if decide (tm_id t ∈ tm_id <$> F) then 1 else 0.
Proof.
  induction F as [|u F IH]; intros Hnd; [done|]. apply list.NoDup_cons in Hnd as [Hu Hnd].
  rewrite filter_cons. specialize (IH Hnd). destruct (decide (tm_id u = tm_id t)) as [H1|H1].
  - cbn [length]. rewrite IH. rewrite decide_False by (rewrite <- H1; done).
    rewrite decide_True; [done|]. rewrite <- H1. left.
  - rewrite IH. apply decide_ext. cbn. rewrite elem_of_cons. split; [by right|]. intros [H|H]; [congruence|done].
Qed.

Lemma chances_bound t s : inv s → chances t s ≤ 1.
Proof.
  intros [Hc _ _]. unfold chances, same. rewrite (filter_id_length t _ (c_nodup _ _ _ Hc)).
  destruct (processor (store s) !! tkey t) as [u|] eqn:E; [|case_decide; lia].
  destruct (tm_id u =? tm_id t)%N eqn:Eid; [|case_decide; lia]. apply N.eqb_eq in Eid.
  rewrite decide_False; [lia|]. intros (v & Hv & Hin)%list_elem_of_fmap.
  apply (c_disjoint _ _ _ Hc _ _ v E Hin). congruence.
Qed.

Lemma chances_kept k t s : inv s → ctxCancelled (store s) = false → activeTimers (store s) !! k = Some t →
  1 ≤ chances t s.
Proof.
  intros [Hc _ _] Hx Ht. pose proof (c_key _ _ _ Hc _ _ Ht) as <-. unfold chances, same.
  destruct (c_kept _ _ _ Hc _ _ Hx Ht) as [->|Hin]; [rewrite N.eqb_refl; lia|].
  rewrite (filter_id_length t _ (c_nodup _ _ _ Hc)). rewrite (decide_True (P := _ ∈ _)); [lia|].
  by apply list_elem_of_fmap_2.
Qed.

(** C18: No timer is lost or doubled. Over every interleaving of the callers, the scheduler
    and the loops of the actors, a timer has at most one chance to fire, which is its place
    in the queue or a fire on its way; and until the store is closed every registered timer
    has exactly one, whatever callbacks fail and whatever is created, replaced and deleted
    meanwhile. *)
Theorem timer_kept es s o k t :
  run_events es init = Some (s, o) →
  (∀ u, chances u s ≤ 1) ∧
  (ctxCancelled (store s) = false → activeTimers (store s) !! k = Some t → chances t s = 1).
Proof.
  intros [[Hi _] _]%reachable_good. split; [intros u; by apply chances_bound|]. intros Hx Ht.
  pose proof (chances_bound t s Hi). pose proof (chances_kept k t s Hi Hx Ht). lia.
Qed.

(** ** Steps, by what they do to the tables *)

(** The section a step runs under queueLock. *)
Inductive section_of (s : sys) : event → prog inmemory store_effect → Prop :=
| so_create ctxErr r : section_of s (ECreate ctxErr r) (Create ctxErr {| tm_id := nextTimer s; tm_body := r |})
| so_delete k : section_of s (EDelete k) (Delete k)
| so_deleteFunc fn : section_of s (EDeleteFunc fn) (DeleteFunc fn)
| so_settle l lp t err p : loops s !! l = Some lp → lp_run lp = Some (t, PReturned err) →
    reschedule t (nextTimer s) err = Some p → section_of s (ESettle l) p.

Definition same_tables (i i' : inmemory) : Prop :=
  activeTimers i' = activeTimers i ∧ removals i' = removals i ∧ nextRemoval i' = nextRemoval i.

Lemma states_only_tables p s : states_only p → same_tables (store s) (store (states_section p s)).
Proof.
  intros Hp. unfold states_section. destruct (Hp (store s)) as [_ (m & Hm)].
  destruct (p (store s)) as [i es]. cbn in *. by subst i.
Qed.

Lemma step_store e s s' o : step e s = Some (s', o) →
  (∃ p, section_of s e p ∧ store s' = (p (store s)).1) ∨
  (same_tables (store s) (store s') ∧ ∀ p, ¬ section_of s e p).
Proof.
  intros Hs.
  assert (∀ who p s1 o1, Some (section who p s, o1) = Some (s1, o) → store s1 = (p (store s)).1) as Hsec
    by (intros who p s1 o1 [= <- _]; by apply section_loops).
  assert (∀ s1 o1, Some (s1, o1) = Some (s', o) → same_tables (store s) (store s1) →
    match e with ECreate _ _ | EDelete _ | EDeleteFunc _ | ESettle _ => False | _ => True end →
    same_tables (store s) (store s') ∧ ∀ p, ¬ section_of s e p) as Hsame.
  { intros s1 o1 [= <- _] Ht He. split; [done|]. intros p Hp. by destruct Hp. }
  destruct e as [ctxErr r|k|fn| |k|n|n|l|l|l a|l|l|l| | |]; cbn [step] in Hs.
  1-3: case_match; [|done]; left; eexists; split; [constructor|by eapply Hsec].
  1: destruct (queueLock s) as [[who [|[k d] us]]|]; try done; right;
    apply (Hsame _ _ Hs); [apply (states_only_tables (updateActorTimers k d) s), updateActorTimers_states|done].
  all: try (apply bind_Some in Hs as (x & Hx & Hs)).
  - right. by apply (Hsame _ _ Hs).
  - destruct (processorExecuteFn (takey x) (store s)) as [[i l] es] eqn:E. right. apply (Hsame _ _ Hs); [|done]. cbn.
    unfold processorExecuteFn in E. destruct (closed _); [by injection E as <- _ _|].
    destruct (actorStates _); [|by injection E as <- _ _].
    destruct (match as_loop _ with Some _ => _ | None => _ end) as [[? ?] ?]. by injection E as <- _ _.
  - destruct x as [t l]. right. destruct (loops s !! l) as [lp|]; [destruct (lp_closing lp)|]; by apply (Hsame _ _ Hs).
  - right. destruct (lp_run x); [done|]. destruct (lp_queue x); [done|]. by apply (Hsame _ _ Hs).
  - destruct x as [[lp t] ph]. right. destruct ph; try done. destruct (negb _); [done|].
    destruct (fire_check t (store s)); by apply (Hsame _ _ Hs).
  - destruct x as [[lp t] ph]. right. destruct ph; try done. destruct (_ && _); [|done]. by apply (Hsame _ _ Hs).
  - destruct x as [[lp t] ph]. apply run_phase_Some in Hx as [Hlp Hr]. destruct ph as [| |err|]; try done.
    destruct (reschedule _ _ _) as [p|] eqn:E.
    2: { right. injection Hs as <- _. split; [done|]. intros p Hp. inversion Hp; simplify_eq. }
    case_match; [|done]. injection Hs as <- _. left. exists p. split; [by eapply so_settle|].
    cbn. by apply section_loops.
  - destruct x as [[lp t] ph]. destruct ph; try done. destruct (holds _ _); [done|]. right. apply (Hsame _ _ Hs); [|done].
    apply (states_only_tables (fireDone (takey t)) (set_loop l (idle lp) s)), fireDone_states.
  - right. destruct (lp_closing x); [|done]. destruct (lp_run x); [done|]. destruct (lp_queue x); [|done].
    by apply (Hsame _ _ Hs).
  - right. by apply (Hsame _ _ Hs).
  - right. destruct (ctxCancelled _); [|done]. by apply (Hsame _ _ Hs).
  - right. destruct (processorClosed _); [|done]. destruct (popped s); [|done]. destruct (routed s); [|done].
    destruct (actorStates _); [|done]. by apply (Hsame _ _ Hs).
Qed.

(** A callback is called by the check of a loop, with what the tables say. *)
Lemma step_called e s s' o t rm : step e s = Some (s', o) → Called t rm ∈ o →
  ∃ l lp, e = ECheck l ∧ loops s !! l = Some lp ∧ lp_run lp = Some (t, PStarted) ∧
    fire_check t (store s) = Some rm ∧ s' = set_loop l (in_phase t (PCall rm) lp) s ∧ o = [Called t rm].
Proof.
  intros Hs Hin.
  destruct e as [ctxErr r|k|fn| |k|n|n|l|l|l a|l|l|l| | |]; cbn [step] in Hs;
    try (apply bind_Some in Hs as (x & Hx & Hs));
    try (by repeat (case_match; try done); injection Hs as _ <-; set_solver).
  destruct x as [[lp u] ph]. apply run_phase_Some in Hx as [Hlp Hr]. destruct ph; try done.
  case_match; [done|]. destruct (fire_check u (store s)) as [rm'|] eqn:E; injection Hs as <- <-; [|set_solver].
  apply list_elem_of_singleton in Hin as [= -> ->]. by exists l, lp.
Qed.

(** ** Silence after removal *)

Definition creates (k : string) (e : event) : bool :=
  match e with ECreate _ r => bool_decide (Key r = k) | _ => false end.

(** A section keeps a key unregistered. *)
Definition unregistered_by (p : prog inmemory store_effect) (k : string) (i : inmemory) : Prop :=
  activeTimers i !! k = None → activeTimers (p i).1 !! k = None.

Lemma unreg_unregistered k k' ty i : activeTimers i !! k = None → activeTimers (unreg k' ty i) !! k = None.
Proof. rewrite unreg_active. intros H. apply lookup_delete_None. by right. Qed.

Lemma Create_unregistered ctxErr t k i : keyed i → tkey t ≠ k → unregistered_by (Create ctxErr t) k i.
Proof.
  intros Hk Hne H. rewrite (Create_edits _ _ _ Hk). destruct ctxErr; [done|].
  destruct (activeTimers i !! tkey t); destruct (NextTick _).2; cbn [fst]; try done.
  - rewrite reg_active, lookup_insert_ne by done. by apply unreg_unregistered.
  - by apply unreg_unregistered.
  - by rewrite reg_active, lookup_insert_ne.
Qed.

Lemma Delete_unregistered k k' i : keyed i → unregistered_by (Delete k') k i.
Proof.
  intros Hk H. rewrite (Delete_edits _ _ Hk). destruct (activeTimers i !! k'); [by apply unreg_unregistered|done].
Qed.

Lemma Delete_unregisters k i : keyed i → activeTimers (Delete k i).1 !! k = None.
Proof.
  intros Hk. rewrite (Delete_edits _ _ Hk). destruct (activeTimers i !! k) eqn:E; [|done]. cbn [fst].
  by rewrite unreg_active, lookup_delete_eq.
Qed.

Lemma DeleteFunc_unregistered fn k i : keyed i → unregistered_by (DeleteFunc fn) k i.
Proof.
  intros Hk H. apply (DeleteFunc_ind (λ j _, activeTimers j !! k = None)); [done| |done].
  intros j es k' t _ Hj _. by apply unreg_unregistered.
Qed.

Lemma reschedule_unregistered t next_id err p k i : reschedule t next_id err = Some p → unregistered_by p k i.
Proof.
  intros Hp H.
  assert (activeTimers (dropTimer t i).1 !! k = None) as Hd.
  { unfold dropTimer, get, when. destruct (same _ _); [|done]. unfold forget. rewrite seqp_eq. cbn [fst]. cbn.
    case_match; cbn; apply lookup_delete_None; by right. }
  unfold reschedule in Hp.
  destruct err as [[]|]; try done; try (injection Hp as <-; exact Hd).
  all: destruct (TickExecuted (tm_body t)) as [body done]; injection Hp as <-.
  all: destruct (done || _); [exact Hd|]; rewrite (advance_edits t _ i).
  all: destruct (same (activeTimers i !! tkey t) t) eqn:E; [cbn [fst]|done].
  all: rewrite advance_active, lookup_insert_ne; [done|]; intros Hk; by rewrite Hk, H in E.
Qed.

Lemma step_unregistered e s s' o k : good s → creates k e = false → activeTimers (store s) !! k = None →
  step e s = Some (s', o) →
  activeTimers (store s') !! k = None ∧ ∀ t rm, Called t rm ∈ o → tkey t ≠ k.
Proof.
  intros Hg He Hn Hs. pose proof (c_key _ _ _ (v_core _ (proj1 Hg))) as Hk. split.
  - destruct (step_store _ _ _ _ Hs) as [(p & Hp & ->)|[(-> & _) _]]; [|done].
    destruct Hp as [ctxErr r|k'|fn|l lp t err p Hlp Hr Hp].
    + apply Create_unregistered; [done| |done]. cbn in He. by apply bool_decide_eq_false in He.
    + by apply Delete_unregistered.
    + by apply DeleteFunc_unregistered.
    + by eapply reschedule_unregistered.
  - intros t rm Hin. destruct (step_called _ _ _ _ _ _ Hs Hin) as (l & lp & _ & _ & _ & Hf & _).
    intros <-. unfold fire_check in Hf. by rewrite Hn in Hf.
Qed.

Lemma run_unregistered es s s' o k : good s → forallb (λ e, negb (creates k e)) es = true →
  activeTimers (store s) !! k = None → run_events es s = Some (s', o) →
  good s' ∧ activeTimers (store s') !! k = None ∧ ∀ t rm, Called t rm ∈ o → tkey t ≠ k.
Proof.
  revert s o. induction es as [|e es IH]; intros s o Hg He Hn.
  - intros [= <- <-]. split_and!; try done. intros t rm H. set_solver.
  - cbn in He. apply andb_true_iff in He as [He Hes]. apply negb_true_iff in He.
    intros (s1 & o1 & o2 & H1 & H2 & ->)%run_events_cons. destruct (timers_step_good _ _ _ _ Hg H1) as [Hg1 _].
    destruct (step_unregistered _ _ _ _ _ Hg He Hn H1) as [Hn1 Ho1].
    destruct (IH _ _ Hg1 Hes Hn1 H2) as (Hg2 & Hn2 & Ho2). split_and!; try done.
    intros t rm [?|?]%elem_of_app; eauto.
Qed.

(** C19: A deleted timer stays silent. After a timer was deleted, and until one of its key
    is created again, no callback of the key starts, although fires may be parked behind
    other callbacks of the actor; and a callback of it that is still running has the context
    cancelled that it was given to be told. *)
Theorem removed_timer_silent es1 k es2 s1 s2 s3 o1 o2 o3 :
  run_events es1 init = Some (s1, o1) → step (EDelete k) s1 = Some (s2, o2) →
  forallb (λ e, negb (creates k e)) es2 = true → run_events es2 s2 = Some (s3, o3) →
  (∀ t rm, Called t rm ∈ o3 → tkey t ≠ k) ∧
  (∀ l lp t rm, loops s3 !! l = Some lp → lp_run lp = Some (t, PCall rm) → tkey t = k →
     ∃ r, rm = Some r ∧ r ∈ cancelled (store s3)).
Proof.
  intros [Hg _]%reachable_good Hs He Hr. destruct (timers_step_good _ _ _ _ Hg Hs) as [Hg2 _].
  assert (activeTimers (store s2) !! k = None) as Hn.
  { cbn in Hs. case_match; [|done]. injection Hs as <- _. destruct (section_loops None (Delete k) s1) as (_ & _ & _ & ->).
    apply Delete_unregisters, (c_key _ _ _ (v_core _ (proj1 Hg))). }
  destruct (run_unregistered _ _ _ _ _ Hg2 He Hn Hr) as (Hg3 & Hn3 & Ho). split; [done|].
  intros l lp t rm Hlp Hrun Hk. destruct (v_run _ (proj1 Hg3) _ _ _ _ Hlp Hrun) as [(Ha & _)|(_ & H)]; [|done].
  rewrite Hk, Hn3 in Ha. done.
Qed.

(** ** Loops *)

(** C20: Loops are used safely. In every run no fire is enqueued on a loop that is being
    closed; at most one callback of an actor runs at a time; and as long as the store is
    open, each open loop belongs to one actor which has timers or fires, and handles the
    fires of that actor only, while a closing loop has nothing left to do. *)
Theorem timer_loops_safe es s o :
  run_events es init = Some (s, o) →
  (∀ l, EnqueueOnClosed l ∉ o) ∧
  (∀ l l' lp lp' t t' ph ph', loops s !! l = Some lp → loops s !! l' = Some lp' →
     lp_run lp = Some (t, ph) → lp_run lp' = Some (t', ph') → takey t = takey t' → l = l') ∧
  (∀ m l lp, actorStates (store s) = Some m → loops s !! l = Some lp →
     if lp_closing lp then lp_queue lp = [] ∧ lp_run lp = None
     else ∃ a st, m !! a = Some st ∧ as_loop st = Some l ∧ busy st = true ∧ ∀ t, t ∈ loop_all lp → takey t = a).
Proof.
  intros [Hg Ho]%reachable_good. split; [done|]. split.
  - intros l l' lp lp' t t' ph ph' H1 H2 H3 H4. apply (links_serial _ (proj2 Hg)); right; [exists lp|exists lp'];
      unfold loop_all; rewrite ?H3, ?H4; set_solver.
  - intros m l lp Hm Hlp. pose proof (proj2 Hg) as Hl. unfold links in Hl. rewrite Hm in Hl. destruct Hl as (_ & Hk & Hb).
    assert (∀ t, t ∈ loop_all lp → ∃ st, m !! takey t = Some st ∧ as_loop st = Some l) as Hf
      by (intros t Ht; apply (k_fire _ _ _ Hk); right; eauto).
    destruct (lp_closing lp) eqn:Ec.
    + assert (loop_all lp = []) as Hall.
      { destruct (loop_all lp) as [|t L] eqn:E; [done|]. destruct (Hf t ltac:(left)) as (st & H1 & H2).
        destruct (k_loop _ _ _ Hk _ _ _ H1 H2) as (lp' & ? & ?). congruence. }
      unfold loop_all in Hall. apply app_eq_nil in Hall as [? Hr]. split; [done|]. by destruct (lp_run lp) as [[]|].
    + destruct (k_open _ _ _ Hk _ _ Hlp Ec) as (a & st & H1 & H2). exists a, st. split_and!; [done..|by eapply Hb|].
      intros t (st' & H3 & H4)%Hf. by eapply (k_inj _ _ _ Hk).
Qed.

(** ** Tables and counts *)

(** C21: The tables of the timers agree. If the names of types and actors do not contain the
    separator's character, then whenever the lock of the queue is free: what is queued is
    registered; exactly the registered timers have a context for their removal; the count of
    each type is the number of its timers; and the state of an actor counts its timers and
    its fires exactly and exists only while there are any. *)
Theorem timer_tables_agree es s o :
  forallb plain_event es = true → run_events es init = Some (s, o) → queueLock s = None →
  let i := store s in
  (∀ k t, processor i !! k = Some t → activeTimers i !! k = Some t) ∧
  (∀ k, is_Some (removals i !! k) ↔ is_Some (activeTimers i !! k)) ∧
  (∀ ty, GetActiveTimersCount ty i = i64_wrap (Z.of_nat (n_type ty (activeTimers i)))) ∧
  (∀ m a, actorStates i = Some m →
     timers_of m a = Z.of_nat (n_actor a (activeTimers i)) ∧
     pending_of m a = fires_of a (pending_fires (routed s) (loops s)) ∧
     (is_Some (m !! a) ↔ (0 < timers_of m a ∨ 0 < pending_of m a)%Z)).
Proof.
  intros Hp Hr Hq i. pose proof (reachable_counted _ _ _ Hp Hr) as Hc. unfold counted_sys, lock_updates in Hc.
  rewrite Hq in Hc. destruct (reachable_good _ _ _ Hr) as [[[Hcore _ _] Hl] _].
  split; [apply Hcore|]. split; [apply Hcore|]. split; [apply Hc|]. intros m a Hm.
  unfold links in Hl. fold i in Hl. rewrite Hm in Hl. destruct Hl as (_ & Hk & Hb).
  pose proof (n_actors _ _ Hc m a Hm) as Ha. cbn in Ha. fold i in Ha. split; [lia|]. split; [apply Hk|].
  unfold timers_of, pending_of. destruct (m !! a) as [st|] eqn:E; cbn.
  - split; [|done]. intros _. pose proof (Hb _ _ E) as H. unfold busy in H. apply orb_true_iff in H. lia.
  - split; [by intros []|lia].
Qed.

(** ** How often a timer fires *)

(** How often a reminder is to fire from now on; no answer where it is not
    limited. *)
Definition max_fires (r : Reminder) : option nat :=
  if HasRepeats r then if (0 <? repeats (Period r))%Z then Some (Z.to_nat (repeats (Period r))) else None
  else Some 1.

Lemma max_fires_positive r n : max_fires r = Some n → 1 ≤ n.
Proof. unfold max_fires. repeat case_match; intros [= <-]; lia. Qed.

Lemma TickExecuted_fires r n : max_fires r = Some n → (TickExecuted r).2 = false →
  ∃ n', max_fires (TickExecuted r).1 = Some n' ∧ n = S n'.
Proof.
  unfold max_fires, TickExecuted, HasRepeats. intros Hn. destruct (0 <? repeats (Period r))%Z eqn:E.
  - destruct (Period_HasRepeats (set_repeats (repeats (Period r) - 1) (Period r))) eqn:Eh; [|done]. intros _. cbn.
    rewrite Eh. assert (Period_HasRepeats (Period r) = true) as Eh'.
    { unfold Period_HasRepeats in *. cbn in Eh. apply andb_true_iff in Eh as [_ Eh]. rewrite Eh, andb_true_r.
      apply negb_true_iff. lia. }
    rewrite Eh' in Hn. injection Hn as <-. unfold Period_HasRepeats in Eh. cbn in Eh.
    apply andb_true_iff in Eh as [Eh _]. apply negb_true_iff in Eh.
    assert (0 <? repeats (Period r) - 1 = true)%Z as -> by lia. eexists. split; [done|]. lia.
  - destruct (Period_HasRepeats (Period r)) eqn:Eh; done.
Qed.

(** The calls made with a removal context. *)
Definition calls (r : N) (o : list obs) : nat :=
  sum_list_with (λ x, match x with Called _ (Some r') => if (r' =? r)%N then 1 else 0 | _ => 0 end) o.

Lemma calls_app r o o' : calls r (o ++ o') = calls r o + calls r o'.
Proof. apply sum_list_with_app. Qed.

Lemma calls_positive r o : 0 < calls r o → ∃ t, Called t (Some r) ∈ o.
Proof.
  induction o as [|x o IH]; cbn; [lia|]. destruct x as [t [r'|]|l]; cbn; [destruct (r' =? r)%N eqn:E|..].
  - apply N.eqb_eq in E as ->. intros _. exists t. left.
  - intros [u Hu]%IH. exists u. by right.
  - intros [u Hu]%IH. exists u. by right.
  - intros [u Hu]%IH. exists u. by right.
Qed.

(** The callback of the timer is running or has returned. *)
Definition is_called (ph : phase) : Prop := match ph with PCall _ | PReturned _ => True | _ => False end.

Definition called (t : timer) (s : sys) : Prop :=
  ∃ l lp ph, loops s !! l = Some lp ∧ lp_run lp = Some (t, ph) ∧ is_called ph.

(** After [c] calls of the [n] that are allowed with context [r]. *)
Definition within (r : N) (n c : nat) (s : sys) : Prop :=
  (r < nextRemoval (store s))%N ∧ c ≤ n ∧
  ∀ k t, removals (store s) !! k = Some r → activeTimers (store s) !! k = Some t →
    ∃ left, max_fires (tm_body t) = Some left ∧ (c + left ≤ n ∨ called t s ∧ c + left ≤ S n).

(** What a section does to the registration with context [r]. *)
Definition keeps (r : N) (i i' : inmemory) : Prop :=
  (nextRemoval i ≤ nextRemoval i')%N ∧
  ∀ k, removals i' !! k = Some r → removals i !! k = Some r ∧ activeTimers i' !! k = activeTimers i !! k.

Lemma keeps_refl r i : keeps r i i.
Proof. by split. Qed.

Lemma keeps_trans r i1 i2 i3 : keeps r i1 i2 → keeps r i2 i3 → keeps r i1 i3.
Proof.
  intros [H1 H2] [H3 H4]. split; [lia|]. intros k Hk. destruct (H4 _ Hk) as [H5 ->]. by apply H2.
Qed.

Lemma keeps_unreg r k ty i : keeps r i (unreg k ty i).
Proof.
  split; [by rewrite (proj1 (proj2 (unreg_same k ty i)))|]. intros k'. rewrite unreg_removals, unreg_active.
  intros [Hne H]%lookup_delete_Some. by rewrite lookup_delete_ne.
Qed.

Lemma keeps_reg r t i : (r < nextRemoval i)%N → keeps r i (reg t i).
Proof.
  intros Hr. pose proof (reg_same t i) as (_ & E & _). split; [rewrite E; lia|]. intros k. rewrite reg_removals, reg_active.
  intros [[_ <-]|[Hne H]]%lookup_insert_Some; [lia|]. by rewrite lookup_insert_ne.
Qed.

Lemma Create_keeps r ctxErr t i : keyed i → (r < nextRemoval i)%N → keeps r i (Create ctxErr t i).1.
Proof.
  intros Hk Hr. rewrite (Create_edits _ _ _ Hk). destruct ctxErr; [apply keeps_refl|].
  destruct (activeTimers i !! tkey t); destruct (NextTick _).2; cbn [fst].
  - eapply keeps_trans; [apply keeps_unreg|]. apply keeps_reg.
    by rewrite (proj1 (proj2 (unreg_same (tkey t) (ttype t) i))).
  - apply keeps_unreg.
  - by apply keeps_reg.
  - apply keeps_refl.
Qed.

Lemma Delete_keeps r k i : keyed i → keeps r i (Delete k i).1.
Proof.
  intros Hk. rewrite (Delete_edits _ _ Hk). destruct (activeTimers i !! k); [apply keeps_unreg|apply keeps_refl].
Qed.

Lemma DeleteFunc_keeps r fn i : keyed i → keeps r i (DeleteFunc fn i).1.
Proof.
  intros Hk. apply (DeleteFunc_ind (λ j _, keeps r i j)); [done| |apply keeps_refl].
  intros j es k t _ Hj _. eapply keeps_trans; [exact Hj|apply keeps_unreg].
Qed.

(** The fire of a settled timer: its place is taken by the next tick, if any. *)
Lemma reschedule_keeps r t next_id err p i n R : reschedule t next_id err = Some p → core i n (t :: R) →
  (nextRemoval i ≤ nextRemoval (p i).1)%N ∧
  ∀ k, removals (p i).1 !! k = Some r → removals i !! k = Some r ∧
    (activeTimers (p i).1 !! k = activeTimers i !! k ∧ activeTimers i !! k ≠ Some t ∨
     activeTimers i !! k = Some t ∧ ∃ next, activeTimers (p i).1 !! k = Some next ∧
       tm_body next = (TickExecuted (tm_body t)).1 ∧ (TickExecuted (tm_body t)).2 = false).
Proof.
  intros Hp Hc. pose proof (same_spec _ _ _ t Hc (list_elem_of_here _ _)) as Hs.
  assert (p = dropTimer t → (nextRemoval i ≤ nextRemoval (p i).1)%N ∧
    ∀ k, removals (p i).1 !! k = Some r → removals i !! k = Some r ∧
      (activeTimers (p i).1 !! k = activeTimers i !! k ∧ activeTimers i !! k ≠ Some t)) as Hdrop.
  { intros ->. destruct (dropTimer_ok t i n R Hc) as [_ Hn].
    assert (keeps r i (dropTimer t i).1) as [H1 H2].
    { rewrite (dropTimer_eq _ _ _ _ Hc). destruct (same _ _); [apply keeps_unreg|apply keeps_refl]. }
    split; [done|]. intros k Hk. destruct (H2 _ Hk) as [H3 H4]. split_and!; [done..|].
    intros Ht. rewrite Ht in H4. rewrite (c_key _ _ _ Hc _ _ Ht) in Hn. done. }
  assert (p = dropTimer t ∨ ∃ next, (TickExecuted (tm_body t)).2 = false ∧ tm_body next = (TickExecuted (tm_body t)).1 ∧
    (p i).1 = if same (activeTimers i !! tkey t) t then advance (tkey t) next i else i) as [->|(next & Hd & Hb & ->)].
  { unfold reschedule in Hp. destruct (TickExecuted (tm_body t)) as [body done].
    destruct err as [[]|]; try done; injection Hp as <-; try (by left).
    all: destruct done; cbn [orb]; [by left|]; destruct (negb _); [by left|right].
    all: rewrite (advance_edits t _ i); exists {| tm_id := next_id; tm_body := body |}; split_and!; try done; by destruct (same _ _). }
  - destruct (Hdrop eq_refl) as [H1 H2]. split; [done|]. intros k Hk. destruct (H2 _ Hk) as (? & ? & ?). auto.
  - destruct (same _ _).
    + pose proof (advance_same (tkey t) next i) as (_ & E1 & _ & E2 & _). rewrite E1, E2. split; [lia|].
      intros k Hk. split; [done|]. rewrite advance_active. destruct (decide (tkey t = k)) as [<-|Hne].
      * right. split; [done|]. exists next. by rewrite lookup_insert_eq.
      * left. rewrite lookup_insert_ne by done. split; [done|]. intros Ht. by rewrite (c_key _ _ _ Hc _ _ Ht) in Hne.
    + split; [lia|]. intros k Hk. split; [done|]. left. split; [done|]. intros Ht.
      by rewrite (c_key _ _ _ Hc _ _ Ht) in Hs.
Qed.

(** Loops that keep what they run keep the callbacks. *)
Lemma called_loops t s s' :
  (∀ l lp ph, loops s !! l = Some lp → lp_run lp = Some (t, ph) → is_called ph →
     ∃ lp' ph', loops s' !! l = Some lp' ∧ lp_run lp' = Some (t, ph') ∧ is_called ph') →
  called t s → called t s'.
Proof. intros H (l & lp & ph & Hl & Hr & Hp). destruct (H _ _ _ Hl Hr Hp) as (lp' & ph' & ? & ? & ?). by exists l, lp', ph'. Qed.

Lemma called_set_loop t s l lp lp' : loops s !! l = Some lp →
  (∀ ph, lp_run lp = Some (t, ph) → is_called ph → ∃ ph', lp_run lp' = Some (t, ph') ∧ is_called ph') →
  called t s → called t (set_loop l lp' s).
Proof.
  intros Hl Hk. apply called_loops. intros l1 lp1 ph H1 H2 H3. cbn. destruct (decide (l = l1)) as [<-|Hne].
  - rewrite lookup_insert_eq. destruct (Hk ph) as (ph' & ? & ?); [congruence|done|]. eauto.
  - rewrite lookup_insert_ne by done. eauto.
Qed.

Lemma closes_run es ls l lp : Forall is_close es → ls !! l = Some lp →
  ∃ lp', fold_left apply_effect es ls !! l = Some lp' ∧ lp_run lp' = lp_run lp.
Proof.
  intros Hes. revert ls lp. induction Hes as [|e es He Hes IH]; intros ls lp Hl; [by eauto|]. cbn.
  destruct e as [| |l']; try done. cbn. destruct (decide (l' = l)) as [->|Hne].
  - destruct (IH (alter close_loop l ls) (close_loop lp)) as (lp' & ? & ?); [by rewrite lookup_alter_eq, Hl|]. eauto.
  - apply IH. by rewrite lookup_alter_ne.
Qed.

Lemma called_states p s t : states_only p → called t s → called t (states_section p s).
Proof.
  intros Hp. apply called_loops. intros l lp ph H1 H2 H3. unfold states_section.
  destruct (Hp (store s)) as [He _]. destruct (p (store s)) as [i es]. cbn in *.
  destruct (closes_run _ _ _ _ He H1) as (lp' & ? & E). exists lp', ph. by rewrite E.
Qed.

(** A callback stays until its fire is settled. *)
Lemma step_still_called e s s' o t : inv s → step e s = Some (s', o) → called t s →
  called t s' ∨ ∃ l lp err, e = ESettle l ∧ loops s !! l = Some lp ∧ lp_run lp = Some (t, PReturned err).
Proof.
  intros Hi Hs Hc. destruct e as [ctxErr r|k|fn| |k|n|n|l|l|l a|l|l|l| | |]; cbn [step] in Hs;
    try (apply bind_Some in Hs as (x & Hx & Hs));
    try (destruct x as [[lp u] ph]; apply run_phase_Some in Hx as [Hlp Hr]; destruct ph as [|rm|err|]; try done).
  1-3: left; destruct (is_free _); [|done]; injection Hs as <- _; revert Hc; apply called_loops;
    intros l lp ph ? ? ?; exists lp, ph; by rewrite (proj1 (section_loops _ _ _)).
  - left. destruct x as [who [|[k d] us]]; [done|]. injection Hs as <- _.
    apply (called_states (updateActorTimers k d)); [apply updateActorTimers_states|done].
  - left. injection Hs as <- _. exact Hc.
  - left. destruct (processorExecuteFn (takey x) (store s)) as [[i l] es] eqn:E. injection Hs as <- _.
    revert Hc. apply called_loops. intros l1 lp ph H1 H2 H3. exists lp, ph. split; [|done]. cbn.
    assert (es = [] ∨ es = [NewLoop (nextLoop (store s))]) as [->| ->]; [|done|].
    { unfold processorExecuteFn in E. destruct (closed _); [injection E; auto|].
      destruct (actorStates _); [|injection E; auto]. destruct (as_loop _); injection E; auto. }
    cbn. rewrite lookup_insert_ne; [done|]. intros <-. apply (v_fresh _ Hi) in H1. lia.
  - left. destruct x as [u l]. destruct (loops s !! l) as [lp|] eqn:El; [|by injection Hs as <- _].
    destruct (lp_closing lp); injection Hs as <- _; [exact Hc|].
    eapply (called_set_loop _ (set_fires _ _ s)); [exact El| |exact Hc]. cbn. eauto.
  - left. destruct (lp_run x) eqn:Hr; [done|]. destruct (lp_queue x); [done|]. injection Hs as <- _.
    eapply called_set_loop; [exact Hx| |exact Hc]. intros ph. by rewrite Hr.
  - left. destruct (is_free _); [|done]. cbn [negb] in Hs.
    destruct (fire_check u (store s)); injection Hs as <- _; (eapply called_set_loop; [exact Hlp| |exact Hc]);
      intros ph; rewrite Hr; by intros [= -> <-].
  - left. destruct (sees _ _ _ && _); [|done]. injection Hs as <- _. eapply called_set_loop; [exact Hlp| |exact Hc].
    intros ph. rewrite Hr. intros [= -> <-] _. eexists. split; [done|exact I].
  - destruct Hc as (l1 & lp1 & ph1 & H1 & H2 & H3). destruct (decide (l = l1)) as [<-|Hne].
    + right. exists l, lp, err. split_and!; [done..|]. congruence.
    + left. exists l1, lp1, ph1. split; [|done]. destruct (reschedule _ _ _); [destruct (is_free _); [|done]|];
        injection Hs as <- _; cbn; rewrite lookup_insert_ne by done; [|done].
      by rewrite (proj1 (section_loops _ _ _)).
  - left. destruct (holds _ _); [done|]. injection Hs as <- _. apply called_states; [apply fireDone_states|].
    eapply called_set_loop; [exact Hlp| |exact Hc]. intros ph. rewrite Hr. by intros [= -> <-].
  - left. destruct (lp_closing x); [|done]. destruct (lp_run x) eqn:Hr; [done|]. destruct (lp_queue x); [|done].
    injection Hs as <- _. revert Hc. apply called_loops. intros l1 lp1 ph1 H1 H2 H3. exists lp1, ph1. split; [|done]. cbn.
    rewrite lookup_delete_ne; [done|]. intros <-. congruence.
  - left. injection Hs as <- _. exact Hc.
  - left. destruct (ctxCancelled _); [|done]. injection Hs as <- _. exact Hc.
  - left. destruct (processorClosed _); [|done]. destruct (popped s); [|done]. destruct (routed s); [|done].
    destruct (actorStates _) as [m|]; [|done]. injection Hs as <- _. revert Hc. apply called_loops.
    intros l1 lp1 ph1 H1 H2 H3. cbn.
    destruct (closes_run (close_all m) (loops s) l1 lp1 (close_all_closes m) H1) as (lp' & ? & E). exists lp', ph1. by rewrite E.
Qed.

Lemma started_not_called s l lp t : inv s → loops s !! l = Some lp → lp_run lp = Some (t, PStarted) → ¬ called t s.
Proof.
  intros Hi Hl Hr (l1 & lp1 & ph & Hl1 & Hr1 & Hp). destruct (decide (l = l1)) as [<-|Hne].
  - rewrite Hl in Hl1. injection Hl1 as <-. rewrite Hr in Hr1. by injection Hr1 as <-.
  - pose proof (c_nodup _ _ _ (v_core _ Hi)) as Hnd. unfold fires in Hnd.
    rewrite (gather_delete _ _ _ _ Hl), (gather_delete _ (delete l (loops s)) l1 lp1) in Hnd
      by (by rewrite lookup_delete_ne).
    rewrite !fmap_app in Hnd. apply list.NoDup_app in Hnd as (_ & _ & Hnd). apply list.NoDup_app in Hnd as (_ & _ & Hnd).
    apply list.NoDup_app in Hnd as (_ & Hd & _). apply (Hd (tm_id t)).
    + apply list_elem_of_fmap_2. unfold loop_fires. rewrite Hr. cbn. set_solver.
    + apply elem_of_app. left. apply list_elem_of_fmap_2. unfold loop_fires. rewrite Hr1.
      destruct ph; try done; cbn; set_solver.
Qed.

(** The tables are kept, or a section keeps the registration. *)
Lemma within_keeps r n c s s' : inv s → within r n c s → keeps r (store s) (store s') →
  (∀ t, called t s → activeTimers (store s) !! tkey t = Some t → called t s') → within r n c s'.
Proof.
  intros Hi (Hr & Hc & Hw) [H1 H2] Hcalled. split; [lia|]. split; [done|]. intros k t Hk Ht.
  destruct (H2 _ Hk) as [Hk0 E]. rewrite E in Ht. destruct (Hw _ _ Hk0 Ht) as (left & Hl & Hcase).
  exists left. split; [done|]. destruct Hcase as [?|[? ?]]; [by left|right]. split; [|done].
  apply Hcalled; [done|]. by rewrite (c_key _ _ _ (v_core _ Hi) _ _ Ht).
Qed.

Lemma same_tables_keeps r i i' : same_tables i i' → keeps r i i'.
Proof. intros (E1 & E2 & E3). unfold keeps. rewrite E1, E2, E3. done. Qed.

(** A step without a call. *)
Lemma step_within_quiet r n c e s s' o : good s → within r n c s → step e s = Some (s', o) → within r n c s'.
Proof.
  intros [Hi Hl] Hw Hs. pose proof (v_core _ Hi) as Hcore.
  assert (∀ t, called t s → activeTimers (store s) !! tkey t = Some t → ¬ (∃ l lp err, e = ESettle l ∧
    loops s !! l = Some lp ∧ lp_run lp = Some (t, PReturned err)) → called t s') as Hcalled.
  { intros t Ht _ Hn. by destruct (step_still_called _ _ _ _ t Hi Hs Ht). }
  destruct (step_store _ _ _ _ Hs) as [(p & Hp & Es)|[Hsame Hno]].
  - destruct Hp as [ctxErr r0|k|fn|l lp t err p Hlp Hr Hp].
    + eapply within_keeps; [done..| |naive_solver]. rewrite Es. apply Create_keeps; [apply Hcore|apply Hw].
    + eapply within_keeps; [done..| |naive_solver]. rewrite Es. apply Delete_keeps, Hcore.
    + eapply within_keeps; [done..| |naive_solver]. rewrite Es. apply DeleteFunc_keeps, Hcore.
    + pose proof (run_fire _ _ _ _ _ Hlp Hr eq_refl) as Hin. apply elem_of_Permutation in Hin as (F & HF).
      destruct (reschedule_keeps r _ _ _ _ _ _ _ Hp (core_perm _ _ _ _ HF Hcore)) as [H1 H2]. rewrite <- Es in H1, H2.
      destruct Hw as (Hlt & Hc & Hw). split; [lia|]. split; [done|]. intros k u Hk Hu.
      destruct (H2 _ Hk) as [Hk0 [[E Hne]|(E & next & E1 & E2 & E3)]].
      * rewrite E in Hu. destruct (Hw _ _ Hk0 Hu) as (left & H3 & H4). exists left. split; [done|].
        destruct H4 as [?|[H4 ?]]; [by left|right]. split; [|done]. apply Hcalled; [done| |].
        -- by rewrite (c_key _ _ _ Hcore _ _ Hu).
        -- intros (l1 & lp1 & err1 & [= <-] & Hl1 & Hr1). rewrite Hlp in Hl1. injection Hl1 as <-. congruence.
      * rewrite E1 in Hu. injection Hu as <-. destruct (Hw _ _ Hk0 E) as (left & H3 & H4).
        destruct (TickExecuted_fires _ _ H3 E3) as (left' & H5 & ->). rewrite <- E2 in H5. exists left'.
        split; [done|]. left. destruct H4 as [?|[_ ?]]; lia.
  - eapply within_keeps; [done..|by apply same_tables_keeps|]. intros t Ht Ha. apply Hcalled; [done..|].
    intros (l & lp & err & -> & Hlp & Hr). destruct (reschedule t (nextTimer s) err) as [p|] eqn:E.
    + by apply (Hno p), (so_settle _ _ lp t err).
    + apply reschedule_None in E as ->. by apply (v_run _ Hi _ _ _ _ Hlp Hr).
Qed.

Lemma step_within r n c e s s' o : good s → within r n c s → step e s = Some (s', o) →
  within r n (c + calls r o) s'.
Proof.
  intros Hg Hw Hs. destruct (calls r o) as [|z] eqn:Ez; [rewrite Nat.add_0_r; by eapply step_within_quiet|].
  destruct (calls_positive r o ltac:(lia)) as [t Hin].
  destruct (step_called _ _ _ _ _ _ Hs Hin) as (l & lp & -> & Hlp & Hr & Hf & -> & ->).
  cbn in Ez. rewrite N.eqb_refl in Ez. assert (z = 0) as -> by lia. clear Ez Hin Hs.
  pose proof Hg as [Hi _]. pose proof (v_core _ Hi) as Hcore.
  pose proof (same_spec _ _ _ t Hcore (run_fire _ _ _ _ _ Hlp Hr eq_refl)) as Hs.
  unfold fire_check in Hf. destruct (same _ _); [|done]. injection Hf as Hf.
  destruct Hw as (Hlt & Hc & Hw). destruct (Hw _ _ Hf Hs) as (left & H1 & H2).
  pose proof (max_fires_positive _ _ H1) as Hpos. pose proof (started_not_called _ _ _ _ Hi Hlp Hr) as Hnc.
  assert (c + left ≤ n) as Hle by (by destruct H2 as [?|[? _]]). split; [done|]. split; [lia|]. cbn. intros k u Hk Hu.
  assert (k = tkey t) as -> by (by eapply (c_removal_inj _ _ _ Hcore)). rewrite Hs in Hu. injection Hu as <-.
  exists left. split; [done|]. right. split; [|lia]. exists l, (in_phase t (PCall (Some r)) lp), (PCall (Some r)).
  split_and!; [cbn; apply lookup_insert_eq|done|exact I].
Qed.

Lemma run_within r n c es s s' o : good s → within r n c s → run_events es s = Some (s', o) → c + calls r o ≤ n.
Proof.
  revert c s o. induction es as [|e es IH]; intros c s o Hg Hw.
  - intros [= <- <-]. destruct Hw as (_ & Hc & _). cbn. lia.
  - intros (s1 & o1 & o2 & H1 & H2 & ->)%run_events_cons. rewrite calls_app.
    specialize (IH _ _ _ (proj1 (timers_step_good _ _ _ _ Hg H1)) (step_within _ _ _ _ _ _ _ Hg Hw H1) H2). lia.
Qed.

(** C22: A timer fires as often as it was asked to, at most: once if it does not repeat, and
    as many times as it has repetitions otherwise, counted over its whole life, whatever
    fails and however the steps interleave. A fire is one call of CallReminder by the store;
    the attempts that the built-in retry policy makes inside that call are not counted. *)
Theorem timer_fires_bounded es1 reminder es2 s1 s2 s3 o1 o2 o3 n :
  run_events es1 init = Some (s1, o1) → step (ECreate false reminder) s1 = Some (s2, o2) →
  run_events es2 s2 = Some (s3, o3) → max_fires reminder = Some n →
  (NextTick reminder).2 = true →
  removals (store s2) !! Key reminder = Some (nextRemoval (store s1)) ∧
  calls (nextRemoval (store s1)) o3 ≤ n.
Proof.
  intros [Hg _]%reachable_good Hs Hr Hn Ha. destruct (timers_step_good _ _ _ _ Hg Hs) as [Hg2 _].
  pose proof (v_core _ (proj1 Hg)) as Hcore. set (r := nextRemoval (store s1)).
  set (t := {| tm_id := nextTimer s1; tm_body := reminder |}).
  assert (∃ i, store s2 = reg t i ∧ nextRemoval i = r ∧ ∀ k, removals i !! k ≠ Some r) as (i & Es & Er & Hni).
  { cbn [step] in Hs. fold t in Hs. destruct (is_free _); [|done]. assert (section None (Create false t) s1 = s2) as <- by congruence.
    destruct (section_loops None (Create false t) s1) as (_ & _ & _ & ->).
    rewrite (Create_edits false t _ (c_key _ _ _ Hcore)). cbn [tm_body t] in *. rewrite Ha.
    assert (∀ k, removals (store s1) !! k ≠ Some r) as Hnr.
    { intros k Hk. apply (c_removal_live _ _ _ Hcore) in Hk as [? _]. unfold r in *. lia. }
    destruct (activeTimers (store s1) !! tkey t); [|by exists (store s1)].
    exists (unreg (tkey t) (ttype t) (store s1)). split; [done|]. split; [apply unreg_same|].
    intros k. rewrite unreg_removals. intros [_ ?]%lookup_delete_Some. by eapply Hnr. }
  split; [rewrite Es, reg_removals, Er; apply lookup_insert_eq|].
  apply (run_within r n 0 es2 s2 s3 o3 Hg2); [|done]. rewrite <- Er. unfold within. rewrite Es.
  destruct (reg_same t i) as (_ & -> & _). split; [lia|]. split; [lia|].
  intros k u. rewrite reg_removals, reg_active. intros [[<- _]|[_ H]]%lookup_insert_Some; [|rewrite Er in H; by apply Hni in H].
  rewrite lookup_insert_eq. intros [= <-]. exists n. split; [done|]. left. lia.
Qed.

(** ** Requests *)

Section requests.
Context {TU : TimeUtils}.

(** A timer that a request creates is of a hosted type and a local actor, has repetitions,
    the key of the request, and expires after it is due, or at the very time it is due: then
    the store drops it without an error. *)
Lemma timers_Create_spec hosted lookup req now r : timers_Create hosted lookup req now = inl r →
  hosted = true ∧ lookup = Some true ∧ IsTimer r = true ∧ repeats (Period r) ≠ 0%Z ∧
  Key r = req_ActorType req +:+ DaprSeparator +:+ req_ActorID req +:+ DaprSeparator +:+ req_Name req ∧
  ((NextTick r).2 = true ∨ t_ns (RegisteredTime r) = t_ns (ExpirationTime r)).
Proof.
  unfold timers_Create, NewReminder, setReminderTimes, claimLocal. destruct hosted; [|done]. cbn [negb].
  destruct (time_or _ _ _ _) as [registered|]; [|done].
  assert (∀ p, NewReminderPeriod (req_Period req) = inl p → repeats p ≠ 0%Z) as Hp.
  { intros p. unfold NewReminderPeriod, parseReminderPeriod. destruct (req_Period req); [by intros [= <-]|].
    destruct (ParseDuration _) as [[[[[y m] d] pd] z]|]; [|done]. destruct (z =? 0)%Z eqn:E; [done|].
    intros [= <-]. cbn. lia. }
  destruct (NewReminderPeriod (req_Period req)) as [p|]; [|done]. specialize (Hp p eq_refl).
  destruct (req_TTL req); [|destruct (ParseTime _ _) as [ex|]; [|done]; destruct (_ || _) eqn:Ex; [done|]].
  all: destruct lookup as [[]|]; [|done..]; intros [= <-]; cbn; split_and!; try done; try (by left).
  apply orb_false_iff in Ex as [_ Ex]. unfold After, Before, IsZero in *.
  destruct (t_ns registered <? t_ns ex)%Z eqn:E; [left; by rewrite orb_true_r|right; lia].
Qed.

End requests.

(** Parsers that know durations of whole seconds, and a request that repeats
    twice: it is accepted with an expiration after its due time, and refused
    when the actor is hosted elsewhere. *)
Definition w_times : TimeUtils := {|
  ParseTime s t := if decide (s = "5s") then Some (Time_Add t 5000000000) else
                   if decide (s = "0s") then Some t else None;
  ParseDuration s := if decide (s = "R2/PT1S") then Some (0, 0, 0, 1000000000, 2)%Z else None
|}.

Definition w_request (ttl : string) : CreateTimerRequest := {|
  req_Name := "feed"; req_ActorType := "cat"; req_ActorID := "tom"; req_DueTime := "5s";
  req_Period := "R2/PT1S"; req_TTL := ttl; req_Callback := EmptyString; req_Data := None |}.

Definition w_created (local : bool) (ttl : string) : option bool :=
  match @timers_Create w_times true (Some local) (w_request ttl) (at_midnight 2024 1 31) with
  | inl r => Some (NextTick r).2
  | inr _ => None
  end.

(** A request whose time to live ends when it is due is accepted, and not active. *)
Example timer_due_at_expiration :
  w_created true "5s" = Some true ∧ w_created false "5s" = None ∧ w_created true "soon" = None ∧
  w_created true "0s" = Some false.
Proof. vm_compute. done. Qed.

(** ** A run *)

Definition w_reminder (actor name : string) (n : Z) : Reminder := {|
  ActorID := actor; ActorType := "cat"; Name := name; Data := None;
  Period := {| value := "R2/PT1S"; years := 0; months := 0; days := 0; period := 1000000000; repeats := n |};
  RegisteredTime := at_midnight 2024 1 31; DueTime := EmptyString; ExpirationTime := zeroTime;
  Callback := EmptyString; IsTimer := true; IsRemote := false; SkipLock := false; SkipRetries := false |}.

(** An attempt that reaches the app. *)
Definition w_attempt : attempt := {|
  at_lookup := Some true; at_removed := false; at_remote := None; at_target := true;
  at_lockRemoved := false; at_lock := None; at_app := None; at_ctxDone := false |}.

(** The timer of the key is due and its callback is called, on loop [l]. *)
Definition w_fire (k : string) (l : N) : list event := [EDue k; ERoute 0; EEnqueue 0; EHandle l; ECheck l].

Definition w_return (l : N) : list event := [EReturn l (Some w_attempt); ESettle l; EFireDone l].

Definition w_key : string := "cat||tom||wash".

Definition w_before : list event := [ECreate false (w_reminder "kit" "sleep" (-1)); EUpdate].

(** The timer fires twice, the second time it is done; its loop is closed. *)
Definition w_after : list event :=
  EUpdate :: w_fire w_key 0 ++ w_return 0 ++ w_fire w_key 0 ++
  [EReturn 0 (Some w_attempt); ESettle 0; EUpdate; EFireDone 0; EStop 0].

(** It is deleted while its callback runs; the other actor's timer is called. *)
Definition w_started : list event := w_before ++ [ECreate false (w_reminder "tom" "wash" 2); EUpdate] ++ w_fire w_key 0.
Definition w_deleted : list event := EUpdate :: w_fire "cat||kit||sleep" 1.

Definition runs (es : list event) (s : sys) : bool := match run_events es s with Some _ => true | None => false end.
Definition end_of (es : list event) (s : sys) : sys := (default (s, []) (run_events es s)).1.
Definition seen_of (es : list event) (s : sys) : list obs := (default (s, []) (run_events es s)).2.

Lemma runs_eq es s : runs es s = true → run_events es s = Some (end_of es s, seen_of es s).
Proof. unfold runs, end_of, seen_of. by destruct (run_events es s) as [[? ?]|]. Qed.

Definition w_create : event := ECreate false (w_reminder "tom" "wash" 2).

Lemma timer_fires_bounded_witness :
  let s1 := end_of w_before init in
  let s2 := end_of [w_create] s1 in
  calls 1 (seen_of w_after s2) = 2 ∧ loops (end_of w_after s2) = ∅ ∧
  removals (store s2) !! w_key = Some (nextRemoval (store s1)) ∧
  calls (nextRemoval (store s1)) (seen_of w_after s2) ≤ 2.
Proof.
  intros s1 s2. split; [vm_compute; reflexivity|]. split; [vm_compute; reflexivity|].
  apply (timer_fires_bounded w_before (w_reminder "tom" "wash" 2) w_after s1 s2 (end_of w_after s2)
    (seen_of w_before init) [] (seen_of w_after s2) 2).
  - apply runs_eq. vm_compute. reflexivity.
  - vm_compute. reflexivity.
  - apply runs_eq. vm_compute. reflexivity.
  - vm_compute. reflexivity.
  - vm_compute. reflexivity.
Defined.

Lemma timer_kept_witness :
  let s := end_of w_started init in
  (∃ l lp t rm, loops s !! l = Some lp ∧ lp_run lp = Some (t, PCall rm) ∧ chances t s = 1) ∧
  match activeTimers (store s) !! w_key with Some t => chances t s = 1 | None => False end.
Proof.
  intros s. destruct (activeTimers (store s) !! w_key) as [t|] eqn:E; [|vm_compute in E; done].
  destruct (timer_kept w_started s (seen_of w_started init) w_key t) as [_ H];
    [apply runs_eq; vm_compute; reflexivity|]. specialize (H ltac:(vm_compute; reflexivity) E). split; [|done].
  exists 0%N. eexists _, _, _. split; [vm_compute; reflexivity|]. split; [reflexivity|]. vm_compute. reflexivity.
Defined.

Lemma removed_timer_silent_witness :
  let s1 := end_of w_started init in
  let s2 := end_of [EDelete w_key] s1 in
  let s3 := end_of w_deleted s2 in
  length (seen_of w_deleted s2) = 1 ∧
  (∀ t rm, Called t rm ∈ seen_of w_deleted s2 → tkey t ≠ w_key) ∧
  ∃ lp t rm, loops s3 !! 0%N = Some lp ∧ lp_run lp = Some (t, PCall rm) ∧ tkey t = w_key ∧
    ∃ r, rm = Some r ∧ r ∈ cancelled (store s3).
Proof.
  intros s1 s2 s3. split; [vm_compute; reflexivity|].
  destruct (removed_timer_silent w_started w_key w_deleted s1 s2 s3 (seen_of w_started init) []
    (seen_of w_deleted s2)) as [H1 H2].
  - apply runs_eq. vm_compute. reflexivity.
  - vm_compute. reflexivity.
  - vm_compute. reflexivity.
  - apply runs_eq. vm_compute. reflexivity.
  - split; [exact H1|]. destruct (loops s3 !! 0%N) as [lp|] eqn:El; [|vm_compute in El; done].
    destruct (lp_run lp) as [[t [|rm| |]]|] eqn:Er; try (exfalso; vm_compute in El; injection El as <-; done).
    exists lp, t, rm. assert (tkey t = w_key) as Hk.
    { vm_compute in El. injection El as <-. injection Er as <- _. vm_compute. reflexivity. }
    split; [reflexivity|]. split; [exact Er|]. split; [exact Hk|]. exact (H2 0%N lp t rm El Er Hk).
Defined.

Lemma timer_loops_safe_witness :
  let s := end_of (w_started ++ EDelete w_key :: w_deleted) init in
  size (loops s) = 2 ∧
  ∀ l l' lp lp' t t' ph ph', loops s !! l = Some lp → loops s !! l' = Some lp' →
    lp_run lp = Some (t, ph) → lp_run lp' = Some (t', ph') → takey t = takey t' → l = l'.
Proof.
  intros s. split; [vm_compute; reflexivity|].
  apply (timer_loops_safe (w_started ++ EDelete w_key :: w_deleted) s (seen_of (w_started ++ EDelete w_key :: w_deleted) init)).
  apply runs_eq. vm_compute. reflexivity.
Defined.

Lemma timer_tables_agree_witness :
  let s := end_of w_started init in
  GetActiveTimersCount "cat" (store s) = 2%Z ∧
  match actorStates (store s) with
  | Some m => timers_of m "cat||tom" = 1%Z ∧ pending_of m "cat||tom" = fires_of "cat||tom" (pending_fires (routed s) (loops s))
  | None => False
  end.
Proof.
  intros s. destruct (timer_tables_agree w_started s (seen_of w_started init)) as (_ & _ & H1 & H2);
    [vm_compute; reflexivity|apply runs_eq; vm_compute; reflexivity|vm_compute; reflexivity|].
  split; [rewrite H1; vm_compute; reflexivity|].
  destruct (actorStates (store s)) as [m|] eqn:Em; [|vm_compute in Em; done].
  destruct (H2 m "cat||tom" eq_refl) as (H3 & H4 & _). split; [|exact H4]. rewrite H3. vm_compute. reflexivity.
Defined.

(** Keys join their parts without escaping: a timer of an actor whose identifier
    ends like the name of another's timer begins replaces it, and the count of
    the other actor keeps the timer that is gone. *)
Example timer_key_collision :
  let s := end_of [ECreate false (w_reminder "tom||a" "b" 1); EUpdate; ECreate false (w_reminder "tom" "a||b" 1)] init in
  size (activeTimers (store s)) = 1 ∧ queueLock s = None ∧
  match actorStates (store s) with
  | Some m => timers_of m "cat||tom||a" = 1%Z ∧ n_actor "cat||tom||a" (activeTimers (store s)) = 0 ∧
              timers_of m "cat||tom" = 0%Z ∧ n_actor "cat||tom" (activeTimers (store s)) = 1
  | None => False
  end.
Proof. vm_compute. done. Qed.
