(* ===== verification/ActorTable.v ===== *)
(** * The actor table (pkg/actors/table/table.go)

    The types of actors a sidecar hosts, each with the factory that creates and
    holds its actors.  A type can be registered again, drained or unregistered
    while calls create actors and while the actors of its former factories are
    being halted; those factories retire, and serve the actors they still hold
    until they have none.

    The sections under the locks are the steps of a machine.  flagsLock orders
    the changes of the registrations; the create lock of a type is held by each
    call that creates an actor, from its checks to the creation ([reader]), and
    taken alone to exchange the factory of the type ([swapLocked]) and to let a
    retired one go ([EHalted]): such a step is possible only when no call is in
    between.  A factory (targets.Factory) is the set of its actors: GetOrCreate
    adds to it, halting and deactivation take actors out at any time.  The
    halting of a factory ends with any result, after which the table looks at
    what is left. *)

From S2P Require Import Prelude.

Record ReentrancyConfig := { Enabled : bool; MaxStackDepth : option Z }.

(** A call in [GetOrCreate], with the create lock of its type read locked; the
    factory once it is chosen. *)
Record reader := { rd_actorID : string; rd_factory : option N }.

(** [typeLocks]: the calls that hold the create lock, the retiring factories. *)
Record typeLocks := { readers : list reader; retiring : list N }.

Definition newTypeLocks : typeLocks := {| readers := []; retiring := [] |}.

(** A registration with the types still to do: what it has found so far, and the
    factories whose halting it waits for. *)
Inductive flagsOp :=
| FRegister (noReminderDelivery : bool) (todo : list (string * ReentrancyConfig))
    (newTypes reminderChanged : bool) (waits : list N)
| FDetach (unregister : bool) (todo : list string) (waits : list N).

(** A call that has released flagsLock and waits for factories to be halted. *)
Record haltingCall := { hc_unregister : bool; hc_waits : list N }.

Record table := {
  factories : gmap string N;
  tlocks : gmap string typeLocks;
  noReminders : gset string;
  draining : gset string;
  reentrancyStore : gmap string ReentrancyConfig;
  suspended : bool;
  flagsLock : option flagsOp;
  calls : list haltingCall;
  actors : gmap N (gset string);
  typeOf : gmap N string;
  failed : gset N;
  nextFactory : N
}.

(** [actors] and [typeOf] are the contents and the type of each factory ever
    registered, [failed] the retired ones whose halt failed with actors left. *)
Definition New (startSuspended : bool) : table := {|
  factories := ∅; tlocks := ∅; noReminders := ∅; draining := ∅; reentrancyStore := ∅;
  suspended := startSuspended; flagsLock := None; calls := []; actors := ∅; typeOf := ∅;
  failed := ∅; nextFactory := 0 |}.

Definition set_reg (f : gmap string N) (l : gmap string typeLocks) (nr dr : gset string)
    (rs : gmap string ReentrancyConfig) (t : table) : table := {|
  factories := f; tlocks := l; noReminders := nr; draining := dr; reentrancyStore := rs;
  suspended := suspended t; flagsLock := flagsLock t; calls := calls t; actors := actors t;
  typeOf := typeOf t; failed := failed t; nextFactory := nextFactory t |}.

Definition set_locks (l : gmap string typeLocks) (t : table) : table :=
  set_reg (factories t) l (noReminders t) (draining t) (reentrancyStore t) t.

Definition set_flagsLock (o : option flagsOp) (t : table) : table := {|
  factories := factories t; tlocks := tlocks t; noReminders := noReminders t; draining := draining t;
  reentrancyStore := reentrancyStore t; suspended := suspended t; flagsLock := o; calls := calls t;
  actors := actors t; typeOf := typeOf t; failed := failed t; nextFactory := nextFactory t |}.

Definition set_calls (c : list haltingCall) (t : table) : table := {|
  factories := factories t; tlocks := tlocks t; noReminders := noReminders t; draining := draining t;
  reentrancyStore := reentrancyStore t; suspended := suspended t; flagsLock := flagsLock t; calls := c;
  actors := actors t; typeOf := typeOf t; failed := failed t; nextFactory := nextFactory t |}.

Definition set_suspended (b : bool) (t : table) : table := {|
  factories := factories t; tlocks := tlocks t; noReminders := noReminders t; draining := draining t;
  reentrancyStore := reentrancyStore t; suspended := b; flagsLock := flagsLock t; calls := calls t;
  actors := actors t; typeOf := typeOf t; failed := failed t; nextFactory := nextFactory t |}.

Definition set_actors (a : gmap N (gset string)) (fl : gset N) (t : table) : table := {|
  factories := factories t; tlocks := tlocks t; noReminders := noReminders t; draining := draining t;
  reentrancyStore := reentrancyStore t; suspended := suspended t; flagsLock := flagsLock t; calls := calls t;
  actors := a; typeOf := typeOf t; failed := fl; nextFactory := nextFactory t |}.

(** A factory for a type, made by the caller of [RegisterActorTypes]. *)
Definition newFactory (actorType : string) (t : table) : table := {|
  factories := factories t; tlocks := tlocks t; noReminders := noReminders t; draining := draining t;
  reentrancyStore := reentrancyStore t; suspended := suspended t; flagsLock := flagsLock t; calls := calls t;
  actors := <[nextFactory t := ∅]> (actors t); typeOf := <[nextFactory t := actorType]> (typeOf t);
  failed := failed t; nextFactory := nextFactory t + 1 |}.

(** ** Reading the table *)

Definition registeredLocked (t : table) : gset string := dom (factories t) ∖ draining t.

Definition typesLocked (t : table) : gset string := if suspended t then ∅ else registeredLocked t.

Definition reminderTypesLocked (t : table) : gset string := typesLocked t ∖ noReminders t.

Definition held_by (t : table) (f : N) : gset string := default ∅ (actors t !! f).

Definition Factory_Exists (t : table) (f : N) (actorID : string) : bool := bool_decide (actorID ∈ held_by t f).

Definition Len (t : table) : gmap string nat := (λ f, size (held_by t f)) <$> factories t.

Definition IsActorTypeHosted (t : table) (actorType : string) : bool :=
  negb (suspended t) && bool_decide (is_Some (factories t !! actorType)).

(** The retiring factory which holds the actor, if any. *)
Definition retiringLocked (t : table) (tl : typeLocks) (actorID : string) : option N :=
  snd <$> list_find (λ f, Factory_Exists t f actorID = true) (retiring tl).

Definition ActorExists (t : table) (actorType actorID : string) : bool :=
  match factories t !! actorType with
  | None => false
  | Some f =>
    Factory_Exists t f actorID ||
    match tlocks t !! actorType with
    | Some tl => match retiringLocked t tl actorID with Some _ => true | None => false end
    | None => false
    end
  end.

(** ** What others see *)

Inductive createError := errTypeNotRegistered | errContext | errSuspended.

Inductive tobs :=
| TypesBroadcast (types : gset string)
| ReminderBroadcast
| DeleteTimers (fn : string → string → bool)
| Created (f : N) (actorID : string)
| CreateFailed (e : createError)
| Retired (f : N) (left : nat).

(** ** The sections *)

(** [swapLocked], with no call holding the create lock: the factory of the type
    is exchanged or removed, and the former one retires. *)
Definition swapLocked (actorType : string) (new : option N) (tl : typeLocks) (t : table) : table * option N :=
  let old := factories t !! actorType in
  let fs := match new with Some f => <[actorType := f]> (factories t) | None => delete actorType (factories t) end in
  let tl' := match old with
             | Some r => {| readers := readers tl; retiring := retiring tl ++ [r] |}
             | None => tl
             end in
  (set_reg fs (<[actorType := tl']> (tlocks t)) (noReminders t) (draining t) (reentrancyStore t) t, old).

(** One type of [RegisterActorTypes]; the lock of the type is made if there is
    none. *)
Definition registerType (actorType : string) (reentrancy : ReentrancyConfig) (noReminderDelivery : bool)
    (t : table) : table * list tobs :=
  let tl := default newTypeLocks (tlocks t !! actorType) in
  let loaded := bool_decide (is_Some (factories t !! actorType)) in
  let t1 := newFactory actorType t in
  let t2 := set_reg (factories t1) (<[actorType := tl]> (tlocks t1))
              (if noReminderDelivery then {[actorType]} ∪ noReminders t1 else noReminders t1 ∖ {[actorType]})
              (draining t1 ∖ {[actorType]}) (<[actorType := reentrancy]> (reentrancyStore t1)) t1 in
  ((swapLocked actorType (Some (nextFactory t)) tl t2).1,
   if loaded then [DeleteTimers (λ ty _, bool_decide (ty = actorType))] else []).

(** What a registration finds before it changes the type. *)
Definition is_new (actorType : string) (t : table) : bool :=
  negb (bool_decide (is_Some (factories t !! actorType)) && negb (bool_decide (actorType ∈ draining t))).

Definition reminder_changes (actorType : string) (noReminderDelivery : bool) (t : table) : bool :=
  negb (is_new actorType t) && xorb (bool_decide (actorType ∈ noReminders t)) noReminderDelivery.

(** One type of [detachLocked]. *)
Definition detachType (actorType : string) (t : table) : table * option N :=
  let t1 := set_reg (factories t) (tlocks t) (noReminders t ∖ {[actorType]}) (draining t ∖ {[actorType]})
              (delete actorType (reentrancyStore t)) t in
  match tlocks t !! actorType with
  | Some tl => swapLocked actorType None tl t1
  | None => (t1, None)
  end.

Definition deleteTimers (types : list string) : list tobs :=
  match types with [] => [] | _ => [DeleteTimers (λ ty _, bool_decide (ty ∈ types))] end.

Definition retiring_of (t : table) (actorType : string) : list N :=
  match tlocks t !! actorType with Some tl => retiring tl | None => [] end.

(** Whether a call holds the create lock of the type. *)
Definition create_free (t : table) (actorType : string) : bool :=
  match tlocks t !! actorType with
  | Some tl => match readers tl with [] => true | _ => false end
  | None => true
  end.

Definition set_flags (nr dr : gset string) (t : table) : table :=
  set_reg (factories t) (tlocks t) nr dr (reentrancyStore t) t.

Fixpoint setReminders (enabled : bool) (actorTypes : list string) (changed : bool) (t : table) : table * bool :=
  match actorTypes with
  | [] => (t, changed)
  | ty :: rest =>
    if bool_decide (is_Some (factories t !! ty)) then
      let flagged := bool_decide (ty ∈ noReminders t) in
      let nr := if enabled then noReminders t ∖ {[ty]} else {[ty]} ∪ noReminders t in
      setReminders enabled rest (changed || Bool.eqb enabled flagged) (set_flags nr (draining t) t)
    else setReminders enabled rest changed t
  end.

Definition SetReminderDelivery (enabled : bool) (actorTypes : list string) (t : table) : table * list tobs :=
  let '(t', changed) := setReminders enabled actorTypes false t in
  (t', if changed then [ReminderBroadcast] else []).

Fixpoint setDraining (actorTypes : list string) (changed : bool) (t : table) : table * bool :=
  match actorTypes with
  | [] => (t, changed)
  | ty :: rest =>
    if bool_decide (is_Some (factories t !! ty)) && negb (bool_decide (ty ∈ draining t))
    then setDraining rest true (set_flags (noReminders t) ({[ty]} ∪ draining t) t)
    else setDraining rest changed t
  end.

Definition DrainActorTypes (actorTypes : list string) (t : table) : table * list tobs :=
  let '(t', changed) := setDraining actorTypes false t in
  (t', if changed then [TypesBroadcast (typesLocked t')] else []).

Definition SuspendHosting (t : table) : table * list tobs :=
  if suspended t then (t, [])
  else (set_suspended true t, [TypesBroadcast ∅; DeleteTimers (λ _ _, true)]).

Definition ResumeHosting (t : table) : table * list tobs :=
  if suspended t then (set_suspended false t, [TypesBroadcast (typesLocked (set_suspended false t))]) else (t, []).

(** The factory [getOrCreate] uses for the actor. *)
Definition route (t : table) (tl : typeLocks) (factory : N) (actorID : string) : N :=
  match retiring tl with
  | [] => factory
  | _ => default factory (retiringLocked t tl actorID)
  end.

(** Whether the route lock is free, where it is used. *)
Definition route_free (tl : typeLocks) : bool :=
  match retiring tl with
  | [] => true
  | _ => forallb (λ r, match rd_factory r with None => true | Some _ => false end) (readers tl)
  end.

(** ** The machine *)

(** [EEnter]: a call of [GetOrCreate] takes the create lock; [ERoute]: it makes
    its checks and chooses the factory; [EAdd]: it gets the actor from it.
    [ERegister], [EUnregister] and [ECompleteDrains] take flagsLock, do one type
    with each [EFlagsStep], and release it with [EFlagsEnd]; [EHalted]: the
    halting of a retiring factory has ended; [EReturn]: a call that waited for
    halting returns. *)
Inductive tevent :=
| EEnter (actorType actorID : string)
| ERoute (actorType : string) (n : nat) (ctxErr : bool)
| EAdd (actorType : string) (n : nat)
| EDeactivate (f : N) (actorID : string)
| ERegister (noReminderDelivery : bool) (types : list (string * ReentrancyConfig))
| EUnregister (actorTypes : list string)
| ECompleteDrains (placed : string → bool)
| EFlagsStep
| EFlagsEnd
| EHalted (actorType : string) (f : N) (err : bool)
| EReturn (n : nat)
| ESetReminderDelivery (enabled : bool) (actorTypes : list string)
| EDrainActorTypes (actorTypes : list string)
| ESuspend
| EResume
| EHaltAll
| EHaltNonHosted (hosted : string → string → bool).

Definition update_readers (actorType : string) (tl : typeLocks) (rs : list reader) (t : table) : table :=
  set_locks (<[actorType := {| readers := rs; retiring := retiring tl |}]> (tlocks t)) t.

Definition flags_free (t : table) : bool := match flagsLock t with None => true | Some _ => false end.

(** The checks of [GetOrCreate], with the create lock held. *)
Definition check_create (t : table) (actorType : string) (ctxErr : bool) : N + createError :=
  if ctxErr then inr errContext
  else if suspended t then inr errSuspended
  else match factories t !! actorType with Some f => inl f | None => inr errTypeNotRegistered end.

Definition flags_step (t : table) : option (table * list tobs) :=
  match flagsLock t with
  | Some (FRegister nr ((ty, re) :: todo) new chg waits) =>
    if create_free t ty then
      let '(t', o) := registerType ty re nr t in
      Some (set_flagsLock (Some (FRegister nr todo (new || is_new ty t) (chg || reminder_changes ty nr t)
              (waits ++ retiring_of t' ty))) t', o)
    else None
  | Some (FDetach un (ty :: todo) waits) =>
    if create_free t ty then
      let '(t', old) := detachType ty t in
      Some (set_flagsLock (Some (FDetach un todo (waits ++ option_list old))) t', [])
    else None
  | _ => None
  end.

Definition flags_end (t : table) : option (table * list tobs) :=
  match flagsLock t with
  | Some (FRegister nr [] new chg waits) =>
    Some (set_flagsLock None (set_calls (calls t ++ [{| hc_unregister := false; hc_waits := waits |}]) t),
          (if chg && negb new then [ReminderBroadcast] else []) ++ [TypesBroadcast (typesLocked t)])
  | Some (FDetach un [] waits) =>
    Some (set_flagsLock None (set_calls (calls t ++ [{| hc_unregister := un; hc_waits := waits |}]) t), [])
  | _ => None
  end.

(** The section after a halt ended: the factory goes if it is empty or the halt
    failed. *)
Definition halted (actorType : string) (f : N) (err : bool) (t : table) : option (table * list tobs) :=
  tl ← tlocks t !! actorType;
  if bool_decide (f ∈ retiring tl) && create_free t actorType then
    let left := size (held_by t f) in
    if err || (left =? 0) then
      let tl' := {| readers := readers tl; retiring := filter (λ o, o ≠ f) (retiring tl) |} in
      Some (set_actors (actors t) (if err && negb (left =? 0) then {[f]} ∪ failed t else failed t)
              (set_locks (<[actorType := tl']> (tlocks t)) t), [Retired f left])
    else Some (t, [])
  else None.

(** No factory a call waits for is retiring any more. *)
Definition all_halted (t : table) (waits : list N) : bool :=
  forallb (λ f, match typeOf t !! f with
                | Some ty => negb (bool_decide (f ∈ retiring_of t ty))
                | None => true
                end) waits.

(** A call of [GetOrCreate] takes the create lock, makes its checks and chooses
    the factory, and gets the actor from it. *)
Definition GetOrCreate_lock (actorType actorID : string) (t : table) : option (table * list tobs) :=
  match tlocks t !! actorType with
  | None => Some (t, [CreateFailed errTypeNotRegistered])
  | Some tl =>
    Some (update_readers actorType tl (readers tl ++ [{| rd_actorID := actorID; rd_factory := None |}]) t, [])
  end.

Definition GetOrCreate_route (actorType : string) (n : nat) (ctxErr : bool) (t : table) : option (table * list tobs) :=
  tl ← tlocks t !! actorType; r ← readers tl !! n;
  match rd_factory r with
  | Some _ => None
  | None =>
    match check_create t actorType ctxErr with
    | inr e => Some (update_readers actorType tl (delete n (readers tl)) t, [CreateFailed e])
    | inl f =>
      if route_free tl then
        let r' := {| rd_actorID := rd_actorID r; rd_factory := Some (route t tl f (rd_actorID r)) |} in
        Some (update_readers actorType tl (<[n := r']> (readers tl)) t, [])
      else None
    end
  end.

Definition GetOrCreate_add (actorType : string) (n : nat) (t : table) : option (table * list tobs) :=
  tl ← tlocks t !! actorType; r ← readers tl !! n; f ← rd_factory r;
  Some (set_actors (<[f := {[rd_actorID r]} ∪ held_by t f]> (actors t)) (failed t)
          (update_readers actorType tl (delete n (readers tl)) t), [Created f (rd_actorID r)]).

Definition RegisterActorTypes (noReminderDelivery : bool) (types : list (string * ReentrancyConfig)) (t : table) :
    option (table * list tobs) :=
  if flags_free t then
    match types with
    | [] => Some (t, [])
    | _ => Some (set_flagsLock (Some (FRegister noReminderDelivery types false false [])) t, [])
    end
  else None.

Definition UnRegisterActorTypes (actorTypes : list string) (t : table) : option (table * list tobs) :=
  if flags_free t then
    match actorTypes with
    | [] => Some (t, [])
    | _ => Some (set_flagsLock (Some (FDetach true actorTypes [])) t, deleteTimers actorTypes)
    end
  else None.

Definition CompleteDrains (placed : string → bool) (t : table) : option (table * list tobs) :=
  if flags_free t then
    let types := filter (λ ty, placed ty = false) (elements (draining t)) in
    Some (set_flagsLock (Some (FDetach false types [])) t, deleteTimers types)
  else None.

(** A call that waited for the halting of factories returns; [UnRegisterActorTypes]
    broadcasts the types first. *)
Definition halt_returns (n : nat) (t : table) : option (table * list tobs) :=
  c ← calls t !! n;
  if all_halted t (hc_waits c) && (negb (hc_unregister c) || flags_free t) then
    Some (set_calls (delete n (calls t)) t,
          if hc_unregister c then [TypesBroadcast (typesLocked t)] else [])
  else None.

(** What [HaltAll] and [HaltNonHosted] do before the factories halt actors, which
    is [EDeactivate]. *)
Definition HaltAll : list tobs := [DeleteTimers (λ _ _, true)].

Definition HaltNonHosted (hosted : string → string → bool) : list tobs :=
  [DeleteTimers (λ ty id, negb (hosted ty id))].

Definition step (e : tevent) (t : table) : option (table * list tobs) :=
  match e with
  | EEnter ty id => GetOrCreate_lock ty id t
  | ERoute ty n ctxErr => GetOrCreate_route ty n ctxErr t
  | EAdd ty n => GetOrCreate_add ty n t
  | EDeactivate f id => Some (set_actors (<[f := held_by t f ∖ {[id]}]> (actors t)) (failed t) t, [])
  | ERegister nr types => RegisterActorTypes nr types t
  | EUnregister types => UnRegisterActorTypes types t
  | ECompleteDrains placed => CompleteDrains placed t
  | EFlagsStep => flags_step t
  | EFlagsEnd => flags_end t
  | EHalted ty f err => halted ty f err t
  | EReturn n => halt_returns n t
  | ESetReminderDelivery enabled types => if flags_free t then Some (SetReminderDelivery enabled types t) else None
  | EDrainActorTypes types => if flags_free t then Some (DrainActorTypes types t) else None
  | ESuspend => if flags_free t then Some (SuspendHosting t) else None
  | EResume => if flags_free t then Some (ResumeHosting t) else None
  | EHaltAll => Some (t, HaltAll)
  | EHaltNonHosted hosted => Some (t, HaltNonHosted hosted)
  end.

Fixpoint run_steps (es : list tevent) (t : table) : option (table * list tobs) :=
  match es with
  | [] => Some (t, [])
  | e :: es' =>
    '(t1, o1) ← step e t;
    '(t2, o2) ← run_steps es' t1;
    Some (t2, o1 ++ o2)
  end.
