(* ===== verification/ActorTableProps.v ===== *)
(** * The actor table: properties

    However registrations, drains, halts and calls interleave, an actor is live
    in one factory only ([actor_single_activation]), and subscribers were last
    told the types the table advertises ([advertised_types_current]). *)

From S2P Require Import Prelude ActorTable.

(** ** Factories and actors *)

(** The factories of a type that can be given an actor. *)
Definition members (t : table) (ty : string) : list N := option_list (factories t !! ty) ++ retiring_of t ty.

Definition readers_of (t : table) (ty : string) : list reader :=
  match tlocks t !! ty with Some tl => readers tl | None => [] end.

(** A call that has chosen its factory: no other one holds the actor. *)
Definition reader_ok (t : table) (ty : string) (r : reader) : Prop :=
  match rd_factory r with
  | None => True
  | Some f => f ∈ members t ty ∧ ∀ f', f' ∈ members t ty → f' ≠ f → rd_actorID r ∉ held_by t f'
  end.

Record tinv (t : table) : Prop := {
  i_nodup ty : NoDup (members t ty);
  i_type ty f : f ∈ members t ty → typeOf t !! f = Some ty ∧ f ∉ failed t;
  i_fresh f : (nextFactory t ≤ f)%N → typeOf t !! f = None;
  i_out f ty : typeOf t !! f = Some ty → f ∉ members t ty → f ∉ failed t → held_by t f = ∅;
  i_failed f : f ∈ failed t → (f < nextFactory t)%N;
  i_disjoint ty f f' : f ∈ members t ty → f' ∈ members t ty → f ≠ f' → held_by t f ## held_by t f';
  i_reader ty r : r ∈ readers_of t ty → reader_ok t ty r;
  i_route ty n n' r r' : retiring_of t ty ≠ [] → readers_of t ty !! n = Some r → readers_of t ty !! n' = Some r' →
    is_Some (rd_factory r) → is_Some (rd_factory r') → n = n';
  i_locked ty : is_Some (factories t !! ty) → is_Some (tlocks t !! ty)
}.

(** The case of a step, with the operation it does. *)
Ltac expose_step H :=
  cbv beta iota delta [step GetOrCreate_lock GetOrCreate_route GetOrCreate_add RegisterActorTypes UnRegisterActorTypes
    CompleteDrains halt_returns HaltAll HaltNonHosted] in H.


Lemma tinv_New b : tinv (New b).
Proof.
  split; cbn; try done; unfold members, readers_of, retiring_of; cbn; try (by intros; constructor);
    try (by intros ty [x Hx]); intros; by set_solver.
Qed.

(** The facts depend on the factories, the locks and the actors only. *)
Lemma tinv_ext t t' : tinv t → factories t' = factories t →
  (∀ ty, retiring_of t' ty = retiring_of t ty) → (∀ ty, readers_of t' ty = readers_of t ty) →
  (∀ ty, is_Some (tlocks t !! ty) → is_Some (tlocks t' !! ty)) →
  (∀ f, held_by t' f = held_by t f) → typeOf t' = typeOf t → failed t' = failed t → nextFactory t' = nextFactory t →
  tinv t'.
Proof.
  intros [H1 H2 H3 H4 H5 H6 H7 H8 H9] E1 E2 E3 E4 E5 E6 E7 E8.
  assert (∀ ty, members t' ty = members t ty) as Em by (intros ty; unfold members; by rewrite E1, E2).
  split; intros *; rewrite ?Em, ?E2, ?E3, ?E5, ?E6, ?E7, ?E8, ?E1; eauto.
  intros Hr. specialize (H7 _ _ Hr). unfold reader_ok in *. rewrite Em. case_match; [|done].
  destruct H7 as [H7 H7']. split; [done|]. intros f'. rewrite E5. eauto.
Qed.

Lemma readers_update t ty tl rs ty' :
  readers_of (update_readers ty tl rs t) ty' = if decide (ty = ty') then rs else readers_of t ty'.
Proof. unfold readers_of, update_readers. cbn. case_decide as E; [subst; by rewrite lookup_insert_eq|by rewrite lookup_insert_ne]. Qed.

Lemma retiring_update t ty tl rs ty' : tlocks t !! ty = Some tl →
  retiring_of (update_readers ty tl rs t) ty' = retiring_of t ty'.
Proof.
  intros Hl. unfold retiring_of, update_readers. cbn. destruct (decide (ty = ty')) as [<-|]; [|by rewrite lookup_insert_ne].
  by rewrite lookup_insert_eq, Hl.
Qed.

Lemma readers_lock t ty tl : tlocks t !! ty = Some tl → readers_of t ty = readers tl ∧ retiring_of t ty = retiring tl.
Proof. intros Hl. unfold readers_of, retiring_of. by rewrite Hl. Qed.

(** The calls in the create lock of a type change. *)
Lemma tinv_readers t ty tl rs : tinv t → tlocks t !! ty = Some tl →
  (∀ r, r ∈ rs → reader_ok t ty r) →
  (∀ n n' r r', retiring tl ≠ [] → rs !! n = Some r → rs !! n' = Some r' →
     is_Some (rd_factory r) → is_Some (rd_factory r') → n = n') →
  tinv (update_readers ty tl rs t).
Proof.
  intros [H1 H2 H3 H4 H5 H6 H7 H8 H9] Hl Hr Hn. set (t' := update_readers ty tl rs t).
  assert (∀ ty', members t' ty' = members t ty') as Em
    by (intros ty'; unfold members, t'; by rewrite retiring_update).
  split; intros *; rewrite ?Em; eauto.
  - unfold t'. rewrite readers_update. unfold reader_ok. rewrite Em. case_decide as E; [subst; apply Hr|apply H7].
  - unfold t'. rewrite readers_update, (retiring_update _ _ _ _ _ Hl). case_decide as E; [|eauto].
    subst. rewrite (proj2 (readers_lock _ _ _ Hl)). eauto.
  - intros Hf. unfold t', update_readers. cbn. destruct (decide (ty = ty0)) as [<-|]; [by rewrite lookup_insert_eq|].
    rewrite lookup_insert_ne by done. by apply H9.
Qed.

(** Actors leave factories. *)
Lemma tinv_remove t f id : tinv t → tinv (set_actors (<[f := held_by t f ∖ {[id]}]> (actors t)) (failed t) t).
Proof.
  intros [H1 H2 H3 H4 H5 H6 H7 H8 H9].
  set (t' := set_actors (<[f := held_by t f ∖ {[id]}]> (actors t)) (failed t) t).
  assert (∀ f', held_by t' f' ⊆ held_by t f') as Hs.
  { intros f'. unfold held_by at 1, t'. cbn. destruct (decide (f = f')) as [<-|Hne];
      [rewrite lookup_insert_eq; cbn; set_solver|by rewrite lookup_insert_ne]. }
  split; try done.
  - intros f' ty Ht Hm Hf. specialize (H4 f' ty Ht Hm Hf). specialize (Hs f'). set_solver.
  - intros ty f1 f2 Hf1 Hf2 Hne. pose proof (Hs f1). pose proof (Hs f2). specialize (H6 ty f1 f2 Hf1 Hf2 Hne). set_solver.
  - intros ty r Hr. specialize (H7 ty r Hr). unfold reader_ok in *. case_match; [|done].
    destruct H7 as [H7 H7']. split; [done|]. intros f' Hf' Hne Hin. apply (H7' f' Hf' Hne). by apply (Hs f').
Qed.

Lemma lookup_deleted {A} (l : list A) n m x : delete n l !! m = Some x → ∃ m', m' ≠ n ∧ l !! m' = Some x.
Proof.
  rewrite list_lookup_delete. case_decide; intros H'; [exists m|exists (S m)]; (split; [lia|done]).
Qed.

Lemma elem_deleted {A} (l : list A) n x : x ∈ delete n l → ∃ m', m' ≠ n ∧ l !! m' = Some x.
Proof. intros (m & Hm)%list_elem_of_lookup_1. by eapply lookup_deleted. Qed.

(** Two factories of a type imply that one retires. *)
Lemma members_retiring t ty f f' : f ∈ members t ty → f' ∈ members t ty → f ≠ f' → retiring_of t ty ≠ [].
Proof.
  unfold members. intros H1 H2 Hne E. rewrite E, app_nil_r in H1, H2.
  destruct (factories t !! ty); cbn in *; set_solver.
Qed.

(** A call enters and leaves the create lock. *)
Lemma tinv_enter t ty tl id : tinv t → tlocks t !! ty = Some tl →
  tinv (update_readers ty tl (readers tl ++ [{| rd_actorID := id; rd_factory := None |}]) t).
Proof.
  intros Hi Hl. destruct (readers_lock _ _ _ Hl) as [Er Et]. apply tinv_readers; [done|done|..].
  - intros r [Hr|Hr]%elem_of_app; [apply (i_reader _ Hi); by rewrite Er|]. by apply list_elem_of_singleton in Hr as ->.
  - intros n n' r r' Hne H1 H2 H3 H4.
    assert (∀ m x, (readers tl ++ [{| rd_actorID := id; rd_factory := None |}]) !! m = Some x →
      is_Some (rd_factory x) → readers_of t ty !! m = Some x) as Hold.
    { intros m x [Hm|[_ Hm]]%lookup_app_Some Hx; [by rewrite Er|]. apply list_lookup_singleton_Some in Hm as [_ <-].
      by destruct Hx. }
    eapply (i_route _ Hi ty); [by rewrite Et|by apply Hold|by apply Hold|done|done].
Qed.

Lemma tinv_leave t ty tl n : tinv t → tlocks t !! ty = Some tl →
  tinv (update_readers ty tl (delete n (readers tl)) t).
Proof.
  intros Hi Hl. destruct (readers_lock _ _ _ Hl) as [Er Et]. apply tinv_readers; [done|done|..].
  - intros r' (m & _ & Hm)%elem_deleted. apply (i_reader _ Hi). rewrite Er. by eapply list_elem_of_lookup_2.
  - intros m m' r1 r2 Hne H1 H2 H3 H4. rewrite list_lookup_delete in H1, H2. rewrite <- Er in H1, H2.
    assert (∀ a b x y, readers_of t ty !! a = Some x → readers_of t ty !! b = Some y →
      is_Some (rd_factory x) → is_Some (rd_factory y) → a = b) as Hu
      by (intros; eapply (i_route _ Hi ty); [by rewrite Et|done..]).
    repeat case_decide; pose proof (Hu _ _ _ _ H1 H2 H3 H4); lia.
Qed.

(** A call gets its actor. *)
Lemma tinv_add t ty tl n r f : tinv t → tlocks t !! ty = Some tl → readers tl !! n = Some r → rd_factory r = Some f →
  tinv (set_actors (<[f := {[rd_actorID r]} ∪ held_by t f]> (actors t)) (failed t)
          (update_readers ty tl (delete n (readers tl)) t)).
Proof.
  intros Hi Hl Hn Hf. destruct (readers_lock _ _ _ Hl) as [Er Et]. pose proof (list_elem_of_lookup_2 _ _ _ Hn) as Hin.
  assert (r ∈ readers_of t ty) as Hrt by (by rewrite Er).
  pose proof (i_reader _ Hi _ _ Hrt) as Hok. unfold reader_ok in Hok. rewrite Hf in Hok. destruct Hok as [Hfm Hoth].
  set (t1 := update_readers ty tl (delete n (readers tl)) t).
  assert (tinv t1) as [H1 H2 H3 H4 H5 H6 H7 H8 H9] by (by apply tinv_leave).
  assert (∀ ty', members t1 ty' = members t ty') as Em by (intros ty'; unfold members, t1; by rewrite retiring_update).
  set (t' := set_actors _ _ t1).
  assert (∀ f', held_by t' f' = if decide (f = f') then {[rd_actorID r]} ∪ held_by t f else held_by t f') as Eh.
  { intros f'. unfold held_by at 1, t'. cbn. case_decide as E; [subst; by rewrite lookup_insert_eq|by rewrite lookup_insert_ne]. }
  assert (∀ ty' f', f' ∈ members t ty' → f' = f → ty' = ty) as Hty.
  { intros ty' f' Hm ->. destruct (i_type _ Hi _ _ Hm) as [E1 _]. destruct (i_type _ Hi _ _ Hfm) as [E2 _]. congruence. }
  split; try done.
  - intros f' ty' Ht Hm Hnf. rewrite Eh. change (members t' ty') with (members t1 ty') in Hm. rewrite Em in Hm.
    case_decide as E; [|by apply (i_out _ Hi _ ty')]. subst f'. destruct (i_type _ Hi _ _ Hfm) as [E2 _].
    assert (ty' = ty) as -> by (cbn in Ht; congruence). done.
  - intros ty' f1 f2. change (members t' ty') with (members t1 ty'). rewrite Em. intros Hm1 Hm2 Hne.
    pose proof (i_disjoint _ Hi ty' f1 f2 Hm1 Hm2 Hne) as Hd. rewrite !Eh.
    destruct (decide (f = f1)) as [<-|Hf1]; [|destruct (decide (f = f2)) as [<-|Hf2]; [|done]].
    + rewrite decide_False by done. pose proof (Hty _ _ Hm1 eq_refl) as ->.
      specialize (Hoth f2 Hm2 ltac:(congruence)). set_solver.
    + pose proof (Hty _ _ Hm2 eq_refl) as ->. specialize (Hoth f1 Hm1 ltac:(congruence)). set_solver.
  - intros ty' r' Hr'. change (readers_of t' ty') with (readers_of t1 ty') in Hr'.
    pose proof (H7 _ _ Hr') as Hok'. unfold reader_ok in *. change (members t' ty') with (members t1 ty').
    destruct (rd_factory r') as [g|] eqn:Eg; [|done]. destruct Hok' as [Hg Hg']. split; [done|].
    intros f' Hm Hne. specialize (Hg' f' Hm Hne). rewrite Eh. case_decide as E; [|exact Hg'].
    subst f'. assert (ty' = ty) as -> by (apply (Hty _ f); [by rewrite <- Em|done]).
    unfold t1 in Hr'. rewrite readers_update, decide_True in Hr' by done.
    destruct (elem_deleted _ _ _ Hr') as (m & Hm' & Hr1). destruct Hm'. rewrite <- Er in Hn, Hr1.
    rewrite Em in Hm, Hg. eapply (i_route _ Hi); [by eapply (members_retiring t ty f g); [..|congruence]|done..|by rewrite Eg|by rewrite Hf].
Qed.

(** A call chooses its factory. *)
Lemma route_ok t ty tl f id : tinv t → tlocks t !! ty = Some tl → factories t !! ty = Some f →
  reader_ok t ty {| rd_actorID := id; rd_factory := Some (route t tl f id) |}.
Proof.
  intros Hi Hl Hf. destruct (readers_lock _ _ _ Hl) as [_ Et].
  assert (members t ty = f :: retiring tl) as Em by (unfold members; by rewrite Hf, Et).
  unfold reader_ok. cbn. rewrite Em. unfold route. destruct (retiring tl) as [|x L] eqn:El.
  { split; [left|]. intros f' Hf'. set_solver. }
  rewrite <- El in *. unfold retiringLocked. destruct (list_find _ (retiring tl)) as [[n g]|] eqn:Ef; cbn.
  - apply list_find_Some in Ef as (Hn & Hg & _). unfold Factory_Exists in Hg. apply bool_decide_eq_true in Hg.
    pose proof (list_elem_of_lookup_2 _ _ _ Hn) as Hgr. split; [by right|]. intros f' Hf' Hne Hin.
    assert (g ∈ members t ty) as Hgm by (rewrite Em; by right). rewrite <- Em in Hf'.
    apply (i_disjoint _ Hi ty f' g Hf' Hgm Hne id); done.
  - split; [left|]. intros f' [->|Hf']%elem_of_cons Hne; [done|]. intros Hin.
    apply list_find_None in Ef. rewrite list.Forall_forall in Ef. apply (Ef f' Hf'). unfold Factory_Exists.
    by apply bool_decide_eq_true.
Qed.

Lemma tinv_route t ty tl n r f : tinv t → tlocks t !! ty = Some tl → readers tl !! n = Some r → rd_factory r = None →
  factories t !! ty = Some f → route_free tl = true →
  tinv (update_readers ty tl
    (<[n := {| rd_actorID := rd_actorID r; rd_factory := Some (route t tl f (rd_actorID r)) |}]> (readers tl)) t).
Proof.
  intros Hi Hl Hn Hr Hf Hfree. destruct (readers_lock _ _ _ Hl) as [Er Et].
  apply tinv_readers; [done|done|..].
  - intros r' (m & Hm)%list_elem_of_lookup_1. apply list_lookup_insert_Some in Hm as [(<- & <- & _)|[_ Hm]].
    + by apply route_ok.
    + apply (i_reader _ Hi). rewrite Er. by eapply list_elem_of_lookup_2.
  - intros m m' r1 r2 Hne H1 H2 H3 H4. unfold route_free in Hfree. destruct (retiring tl); [done|].
    rewrite forallb_forall in Hfree.
    assert (∀ m0 r0, readers tl !! m0 = Some r0 → is_Some (rd_factory r0) → False) as Hno.
    { intros m0 r0 Hm0 [g Hg]. specialize (Hfree r0). rewrite Hg in Hfree.
      assert (In r0 (readers tl)) as Hin by (apply list_elem_of_In; by eapply list_elem_of_lookup_2).
      by specialize (Hfree Hin). }
    apply list_lookup_insert_Some in H1 as [(<- & _ & _)|[_ H1]]; [|by destruct (Hno _ _ H1 H3)].
    apply list_lookup_insert_Some in H2 as [(<- & _ & _)|[_ H2]]; [done|by destruct (Hno _ _ H2 H4)].
Qed.

(** ** Exchanging and letting go of factories *)

Lemma tinv_newFactory t ty : tinv t → tinv (newFactory ty t) ∧ held_by (newFactory ty t) (nextFactory t) = ∅.
Proof.
  intros [H1 H2 H3 H4 H5 H6 H7 H8 H9]. set (t' := newFactory ty t). set (n := nextFactory t) in *.
  assert (∀ ty', n ∉ members t ty') as Hnm.
  { intros ty' Hm. destruct (H2 _ _ Hm) as [E _]. rewrite (H3 n) in E by lia. done. }
  assert (∀ f, held_by t' f = if decide (n = f) then ∅ else held_by t f) as Eh.
  { intros f. unfold held_by, t'. cbn. fold n. case_decide as E; [subst f; by rewrite lookup_insert_eq|by rewrite lookup_insert_ne]. }
  assert (∀ f, typeOf t' !! f = if decide (n = f) then Some ty else typeOf t !! f) as Ety.
  { intros f. unfold t'. cbn. fold n. case_decide as E; [subst f; by rewrite lookup_insert_eq|by rewrite lookup_insert_ne]. }
  split; [|rewrite Eh; by rewrite decide_True]. split; try done.
  - intros ty' f Hm. change (members t' ty') with (members t ty') in Hm. rewrite Ety.
    rewrite decide_False; [by apply H2|]. intros <-. by apply (Hnm ty').
  - intros f Hf. cbn in Hf. fold n in Hf. rewrite Ety, decide_False by lia. apply H3. lia.
  - intros f ty' Ht Hm Hnf. change (members t' ty') with (members t ty') in Hm. rewrite Eh. rewrite Ety in Ht.
    case_decide; [done|]. by apply (H4 f ty').
  - intros f Hf. cbn. apply H5 in Hf. lia.
  - intros ty' f f' Hf Hf' Hne. rewrite !Eh. change (members t' ty') with (members t ty') in Hf, Hf'.
    rewrite !decide_False by (intros <-; by apply (Hnm ty')). by apply (H6 ty').
  - intros ty' r Hr. specialize (H7 ty' r Hr). unfold reader_ok in *. case_match; [|done]. destruct H7 as [H7 H7'].
    split; [done|]. intros f' Hf' Hne. rewrite Eh. rewrite decide_False by (intros <-; by apply (Hnm ty')). by apply H7'.
Qed.

Lemma swap_members t ty new tl ty' : tlocks t !! ty = Some tl →
  members (swapLocked ty new tl t).1 ty' =
    if decide (ty = ty') then option_list new ++ retiring tl ++ option_list (factories t !! ty) else members t ty'.
Proof.
  intros Hl. unfold members, retiring_of, swapLocked. cbn. case_decide as E.
  - subst ty'. rewrite lookup_insert_eq. destruct new as [f|]; [rewrite lookup_insert_eq|rewrite lookup_delete_eq];
      destruct (factories t !! ty); cbn; by rewrite ?app_nil_r.
  - rewrite lookup_insert_ne by done. by destruct new; [rewrite lookup_insert_ne|rewrite lookup_delete_ne].
Qed.

Lemma swap_readers t ty new tl ty' : tlocks t !! ty = Some tl → readers_of (swapLocked ty new tl t).1 ty' = readers_of t ty'.
Proof.
  intros Hl. unfold readers_of, swapLocked. cbn. destruct (decide (ty = ty')) as [<-|]; [|by rewrite lookup_insert_ne].
  rewrite lookup_insert_eq, Hl. by destruct (factories t !! ty).
Qed.

Lemma tinv_swap t ty new tl : tinv t → tlocks t !! ty = Some tl → readers tl = [] →
  (∀ f, new = Some f → typeOf t !! f = Some ty ∧ f ∉ members t ty ∧ held_by t f = ∅ ∧ f ∉ failed t) →
  tinv (swapLocked ty new tl t).1.
Proof.
  intros Hi Hl Hrd Hnew. destruct (readers_lock _ _ _ Hl) as [Er Et]. set (t' := (swapLocked ty new tl t).1).
  assert (∀ f, f ∈ members t' ty ↔ new = Some f ∨ f ∈ members t ty) as Hm.
  { intros f. unfold t'. rewrite (swap_members _ _ _ _ _ Hl), decide_True by done. unfold members. rewrite Et.
    rewrite !elem_of_app. destruct new, (factories t !! ty); cbn; set_solver. }
  assert (∀ ty', ty' ≠ ty → members t' ty' = members t ty') as Ho.
  { intros ty' Hne. unfold t'. rewrite (swap_members _ _ _ _ _ Hl). by rewrite decide_False. }
  assert (∀ ty' f, f ∈ members t ty' → f ∈ members t' ty') as Hmono.
  { intros ty' f Hf. destruct (decide (ty' = ty)) as [->|Hne]; [apply Hm; by right|by rewrite Ho]. }
  assert (∀ ty' f, f ∈ members t' ty' → f ∈ members t ty' ∨ ty' = ty ∧ new = Some f) as Hinv.
  { intros ty' f Hf. destruct (decide (ty' = ty)) as [->|Hne]; [apply Hm in Hf as [?|?]; auto|left; by rewrite <- Ho]. }
  destruct Hi as [H1 H2 H3 H4 H5 H6 H7 H8 H9]. split; try done.
  - intros ty'. destruct (decide (ty' = ty)) as [->|Hne]; [|by rewrite Ho].
    unfold t'. rewrite (swap_members _ _ _ _ _ Hl), decide_True by done. specialize (H1 ty). unfold members in H1. rewrite Et in H1.
    assert (NoDup (retiring tl ++ option_list (factories t !! ty))) as Hnd by (by rewrite (comm (++)) ).
    destruct new as [f|]; [|done]. cbn. constructor; [|done]. destruct (Hnew f eq_refl) as (_ & Hnm & _).
    intros Hin. apply Hnm. unfold members. rewrite Et. set_solver.
  - intros ty' f Hf. destruct (Hinv _ _ Hf) as [Hf'|[-> Hf']]; [by apply H2|]. destruct (Hnew f Hf') as (? & _ & _ & ?). done.
  - intros f ty' Ht Hf Hnf. apply (H4 f ty' Ht); [|done]. intros Hf'. by apply Hf, Hmono.
  - intros ty' f f' Hf Hf' Hne. destruct (Hinv _ _ Hf) as [Hg|[-> Hg]].
    + destruct (Hinv _ _ Hf') as [Hg'|[-> Hg']]; [by apply (H6 ty')|]. destruct (Hnew f' Hg') as (_ & _ & E & _).
      change (held_by t' f') with (held_by t f'). rewrite E. set_solver.
    + destruct (Hnew f Hg) as (_ & _ & E & _). change (held_by t' f) with (held_by t f). rewrite E. set_solver.
  - intros ty' r Hr. unfold t' in Hr. rewrite (swap_readers _ _ _ _ _ Hl) in Hr.
    destruct (decide (ty' = ty)) as [->|Hne]; [rewrite Er, Hrd in Hr; by apply not_elem_of_nil in Hr|].
    specialize (H7 _ _ Hr). unfold reader_ok in *. by rewrite Ho.
  - intros ty' n n' r r' Hrt Hn. unfold t' in Hn. rewrite (swap_readers _ _ _ _ _ Hl) in Hn.
    destruct (decide (ty' = ty)) as [->|Hne]; [by rewrite Er, Hrd in Hn|].
    unfold t'. rewrite (swap_readers _ _ _ _ _ Hl). apply (H8 ty'); [|done].
    unfold t', retiring_of, swapLocked in Hrt. cbn in Hrt. by rewrite lookup_insert_ne in Hrt.
  - intros ty' Hs. unfold t', swapLocked. cbn. destruct (decide (ty = ty')) as [<-|Hne]; [by rewrite lookup_insert_eq|].
    rewrite lookup_insert_ne by done. apply H9. unfold t', swapLocked in Hs. cbn in Hs.
    destruct new; [by rewrite lookup_insert_ne in Hs|by rewrite lookup_delete_ne in Hs].
Qed.

Lemma create_free_readers t ty : create_free t ty = true → readers_of t ty = [].
Proof. unfold create_free, readers_of. destruct (tlocks t !! ty) as [tl|]; [|done]. by destruct (readers tl). Qed.

Lemma tinv_register t ty re nr : tinv t → create_free t ty = true → tinv (registerType ty re nr t).1.
Proof.
  intros Hi Hc. destruct (tinv_newFactory t ty Hi) as [Hi1 Hh]. unfold registerType. cbn [fst].
  set (tl := default newTypeLocks (tlocks t !! ty)). set (t1 := newFactory ty t) in *.
  apply tinv_swap.
  - eapply (tinv_ext t1); [done..| | | | | | |]; cbn; try done; intros ty'.
    + unfold retiring_of. cbn. destruct (decide (ty = ty')) as [<-|]; [|by rewrite lookup_insert_ne].
      rewrite lookup_insert_eq. unfold tl. by destruct (tlocks t !! ty).
    + unfold readers_of. cbn. destruct (decide (ty = ty')) as [<-|]; [|by rewrite lookup_insert_ne].
      rewrite lookup_insert_eq. unfold tl. by destruct (tlocks t !! ty).
    + destruct (decide (ty = ty')) as [<-|]; [by rewrite lookup_insert_eq|by rewrite lookup_insert_ne].
  - cbn. apply lookup_insert_eq.
  - apply create_free_readers in Hc. unfold readers_of in Hc. unfold tl. by destruct (tlocks t !! ty).
  - intros f [= <-]. cbn. rewrite lookup_insert_eq. split_and!; [done| |done|].
    + unfold members. cbn. rewrite elem_of_app. intros [Hf|Hf].
      * destruct (i_type _ Hi ty (nextFactory t)) as [E _]; [unfold members; apply elem_of_app; by left|].
        rewrite (i_fresh _ Hi) in E; [done|lia].
      * unfold retiring_of in Hf. cbn in Hf. rewrite lookup_insert_eq in Hf.
        destruct (i_type _ Hi ty (nextFactory t)) as [E _].
        { unfold members, retiring_of. apply elem_of_app. right. unfold tl in Hf. by destruct (tlocks t !! ty). }
        rewrite (i_fresh _ Hi) in E; [done|lia].
    + intros Hf. apply (i_failed _ Hi) in Hf. lia.
Qed.

Lemma tinv_detach t ty : tinv t → create_free t ty = true → tinv (detachType ty t).1.
Proof.
  intros Hi Hc. unfold detachType.
  set (t1 := set_reg (factories t) (tlocks t) _ _ _ t).
  assert (tinv t1) as Hi1 by (by apply (tinv_ext t)).
  destruct (tlocks t !! ty) as [tl|] eqn:El; [|done]. apply tinv_swap; [done|done| |done].
  apply create_free_readers in Hc. unfold readers_of in Hc. by rewrite El in Hc.
Qed.

(** A retiring factory is let go. *)
Definition let_go (err : bool) (ty : string) (f : N) (tl : typeLocks) (t : table) : table :=
  set_actors (actors t) (if err && negb (size (held_by t f) =? 0) then {[f]} ∪ failed t else failed t)
    (set_locks (<[ty := {| readers := readers tl; retiring := filter (λ o, o ≠ f) (retiring tl) |}]> (tlocks t)) t).

Lemma let_go_readers err ty f tl t ty' : tlocks t !! ty = Some tl → readers_of (let_go err ty f tl t) ty' = readers_of t ty'.
Proof.
  intros Hl. unfold readers_of. cbn. destruct (decide (ty = ty')) as [<-|]; [|by rewrite lookup_insert_ne].
  by rewrite lookup_insert_eq, Hl.
Qed.

Lemma let_go_retiring err ty f tl t ty' : tlocks t !! ty = Some tl →
  retiring_of (let_go err ty f tl t) ty' = if decide (ty = ty') then filter (λ o, o ≠ f) (retiring tl) else retiring_of t ty'.
Proof.
  intros Hl. unfold retiring_of. cbn. case_decide as E; [subst; by rewrite lookup_insert_eq|by rewrite lookup_insert_ne].
Qed.

Lemma let_go_members err ty f tl t ty' g : tinv t → tlocks t !! ty = Some tl → f ∈ retiring tl →
  g ∈ members (let_go err ty f tl t) ty' ↔ g ∈ members t ty' ∧ g ≠ f.
Proof.
  intros Hi Hl Hf. destruct (readers_lock _ _ _ Hl) as [_ Et].
  assert (f ∈ members t ty) as Hfm by (unfold members; rewrite Et; apply elem_of_app; by right).
  unfold members. rewrite (let_go_retiring _ _ _ _ _ _ Hl). cbn [factories let_go set_actors set_locks set_reg].
  case_decide as E; [subst ty'|].
  - rewrite Et, !elem_of_app, list_elem_of_filter. pose proof (i_nodup _ Hi ty) as Hnd. unfold members in Hnd.
    rewrite Et in Hnd. apply list.NoDup_app in Hnd as (_ & Hnd & _).
    assert (g ∈ option_list (factories t !! ty) → g ≠ f) by (intros Hg ->; by apply (Hnd f)). naive_solver.
  - split; [|by intros [? _]]. intros Hg. split; [done|]. intros ->. fold (members t ty') in Hg.
    destruct (i_type _ Hi ty' f Hg) as [E1 _]. destruct (i_type _ Hi ty f Hfm) as [E2 _]. congruence.
Qed.

Lemma tinv_let_go err ty f tl t : err || (size (held_by t f) =? 0) = true → tinv t → tlocks t !! ty = Some tl → f ∈ retiring tl → readers_of t ty = [] →
  tinv (let_go err ty f tl t).
Proof.
  intros Hok Hi Hl Hf Hrd. destruct (readers_lock _ _ _ Hl) as [Er Et].
  assert (f ∈ members t ty) as Hfm by (unfold members; rewrite Et; apply elem_of_app; by right).
  pose proof (let_go_members err ty f tl t) as Hm. set (t1 := let_go err ty f tl t) in *.
  assert (∀ ty', readers_of t1 ty' = readers_of t ty') as Erd by (intros ty'; by apply let_go_readers).
  assert (∀ ty' g, g ∈ members t1 ty' ↔ g ∈ members t ty' ∧ g ≠ f) as Hmm by (intros; by apply Hm). clear Hm.
  destruct Hi as [H1 H2 H3 H4 H5 H6 H7 H8 H9].
  split; try done.
  - intros ty'. specialize (H1 ty'). unfold members in *. unfold t1. rewrite (let_go_retiring _ _ _ _ _ _ Hl).
    cbn [factories let_go set_actors set_locks set_reg]. case_decide as E; [subst ty'|done].
    rewrite Et in H1. apply list.NoDup_app in H1 as (Ha & Hb & Hc'). apply list.NoDup_app. split_and!; [done| |].
    + intros x Hx [_ Hx']%list_elem_of_filter. by apply (Hb x).
    + by apply list.NoDup_filter.
  - intros ty' g [Hg Hgf]%Hmm. destruct (H2 _ _ Hg) as [Ht Hnf]. split; [done|]. cbn. case_match; set_solver.
  - intros g ty' Ht Hg Hnf. change (held_by t1 g) with (held_by t g). destruct (decide (g = f)) as [->|Hgf].
    + cbn in Hnf. destruct (size (held_by t f) =? 0) eqn:E0.
      * apply Nat.eqb_eq in E0. by apply leibniz_equiv, size_empty_inv.
      * rewrite orb_false_r in Hok. rewrite Hok in Hnf. cbn in Hnf. set_solver.
    + apply (H4 g ty' Ht); [intros Hg'; by apply Hg, Hmm|]. cbn in Hnf. case_match; set_solver.
  - intros g Hg. cbn in Hg. assert (g ∈ failed t ∨ g = f) as [?| ->] by (case_match; set_solver); [by apply H5|].
    destruct (H2 _ _ Hfm) as [Ht _]. destruct (decide (f < nextFactory t)%N); [done|]. rewrite (H3 f) in Ht; [done|lia].
  - intros ty' g g' [Hg _]%Hmm [Hg' _]%Hmm. by apply (H6 ty').
  - intros ty' r Hr. rewrite Erd in Hr. specialize (H7 _ _ Hr). unfold reader_ok in *. case_match; [|done].
    destruct (decide (ty' = ty)) as [->|Hne]; [rewrite Hrd in Hr; by apply not_elem_of_nil in Hr|].
    destruct H7 as [H7 H7']. split.
    + apply Hmm. split; [done|]. intros ->. destruct (H2 _ _ H7) as [E1 _]. destruct (H2 _ _ Hfm) as [E2 _]. congruence.
    + intros f' [Hf' _]%Hmm. by apply H7'.
  - intros ty' n n' r r' Hrt Hn Hn'. rewrite Erd in Hn, Hn'. destruct (decide (ty' = ty)) as [->|Hne]; [by rewrite Hrd in Hn|].
    unfold t1 in Hrt. rewrite (let_go_retiring _ _ _ _ _ _ Hl), decide_False in Hrt by done. by apply (H8 ty').
  - intros ty' Hs. cbn. destruct (decide (ty = ty')) as [<-|Hne]; [by rewrite lookup_insert_eq|].
    rewrite lookup_insert_ne by done. by apply H9.
Qed.

Lemma tinv_halted t ty f err t' o : tinv t → halted ty f err t = Some (t', o) → tinv t'.
Proof.
  intros Hi Hs. unfold halted in Hs. apply bind_Some in Hs as (tl & Hl & Hs).
  destruct (bool_decide (f ∈ retiring tl) && create_free t ty) eqn:E; [|done].
  apply andb_true_iff in E as [Hf%bool_decide_eq_true Hc].
  destruct (err || _) eqn:Hok; [|by injection Hs as <- _]. injection Hs as <- _.
  apply (tinv_let_go err ty f tl t); [done..|by apply create_free_readers].
Qed.

(** ** Every step *)

(** Changes of flags, calls and suspension do not matter. *)
Definition same_factories (t t' : table) : Prop :=
  factories t' = factories t ∧ tlocks t' = tlocks t ∧ actors t' = actors t ∧ typeOf t' = typeOf t ∧
  failed t' = failed t ∧ nextFactory t' = nextFactory t.

Lemma tinv_same t t' : tinv t → same_factories t t' → tinv t'.
Proof.
  intros Hi (E1 & E2 & E3 & E4 & E5 & E6).
  apply (tinv_ext t); try done; unfold retiring_of, readers_of, held_by; by rewrite ?E2, ?E3.
Qed.

Lemma same_factories_trans t1 t2 t3 : same_factories t1 t2 → same_factories t2 t3 → same_factories t1 t3.
Proof. intros (? & ? & ? & ? & ? & ?) (? & ? & ? & ? & ? & ?). split_and!; congruence. Qed.

Lemma setReminders_same en types b t : same_factories t (setReminders en types b t).1.
Proof.
  revert b t. induction types as [|ty types IH]; intros b t; cbn; [done|]. case_match; [|apply IH].
  eapply same_factories_trans; [|apply IH]. done.
Qed.

Lemma setDraining_same types b t : same_factories t (setDraining types b t).1.
Proof.
  revert b t. induction types as [|ty types IH]; intros b t; cbn; [done|]. case_match; [|apply IH].
  eapply same_factories_trans; [|apply IH]. done.
Qed.

Lemma flags_step_tinv t t' o : tinv t → flags_step t = Some (t', o) → tinv t'.
Proof.
  intros Hi Hs. unfold flags_step in Hs. destruct (flagsLock t) as [[nr [|[ty re] todo] new chg ws|un [|ty todo] ws]|]; try done.
  - destruct (create_free t ty) eqn:Hc; [|done]. pose proof (tinv_register t ty re nr Hi Hc) as Hr.
    destruct (registerType ty re nr t) as [t1 o1]. injection Hs as <- _. by apply (tinv_same t1).
  - destruct (create_free t ty) eqn:Hc; [|done]. pose proof (tinv_detach t ty Hi Hc) as Hr.
    destruct (detachType ty t) as [t1 old]. injection Hs as <- _. by apply (tinv_same t1).
Qed.

Lemma tinv_step e t t' o : tinv t → step e t = Some (t', o) → tinv t'.
Proof.
  intros Hi Hs. destruct e as [ty id|ty n ctxErr|ty n|f id|nr types|types|placed| | |ty f err|n|en types|types| | | |hosted]; expose_step Hs.
  - destruct (tlocks t !! ty) as [tl|] eqn:Hl; injection Hs as <- _; [by apply tinv_enter|done].
  - apply bind_Some in Hs as (tl & Hl & Hs). apply bind_Some in Hs as (r & Hn & Hs).
    destruct (rd_factory r) eqn:Hf; [done|]. destruct (check_create t ty ctxErr) as [f|e] eqn:Ec.
    + destruct (route_free tl) eqn:Hfree; [|done]. injection Hs as <- _. apply tinv_route; try done.
      unfold check_create in Ec. destruct ctxErr; [done|]. destruct (suspended t); [done|].
      destruct (factories t !! ty); [|done]. by injection Ec as <-.
    + injection Hs as <- _. by apply tinv_leave.
  - apply bind_Some in Hs as (tl & Hl & Hs). apply bind_Some in Hs as (r & Hn & Hs). apply bind_Some in Hs as (f & Hf & Hs).
    injection Hs as <- _. by apply tinv_add.
  - injection Hs as <- _. by apply tinv_remove.
  - destruct (flags_free t); [|done]. destruct types; injection Hs as <- _; [done|by apply (tinv_same t)].
  - destruct (flags_free t); [|done]. destruct types; injection Hs as <- _; [done|by apply (tinv_same t)].
  - destruct (flags_free t); [|done]. injection Hs as <- _. by apply (tinv_same t).
  - by eapply flags_step_tinv.
  - unfold flags_end in Hs. destruct (flagsLock t) as [[nr [|] new chg ws|un [|] ws]|]; try done;
      injection Hs as <- _; by apply (tinv_same t).
  - by eapply tinv_halted.
  - apply bind_Some in Hs as (c & Hc & Hs). destruct (_ && _); [|done]. injection Hs as <- _. by apply (tinv_same t).
  - destruct (flags_free t); [|done]. unfold SetReminderDelivery in Hs. pose proof (setReminders_same en types false t) as H.
    destruct (setReminders en types false t). injection Hs as <- _. by apply (tinv_same t).
  - destruct (flags_free t); [|done]. unfold DrainActorTypes in Hs. pose proof (setDraining_same types false t) as H.
    destruct (setDraining types false t). injection Hs as <- _. by apply (tinv_same t).
  - destruct (flags_free t); [|done]. unfold SuspendHosting in Hs. destruct (suspended t); injection Hs as <- _; [done|by apply (tinv_same t)].
  - destruct (flags_free t); [|done]. unfold ResumeHosting in Hs. destruct (suspended t); injection Hs as <- _; [by apply (tinv_same t)|done].
  - by injection Hs as <- _.
  - by injection Hs as <- _.
Qed.

(** ** The types that were broadcast *)

(** The last list of types a subscriber was sent. *)
Fixpoint last_types (o : list tobs) (d : gset string) : gset string :=
  match o with
  | [] => d
  | TypesBroadcast types :: o' => last_types o' types
  | _ :: o' => last_types o' d
  end.

Lemma last_types_app o o' d : last_types (o ++ o') d = last_types o' (last_types o d).
Proof. revert d. induction o as [|x o IH]; intros d; [done|]. destruct x; apply IH. Qed.

(** No registration and no unregistration is in progress; an unregistration is
    until its actors are halted and it has broadcast. *)
Definition quiet (t : table) : bool :=
  match flagsLock t with
  | Some (FRegister _ _ _ _ _) | Some (FDetach true _ _) => false
  | _ => forallb (λ c, negb (hc_unregister c)) (calls t)
  end.

Record flags_inv (t : table) (last : gset string) : Prop := {
  f_reminders : noReminders t ⊆ dom (factories t);
  f_draining : draining t ⊆ dom (factories t);
  f_detach todo ws : flagsLock t = Some (FDetach false todo ws) → NoDup todo ∧ ∀ ty, ty ∈ todo → ty ∈ draining t;
  f_last : quiet t = true → last = typesLocked t
}.

Lemma flags_New b : flags_inv (New b) ∅.
Proof. split; cbn; try done. intros _. unfold typesLocked, registeredLocked. cbn. destruct b; set_solver. Qed.

(** Steps that leave the registrations and the progress of calls alone. *)
Definition same_flags (t t' : table) : Prop :=
  factories t' = factories t ∧ noReminders t' = noReminders t ∧ draining t' = draining t ∧
  suspended t' = suspended t ∧ flagsLock t' = flagsLock t ∧ calls t' = calls t.

Lemma flags_same t t' last : flags_inv t last → same_flags t t' → flags_inv t' last.
Proof.
  intros [H1 H2 H3 H4] (E1 & E2 & E3 & E4 & E5 & E6). unfold quiet, typesLocked, registeredLocked in *.
  split; unfold quiet, typesLocked, registeredLocked; rewrite ?E1, ?E2, ?E3, ?E4, ?E5, ?E6; done.
Qed.

(** A broadcast of the current types. *)
Lemma flags_broadcast t : noReminders t ⊆ dom (factories t) → draining t ⊆ dom (factories t) →
  flags_free t = true → flags_inv t (typesLocked t).
Proof. intros H1 H2 H3. unfold flags_free in H3. split; try done. intros todo ws E. by rewrite E in H3. Qed.

Lemma setReminders_flags en types b t : noReminders t ⊆ dom (factories t) →
  noReminders (setReminders en types b t).1 ⊆ dom (factories t) ∧ draining (setReminders en types b t).1 = draining t ∧
  suspended (setReminders en types b t).1 = suspended t ∧ flagsLock (setReminders en types b t).1 = flagsLock t ∧
  calls (setReminders en types b t).1 = calls t.
Proof.
  revert b t. induction types as [|ty types IH]; intros b t Hs; cbn; [done|].
  destruct (bool_decide (is_Some (factories t !! ty))) eqn:E; [|by apply IH].
  apply bool_decide_eq_true in E. eapply (IH _ (set_flags _ _ t)). cbn. apply elem_of_dom in E.
  destruct en; set_solver.
Qed.

(** Draining says so, if there was something to drain. *)
Lemma setDraining_flags types b t : draining t ⊆ dom (factories t) →
  let t' := (setDraining types b t).1 in
  draining t' ⊆ dom (factories t) ∧ noReminders t' = noReminders t ∧ suspended t' = suspended t ∧
  flagsLock t' = flagsLock t ∧ calls t' = calls t ∧
  ((setDraining types b t).2 = false → draining t' = draining t ∧ b = false).
Proof.
  revert b t. induction types as [|ty types IH]; intros b t Hs; cbn; [done|].
  destruct (_ && _) eqn:E; [|by apply IH].
  apply andb_true_iff in E as [E _]. apply bool_decide_eq_true, elem_of_dom in E.
  destruct (IH true (set_flags (noReminders t) ({[ty]} ∪ draining t) t)) as (H1 & H2 & H3 & H4 & H5 & H6);
    [cbn; set_solver|]. split_and!; try done. intros Hf. by destruct (H6 Hf).
Qed.

Lemma registerType_flags ty re nr t :
  let t' := (registerType ty re nr t).1 in
  factories t' = <[ty := nextFactory t]> (factories t) ∧
  noReminders t' = (if nr then {[ty]} ∪ noReminders t else noReminders t ∖ {[ty]}) ∧
  draining t' = draining t ∖ {[ty]}.
Proof. done. Qed.

Lemma detachType_flags ty t :
  let t' := (detachType ty t).1 in
  noReminders t' = noReminders t ∖ {[ty]} ∧ draining t' = draining t ∖ {[ty]} ∧ suspended t' = suspended t ∧
  calls t' = calls t ∧
  factories t' = match tlocks t !! ty with Some _ => delete ty (factories t) | None => factories t end.
Proof. unfold detachType. by destruct (tlocks t !! ty). Qed.

(** Detaching a draining type does not change what is advertised. *)
Lemma detach_types ty t : tinv t → draining t ⊆ dom (factories t) → ty ∈ draining t →
  typesLocked (detachType ty t).1 = typesLocked t.
Proof.
  intros Hi Hd Hty. destruct (detachType_flags ty t) as (_ & E1 & E2 & _ & E3).
  assert (is_Some (tlocks t !! ty)) as [tl Hl] by (by apply (i_locked _ Hi), elem_of_dom, Hd).
  unfold typesLocked, registeredLocked. rewrite E1, E2, E3, Hl, dom_delete_L. destruct (suspended t); [done|].
  apply set_eq. intros x. destruct (decide (x = ty)); set_solver.
Qed.

Lemma flags_step_flags t t' o last : tinv t → flags_inv t last → flags_step t = Some (t', o) →
  flags_inv t' (last_types o last).
Proof.
  intros Hi [H1 H2 H3 H4] Hs. unfold flags_step in Hs.
  destruct (flagsLock t) as [[nr [|[ty re] todo] new chg ws|un [|ty todo] ws]|] eqn:Ef; try done;
    (destruct (create_free t ty); [|done]).
  - pose proof (registerType_flags ty re nr t) as (E1 & E2 & E3). destruct (registerType ty re nr t) as [t1 o1].
    cbn in E1, E2, E3. injection Hs as <- _. split; cbn; try done; rewrite E1, dom_insert_L.
    + rewrite E2. destruct nr; set_solver.
    + rewrite E3. set_solver.
  - pose proof (detachType_flags ty t) as (E1 & E2 & E3 & E4 & E5). pose proof (detach_types ty t Hi H2) as Ht.
    destruct (detachType ty t) as [t1 old]. cbn in E1, E2, E3, E4, E5, Ht. injection Hs as <- <-. cbn.
    assert (∀ X : gset string, X ⊆ dom (factories t) → X ∖ {[ty]} ⊆ dom (factories t1)) as Hsub.
    { intros X HX. rewrite E5. destruct (tlocks t !! ty); [rewrite dom_delete_L|]; set_solver. }
    split; cbn.
    + rewrite E1. by apply Hsub.
    + rewrite E2. by apply Hsub.
    + intros todo' ws' [= -> -> _]. destruct (H3 _ _ eq_refl) as [Hnd Hin]. apply list.NoDup_cons in Hnd as [Hn Hnd].
      split; [done|]. intros x Hx. rewrite E2. specialize (Hin x ltac:(by right)). set_solver.
    + unfold quiet in *. cbn. rewrite Ef in H4. rewrite E4. destruct un; [done|]. intros Hq. rewrite (H4 Hq).
      change (typesLocked (set_flagsLock _ t1)) with (typesLocked t1). symmetry. apply Ht.
      apply (H3 _ _ eq_refl). left.
Qed.

Lemma flags_free_None t : flags_free t = true → flagsLock t = None.
Proof. unfold flags_free. by destruct (flagsLock t). Qed.

(** The end of a section under flagsLock. *)
Lemma flags_end_flags t t' o last : flags_inv t last → flags_end t = Some (t', o) → flags_inv t' (last_types o last).
Proof.
  intros [H1 H2 H3 H4] Hs. unfold flags_end in Hs.
  destruct (flagsLock t) as [[nr [|] new chg ws|un [|] ws]|] eqn:Ef; try done; injection Hs as <- <-.
  - rewrite last_types_app. cbn. by split.
  - split; cbn; try done. unfold quiet in *. cbn. rewrite Ef in H4. rewrite forallb_app. cbn.
    intros [Hq Hu]%andb_true_iff. destruct un; [done|]. by apply H4.
Qed.

Lemma return_flags n c t last : flags_inv t last → calls t !! n = Some c →
  (hc_unregister c = true → flags_free t = true) →
  flags_inv (set_calls (delete n (calls t)) t)
    (last_types (if hc_unregister c then [TypesBroadcast (typesLocked t)] else []) last).
Proof.
  intros [H1 H2 H3 H4] Hc Hf. destruct (hc_unregister c) eqn:Eu; cbn.
  - apply (flags_broadcast (set_calls (delete n (calls t)) t)); [done..|]. by apply Hf.
  - split; cbn; try done. unfold quiet in *. cbn. intros Hq.
    change (typesLocked (set_calls _ t)) with (typesLocked t). apply H4.
    assert (forallb (λ c, negb (hc_unregister c)) (delete n (calls t)) = true →
      forallb (λ c, negb (hc_unregister c)) (calls t) = true) as Hall.
    { rewrite !forallb_forall. intros Ha x Hx. apply list_elem_of_In in Hx. rewrite (delete_Permutation _ _ _ Hc) in Hx.
      apply elem_of_cons in Hx as [->|Hx]; [by rewrite Eu|]. apply Ha. by apply list_elem_of_In. }
    destruct (flagsLock t) as [[]|]; try done; [destruct unregister; [done|]|]; by apply Hall.
Qed.

Lemma begin_flags t last op : flags_inv t last → flags_free t = true →
  (∀ todo ws, op = FDetach false todo ws → NoDup todo ∧ ∀ ty, ty ∈ todo → ty ∈ draining t) →
  flags_inv (set_flagsLock (Some op) t) last.
Proof.
  intros [H1 H2 H3 H4] Hf Ho. apply flags_free_None in Hf. split; cbn; try done.
  - intros todo ws [= ->]. by eapply Ho.
  - unfold quiet in *. cbn. rewrite Hf in H4. destruct op as [|[]]; try done.
Qed.

Lemma last_types_timers types d : last_types (deleteTimers types) d = d.
Proof. by destruct types. Qed.

Lemma step_flags e t t' o last : tinv t → flags_inv t last → step e t = Some (t', o) → flags_inv t' (last_types o last).
Proof.
  intros Hi Hg Hs. pose proof Hg as [H1 H2 H3 H4].
  destruct e as [ty id|ty n ctxErr|ty n|f id|nr types|types|placed| | |ty f err|n|en types|types| | | |hosted]; expose_step Hs.
  - destruct (tlocks t !! ty) as [tl|]; injection Hs as <- <-; [by eapply flags_same|done].
  - apply bind_Some in Hs as (tl & _ & Hs). apply bind_Some in Hs as (r & _ & Hs). destruct (rd_factory r); [done|].
    destruct (check_create t ty ctxErr); [destruct (route_free tl); [|done]|]; injection Hs as <- <-; by eapply flags_same.
  - apply bind_Some in Hs as (tl & _ & Hs). apply bind_Some in Hs as (r & _ & Hs). apply bind_Some in Hs as (f & _ & Hs).
    injection Hs as <- <-. by eapply flags_same.
  - injection Hs as <- <-. by eapply flags_same.
  - destruct (flags_free t) eqn:Ef; [|done]. destruct types; injection Hs as <- <-; [done|]. by apply begin_flags.
  - destruct (flags_free t) eqn:Ef; [|done]. destruct types; injection Hs as <- <-; [done|]. by apply begin_flags.
  - destruct (flags_free t) eqn:Ef; [|done]. injection Hs as <- <-. rewrite last_types_timers. apply begin_flags; [done..|].
    intros todo ws [= <- _]. split; [apply list.NoDup_filter, NoDup_elements|].
    intros ty [_ Hty]%list_elem_of_filter. by apply elem_of_elements.
  - by eapply flags_step_flags.
  - by apply flags_end_flags with (t := t).
  - unfold halted in Hs. apply bind_Some in Hs as (tl & _ & Hs). destruct (_ && _); [|done].
    destruct (err || _); injection Hs as <- <-; [by eapply flags_same|done].
  - apply bind_Some in Hs as (c & Hc & Hs). destruct (all_halted t (hc_waits c) && _) eqn:E; [|done]. injection Hs as <- <-.
    apply return_flags; [done..|]. intros Hu. apply andb_true_iff in E as [_ E]. by rewrite Hu in E.
  - destruct (flags_free t) eqn:Ef; [|done]. unfold SetReminderDelivery in Hs.
    pose proof (setReminders_flags en types false t H1) as (E1 & E2 & E3 & E4 & E5).
    pose proof (setReminders_same en types false t) as (E6 & _).
    destruct (setReminders en types false t) as [t1 b]. cbn in *. injection Hs as <- <-.
    assert (last_types (if b then [ReminderBroadcast] else []) last = last) as -> by (by destruct b).
    unfold quiet, typesLocked, registeredLocked in *.
    split; unfold quiet, typesLocked, registeredLocked; rewrite ?E2, ?E3, ?E4, ?E5, ?E6; done.
  - destruct (flags_free t) eqn:Ef; [|done]. unfold DrainActorTypes in Hs.
    pose proof (setDraining_flags types false t H2) as (E1 & E2 & E3 & E4 & E5 & E7).
    pose proof (setDraining_same types false t) as (E6 & _).
    destruct (setDraining types false t) as [t1 b]. cbn in *. injection Hs as <- <-. destruct b; cbn.
    + apply flags_broadcast; [by rewrite E2, E6|by rewrite E6|]. unfold flags_free. rewrite E4. exact Ef.
    + destruct (E7 eq_refl) as [E8 _]. apply (flags_same t); [done|]. by split_and!.
  - destruct (flags_free t) eqn:Ef; [|done]. unfold SuspendHosting in Hs.
    destruct (suspended t) eqn:Es; injection Hs as <- <-; [done|]. cbn.
    apply (flags_broadcast (set_suspended true t)); done.
  - destruct (flags_free t) eqn:Ef; [|done]. unfold ResumeHosting in Hs.
    destruct (suspended t) eqn:Es; injection Hs as <- <-; [|done]. cbn.
    apply (flags_broadcast (set_suspended false t)); done.
  - by injection Hs as <- <-.
  - by injection Hs as <- <-.
Qed.

(** ** The factories a call waits for *)

Definition waits (t : table) : list N :=
  match flagsLock t with
  | Some (FRegister _ _ _ _ ws) | Some (FDetach _ _ ws) => ws
  | None => []
  end ++ (calls t ≫= hc_waits).

Definition replaced (t : table) (f : N) : Prop := ∃ ty, typeOf t !! f = Some ty ∧ factories t !! ty ≠ Some f.

Definition waits_inv (t : table) : Prop := ∀ f, f ∈ waits t → replaced t f.

Lemma retiring_replaced t ty f : tinv t → f ∈ retiring_of t ty → replaced t f.
Proof.
  intros Hi Hf. destruct (i_type _ Hi ty f) as [Ht _]; [unfold members; apply elem_of_app; by right|]. exists ty.
  split; [done|]. intros E. pose proof (i_nodup _ Hi ty) as Hnd. unfold members in Hnd. rewrite E in Hnd. cbn in Hnd.
  by apply list.NoDup_cons in Hnd as [? _].
Qed.

Lemma replaced_register t ty re nr f : tinv t → replaced t f → replaced (registerType ty re nr t).1 f.
Proof.
  intros Hi (ty' & Ht & Hf). exists ty'. destruct (registerType_flags ty re nr t) as (-> & _).
  assert (f ≠ nextFactory t) as Hne by (intros ->; rewrite (i_fresh _ Hi) in Ht; [done|lia]). split.
  - unfold registerType, swapLocked. cbn. by rewrite lookup_insert_ne.
  - destruct (decide (ty = ty')) as [<-|]; [rewrite lookup_insert_eq; congruence|by rewrite lookup_insert_ne].
Qed.

Lemma replaced_detach t ty f : replaced t f → replaced (detachType ty t).1 f.
Proof.
  intros (ty' & Ht & Hf). exists ty'. destruct (detachType_flags ty t) as (_ & _ & _ & _ & ->). split.
  - unfold detachType. by destruct (tlocks t !! ty).
  - destruct (tlocks t !! ty); [|done]. intros [_ ?]%lookup_delete_Some. done.
Qed.

Lemma detach_replaced t ty f : tinv t → (detachType ty t).2 = Some f → replaced (detachType ty t).1 f.
Proof.
  intros Hi Ho. unfold detachType in *. destruct (tlocks t !! ty) as [tl|]; [|done]. cbn in Ho.
  exists ty. split; [apply (i_type _ Hi); unfold members; rewrite Ho; set_solver|]. cbn. by rewrite lookup_delete_eq.
Qed.

Lemma flags_step_waits t t' o : tinv t → waits_inv t → flags_step t = Some (t', o) → waits_inv t'.
Proof.
  intros Hi Hw Hs. pose proof (flags_step_tinv _ _ _ Hi Hs) as Hi'. unfold flags_step in Hs. unfold waits_inv, waits in Hw.
  destruct (flagsLock t) as [[nr [|[ty re] todo] new chg ws|un [|ty todo] ws]|] eqn:Ef; try done;
    (destruct (create_free t ty); [|done]).
  - pose proof (replaced_register t ty re nr) as Hr. assert (calls (registerType ty re nr t).1 = calls t) as Ec by done.
    destruct (registerType ty re nr t) as [t1 o1]. cbn in *. injection Hs as <- _. intros f. unfold waits. cbn. rewrite Ec.
    intros [[Hf|Hf]%elem_of_app|Hf]%elem_of_app.
    + apply (Hr f Hi), Hw, elem_of_app. by left.
    + by apply (retiring_replaced _ ty f Hi').
    + apply (Hr f Hi), Hw, elem_of_app. by right.
  - pose proof (replaced_detach t ty) as Hr. pose proof (detachType_flags ty t) as (_ & _ & _ & Ec & _).
    pose proof (detach_replaced t ty) as Hd. destruct (detachType ty t) as [t1 old]. cbn in *. injection Hs as <- _.
    intros f. unfold waits. cbn. rewrite Ec. intros [[Hf|Hf]%elem_of_app|Hf]%elem_of_app.
    + apply (Hr f), Hw, elem_of_app. by left.
    + apply (Hd f Hi). destruct old; cbn in Hf; set_solver.
    + apply (Hr f), Hw, elem_of_app. by right.
Qed.

(** Other steps wait for no other factories, and register none. *)
Lemma waits_sub t t' : waits_inv t → typeOf t' = typeOf t → factories t' = factories t →
  (∀ f, f ∈ waits t' → f ∈ waits t) → waits_inv t'.
Proof. intros Hw E1 E2 Hs f Hf. unfold replaced. rewrite E1, E2. by apply Hw, Hs. Qed.

Lemma step_waits e t t' o last : tinv t → flags_inv t last → waits_inv t → step e t = Some (t', o) → waits_inv t'.
Proof.
  intros Hi Hg Hw Hs.
  destruct e as [ty id|ty n ctxErr|ty n|f id|nr types|types|placed| | |ty f err|n|en types|types| | | |hosted]; expose_step Hs.
  - destruct (tlocks t !! ty) as [tl|]; injection Hs as <- _; by apply (waits_sub t).
  - apply bind_Some in Hs as (tl & _ & Hs). apply bind_Some in Hs as (r & _ & Hs). destruct (rd_factory r); [done|].
    destruct (check_create t ty ctxErr); [destruct (route_free tl); [|done]|]; injection Hs as <- _; by apply (waits_sub t).
  - apply bind_Some in Hs as (tl & _ & Hs). apply bind_Some in Hs as (r & _ & Hs). apply bind_Some in Hs as (f & _ & Hs).
    injection Hs as <- _. by apply (waits_sub t).
  - injection Hs as <- _. by apply (waits_sub t).
  - destruct (flags_free t) eqn:Ef; [|done]. apply flags_free_None in Ef.
    destruct types; injection Hs as <- _; [done|]. apply (waits_sub t); try done. unfold waits. cbn. by rewrite Ef.
  - destruct (flags_free t) eqn:Ef; [|done]. apply flags_free_None in Ef.
    destruct types; injection Hs as <- _; [done|]. apply (waits_sub t); try done. unfold waits. cbn. by rewrite Ef.
  - destruct (flags_free t) eqn:Ef; [|done]. apply flags_free_None in Ef. injection Hs as <- _.
    apply (waits_sub t); try done. unfold waits. cbn. by rewrite Ef.
  - by eapply flags_step_waits.
  - unfold flags_end in Hs. destruct (flagsLock t) as [[nr [|] new chg ws|un [|] ws]|] eqn:Ef; try done;
      injection Hs as <- _; (apply (waits_sub t); try done); unfold waits; cbn; rewrite Ef; intros f;
      rewrite bind_app, !elem_of_app; cbn; rewrite app_nil_r; tauto.
  - unfold halted in Hs. apply bind_Some in Hs as (tl & _ & Hs). destruct (_ && _); [|done].
    destruct (err || _); injection Hs as <- _; [by apply (waits_sub t)|done].
  - apply bind_Some in Hs as (c & Hc & Hs). destruct (_ && _); [|done]. injection Hs as <- _.
    apply (waits_sub t); try done. unfold waits. cbn. intros f. rewrite !elem_of_app. intros [Hf|Hf]; [by left|right].
    rewrite (delete_Permutation _ _ _ Hc). cbn. apply elem_of_app. by right.
  - destruct (flags_free t) eqn:Ef; [|done]. unfold SetReminderDelivery in Hs.
    pose proof (setReminders_same en types false t) as (E1 & _ & _ & E2 & _).
    pose proof (setReminders_flags en types false t (f_reminders _ _ Hg)) as (_ & _ & _ & E3 & E4).
    destruct (setReminders en types false t) as [t1 b]. cbn in *. injection Hs as <- _.
    apply (waits_sub t); try done. unfold waits. by rewrite E3, E4.
  - destruct (flags_free t) eqn:Ef; [|done]. unfold DrainActorTypes in Hs.
    pose proof (setDraining_same types false t) as (E1 & _ & _ & E2 & _).
    pose proof (setDraining_flags types false t (f_draining _ _ Hg)) as (_ & _ & _ & E3 & E4 & _).
    destruct (setDraining types false t) as [t1 b]. cbn in *. injection Hs as <- _.
    apply (waits_sub t); try done. unfold waits. by rewrite E3, E4.
  - destruct (flags_free t); [|done]. unfold SuspendHosting in Hs. destruct (suspended t); injection Hs as <- _; [done|by apply (waits_sub t)].
  - destruct (flags_free t); [|done]. unfold ResumeHosting in Hs. destruct (suspended t); injection Hs as <- _; [by apply (waits_sub t)|done].
  - by injection Hs as <- _.
  - by injection Hs as <- _.
Qed.

(** ** Runs *)

Lemma run_steps_cons e es t t' o : run_steps (e :: es) t = Some (t', o) ↔
  ∃ t1 o1 o2, step e t = Some (t1, o1) ∧ run_steps es t1 = Some (t', o2) ∧ o = o1 ++ o2.
Proof.
  cbn. rewrite bind_Some. split.
  - intros ([t1 o1] & H1 & H2). apply bind_Some in H2 as ([t2 o2] & H2 & H3). injection H3 as <- <-. eauto 10.
  - intros (t1 & o1 & o2 & H1 & H2 & ->). exists (t1, o1). by rewrite H2.
Qed.

Lemma run_steps_inv es t t' o last : tinv t → flags_inv t last → waits_inv t → run_steps es t = Some (t', o) →
  tinv t' ∧ flags_inv t' (last_types o last) ∧ waits_inv t'.
Proof.
  revert t o last. induction es as [|e es IH]; intros t o last Hi Hf Hw; [by intros [= <- <-]|].
  intros (t1 & o1 & o2 & H1 & H2 & ->)%run_steps_cons. rewrite last_types_app.
  eapply IH; [by eapply tinv_step|by eapply step_flags|by eapply step_waits|done].
Qed.

Lemma reachable_table b es t o : run_steps es (New b) = Some (t, o) →
  tinv t ∧ flags_inv t (last_types o ∅) ∧ waits_inv t.
Proof.
  apply run_steps_inv; [apply tinv_New|apply flags_New|]. intros f Hf. by apply not_elem_of_nil in Hf.
Qed.

(** ** Failed halts *)

Lemma halted_failed ty g err t t' o f : halted ty g err t = Some (t', o) → f ∈ failed t' →
  f ∈ failed t ∨ (f = g ∧ err = true ∧ held_by t f ≠ ∅).
Proof.
  intros Hs. unfold halted in Hs. apply bind_Some in Hs as (tl & Hl & Hs).
  destruct (_ && _); [|done]. destruct (err || _); injection Hs as <- _; [|by left]. cbn.
  destruct err; [|by left]. destruct (size (held_by t g) =? 0) eqn:E; [by left|]. cbn.
  intros [->%elem_of_singleton|?]%elem_of_union; [right|by left]. split_and!; [done..|].
  intros Eh. apply Nat.eqb_neq in E. by rewrite Eh, size_empty in E.
Qed.

Lemma flags_step_failed t t' o : flags_step t = Some (t', o) → failed t' = failed t.
Proof.
  intros Hs. unfold flags_step in Hs. destruct (flagsLock t) as [[nr [|[ty re] todo] new chg ws|un [|ty todo] ws]|]; try done.
  - destruct (create_free t ty); [|done]. by injection Hs as <- _.
  - destruct (create_free t ty); [|done]. unfold detachType in Hs. destruct (tlocks t !! ty); by injection Hs as <- _.
Qed.

(** Only the failed halt of a factory that holds actors adds it to [failed]. *)
Lemma step_keeps_failed e t t' o f : step e t = Some (t', o) → f ∈ failed t' →
  f ∈ failed t ∨ (held_by t f ≠ ∅ ∧ ∃ ty, e = EHalted ty f true).
Proof.
  intros Hs Hf. destruct e as [ty id|ty n ctxErr|ty n|g id|nr types|types|placed| | |ty g err|n|en types|types| | | |hosted]; expose_step Hs.
  10: { destruct (halted_failed _ _ _ _ _ _ _ Hs Hf) as [?|(-> & -> & ?)]; [by left|right; eauto]. }
  all: left.
  - destruct (tlocks t !! ty); by injection Hs as <- _.
  - apply bind_Some in Hs as (tl & Hl & Hs). apply bind_Some in Hs as (r & Hn & Hs). destruct (rd_factory r); [done|].
    destruct (check_create t ty ctxErr); [destruct (route_free tl); [|done]|]; by injection Hs as <- _.
  - apply bind_Some in Hs as (tl & Hl & Hs). apply bind_Some in Hs as (r & Hn & Hs). apply bind_Some in Hs as (g & Hg & Hs).
    by injection Hs as <- _.
  - by injection Hs as <- _.
  - destruct (flags_free t); [|done]. destruct types; by injection Hs as <- _.
  - destruct (flags_free t); [|done]. destruct types; by injection Hs as <- _.
  - destruct (flags_free t); [|done]. by injection Hs as <- _.
  - by rewrite (flags_step_failed _ _ _ Hs) in Hf.
  - unfold flags_end in Hs. destruct (flagsLock t) as [[nr [|] new chg ws|un [|] ws]|]; try done; by injection Hs as <- _.
  - apply bind_Some in Hs as (c & Hc & Hs). destruct (_ && _); [|done]. by injection Hs as <- _.
  - destruct (flags_free t); [|done]. unfold SetReminderDelivery in Hs. pose proof (setReminders_same en types false t) as H.
    destruct (setReminders en types false t). injection Hs as <- _. destruct H as (_ & _ & _ & _ & E & _). by rewrite <-E.
  - destruct (flags_free t); [|done]. unfold DrainActorTypes in Hs. pose proof (setDraining_same types false t) as H.
    destruct (setDraining types false t). injection Hs as <- _. destruct H as (_ & _ & _ & _ & E & _). by rewrite <-E.
  - destruct (flags_free t); [|done]. unfold SuspendHosting in Hs. destruct (suspended t); by injection Hs as <- _.
  - destruct (flags_free t); [|done]. unfold ResumeHosting in Hs. destruct (suspended t); by injection Hs as <- _.
  - by injection Hs as <- _.
  - by injection Hs as <- _.
Qed.

(** In the run [es] from [t] the halt of factory [f] failed while it held actors. *)
Definition halt_failed (es : list tevent) (t : table) (f : N) : Prop :=
  ∃ es1 es2 ty t1 o1, es = es1 ++ EHalted ty f true :: es2 ∧ run_steps es1 t = Some (t1, o1) ∧ held_by t1 f ≠ ∅.

Lemma run_steps_failed es t t' o f : run_steps es t = Some (t', o) → f ∈ failed t' →
  f ∈ failed t ∨ halt_failed es t f.
Proof.
  revert t o. induction es as [|e es IH]; intros t o; [intros [= <- <-]; by left|].
  intros (t1 & o1 & o2 & H1 & H2 & ->)%run_steps_cons Hf.
  destruct (IH _ _ H2 Hf) as [Hf1|(es1 & es2 & ty & t2 & o3 & -> & Hr & Hne)].
  - destruct (step_keeps_failed _ _ _ _ _ H1 Hf1) as [?|(Hne & ty & ->)]; [by left|right].
    by exists [], es, ty, t, [].
  - right. exists (e :: es1), es2, ty, t2, (o1 ++ o3). split_and!; [done| |done].
    apply run_steps_cons. by exists t1, o1, o3.
Qed.

(** C23: One activation per actor. However calls, registrations, drains and halts
    interleave, an actor of a type is live in at most one factory, those aside whose halt
    failed in the run (ended with an error or a done context while they held actors), also
    while the factory of the type is replaced; and when a registration, a drain or an
    unregistration returns, the factories it replaced hold no actor or their halt failed. *)
Theorem actor_single_activation b es t o :
  run_steps es (New b) = Some (t, o) →
  (∀ ty f f' id, typeOf t !! f = Some ty → typeOf t !! f' = Some ty → ¬ halt_failed es (New b) f →
     ¬ halt_failed es (New b) f' →
     id ∈ held_by t f → id ∈ held_by t f' → f = f') ∧
  (∀ n c t' o', calls t !! n = Some c → step (EReturn n) t = Some (t', o') →
     ∀ f, f ∈ hc_waits c → held_by t f = ∅ ∨ halt_failed es (New b) f).
Proof.
  intros Hrun. destruct (reachable_table _ _ _ _ Hrun) as (Hi & _ & Hw).
  assert (∀ f, f ∈ failed t → halt_failed es (New b) f) as Hfailed.
  { intros f Hf. by destruct (run_steps_failed _ _ _ _ _ Hrun Hf) as [?%not_elem_of_empty|?]. }
  split.
  - intros ty f f' id Ht Ht' Hn0 Hn0' Hid Hid'.
    assert (Hn : f ∉ failed t) by auto. assert (Hn' : f' ∉ failed t) by auto.
    destruct (decide (f ∈ members t ty)) as [Hm|Hm]; [|rewrite (i_out _ Hi _ _ Ht Hm Hn) in Hid; set_solver].
    destruct (decide (f' ∈ members t ty)) as [Hm'|Hm']; [|rewrite (i_out _ Hi _ _ Ht' Hm' Hn') in Hid'; set_solver].
    destruct (decide (f = f')) as [|Hne]; [done|]. destruct (i_disjoint _ Hi ty f f' Hm Hm' Hne id); done.
  - intros n c t' o' Hc Hs f Hf. expose_step Hs. rewrite Hc in Hs. cbn in Hs.
    destruct (all_halted t (hc_waits c)) eqn:E; [|done]. unfold all_halted in E. rewrite forallb_forall in E.
    specialize (E f). destruct (Hw f) as (ty & Ht & Hne).
    { unfold waits. apply elem_of_app. right. apply list_elem_of_bind. exists c. split; [done|]. by eapply list_elem_of_lookup_2. }
    rewrite Ht in E. specialize (E ltac:(by apply list_elem_of_In)). apply negb_true_iff, bool_decide_eq_false in E.
    destruct (decide (f ∈ failed t)) as [|Hnf]; [by right; apply Hfailed|left]. apply (i_out _ Hi f ty Ht); [|done].
    unfold members. rewrite elem_of_app. intros [Hm|?]; [|done]. destruct (factories t !! ty); cbn in Hm; set_solver.
Qed.

(** C24: The advertised types are current. In every run the draining types and those without
    reminders are registered types; and whenever neither a registration nor an
    unregistration is in progress, the list of types that was last broadcast is the list the
    table advertises, through suspensions and drains. (An unregistration is in progress
    until the actors of its types are halted and it has broadcast: until then the last
    broadcast may still list the types it removed.) *)
Theorem advertised_types_current b es t o :
  run_steps es (New b) = Some (t, o) →
  draining t ⊆ dom (factories t) ∧ noReminders t ⊆ dom (factories t) ∧
  (quiet t = true → last_types o ∅ = typesLocked t).
Proof. intros (_ & [H1 H2 _ H4] & _)%reachable_table. done. Qed.

(** ** A run *)

Definition w_reentrancy : ReentrancyConfig := {| Enabled := false; MaxStackDepth := None |}.

Definition w_register : list tevent := [ERegister false [("cat", w_reentrancy)]; EFlagsStep; EFlagsEnd].

Definition w_create (actorID : string) : list tevent := [EEnter "cat" actorID; ERoute "cat" 0 false; EAdd "cat" 0].

(** A type is registered again while its actor tom lives: tom stays with the
    former factory, kit goes to the new one. *)
Definition w_replaced : list tevent :=
  w_register ++ [EReturn 0] ++ w_create "tom" ++ w_register ++ w_create "tom" ++ w_create "kit".

(** The former factory is halted. *)
Definition w_halted : list tevent := w_replaced ++ [EHalted "cat" 0 false; EDeactivate 0 "tom"; EHalted "cat" 0 false].

Definition table_runs (es : list tevent) : bool := match run_steps es (New false) with Some _ => true | None => false end.
Definition table_after (es : list tevent) : table := (default (New false, []) (run_steps es (New false))).1.
Definition table_seen (es : list tevent) : list tobs := (default (New false, []) (run_steps es (New false))).2.

Lemma table_runs_eq es : table_runs es = true → run_steps es (New false) = Some (table_after es, table_seen es).
Proof. unfold table_runs, table_after, table_seen. by destruct (run_steps es (New false)) as [[? ?]|]. Qed.

Definition is_failed_halt (e : tevent) : bool := match e with EHalted _ _ true => true | _ => false end.

Lemma actor_single_activation_witness :
  let t := table_after w_replaced in
  held_by t 0 = {["tom"]} ∧ held_by t 1 = {["kit"]} ∧
  (∀ id, id ∈ held_by t 0 → id ∉ held_by t 1) ∧
  (∀ f, f ∈ [0%N] → held_by (table_after w_halted) f = ∅ ∨ halt_failed w_halted (New false) f).
Proof.
  intros t. split; [vm_compute; reflexivity|]. split; [vm_compute; reflexivity|]. split.
  - intros id H0 H1.
    destruct (actor_single_activation false w_replaced t (table_seen w_replaced)) as [H _];
      [apply table_runs_eq; vm_compute; reflexivity|].
    assert (∀ f, ¬ halt_failed w_replaced (New false) f) as Hf.
    { intros f (es1 & es2 & ty & t1 & o1 & E & _). apply (f_equal (λ l, existsb is_failed_halt l)) in E.
      rewrite existsb_app in E. cbn [existsb is_failed_halt] in E. rewrite orb_true_r in E. vm_compute in E. discriminate E. }
    discriminate (H "cat" 0%N 1%N id ltac:(vm_compute; reflexivity) ltac:(vm_compute; reflexivity) (Hf 0%N) (Hf 1%N) H0 H1).
  - destruct (actor_single_activation false w_halted (table_after w_halted) (table_seen w_halted)) as [_ H];
      [apply table_runs_eq; vm_compute; reflexivity|].
    destruct (step (EReturn 0) (table_after w_halted)) as [[t' o']|] eqn:E; [|vm_compute in E; discriminate E].
    exact (H 0 {| hc_unregister := false; hc_waits := [0%N] |} t' o' ltac:(vm_compute; reflexivity) E).
Defined.

Lemma advertised_types_current_witness :
  let es := w_halted ++ [EReturn 0; EDrainActorTypes ["cat"]] in
  quiet (table_after es) = true ∧ last_types (table_seen es) ∅ = ∅ ∧
  last_types (table_seen w_halted) ∅ = {["cat"]}.
Proof.
  intros es. split; [vm_compute; reflexivity|]. split.
  - destruct (advertised_types_current false es (table_after es) (table_seen es)) as (_ & _ & H);
      [apply table_runs_eq; vm_compute; reflexivity|]. rewrite (H ltac:(vm_compute; reflexivity)). vm_compute. reflexivity.
  - vm_compute. reflexivity.
Defined.

(** If halting a replaced factory fails, its actors are left alone, and one of
    them can be created again in the new factory. *)
Example failed_halt_leaves_actor :
  let t := table_after (w_replaced ++ [EHalted "cat" 0 true] ++ w_create "tom") in
  held_by t 0 = {["tom"]} ∧ "tom" ∈ held_by t 1 ∧ failed t = {[0%N]}.
Proof.
  intros t. split; [vm_compute; reflexivity|].
  split; [apply (bool_decide_eq_true_1 ("tom" ∈ held_by t 1)); vm_compute; reflexivity|vm_compute; reflexivity].
Qed.
