(* ===== verification/SchedulerJobs.v ===== *)
(** * The scheduler's jobs API
      (pkg/scheduler/server: api.go; internal/serialize, internal/authz,
       internal/cron/cron.go, internal/controller/namespace.go)

    Sidecars schedule, read, list and delete jobs and actor reminders.  A request
    is authorized against the SPIFFE identity of the caller, and the job is kept
    under a key that joins its kind, namespace, app or actor, and name; lists and
    bulk deletions work on prefixes of keys.

    The cron engine (github.com/diagridio/go-etcd-cron) that keeps the jobs is
    the interface [Cron]; the encoding of the metadata that is stored with a job
    is [AnyPb].  [caller] is as in [HostAuthz]: [None] when mTLS is disabled,
    [Some None] when there is no identity.  A nil message is the message with
    empty fields, as its getters read it. *)

From Stdlib Require Import Ascii.
From S2P Require Import Prelude GoLib HostAuthz PoolConnections.

(** ** Strings *)

Fixpoint HasSuffix (s suffix : string) : bool :=
  String.eqb s suffix || match s with EmptyString => false | String _ s' => HasSuffix s' suffix end.

(** [strings.CutPrefix]; [strings.TrimPrefix] where the prefix is there. *)
Fixpoint CutPrefix (s prefix : string) {struct prefix} : option string :=
  match prefix, s with
  | EmptyString, _ => Some s
  | String p prefix', String c s' => if Ascii.eqb p c then CutPrefix s' prefix' else None
  | String _ _, EmptyString => None
  end.

(** [strings.CutSuffix] *)
Fixpoint CutSuffix (s suffix : string) : option string :=
  if String.eqb s suffix then Some EmptyString
  else match s with
       | EmptyString => None
       | String c s' => String c <$> CutSuffix s' suffix
       end.

Fixpoint has_slash (s : string) : bool :=
  match s with EmptyString => false | String c s' => Ascii.eqb c "/" || has_slash s' end.

(** [s[strings.LastIndex(s, "/")+1:]] *)
Fixpoint after_last_slash (s : string) : string :=
  match s with
  | EmptyString => EmptyString
  | String c s' => if has_slash s' then after_last_slash s' else if Ascii.eqb c "/" then s' else s
  end.

(** [strings.Cut] and [strings.SplitN] at two bars *)
Fixpoint CutBars (s : string) : option (string * string) :=
  match s with
  | String c (String d r as s') =>
    if Ascii.eqb c bar && Ascii.eqb d bar then Some (EmptyString, r)
    else (λ '(a, b), (String c a, b)) <$> CutBars s'
  | _ => None
  end.

Fixpoint SplitN (s : string) (n : nat) : list string :=
  match n with
  | 0 => []
  | 1 => [s]
  | S n' => match CutBars s with None => [s] | Some (a, r) => a :: SplitN r n' end
  end.

(** ** Messages *)

(** The failure policies of the API (commonv1pb) and of the cron engine; a
    policy message may have none of its alternatives set. *)
Inductive JobFailurePolicy :=
| JobFailurePolicyConstant (Interval : option Z) (MaxRetries : option N)
| JobFailurePolicyDrop
| JobFailurePolicyUnset.

Inductive FailurePolicy :=
| FailurePolicyConstant (Interval : option Z) (MaxRetries : option N)
| FailurePolicyDrop
| FailurePolicyUnset.

(** A job of the API; payloads are kept as they are encoded. *)
Record Job := mkJob {
  Schedule : option string;
  Repeats : option N;
  DueTime : option string;
  Ttl : option string;
  Data : option string;
  job_FailurePolicy : option JobFailurePolicy
}.

Record ScheduleJobRequest := mkScheduleJobRequest {
  sr_Name : string; sr_Job : Job; sr_Metadata : JobMetadata; Overwrite : bool }.

(** GetJobRequest, DeleteJobRequest *)
Record NamedRequest := mkNamedRequest { nr_Name : string; nr_Metadata : JobMetadata }.

(** authz.Request, an interface of the requests for a named job *)
Inductive Request :=
| ReqSchedule (req : ScheduleJobRequest)
| ReqNamed (req : NamedRequest).

Definition GetName (r : Request) : string :=
  match r with ReqSchedule r => sr_Name r | ReqNamed r => nr_Name r end.

Definition GetMetadata (r : Request) : JobMetadata :=
  match r with ReqSchedule r => sr_Metadata r | ReqNamed r => nr_Metadata r end.

Record NamedJob := mkNamedJob { nj_Name : string; nj_Metadata : JobMetadata; nj_Job : Job }.

Inductive api_error :=
| errMissingIdentity
| errNoIdentity
| errIdentityMismatch
| errActorTypeNotAllowed
| errUnknownJobType
| errMarshal
| errUnmarshal
| errKeyMismatch
| errNotFound
| errAlreadyExists
| errResourceExhausted
| errInitialRequired
| errDuplicateTargetType
| errCron.

(** ** Authorization (internal/authz) *)

Section authz.
Variable caller : option (option SpiffeID).

Definition authz (ns appID : string) : option api_error :=
  if (String.length ns =? 0) || (String.length appID =? 0) then Some errMissingIdentity
  else match caller with
       | None => None
       | Some None => Some errNoIdentity
       | Some (Some id) =>
         if negb (String.eqb (id_Namespace id) ns) || negb (String.eqb (id_AppID id) appID)
         then Some errIdentityMismatch else None
       end.

Definition ReminderPrefixActivityResult : string := "activity-result-".

(** An activity result, which may be created for the workflow of another app. *)
Definition activity_result (name ns actorType : string) : bool :=
  HasPrefix name ReminderPrefixActivityResult &&
  HasPrefix actorType ("dapr.internal." +:+ ns +:+ ".") && HasSuffix actorType ".workflow".

Definition authz_job (name : string) (meta : JobMetadata) (createOnly : bool) : option api_error :=
  match authz (jm_Namespace meta) (jm_AppId meta) with
  | Some e => Some e
  | None =>
    match jm_Target meta with
    | TargetActor actorType _ =>
      let '(internal, owned) := InternalActorType actorType (jm_Namespace meta) (jm_AppId meta) in
      if negb internal || owned then None
      else if createOnly && activity_result name (jm_Namespace meta) actorType then None
      else Some errActorTypeNotAllowed
    | _ => None
    end
  end.

Definition authz_Metadata (meta : JobMetadata) : option api_error := authz_job EmptyString meta false.

Definition authz_Job (req : Request) : option api_error :=
  authz_job (GetName req) (GetMetadata req)
    (match req with ReqSchedule r => negb (Overwrite r) | ReqNamed _ => false end).

(** The actor type of a limit without an actor is empty. *)
Definition watched_types (initial : WatchJobsRequestInitial) : list string :=
  wi_ActorTypes initial ++ ((λ l, default EmptyString (lim_Actor l)) <$> ConcurrencyLimits initial).

Definition WatchInitial (initial : WatchJobsRequestInitial) : option api_error :=
  match authz (wi_Namespace initial) (wi_AppId initial) with
  | Some e => Some e
  | None =>
    if existsb (λ ty, let '(internal, owned) := InternalActorType ty (wi_Namespace initial) (wi_AppId initial) in
                      internal && negb owned) (watched_types initial)
    then Some errActorTypeNotAllowed else None
  end.

(** ** Keys (internal/serialize) *)

Fixpoint joinStrings (ss : list string) : string :=
  match ss with
  | [] => EmptyString
  | [s] => s
  | s :: ss' => s +:+ "||" +:+ joinStrings ss'
  end.

Definition buildJobName (req : Request) : string + api_error :=
  let meta := GetMetadata req in
  match jm_Target meta with
  | TargetActor ty id => inl (joinStrings ["actorreminder"; jm_Namespace meta; ty; id; GetName req])
  | TargetJob => inl (joinStrings ["app"; jm_Namespace meta; jm_AppId meta; GetName req])
  | TargetNone => inr errUnknownJobType
  end.

Definition PrefixFromMetadata (meta : JobMetadata) : string + api_error :=
  match jm_Target meta with
  | TargetActor ty id => inl (joinStrings ["actorreminder"; jm_Namespace meta; ty; id] +:+ "||")
  | TargetJob => inl (joinStrings ["app"; jm_Namespace meta; jm_AppId meta] +:+ "||")
  | TargetNone => inr errUnknownJobType
  end.

Definition KeyFromMetadata (req : JobMetadata) (asPrefix : bool) : string + api_error :=
  match authz_Metadata req with
  | Some e => inr e
  | None =>
    match jm_Target req with
    | TargetActor ty id =>
      let str := joinStrings ["actorreminder"; jm_Namespace req; ty] +:+ "||" in
      inl (if 0 <? String.length id then
             if asPrefix then str +:+ id else (str +:+ id) +:+ "||"
           else str)
    | TargetJob => inl (joinStrings ["app"; jm_Namespace req; jm_AppId req] +:+ "||")
    | TargetNone => inr errUnknownJobType
    end
  end.

(** [initial] is the first message of the stream, if it is of that kind. *)
Definition FromWatch (initial : option WatchJobsRequestInitial) : WatchJobsRequestInitial + api_error :=
  match initial with
  | None => inr errInitialRequired
  | Some initial =>
    match WatchInitial initial with
    | Some e => inr e
    | None => if bool_decide (NoDup (AcceptJobTypes initial)) then inl initial else inr errDuplicateTargetType
    end
  end.

Definition PrefixesFromNamespace (ns : string) : list string :=
  ["actorreminder||" +:+ ns +:+ "||"; "app||" +:+ ns +:+ "||"].

(** The app named by the type of a workflow or activity actor. *)
Definition suffix_app (appID : string) (suffix : string) : option string :=
  match CutSuffix appID suffix with
  | Some app => if 0 <? String.length app then Some app else None
  | None => None
  end.

Definition QueueStateKey (jobName : string) : option (string * string) :=
  match SplitN jobName 4 with
  | [kind; ns; owner; _] =>
    if String.eqb kind "app" then Some (ns, owner)
    else if String.eqb kind "actorreminder" then
      match CutPrefix owner ("dapr.internal." +:+ ns +:+ ".") with
      | None => None
      | Some appID =>
        match suffix_app appID ".workflow" with
        | Some app => Some (ns, app)
        | None => (λ app, (ns, app)) <$> suffix_app appID ".activity"
        end
      end
    else None
  | _ => None
  end.

End authz.

(** The name of a job, from its key and metadata (internal/cron). *)
Definition nameFromKey (key : string) (meta : JobMetadata) : string + api_error :=
  match PrefixFromMetadata meta with
  | inr e => inr e
  | inl prefix => match CutPrefix key prefix with Some name => inl name | None => inr errKeyMismatch end
  end.

(** ** Jobs of the cron engine *)

(** The metadata is an anypb.Any. *)
Class AnyPb := {
  any : Type;
  anypb_New : JobMetadata → option any;
  UnmarshalTo : any → option JobMetadata;
  Unmarshal_New meta a : anypb_New meta = Some a → UnmarshalTo a = Some meta
}.

Record cronJob `{AnyPb} := mkCronJob {
  cj_Schedule : option string;
  cj_DueTime : option string;
  cj_Ttl : option string;
  cj_Repeats : option N;
  cj_Metadata : any;
  cj_Payload : option string;
  cj_FailurePolicy : option FailurePolicy
}.

Inductive cron_error := JobAlreadyExists | NoSpace | CronOther.

(** What the engine keeps of a job it is given: the job, with the default failure
    policy, as the API documents it (a constant interval of 1s and at most 3
    retries), where it has none. *)
Definition defaultFailurePolicy : FailurePolicy := FailurePolicyConstant (Some 1000000000%Z) (Some 3%N).

Definition kept_job `{AnyPb} (j : cronJob) : cronJob := {|
  cj_Schedule := cj_Schedule j; cj_DueTime := cj_DueTime j; cj_Ttl := cj_Ttl j; cj_Repeats := cj_Repeats j;
  cj_Metadata := cj_Metadata j; cj_Payload := cj_Payload j;
  cj_FailurePolicy := Some (default defaultFailurePolicy (cj_FailurePolicy j)) |}.

(** The client of the engine.  An operation can fail, and may then have had an
    effect or not, or part of it; it never changes jobs it was not asked to
    change, and [AddIfNotExists] never replaces a job.  Names the engine accepts
    have no slash, and [List] returns keys in which the name follows a prefix
    that ends in one.  That the engine is not ready is a failure of the
    operation too. *)
Class Cron `{AnyPb} := {
  cron : Type;
  jobs : cron → gmap string cronJob;
  Add : string → cronJob → cron → cron * option cron_error;
  AddIfNotExists : string → cronJob → cron → cron * option cron_error;
  Delete : string → cron → cron * option cron_error;
  Get : string → cron → option cronJob + cron_error;
  List : string → cron → list (string * cronJob) + cron_error;
  DeletePrefixes : list string → cron → cron * option cron_error;
  keyPrefix : string;
  Add_at n j c : (Add n j c).2 = None → jobs (Add n j c).1 !! n = Some (kept_job j);
  Add_err n j c : jobs (Add n j c).1 !! n = Some (kept_job j) ∨ jobs (Add n j c).1 !! n = jobs c !! n;
  Add_frame n j c k : k ≠ n → jobs (Add n j c).1 !! k = jobs c !! k;
  AddIfNotExists_at n j c :
    (AddIfNotExists n j c).2 = None → jobs (AddIfNotExists n j c).1 !! n = Some (kept_job j);
  AddIfNotExists_err n j c :
    (jobs c !! n = None ∧ jobs (AddIfNotExists n j c).1 !! n = Some (kept_job j)) ∨
    jobs (AddIfNotExists n j c).1 !! n = jobs c !! n;
  AddIfNotExists_frame n j c k : k ≠ n → jobs (AddIfNotExists n j c).1 !! k = jobs c !! k;
  Delete_at n c : (Delete n c).2 = None → jobs (Delete n c).1 !! n = None;
  Delete_err n c : jobs (Delete n c).1 !! n = None ∨ jobs (Delete n c).1 !! n = jobs c !! n;
  Delete_frame n c k : k ≠ n → jobs (Delete n c).1 !! k = jobs c !! k;
  Get_at n c r : Get n c = inl r → r = jobs c !! n;
  List_at p c l : List p c = inl l →
    ∀ key j, (key, j) ∈ l ↔ ∃ n, key = keyPrefix +:+ n ∧ HasPrefix n p = true ∧ jobs c !! n = Some j;
  DeletePrefixes_at ps c k : (DeletePrefixes ps c).2 = None → existsb (HasPrefix k) ps = true →
    jobs (DeletePrefixes ps c).1 !! k = None;
  DeletePrefixes_err ps c k :
    jobs (DeletePrefixes ps c).1 !! k = None ∨ jobs (DeletePrefixes ps c).1 !! k = jobs c !! k;
  DeletePrefixes_frame ps c k : existsb (HasPrefix k) ps = false →
    jobs (DeletePrefixes ps c).1 !! k = jobs c !! k;
  names_accepted c n j : jobs c !! n = Some j → has_slash n = false;
  keyPrefix_slash : ∃ p, keyPrefix = p +:+ "/"
}.

(** ** The API *)

Definition schedFPToCron (fp : option JobFailurePolicy) : option FailurePolicy :=
  match fp with
  | Some (JobFailurePolicyConstant i m) => Some (FailurePolicyConstant i m)
  | Some JobFailurePolicyDrop => Some FailurePolicyDrop
  | Some JobFailurePolicyUnset | None => None
  end.

Definition cronFPToSched (fp : option FailurePolicy) : option JobFailurePolicy :=
  match fp with
  | Some (FailurePolicyConstant i m) => Some (JobFailurePolicyConstant i m)
  | Some FailurePolicyDrop => Some JobFailurePolicyDrop
  | Some FailurePolicyUnset | None => None
  end.

Section api.
Context `{C : Cron}.
Variable caller : option (option SpiffeID).

Definition FromRequest (req : Request) : (string * any) + api_error :=
  match authz_Job caller req with
  | Some e => inr e
  | None =>
    match anypb_New (GetMetadata req) with
    | None => inr errMarshal
    | Some meta => match buildJobName req with inl name => inl (name, meta) | inr e => inr e end
    end
  end.

Definition apiJob (job : Job) (meta : any) : cronJob := {|
  cj_Schedule := Schedule job; cj_DueTime := DueTime job; cj_Ttl := Ttl job; cj_Repeats := Repeats job;
  cj_Metadata := meta; cj_Payload := Data job; cj_FailurePolicy := schedFPToCron (job_FailurePolicy job) |}.

(** The job that is returned for one of the engine. *)
Definition job_of (j : cronJob) : Job := {|
  Schedule := cj_Schedule j; DueTime := cj_DueTime j; Ttl := cj_Ttl j; Repeats := cj_Repeats j;
  Data := cj_Payload j; job_FailurePolicy := cronFPToSched (cj_FailurePolicy j) |}.

Definition ScheduleJob (req : ScheduleJobRequest) (c : cron) : cron * option api_error :=
  match FromRequest (ReqSchedule req) with
  | inr e => (c, Some e)
  | inl (name, meta) =>
    let job := apiJob (sr_Job req) meta in
    let '(c', err) := if Overwrite req then Add name job c else AddIfNotExists name job c in
    (c', match err with
         | None => None
         | Some JobAlreadyExists => Some errAlreadyExists
         | Some NoSpace => Some errResourceExhausted
         | Some CronOther => Some errCron
         end)
  end.

Definition failed_with (err : option cron_error) : option api_error :=
  match err with Some _ => Some errCron | None => None end.

Definition DeleteJob (req : NamedRequest) (c : cron) : cron * option api_error :=
  match FromRequest (ReqNamed req) with
  | inr e => (c, Some e)
  | inl (name, _) => let '(c', err) := Delete name c in (c', failed_with err)
  end.

Definition GetJob (req : NamedRequest) (c : cron) : Job + api_error :=
  match FromRequest (ReqNamed req) with
  | inr e => inr e
  | inl (name, _) =>
    match Get name c with
    | inr _ => inr errCron
    | inl None => inr errNotFound
    | inl (Some job) => inl (job_of job)
    end
  end.

(** One entry of the list. *)
Definition named_job (key : string) (job : cronJob) : NamedJob + api_error :=
  match UnmarshalTo (cj_Metadata job) with
  | None => inr errUnmarshal
  | Some meta =>
    match PrefixFromMetadata meta with
    | inr e => inr e
    | inl prefix =>
      match CutPrefix (after_last_slash key) prefix with
      | None => inr errKeyMismatch
      | Some name => inl {| nj_Name := name; nj_Metadata := meta; nj_Job := job_of job |}
      end
    end
  end.

Fixpoint named_jobs (l : list (string * cronJob)) : list NamedJob + api_error :=
  match l with
  | [] => inl []
  | (key, job) :: l' =>
    match named_job key job with
    | inr e => inr e
    | inl nj => match named_jobs l' with inl njs => inl (nj :: njs) | inr e => inr e end
    end
  end.

Definition ListJobs (meta : JobMetadata) (c : cron) : list NamedJob + api_error :=
  match KeyFromMetadata caller meta false with
  | inr e => inr e
  | inl prefix =>
    match List prefix c with
    | inr _ => inr errCron
    | inl l => named_jobs l
    end
  end.

(** [triggerHandler]: the event handed to the connection pool when the engine
    triggers a job, if the job is deliverable. *)
Definition triggerHandler (name : string) (job : cronJob) : option JobEvent :=
  match UnmarshalTo (cj_Metadata job) with
  | None => None
  | Some meta =>
    match nameFromKey name meta with
    | inr _ => None
    | inl n => Some (mkJobEvent name n (default EmptyString (cj_Payload job)) meta)
    end
  end.

Definition delete_prefixes (ps : list string) (c : cron) : cron * option api_error :=
  let '(c', err) := DeletePrefixes ps c in (c', failed_with err).

Definition DeleteByMetadata (meta : JobMetadata) (IdPrefixMatch : option bool) (c : cron) : cron * option api_error :=
  match KeyFromMetadata caller meta (default false IdPrefixMatch) with
  | inr e => (c, Some e)
  | inl prefix => delete_prefixes [prefix] c
  end.

Definition DeleteByNamePrefix (meta : JobMetadata) (NamePrefix : string) (c : cron) : cron * option api_error :=
  match KeyFromMetadata caller meta false with
  | inr e => (c, Some e)
  | inl prefix => delete_prefixes [prefix +:+ NamePrefix] c
  end.

(** The controller, for a namespace that was deleted (internal/controller). *)
Definition namespace_Reconcile (ns : string) (c : cron) : cron * option api_error :=
  delete_prefixes (PrefixesFromNamespace ns) c.

(** ** Requests in sequence *)

Inductive call :=
| CSchedule (req : ScheduleJobRequest)
| CDelete (req : NamedRequest)
| CGet (req : NamedRequest)
| CList (meta : JobMetadata)
| CDeleteByMetadata (meta : JobMetadata) (IdPrefixMatch : option bool)
| CDeleteByNamePrefix (meta : JobMetadata) (NamePrefix : string).

(** What a call returns besides the error: the jobs in its response. *)
Definition serve (q : call) (c : cron) : cron * (list Job + api_error) :=
  let answer r := match r with (c', Some e) => (c', inr e) | (c', None) => (c', inl []) end in
  match q with
  | CSchedule req => answer (ScheduleJob req c)
  | CDelete req => answer (DeleteJob req c)
  | CGet req => (c, match GetJob req c with inl j => inl [j] | inr e => inr e end)
  | CList meta => (c, match ListJobs meta c with inl njs => inl (nj_Job <$> njs) | inr e => inr e end)
  | CDeleteByMetadata meta p => answer (DeleteByMetadata meta p c)
  | CDeleteByNamePrefix meta p => answer (DeleteByNamePrefix meta p c)
  end.

End api.

(** The jobs API as a whole: calls of any callers, and deleted namespaces. *)
Inductive api_event :=
| ECall (caller : option (option SpiffeID)) (q : call)
| ENamespaceDeleted (ns : string).

Definition api_step `{C : Cron} (e : api_event) (c : cron) : cron :=
  match e with
  | ECall caller q => (serve caller q c).1
  | ENamespaceDeleted ns => (namespace_Reconcile ns c).1
  end.
