(* ===== verification/SchedulerJobsProps.v ===== *)
(** * The scheduler's jobs API: properties

    With mTLS no app reads, changes or is sent the jobs of another, with the one
    exception the code names ([jobs_isolated]); what was scheduled is read back
    ([scheduled_job_read_back]); jobs are counted for the app they belong to
    ([queue_state_exact]). *)

From Stdlib Require Import Ascii.
From S2P Require Import Prelude GoLib HostAuthz PoolConnections SchedulerJobs.

(** ** Strings *)

Lemma string_append_cons c a b : String c a +:+ b = String c (a +:+ b).
Proof. reflexivity. Qed.

Lemma string_length_append a b : String.length (a +:+ b) = String.length a + String.length b.
Proof. induction a as [|x a IH]; [done|]. exact (f_equal S IH). Qed.

Lemma CutPrefix_spec s p r : CutPrefix s p = Some r ↔ s = p +:+ r.
Proof.
  revert s. induction p as [|x p IH]; intros s; cbn.
  - split; [by intros [= ->]|by intros ->]. 
  - destruct s as [|c s]; [done|]. destruct (Ascii.eqb_spec x c) as [->|Hne].
    + rewrite IH. split; [by intros ->|by intros [= ->]].
    + split; [done|]. intros [= ?]. congruence.
Qed.

Lemma CutSuffix_spec s x r : CutSuffix s x = Some r ↔ s = r +:+ x.
Proof.
  revert r. induction s as [|c s IH]; intros r; cbn [CutSuffix].
  - destruct (String.eqb_spec EmptyString x) as [<-|Hne].
    + split; [by intros [= <-]|]. intros E. destruct r; [done|discriminate E].
    + split; [done|]. intros E. destruct r; [by destruct Hne|discriminate E].
  - destruct (String.eqb_spec (String c s) x) as [<-|Hne].
    + split; [by intros [= <-]|]. intros E. destruct r as [|c' r]; [done|]. apply (f_equal String.length) in E.
      rewrite string_length_append in E. cbn in E. lia.
    + destruct r as [|c' r].
      * split; [by destruct (CutSuffix s x)|]. intros E. by destruct Hne.
      * specialize (IH r). split.
        -- destruct (CutSuffix s x) as [r'|]; [|done]. intros [= -> ->]. exact (f_equal (String c') (proj1 IH eq_refl)).
        -- intros E. injection E as -> E. apply IH in E. by rewrite E.
Qed.

Lemma HasSuffix_spec s x : HasSuffix s x = true ↔ ∃ r, s = r +:+ x.
Proof.
  induction s as [|c s IH]; cbn [HasSuffix]; rewrite orb_true_iff, String.eqb_eq.
  - split; [intros [<-|]; [by exists EmptyString|done]|]. intros [[] E]; [by left|done].
  - rewrite IH. split.
    + intros [<-|[r ->]]; [by exists EmptyString|by exists (String c r)].
    + intros [[|c' r] E]; [by left|right]. injection E as _ ->. by exists r.
Qed.

Lemma has_slash_app p n : has_slash (p +:+ String "/" n) = true.
Proof. induction p as [|c p IH]; [done|]. rewrite string_append_cons. cbn [has_slash]. rewrite IH. apply orb_true_r. Qed.

Lemma after_last_slash_app p n : has_slash n = false → after_last_slash (p +:+ String "/" n) = n.
Proof.
  intros Hn. induction p as [|c p IH].
  - change (EmptyString +:+ String "/" n) with (String "/" n). cbn [after_last_slash]. by rewrite Hn.
  - rewrite string_append_cons. cbn [after_last_slash]. by rewrite has_slash_app.
Qed.

Lemma CutBars_plain a r : plain a = true → CutBars (a +:+ "||" +:+ r) = Some (a, r).
Proof.
  induction a as [|c a IH]; intros Ha; [done|]. cbn in Ha. apply andb_true_iff in Ha as [Hc Ha].
  apply negb_true_iff in Hc. specialize (IH Ha). rewrite string_append_cons.
  destruct a as [|d a]; [cbn; by rewrite Hc|]. rewrite string_append_cons in *. cbn [CutBars] in *. by rewrite Hc, IH.
Qed.

(** A plain prefix of a text with a bar ends before the bar. *)
Lemma prefix_before_bar p y a x : plain p = true → a +:+ String bar x = p +:+ y → ∃ z, a = p +:+ z.
Proof.
  revert a. induction p as [|c p IH]; intros a Hp E; [by exists a|]. cbn in Hp. apply andb_true_iff in Hp as [Hc Hp].
  destruct a as [|d a]; cbn in E; [injection E as <- _; by rewrite Ascii.eqb_refl in Hc|].
  injection E as -> E. destruct (IH a Hp E) as [z ->]. by exists z.
Qed.

(** [s] is [a] followed by a dot or a bar. *)
Definition delimited (a s : string) : Prop := ∃ c t, (c = "."%char ∨ c = bar) ∧ s = a +:+ String c t.

Lemma delimited_inj a b s : plain a = true → no_dot a = true → plain b = true → no_dot b = true →
  delimited a s → delimited b s → a = b.
Proof.
  intros Pa Da Pb Db (c & t & Hc & ->) (d & u & Hd & E). revert b Pb Db E.
  induction a as [|x a IH]; intros [|y b] Pb Db E; cbn in *; [done|exfalso..|].
  - injection E as -> _. apply andb_true_iff in Pb as [Pb _], Db as [Db _].
    destruct Hc as [->| ->]; [by rewrite Ascii.eqb_refl in Db|by rewrite Ascii.eqb_refl in Pb].
  - injection E as -> _. apply andb_true_iff in Pa as [Pa _], Da as [Da _].
    destruct Hd as [->| ->]; [by rewrite Ascii.eqb_refl in Da|by rewrite Ascii.eqb_refl in Pa].
  - injection E as -> E. apply andb_true_iff in Pa as [_ Pa], Da as [_ Da], Pb as [_ Pb], Db as [_ Db].
    f_equal. by apply IH.
Qed.

Lemma headed_delimited a s r : headed a s → delimited a (s +:+ "||" +:+ r).
Proof.
  intros [->|[t ->]].
  - exists bar, (String bar r). split; [by right|done].
  - exists "."%char, (t +:+ "||" +:+ r). split; [by left|]. by rewrite string_append_assoc.
Qed.

(** ** Keys *)

Definition app_key (ns app r : string) : string := "app||" +:+ ns +:+ "||" +:+ app +:+ "||" +:+ r.
Definition actor_key (ns ty r : string) : string := "actorreminder||" +:+ ns +:+ "||" +:+ ty +:+ "||" +:+ r.

(** The keys of the jobs of an app: its jobs, and the reminders of the actor
    types that are reserved for it. *)
Definition owned_key (ns app k : string) : Prop :=
  (∃ r, k = app_key ns app r) ∨
  (∃ ty r, (InternalActorType ty ns app).2 = true ∧ k = actor_key ns ty r).

(** The keys an app may use: those of its jobs, and the reminders of actor types
    that are not reserved for others. *)
Definition allowed_type (ns app ty : string) : Prop :=
  (InternalActorType ty ns app).1 = true → (InternalActorType ty ns app).2 = true.

Definition usable_key (ns app k : string) : Prop :=
  (∃ r, k = app_key ns app r) ∨ (∃ ty r, allowed_type ns app ty ∧ k = actor_key ns ty r).

(** Namespaces and app IDs as the identities have them. *)
Definition id_ok (ns app : string) : bool := plain ns && plain app && no_dot app.

Lemma app_key_inj ns app r ns' app' r' :
  id_ok ns app = true → id_ok ns' app' = true → app_key ns app r = app_key ns' app' r' → ns = ns' ∧ app = app'.
Proof.
  intros [[H1 H2]%andb_true_iff _]%andb_true_iff [[H3 H4]%andb_true_iff _]%andb_true_iff E.
  unfold app_key in E. apply append_inj_l in E. apply plain_split in E as [-> E]; [|done..].
  injection E as E. by apply plain_split in E as [-> _].
Qed.

Lemma actor_key_inj ns ty r ns' ty' r' : plain ns = true → plain ns' = true →
  actor_key ns ty r = actor_key ns' ty' r' → ns = ns' ∧ ty +:+ "||" +:+ r = ty' +:+ "||" +:+ r'.
Proof.
  intros H1 H2 E. unfold actor_key in E. apply append_inj_l in E. apply plain_split in E as [-> E]; [|done..].
  by injection E as E.
Qed.

(** A reserved type is not reached through a key with a type of one's own. *)
Lemma allowed_type_foreign ns a b ty r ty' r' : id_ok ns a = true → id_ok ns b = true → a ≠ b →
  allowed_type ns a ty → (InternalActorType ty' ns b).2 = true → ty +:+ "||" +:+ r ≠ ty' +:+ "||" +:+ r'.
Proof.
  intros [[H1 H2]%andb_true_iff H3]%andb_true_iff [[_ H4]%andb_true_iff H5]%andb_true_iff Hne Hty
    (_ & _ & s' & -> & Hs')%owned_headed E.
  destruct (InternalActorType ty ns a).1 eqn:Ei.
  - specialize (Hty Ei). apply owned_headed in Hty as (_ & _ & s & -> & Hs).
    rewrite !string_append_assoc in E. apply append_inj_l, append_inj_l in E. injection E as E.
    apply Hne. apply (delimited_inj a b (s +:+ "||" +:+ r)); [done..|by apply headed_delimited|].
    rewrite E. by apply headed_delimited.
  - rewrite string_append_assoc in E.
    destruct (prefix_before_bar internalActorTypePrefix _ _ _ eq_refl E) as [z Hz].
    assert (reserved ty) as Hr by (right; eauto). apply (internal_spec _ ns a) in Hr. congruence.
Qed.

Lemma usable_key_foreign ns app ns' app' k : id_ok ns app = true → id_ok ns' app' = true →
  (ns, app) ≠ (ns', app') → usable_key ns app k → ¬ owned_key ns' app' k.
Proof.
  intros H1 H2 Hne [[r ->]|(ty & r & Hty & ->)] [[r' E]|(ty' & r' & Hty' & E)]; try discriminate E.
  - apply app_key_inj in E as [-> ->]; done.
  - assert (plain ns = true ∧ plain ns' = true) as [P1 P2]
      by (unfold id_ok in *; rewrite !andb_true_iff in *; naive_solver).
    apply actor_key_inj in E as [-> E]; [|done..].
    eapply (allowed_type_foreign ns' app app'); [done..| |done|done|done]. intros ->. done.
Qed.

(** ** What a caller can name *)

Lemma prefix_keys meta p : PrefixFromMetadata meta = inl p →
  match jm_Target meta with
  | TargetJob => p = app_key (jm_Namespace meta) (jm_AppId meta) EmptyString
  | TargetActor ty id => p = actor_key (jm_Namespace meta) ty (id +:+ "||")
  | TargetNone => False
  end.
Proof.
  unfold PrefixFromMetadata, app_key, actor_key. destruct (jm_Target meta) as [|ty id|]; [..|done]; intros [= <-];
    cbn [joinStrings]; by rewrite !string_append_assoc.
Qed.

Lemma build_prefix req k : buildJobName req = inl k ↔
  ∃ p, PrefixFromMetadata (GetMetadata req) = inl p ∧ k = p +:+ GetName req.
Proof.
  unfold buildJobName, PrefixFromMetadata. destruct (jm_Target (GetMetadata req)) as [|ty id|]; cbn [joinStrings].
  3: naive_solver.
  all: split; [intros [= <-]; eexists; split; [done|]|intros (p & [= <-] & ->); f_equal]; by rewrite !string_append_assoc.
Qed.

Lemma app_key_app ns app r s : app_key ns app r +:+ s = app_key ns app (r +:+ s).
Proof. unfold app_key. by rewrite !string_append_assoc. Qed.

Lemma actor_key_app ns ty r s : actor_key ns ty r +:+ s = actor_key ns ty (r +:+ s).
Proof. unfold actor_key. by rewrite !string_append_assoc. Qed.

(** The key of a request for a named job. *)
Lemma build_keys req k : buildJobName req = inl k →
  match jm_Target (GetMetadata req) with
  | TargetJob => ∃ r, k = app_key (jm_Namespace (GetMetadata req)) (jm_AppId (GetMetadata req)) r
  | TargetActor ty _ => ∃ r, k = actor_key (jm_Namespace (GetMetadata req)) ty r
  | TargetNone => False
  end.
Proof.
  intros (p & Hp & ->)%build_prefix. apply prefix_keys in Hp.
  destruct (jm_Target (GetMetadata req)); [..|done]; rewrite Hp, ?app_key_app, ?actor_key_app; eauto.
Qed.

Section isolation.
Variable id : SpiffeID.
#[local] Notation me := (Some (Some id)).

Lemma authz_identity ns app : authz me ns app = None → ns = id_Namespace id ∧ app = id_AppID id.
Proof.
  unfold authz. destruct (_ || _); [done|].
  destruct (String.eqb_spec (id_Namespace id) ns), (String.eqb_spec (id_AppID id) app); done.
Qed.

Lemma authz_job_allowed name meta createOnly : authz_job me name meta createOnly = None →
  jm_Namespace meta = id_Namespace id ∧ jm_AppId meta = id_AppID id ∧
  match jm_Target meta with
  | TargetActor ty _ => allowed_type (id_Namespace id) (id_AppID id) ty ∨
                        (createOnly = true ∧ activity_result name (id_Namespace id) ty = true)
  | _ => True
  end.
Proof.
  unfold authz_job. destruct (authz me _ _) eqn:E; [done|]. apply authz_identity in E as [-> ->].
  intros Hj. split; [done|]. split; [done|]. destruct (jm_Target meta) as [|ty aid|]; [done| |done].
  unfold allowed_type. destruct (InternalActorType ty _ _) as [[] []]; cbn in *; [by left| |by left..].
  destruct (createOnly && _) eqn:Ec; [|done]. apply andb_true_iff in Ec. by right.
Qed.

Lemma FromRequest_usable `{AnyPb} req k m : FromRequest me req = inl (k, m) →
  usable_key (id_Namespace id) (id_AppID id) k ∨
  ∃ r ty aid, req = ReqSchedule r ∧ Overwrite r = false ∧ jm_Target (sr_Metadata r) = TargetActor ty aid ∧
              activity_result (sr_Name r) (id_Namespace id) ty = true.
Proof.
  unfold FromRequest, authz_Job. destruct (authz_job _ _ _ _) eqn:Ea; [done|].
  destruct (anypb_New _); [|done]. destruct (buildJobName req) as [k'|] eqn:Eb; [|done]. intros [= -> ->].
  apply authz_job_allowed in Ea as (Hn & Ha & Ht). apply build_keys in Eb. rewrite Hn, Ha in Eb.
  destruct (jm_Target (GetMetadata req)) as [|ty aid|] eqn:Et; [|destruct Ht as [Ht|[Hc Ht]]|done].
  - destruct Eb as [r ->]. left. left. eauto.
  - destruct Eb as [r ->]. left. right. eauto.
  - right. destruct req as [r|]; [|done]. exists r, ty, aid. split_and!; [done| |done..]. by apply negb_true_iff.
Qed.

Lemma KeyFromMetadata_usable meta asPrefix p r : KeyFromMetadata me meta asPrefix = inl p →
  usable_key (id_Namespace id) (id_AppID id) (p +:+ r).
Proof.
  unfold KeyFromMetadata, authz_Metadata. destruct (authz_job _ _ _ _) eqn:Ea; [done|].
  apply authz_job_allowed in Ea as (-> & -> & Ht). destruct (jm_Target meta) as [|ty aid|]; [..|done].
  - intros [= <-]. left. exists r. cbn [joinStrings]. unfold app_key. by rewrite !string_append_assoc.
  - destruct Ht as [Ht|[? _]]; [|done]. intros [= <-]. right. exists ty. cbn [joinStrings]. unfold actor_key.
    destruct (0 <? _); [destruct asPrefix|]; rewrite !string_append_assoc; eauto.
Qed.

Lemma FromWatch_usable initial initial' p r : FromWatch me (Some initial) = inl initial' → p ∈ add_prefixes initial' →
  usable_key (id_Namespace id) (id_AppID id) (p +:+ r).
Proof.
  unfold FromWatch, WatchInitial. destruct (authz me _ _) eqn:E; [done|]. apply authz_identity in E as [Hn Ha].
  destruct (existsb _ _) eqn:Et; [done|]. case_bool_decide; [|done]. intros [= <-].
  unfold add_prefixes. rewrite Hn, Ha in *. rewrite elem_of_app. intros [Hp|Hp].
  - left. exists r. destruct (accepts _ _); [|set_solver]. apply list_elem_of_singleton in Hp as ->.
    unfold joined, app_key. cbn [foldr]. by rewrite string_append_nil_r, !string_append_assoc.
  - destruct (accepts _ _); [|set_solver]. apply list_elem_of_fmap in Hp as (ty & -> & Hty).
    right. exists ty, r. split.
    + intros Hi. destruct (InternalActorType ty (id_Namespace id) (id_AppID id)) as [i []] eqn:Ei; [done|]. cbn in Hi. subst i.
      apply not_true_iff_false in Et. destruct Et. apply existsb_exists. exists ty. rewrite Ei. split; [|done].
      apply list_elem_of_In. unfold watched_types. set_solver.
    + unfold joined, actor_key. cbn [foldr]. by rewrite string_append_nil_r, !string_append_assoc.
Qed.

End isolation.

(** ** Effects and answers *)

(** The call creates an activity result under the key. *)
Definition adds_result (ns : string) (q : call) (k : string) : Prop :=
  ∃ r ty aid, q = CSchedule r ∧ Overwrite r = false ∧ jm_Target (sr_Metadata r) = TargetActor ty aid ∧
    activity_result (sr_Name r) ns ty = true ∧ buildJobName (ReqSchedule r) = inl k.

Section effects.
Context `{C : Cron}.

Lemma FromRequest_name caller req k m : FromRequest caller req = inl (k, m) →
  buildJobName req = inl k ∧ anypb_New (GetMetadata req) = Some m.
Proof.
  unfold FromRequest. destruct (authz_Job _ _); [done|]. destruct (anypb_New _); [|done].
  destruct (buildJobName req); [|done]. by intros [= -> ->].
Qed.

(** A deletion by prefixes leaves the keys that have none of them. *)
Lemma delete_prefixes_frame ps c k : (∀ p r, p ∈ ps → k ≠ p +:+ r) →
  jobs (delete_prefixes ps c).1 !! k = jobs c !! k.
Proof.
  intros Hk. unfold delete_prefixes. destruct (DeletePrefixes ps c) as [c' err] eqn:E.
  replace c' with (DeletePrefixes ps c).1 by by rewrite E. cbn. apply DeletePrefixes_frame.
  apply not_true_iff_false. intros (p & Hp & (r & Hr)%prefix_spec)%existsb_exists.
  eapply Hk; [by apply list_elem_of_In|exact Hr].
Qed.

Lemma named_jobs_from l njs : named_jobs l = inl njs →
  ∀ nj, nj ∈ njs ↔ ∃ key cj, (key, cj) ∈ l ∧ named_job key cj = inl nj.
Proof.
  revert njs. induction l as [|[key cj] l IH]; intros njs; cbn [named_jobs].
  - intros [= <-] nj. set_solver.
  - destruct (named_job key cj) as [nj0|] eqn:E; [|done]. destruct (named_jobs l) as [njs'|]; [|done].
    intros [= <-] nj. rewrite elem_of_cons, (IH njs' eq_refl). split.
    + intros [->|(key' & cj' & Hin & Hnj)]; [exists key, cj|exists key', cj']; (split; [set_solver|done]).
    + intros (key' & cj' & [[= -> ->]|Hin]%elem_of_cons & Hnj); [left; congruence|right; eauto].
Qed.

Lemma named_job_of key cj nj : named_job key cj = inl nj → nj_Job nj = job_of cj.
Proof.
  unfold named_job. destruct (UnmarshalTo _) as [m|]; [|done]. destruct (PrefixFromMetadata m) as [p|]; [|done].
  destruct (CutPrefix _ _); [|done]. by intros [= <-].
Qed.

Lemma ScheduleJob_effect caller req c : (ScheduleJob caller req c).1 = c ∨ ∃ k m,
  FromRequest caller (ReqSchedule req) = inl (k, m) ∧
  (ScheduleJob caller req c).1 =
    (if Overwrite req then Add k (apiJob (sr_Job req) m) c else AddIfNotExists k (apiJob (sr_Job req) m) c).1.
Proof.
  unfold ScheduleJob. destruct (FromRequest _ _) as [[k m]|]; [|by left]. right. exists k, m. split; [done|].
  by destruct (if Overwrite req then _ else _).
Qed.

Lemma DeleteJob_effect caller req c : (DeleteJob caller req c).1 = c ∨ ∃ k m,
  FromRequest caller (ReqNamed req) = inl (k, m) ∧ (DeleteJob caller req c).1 = (Delete k c).1.
Proof.
  unfold DeleteJob. destruct (FromRequest _ _) as [[k m]|]; [|by left]. right. exists k, m. split; [done|].
  by destruct (Delete k c).
Qed.

Lemma serve_answer caller q c : (serve caller q c).1 =
  match q with
  | CSchedule req => (ScheduleJob caller req c).1
  | CDelete req => (DeleteJob caller req c).1
  | CGet _ | CList _ => c
  | CDeleteByMetadata meta p => (DeleteByMetadata caller meta p c).1
  | CDeleteByNamePrefix meta p => (DeleteByNamePrefix caller meta p c).1
  end.
Proof. destruct q; cbn [serve]; try done; by destruct (_ : cron * option api_error) as [? []]. Qed.

Lemma serve_frame id q c k : ¬ usable_key (id_Namespace id) (id_AppID id) k →
  jobs (serve (Some (Some id)) q c).1 !! k = jobs c !! k ∨
  (jobs c !! k = None ∧ adds_result (id_Namespace id) q k).
Proof.
  intros Hk. rewrite serve_answer. destruct q as [req|req|req|meta|meta ip|meta np]; try (by left).
  - destruct (ScheduleJob_effect (Some (Some id)) req c) as [->|(k' & m & Hr & ->)]; [by left|].
    destruct (decide (k = k')) as [->|Hne];
      [|left; destruct (Overwrite req); [by apply Add_frame|by apply AddIfNotExists_frame]].
    destruct (FromRequest_usable _ _ _ _ Hr) as [?|(r & ty & aid & [= <-] & Ho & Ht & Hres)]; [done|].
    rewrite Ho. destruct (AddIfNotExists_err k' (apiJob (sr_Job req) m) c) as [[Hn _]| ->]; [right|by left].
    split; [done|]. exists req, ty, aid. apply FromRequest_name in Hr as [? _]. done.
  - left. destruct (DeleteJob_effect (Some (Some id)) req c) as [->|(k' & m & Hr & ->)]; [done|].
    apply Delete_frame. intros ->. by destruct (FromRequest_usable _ _ _ _ Hr) as [?|(r & ty & aid & ? & _)].
  - left. unfold DeleteByMetadata. destruct (KeyFromMetadata _ _ _) as [p|] eqn:E; [|done].
    apply delete_prefixes_frame. intros p' r ->%list_elem_of_singleton ->. by eapply Hk, KeyFromMetadata_usable.
  - left. unfold DeleteByNamePrefix. destruct (KeyFromMetadata _ _ _) as [p|] eqn:E; [|done].
    apply delete_prefixes_frame. intros p' r ->%list_elem_of_singleton ->. rewrite string_append_assoc in Hk.
    by eapply Hk, KeyFromMetadata_usable.
Qed.

Lemma serve_discloses id q c js j : (serve (Some (Some id)) q c).2 = inl js → j ∈ js →
  ∃ k cj, jobs c !! k = Some cj ∧ j = job_of cj ∧ usable_key (id_Namespace id) (id_AppID id) k.
Proof.
  destruct q as [req|req|req|meta|meta ip|meta np]; cbn [serve].
  1,2,5,6: destruct (_ : cron * option api_error) as [? []]; [done|]; intros [= <-]; set_solver.
  - unfold GetJob. destruct (FromRequest _ _) as [[k m]|] eqn:Hr; [|done].
    destruct (Get k c) as [[cj|]|] eqn:Hg; [|done..]. intros [= <-] ->%list_elem_of_singleton.
    apply Get_at in Hg. exists k, cj. split; [done|]. split; [done|].
    by destruct (FromRequest_usable _ _ _ _ Hr) as [?|(r & ty & aid & ? & _)].
  - unfold ListJobs. destruct (KeyFromMetadata _ _ _) as [p|] eqn:Hp; [|done].
    destruct (List p c) as [l|] eqn:Hl; [|done]. destruct (named_jobs l) as [njs|] eqn:Hn; [|done].
    intros [= <-] (nj & -> & Hnj)%list_elem_of_fmap. apply (named_jobs_from _ _ Hn) in Hnj as (key & cj & Hin & E).
    apply (List_at _ _ _ Hl) in Hin as (k & -> & (r & Hk)%prefix_spec & Hj). exists k, cj. split; [done|].
    split; [by eapply named_job_of|]. rewrite Hk. by eapply KeyFromMetadata_usable.
Qed.

(** C12: Jobs of apps are isolated. With mTLS, for identities without the characters of the
    separators: whatever an app requests, the jobs of another app and the reminders of the
    actor types reserved for it stay as they are, except that an activity result that did
    not exist may be created for its workflow; the answers contain no such job, also for
    lists and deletions by prefix; and a stream the app opens is given no prefix of such a
    job's key. *)
Theorem jobs_isolated id ns app k :
  id_ok (id_Namespace id) (id_AppID id) = true → id_ok ns app = true →
  (id_Namespace id, id_AppID id) ≠ (ns, app) → owned_key ns app k →
  (∀ q c, jobs (serve (Some (Some id)) q c).1 !! k = jobs c !! k ∨
          (jobs c !! k = None ∧ adds_result (id_Namespace id) q k)) ∧
  (∀ q c js j, (serve (Some (Some id)) q c).2 = inl js → j ∈ js →
     ∃ k' cj, jobs c !! k' = Some cj ∧ j = job_of cj ∧ ¬ owned_key ns app k') ∧
  (∀ initial initial' p, FromWatch (Some (Some id)) (Some initial) = inl initial' → p ∈ add_prefixes initial' →
     HasPrefix k p = false).
Proof.
  intros H1 H2 Hne Hk.
  assert (∀ k', usable_key (id_Namespace id) (id_AppID id) k' → ¬ owned_key ns app k') as Hf
    by (intros k' Hu; by apply (usable_key_foreign (id_Namespace id) (id_AppID id))).
  split_and!.
  - intros q c. apply serve_frame. naive_solver.
  - intros q c js j Hs Hj. destruct (serve_discloses _ _ _ _ _ Hs Hj) as (k' & cj & ? & ? & ?). eauto 10.
  - intros initial initial' p Hw Hp. apply not_true_iff_false. intros [r ->]%prefix_spec.
    eapply Hf; [|exact Hk]. by eapply FromWatch_usable.
Qed.

(** ** Reading jobs back *)

(** A job as it is returned: without a failure policy, or with one that says
    nothing, it has the default one. *)
Definition default_policy : JobFailurePolicy := JobFailurePolicyConstant (Some 1000000000%Z) (Some 3%N).

Definition normal (j : Job) : Job := {|
  Schedule := Schedule j; Repeats := Repeats j; DueTime := DueTime j; Ttl := Ttl j; Data := Data j;
  job_FailurePolicy := match job_FailurePolicy j with
                       | None | Some JobFailurePolicyUnset => Some default_policy
                       | fp => fp
                       end |}.

Lemma job_of_apiJob j m : job_of (kept_job (apiJob j m)) = normal j.
Proof. destruct j as [????? [[]|]]; done. Qed.

(** The metadata of every stored job gives the prefix of its key. *)
Definition stored_ok (c : cron) : Prop :=
  ∀ k cj, jobs c !! k = Some cj →
    ∃ meta p n, UnmarshalTo (cj_Metadata cj) = Some meta ∧ PrefixFromMetadata meta = inl p ∧ k = p +:+ n.

Lemma delete_prefixes_jobs ps c k cj : jobs (delete_prefixes ps c).1 !! k = Some cj → jobs c !! k = Some cj.
Proof.
  unfold delete_prefixes. destruct (DeletePrefixes ps c) as [c' err] eqn:E.
  replace c' with (DeletePrefixes ps c).1 by by rewrite E. cbn. destruct (DeletePrefixes_err ps c k) as [-> | ->]; done.
Qed.

(** Where the jobs after a step come from. *)
Lemma step_jobs e c k cj : jobs (api_step e c) !! k = Some cj →
  jobs c !! k = Some cj ∨
  ∃ caller req m, FromRequest caller (ReqSchedule req) = inl (k, m) ∧ cj = kept_job (apiJob (sr_Job req) m).
Proof.
  destruct e as [caller q|ns]; cbn [api_step]; [|by left; eapply delete_prefixes_jobs].
  rewrite serve_answer. destruct q as [req|req|req|meta|meta ip|meta np]; [..|by left|by left| |].
  - destruct (ScheduleJob_effect caller req c) as [->|(k' & m & Hr & ->)]; [by left|].
    destruct (decide (k = k')) as [->|Hne].
    + destruct (Overwrite req).
      * destruct (Add_err k' (apiJob (sr_Job req) m) c) as [-> | ->]; [|by left]. intros [= <-]. right. eauto.
      * destruct (AddIfNotExists_err k' (apiJob (sr_Job req) m) c) as [[_ ->]| ->]; [|by left]. intros [= <-]. right. eauto.
    + destruct (Overwrite req); [rewrite Add_frame by done|rewrite AddIfNotExists_frame by done]; by left.
  - destruct (DeleteJob_effect caller req c) as [->|(k' & m & Hr & ->)]; [by left|].
    destruct (decide (k = k')) as [->|Hne]; [|rewrite Delete_frame by done; by left].
    destruct (Delete_err k' c) as [-> | ->]; [done|by left].
  - unfold DeleteByMetadata. destruct (KeyFromMetadata _ _ _); [|by left]. left. by eapply delete_prefixes_jobs.
  - unfold DeleteByNamePrefix. destruct (KeyFromMetadata _ _ _); [|by left]. left. by eapply delete_prefixes_jobs.
Qed.

Lemma scheduled_ok caller req k m : FromRequest caller (ReqSchedule req) = inl (k, m) →
  ∃ p, UnmarshalTo m = Some (sr_Metadata req) ∧ PrefixFromMetadata (sr_Metadata req) = inl p ∧ k = p +:+ sr_Name req.
Proof.
  intros [(p & Hp & ->)%build_prefix Hm]%FromRequest_name. apply Unmarshal_New in Hm. eauto.
Qed.

Lemma stored_ok_step e c : stored_ok c → stored_ok (api_step e c).
Proof.
  intros Hc k cj [?|(caller & req & m & Hr & ->)]%step_jobs; [by apply Hc|].
  apply scheduled_ok in Hr as (p & ? & ? & ->). eauto 10.
Qed.

Definition after (es : list api_event) (c : cron) : cron := foldl (λ c e, api_step e c) c es.

Lemma stored_ok_after es c : stored_ok c → stored_ok (after es c).
Proof. revert c. induction es as [|e es IH]; intros c Hc; [done|]. by apply IH, stored_ok_step. Qed.

(** An entry of a list, from what is stored. *)
Lemma named_job_stored n cj meta p name : has_slash n = false →
  UnmarshalTo (cj_Metadata cj) = Some meta → PrefixFromMetadata meta = inl p → n = p +:+ name →
  named_job (keyPrefix +:+ n) cj = inl (mkNamedJob name meta (job_of cj)).
Proof.
  intros Hn Hu Hp ->. unfold named_job. rewrite Hu, Hp. destruct keyPrefix_slash as [q ->].
  rewrite string_append_assoc. change ("/" +:+ (p +:+ name)) with (String "/" (p +:+ name)).
  rewrite after_last_slash_app by done.
  by rewrite (proj2 (CutPrefix_spec _ _ name) eq_refl).
Qed.

Lemma named_jobs_ok l : (∀ key cj, (key, cj) ∈ l → ∃ nj, named_job key cj = inl nj) → ∃ njs, named_jobs l = inl njs.
Proof.
  induction l as [|[key cj] l IH]; intros Hl; cbn [named_jobs]; [eauto|].
  destruct (Hl key cj ltac:(left)) as [nj ->]. destruct IH as [njs ->]; [|eauto]. intros. apply Hl. by right.
Qed.

Lemma List_named p c l : stored_ok c → List p c = inl l → ∃ njs, named_jobs l = inl njs.
Proof.
  intros Hc Hl. apply named_jobs_ok. intros key cj (n & -> & _ & Hj)%(List_at _ _ _ Hl).
  destruct (Hc _ _ Hj) as (meta & p' & name & Hu & Hp & ->). eexists. eapply named_job_stored; [|done..].
  by eapply names_accepted.
Qed.

Lemma KeyFromMetadata_prefix caller meta p pm : KeyFromMetadata caller meta false = inl p →
  PrefixFromMetadata meta = inl pm → ∃ r, pm = p +:+ r.
Proof.
  unfold KeyFromMetadata, PrefixFromMetadata. destruct (authz_Metadata _ _); [done|].
  destruct (jm_Target meta) as [|ty id|]; [..|done]; intros [= <-] [= <-]; cbn [joinStrings].
  - exists EmptyString. by rewrite string_append_nil_r.
  - destruct id as [|c id]; cbn [Nat.ltb Nat.leb String.length].
    + exists "||". rewrite !string_append_assoc. reflexivity.
    + exists EmptyString. rewrite string_append_nil_r, !string_append_assoc. reflexivity.
Qed.

Lemma ScheduleJob_stored caller req c c' : ScheduleJob caller req c = (c', None) → ∃ k m,
  FromRequest caller (ReqSchedule req) = inl (k, m) ∧ jobs c' !! k = Some (kept_job (apiJob (sr_Job req) m)).
Proof.
  unfold ScheduleJob. destruct (FromRequest _ _) as [[k m]|]; [|done]. intros E. exists k, m. split; [done|].
  destruct (Overwrite req).
  - pose proof (Add_at k (apiJob (sr_Job req) m) c) as Ha. destruct (Add _ _ _) as [c1 [[]|]]; try done.
    injection E as <-. by apply Ha.
  - pose proof (AddIfNotExists_at k (apiJob (sr_Job req) m) c) as Ha. destruct (AddIfNotExists _ _ _) as [c1 [[]|]]; try done.
    injection E as <-. by apply Ha.
Qed.

(** C11: What was scheduled is read back. In any state of the job store reached by requests,
    after a job was scheduled without error: a read returns it with its schedule, data and
    failure policy (the documented default, 1s and 3 retries, where it gave none), a list
    for its metadata contains it under its name with its metadata, and its trigger carries
    the name and the metadata, unless the request is not authorized or the engine fails;
    also when names and identifiers contain the separator, and whatever other jobs are
    stored. *)
Theorem scheduled_job_read_back es c0 caller req c' :
  jobs c0 = ∅ → ScheduleJob caller req (after es c0) = (c', None) →
  let name := sr_Name req in
  let meta := sr_Metadata req in
  ∃ k, buildJobName (ReqSchedule req) = inl k ∧
    (∃ cj, jobs c' !! k = Some cj ∧
       triggerHandler k cj = Some (mkJobEvent k name (default EmptyString (Data (sr_Job req))) meta)) ∧
    (∀ who, match GetJob who (mkNamedRequest name meta) c' with
            | inl j => j = normal (sr_Job req)
            | inr e => authz_Job who (ReqNamed (mkNamedRequest name meta)) = Some e ∨ e = errCron
            end) ∧
    (∀ who, match ListJobs who meta c' with
            | inl njs => mkNamedJob name meta (normal (sr_Job req)) ∈ njs
            | inr e => authz_Metadata who meta = Some e ∨ e = errCron
            end).
Proof.
  intros H0 Hs name meta. destruct (ScheduleJob_stored _ _ _ _ Hs) as (k & m & Hr & Hk).
  destruct (FromRequest_name _ _ _ _ Hr) as [Hb Hm]. destruct (scheduled_ok _ _ _ _ Hr) as (p & Hu & Hp & Ek).
  assert (stored_ok c') as Hc.
  { replace c' with (api_step (ECall caller (CSchedule req)) (after es c0)) by (cbn [api_step]; by rewrite serve_answer, Hs).
    apply stored_ok_step, stored_ok_after. intros k' cj. by rewrite H0, lookup_empty. }
  exists k. split; [done|]. split; [|split].
  - exists (kept_job (apiJob (sr_Job req) m)). split; [done|]. unfold triggerHandler, nameFromKey.
    cbn [cj_Metadata cj_Payload kept_job apiJob].
    by rewrite Hu, Hp, Ek, (proj2 (CutPrefix_spec _ _ (sr_Name req)) eq_refl).
  - intros who. unfold GetJob, FromRequest. destruct (authz_Job who _) eqn:Ea; [by left|]. cbn [GetMetadata].
    cbn [GetMetadata] in Hm. unfold meta. cbn [nr_Metadata]. rewrite Hm.
    replace (buildJobName (ReqNamed _)) with (buildJobName (ReqSchedule req)) by done. rewrite Hb.
    destruct (Get k c') as [r|] eqn:Eg; [|by right]. apply Get_at in Eg. rewrite Hk in Eg. subst r. apply job_of_apiJob.
  - intros who. unfold ListJobs. destruct (KeyFromMetadata who meta false) as [pk|e] eqn:Ep.
    + destruct (List pk c') as [l|] eqn:El; [|by right]. destruct (List_named _ _ _ Hc El) as [njs Hn]. rewrite Hn.
      apply (named_jobs_from _ _ Hn). exists (keyPrefix +:+ k), (kept_job (apiJob (sr_Job req) m)). split.
      * apply (List_at _ _ _ El). exists k. split_and!; [done| |done]. apply prefix_spec.
        destruct (KeyFromMetadata_prefix _ _ _ _ Ep Hp) as [r ->]. rewrite Ek, string_append_assoc. eauto.
      * rewrite <- (job_of_apiJob _ m). eapply named_job_stored; [by eapply names_accepted|done..].
    + left. unfold KeyFromMetadata in Ep. destruct (authz_Metadata who meta); [congruence|].
      unfold PrefixFromMetadata in Hp. fold meta in Hp. by destruct (jm_Target meta).
Qed.

(** ** Namespaces *)

(** When the controller handles the deletion of a namespace without error, the jobs of the
    namespace are gone; jobs of other namespaces stay in any case. *)
Lemma namespace_jobs_deleted ns req k c : buildJobName req = inl k →
  plain ns = true → plain (jm_Namespace (GetMetadata req)) = true →
  if decide (jm_Namespace (GetMetadata req) = ns)
  then (namespace_Reconcile ns c).2 = None → jobs (namespace_Reconcile ns c).1 !! k = None
  else jobs (namespace_Reconcile ns c).1 !! k = jobs c !! k.
Proof.
  intros Hb Hp Hp'. apply build_keys in Hb.
  assert (∃ kind r, (kind = "app||" ∨ kind = "actorreminder||") ∧ k = kind +:+ jm_Namespace (GetMetadata req) +:+ "||" +:+ r)
    as (kind & r & Hkind & ->).
  { destruct (jm_Target (GetMetadata req)) as [|ty id|]; [..|done]; destruct Hb as [r ->];
      [exists "app||"|exists "actorreminder||"]; eexists; (split; [by auto|reflexivity]). }
  unfold namespace_Reconcile. case_decide as Hns.
  - rewrite Hns. unfold delete_prefixes. intros He.
    pose proof (DeletePrefixes_at (PrefixesFromNamespace ns) c (kind +:+ ns +:+ "||" +:+ r)) as Hd.
    destruct (DeletePrefixes _ _) as [c1 [e|]]; [done|]. apply Hd; [done|].
    apply existsb_exists. exists (kind +:+ ns +:+ "||"). split; [destruct Hkind as [-> | ->]; cbn; auto|].
    apply prefix_spec. exists r. by rewrite !string_append_assoc.
  - apply delete_prefixes_frame. unfold PrefixesFromNamespace. intros p r'. rewrite !elem_of_cons.
    intros [->|[->|[]%elem_of_nil]] E; destruct Hkind as [-> | ->]; try discriminate E;
      rewrite !string_append_assoc in E; apply append_inj_l in E; by apply plain_split in E as [? _].
Qed.

End effects.

(** ** Counting *)

Fixpoint last_char (s : string) : option ascii :=
  match s with
  | EmptyString => None
  | String c s' => match last_char s' with Some d => Some d | None => Some c end
  end.

Lemma last_char_app a b c : last_char b = Some c → last_char (a +:+ b) = Some c.
Proof. intros Hb. induction a as [|x a IH]; [done|]. rewrite string_append_cons. cbn. by rewrite IH. Qed.

Lemma suffix_app_spec s x app : suffix_app s x = Some app ↔ app ≠ EmptyString ∧ s = app +:+ x.
Proof.
  unfold suffix_app. rewrite <- CutSuffix_spec. destruct (CutSuffix s x) as [[|c a]|]; cbn; naive_solver.
Qed.

Lemma SplitN_4 a b d r : plain a = true → plain b = true → plain d = true →
  SplitN (a +:+ "||" +:+ b +:+ "||" +:+ d +:+ "||" +:+ r) 4 = [a; b; d; r].
Proof. intros Ha Hb Hd. cbn [SplitN]. by rewrite !CutBars_plain. Qed.

(** The app for which the jobs of a target are counted. *)
Definition counted_app (meta : JobMetadata) (app : string) : Prop :=
  match jm_Target meta with
  | TargetJob => app = jm_AppId meta
  | TargetActor ty _ => app ≠ EmptyString ∧
      (ty = "dapr.internal." +:+ jm_Namespace meta +:+ "." +:+ app +:+ ".workflow" ∨
       ty = "dapr.internal." +:+ jm_Namespace meta +:+ "." +:+ app +:+ ".activity")
  | TargetNone => False
  end.

Definition target_plain (meta : JobMetadata) : bool :=
  plain (jm_Namespace meta) &&
  match jm_Target meta with TargetJob => plain (jm_AppId meta) | TargetActor ty _ => plain ty | TargetNone => true end.

(** C36: Jobs are counted for the right app: a job for its app, a reminder of a workflow or
    activity actor for the app its type names, in its namespace, and every other reminder
    for none, if namespace, app and type have no separator in them; identifiers and names
    may have. *)
Theorem queue_state_exact req k ns app :
  buildJobName req = inl k → target_plain (GetMetadata req) = true →
  QueueStateKey k = Some (ns, app) ↔ ns = jm_Namespace (GetMetadata req) ∧ counted_app (GetMetadata req) app.
Proof.
  unfold target_plain, counted_app. intros Hb%build_keys [Hn Ht]%andb_true_iff.
  destruct (jm_Target (GetMetadata req)) as [|ty id|]; [..|done]; destruct Hb as [r ->]; unfold QueueStateKey.
  - change (app_key _ _ r) with ("app" +:+ "||" +:+ jm_Namespace (GetMetadata req) +:+ "||" +:+ jm_AppId (GetMetadata req) +:+ "||" +:+ r).
    rewrite SplitN_4 by done. cbn. naive_solver.
  - change (actor_key _ _ r) with ("actorreminder" +:+ "||" +:+ jm_Namespace (GetMetadata req) +:+ "||" +:+ ty +:+ "||" +:+ r).
    rewrite SplitN_4 by done. cbn [String.eqb Ascii.eqb Bool.eqb].
    set (P := "dapr.internal." +:+ jm_Namespace (GetMetadata req) +:+ ".").
    assert (∀ x, ty = "dapr.internal." +:+ jm_Namespace (GetMetadata req) +:+ "." +:+ app +:+ x ↔
                 CutPrefix ty P = Some (app +:+ x)) as HP.
    { intros x. rewrite CutPrefix_spec. unfold P. by rewrite !string_append_assoc. }
    rewrite !HP. destruct (CutPrefix ty P) as [s|]; [|naive_solver].
    destruct (suffix_app s ".workflow") as [a|] eqn:E1.
    + apply suffix_app_spec in E1 as [Ha ->]. split.
      * intros [= <- <-]. auto.
      * intros (-> & Happ & [E|E]); injection E as E.
        -- do 2 f_equal. apply (f_equal (λ s, CutSuffix s ".workflow")) in E.
           rewrite !(proj2 (CutSuffix_spec _ _ _) eq_refl) in E. congruence.
        -- apply (f_equal last_char) in E. by erewrite !last_char_app in E by done.
    + assert (s = app +:+ ".workflow" → app = EmptyString) as Hw.
      { intros ->. destruct (decide (app = EmptyString)) as [|Hne]; [done|].
        rewrite (proj2 (suffix_app_spec _ _ app)) in E1 by done. done. }
      destruct (suffix_app s ".activity") as [a|] eqn:E2; cbn.
      * apply suffix_app_spec in E2 as [Ha ->]. split; [intros [= <- <-]; auto|].
        intros (-> & Happ & [[= E]|[= E]]); [naive_solver|]. do 2 f_equal.
        apply (f_equal (λ s, CutSuffix s ".activity")) in E.
        rewrite !(proj2 (CutSuffix_spec _ _ _) eq_refl) in E. congruence.
      * split; [done|]. intros (-> & Happ & [[= E]|[= E]]); [naive_solver|].
        rewrite (proj2 (suffix_app_spec s _ app)) in E2 by done. done.
Qed.

(** ** An engine in memory *)

#[local] Instance w_any : AnyPb.
Proof. refine {| any := JobMetadata; anypb_New := Some; UnmarshalTo := Some |}. by intros meta a [= <-]. Defined.

Definition w_jobs (c : gmap string cronJob) : gmap string cronJob := filter (λ kj, has_slash kj.1 = false) c.

Definition w_add (n : string) (j : cronJob) (c : gmap string cronJob) : gmap string cronJob * option cron_error :=
  if has_slash n then (c, Some CronOther) else (<[n := kept_job j]> c, None).

Definition w_addIfNotExists (n : string) (j : cronJob) (c : gmap string cronJob) :
    gmap string cronJob * option cron_error :=
  match w_jobs c !! n with Some _ => (c, Some JobAlreadyExists) | None => w_add n j c end.

Definition w_list (p : string) (c : gmap string cronJob) : list (string * cronJob) :=
  (λ nj, ("dapr/jobs/" +:+ nj.1, nj.2)) <$> map_to_list (filter (λ nj, HasPrefix nj.1 p = true) (w_jobs c)).

Definition w_deletePrefixes (ps : list string) (c : gmap string cronJob) : gmap string cronJob :=
  filter (λ nj, existsb (HasPrefix nj.1) ps = false) c.

Lemma w_jobs_lookup c n : w_jobs c !! n = if has_slash n then None else c !! n.
Proof.
  unfold w_jobs. destruct (has_slash n) eqn:E.
  - apply map_lookup_filter_None. right. intros x _ H. cbn in H. congruence.
  - destruct (c !! n) as [j|] eqn:Ej.
    + by apply map_lookup_filter_Some.
    + apply map_lookup_filter_None. by left.
Qed.

Lemma w_add_lookup n j c k : w_jobs (w_add n j c).1 !! k =
  if decide (k = n ∧ has_slash n = false) then Some (kept_job j) else w_jobs c !! k.
Proof.
  unfold w_add. rewrite !w_jobs_lookup. destruct (has_slash n) eqn:E; cbn; rewrite ?w_jobs_lookup.
  - by rewrite decide_False by naive_solver.
  - destruct (decide (k = n)) as [->|Hne].
    + by rewrite decide_True, E, lookup_insert_eq by done.
    + by rewrite decide_False, lookup_insert_ne by naive_solver.
Qed.

Lemma w_deletePrefixes_lookup ps c k : w_jobs (w_deletePrefixes ps c) !! k =
  if existsb (HasPrefix k) ps then None else w_jobs c !! k.
Proof.
  rewrite !w_jobs_lookup. unfold w_deletePrefixes. destruct (existsb _ ps) eqn:E.
  - destruct (has_slash k); [done|]. apply map_lookup_filter_None. right. intros x _ H. cbn in H. congruence.
  - destruct (has_slash k); [done|]. destruct (c !! k) as [j|] eqn:Ej.
    + by apply map_lookup_filter_Some.
    + apply map_lookup_filter_None. by left.
Qed.

#[local] Instance w_cron : Cron.
Proof.
  refine {|
    cron := gmap string cronJob;
    jobs := w_jobs;
    Add := w_add;
    AddIfNotExists := w_addIfNotExists;
    Delete n c := (delete n c, None);
    Get n c := inl (w_jobs c !! n);
    List p c := inl (w_list p c);
    DeletePrefixes ps c := (w_deletePrefixes ps c, None);
    keyPrefix := "dapr/jobs/"
  |}.
  - intros n j c. rewrite w_add_lookup. unfold w_add. destruct (has_slash n); [done|]. intros _. by rewrite decide_True.
  - intros n j c. rewrite w_add_lookup. case_decide; [by left|by right].
  - intros n j c k Hk. rewrite w_add_lookup, decide_False; [done|naive_solver].
  - intros n j c. unfold w_addIfNotExists. destruct (w_jobs c !! n); [done|]. rewrite w_add_lookup. unfold w_add.
    destruct (has_slash n); [done|]. intros _. by rewrite decide_True.
  - intros n j c. unfold w_addIfNotExists. destruct (w_jobs c !! n) eqn:E; [by right|]. rewrite w_add_lookup.
    case_decide; [by left|by right].
  - intros n j c k Hk. unfold w_addIfNotExists. destruct (w_jobs c !! n); [done|].
    rewrite w_add_lookup, decide_False; [done|naive_solver].
  - intros n c _. rewrite w_jobs_lookup. cbn. rewrite lookup_delete_eq. by destruct (has_slash n).
  - intros n c. left. rewrite w_jobs_lookup. cbn. rewrite lookup_delete_eq. by destruct (has_slash n).
  - intros n c k Hk. rewrite !w_jobs_lookup. cbn. by rewrite lookup_delete_ne by done.
  - by intros n c r [= <-].
  - intros p c l [= <-] key j. unfold w_list. rewrite list_elem_of_fmap. split.
    + intros ([n j'] & [= -> ->] & [H1 H2]%elem_of_map_to_list%map_lookup_filter_Some). exists n. done.
    + intros (n & -> & H1 & H2). exists (n, j). split; [done|]. by apply elem_of_map_to_list, map_lookup_filter_Some.
  - intros ps c k _ Hk. cbn. by rewrite w_deletePrefixes_lookup, Hk.
  - intros ps c k. cbn. rewrite w_deletePrefixes_lookup. destruct (existsb _ _); auto.
  - intros ps c k Hk. cbn. by rewrite w_deletePrefixes_lookup, Hk.
  - intros c n j. rewrite w_jobs_lookup. by destruct (has_slash n).
  - by exists "dapr/jobs".
Defined.

(** ** Examples *)

Definition w_meta (app : string) (t : Target) : JobMetadata := mkJobMetadata app "default" t None.

Definition w_job (data : string) : Job :=
  mkJob (Some "@every 1m") None None None (Some data) (Some (JobFailurePolicyConstant (Some 5%Z) None)).

Definition w_shop : SpiffeID := mkSpiffeID "shop" "default".
Definition w_bank : SpiffeID := mkSpiffeID "bank" "default".

Definition w_workflow : string := "dapr.internal.default.bank.workflow".

Definition w_schedule (app name : string) (t : Target) (overwrite : bool) : call :=
  CSchedule (mkScheduleJobRequest name (w_job name) (w_meta app t) overwrite).

(** Jobs of two apps, a reminder of a workflow of one and an activity result the
    other created for it. *)
Definition w_events : list api_event := [
  ECall (Some (Some w_shop)) (w_schedule "shop" "restock" TargetJob false);
  ECall (Some (Some w_bank)) (w_schedule "bank" "audit" TargetJob false);
  ECall (Some (Some w_bank)) (w_schedule "bank" "timer-1" (TargetActor w_workflow "wf1") false);
  ECall (Some (Some w_shop)) (w_schedule "shop" "activity-result-1" (TargetActor w_workflow "wf1") false)].

Example jobs_stored : elements (dom (jobs (after w_events ∅))) =
  ["actorreminder||default||dapr.internal.default.bank.workflow||wf1||activity-result-1";
   "actorreminder||default||dapr.internal.default.bank.workflow||wf1||timer-1";
   "app||default||shop||restock"; "app||default||bank||audit"].
Proof. vm_compute. reflexivity. Qed.

(** What another app tries is refused. *)
Example jobs_refused :
  (λ q, (serve (Some (Some w_shop)) q (after w_events ∅)).2) <$>
    [w_schedule "shop" "timer-2" (TargetActor w_workflow "wf1") false;
     w_schedule "shop" "activity-result-1" (TargetActor w_workflow "wf1") true;
     CDelete (mkNamedRequest "activity-result-1" (w_meta "shop" (TargetActor w_workflow "wf1")));
     CList (w_meta "bank" TargetJob);
     CDeleteByMetadata (w_meta "shop" (TargetActor "dapr.internal" EmptyString)) (Some true)] =
  [inr errActorTypeNotAllowed; inr errActorTypeNotAllowed; inr errActorTypeNotAllowed; inr errIdentityMismatch;
   inr errActorTypeNotAllowed].
Proof. vm_compute. reflexivity. Qed.

(** Keys join actor and name: the reminder of one actor stands in the way of one
    of another actor, and is deleted with the reminders of that actor. *)
Example reminder_key_collision :
  let c := after [ECall None (w_schedule "shop" "b" (TargetActor "cat" "tom||a") false)] ∅ in
  (serve None (w_schedule "shop" "a||b" (TargetActor "cat" "tom") false) c).2 = inr errAlreadyExists ∧
  size (jobs c) = 1 ∧
  size (jobs (serve None (CDeleteByMetadata (w_meta "shop" (TargetActor "cat" "tom")) None) c).1) = 0.
Proof. vm_compute. done. Qed.

Lemma jobs_isolated_witness :
  let k := "actorreminder||default||dapr.internal.default.bank.workflow||wf1||timer-1" in
  owned_key "default" "bank" k ∧ is_Some (jobs (after w_events ∅) !! k) ∧
  ∀ q, jobs (serve (Some (Some w_shop)) q (after w_events ∅)).1 !! k = jobs (after w_events ∅) !! k ∨
       jobs (after w_events ∅) !! k = None.
Proof.
  intros k. assert (owned_key "default" "bank" k) as Hk.
  { right. exists w_workflow, "wf1||timer-1". split; reflexivity. }
  split; [exact Hk|]. split; [vm_compute; eexists; reflexivity|]. intros q.
  destruct (jobs_isolated w_shop "default" "bank" k) as [H _]; [reflexivity|reflexivity|discriminate|exact Hk|].
  destruct (H q (after w_events ∅)) as [H1|[H1 _]]; [left; exact H1|right; exact H1].
Defined.

Definition w_request : ScheduleJobRequest :=
  mkScheduleJobRequest "a||b" (mkJob (Some "@every 1m") None None None (Some "food") None) (w_meta "bank" (TargetActor "cat||x" "tom||y")) true.

Lemma scheduled_job_read_back_witness :
  (ScheduleJob (Some (Some w_bank)) w_request (after w_events ∅)).2 = None ∧
  match ListJobs (Some (Some w_bank)) (sr_Metadata w_request)
          (ScheduleJob (Some (Some w_bank)) w_request (after w_events ∅)).1 with
  | inl njs => mkNamedJob "a||b" (sr_Metadata w_request)
      (mkJob (Some "@every 1m") None None None (Some "food")
        (Some (JobFailurePolicyConstant (Some 1000000000%Z) (Some 3%N)))) ∈ njs
  | inr e => authz_Metadata (Some (Some w_bank)) (sr_Metadata w_request) = Some e ∨ e = errCron
  end.
Proof.
  split; [vm_compute; reflexivity|].
  destruct (scheduled_job_read_back (C := w_cron) w_events (∅ : gmap string cronJob) (Some (Some w_bank)) w_request
              (ScheduleJob (Some (Some w_bank)) w_request (after w_events ∅)).1) as (k & _ & _ & _ & H);
    [vm_compute; reflexivity|vm_compute; reflexivity|]. exact (H (Some (Some w_bank))).
Defined.

Lemma queue_state_exact_witness :
  let req := ReqNamed (mkNamedRequest "timer-1" (w_meta "shop" (TargetActor w_workflow "wf||1"))) in
  let k := "actorreminder||default||dapr.internal.default.bank.workflow||wf||1||timer-1" in
  buildJobName req = inl k ∧ target_plain (GetMetadata req) = true ∧ QueueStateKey k = Some ("default", "bank").
Proof.
  intros req k. split; [reflexivity|]. split; [reflexivity|].
  apply (queue_state_exact req k "default" "bank" eq_refl eq_refl). split; [reflexivity|].
  split; [discriminate|]. left. reflexivity.
Defined.
